(* ===== verification/_CoqProject ===== *)
-Q . S2P
Prelude.v
Model.v
Wire.v
Values.v
Codec.v
DecodeSafety.v
EncodeSafety.v
ArraySlots.v
Roundtrip.v
Keys.v
Bucket.v
RecordBatch.v
Arrow.v
SchemaJSON.v
Float.v
FloatArith.v
Predicate.v
Errors.v
Protocol.v
Transport.v
WriterRetry.v
Partition.v
Metadata.v
MetadataSpec.v
Client.v
SecurityToken.v
TokenProperties.v
Scheduler.v
WriterLoop.v
WriterRun.v
KVWriter.v
KVRun.v
KVMutation.v
LogWriter.v
LogProperties.v
Coalescer.v
ConnectionPool.v
SchemaCache.v
SchemaEvolution.v
ScanDecode.v
ScanBounds.v
LogScanner.v
ValueBatch.v
ScanProperties.v
BatchScanner.v
BatchProperties.v
Lookup.v
LookupScheduler.v
LookupProperties.v
RemoteFiles.v
RemoteDownload.v
RemoteProperties.v
LocalReader.v
LogBackend.v
Admin.v
AdminCluster.v
AdminProperties.v
Typed.v
TypedProperties.v
Adapters.v
AdapterProperties.v
Tables.v
Connect.v
