(* ===== verification/Prelude.v ===== *)
(** * A verification library for fluss-go

    fluss-go is a Go client for Apache Fluss, a streaming store of log tables and primary-key
    tables.  This library models the client's own logic, the packages under [src/pkg/fgo],
    [src/pkg/fadm], [src/pkg/fmsg], [src/internal] and the readers of [src/adapters], and proves it
    correct.

    ** The program

    A [Client] opens a coordinator connection, negotiates API versions, and keeps a pool of server
    connections ([connection_manager.go]) over a framed transport ([internal/transport]).  A
    [Router] ([metadata.go]) caches which server leads which bucket.  On top of these
    - writers batch rows by bucket and send them one batch at a time per bucket ([kv_writer.go],
      [log_writer.go], [writer_retry.go], [partition.go]);
    - scanners fetch log batches, decode them with the schema they were written with, and evolve
      the rows to the reader's schema ([log_scanner*.go], [schema_resolver.go], [predicate.go]);
    - lookups share requests through schedulers and coalescers ([lookup*.go], [coalescer.go]).
    Rows travel in two binary formats ([row_codec.go] and its helpers) inside batches
    ([record_batch.go]) or as Arrow record batches ([arrow*.go]).

    ** The files

    Shared
    - [Prelude]: errors, the outcome of a Go call (a value, an error, a panic), machine integers,
      byte buffers, automation.

    Data and codecs
    - [Model]: [logical_type.go], [model.go], [records.go]: schemas, types, rows, validation.
    - [Wire], [Values]: the byte-level and scalar helpers of [row_codec.go], [row_value_codec.go].
    - [Codec]: [encodeRow], [decodeRow], arrays and maps ([binary_array_codec.go]), keys.
      [DecodeSafety], [EncodeSafety]: they always return; [ArraySlots], [Roundtrip]: decoding
      inverts encoding; [Keys]: primary keys are encoded injectively.
    - [Bucket]: [bucket.go], the Murmur3 bucket hash.
    - [RecordBatch]: [record_batch.go], KV and log batches and their checksums.
    - [Arrow]: [arrow.go], [arrow_batch.go].
    - [SchemaJSON]: the schema document of [model.go].
    - [Float], [Predicate]: [predicate.go], building and compiling filters, and its conversions
      between floating-point formats.

    Connections
    - [Errors]: [errors.go] and the error table of [fmsg/api_keys_gen.go].
    - [Protocol]: [fmsg/protocol.go], the API tables, version negotiation.
    - [Transport]: [internal/transport/connection.go], every interleaving of its callers.
    - [Metadata]: [metadata.go], [metadata_client.go], [client_routing.go], [RequestBucket];
      [MetadataSpec]: what a metadata response describes, apart from how it is read.
    - [Client]: [client_options.go], request retries, [client_auth.go], [auth.go].
    - [FloatArith], [SecurityToken]: [security_token.go] and its floating-point delays;
      [TokenProperties]: what it promises.
    - [Coalescer]: [coalescer.go]; [ConnectionPool]: [connection_manager.go] over the coalescer.
    - [Connect]: opening one connection, bootstrap, [Open], requests and [Close] of a client
      ([client.go], [connection_manager.go]).

    Writers
    - [WriterRetry]: [writer_retry.go], [write_future.go]; [Partition]: [partition.go].
    - [Scheduler], [WriterLoop], [WriterRun]: what [kv_writer.go] and [log_writer.go] share, once,
      over the interface of a batch policy; [KVWriter], [KVRun], [KVMutation] and [LogWriter],
      [LogProperties] are the two instances.

    Scanners
    - [SchemaCache], [SchemaEvolution]: [schema_resolver.go]; [Tables]: [GetTable] and the schemas
      of [model.go] over the cache.
    - [ScanDecode]: [log_scanner_decode.go]; [ScanBounds]: [log_scanner_bounds.go],
      [log_scanner_options.go]; [LogScanner], [ScanProperties]: [log_scanner.go].
    - [ValueBatch]: the value batches of [batch_scanner_decode.go]; [BatchScanner]: the rest of it,
      [batch_scanner.go] and its options and backend; [BatchProperties]: what it promises.

    Remote files
    - [RemoteFiles]: [remote_file.go], plans and reads with retries, and the files of
      [remote_snapshot.go]; [RemoteDownload]: [remote_download.go], the scheduler of downloads;
      [RemoteProperties]: what they promise, to any reader with the interface [FaithfulReader];
      [LocalReader]: the local reader of [remote_file_reader.go], an instance of it.
    - [LogBackend]: [log_scanner_backend.go], the scanner's requests, and the records of remote
      segments joined to those of a reply.

    - [Adapters]: [internal/storageadapter/object.go] and the S3, OSS and HDFS readers of
      [src/adapters], further instances; [AdapterProperties]: what they promise.

    Lookups
    - [Lookup]: [lookup_options.go], [lookup_backend.go], the calls and results of [lookup.go].
    - [LookupScheduler]: [lookup_scheduler.go] and the tasks of [lookup.go], every interleaving
      of callers, timer, workers and [Close]; [LookupProperties]: what it promises.

    Typed values
    - [Typed]: [typed.go], over the writers, lookups and scanners; [TypedProperties]: what it adds.

    Administration
    - [Admin]: [fadm/client.go], [fadm/v1.go]: the messages, operations as trees of the requests
      they send, databases, tables, partitions, offsets; [AdminCluster]: access control, cluster
      configuration, rebalancing, servers, snapshots and leases, producer offsets, statistics
      (the other files of [fadm]); [AdminProperties]: what they promise.

    ** How the code is modelled

    Pure functions are Rocq functions with the source's names and branches.  A Go error is the
    sentinel [errors.Is] finds ([goerror]); where callers distinguish server, connection and
    context errors it is a [callError] or [transportError].  A run-time panic is the outcome
    [Panic], and theorems exclude it where the code promises to.  Machine integers are [Z] with
    their wrap-around written out ([int32], [uint64], ...); bytes are [list byte]; Go maps are
    [gmap]s, and where the iteration order of a Go map matters it is a parameter.

    Concurrent parts (transport, pool, coalescer, writers, schema cache, scanners, lookups,
    downloads, tokens) are states with one step per critical section, channel operation or
    exclusive stretch; a run is a sequence of steps, that is an interleaving, and the theorems
    hold of every run.  The network, the servers, timers
    and contexts are arguments of the steps.

    ** Fuel and bounds

    Nested values recurse on a fuel computed from the schema ([schemaFuel]), which
    [encode_row_returns] and [decode_row_returns] prove sufficient for every schema and every
    input.  The search for a request number takes one turn more than there are pending numbers
    ([registerLoop_finds] shows this equals the code's bound).  Loops over attempts recurse on
    the configured number of attempts.  Correlation by number is stated for fewer than 2^31
    requests per connection, the cache's clock for fewer than 2^64 operations.

    ** What the theorems show

    - Codecs: totality on all inputs; round trips for both row formats, KV, log and Arrow batches,
      schemas and partition names; corruption of a checksummed batch is detected; key encoding is
      injective.
    - Transport and pool: a response answers its own request; every request ends or can make
      progress; what is on the wire is whole frames; slots and numbers are bounded; [Close] leaves
      no connection open unless a flight was abandoned; mutations are never replayed by retries;
      an opening that fails releases what it acquired, unless an authenticator factory returns
      nil without an error.
    - Routing: the cache serves exactly its newest snapshots; a bucket request is sent at most
      twice; a metadata response is read exactly, and malformed ones are refused; a table is what
      the coordinator says of it.
    - Security tokens: what is current is the last token published, valid when acquired and
      accepted by every receiver, until it expires, is revoked or the provider is disabled; [Stop]
      returns and is final; delays are exact and renewals in time where there is no jitter.
    - Writers: for every interleaving nothing is lost, duplicated or reordered; one batch in flight
      per bucket with consecutive sequence numbers; a batch is the same request on every attempt,
      and a server decodes it to its mutations; batch and buffer limits; flush is a barrier and
      terminates.
    - Scanners: in-order, bounded delivery; exact cuts; decoding composed with evolution; the
      schema cache refines an abstract least-recently-used list; compiled filters mean what the
      caller's predicate means, but for comparisons with the empty byte string.
    - Batch scans: value batches are read exactly; a limit scan gives the last rows; KV sessions
      make exactly the calls of their protocol, the closing one included, and deliver every row
      once while every batch decodes.
    - Remote files: a plan accepts exactly contiguous segments within the limits; downloads stay
      within their budgets and end; what was read is the objects' bytes in order; a log is read
      across both tiers without loss or repetition.
    - Lookups: a row is found where its upsert went, prefixes lead to their rows; every key gets an
      answer, what the server replied for it, and is asked for once, by attempts that are counted;
      limits, progress and a complete [Close].
    - Typed values: every key of a lookup has its own answer; a poll gives all its values or its
      first error; a typed lookup reads what a typed upsert wrote.
    - Storage adapters: content ranges are read as written; ranges lie in the advertised object;
      readers are faithful and complete or fail; an HDFS file is closed and its token cleared once.
    - Administration: every operation sends its requests to the right server and no more of them
      than it should, whatever is answered; they are valid, except a cluster configuration change
      without its value and durations below a millisecond; messages read back what was written;
      results are per item and in order; a wait for a rebalance ends with its first final answer.

    ** Parameters

    Third-party and generated code is a parameter with its documented laws as hypotheses: the
    Arrow IPC reader and writer, protobuf messages, compression, Go's time zones, object stores and
    the file system, the parts [url.Parse] finds.  Each theorem that has such a hypothesis has a
    witness with a concrete instance.

    ** Not modelled

    Dialling and TLS (the network, an argument of [Connect]), metrics and their OpenTelemetry
    adapter (observation only), the text layer of JSON documents and the textual forms of errors
    and tokens, the generated protobuf code, and the tools under [src/cmd] (checks of documents, a
    code generator). *)

From Stdlib Require Export ZArith Lia QArith_base Qreduction.
From stdpp Require Export base gmap list strings.
From coqutil Require Export Byte Word.LittleEndianList.

#[global] Open Scope Z_scope.

(** The type of bytes without the cast its library abbreviation carries. *)
Abbreviation byte := Corelib.Init.Byte.byte.

(** ** Errors

    A Go error is modelled by the sentinel that [errors.Is] finds in its chain;
    [ErrText] stands for an [errors.New] value that is not an exported sentinel. *)
Inductive goerror :=
| ErrInvalidConfig
| ErrInvalidSchema
| ErrInvalidRow
| ErrTableKind
| ErrMalformedRow
| ErrMalformedRecordBatch
| ErrMetadata
| ErrUnknownPartition
| ErrNoBucketLeader
| ErrWriterState
| ErrClosed
| ErrNotFound
| ErrWakeup
| ErrUnknownBucket
| ErrUnknownTable
| ErrUnsupportedAPI
| ErrServerType
| ErrAuthentication
| ErrFrameTooLarge
| ErrMalformedFrame
| ErrInvalidArgument
| ErrUnknownAPIKey
| ErrUnsupportedVersion
| ErrPrivateAPI
| ErrMalformedMessage
| ErrValidation
| ErrContext
| ErrText (message : string).

#[export] Instance goerror_eq_dec : EqDecision goerror.
Proof. solve_decision. Defined.

(** ** Outcomes of a Go call

    [Panic] is a run-time panic (an index out of range, a failed type assertion, a
    nil dereference).  [OutOfFuel] is never a behaviour of the program: it marks a
    recursion cut short by its fuel, and the theorems exclude it. *)
Inductive outcome (A : Type) :=
| Ok (a : A)
| Err (e : goerror)
| Panic
| OutOfFuel.
Arguments Ok {A} _.
Arguments Err {A} _.
Arguments Panic {A}.
Arguments OutOfFuel {A}.

#[export] Instance outcome_ret : MRet outcome := fun A a => Ok a.
#[export] Instance outcome_bind : MBind outcome := fun A B f m =>
  match m with
  | Ok a => f a
  | Err e => Err e
  | Panic => Panic
  | OutOfFuel => OutOfFuel
  end.
#[export] Instance outcome_fmap : FMap outcome := fun A B f m =>
  match m with
  | Ok a => Ok (f a)
  | Err e => Err e
  | Panic => Panic
  | OutOfFuel => OutOfFuel
  end.

#[export] Instance outcome_eq_dec `{EqDecision A} : EqDecision (outcome A).
Proof. solve_decision. Defined.

(** [guard]-like helper: [check b e] is [if !b { return e }]. *)
Definition check (b : bool) (e : goerror) : outcome unit :=
  if b then Ok tt else Err e.

(** Rewrites the error of a call: [if err != nil { return fmt.Errorf("%w: ...", e) }]. *)
Definition rewrap {A} (e : goerror) (m : outcome A) : outcome A :=
  match m with Err _ => Err e | _ => m end.

(** The call returned (a value or an error): it neither panicked nor lacked fuel. *)
Definition returns {A} (m : outcome A) : bool :=
  match m with Ok _ | Err _ => true | _ => false end.

(** The call did not panic. *)
Definition safe {A} (m : outcome A) : bool :=
  match m with Panic => false | _ => true end.

Lemma bind_Ok {A B} (m : outcome A) (f : A -> outcome B) b :
  m ≫= f = Ok b <-> exists a, m = Ok a /\ f a = Ok b.
Proof. destruct m; cbn; naive_solver. Qed.

Lemma fmap_Ok {A B} (m : outcome A) (f : A -> B) b :
  f <$> m = Ok b <-> exists a, m = Ok a /\ b = f a.
Proof. destruct m; cbn; naive_solver. Qed.

Lemma check_Ok b e u : check b e = Ok u <-> b = true.
Proof. destruct b, u; cbn; naive_solver. Qed.

Lemma rewrap_Ok {A} e (m : outcome A) a : rewrap e m = Ok a <-> m = Ok a.
Proof. destruct m; cbn; naive_solver. Qed.

Lemma bind_returns {A B} (m : outcome A) (f : A -> outcome B) :
  returns m = true -> (forall a, m = Ok a -> returns (f a) = true) ->
  returns (m ≫= f) = true.
Proof. destruct m; cbn; naive_solver. Qed.

Lemma check_returns b e : returns (check b e) = true.
Proof. by destruct b. Qed.

Lemma rewrap_returns {A} e (m : outcome A) : returns (rewrap e m) = returns m.
Proof. by destruct m. Qed.

(** [inv_ok] decomposes the hypotheses that say a monadic computation returned. *)
Ltac inv_ok :=
  repeat match goal with
  | H : _ ≫= _ = Ok _ |- _ => apply bind_Ok in H;
      let x := fresh "x" in let E := fresh "E" in let K := fresh "K" in destruct H as (x & E & K)
  | H : _ <$> _ = Ok _ |- _ => apply fmap_Ok in H;
      let x := fresh "x" in let E := fresh "E" in let K := fresh "K" in destruct H as (x & E & K)
  | H : check _ _ = Ok _ |- _ => apply check_Ok in H
  | H : rewrap _ _ = Ok _ |- _ => apply rewrap_Ok in H
  | H : Err _ = Ok _ |- _ => discriminate H
  | H : Panic = Ok _ |- _ => discriminate H
  | H : OutOfFuel = Ok _ |- _ => discriminate H
  | H : mret _ = Ok _ |- _ => change (Ok _ = Ok _) in H
  end; simplify_eq.

(** ** Machine integers

    A w-bit Go integer is a [Z]; the conversions write the wrap-around out. *)
Definition uwrap (w : Z) (z : Z) : Z := z mod 2 ^ w.
Definition swrap (w : Z) (z : Z) : Z := (z + 2 ^ (w - 1)) mod 2 ^ w - 2 ^ (w - 1).

Abbreviation uint8 := (uwrap 8).
Abbreviation uint16 := (uwrap 16).
Abbreviation uint32 := (uwrap 32).
Abbreviation uint64 := (uwrap 64).
Abbreviation int8 := (swrap 8).
Abbreviation int16 := (swrap 16).
Abbreviation int32 := (swrap 32).
Abbreviation int64 := (swrap 64).

Definition urange (w z : Z) : bool := (0 <=? z) && (z <? 2 ^ w).
Definition srange (w z : Z) : bool := (- 2 ^ (w - 1) <=? z) && (z <? 2 ^ (w - 1)).

Lemma uwrap_range w z : 0 <= w -> 0 <= uwrap w z < 2 ^ w.
Proof. intros. apply Z.mod_pos_bound. lia. Qed.

Lemma uwrap_small w z : urange w z = true -> uwrap w z = z.
Proof. unfold urange, uwrap. intros. apply Z.mod_small. lia. Qed.

Lemma swrap_small w z : 0 < w -> srange w z = true -> swrap w z = z.
Proof.
  unfold srange, swrap. intros Hw H.
  assert (2 ^ w = 2 * 2 ^ (w - 1)) by (rewrite <- Z.pow_succ_r by lia; f_equal; lia).
  rewrite Z.mod_small; lia.
Qed.

Lemma swrap_srange w z : 0 < w -> srange w (swrap w z) = true.
Proof.
  unfold srange, swrap. intros Hw.
  assert (2 ^ w = 2 * 2 ^ (w - 1)) by (rewrite <- Z.pow_succ_r by lia; f_equal; lia).
  pose proof (Z.mod_pos_bound (z + 2 ^ (w - 1)) (2 ^ w)). lia.
Qed.

Lemma swrap_mod w z : 0 < w -> swrap w (z mod 2 ^ w) = swrap w z.
Proof. intros. unfold swrap. by rewrite Zplus_mod_idemp_l. Qed.

Lemma swrap_uwrap w z : 0 < w -> swrap w (uwrap w z) = swrap w z.
Proof. apply swrap_mod. Qed.

(** Converting a signed value to unsigned and back at the same width is the identity. *)
Lemma swrap_uwrap_small w z : 0 < w -> srange w z = true -> swrap w (uwrap w z) = z.
Proof. intros. rewrite swrap_uwrap by lia. by apply swrap_small. Qed.

Lemma uwrap_wider w w' z : 0 <= w <= w' -> uwrap w' (uwrap w z) = uwrap w z.
Proof.
  intros. unfold uwrap. apply Z.mod_small.
  pose proof (Z.mod_pos_bound z (2 ^ w)). pose proof (Z.pow_le_mono_r 2 w w'). lia.
Qed.

Lemma swrap_congr w z z' : 0 < w -> z mod 2 ^ w = z' mod 2 ^ w -> swrap w z = swrap w z'.
Proof. intros Hw H. by rewrite <- swrap_mod, H, swrap_mod. Qed.

(** ** Slices

    Lengths and positions are [Z], as Go's [int]; an out-of-range access panics. *)
Definition glen {A} (l : list A) : Z := Z.of_nat (length l).

Definition index {A} (l : list A) (i : Z) : outcome A :=
  if 0 <=? i then match l !! Z.to_nat i with Some a => Ok a | None => Panic end else Panic.

(** [l[i:j]]. *)
Definition slice {A} (l : list A) (i j : Z) : outcome (list A) :=
  if (0 <=? i) && (i <=? j) && (j <=? glen l)
  then Ok (take (Z.to_nat (j - i)) (drop (Z.to_nat i) l)) else Panic.

(** [l[i:]]. *)
Definition slice_from {A} (l : list A) (i : Z) : outcome (list A) := slice l i (glen l).

(** [l[i] = a]. *)
Definition set_index {A} (l : list A) (i : Z) (a : A) : outcome (list A) :=
  if (0 <=? i) && (i <? glen l) then Ok (<[Z.to_nat i := a]> l) else Panic.

(** [copy(l[off:], src)] with [src] fitting in [l]. *)
Definition overwrite {A} (l : list A) (off : Z) (src : list A) : outcome (list A) :=
  if (0 <=? off) && (off + glen src <=? glen l)
  then Ok (take (Z.to_nat off) l ++ src ++ drop (Z.to_nat off + length src) l) else Panic.

Definition zeros (n : Z) : list byte := replicate (Z.to_nat n) Byte.x00.

(** [binary.LittleEndian.UintXX(l[off:])] and [PutUintXX(l[off:], v)], [w] bytes wide. *)
Definition getLE (w : nat) (l : list byte) (off : Z) : outcome Z :=
  le_combine <$> slice l off (off + Z.of_nat w).
Definition putLE (w : nat) (l : list byte) (off v : Z) : outcome (list byte) :=
  overwrite l off (le_split w v).

(** [binary.BigEndian.UintXX] and [PutUintXX]. *)
Definition getBE (w : nat) (l : list byte) (off : Z) : outcome Z :=
  (fun b => le_combine (rev b)) <$> slice l off (off + Z.of_nat w).
Definition putBE (w : nat) (l : list byte) (off v : Z) : outcome (list byte) :=
  overwrite l off (rev (le_split w v)).

(** Bit [i % 8] of byte [i / 8] from [base]: [l[base+i/8]&(1<<(i%8)) != 0]. *)
Definition bit_set (l : list byte) (base i : Z) : outcome bool :=
  (fun b => negb (Z.land (byte.unsigned b) (Z.shiftl 1 (i mod 8)) =? 0)) <$> index l (base + i / 8).

(** [l[base+i/8] |= 1 << (i%8)]. *)
Definition set_bit (l : list byte) (base i : Z) : outcome (list byte) :=
  b ← index l (base + i / 8);
  set_index l (base + i / 8) (byte.of_Z (Z.lor (byte.unsigned b) (Z.shiftl 1 (i mod 8)))).

(** *** Lengths *)

Create Rewrite HintDb golen.

Lemma glen_nonneg {A} (l : list A) : 0 <= glen l.
Proof. unfold glen. lia. Qed.
Lemma glen_nil {A} : glen (@nil A) = 0.
Proof. done. Qed.
Lemma glen_cons {A} (a : A) l : glen (a :: l) = 1 + glen l.
Proof. unfold glen. cbn. lia. Qed.
Lemma glen_app {A} (l l' : list A) : glen (l ++ l') = glen l + glen l'.
Proof. unfold glen. rewrite length_app. lia. Qed.
Lemma glen_le_split w v : glen (le_split w v) = Z.of_nat w.
Proof. unfold glen. by rewrite length_le_split. Qed.
Lemma glen_zeros n : 0 <= n -> glen (zeros n) = n.
Proof. intros. unfold glen, zeros. rewrite length_replicate. lia. Qed.
Lemma glen_rev {A} (l : list A) : glen (rev l) = glen l.
Proof. unfold glen. by rewrite length_rev. Qed.
Lemma glen_insert {A} (l : list A) i a : glen (<[i := a]> l) = glen l.
Proof. unfold glen. by rewrite length_insert. Qed.
Lemma glen_map {A B} (f : A -> B) l : glen (map f l) = glen l.
Proof. unfold glen. by rewrite length_map. Qed.
Lemma glen_fmap {A B} (f : A -> B) l : glen (f <$> l) = glen l.
Proof. apply glen_map. Qed.
Lemma glen_0_nil {A} (l : list A) : glen l = 0 -> l = [].
Proof. destruct l; [done|]. rewrite glen_cons. pose proof (glen_nonneg l). lia. Qed.

#[export] Hint Rewrite @glen_nil @glen_cons @glen_app glen_le_split @glen_rev @glen_insert
  @glen_map @glen_fmap : golen.

(** Closes a goal about lengths: rewrites [glen] through the list operations, then [lia]. *)
Ltac glia :=
  autorewrite with golen in *;
  repeat match goal with
  | |- context [glen ?l] => lazymatch goal with
      | _ : 0 <= glen l |- _ => fail | _ => pose proof (glen_nonneg l) end
  | _ : context [glen ?l] |- _ => lazymatch goal with
      | _ : 0 <= glen l |- _ => fail | _ => pose proof (glen_nonneg l) end
  end; lia.

(** *** Reading and writing *)

Lemma slice_Ok {A} (l s : list A) i j :
  slice l i j = Ok s <->
  0 <= i <= j /\ j <= glen l /\ s = take (Z.to_nat (j - i)) (drop (Z.to_nat i) l).
Proof. unfold slice. case_match; naive_solver lia. Qed.

Lemma slice_safe {A} (l : list A) i j :
  0 <= i <= j -> j <= glen l -> exists s, slice l i j = Ok s.
Proof. intros. eexists. apply slice_Ok. auto. Qed.

Lemma slice_glen {A} (l s : list A) i j : slice l i j = Ok s -> glen s = j - i.
Proof.
  intros (? & ? & ->)%slice_Ok. unfold glen in *. rewrite length_take, length_drop. lia.
Qed.

Lemma slice_app {A} (p v s : list A) i j :
  i = glen p -> j = glen p + glen v -> slice (p ++ v ++ s) i j = Ok v.
Proof.
  intros -> ->. apply slice_Ok. split; [glia|]. split; [glia|].
  unfold glen. rewrite Nat2Z.id, drop_app_length.
  replace (Z.to_nat _) with (length v) by lia. by rewrite take_app_length.
Qed.

Lemma slice_from_app {A} (p s : list A) i : i = glen p -> slice_from (p ++ s) i = Ok s.
Proof.
  intros ->. unfold slice_from.
  rewrite <- (app_nil_r s) at 1. apply slice_app; glia.
Qed.

Lemma slice_split {A} (l v : list A) i j :
  slice l i j = Ok v -> l = take (Z.to_nat i) l ++ v ++ drop (Z.to_nat j) l.
Proof.
  intros (? & ? & ->)%slice_Ok.
  rewrite <- (take_drop (Z.to_nat i) l) at 1. f_equal.
  rewrite <- (take_drop (Z.to_nat (j - i)) (drop (Z.to_nat i) l)) at 1. f_equal.
  rewrite drop_drop. f_equal. lia.
Qed.

Lemma slice_lookup {A} (l v : list A) i j (k : nat) :
  slice l i j = Ok v -> Z.of_nat k < j - i -> v !! k = l !! (Z.to_nat i + k)%nat.
Proof.
  intros (? & ? & ->)%slice_Ok ?.
  rewrite lookup_take_lt by lia. by rewrite lookup_drop.
Qed.

(** [l'] holds the bytes of [l] at the positions [i, j). *)
Definition agree {A} (l l' : list A) (i j : Z) : Prop :=
  forall k : nat, i <= Z.of_nat k < j -> l' !! k = l !! k.

Lemma agree_refl {A} (l : list A) i j : agree l l i j.
Proof. done. Qed.

Lemma agree_trans {A} (l1 l2 l3 : list A) i j :
  agree l1 l2 i j -> agree l2 l3 i j -> agree l1 l3 i j.
Proof. intros H1 H2 k Hk. by rewrite H2, H1. Qed.

Lemma agree_sub {A} (l l' : list A) i j i' j' :
  agree l l' i j -> i <= i' -> j' <= j -> agree l l' i' j'.
Proof. intros H ?? k ?. apply H. lia. Qed.

Lemma agree_app {A} (l s : list A) i j : j <= glen l -> agree l (l ++ s) i j.
Proof. intros H k Hk. apply lookup_app_l. unfold glen in H. lia. Qed.

Lemma slice_agree {A} (l l' v : list A) i j :
  agree l l' i j -> j <= glen l' -> slice l i j = Ok v -> slice l' i j = Ok v.
Proof.
  intros Ha Hl Hs. pose proof (slice_glen _ _ _ _ Hs) as Hg.
  pose proof Hs as (? & ? & _)%slice_Ok.
  destruct (slice_safe l' i j) as [v' Hv']; [lia..|].
  rewrite Hv'. f_equal. apply list_eq_same_length with (length v).
  - reflexivity.
  - pose proof (slice_glen _ _ _ _ Hv'). unfold glen in *. lia.
  - intros k x y Hk Hx Hy. unfold glen in *.
    rewrite (slice_lookup _ _ _ _ k Hs) in Hy by lia.
    rewrite (slice_lookup _ _ _ _ k Hv') in Hx by lia.
    rewrite Ha in Hx by lia. congruence.
Qed.

Lemma overwrite_Ok {A} (l l' : list A) off src :
  overwrite l off src = Ok l' <->
  0 <= off /\ off + glen src <= glen l /\
  l' = take (Z.to_nat off) l ++ src ++ drop (Z.to_nat off + length src) l.
Proof. unfold overwrite. case_match; naive_solver lia. Qed.

Lemma overwrite_safe {A} (l : list A) off src :
  0 <= off -> off + glen src <= glen l -> exists l', overwrite l off src = Ok l'.
Proof. intros. eexists. apply overwrite_Ok. auto. Qed.

Lemma overwrite_glen {A} (l l' : list A) off src :
  overwrite l off src = Ok l' -> glen l' = glen l.
Proof.
  intros (? & ? & ->)%overwrite_Ok. unfold glen in *.
  rewrite !length_app, length_take, length_drop. lia.
Qed.

Lemma overwrite_read {A} (l l' : list A) off src j :
  overwrite l off src = Ok l' -> j = off + glen src -> slice l' off j = Ok src.
Proof.
  intros (? & ? & ->)%overwrite_Ok ->. apply slice_app; [|f_equal];
    unfold glen in *; rewrite length_take; lia.
Qed.

Lemma overwrite_frame_l {A} (l l' : list A) off src j :
  overwrite l off src = Ok l' -> j <= off -> agree l l' 0 j.
Proof.
  intros (? & ? & ->)%overwrite_Ok ? k ?. unfold glen in *.
  rewrite lookup_app_l by (rewrite length_take; lia). apply lookup_take_lt. lia.
Qed.

Lemma overwrite_frame_r {A} (l l' : list A) off src i j :
  overwrite l off src = Ok l' -> off + glen src <= i -> agree l l' i j.
Proof.
  intros (? & ? & ->)%overwrite_Ok ? k ?. unfold glen in *.
  rewrite lookup_app_r by (rewrite length_take; lia).
  rewrite lookup_app_r by (rewrite length_take; lia).
  rewrite lookup_drop, length_take. f_equal. lia.
Qed.

Lemma set_index_Ok {A} (l l' : list A) i a :
  set_index l i a = Ok l' <-> 0 <= i < glen l /\ l' = <[Z.to_nat i := a]> l.
Proof. unfold set_index. case_match; naive_solver lia. Qed.

Lemma set_index_frame {A} (l l' : list A) k i a :
  set_index l i a = Ok l' -> Z.of_nat k <> i -> l' !! k = l !! k.
Proof. intros (? & ->)%set_index_Ok ?. apply list_lookup_insert_ne. lia. Qed.

Lemma set_index_glen {A} (l l' : list A) i a : set_index l i a = Ok l' -> glen l' = glen l.
Proof. intros (? & ->)%set_index_Ok. apply glen_insert. Qed.

Lemma index_Ok {A} (l : list A) i a :
  index l i = Ok a <-> 0 <= i /\ l !! Z.to_nat i = Some a.
Proof.
  unfold index. destruct (Z.leb_spec 0 i); [|naive_solver lia].
  destruct (l !! Z.to_nat i); naive_solver.
Qed.

Lemma index_safe {A} (l : list A) i : 0 <= i < glen l -> exists a, index l i = Ok a.
Proof.
  intros [? H]. destruct (lookup_lt_is_Some_2 l (Z.to_nat i)) as [a ?].
  { unfold glen in H. lia. }
  exists a. by apply index_Ok.
Qed.

Lemma index_app {A} (p s : list A) a i : i = glen p -> index (p ++ a :: s) i = Ok a.
Proof.
  intros ->. apply index_Ok. split; [glia|]. unfold glen.
  rewrite Nat2Z.id. by apply list_lookup_middle.
Qed.

(** *** Fixed-width integers in a buffer *)

Lemma putLE_glen w l off v l' : putLE w l off v = Ok l' -> glen l' = glen l.
Proof. apply overwrite_glen. Qed.

Lemma putLE_safe w l off v :
  0 <= off -> off + Z.of_nat w <= glen l -> exists l', putLE w l off v = Ok l'.
Proof. intros. apply overwrite_safe; [lia|]. rewrite glen_le_split. lia. Qed.

Lemma getLE_safe w l off :
  0 <= off -> off + Z.of_nat w <= glen l -> exists v, getLE w l off = Ok v.
Proof.
  intros. destruct (slice_safe l off (off + Z.of_nat w)) as [s Hs]; [lia..|].
  unfold getLE. rewrite Hs. eexists. reflexivity.
Qed.

Lemma getLE_range w l off v : getLE w l off = Ok v -> 0 <= v < 2 ^ (8 * Z.of_nat w).
Proof.
  unfold getLE. intros (s & Hs & ->)%fmap_Ok. pose proof (slice_glen _ _ _ _ Hs) as Hg.
  unfold glen in Hg. replace (Z.of_nat w) with (Z.of_nat (length s)) by lia.
  apply le_combine_bound.
Qed.

(** What [PutUint] wrote, [Uint] reads back, at the width of the field. *)
Lemma putLE_get w l off v l' :
  putLE w l off v = Ok l' -> getLE w l' off = Ok (v mod 2 ^ (8 * Z.of_nat w)).
Proof.
  intros H. unfold getLE. rewrite (overwrite_read _ _ _ _ _ H) by (rewrite glen_le_split; lia).
  cbn. f_equal. rewrite le_combine_split. do 2 f_equal. lia.
Qed.

Lemma getLE_app w p s v off : off = glen p ->
  getLE w (p ++ le_split w v ++ s) off = Ok (v mod 2 ^ (8 * Z.of_nat w)).
Proof.
  intros ->. unfold getLE. rewrite slice_app by glia. cbn. f_equal.
  rewrite le_combine_split. do 2 f_equal. lia.
Qed.

Lemma getLE_agree w l l' off v :
  agree l l' off (off + Z.of_nat w) -> off + Z.of_nat w <= glen l' ->
  getLE w l off = Ok v -> getLE w l' off = Ok v.
Proof.
  unfold getLE. intros Ha Hl (s & Hs & ->)%fmap_Ok. by rewrite (slice_agree _ _ _ _ _ Ha Hl Hs).
Qed.

(** Decides the first conditional of the goal by arithmetic. *)
Ltac if_true := match goal with |- context [if ?c then _ else _] => replace c with true by lia; cbv iota end.
Ltac if_false := match goal with |- context [if ?c then _ else _] => replace c with false by lia; cbv iota end.

(** *** Bitmaps *)

(** [lia] with the division and remainder terms replaced by their defining equations. *)
Ltac zlia := Z.to_euclidean_division_equations; lia.

Lemma byte_bit b k :
  0 <= k -> negb (Z.land b (Z.shiftl 1 k) =? 0) = Z.testbit b k.
Proof.
  intros Hk. rewrite Z.shiftl_1_l.
  destruct (Z.testbit b k) eqn:E.
  - apply negb_true_iff, Z.eqb_neq. intros H0.
    apply (f_equal (fun z => Z.testbit z k)) in H0.
    by rewrite Z.land_spec, E, Z.pow2_bits_true, Z.bits_0 in H0 by zlia.
  - apply negb_false_iff, Z.eqb_eq. apply Z.bits_inj. intros m.
    rewrite Z.land_spec, Z.bits_0. destruct (decide (m = k)) as [-> | Hne].
    + by rewrite E.
    + rewrite Z.pow2_bits_false by zlia. apply andb_false_r.
Qed.

Lemma bit_set_Ok l base i r :
  bit_set l base i = Ok r <->
  exists b, index l (base + i / 8) = Ok b /\ r = Z.testbit (byte.unsigned b) (i mod 8).
Proof.
  unfold bit_set. rewrite fmap_Ok. split; intros (b & Hb & ->); exists b; split; auto;
    [|symmetry]; apply byte_bit; zlia.
Qed.

Lemma bit_set_safe l base i :
  0 <= base -> 0 <= i -> base + i / 8 < glen l -> exists r, bit_set l base i = Ok r.
Proof.
  intros. destruct (index_safe l (base + i / 8)) as [b Hb]; [zlia|].
  unfold bit_set. rewrite Hb. eexists. reflexivity.
Qed.

(** Reading a bit after [set_bit]: the bit set, and every other one as before. *)
Lemma set_bit_read l l' base i j :
  0 <= base -> 0 <= i -> 0 <= j -> set_bit l base i = Ok l' ->
  bit_set l' base j = if decide (i = j) then Ok true else bit_set l base j.
Proof.
  unfold set_bit. intros Hb Hi Hj (b & Hix & (Hr & ->)%set_index_Ok)%bind_Ok.
  unfold bit_set, index. destruct (Z.leb_spec 0 (base + j / 8)); [|zlia].
  destruct (decide (i / 8 = j / 8)) as [Hq | Hq].
  - rewrite <- Hq, list_lookup_insert_eq by (unfold glen in *; zlia). cbn.
    apply index_Ok in Hix as [_ Hix]. rewrite Hix. cbn.
    rewrite !byte_bit, byte.unsigned_of_Z by zlia. unfold byte.wrap.
    rewrite Z.mod_pow2_bits_low by zlia. rewrite Z.lor_spec, Z.shiftl_1_l.
    destruct (decide (i = j)) as [-> | Hne].
    + rewrite Z.pow2_bits_true by zlia. by rewrite orb_true_r.
    + rewrite Z.pow2_bits_false by zlia. by rewrite orb_false_r.
  - rewrite list_lookup_insert_ne by zlia.
    rewrite decide_False by congruence. done.
Qed.

Lemma set_bit_safe l base i :
  0 <= base -> 0 <= i -> base + i / 8 < glen l -> exists l', set_bit l base i = Ok l'.
Proof.
  intros. destruct (index_safe l (base + i / 8)) as [b Hb]; [zlia|].
  unfold set_bit. rewrite Hb. cbn. eexists. apply set_index_Ok. split; [zlia|done].
Qed.

Lemma set_bit_glen l l' base i : set_bit l base i = Ok l' -> glen l' = glen l.
Proof. unfold set_bit. intros (b & _ & H)%bind_Ok. by eapply set_index_glen. Qed.

Lemma set_bit_frame l l' base i (k : nat) :
  set_bit l base i = Ok l' -> Z.of_nat k <> base + i / 8 -> l' !! k = l !! k.
Proof. unfold set_bit. intros (b & _ & H)%bind_Ok. by eapply set_index_frame. Qed.

Lemma bit_set_agree l l' base i r :
  l' !! Z.to_nat (base + i / 8) = l !! Z.to_nat (base + i / 8) ->
  bit_set l base i = Ok r -> bit_set l' base i = Ok r.
Proof. unfold bit_set, index. intros ->. done. Qed.

Lemma bit_set_zeros n base i :
  0 <= base -> 0 <= i -> base + i / 8 < n -> bit_set (zeros n) base i = Ok false.
Proof.
  intros. unfold bit_set, index, zeros. destruct (Z.leb_spec 0 (base + i / 8)); [|zlia].
  by rewrite lookup_replicate_2 by zlia.
Qed.

(** *** Bitwise operations stay in their width *)

Lemma lxor_range a b w : 0 <= w -> 0 <= a < 2 ^ w -> 0 <= b < 2 ^ w -> 0 <= Z.lxor a b < 2 ^ w.
Proof.
  intros Hw Ha Hb. assert (0 <= Z.lxor a b) by (apply Z.lxor_nonneg; lia). split; [done|].
  destruct (decide (Z.lxor a b = 0)) as [->|Hne]; [lia|].
  assert (Hlog : forall z, 0 <= z < 2 ^ w -> z = 0 \/ Z.log2 z < w).
  { intros z Hz. destruct (decide (z = 0)); [auto|]. right. apply Z.log2_lt_pow2; lia. }
  apply Z.log2_lt_pow2; [lia|].
  pose proof (Z.log2_lxor a b ltac:(lia) ltac:(lia)).
  assert (w <> 0). { intros ->. cbn in *. assert (a = 0) by lia. assert (b = 0) by lia. subst. done. }
  destruct (Hlog a Ha) as [->|], (Hlog b Hb) as [->|]; cbn in *; lia.
Qed.

Lemma shiftr_range a k w : 0 <= k -> 0 <= a < 2 ^ w -> 0 <= Z.shiftr a k < 2 ^ w.
Proof.
  intros Hk Ha. rewrite Z.shiftr_div_pow2 by done. pose proof (Z.pow_pos_nonneg 2 k).
  split; [apply Z.div_pos; lia|]. apply Z.le_lt_trans with a; [|lia].
  apply Z.div_le_upper_bound; [lia|]. nia.
Qed.
