(* ===== verification/Model.v ===== *)
(** * Schemas, logical types, rows and values

    Models [pkg/fgo/logical_type.go], the schema and row half of [pkg/fgo/model.go]
    and [pkg/fgo/records.go]: the data a table is made of and the validation every
    writer, reader and codec runs first.  Go strings are [string], a dynamically
    typed [any] is a [GoValue], and a Go map keyed by column name is a [gmap]. *)

From S2P Require Import Prelude.

(** ** Data types *)

(** [DataType]: the named constants, and any other string a caller may build. *)
Inductive DataType :=
| BoolType | CharType | IntType | TinyIntType | SmallIntType | BigIntType
| FloatType | DoubleType | StringType | BinaryType | BytesType | DecimalType
| DateType | TimeType | TimestampType | TimestampLTZType
| ArrayType | MapType | RowType
| OtherType (s : string).

#[export] Instance DataType_eq_dec : EqDecision DataType.
Proof. solve_decision. Defined.

Definition dataTypeNames : list (string * DataType) :=
  [("BOOLEAN", BoolType); ("CHAR", CharType); ("INT", IntType); ("TINYINT", TinyIntType);
   ("SMALLINT", SmallIntType); ("BIGINT", BigIntType); ("FLOAT", FloatType);
   ("DOUBLE", DoubleType); ("STRING", StringType); ("BINARY", BinaryType);
   ("BYTES", BytesType); ("DECIMAL", DecimalType); ("DATE", DateType);
   ("TIME_WITHOUT_TIME_ZONE", TimeType); ("TIMESTAMP", TimestampType);
   ("TIMESTAMP_WITH_LOCAL_TIME_ZONE", TimestampLTZType);
   ("ARRAY", ArrayType); ("MAP", MapType); ("ROW", RowType)]%string.

(** The conversion [DataType(s)]. *)
Definition dataTypeOfString (s : string) : DataType :=
  match list_find (fun p => p.1 = s) dataTypeNames with
  | Some (_, (_, t)) => t
  | None => OtherType s
  end.

(** The conversion [string(t)]. *)
Definition dataTypeString (t : DataType) : string :=
  match list_find (fun p => p.2 = t) dataTypeNames with
  | Some (_, (s, _)) => s
  | None => match t with OtherType s => s | _ => "" end
  end.

Definition DataType_Validate (t : DataType) : outcome unit :=
  match t with OtherType _ => Err ErrInvalidSchema | _ => Ok tt end.

(** ** Logical types *)

Inductive LogicalType :=
| MkLogicalType (Root : string) (Nullable : bool) (Length Precision Scale : Z)
    (Element Key Value : option LogicalType) (Fields : list LogicalField)
with LogicalField :=
| MkLogicalField (Name : string) (Type_ : LogicalType) (Description : string) (ID : Z).

Definition lt_Root t := let 'MkLogicalType r _ _ _ _ _ _ _ _ := t in r.
Definition lt_Nullable t := let 'MkLogicalType _ n _ _ _ _ _ _ _ := t in n.
Definition lt_Length t := let 'MkLogicalType _ _ l _ _ _ _ _ _ := t in l.
Definition lt_Precision t := let 'MkLogicalType _ _ _ p _ _ _ _ _ := t in p.
Definition lt_Scale t := let 'MkLogicalType _ _ _ _ s _ _ _ _ := t in s.
Definition lt_Element t := let 'MkLogicalType _ _ _ _ _ e _ _ _ := t in e.
Definition lt_Key t := let 'MkLogicalType _ _ _ _ _ _ k _ _ := t in k.
Definition lt_Value t := let 'MkLogicalType _ _ _ _ _ _ _ v _ := t in v.
Definition lt_Fields t := let 'MkLogicalType _ _ _ _ _ _ _ _ f := t in f.
Definition lf_Name f := let 'MkLogicalField n _ _ _ := f in n.
Definition lf_Type f := let 'MkLogicalField _ t _ _ := f in t.
Definition lf_Description f := let 'MkLogicalField _ _ d _ := f in d.
Definition lf_ID f := let 'MkLogicalField _ _ _ i := f in i.

(** A logical type that has only a root, as [logicalTypeForColumn] builds one. *)
Definition plainType (root : string) (nullable : bool) : LogicalType :=
  MkLogicalType root nullable 0 0 0 None None None [].

Definition validateLength (t : LogicalType) : outcome unit :=
  check (1 <=? lt_Length t) ErrInvalidSchema.

Definition validateDecimal (t : LogicalType) : outcome unit :=
  check (negb ((lt_Precision t <? 1) || (38 <? lt_Precision t) || (lt_Scale t <? 0)
               || (lt_Precision t <? lt_Scale t))) ErrInvalidSchema.

Definition validateTemporal (t : LogicalType) : outcome unit :=
  check (negb ((lt_Precision t <? 0) || (9 <? lt_Precision t))) ErrInvalidSchema.

(** The recursive calls of [LogicalType.Validate] are the argument [validate]. *)
Definition validateArray (validate : LogicalType -> outcome unit)
    (element : option LogicalType) : outcome unit :=
  match element with
  | None => Err ErrInvalidSchema
  | Some e => validate e
  end.

Definition validateMap (validate : LogicalType -> outcome unit)
    (key value : option LogicalType) : outcome unit :=
  match key, value with
  | Some k, Some v => _ ← validate k; validate v
  | _, _ => Err ErrInvalidSchema
  end.

Definition validateFields (validate : LogicalType -> outcome unit)
    : list LogicalField -> outcome unit :=
  fix go fields :=
    match fields with
    | [] => Ok tt
    | MkLogicalField name ty _ _ :: rest =>
      if decide (name = ""%string) then Err ErrInvalidSchema
      else _ ← validate ty; go rest
    end.

Definition validateRow (validate : LogicalType -> outcome unit)
    (fields : list LogicalField) : outcome unit :=
  match fields with
  | [] => Err ErrInvalidSchema
  | _ => validateFields validate fields
  end.

Definition scalarRoots : list string :=
  ["BOOLEAN"; "TINYINT"; "SMALLINT"; "INTEGER"; "BIGINT"; "FLOAT"; "DOUBLE"; "DATE";
   "STRING"; "BYTES"]%string.

Fixpoint LogicalType_Validate (t : LogicalType) {struct t} : outcome unit :=
  let 'MkLogicalType root _ _ _ _ element key value fields := t in
  if decide (root ∈ scalarRoots) then Ok tt
  else if decide (root ∈ ["CHAR"; "BINARY"]%string) then validateLength t
  else if decide (root = "DECIMAL"%string) then validateDecimal t
  else if decide (root ∈ ["TIME_WITHOUT_TIME_ZONE"; "TIMESTAMP_WITHOUT_TIME_ZONE";
                          "TIMESTAMP_WITH_LOCAL_TIME_ZONE"]%string) then validateTemporal t
  else if decide (root = "ARRAY"%string) then validateArray LogicalType_Validate element
  else if decide (root = "MAP"%string) then validateMap LogicalType_Validate key value
  else if decide (root = "ROW"%string) then validateRow LogicalType_Validate fields
  else Err ErrInvalidSchema.

Definition dataTypeForLogicalType (t : LogicalType) : DataType :=
  if decide (lt_Root t = "INTEGER"%string) then IntType
  else if decide (lt_Root t = "TIMESTAMP_WITHOUT_TIME_ZONE"%string) then TimestampType
  else dataTypeOfString (lt_Root t).

Definition logicalRoot (t : DataType) : string :=
  match t with
  | IntType => "INTEGER"
  | TimestampType => "TIMESTAMP_WITHOUT_TIME_ZONE"
  | _ => dataTypeString t
  end.

(** ** Values

    [Time] is an instant (Unix seconds and nanoseconds within the second) with the
    zone offset in force at that instant.  A [*big.Rat] is a [Q] in lowest terms,
    and floats are their IEEE bit patterns, which is all the codecs look at. *)
Record Time := MkTime { t_sec : Z; t_nsec : Z; t_off : Z }.

#[export] Instance Time_eq_dec : EqDecision Time.
Proof. solve_decision. Defined.

Definition Time_UTC (t : Time) : Time := MkTime (t_sec t) (t_nsec t) 0.

Inductive GoValue :=
| VNil
| VBool (b : bool)
| VInt8 (z : Z) | VInt16 (z : Z) | VInt32 (z : Z) | VInt64 (z : Z)
| VFloat32 (bits : Z) | VFloat64 (bits : Z)
| VString (s : string)
| VBytes (bs : list byte)
| VTime (t : Time)
| VRat (q : Q)
| VArray (l : list GoValue)
| VMap (entries : list (GoValue * GoValue))
| VGoMap (entries : list (string * GoValue))
| VRow (row : list GoValue)
| VOther.

Abbreviation Row := (list GoValue).
Abbreviation PrimaryKey := (list GoValue).

Definition isNil (v : GoValue) : bool := match v with VNil => true | _ => false end.

(** ** Columns and schemas *)

Record Column := MkColumn {
  col_Name : string;
  col_Type : DataType;
  col_Nullable : bool;
  col_LogicalType : option LogicalType;
  col_Description : string;
  col_ID : Z;
}.

Record Schema := MkSchema {
  sch_Columns : list Column;
  sch_PrimaryKey : list string;
  sch_BucketKey : list string;
  sch_PartitionKey : list string;
  sch_AutoIncrement : list string;
  sch_HighestFieldID : Z;
}.

Definition logicalTypeForColumn (column : Column) : LogicalType :=
  match col_LogicalType column with
  | Some t => t
  | None => plainType (logicalRoot (col_Type column)) (col_Nullable column)
  end.

(** *** [strings.TrimSpace]: the UTF-8 encodings of the Unicode spaces. *)
Definition spaceRunes : list (list Z) :=
  [[9]; [10]; [11]; [12]; [13]; [32]; [194; 133]; [194; 160]; [225; 154; 128];
   [226; 128; 128]; [226; 128; 129]; [226; 128; 130]; [226; 128; 131]; [226; 128; 132];
   [226; 128; 133]; [226; 128; 134]; [226; 128; 135]; [226; 128; 136]; [226; 128; 137];
   [226; 128; 138]; [226; 128; 168]; [226; 128; 169]; [226; 128; 175]; [226; 129; 159];
   [227; 128; 128]].

Definition strip1 (patterns : list (list Z)) (l : list Z) : option (list Z) :=
  match list_find (fun p => p = take (length p) l) patterns with
  | Some (_, p) => Some (drop (length p) l)
  | None => None
  end.

Fixpoint strip (fuel : nat) (patterns : list (list Z)) (l : list Z) : list Z :=
  match fuel with
  | O => l
  | S fuel => match strip1 patterns l with
              | Some l' => strip fuel patterns l'
              | None => l
              end
  end.

Definition bytesOf (s : string) : list byte := String.list_byte_of_string s.
Definition stringOf (bs : list byte) : string := String.string_of_list_byte bs.
Definition slen (s : string) : Z := glen (bytesOf s).

Definition TrimSpace (s : string) : string :=
  let l := map byte.unsigned (bytesOf s) in
  let l := strip (length l) spaceRunes l in
  let l := rev (strip (length l) (map (@rev Z) spaceRunes) (rev l)) in
  stringOf (map byte.of_Z l).

(** [strings.EqualFold] against a format name: no letter of a format name folds to anything
    but its own two ASCII cases. *)
Definition asciiLower (b : byte) : Z :=
  let z := byte.unsigned b in if (65 <=? z) && (z <=? 90) then z + 32 else z.

Definition EqualFold (a b : string) : bool :=
  bool_decide (map asciiLower (bytesOf a) = map asciiLower (bytesOf b)).

(** [LogFormat] *)
Definition LogFormatAuto : string := "auto".
Definition LogFormatArrow : string := "arrow".
Definition LogFormatIndexed : string := "indexed".
Definition LogFormatCompacted : string := "compacted".

(** *** Schema validation *)

(** The loop of [Schema.validateColumns], threading the map it fills. *)
Fixpoint validateColumnsLoop (seen : gmap string Column) (columns : list Column)
    : outcome (gmap string Column) :=
  match columns with
  | [] => Ok seen
  | column :: rest =>
    _ ← check (negb (bool_decide (col_Name column = ""%string)
                     || negb (bool_decide (TrimSpace (col_Name column) = col_Name column))))
              ErrInvalidSchema;
    _ ← check (bool_decide (seen !! col_Name column = None)) ErrInvalidSchema;
    _ ← match col_LogicalType column with
        | Some t => LogicalType_Validate t
        | None => DataType_Validate (col_Type column)
        end;
    validateColumnsLoop (<[col_Name column := column]> seen) rest
  end.

Definition validateColumns (s : Schema) : outcome (gmap string Column) :=
  validateColumnsLoop ∅ (sch_Columns s).

Fixpoint validateSchemaKeys (columns : gmap string Column) (keys : list string) : outcome unit :=
  match keys with
  | [] => Ok tt
  | key :: rest =>
    match columns !! key with
    | None => Err ErrInvalidSchema
    | Some _ => validateSchemaKeys columns rest
    end
  end.

Definition Schema_Validate (s : Schema) : outcome unit :=
  match sch_Columns s with
  | [] => Err ErrInvalidSchema
  | _ =>
    columns ← validateColumns s;
    _ ← validateSchemaKeys columns (sch_PrimaryKey s);
    _ ← validateSchemaKeys columns (sch_BucketKey s);
    validateSchemaKeys columns (sch_PartitionKey s)
  end.

(** ** Row validation *)

Definition selectedColumns (s : Schema) (columns : list string) : list string :=
  match columns with
  | [] => col_Name <$> sch_Columns s
  | _ => columns
  end.

Definition columnsByName (s : Schema) : gmap string Column :=
  foldl (fun m column => <[col_Name column := column]> m) ∅ (sch_Columns s).

(** Go compares strings bytewise; [slices.Sort] on the distinct keys of a Go map. *)
Fixpoint bytes_leb (a b : list byte) : bool :=
  match a, b with
  | [], _ => true
  | _ :: _, [] => false
  | x :: a, y :: b =>
    (byte.unsigned x <? byte.unsigned y)
    || ((byte.unsigned x =? byte.unsigned y) && bytes_leb a b)
  end.

Definition string_leb (a b : string) : bool := bytes_leb (bytesOf a) (bytesOf b).

Fixpoint insertEntry {A} (e : string * A) (l : list (string * A)) : list (string * A) :=
  match l with
  | [] => [e]
  | e' :: rest => if string_leb e.1 e'.1 then e :: l else e' :: insertEntry e rest
  end.

Definition sortEntries {A} (l : list (string * A)) : list (string * A) :=
  foldr insertEntry [] l.

(** [mapEntries]: an ordered [Map] as it is, a [map[string]any] sorted by key. *)
Definition mapEntries (v : GoValue) : option (list (GoValue * GoValue)) :=
  match v with
  | VMap entries => Some entries
  | VGoMap entries => Some (map (fun e => (VString e.1, e.2)) (sortEntries entries))
  | _ => None
  end.

Definition validUntypedValue (kind : DataType) (v : GoValue) : bool :=
  match kind, v with
  | BoolType, VBool _ => true
  | IntType, VInt32 _ => true
  | TinyIntType, VInt8 _ => true
  | SmallIntType, VInt16 _ => true
  | BigIntType, VInt64 _ => true
  | FloatType, VFloat32 _ => true
  | DoubleType, VFloat64 _ => true
  | (StringType | CharType), VString _ => true
  | (BinaryType | BytesType), VBytes _ => true
  | DecimalType, VRat _ => true
  | (DateType | TimeType | TimestampType | TimestampLTZType), VTime _ => true
  | ArrayType, VArray _ => true
  | MapType, _ => match mapEntries v with Some _ => true | None => false end
  | RowType, VRow _ => true
  | _, _ => false
  end.

(** The recursive calls of [validLogicalValue] are the argument [valid]. *)
Definition validLogicalArray (valid : LogicalType -> GoValue -> bool)
    (element : option LogicalType) (v : GoValue) : bool :=
  match v, element with
  | VArray values, Some e => forallb (valid e) values
  | _, _ => false
  end.

Definition validLogicalMap (valid : LogicalType -> GoValue -> bool)
    (key value : option LogicalType) (v : GoValue) : bool :=
  match key, value with
  | Some k, Some w =>
    match mapEntries v with
    | Some entries => forallb (fun e => valid k e.1 && valid w e.2) entries
    | None => false
    end
  | _, _ => false
  end.

Definition validLogicalRow (valid : LogicalType -> GoValue -> bool)
    (fields : list LogicalField) (v : GoValue) : bool :=
  match v with
  | VRow row =>
    (fix go fields row :=
       match fields, row with
       | [], [] => true
       | MkLogicalField _ ty _ _ :: fields, value :: row => valid ty value && go fields row
       | _, _ => false
       end) fields row
  | _ => false
  end.

Fixpoint validLogicalValue (t : LogicalType) (v : GoValue) {struct t} : bool :=
  let 'MkLogicalType root nullable _ _ _ element key value fields := t in
  if isNil v then nullable
  else match dataTypeForLogicalType t with
       | ArrayType => validLogicalArray validLogicalValue element v
       | MapType => validLogicalMap validLogicalValue key value v
       | RowType => validLogicalRow validLogicalValue fields v
       | kind => validUntypedValue kind v
       end.

Definition validateColumnValue (column : Column) (v : GoValue) : outcome unit :=
  if isNil v then check (col_Nullable column) ErrInvalidRow
  else match col_LogicalType column with
       | None => check (validUntypedValue (col_Type column) v) ErrInvalidRow
       | Some t => check (validLogicalValue t v) ErrInvalidRow
       end.

Fixpoint validateRowLoop (byName : gmap string Column) (columns : list string) (row : Row)
    : outcome unit :=
  match columns, row with
  | name :: columns, v :: row =>
    match byName !! name with
    | None => Err ErrInvalidRow
    | Some column => _ ← validateColumnValue column v; validateRowLoop byName columns row
    end
  | [], _ => Ok tt
  | _ :: _, [] => Panic
  end.

Definition ValidateRow (s : Schema) (row : Row) (columns : list string) : outcome unit :=
  _ ← Schema_Validate s;
  let columns := selectedColumns s columns in
  _ ← check (glen row =? glen columns) ErrInvalidRow;
  validateRowLoop (columnsByName s) columns row.

(** ** Paths, buckets, records and offsets ([records.go], [metadata.go]) *)

Record TablePath := MkTablePath { tp_Database : string; tp_Table : string }.

#[export] Instance TablePath_eq_dec : EqDecision TablePath.
Proof. solve_decision. Defined.

#[export] Instance TablePath_countable : Countable TablePath.
Proof.
  refine (inj_countable' (fun p => (tp_Database p, tp_Table p)) (fun p => MkTablePath p.1 p.2) _).
  by intros [].
Defined.

Definition TablePath_Validate (p : TablePath) : outcome unit :=
  check (negb (bool_decide (tp_Database p = ""%string) || bool_decide (tp_Table p = ""%string)))
        ErrInvalidConfig.

Definition TablePath_String (p : TablePath) : string :=
  (tp_Database p +:+ "." +:+ tp_Table p)%string.

Record PhysicalTablePath := MkPhysicalTablePath { pp_TablePath : TablePath; pp_Partition : string }.

Definition PhysicalTablePath_Validate (p : PhysicalTablePath) : outcome unit :=
  _ ← TablePath_Validate (pp_TablePath p);
  check (negb (negb (bool_decide (pp_Partition p = ""%string))
               && bool_decide (TrimSpace (pp_Partition p) = ""%string))) ErrInvalidConfig.

Definition PhysicalTablePath_String (p : PhysicalTablePath) : string :=
  if decide (pp_Partition p = ""%string) then TablePath_String (pp_TablePath p)
  else (TablePath_String (pp_TablePath p) +:+ "(p=" +:+ pp_Partition p +:+ ")")%string.

Inductive ServerType := CoordinatorServer | TabletServer.

#[export] Instance ServerType_eq_dec : EqDecision ServerType.
Proof. solve_decision. Defined.

Record ServerNode := MkServerNode { sn_ID : Z; sn_Address : string; sn_ServerType : ServerType }.

#[export] Instance ServerNode_eq_dec : EqDecision ServerNode.
Proof. solve_decision. Defined.

Record TableBucket := MkTableBucket {
  tb_TableID : Z; tb_PartitionID : Z; tb_BucketID : Z; tb_BucketCount : Z; tb_Leader : ServerNode;
}.

Definition TableBucket_Validate (b : TableBucket) : outcome unit :=
  check (negb ((tb_TableID b <? 0) || (tb_PartitionID b <? -1) || (tb_BucketID b <? 0)
               || bool_decide (sn_Address (tb_Leader b) = ""%string)
               || match sn_ServerType (tb_Leader b) with TabletServer => false | _ => true end))
        ErrInvalidConfig.

(** [NamedRow]: a Go map from column name to value. *)
Fixpoint namedValues (columns : list Column) (row : gmap string GoValue) : outcome Row :=
  match columns with
  | [] => Ok []
  | column :: rest =>
    match row !! col_Name column with
    | None => Err ErrInvalidRow
    | Some v => vs ← namedValues rest row; Ok (v :: vs)
    end
  end.

Definition RowFromNamed (s : Schema) (row : gmap string GoValue) : outcome Row :=
  _ ← Schema_Validate s;
  _ ← check (Z.of_nat (size row) =? glen (sch_Columns s)) ErrInvalidRow;
  values ← namedValues (sch_Columns s) row;
  _ ← ValidateRow s values [];
  Ok values.

Definition ValidatePrimaryKey (s : Schema) (key : PrimaryKey) : outcome unit :=
  ValidateRow s key (sch_PrimaryKey s).

(** [ChangeType] is an [int8]; [Append] is 0 and [Delete] is 4. *)
Definition Append : Z := 0.
Definition Insert : Z := 1.
Definition UpdateBefore : Z := 2.
Definition UpdateAfter : Z := 3.
Definition Delete : Z := 4.

Definition ChangeType_Validate (c : Z) : outcome unit :=
  check (negb ((c <? Append) || (Delete <? c))) ErrInvalidRow.

Record Record_ := MkRecord {
  rec_Key : PrimaryKey;
  rec_Value : Row;
  rec_Change : Z;
  rec_Timestamp : Time;
  rec_Offset : Z;
}.

Definition Record_Validate (r : Record_) (s : Schema) : outcome unit :=
  _ ← ChangeType_Validate (rec_Change r);
  _ ← check (negb (rec_Offset r <? -1)) ErrInvalidRow;
  _ ← ValidatePrimaryKey s (rec_Key r);
  if rec_Change r =? Delete then Ok tt else ValidateRow s (rec_Value r) [].

(** [time.Time{}] is January 1 of year 1, UTC; [IsZero] compares the instant. *)
Definition Time_IsZero (t : Time) : bool := (t_sec t =? -62135596800) && (t_nsec t =? 0).

Record OffsetSpec := MkOffsetSpec { os_Offset : Z; os_Timestamp : Time }.

Definition OffsetSpec_Validate (o : OffsetSpec) : outcome unit :=
  _ ← check (negb (os_Offset o <? -1)) ErrInvalidConfig;
  check (negb ((0 <=? os_Offset o) && negb (Time_IsZero (os_Timestamp o)))) ErrInvalidConfig.

(** ** Tables ([model.go]) *)

Inductive TableKind := LogTable | PrimaryKeyTable | OtherKind (s : string).

(** A nil [Properties] map is [None]. *)
Record Table := MkTable {
  tab_ID : Z;
  tab_SchemaID : Z;
  tab_Path : TablePath;
  tab_Kind : TableKind;
  tab_Schema : Schema;
  tab_BucketCount : Z;
  tab_BucketCountEpoch : Z;
  tab_BucketCountEpochKnown : bool;
  tab_RemoteDataDirectory : string;
  tab_Properties : option (gmap string string);
}.

Definition RequireLog (t : Table) : outcome unit :=
  match tab_Kind t with LogTable => Ok tt | _ => Err ErrTableKind end.

Definition RequirePrimaryKey (t : Table) : outcome unit :=
  match tab_Kind t with PrimaryKeyTable => Ok tt | _ => Err ErrTableKind end.

(** ** Lemmas *)

(** What validation establishes for one column. *)
Definition columnTypeOk (column : Column) : Prop :=
  match col_LogicalType column with
  | Some t => LogicalType_Validate t = Ok tt
  | None => DataType_Validate (col_Type column) = Ok tt
  end.

Lemma unit_ok (m : outcome unit) u : m = Ok u -> m = Ok tt.
Proof. by destruct u. Qed.

(** The columns map a successful validation returns, and what it says of the columns. *)
Lemma validateColumnsLoop_Ok columns : forall seen m,
  validateColumnsLoop seen columns = Ok m ->
  NoDup (col_Name <$> columns) /\
  (forall c, c ∈ columns -> seen !! col_Name c = None /\ columnTypeOk c /\ col_Name c <> ""%string) /\
  m = foldl (fun m c => <[col_Name c := c]> m) seen columns.
Proof.
  induction columns as [|c columns IH]; intros seen m H; cbn in H.
  { inv_ok. split_and!; [constructor | intros ? ?%not_elem_of_nil; done | done]. }
  apply bind_Ok in H as (? & Hn%check_Ok & H).
  apply bind_Ok in H as (? & Hs%check_Ok%bool_decide_eq_true & H).
  apply bind_Ok in H as (? & Ht%unit_ok & H).
  apply IH in H as (Hnd & Hall & ->). cbn. split_and!; [|intros c'|done].
  - constructor; [|done]. intros (c' & Heq & Hc')%list_elem_of_fmap.
    destruct (Hall c' Hc') as (Hne & _). rewrite <- Heq, lookup_insert_eq in Hne. done.
  - intros [-> | Hc']%elem_of_cons.
    + split_and!; [done | by unfold columnTypeOk; case_match |].
      intros He. by rewrite He in Hn.
    + destruct (Hall c' Hc') as (Hne & ? & ?). split_and!; [|done..].
      destruct (decide (col_Name c = col_Name c')) as [He|He].
      * rewrite He, lookup_insert_eq in Hne. done.
      * by rewrite lookup_insert_ne in Hne.
Qed.

Lemma Schema_Validate_Ok s u :
  Schema_Validate s = Ok u ->
  sch_Columns s <> [] /\ NoDup (col_Name <$> sch_Columns s) /\ Forall columnTypeOk (sch_Columns s) /\
  forall name, name ∈ sch_PrimaryKey s ++ sch_BucketKey s ++ sch_PartitionKey s ->
    is_Some (columnsByName s !! name).
Proof.
  assert (Hk : forall m keys u, validateSchemaKeys m keys = Ok u ->
                forall name, name ∈ keys -> is_Some (m !! name)).
  { intros m keys; induction keys as [|key keys IH]; intros u'; cbn.
    - intros _ ? ?%not_elem_of_nil. done.
    - destruct (m !! key) eqn:E; [|done]. intros ? name [-> | ?]%elem_of_cons; eauto. }
  unfold Schema_Validate. destruct (sch_Columns s) as [|c cs] eqn:E; [done|].
  unfold validateColumns, columnsByName. rewrite <- E. intros H.
  apply bind_Ok in H as (m & Hm & H). apply validateColumnsLoop_Ok in Hm as (? & Hall & ->).
  apply bind_Ok in H as (u1 & H1 & H). apply bind_Ok in H as (u2 & H2 & H).
  split_and!; [by rewrite E | done | |].
  - apply Forall_forall. intros c' Hc'. by apply Hall.
  - intros name. rewrite !elem_of_app. intros [?|[?|?]]; [eapply (Hk _ _ _ H1) | eapply (Hk _ _ _ H2) | eapply (Hk _ _ _ H)]; done.
Qed.

Lemma foldl_insert_lookup_ne columns : forall (m : gmap string Column) name,
  name ∉ (col_Name <$> columns) ->
  foldl (fun m c => <[col_Name c := c]> m) m columns !! name = m !! name.
Proof.
  induction columns as [|c columns IH]; intros m name Hn; cbn; [done|].
  cbn in Hn. rewrite IH by set_solver. rewrite lookup_insert_ne by set_solver. done.
Qed.

Lemma foldl_insert_lookup columns : forall (m : gmap string Column) c,
  NoDup (col_Name <$> columns) -> c ∈ columns ->
  foldl (fun m c => <[col_Name c := c]> m) m columns !! col_Name c = Some c.
Proof.
  induction columns as [|c' columns IH]; intros m c Hnd Hc; cbn.
  { by apply not_elem_of_nil in Hc. }
  apply NoDup_cons in Hnd as [Hn Hnd]. apply elem_of_cons in Hc as [-> | Hc]; [|by apply IH].
  rewrite foldl_insert_lookup_ne by done. apply lookup_insert_eq.
Qed.

Lemma columnsByName_lookup s c :
  NoDup (col_Name <$> sch_Columns s) -> c ∈ sch_Columns s ->
  columnsByName s !! col_Name c = Some c.
Proof. apply foldl_insert_lookup. Qed.

Lemma columnsByName_elem s name c : columnsByName s !! name = Some c -> c ∈ sch_Columns s.
Proof.
  unfold columnsByName.
  assert (Hg : forall cols (m : gmap string Column),
    foldl (fun m c => <[col_Name c := c]> m) m cols !! name = Some c ->
    m !! name = Some c \/ c ∈ cols).
  { induction cols as [|c' cols IH]; intros m; cbn; [auto|]. intros [H|H]%IH.
    - destruct (decide (col_Name c' = name)) as [<- | Hne].
      + rewrite lookup_insert_eq in H. injection H as ->. right. left.
      + rewrite lookup_insert_ne in H by done. auto.
    - right. by right. }
  intros [H|H]%Hg; [by rewrite lookup_empty in H | done].
Qed.

Lemma validateRowLoop_names s columns : forall row,
  NoDup (col_Name <$> sch_Columns s) -> columns ⊆ sch_Columns s ->
  length row = length columns ->
  validateRowLoop (columnsByName s) (col_Name <$> columns) row = Ok tt <->
  Forall2 (fun c v => validateColumnValue c v = Ok tt) columns row.
Proof.
  induction columns as [|c columns IH]; intros [|v row] Hnd Hsub Hlen; cbn in *; try lia.
  { split; [constructor | done]. }
  rewrite columnsByName_lookup by (try apply Hsub; set_solver).
  rewrite Forall2_cons, bind_Ok, <- IH by (set_solver || lia || done).
  split.
  - intros ([] & Hv & Hr). auto.
  - intros (Hv & Hr). exists tt. auto.
Qed.

Lemma ValidateRow_all s row :
  ValidateRow s row [] = Ok tt <->
  Schema_Validate s = Ok tt /\
  Forall2 (fun c v => validateColumnValue c v = Ok tt) (sch_Columns s) row.
Proof.
  unfold ValidateRow, selectedColumns. rewrite bind_Ok. split.
  - intros ([] & Hs & H). apply bind_Ok in H as (? & Hlen%check_Ok & H).
    apply Schema_Validate_Ok in Hs as Hv. destruct Hv as (_ & Hnd & _).
    split; [done|]. rewrite glen_fmap in Hlen. unfold glen in Hlen.
    eapply validateRowLoop_names; [done | set_solver | lia | done].
  - intros (Hs & Hf). exists tt. split; [done|]. apply bind_Ok. exists tt.
    apply Schema_Validate_Ok in Hs as Hv. destruct Hv as (_ & Hnd & _).
    apply Forall2_length in Hf as Hlen.
    split; [apply check_Ok; rewrite glen_fmap; unfold glen; lia|].
    eapply validateRowLoop_names; [done | set_solver | lia | done].
Qed.

(** Induction over a logical type and all the types nested in it. *)
Section LogicalTypeInd.
Variable P : LogicalType -> Prop.
Hypothesis step : forall root nullable len prec scale element key value fields,
  (forall e, element = Some e -> P e) -> (forall k, key = Some k -> P k) ->
  (forall v, value = Some v -> P v) -> Forall (fun f => P (lf_Type f)) fields ->
  P (MkLogicalType root nullable len prec scale element key value fields).

Fixpoint LogicalType_nested_ind (t : LogicalType) : P t.
Proof.
  destruct t as [root nullable len prec scale element key value fields].
  apply step.
  - intros e He. destruct element as [e'|]; [|discriminate].
    injection He as <-. apply LogicalType_nested_ind.
  - intros e He. destruct key as [e'|]; [|discriminate].
    injection He as <-. apply LogicalType_nested_ind.
  - intros e He. destruct value as [e'|]; [|discriminate].
    injection He as <-. apply LogicalType_nested_ind.
  - induction fields as [|[name ty desc id] fields IH]; constructor; [|exact IH].
    apply LogicalType_nested_ind.
Qed.
End LogicalTypeInd.

(** Every ARRAY, MAP and ROW inside the type carries its nested types, so that no
    codec dereferences a nil type. *)
Fixpoint typeComplete (t : LogicalType) : bool :=
  let 'MkLogicalType _ _ _ _ _ element key value fields := t in
  let opt := fun o => match o with Some e => typeComplete e | None => false end in
  match dataTypeForLogicalType t with
  | ArrayType => opt element
  | MapType => opt key && opt value
  | RowType => forallb (fun f => let 'MkLogicalField _ ty _ _ := f in typeComplete ty) fields
  | _ => true
  end.

Definition schemaComplete (s : Schema) : bool :=
  forallb (fun c => typeComplete (logicalTypeForColumn c)) (sch_Columns s).

(** Columns that name ARRAY or MAP without a logical type are the only incomplete ones a
    valid schema can have. *)
Definition columnTyped (c : Column) : bool :=
  match col_LogicalType c, col_Type c with
  | None, (ArrayType | MapType) => false
  | _, _ => true
  end.

Lemma dataTypeOfString_String t : (forall s, t <> OtherType s) ->
  dataTypeOfString (dataTypeString t) = t.
Proof. intros H. destruct t; try reflexivity. by destruct (H s). Qed.

Lemma dataType_root root t :
  dataTypeForLogicalType t = root -> lt_Root t = ""%string -> root = OtherType "".
Proof. unfold dataTypeForLogicalType. intros <- ->. reflexivity. Qed.

(** The kind of a root that validation accepts for one of the nested types. *)
Lemma dataTypeForLogicalType_cases t :
  lt_Root t ∈ scalarRoots \/ lt_Root t ∈ ["CHAR"; "BINARY"; "DECIMAL"; "TIME_WITHOUT_TIME_ZONE";
    "TIMESTAMP_WITHOUT_TIME_ZONE"; "TIMESTAMP_WITH_LOCAL_TIME_ZONE"]%string ->
  forall k, k ∈ [ArrayType; MapType; RowType] -> dataTypeForLogicalType t <> k.
Proof.
  destruct t as [root ? ? ? ? ? ? ? ?]. unfold dataTypeForLogicalType, scalarRoots. cbn [lt_Root].
  intros H k Hk. rewrite !elem_of_cons in H.
  rewrite !elem_of_cons in Hk.
  repeat match goal with H : _ \/ _ |- _ => destruct H end;
  try match goal with H : _ ∈ [] |- _ => by apply not_elem_of_nil in H end; subst; discriminate.
Qed.

Lemma LogicalType_Validate_complete t :
  LogicalType_Validate t = Ok tt -> typeComplete t = true.
Proof.
  induction t as [root nul len prec scale element key value fields He Hk Hv Hf]
    using LogicalType_nested_ind. intros H.
  pose proof (dataTypeForLogicalType_cases
    (MkLogicalType root nul len prec scale element key value fields)) as Hc. cbn [lt_Root] in Hc.
  assert (Hscalar : (forall k, k ∈ [ArrayType; MapType; RowType] ->
    dataTypeForLogicalType (MkLogicalType root nul len prec scale element key value fields) <> k) ->
    typeComplete (MkLogicalType root nul len prec scale element key value fields) = true).
  { intros Hn. cbn -[dataTypeForLogicalType]. destruct (dataTypeForLogicalType _) eqn:E; try done;
    exfalso; eapply Hn; try reflexivity; rewrite !elem_of_cons; tauto. }
  cbn in H. unfold validateArray, validateMap, validateRow in H.
  destruct (decide (root ∈ scalarRoots)); [apply Hscalar, Hc; by left|].
  destruct (decide (root ∈ ["CHAR"; "BINARY"]%string)) as [Hr|_];
    [apply Hscalar, Hc; right; rewrite !elem_of_cons in *; tauto|].
  destruct (decide (root = "DECIMAL"%string)) as [Hr|_];
    [apply Hscalar, Hc; right; rewrite !elem_of_cons; tauto|].
  destruct (decide (root ∈ ["TIME_WITHOUT_TIME_ZONE"; "TIMESTAMP_WITHOUT_TIME_ZONE";
    "TIMESTAMP_WITH_LOCAL_TIME_ZONE"]%string)) as [Hr|_];
    [apply Hscalar, Hc; right; rewrite !elem_of_cons in *; tauto|].
  clear Hscalar Hc.
  repeat case_decide; try done; subst root; cbn -[dataTypeForLogicalType].
  - change (dataTypeForLogicalType _) with ArrayType. destruct element as [e|]; [|done]. by apply He.
  - change (dataTypeForLogicalType _) with MapType.
    destruct key as [k|]; [|done]. destruct value as [v|]; [|done].
    apply bind_Ok in H as ([] & Hk' & Hv'). rewrite Hk, Hv by done. done.
  - change (dataTypeForLogicalType _) with RowType.
    assert (Hg : validateFields LogicalType_Validate fields = Ok tt) by (by destruct fields).
    clear H. induction fields as [|[name ty desc id] fields IH]; [done|]. cbn in Hg |- *.
    apply Forall_cons in Hf as [Hty Hf]. case_decide; [done|].
    apply bind_Ok in Hg as ([] & Ht & Hg). cbn in Hty. rewrite Hty by done. by apply IH.
Qed.

Lemma valid_schemaComplete s u :
  Schema_Validate s = Ok u -> forallb columnTyped (sch_Columns s) = true -> schemaComplete s = true.
Proof.
  intros (_ & _ & Hf & _)%Schema_Validate_Ok Ht. unfold schemaComplete.
  apply forallb_forall. intros c Hc%list_elem_of_In.
  rewrite forallb_forall in Ht. specialize (Ht c ltac:(by apply list_elem_of_In)).
  rewrite Forall_forall in Hf. specialize (Hf c Hc). unfold columnTypeOk, columnTyped in *.
  unfold logicalTypeForColumn. destruct (col_LogicalType c) as [t|].
  - by apply LogicalType_Validate_complete.
  - destruct (col_Type c); try reflexivity; done.
Qed.
