(* ===== verification/Wire.v ===== *)
(** * Byte-level primitives of the row codecs

    Models the helpers at the bottom of [pkg/fgo/row_codec.go]: bounds-checked reads,
    fixed-width little-endian appends, unsigned varints and length-prefixed bytes.
    The encoders append to a buffer and the decoders read at a position inside one,
    so every round trip is stated for a value embedded between any two byte strings. *)

From S2P Require Import Prelude.

Definition maxRowBytes : Z := Z.shiftl 16 20.

Definition readFixed (encoded : list byte) (position length : Z) : outcome (list byte * Z) :=
  if (position <? 0) || (length <? 0) || (glen encoded <? position)
     || (glen encoded - position <? length)
  then Err (ErrText "truncated value")
  else value ← slice encoded position (position + length); Ok (value, position + length).

Definition appendLittle (dst : list byte) (value : Z) (width : nat) : list byte :=
  dst ++ take width (le_split 8 value).

(** [for value > 0x7f { ... }]: ten iterations are enough for a [uint64]
    ([appendVarLoop_enough]). *)
Fixpoint appendVarLoop (fuel : nat) (dst : list byte) (value : Z) : list byte :=
  match fuel with
  | O => dst
  | S fuel =>
    if 127 <? value
    then appendVarLoop fuel (dst ++ [byte.of_Z (Z.lor (uint8 value) 128)]) (Z.shiftr value 7)
    else dst ++ [byte.of_Z value]
  end.

Definition appendVar64 (dst : list byte) (value : Z) : list byte := appendVarLoop 10 dst value.
Definition appendVar32 (dst : list byte) (value : Z) : list byte := appendVar64 dst value.

(** The loop of [readVar]; [n] iterations are left, the next one is number [i]. *)
Fixpoint readVarLoop (n : nat) (i : Z) (encoded : list byte) (position value : Z)
    : outcome (Z * Z) :=
  match n with
  | O => Err (ErrText "overlong varint")
  | S n =>
    if glen encoded <=? position then Err (ErrText "truncated varint")
    else
      part ← index encoded position;
      let part := byte.unsigned part in
      let position := position + 1 in
      let value := Z.lor value (uint64 (Z.shiftl (Z.land part 127) (7 * i))) in
      if Z.land part 128 =? 0 then Ok (value, position)
      else readVarLoop n (i + 1) encoded position value
  end.

Definition readVar (encoded : list byte) (position : Z) (maximum : nat) : outcome (Z * Z) :=
  readVarLoop maximum 0 encoded position 0.

Definition appendLengthBytes (dst value : list byte) : outcome (list byte) :=
  if maxRowBytes <? glen value then Err (ErrText "value exceeds limit")
  else Ok (appendVar32 dst (uint32 (glen value)) ++ value).

Definition readLengthBytes (encoded : list byte) (position : Z) : outcome (list byte * Z) :=
  match readVar encoded position 5 with
  | Ok (length, next) =>
    if (maxRowBytes <? length) || (glen encoded <? next) || (glen encoded - next <? length)
    then Err (ErrText "invalid byte length")
    else value ← slice encoded next (next + length); Ok (value, next + length)
  | Err _ => Err (ErrText "invalid byte length")
  | Panic => Panic
  | OutOfFuel => OutOfFuel
  end.

#[global] Arguments appendVar64 : simpl never.
#[global] Arguments appendVar32 : simpl never.
#[global] Arguments appendLittle : simpl never.
#[global] Arguments maxRowBytes : simpl never.

(** ** Lemmas: fixed-width values *)

Lemma maxRowBytes_val : maxRowBytes = 16777216.
Proof. reflexivity. Qed.

Lemma readFixed_app p v s position length :
  position = glen p -> length = glen v ->
  readFixed (p ++ v ++ s) position length = Ok (v, glen p + glen v).
Proof.
  intros -> ->. unfold readFixed. destruct (_ || _) eqn:E; [glia|].
  rewrite slice_app by done. reflexivity.
Qed.

Lemma readFixed_Ok encoded position length v next :
  readFixed encoded position length = Ok (v, next) ->
  0 <= position /\ 0 <= length /\ next = position + length /\
  next <= glen encoded /\ glen v = length /\ slice encoded position next = Ok v.
Proof.
  unfold readFixed. destruct (_ || _) eqn:E; [done|]. intros H. inv_ok.
  rename select (slice _ _ _ = _) into Hs.
  pose proof (slice_glen _ _ _ _ Hs). split_and!; try done; lia.
Qed.

Lemma readFixed_returns encoded position length :
  returns (readFixed encoded position length) = true.
Proof.
  unfold readFixed. destruct (_ || _) eqn:E; [done|].
  destruct (slice_safe encoded position (position + length)) as [v ->]; [lia..|]. done.
Qed.

Lemma appendLittle_app dst value width :
  appendLittle dst value width = dst ++ appendLittle [] value width.
Proof. done. Qed.

Lemma le_split_S n v : le_split (S n) v = byte.of_Z v :: le_split n (Z.shiftr v 8).
Proof. reflexivity. Qed.

Lemma take_le_split w n v : (w <= n)%nat -> take w (le_split n v) = le_split w v.
Proof.
  revert w v. induction n as [|n IH]; intros [|w] v Hw; try lia; [done..|].
  rewrite !le_split_S. cbn. f_equal. apply IH. lia.
Qed.

Lemma appendLittle_le_split dst value width :
  (width <= 8)%nat -> appendLittle dst value width = dst ++ le_split width value.
Proof. intros. unfold appendLittle. by rewrite take_le_split. Qed.

Lemma le_combine_split8 w v :
  le_combine (le_split w v) = uwrap (8 * Z.of_nat w) v.
Proof. rewrite le_combine_split. unfold uwrap. do 2 f_equal. lia. Qed.

(** ** Lemmas: varints *)

(** The bytes the loop appends; [appendVarLoop] only ever appends. *)
Lemma appendVarLoop_app fuel : forall dst value,
  appendVarLoop fuel dst value = dst ++ appendVarLoop fuel [] value.
Proof.
  induction fuel as [|fuel IH]; intros dst value; cbn; [by rewrite app_nil_r|].
  case_match; [|done]. rewrite IH, (IH [_]). by rewrite app_assoc.
Qed.

Lemma appendVar64_app dst value : appendVar64 dst value = dst ++ appendVar64 [] value.
Proof. apply appendVarLoop_app. Qed.

(** The loop stops on its own: more fuel than the value has 7-bit groups changes nothing. *)
Lemma appendVarLoop_enough fuel : forall extra dst value,
  0 <= value < 2 ^ (7 * Z.of_nat fuel) -> (0 < fuel)%nat ->
  appendVarLoop (fuel + extra) dst value = appendVarLoop fuel dst value.
Proof.
  induction fuel as [|fuel IH]; intros extra dst value Hv Hf; [lia|]. cbn.
  destruct (Z.ltb_spec 127 value); [|done].
  assert (Z.shiftr value 7 < 2 ^ (7 * Z.of_nat fuel)).
  { rewrite Z.shiftr_div_pow2 by lia. apply Z.div_lt_upper_bound; [lia|].
    rewrite <- Z.pow_add_r by lia. replace (7 + _) with (7 * Z.of_nat (S fuel)) by lia. lia. }
  apply IH; [rewrite Z.shiftr_div_pow2 in * by lia; split; [apply Z.div_pos; lia|lia]|].
  destruct fuel; [|lia]. cbn in Hv. lia.
Qed.

Lemma land_128_small b : 0 <= b < 256 -> (Z.land b 128 =? 0) = (b <? 128).
Proof.
  intros Hb. pose proof (byte_bit b 7 ltac:(lia)) as H.
  change (Z.shiftl 1 7) with 128 in H.
  rewrite <- (negb_involutive (Z.land b 128 =? 0)), H.
  rewrite Z.testbit_odd, Z.shiftr_div_pow2 by lia. change (2 ^ 7) with 128.
  destruct (Z.ltb_spec b 128).
  - by rewrite Z.div_small by lia.
  - by replace (b / 128) with 1 by zlia.
Qed.

Lemma land_127 b : Z.land b 127 = b mod 128.
Proof. change 127 with (Z.ones 7). by rewrite Z.land_ones by lia. Qed.

Lemma lor_shiftl_disjoint a b k :
  0 <= k -> 0 <= a < 2 ^ k -> 0 <= b -> Z.lor a (Z.shiftl b k) = a + b * 2 ^ k.
Proof.
  intros Hk Ha Hb. rewrite <- Z.shiftl_mul_pow2 by lia.
  rewrite <- (Z.add_lor_land a).
  enough (Z.land a (Z.shiftl b k) = 0) as -> by lia.
  apply Z.bits_inj. intros m. rewrite Z.land_spec, Z.bits_0.
  destruct (Z.ltb_spec m 0); [by rewrite Z.testbit_neg_r by lia|].
  destruct (Z.ltb_spec m k).
  - rewrite Z.shiftl_spec_low by lia. apply andb_false_r.
  - rewrite <- (Z.mod_small a (2 ^ k)) by lia. by rewrite Z.mod_pow2_bits_high by lia.
Qed.

Lemma lor_128 b : 0 <= b < 256 -> Z.lor b 128 = b mod 128 + 128.
Proof.
  intros Hb. assert (Hl : Z.lor (b mod 128) 128 = b mod 128 + 128).
  { apply (lor_shiftl_disjoint (b mod 128) 1 7); zlia. }
  destruct (Z.ltb_spec b 128).
  - by rewrite Z.mod_small in Hl at 1 by lia.
  - replace b with (b mod 128 + 128) at 1 by zlia.
    by rewrite <- Hl, <- Z.lor_assoc, Z.lor_diag.
Qed.

(** A continuation byte carries the low seven bits and has its top bit set. *)
Lemma continuation_byte value :
  byte.unsigned (byte.of_Z (Z.lor (uint8 value) 128)) = value mod 128 + 128.
Proof.
  rewrite byte.unsigned_of_Z. unfold byte.wrap, uwrap. change (2 ^ 8) with 256.
  rewrite lor_128 by zlia. zlia.
Qed.

Lemma readVarLoop_round n : forall fuel i p s value acc,
  0 <= i -> 0 <= acc < 2 ^ (7 * i) ->
  0 <= value < 2 ^ (7 * Z.of_nat n) -> (0 < n <= fuel)%nat ->
  value * 2 ^ (7 * i) < 2 ^ 64 ->
  readVarLoop n i (p ++ appendVarLoop fuel [] value ++ s) (glen p) acc =
  Ok (acc + value * 2 ^ (7 * i), glen p + glen (appendVarLoop fuel [] value)).
Proof.
  induction n as [|n IH]; intros [|fuel] i p s value acc Hi Hacc Hv Hn H64; try lia.
  pose proof (Z.pow_pos_nonneg 2 (7 * i) ltac:(lia) ltac:(lia)) as Hpow.
  assert (Hacc' : forall part, 0 <= part < 128 -> part <= value ->
    Z.lor acc (uint64 (Z.shiftl part (7 * i))) = acc + part * 2 ^ (7 * i)).
  { intros part Hp Hle. rewrite uwrap_small; [by apply lor_shiftl_disjoint; lia|].
    unfold urange. rewrite Z.shiftl_mul_pow2 by lia. nia. }
  cbn [readVarLoop appendVarLoop].
  destruct (Z.ltb_spec 127 value) as [Hbig|Hsmall].
  - rewrite appendVarLoop_app. cbn [app]. rewrite index_app by done. cbn [mbind outcome_bind].
    destruct (Z.leb_spec (glen (p ++ byte.of_Z (Z.lor (uint8 value) 128)
      :: appendVarLoop fuel [] (value ≫ 7) ++ s)) (glen p)); [glia|].
    rewrite continuation_byte, land_128_small, land_127 by zlia.
    destruct (Z.ltb_spec (value mod 128 + 128) 128); [zlia|].
    replace ((value mod 128 + 128) mod 128) with (value mod 128) by zlia.
    rewrite Hacc' by zlia. rewrite Z.shiftr_div_pow2 by lia. change (2 ^ 7) with 128.
    replace (p ++ byte.of_Z (Z.lor (uint8 value) 128) :: appendVarLoop fuel [] (value / 128) ++ s)
      with ((p ++ [byte.of_Z (Z.lor (uint8 value) 128)]) ++ appendVarLoop fuel [] (value / 128) ++ s)
      by (by rewrite <- app_assoc).
    replace (glen p + 1) with (glen (p ++ [byte.of_Z (Z.lor (uint8 value) 128)])) by glia.
    assert (Hp1 : 2 ^ (7 * (i + 1)) = 128 * 2 ^ (7 * i)).
    { replace (7 * (i + 1)) with (7 + 7 * i) by lia. by rewrite Z.pow_add_r by lia. }
    assert (Hpn : 2 ^ (7 * Z.of_nat (S n)) = 128 * 2 ^ (7 * Z.of_nat n)).
    { replace (7 * Z.of_nat (S n)) with (7 + 7 * Z.of_nat n) by lia.
      by rewrite Z.pow_add_r by lia. }
    destruct n as [|n]; [cbn in Hpn; lia|].
    pose proof (Z.div_mod value 128 ltac:(lia)) as Hdm.
    pose proof (Z.mod_pos_bound value 128 ltac:(lia)) as Hr.
    rewrite IH by (rewrite ?Hp1; nia).
    rewrite Hp1. f_equal. f_equal; [nia | glia].
  - cbn [app]. rewrite index_app by done. cbn [mbind outcome_bind].
    destruct (Z.leb_spec (glen (p ++ byte.of_Z value :: s)) (glen p)); [glia|].
    rewrite byte.unsigned_of_Z. unfold byte.wrap. rewrite Z.mod_small by lia.
    rewrite land_128_small, land_127, Z.mod_small by lia.
    destruct (Z.ltb_spec value 128); [|lia]. rewrite Hacc' by lia. done.
Qed.

Lemma readVar_round p s value (maximum : nat) position :
  position = glen p -> 0 <= value < 2 ^ 64 -> value < 2 ^ (7 * Z.of_nat maximum) ->
  (0 < maximum <= 10)%nat ->
  readVar (p ++ appendVar64 [] value ++ s) position maximum =
  Ok (value, glen p + glen (appendVar64 [] value)).
Proof.
  intros -> Hv Hm Hn. unfold readVar, appendVar64.
  rewrite readVarLoop_round by (cbn; lia). cbn. do 2 f_equal. lia.
Qed.

Lemma appendVar64_glen value : 0 <= value < 2 ^ 64 -> 1 <= glen (appendVar64 [] value) <= 10.
Proof.
  intros Hv. unfold appendVar64.
  assert (H : forall fuel v, (0 < fuel)%nat -> 0 <= v < 2 ^ (7 * Z.of_nat fuel) ->
    1 <= glen (appendVarLoop fuel [] v) <= Z.of_nat fuel).
  { induction fuel as [|fuel IH]; intros v Hf Hv'; [lia|]. cbn [appendVarLoop].
    destruct (Z.ltb_spec 127 v); [|glia]. rewrite appendVarLoop_app.
    rewrite Z.shiftr_div_pow2 by lia. change (2 ^ 7) with 128.
    assert (2 ^ (7 * Z.of_nat (S fuel)) = 128 * 2 ^ (7 * Z.of_nat fuel)).
    { replace (7 * Z.of_nat (S fuel)) with (7 + 7 * Z.of_nat fuel) by lia.
      by rewrite Z.pow_add_r by lia. }
    destruct fuel as [|fuel]; [cbn in *; lia|].
    specialize (IH (v / 128) ltac:(lia) ltac:(zlia)). glia. }
  apply (H 10%nat); cbn; lia.
Qed.

Lemma readVarLoop_bound n : forall i encoded position value v next,
  0 <= position -> readVarLoop n i encoded position value = Ok (v, next) ->
  position < next <= glen encoded.
Proof.
  induction n as [|n IH]; intros i encoded position value v next Hp H; [done|]. cbn in H.
  destruct (Z.leb_spec (glen encoded) position); [done|]. inv_ok.
  case_match; inv_ok; [lia|].
  match goal with H : readVarLoop _ _ _ _ _ = _ |- _ => apply IH in H; lia end.
Qed.

Lemma readVarLoop_nonneg n : forall i encoded position value v next,
  0 <= value -> readVarLoop n i encoded position value = Ok (v, next) -> 0 <= v.
Proof.
  induction n as [|n IH]; intros i encoded position value v next Hp H; [done|]. cbn in H.
  case_match; [done|]. inv_ok.
  match goal with H : context [Z.lor value ?w] |- _ =>
    assert (0 <= Z.lor value w) by
      (apply Z.lor_nonneg; split; [done | by apply uwrap_range]) end.
  case_match; inv_ok; eauto.
Qed.

Lemma readVar_returns encoded position maximum :
  0 <= position -> returns (readVar encoded position maximum) = true.
Proof.
  unfold readVar. generalize 0 at 2 as i, 0 at 2 as value. revert position.
  induction maximum as [|n IH]; intros position value i Hp; [done|]. cbn.
  destruct (Z.leb_spec (glen encoded) position); [done|].
  destruct (index_safe encoded position) as [b ->]; [lia|]. cbn.
  case_match; [done|]. apply IH. lia.
Qed.

(** ** Lemmas: length-prefixed bytes *)

Lemma appendLengthBytes_app dst value :
  appendLengthBytes dst value = (fun b => dst ++ b) <$> appendLengthBytes [] value.
Proof.
  unfold appendLengthBytes, appendVar32. case_match; [done|]. cbn.
  by rewrite (appendVar64_app dst), app_assoc.
Qed.

Lemma readLengthBytes_round p s value encoded position :
  position = glen p -> appendLengthBytes [] value = Ok encoded ->
  readLengthBytes (p ++ encoded ++ s) position = Ok (value, glen p + glen encoded).
Proof.
  intros -> H. unfold appendLengthBytes, appendVar32 in H.
  destruct (Z.ltb_spec maxRowBytes (glen value)) as [|Hlen]; [done|]. inv_ok.
  rewrite maxRowBytes_val in *. rewrite uwrap_small by (unfold urange; glia).
  pose proof (appendVar64_glen (glen value) ltac:(glia)).
  unfold readLengthBytes. rewrite <- app_assoc, readVar_round by (glia || lia).
  rewrite maxRowBytes_val. destruct (_ || _) eqn:E; [glia|].
  rewrite app_assoc, slice_app by glia. cbn. do 2 f_equal. glia.
Qed.

Lemma readLengthBytes_Ok encoded position v next :
  0 <= position -> readLengthBytes encoded position = Ok (v, next) ->
  position < next <= glen encoded /\ glen v <= maxRowBytes.
Proof.
  unfold readLengthBytes. intros Hp H.
  destruct (readVar encoded position 5) as [[len n]| | |] eqn:E; try done.
  destruct (_ || _) eqn:Eb; [done|]. inv_ok.
  rename select (slice _ _ _ = _) into Hs.
  apply readVarLoop_bound in E; [|done]. pose proof (slice_glen _ _ _ _ Hs).
  glia.
Qed.

Lemma readLengthBytes_returns encoded position :
  0 <= position -> returns (readLengthBytes encoded position) = true.
Proof.
  intros Hp. unfold readLengthBytes. pose proof (readVar_returns encoded position 5 Hp).
  destruct (readVar encoded position 5) as [[len n]| | |] eqn:E; try done.
  apply readVarLoop_bound in E as Hb; [|done]. destruct (_ || _) eqn:Eb; [done|].
  apply readVarLoop_nonneg in E; [|lia].
  destruct (slice_safe encoded n (n + len)) as [v' ->]; [lia..|]. done.
Qed.
