(* ===== verification/Values.v ===== *)
(** * Times, decimals and big integers

    Models the scalar conversions of [pkg/fgo/row_value_codec.go]: calendar dates and
    clock times, timestamps with and without a time zone, decimals as exact scaled
    integers, and the two's-complement bytes of big integers.  The parts of Go's
    [time] and [math/big] the code calls are modelled first. *)

From S2P Require Import Prelude Model Wire.

(** ** The calendar of package [time] *)

Definition isLeap (y : Z) : bool :=
  (y mod 4 =? 0) && (negb (y mod 100 =? 0) || (y mod 400 =? 0)).

(** Days from January 1 of year 1 to January 1 of year [y]. *)
Definition daysBeforeYear (y : Z) : Z :=
  let p := y - 1 in 365 * p + p / 4 - p / 100 + p / 400.

(** The year of day [n] counted from January 1 of year 1. *)
Definition yearOfDay (n : Z) : Z :=
  let y := 400 * n / 146097 + 1 in
  if n <? daysBeforeYear y then y - 1
  else if daysBeforeYear (y + 1) <=? n then y + 1 else y.

Definition monthLengths (leap : bool) : list Z :=
  [31; if leap then 29 else 28; 31; 30; 31; 30; 31; 31; 30; 31; 30; 31].

(** Month and day of day [n] of a year, walking the month lengths from month [m]. *)
Fixpoint monthDay (m : Z) (lengths : list Z) (n : Z) : Z * Z :=
  match lengths with
  | [] => (m, n + 1)
  | l :: rest =>
    match rest with
    | [] => (m, n + 1)
    | _ => if n <? l then (m, n + 1) else monthDay (m + 1) rest (n - l)
    end
  end.

Definition unixEpochDay : Z := 719162.

(** [Time.Date]: the civil date of the instant in its zone. *)
Definition Time_Date (t : Time) : Z * Z * Z :=
  let n := (t_sec t + t_off t) / 86400 + unixEpochDay in
  let y := yearOfDay n in
  let '(m, d) := monthDay 1 (monthLengths (isLeap y)) (n - daysBeforeYear y) in
  (y, m, d).

(** [time.Date(y, m, d, 0, 0, 0, 0, time.UTC).Unix()]. *)
Definition dateUnix (y m d : Z) : Z :=
  (daysBeforeYear y + foldr Z.add 0 (take (Z.to_nat (m - 1)) (monthLengths (isLeap y)))
   + d - 1 - unixEpochDay) * 86400.

Definition secondOfDay (t : Time) : Z := (t_sec t + t_off t) mod 86400.
Definition Time_Hour (t : Time) : Z := secondOfDay t / 3600.
Definition Time_Minute (t : Time) : Z := secondOfDay t mod 3600 / 60.
Definition Time_Second (t : Time) : Z := secondOfDay t mod 60.
Definition Time_Nanosecond (t : Time) : Z := t_nsec t.

(** [Time.UnixMilli]. *)
Definition UnixMilli (t : Time) : Z := int64 (t_sec t * 1000 + Z.quot (t_nsec t) 1000000).

(** [time.Unix(sec, nsec).UTC()]: carries whole seconds out of [nsec]. *)
Definition timeUnix (sec nsec : Z) : Time :=
  MkTime (sec + nsec / 1000000000) (nsec mod 1000000000) 0.

(** [time.UnixMilli(ms).UTC()]. *)
Definition timeUnixMilli (ms : Z) : Time :=
  timeUnix (Z.quot ms 1000) (Z.rem ms 1000 * 1000000).

(** [t.Add(d)], [d] in nanoseconds. *)
Definition Time_Add (t : Time) (d : Z) : Time :=
  MkTime (t_sec t + (t_nsec t + d) / 1000000000) ((t_nsec t + d) mod 1000000000) (t_off t).

(** ** Temporal columns *)

Definition nsHour : Z := 3600000000000.
Definition nsMinute : Z := 60000000000.
Definition nsSecond : Z := 1000000000.
Definition nsMillisecond : Z := 1000000.
Definition millisPerDay : Z := 86400000.

Definition temporalInt (kind : DataType) (t : Time) : Z :=
  match kind with
  | DateType =>
    let '(year, month, day) := Time_Date t in
    int32 (Z.quot (dateUnix year month day) 86400)
  | _ =>
    int32 (Z.quot (Time_Hour t * nsHour + Time_Minute t * nsMinute
                   + Time_Second t * nsSecond + Time_Nanosecond t) nsMillisecond)
  end.

Definition temporalTime (kind : DataType) (value : Z) : Time :=
  match kind with
  | DateType => timeUnix (value * 86400) 0
  | _ => timeUnix 0 (value * nsMillisecond)
  end.

Definition timestampParts (kind : DataType) (t : Time) : Z * Z :=
  match kind with
  | TimestampLTZType => (UnixMilli t, int32 (Z.rem (Time_Nanosecond t) nsMillisecond))
  | _ =>
    let '(year, month, day) := Time_Date t in
    let epochDay := Z.quot (dateUnix year month day) 86400 in
    let nanoOfDay := Time_Hour t * nsHour + Time_Minute t * nsMinute
                     + Time_Second t * nsSecond + Time_Nanosecond t in
    (int64 (epochDay * millisPerDay + Z.quot nanoOfDay nsMillisecond),
     int32 (Z.rem nanoOfDay nsMillisecond))
  end.

Definition timestampTime (kind : DataType) (millis nanos : Z) : Time :=
  match kind with
  | TimestampLTZType => Time_Add (timeUnixMilli millis) nanos
  | _ =>
    let days := Z.quot millis millisPerDay in
    let withinDay := Z.rem millis millisPerDay in
    let '(days, withinDay) :=
      if withinDay <? 0 then (days - 1, withinDay + millisPerDay) else (days, withinDay) in
    timeUnix (days * 86400) (withinDay * nsMillisecond + nanos)
  end.

(** ** Decimals *)

(** Length of the decimal representation of [z >= 0]. *)
Fixpoint digitsLoop (fuel : nat) (z : Z) : Z :=
  match fuel with
  | O => 1
  | S fuel => if z <? 10 then 1 else 1 + digitsLoop fuel (z / 10)
  end.

Definition decimalDigits (z : Z) : Z := digitsLoop (Z.to_nat (Z.log2 (Z.abs z))) (Z.abs z).

(** [new(big.Int).Exp(10, scale, nil)] is 1 for a scale below 1. *)
Definition pow10 (scale : Z) : Z := if scale <=? 0 then 1 else 10 ^ scale.

Definition decimalUnscaled (value : Q) (t : LogicalType) : outcome Z :=
  if (lt_Precision t <? 1) || (lt_Scale t <? 0) then Err ErrInvalidSchema
  else
    let factor := pow10 (lt_Scale t) in
    let scaled := Qred (value * inject_Z factor) in
    if negb (Zpos (Qden scaled) =? 1)
    then Err (ErrText "decimal has more fractional digits than its scale")
    else
      let unscaled := Qnum scaled in
      if lt_Precision t <? decimalDigits unscaled
      then Err (ErrText "decimal exceeds declared precision")
      else Ok unscaled.

Definition scaledRat (unscaled scale : Z) : Q := Qred (unscaled # Z.to_pos (pow10 scale)).

(** ** Two's-complement bytes of a big integer *)

Definition BitLen (z : Z) : Z := if z =? 0 then 0 else Z.log2 (Z.abs z) + 1.

(** [big.Int.Bytes]: the big-endian bytes of the absolute value, without leading zeros. *)
Definition bigBytes (z : Z) : list byte :=
  rev (le_split (Z.to_nat ((BitLen z + 7) / 8)) (Z.abs z)).

(** [big.Int.SetBytes]. *)
Definition bigSetBytes (bs : list byte) : Z := le_combine (rev bs).

Definition topBit (bs : list byte) : bool :=
  match bs with b :: _ => negb (Z.land (byte.unsigned b) 128 =? 0) | [] => false end.

Definition signedBigEndian (value : Z) : list byte :=
  if 0 <=? value then
    let bytes := bigBytes value in
    match bytes with
    | [] => [Byte.x00]
    | _ => if topBit bytes then Byte.x00 :: bytes else bytes
    end
  else
    let width := (BitLen value + 8) / 8 in
    let modulus := Z.shiftl 1 (width * 8) in
    let bytes := bigBytes (modulus + value) in
    let bytes := if glen bytes <? width then zeros (width - glen bytes) ++ bytes else bytes in
    if negb (topBit bytes) then
      let width := width + 1 in
      let modulus := Z.shiftl 1 (width * 8) in
      bigBytes (modulus + value)
    else bytes.

Definition signedBigInt (value : list byte) : Z :=
  match value with
  | [] => 0
  | _ =>
    let decoded := bigSetBytes value in
    if topBit value then decoded - Z.shiftl 1 (glen value * 8) else decoded
  end.

(** ** Fixed-width bytes *)

Definition appendFixed (dst value : list byte) (length : Z) : outcome (list byte) :=
  if (length <? 1) || (length <? glen value)
  then Err (ErrText "fixed-width value exceeds declared length")
  else overwrite (dst ++ zeros length) (glen dst) value.

(** The loop of [trimZero] drops trailing zero bytes. *)
Fixpoint dropZeros (l : list byte) : list byte :=
  match l with
  | b :: rest => if byte.unsigned b =? 0 then dropZeros rest else l
  | [] => []
  end.

Definition trimZero (value : list byte) : list byte := rev (dropZeros (rev value)).

(** ** Lemmas: the calendar *)

(** The year starts follow the mean year of 146097 / 400 days closely. *)
Lemma daysBeforeYear_bounds y :
  146097 * (y - 1) - 700 <= 400 * daysBeforeYear y <= 146097 * (y - 1) + 400.
Proof.
  unfold daysBeforeYear. cbv zeta. generalize (y - 1) as p. intros p.
  pose proof (Z.div_mod p 4 ltac:(lia)). pose proof (Z.mod_pos_bound p 4 ltac:(lia)).
  pose proof (Z.div_mod p 100 ltac:(lia)). pose proof (Z.mod_pos_bound p 100 ltac:(lia)).
  pose proof (Z.div_mod p 400 ltac:(lia)). pose proof (Z.mod_pos_bound p 400 ltac:(lia)).
  lia.
Qed.

(** [yearOfDay] finds the year that contains the day. *)
Lemma yearOfDay_spec n :
  daysBeforeYear (yearOfDay n) <= n < daysBeforeYear (yearOfDay n + 1).
Proof.
  unfold yearOfDay. set (p := 400 * n / 146097).
  assert (Hp : 146097 * p <= 400 * n < 146097 * p + 146097) by (subst p; zlia).
  clearbody p. cbv zeta.
  pose proof (daysBeforeYear_bounds (p + 1 - 1)).
  pose proof (daysBeforeYear_bounds (p + 1 + 1 + 1)).
  destruct (Z.ltb_spec n (daysBeforeYear (p + 1))) as [H1|H1];
    [|destruct (Z.leb_spec (daysBeforeYear (p + 1 + 1)) n) as [H2|H2]]; [|lia..].
  replace (p + 1 - 1 + 1) with (p + 1) by lia. lia.
Qed.

Lemma monthDay_sum lengths : forall k n,
  lengths <> [] -> 0 <= k ->
  let '(m, d) := monthDay (k + 1) lengths n in
  k < m /\ foldr Z.add 0 (take (Z.to_nat (m - 1 - k)) lengths) + d - 1 = n.
Proof.
  induction lengths as [|l rest IH]; intros k n Hne Hk; [done|].
  cbn [monthDay]. destruct rest as [|l' rest].
  - replace (k + 1 - 1 - k) with 0 by lia. change (Z.to_nat 0) with 0%nat. cbn [firstn foldr]. lia.
  - destruct (Z.ltb_spec n l).
    + replace (k + 1 - 1 - k) with 0 by lia. change (Z.to_nat 0) with 0%nat. cbn [firstn foldr]. lia.
    + specialize (IH (k + 1) (n - l) ltac:(done) ltac:(lia)).
      destruct (monthDay (k + 1 + 1) (l' :: rest) (n - l)) as [m d]. destruct IH as [Hm IH].
      split; [lia|]. replace (Z.to_nat (m - 1 - k)) with (S (Z.to_nat (m - 1 - (k + 1)))) by lia.
      rewrite firstn_cons. cbn [foldr]. lia.
Qed.

(** [time.Date] of the fields [Time.Date] returns is midnight of the same civil day. *)
Lemma dateUnix_Date t :
  (let '(y, m, d) := Time_Date t in dateUnix y m d) = (t_sec t + t_off t) / 86400 * 86400.
Proof.
  unfold Time_Date, dateUnix.
  set (n := (t_sec t + t_off t) / 86400 + unixEpochDay). set (y := yearOfDay n).
  pose proof (monthDay_sum (monthLengths (isLeap y)) 0 (n - daysBeforeYear y)
    ltac:(done) ltac:(lia)) as H. change (0 + 1) with 1 in H.
  destruct (monthDay 1 (monthLengths (isLeap y)) (n - daysBeforeYear y)) as [m d].
  destruct H as [_ H]. rewrite Z.sub_0_r in H. subst n. lia.
Qed.

Lemma epochDay_Date t :
  (let '(y, m, d) := Time_Date t in Z.quot (dateUnix y m d) 86400) = (t_sec t + t_off t) / 86400.
Proof.
  pose proof (dateUnix_Date t) as H. destruct (Time_Date t) as [[y m] d]. rewrite H.
  by rewrite Z.quot_mul by lia.
Qed.

(** ** Lemmas: temporal columns *)

(** A [time.Time] whose civil day fits an [int32], which every column codec assumes. *)
Definition wfTime (t : Time) : bool :=
  (0 <=? t_nsec t) && (t_nsec t <? 1000000000) && (-86400 <? t_off t) && (t_off t <? 86400)
  && (- (86400 * 2 ^ 31) + 86400 <=? t_sec t) && (t_sec t <? 86400 * 2 ^ 31 - 86400).

(** What a column of each temporal type retains of a time. *)
Definition normDate (t : Time) : Time := MkTime ((t_sec t + t_off t) / 86400 * 86400) 0 0.
Definition truncMilli (nsec : Z) : Z := nsec / 1000000 * 1000000.
Definition normTime (t : Time) : Time := MkTime (secondOfDay t) (truncMilli (t_nsec t)) 0.
Definition normTimestamp (kind : DataType) (precision : Z) (t : Time) : Time :=
  let sec := match kind with TimestampLTZType => t_sec t | _ => t_sec t + t_off t end in
  MkTime sec (if 3 <? precision then t_nsec t else truncMilli (t_nsec t)) 0.

Lemma clock_nanos t :
  0 <= t_nsec t < 1000000000 ->
  Time_Hour t * nsHour + Time_Minute t * nsMinute + Time_Second t * nsSecond + Time_Nanosecond t
  = secondOfDay t * 1000000000 + t_nsec t.
Proof.
  intros. unfold Time_Hour, Time_Minute, Time_Second, Time_Nanosecond, nsHour, nsMinute, nsSecond.
  set (s := secondOfDay t). zlia.
Qed.

Lemma secondOfDay_range t : 0 <= secondOfDay t < 86400.
Proof. unfold secondOfDay. zlia. Qed.

Ltac wf_time H := unfold wfTime in H; rewrite !andb_true_iff, !Z.leb_le, !Z.ltb_lt in H;
  change (2 ^ 31) with 2147483648 in H.

Lemma temporalInt_range kind t : srange 32 (temporalInt kind t) = true.
Proof. unfold temporalInt. destruct kind; try destruct (Time_Date t) as [[y m] d]; by apply swrap_srange. Qed.

Lemma temporalInt_date t : wfTime t = true ->
  temporalInt DateType t = (t_sec t + t_off t) / 86400.
Proof.
  intros H. wf_time H. cbn. pose proof (epochDay_Date t) as He.
  destruct (Time_Date t) as [[y m] d]. rewrite He. apply swrap_small; [lia|].
  unfold srange. change (2 ^ (32 - 1)) with 2147483648. zlia.
Qed.

Lemma temporalInt_time t : wfTime t = true ->
  temporalInt TimeType t = secondOfDay t * 1000 + t_nsec t / 1000000.
Proof.
  intros H. wf_time H. cbn. rewrite clock_nanos by lia.
  pose proof (secondOfDay_range t).
  assert (Z.quot (secondOfDay t * 1000000000 + t_nsec t) nsMillisecond
          = secondOfDay t * 1000 + t_nsec t / 1000000) as -> by (unfold nsMillisecond; zlia).
  apply swrap_small; [lia|]. unfold srange. change (2 ^ (32 - 1)) with 2147483648. zlia.
Qed.

Lemma temporalTime_round kind t : wfTime t = true ->
  temporalTime kind (temporalInt kind t) =
  match kind with DateType => normDate t | _ => normTime t end.
Proof.
  intros H. pose proof (temporalInt_date t H) as Hd. pose proof (temporalInt_time t H) as Ht.
  wf_time H. pose proof (secondOfDay_range t).
  assert (Hx : temporalTime TimeType (temporalInt TimeType t) = normTime t).
  { rewrite Ht. unfold temporalTime, timeUnix, normTime, truncMilli, nsMillisecond. f_equal; zlia. }
  destruct kind; try exact Hx.
  rewrite Hd. unfold temporalTime, timeUnix, normDate. f_equal; zlia.
Qed.

Lemma timestampParts_spec kind t : wfTime t = true ->
  timestampParts kind t =
  (match kind with TimestampLTZType => t_sec t | _ => t_sec t + t_off t end * 1000
     + t_nsec t / 1000000, t_nsec t mod 1000000).
Proof.
  intros H. wf_time H. pose proof (secondOfDay_range t).
  assert (Hs : secondOfDay t = (t_sec t + t_off t) - (t_sec t + t_off t) / 86400 * 86400)
    by (unfold secondOfDay; zlia).
  assert (Hx : timestampParts TimestampType t =
    ((t_sec t + t_off t) * 1000 + t_nsec t / 1000000, t_nsec t mod 1000000)).
  { unfold timestampParts. pose proof (epochDay_Date t) as He.
    destruct (Time_Date t) as [[y m] d]. rewrite He, clock_nanos by lia.
    unfold millisPerDay, nsMillisecond.
    f_equal; (rewrite swrap_small; [|lia|]); unfold srange; zlia. }
  destruct kind; try exact Hx.
  unfold timestampParts, UnixMilli, Time_Nanosecond, nsMillisecond.
  f_equal; (rewrite swrap_small; [|lia|]); unfold srange; zlia.
Qed.

Lemma timestampParts_range kind t : wfTime t = true ->
  srange 64 (timestampParts kind t).1 = true /\ 0 <= (timestampParts kind t).2 <= 999999.
Proof.
  intros H. rewrite timestampParts_spec by done. wf_time H. cbn [fst snd]. split; [|zlia].
  unfold srange. destruct kind; zlia.
Qed.

(** [time.UnixMilli] splits at the floor, also before the epoch. *)
Lemma timeUnixMilli_spec ms :
  timeUnixMilli ms = MkTime (ms / 1000) (ms mod 1000 * 1000000) 0.
Proof.
  unfold timeUnixMilli, timeUnix.
  pose proof (Z.quot_rem' ms 1000). pose proof (Z.rem_bound_abs ms 1000 ltac:(lia)).
  set (q := Z.quot ms 1000) in *. set (r := Z.rem ms 1000) in *. clearbody q r.
  assert (r * 1000000 / 1000000000 = if r <? 0 then -1 else 0) as -> by (case_match; zlia).
  f_equal; [case_match; zlia|].
  destruct (Z.ltb_spec r 0).
  - replace (ms mod 1000) with (r + 1000) by zlia. zlia.
  - replace (ms mod 1000) with r by zlia. zlia.
Qed.

Lemma timestampTime_round kind t : wfTime t = true ->
  timestampTime kind (timestampParts kind t).1 (timestampParts kind t).2 =
  normTimestamp kind 9 t.
Proof.
  intros H. rewrite timestampParts_spec by done. wf_time H.
  assert (Hx : timestampTime TimestampType ((t_sec t + t_off t) * 1000 + t_nsec t / 1000000)
    (t_nsec t mod 1000000) = normTimestamp TimestampType 9 t).
  { unfold timestampTime, normTimestamp, timeUnix, millisPerDay, nsMillisecond.
    change (3 <? 9) with true. cbv iota zeta.
    set (m := (t_sec t + t_off t) * 1000 + t_nsec t / 1000000).
    assert (Hm : exists q r, 0 <= r < 86400000 /\ m = q * 86400000 + r) by
      (exists (m / 86400000), (m mod 86400000); zlia).
    destruct Hm as (q & r & Hr & Hm).
    assert ((if Z.rem m 86400000 <? 0 then (Z.quot m 86400000 - 1, Z.rem m 86400000 + 86400000)
      else (Z.quot m 86400000, Z.rem m 86400000)) = (q, r)) as ->.
    { destruct (Z.ltb_spec (Z.rem m 86400000) 0); f_equal; zlia. }
    replace (r * 1000000 + t_nsec t mod 1000000)
      with (t_nsec t + (t_sec t + t_off t - q * 86400) * 1000000000) by (subst m; zlia).
    rewrite Z.div_add, Z.mod_add by lia. f_equal; zlia. }
  destruct kind; try exact Hx.
  unfold timestampTime. rewrite timeUnixMilli_spec. unfold normTimestamp, Time_Add.
  change (3 <? 9) with true. cbn [t_sec t_nsec t_off fst snd].
  replace ((t_sec t * 1000 + t_nsec t / 1000000) / 1000) with (t_sec t) by zlia.
  replace ((t_sec t * 1000 + t_nsec t / 1000000) mod 1000) with (t_nsec t / 1000000) by zlia.
  replace (t_nsec t / 1000000 * 1000000 + t_nsec t mod 1000000) with (t_nsec t) by zlia.
  f_equal; zlia.
Qed.

(** Without the sub-millisecond part the time is truncated to milliseconds. *)
Lemma timestampTime_round_millis kind t : wfTime t = true ->
  timestampTime kind (timestampParts kind t).1 0 = normTimestamp kind 3 t.
Proof.
  intros H. set (t' := MkTime (t_sec t) (truncMilli (t_nsec t)) (t_off t)).
  assert (H' : wfTime t' = true).
  { unfold wfTime in *. subst t'. cbn [t_sec t_nsec t_off]. unfold truncMilli. zlia. }
  pose proof (timestampTime_round kind t' H') as Hr.
  rewrite (timestampParts_spec kind t' H') in Hr. rewrite (timestampParts_spec kind t H).
  subst t'. cbn [t_sec t_nsec t_off fst snd] in *. unfold truncMilli in Hr. wf_time H.
  replace (t_nsec t / 1000000 * 1000000 / 1000000) with (t_nsec t / 1000000) in Hr by zlia.
  replace ((t_nsec t / 1000000 * 1000000) mod 1000000) with 0 in Hr by zlia.
  rewrite Hr. reflexivity.
Qed.

(** ** Lemmas: decimals *)

Lemma digitsLoop_pos fuel : forall z, 1 <= digitsLoop fuel z.
Proof. induction fuel as [|fuel IH]; intros z; cbn; [|case_match; [|specialize (IH (z / 10))]]; lia. Qed.

Lemma digitsLoop_bound fuel : forall z p,
  0 <= z < 2 ^ (Z.of_nat fuel + 1) -> 1 <= p ->
  digitsLoop fuel z <= p <-> z < 10 ^ p.
Proof.
  induction fuel as [|fuel IH]; intros z p Hz Hp; cbn [digitsLoop].
  - pose proof (Z.pow_le_mono_r 10 1 p ltac:(lia) Hp). change (2 ^ (Z.of_nat 0 + 1)) with 2 in Hz. lia.
  - destruct (Z.ltb_spec z 10).
    + pose proof (Z.pow_le_mono_r 10 1 p ltac:(lia) Hp). lia.
    + assert (2 ^ (Z.of_nat (S fuel) + 1) = 2 * 2 ^ (Z.of_nat fuel + 1))
        by (rewrite <- Z.pow_succ_r by lia; f_equal; lia).
      destruct (Z.eqb_spec p 1) as [->|].
      * pose proof (digitsLoop_pos fuel (z / 10)).
        change (10 ^ 1) with 10. lia.
      * assert (10 ^ p = 10 * 10 ^ (p - 1)) by (rewrite <- Z.pow_succ_r by lia; f_equal; lia).
        specialize (IH (z / 10) (p - 1) ltac:(zlia) ltac:(lia)).
        assert (z / 10 < 10 ^ (p - 1) <-> z < 10 ^ p) by zlia. lia.
Qed.

Lemma decimalDigits_bound z p : 1 <= p -> decimalDigits z <= p <-> Z.abs z < 10 ^ p.
Proof.
  intros Hp. unfold decimalDigits. apply digitsLoop_bound; [|done].
  destruct (Z.eqb_spec (Z.abs z) 0) as [->|]; [cbn; lia|].
  pose proof (Z.log2_spec (Z.abs z) ltac:(lia)) as [_ H].
  rewrite Z2Nat.id by apply Z.log2_nonneg. rewrite Z.add_1_r. lia.
Qed.

Lemma pow10_pos scale : 0 < pow10 scale.
Proof. unfold pow10. case_match; [lia|]. apply Z.pow_pos_nonneg; lia. Qed.

(** A decimal that encodes is within its precision and decodes to the same rational. *)
Lemma decimalUnscaled_round q t u :
  Qred q = q -> decimalUnscaled q t = Ok u ->
  scaledRat u (lt_Scale t) = q /\ Z.abs u < 10 ^ lt_Precision t /\ 1 <= lt_Precision t.
Proof.
  intros Hq H. unfold decimalUnscaled in H.
  destruct (_ || _) eqn:Ep in H; [done|].
  destruct (negb _) eqn:Ed in H; [done|]. apply negb_false_iff, Z.eqb_eq in Ed.
  case_match eqn:Edig; [done|]. apply Z.ltb_ge in Edig. inv_ok.
  split; [|split; [apply decimalDigits_bound; lia | lia]].
  unfold scaledRat. transitivity (Qred q); [|done]. apply Qred_complete.
  set (f := pow10 (lt_Scale t)) in *. pose proof (pow10_pos (lt_Scale t)) as Hf. fold f in Hf.
  pose proof (Qred_correct (q * inject_Z f)) as Hc.
  destruct (Qred (q * inject_Z f)) as [n d]. cbn in Ed |- *.
  assert (d = 1%positive) as -> by lia.
  destruct q as [a b]. unfold Qeq in *. cbn in Hc |- *. rewrite Z2Pos.id by done. lia.
Qed.

(** ** Lemmas: big-integer bytes *)

Lemma bigSetBytes_bigBytes z : 0 <= z -> bigSetBytes (bigBytes z) = z.
Proof.
  intros Hz. unfold bigSetBytes, bigBytes. rewrite rev_involutive, le_combine_split8.
  rewrite Z.abs_eq by done. apply uwrap_small. unfold urange, BitLen.
  destruct (Z.eqb_spec z 0) as [->|Hne]; [done|].
  pose proof (Z.log2_spec z ltac:(lia)) as [_ H]. rewrite Z.abs_eq by done.
  pose proof (Z.log2_nonneg z).
  rewrite Z2Nat.id by zlia.
  pose proof (Z.pow_le_mono_r 2 (Z.succ (Z.log2 z)) (8 * ((Z.log2 z + 1 + 7) / 8)) ltac:(lia)).
  assert (Z.succ (Z.log2 z) <= 8 * ((Z.log2 z + 1 + 7) / 8)) by zlia. lia.
Qed.

Lemma bigBytes_glen z : glen (bigBytes z) = (BitLen z + 7) / 8.
Proof.
  unfold bigBytes. rewrite glen_rev, glen_le_split. unfold BitLen.
  pose proof (Z.log2_nonneg (Z.abs z)). case_match; [done|]. rewrite Z2Nat.id; zlia.
Qed.

(** The top bit of a big-endian byte string says whether its value reaches half its range. *)
Lemma topBit_value b bs :
  topBit (b :: bs) = (2 ^ (8 * glen (b :: bs) - 1) <=? bigSetBytes (b :: bs)).
Proof.
  cbn [topBit]. pose proof (byte.unsigned_range b). rewrite land_128_small by lia.
  unfold bigSetBytes. cbn [rev]. rewrite le_combine_app, le_combine_1.
  pose proof (le_combine_bound (rev bs)) as Hb. rewrite length_rev in *.
  replace (Z.of_nat (length bs) * 8) with (8 * Z.of_nat (length bs)) by lia.
  rewrite lor_shiftl_disjoint by lia.
  rewrite glen_cons. unfold glen. replace (8 * (1 + Z.of_nat (length bs)) - 1)
    with (7 + 8 * Z.of_nat (length bs)) by lia. rewrite Z.pow_add_r by lia. change (2 ^ 7) with 128.
  set (P := 2 ^ (8 * Z.of_nat (length bs))) in *.
  destruct (Z.ltb_spec (byte.unsigned b) 128); cbn; symmetry; [apply Z.leb_gt | apply Z.leb_le]; nia.
Qed.

Lemma bigSetBytes_cons_zero bs : bigSetBytes (Byte.x00 :: bs) = bigSetBytes bs.
Proof. unfold bigSetBytes. cbn [rev]. apply le_combine_snoc_0. Qed.

(** The bytes of a negative number: the width is chosen so that the top bit is set at once. *)
Lemma signedBigEndian_neg value : value < 0 ->
  let width := (BitLen value + 8) / 8 in
  signedBigEndian value = bigBytes (2 ^ (8 * width) + value) /\
  glen (signedBigEndian value) = width /\ 1 <= width /\
  2 ^ (8 * width - 1) < 2 ^ (8 * width) + value.
Proof.
  intros Hv width. set (L := BitLen value).
  assert (HL : 1 <= L /\ - value < 2 ^ L).
  { subst L. unfold BitLen. destruct (Z.eqb_spec value 0); [lia|].
    rewrite Z.abs_neq by lia. pose proof (Z.log2_spec (- value) ltac:(lia)) as [_ H].
    pose proof (Z.log2_nonneg (- value)). rewrite Z.add_1_r. lia. }
  assert (Hw : 1 <= width /\ L <= 8 * width - 1) by (subst width; fold L; zlia).
  pose proof (Z.pow_le_mono_r 2 L (8 * width - 1) ltac:(lia) ltac:(lia)).
  assert (Hd : 2 ^ (8 * width) = 2 * 2 ^ (8 * width - 1))
    by (rewrite <- Z.pow_succ_r by lia; f_equal; lia).
  set (m := 2 ^ (8 * width) + value).
  assert (Hm : 2 ^ (8 * width - 1) < m < 2 ^ (8 * width)) by lia.
  assert (Hbl : BitLen m = 8 * width).
  { unfold BitLen. destruct (Z.eqb_spec m 0); [lia|]. rewrite Z.abs_eq by lia.
    rewrite (Z.log2_unique m (8 * width - 1)); [lia..|].
    replace (Z.succ (8 * width - 1)) with (8 * width) by lia. lia. }
  assert (Hg : glen (bigBytes m) = width) by (rewrite bigBytes_glen, Hbl; zlia).
  assert (Ht : topBit (bigBytes m) = true).
  { destruct (bigBytes m) as [|b bs] eqn:E; [rewrite glen_nil in Hg; lia|].
    rewrite topBit_value, Hg, <- E, bigSetBytes_bigBytes by lia. apply Z.leb_le. lia. }
  enough (signedBigEndian value = bigBytes m) as -> by (split_and!; [done..|lia|lia]).
  unfold signedBigEndian. destruct (Z.leb_spec 0 value); [lia|].
  cbv zeta. fold width. rewrite !Z.shiftl_1_l. replace (width * 8) with (8 * width) by lia. fold m.
  rewrite Hg, Z.ltb_irrefl, Ht. done.
Qed.

Lemma signedBigInt_round value : signedBigInt (signedBigEndian value) = value.
Proof.
  destruct (Z.leb_spec 0 value) as [Hv|Hv].
  - unfold signedBigEndian. destruct (Z.leb_spec 0 value); [|lia].
    pose proof (bigSetBytes_bigBytes value Hv) as Hs.
    destruct (bigBytes value) as [|b bs]; [by rewrite <- Hs|].
    destruct (topBit (b :: bs)) eqn:Et.
    + unfold signedBigInt. cbn [topBit]. by rewrite bigSetBytes_cons_zero.
    + unfold signedBigInt. by rewrite Et.
  - destruct (signedBigEndian_neg value Hv) as (He & Hg & Hw & Hm).
    set (w := (BitLen value + 8) / 8) in *.
    assert (Hd : 2 ^ (8 * w) = 2 * 2 ^ (8 * w - 1))
      by (rewrite <- Z.pow_succ_r by lia; f_equal; lia).
    pose proof (bigSetBytes_bigBytes (2 ^ (8 * w) + value) ltac:(lia)) as Hs.
    rewrite <- He in Hs. destruct (signedBigEndian value) as [|b bs]; [rewrite glen_nil in Hg; lia|].
    unfold signedBigInt. rewrite topBit_value, Hs, Hg.
    destruct (Z.leb_spec (2 ^ (8 * w - 1)) (2 ^ (8 * w) + value)); [|lia].
    rewrite Z.shiftl_1_l. replace (w * 8) with (8 * w) by lia. lia.
Qed.

(** Every decimal of up to 38 digits fits the 16 bytes an array slot reserves for it. *)
Lemma signedBigEndian_glen value :
  Z.abs value < 10 ^ 38 -> 1 <= glen (signedBigEndian value) <= 16.
Proof.
  intros Hv. assert (HL : BitLen value <= 127).
  { unfold BitLen. destruct (Z.eqb_spec value 0); [lia|].
    assert (Z.log2 (Z.abs value) < 127); [|lia]. apply Z.log2_lt_pow2; [lia|].
    assert (10 ^ 38 < 2 ^ 127) by reflexivity. lia. }
  assert (HL0 : 0 <= BitLen value).
  { unfold BitLen. pose proof (Z.log2_nonneg (Z.abs value)). case_match; lia. }
  destruct (Z.ltb_spec value 0) as [Hn|Hn].
  - destruct (signedBigEndian_neg value Hn) as (_ & -> & ? & _). zlia.
  - unfold signedBigEndian. destruct (Z.leb_spec 0 value); [|lia].
    pose proof (bigBytes_glen value) as Hg. pose proof (bigSetBytes_bigBytes value Hn) as Hs.
    destruct (bigBytes value) as [|b bs]; [done|]. rewrite topBit_value, Hs.
    destruct (Z.leb_spec (2 ^ (8 * glen (b :: bs) - 1)) value) as [Ht|Ht];
      [|pose proof (glen_nonneg bs); rewrite glen_cons in *; zlia].
    rewrite glen_cons. enough (glen (b :: bs) <= 15) by glia.
    destruct (Z.leb_spec (glen (b :: bs)) 15); [done|]. exfalso.
    pose proof (Z.pow_le_mono_r 2 127 (8 * glen (b :: bs) - 1) ltac:(lia) ltac:(lia)).
    assert (10 ^ 38 < 2 ^ 127) by reflexivity. lia.
Qed.

(** ** Lemmas: fixed-width bytes *)

Lemma appendFixed_Ok dst value length r :
  appendFixed dst value length = Ok r ->
  r = dst ++ value ++ zeros (length - glen value) /\ 1 <= length /\ glen value <= length.
Proof.
  unfold appendFixed. case_match eqn:E; [done|]. intros (? & ? & ->)%overwrite_Ok.
  split; [|lia]. unfold glen. rewrite Nat2Z.id, take_app_length. do 2 f_equal.
  rewrite drop_app_add. unfold zeros. rewrite drop_replicate. f_equal. lia.
Qed.

Lemma dropZeros_replicate n l : dropZeros (replicate n Byte.x00 ++ l) = dropZeros l.
Proof. induction n; [done|]. cbn. done. Qed.

Lemma trimZero_zeros value n : trimZero (value ++ zeros n) = trimZero value.
Proof.
  unfold trimZero, zeros. rewrite rev_app_distr.
  enough (rev (replicate (Z.to_nat n) Byte.x00) = replicate (Z.to_nat n) Byte.x00) as ->
    by (by rewrite dropZeros_replicate).
  generalize (Z.to_nat n). intros k. induction k; [done|].
  cbn. rewrite IHk. change [Byte.x00] with (replicate 1 Byte.x00).
  rewrite <- replicate_add. by rewrite Nat.add_comm.
Qed.
