(* ===== verification/Codec.v ===== *)
(** * Row, array and map codecs

    Models [pkg/fgo/row_codec.go], the dispatch of [pkg/fgo/row_value_codec.go] and
    [pkg/fgo/binary_array_codec.go].  Rows, arrays and maps nest, so the Go functions
    call each other along the logical type; here they are two mutual [Fixpoint]s, the
    encoders and the decoders, on a fuel that each call spends one unit of.
    [schemaFuel] is enough for every schema (Theorem [encode_row_returns] and
    [decode_row_returns] in the files that follow). *)

From S2P Require Import Prelude Model Wire Values.

Inductive rowEncoding := compactedEncoding | indexedEncoding.

#[export] Instance rowEncoding_eq_dec : EqDecision rowEncoding.
Proof. solve_decision. Defined.

(** Type assertions [value.(T)] and pointer dereferences panic when they fail. *)
Definition asBool v := match v with VBool b => Ok b | _ => Panic end.
Definition asInt8 v := match v with VInt8 z => Ok z | _ => Panic end.
Definition asInt16 v := match v with VInt16 z => Ok z | _ => Panic end.
Definition asInt32 v := match v with VInt32 z => Ok z | _ => Panic end.
Definition asInt64 v := match v with VInt64 z => Ok z | _ => Panic end.
Definition asFloat32 v := match v with VFloat32 z => Ok z | _ => Panic end.
Definition asFloat64 v := match v with VFloat64 z => Ok z | _ => Panic end.
Definition asString v := match v with VString s => Ok s | _ => Panic end.
Definition asBytes v := match v with VBytes bs => Ok bs | _ => Panic end.
Definition asTime v := match v with VTime t => Ok t | _ => Panic end.
Definition asRat v := match v with VRat q => Ok q | _ => Panic end.
Definition asArray v := match v with VArray l => Ok l | _ => Panic end.
Definition asRow v := match v with VRow l => Ok l | _ => Panic end.
Definition deref {A} (p : option A) : outcome A := match p with Some a => Ok a | None => Panic end.

(** ** Layout *)

Definition indexedFixed (t : LogicalType) : bool :=
  match dataTypeForLogicalType t with
  | BoolType | TinyIntType | SmallIntType | IntType | BigIntType | FloatType | DoubleType
  | DateType | TimeType | CharType | BinaryType | TimestampType | TimestampLTZType =>
    negb (bool_decide (lt_Root t = ""%string)) &&
    ((0 <? lt_Length t) ||
     (negb (bool_decide (dataTypeForLogicalType t = CharType)) &&
      negb (bool_decide (dataTypeForLogicalType t = BinaryType))))
  | DecimalType => (0 <? lt_Precision t) && (lt_Precision t <=? 18)
  | _ => false
  end.

Definition indexedLength (t : LogicalType) : Z :=
  match dataTypeForLogicalType t with
  | BoolType | TinyIntType => 1
  | SmallIntType => 2
  | IntType | FloatType | DateType | TimeType => 4
  | BigIntType | DoubleType | DecimalType => 8
  | TimestampType | TimestampLTZType => if 3 <? lt_Precision t then 12 else 8
  | CharType | BinaryType => lt_Length t
  | _ => -1
  end.

Definition rowHeaderBytes (s : Schema) (enc : rowEncoding) : Z :=
  let headerBytes := (glen (sch_Columns s) + 7) / 8 in
  match enc with
  | compactedEncoding => headerBytes
  | indexedEncoding =>
    foldl (fun h column => if indexedFixed (logicalTypeForColumn column) then h else h + 4)
          headerBytes (sch_Columns s)
  end.

Definition nestedSchema (t : LogicalType) : Schema :=
  MkSchema
    (map (fun field =>
            let fieldType := lf_Type field in
            MkColumn (lf_Name field) (dataTypeForLogicalType fieldType) (lt_Nullable fieldType)
                     (Some fieldType) (lf_Description field) (lf_ID field)) (lt_Fields t))
    [] [] [] [] 0.

Definition arraySlotSize (t : LogicalType) : Z :=
  match dataTypeForLogicalType t with
  | BoolType | TinyIntType => 1
  | SmallIntType => 2
  | IntType | FloatType | DateType | TimeType => 4
  | _ => 8
  end.

(** [(value + 7) &^ 7]. *)
Definition align8 (value : Z) : Z := Z.ldiff (value + 7) 7.

Definition arrayNullBytes (count : Z) : Z := (count + 31) / 32 * 4.

(** ** Variable-width array elements *)

Definition putOffsetSize (encoded : list byte) (slot offset size : Z) : outcome (list byte) :=
  putLE 8 encoded slot (Z.lor (Z.shiftl (uint32 offset) 32) (uint32 size)).

Definition offsetSize (encoded : list byte) (slot : Z) : outcome (Z * Z) :=
  value ← getLE 8 encoded slot; Ok (Z.shiftr value 32, uint32 value).

Definition appendArrayVariable (encoded : list byte) (slot : Z) (value : list byte) (reserved : Z)
    : outcome (list byte) :=
  if (reserved <? glen value) || (maxRowBytes - glen encoded <? reserved)
  then Err (ErrText "invalid array variable length")
  else
    let offset := glen encoded in
    encoded ← overwrite (encoded ++ zeros reserved) offset value;
    putOffsetSize encoded slot offset (glen value).

Definition arrayVariable (encoded : list byte) (slot : Z) : outcome (list byte) :=
  '(offset, size) ← offsetSize encoded slot;
  '(value, _) ← readFixed encoded offset size;
  Ok value.

(** The low 56 bits of a packed slot: [packed |= uint64(part) << (8 * i)]. *)
Fixpoint packBytes (i : Z) (value : list byte) (packed : Z) : Z :=
  match value with
  | [] => packed
  | part :: rest => packBytes (i + 1) rest (Z.lor packed (Z.shiftl (byte.unsigned part) (8 * i)))
  end.

Definition appendPackedArrayBytes (encoded : list byte) (slot : Z) (value : list byte)
    : outcome (list byte) :=
  if glen value <=? 7 then
    putLE 8 encoded slot (packBytes 0 value (Z.shiftl (Z.lor (glen value) 128) 56))
  else appendArrayVariable encoded slot value (align8 (glen value)).

Definition unpackedArrayBytes (encoded : list byte) (slot : Z) : outcome (list byte) :=
  packed ← getLE 8 encoded slot;
  if negb (Z.shiftr packed 63 =? 0) then
    let length := Z.land (Z.shiftr packed 56) 127 in
    if 7 <? length then Err (ErrText "invalid packed array length")
    else Ok (map (fun i => byte.of_Z (Z.shiftr packed (8 * i))) (seqZ 0 length))
  else arrayVariable encoded slot.

(** ** Encoding

    The loop of [encodeRow] over the columns; [encodeValue] is [encodeRowValue] at the
    encoding of the row, [i] the column index. *)
Fixpoint encodeRowLoop (encodeValue : LogicalType -> GoValue -> outcome (list byte))
    (enc : rowEncoding) (columns : list Column) (row : Row) (i : Z)
    (encoded : list byte) (lengthPosition : Z) : outcome (list byte) :=
  match columns, row with
  | column :: columns, v :: row =>
    let t := logicalTypeForColumn column in
    if isNil v then
      encoded ← set_bit encoded 0 i;
      encodeRowLoop encodeValue enc columns row (i + 1) encoded lengthPosition
    else
      value ← encodeValue t v;
      '(encoded, lengthPosition) ←
        (if bool_decide (enc = indexedEncoding) && negb (indexedFixed t)
         then encoded ← putLE 4 encoded lengthPosition (uint32 (glen value));
              Ok (encoded, lengthPosition + 4)
         else Ok (encoded, lengthPosition));
      if maxRowBytes - glen encoded <? glen value then Err ErrMalformedRow
      else encodeRowLoop encodeValue enc columns row (i + 1) (encoded ++ value) lengthPosition
  | [], _ => Ok encoded
  | _ :: _, [] => Panic
  end.

(** The loop of [encodeBinaryArray]; [write] is [writeArrayElement] of the element type. *)
Fixpoint encodeArrayLoop (write : list byte -> Z -> GoValue -> outcome (list byte))
    (elementType : LogicalType) (nullBytes slotSize : Z) (values : list GoValue) (i : Z)
    (encoded : list byte) : outcome (list byte) :=
  match values with
  | [] => Ok encoded
  | v :: values =>
    let slot := 4 + nullBytes + slotSize * i in
    if isNil v then
      if lt_Nullable elementType then
        encoded ← set_bit encoded 4 i;
        encodeArrayLoop write elementType nullBytes slotSize values (i + 1) encoded
      else Err (ErrText "array element is not nullable")
    else if negb (validLogicalValue elementType v) then Err (ErrText "invalid array element")
    else
      encoded ← write encoded slot v;
      if maxRowBytes <? glen encoded then Err (ErrText "array exceeds allocation limit")
      else encodeArrayLoop write elementType nullBytes slotSize values (i + 1) encoded
  end.

Fixpoint appendCompactedValue (n : nat) (dst : list byte) (t : LogicalType) (v : GoValue)
    : outcome (list byte) :=
  match n with
  | O => OutOfFuel
  | S n =>
    let kind := dataTypeForLogicalType t in
    match kind with
    | BoolType => b ← asBool v; Ok (dst ++ [if (b : bool) then Byte.x01 else Byte.x00])
    | TinyIntType => z ← asInt8 v; Ok (dst ++ [byte.of_Z z])
    | SmallIntType => z ← asInt16 v; Ok (appendLittle dst (uint16 z) 2)
    | IntType => z ← asInt32 v; Ok (appendVar32 dst (uint32 z))
    | BigIntType => z ← asInt64 v; Ok (appendVar64 dst (uint64 z))
    | FloatType => bits ← asFloat32 v; Ok (appendLittle dst bits 4)
    | DoubleType => bits ← asFloat64 v; Ok (appendLittle dst bits 8)
    | StringType | CharType => s ← asString v; appendLengthBytes dst (bytesOf s)
    | BytesType | BinaryType => bs ← asBytes v; appendLengthBytes dst bs
    | DateType | TimeType => x ← asTime v; Ok (appendVar32 dst (uint32 (temporalInt kind x)))
    | TimestampType | TimestampLTZType =>
      x ← asTime v;
      let '(millis, nanos) := timestampParts kind x in
      let dst := appendVar64 dst (uint64 millis) in
      Ok (if 3 <? lt_Precision t then appendVar32 dst (uint32 nanos) else dst)
    | DecimalType =>
      q ← asRat v;
      unscaled ← decimalUnscaled q t;
      if lt_Precision t <=? 18 then Ok (appendVar64 dst (uint64 (int64 unscaled)))
      else appendLengthBytes dst (signedBigEndian unscaled)
    | ArrayType =>
      e ← deref (lt_Element t);
      l ← asArray v;
      value ← encodeBinaryArray n e l compactedEncoding;
      appendLengthBytes dst value
    | MapType =>
      value ← encodeBinaryMap n t v compactedEncoding;
      appendLengthBytes dst value
    | RowType =>
      row ← asRow v;
      value ← encodeRow n (nestedSchema t) row compactedEncoding;
      appendLengthBytes dst value
    | OtherType _ => Err (ErrText "unsupported compacted type")
    end
  end

with appendIndexedValue (n : nat) (dst : list byte) (t : LogicalType) (v : GoValue)
    : outcome (list byte) :=
  match n with
  | O => OutOfFuel
  | S n =>
    let kind := dataTypeForLogicalType t in
    match kind with
    | IntType => z ← asInt32 v; Ok (appendLittle dst (uint32 z) 4)
    | BigIntType => z ← asInt64 v; Ok (appendLittle dst (uint64 z) 8)
    | DateType | TimeType => x ← asTime v; Ok (appendLittle dst (uint32 (temporalInt kind x)) 4)
    | TimestampType | TimestampLTZType =>
      x ← asTime v;
      let '(millis, nanos) := timestampParts kind x in
      let dst := appendLittle dst (uint64 millis) 8 in
      Ok (if 3 <? lt_Precision t then appendLittle dst (uint32 nanos) 4 else dst)
    | StringType => s ← asString v; Ok (dst ++ bytesOf s)
    | CharType =>
      s ← asString v;
      if lt_Length t =? 0 then Ok (dst ++ bytesOf s) else appendFixed dst (bytesOf s) (lt_Length t)
    | BytesType => bs ← asBytes v; Ok (dst ++ bs)
    | BinaryType =>
      bs ← asBytes v;
      if lt_Length t =? 0 then Ok (dst ++ bs) else appendFixed dst bs (lt_Length t)
    | DecimalType =>
      q ← asRat v;
      unscaled ← decimalUnscaled q t;
      if lt_Precision t <=? 18 then Ok (appendLittle dst (uint64 (int64 unscaled)) 8)
      else Ok (dst ++ signedBigEndian unscaled)
    | ArrayType =>
      e ← deref (lt_Element t);
      l ← asArray v;
      value ← encodeBinaryArray n e l indexedEncoding;
      Ok (dst ++ value)
    | MapType => value ← encodeBinaryMap n t v indexedEncoding; Ok (dst ++ value)
    | RowType =>
      row ← asRow v;
      value ← encodeRow n (nestedSchema t) row indexedEncoding;
      Ok (dst ++ value)
    | _ => appendCompactedValue n dst t v
    end
  end

with writeArrayElement (n : nat) (encoded : list byte) (slot : Z) (t : LogicalType) (v : GoValue)
    (enc : rowEncoding) : outcome (list byte) :=
  match n with
  | O => OutOfFuel
  | S n =>
    let kind := dataTypeForLogicalType t in
    match kind with
    | BoolType => b ← asBool v; if (b : bool) then set_index encoded slot Byte.x01 else Ok encoded
    | TinyIntType => z ← asInt8 v; set_index encoded slot (byte.of_Z z)
    | SmallIntType => z ← asInt16 v; putLE 2 encoded slot (uint16 z)
    | IntType => z ← asInt32 v; putLE 4 encoded slot (uint32 z)
    | DateType | TimeType => x ← asTime v; putLE 4 encoded slot (uint32 (temporalInt kind x))
    | FloatType => bits ← asFloat32 v; putLE 4 encoded slot bits
    | BigIntType => z ← asInt64 v; putLE 8 encoded slot (uint64 z)
    | DoubleType => bits ← asFloat64 v; putLE 8 encoded slot bits
    | DecimalType =>
      q ← asRat v;
      unscaled ← decimalUnscaled q t;
      if lt_Precision t <=? 18 then putLE 8 encoded slot (uint64 (int64 unscaled))
      else appendArrayVariable encoded slot (signedBigEndian unscaled) 16
    | TimestampType | TimestampLTZType =>
      x ← asTime v;
      let '(millis, nanos) := timestampParts kind x in
      if lt_Precision t <=? 3 then putLE 8 encoded slot (uint64 millis)
      else
        let offset := glen encoded in
        putOffsetSize (appendLittle encoded (uint64 millis) 8) slot offset nanos
    | StringType | CharType => s ← asString v; appendPackedArrayBytes encoded slot (bytesOf s)
    | BytesType | BinaryType => bs ← asBytes v; appendPackedArrayBytes encoded slot bs
    | ArrayType =>
      e ← deref (lt_Element t);
      l ← asArray v;
      variable ← encodeBinaryArray n e l enc;
      appendArrayVariable encoded slot variable (align8 (glen variable))
    | MapType =>
      variable ← encodeBinaryMap n t v enc;
      appendArrayVariable encoded slot variable (align8 (glen variable))
    | RowType =>
      row ← asRow v;
      variable ← encodeRow n (nestedSchema t) row enc;
      appendArrayVariable encoded slot variable (align8 (glen variable))
    | OtherType _ => Err (ErrText "unsupported array element type")
    end
  end

with encodeBinaryArray (n : nat) (elementType : LogicalType) (values : list GoValue)
    (enc : rowEncoding) : outcome (list byte) :=
  match n with
  | O => OutOfFuel
  | S n =>
    if maxRowBytes / 8 <? glen values
    then Err (ErrText "array element count exceeds allocation limit")
    else
      let slotSize := arraySlotSize elementType in
      let nullBytes := arrayNullBytes (glen values) in
      let fixedBytes := align8 (4 + nullBytes + slotSize * glen values) in
      if maxRowBytes <? fixedBytes
      then Err (ErrText "array fixed region exceeds allocation limit")
      else
        encoded ← putLE 4 (zeros fixedBytes) 0 (uint32 (glen values));
        encodeArrayLoop (fun encoded slot v => writeArrayElement n encoded slot elementType v enc)
          elementType nullBytes slotSize values 0 encoded
  end

with encodeBinaryMap (n : nat) (t : LogicalType) (v : GoValue) (enc : rowEncoding)
    : outcome (list byte) :=
  match n with
  | O => OutOfFuel
  | S n =>
    match mapEntries v with
    | None => Err (ErrText "invalid map value")
    | Some entries =>
      k ← deref (lt_Key t);
      keyBytes ← encodeBinaryArray n k (map fst entries) enc;
      w ← deref (lt_Value t);
      valueBytes ← encodeBinaryArray n w (map snd entries) enc;
      encoded ← putLE 4 (zeros 4) 0 (uint32 (glen keyBytes));
      Ok (encoded ++ keyBytes ++ valueBytes)
    end
  end

with encodeRow (n : nat) (s : Schema) (row : Row) (enc : rowEncoding) : outcome (list byte) :=
  match n with
  | O => OutOfFuel
  | S n =>
    _ ← ValidateRow s row [];
    let nullBytes := (glen (sch_Columns s) + 7) / 8 in
    let headerBytes := rowHeaderBytes s enc in
    encodeRowLoop
      (match enc with
       | compactedEncoding => appendCompactedValue n []
       | indexedEncoding => appendIndexedValue n []
       end)
      enc (sch_Columns s) row 0 (zeros headerBytes) nullBytes
  end.

(** ** Decoding *)

Definition compactedFixedWidth (kind : DataType) : bool :=
  match kind with
  | BoolType | TinyIntType | SmallIntType | FloatType | DoubleType => true
  | _ => false
  end.

Definition readCompactedFixed (encoded : list byte) (position : Z) (kind : DataType)
    : outcome (GoValue * Z) :=
  match kind with
  | BoolType =>
    '(value, next) ← rewrap (ErrText "invalid boolean") (readFixed encoded position 1);
    b ← index value 0;
    if 1 <? byte.unsigned b then Err (ErrText "invalid boolean")
    else Ok (VBool (byte.unsigned b =? 1), next)
  | TinyIntType =>
    '(value, next) ← readFixed encoded position 1;
    b ← index value 0;
    Ok (VInt8 (int8 (byte.unsigned b)), next)
  | SmallIntType =>
    '(value, next) ← readFixed encoded position 2;
    z ← getLE 2 value 0; Ok (VInt16 (int16 z), next)
  | FloatType =>
    '(value, next) ← readFixed encoded position 4;
    z ← getLE 4 value 0; Ok (VFloat32 z, next)
  | DoubleType =>
    '(value, next) ← readFixed encoded position 8;
    z ← getLE 8 value 0; Ok (VFloat64 z, next)
  | _ => Err (ErrText "unsupported compacted fixed type")
  end.

Definition readCompactedTimestamp (encoded : list byte) (position : Z) (t : LogicalType)
    : outcome (GoValue * Z) :=
  '(millis, next) ← readVar encoded position 10;
  '(nanos, next) ←
    (if 3 <? lt_Precision t then
       '(nanos, next) ← rewrap (ErrText "invalid timestamp nanos") (readVar encoded next 5);
       if 999999 <? nanos then Err (ErrText "invalid timestamp nanos") else Ok (nanos, next)
     else Ok (0, next));
  Ok (VTime (timestampTime (dataTypeForLogicalType t) (int64 millis) (int32 nanos)), next).

Definition readCompactedDecimal (encoded : list byte) (position : Z) (t : LogicalType)
    : outcome (GoValue * Z) :=
  if lt_Precision t <=? 18 then
    '(value, next) ← readVar encoded position 10;
    Ok (VRat (scaledRat (int64 value) (lt_Scale t)), next)
  else
    '(value, next) ← readLengthBytes encoded position;
    Ok (VRat (scaledRat (signedBigInt value) (lt_Scale t)), next).

Definition readIndexedTimestamp (encoded : list byte) (position : Z) (t : LogicalType)
    : outcome (GoValue * Z) :=
  let width := indexedLength t in
  '(value, next) ← readFixed encoded position width;
  nanos ←
    (if width =? 12 then
       z ← getLE 4 value 8;
       let nanos := int32 z in
       if 999999 <? nanos then Err (ErrText "invalid timestamp nanos") else Ok nanos
     else Ok 0);
  millis ← getLE 8 value 0;
  Ok (VTime (timestampTime (dataTypeForLogicalType t) (int64 millis) nanos), next).

Definition arrayPrimitive (kind : DataType) : bool :=
  match kind with
  | BoolType | TinyIntType | SmallIntType | IntType | FloatType | BigIntType | DoubleType => true
  | _ => false
  end.

Definition readArrayPrimitive (encoded : list byte) (slot : Z) (kind : DataType) : outcome GoValue :=
  match kind with
  | BoolType =>
    b ← index encoded slot;
    if 1 <? byte.unsigned b then Err (ErrText "invalid boolean")
    else Ok (VBool (byte.unsigned b =? 1))
  | TinyIntType => b ← index encoded slot; Ok (VInt8 (int8 (byte.unsigned b)))
  | SmallIntType => z ← getLE 2 encoded slot; Ok (VInt16 (int16 z))
  | IntType => z ← getLE 4 encoded slot; Ok (VInt32 (int32 z))
  | FloatType => z ← getLE 4 encoded slot; Ok (VFloat32 z)
  | BigIntType => z ← getLE 8 encoded slot; Ok (VInt64 (int64 z))
  | DoubleType => z ← getLE 8 encoded slot; Ok (VFloat64 z)
  | _ => Err (ErrText "unsupported array primitive")
  end.

Definition readArrayDecimal (encoded : list byte) (slot : Z) (t : LogicalType) : outcome GoValue :=
  if lt_Precision t <=? 18 then
    z ← getLE 8 encoded slot; Ok (VRat (scaledRat (int64 z) (lt_Scale t)))
  else
    value ← arrayVariable encoded slot;
    Ok (VRat (scaledRat (signedBigInt value) (lt_Scale t))).

Definition readArrayTimestamp (encoded : list byte) (slot : Z) (t : LogicalType) : outcome GoValue :=
  let kind := dataTypeForLogicalType t in
  if lt_Precision t <=? 3 then
    z ← getLE 8 encoded slot; Ok (VTime (timestampTime kind (int64 z) 0))
  else
    '(offset, nanos) ← offsetSize encoded slot;
    '(value, _) ← rewrap (ErrText "invalid timestamp array value") (readFixed encoded offset 8);
    if 999999 <? nanos then Err (ErrText "invalid timestamp array value")
    else z ← getLE 8 value 0; Ok (VTime (timestampTime kind (int64 z) (int32 nanos))).

(** Length and next length position of an indexed value; -1 when it has none. *)
Definition indexedValueLength (encoded : list byte) (position : Z) (t : LogicalType)
    (enc : rowEncoding) (isNull : bool) : outcome (Z * Z) :=
  if negb (bool_decide (enc = indexedEncoding)) || indexedFixed t || isNull then Ok (-1, position)
  else z ← getLE 4 encoded position; Ok (z, position + 4).

(** The loop of [decodeRow]; [read] is [decodeRowValue] of the row's encoding. *)
Fixpoint decodeRowLoop (read : Z -> LogicalType -> Z -> outcome (GoValue * Z))
    (enc : rowEncoding) (encoded : list byte) (columns : list Column) (i : Z)
    (position lengthPosition : Z) : outcome (Row * Z) :=
  match columns with
  | [] => Ok ([], position)
  | column :: columns =>
    let t := logicalTypeForColumn column in
    isNull ← bit_set encoded 0 i;
    '(length, lengthPosition) ← indexedValueLength encoded lengthPosition t enc isNull;
    if (isNull : bool) then
      if negb (col_Nullable column) then Err ErrMalformedRow
      else
        '(row, position) ← decodeRowLoop read enc encoded columns (i + 1) position lengthPosition;
        Ok (VNil :: row, position)
    else
      '(value, next) ← rewrap ErrMalformedRow (read position t length);
      '(row, position) ← decodeRowLoop read enc encoded columns (i + 1) next lengthPosition;
      Ok (value :: row, position)
  end.

(** The loop of [decodeBinaryArray] over [i < count]; [read] is [readArrayElement]. *)
Fixpoint decodeArrayLoop (read : Z -> outcome GoValue) (elementType : LogicalType)
    (encoded : list byte) (nullBytes slotSize : Z) (n : nat) (i : Z) : outcome (list GoValue) :=
  match n with
  | O => Ok []
  | S n =>
    isNull ← bit_set encoded 4 i;
    value ←
      (if (isNull : bool) then
         if lt_Nullable elementType then Ok VNil
         else Err (ErrText "non-nullable array element is null")
       else read (4 + nullBytes + slotSize * i));
    values ← decodeArrayLoop read elementType encoded nullBytes slotSize n (i + 1);
    Ok (value :: values)
  end.

Fixpoint readCompactedValue (n : nat) (encoded : list byte) (position : Z) (t : LogicalType)
    : outcome (GoValue * Z) :=
  match n with
  | O => OutOfFuel
  | S n =>
    let kind := dataTypeForLogicalType t in
    if compactedFixedWidth kind then readCompactedFixed encoded position kind
    else match kind with
    | IntType => '(value, next) ← readVar encoded position 5; Ok (VInt32 (int32 value), next)
    | BigIntType => '(value, next) ← readVar encoded position 10; Ok (VInt64 (int64 value), next)
    | StringType | CharType =>
      '(value, next) ← readLengthBytes encoded position; Ok (VString (stringOf value), next)
    | BytesType | BinaryType =>
      '(value, next) ← readLengthBytes encoded position; Ok (VBytes value, next)
    | DateType | TimeType =>
      '(value, next) ← readVar encoded position 5;
      Ok (VTime (temporalTime kind (int32 value)), next)
    | TimestampType | TimestampLTZType => readCompactedTimestamp encoded position t
    | DecimalType => readCompactedDecimal encoded position t
    | ArrayType | MapType | RowType =>
      '(value, next) ← readLengthBytes encoded position;
      match kind with
      | ArrayType =>
        e ← deref (lt_Element t);
        array ← decodeBinaryArray n e value compactedEncoding; Ok (VArray array, next)
      | MapType =>
        mapped ← decodeBinaryMap n t value compactedEncoding; Ok (VMap mapped, next)
      | _ =>
        row ← decodeRow n (nestedSchema t) value compactedEncoding; Ok (VRow row, next)
      end
    | _ => Err (ErrText "unsupported compacted type")
    end
  end

with readIndexedValue (n : nat) (encoded : list byte) (position : Z) (t : LogicalType) (length : Z)
    : outcome (GoValue * Z) :=
  match n with
  | O => OutOfFuel
  | S n =>
    let kind := dataTypeForLogicalType t in
    if negb (indexedFixed t) then
      (* readIndexedVariable *)
      '(value, next) ← readFixed encoded position length;
      match kind with
      | StringType | CharType => Ok (VString (stringOf value), next)
      | BytesType | BinaryType => Ok (VBytes value, next)
      | DecimalType => Ok (VRat (scaledRat (signedBigInt value) (lt_Scale t)), next)
      | ArrayType =>
        e ← deref (lt_Element t);
        array ← decodeBinaryArray n e value indexedEncoding; Ok (VArray array, next)
      | MapType =>
        mapped ← decodeBinaryMap n t value indexedEncoding; Ok (VMap mapped, next)
      | RowType =>
        row ← decodeRow n (nestedSchema t) value indexedEncoding; Ok (VRow row, next)
      | _ => Err (ErrText "unsupported indexed variable type")
      end
    else
      (* readIndexedFixed *)
      match kind with
      | IntType =>
        '(value, next) ← readFixed encoded position 4;
        z ← getLE 4 value 0; Ok (VInt32 (int32 z), next)
      | BigIntType =>
        '(value, next) ← readFixed encoded position 8;
        z ← getLE 8 value 0; Ok (VInt64 (int64 z), next)
      | DateType | TimeType =>
        '(value, next) ← readFixed encoded position 4;
        z ← getLE 4 value 0; Ok (VTime (temporalTime kind (int32 z)), next)
      | TimestampType | TimestampLTZType => readIndexedTimestamp encoded position t
      | CharType =>
        '(value, next) ← readFixed encoded position (lt_Length t);
        Ok (VString (stringOf (trimZero value)), next)
      | BinaryType =>
        '(value, next) ← readFixed encoded position (lt_Length t);
        Ok (VBytes (trimZero value), next)
      | DecimalType =>
        '(value, next) ← readFixed encoded position 8;
        z ← getLE 8 value 0; Ok (VRat (scaledRat (int64 z) (lt_Scale t)), next)
      | _ => readCompactedValue n encoded position t
      end
  end

with readArrayElement (n : nat) (encoded : list byte) (slot : Z) (t : LogicalType)
    (enc : rowEncoding) : outcome GoValue :=
  match n with
  | O => OutOfFuel
  | S n =>
    let kind := dataTypeForLogicalType t in
    if (slot <? 0) || (glen encoded - slot <? arraySlotSize t)
    then Err (ErrText "truncated array slot")
    else if arrayPrimitive kind then readArrayPrimitive encoded slot kind
    else match kind with
    | DateType | TimeType =>
      z ← getLE 4 encoded slot; Ok (VTime (temporalTime kind (int32 z)))
    | DecimalType => readArrayDecimal encoded slot t
    | TimestampType | TimestampLTZType => readArrayTimestamp encoded slot t
    | StringType | CharType =>
      value ← unpackedArrayBytes encoded slot; Ok (VString (stringOf value))
    | BytesType | BinaryType => value ← unpackedArrayBytes encoded slot; Ok (VBytes value)
    | ArrayType | MapType | RowType =>
      value ← arrayVariable encoded slot;
      match kind with
      | ArrayType =>
        e ← deref (lt_Element t); l ← decodeBinaryArray n e value enc; Ok (VArray l)
      | MapType => m ← decodeBinaryMap n t value enc; Ok (VMap m)
      | _ => row ← decodeRow n (nestedSchema t) value enc; Ok (VRow row)
      end
    | _ => Err (ErrText "unsupported array element type")
    end
  end

with decodeBinaryArray (n : nat) (elementType : LogicalType) (encoded : list byte)
    (enc : rowEncoding) : outcome (list GoValue) :=
  match n with
  | O => OutOfFuel
  | S n =>
    if (glen encoded <? 4) || (maxRowBytes <? glen encoded)
    then Err (ErrText "invalid binary array length")
    else
      count ← getLE 4 encoded 0;
      if maxRowBytes / 8 <? count then Err (ErrText "array element count exceeds allocation limit")
      else
        let nullBytes := arrayNullBytes count in
        let slotSize := arraySlotSize elementType in
        let fixedBytes := align8 (4 + nullBytes + slotSize * count) in
        if glen encoded <? fixedBytes then Err (ErrText "truncated binary array")
        else decodeArrayLoop (fun slot => readArrayElement n encoded slot elementType enc)
               elementType encoded nullBytes slotSize (Z.to_nat count) 0
  end

with decodeBinaryMap (n : nat) (t : LogicalType) (encoded : list byte) (enc : rowEncoding)
    : outcome (list (GoValue * GoValue)) :=
  match n with
  | O => OutOfFuel
  | S n =>
    if glen encoded <? 4 then Err (ErrText "truncated binary map")
    else
      keyLength ← getLE 4 encoded 0;
      if glen encoded - 4 <? keyLength then Err (ErrText "invalid binary map key length")
      else
        k ← deref (lt_Key t);
        keyBytes ← slice encoded 4 (4 + keyLength);
        keys ← decodeBinaryArray n k keyBytes enc;
        w ← deref (lt_Value t);
        valueBytes ← slice_from encoded (4 + keyLength);
        values ← decodeBinaryArray n w valueBytes enc;
        if negb (glen keys =? glen values)
        then Err (ErrText "binary map key/value count mismatch")
        else Ok (zip keys values)
  end

with decodeRow (n : nat) (s : Schema) (encoded : list byte) (enc : rowEncoding) : outcome Row :=
  match n with
  | O => OutOfFuel
  | S n =>
    _ ← Schema_Validate s;
    let nullBytes := (glen (sch_Columns s) + 7) / 8 in
    let headerBytes := rowHeaderBytes s enc in
    if (maxRowBytes <? glen encoded) || (glen encoded <? headerBytes) then Err ErrMalformedRow
    else
      '(row, position) ←
        decodeRowLoop
          (match enc with
           | compactedEncoding => fun position t _ => readCompactedValue n encoded position t
           | indexedEncoding => fun position t length => readIndexedValue n encoded position t length
           end)
          enc encoded (sch_Columns s) 0 headerBytes nullBytes;
      if position =? glen encoded then Ok row else Err ErrMalformedRow
  end.

(** ** Fuel *)

(** Nesting depth of a logical type; a scalar has depth 1. *)
Fixpoint typeDepth (t : LogicalType) : nat :=
  let 'MkLogicalType _ _ _ _ _ element key value fields := t in
  let opt := fun o => match o with Some e => typeDepth e | None => O end in
  S (Nat.max (opt element) (Nat.max (opt key) (Nat.max (opt value)
      (foldr Nat.max O
        (map (fun f => let 'MkLogicalField _ ty _ _ := f in typeDepth ty) fields))))).

Definition schemaDepth (s : Schema) : nat :=
  foldr Nat.max O (map (fun c => typeDepth (logicalTypeForColumn c)) (sch_Columns s)).

(** Four calls per level of nesting (value, map, array, element) and the outermost row. *)
Definition schemaFuel (s : Schema) : nat := S (4 * schemaDepth s).

(** ** The exported operations *)

Definition EncodeCompactedRow (s : Schema) (row : Row) : outcome (list byte) :=
  encodeRow (schemaFuel s) s row compactedEncoding.
Definition DecodeCompactedRow (s : Schema) (encoded : list byte) : outcome Row :=
  decodeRow (schemaFuel s) s encoded compactedEncoding.
Definition EncodeIndexedRow (s : Schema) (row : Row) : outcome (list byte) :=
  encodeRow (schemaFuel s) s row indexedEncoding.
Definition DecodeIndexedRow (s : Schema) (encoded : list byte) : outcome Row :=
  decodeRow (schemaFuel s) s encoded indexedEncoding.

(** The loop of [projectSchema], threading the set of names already projected. *)
Fixpoint projectLoop (byName : gmap string Column) (names : list string) (seen : gset string)
    : outcome (list Column) :=
  match names with
  | [] => Ok []
  | name :: names =>
    match byName !! name with
    | None => Err ErrInvalidSchema
    | Some column =>
      if decide (name ∈ seen) then Err ErrInvalidSchema
      else columns ← projectLoop byName names ({[name]} ∪ seen); Ok (column :: columns)
    end
  end.

Definition projectSchema (s : Schema) (names : list string) : outcome Schema :=
  _ ← Schema_Validate s;
  match names with
  | [] => Err ErrInvalidSchema
  | _ => columns ← projectLoop (columnsByName s) names ∅; Ok (MkSchema columns [] [] [] [] 0)
  end.

Definition EncodeCompactedProjectedRow (s : Schema) (columns : list string) (row : Row)
    : outcome (list byte) :=
  projected ← projectSchema s columns; EncodeCompactedRow projected row.
Definition DecodeCompactedProjectedRow (s : Schema) (columns : list string) (encoded : list byte)
    : outcome Row :=
  projected ← projectSchema s columns; DecodeCompactedRow projected encoded.
Definition EncodeIndexedProjectedRow (s : Schema) (columns : list string) (row : Row)
    : outcome (list byte) :=
  projected ← projectSchema s columns; EncodeIndexedRow projected row.
Definition DecodeIndexedProjectedRow (s : Schema) (columns : list string) (encoded : list byte)
    : outcome Row :=
  projected ← projectSchema s columns; DecodeIndexedRow projected encoded.

(** The zero [Column] a Go map returns for a missing name. *)
Definition zeroColumn : Column := MkColumn "" (OtherType "") false None "" 0.

Fixpoint encodeKeyLoop (fuel : nat) (byName : gmap string Column) (names : list string)
    (values : PrimaryKey) (encoded : list byte) : outcome (list byte) :=
  match names, values with
  | [], _ => Ok encoded
  | _ :: _, [] => Panic
  | name :: names, v :: values =>
    let column := default zeroColumn (byName !! name) in
    if isNil v then Err ErrInvalidRow
    else
      encoded ← appendCompactedValue fuel encoded (logicalTypeForColumn column) v;
      encodeKeyLoop fuel byName names values encoded
  end.

Definition encodeKeyColumns (s : Schema) (names : list string) (values : PrimaryKey)
    : outcome (list byte) :=
  _ ← ValidateRow s values names;
  encoded ← encodeKeyLoop (schemaFuel s) (columnsByName s) names values [];
  if maxRowBytes <? glen encoded then Err ErrMalformedRow else Ok encoded.

Definition EncodePrimaryKey (s : Schema) (key : PrimaryKey) : outcome (list byte) :=
  _ ← ValidatePrimaryKey s key;
  encodeKeyColumns s (sch_PrimaryKey s) key.

Definition EncodeLookupKey (s : Schema) (key : PrimaryKey) (version : Z) : outcome (list byte) :=
  if negb (version =? 0) && negb (version =? 1) then Err ErrInvalidConfig
  else EncodePrimaryKey s key.

Definition EncodePrefixKey (s : Schema) (prefix : PrimaryKey) : outcome (list byte) :=
  if (glen prefix =? 0) || (glen (sch_PrimaryKey s) <? glen prefix) then Err ErrInvalidRow
  else encodeKeyColumns s (take (length prefix) (sch_PrimaryKey s)) prefix.

Definition EncodePrefixLookupKey (s : Schema) (prefix : PrimaryKey) (version : Z)
    : outcome (list byte) :=
  if negb (version =? 0) && negb (version =? 1) then Err ErrInvalidConfig
  else EncodePrefixKey s prefix.

(** ** A sample schema

    Nested row, map, array, timestamp and fixed-width text: what the witnesses run on. *)
Definition sampleRowType : LogicalType :=
  MkLogicalType "ROW" false 0 0 0 None None None
    [MkLogicalField "x" (plainType "INTEGER" true) "" 0;
     MkLogicalField "tags"
       (MkLogicalType "ARRAY" true 0 0 0 (Some (plainType "STRING" true)) None None []) "" 0].

Definition sampleMapType : LogicalType :=
  MkLogicalType "MAP" false 0 0 0 None (Some (plainType "STRING" false))
    (Some (MkLogicalType "DECIMAL" true 0 20 2 None None None [])) [].

Definition sampleTimestampType : LogicalType :=
  MkLogicalType "TIMESTAMP_WITHOUT_TIME_ZONE" false 0 6 0 None None None [].

Definition sampleCharType : LogicalType := MkLogicalType "CHAR" false 4 0 0 None None None [].

Definition sampleSchema : Schema :=
  MkSchema
    [MkColumn "id" BigIntType false None "" 0;
     MkColumn "name" StringType true None "" 0;
     MkColumn "nested" RowType false (Some sampleRowType) "" 0;
     MkColumn "prices" MapType false (Some sampleMapType) "" 0;
     MkColumn "at" TimestampType false (Some sampleTimestampType) "" 0;
     MkColumn "code" CharType false (Some sampleCharType) "" 0]
    ["id"] [] [] [] 0.
