(* ===== verification/DecodeSafety.v ===== *)
(** * The decoders are total

    Whatever bytes arrive, decoding a row against a complete schema returns a row or an
    error: no index, slice, dereference or type assertion panics, no recursion runs out
    of fuel.  The same for the nested arrays and maps. *)

From S2P Require Import Prelude Model Wire Values Codec.

(** ** Nesting depth *)

Lemma typeDepth_pos t : (1 <= typeDepth t)%nat.
Proof. destruct t. cbn. lia. Qed.

Lemma typeDepth_element t e : lt_Element t = Some e -> (typeDepth e < typeDepth t)%nat.
Proof. destruct t. cbn. intros ->. lia. Qed.
Lemma typeDepth_key t e : lt_Key t = Some e -> (typeDepth e < typeDepth t)%nat.
Proof. destruct t. cbn. intros ->. lia. Qed.
Lemma typeDepth_value t e : lt_Value t = Some e -> (typeDepth e < typeDepth t)%nat.
Proof. destruct t. cbn. intros ->. lia. Qed.

Lemma foldr_max_elem (l : list nat) k : k ∈ l -> (k <= foldr Nat.max 0 l)%nat.
Proof.
  induction l as [|x l IH]; cbn; intros H; [by apply not_elem_of_nil in H|].
  apply elem_of_cons in H as [->|H]; [lia|]. specialize (IH H). lia.
Qed.

Lemma schemaDepth_column s c :
  c ∈ sch_Columns s -> (typeDepth (logicalTypeForColumn c) <= schemaDepth s)%nat.
Proof.
  intros Hc. apply foldr_max_elem. apply list_elem_of_fmap. eauto.
Qed.

Lemma nestedSchema_depth t : (schemaDepth (nestedSchema t) < typeDepth t)%nat.
Proof.
  destruct t as [? ? ? ? ? e k v fields]. unfold schemaDepth, nestedSchema. cbn [sch_Columns lt_Fields].
  rewrite map_map. cbn [logicalTypeForColumn col_LogicalType].
  cbn [typeDepth].
  assert (map (fun f => typeDepth (lf_Type f)) fields =
          map (fun f => let 'MkLogicalField _ ty _ _ := f in typeDepth ty) fields) as ->.
  { apply map_ext. by intros []. }
  unfold logicalTypeForColumn. cbn. lia.
Qed.

Lemma typeComplete_element t : dataTypeForLogicalType t = ArrayType -> typeComplete t = true ->
  exists e, lt_Element t = Some e /\ typeComplete e = true.
Proof. destruct t as [? ? ? ? ? [e|] ? ? ?]; cbn; intros ->; [eauto | done]. Qed.

Lemma typeComplete_map t : dataTypeForLogicalType t = MapType -> typeComplete t = true ->
  exists k v, lt_Key t = Some k /\ lt_Value t = Some v /\
    typeComplete k = true /\ typeComplete v = true.
Proof.
  destruct t as [? ? ? ? ? ? [k|] [v|] ?]; cbn; intros ->; try done.
  - intros [? ?]%andb_true_iff. eauto 10.
  - by rewrite andb_false_r.
Qed.

Lemma typeComplete_row t : dataTypeForLogicalType t = RowType -> typeComplete t = true ->
  schemaComplete (nestedSchema t) = true.
Proof.
  destruct t as [? ? ? ? ? ? ? ? fields]; cbn [typeComplete]; intros ->.
  unfold schemaComplete, nestedSchema. cbn [sch_Columns lt_Fields].
  rewrite !forallb_forall. intros H c (f & <- & Hf)%in_map_iff.
  specialize (H f Hf). by destruct f.
Qed.

(** ** Steps that return

    [returnsAt m]: [m] returned, and if it returned a value the next position it
    reports is not negative. *)
Definition returnsAt {A} (m : outcome (A * Z)) : bool :=
  match m with
  | Ok (_, next) => 0 <=? next
  | Err _ => true
  | Panic | OutOfFuel => false
  end.

Lemma returnsAt_bind {A B} (m : outcome (A * Z)) (f : A * Z -> outcome B) :
  returnsAt m = true -> (forall a next, m = Ok (a, next) -> 0 <= next -> returns (f (a, next)) = true) ->
  returns (m ≫= f) = true.
Proof. destruct m as [[a next]| | |]; cbn; try done. intros H%Z.leb_le Hf. auto. Qed.

Lemma returnsAt_bind_at {A B} (m : outcome (A * Z)) (f : A * Z -> outcome (B * Z)) :
  returnsAt m = true ->
  (forall a next, m = Ok (a, next) -> 0 <= next -> returnsAt (f (a, next)) = true) ->
  returnsAt (m ≫= f) = true.
Proof. destruct m as [[a next]| | |]; cbn; try done. intros H%Z.leb_le Hf. auto. Qed.

Lemma returns_bind_at {A B} (m : outcome A) (f : A -> outcome (B * Z)) :
  returns m = true -> (forall a, m = Ok a -> returnsAt (f a) = true) -> returnsAt (m ≫= f) = true.
Proof. destruct m; cbn; try done. auto. Qed.

Lemma rewrap_returnsAt {A} e (m : outcome (A * Z)) : returnsAt (rewrap e m) = returnsAt m.
Proof. by destruct m. Qed.

Lemma readFixed_returnsAt encoded position length : returnsAt (readFixed encoded position length) = true.
Proof.
  pose proof (readFixed_returns encoded position length) as H.
  destruct (readFixed encoded position length) as [[v next]| | |] eqn:E; try done.
  apply readFixed_Ok in E as (? & ? & -> & _). apply Z.leb_le. lia.
Qed.

Lemma readVar_returnsAt encoded position maximum :
  0 <= position -> returnsAt (readVar encoded position maximum) = true.
Proof.
  intros Hp. pose proof (readVar_returns encoded position maximum Hp) as H.
  destruct (readVar encoded position maximum) as [[v next]| | |] eqn:E; try done.
  apply readVarLoop_bound in E; [|done]. apply Z.leb_le. lia.
Qed.

Lemma readLengthBytes_returnsAt encoded position :
  0 <= position -> returnsAt (readLengthBytes encoded position) = true.
Proof.
  intros Hp. pose proof (readLengthBytes_returns encoded position Hp) as H.
  destruct (readLengthBytes encoded position) as [[v next]| | |] eqn:E; try done.
  apply readLengthBytes_Ok in E; [|done]. apply Z.leb_le. lia.
Qed.

Lemma getLE_returns w l off : 0 <= off -> off + Z.of_nat w <= glen l -> returns (getLE w l off) = true.
Proof. intros ? H. by destruct (getLE_safe w l off) as [v ->]. Qed.

Lemma index_returns {A} (l : list A) i : 0 <= i < glen l -> returns (index l i) = true.
Proof. intros H. by destruct (index_safe l i H) as [a ->]. Qed.

Lemma bit_set_returns l base i :
  0 <= base -> 0 <= i -> base + i / 8 < glen l -> returns (bit_set l base i) = true.
Proof. intros. by destruct (bit_set_safe l base i) as [r ->]. Qed.

Create HintDb returns.
#[export] Hint Resolve readFixed_returnsAt readVar_returnsAt readLengthBytes_returnsAt
  getLE_returns index_returns : returns.

(** One bind of a decoder: the action by the hints above, the continuation with its value. *)
Ltac step_returns :=
  match goal with
  | |- returnsAt (_ ≫= _) = true =>
    first [ eapply returnsAt_bind_at;
            [ rewrite ?rewrap_returnsAt; by auto with returns | intros ? ? ? ?; cbn beta iota ]
          | eapply returns_bind_at;
            [ rewrite ?rewrap_returns; by auto with returns | intros ? ?; cbn beta iota ] ]
  | |- returns (_ ≫= _) = true =>
    first [ eapply returnsAt_bind;
            [ rewrite ?rewrap_returnsAt; by auto with returns | intros ? ? ? ?; cbn beta iota ]
          | eapply bind_returns;
            [ rewrite ?rewrap_returns; by auto with returns | intros ? ?; cbn beta iota ] ]
  end.

Lemma readFixed_bind_at {B} encoded position length (f : list byte * Z -> outcome (B * Z)) :
  (forall v next, glen v = length -> 0 <= next -> returnsAt (f (v, next)) = true) ->
  returnsAt (readFixed encoded position length ≫= f) = true.
Proof.
  intros H. apply returnsAt_bind_at; [apply readFixed_returnsAt|].
  intros v next (? & ? & ? & ? & ? & ?)%readFixed_Ok ?. by apply H.
Qed.

(** ** The scalar readers *)

Ltac fixed_step := apply readFixed_bind_at; intros v next Hv Hnext; cbn beta iota.
Ltac len_returns :=
  first [apply returns_bind_at; [first [apply getLE_returns; lia | apply index_returns; lia]|]
        | apply bind_returns; [first [apply getLE_returns; lia | apply index_returns; lia]|]];
  intros ? _; cbn beta iota.

Lemma readCompactedFixed_returns encoded position kind :
  returnsAt (readCompactedFixed encoded position kind) = true.
Proof.
  destruct kind; try done; cbn [readCompactedFixed].
  - destruct (readFixed encoded position 1) as [[v next]| | |] eqn:E;
      cbn [rewrap mbind outcome_bind]; try done; try (pose proof (readFixed_returns encoded position 1) as H; by rewrite E in H).
    apply readFixed_Ok in E as (? & ? & -> & ? & ? & ?).
    destruct (index_safe v 0) as [b ->]; [lia|]. cbn [mbind outcome_bind].
    case_match; [done|]. cbn. lia.
  - fixed_step. len_returns. cbn. lia.
  - fixed_step. len_returns. cbn. lia.
  - fixed_step. len_returns. cbn. lia.
  - fixed_step. len_returns. cbn. lia.
Qed.

Lemma readCompactedTimestamp_returns encoded position t :
  0 <= position -> returnsAt (readCompactedTimestamp encoded position t) = true.
Proof.
  intros Hp. unfold readCompactedTimestamp. step_returns.
  eapply returnsAt_bind_at; [|intros ? ? _ ?; cbn; lia].
  case_match; [|cbn; lia]. step_returns. case_match; [done|]. cbn. lia.
Qed.

Lemma readCompactedDecimal_returns encoded position t :
  0 <= position -> returnsAt (readCompactedDecimal encoded position t) = true.
Proof. intros Hp. unfold readCompactedDecimal. case_match; step_returns; cbn; lia. Qed.

Lemma readIndexedTimestamp_returns encoded position t :
  dataTypeForLogicalType t = TimestampType \/ dataTypeForLogicalType t = TimestampLTZType ->
  returnsAt (readIndexedTimestamp encoded position t) = true.
Proof.
  intros Hk. unfold readIndexedTimestamp.
  assert (Hw : indexedLength t = 8 \/ indexedLength t = 12).
  { unfold indexedLength. destruct Hk as [-> | ->]; case_match; auto. }
  fixed_step. destruct (Z.eqb_spec (indexedLength t) 12).
  - apply returns_bind_at.
    + len_returns. by case_match.
    + intros nanos _. len_returns. cbn. lia.
  - cbn [mbind outcome_bind]. len_returns. cbn. lia.
Qed.

Lemma readArrayPrimitive_returns encoded slot t :
  0 <= slot -> arraySlotSize t <= glen encoded - slot ->
  returns (readArrayPrimitive encoded slot (dataTypeForLogicalType t)) = true.
Proof.
  intros Hs. unfold arraySlotSize, readArrayPrimitive.
  destruct (dataTypeForLogicalType t); intros Hl; try done; try (len_returns; done).
  len_returns. by case_match.
Qed.

Lemma offsetSize_returns encoded slot :
  0 <= slot -> 8 <= glen encoded - slot -> returns (offsetSize encoded slot) = true.
Proof. intros. unfold offsetSize. by len_returns. Qed.

Lemma arrayVariable_returns encoded slot :
  0 <= slot -> 8 <= glen encoded - slot -> returns (arrayVariable encoded slot) = true.
Proof.
  intros. unfold arrayVariable. apply bind_returns; [by apply offsetSize_returns|].
  intros [offset size] _. by step_returns.
Qed.

Lemma readArrayDecimal_returns encoded slot t :
  0 <= slot -> 8 <= glen encoded - slot -> returns (readArrayDecimal encoded slot t) = true.
Proof.
  intros. unfold readArrayDecimal. case_match; [by len_returns|].
  by apply bind_returns; [apply arrayVariable_returns|].
Qed.

Lemma readArrayTimestamp_returns encoded slot t :
  0 <= slot -> 8 <= glen encoded - slot -> returns (readArrayTimestamp encoded slot t) = true.
Proof.
  intros. unfold readArrayTimestamp. case_match; [by len_returns|].
  apply bind_returns; [by apply offsetSize_returns|]. intros [offset nanos] _.
  destruct (readFixed encoded offset 8) as [[v next]| | |] eqn:E;
    cbn [rewrap mbind outcome_bind]; try done; try (pose proof (readFixed_returns encoded offset 8) as Hr; by rewrite E in Hr).
  apply readFixed_Ok in E as (? & ? & -> & ? & ? & ?). case_match; [done|]. by len_returns.
Qed.

Lemma unpackedArrayBytes_returns encoded slot :
  0 <= slot -> 8 <= glen encoded - slot -> returns (unpackedArrayBytes encoded slot) = true.
Proof.
  intros. unfold unpackedArrayBytes. len_returns. case_match; [by case_match|].
  by apply arrayVariable_returns.
Qed.

(** ** The loops *)

(** Number of columns whose length an indexed row keeps in its header. *)
Definition variableColumns (enc : rowEncoding) (columns : list Column) : Z :=
  match enc with
  | compactedEncoding => 0
  | indexedEncoding => glen (filter (fun c => indexedFixed (logicalTypeForColumn c) = false) columns)
  end.

Lemma variableColumns_nonneg enc columns : 0 <= variableColumns enc columns.
Proof. destruct enc; cbn; [lia | apply glen_nonneg]. Qed.

Lemma variableColumns_cons enc c columns :
  variableColumns enc (c :: columns) =
  (if bool_decide (enc = indexedEncoding) && negb (indexedFixed (logicalTypeForColumn c)) then 1 else 0)
  + variableColumns enc columns.
Proof.
  destruct enc; cbn [variableColumns]; [done|]. rewrite filter_cons.
  case_decide as H; rewrite ?glen_cons.
  - by rewrite H.
  - apply not_false_is_true in H. by rewrite H.
Qed.

Lemma rowHeaderBytes_eq s enc :
  rowHeaderBytes s enc = (glen (sch_Columns s) + 7) / 8 + 4 * variableColumns enc (sch_Columns s).
Proof.
  unfold rowHeaderBytes. destruct enc; [cbn; lia|].
  generalize ((glen (sch_Columns s) + 7) / 8) as h. generalize (sch_Columns s) as cols.
  induction cols as [|c cols IH]; intros h.
  { change (variableColumns indexedEncoding []) with 0. cbn [foldl]. lia. }
  rewrite variableColumns_cons. cbn [foldl]. rewrite IH.
  rewrite bool_decide_true by done. destruct (indexedFixed _); cbn [andb negb]; lia.
Qed.

Lemma decodeRowLoop_returns read enc encoded columns : forall i position lengthPosition,
  (forall c position length, c ∈ columns -> 0 <= position ->
     returnsAt (read position (logicalTypeForColumn c) length) = true) ->
  0 <= i -> 0 <= position -> 0 <= lengthPosition ->
  (i + glen columns + 7) / 8 <= glen encoded ->
  lengthPosition + 4 * variableColumns enc columns <= glen encoded ->
  returnsAt (decodeRowLoop read enc encoded columns i position lengthPosition) = true.
Proof.
  induction columns as [|c columns IH]; intros i position lp Hread Hi Hp Hlp Hb Hl; cbn [decodeRowLoop].
  { cbn. lia. }
  rewrite variableColumns_cons in Hl. rewrite glen_cons in Hb.
  pose proof (variableColumns_nonneg enc columns). pose proof (glen_nonneg columns).
  apply returns_bind_at; [apply bit_set_returns; zlia|]. intros isNull _.
  assert (Hlen : returns (indexedValueLength encoded lp (logicalTypeForColumn c) enc isNull) = true /\
    forall len lp', indexedValueLength encoded lp (logicalTypeForColumn c) enc isNull = Ok (len, lp') ->
      0 <= lp' /\ lp' + 4 * variableColumns enc columns <= glen encoded).
  { unfold indexedValueLength.
    destruct (bool_decide (enc = indexedEncoding)), (indexedFixed (logicalTypeForColumn c)), isNull;
      cbn in *; try (split; [done|]; intros ? ? [= <- <-]; lia).
    destruct (getLE_safe 4 encoded lp) as [z ->]; [lia..|]. cbn.
    split; [done|]. intros ? ? [= <- <-]. lia. }
  destruct Hlen as [Hr Hn]. apply returns_bind_at; [done|]. intros [len lp'] E. cbn beta iota.
  destruct (Hn _ _ E). clear Hr Hn E.
  assert (Hrest : forall pos, 0 <= pos ->
    returnsAt (decodeRowLoop read enc encoded columns (i + 1) pos lp') = true).
  { intros pos Hpos. apply IH; try lia; [|by replace (i + 1 + glen columns) with (i + (1 + glen columns)) by lia].
    intros c' position' len' Hc'. apply Hread. by right. }
  destruct isNull; cbv iota.
  - destruct (col_Nullable c); cbn [negb]; [|done]. eapply returnsAt_bind_at; [by apply Hrest|]. intros ? ? _ ?. cbn. lia.
  - eapply returnsAt_bind_at; [rewrite rewrap_returnsAt; apply Hread; [by left|done]|].
    intros v next _ Hnext. cbn beta iota.
    eapply returnsAt_bind_at; [by apply Hrest|]. intros ? ? _ ?. cbn. lia.
Qed.

Lemma decodeArrayLoop_returns read t encoded nullBytes slotSize n : forall i,
  (forall j, i <= j < i + Z.of_nat n -> returns (read (4 + nullBytes + slotSize * j)) = true) ->
  0 <= i -> 4 + (i + Z.of_nat n + 7) / 8 <= glen encoded ->
  returns (decodeArrayLoop read t encoded nullBytes slotSize n i) = true.
Proof.
  induction n as [|n IH]; intros i Hread Hi Hb; cbn [decodeArrayLoop]; [done|].
  apply bind_returns; [apply bit_set_returns; zlia|]. intros isNull _.
  apply bind_returns; [destruct isNull; [by case_match|]; apply Hread; lia|]. intros v _.
  apply bind_returns; [|done]. apply IH; [|lia|].
  - intros j Hj. apply Hread. lia.
  - replace (i + 1 + Z.of_nat n) with (i + Z.of_nat (S n)) by lia. done.
Qed.

(** ** All decoders return *)

Lemma align8_eq value : align8 value = (value + 7) / 8 * 8.
Proof.
  unfold align8. change 7 with (Z.ones 3) at 2. rewrite Z.ldiff_ones_r by lia.
  rewrite Z.shiftl_mul_pow2, Z.shiftr_div_pow2 by lia. done.
Qed.

Definition decodersReturn (n : nat) : Prop :=
  (forall t encoded position, typeComplete t = true -> (4 * typeDepth t <= S n)%nat ->
     0 <= position -> returnsAt (readCompactedValue n encoded position t) = true) /\
  (forall t encoded position length, typeComplete t = true -> (4 * typeDepth t <= n)%nat ->
     0 <= position -> returnsAt (readIndexedValue n encoded position t length) = true) /\
  (forall t encoded slot enc, typeComplete t = true -> (4 * typeDepth t <= n)%nat ->
     returns (readArrayElement n encoded slot t enc) = true) /\
  (forall t encoded enc, typeComplete t = true -> (4 * typeDepth t + 1 <= n)%nat ->
     returns (decodeBinaryArray n t encoded enc) = true) /\
  (forall t encoded enc, dataTypeForLogicalType t = MapType -> typeComplete t = true ->
     (4 * typeDepth t <= S (S n))%nat -> returns (decodeBinaryMap n t encoded enc) = true) /\
  (forall s encoded enc, schemaComplete s = true -> (4 * schemaDepth s + 1 <= n)%nat ->
     returns (decodeRow n s encoded enc) = true).

Lemma LogicalType_Validate_returns t : returns (LogicalType_Validate t) = true.
Proof.
  induction t as [root nul len prec scale element key value fields He Hkk Hv Hf]
    using LogicalType_nested_ind. cbn.
  unfold validateLength, validateDecimal, validateTemporal, validateArray, validateMap, validateRow.
  repeat case_decide; try apply check_returns; try done.
  - destruct element; [by apply He | done].
  - destruct key, value; try done. apply bind_returns; [by apply Hkk|]. intros. by apply Hv.
  - enough (returns (validateFields LogicalType_Validate fields) = true) by (by destruct fields).
    induction fields as [|[name ty d i] fields IH]; [done|]. cbn. case_decide; [done|].
    apply Forall_cons in Hf as [Hty Hf]. apply bind_returns; [done|]. intros. by apply IH.
Qed.

Lemma Schema_Validate_returns s : returns (Schema_Validate s) = true.
Proof.
  assert (Hk : forall m keys, returns (validateSchemaKeys m keys) = true).
  { intros m keys. induction keys; cbn; [done|]. by case_match. }
  assert (Hl : forall columns seen, returns (validateColumnsLoop seen columns) = true).
  { induction columns as [|c columns IH]; intros seen; [done|]. cbn [validateColumnsLoop].
    apply bind_returns; [apply check_returns|]. intros _ _.
    apply bind_returns; [apply check_returns|]. intros _ _.
    apply bind_returns; [destruct (col_LogicalType c); [apply LogicalType_Validate_returns|]; by destruct (col_Type c)|]. auto. }
  unfold Schema_Validate. destruct (sch_Columns s); [done|].
  apply bind_returns; [apply Hl|]. intros. apply bind_returns; [done|]. intros.
  apply bind_returns; done.
Qed.

(** The induction step, one lemma per decoder. *)
Section Step.
Variable n : nat.
Hypothesis IH : decodersReturn n.

Lemma decodeBinaryArray_step t encoded enc :
  typeComplete t = true -> (4 * typeDepth t + 1 <= S n)%nat ->
  returns (decodeBinaryArray (S n) t encoded enc) = true.
Proof.
  destruct IH as (_ & _ & He & _). intros Ht Hd. cbn [decodeBinaryArray].
  destruct (_ || _) eqn:Eb; [done|].
  apply bind_returns; [apply getLE_returns; lia|]. intros count Hc%getLE_range.
  destruct (maxRowBytes / 8 <? count); [done|].
  destruct (Z.ltb_spec (glen encoded)
    (align8 (4 + arrayNullBytes count + arraySlotSize t * count))); [done|].
  rewrite align8_eq in *. unfold arrayNullBytes in *.
  assert (1 <= arraySlotSize t) by (unfold arraySlotSize; case_match; lia).
  apply decodeArrayLoop_returns; [|lia|].
  - intros j _. apply He; [done|lia].
  - rewrite Z2Nat.id by lia.
    assert ((0 + count + 7) / 8 <= (count + 31) / 32 * 4) by zlia.
    assert (0 <= arraySlotSize t * count) by nia. zlia.
Qed.

Lemma decodeBinaryMap_step t encoded enc :
  dataTypeForLogicalType t = MapType -> typeComplete t = true ->
  (4 * typeDepth t <= S (S (S n)))%nat -> returns (decodeBinaryMap (S n) t encoded enc) = true.
Proof.
  destruct IH as (_ & _ & _ & Ha & _). intros Hk Ht Hd. cbn [decodeBinaryMap].
  destruct (typeComplete_map t Hk Ht) as (k & w & Ek & Ew & Hck & Hcw).
  apply typeDepth_key in Ek as Hdk. apply typeDepth_value in Ew as Hdw.
  destruct (Z.ltb_spec (glen encoded) 4); [done|].
  apply bind_returns; [apply getLE_returns; lia|]. intros keyLength Hl%getLE_range.
  destruct (Z.ltb_spec (glen encoded - 4) keyLength); [done|].
  rewrite Ek, Ew. cbn [deref mbind outcome_bind].
  destruct (slice_safe encoded 4 (4 + keyLength)) as [kb ->]; [lia..|]. cbn [mbind outcome_bind].
  apply bind_returns; [apply Ha; [done|lia]|]. intros keys _.
  unfold slice_from. destruct (slice_safe encoded (4 + keyLength) (glen encoded)) as [vb ->]; [lia..|].
  cbn [mbind outcome_bind].
  apply bind_returns; [apply Ha; [done|lia]|]. intros values _. by case_match.
Qed.

Lemma decodeRow_step s encoded enc :
  schemaComplete s = true -> (4 * schemaDepth s + 1 <= S n)%nat ->
  returns (decodeRow (S n) s encoded enc) = true.
Proof.
  destruct IH as (Hc & Hi & _). intros Hs Hd. cbn [decodeRow].
  apply bind_returns; [apply Schema_Validate_returns|]. intros _ _.
  destruct (_ || _) eqn:Eb; [done|].
  rewrite rowHeaderBytes_eq in *. pose proof (variableColumns_nonneg enc (sch_Columns s)).
  pose proof (glen_nonneg (sch_Columns s)).
  eapply returnsAt_bind; [|intros ? ? _ _; cbn beta iota; by destruct (_ =? _)].
  apply decodeRowLoop_returns; try zlia.
  intros c position length Hcol Hp.
  pose proof (schemaDepth_column s c Hcol). unfold schemaComplete in Hs.
  rewrite forallb_forall in Hs. specialize (Hs c ltac:(by apply list_elem_of_In)).
  destruct enc; [apply Hc | apply Hi]; done || lia.
Qed.

(** A nested payload: the three composite kinds, wherever they occur. *)
Lemma nested_array_returns t value enc :
  typeComplete t = true -> (4 * typeDepth t <= S (S n))%nat ->
  dataTypeForLogicalType t = ArrayType ->
  exists e, lt_Element t = Some e /\ returns (decodeBinaryArray n e value enc) = true.
Proof.
  destruct IH as (_ & _ & _ & Ha & _). intros Ht Hd Hk.
  destruct (typeComplete_element t Hk Ht) as (e & Ee & Hce).
  apply typeDepth_element in Ee as Hde. exists e. split; [done|]. apply Ha; [done|lia].
Qed.

Lemma nested_map_returns t value enc :
  typeComplete t = true -> (4 * typeDepth t <= S (S n))%nat ->
  dataTypeForLogicalType t = MapType -> returns (decodeBinaryMap n t value enc) = true.
Proof. destruct IH as (_ & _ & _ & _ & Hm & _). auto. Qed.

Lemma nested_row_returns t value enc :
  typeComplete t = true -> (4 * typeDepth t <= S (S n))%nat ->
  dataTypeForLogicalType t = RowType -> returns (decodeRow n (nestedSchema t) value enc) = true.
Proof.
  destruct IH as (_ & _ & _ & _ & _ & Hr). intros. pose proof (nestedSchema_depth t).
  apply Hr; [by apply typeComplete_row|lia].
Qed.

Lemma readCompactedValue_step t encoded position :
  typeComplete t = true -> (4 * typeDepth t <= S (S n))%nat -> 0 <= position ->
  returnsAt (readCompactedValue (S n) encoded position t) = true.
Proof.
  intros Ht Hd Hp. cbn [readCompactedValue].
  destruct (compactedFixedWidth _); [apply readCompactedFixed_returns|].
  destruct (dataTypeForLogicalType t) eqn:Ek; try done; cbv iota;
    try (apply readCompactedTimestamp_returns; done);
    try (apply readCompactedDecimal_returns; done);
    try (step_returns; cbn; lia);
    step_returns; cbv iota.
  - destruct (nested_array_returns t a compactedEncoding Ht Hd Ek) as (e & -> & Ha).
    cbn [deref mbind outcome_bind]. apply returns_bind_at; [done|]. intros. cbn. lia.
  - apply returns_bind_at; [by apply nested_map_returns|]. intros. cbn. lia.
  - apply returns_bind_at; [by apply nested_row_returns|]. intros. cbn. lia.
Qed.

Lemma readIndexedValue_step t encoded position length :
  typeComplete t = true -> (4 * typeDepth t <= S n)%nat -> 0 <= position ->
  returnsAt (readIndexedValue (S n) encoded position t length) = true.
Proof.
  intros Ht Hd Hp. cbn [readIndexedValue]. destruct (indexedFixed t); cbn [negb]; cbv iota.
  - destruct (dataTypeForLogicalType t) eqn:Ek; cbv iota;
      try (apply (proj1 IH); done || lia);
      try (apply readIndexedTimestamp_returns; auto);
      fixed_step; try (len_returns); cbn; lia.
  - fixed_step. destruct (dataTypeForLogicalType t) eqn:Ek; cbv iota; try (cbn; lia); try done.
    + destruct (nested_array_returns t v indexedEncoding Ht ltac:(lia) Ek) as (e & -> & Ha).
      cbn [deref mbind outcome_bind]. apply returns_bind_at; [done|]. intros. cbn. lia.
    + apply returns_bind_at; [apply nested_map_returns; done || lia|]. intros. cbn. lia.
    + apply returns_bind_at; [apply nested_row_returns; done || lia|]. intros. cbn. lia.
Qed.

Lemma readArrayElement_step t encoded slot enc :
  typeComplete t = true -> (4 * typeDepth t <= S n)%nat ->
  returns (readArrayElement (S n) encoded slot t enc) = true.
Proof.
  intros Ht Hd. cbn [readArrayElement]. destruct (_ || _) eqn:Eb; [done|].
  assert (0 <= slot /\ arraySlotSize t <= glen encoded - slot) as [Hs Hl] by lia.
  destruct (arrayPrimitive _); [by apply readArrayPrimitive_returns|].
  unfold arraySlotSize in Hl.
  destruct (dataTypeForLogicalType t) eqn:Ek; cbv iota; try done;
    try (apply readArrayDecimal_returns; done); try (apply readArrayTimestamp_returns; done);
    try (by len_returns);
    try (apply bind_returns; [by apply unpackedArrayBytes_returns | done]);
    apply bind_returns; try (by apply arrayVariable_returns); intros v _.
  - destruct (nested_array_returns t v enc Ht ltac:(lia) Ek) as (e & -> & Ha).
    cbn [deref mbind outcome_bind]. by apply bind_returns.
  - by apply bind_returns; [apply nested_map_returns; done || lia|].
  - by apply bind_returns; [apply nested_row_returns; done || lia|].
Qed.
End Step.

Lemma decoders_return n : decodersReturn n.
Proof.
  induction n as [|n IH].
  { unfold decodersReturn. split_and!; intros; try (pose proof (typeDepth_pos t)); lia. }
  split_and!.
  - by apply readCompactedValue_step.
  - by apply readIndexedValue_step.
  - by apply readArrayElement_step.
  - by apply decodeBinaryArray_step.
  - by apply decodeBinaryMap_step.
  - by apply decodeRow_step.
Qed.

(** [schemaFuel] is enough for every schema, valid or not. *)
Lemma decodeRow_returns s encoded enc :
  forallb columnTyped (sch_Columns s) = true ->
  returns (decodeRow (schemaFuel s) s encoded enc) = true.
Proof.
  intros Ht. pose proof (Schema_Validate_returns s) as Hret. destruct (Schema_Validate s) eqn:Hv; try done.
  - pose proof (valid_schemaComplete s a Hv Ht) as Hs.
    destruct (decoders_return (schemaFuel s)) as (_ & _ & _ & _ & _ & Hr).
    apply Hr; [done|]. unfold schemaFuel. lia.
  - unfold schemaFuel. cbn [decodeRow]. by rewrite Hv.
Qed.

(** C6: Decoding never panics and always terminates.  For every schema whose ARRAY and
    MAP columns carry a logical type, and for every byte string, [DecodeCompactedRow] and
    [DecodeIndexedRow] return a row or an error. *)
Theorem decode_row_returns (s : Schema) (encoded : list byte) :
  forallb columnTyped (sch_Columns s) = true ->
  returns (DecodeCompactedRow s encoded) = true /\ returns (DecodeIndexedRow s encoded) = true.
Proof. intros Ht. split; by apply decodeRow_returns. Qed.

Lemma decode_row_returns_witness :
  returns (DecodeCompactedRow sampleSchema [Byte.xff; Byte.x01]) = true /\
  returns (DecodeIndexedRow sampleSchema [Byte.xff; Byte.x01]) = true.
Proof. apply (decode_row_returns sampleSchema [Byte.xff; Byte.x01]). reflexivity. Defined.
