(* ===== verification/EncodeSafety.v ===== *)
(** * The encoders are total

    Encoding returns bytes or an error for every row value of every dynamic type: the
    type assertions and slot writes are guarded by the validation that precedes them. *)

From S2P Require Import Prelude Model Wire Values Codec DecodeSafety.

(** ** Validation returns, and what it says of a value *)

Lemma validateColumnValue_returns c v : returns (validateColumnValue c v) = true.
Proof. unfold validateColumnValue. repeat case_match; apply check_returns. Qed.

Lemma ValidateRow_returns s row columns : returns (ValidateRow s row columns) = true.
Proof.
  unfold ValidateRow. apply bind_returns; [apply Schema_Validate_returns|]. intros _ _.
  apply bind_returns; [apply check_returns|]. intros _ Hlen%check_Ok%Z.eqb_eq.
  revert row Hlen. generalize (selectedColumns s columns) as names.
  induction names as [|name names IH]; intros [|v row] Hlen; try done.
  cbn. case_match; [|done]. apply bind_returns; [apply validateColumnValue_returns|].
  intros _ _. apply IH. rewrite !glen_cons in Hlen. lia.
Qed.

Lemma validLogicalValue_untyped t v :
  isNil v = false -> validLogicalValue t v = true ->
  validUntypedValue (dataTypeForLogicalType t) v = true.
Proof.
  destruct t as [root nul len prec scale element key value fields].
  cbn [validLogicalValue]. intros ->. cbv iota.
  destruct (dataTypeForLogicalType _); try done.
  - unfold validLogicalArray. by destruct v.
  - unfold validLogicalMap. destruct key, value; try done. cbn. by destruct (mapEntries v).
  - unfold validLogicalRow. by destruct v.
Qed.

Lemma dataTypeForLogicalType_plain t n :
  (forall s, t <> OtherType s) -> dataTypeForLogicalType (plainType (logicalRoot t) n) = t.
Proof. intros H. destruct t; try reflexivity. by destruct (H s). Qed.

(** A value a column accepts has the dynamic type its encoder asserts. *)
Lemma validateColumnValue_untyped c v :
  isNil v = false -> validateColumnValue c v = Ok tt ->
  validUntypedValue (dataTypeForLogicalType (logicalTypeForColumn c)) v = true.
Proof.
  unfold validateColumnValue, logicalTypeForColumn. intros Hn. rewrite Hn.
  destruct (col_LogicalType c) as [t|]; intros H%check_Ok.
  - by apply validLogicalValue_untyped.
  - rewrite dataTypeForLogicalType_plain; [done|]. intros s Hs. by rewrite Hs in H.
Qed.

(** ** Steps *)

Lemma putLE_returns w l off v : 0 <= off -> off + Z.of_nat w <= glen l -> returns (putLE w l off v) = true.
Proof. intros. by destruct (putLE_safe w l off v) as [l' ->]. Qed.

Lemma set_index_returns {A} (l : list A) i a : 0 <= i < glen l -> returns (set_index l i a) = true.
Proof. intros. unfold set_index. by replace (_ && _) with true by lia. Qed.

Lemma set_bit_returns l base i :
  0 <= base -> 0 <= i -> base + i / 8 < glen l -> returns (set_bit l base i) = true.
Proof. intros. by destruct (set_bit_safe l base i) as [r ->]. Qed.

Lemma appendLengthBytes_returns dst v : returns (appendLengthBytes dst v) = true.
Proof. unfold appendLengthBytes. by case_match. Qed.

Lemma decimalUnscaled_returns q t : returns (decimalUnscaled q t) = true.
Proof. unfold decimalUnscaled. by repeat case_match. Qed.

Lemma appendFixed_returns dst v len : returns (appendFixed dst v len) = true.
Proof.
  unfold appendFixed. case_match eqn:E; [done|].
  destruct (overwrite_safe (dst ++ zeros len) (glen dst) v) as [r ->]; [glia| |done].
  rewrite glen_app, glen_zeros; glia.
Qed.

Lemma appendArrayVariable_returns encoded slot v reserved :
  0 <= slot -> slot + 8 <= glen encoded -> returns (appendArrayVariable encoded slot v reserved) = true.
Proof.
  intros. unfold appendArrayVariable. case_match eqn:E; [done|].
  assert (0 <= reserved) by glia.
  destruct (overwrite_safe (encoded ++ zeros reserved) (glen encoded) v) as [r Hr]; [glia| |].
  { rewrite glen_app, glen_zeros; glia. }
  rewrite Hr. apply overwrite_glen in Hr. rewrite glen_app, glen_zeros in Hr by lia.
  apply putLE_returns; lia.
Qed.

Lemma appendPackedArrayBytes_returns encoded slot v :
  0 <= slot -> slot + 8 <= glen encoded -> returns (appendPackedArrayBytes encoded slot v) = true.
Proof.
  intros. unfold appendPackedArrayBytes. case_match; [by apply putLE_returns|].
  by apply appendArrayVariable_returns.
Qed.

(** ** The buffers only grow, and the loops stay inside them *)

Lemma appendArrayVariable_glen encoded slot v reserved r :
  appendArrayVariable encoded slot v reserved = Ok r -> glen encoded <= glen r.
Proof.
  unfold appendArrayVariable. case_match eqn:E; [done|]. intros H.
  apply bind_Ok in H as (b & Hb & H). apply putLE_glen in H. apply overwrite_glen in Hb.
  assert (0 <= reserved) by glia. rewrite glen_app, glen_zeros in Hb by lia. lia.
Qed.

Lemma appendPackedArrayBytes_glen encoded slot v r :
  appendPackedArrayBytes encoded slot v = Ok r -> glen encoded <= glen r.
Proof.
  unfold appendPackedArrayBytes. case_match; intros Hr; [apply putLE_glen in Hr; lia|].
  by apply appendArrayVariable_glen in Hr.
Qed.

Lemma writeArrayElement_glen n encoded slot t v enc r :
  writeArrayElement n encoded slot t v enc = Ok r -> glen encoded <= glen r.
Proof.
  destruct n as [|n]; [done|]. cbn [writeArrayElement].
  destruct (dataTypeForLogicalType t); intros H; inv_ok;
    repeat match goal with
    | H : (if ?b then _ else _) = Ok _ |- _ => destruct b; inv_ok
    | H : (let '(_, _) := ?p in _) = Ok _ |- _ => destruct p; inv_ok
    end;
    try match goal with
    | H : putLE _ _ _ _ = Ok _ |- _ => apply putLE_glen in H
    | H : putOffsetSize _ _ _ _ = Ok _ |- _ => apply putLE_glen in H
    | H : set_index _ _ _ = Ok _ |- _ => apply set_index_glen in H
    | H : appendPackedArrayBytes _ _ _ = Ok _ |- _ => apply appendPackedArrayBytes_glen in H
    | H : appendArrayVariable _ _ _ _ = Ok _ |- _ => apply appendArrayVariable_glen in H
    end; try rewrite appendLittle_le_split in * by lia; glia.
Qed.

Lemma encodeRowLoop_returns encodeValue enc columns : forall row i encoded lp,
  (forall c v, c ∈ columns -> validUntypedValue (dataTypeForLogicalType (logicalTypeForColumn c)) v = true ->
     returns (encodeValue (logicalTypeForColumn c) v) = true) ->
  Forall2 (fun c v => validateColumnValue c v = Ok tt) columns row ->
  0 <= i -> 0 <= lp -> (i + glen columns + 7) / 8 <= glen encoded ->
  lp + 4 * variableColumns enc columns <= glen encoded ->
  returns (encodeRowLoop encodeValue enc columns row i encoded lp) = true.
Proof.
  induction columns as [|c columns IH]; intros row i encoded lp Henc Hf Hi Hlp Hb Hl;
    apply Forall2_cons_inv_l in Hf || apply Forall2_nil_inv_l in Hf; [by subst|].
  destruct Hf as (v & row' & Hv & Hf & ->). cbn [encodeRowLoop].
  rewrite variableColumns_cons in Hl. rewrite glen_cons in Hb.
  pose proof (variableColumns_nonneg enc columns). pose proof (glen_nonneg columns).
  assert (Henc' : forall c v, c ∈ columns ->
     validUntypedValue (dataTypeForLogicalType (logicalTypeForColumn c)) v = true ->
     returns (encodeValue (logicalTypeForColumn c) v) = true).
  { intros c' v' Hc'. apply Henc. by right. }
  assert (Hi' : i + 1 + glen columns = i + (1 + glen columns)) by lia.
  destruct (isNil v) eqn:En.
  - apply bind_returns; [apply set_bit_returns; zlia|]. intros e He%set_bit_glen.
    apply IH; rewrite ?He, ?Hi'; try done; try lia. destruct (_ && _); lia.
  - apply bind_returns; [apply Henc; [by left | by apply validateColumnValue_untyped]|].
    intros value _. destruct (_ && _).
    + destruct (putLE_safe 4 encoded lp (uint32 (glen value))) as [e He]; [lia..|].
      rewrite He. apply putLE_glen in He. cbn [mbind outcome_bind]. case_match; [done|].
      apply IH; rewrite ?glen_app, ?He, ?Hi'; try done; glia.
    + cbn [mbind outcome_bind]. case_match; [done|].
      apply IH; rewrite ?glen_app, ?Hi'; try done; glia.
Qed.

Lemma encodeArrayLoop_returns write t nullBytes slotSize values : forall i encoded,
  (forall e slot v, 0 <= slot -> slot + slotSize <= glen e ->
     validUntypedValue (dataTypeForLogicalType t) v = true -> returns (write e slot v) = true) ->
  (forall e slot v r, write e slot v = Ok r -> glen e <= glen r) ->
  0 <= i -> 0 <= nullBytes -> 0 <= slotSize -> (i + glen values + 7) / 8 <= nullBytes ->
  4 + nullBytes + slotSize * (i + glen values) <= glen encoded ->
  returns (encodeArrayLoop write t nullBytes slotSize values i encoded) = true.
Proof.
  induction values as [|v values IH]; intros i encoded Hw Hg Hi Hn Hs Hb Hl; [done|].
  cbn [encodeArrayLoop]. rewrite glen_cons in *. pose proof (glen_nonneg values).
  assert (Hi' : i + 1 + glen values = i + (1 + glen values)) by lia.
  destruct (isNil v) eqn:En.
  - destruct (lt_Nullable t); [|done].
    apply bind_returns; [apply set_bit_returns; zlia|]. intros e He%set_bit_glen.
    apply IH; rewrite ?He, ?Hi'; done || lia.
  - destruct (validLogicalValue t v) eqn:Ev; [|done]. cbn [negb].
    apply bind_returns; [apply Hw; [nia..|by apply validLogicalValue_untyped]|].
    intros e He%Hg. case_match; [done|]. apply IH; rewrite ?Hi'; done || lia.
Qed.

(** ** All encoders return *)

Definition encodersReturn (n : nat) : Prop :=
  (forall t v dst, typeComplete t = true -> (4 * typeDepth t <= S n)%nat ->
     validUntypedValue (dataTypeForLogicalType t) v = true ->
     returns (appendCompactedValue n dst t v) = true) /\
  (forall t v dst, typeComplete t = true -> (4 * typeDepth t <= n)%nat ->
     validUntypedValue (dataTypeForLogicalType t) v = true ->
     returns (appendIndexedValue n dst t v) = true) /\
  (forall t v encoded slot enc, typeComplete t = true -> (4 * typeDepth t <= n)%nat ->
     validUntypedValue (dataTypeForLogicalType t) v = true ->
     0 <= slot -> slot + arraySlotSize t <= glen encoded ->
     returns (writeArrayElement n encoded slot t v enc) = true) /\
  (forall t l enc, typeComplete t = true -> (4 * typeDepth t + 1 <= n)%nat ->
     returns (encodeBinaryArray n t l enc) = true) /\
  (forall t v enc, dataTypeForLogicalType t = MapType -> typeComplete t = true ->
     (4 * typeDepth t <= S (S n))%nat -> returns (encodeBinaryMap n t v enc) = true) /\
  (forall s row enc, schemaComplete s = true -> (4 * schemaDepth s + 1 <= n)%nat ->
     returns (encodeRow n s row enc) = true).

Section Step.
Variable n : nat.
Hypothesis IH : encodersReturn n.

Lemma encodeBinaryArray_step t l enc :
  typeComplete t = true -> (4 * typeDepth t + 1 <= S n)%nat ->
  returns (encodeBinaryArray (S n) t l enc) = true.
Proof.
  destruct IH as (_ & _ & He & _). intros Ht Hd. cbn [encodeBinaryArray].
  case_match; [done|]. case_match; [done|].
  pose proof (glen_nonneg l). assert (1 <= arraySlotSize t) by (unfold arraySlotSize; case_match; lia).
  assert (Hn : (0 + glen l + 7) / 8 <= arrayNullBytes (glen l)) by (unfold arrayNullBytes; zlia).
  set (F := 4 + arrayNullBytes (glen l) + arraySlotSize t * glen l).
  assert (0 <= arraySlotSize t * glen l) by nia.
  assert (HF : 4 <= F <= align8 F) by (rewrite align8_eq; subst F; unfold arrayNullBytes in *; zlia).
  destruct (putLE_safe 4 (zeros (align8 F)) 0 (uint32 (glen l))) as [e Hp];
    [lia | rewrite glen_zeros; lia|].
  subst F. rewrite Hp. apply putLE_glen in Hp. rewrite glen_zeros in Hp by lia.
  cbn [mbind outcome_bind].
  apply encodeArrayLoop_returns; try lia.
  - intros. apply He; done || lia.
  - intros. by eapply writeArrayElement_glen.
  - zlia.
Qed.

Lemma encodeBinaryMap_step t v enc :
  dataTypeForLogicalType t = MapType -> typeComplete t = true ->
  (4 * typeDepth t <= S (S (S n)))%nat -> returns (encodeBinaryMap (S n) t v enc) = true.
Proof.
  destruct IH as (_ & _ & _ & Ha & _). intros Hk Ht Hd. cbn [encodeBinaryMap].
  destruct (typeComplete_map t Hk Ht) as (k & w & Ek & Ew & Hck & Hcw).
  apply typeDepth_key in Ek as Hdk. apply typeDepth_value in Ew as Hdw.
  case_match; [|done]. rewrite Ek, Ew. cbn [deref mbind outcome_bind].
  apply bind_returns; [apply Ha; [done|lia]|]. intros keys _.
  apply bind_returns; [apply Ha; [done|lia]|]. intros values _.
  apply bind_returns; [by apply putLE_returns | done].
Qed.

Lemma encodeRow_step s row enc :
  schemaComplete s = true -> (4 * schemaDepth s + 1 <= S n)%nat ->
  returns (encodeRow (S n) s row enc) = true.
Proof.
  destruct IH as (Hc & Hi & _). intros Hs Hd. cbn [encodeRow].
  apply bind_returns; [apply ValidateRow_returns|]. intros [] [_ Hf]%ValidateRow_all.
  rewrite rowHeaderBytes_eq. pose proof (variableColumns_nonneg enc (sch_Columns s)).
  pose proof (glen_nonneg (sch_Columns s)).
  apply encodeRowLoop_returns; try done; rewrite ?glen_zeros by zlia; try zlia.
  intros c v Hcol Hv. pose proof (schemaDepth_column s c Hcol). unfold schemaComplete in Hs.
  rewrite forallb_forall in Hs. specialize (Hs c ltac:(by apply list_elem_of_In)).
  destruct enc; [apply Hc | apply Hi]; done || lia.
Qed.

Lemma nested_encode_array t l enc :
  typeComplete t = true -> (4 * typeDepth t <= S (S n))%nat ->
  dataTypeForLogicalType t = ArrayType ->
  exists e, lt_Element t = Some e /\ returns (encodeBinaryArray n e l enc) = true.
Proof.
  destruct IH as (_ & _ & _ & Ha & _). intros Ht Hd Hk.
  destruct (typeComplete_element t Hk Ht) as (e & Ee & Hce).
  apply typeDepth_element in Ee as Hde. exists e. split; [done|]. apply Ha; [done|lia].
Qed.

Lemma nested_encode_map t v enc :
  typeComplete t = true -> (4 * typeDepth t <= S (S n))%nat ->
  dataTypeForLogicalType t = MapType -> returns (encodeBinaryMap n t v enc) = true.
Proof. destruct IH as (_ & _ & _ & _ & Hm & _). auto. Qed.

Lemma nested_encode_row t row enc :
  typeComplete t = true -> (4 * typeDepth t <= S (S n))%nat ->
  dataTypeForLogicalType t = RowType -> returns (encodeRow n (nestedSchema t) row enc) = true.
Proof.
  destruct IH as (_ & _ & _ & _ & _ & Hr). intros. pose proof (nestedSchema_depth t).
  apply Hr; [by apply typeComplete_row|lia].
Qed.

(** The scalar branches: the assertion succeeds on a validated value and the rest returns. *)
Ltac scalar_returns v :=
  destruct v; try done; cbn [asBool asInt8 asInt16 asInt32 asInt64 asFloat32 asFloat64 asString
    asBytes asTime asRat mbind outcome_bind];
  repeat match goal with
  | |- context [timestampParts ?k ?t] => destruct (timestampParts k t); cbv iota beta
  | |- returns (decimalUnscaled _ _ ≫= _) = true =>
      apply bind_returns; [apply decimalUnscaled_returns | intros ? _]
  | |- context [if ?b then _ else _] => destruct b
  end;
  first [ done | apply appendLengthBytes_returns | apply appendFixed_returns
        | apply putLE_returns; cbn; lia | apply set_index_returns; lia
        | apply appendPackedArrayBytes_returns; lia | apply appendArrayVariable_returns; lia
        | apply putLE_returns; [lia | rewrite appendLittle_le_split, glen_app by lia; glia] ].

Lemma appendCompactedValue_step t v dst :
  typeComplete t = true -> (4 * typeDepth t <= S (S n))%nat ->
  validUntypedValue (dataTypeForLogicalType t) v = true ->
  returns (appendCompactedValue (S n) dst t v) = true.
Proof.
  intros Ht Hd Hv. cbn [appendCompactedValue].
  destruct (dataTypeForLogicalType t) eqn:Ek; cbv iota; try done; try (scalar_returns v).
  - destruct v; try done. edestruct (nested_encode_array t) as (e & -> & Ha); try done.
    cbn [deref asArray mbind outcome_bind].
    apply bind_returns; [exact Ha|]. intros. apply appendLengthBytes_returns.
  - apply bind_returns; [by apply nested_encode_map|]. intros. apply appendLengthBytes_returns.
  - destruct v; try done. cbn [asRow mbind outcome_bind].
    apply bind_returns; [by apply nested_encode_row|]. intros. apply appendLengthBytes_returns.
Qed.

Lemma appendIndexedValue_step t v dst :
  typeComplete t = true -> (4 * typeDepth t <= S n)%nat ->
  validUntypedValue (dataTypeForLogicalType t) v = true ->
  returns (appendIndexedValue (S n) dst t v) = true.
Proof.
  intros Ht Hd Hv. cbn [appendIndexedValue]. pose proof Hv as Hv'.
  destruct (dataTypeForLogicalType t) eqn:Ek; cbv iota; try done; try (scalar_returns v);
    try (apply (proj1 IH); rewrite ?Ek; done || lia).
  - destruct v; try done. edestruct (nested_encode_array t) as (e & -> & Ha); [done|lia|done|].
    cbn [deref asArray mbind outcome_bind]. by apply bind_returns; [exact Ha|].
  - by apply bind_returns; [apply nested_encode_map; done || lia|].
  - destruct v; try done. cbn [asRow mbind outcome_bind].
    by apply bind_returns; [apply nested_encode_row; done || lia|].
Qed.

Lemma writeArrayElement_step t v encoded slot enc :
  typeComplete t = true -> (4 * typeDepth t <= S n)%nat ->
  validUntypedValue (dataTypeForLogicalType t) v = true ->
  0 <= slot -> slot + arraySlotSize t <= glen encoded ->
  returns (writeArrayElement (S n) encoded slot t v enc) = true.
Proof.
  intros Ht Hd Hv Hs Hl. cbn [writeArrayElement]. unfold arraySlotSize in Hl.
  destruct (dataTypeForLogicalType t) eqn:Ek; cbv iota; try done; try (scalar_returns v).
  - destruct v; try done. edestruct (nested_encode_array t) as (e & -> & Ha); [done|lia|done|].
    cbn [deref asArray mbind outcome_bind].
    apply bind_returns; [exact Ha|]. intros. by apply appendArrayVariable_returns.
  - apply bind_returns; [apply nested_encode_map; done || lia|]. intros.
    by apply appendArrayVariable_returns.
  - destruct v; try done. cbn [asRow mbind outcome_bind].
    apply bind_returns; [apply nested_encode_row; done || lia|]. intros.
    by apply appendArrayVariable_returns.
Qed.
End Step.

Lemma encoders_return n : encodersReturn n.
Proof.
  induction n as [|n IH].
  { unfold encodersReturn. split_and!; intros; try (pose proof (typeDepth_pos t)); lia. }
  split_and!.
  - by apply appendCompactedValue_step.
  - by apply appendIndexedValue_step.
  - by apply writeArrayElement_step.
  - by apply encodeBinaryArray_step.
  - by apply encodeBinaryMap_step.
  - by apply encodeRow_step.
Qed.

Lemma encodeRow_returns s row enc :
  forallb columnTyped (sch_Columns s) = true -> returns (encodeRow (schemaFuel s) s row enc) = true.
Proof.
  intros Ht. pose proof (Schema_Validate_returns s) as Hret. destruct (Schema_Validate s) eqn:Hv; try done.
  - pose proof (valid_schemaComplete s a Hv Ht) as Hs.
    destruct (encoders_return (schemaFuel s)) as (_ & _ & _ & _ & _ & Hr).
    apply Hr; [done|]. unfold schemaFuel. lia.
  - unfold schemaFuel. cbn [encodeRow]. unfold ValidateRow. by rewrite Hv.
Qed.

(** Encoding never panics and always terminates.  For every schema whose ARRAY and
    MAP columns carry a logical type, and for every row of values of any dynamic type,
    [EncodeCompactedRow] and [EncodeIndexedRow] return bytes or an error. *)
Theorem encode_row_returns (s : Schema) (row : Row) :
  forallb columnTyped (sch_Columns s) = true ->
  returns (EncodeCompactedRow s row) = true /\ returns (EncodeIndexedRow s row) = true.
Proof. intros Ht. split; by apply encodeRow_returns. Qed.

Lemma encode_row_returns_witness :
  returns (EncodeCompactedRow sampleSchema [VInt64 1; VInt8 2]) = true /\
  returns (EncodeIndexedRow sampleSchema [VInt64 1; VInt8 2]) = true.
Proof. apply (encode_row_returns sampleSchema [VInt64 1; VInt8 2]). reflexivity. Defined.

(** The hypothesis on the schema is needed: [Schema.Validate] accepts an ARRAY column
    without a logical type, and both directions then dereference its nil element type. *)
Definition untypedArraySchema : Schema :=
  MkSchema [MkColumn "tags" ArrayType false None "" 0] [] [] [] [] 0.

(** A schema that [Schema.Validate] accepts makes the codec panic: an ARRAY column
    declared without a [LogicalType] passes validation, and both encoding a row of it and
    decoding three bytes dereference the nil element type. *)
Theorem untyped_array_panics :
  Schema_Validate untypedArraySchema = Ok tt /\
  EncodeCompactedRow untypedArraySchema [VArray [VInt32 1]] = Panic /\
  DecodeCompactedRow untypedArraySchema [Byte.x00; Byte.x01; Byte.x00] = Panic.
Proof. split_and!; vm_compute; reflexivity. Qed.
