(* ===== verification/ArraySlots.v ===== *)
(** * Slots of a binary array

    A binary array has one fixed-width slot per element; a wide element is appended to the
    buffer and its slot holds where.  These lemmas say what one slot write changes and that
    any later buffer which keeps the slot and the appended bytes reads the element back. *)

From S2P Require Import Prelude Model Wire Values Codec DecodeSafety.

(** The bytes [i, j) of the buffer are still zero. *)
Definition zeroed (l : list byte) (i j : Z) : Prop :=
  forall k : nat, i <= Z.of_nat k < j -> l !! k = Some Byte.x00.

(** [l'] is [l] with the bytes [i, j) rewritten and possibly more bytes at the end. *)
Definition writes (l l' : list byte) (i j : Z) : Prop :=
  glen l <= glen l' /\ agree l l' 0 i /\ agree l l' j (glen l).

(** [read] gives [v] in any buffer that keeps the slot and the appended bytes of [l']. *)
Definition slotReads {A} (read : list byte -> outcome A) (l l' : list byte) (i j : Z) (v : A) : Prop :=
  forall final, agree l' final i j -> agree l' final (glen l) (glen l') ->
    glen l' <= glen final -> read final = Ok v.

Lemma writes_refl l i j : writes l l i j.
Proof. split; [lia|]. split; apply agree_refl. Qed.

Lemma writes_overwrite l l' off src j :
  overwrite l off src = Ok l' -> j = off + glen src -> writes l l' off j.
Proof.
  intros H ->. apply overwrite_glen in H as Hg. split; [lia|]. split.
  - by eapply overwrite_frame_l.
  - by eapply overwrite_frame_r.
Qed.

Lemma writes_putLE w l l' off v j :
  putLE w l off v = Ok l' -> j = off + Z.of_nat w -> writes l l' off j.
Proof. intros H ->. eapply writes_overwrite; [done|]. by rewrite glen_le_split. Qed.

Lemma writes_set_index l l' i a : set_index l i a = Ok l' -> writes l l' i (i + 1).
Proof.
  intros H. apply set_index_glen in H as Hg. split; [lia|].
  split; intros k Hk; eapply set_index_frame; eauto; lia.
Qed.

(** Appending first and then rewriting a slot of the old part. *)
Lemma writes_appended l m l' i j :
  i <= j <= glen l -> glen l <= glen m -> agree l m 0 (glen l) ->
  writes m l' i j -> writes l l' i j.
Proof.
  intros Hj Hg Ha (Hg' & H0 & H1). split; [lia|]. split; intros k Hk.
  - rewrite H0 by lia. apply Ha. lia.
  - rewrite H1 by lia. apply Ha. lia.
Qed.

Lemma slotReads_getLE w l l' slot v :
  putLE w l slot v = Ok l' ->
  slotReads (fun final => getLE w final slot) l l' slot (slot + Z.of_nat w)
    (uwrap (8 * Z.of_nat w) v).
Proof.
  intros H final Ha _ Hl. pose proof (putLE_get _ _ _ _ _ H) as Hr.
  eapply getLE_agree; [exact Ha | | exact Hr].
  unfold getLE in Hr. apply fmap_Ok in Hr as (s & (? & ? & _)%slice_Ok & _). lia.
Qed.

Lemma index_agree {A} (l l' : list A) i a :
  agree l l' i (i + 1) -> index l i = Ok a -> index l' i = Ok a.
Proof.
  intros Ha (Hi & Hl)%index_Ok. apply index_Ok. split; [done|]. rewrite Ha; [done|lia].
Qed.

Lemma slotReads_set_index l l' slot a :
  set_index l slot a = Ok l' ->
  slotReads (fun final => index final slot) l l' slot (slot + 1) a.
Proof.
  intros (Hr & ->)%set_index_Ok final Ha _ Hl. eapply index_agree; [exact Ha|].
  apply index_Ok. split; [lia|]. apply list_lookup_insert_eq. unfold glen in Hr. lia.
Qed.

(** ** Offset and size of a variable-width element *)

Lemma offsetSize_pack offset size :
  0 <= offset < 2 ^ 32 -> 0 <= size < 2 ^ 32 ->
  Z.lor (Z.shiftl (uint32 offset) 32) (uint32 size) = size + offset * 2 ^ 32.
Proof.
  intros Ho Hs. rewrite Z.lor_comm, !uwrap_small by (unfold urange; lia).
  apply lor_shiftl_disjoint; lia.
Qed.

Lemma slotReads_offsetSize l l' slot offset size :
  0 <= offset < 2 ^ 32 -> 0 <= size < 2 ^ 32 -> putOffsetSize l slot offset size = Ok l' ->
  slotReads (fun final => offsetSize final slot) l l' slot (slot + 8) (offset, size).
Proof.
  intros Ho Hs H final Ha Hb Hl. unfold putOffsetSize in H. rewrite offsetSize_pack in H by lia.
  unfold offsetSize. rewrite (slotReads_getLE 8 _ _ _ _ H final Ha Hb Hl).
  cbn [mbind outcome_bind]. change (8 * Z.of_nat 8) with 64. rewrite uwrap_small by (unfold urange; lia).
  rewrite Z.shiftr_div_pow2 by lia. unfold uwrap. do 2 f_equal.
  - rewrite Z.div_add by lia. rewrite Z.div_small; lia.
  - rewrite Z.mod_add by lia. apply Z.mod_small. lia.
Qed.

(** What [appendArrayVariable] does: one slot rewritten, the value readable through it. *)
Lemma appendArrayVariable_slot l slot value reserved l' :
  0 <= slot -> slot + 8 <= glen l <= maxRowBytes ->
  appendArrayVariable l slot value reserved = Ok l' ->
  writes l l' slot (slot + 8) /\
  slotReads (fun final => arrayVariable final slot) l l' slot (slot + 8) value /\
  slotReads (fun final => getLE 8 final slot) l l' slot (slot + 8) (glen value + glen l * 2 ^ 32) /\
  glen value <= maxRowBytes.
Proof.
  intros Hs Hl H. rewrite maxRowBytes_val in Hl. unfold appendArrayVariable in H.
  destruct (_ || _) eqn:Eb; [done|]. rewrite maxRowBytes_val in Eb.
  apply bind_Ok in H as (m & Hm & Hp). assert (0 <= reserved) by glia.
  assert (Hsz : 0 <= glen value < 2 ^ 32) by glia. assert (Ho : 0 <= glen l < 2 ^ 32) by lia.
  apply overwrite_glen in Hm as Hg. rewrite glen_app, glen_zeros in Hg by lia.
  apply putLE_glen in Hp as Hg'.
  pose proof (overwrite_frame_l _ _ _ _ (glen l) Hm ltac:(lia)) as Hf.
  assert (Hlm : agree l m 0 (glen l)).
  { intros k Hk. rewrite Hf by lia. apply lookup_app_l. unfold glen in Hk. lia. }
  pose proof (writes_putLE 8 _ _ _ _ (slot + 8) Hp eq_refl) as Hw. split_and!.
  - eapply writes_appended; [lia| |exact Hlm|exact Hw]. lia.
  - intros final Ha Hb Hfin. unfold arrayVariable.
    pose proof (slotReads_offsetSize _ _ _ _ _ Ho Hsz Hp) as Hos.
    rewrite (Hos final Ha); [|intros k Hk; apply Hb; lia | lia]. cbn [mbind outcome_bind].
    assert (Hv : slice m (glen l) (glen l + glen value) = Ok value)
      by (eapply overwrite_read; [exact Hm|done]).
    assert (Hv' : slice final (glen l) (glen l + glen value) = Ok value).
    { eapply slice_agree; [| |exact Hv]; [|lia]. intros k Hk.
      destruct Hw as (_ & _ & Hw). rewrite Hb by lia. apply Hw. lia. }
    unfold readFixed. rewrite Hv'. by if_false.
  - intros final Ha Hb Hfin. unfold putOffsetSize in Hp. rewrite offsetSize_pack in Hp by lia.
    rewrite (slotReads_getLE 8 _ _ _ _ Hp final Ha); [|intros k Hk; apply Hb; lia|lia].
    f_equal. change (8 * Z.of_nat 8) with 64. apply uwrap_small. unfold urange. lia.
  - rewrite maxRowBytes_val. lia.
Qed.

(** ** Short byte strings packed into their slot *)

Lemma packBytes_lor value : forall i h packed,
  packBytes i value (Z.lor h packed) = Z.lor h (packBytes i value packed).
Proof.
  induction value as [|b value IH]; intros i h packed; cbn; [done|].
  by rewrite <- Z.lor_assoc, IH.
Qed.

Lemma packBytes_value value : forall i packed,
  0 <= i -> 0 <= packed < 2 ^ (8 * i) ->
  packBytes i value packed = packed + le_combine value * 2 ^ (8 * i).
Proof.
  induction value as [|b value IH]; intros i packed Hi Hp; cbn [packBytes].
  { change (le_combine []) with 0. lia. }
  pose proof (byte.unsigned_range b) as Hb. pose proof (le_combine_bound value) as [Hc _].
  assert (E : 2 ^ (8 * (i + 1)) = 2 ^ (8 * i) * 256)
    by (replace (8 * (i + 1)) with (8 * i + 8) by lia; by rewrite Z.pow_add_r by lia).
  rewrite lor_shiftl_disjoint by lia. rewrite IH by nia. rewrite E.
  change (le_combine (b :: value)) with (Z.lor (byte.unsigned b) (Z.shiftl (le_combine value) 8)).
  replace (Z.lor (byte.unsigned b) (Z.shiftl (le_combine value) 8))
    with (byte.unsigned b + le_combine value * 2 ^ 8) by (symmetry; apply lor_shiftl_disjoint; lia).
  lia.
Qed.

Lemma packBytes_packed value :
  glen value <= 7 ->
  packBytes 0 value (Z.shiftl (Z.lor (glen value) 128) 56) =
  le_combine value + (glen value + 128) * 2 ^ 56 /\ le_combine value < 2 ^ (8 * glen value).
Proof.
  intros Hl. pose proof (glen_nonneg value). pose proof (le_combine_bound value) as Hc.
  change (Z.of_nat (length value)) with (glen value) in Hc. split; [|lia].
  rewrite <- (Z.lor_0_r (Z.shiftl _ _)), packBytes_lor, packBytes_value by lia.
  rewrite Z.lor_comm, lor_128 by lia. rewrite Z.mod_small by lia.
  change (8 * 0) with 0. rewrite Z.mul_1_r.
  pose proof (Z.pow_le_mono_r 2 (8 * glen value) 56 ltac:(lia) ltac:(lia)).
  apply lor_shiftl_disjoint; lia.
Qed.

Lemma unpack_split packed m : forall k, 0 <= k ->
  map (fun i => byte.of_Z (Z.shiftr packed (8 * i))) (seqZ k (Z.of_nat m)) =
  le_split m (Z.shiftr packed (8 * k)).
Proof.
  induction m as [|m IH]; intros k Hk; [done|].
  rewrite seqZ_cons by lia. cbn [map]. replace (Z.pred (Z.of_nat (S m))) with (Z.of_nat m) by lia.
  rewrite IH by lia. rewrite le_split_S. do 2 f_equal.
  rewrite Z.shiftr_shiftr by lia. f_equal. lia.
Qed.

(** [appendPackedArrayBytes] and [unpackedArrayBytes]. *)
Lemma appendPackedArrayBytes_slot l slot value l' :
  0 <= slot -> slot + 8 <= glen l <= maxRowBytes ->
  appendPackedArrayBytes l slot value = Ok l' ->
  writes l l' slot (slot + 8) /\
  slotReads (fun final => unpackedArrayBytes final slot) l l' slot (slot + 8) value.
Proof.
  intros Hs Hl. unfold appendPackedArrayBytes. destruct (Z.leb_spec (glen value) 7) as [H7|_]; intros H.
  - split; [by apply (writes_putLE 8 _ _ _ _ _ H)|]. intros final Ha Hb Hf.
    unfold unpackedArrayBytes. rewrite (slotReads_getLE 8 _ _ _ _ H final Ha Hb Hf).
    destruct (packBytes_packed value H7) as [-> Hc]. pose proof (glen_nonneg value).
    pose proof (le_combine_bound value) as [Hc0 _].
    pose proof (Z.pow_le_mono_r 2 (8 * glen value) 56 ltac:(lia) ltac:(lia)).
    change (8 * Z.of_nat 8) with 64. rewrite uwrap_small by (unfold urange; lia). cbn [mbind outcome_bind].
    set (P := le_combine value + (glen value + 128) * 2 ^ 56).
    assert (E63 : Z.shiftr P 63 = 1).
    { rewrite Z.shiftr_div_pow2 by lia. symmetry. apply Z.div_unique with (P - 2 ^ 63); lia. }
    assert (E56 : Z.shiftr P 56 = glen value + 128).
    { rewrite Z.shiftr_div_pow2 by lia. symmetry. apply Z.div_unique with (le_combine value); lia. }
    rewrite E63, E56, land_127. replace ((glen value + 128) mod 128) with (glen value) by zlia.
    cbn [negb Z.eqb]. destruct (Z.ltb_spec 7 (glen value)); [lia|]. f_equal.
    unfold glen. rewrite unpack_split by lia. change (8 * 0) with 0. rewrite Z.shiftr_0_r.
    rewrite le_split_mod. transitivity (le_split (length value) (le_combine value));
      [|apply split_le_combine].
    f_equal. subst P. change (Z.of_nat (length value)) with (glen value).
    replace (2 ^ 56) with (2 ^ (56 - glen value * 8) * 2 ^ (glen value * 8))
      by (rewrite <- Z.pow_add_r by lia; f_equal; lia).
    rewrite Z.mul_assoc, Z.mod_add by lia. apply Z.mod_small. rewrite Z.mul_comm. lia.
  - apply appendArrayVariable_slot in H as (Hw & Hv & Hg & Hm); [|done..]. split; [done|].
    intros final Ha Hb Hf. unfold unpackedArrayBytes. rewrite (Hg final Ha Hb Hf).
    cbn [mbind outcome_bind]. rewrite maxRowBytes_val in Hl, Hm. pose proof (glen_nonneg value).
    replace (Z.shiftr _ 63) with 0; [by apply Hv|]. symmetry.
    rewrite Z.shiftr_div_pow2 by lia. apply Z.div_small. lia.
Qed.
