(* ===== verification/Roundtrip.v ===== *)
(** * Encoding and then decoding gives the row back

    What the encoders write, the decoders read: for compacted and indexed rows, at every
    nesting of rows, arrays and maps.  The value that comes back is [retain]: the value
    itself except where the format keeps less than Go's value carries (the zone of a time,
    the digits below a timestamp's precision, the trailing zero bytes of an indexed
    CHAR/BINARY, the Go map that becomes an ordered [Map]). *)

From S2P Require Import Prelude Model Wire Values Codec DecodeSafety ArraySlots.

(** ** What a column retains of a value *)

Definition trimmed (t : LogicalType) (enc : rowEncoding) (inRow : bool) : bool :=
  inRow && bool_decide (enc = indexedEncoding) && indexedFixed t.

Fixpoint retain (enc : rowEncoding) (inRow : bool) (t : LogicalType) (v : GoValue) {struct t}
    : GoValue :=
  let 'MkLogicalType _ _ _ precision _ element key value fields := t in
  let kind := dataTypeForLogicalType t in
  match v with
  | VTime x =>
    match kind with
    | DateType => VTime (normDate x)
    | TimeType => VTime (normTime x)
    | _ => VTime (normTimestamp kind precision x)
    end
  | VString s => if trimmed t enc inRow then VString (stringOf (trimZero (bytesOf s))) else v
  | VBytes bs => if trimmed t enc inRow then VBytes (trimZero bs) else v
  | VArray l => match element with Some e => VArray (map (retain enc false e) l) | None => v end
  | VMap _ | VGoMap _ =>
    match mapEntries v, key, value with
    | Some entries, Some k, Some w =>
      VMap (map (fun e => (retain enc false k e.1, retain enc false w e.2)) entries)
    | _, _, _ => v
    end
  | VRow row =>
    VRow ((fix go fields row :=
             match fields, row with
             | MkLogicalField _ ty _ _ :: fields, value :: row =>
               retain enc true ty value :: go fields row
             | _, _ => []
             end) fields row)
  | _ => v
  end.

Definition retainRow (enc : rowEncoding) (columns : list Column) (row : Row) : Row :=
  zip_with (fun c => retain enc true (logicalTypeForColumn c)) columns row.

(** Go's own bounds on a value: integers and float bits in their width, an instant whose
    civil date fits the 32-bit day number, a [big.Rat] in lowest terms. *)
Fixpoint wfValue (v : GoValue) : bool :=
  match v with
  | VInt8 z => srange 8 z
  | VInt16 z => srange 16 z
  | VInt32 z => srange 32 z
  | VInt64 z => srange 64 z
  | VFloat32 bits => urange 32 bits
  | VFloat64 bits => urange 64 bits
  | VTime t => wfTime t
  | VRat q => bool_decide (Qnum (Qred q) = Qnum q) && bool_decide (Qden (Qred q) = Qden q)
  | VArray l => forallb wfValue l
  | VMap entries => forallb (fun e => let '(k, w) := e in wfValue k && wfValue w) entries
  | VGoMap entries => forallb (fun e => let '(_, w) := e in wfValue w) entries
  | VRow row => forallb wfValue row
  | _ => true
  end.

Lemma stringOf_bytesOf s : stringOf (bytesOf s) = s.
Proof. apply String.string_of_list_byte_of_string. Qed.

Lemma wfRat q : wfValue (VRat q) = true -> Qred q = q.
Proof.
  cbn [wfValue]. rewrite andb_true_iff, !bool_decide_eq_true. intros [H1 H2].
  destruct (Qred q), q; cbn in *; congruence.
Qed.

Lemma sortEntries_in {A} (e : string * A) l : In e (sortEntries l) -> In e l.
Proof.
  assert (Hi : forall x l, In e (insertEntry x l) -> e = x \/ In e l).
  { intros x l'. induction l' as [|y l' IH]; cbn; [intuition|].
    case_match; cbn; intuition. }
  induction l as [|x l IH]; cbn; [done|]. intros [->|H]%Hi; auto.
Qed.

(** Every key and value of a map entry list is as well formed as the map. *)
Lemma wfEntries v entries :
  wfValue v = true -> mapEntries v = Some entries ->
  forallb wfValue (map fst entries) = true /\ forallb wfValue (map snd entries) = true.
Proof.
  intros Hw Hm. rewrite !forallb_forall. destruct v; try done; cbn in Hm; simplify_eq;
    cbn [wfValue] in Hw; rewrite forallb_forall in Hw.
  - split; intros x ([k w] & <- & Hin)%in_map_iff; specialize (Hw _ Hin); cbn in *;
      by destruct (wfValue k).
  - split; rewrite map_map; intros x ([k w] & <- & Hin)%in_map_iff; cbn; [done|].
    apply sortEntries_in in Hin. by specialize (Hw _ Hin).
Qed.

(** ** [retain], by kind *)

Lemma retain_time enc inRow t x :
  retain enc inRow t (VTime x) =
  match dataTypeForLogicalType t with
  | DateType => VTime (normDate x)
  | TimeType => VTime (normTime x)
  | _ => VTime (normTimestamp (dataTypeForLogicalType t) (lt_Precision t) x)
  end.
Proof. by destruct t. Qed.

Lemma retain_string enc inRow t s :
  retain enc inRow t (VString s) =
  if trimmed t enc inRow then VString (stringOf (trimZero (bytesOf s))) else VString s.
Proof. by destruct t. Qed.

Lemma retain_bytes enc inRow t bs :
  retain enc inRow t (VBytes bs) =
  if trimmed t enc inRow then VBytes (trimZero bs) else VBytes bs.
Proof. by destruct t. Qed.

Lemma retain_array enc inRow t e l :
  lt_Element t = Some e -> retain enc inRow t (VArray l) = VArray (map (retain enc false e) l).
Proof. destruct t. cbn. by intros ->. Qed.

Lemma retain_map enc inRow t v k w entries :
  lt_Key t = Some k -> lt_Value t = Some w -> mapEntries v = Some entries ->
  retain enc inRow t v =
  VMap (zip (map (retain enc false k) (map fst entries)) (map (retain enc false w) (map snd entries))).
Proof.
  destruct t. cbn. intros -> -> Hm.
  assert (Hz : forall l : list (GoValue * GoValue),
    map (fun e => (retain enc false k e.1, retain enc false w e.2)) l =
    zip (map (retain enc false k) (map fst l)) (map (retain enc false w) (map snd l))).
  { induction l as [|[a b] l IH]; cbn; [done|]. by rewrite IH. }
  destruct v; try done; cbn in Hm; simplify_eq; cbn [mapEntries]; by rewrite Hz.
Qed.

Lemma retain_row enc inRow t row :
  retain enc inRow t (VRow row) = VRow (retainRow enc (sch_Columns (nestedSchema t)) row).
Proof.
  destruct t as [? ? ? ? ? ? ? ? fields]. unfold nestedSchema, retainRow. cbn. f_equal.
  revert row. induction fields as [|[name ty d i] fields IH]; intros [|v row]; cbn; try done.
  by rewrite IH.
Qed.

Lemma retain_nil enc inRow t : retain enc inRow t VNil = VNil.
Proof. by destruct t. Qed.

Lemma retain_id enc inRow t v :
  match v with
  | VBool _ | VInt8 _ | VInt16 _ | VInt32 _ | VInt64 _ | VFloat32 _ | VFloat64 _ | VRat _ => true
  | _ => false
  end = true -> retain enc inRow t v = v.
Proof. by destruct t, v. Qed.

(** ** Values in a stream

    [readsBack b read v]: wherever the bytes [b] stand, [read] gives [v] and moves past them. *)
Definition readsBack (b : list byte) (read : list byte -> Z -> outcome (GoValue * Z))
    (v : GoValue) : Prop :=
  forall p s, read (p ++ b ++ s) (glen p) = Ok (v, glen p + glen b).

Lemma getLE_head w z s : getLE w (le_split w z ++ s) 0 = Ok (uwrap (8 * Z.of_nat w) z).
Proof. exact (getLE_app w [] s z 0 eq_refl). Qed.

Lemma getLE_self w z : getLE w (le_split w z) 0 = Ok (uwrap (8 * Z.of_nat w) z).
Proof. rewrite <- (app_nil_r (le_split w z)). apply getLE_head. Qed.

Lemma le_combine_getLE w v l off : getLE w l off = Ok v -> urange (8 * Z.of_nat w) v = true.
Proof. intros H%getLE_range. unfold urange. lia. Qed.

Lemma int32_uint32 z : srange 32 z = true -> int32 (uint32 z) = z.
Proof. by apply swrap_uwrap_small. Qed.
Lemma int64_uint64 z : srange 64 z = true -> int64 (uint64 z) = z.
Proof. by apply swrap_uwrap_small. Qed.

Lemma uint32_range z : 0 <= uint32 z < 2 ^ 32.
Proof. by apply uwrap_range. Qed.
Lemma uint64_range z : 0 <= uint64 z < 2 ^ 64.
Proof. by apply uwrap_range. Qed.

Lemma decimal_int64 q t u : wfValue (VRat q) = true -> decimalUnscaled q t = Ok u ->
  lt_Precision t <= 18 -> int64 (uint64 (int64 u)) = u.
Proof.
  intros Hw%wfRat Hd Hp. apply decimalUnscaled_round in Hd as (_ & Hu & H1); [|done].
  assert (srange 64 u = true).
  { pose proof (Z.pow_le_mono_r 10 (lt_Precision t) 18). unfold srange. lia. }
  rewrite (swrap_small 64 u) by done. by apply int64_uint64.
Qed.

(** *** The readers, each against what its writer emits *)

Lemma readVar32_round z p s :
  readVar (p ++ appendVar32 [] (uint32 z) ++ s) (glen p) 5 =
  Ok (uint32 z, glen p + glen (appendVar32 [] (uint32 z))).
Proof. pose proof (uint32_range z). apply readVar_round; [done|lia|lia|lia]. Qed.

Lemma readVar64_round z p s :
  readVar (p ++ appendVar64 [] (uint64 z) ++ s) (glen p) 10 =
  Ok (uint64 z, glen p + glen (appendVar64 [] (uint64 z))).
Proof. pose proof (uint64_range z). apply readVar_round; [done|lia|lia|lia]. Qed.

Lemma timestamp_decoded t x :
  wfTime x = true ->
  dataTypeForLogicalType t = TimestampType \/ dataTypeForLogicalType t = TimestampLTZType ->
  VTime (timestampTime (dataTypeForLogicalType t) (timestampParts (dataTypeForLogicalType t) x).1
           (if 3 <? lt_Precision t then (timestampParts (dataTypeForLogicalType t) x).2 else 0))
  = VTime (normTimestamp (dataTypeForLogicalType t) (lt_Precision t) x).
Proof.
  intros Hx Hk. destruct (3 <? lt_Precision t) eqn:E.
  - rewrite timestampTime_round by done. unfold normTimestamp. by rewrite E.
  - rewrite timestampTime_round_millis by done. unfold normTimestamp. by rewrite E.
Qed.

Lemma temporal_round kind x : wfTime x = true ->
  temporalTime kind (int32 (uint32 (temporalInt kind x))) =
  match kind with DateType => normDate x | _ => normTime x end.
Proof.
  intros Hx. rewrite int32_uint32 by apply temporalInt_range. by apply temporalTime_round.
Qed.

Lemma nanos_small n : 0 <= n <= 999999 -> uint32 n = n /\ int32 n = n /\ int32 (uint32 n) = n.
Proof.
  intros. assert (uint32 n = n) as E by (apply uwrap_small; unfold urange; lia).
  rewrite E. assert (int32 n = n) by (apply swrap_small; [lia|]; unfold srange; lia). auto.
Qed.

Lemma compacted_timestamp t x p s :
  wfTime x = true ->
  dataTypeForLogicalType t = TimestampType \/ dataTypeForLogicalType t = TimestampLTZType ->
  let '(millis, nanos) := timestampParts (dataTypeForLogicalType t) x in
  let b := if 3 <? lt_Precision t
           then appendVar32 (appendVar64 [] (uint64 millis)) (uint32 nanos)
           else appendVar64 [] (uint64 millis) in
  readCompactedTimestamp (p ++ b ++ s) (glen p) t =
  Ok (VTime (normTimestamp (dataTypeForLogicalType t) (lt_Precision t) x), glen p + glen b).
Proof.
  intros Hx Hk. pose proof (timestampParts_range (dataTypeForLogicalType t) x Hx) as [Hm Hn].
  pose proof (timestamp_decoded t x Hx Hk) as Hd.
  destruct (timestampParts (dataTypeForLogicalType t) x) as [millis nanos]. cbn [fst snd] in *.
  destruct (nanos_small nanos Hn) as (E1 & E2 & E3). rewrite <- Hd. clear Hd.
  unfold readCompactedTimestamp. destruct (3 <? lt_Precision t); cbv zeta.
  - unfold appendVar32. rewrite (appendVar64_app (appendVar64 [] _)). rewrite <- !app_assoc.
    rewrite readVar64_round. cbn [mbind outcome_bind].
    rewrite app_assoc. rewrite <- glen_app. fold (appendVar32 [] (uint32 nanos)).
    rewrite readVar32_round. cbn [rewrap mbind outcome_bind]. rewrite E1.
    destruct (Z.ltb_spec 999999 nanos); [lia|]. cbn [mbind outcome_bind].
    rewrite E2, int64_uint64 by done. rewrite !glen_app. do 2 f_equal. lia.
  - rewrite readVar64_round. cbn [mbind outcome_bind]. rewrite int64_uint64 by done. done.
Qed.

Lemma compacted_decimal t q u b p s :
  wfValue (VRat q) = true -> decimalUnscaled q t = Ok u ->
  (if lt_Precision t <=? 18 then Ok (appendVar64 [] (uint64 (int64 u)))
   else appendLengthBytes [] (signedBigEndian u)) = Ok b ->
  readCompactedDecimal (p ++ b ++ s) (glen p) t = Ok (VRat q, glen p + glen b).
Proof.
  intros Hw Hd Hb. pose proof (wfRat q Hw) as Hq.
  apply decimalUnscaled_round in Hd as Hr; [|done]. destruct Hr as (Hr & _).
  unfold readCompactedDecimal. destruct (Z.leb_spec (lt_Precision t) 18).
  - injection Hb as <-. rewrite readVar64_round. cbn [mbind outcome_bind].
    erewrite decimal_int64 by done. by rewrite Hr.
  - rewrite (readLengthBytes_round p s (signedBigEndian u)) by done. cbn [mbind outcome_bind].
    by rewrite signedBigInt_round, Hr.
Qed.

(** ** The statement carried through the recursion *)

Definition codecsAgree (n : nat) : Prop :=
  (forall t v b, wfValue v = true -> appendCompactedValue n [] t v = Ok b ->
     readsBack b (fun e p => readCompactedValue n e p t) (retain compactedEncoding true t v)) /\
  (forall t v b, wfValue v = true -> appendIndexedValue n [] t v = Ok b -> glen b <= maxRowBytes ->
     readsBack b (fun e p => readIndexedValue n e p t (if indexedFixed t then -1 else glen b))
       (retain indexedEncoding true t v)) /\
  (forall t v enc encoded slot r, wfValue v = true ->
     0 <= slot -> slot + arraySlotSize t <= glen encoded <= maxRowBytes ->
     zeroed encoded slot (slot + arraySlotSize t) ->
     writeArrayElement n encoded slot t v enc = Ok r ->
     writes encoded r slot (slot + arraySlotSize t) /\
     slotReads (fun final => readArrayElement n final slot t enc) encoded r
       slot (slot + arraySlotSize t) (retain enc false t v)) /\
  (forall t l enc b, forallb wfValue l = true -> encodeBinaryArray n t l enc = Ok b ->
     glen b <= maxRowBytes /\ decodeBinaryArray n t b enc = Ok (map (retain enc false t) l)) /\
  (forall t v enc inRow b, wfValue v = true -> encodeBinaryMap n t v enc = Ok b ->
     exists m, decodeBinaryMap n t b enc = Ok m /\ retain enc inRow t v = VMap m) /\
  (forall s row enc b, forallb wfValue row = true -> encodeRow n s row enc = Ok b ->
     glen b <= maxRowBytes -> decodeRow n s b enc = Ok (retainRow enc (sch_Columns s) row)).

(** Inverts the type assertion that succeeded. *)
Ltac inv_as v :=
  destruct v; try discriminate;
  cbn [asBool asInt8 asInt16 asInt32 asInt64 asFloat32 asFloat64 asString asBytes asTime asRat
       asArray asRow] in *; simplify_eq.

Lemma appendLengthBytes_max v b : appendLengthBytes [] v = Ok b -> glen v <= maxRowBytes.
Proof. unfold appendLengthBytes. case_match; [done|]. lia. Qed.

(** *** Fixed-width scalars *)

Lemma readFixed_le_split p w z s k :
  k = Z.of_nat w -> readFixed (p ++ le_split w z ++ s) (glen p) k = Ok (le_split w z, glen p + k).
Proof. intros ->. rewrite readFixed_app by glia. by rewrite glen_le_split. Qed.

Lemma byte_of_int8 z : srange 8 z = true -> int8 (byte.unsigned (byte.of_Z z)) = z.
Proof.
  intros. rewrite byte.unsigned_of_Z. change (byte.wrap z) with (uint8 z).
  by apply swrap_uwrap_small.
Qed.

Lemma index_singleton {A} (a : A) : index [a] 0 = Ok a.
Proof. done. Qed.

Lemma compacted_fixed n t v b :
  compactedFixedWidth (dataTypeForLogicalType t) = true ->
  wfValue v = true -> appendCompactedValue (S n) [] t v = Ok b ->
  readsBack b (fun e p => readCompactedValue (S n) e p t) v.
Proof.
  intros Hk Hw H p s. cbn [appendCompactedValue readCompactedValue] in *. rewrite Hk.
  destruct (dataTypeForLogicalType t); try discriminate; cbv iota in H; inv_ok; inv_as v;
    cbn [readCompactedFixed wfValue] in *; rewrite ?appendLittle_le_split, ?app_nil_l by lia.
  - rename select bool into bit. by destruct bit; rewrite readFixed_app by done.
  - rewrite readFixed_app by done. cbn [mbind outcome_bind]. rewrite index_singleton.
    cbn [mbind outcome_bind]. by rewrite byte_of_int8.
  - rewrite readFixed_le_split by done. cbn [mbind outcome_bind]. rewrite getLE_self.
    cbn [mbind outcome_bind]. rewrite (uwrap_wider 16 16) by lia.
    rewrite swrap_uwrap_small by done. by rewrite glen_le_split.
  - rewrite readFixed_le_split by done. cbn [mbind outcome_bind]. rewrite getLE_self.
    cbn [mbind outcome_bind]. rewrite uwrap_small by done. by rewrite glen_le_split.
  - rewrite readFixed_le_split by done. cbn [mbind outcome_bind]. rewrite getLE_self.
    cbn [mbind outcome_bind]. rewrite uwrap_small by done. by rewrite glen_le_split.
Qed.

Lemma fixed_retain n t v b :
  compactedFixedWidth (dataTypeForLogicalType t) = true -> appendCompactedValue n [] t v = Ok b ->
  forall enc inRow, retain enc inRow t v = v.
Proof.
  destruct n as [|n]; [done|]. cbn [appendCompactedValue]. intros Hk H enc inRow.
  apply retain_id. by destruct (dataTypeForLogicalType t), v.
Qed.

Lemma trimmed_compacted t inRow : trimmed t compactedEncoding inRow = false.
Proof. unfold trimmed. by destruct inRow. Qed.
Lemma trimmed_array t enc : trimmed t enc false = false.
Proof. done. Qed.

(** A kind with an encoding has a root. *)
Lemma lt_Root_nonempty t :
  (match dataTypeForLogicalType t with OtherType _ => false | _ => true end) = true ->
  bool_decide (lt_Root t = ""%string) = false.
Proof.
  intros H. apply bool_decide_eq_false. intros E. unfold dataTypeForLogicalType in H.
  rewrite E in H. by vm_compute in H.
Qed.

Lemma indexedFixed_eq t :
  indexedFixed t =
  match dataTypeForLogicalType t with
  | BoolType | TinyIntType | SmallIntType | IntType | BigIntType | FloatType | DoubleType
  | DateType | TimeType | TimestampType | TimestampLTZType => true
  | CharType | BinaryType => 0 <? lt_Length t
  | DecimalType => (0 <? lt_Precision t) && (lt_Precision t <=? 18)
  | _ => false
  end.
Proof.
  pose proof (lt_Root_nonempty t) as Hr. unfold indexedFixed.
  destruct (dataTypeForLogicalType t); try done; rewrite Hr by done; cbn; lia || by destruct (0 <? lt_Length t).
Qed.

(** The induction step, one lemma per pair of functions. *)
Section Step.
Variable n : nat.
Hypothesis IH : codecsAgree n.

Lemma nested_array t e l enc b :
  lt_Element t = Some e -> forallb wfValue l = true -> encodeBinaryArray n e l enc = Ok b ->
  forall inRow, exists r, decodeBinaryArray n e b enc = Ok r /\ retain enc inRow t (VArray l) = VArray r.
Proof.
  destruct IH as (_ & _ & _ & Ha & _). intros He Hl Hb inRow.
  destruct (Ha e l enc b Hl Hb) as [_ Hd]. eexists. split; [exact Hd|]. by apply retain_array.
Qed.

Lemma nested_map t v enc b :
  wfValue v = true -> encodeBinaryMap n t v enc = Ok b ->
  forall inRow, exists m, decodeBinaryMap n t b enc = Ok m /\ retain enc inRow t v = VMap m.
Proof. destruct IH as (_ & _ & _ & _ & Hm & _). intros. by apply Hm. Qed.

Lemma nested_row t row enc b :
  forallb wfValue row = true -> encodeRow n (nestedSchema t) row enc = Ok b -> glen b <= maxRowBytes ->
  forall inRow, exists r, decodeRow n (nestedSchema t) b enc = Ok r /\ retain enc inRow t (VRow row) = VRow r.
Proof.
  destruct IH as (_ & _ & _ & _ & _ & Hr). intros Hw Hb Hl inRow. eexists.
  split; [by apply Hr|]. apply retain_row.
Qed.

Lemma compacted_step t v b :
  wfValue v = true -> appendCompactedValue (S n) [] t v = Ok b ->
  readsBack b (fun e p => readCompactedValue (S n) e p t) (retain compactedEncoding true t v).
Proof.
  intros Hw H. destruct (compactedFixedWidth (dataTypeForLogicalType t)) eqn:Hf.
  { rewrite (fixed_retain (S n) t v b) by done. by apply compacted_fixed. }
  intros p s. cbn [appendCompactedValue readCompactedValue] in *. rewrite Hf.
  destruct (dataTypeForLogicalType t) eqn:Ek; try discriminate; cbv iota in *; inv_ok.
  - inv_as v. rewrite (readLengthBytes_round p s _ b) by done. cbn [mbind outcome_bind].
    by rewrite stringOf_bytesOf, retain_string, trimmed_compacted.
  - inv_as v. rewrite readVar32_round. cbn [mbind outcome_bind].
    by rewrite int32_uint32, retain_id by done.
  - inv_as v. rewrite readVar64_round. cbn [mbind outcome_bind].
    by rewrite int64_uint64, retain_id by done.
  - inv_as v. rewrite (readLengthBytes_round p s _ b) by done. cbn [mbind outcome_bind].
    by rewrite stringOf_bytesOf, retain_string, trimmed_compacted.
  - inv_as v. rewrite (readLengthBytes_round p s _ b) by done. cbn [mbind outcome_bind].
    by rewrite retain_bytes, trimmed_compacted.
  - inv_as v. rewrite (readLengthBytes_round p s _ b) by done. cbn [mbind outcome_bind].
    by rewrite retain_bytes, trimmed_compacted.
  - inv_as v. rewrite retain_id by done. by eapply compacted_decimal.
  - inv_as v. rewrite readVar32_round. cbn [mbind outcome_bind]. rewrite retain_time, Ek.
    exact (f_equal (fun r => Ok (VTime r, _)) (temporal_round DateType _ Hw)).
  - inv_as v. rewrite readVar32_round. cbn [mbind outcome_bind]. rewrite retain_time, Ek.
    exact (f_equal (fun r => Ok (VTime r, _)) (temporal_round TimeType _ Hw)).
  - inv_as v. rewrite retain_time, Ek. pose proof (compacted_timestamp t x p s Hw) as Ht.
    rewrite Ek in Ht. destruct (timestampParts _ _). inv_ok. by apply Ht; left.
  - inv_as v. rewrite retain_time, Ek. pose proof (compacted_timestamp t x p s Hw) as Ht.
    rewrite Ek in Ht. destruct (timestampParts _ _). inv_ok. by apply Ht; right.
  - inv_as v. destruct (lt_Element t) as [e|] eqn:Ee; cbn [deref] in *; simplify_eq.
    rename select (encodeBinaryArray _ _ _ _ = _) into Ha.
    rewrite (readLengthBytes_round p s _ b) by done. cbn [mbind outcome_bind].
    destruct (nested_array t _ _ _ _ Ee Hw Ha true) as (r & -> & ->). done.
  - rename select (encodeBinaryMap _ _ _ _ = _) into Ha.
    rewrite (readLengthBytes_round p s _ b) by done. cbn [mbind outcome_bind].
    destruct (nested_map t _ _ _ Hw Ha true) as (r & -> & ->). done.
  - inv_as v. rename select (encodeRow _ _ _ _ = _) into Ha.
    rewrite (readLengthBytes_round p s _ b) by done. cbn [mbind outcome_bind].
    rename select (appendLengthBytes _ _ = _) into Hl. apply appendLengthBytes_max in Hl.
    destruct (nested_row t _ _ _ Hw Ha Hl true) as (r & -> & ->). done.
Qed.

Lemma indexed_timestamp t x b p s :
  wfTime x = true ->
  dataTypeForLogicalType t = TimestampType \/ dataTypeForLogicalType t = TimestampLTZType ->
  (let '(millis, nanos) := timestampParts (dataTypeForLogicalType t) x in
   let dst := appendLittle [] (uint64 millis) 8 in
   if 3 <? lt_Precision t then appendLittle dst (uint32 nanos) 4 else dst) = b ->
  readIndexedTimestamp (p ++ b ++ s) (glen p) t =
  Ok (VTime (normTimestamp (dataTypeForLogicalType t) (lt_Precision t) x), glen p + glen b).
Proof.
  intros Hx Hk Hb. pose proof (timestampParts_range (dataTypeForLogicalType t) x Hx) as [Hm Hn].
  pose proof (timestamp_decoded t x Hx Hk) as Hd. unfold readIndexedTimestamp, indexedLength.
  destruct (timestampParts (dataTypeForLogicalType t) x) as [millis nanos]. cbn [fst snd] in *.
  destruct (nanos_small nanos Hn) as (E1 & E2 & E3). rewrite <- Hd. clear Hd.
  replace (match dataTypeForLogicalType t with BoolType | _ => _ end)
    with (if 3 <? lt_Precision t then 12 else 8) by (by destruct Hk as [-> | ->]).
  rewrite !appendLittle_le_split in Hb by lia. rewrite !app_nil_l in Hb.
  destruct (3 <? lt_Precision t); subst b.
  - rewrite readFixed_app by glia. cbn [mbind outcome_bind].
    rewrite <- (app_nil_r (le_split 4 _)) at 1. rewrite getLE_app by glia.
    cbn [mbind outcome_bind].
    change (uint32 nanos mod 2 ^ (8 * Z.of_nat 4)) with (uint32 (uint32 nanos)).
    rewrite !E1, E2. destruct (Z.ltb_spec 999999 nanos); [lia|]. cbn [mbind outcome_bind].
    rewrite getLE_head. cbn [mbind outcome_bind].
    change (8 * Z.of_nat 8) with 64.
    rewrite (uwrap_wider 64 64), int64_uint64 by (done || lia). done.
  - rewrite readFixed_le_split by done. cbn [mbind outcome_bind]. rewrite getLE_self.
    cbn [mbind outcome_bind]. change (8 * Z.of_nat 8) with 64.
    rewrite (uwrap_wider 64 64), int64_uint64 by (done || lia). by rewrite glen_le_split.
Qed.

Lemma indexed_fixed t v b p s :
  compactedFixedWidth (dataTypeForLogicalType t) = true ->
  wfValue v = true -> appendCompactedValue n [] t v = Ok b ->
  readCompactedValue n (p ++ b ++ s) (glen p) t =
  Ok (retain indexedEncoding true t v, glen p + glen b).
Proof.
  destruct IH as (Hc & _). intros Hf Hw H. pose proof (Hc t v b Hw H p s) as Hr. cbn in Hr.
  pose proof (fixed_retain _ _ _ _ Hf H) as He. rewrite He in *. done.
Qed.

Lemma readFixed_all p b s : readFixed (p ++ b ++ s) (glen p) (glen b) = Ok (b, glen p + glen b).
Proof. by apply readFixed_app. Qed.

Lemma trimmed_indexed t : trimmed t indexedEncoding true = indexedFixed t.
Proof. unfold trimmed. by rewrite bool_decide_true. Qed.

(** CHAR and BINARY: padded to the declared length, or as they are when it is zero. *)
Lemma indexed_padded t bs b p s :
  indexedFixed t = (0 <? lt_Length t) ->
  (if lt_Length t =? 0 then Ok ([] ++ bs) else appendFixed [] bs (lt_Length t)) = Ok b ->
  if indexedFixed t
  then readFixed (p ++ b ++ s) (glen p) (lt_Length t) = Ok (b, glen p + glen b) /\
       trimZero b = trimZero bs
  else b = bs.
Proof.
  intros -> H. destruct (Z.eqb_spec (lt_Length t) 0) as [E|E].
  - rewrite E. cbn in *. congruence.
  - apply appendFixed_Ok in H as (-> & ? & ?). destruct (Z.ltb_spec 0 (lt_Length t)); [|lia].
    cbn [app]. split; [|apply trimZero_zeros].
    apply readFixed_app; [done|]. rewrite glen_app, glen_zeros; lia.
Qed.

Lemma indexed_step t v b :
  wfValue v = true -> appendIndexedValue (S n) [] t v = Ok b -> glen b <= maxRowBytes ->
  readsBack b (fun e p => readIndexedValue (S n) e p t (if indexedFixed t then -1 else glen b))
    (retain indexedEncoding true t v).
Proof.
  intros Hw H Hmax p s. cbn [appendIndexedValue readIndexedValue] in *.
  pose proof (indexedFixed_eq t) as Hf.
  destruct (dataTypeForLogicalType t) eqn:Ek; try discriminate; cbv iota in *;
    try (rewrite Hf; apply indexed_fixed; by rewrite ?Ek); inv_ok.
  - inv_as v. rewrite retain_string, trimmed_indexed.
    rename select (_ = Ok b) into Hb. apply (indexed_padded t _ b p s Hf) in Hb.
    destruct (indexedFixed t); cbn [negb].
    + destruct Hb as [-> Ht]. cbn [mbind outcome_bind]. by rewrite Ht.
    + subst. rewrite readFixed_all. cbn [mbind outcome_bind]. by rewrite stringOf_bytesOf.
  - inv_as v. rewrite Hf. cbn [negb]. rewrite appendLittle_le_split by lia.
    rewrite app_nil_l, readFixed_le_split by done. cbn [mbind outcome_bind].
    rewrite getLE_self. cbn [mbind outcome_bind]. change (8 * Z.of_nat 4) with 32.
    rewrite (uwrap_wider 32 32), int32_uint32 by (done || lia). by rewrite glen_le_split, retain_id.
  - inv_as v. rewrite Hf. cbn [negb]. rewrite appendLittle_le_split by lia.
    rewrite app_nil_l, readFixed_le_split by done. cbn [mbind outcome_bind].
    rewrite getLE_self. cbn [mbind outcome_bind]. change (8 * Z.of_nat 8) with 64.
    rewrite (uwrap_wider 64 64), int64_uint64 by (done || lia). by rewrite glen_le_split, retain_id.
  - inv_as v. rewrite retain_string, trimmed_indexed, Hf. cbn [negb app].
    rewrite readFixed_all. cbn [mbind outcome_bind]. by rewrite stringOf_bytesOf.
  - inv_as v. rewrite retain_bytes, trimmed_indexed.
    rename select (_ = Ok b) into Hb. apply (indexed_padded t _ b p s Hf) in Hb.
    destruct (indexedFixed t); cbn [negb].
    + destruct Hb as [-> Ht]. cbn [mbind outcome_bind]. by rewrite Ht.
    + subst. by rewrite readFixed_all.
  - inv_as v. rewrite retain_bytes, trimmed_indexed, Hf. cbn [negb app]. by rewrite readFixed_all.
  - inv_as v. rewrite retain_id by done. rename select (decimalUnscaled _ _ = _) into Hd.
    apply decimalUnscaled_round in Hd as Hr; [|by apply wfRat]. destruct Hr as (Hr & _ & Hp).
    rewrite Hf. destruct (Z.ltb_spec 0 (lt_Precision t)); [|lia].
    destruct (Z.leb_spec (lt_Precision t) 18); cbn [negb andb]; inv_ok.
    + rewrite appendLittle_le_split, app_nil_l, readFixed_le_split by (done || lia).
      cbn [mbind outcome_bind]. rewrite getLE_self. cbn [mbind outcome_bind].
      change (8 * Z.of_nat 8) with 64. rewrite (uwrap_wider 64 64) by lia.
      erewrite decimal_int64 by done. by rewrite glen_le_split.
    + cbn [app]. rewrite readFixed_all. cbn [mbind outcome_bind]. by rewrite signedBigInt_round.
  - inv_as v. rewrite Hf. cbn [negb]. rewrite appendLittle_le_split by lia.
    rewrite app_nil_l, readFixed_le_split by done. cbn [mbind outcome_bind].
    rewrite getLE_self. cbn [mbind outcome_bind]. change (8 * Z.of_nat 4) with 32.
    rewrite (uwrap_wider 32 32) by lia. rewrite glen_le_split, retain_time, Ek.
    exact (f_equal (fun r => Ok (VTime r, _)) (temporal_round DateType _ Hw)).
  - inv_as v. rewrite Hf. cbn [negb]. rewrite appendLittle_le_split by lia.
    rewrite app_nil_l, readFixed_le_split by done. cbn [mbind outcome_bind].
    rewrite getLE_self. cbn [mbind outcome_bind]. change (8 * Z.of_nat 4) with 32.
    rewrite (uwrap_wider 32 32) by lia. rewrite glen_le_split, retain_time, Ek.
    exact (f_equal (fun r => Ok (VTime r, _)) (temporal_round TimeType _ Hw)).
  - inv_as v. rewrite Hf. cbn [negb]. rewrite retain_time, Ek.
    pose proof (indexed_timestamp t x b p s Hw (or_introl Ek)) as Ht. rewrite Ek in Ht.
    destruct (timestampParts _ _). inv_ok. by apply Ht.
  - inv_as v. rewrite Hf. cbn [negb]. rewrite retain_time, Ek.
    pose proof (indexed_timestamp t x b p s Hw (or_intror Ek)) as Ht. rewrite Ek in Ht.
    destruct (timestampParts _ _). inv_ok. by apply Ht.
  - inv_as v. rewrite Hf. cbn [negb app]. rewrite readFixed_all. cbn [mbind outcome_bind].
    destruct (lt_Element t) as [e|] eqn:Ee; cbn [deref] in *; simplify_eq.
    rename select (encodeBinaryArray _ _ _ _ = _) into Ha. cbn [mbind outcome_bind].
    destruct (nested_array t _ _ _ _ Ee Hw Ha true) as (r & -> & ->). done.
  - rewrite Hf. cbn [negb app]. rewrite readFixed_all. cbn [mbind outcome_bind].
    rename select (encodeBinaryMap _ _ _ _ = _) into Ha.
    destruct (nested_map t _ _ _ Hw Ha true) as (r & -> & ->). done.
  - inv_as v. rewrite Hf. cbn [negb app]. rewrite readFixed_all. cbn [mbind outcome_bind].
    rename select (encodeRow _ _ _ _ = _) into Ha.
    destruct (nested_row t _ _ _ Hw Ha Hmax true) as (r & -> & ->). done.
  - destruct n; [done|]. cbn [appendCompactedValue] in H. by rewrite Ek in H.
Qed.

(** *** Array elements *)

Lemma element_guard final slot t enc (l : list byte) :
  0 <= slot -> slot + arraySlotSize t <= glen l -> glen l <= glen final ->
  readArrayElement (S n) final slot t enc =
  let kind := dataTypeForLogicalType t in
  if arrayPrimitive kind then readArrayPrimitive final slot kind
  else match kind with
  | DateType | TimeType => z ← getLE 4 final slot; Ok (VTime (temporalTime kind (int32 z)))
  | DecimalType => readArrayDecimal final slot t
  | TimestampType | TimestampLTZType => readArrayTimestamp final slot t
  | StringType | CharType => value ← unpackedArrayBytes final slot; Ok (VString (stringOf value))
  | BytesType | BinaryType => value ← unpackedArrayBytes final slot; Ok (VBytes value)
  | ArrayType | MapType | RowType =>
    value ← arrayVariable final slot;
    match kind with
    | ArrayType => e ← deref (lt_Element t); l ← decodeBinaryArray n e value enc; Ok (VArray l)
    | MapType => m ← decodeBinaryMap n t value enc; Ok (VMap m)
    | _ => row ← decodeRow n (nestedSchema t) value enc; Ok (VRow row)
    end
  | _ => Err (ErrText "unsupported array element type")
  end.
Proof. intros. cbn [readArrayElement]. by if_false. Qed.

(** An element stored in its slot as a [w]-byte integer. *)
Lemma element_putLE w encoded slot t v enc r z :
  0 <= slot -> slot + arraySlotSize t <= glen encoded -> arraySlotSize t = Z.of_nat w ->
  putLE w encoded slot z = Ok r ->
  (forall final, getLE w final slot = Ok (uwrap (8 * Z.of_nat w) z) -> glen encoded <= glen final ->
     readArrayElement (S n) final slot t enc = Ok v) ->
  writes encoded r slot (slot + arraySlotSize t) /\
  slotReads (fun final => readArrayElement (S n) final slot t enc) encoded r
    slot (slot + arraySlotSize t) v.
Proof.
  intros Hs Hl Hw H Hr. rewrite Hw. split; [by eapply writes_putLE|].
  intros final Ha Hb Hf. apply putLE_glen in H as Hg. apply Hr; [|lia].
  by apply (slotReads_getLE _ _ _ _ _ H final).
Qed.

(** An element appended to the buffer, its slot holding the offset. *)
Lemma element_variable encoded slot t value reserved v enc r :
  0 <= slot -> slot + arraySlotSize t <= glen encoded <= maxRowBytes -> arraySlotSize t = 8 ->
  appendArrayVariable encoded slot value reserved = Ok r ->
  (forall final, arrayVariable final slot = Ok value -> glen encoded <= glen final ->
     readArrayElement (S n) final slot t enc = Ok v) ->
  writes encoded r slot (slot + arraySlotSize t) /\
  slotReads (fun final => readArrayElement (S n) final slot t enc) encoded r
    slot (slot + arraySlotSize t) v.
Proof.
  intros Hs Hl Hw H Hr. rewrite Hw in *.
  apply appendArrayVariable_slot in H as (Hwr & Hv & _); [|done..]. split; [done|].
  intros final Ha Hb Hf. apply Hr; [by apply Hv|]. destruct Hwr. lia.
Qed.

Lemma element_packed encoded slot t value v enc r :
  0 <= slot -> slot + arraySlotSize t <= glen encoded <= maxRowBytes -> arraySlotSize t = 8 ->
  appendPackedArrayBytes encoded slot value = Ok r ->
  (forall final, unpackedArrayBytes final slot = Ok value -> glen encoded <= glen final ->
     readArrayElement (S n) final slot t enc = Ok v) ->
  writes encoded r slot (slot + arraySlotSize t) /\
  slotReads (fun final => readArrayElement (S n) final slot t enc) encoded r
    slot (slot + arraySlotSize t) v.
Proof.
  intros Hs Hl Hw H Hr. rewrite Hw in *.
  apply appendPackedArrayBytes_slot in H as (Hwr & Hv); [|done..]. split; [done|].
  intros final Ha Hb Hf. apply Hr; [by apply Hv|]. destruct Hwr. lia.
Qed.

Lemma element_timestamp encoded slot t x r :
  wfTime x = true ->
  dataTypeForLogicalType t = TimestampType \/ dataTypeForLogicalType t = TimestampLTZType ->
  0 <= slot -> slot + 8 <= glen encoded <= maxRowBytes ->
  (let '(millis, nanos) := timestampParts (dataTypeForLogicalType t) x in
   if lt_Precision t <=? 3 then putLE 8 encoded slot (uint64 millis)
   else putOffsetSize (appendLittle encoded (uint64 millis) 8) slot (glen encoded) nanos) = Ok r ->
  writes encoded r slot (slot + 8) /\
  slotReads (fun final => readArrayTimestamp final slot t) encoded r slot (slot + 8)
    (VTime (normTimestamp (dataTypeForLogicalType t) (lt_Precision t) x)).
Proof.
  intros Hx Hk Hs Hl H. rewrite maxRowBytes_val in Hl.
  pose proof (timestampParts_range (dataTypeForLogicalType t) x Hx) as [Hm Hn].
  pose proof (timestamp_decoded t x Hx Hk) as Hd. unfold readArrayTimestamp.
  destruct (timestampParts (dataTypeForLogicalType t) x) as [millis nanos]. cbn [fst snd] in *.
  destruct (nanos_small nanos Hn) as (E1 & E2 & E3). rewrite <- Hd. clear Hd.
  rewrite Z.leb_antisym in *. destruct (3 <? lt_Precision t); cbn [negb] in *.
  - rewrite appendLittle_le_split in H by lia. set (m := encoded ++ le_split 8 _) in *.
    assert (Hg : glen m = glen encoded + 8) by (subst m; glia).
    apply putLE_glen in H as Hg'. pose proof (writes_putLE 8 _ _ _ _ (slot + 8) H eq_refl) as Hw.
    split; [apply (writes_appended encoded m); [lia|lia|by apply agree_app|done]|].
    intros final Ha Hb Hf. assert (0 <= glen encoded < 2 ^ 32) as Ho by lia.
    assert (0 <= nanos < 2 ^ 32) as Hn' by lia.
    rewrite (slotReads_offsetSize _ _ _ _ _ Ho Hn' H final Ha); [|intros k ?; apply Hb; lia|lia].
    cbn [mbind outcome_bind].
    assert (Hv : slice final (glen encoded) (glen encoded + 8) = Ok (le_split 8 (uint64 millis))).
    { eapply (slice_agree m); [|lia|].
      - intros k Hk'. destruct Hw as (_ & _ & Hw). rewrite Hb by lia. apply Hw. lia.
      - subst m. rewrite <- (app_nil_r (le_split 8 _)) at 1. by apply slice_app. }
    unfold readFixed. rewrite Hv. if_false. if_false. cbn [mbind outcome_bind rewrap].
    rewrite getLE_self. cbn [mbind outcome_bind]. change (8 * Z.of_nat 8) with 64.
    by rewrite (uwrap_wider 64 64), int64_uint64, E2 by (done || lia).
  - split; [by eapply (writes_putLE 8)|]. intros final Ha Hb Hf.
    rewrite (slotReads_getLE 8 _ _ _ _ H final) by done. cbn [mbind outcome_bind].
    change (8 * Z.of_nat 8) with 64. by rewrite (uwrap_wider 64 64), int64_uint64 by (done || lia).
Qed.

Lemma element_instant t x enc encoded slot r :
  wfTime x = true ->
  dataTypeForLogicalType t = TimestampType \/ dataTypeForLogicalType t = TimestampLTZType ->
  0 <= slot -> slot + arraySlotSize t <= glen encoded <= maxRowBytes ->
  (let '(millis, nanos) := timestampParts (dataTypeForLogicalType t) x in
   if lt_Precision t <=? 3 then putLE 8 encoded slot (uint64 millis)
   else putOffsetSize (appendLittle encoded (uint64 millis) 8) slot (glen encoded) nanos) = Ok r ->
  writes encoded r slot (slot + arraySlotSize t) /\
  slotReads (fun final => readArrayElement (S n) final slot t enc) encoded r
    slot (slot + arraySlotSize t) (retain enc false t (VTime x)).
Proof.
  intros Hx Hk Hs Hl H. assert (arraySlotSize t = 8) as Hsz
    by (unfold arraySlotSize; by destruct Hk as [-> | ->]).
  rewrite retain_time, Hsz in *. apply element_timestamp in H as [Hwr Hrd]; try done.
  split; [done|]. intros final Ha Hb Hf. destruct Hwr as [? _].
  rewrite (element_guard _ _ _ _ encoded) by (rewrite ?Hsz; done || lia).
  specialize (Hrd final Ha Hb Hf). by destruct Hk as [Ek | Ek]; rewrite Ek in *.
Qed.

(** Unfolds the read of an element at a buffer that kept its slot. *)
Ltac at_slot Ek encoded :=
  let final := fresh "final" in let Hg := fresh "Hg" in let Hf := fresh "Hf" in
  intros final Hg Hf; rewrite (element_guard _ _ _ _ encoded), Ek by (done || lia);
  cbn [arrayPrimitive readArrayPrimitive]; cbv zeta iota; rewrite ?Hg; cbn [mbind outcome_bind].
Ltac slot_size Ek := unfold arraySlotSize; rewrite Ek; reflexivity.
Ltac element_int w Ek encoded :=
  eapply (element_putLE w); [done | lia | slot_size Ek | eassumption |]; at_slot Ek encoded;
  let bits := eval vm_compute in (8 * Z.of_nat w) in
  change (8 * Z.of_nat w) with bits; rewrite ?(uwrap_wider bits bits) by lia.

Lemma element_step t v enc encoded slot r :
  wfValue v = true -> 0 <= slot -> slot + arraySlotSize t <= glen encoded <= maxRowBytes ->
  zeroed encoded slot (slot + arraySlotSize t) ->
  writeArrayElement (S n) encoded slot t v enc = Ok r ->
  writes encoded r slot (slot + arraySlotSize t) /\
  slotReads (fun final => readArrayElement (S n) final slot t enc) encoded r
    slot (slot + arraySlotSize t) (retain enc false t v).
Proof.
  intros Hw Hs Hl Hz H. cbn [writeArrayElement] in H.
  destruct (dataTypeForLogicalType t) eqn:Ek; try discriminate; cbv iota in *; inv_ok.
  - inv_as v. rewrite retain_id by done. assert (arraySlotSize t = 1) as Hsz by (unfold arraySlotSize; by rewrite Ek).
    rewrite Hsz in *. destruct x.
    + split; [by eapply writes_set_index|]. intros final Ha Hb Hf. rename select (set_index _ _ _ = _) into Hi.
      apply set_index_glen in Hi as Hg.
      rewrite (element_guard _ _ _ _ r), Ek by (rewrite ?Hsz; done || lia). cbn [arrayPrimitive readArrayPrimitive].
      by rewrite (slotReads_set_index _ _ _ _ Hi final) by done.
    + inv_ok. split; [apply writes_refl|]. intros final Ha Hb Hf.
      rewrite (element_guard _ _ _ _ r), Ek by (rewrite ?Hsz; done || lia). cbn [arrayPrimitive readArrayPrimitive].
      rewrite (index_agree _ _ _ Byte.x00 Ha); [done|]. apply index_Ok. split; [done|]. apply Hz. lia.
  - inv_as v. eapply element_packed; [done..|slot_size Ek|done|]. at_slot Ek encoded.
    by rewrite stringOf_bytesOf, retain_string.
  - inv_as v. element_int 4%nat Ek encoded. by rewrite int32_uint32, retain_id.
  - inv_as v. assert (arraySlotSize t = 1) as Hsz by slot_size Ek. rewrite Hsz in *.
    rename select (set_index _ _ _ = _) into Hi. apply set_index_glen in Hi as Hg.
    split; [by eapply writes_set_index|]. intros final Ha Hb Hf.
    rewrite (element_guard _ _ _ _ r), Ek by (rewrite ?Hsz; done || lia).
    cbn [arrayPrimitive readArrayPrimitive].
    rewrite (slotReads_set_index _ _ _ _ Hi final) by done. cbn [mbind outcome_bind].
    by rewrite byte_of_int8, retain_id.
  - inv_as v. element_int 2%nat Ek encoded. by rewrite swrap_uwrap_small, retain_id.
  - inv_as v. element_int 8%nat Ek encoded. by rewrite int64_uint64, retain_id.
  - inv_as v. element_int 4%nat Ek encoded. by rewrite uwrap_small, retain_id.
  - inv_as v. element_int 8%nat Ek encoded. by rewrite uwrap_small, retain_id.
  - inv_as v. eapply element_packed; [done..|slot_size Ek|done|]. at_slot Ek encoded.
    by rewrite stringOf_bytesOf, retain_string.
  - inv_as v. eapply element_packed; [done..|slot_size Ek|done|]. at_slot Ek encoded.
    by rewrite retain_bytes.
  - inv_as v. eapply element_packed; [done..|slot_size Ek|done|]. at_slot Ek encoded.
    by rewrite retain_bytes.
  - inv_as v. rewrite retain_id by done. rename select (decimalUnscaled _ _ = _) into Hd.
    apply decimalUnscaled_round in Hd as Hr; [|by apply wfRat]. destruct Hr as (Hr & _ & Hp).
    destruct (Z.leb_spec (lt_Precision t) 18) as [H18|H18].
    + element_int 8%nat Ek encoded. unfold readArrayDecimal. if_true. rewrite Hg.
      cbn [mbind outcome_bind]. rewrite (uwrap_wider 64 64) by lia.
      erewrite decimal_int64 by done. by rewrite Hr.
    + eapply element_variable; [done..|slot_size Ek|done|]. at_slot Ek encoded.
      unfold readArrayDecimal. if_false. rewrite Hg. cbn [mbind outcome_bind].
      by rewrite signedBigInt_round, Hr.
  - inv_as v. element_int 4%nat Ek encoded. rewrite retain_time, Ek.
    exact (f_equal (fun r => Ok (VTime r)) (temporal_round DateType _ Hw)).
  - inv_as v. element_int 4%nat Ek encoded. rewrite retain_time, Ek.
    exact (f_equal (fun r => Ok (VTime r)) (temporal_round TimeType _ Hw)).
  - inv_as v. rename select (_ = Ok r) into Hr. apply element_instant; [done|auto|done|done|by rewrite Ek].
  - inv_as v. rename select (_ = Ok r) into Hr. apply element_instant; [done|auto|done|done|by rewrite Ek].
  - inv_as v. destruct (lt_Element t) as [e|] eqn:Ee; cbn [deref] in *; simplify_eq.
    eapply element_variable; [done..|slot_size Ek|done|]. at_slot Ek encoded.
    rename select (encodeBinaryArray _ _ _ _ = _) into Ha. rewrite Ee. cbn [deref mbind outcome_bind].
    destruct (nested_array t _ _ _ _ Ee Hw Ha false) as (l' & -> & ->). done.
  - eapply element_variable; [done..|slot_size Ek|done|]. at_slot Ek encoded.
    rename select (encodeBinaryMap _ _ _ _ = _) into Ha.
    destruct (nested_map t _ _ _ Hw Ha false) as (m & -> & ->). done.
  - inv_as v. rename select (appendArrayVariable _ _ _ _ = _) into Hv.
    assert (arraySlotSize t = 8) as Hsz by slot_size Ek.
    pose proof Hv as (_ & _ & _ & Hmax)%appendArrayVariable_slot; [|lia..].
    eapply element_variable; [done..|exact Hv|]. at_slot Ek encoded.
    rename select (encodeRow _ _ _ _ = _) into Ha.
    destruct (nested_row t _ _ _ Hw Ha Hmax false) as (row & -> & ->). done.
Qed.
End Step.

(** ** The element loop of a binary array *)

Lemma bit_set_same l l' base i :
  l' !! Z.to_nat (base + i / 8) = l !! Z.to_nat (base + i / 8) -> bit_set l' base i = bit_set l base i.
Proof. unfold bit_set, index. by intros ->. Qed.

Section ArrayLoop.
Variables (nullBytes slotSize fixedEnd : Z).
Hypothesis nullBytes_nonneg : 0 <= nullBytes.
Hypothesis slotSize_pos : 0 < slotSize.

Definition slotOf (i : Z) : Z := 4 + nullBytes + slotSize * i.

(** What the elements from [i] on leave alone: the count, the null bits and slots before
    [i], and what the elements before [i] appended. *)
Definition arrayFrame (i : Z) (l l' : list byte) : Prop :=
  glen l <= glen l' /\ agree l l' 0 4 /\
  (forall j, 0 <= j < i -> bit_set l' 4 j = bit_set l 4 j) /\
  agree l l' (4 + nullBytes) (slotOf i) /\ agree l l' fixedEnd (glen l).

(** What the elements from [i] on start from: their null bits and slots are clear. *)
Definition arrayFresh (i count : Z) (l : list byte) : Prop :=
  fixedEnd <= glen l <= maxRowBytes /\
  (forall j, i <= j < count -> bit_set l 4 j = Ok false) /\
  zeroed l (slotOf i) fixedEnd.

Lemma arrayFrame_trans i l l1 l2 :
  fixedEnd <= glen l -> arrayFrame i l l1 -> arrayFrame (i + 1) l1 l2 -> arrayFrame i l l2.
Proof.
  intros Hl (G1 & A1 & B1 & S1 & T1) (G2 & A2 & B2 & S2 & T2). unfold slotOf in *. split_and!.
  - lia.
  - by eapply agree_trans.
  - intros j Hj. rewrite B2, B1 by lia. done.
  - eapply agree_trans; [exact S1|]. eapply agree_sub; [exact S2|unfold slotOf; lia..].
  - eapply agree_trans; [exact T1|]. eapply agree_sub; [exact T2|lia..].
Qed.

Lemma arrayFrame_refl i l : arrayFrame i l l.
Proof. split_and!; done || lia. Qed.

Lemma slot_bounds i count :
  0 <= i < count -> slotOf count <= fixedEnd -> (count + 7) / 8 <= nullBytes ->
  4 <= slotOf i /\ slotOf i + slotSize <= fixedEnd /\ slotOf i + slotSize = slotOf (i + 1) /\
  (forall j, 0 <= j < count -> 4 <= 4 + j / 8 < 4 + nullBytes).
Proof.
  unfold slotOf. intros Hi Hf Hn. split_and!; try nia. intros j Hj. zlia.
Qed.

(** One element written to its slot. *)
Lemma array_write_frame i count l l1 :
  0 <= i < count -> slotOf count <= fixedEnd -> (count + 7) / 8 <= nullBytes ->
  arrayFresh i count l -> glen l1 <= maxRowBytes -> writes l l1 (slotOf i) (slotOf i + slotSize) ->
  arrayFrame i l l1 /\ arrayFresh (i + 1) count l1 /\ bit_set l1 4 i = Ok false.
Proof.
  intros Hi Hf Hn (Hl & Hb & Hz) Hm (G & A & T).
  destruct (slot_bounds i count Hi Hf Hn) as (H4 & Hs & Hs' & Hj).
  assert (Hbits : forall j, 0 <= j < count -> bit_set l1 4 j = bit_set l 4 j).
  { intros j Hj'. apply bit_set_same, A. specialize (Hj j Hj'). unfold slotOf. nia. }
  unfold arrayFrame, arrayFresh. split_and!; try done.
  - eapply agree_sub; [exact A|..]; lia.
  - intros j Hj'. apply Hbits. lia.
  - eapply agree_sub; [exact A|..]; lia.
  - eapply agree_sub; [exact T|..]; lia.
  - lia.
  - intros j Hj'. rewrite Hbits by lia. apply Hb. lia.
  - intros k Hk. rewrite T by lia. apply Hz. lia.
  - rewrite Hbits by lia. apply Hb. lia.
Qed.

(** A null element: only its bit changes. *)
Lemma array_null_frame i count l l1 :
  0 <= i < count -> slotOf count <= fixedEnd -> (count + 7) / 8 <= nullBytes ->
  arrayFresh i count l -> set_bit l 4 i = Ok l1 ->
  arrayFrame i l l1 /\ arrayFresh (i + 1) count l1 /\ bit_set l1 4 i = Ok true.
Proof.
  intros Hi Hf Hn (Hl & Hb & Hz) Hset.
  destruct (slot_bounds i count Hi Hf Hn) as (H4 & Hs & Hs' & Hj). specialize (Hj i Hi).
  pose proof (set_bit_glen _ _ _ _ Hset) as Hg.
  assert (Hk : forall k : nat, Z.of_nat k < 4 \/ 4 + nullBytes <= Z.of_nat k -> l1 !! k = l !! k).
  { intros k Hk. eapply set_bit_frame; [done|]. lia. }
  assert (Hr : forall j, 0 <= j -> bit_set l1 4 j = if decide (i = j) then Ok true else bit_set l 4 j).
  { intros j Hj'. eapply set_bit_read; done || lia. }
  assert (4 + nullBytes <= slotOf i) by (unfold slotOf; nia).
  unfold arrayFrame, arrayFresh. split_and!; try lia.
  - intros k Hk'. apply Hk. lia.
  - intros j Hj'. rewrite Hr, decide_False by lia. done.
  - intros k Hk'. apply Hk. lia.
  - intros k Hk'. apply Hk. lia.
  - intros j Hj'. rewrite Hr, decide_False by lia. apply Hb. lia.
  - intros k Hk'. rewrite Hk by lia. apply Hz. lia.
  - by rewrite Hr, decide_True by lia.
Qed.

(** The whole loop: frame, and the decoder's loop over the final buffer. *)
Lemma array_loop (write : list byte -> Z -> GoValue -> outcome (list byte))
    (read : list byte -> Z -> outcome GoValue) t (f : GoValue -> GoValue) count values :
  f VNil = VNil ->
  slotOf count <= fixedEnd -> (count + 7) / 8 <= nullBytes ->
  forall i encoded r,
  (forall e slot v e', In v values -> 0 <= slot -> slot + slotSize <= glen e <= maxRowBytes ->
     zeroed e slot (slot + slotSize) -> write e slot v = Ok e' ->
     writes e e' slot (slot + slotSize) /\
     slotReads (fun final => read final slot) e e' slot (slot + slotSize) (f v)) ->
  0 <= i -> glen values = count - i -> arrayFresh i count encoded ->
  encodeArrayLoop write t nullBytes slotSize values i encoded = Ok r ->
  arrayFrame i encoded r /\ glen r <= maxRowBytes /\
  decodeArrayLoop (read r) t r nullBytes slotSize (length values) i = Ok (map f values).
Proof.
  intros Hnil Hf Hn. induction values as [|v values IH]; intros i encoded r Hw Hi Hc Hfr H.
  { cbn in H. simplify_eq. destruct Hfr as ((? & ?) & _). split; [apply arrayFrame_refl|done]. }
  rewrite glen_cons in Hc. pose proof (glen_nonneg values). cbn [encodeArrayLoop] in H.
  assert (Hi' : 0 <= i < count) by lia. fold (slotOf i) in H.
  destruct (slot_bounds i count Hi' Hf Hn) as (H4 & Hs & Hs' & _).
  pose proof Hfr as (Hl & _ & Hz).
  assert (Hw' : forall e slot v e', In v values -> 0 <= slot -> slot + slotSize <= glen e <= maxRowBytes ->
     zeroed e slot (slot + slotSize) -> write e slot v = Ok e' ->
     writes e e' slot (slot + slotSize) /\
     slotReads (fun final => read final slot) e e' slot (slot + slotSize) (f v)).
  { intros. apply Hw; try done. by right. }
  cbn [length decodeArrayLoop map]. fold (slotOf i). destruct (isNil v) eqn:En.
  - destruct v; try done. destruct (lt_Nullable t); [|done]. inv_ok.
    rename select (set_bit _ _ _ = _) into Hset.
    destruct (array_null_frame i count _ _ Hi' Hf Hn Hfr Hset) as (F1 & Fr1 & Hbit).
    destruct (IH (i + 1) x r Hw' ltac:(lia) ltac:(lia) Fr1) as (F2 & Hm & Hd); [done|].
    split; [eapply arrayFrame_trans; done || lia|]. split; [done|].
    destruct F2 as (_ & _ & B2 & _). rewrite B2, Hbit by lia. cbn [mbind outcome_bind].
    by rewrite Hd, Hnil.
  - destruct (validLogicalValue t v); [|done]. cbn [negb] in H. inv_ok.
    rename select (write _ _ _ = _) into Hwr. destruct (Z.ltb_spec maxRowBytes (glen x)); [done|].
    destruct (Hw encoded (slotOf i) v x) as (Hws & Hrd); [by left|lia|lia| |done|].
    { intros k Hk. apply Hz. lia. }
    destruct (array_write_frame i count encoded x Hi' Hf Hn Hfr ltac:(lia) Hws) as (F1 & Fr1 & Hbit).
    rename select (encodeArrayLoop _ _ _ _ _ _ _ = _) into Hrest.
    destruct (IH (i + 1) x r Hw' ltac:(lia) ltac:(lia) Fr1 Hrest) as (F2 & Hm & Hd).
    split; [eapply arrayFrame_trans; done || lia|]. split; [done|].
    destruct F2 as (G2 & _ & B2 & S2 & T2). rewrite B2, Hbit by lia. cbn [mbind outcome_bind].
    rewrite Hrd.
    + cbn [mbind outcome_bind]. by rewrite Hd.
    + eapply agree_sub; [exact S2|unfold slotOf; nia|lia].
    + eapply agree_sub; [exact T2|lia|lia].
    + done.
Qed.
End ArrayLoop.

Lemma zeroed_zeros n i j : 0 <= i -> j <= n -> zeroed (zeros n) i j.
Proof. intros Hi Hj k Hk. unfold zeros. apply lookup_replicate_2. lia. Qed.

Lemma array_step n t l enc b :
  codecsAgree n -> forallb wfValue l = true -> encodeBinaryArray (S n) t l enc = Ok b ->
  glen b <= maxRowBytes /\ decodeBinaryArray (S n) t b enc = Ok (map (retain enc false t) l).
Proof.
  intros (_ & _ & He & _) Hw H. cbn [encodeBinaryArray decodeBinaryArray] in *.
  destruct (Z.ltb_spec (maxRowBytes / 8) (glen l)) as [|Hcount]; [done|].
  set (F := align8 (4 + arrayNullBytes (glen l) + arraySlotSize t * glen l)) in *.
  destruct (Z.ltb_spec maxRowBytes F) as [|HF]; [done|]. inv_ok.
  rename select (putLE _ _ _ _ = _) into Hp. rename select (encodeArrayLoop _ _ _ _ _ _ _ = _) into Hloop.
  pose proof (glen_nonneg l). assert (Hs1 : 1 <= arraySlotSize t) by (unfold arraySlotSize; case_match; lia).
  assert (Hprod : 0 <= arraySlotSize t * glen l) by nia.
  assert (Hn0 : 0 <= arrayNullBytes (glen l)) by (unfold arrayNullBytes; zlia).
  assert (HF' : 4 + arrayNullBytes (glen l) + arraySlotSize t * glen l <= F)
    by (subst F; rewrite align8_eq; zlia).
  assert (Hn8 : (glen l + 7) / 8 <= arrayNullBytes (glen l)) by (unfold arrayNullBytes; zlia).
  apply putLE_glen in Hp as Hg. rewrite glen_zeros in Hg by lia.
  pose proof (putLE_get _ _ _ _ _ Hp) as Hget.
  pose proof (overwrite_frame_r _ _ _ _ 4 F Hp ltac:(rewrite glen_le_split; lia)) as Hframe.
  edestruct (array_loop (arrayNullBytes (glen l)) (arraySlotSize t) F Hn0 ltac:(lia)
    (fun e slot v => writeArrayElement n e slot t v enc)
    (fun e slot => readArrayElement n e slot t enc) t (retain enc false t) (glen l) l)
    as (Fr & Hm & Hd); [..|exact Hloop|].
  - apply retain_nil.
  - done.
  - done.
  - intros e slot v e' Hv. rewrite forallb_forall in Hw. intros. apply He; auto.
  - lia.
  - lia.
  - split_and!; [lia|lia| |].
    + intros j Hj. rewrite (bit_set_same (zeros F)).
      * apply bit_set_zeros; zlia.
      * apply Hframe. zlia.
    + intros k Hk. unfold slotOf in Hk. rewrite Hframe by lia. apply (zeroed_zeros F 0 F); lia.
  - split; [done|]. destruct Fr as (G & A & _). rewrite maxRowBytes_val in *.
    if_false. rewrite (getLE_agree 4 x b 0 (glen l)).
    + cbn [mbind outcome_bind]. fold F. if_false. if_false.
      replace (Z.to_nat (glen l)) with (length l) by (unfold glen; lia). exact Hd.
    + exact A.
    + cbn. lia.
    + rewrite Hget. f_equal. change (8 * Z.of_nat 4) with 32. rewrite uwrap_small by (unfold urange; zlia).
      apply Z.mod_small. zlia.
Qed.

Lemma map_step n t v enc inRow b :
  codecsAgree n -> wfValue v = true -> encodeBinaryMap (S n) t v enc = Ok b ->
  exists m, decodeBinaryMap (S n) t b enc = Ok m /\ retain enc inRow t v = VMap m.
Proof.
  intros (_ & _ & _ & Ha & _) Hw H. cbn [encodeBinaryMap decodeBinaryMap] in *.
  destruct (mapEntries v) as [entries|] eqn:Em; [|done]. inv_ok.
  destruct (wfEntries v entries Hw Em) as [Hwk Hww].
  destruct (lt_Key t) as [k|] eqn:Ek; cbn [deref] in *; simplify_eq.
  destruct (lt_Value t) as [w|] eqn:Ew; cbn [deref] in *; simplify_eq.
  rename select (encodeBinaryArray n x _ _ = _) into Hk.
  rename select (encodeBinaryArray n x1 _ _ = _) into Hv.
  destruct (Ha _ _ _ _ Hwk Hk) as [Hmk Hdk]. destruct (Ha _ _ _ _ Hww Hv) as [Hmv Hdv].
  rename select (putLE _ _ _ _ = _) into Hp.
  assert (x3 = le_split 4 (uint32 (glen x0))) as ->.
  { apply overwrite_Ok in Hp as (_ & _ & ->). reflexivity. }
  rewrite maxRowBytes_val in *. pose proof (glen_nonneg x0).
  assert (E32 : uwrap (8 * Z.of_nat 4) (uint32 (glen x0)) = glen x0).
  { change (8 * Z.of_nat 4) with 32. rewrite (uwrap_small 32 (glen x0)) by (unfold urange; lia).
    apply uwrap_small. unfold urange. lia. }
  assert (Hlen : glen (le_split 4 (uint32 (glen x0)) ++ x0 ++ x2) = 4 + (glen x0 + glen x2)).
  { by rewrite !glen_app, glen_le_split. }
  pose proof (glen_nonneg x2). rewrite Hlen. if_false. rewrite getLE_head, E32. cbn [mbind outcome_bind].
  if_false. rewrite (slice_app (le_split 4 (uint32 (glen x0)))) by (rewrite ?glen_le_split; lia).
  cbn [mbind outcome_bind]. rewrite Hdk. cbn [mbind outcome_bind].
  rewrite app_assoc, slice_from_app by glia. cbn [mbind outcome_bind]. rewrite Hdv.
  cbn [mbind outcome_bind]. rewrite !glen_map, Z.eqb_refl. cbn [negb].
  eexists. split; [reflexivity|]. by apply retain_map.
Qed.

(** ** The column loop of a row *)

Section RowLoop.
Variables (enc : rowEncoding) (nullBytes headerBytes : Z).

(** What the columns from [i] on, with length slots from [lp] on, leave alone. *)
Definition rowFrame (i lp : Z) (l l' : list byte) : Prop :=
  glen l <= glen l' /\ (forall j, 0 <= j < i -> bit_set l' 0 j = bit_set l 0 j) /\
  agree l l' nullBytes lp /\ agree l l' headerBytes (glen l).

(** What they start from. *)
Definition rowFresh (i count lp : Z) (columns : list Column) (l : list byte) : Prop :=
  0 <= i /\ glen columns = count - i /\ (count + 7) / 8 <= nullBytes <= lp /\
  lp + 4 * variableColumns enc columns <= headerBytes <= glen l /\
  (forall j, i <= j < count -> bit_set l 0 j = Ok false).

Lemma rowFrame_refl i lp l : rowFrame i lp l l.
Proof. split_and!; done || lia. Qed.

Lemma rowFrame_trans i lp lp' l l1 l2 :
  lp <= lp' -> headerBytes <= glen l ->
  rowFrame i lp l l1 -> rowFrame (i + 1) lp' l1 l2 -> rowFrame i lp l l2.
Proof.
  intros Hlp Hh (G1 & B1 & L1 & T1) (G2 & B2 & L2 & T2). split_and!.
  - lia.
  - intros j Hj. rewrite B2, B1 by lia. done.
  - eapply agree_trans; [exact L1|]. eapply agree_sub; [exact L2|lia..].
  - eapply agree_trans; [exact T1|]. eapply agree_sub; [exact T2|lia..].
Qed.

Lemma row_null_frame i count lp c columns l l1 :
  rowFresh i count lp (c :: columns) l -> set_bit l 0 i = Ok l1 ->
  rowFrame i lp l l1 /\ rowFresh (i + 1) count lp columns l1 /\ bit_set l1 0 i = Ok true /\
  glen l1 = glen l.
Proof.
  intros (Hi & Hc & Hn & Hl & Hb) Hset. pose proof (set_bit_glen _ _ _ _ Hset) as Hg.
  rewrite glen_cons in Hc. rewrite variableColumns_cons in Hl. pose proof (glen_nonneg columns).
  pose proof (variableColumns_nonneg enc columns).
  assert (lp + 4 * variableColumns enc columns <= headerBytes <= glen l) by (destruct (_ && _); lia).
  assert (Hk : forall k : nat, nullBytes <= Z.of_nat k -> l1 !! k = l !! k).
  { intros k Hk. eapply set_bit_frame; [done|]. zlia. }
  assert (Hr : forall j, 0 <= j -> bit_set l1 0 j = if decide (i = j) then Ok true else bit_set l 0 j).
  { intros j Hj'. eapply set_bit_read; done || lia. }
  unfold rowFrame, rowFresh. split_and!; try lia.
  - intros j Hj. by rewrite Hr, decide_False by lia.
  - intros k Hk'. apply Hk. lia.
  - intros k Hk'. apply Hk. lia.
  - intros j Hj. rewrite Hr, decide_False by lia. apply Hb. lia.
  - by rewrite Hr, decide_True by lia.
Qed.

(** A value appended, after its length when it has one. *)
Lemma row_value_frame i count lp lp' c columns l l0 value :
  rowFresh i count lp (c :: columns) l ->
  (if bool_decide (enc = indexedEncoding) && negb (indexedFixed (logicalTypeForColumn c))
   then putLE 4 l lp (uint32 (glen value)) = Ok l0 /\ lp' = lp + 4
   else l0 = l /\ lp' = lp) ->
  rowFrame i lp l (l0 ++ value) /\ rowFresh (i + 1) count lp' columns (l0 ++ value) /\
  bit_set (l0 ++ value) 0 i = Ok false /\ lp <= lp' /\ glen l0 = glen l.
Proof.
  intros (Hi & Hc & Hn & Hl & Hb) Hput.
  rewrite glen_cons in Hc. rewrite variableColumns_cons in Hl. pose proof (glen_nonneg columns).
  pose proof (variableColumns_nonneg enc columns). pose proof (glen_nonneg value).
  assert (Hl0 : glen l0 = glen l /\ lp <= lp' /\ lp' + 4 * variableColumns enc columns <= headerBytes /\
    agree l l0 0 lp /\ agree l l0 headerBytes (glen l)).
  { destruct (_ && _).
    - destruct Hput as [Hp ->]. apply putLE_glen in Hp as Hg. split_and!; try lia.
      + by eapply overwrite_frame_l.
      + eapply overwrite_frame_r; [done|]. rewrite glen_le_split. lia.
    - destruct Hput as [-> ->]. split_and!; done || lia. }
  destruct Hl0 as (Hg & Hlp & Hlv & Hf1 & Hf2).
  assert (Happ : forall k : nat, Z.of_nat k < glen l -> (l0 ++ value) !! k = l0 !! k).
  { intros k Hk. apply lookup_app_l. unfold glen in *. lia. }
  assert (Hbits : forall j, 0 <= j < count -> bit_set (l0 ++ value) 0 j = bit_set l 0 j).
  { intros j Hj. apply bit_set_same. rewrite Happ by zlia. apply Hf1. zlia. }
  unfold rowFrame, rowFresh. rewrite glen_app. split_and!; try lia.
  - intros j Hj. apply Hbits. lia.
  - intros k Hk. rewrite Happ by lia. apply Hf1. zlia.
  - intros k Hk. rewrite Happ by lia. apply Hf2. lia.
  - intros j Hj. rewrite Hbits by lia. apply Hb. lia.
  - rewrite Hbits by lia. apply Hb. lia.
Qed.

(** The length a decoder hands to the reader of a column. *)
Definition lengthFor (t : LogicalType) (value : list byte) : Z :=
  if bool_decide (enc = indexedEncoding) && negb (indexedFixed t) then glen value else -1.

Lemma row_loop (encodeValue : LogicalType -> GoValue -> outcome (list byte))
    (read : list byte -> Z -> LogicalType -> Z -> outcome (GoValue * Z)) count columns :
  forall row i encoded lp r,
  (forall t v b, In v row -> encodeValue t v = Ok b -> glen b <= maxRowBytes ->
     readsBack b (fun e p => read e p t (lengthFor t b)) (retain enc true t v)) ->
  Forall2 (fun c v => validateColumnValue c v = Ok tt) columns row ->
  rowFresh i count lp columns encoded -> glen r <= maxRowBytes ->
  encodeRowLoop encodeValue enc columns row i encoded lp = Ok r ->
  rowFrame i lp encoded r /\
  decodeRowLoop (read r) enc r columns i (glen encoded) lp = Ok (retainRow enc columns row, glen r).
Proof.
  induction columns as [|c columns IH]; intros row i encoded lp r Hread Hv Hfr Hmax H;
    apply Forall2_cons_inv_l in Hv || apply Forall2_nil_inv_l in Hv.
  { subst. cbn in H. simplify_eq. split; [apply rowFrame_refl | done]. }
  destruct Hv as (v & row' & Hv & Hrow & ->). cbn [encodeRowLoop decodeRowLoop retainRow zip_with] in *.
  pose proof Hfr as (Hi & _ & Hn & Hl & _). pose proof (glen_nonneg encoded).
  destruct (isNil v) eqn:En.
  - destruct v; try done. inv_ok. rename select (set_bit _ _ _ = _) into Hset.
    destruct (row_null_frame _ _ _ _ _ _ _ Hfr Hset) as (F1 & Fr1 & Hbit & Hg).
    rename select (encodeRowLoop _ _ _ _ _ _ _ = _) into Hrest.
    destruct (IH row' (i + 1) x lp r) as (F2 & Hd); [|done..|].
    { intros t v b Hin. apply Hread. by right. }
    pose proof F2 as (_ & B2 & _). rewrite B2, Hbit by lia. cbn [mbind outcome_bind].
    unfold indexedValueLength. rewrite orb_true_r. cbn [mbind outcome_bind].
    unfold validateColumnValue in Hv. cbn [isNil] in Hv. apply check_Ok in Hv. rewrite Hv. cbn [negb].
    rewrite <- Hg. rewrite Hd. cbn [mbind outcome_bind]. rewrite retain_nil.
    split; [|done]. eapply rowFrame_trans; try done; lia.
  - apply bind_Ok in H as (value & Hval & H). apply bind_Ok in H as ([l0 lp'] & Hput & H).
    destruct (Z.ltb_spec (maxRowBytes - glen l0) (glen value)) as [|Hsize]; [done|].
    set (variable := bool_decide (enc = indexedEncoding) && negb (indexedFixed (logicalTypeForColumn c))) in *.
    assert (Hput' : if variable then putLE 4 encoded lp (uint32 (glen value)) = Ok l0 /\ lp' = lp + 4
                    else l0 = encoded /\ lp' = lp).
    { destruct variable; inv_ok; auto. }
    destruct (row_value_frame _ _ _ _ _ _ _ _ _ Hfr Hput') as (F1 & Fr1 & Hbit & Hlp & Hg).
    destruct (IH row' (i + 1) (l0 ++ value) lp' r) as (F2 & Hd); [|done..|].
    { intros t w b Hin. apply Hread. by right. }
    split; [eapply rowFrame_trans; try done; lia|].
    pose proof F2 as (G2 & B2 & L2 & T2). rewrite B2, Hbit by lia. cbn [mbind outcome_bind].
    rewrite glen_app in *. pose proof (glen_nonneg value). rewrite maxRowBytes_val in *.
    assert (Hlen : indexedValueLength r lp (logicalTypeForColumn c) enc false =
                   Ok (lengthFor (logicalTypeForColumn c) value, lp')).
    { assert (Hlp4 : variable = true -> lp + 4 <= headerBytes).
      { intros Ev. rewrite variableColumns_cons in Hl. fold variable in Hl. rewrite Ev in Hl.
        pose proof (variableColumns_nonneg enc columns). lia. }
      unfold indexedValueLength, lengthFor. fold variable. destruct variable eqn:Ev.
      - specialize (Hlp4 eq_refl). apply andb_true_iff in Ev as [E1 E2%negb_true_iff]. rewrite E1, E2. cbn [negb orb].
        destruct Hput' as [Hp ->]. rewrite (getLE_agree 4 l0 r lp (glen value)); [done| | |].
        + intros k Hk. rewrite L2 by lia. apply lookup_app_l. unfold glen in *. lia.
        + cbn. lia.
        + rewrite (putLE_get _ _ _ _ _ Hp). f_equal. change (8 * Z.of_nat 4) with 32.
          rewrite uwrap_small by (unfold urange; lia). apply Z.mod_small. lia.
      - destruct Hput' as [_ ->]. subst variable.
        by destruct (bool_decide _), (indexedFixed _). }
    rewrite Hlen. cbn [mbind outcome_bind].
    assert (Hs : slice r (glen encoded) (glen encoded + glen value) = Ok value).
    { eapply (slice_agree (l0 ++ value)); [eapply agree_sub; [exact T2|lia..]|lia|].
      rewrite <- (app_nil_r value) at 1. apply slice_app; lia. }
    apply slice_split in Hs as Er. pose proof Hs as (? & ? & _)%slice_Ok.
    assert (Hg0 : glen (take (Z.to_nat (glen encoded)) r) = glen encoded)
      by (unfold glen in *; rewrite length_take; lia).
    pose proof (Hread (logicalTypeForColumn c) v value ltac:(by left) Hval ltac:(lia)
      (take (Z.to_nat (glen encoded)) r) (drop (Z.to_nat (glen encoded + glen value)) r)) as Hr.
    cbn beta in Hr. rewrite <- Er, Hg0 in Hr. rewrite Hr. cbn [rewrap mbind outcome_bind].
    rewrite Hg in Hd. rewrite Hd. done.
Qed.
End RowLoop.

Lemma row_step n s row enc b :
  codecsAgree n -> forallb wfValue row = true -> encodeRow (S n) s row enc = Ok b ->
  glen b <= maxRowBytes -> decodeRow (S n) s b enc = Ok (retainRow enc (sch_Columns s) row).
Proof.
  intros (Hc & Hi & _) Hw H Hmax. cbn [encodeRow decodeRow] in *. inv_ok.
  rename select (ValidateRow _ _ _ = _) into Hval. destruct x.
  apply ValidateRow_all in Hval as [Hs Hf]. rewrite Hs. cbn [mbind outcome_bind].
  rewrite forallb_forall in Hw. pose proof (glen_nonneg (sch_Columns s)).
  rewrite rowHeaderBytes_eq in *. set (nb := (glen (sch_Columns s) + 7) / 8) in *.
  pose proof (variableColumns_nonneg enc (sch_Columns s)).
  set (hb := nb + 4 * variableColumns enc (sch_Columns s)) in *.
  assert (0 <= nb) by (subst nb; zlia).
  edestruct (row_loop enc nb hb
    (match enc with
     | compactedEncoding => appendCompactedValue n []
     | indexedEncoding => appendIndexedValue n []
     end)
    (fun e => match enc with
     | compactedEncoding => fun position t _ => readCompactedValue n e position t
     | indexedEncoding => fun position t length => readIndexedValue n e position t length
     end) (glen (sch_Columns s)) (sch_Columns s) row 0 (zeros hb) nb b) as (F & Hd); try done.
  - intros t v e Hin Hv Hm. specialize (Hw v Hin). destruct enc; [by apply Hc|].
    unfold lengthFor. rewrite bool_decide_true by done.
    pose proof (Hi t v e Hw Hv Hm) as Hr. by destruct (indexedFixed t).
  - split_and!; try lia; rewrite ?glen_zeros by lia; try lia.
    intros j Hj. apply bit_set_zeros; subst hb nb; zlia.
  - destruct F as (G & _). rewrite glen_zeros in * by lia. if_false. rewrite Hd.
    cbn [mbind outcome_bind]. by rewrite Z.eqb_refl.
Qed.

Lemma codecs_agree n : codecsAgree n.
Proof.
  induction n as [|n IH]; [by split_and!|]. split_and!.
  - by apply compacted_step.
  - by apply indexed_step.
  - by apply element_step.
  - intros. by eapply array_step.
  - intros. by eapply map_step.
  - intros. by eapply row_step.
Qed.

(** ** The exported operations *)

Lemma encodeRowLoop_max encodeValue enc columns : forall row i encoded lp r,
  glen encoded <= maxRowBytes ->
  encodeRowLoop encodeValue enc columns row i encoded lp = Ok r -> glen r <= maxRowBytes.
Proof.
  induction columns as [|c columns IH]; intros [|v row] i encoded lp r Hm H; cbn in H; inv_ok; try done.
  destruct (isNil v); inv_ok.
  - eapply IH; [|done]. rename select (set_bit _ _ _ = _) into Hs. apply set_bit_glen in Hs. lia.
  - destruct x0 as [l lp']. destruct (Z.ltb_spec (maxRowBytes - glen l) (glen x)); [done|].
    eapply IH; [|done]. rewrite glen_app. lia.
Qed.

Lemma encodeRow_max n s row enc b :
  rowHeaderBytes s enc <= maxRowBytes -> encodeRow n s row enc = Ok b -> glen b <= maxRowBytes.
Proof.
  destruct n as [|n]; [done|]. cbn [encodeRow]. intros Hh H. inv_ok.
  eapply encodeRowLoop_max; [|done]. rewrite glen_zeros; [done|]. rewrite rowHeaderBytes_eq.
  pose proof (variableColumns_nonneg enc (sch_Columns s)). pose proof (glen_nonneg (sch_Columns s)). zlia.
Qed.

(** C4: A compacted row round-trips: the bytes [EncodeCompactedRow] returns for a row of
    in-range values decode, at any nesting, to what the column types retain of that row. *)
Theorem compacted_row_roundtrip (s : Schema) (row : Row) (encoded : list byte) :
  forallb wfValue row = true -> rowHeaderBytes s compactedEncoding <= maxRowBytes ->
  EncodeCompactedRow s row = Ok encoded ->
  DecodeCompactedRow s encoded = Ok (retainRow compactedEncoding (sch_Columns s) row).
Proof.
  intros Hw Hh H. destruct (codecs_agree (schemaFuel s)) as (_ & _ & _ & _ & _ & Hr).
  apply Hr; [done|done|]. by eapply encodeRow_max.
Qed.

(** An indexed row round-trips in the same way; there CHAR and BINARY columns lose
    their trailing zero bytes. *)
Theorem indexed_row_roundtrip (s : Schema) (row : Row) (encoded : list byte) :
  forallb wfValue row = true -> rowHeaderBytes s indexedEncoding <= maxRowBytes ->
  EncodeIndexedRow s row = Ok encoded ->
  DecodeIndexedRow s encoded = Ok (retainRow indexedEncoding (sch_Columns s) row).
Proof.
  intros Hw Hh H. destruct (codecs_agree (schemaFuel s)) as (_ & _ & _ & _ & _ & Hr).
  apply Hr; [done|done|]. by eapply encodeRow_max.
Qed.

Definition sampleRow : Row :=
  [VInt64 (-7); VNil; VRow [VInt32 3; VArray [VString "a long enough tag"; VNil]];
   VGoMap [("b"%string, VRat (5 # 4)); ("a"%string, VNil)];
   VTime (MkTime 1700000000 123456789 3600); VString "ab"].

Definition bytesOr (m : outcome (list byte)) : list byte := match m with Ok b => b | _ => [] end.

Lemma compacted_row_roundtrip_witness :
  DecodeCompactedRow sampleSchema (bytesOr (EncodeCompactedRow sampleSchema sampleRow)) =
  Ok (retainRow compactedEncoding (sch_Columns sampleSchema) sampleRow).
Proof.
  apply (compacted_row_roundtrip sampleSchema sampleRow); [reflexivity | | vm_compute; reflexivity].
  vm_compute. discriminate.
Defined.

Lemma indexed_row_roundtrip_witness :
  DecodeIndexedRow sampleSchema (bytesOr (EncodeIndexedRow sampleSchema sampleRow)) =
  Ok (retainRow indexedEncoding (sch_Columns sampleSchema) sampleRow).
Proof.
  apply (indexed_row_roundtrip sampleSchema sampleRow); [reflexivity | | vm_compute; reflexivity].
  vm_compute. discriminate.
Defined.
