(* ===== verification/Keys.v ===== *)
(** * Primary keys

    [EncodePrimaryKey] concatenates the compacted values of the key columns without any
    delimiter.  Two keys share their bytes only if the columns retain the same values, so
    the server finds by bytes exactly the row the client named. *)

From S2P Require Import Prelude Model Wire Values Codec DecodeSafety EncodeSafety Roundtrip.

(** Encoding appends: the destination is a prefix of the result and nothing else. *)
Lemma appendCompactedValue_app n dst t v :
  appendCompactedValue n dst t v = (fun b => dst ++ b) <$> appendCompactedValue n [] t v.
Proof.
  destruct n as [|n]; [done|]. cbn [appendCompactedValue].
  destruct (dataTypeForLogicalType t); cbv iota; try done;
    try (destruct v; try done; cbn [mbind outcome_bind asBool asInt8 asInt16 asInt32 asInt64 asFloat32
      asFloat64 asString asBytes asTime asRat fmap outcome_fmap];
      try apply appendLengthBytes_app; unfold appendVar32;
      by rewrite 1?appendLittle_app, 1?(appendVar64_app dst)).
  - destruct (asRat v) as [q| | |]; try done. cbn [mbind outcome_bind].
    destruct (decimalUnscaled q t); try done. cbn [mbind outcome_bind].
    case_match; [|apply appendLengthBytes_app]. cbn. by rewrite (appendVar64_app dst).
  - destruct v; try done. cbn [mbind outcome_bind asTime].
    destruct (timestampParts _ _) as [millis nanos]. unfold appendVar32.
    case_match; cbn; rewrite (appendVar64_app dst); [|done].
    by rewrite (appendVar64_app (_ ++ _)), (appendVar64_app (appendVar64 [] _)), app_assoc.
  - destruct v; try done. cbn [mbind outcome_bind asTime].
    destruct (timestampParts _ _) as [millis nanos]. unfold appendVar32.
    case_match; cbn; rewrite (appendVar64_app dst); [|done].
    by rewrite (appendVar64_app (_ ++ _)), (appendVar64_app (appendVar64 [] _)), app_assoc.
  - destruct (deref (lt_Element t)); try done. cbn [mbind outcome_bind].
    destruct (asArray v); try done. cbn [mbind outcome_bind].
    destruct (encodeBinaryArray _ _ _ _); try done. apply appendLengthBytes_app.
  - destruct (encodeBinaryMap _ _ _ _); try done. apply appendLengthBytes_app.
  - destruct (asRow v); try done. cbn [mbind outcome_bind].
    destruct (encodeRow _ _ _ _); try done. apply appendLengthBytes_app.
Qed.

Lemma encodeKeyLoop_app fuel byName names : forall values dst,
  encodeKeyLoop fuel byName names values dst =
  (fun b => dst ++ b) <$> encodeKeyLoop fuel byName names values [].
Proof.
  induction names as [|name names IH]; intros [|v values] dst; cbn [encodeKeyLoop]; try done;
    try (cbn; by rewrite app_nil_r).
  destruct (isNil v); [done|]. rewrite appendCompactedValue_app.
  destruct (appendCompactedValue _ _ _ _) as [b| | |]; try done. cbn [fmap outcome_fmap mbind outcome_bind].
  rewrite (IH values (dst ++ b)), (IH values b).
  destruct (encodeKeyLoop _ _ _ _ _); try done. cbn. by rewrite app_assoc.
Qed.

(** What the key columns [names] retain of [values]. *)
Definition retainKey (byName : gmap string Column) (names : list string) (values : PrimaryKey)
    : PrimaryKey :=
  zip_with (fun name => retain compactedEncoding true
    (logicalTypeForColumn (default zeroColumn (byName !! name)))) names values.

Lemma encodeKeyLoop_inj fuel byName names : forall values values' suffix suffix' out out',
  forallb wfValue values = true -> forallb wfValue values' = true ->
  encodeKeyLoop fuel byName names values [] = Ok out ->
  encodeKeyLoop fuel byName names values' [] = Ok out' ->
  out ++ suffix = out' ++ suffix' ->
  retainKey byName names values = retainKey byName names values' /\ out = out'.
Proof.
  induction names as [|name names IH]; intros [|v values] [|v' values'] suffix suffix' out out'
    Hw Hw' H H' Hb; cbn [encodeKeyLoop forallb] in *; inv_ok; try done.
  destruct (isNil v), (isNil v'); try done.
  apply bind_Ok in H as (b & Ev & H), H' as (b' & Ev' & H').
  rewrite encodeKeyLoop_app in H, H'.
  apply fmap_Ok in H as (rest & H & ->), H' as (rest' & H' & ->).
  apply andb_true_iff in Hw as [Hv Hw], Hw' as [Hv' Hw'].
  destruct (codecs_agree fuel) as (Hc & _).
  pose proof (Hc _ _ _ Hv Ev [] (rest ++ suffix)) as R.
  pose proof (Hc _ _ _ Hv' Ev' [] (rest' ++ suffix')) as R'.
  rewrite <- !app_assoc in *. cbn [app] in R, R'. rewrite Hb in R.
  rewrite R in R'. injection R' as Er Hg. rewrite !glen_nil in Hg.
  assert (b = b' /\ rest ++ suffix = rest' ++ suffix') as [-> Hrest].
  { apply app_inj_1; [unfold glen in *; lia|congruence]. }
  edestruct (IH values values' suffix suffix' rest rest') as [Hk ->]; try done.
  split; [|done]. unfold retainKey in *. cbn [zip_with]. by rewrite Er, Hk.
Qed.

Lemma EncodePrimaryKey_loop s key b :
  EncodePrimaryKey s key = Ok b ->
  encodeKeyLoop (schemaFuel s) (columnsByName s) (sch_PrimaryKey s) key [] = Ok b.
Proof.
  unfold EncodePrimaryKey, encodeKeyColumns. intros H. inv_ok. by case_match; inv_ok.
Qed.

(** Primary-key encoding is injective: two keys of in-range values that encode to the
    same bytes retain the same values in every key column, although the encoding has no
    delimiter between columns. *)
Theorem primary_key_injective (s : Schema) (key key' : PrimaryKey) (encoded : list byte) :
  forallb wfValue key = true -> forallb wfValue key' = true ->
  EncodePrimaryKey s key = Ok encoded -> EncodePrimaryKey s key' = Ok encoded ->
  retainKey (columnsByName s) (sch_PrimaryKey s) key =
  retainKey (columnsByName s) (sch_PrimaryKey s) key'.
Proof.
  intros Hw Hw' H%EncodePrimaryKey_loop H'%EncodePrimaryKey_loop.
  by eapply (encodeKeyLoop_inj _ _ _ key key' [] []).
Qed.

Definition keySchema : Schema :=
  MkSchema [MkColumn "id" StringType false None "" 0; MkColumn "at" TimestampType false None "" 0]
    ["id"; "at"]%string [] [] [] 0.

(** Two instants in the same millisecond are one key. *)
Lemma primary_key_injective_witness :
  let key := [VString "k"; VTime (MkTime 1700000000 1000001 0)] in
  let key' := [VString "k"; VTime (MkTime 1700000000 1000002 3600)] in
  let key'' := [VString "k"; VTime (MkTime 1700000000 1000002 0)] in
  EncodePrimaryKey keySchema key <> EncodePrimaryKey keySchema key' /\
  retainKey (columnsByName keySchema) (sch_PrimaryKey keySchema) key =
  retainKey (columnsByName keySchema) (sch_PrimaryKey keySchema) key''.
Proof.
  split; [by vm_compute|].
  apply (primary_key_injective keySchema _ _
    (bytesOr (EncodePrimaryKey keySchema [VString "k"; VTime (MkTime 1700000000 1000001 0)])));
    vm_compute; reflexivity.
Defined.

(** ** Encoding a key returns *)

Lemma validateRowLoop_valid (s : Schema) names : forall values,
  validateRowLoop (columnsByName s) names values = Ok tt ->
  Forall2 (fun name v => exists c, columnsByName s !! name = Some c /\ c ∈ sch_Columns s /\
                                   validateColumnValue c v = Ok tt) names (take (length names) values).
Proof.
  induction names as [|name names IH]; intros [|v values] H; cbn in H; try done; cbn; try constructor.
  - destruct (columnsByName s !! name) as [c|] eqn:E; [|done]. exists c. inv_ok.
    split; [done|]. split; [by eapply columnsByName_elem|]. by eapply unit_ok.
  - destruct (columnsByName s !! name) as [c|] eqn:E; [|done]. inv_ok. by apply IH.
Qed.

Lemma encodeKeyLoop_returns (s : Schema) names : forall values encoded,
  schemaComplete s = true ->
  Forall2 (fun name v => exists c, columnsByName s !! name = Some c /\ c ∈ sch_Columns s /\
                                   validateColumnValue c v = Ok tt) names values ->
  returns (encodeKeyLoop (schemaFuel s) (columnsByName s) names values encoded) = true.
Proof.
  induction names as [|name names IH]; intros values encoded Hs Hf; inversion Hf as [|? v ? values' (c & Hc & Hin & Hv) Hfs]; subst; [done|].
  cbn [encodeKeyLoop]. rewrite Hc. cbn [default]. destruct (isNil v) eqn:Hnil; [done|].
  apply bind_returns; [|intros b _; by apply IH].
  destruct (encoders_return (schemaFuel s)) as (Hcv & _). pose proof (schemaDepth_column s c Hin) as Hd.
  unfold schemaComplete in Hs. rewrite forallb_forall in Hs. specialize (Hs c ltac:(by apply list_elem_of_In)).
  change (id c) with c. apply Hcv; [done|unfold schemaFuel; lia|]. by apply validateColumnValue_untyped.
Qed.

Lemma encodeKeyColumns_returns (s : Schema) (names : list string) (values : PrimaryKey) :
  forallb columnTyped (sch_Columns s) = true -> names <> [] -> returns (encodeKeyColumns s names values) = true.
Proof.
  intros Ht Hne. unfold encodeKeyColumns. apply bind_returns; [apply ValidateRow_returns|]. intros [] Hv.
  unfold ValidateRow in Hv. inv_ok. rename select (Schema_Validate _ = _) into Hs.
  pose proof (valid_schemaComplete s _ Hs Ht) as Hcomp. rename select (validateRowLoop _ _ _ = _) into Hl.
  replace (selectedColumns s names) with names in * by (by destruct names).
  apply validateRowLoop_valid in Hl. rename select ((glen _ =? glen _) = true) into Hlen.
  rewrite take_ge in Hl by (unfold glen in Hlen; lia).
  apply bind_returns; [by apply encodeKeyLoop_returns|]. intros b _. by case_match.
Qed.

(** Encoding a key never panics.  For a schema whose ARRAY and MAP columns carry a logical
    type, and any values for any columns, [encodeKeyColumns] returns bytes or an error. *)
Theorem key_encode_returns (s : Schema) (names : list string) (values : PrimaryKey) :
  forallb columnTyped (sch_Columns s) = true -> names <> [] -> returns (encodeKeyColumns s names values) = true.
Proof. apply encodeKeyColumns_returns. Qed.

(** A key whose values do not have the columns' types is an error, not a panic. *)
Lemma key_encode_returns_witness :
  encodeKeyColumns keySchema ["at"; "id"]%string [VString "k"; VNil] <> Panic /\
  returns (encodeKeyColumns keySchema ["at"; "id"]%string [VString "k"; VNil]) = true.
Proof.
  split; [by vm_compute|]. apply (key_encode_returns keySchema); [reflexivity|discriminate].
Defined.
