(* ===== verification/Bucket.v ===== *)
(** * Buckets

    Models [pkg/fgo/bucket.go]: the order in which a writer visits the buckets of a table
    and the hash that assigns a key to a bucket. *)

From stdpp Require Import sorting.
From S2P Require Import Prelude Model.

(** ** The bucket list *)

(** [for id := range buckets]: the iteration order of a Go map is unspecified, but every
    order fails on the same maps and [slices.Sort] forgets it. *)
Definition sortedBuckets (buckets : gmap Z ServerNode) : outcome (list Z) :=
  if Z.of_nat (size buckets) =? 0 then Err ErrMetadata
  else
    let ids := (map_to_list buckets).*1 in
    if existsb (fun id => id <? 0) ids then Err ErrMetadata
    else Ok (merge_sort Z.le ids).

(** ** Murmur3 *)

Definition RotateLeft32 (x k : Z) : Z := uint32 (Z.lor (Z.shiftl x k) (Z.shiftr x (32 - k))).

Definition murmurMixHash (hash value : Z) : Z :=
  let value := uint32 (value * 0xcc9e2d51) in
  let value := RotateLeft32 value 15 in
  let value := uint32 (value * 0x1b873593) in
  let hash := Z.lxor hash value in
  let hash := RotateLeft32 hash 13 in
  uint32 (hash * 5 + 0xe6546b64).

Definition murmurFinal (hash : Z) : Z :=
  let hash := Z.lxor hash (Z.shiftr hash 16) in
  let hash := uint32 (hash * 0x85ebca6b) in
  let hash := Z.lxor hash (Z.shiftr hash 13) in
  let hash := uint32 (hash * 0xc2b2ae35) in
  Z.lxor hash (Z.shiftr hash 16).

(** Both loops of [murmurBytes]: whole little-endian words, then the bytes left over,
    each sign-extended. *)
Fixpoint murmurLoop (value : list byte) (hash : Z) : Z :=
  match value with
  | b0 :: b1 :: b2 :: b3 :: rest =>
    murmurLoop rest (murmurMixHash hash (le_combine [b0; b1; b2; b3]))
  | tail => foldl (fun hash b => murmurMixHash hash (uint32 (int8 (byte.unsigned b)))) hash tail
  end.

Definition murmurBytes (value : list byte) (seed : Z) : Z :=
  murmurFinal (Z.lxor (murmurLoop value seed) (uint32 (glen value))).

Definition murmurInt (value : Z) : Z :=
  let hash := murmurFinal (Z.lxor (murmurMixHash 0 value) 4) in
  if 0 <=? int32 hash then hash
  else if hash =? Z.shiftl 1 31 then 0
  else uint32 (- int32 hash).

(** [hash % uint32(bucketCount)] divides by zero when the count is a multiple of 2^32. *)
Definition flussBucket (key : list byte) (bucketCount : Z) : outcome Z :=
  if (glen key =? 0) || (bucketCount <=? 0) then Err ErrInvalidConfig
  else
    let hash := murmurInt (murmurBytes key 42) in
    if uint32 bucketCount =? 0 then Panic else Ok (int32 (hash mod uint32 bucketCount)).

(** ** Theorems *)

Lemma murmurFinal_range hash : 0 <= hash < 2 ^ 32 -> 0 <= murmurFinal hash < 2 ^ 32.
Proof.
  intros Hh. unfold murmurFinal. cbv zeta.
  apply lxor_range; [lia| |apply shiftr_range; [lia|]]; by apply uwrap_range.
Qed.

(** The second hash is made non-negative the way Java's [Math.abs] guard does it. *)
Lemma murmurInt_range value : 0 <= murmurInt value < 2 ^ 31.
Proof.
  unfold murmurInt. cbv zeta. set (h := murmurFinal _).
  assert (Hh : 0 <= h < 2 ^ 32).
  { apply murmurFinal_range, lxor_range; [lia|by apply uwrap_range|lia]. }
  clearbody h. change (Z.shiftl 1 31) with (2 ^ 31).
  unfold swrap, uwrap. cbn [Z.sub]. change (32 - 1) with 31.
  destruct (Z.leb_spec 0 ((h + 2 ^ 31) mod 2 ^ 32 - 2 ^ 31)); [zlia|].
  destruct (Z.eqb_spec h (2 ^ 31)); zlia.
Qed.

Lemma flussBucket_total (key : list byte) (bucketCount : Z) :
  key <> [] -> 0 < bucketCount < 2 ^ 31 ->
  exists bucket, flussBucket key bucketCount = Ok bucket /\ 0 <= bucket < bucketCount.
Proof.
  intros Hk Hc. unfold flussBucket. assert (glen key <> 0) by (intros H%glen_0_nil; done).
  rewrite (uwrap_small 32) by (unfold urange; lia). if_false. if_false.
  eexists. split; [reflexivity|]. set (hash := murmurInt _).
  pose proof (Z.mod_pos_bound hash bucketCount ltac:(lia)).
  rewrite swrap_small; [lia|lia|]. unfold srange. lia.
Qed.

(** Every key has a bucket.  For a non-empty key and a positive bucket count that fits
    an [int32], [flussBucket] returns an id between 0 and the count. *)
Theorem flussBucket_in_range (key : list byte) (bucketCount : Z) :
  key <> [] -> 0 < bucketCount < 2 ^ 31 ->
  exists bucket, flussBucket key bucketCount = Ok bucket /\ 0 <= bucket < bucketCount.
Proof. apply flussBucket_total. Qed.

Lemma flussBucket_in_range_witness :
  exists bucket, flussBucket [Byte.x66; Byte.x6c; Byte.x75; Byte.x73; Byte.x73] 17 = Ok bucket /\
    0 <= bucket < 17.
Proof. apply (flussBucket_in_range [Byte.x66; Byte.x6c; Byte.x75; Byte.x73; Byte.x73] 17); [done|lia]. Defined.

Lemma sortedBuckets_ids (buckets : gmap Z ServerNode) :
  match sortedBuckets buckets with
  | Ok ids => Sorted Z.le ids /\ NoDup ids /\ ids <> [] /\
              (forall id, id ∈ ids <-> is_Some (buckets !! id)) /\ Forall (fun id => 0 <= id) ids
  | Err e => e = ErrMetadata /\ (buckets = ∅ \/ exists id, id < 0 /\ is_Some (buckets !! id))
  | _ => False
  end.
Proof.
  unfold sortedBuckets. set (ids := (map_to_list buckets).*1).
  assert (Hin : forall id, id ∈ ids <-> is_Some (buckets !! id)).
  { intros id. subst ids. rewrite list_elem_of_fmap. split.
    - intros ([k v] & -> & Hv). apply elem_of_map_to_list in Hv. by exists v.
    - intros [v Hv]. exists (id, v). by rewrite elem_of_map_to_list. }
  destruct (Z.eqb_spec (Z.of_nat (size buckets)) 0) as [H0|H0].
  { split; [done|]. left. apply map_size_empty_iff. lia. }
  destruct (existsb _ _) eqn:Ex.
  - split; [done|]. right. apply existsb_exists in Ex as (id & Hid & Hneg).
    exists id. split; [lia|]. apply Hin. by apply list_elem_of_In.
  - split_and!.
    + apply Sorted_merge_sort, _.
    + rewrite merge_sort_Permutation. apply NoDup_fst_map_to_list.
    + intros He. apply H0. assert (length (merge_sort Z.le ids) = length ids) as Hl
        by (by rewrite merge_sort_Permutation).
      rewrite He in Hl. subst ids. rewrite length_fmap, length_map_to_list in Hl. cbn in Hl. lia.
    + intros id. rewrite merge_sort_Permutation. apply Hin.
    + rewrite merge_sort_Permutation. apply Forall_forall. intros id Hid.
      destruct (Z.leb_spec 0 id); [done|]. exfalso.
      enough (existsb (fun id => id <? 0) ids = true) by congruence.
      apply existsb_exists. exists id. split; [by apply list_elem_of_In|lia].
Qed.

(** [sortedBuckets] returns exactly the bucket ids of the metadata map, ascending and
    without repetition, or reports an empty map or a negative id. *)
Theorem sortedBuckets_spec (buckets : gmap Z ServerNode) :
  match sortedBuckets buckets with
  | Ok ids => Sorted Z.le ids /\ NoDup ids /\ ids <> [] /\
              (forall id, id ∈ ids <-> is_Some (buckets !! id)) /\ Forall (fun id => 0 <= id) ids
  | Err e => e = ErrMetadata /\ (buckets = ∅ \/ exists id, id < 0 /\ is_Some (buckets !! id))
  | _ => False
  end.
Proof. apply sortedBuckets_ids. Qed.

(** The bucket assignment of the Java client on the vectors both implementations are
    tested with. *)
Example flussBucket_java_vectors :
  map (fun key => flussBucket (bytesOf key) 17) ["a"; "fluss"; "0123456789"]%string = [Ok 11; Ok 13; Ok 0] /\
  flussBucket [Byte.xc3; Byte.xbf] 17 = Ok 10.
Proof. split; vm_compute; reflexivity. Qed.
