(* ===== verification/RecordBatch.v ===== *)
(** * Record batches

    Models [pkg/fgo/record_batch.go]: the KV batch a writer sends and the row-oriented log
    batch (magic 0 and 1) a scanner receives, header fields, checksum and records. *)

From S2P Require Import Prelude Model Wire Values Codec DecodeSafety EncodeSafety Roundtrip.

(** ** [crc32.Checksum] with the Castagnoli polynomial *)

Definition castagnoli : Z := 0x82f63b78.

Definition crcBit (c : Z) : Z :=
  if Z.odd c then Z.lxor (Z.shiftr c 1) castagnoli else Z.shiftr c 1.

Definition crcByte (c : Z) (b : byte) : Z :=
  Nat.iter 8 crcBit (Z.lxor c (byte.unsigned b)).

Definition crc32c (data : list byte) : Z :=
  Z.lxor (foldl crcByte 0xffffffff data) 0xffffffff.

(** ** KV batches *)

Definition kvBatchHeaderSize : Z := 28.

(** A nil [Value] is [None]: a delete. *)
Record KVRecord := MkKVRecord { kv_Key : list byte; kv_Value : option (list byte) }.

Record KVBatch := MkKVBatch {
  kb_SchemaID : Z;
  kb_WriterID : Z;
  kb_BatchSequence : Z;
  kb_Records : list KVRecord;
}.

(** The record loop of [KVBatch.Encode]. *)
Fixpoint encodeKVRecords (records : list KVRecord) (encoded : list byte) : outcome (list byte) :=
  match records with
  | [] => Ok encoded
  | record :: records =>
    let value := default [] (kv_Value record) in
    if (maxRowBytes <? glen (kv_Key record)) || (maxRowBytes <? glen value)
    then Err ErrMalformedRecordBatch
    else
      let body := appendVar32 [] (uint32 (glen (kv_Key record))) ++ kv_Key record ++ value in
      if (maxRowBytes <? glen body) || (maxRowBytes <? glen encoded + 4 + glen body)
      then Err ErrMalformedRecordBatch
      else encodeKVRecords records (encoded ++ le_split 4 (uint32 (glen body)) ++ body)
  end.

Definition KVBatch_Encode (b : KVBatch) : outcome (list byte) :=
  if 2147483647 <? glen (kb_Records b) then Err ErrMalformedRecordBatch
  else
    encoded ← set_index (zeros kvBatchHeaderSize) 4 Byte.x00;
    encoded ← putLE 2 encoded 9 (uint16 (kb_SchemaID b));
    encoded ← putLE 8 encoded 12 (uint64 (kb_WriterID b));
    encoded ← putLE 4 encoded 20 (uint32 (kb_BatchSequence b));
    encoded ← putLE 4 encoded 24 (uint32 (glen (kb_Records b)));
    encoded ← encodeKVRecords (kb_Records b) encoded;
    encoded ← putLE 4 encoded 0 (uint32 (glen encoded - 4));
    covered ← slice_from encoded 9;
    putLE 4 encoded 5 (crc32c covered).

Definition decodeKVRecord (encoded : list byte) (position : Z) : outcome (KVRecord * Z) :=
  if glen encoded - position <? 4 then Err ErrMalformedRecordBatch
  else
    length ← getLE 4 encoded position;
    let position := position + 4 in
    if (length <? 1) || (glen encoded - position <? length) then Err ErrMalformedRecordBatch
    else
      let bodyEnd := position + length in
      body ← slice encoded 0 bodyEnd;
      '(keyLength, keyStart) ← rewrap ErrMalformedRecordBatch (readVar body position 5);
      if bodyEnd - keyStart <? keyLength then Err ErrMalformedRecordBatch
      else
        let keyEnd := keyStart + keyLength in
        key ← slice encoded keyStart keyEnd;
        value ← (if keyEnd =? bodyEnd then Ok None
                 else value ← slice encoded keyEnd bodyEnd; Ok (Some value));
        Ok (MkKVRecord key value, bodyEnd).

Fixpoint decodeKVRecords (n : nat) (encoded : list byte) (position : Z)
    : outcome (list KVRecord * Z) :=
  match n with
  | O => Ok ([], position)
  | S n =>
    '(record, next) ← decodeKVRecord encoded position;
    '(records, position) ← decodeKVRecords n encoded next;
    Ok (record :: records, position)
  end.

Definition DecodeKVBatch (encoded : list byte) : outcome KVBatch :=
  if (glen encoded <? kvBatchHeaderSize) || (maxRowBytes <? glen encoded)
  then Err ErrMalformedRecordBatch
  else
    magic ← index encoded 4;
    if negb (byte.unsigned magic =? 0) then Err ErrMalformedRecordBatch
    else
      length ← getLE 4 encoded 0;
      if negb (length =? glen encoded - 4) then Err ErrMalformedRecordBatch
      else
        sum ← getLE 4 encoded 5;
        covered ← slice_from encoded 9;
        if negb (sum =? crc32c covered) then Err ErrMalformedRecordBatch
        else
          count ← getLE 4 encoded 24;
          if glen encoded / 5 <? count then Err ErrMalformedRecordBatch
          else
            schemaID ← getLE 2 encoded 9;
            writerID ← getLE 8 encoded 12;
            sequence ← getLE 4 encoded 20;
            '(records, position) ← decodeKVRecords (Z.to_nat count) encoded kvBatchHeaderSize;
            if negb (position =? glen encoded) then Err ErrMalformedRecordBatch
            else Ok (MkKVBatch (int16 schemaID) (int64 writerID) (int32 sequence) records).

(** ** Log batches *)

Definition logBatchV0HeaderSize : Z := 48.
Definition logBatchV1HeaderSize : Z := 52.

Record LogBatch := MkLogBatch {
  lb_Magic : Z;
  lb_BaseOffset : Z;
  lb_CommitTime : Z;
  lb_LeaderEpoch : Z;
  lb_SchemaID : Z;
  lb_AppendOnly : bool;
  lb_WriterID : Z;
  lb_BatchSequence : Z;
  lb_Records : list Record_;
}.

Definition EncodeRowAs (compacted : bool) (s : Schema) (row : Row) : outcome (list byte) :=
  if compacted then EncodeCompactedRow s row else EncodeIndexedRow s row.
Definition DecodeRowAs (compacted : bool) (s : Schema) (encoded : list byte) : outcome Row :=
  if compacted then DecodeCompactedRow s encoded else DecodeIndexedRow s encoded.

(** The record loop of [LogBatch.EncodeRows]. *)
Fixpoint encodeLogRecords (s : Schema) (compacted : bool) (records : list Record_)
    (encoded : list byte) : outcome (list byte) :=
  match records with
  | [] => Ok encoded
  | record :: records =>
    _ ← ChangeType_Validate (rec_Change record);
    row ← EncodeRowAs compacted s (rec_Value record);
    encodeLogRecords s compacted records
      (encoded ++ le_split 4 (uint32 (1 + glen row)) ++ [byte.of_Z (rec_Change record)] ++ row)
  end.

Definition LogBatch_EncodeRows (b : LogBatch) (s : Schema) (compacted : bool) : outcome (list byte) :=
  if negb (lb_Magic b =? 0) && negb (lb_Magic b =? 1) then Err ErrMalformedRecordBatch
  else
    let headerSize := if lb_Magic b =? 1 then logBatchV1HeaderSize else logBatchV0HeaderSize in
    encoded ← putLE 8 (zeros headerSize) 0 (uint64 (lb_BaseOffset b));
    encoded ← set_index encoded 12 (byte.of_Z (lb_Magic b));
    encoded ← putLE 8 encoded 13 (uint64 (lb_CommitTime b));
    encoded ← (if lb_Magic b =? 1 then putLE 4 encoded 21 (uint32 (lb_LeaderEpoch b)) else Ok encoded);
    let '(crcOffset, schemaOffset) := if lb_Magic b =? 1 then (25, 29) else (21, 25) in
    encoded ← putLE 2 encoded schemaOffset (uint16 (lb_SchemaID b));
    encoded ← (if lb_AppendOnly b then set_index encoded (schemaOffset + 2) Byte.x01 else Ok encoded);
    let lastOffset := schemaOffset + 3 in
    encoded ← (if 0 <? glen (lb_Records b)
               then putLE 4 encoded lastOffset (uint32 (glen (lb_Records b) - 1)) else Ok encoded);
    encoded ← putLE 8 encoded (lastOffset + 4) (uint64 (lb_WriterID b));
    encoded ← putLE 4 encoded (lastOffset + 12) (uint32 (lb_BatchSequence b));
    encoded ← putLE 4 encoded (lastOffset + 16) (uint32 (glen (lb_Records b)));
    encoded ← encodeLogRecords s compacted (lb_Records b) encoded;
    encoded ← putLE 4 encoded 8 (uint32 (glen encoded - 12));
    covered ← slice_from encoded schemaOffset;
    putLE 4 encoded crcOffset (crc32c covered).

Definition logBatchHeader (encoded : list byte) : outcome (Z * Z * Z) :=
  if (glen encoded <? 13) || (maxRowBytes <? glen encoded) then Err ErrMalformedRecordBatch
  else
    b ← index encoded 12;
    let magic := byte.unsigned b in
    if negb (magic =? 1) && negb (magic =? 0) then Err ErrMalformedRecordBatch
    else
      let headerSize := if magic =? 1 then logBatchV1HeaderSize else logBatchV0HeaderSize in
      let '(crcOffset, schemaOffset) := if magic =? 1 then (25, 29) else (21, 25) in
      if glen encoded <? headerSize then Err ErrMalformedRecordBatch
      else
        length ← getLE 4 encoded 8;
        if negb (length =? glen encoded - 12) then Err ErrMalformedRecordBatch
        else
          covered ← slice_from encoded schemaOffset;
          sum ← getLE 4 encoded crcOffset;
          if negb (sum =? crc32c covered) then Err ErrMalformedRecordBatch
          else Ok (magic, headerSize, schemaOffset).

(** [time.UnixMilli] gives the instant in the process's zone; [zone] is the offset of that
    zone at a Unix second, which is not part of the program. *)
Section Zone.
Variable zone : Z -> Z.

Definition UnixMilliLocal (ms : Z) : Time :=
  let t := timeUnixMilli ms in MkTime (t_sec t) (t_nsec t) (zone (t_sec t)).

Definition decodeLogRecord (s : Schema) (baseOffset commitTime : Z) (encoded : list byte)
    (position index_ : Z) (compacted : bool) : outcome (Record_ * Z) :=
  if glen encoded - position <? 5 then Err ErrMalformedRecordBatch
  else
    length ← getLE 4 encoded position;
    let position := position + 4 in
    if (length <? 1) || (glen encoded - position <? length) then Err ErrMalformedRecordBatch
    else
      b ← index encoded position;
      let change := int8 (byte.unsigned b) in
      _ ← rewrap ErrMalformedRecordBatch (ChangeType_Validate change);
      let bodyEnd := position + length in
      body ← slice encoded (position + 1) bodyEnd;
      row ← DecodeRowAs compacted s body;
      Ok (MkRecord [] row change (UnixMilliLocal commitTime) (int64 (baseOffset + index_)), bodyEnd).

Fixpoint decodeLogRecords (s : Schema) (baseOffset commitTime : Z) (encoded : list byte)
    (compacted : bool) (n : nat) (position index_ : Z) : outcome (list Record_ * Z) :=
  match n with
  | O => Ok ([], position)
  | S n =>
    '(record, next) ← decodeLogRecord s baseOffset commitTime encoded position index_ compacted;
    '(records, position) ←
      decodeLogRecords s baseOffset commitTime encoded compacted n next (index_ + 1);
    Ok (record :: records, position)
  end.

Definition DecodeLogBatchRows (s : Schema) (encoded : list byte) (compacted : bool)
    : outcome LogBatch :=
  '(magic, headerSize, schemaOffset) ← logBatchHeader encoded;
  let lastOffset := schemaOffset + 3 in
  count ← getLE 4 encoded (lastOffset + 16);
  if (glen encoded - headerSize) / 5 <? count then Err ErrMalformedRecordBatch
  else
    baseOffset ← getLE 8 encoded 0;
    commitTime ← getLE 8 encoded 13;
    schemaID ← getLE 2 encoded schemaOffset;
    attributes ← index encoded (schemaOffset + 2);
    writerID ← getLE 8 encoded (lastOffset + 4);
    sequence ← getLE 4 encoded (lastOffset + 12);
    leaderEpoch ← (if magic =? 1 then z ← getLE 4 encoded 21; Ok (int32 z) else Ok 0);
    '(records, position) ←
      decodeLogRecords s (int64 baseOffset) (int64 commitTime) encoded compacted
        (Z.to_nat count) headerSize 0;
    if negb (position =? glen encoded) then Err ErrMalformedRecordBatch
    else Ok (MkLogBatch magic (int64 baseOffset) (int64 commitTime) leaderEpoch (int16 schemaID)
               (negb (Z.land (byte.unsigned attributes) 1 =? 0)) (int64 writerID) (int32 sequence)
               records).
End Zone.

(** ** The checksum *)

Lemma crcBit_range c : 0 <= c < 2 ^ 32 -> 0 <= crcBit c < 2 ^ 32.
Proof.
  intros Hc. unfold crcBit. rewrite Z.shiftr_div_pow2 by lia. change (2 ^ 1) with 2.
  assert (0 <= c / 2 < 2 ^ 32) by zlia.
  destruct (Z.odd c); [|done]. apply lxor_range; [lia|done|done].
Qed.

Lemma lxor_inj_l a b c : Z.lxor a c = Z.lxor b c -> a = b.
Proof.
  intros H. apply (f_equal (fun z => Z.lxor z c)) in H.
  by rewrite !Z.lxor_assoc, Z.lxor_nilpotent, !Z.lxor_0_r in H.
Qed.

(** The polynomial has its top bit set, so one step can be undone. *)
Lemma crcBit_inj a b : 0 <= a < 2 ^ 32 -> 0 <= b < 2 ^ 32 -> crcBit a = crcBit b -> a = b.
Proof.
  intros Ha Hb. unfold crcBit. rewrite !Z.shiftr_div_pow2 by lia. change (2 ^ 1) with 2.
  pose proof (Zdiv2_odd_eqn a) as Ea. pose proof (Zdiv2_odd_eqn b) as Eb.
  rewrite !Z.div2_div in *.
  assert (Htop : forall z, 0 <= z / 2 < 2 ^ 31 -> Z.testbit (Z.lxor (z / 2) castagnoli) 31 = true).
  { intros z Hz. rewrite Z.lxor_spec. replace (Z.testbit (z / 2) 31) with false; [done|].
    symmetry. destruct (decide (z / 2 = 0)) as [->|]; [done|].
    apply Z.bits_above_log2; [lia|]. apply Z.log2_lt_pow2; lia. }
  assert (Hlow : forall z, 0 <= z / 2 < 2 ^ 31 -> Z.testbit (z / 2) 31 = false).
  { intros z Hz. destruct (decide (z / 2 = 0)) as [->|]; [done|].
    apply Z.bits_above_log2; [lia|]. apply Z.log2_lt_pow2; lia. }
  assert (0 <= a / 2 < 2 ^ 31) by zlia. assert (0 <= b / 2 < 2 ^ 31) by zlia.
  destruct (Z.odd a), (Z.odd b); intros Heq.
  - apply lxor_inj_l in Heq. lia.
  - pose proof (Htop a) as T. rewrite Heq, Hlow in T by done. by specialize (T ltac:(done)).
  - pose proof (Htop b) as T. rewrite <- Heq, Hlow in T by done. by specialize (T ltac:(done)).
  - lia.
Qed.

Lemma crcBits_range n c : 0 <= c < 2 ^ 32 -> 0 <= Nat.iter n crcBit c < 2 ^ 32.
Proof. intros. induction n; [done|]. by apply crcBit_range. Qed.

Lemma crcBits_inj n a b :
  0 <= a < 2 ^ 32 -> 0 <= b < 2 ^ 32 -> Nat.iter n crcBit a = Nat.iter n crcBit b -> a = b.
Proof.
  intros Ha Hb. induction n as [|n IH]; [done|]. intros H. apply IH.
  apply crcBit_inj; [by apply crcBits_range..|done].
Qed.

Lemma byte_range32 b : 0 <= byte.unsigned b < 2 ^ 32.
Proof. pose proof (byte.unsigned_range b). lia. Qed.

Lemma crcByte_range c b : 0 <= c < 2 ^ 32 -> 0 <= crcByte c b < 2 ^ 32.
Proof. intros. apply crcBits_range, lxor_range; [lia|done|apply byte_range32]. Qed.

Lemma crcByte_inj a b x y :
  0 <= a < 2 ^ 32 -> 0 <= b < 2 ^ 32 -> crcByte a x = crcByte b y ->
  Z.lxor a (byte.unsigned x) = Z.lxor b (byte.unsigned y).
Proof.
  intros. apply (crcBits_inj 8); [apply lxor_range; [lia|done|apply byte_range32]..|done].
Qed.

Lemma crcFold_range data : forall c, 0 <= c < 2 ^ 32 -> 0 <= foldl crcByte c data < 2 ^ 32.
Proof. induction data as [|b data IH]; intros c Hc; [done|]. by apply IH, crcByte_range. Qed.

Lemma crc32c_range data : 0 <= crc32c data < 2 ^ 32.
Proof. apply lxor_range; [lia|by apply crcFold_range|lia]. Qed.

Lemma crcFold_inj data : forall a b,
  0 <= a < 2 ^ 32 -> 0 <= b < 2 ^ 32 -> foldl crcByte a data = foldl crcByte b data -> a = b.
Proof.
  induction data as [|x data IH]; intros a b Ha Hb H; [done|]. cbn [foldl] in H.
  apply IH in H; [|by apply crcByte_range..].
  by apply crcByte_inj, lxor_inj_l in H.
Qed.

(** Two messages that differ in one byte have different checksums. *)
Lemma crc32c_one_byte p s b b' : b <> b' -> crc32c (p ++ b :: s) <> crc32c (p ++ b' :: s).
Proof.
  intros Hb H%lxor_inj_l. rewrite !foldl_app in H. cbn [foldl] in H.
  pose proof (crcFold_range p 0xffffffff ltac:(lia)) as Hc.
  apply crcFold_inj in H; [|by apply crcByte_range..].
  apply crcByte_inj in H; [|done..].
  rewrite (Z.lxor_comm _ (byte.unsigned b)), (Z.lxor_comm _ (byte.unsigned b')) in H.
  apply lxor_inj_l in H. apply Hb.
  rewrite <- (byte.of_Z_unsigned b), <- (byte.of_Z_unsigned b'). by rewrite H.
Qed.

(** ** The layout of a KV batch *)

Lemma overwrite_field (l p m s src : list byte) off :
  l = p ++ m ++ s -> off = glen p -> glen m = glen src -> overwrite l off src = Ok (p ++ src ++ s).
Proof.
  intros -> -> Hm. apply overwrite_Ok. split; [glia|]. split; [glia|]. unfold glen in *.
  rewrite Nat2Z.id, take_app_length. do 2 f_equal.
  rewrite <- drop_drop, drop_app_length.
  replace (length src) with (length m) by lia. by rewrite drop_app_length.
Qed.

(** Fills the field [m] between [p] and [s] of a header under construction. *)
Ltac fill_field p m s :=
  rewrite (overwrite_field _ p m s) by (rewrite <- ?app_assoc; try reflexivity; glia);
  cbn [mbind outcome_bind].

Definition kvBody (r : KVRecord) : list byte :=
  appendVar32 [] (uint32 (glen (kv_Key r))) ++ kv_Key r ++ default [] (kv_Value r).
Definition kvRecordBytes (r : KVRecord) : list byte := le_split 4 (uint32 (glen (kvBody r))) ++ kvBody r.

(** The bytes under the checksum: schema, reserved byte, writer, sequence, count, records. *)
Definition kvCovered (b : KVBatch) : list byte :=
  le_split 2 (uint16 (kb_SchemaID b)) ++ [Byte.x00] ++ le_split 8 (uint64 (kb_WriterID b)) ++
  le_split 4 (uint32 (kb_BatchSequence b)) ++ le_split 4 (uint32 (glen (kb_Records b))) ++
  concat (map kvRecordBytes (kb_Records b)).

Definition kvLayout (b : KVBatch) : list byte :=
  le_split 4 (uint32 (5 + glen (kvCovered b))) ++ [Byte.x00] ++
  le_split 4 (crc32c (kvCovered b)) ++ kvCovered b.

Lemma encodeKVRecords_Ok records : forall encoded r,
  encodeKVRecords records encoded = Ok r ->
  r = encoded ++ concat (map kvRecordBytes records) /\
  (glen encoded <= maxRowBytes -> glen r <= maxRowBytes).
Proof.
  induction records as [|record records IH]; intros encoded r H; cbn [encodeKVRecords] in H.
  { inv_ok. cbn. by rewrite app_nil_r. }
  case_match; [done|]. fold (kvBody record) in H. case_match eqn:E2; [done|].
  apply IH in H as (-> & Hl). split.
  - cbn. unfold kvRecordBytes. by rewrite !app_assoc.
  - intros _. apply Hl. glia.
Qed.

Lemma encodeKVRecords_fit records : forall encoded r,
  encodeKVRecords records encoded = Ok r ->
  Forall (fun rec => glen (kv_Key rec) <= maxRowBytes /\ glen (kvBody rec) <= maxRowBytes) records.
Proof.
  induction records as [|record records IH]; intros encoded r H; cbn [encodeKVRecords] in H; [constructor|].
  case_match; [done|]. fold (kvBody record) in H. case_match; [done|].
  constructor; [lia|]. by eapply IH.
Qed.

Lemma KVBatch_Encode_layout (b : KVBatch) (encoded : list byte) :
  KVBatch_Encode b = Ok encoded -> encoded = kvLayout b /\ glen encoded <= maxRowBytes.
Proof.
  unfold KVBatch_Encode. case_match; [done|]. unfold putLE.
  change (zeros kvBatchHeaderSize) with
    (zeros 4 ++ [Byte.x00] ++ zeros 4 ++ zeros 2 ++ [Byte.x00] ++ zeros 8 ++ zeros 4 ++ zeros 4).
  change (set_index _ 4 Byte.x00) with
    (Ok (zeros 4 ++ [Byte.x00] ++ zeros 4 ++ zeros 2 ++ [Byte.x00] ++ zeros 8 ++ zeros 4 ++ zeros 4)).
  cbn [mbind outcome_bind].
  set (f1 := le_split 2 _). set (f2 := le_split 8 _). set (f3 := le_split 4 (uint32 (kb_BatchSequence b))).
  set (f4 := le_split 4 (uint32 (glen (kb_Records b)))).
  fill_field (zeros 4 ++ [Byte.x00] ++ zeros 4) (zeros 2) ([Byte.x00] ++ zeros 8 ++ zeros 4 ++ zeros 4).
  fill_field ((zeros 4 ++ [Byte.x00] ++ zeros 4) ++ f1 ++ [Byte.x00]) (zeros 8) (zeros 4 ++ zeros 4).
  fill_field (((zeros 4 ++ [Byte.x00] ++ zeros 4) ++ f1 ++ [Byte.x00]) ++ f2) (zeros 4) (zeros 4).
  fill_field ((((zeros 4 ++ [Byte.x00] ++ zeros 4) ++ f1 ++ [Byte.x00]) ++ f2) ++ f3) (zeros 4) (@nil byte).
  intros Henc. apply bind_Ok in Henc as (r & Hrec & Henc).
  apply encodeKVRecords_Ok in Hrec as (-> & Hmax). rewrite glen_app in Hmax.
  set (recs := concat _) in *.
  assert (Hc : kvCovered b = f1 ++ [Byte.x00] ++ f2 ++ f3 ++ f4 ++ recs) by done.
  rewrite <- !app_assoc in Henc. cbn [app] in Henc, Hc. rewrite <- Hc in Henc.
  revert Henc. set (L := le_split 4 (uint32 (glen _ - 4))).
  assert (HL : L = le_split 4 (uint32 (5 + glen (kvCovered b)))).
  { subst L. do 2 f_equal. rewrite glen_app, glen_cons, glen_app. change (glen (zeros 4)) with 4. lia. }
  fill_field (@nil byte) (zeros 4) (Byte.x00 :: zeros 4 ++ kvCovered b). cbn [app].
  replace (L ++ Byte.x00 :: zeros 4 ++ kvCovered b) with ((L ++ [Byte.x00] ++ zeros 4) ++ kvCovered b)
    by (by rewrite <- !app_assoc).
  rewrite slice_from_app by (subst L; by rewrite !glen_app, glen_le_split). cbn [mbind outcome_bind].
  rewrite (overwrite_field _ (L ++ [Byte.x00]) (zeros 4) (kvCovered b))
    by (rewrite <- ?app_assoc; try reflexivity; subst L; glia).
  intros [= <-]. unfold kvLayout. rewrite <- HL. split; [by rewrite <- ?app_assoc|].
  autorewrite with golen in Hmax |- *. subst L f1 f2 f3 f4. rewrite Hc.
  autorewrite with golen in Hmax |- *. change (glen (zeros 4)) with 4 in Hmax.
  rewrite maxRowBytes_val in *. lia.
Qed.

(** The bytes of a KV batch are the documented layout: length, magic 0, CRC-32C of
    what follows it, schema, reserved byte, writer, sequence, count, and the records, each
    as its length, the varint key length, the key and the value; and no batch exceeds the
    row limit. *)
Theorem kv_batch_layout (b : KVBatch) (encoded : list byte) :
  KVBatch_Encode b = Ok encoded -> encoded = kvLayout b /\ glen encoded <= maxRowBytes.
Proof. apply KVBatch_Encode_layout. Qed.

(** ** KV batches round-trip *)

(** An empty value has the bytes of a delete. *)
Definition retainKV (r : KVRecord) : KVRecord :=
  MkKVRecord (kv_Key r) (match kv_Value r with Some [] => None | v => v end).

Lemma uint32_small z : 0 <= z < 2 ^ 32 -> uint32 z = z.
Proof. intros. apply uwrap_small. unfold urange. lia. Qed.

Lemma kvBody_glen r : glen (kvBody r) =
  glen (appendVar32 [] (uint32 (glen (kv_Key r)))) + glen (kv_Key r) + glen (default [] (kv_Value r)).
Proof. unfold kvBody. glia. Qed.

Lemma decodeKVRecord_round p r s :
  glen (kvBody r) <= maxRowBytes ->
  decodeKVRecord (p ++ kvRecordBytes r ++ s) (glen p) =
  Ok (retainKV r, glen p + glen (kvRecordBytes r)).
Proof.
  rewrite maxRowBytes_val. intros Hb. unfold decodeKVRecord, kvRecordBytes.
  pose proof (kvBody_glen r) as Hbody. set (V := appendVar32 [] (uint32 (glen (kv_Key r)))) in *.
  assert (HV : 1 <= glen V <= 10) by (apply appendVar64_glen; pose proof (uint32_range (glen (kv_Key r))); lia).
  set (v := default [] (kv_Value r)) in *.
  pose proof (glen_nonneg (kv_Key r)). pose proof (glen_nonneg v). pose proof (glen_nonneg p).
  pose proof (glen_nonneg s). rewrite uint32_small by lia.
  rewrite <- app_assoc, !glen_app, glen_le_split. change (Z.of_nat 4) with 4. if_false.
  rewrite getLE_app by done. cbn [mbind outcome_bind].
  rewrite Z.mod_small by (change (2 ^ (8 * Z.of_nat 4)) with (2 ^ 32); lia). if_false.
  rewrite app_assoc. set (p4 := p ++ le_split 4 (glen (kvBody r))).
  assert (Hp4 : glen p4 = glen p + 4) by (subst p4; glia). rewrite <- Hp4.
  assert (Hs0 : slice (p4 ++ kvBody r ++ s) 0 (glen p4 + glen (kvBody r)) = Ok (p4 ++ kvBody r)).
  { rewrite app_assoc. apply (slice_app [] (p4 ++ kvBody r) s); glia. }
  rewrite Hs0. cbn [mbind outcome_bind].
  assert (Hvar : readVar (p4 ++ kvBody r) (glen p4) 5 = Ok (glen (kv_Key r), glen p4 + glen V)).
  { unfold kvBody. fold V v. subst V. rewrite readVar32_round, uint32_small by lia. done. }
  rewrite Hvar. cbn [rewrap mbind outcome_bind]. if_false.
  assert (Hk : slice (p4 ++ kvBody r ++ s) (glen p4 + glen V) (glen p4 + glen V + glen (kv_Key r))
               = Ok (kv_Key r)).
  { unfold kvBody. fold V v. rewrite <- !app_assoc, (app_assoc p4).
    apply slice_app; rewrite ?glen_app; lia. }
  rewrite Hk. cbn [mbind outcome_bind]. unfold retainKV.
  replace (glen p + (4 + glen (kvBody r))) with (glen p4 + glen (kvBody r)) by lia.
  destruct (Z.eqb_spec (glen p4 + glen V + glen (kv_Key r)) (glen p4 + glen (kvBody r))) as [E|E].
  - assert (v = []) as Hv by (apply glen_0_nil; lia). subst v.
    destruct (kv_Value r) as [w|]; [|done]. cbn in Hv. by subst w.
  - assert (Hval : slice (p4 ++ kvBody r ++ s) (glen p4 + glen V + glen (kv_Key r))
                     (glen p4 + glen (kvBody r)) = Ok v).
    { unfold kvBody. fold V v. rewrite <- !app_assoc, (app_assoc p4), (app_assoc (p4 ++ V)).
      apply slice_app; rewrite ?glen_app; lia. }
    rewrite Hval. cbn [mbind outcome_bind]. subst v.
    destruct (kv_Value r) as [[|x w]|]; cbn [default from_option id] in *; try done;
      exfalso; rewrite glen_nil in *; lia.
Qed.

Lemma decodeKVRecords_round records : forall p,
  Forall (fun rec => glen (kv_Key rec) <= maxRowBytes /\ glen (kvBody rec) <= maxRowBytes) records ->
  decodeKVRecords (length records) (p ++ concat (map kvRecordBytes records)) (glen p) =
  Ok (map retainKV records, glen (p ++ concat (map kvRecordBytes records))).
Proof.
  induction records as [|r records IH]; intros p Hf; cbn [length decodeKVRecords map concat].
  { by rewrite app_nil_r. }
  apply Forall_cons in Hf as [[_ Hr] Hf]. rewrite decodeKVRecord_round by done.
  cbn [mbind outcome_bind]. rewrite app_assoc, <- glen_app, IH by done. done.
Qed.

(** At least five bytes per record, so the decoder's plausibility check passes. *)
Lemma kvRecords_glen records :
  5 * glen records <= glen (concat (map kvRecordBytes records)).
Proof.
  induction records as [|r records IH]; [done|]. cbn [map concat]. rewrite glen_app, glen_cons.
  unfold kvRecordBytes at 1. rewrite glen_app, glen_le_split, kvBody_glen.
  pose proof (appendVar64_glen (uint32 (glen (kv_Key r))) ltac:(pose proof (uint32_range (glen (kv_Key r))); lia)).
  pose proof (glen_nonneg (kv_Key r)). pose proof (glen_nonneg (default [] (kv_Value r))).
  unfold appendVar32. lia.
Qed.

Lemma getLE_field (l p s : list byte) w z off :
  l = p ++ le_split w z ++ s -> off = glen p -> getLE w l off = Ok (uwrap (8 * Z.of_nat w) z).
Proof. intros -> ->. by apply getLE_app. Qed.

(** Reads the field after [p] of a complete header. *)
Ltac read_field p :=
  erewrite (getLE_field _ p) by (rewrite <- ?app_assoc; try reflexivity; glia);
  cbn [mbind outcome_bind].

Definition kvInRange (b : KVBatch) : bool :=
  srange 16 (kb_SchemaID b) && srange 64 (kb_WriterID b) && srange 32 (kb_BatchSequence b).

Definition retainBatch (b : KVBatch) : KVBatch :=
  MkKVBatch (kb_SchemaID b) (kb_WriterID b) (kb_BatchSequence b) (map retainKV (kb_Records b)).

Lemma kvLayout_fields b (p2 := le_split 4 (uint32 (5 + glen (kvCovered b))) ++ [Byte.x00])
    (p3 := p2 ++ le_split 4 (crc32c (kvCovered b))) :
  glen (kvLayout b) = 9 + glen (kvCovered b) /\
  index (kvLayout b) 4 = Ok Byte.x00 /\
  getLE 4 (kvLayout b) 0 = Ok (uint32 (uint32 (5 + glen (kvCovered b)))) /\
  getLE 4 (kvLayout b) 5 = Ok (uint32 (crc32c (kvCovered b))) /\
  slice_from (kvLayout b) 9 = Ok (kvCovered b) /\
  getLE 2 (kvLayout b) 9 = Ok (uint16 (uint16 (kb_SchemaID b))) /\
  getLE 8 (kvLayout b) 12 = Ok (uint64 (uint64 (kb_WriterID b))) /\
  getLE 4 (kvLayout b) 20 = Ok (uint32 (uint32 (kb_BatchSequence b))) /\
  getLE 4 (kvLayout b) 24 = Ok (uint32 (uint32 (glen (kb_Records b)))).
Proof.
  unfold kvLayout.
  assert (Hp3 : glen p3 = 9) by (subst p3 p2; glia).
  replace (le_split 4 _ ++ [Byte.x00] ++ _) with (p3 ++ kvCovered b)
    by (subst p3 p2; by rewrite <- !app_assoc).
  assert (Hf : forall w z p s off, kvCovered b = p ++ le_split w z ++ s -> off = 9 + glen p ->
    getLE w (p3 ++ kvCovered b) off = Ok (uwrap (8 * Z.of_nat w) z)).
  { intros w z p s off Hc ->. apply (getLE_field _ (p3 ++ p) s); [by rewrite Hc, app_assoc|glia]. }
  split_and!.
  - glia.
  - subst p3 p2. rewrite <- !app_assoc. apply index_app. glia.
  - subst p3 p2. rewrite <- !app_assoc. apply (getLE_head 4).
  - subst p3. rewrite <- app_assoc. apply (getLE_field _ p2 (kvCovered b) 4 _); [reflexivity|]. subst p2. glia.
  - by apply slice_from_app.
  - by eapply (Hf 2%nat (uint16 (kb_SchemaID b)) []).
  - eapply (Hf 8%nat (uint64 (kb_WriterID b)) (le_split 2 _ ++ [Byte.x00])); [unfold kvCovered; by rewrite <- !app_assoc|glia].
  - eapply (Hf 4%nat (uint32 (kb_BatchSequence b)) (le_split 2 _ ++ [Byte.x00] ++ le_split 8 _));
      [unfold kvCovered; by rewrite <- !app_assoc|glia].
  - eapply (Hf 4%nat (uint32 (glen (kb_Records b))) (le_split 2 _ ++ [Byte.x00] ++ le_split 8 _ ++ le_split 4 _));
      [unfold kvCovered; by rewrite <- !app_assoc|glia].
Qed.

(** The records follow a header of 28 bytes. *)
Lemma kvLayout_records b : exists p, glen p = kvBatchHeaderSize /\
  kvLayout b = p ++ concat (map kvRecordBytes (kb_Records b)).
Proof.
  exists (le_split 4 (uint32 (5 + glen (kvCovered b))) ++ [Byte.x00] ++ le_split 4 (crc32c (kvCovered b)) ++
    le_split 2 (uint16 (kb_SchemaID b)) ++ [Byte.x00] ++ le_split 8 (uint64 (kb_WriterID b)) ++
    le_split 4 (uint32 (kb_BatchSequence b)) ++ le_split 4 (uint32 (glen (kb_Records b)))).
  split; [by rewrite !glen_app, !glen_le_split|].
  unfold kvLayout. unfold kvCovered at 3. by rewrite <- !app_assoc.
Qed.

Lemma KVBatch_Encode_Decode (b : KVBatch) (encoded : list byte) :
  kvInRange b = true -> KVBatch_Encode b = Ok encoded -> DecodeKVBatch encoded = Ok (retainBatch b).
Proof.
  intros Hr H. pose proof (KVBatch_Encode_layout b encoded H) as [Hl Hm].
  unfold KVBatch_Encode in H. case_match; [done|]. inv_ok.
  rename select (encodeKVRecords _ _ = _) into Hrec. apply encodeKVRecords_fit in Hrec.
  rename select (glen _ <= maxRowBytes) into Hm.
  pose proof (kvRecords_glen (kb_Records b)) as H5. pose proof (glen_nonneg (kb_Records b)).
  destruct (kvLayout_records b) as (p & Hp & Ep). unfold kvBatchHeaderSize in Hp.
  destruct (kvLayout_fields b) as (Hg & Hf1 & Hf2 & Hf3 & Hf4 & Hf5 & Hf6 & Hf7 & Hf8).
  assert (Hlen : 28 + 5 * glen (kb_Records b) <= glen (kvLayout b)) by (rewrite Ep; glia).
  unfold kvInRange in Hr. apply andb_true_iff in Hr as [Hr Hr3]. apply andb_true_iff in Hr as [Hr1 Hr2].
  unfold DecodeKVBatch, kvBatchHeaderSize. rewrite maxRowBytes_val in *. if_false.
  rewrite Hf1. cbn [mbind outcome_bind]. change (negb (byte.unsigned Byte.x00 =? 0)) with false. cbv iota.
  rewrite Hf2. cbn [mbind outcome_bind]. rewrite !uint32_small by (rewrite ?uint32_small; lia).
  if_false. rewrite Hf3, Hf4. cbn [mbind outcome_bind]. rewrite uint32_small by apply crc32c_range.
  rewrite Z.eqb_refl. cbn [negb]. rewrite Hf8. cbn [mbind outcome_bind].
  rewrite !uint32_small by (rewrite ?uint32_small; lia).
  replace (glen (kvLayout b) / 5 <? glen (kb_Records b)) with false by zlia. cbv iota.
  rewrite Hf5, Hf6, Hf7. cbn [mbind outcome_bind].
  replace (Z.to_nat (glen (kb_Records b))) with (length (kb_Records b)) by (unfold glen; lia).
  rewrite <- Hp, Ep, decodeKVRecords_round by done. cbn [mbind outcome_bind].
  rewrite Z.eqb_refl. cbn [negb]. rewrite !uwrap_wider by lia.
  by rewrite !swrap_uwrap_small by done.
Qed.

(** KV batches round-trip: what [KVBatch.Encode] returns, [DecodeKVBatch] accepts and
    decodes to the same batch (an empty value, which has the bytes of a delete, aside). *)
Theorem kv_batch_roundtrip (b : KVBatch) (encoded : list byte) :
  kvInRange b = true -> KVBatch_Encode b = Ok encoded -> DecodeKVBatch encoded = Ok (retainBatch b).
Proof. apply KVBatch_Encode_Decode. Qed.

Definition sampleKVBatch : KVBatch :=
  MkKVBatch 9 7 13 [MkKVRecord [Byte.x2a] (Some [Byte.x00; Byte.x01]); MkKVRecord [Byte.x2b] None].

Lemma kv_batch_layout_witness :
  bytesOr (KVBatch_Encode sampleKVBatch) = kvLayout sampleKVBatch /\
  glen (bytesOr (KVBatch_Encode sampleKVBatch)) <= maxRowBytes.
Proof. apply (kv_batch_layout sampleKVBatch). vm_compute. reflexivity. Defined.

Lemma kv_batch_roundtrip_witness :
  DecodeKVBatch (bytesOr (KVBatch_Encode sampleKVBatch)) = Ok sampleKVBatch.
Proof. apply (kv_batch_roundtrip sampleKVBatch); vm_compute; reflexivity. Defined.

(** ** KV decoding is total and detects corruption *)

Lemma readVar_range encoded position v next :
  0 <= position -> readVar encoded position 5 = Ok (v, next) -> 0 <= v /\ position < next <= glen encoded.
Proof.
  intros Hp H. split; [|by eapply readVarLoop_bound].
  eapply (readVarLoop_nonneg 5 0 encoded position 0); [lia|exact H].
Qed.

Lemma decodeKVRecord_returns encoded position :
  0 <= position ->
  returns (decodeKVRecord encoded position) = true /\
  forall r next, decodeKVRecord encoded position = Ok (r, next) -> position < next <= glen encoded.
Proof.
  intros Hp. unfold decodeKVRecord. destruct (Z.ltb_spec (glen encoded - position) 4); [done|].
  destruct (getLE_safe 4 encoded position) as [len Hlen]; [lia|cbn; lia|]. rewrite Hlen.
  apply getLE_range in Hlen. cbn [mbind outcome_bind].
  destruct (_ || _) eqn:E; [done|].
  destruct (slice_safe encoded 0 (position + 4 + len)) as [body Hb]; [lia..|]. rewrite Hb.
  apply slice_glen in Hb. cbn [mbind outcome_bind].
  pose proof (readVar_returns body (position + 4) 5 ltac:(lia)) as Hv.
  destruct (readVar body (position + 4) 5) as [[k start]| | |] eqn:Ev; try done.
  apply readVar_range in Ev as [Hk Hs]; [|lia]. cbn [rewrap mbind outcome_bind].
  destruct (Z.ltb_spec (position + 4 + len - start) k); [done|].
  destruct (slice_safe encoded start (start + k)) as [key ->]; [lia..|]. cbn [mbind outcome_bind].
  destruct (_ =? _); cbn [mbind outcome_bind].
  - split; [done|]. intros ? ? [= <- <-]. lia.
  - destruct (slice_safe encoded (start + k) (position + 4 + len)) as [value ->]; [lia..|].
    cbn [mbind outcome_bind]. split; [done|]. intros ? ? [= <- <-]. lia.
Qed.

Lemma decodeKVRecords_returns n : forall encoded position,
  0 <= position -> returns (decodeKVRecords n encoded position) = true.
Proof.
  induction n as [|n IH]; intros encoded position Hp; [done|]. cbn [decodeKVRecords].
  destruct (decodeKVRecord_returns encoded position Hp) as [Hr Hn].
  apply bind_returns; [done|]. intros [r next] E. apply Hn in E.
  apply bind_returns; [apply IH; lia|]. by intros [].
Qed.

(** [DecodeKVBatch] returns a batch or an error for every byte string: no length or
    count field of a hostile batch makes it index out of range. *)
Theorem kv_decode_returns (encoded : list byte) : returns (DecodeKVBatch encoded) = true.
Proof.
  unfold DecodeKVBatch, kvBatchHeaderSize. destruct (_ || _) eqn:E; [done|].
  destruct (index_safe encoded 4) as [m ->]; [lia|]. cbn [mbind outcome_bind]. case_match; [done|].
  destruct (getLE_safe 4 encoded 0) as [z1 ->]; [lia|cbn; lia|]. cbn [mbind outcome_bind]. case_match; [done|].
  destruct (getLE_safe 4 encoded 5) as [z2 ->]; [lia|cbn; lia|]. cbn [mbind outcome_bind].
  unfold slice_from. destruct (slice_safe encoded 9 (glen encoded)) as [cov ->]; [lia..|].
  cbn [mbind outcome_bind]. case_match; [done|].
  destruct (getLE_safe 4 encoded 24) as [z3 ->]; [lia|cbn; lia|]. cbn [mbind outcome_bind]. case_match; [done|].
  destruct (getLE_safe 2 encoded 9) as [z4 ->]; [lia|cbn; lia|].
  destruct (getLE_safe 8 encoded 12) as [z5 ->]; [lia|cbn; lia|].
  destruct (getLE_safe 4 encoded 20) as [z6 ->]; [lia|cbn; lia|]. cbn [mbind outcome_bind].
  apply bind_returns; [by apply decodeKVRecords_returns|]. intros [records position] _. by case_match.
Qed.

Lemma slice_prefix {A} (p s : list A) i j : j <= glen p -> slice (p ++ s) i j = slice p i j.
Proof.
  intros Hj. unfold slice. rewrite glen_app. pose proof (glen_nonneg s).
  replace (j <=? glen p + glen s) with true by lia. replace (j <=? glen p) with true by lia.
  destruct (_ && _) eqn:E; [|done]. f_equal. unfold glen in *.
  rewrite drop_app_le by lia. rewrite take_app_le; [done|]. rewrite length_drop. lia.
Qed.

Lemma getLE_prefix w (p s : list byte) off :
  off + Z.of_nat w <= glen p -> getLE w (p ++ s) off = getLE w p off.
Proof. intros. unfold getLE. by rewrite slice_prefix. Qed.

Lemma index_prefix {A} (p s : list A) i : i < glen p -> index (p ++ s) i = index p i.
Proof.
  intros. unfold index. destruct (Z.leb_spec 0 i); [|done]. rewrite lookup_app_l; [done|].
  unfold glen in *. lia.
Qed.

(** A corrupted KV batch is refused: changing any single byte from the schema field to
    the last record of a batch that decodes makes [DecodeKVBatch] report a malformed batch. *)
Theorem kv_corruption_detected (p s : list byte) (b b' : byte) (batch : KVBatch) :
  9 <= glen p -> b <> b' -> DecodeKVBatch (p ++ b :: s) = Ok batch ->
  DecodeKVBatch (p ++ b' :: s) = Err ErrMalformedRecordBatch.
Proof.
  intros Hp Hb H. rewrite <- (take_drop 9 p) in H |- *. set (h := take 9 p) in *. set (q := drop 9 p) in *.
  assert (Hh : glen h = 9) by (subst h; unfold glen in *; rewrite length_take; lia).
  rewrite <- !app_assoc in *.
  assert (Hlen : glen (h ++ q ++ b :: s) = glen (h ++ q ++ b' :: s)) by (rewrite !glen_app, !glen_cons; lia).
  unfold DecodeKVBatch in *. rewrite <- Hlen. destruct (_ || _); [done|].
  rewrite index_prefix, (getLE_prefix 4 h _ 0), (getLE_prefix 4 h _ 5), slice_from_app in H by (done || lia).
  rewrite index_prefix, (getLE_prefix 4 h _ 0), (getLE_prefix 4 h _ 5), slice_from_app by (done || lia).
  apply bind_Ok in H as (m & -> & H). cbn [mbind outcome_bind].
  destruct (byte.unsigned m =? 0); [|done]. cbn [negb] in *.
  apply bind_Ok in H as (z1 & -> & H). cbn [mbind outcome_bind].
  destruct (z1 =? _); [|done]. cbn [negb] in *.
  apply bind_Ok in H as (z2 & -> & H). cbn [mbind outcome_bind] in *.
  destruct (Z.eqb_spec z2 (crc32c (q ++ b :: s))) as [Hz|]; [|done].
  destruct (Z.eqb_spec z2 (crc32c (q ++ b' :: s))) as [Hz'|]; [|done].
  rewrite Hz in Hz'. by apply crc32c_one_byte in Hz'.
Qed.

Lemma kv_corruption_detected_witness :
  let encoded := bytesOr (KVBatch_Encode sampleKVBatch) in
  DecodeKVBatch (take 30 encoded ++ Byte.xff :: drop 31 encoded) = Err ErrMalformedRecordBatch.
Proof.
  apply (kv_corruption_detected (take 30 (bytesOr (KVBatch_Encode sampleKVBatch)))
    (drop 31 (bytesOr (KVBatch_Encode sampleKVBatch))) Byte.x00 Byte.xff sampleKVBatch).
  - by vm_compute.
  - done.
  - vm_compute. reflexivity.
Defined.

(** ** The layout of a log batch *)

Definition logRecordBytes (r : Record_) (row : list byte) : list byte :=
  le_split 4 (uint32 (1 + glen row)) ++ [byte.of_Z (rec_Change r)] ++ row.

Lemma logRecordBytes_glen r row : glen (logRecordBytes r row) = 5 + glen row.
Proof. unfold logRecordBytes. rewrite !glen_app, glen_le_split. change (glen [_]) with 1. lia. Qed.

Definition logCovered (b : LogBatch) (records : list byte) : list byte :=
  le_split 2 (uint16 (lb_SchemaID b)) ++ [if lb_AppendOnly b then Byte.x01 else Byte.x00] ++
  le_split 4 (if 0 <? glen (lb_Records b) then uint32 (glen (lb_Records b) - 1) else 0) ++
  le_split 8 (uint64 (lb_WriterID b)) ++ le_split 4 (uint32 (lb_BatchSequence b)) ++
  le_split 4 (uint32 (glen (lb_Records b))) ++ records.

Definition logEpoch (b : LogBatch) : list byte :=
  if lb_Magic b =? 1 then le_split 4 (uint32 (lb_LeaderEpoch b)) else [].

Definition logLayout (b : LogBatch) (records : list byte) : list byte :=
  le_split 8 (uint64 (lb_BaseOffset b)) ++
  le_split 4 (uint32 (13 + glen (logEpoch b) + glen (logCovered b records))) ++
  [byte.of_Z (lb_Magic b)] ++ le_split 8 (uint64 (lb_CommitTime b)) ++ logEpoch b ++
  le_split 4 (crc32c (logCovered b records)) ++ logCovered b records.

Definition encodedAs (s : Schema) (compacted : bool) (r : Record_) (row : list byte) : Prop :=
  ChangeType_Validate (rec_Change r) = Ok tt /\ EncodeRowAs compacted s (rec_Value r) = Ok row.

Lemma encodeLogRecords_Ok s compacted records : forall encoded r,
  encodeLogRecords s compacted records encoded = Ok r ->
  exists rows, Forall2 (encodedAs s compacted) records rows /\
    r = encoded ++ concat (zip_with logRecordBytes records rows).
Proof.
  induction records as [|record records IH]; intros encoded r H; cbn [encodeLogRecords] in H.
  { inv_ok. exists []. split; [constructor|]. cbn. by rewrite app_nil_r. }
  inv_ok. rename select (encodeLogRecords _ _ _ _ = _) into Hrest.
  apply IH in Hrest as (rows & Hf & ->). destruct x. exists (x0 :: rows).
  split; [by constructor|]. cbn. unfold logRecordBytes. by rewrite <- !app_assoc.
Qed.

Lemma set_index_field (p s : list byte) a b i : i = glen p -> set_index (p ++ [a] ++ s) i b = Ok (p ++ [b] ++ s).
Proof.
  intros ->. apply set_index_Ok. split; [glia|]. unfold glen. cbn [app]. rewrite Nat2Z.id.
  by rewrite insert_app_r_alt, Nat.sub_diag.
Qed.

Definition epochZeros (magic : Z) : list byte := if magic =? 1 then zeros 4 else [].

(** The fields of a log header, all still zero. *)
Lemma log_header_zeros magic :
  zeros (if magic =? 1 then logBatchV1HeaderSize else logBatchV0HeaderSize) =
  zeros 8 ++ zeros 4 ++ [Byte.x00] ++ zeros 8 ++ epochZeros magic ++ zeros 4 ++
  zeros 2 ++ [Byte.x00] ++ zeros 4 ++ zeros 8 ++ zeros 4 ++ zeros 4.
Proof. unfold epochZeros. by destruct (magic =? 1). Qed.

(** The fixed fields up to the checksum. *)
Lemma log_header_start b (tail : list byte) : 4 <= glen tail ->
  (encoded ← putLE 8 (zeros 8 ++ zeros 4 ++ [Byte.x00] ++ zeros 8 ++ epochZeros (lb_Magic b) ++ tail) 0
     (uint64 (lb_BaseOffset b));
   encoded ← set_index encoded 12 (byte.of_Z (lb_Magic b));
   encoded ← putLE 8 encoded 13 (uint64 (lb_CommitTime b));
   (if lb_Magic b =? 1 then putLE 4 encoded 21 (uint32 (lb_LeaderEpoch b)) else Ok encoded)) =
  Ok (le_split 8 (uint64 (lb_BaseOffset b)) ++ zeros 4 ++ [byte.of_Z (lb_Magic b)] ++
      le_split 8 (uint64 (lb_CommitTime b)) ++ logEpoch b ++ tail).
Proof.
  intros Ht. unfold putLE, logEpoch, epochZeros.
  set (f1 := le_split 8 (uint64 (lb_BaseOffset b))). set (f2 := le_split 8 (uint64 (lb_CommitTime b))).
  set (ez := if lb_Magic b =? 1 then zeros 4 else []).
  fill_field (@nil byte) (zeros 8) (zeros 4 ++ [Byte.x00] ++ zeros 8 ++ ez ++ tail).
  change ([] ++ f1 ++ ?x) with (f1 ++ x). rewrite (app_assoc f1).
  rewrite set_index_field by (subst f1; by rewrite glen_app, glen_le_split). cbn [mbind outcome_bind].
  fill_field (f1 ++ zeros 4 ++ [byte.of_Z (lb_Magic b)]) (zeros 8) (ez ++ tail).
  subst ez. destruct (lb_Magic b =? 1).
  - rewrite (overwrite_field _ ((f1 ++ zeros 4 ++ [byte.of_Z (lb_Magic b)]) ++ f2) (zeros 4) tail)
      by (rewrite <- ?app_assoc; try reflexivity; subst f1 f2; by rewrite !glen_app, !glen_le_split).
    by rewrite <- !app_assoc.
  - by rewrite <- !app_assoc.
Qed.

(** The fields under the checksum. *)
Lemma log_header_tail b (p : list byte) so : so = glen p ->
  (encoded ← putLE 2 (p ++ zeros 2 ++ [Byte.x00] ++ zeros 4 ++ zeros 8 ++ zeros 4 ++ zeros 4) so
     (uint16 (lb_SchemaID b));
   encoded ← (if lb_AppendOnly b then set_index encoded (so + 2) Byte.x01 else Ok encoded);
   encoded ← (if 0 <? glen (lb_Records b)
              then putLE 4 encoded (so + 3) (uint32 (glen (lb_Records b) - 1)) else Ok encoded);
   encoded ← putLE 8 encoded (so + 3 + 4) (uint64 (lb_WriterID b));
   encoded ← putLE 4 encoded (so + 3 + 12) (uint32 (lb_BatchSequence b));
   putLE 4 encoded (so + 3 + 16) (uint32 (glen (lb_Records b)))) =
  Ok (p ++ logCovered b []).
Proof.
  intros ->. unfold putLE, logCovered.
  set (f3 := le_split 2 _). set (f5 := le_split 8 _). set (f6 := le_split 4 (uint32 (lb_BatchSequence b))).
  set (f7 := le_split 4 (uint32 (glen (lb_Records b)))).
  assert (H3 : glen f3 = 2) by apply glen_le_split. assert (H5 : glen f5 = 8) by apply glen_le_split.
  fill_field p (zeros 2) ([Byte.x00] ++ zeros 4 ++ zeros 8 ++ zeros 4 ++ zeros 4).
  set (a := if lb_AppendOnly b then Byte.x01 else Byte.x00).
  replace (if lb_AppendOnly b then _ else _)
    with (Ok ((p ++ f3 ++ [a]) ++ zeros 4 ++ zeros 8 ++ zeros 4 ++ zeros 4)).
  2:{ subst a. destruct (lb_AppendOnly b).
      - rewrite (app_assoc p f3 ([Byte.x00] ++ _)), set_index_field by (rewrite glen_app; lia).
        by rewrite <- !app_assoc.
      - by rewrite <- !app_assoc. }
  cbn [mbind outcome_bind].
  set (f4 := le_split 4 (if 0 <? _ then _ else _)).
  replace (if 0 <? glen (lb_Records b) then _ else _)
    with (Ok (((p ++ f3 ++ [a]) ++ f4) ++ zeros 8 ++ zeros 4 ++ zeros 4)).
  2:{ subst f4. destruct (0 <? glen (lb_Records b)).
      - rewrite (overwrite_field _ (p ++ f3 ++ [a]) (zeros 4) (zeros 8 ++ zeros 4 ++ zeros 4))
          by (rewrite ?glen_app; try reflexivity; rewrite H3; lia).
        by rewrite <- !app_assoc.
      - by rewrite <- !app_assoc. }
  assert (H4 : glen f4 = 4) by apply glen_le_split. cbn [mbind outcome_bind].
  rewrite (overwrite_field _ ((p ++ f3 ++ [a]) ++ f4) (zeros 8) (zeros 4 ++ zeros 4))
    by (rewrite ?glen_app; try reflexivity; rewrite ?H3, ?H4, ?H5; cbn; lia).
  cbn [mbind outcome_bind].
  rewrite (overwrite_field _ (((p ++ f3 ++ [a]) ++ f4) ++ f5) (zeros 4) (zeros 4))
    by (rewrite <- ?app_assoc; try reflexivity; clearbody f3 f4 f5; glia).
  cbn [mbind outcome_bind].
  rewrite (overwrite_field _ ((((p ++ f3 ++ [a]) ++ f4) ++ f5) ++ f6) (zeros 4) [])
    by (rewrite <- ?app_assoc, ?app_nil_r; try reflexivity; subst f6; clearbody f3 f4 f5; glia).
  by rewrite <- !app_assoc.
Qed.

Lemma Ok_inj {A} (a b : A) : Ok a = Ok b -> a = b.
Proof. congruence. Qed.

Lemma logCovered_app b records : logCovered b records = logCovered b [] ++ records.
Proof. unfold logCovered. by rewrite <- !app_assoc. Qed.

(** Chains of binds that end in a value can be continued. *)
Lemma bind_chain4 {A B C D R} (m : outcome A) (f1 : A -> outcome B) (f2 : B -> outcome C) (f3 : C -> outcome D)
    (k : D -> outcome R) v :
  (a ← m; b ← f1 a; c ← f2 b; f3 c) = Ok v -> (a ← m; b ← f1 a; c ← f2 b; d ← f3 c; k d) = k v.
Proof.
  intros H. apply bind_Ok in H as (a & -> & H). cbn. apply bind_Ok in H as (b & -> & H). cbn.
  apply bind_Ok in H as (c & -> & H). cbn. by rewrite H.
Qed.

Lemma bind_chain6 {A B C D E F R} (m : outcome A) (f1 : A -> outcome B) (f2 : B -> outcome C) (f3 : C -> outcome D)
    (f4 : D -> outcome E) (f5 : E -> outcome F) (k : F -> outcome R) v :
  (a ← m; b ← f1 a; c ← f2 b; d ← f3 c; e ← f4 d; f5 e) = Ok v ->
  (a ← m; b ← f1 a; c ← f2 b; d ← f3 c; e ← f4 d; f ← f5 e; k f) = k v.
Proof.
  intros H. apply bind_Ok in H as (a & -> & H). cbn. apply bind_Ok in H as (b & -> & H). cbn. by apply bind_chain4.
Qed.

(** The bytes before the checksum of a header whose length field is not filled in. *)
Definition logPrefix (b : LogBatch) : list byte :=
  le_split 8 (uint64 (lb_BaseOffset b)) ++ zeros 4 ++ [byte.of_Z (lb_Magic b)] ++
  le_split 8 (uint64 (lb_CommitTime b)) ++ logEpoch b.

Lemma logPrefix_offsets b :
  (if lb_Magic b =? 1 then (25, 29) else (21, 25)) = (glen (logPrefix b), glen (logPrefix b) + 4).
Proof.
  unfold logPrefix, logEpoch. rewrite !glen_app, !glen_le_split.
  destruct (lb_Magic b =? 1); [by rewrite glen_le_split|done].
Qed.

(** Writing the header of a batch, whatever comes next. *)
Lemma log_header {R} b (k : list byte -> Z -> Z -> outcome R) :
  (encoded ← putLE 8 (zeros (if lb_Magic b =? 1 then logBatchV1HeaderSize else logBatchV0HeaderSize)) 0
     (uint64 (lb_BaseOffset b));
   encoded ← set_index encoded 12 (byte.of_Z (lb_Magic b));
   encoded ← putLE 8 encoded 13 (uint64 (lb_CommitTime b));
   encoded ← (if lb_Magic b =? 1 then putLE 4 encoded 21 (uint32 (lb_LeaderEpoch b)) else Ok encoded);
   let '(crcOffset, schemaOffset) := if lb_Magic b =? 1 then (25, 29) else (21, 25) in
   encoded ← putLE 2 encoded schemaOffset (uint16 (lb_SchemaID b));
   encoded ← (if lb_AppendOnly b then set_index encoded (schemaOffset + 2) Byte.x01 else Ok encoded);
   encoded ← (if 0 <? glen (lb_Records b)
              then putLE 4 encoded (schemaOffset + 3) (uint32 (glen (lb_Records b) - 1)) else Ok encoded);
   encoded ← putLE 8 encoded (schemaOffset + 3 + 4) (uint64 (lb_WriterID b));
   encoded ← putLE 4 encoded (schemaOffset + 3 + 12) (uint32 (lb_BatchSequence b));
   encoded ← putLE 4 encoded (schemaOffset + 3 + 16) (uint32 (glen (lb_Records b)));
   k encoded crcOffset schemaOffset) =
  k (logPrefix b ++ zeros 4 ++ logCovered b []) (glen (logPrefix b)) (glen (logPrefix b) + 4).
Proof.
  set (tail := zeros 4 ++ zeros 2 ++ [Byte.x00] ++ zeros 4 ++ zeros 8 ++ zeros 4 ++ zeros 4).
  pose proof (log_header_start b tail ltac:(by vm_compute)) as Hs. rewrite log_header_zeros. fold tail.
  rewrite (bind_chain4 _ _ _ _ _ _ Hs). clear Hs. rewrite logPrefix_offsets. cbv iota.
  assert (Hp4 : glen (logPrefix b) + 4 = glen (logPrefix b ++ zeros 4)) by (by rewrite glen_app).
  pose proof (log_header_tail b (logPrefix b ++ zeros 4) (glen (logPrefix b) + 4) Hp4) as Ht.
  replace (le_split 8 _ ++ zeros 4 ++ _) with ((logPrefix b ++ zeros 4) ++ zeros 2 ++ [Byte.x00] ++ zeros 4 ++
    zeros 8 ++ zeros 4 ++ zeros 4) by (subst tail; unfold logPrefix; by rewrite <- !app_assoc).
  rewrite (bind_chain6 _ _ _ _ _ _ _ _ Ht). by rewrite <- app_assoc.
Qed.

(** Filling in the length and the checksum. *)
Lemma log_seal b recs :
  (encoded ← putLE 4 (logPrefix b ++ zeros 4 ++ logCovered b recs) 8
     (uint32 (glen (logPrefix b ++ zeros 4 ++ logCovered b recs) - 12));
   covered ← slice_from encoded (glen (logPrefix b) + 4);
   putLE 4 encoded (glen (logPrefix b)) (crc32c covered)) = Ok (logLayout b recs).
Proof.
  unfold putLE, logLayout, logPrefix.
  set (cov := logCovered b recs). set (ep := logEpoch b) in *.
  set (f1 := le_split 8 (uint64 (lb_BaseOffset b))) in *. set (f2 := le_split 8 (uint64 (lb_CommitTime b))) in *.
  set (m := [byte.of_Z (lb_Magic b)]) in *. set (p := f1 ++ zeros 4 ++ m ++ f2 ++ ep) in *.
  assert (Hg1 : glen f1 = 8) by apply glen_le_split. assert (Hg2 : glen f2 = 8) by apply glen_le_split.
  assert (Hgp : glen p = 21 + glen ep) by (subst p; rewrite !glen_app, Hg1, Hg2; change (glen (zeros 4)) with 4; change (glen m) with 1; lia).
  set (L := le_split 4 (uint32 (glen _ - 12))).
  assert (HL : L = le_split 4 (uint32 (13 + glen ep + glen cov))).
  { subst L. do 2 f_equal. rewrite !glen_app, Hgp. change (glen (zeros 4)) with 4. lia. }
  assert (HgL : glen L = 4) by apply glen_le_split.
  rewrite (overwrite_field _ f1 (zeros 4) (m ++ f2 ++ ep ++ zeros 4 ++ cov))
    by (subst p; rewrite <- ?app_assoc; try reflexivity; by rewrite ?HgL).
  cbn [mbind outcome_bind]. set (q := f1 ++ L ++ m ++ f2 ++ ep).
  assert (Hgq : glen q = glen p) by (subst q; rewrite !glen_app, Hg1, Hg2, Hgp, HgL; change (glen m) with 1; lia).
  replace (f1 ++ L ++ m ++ f2 ++ ep ++ zeros 4 ++ cov) with ((q ++ zeros 4) ++ cov)
    by (subst q; by rewrite <- !app_assoc).
  rewrite slice_from_app by (rewrite glen_app, Hgq; done). cbn [mbind outcome_bind].
  rewrite (overwrite_field _ q (zeros 4) cov) by (rewrite <- ?app_assoc; try reflexivity; done).
  rewrite <- HL. subst q. by rewrite <- !app_assoc.
Qed.

Lemma LogBatch_EncodeRows_layout b s compacted encoded :
  LogBatch_EncodeRows b s compacted = Ok encoded ->
  (lb_Magic b = 0 \/ lb_Magic b = 1) /\
  exists rows, Forall2 (encodedAs s compacted) (lb_Records b) rows /\
    encoded = logLayout b (concat (zip_with logRecordBytes (lb_Records b) rows)).
Proof.
  unfold LogBatch_EncodeRows. destruct (_ && _) eqn:Em; [done|].
  assert (Hm : lb_Magic b = 0 \/ lb_Magic b = 1) by lia. intros H. split; [done|]. cbv zeta in H.
  rewrite (log_header b (fun encoded crcOffset schemaOffset =>
    encoded ← encodeLogRecords s compacted (lb_Records b) encoded;
    encoded ← putLE 4 encoded 8 (uint32 (glen encoded - 12));
    covered ← slice_from encoded schemaOffset;
    putLE 4 encoded crcOffset (crc32c covered))) in H.
  apply bind_Ok in H as (r & (rows & Hf & ->)%encodeLogRecords_Ok & H). exists rows. split; [done|].
  rewrite <- !app_assoc, <- logCovered_app, log_seal in H. by apply Ok_inj in H.
Qed.

(** ** Log batches round-trip *)

Section LogRoundtrip.
Variable zone : Z -> Z.
Variables (s : Schema) (compacted : bool).

Definition rowEncodingOf : rowEncoding := if compacted then compactedEncoding else indexedEncoding.

(** What the decoder makes of the records from index [i] on: no key, the row as its columns
    retain it, the batch's commit time and consecutive offsets. *)
Fixpoint retainRecords (baseOffset commitTime i : Z) (records : list Record_) : list Record_ :=
  match records with
  | [] => []
  | r :: records =>
    MkRecord [] (retainRow rowEncodingOf (sch_Columns s) (rec_Value r)) (rec_Change r)
      (UnixMilliLocal zone commitTime) (int64 (baseOffset + i))
    :: retainRecords baseOffset commitTime (i + 1) records
  end.

Definition retainLog (b : LogBatch) : LogBatch :=
  MkLogBatch (lb_Magic b) (lb_BaseOffset b) (lb_CommitTime b)
    (if lb_Magic b =? 1 then lb_LeaderEpoch b else 0) (lb_SchemaID b) (lb_AppendOnly b)
    (lb_WriterID b) (lb_BatchSequence b)
    (retainRecords (lb_BaseOffset b) (lb_CommitTime b) 0 (lb_Records b)).

Definition logInRange (b : LogBatch) : bool :=
  srange 64 (lb_BaseOffset b) && srange 64 (lb_CommitTime b) && srange 32 (lb_LeaderEpoch b) &&
  srange 16 (lb_SchemaID b) && srange 64 (lb_WriterID b) && srange 32 (lb_BatchSequence b) &&
  forallb (fun r => forallb wfValue (rec_Value r)) (lb_Records b).

Lemma row_roundtrip_as row encoded :
  forallb wfValue row = true -> rowHeaderBytes s rowEncodingOf <= maxRowBytes ->
  EncodeRowAs compacted s row = Ok encoded ->
  DecodeRowAs compacted s encoded = Ok (retainRow rowEncodingOf (sch_Columns s) row).
Proof.
  unfold EncodeRowAs, DecodeRowAs, rowEncodingOf. intros Hw Hh H.
  destruct (codecs_agree (schemaFuel s)) as (_ & _ & _ & _ & _ & Hr).
  destruct compacted; (apply Hr; [done|done|by eapply encodeRow_max]).
Qed.

Hypothesis header_fits : rowHeaderBytes s rowEncodingOf <= maxRowBytes.

Lemma decodeLogRecord_round baseOffset commitTime p r row suffix i :
  forallb wfValue (rec_Value r) = true -> encodedAs s compacted r row -> glen row < 2 ^ 32 - 1 ->
  decodeLogRecord zone s baseOffset commitTime (p ++ logRecordBytes r row ++ suffix) (glen p) i compacted =
  Ok (MkRecord [] (retainRow rowEncodingOf (sch_Columns s) (rec_Value r)) (rec_Change r)
        (UnixMilliLocal zone commitTime) (int64 (baseOffset + i)), glen p + glen (logRecordBytes r row)).
Proof.
  intros Hw [Hc Hrow] Hlen. unfold decodeLogRecord, logRecordBytes.
  pose proof (glen_nonneg p). pose proof (glen_nonneg row). pose proof (glen_nonneg suffix).
  rewrite <- !app_assoc, !glen_app, glen_le_split. change (glen [_]) with 1. change (Z.of_nat 4) with 4.
  if_false. rewrite getLE_app by done. cbn [mbind outcome_bind].
  change (8 * Z.of_nat 4) with 32. rewrite uint32_small by lia. rewrite Z.mod_small by lia. if_false.
  set (c := byte.of_Z (rec_Change r)).
  assert (Hchange : int8 (byte.unsigned c) = rec_Change r).
  { apply byte_of_int8. unfold ChangeType_Validate in Hc. apply check_Ok in Hc.
    unfold Append, Delete in Hc. unfold srange. lia. }
  assert (Hi : index (p ++ le_split 4 (1 + glen row) ++ [c] ++ row ++ suffix) (glen p + 4) = Ok c).
  { rewrite app_assoc. apply index_app. glia. }
  rewrite Hi. cbn [mbind outcome_bind]. rewrite Hchange, Hc. cbn [rewrap mbind outcome_bind].
  assert (Hs : slice (p ++ le_split 4 (1 + glen row) ++ [c] ++ row ++ suffix) (glen p + 4 + 1)
                 (glen p + 4 + (1 + glen row)) = Ok row).
  { rewrite (app_assoc p), (app_assoc (p ++ _)). apply slice_app; glia. }
  rewrite Hs. cbn [mbind outcome_bind]. rewrite (row_roundtrip_as (rec_Value r)) by done.
  cbn [mbind outcome_bind]. do 2 f_equal. lia.
Qed.

Lemma decodeLogRecords_round baseOffset commitTime records : forall rows p i,
  Forall2 (encodedAs s compacted) records rows ->
  forallb (fun r => forallb wfValue (rec_Value r)) records = true ->
  glen (concat (zip_with logRecordBytes records rows)) <= maxRowBytes ->
  decodeLogRecords zone s baseOffset commitTime (p ++ concat (zip_with logRecordBytes records rows))
    compacted (length records) (glen p) i =
  Ok (retainRecords baseOffset commitTime i records,
      glen (p ++ concat (zip_with logRecordBytes records rows))).
Proof.
  induction records as [|r records IH]; intros rows p i Hf Hw Hm.
  { apply Forall2_nil_inv_l in Hf as ->. cbn. by rewrite app_nil_r. }
  apply Forall2_cons_inv_l in Hf as (row & rows' & Hr & Hf & ->).
  cbn [length decodeLogRecords zip_with concat forallb retainRecords] in *.
  apply andb_true_iff in Hw as [Hwr Hw]. rewrite glen_app in Hm.
  pose proof (glen_nonneg (concat (zip_with logRecordBytes records rows'))).
  assert (glen row < 2 ^ 32 - 1).
  { rewrite logRecordBytes_glen in Hm.
    pose proof (glen_nonneg row). rewrite maxRowBytes_val in Hm. lia. }
  rewrite decodeLogRecord_round by done. cbn [mbind outcome_bind].
  rewrite app_assoc, <- glen_app, IH; [done|done|done|].
  pose proof (glen_nonneg (logRecordBytes r row)). lia.
Qed.
End LogRoundtrip.

Lemma logEpoch_glen b : glen (logEpoch b) = if lb_Magic b =? 1 then 4 else 0.
Proof. unfold logEpoch. destruct (_ =? 1); [apply glen_le_split|done]. Qed.

(** Every header field, read at its offset. *)
Lemma logLayout_fields b recs (so := 25 + glen (logEpoch b)) :
  lb_Magic b = 0 \/ lb_Magic b = 1 ->
  glen (logLayout b recs) = so + glen (logCovered b recs) /\
  index (logLayout b recs) 12 = Ok (byte.of_Z (lb_Magic b)) /\
  getLE 8 (logLayout b recs) 0 = Ok (uint64 (uint64 (lb_BaseOffset b))) /\
  getLE 4 (logLayout b recs) 8 = Ok (uint32 (uint32 (13 + glen (logEpoch b) + glen (logCovered b recs)))) /\
  getLE 8 (logLayout b recs) 13 = Ok (uint64 (uint64 (lb_CommitTime b))) /\
  (lb_Magic b = 1 -> getLE 4 (logLayout b recs) 21 = Ok (uint32 (uint32 (lb_LeaderEpoch b)))) /\
  getLE 4 (logLayout b recs) (so - 4) = Ok (uint32 (crc32c (logCovered b recs))) /\
  slice_from (logLayout b recs) so = Ok (logCovered b recs) /\
  getLE 2 (logLayout b recs) so = Ok (uint16 (uint16 (lb_SchemaID b))) /\
  index (logLayout b recs) (so + 2) = Ok (if lb_AppendOnly b then Byte.x01 else Byte.x00) /\
  getLE 8 (logLayout b recs) (so + 3 + 4) = Ok (uint64 (uint64 (lb_WriterID b))) /\
  getLE 4 (logLayout b recs) (so + 3 + 12) = Ok (uint32 (uint32 (lb_BatchSequence b))) /\
  getLE 4 (logLayout b recs) (so + 3 + 16) = Ok (uint32 (uint32 (glen (lb_Records b)))).
Proof.
  intros Hm. subst so. unfold logLayout.
  set (cov := logCovered b recs). set (ep := logEpoch b). set (m := [byte.of_Z (lb_Magic b)]).
  set (f1 := le_split 8 (uint64 (lb_BaseOffset b))). set (f2 := le_split 8 (uint64 (lb_CommitTime b))).
  set (L := le_split 4 (uint32 (13 + _ + _))). set (C := le_split 4 (crc32c cov)).
  assert (G1 : glen f1 = 8) by apply glen_le_split. assert (G2 : glen f2 = 8) by apply glen_le_split.
  assert (GL : glen L = 4) by apply glen_le_split. assert (GC : glen C = 4) by apply glen_le_split.
  assert (Gm : glen m = 1) by done.
  assert (Hf : forall w z p s off, cov = p ++ le_split w z ++ s -> off = 25 + glen ep + glen p ->
    getLE w (f1 ++ L ++ m ++ f2 ++ ep ++ C ++ cov) off = Ok (uwrap (8 * Z.of_nat w) z)).
  { intros w z p s off Hc ->. apply (getLE_field _ (f1 ++ L ++ m ++ f2 ++ ep ++ C ++ p) s).
    - rewrite Hc. by rewrite <- !app_assoc.
    - rewrite !glen_app, G1, G2, GL, GC, Gm. lia. }
  set (g1 := le_split 2 (uint16 (lb_SchemaID b))). set (a := if lb_AppendOnly b then Byte.x01 else Byte.x00).
  set (g2 := le_split 4 (if 0 <? glen (lb_Records b) then uint32 (glen (lb_Records b) - 1) else 0)).
  set (g3 := le_split 8 (uint64 (lb_WriterID b))). set (g4 := le_split 4 (uint32 (lb_BatchSequence b))).
  set (g5 := le_split 4 (uint32 (glen (lb_Records b)))).
  assert (Hcov : cov = g1 ++ [a] ++ g2 ++ g3 ++ g4 ++ g5 ++ recs) by done.
  assert (K1 : glen g1 = 2) by apply glen_le_split. assert (K2 : glen g2 = 4) by apply glen_le_split.
  assert (K3 : glen g3 = 8) by apply glen_le_split. assert (K4 : glen g4 = 4) by apply glen_le_split.
  assert (Ka : glen [a] = 1) by done.
  split_and!.
  - rewrite !glen_app, G1, G2, GL, GC, Gm. lia.
  - rewrite (app_assoc f1). apply index_app. rewrite glen_app. lia.
  - apply (getLE_head 8).
  - by apply (getLE_field _ f1 (m ++ f2 ++ ep ++ C ++ cov) 4).
  - apply (getLE_field _ (f1 ++ L ++ m) (ep ++ C ++ cov) 8); [by rewrite <- !app_assoc|].
    rewrite !glen_app. lia.
  - intros E. subst ep. unfold logEpoch. rewrite E. cbn [Z.eqb Pos.eqb].
    apply (getLE_field _ (f1 ++ L ++ m ++ f2) (C ++ cov) 4); [by rewrite <- !app_assoc|].
    rewrite !glen_app. lia.
  - apply (getLE_field _ (f1 ++ L ++ m ++ f2 ++ ep) cov 4); [by rewrite <- !app_assoc|].
    rewrite !glen_app. lia.
  - replace (f1 ++ _) with ((f1 ++ L ++ m ++ f2 ++ ep ++ C) ++ cov) by (by rewrite <- !app_assoc).
    apply slice_from_app. rewrite !glen_app. lia.
  - apply (Hf 2%nat (uint16 (lb_SchemaID b)) [] ([a] ++ g2 ++ g3 ++ g4 ++ g5 ++ recs));
      [done | rewrite glen_nil; lia].
  - replace (f1 ++ _) with ((f1 ++ L ++ m ++ f2 ++ ep ++ C ++ g1) ++ [a] ++ g2 ++ g3 ++ g4 ++ g5 ++ recs)
      by (rewrite Hcov; by rewrite <- !app_assoc).
    apply index_app. rewrite !glen_app. lia.
  - apply (Hf 8%nat (uint64 (lb_WriterID b)) (g1 ++ [a] ++ g2) (g4 ++ g5 ++ recs));
      [by rewrite <- !app_assoc | rewrite !glen_app; lia].
  - apply (Hf 4%nat (uint32 (lb_BatchSequence b)) (g1 ++ [a] ++ g2 ++ g3) (g5 ++ recs));
      [by rewrite <- !app_assoc | rewrite !glen_app; lia].
  - apply (Hf 4%nat (uint32 (glen (lb_Records b))) (g1 ++ [a] ++ g2 ++ g3 ++ g4) recs);
      [by rewrite <- !app_assoc | rewrite !glen_app; lia].
Qed.

Lemma logRecords_glen records rows :
  length records = length rows ->
  5 * glen records <= glen (concat (zip_with logRecordBytes records rows)).
Proof.
  revert rows. induction records as [|r records IH]; intros [|row rows] Hl; try done.
  cbn [zip_with concat]. rewrite glen_app, glen_cons, logRecordBytes_glen.
  specialize (IH rows ltac:(cbn in Hl; lia)). pose proof (glen_nonneg row). lia.
Qed.

Lemma logCovered_glen b recs : glen (logCovered b recs) = 23 + glen recs.
Proof. unfold logCovered. rewrite !glen_app, !glen_le_split. change (glen [_]) with 1. lia. Qed.

(** The records follow the header. *)
Lemma logLayout_records b recs : exists p, logLayout b recs = p ++ recs /\ glen p = 48 + glen (logEpoch b).
Proof.
  exists (le_split 8 (uint64 (lb_BaseOffset b)) ++
    le_split 4 (uint32 (13 + glen (logEpoch b) + glen (logCovered b recs))) ++
    [byte.of_Z (lb_Magic b)] ++ le_split 8 (uint64 (lb_CommitTime b)) ++ logEpoch b ++
    le_split 4 (crc32c (logCovered b recs)) ++ logCovered b []). split.
  - unfold logLayout. rewrite <- !app_assoc, <- logCovered_app. done.
  - rewrite !glen_app, !logCovered_glen, !glen_le_split. change (glen [_]) with 1. rewrite glen_nil. lia.
Qed.

Lemma LogBatch_EncodeRows_Decode (zone : Z -> Z) (b : LogBatch) (s : Schema) (compacted : bool) (encoded : list byte) :
  logInRange b = true -> rowHeaderBytes s (rowEncodingOf compacted) <= maxRowBytes ->
  LogBatch_EncodeRows b s compacted = Ok encoded -> glen encoded <= maxRowBytes ->
  DecodeLogBatchRows zone s encoded compacted = Ok (retainLog zone s compacted b).
Proof.
  intros Hr Hh H Hmax. apply LogBatch_EncodeRows_layout in H as (Hm & rows & Hf & ->).
  set (recs := concat _) in *. apply Forall2_length in Hf as Hlen.
  pose proof (logRecords_glen (lb_Records b) rows Hlen) as H5. fold recs in H5.
  destruct (logLayout_fields b recs Hm)
    as (Hg & F1 & F2 & F3 & F4 & F5 & F6 & F7 & F8 & F9 & F10 & F11 & F12).
  destruct (logLayout_records b recs) as (p & Ep & Hp). rewrite logCovered_glen in *.
  unfold logInRange in Hr. rewrite !andb_true_iff in Hr. destruct Hr as ((((((R1 & R2) & R3) & R4) & R5) & R6) & R7).
  pose proof (glen_nonneg recs). pose proof (glen_nonneg (lb_Records b)). rewrite maxRowBytes_val in *.
  rewrite logEpoch_glen in *.
  assert (Hu : byte.unsigned (byte.of_Z (lb_Magic b)) = lb_Magic b).
  { rewrite byte.unsigned_of_Z. apply Z.mod_small. lia. }
  set (e := if lb_Magic b =? 1 then 4 else 0) in *.
  assert (He : (if lb_Magic b =? 1 then logBatchV1HeaderSize else logBatchV0HeaderSize) = 48 + e /\
    (if lb_Magic b =? 1 then (25, 29) else (21, 25)) = (25 + e - 4, 25 + e) /\ 0 <= e <= 4).
  { subst e. by destruct (lb_Magic b =? 1). }
  destruct He as (He1 & He2 & He).
  unfold DecodeLogBatchRows, logBatchHeader. rewrite maxRowBytes_val. if_false.
  rewrite F1. cbn [mbind outcome_bind]. rewrite Hu, He1, He2.
  replace (negb (lb_Magic b =? 1) && negb (lb_Magic b =? 0)) with false by lia. cbv iota. if_false.
  rewrite F3. cbn [mbind outcome_bind]. rewrite !uint32_small by (rewrite ?uint32_small; lia). if_false.
  rewrite F7, F6. cbn [mbind outcome_bind]. rewrite uint32_small by apply crc32c_range.
  rewrite Z.eqb_refl. cbn [negb mbind outcome_bind]. rewrite F12. cbn [mbind outcome_bind].
  rewrite !uint32_small by (rewrite ?uint32_small; lia).
  replace ((_ - _) / 5 <? glen (lb_Records b)) with false by zlia. cbv iota.
  rewrite F2, F4, F8, F9, F10, F11. cbn [mbind outcome_bind].
  rewrite !uwrap_wider by lia. rewrite !swrap_uwrap_small by done.
  replace (if lb_Magic b =? 1 then _ else _) with (Ok (if lb_Magic b =? 1 then lb_LeaderEpoch b else 0)).
  2:{ destruct (Z.eqb_spec (lb_Magic b) 1) as [E1|]; [|done]. rewrite F5 by done.
      cbn [mbind outcome_bind]. by rewrite uwrap_wider, swrap_uwrap_small by (done || lia). }
  cbn [mbind outcome_bind].
  replace (Z.to_nat (glen (lb_Records b))) with (length (lb_Records b)) by (unfold glen; lia).
  rewrite <- Hp, Ep. subst recs. rewrite decodeLogRecords_round by (rewrite ?maxRowBytes_val; done || lia).
  cbn [mbind outcome_bind]. rewrite Z.eqb_refl. cbn [negb]. unfold retainLog. by destruct (lb_AppendOnly b).
Qed.

(** Log batches round-trip, in both versions and both row encodings: a batch that
    [LogBatch.EncodeRows] produces within the size limit is accepted by [DecodeLogBatchRows]
    with every header field, change type and retained row, and with consecutive offsets from
    the base offset. *)
Theorem log_batch_roundtrip (zone : Z -> Z) (b : LogBatch) (s : Schema) (compacted : bool) (encoded : list byte) :
  logInRange b = true -> rowHeaderBytes s (rowEncodingOf compacted) <= maxRowBytes ->
  LogBatch_EncodeRows b s compacted = Ok encoded -> glen encoded <= maxRowBytes ->
  DecodeLogBatchRows zone s encoded compacted = Ok (retainLog zone s compacted b).
Proof. apply LogBatch_EncodeRows_Decode. Qed.

Definition logSchema : Schema :=
  MkSchema [MkColumn "id" IntType false None "" 0; MkColumn "name" StringType true None "" 0] [] [] [] [] 0.

Definition sampleLogBatch : LogBatch :=
  MkLogBatch 1 100 1700000000123 5 2 false 3 4
    [MkRecord [] [VInt32 7; VString "go"] Insert (MkTime 0 0 0) 0;
     MkRecord [] [VInt32 8; VNil] Delete (MkTime 0 0 0) 0].

Lemma log_batch_roundtrip_witness :
  DecodeLogBatchRows (fun _ => 0) logSchema
    (bytesOr (LogBatch_EncodeRows sampleLogBatch logSchema false)) false =
  Ok (retainLog (fun _ => 0) logSchema false sampleLogBatch).
Proof.
  apply (log_batch_roundtrip (fun _ => 0) sampleLogBatch logSchema false).
  - vm_compute. reflexivity.
  - by vm_compute.
  - vm_compute. reflexivity.
  - by vm_compute.
Defined.

(** ** Log decoding is total *)

Lemma decodeLogRecord_returns zone s baseOffset commitTime encoded position i compacted :
  forallb columnTyped (sch_Columns s) = true -> 0 <= position ->
  returns (decodeLogRecord zone s baseOffset commitTime encoded position i compacted) = true /\
  forall r next, decodeLogRecord zone s baseOffset commitTime encoded position i compacted = Ok (r, next) ->
    position < next.
Proof.
  intros Ht Hp. unfold decodeLogRecord. destruct (Z.ltb_spec (glen encoded - position) 5); [done|].
  destruct (getLE_safe 4 encoded position) as [len ->]; [lia|cbn; lia|]. cbn [mbind outcome_bind].
  destruct (_ || _) eqn:E; [done|].
  destruct (index_safe encoded (position + 4)) as [c ->]; [lia|]. cbn [mbind outcome_bind].
  destruct (ChangeType_Validate _) as [[]| | |] eqn:Ec; try done; cbn [rewrap mbind outcome_bind].
  - destruct (slice_safe encoded (position + 4 + 1) (position + 4 + len)) as [body ->]; [lia..|].
    cbn [mbind outcome_bind]. unfold DecodeRowAs. split.
    + apply bind_returns; [|done]. destruct compacted; by apply decodeRow_returns.
    + intros r next H'. inv_ok. lia.
  - unfold ChangeType_Validate in Ec. by destruct (negb _).
  - unfold ChangeType_Validate in Ec. by destruct (negb _).
Qed.

Lemma decodeLogRecords_returns zone s baseOffset commitTime encoded compacted n : forall position i,
  forallb columnTyped (sch_Columns s) = true -> 0 <= position ->
  returns (decodeLogRecords zone s baseOffset commitTime encoded compacted n position i) = true.
Proof.
  induction n as [|n IH]; intros position i Ht Hp; [done|]. cbn [decodeLogRecords].
  destruct (decodeLogRecord_returns zone s baseOffset commitTime encoded position i compacted Ht Hp) as [Hr Hn].
  apply bind_returns; [done|]. intros [r next] E. apply Hn in E.
  apply bind_returns; [apply IH; done || lia|]. by intros [].
Qed.

Lemma logBatchHeader_Ok encoded magic headerSize schemaOffset :
  logBatchHeader encoded = Ok (magic, headerSize, schemaOffset) ->
  headerSize = schemaOffset + 23 /\ headerSize <= glen encoded /\ 25 <= schemaOffset.
Proof.
  unfold logBatchHeader. destruct (_ || _); [done|]. intros H. apply bind_Ok in H as (b & _ & H).
  destruct (negb _ && negb _); [done|].
  destruct (byte.unsigned b =? 1); unfold logBatchV0HeaderSize, logBatchV1HeaderSize in H;
    (destruct (Z.ltb_spec (glen encoded) 52) || destruct (Z.ltb_spec (glen encoded) 48)); try done;
    inv_ok; repeat (case_match; inv_ok); lia.
Qed.

Lemma logBatchHeader_returns encoded : returns (logBatchHeader encoded) = true.
Proof.
  unfold logBatchHeader. destruct (_ || _) eqn:E; [done|].
  destruct (index_safe encoded 12) as [b ->]; [lia|]. cbn [mbind outcome_bind].
  destruct (negb _ && negb _); [done|]. unfold logBatchV0HeaderSize, logBatchV1HeaderSize, slice_from.
  destruct (byte.unsigned b =? 1).
  - destruct (Z.ltb_spec (glen encoded) 52); [done|].
    destruct (getLE_safe 4 encoded 8) as [z1 ->]; [lia|cbn; lia|]. cbn [mbind outcome_bind]. case_match; [done|].
    destruct (slice_safe encoded 29 (glen encoded)) as [cov ->]; [lia..|]. cbn [mbind outcome_bind].
    destruct (getLE_safe 4 encoded 25) as [z2 ->]; [lia|cbn; lia|]. cbn [mbind outcome_bind]. by case_match.
  - destruct (Z.ltb_spec (glen encoded) 48); [done|].
    destruct (getLE_safe 4 encoded 8) as [z1 ->]; [lia|cbn; lia|]. cbn [mbind outcome_bind]. case_match; [done|].
    destruct (slice_safe encoded 25 (glen encoded)) as [cov ->]; [lia..|]. cbn [mbind outcome_bind].
    destruct (getLE_safe 4 encoded 21) as [z2 ->]; [lia|cbn; lia|]. cbn [mbind outcome_bind]. by case_match.
Qed.

Lemma DecodeLogBatchRows_returns (zone : Z -> Z) (s : Schema) (encoded : list byte) (compacted : bool) :
  forallb columnTyped (sch_Columns s) = true ->
  returns (DecodeLogBatchRows zone s encoded compacted) = true.
Proof.
  intros Ht. unfold DecodeLogBatchRows. apply bind_returns; [apply logBatchHeader_returns|].
  intros [[magic headerSize] so] (Hh & Hl & Hso)%logBatchHeader_Ok. cbv zeta.
  destruct (getLE_safe 4 encoded (so + 3 + 16)) as [z1 ->]; [lia|cbn; lia|]. cbn [mbind outcome_bind].
  case_match; [done|].
  destruct (getLE_safe 8 encoded 0) as [z2 ->]; [lia|cbn; lia|].
  destruct (getLE_safe 8 encoded 13) as [z3 ->]; [lia|cbn; lia|].
  destruct (getLE_safe 2 encoded so) as [z4 ->]; [lia|cbn; lia|].
  destruct (index_safe encoded (so + 2)) as [a ->]; [lia|].
  destruct (getLE_safe 8 encoded (so + 3 + 4)) as [z5 ->]; [lia|cbn; lia|].
  destruct (getLE_safe 4 encoded (so + 3 + 12)) as [z6 ->]; [lia|cbn; lia|]. cbn [mbind outcome_bind].
  apply bind_returns.
  { destruct (magic =? 1); [|done]. destruct (getLE_safe 4 encoded 21) as [z7 ->]; [lia|cbn; lia|done]. }
  intros epoch _. apply bind_returns; [apply decodeLogRecords_returns; done || lia|].
  intros [records position] _. by case_match.
Qed.

(** [DecodeLogBatchRows] returns a batch or an error for every byte string and every
    schema whose ARRAY and MAP columns carry a logical type. *)
Theorem log_decode_returns (zone : Z -> Z) (s : Schema) (encoded : list byte) (compacted : bool) :
  forallb columnTyped (sch_Columns s) = true ->
  returns (DecodeLogBatchRows zone s encoded compacted) = true.
Proof. apply DecodeLogBatchRows_returns. Qed.

Lemma log_decode_returns_witness :
  returns (DecodeLogBatchRows (fun _ => 0) logSchema (zeros 60) true) = true.
Proof. apply (log_decode_returns (fun _ => 0) logSchema (zeros 60) true). reflexivity. Defined.

(** The batches of the Java client that the repository's tests pin, byte for byte. *)
Definition fixtureSchema : Schema :=
  let integer := plainType "INTEGER" true in
  let text := plainType "STRING" true in
  MkSchema
    [MkColumn "number" IntType true (Some integer) "" 0;
     MkColumn "name" StringType true (Some text) "" 0;
     MkColumn "values" ArrayType true
       (Some (MkLogicalType "ARRAY" true 0 0 0 (Some integer) None None [])) "" 0;
     MkColumn "nested" RowType true
       (Some (MkLogicalType "ROW" true 0 0 0 None None None
          [MkLogicalField "number" integer "" 0; MkLogicalField "label" text "" 0])) "" 0]
    [] [] [] [] 0.

Definition fixtureRow : Row :=
  [VInt32 42; VString "fluss"; VArray [VInt32 1; VNil; VInt32 (-2)]; VRow [VInt32 7; VString "go"]].

Definition bigEndian (n : nat) (z : Z) : list byte := rev (le_split n z).

Example java_fixtures :
  KVBatch_Encode (MkKVBatch 9 7 13
    [MkKVRecord [Byte.x2a] (Some (bytesOr (EncodeCompactedRow fixtureSchema fixtureRow)));
     MkKVRecord [Byte.x2b] None]) =
  Ok (bigEndian 79 0x4b000000004989f86709000007000000000000000d0000000200000029000000012a002a05666c7573731803000000020000000100000000000000feffffff0000000005000702676f02000000012b) /\
  LogBatch_EncodeRows (MkLogBatch 0 0 0 0 9 false 7 13
    [MkRecord [] fixtureRow UpdateAfter (MkTime 0 0 0) 0]) fixtureSchema true =
  Ok (bigEndian 92 0x000000000000000050000000000000000000000000709a7bb70900000000000007000000000000000d000000010000002800000003002a05666c7573731803000000020000000100000000000000feffffff0000000005000702676f).
Proof. split; vm_compute; reflexivity. Qed.

(** The bytes of a row-oriented log batch are the documented layout: base offset,
    length, magic, commit time, the leader epoch in version 1 only, CRC-32C, schema,
    attributes, last offset delta, writer, sequence, count, and per record its length, its
    change byte (whatever [AppendOnly] says) and the encoded row. *)
Theorem log_batch_layout (b : LogBatch) (s : Schema) (compacted : bool) (encoded : list byte) :
  LogBatch_EncodeRows b s compacted = Ok encoded ->
  (lb_Magic b = 0 \/ lb_Magic b = 1) /\
  exists rows, Forall2 (encodedAs s compacted) (lb_Records b) rows /\
    encoded = logLayout b (concat (zip_with logRecordBytes (lb_Records b) rows)).
Proof. apply LogBatch_EncodeRows_layout. Qed.

Lemma log_batch_layout_witness :
  (lb_Magic sampleLogBatch = 0 \/ lb_Magic sampleLogBatch = 1) /\
  exists rows, Forall2 (encodedAs logSchema true) (lb_Records sampleLogBatch) rows /\
    bytesOr (LogBatch_EncodeRows sampleLogBatch logSchema true) =
    logLayout sampleLogBatch (concat (zip_with logRecordBytes (lb_Records sampleLogBatch) rows)).
Proof. apply (log_batch_layout sampleLogBatch logSchema true). vm_compute. reflexivity. Defined.
