(* ===== verification/Arrow.v ===== *)
(** * Arrow schemas and Arrow log batches

    Models [pkg/fgo/arrow.go] (the conversion between Fluss and Arrow schemas) and
    [pkg/fgo/arrow_batch.go] (the framing of an Arrow record batch as a log batch).  The Arrow
    library itself is not part of the program: record batches, the IPC writer and the IPC
    reader are variables of the sections that use them, and the hypotheses on them are the
    rules of the Arrow streaming format. *)

From S2P Require Import Prelude Model Wire Values Codec DecodeSafety EncodeSafety Roundtrip RecordBatch.

(** ** Arrow schemas *)

(** [arrow.TimeUnit]. *)
Inductive TimeUnit := Second | Millisecond | Microsecond | Nanosecond.

(** The concrete types of [arrow.DataType] the program builds or matches on; [AOther] is any
    other one.  A time zone is carried by timestamps and never read. *)
Inductive ArrowType :=
| ABoolean | AInt8 | AInt16 | AInt32 | AInt64 | AFloat32 | AFloat64 | AString | ABinary | ADate32
| AFixedSizeBinary (ByteWidth : Z)
| ADecimal128 (Precision Scale : Z)
| ATime32 (Unit : TimeUnit)
| ATime64 (Unit : TimeUnit)
| ATimestamp (Unit : TimeUnit) (TimeZone : string)
| AList (elem : ArrowField)
| AMap (key item : ArrowField)
| AStruct (fields : list ArrowField)
| AOther (name : string)
with ArrowField :=
| MkArrowField (Name : string) (Type_ : ArrowType) (Nullable : bool).

Definition af_Name f := let 'MkArrowField name _ _ := f in name.
Definition af_Type f := let 'MkArrowField _ ty _ := f in ty.
Definition af_Nullable f := let 'MkArrowField _ _ nullable := f in nullable.

Definition arrowUnit (precision : Z) : TimeUnit :=
  if precision =? 0 then Second
  else if precision <=? 3 then Millisecond
  else if precision <=? 6 then Microsecond
  else Nanosecond.

Definition precisionForUnit (unit : TimeUnit) : Z :=
  match unit with Second => 0 | Millisecond => 3 | Microsecond => 6 | Nanosecond => 9 end.

(** The errors of [arrowType] and of its helpers are plain texts: [None]. *)
Definition arrowTimeType (precision : Z) : option ArrowType :=
  if precision =? 0 then Some (ATime32 Second)
  else if precision <=? 3 then Some (ATime32 Millisecond)
  else if precision <=? 6 then Some (ATime64 Microsecond)
  else if precision <=? 9 then Some (ATime64 Nanosecond)
  else None.

Definition arrowBinaryType (t : LogicalType) : option ArrowType :=
  if lt_Length t <? 1 then None else Some (AFixedSizeBinary (lt_Length t)).

Definition arrowDecimalType (t : LogicalType) : option ArrowType :=
  if (lt_Precision t <? 1) || (38 <? lt_Precision t) then None
  else Some (ADecimal128 (int32 (lt_Precision t)) (int32 (lt_Scale t))).

Definition arrowPrimitiveTypes (kind : DataType) : option ArrowType :=
  match kind with
  | BoolType => Some ABoolean
  | TinyIntType => Some AInt8
  | SmallIntType => Some AInt16
  | IntType => Some AInt32
  | BigIntType => Some AInt64
  | FloatType => Some AFloat32
  | DoubleType => Some AFloat64
  | CharType | StringType => Some AString
  | BytesType => Some ABinary
  | DateType => Some ADate32
  | _ => None
  end.

(** The recursive calls are the argument [convert]. *)
Definition arrowFieldWith (convert : LogicalType -> option ArrowType) (name : string) (t : LogicalType)
    : option ArrowField :=
  ty ← convert t; Some (MkArrowField name ty (lt_Nullable t)).

Definition arrowArrayType (convert : LogicalType -> option ArrowType) (element : option LogicalType)
    : option ArrowType :=
  match element with
  | None => None
  | Some e => field ← arrowFieldWith convert "element" e; Some (AList field)
  end.

Definition arrowMapType (convert : LogicalType -> option ArrowType) (key value : option LogicalType)
    : option ArrowType :=
  match key, value with
  | Some k, Some v =>
    key ← arrowFieldWith convert "key" k;
    value ← arrowFieldWith convert "value" v;
    Some (AMap (MkArrowField (af_Name key) (af_Type key) false) value)
  | _, _ => None
  end.

Definition arrowRowFields (convert : LogicalType -> option ArrowType) : list LogicalField -> option (list ArrowField) :=
  fix go fields :=
    match fields with
    | [] => Some []
    | MkLogicalField name ty _ _ :: fields =>
      nested ← arrowFieldWith convert name ty;
      rest ← go fields;
      Some (nested :: rest)
    end.

Definition arrowRowType (convert : LogicalType -> option ArrowType) (fields : list LogicalField) : option ArrowType :=
  fields ← arrowRowFields convert fields; Some (AStruct fields).

Fixpoint arrowType (t : LogicalType) {struct t} : option ArrowType :=
  let 'MkLogicalType _ _ _ precision _ element key value fields := t in
  let kind := dataTypeForLogicalType t in
  match arrowPrimitiveTypes kind with
  | Some primitive => Some primitive
  | None =>
    match kind with
    | BinaryType => arrowBinaryType t
    | DecimalType => arrowDecimalType t
    | TimeType => arrowTimeType precision
    | TimestampType | TimestampLTZType => Some (ATimestamp (arrowUnit precision) "")
    | ArrayType => arrowArrayType arrowType element
    | MapType => arrowMapType arrowType key value
    | RowType => arrowRowType arrowType fields
    | _ => None
    end
  end.

Definition arrowField (name : string) (t : LogicalType) : option ArrowField := arrowFieldWith arrowType name t.

Fixpoint arrowColumns (columns : list Column) : outcome (list ArrowField) :=
  match columns with
  | [] => Ok []
  | column :: columns =>
    match arrowField (col_Name column) (logicalTypeForColumn column) with
    | None => Err ErrInvalidSchema
    | Some field => fields ← arrowColumns columns; Ok (field :: fields)
    end
  end.

(** An [*arrow.Schema] is its fields. *)
Definition ArrowSchema (s : Schema) : outcome (list ArrowField) :=
  _ ← Schema_Validate s;
  arrowColumns (sch_Columns s).

Definition primitiveLogicalRoot (ty : ArrowType) : option string :=
  match ty with
  | ABoolean => Some "BOOLEAN"%string
  | AInt8 => Some "TINYINT"%string
  | AInt16 => Some "SMALLINT"%string
  | AInt32 => Some "INTEGER"%string
  | AInt64 => Some "BIGINT"%string
  | AFloat32 => Some "FLOAT"%string
  | AFloat64 => Some "DOUBLE"%string
  | AString => Some "STRING"%string
  | ABinary => Some "BYTES"%string
  | ADate32 => Some "DATE"%string
  | _ => None
  end.

(** [return logicalType, logicalType.Validate()] *)
Definition validated (t : LogicalType) : outcome LogicalType := _ ← LogicalType_Validate t; Ok t.
#[global] Arguments validated : simpl never.

Definition logicalArrayFromArrow (convert : ArrowField -> outcome LogicalType) (nullable : bool) (elem : ArrowField)
    : outcome LogicalType :=
  element ← convert elem;
  validated (MkLogicalType "ARRAY" nullable 0 0 0 (Some element) None None []).

Definition setNullable (nullable : bool) (t : LogicalType) : LogicalType :=
  let 'MkLogicalType root _ length precision scale element key value fields := t in
  MkLogicalType root nullable length precision scale element key value fields.

Definition logicalMapFromArrow (convert : ArrowField -> outcome LogicalType) (nullable : bool) (key item : ArrowField)
    : outcome LogicalType :=
  key ← convert key;
  value ← convert item;
  validated (MkLogicalType "MAP" nullable 0 0 0 None (Some (setNullable false key)) (Some value) []).

Definition logicalFieldsFromArrow (convert : ArrowField -> outcome LogicalType) : list ArrowField -> outcome (list LogicalField) :=
  fix go fields :=
    match fields with
    | [] => Ok []
    | nested :: fields =>
      nestedType ← convert nested;
      rest ← go fields;
      Ok (MkLogicalField (af_Name nested) nestedType "" 0 :: rest)
    end.

Definition logicalRowFromArrow (convert : ArrowField -> outcome LogicalType) (nullable : bool) (fields : list ArrowField)
    : outcome LogicalType :=
  fields ← logicalFieldsFromArrow convert fields;
  validated (MkLogicalType "ROW" nullable 0 0 0 None None None fields).

(** [logicalTypeFromArrow] on the type and the nullability of a field. *)
Fixpoint logicalTypeOfArrow (ty : ArrowType) (nullable : bool) {struct ty} : outcome LogicalType :=
  match primitiveLogicalRoot ty with
  | Some root => validated (plainType root nullable)
  | None =>
    match ty with
    | AFixedSizeBinary width => validated (MkLogicalType "BINARY" nullable width 0 0 None None None [])
    | ADecimal128 precision scale => validated (MkLogicalType "DECIMAL" nullable 0 precision scale None None None [])
    | ATime32 unit | ATime64 unit =>
      validated (MkLogicalType "TIME_WITHOUT_TIME_ZONE" nullable 0 (precisionForUnit unit) 0 None None None [])
    | ATimestamp unit _ =>
      validated (MkLogicalType "TIMESTAMP_WITHOUT_TIME_ZONE" nullable 0 (precisionForUnit unit) 0 None None None [])
    | AList elem => logicalArrayFromArrow logicalTypeFromArrow nullable elem
    | AMap key item => logicalMapFromArrow logicalTypeFromArrow nullable key item
    | AStruct fields => logicalRowFromArrow logicalTypeFromArrow nullable fields
    | _ => Err ErrInvalidSchema
    end
  end
with logicalTypeFromArrow (field : ArrowField) {struct field} : outcome LogicalType :=
  match field with MkArrowField _ ty nullable => logicalTypeOfArrow ty nullable end.

Fixpoint columnsFromArrow (fields : list ArrowField) : outcome (list Column) :=
  match fields with
  | [] => Ok []
  | field :: fields =>
    logicalType ← logicalTypeFromArrow field;
    columns ← columnsFromArrow fields;
    Ok (MkColumn (af_Name field) (dataTypeForLogicalType logicalType) (af_Nullable field) (Some logicalType) "" 0 :: columns)
  end.

(** A nil schema is [None]. *)
Definition SchemaFromArrow (schema : option (list ArrowField)) : outcome Schema :=
  match schema with
  | None => Err ErrInvalidSchema
  | Some fields =>
    columns ← columnsFromArrow fields;
    let result := MkSchema columns [] [] [] [] 0 in
    _ ← Schema_Validate result;
    Ok result
  end.

(** ** Schemas through Arrow *)

(** What Arrow keeps of a logical type: CHAR becomes STRING, local-zoned timestamps plain ones,
    a temporal precision the precision of its unit, and a map key is not nullable. *)
Fixpoint arrowRetained (t : LogicalType) : LogicalType :=
  let 'MkLogicalType _ nullable length precision scale element key value fields := t in
  match dataTypeForLogicalType t with
  | CharType => plainType "STRING" nullable
  | BinaryType => MkLogicalType "BINARY" nullable length 0 0 None None None []
  | DecimalType => MkLogicalType "DECIMAL" nullable 0 precision scale None None None []
  | TimeType => MkLogicalType "TIME_WITHOUT_TIME_ZONE" nullable 0 (precisionForUnit (arrowUnit precision)) 0 None None None []
  | TimestampType | TimestampLTZType =>
    MkLogicalType "TIMESTAMP_WITHOUT_TIME_ZONE" nullable 0 (precisionForUnit (arrowUnit precision)) 0 None None None []
  | ArrayType => MkLogicalType "ARRAY" nullable 0 0 0 (option_map arrowRetained element) None None []
  | MapType => MkLogicalType "MAP" nullable 0 0 0 None
      (option_map (fun k => setNullable false (arrowRetained k)) key) (option_map arrowRetained value) []
  | RowType => MkLogicalType "ROW" nullable 0 0 0 None None None
      (map (fun f => let 'MkLogicalField name ty _ _ := f in MkLogicalField name (arrowRetained ty) "" 0) fields)
  | kind => plainType (logicalRoot kind) nullable
  end.

Definition retainedColumn (column : Column) : Column :=
  let t := arrowRetained (logicalTypeForColumn column) in
  MkColumn (col_Name column) (dataTypeForLogicalType t) (lt_Nullable t) (Some t) "" 0.

Lemma arrowRetained_nullable t : lt_Nullable (arrowRetained t) = lt_Nullable t.
Proof. destruct t. cbn. by case_match. Qed.

Lemma setNullable_valid n t : LogicalType_Validate (setNullable n t) = LogicalType_Validate t.
Proof. by destruct t. Qed.

(** Evaluates the kind of a type whose root is known. *)
Local Ltac kind :=
  repeat match goal with
  | |- context [dataTypeForLogicalType ?t] =>
    let k := eval vm_compute in (dataTypeForLogicalType t) in change (dataTypeForLogicalType t) with k
  end.

(** A valid type with its root split into the cases of [Validate]. *)
Local Ltac roots H :=
  cbn [LogicalType_Validate] in H; unfold scalarRoots in H; repeat (case_decide; [|]);
  repeat match goal with
  | R : _ ∈ _ :: _ |- _ => apply elem_of_cons in R as [->|R]
  | R : _ ∈ [] |- _ => by apply not_elem_of_nil in R
  | R : ?root = _ |- _ => is_var root; subst root
  end;
  try done.

Section Retained.
Variable depth : nat.

(** Both conversions and the validation, on the types below the depth. *)
Definition roundsBelow : Prop := forall t, (typeDepth t < depth)%nat -> LogicalType_Validate t = Ok tt ->
  (exists a, arrowType t = Some a /\ logicalTypeOfArrow a (lt_Nullable t) = Ok (arrowRetained t)) /\
  LogicalType_Validate (arrowRetained t) = Ok tt.

Hypothesis IH : roundsBelow.

Lemma fields_round fields :
  validateFields LogicalType_Validate fields = Ok tt -> (forall f, f ∈ fields -> typeDepth (lf_Type f) < depth)%nat ->
  let retained := map (fun f => let 'MkLogicalField name ty _ _ := f in MkLogicalField name (arrowRetained ty) "" 0) fields in
  (exists afs, arrowRowFields arrowType fields = Some afs /\
               logicalFieldsFromArrow logicalTypeFromArrow afs = Ok retained) /\
  validateFields LogicalType_Validate retained = Ok tt.
Proof.
  induction fields as [|[name ty desc id] fields IHf]; intros Hv Hd.
  { split; [by exists []|done]. }
  cbn [validateFields] in Hv. case_decide as Hname; [done|]. inv_ok.
  destruct (IH ty) as [(a & Ha & Hr) Hrv]; [apply (Hd (MkLogicalField name ty desc id)); left|by destruct x|].
  destruct IHf as [(afs & Hafs & Hrs) Hrsv]; [done|intros f Hf; apply Hd; by right|].
  split.
  - exists (MkArrowField name a (lt_Nullable ty) :: afs). split.
    + cbn [arrowRowFields]. fold (arrowRowFields arrowType). unfold arrowFieldWith. rewrite Ha. cbn. by rewrite Hafs.
    + cbn [logicalFieldsFromArrow]. fold (logicalFieldsFromArrow logicalTypeFromArrow). cbn. rewrite Hr. cbn.
      by rewrite Hrs.
  - cbn [map validateFields]. rewrite decide_False by done. rewrite Hrv. cbn. exact Hrsv.
Qed.
End Retained.

Lemma fields_depth t f : f ∈ lt_Fields t -> (typeDepth (lf_Type f) < typeDepth t)%nat.
Proof.
  intros Hf. pose proof (nestedSchema_depth t) as H. eapply Nat.le_lt_trans; [|exact H].
  pose proof (schemaDepth_column (nestedSchema t)
    (MkColumn (lf_Name f) (dataTypeForLogicalType (lf_Type f)) (lt_Nullable (lf_Type f)) (Some (lf_Type f))
       (lf_Description f) (lf_ID f))) as Hd. apply Hd. unfold nestedSchema. cbn.
  apply list_elem_of_fmap. by exists f.
Qed.

Lemma validateFields_nonempty fields : fields <> [] ->
  validateRow LogicalType_Validate fields = validateFields LogicalType_Validate fields.
Proof. by destruct fields. Qed.

Lemma validated_Ok t : LogicalType_Validate t = Ok tt -> validated t = Ok t.
Proof. unfold validated. by intros ->. Qed.

Lemma validated_nullable n n' root length precision scale element key value fields r :
  validated (MkLogicalType root n length precision scale element key value fields) = Ok r ->
  validated (MkLogicalType root n' length precision scale element key value fields) = Ok (setNullable n' r).
Proof.
  unfold validated. intros H. apply bind_Ok in H as ([] & Hv & [= <-]).
  by rewrite <- (setNullable_valid n') in Hv; cbn [setNullable] in Hv; rewrite Hv.
Qed.

(** Nullability is the field's, not its type's. *)
Lemma logicalTypeOfArrow_nullable a n n' r :
  logicalTypeOfArrow a n = Ok r -> logicalTypeOfArrow a n' = Ok (setNullable n' r).
Proof.
  destruct a; cbn; try (by apply validated_nullable); try done;
    unfold logicalArrayFromArrow, logicalMapFromArrow, logicalRowFromArrow; intros H; inv_ok;
    repeat (match goal with E : ?m = Ok _ |- context [?m] => rewrite E end; cbn [mbind outcome_bind]);
    by eapply validated_nullable.
Qed.

Lemma setNullable_twice n n' t : setNullable n (setNullable n' t) = setNullable n t.
Proof. by destruct t. Qed.

(** A type is converted and validated: what is left is the validity of what Arrow keeps. *)
Lemma rounds_split t a r :
  arrowType t = Some a -> LogicalType_Validate r = Ok tt ->
  (LogicalType_Validate r = Ok tt -> logicalTypeOfArrow a (lt_Nullable t) = Ok r) ->
  (exists a, arrowType t = Some a /\ logicalTypeOfArrow a (lt_Nullable t) = Ok r) /\ LogicalType_Validate r = Ok tt.
Proof. intros Ha Hr H. split; [|done]. exists a. by split; [|apply H]. Qed.

Lemma precisionForUnit_valid root n u :
  validateTemporal (MkLogicalType root n 0 (precisionForUnit u) 0 None None None []) = Ok tt.
Proof. by destruct u. Qed.

Lemma arrowTimeType_unit precision : 0 <= precision <= 9 ->
  exists a, arrowTimeType precision = Some a /\ (a = ATime32 (arrowUnit precision) \/ a = ATime64 (arrowUnit precision)).
Proof.
  intros Hp. unfold arrowTimeType, arrowUnit. repeat case_match; try (eexists; split; [done|]; auto; fail). lia.
Qed.

Lemma arrow_rounds depth : roundsBelow depth.
Proof.
  induction depth as [|depth IH]; [intros t H; lia|]. intros t Hd Hv.
  destruct t as [root nullable length precision scale element key value fields].
  roots Hv.
  all: cbn [arrowRetained lt_Nullable]; kind; cbv iota.
  all: try (eapply rounds_split; [cbn; kind; reflexivity|reflexivity|reflexivity]).
  - apply check_Ok in Hv. cbn in Hv.
    eapply rounds_split; [cbn; kind; cbn; unfold arrowBinaryType; cbn; by rewrite (proj2 (Z.ltb_ge _ _)) by lia| |].
    + apply check_Ok. cbn. lia.
    + intros E. by apply validated_Ok.
  - apply check_Ok in Hv. cbn in Hv. apply negb_true_iff in Hv.
    eapply rounds_split; [cbn; kind; cbn; unfold arrowDecimalType; cbn; by rewrite (proj1 (proj1 (orb_false_iff _ _) (proj1 (proj1 (orb_false_iff _ _) Hv))))| |].
    + apply check_Ok. cbn. by rewrite Hv.
    + intros E. cbn. rewrite !swrap_small by (done || (unfold srange; lia)). by apply validated_Ok.
  - apply check_Ok in Hv. cbn in Hv.
    destruct (arrowTimeType_unit precision ltac:(lia)) as (a & Ha & Hu).
    eapply rounds_split; [cbn; kind; exact Ha|apply precisionForUnit_valid|]. intros E.
    destruct Hu as [-> | ->]; by apply validated_Ok.
  - eapply rounds_split; [cbn; kind; reflexivity|apply precisionForUnit_valid|]. intros E. by apply validated_Ok.
  - eapply rounds_split; [cbn; kind; reflexivity|apply precisionForUnit_valid|]. intros E. by apply validated_Ok.
  - destruct element as [e|]; [|done]. cbn in Hv.
    destruct (IH e) as [(a & Ha & Hr) Hrv]; [cbn in Hd; lia|done|].
    eapply rounds_split; [cbn; kind; cbn; unfold arrowFieldWith; by rewrite Ha|exact Hrv|].
    intros E. cbn. unfold logicalArrayFromArrow. cbn. rewrite Hr. by apply validated_Ok.
  - destruct key as [k|], value as [v|]; try done. cbn in Hv. inv_ok.
    destruct (IH k) as [(a & Ha & Hr) Hrv]; [cbn in Hd; lia|by destruct x|].
    destruct (IH v) as [(b & Hb & Hs) Hsv]; [cbn in Hd; lia|done|].
    eapply rounds_split; [cbn; kind; cbn; unfold arrowFieldWith; rewrite Ha; cbn; by rewrite Hb| |].
    + cbn. by rewrite setNullable_valid, Hrv.
    + intros Hv'. cbn. unfold logicalMapFromArrow. cbn.
      rewrite (logicalTypeOfArrow_nullable a _ false _ Hr). cbn. rewrite Hs. cbn.
      rewrite setNullable_twice. by apply validated_Ok.
  - destruct (decide (fields = [])) as [->|Hne]; [done|]. rewrite validateFields_nonempty in Hv by done.
    destruct (fields_round depth IH fields Hv) as [(afs & Ha & Hr) Hrv].
    { intros f Hf. apply (fields_depth (MkLogicalType "ROW" nullable length precision scale element key value fields)) in Hf. lia. }
    eapply rounds_split; [cbn; kind; cbn; unfold arrowRowType; by rewrite Ha| |].
    + cbn. rewrite validateFields_nonempty; [exact Hrv|]. by destruct fields.
    + intros Hv'. cbn. unfold logicalRowFromArrow. rewrite Hr. cbn. by apply validated_Ok.
Qed.

Lemma arrowType_round t : LogicalType_Validate t = Ok tt ->
  (exists a, arrowType t = Some a /\ logicalTypeOfArrow a (lt_Nullable t) = Ok (arrowRetained t)) /\
  LogicalType_Validate (arrowRetained t) = Ok tt.
Proof. apply (arrow_rounds (S (typeDepth t))). lia. Qed.

(** A column declared without a logical type, when Arrow can express it. *)
Lemma plain_round kind n a : DataType_Validate kind = Ok tt -> kind <> RowType -> arrowType (plainType (logicalRoot kind) n) = Some a ->
  logicalTypeOfArrow a n = Ok (arrowRetained (plainType (logicalRoot kind) n)) /\
  LogicalType_Validate (arrowRetained (plainType (logicalRoot kind) n)) = Ok tt.
Proof. destruct kind; intros Hk Hrow Ha; try done; vm_compute in Ha; simplify_eq; split; vm_compute; reflexivity. Qed.

(** A ROW column without a logical type has no fields: Arrow takes it, Fluss does not. *)
Definition fieldsKnown (c : Column) : bool :=
  bool_decide (is_Some (col_LogicalType c)) || negb (bool_decide (col_Type c = RowType)).

Lemma column_round c f : columnTypeOk c -> fieldsKnown c = true -> arrowField (col_Name c) (logicalTypeForColumn c) = Some f ->
  logicalTypeFromArrow f = Ok (arrowRetained (logicalTypeForColumn c)) /\ af_Name f = col_Name c /\
  af_Nullable f = lt_Nullable (logicalTypeForColumn c) /\
  LogicalType_Validate (arrowRetained (logicalTypeForColumn c)) = Ok tt.
Proof.
  unfold columnTypeOk, fieldsKnown, logicalTypeForColumn, arrowField, arrowFieldWith. intros Hc Hk Hf.
  destruct (col_LogicalType c) as [t|].
  - destruct (arrowType_round t Hc) as [(a & Ha & Hr) Hv]. rewrite Ha in Hf. injection Hf as <-. done.
  - destruct (arrowType _) as [a|] eqn:Ha; [|done]. injection Hf as <-.
    apply negb_true_iff, bool_decide_eq_false in Hk. destruct (plain_round _ _ _ Hc Hk Ha) as [Hr Hv]. done.
Qed.

Lemma validateColumnsLoop_types cols m : validateColumnsLoop ∅ cols = Ok m -> Forall columnTypeOk cols.
Proof. intros (_ & H & _)%validateColumnsLoop_Ok. apply Forall_forall. intros c Hc. by apply H. Qed.

(** Columns with the same names, and valid types, are accepted together. *)
Lemma validateColumnsLoop_rename (g : Column -> Column) cols : forall seen seen' m,
  (forall c, col_Name (g c) = col_Name c) -> Forall (fun c => columnTypeOk (g c)) cols ->
  (forall k, seen !! k = None -> seen' !! k = None) ->
  validateColumnsLoop seen cols = Ok m -> exists m', validateColumnsLoop seen' (map g cols) = Ok m'.
Proof.
  induction cols as [|c cols IH]; intros seen seen' m Hg Hv Hs H; cbn in *; [by eexists|].
  inversion Hv as [|? ? Hc Hcs]; subst. inv_ok.
  rename select (bool_decide (seen !! _ = _) = _) into Hnew. apply bool_decide_eq_true in Hnew.
  rename select (negb _ = true) into Hname.
  rewrite !Hg. rewrite (proj2 (check_Ok _ _ tt) Hname). cbn [mbind outcome_bind].
  rewrite bool_decide_eq_true_2 by auto. cbn [check mbind outcome_bind].
  unfold columnTypeOk in Hc. replace (match col_LogicalType (g c) with Some t => _ | None => _ end) with (Ok tt)
    by (by destruct (col_LogicalType (g c))). cbn [mbind outcome_bind].
  eapply IH; [done|done| |done]. intros k. rewrite !lookup_insert_None. intros [? ?]. split; auto.
Qed.

Lemma columns_round cols : forall fields, Forall columnTypeOk cols -> forallb fieldsKnown cols = true -> arrowColumns cols = Ok fields ->
  columnsFromArrow fields = Ok (map retainedColumn cols) /\ Forall (fun c => columnTypeOk (retainedColumn c)) cols.
Proof.
  induction cols as [|c cols IH]; intros fields Hv Hk H; cbn in H; [by simplify_eq|].
  cbn in Hk. apply andb_true_iff in Hk as [Hkc Hk].
  inversion Hv as [|? ? Hc Hcs]; subst. destruct (arrowField _ _) as [f|] eqn:Hf; [|done]. inv_ok.
  destruct (column_round c f Hc Hkc Hf) as (Hr & Hn & Hnul & Hval).
  destruct (IH _ Hcs Hk ltac:(done)) as [IH1 IH2]. split; [|by constructor].
  cbn [columnsFromArrow map]. rewrite Hr. cbn [mbind outcome_bind]. rewrite IH1. cbn [mbind outcome_bind].
  unfold retainedColumn at 2. by rewrite arrowRetained_nullable, Hn, Hnul.
Qed.

(** Schemas survive the conversion to Arrow and back.  A valid schema whose columns carry
    logical types converts, and what [ArrowSchema] makes of a schema whose ROW columns know
    their fields, [SchemaFromArrow] accepts and
    reads back as the same columns, with CHAR as STRING, local-zoned timestamps as plain ones,
    temporal precisions as those of their units and map keys not nullable. *)
Theorem arrow_schema_roundtrip (s : Schema) :
  Schema_Validate s = Ok tt ->
  (forallb (fun c => bool_decide (is_Some (col_LogicalType c))) (sch_Columns s) = true ->
   exists fields, ArrowSchema s = Ok fields) /\
  (forall fields, forallb fieldsKnown (sch_Columns s) = true -> ArrowSchema s = Ok fields ->
   SchemaFromArrow (Some fields) = Ok (MkSchema (map retainedColumn (sch_Columns s)) [] [] [] [] 0)).
Proof.
  intros Hs. unfold ArrowSchema, SchemaFromArrow. rewrite Hs. cbn [mbind outcome_bind].
  unfold Schema_Validate in Hs. destruct (sch_Columns s) as [|c cols] eqn:Hc; [done|]. rewrite <- Hc in *.
  assert (Hne : sch_Columns s <> []) by (by rewrite Hc). clear c cols Hc. inv_ok.
  rename select (validateColumns s = _) into Hcols. unfold validateColumns in Hcols.
  pose proof (validateColumnsLoop_types _ _ Hcols) as Hv. split.
  - intros Ht. clear -Hv Ht. induction Hv as [|c cols Hc Hv IH]; [by eexists|]. cbn in Ht.
    apply andb_true_iff in Ht as [(t & Et)%bool_decide_eq_true Ht]. destruct (IH Ht) as [fields Hf].
    cbn. unfold columnTypeOk, arrowField, arrowFieldWith, logicalTypeForColumn in *. rewrite Et in *.
    destruct (arrowType_round t Hc) as [(a & Ha & _) _]. rewrite Ha. cbn. rewrite Hf. by eexists.
  - intros fields Hk Hf. destruct (columns_round _ _ Hv Hk Hf) as [Hr Hrv]. rewrite Hr. cbn [mbind outcome_bind].
    destruct (validateColumnsLoop_rename retainedColumn _ ∅ ∅ _ (fun _ => eq_refl) Hrv (fun _ H => H) Hcols) as [m' Hm'].
    unfold Schema_Validate. cbn [sch_Columns]. destruct (sch_Columns s) as [|c cols] eqn:Hc; [done|].
    cbn [map]. unfold validateColumns. cbn [sch_Columns]. rewrite <- (map_cons retainedColumn c cols), Hm'. done.
Qed.

Definition arrowSample : Schema :=
  MkSchema
    [MkColumn "at" TimestampLTZType true (Some (MkLogicalType "TIMESTAMP_WITH_LOCAL_TIME_ZONE" true 0 4 0 None None None [])) "" 1;
     MkColumn "tags" MapType true
       (Some (MkLogicalType "MAP" true 0 0 0 None (Some (MkLogicalType "CHAR" true 2 0 0 None None None []))
          (Some (MkLogicalType "ARRAY" false 0 0 0 (Some (plainType "INTEGER" true)) None None [])) [])) "" 2]
    ["at"]%string [] [] [] 0.

Lemma arrow_schema_roundtrip_witness :
  exists fields, ArrowSchema arrowSample = Ok fields /\
  SchemaFromArrow (Some fields) = Ok (MkSchema (map retainedColumn (sch_Columns arrowSample)) [] [] [] [] 0).
Proof.
  destruct (arrow_schema_roundtrip arrowSample) as [Ha Hb]; [vm_compute; reflexivity|].
  destruct Ha as [fields Hf]; [vm_compute; reflexivity|]. exists fields. split; [exact Hf|]. apply Hb; [vm_compute; reflexivity|exact Hf].
Defined.

(** ** Arrow log batches *)

Definition ArrowCompressionNone : Z := 0.
Definition ArrowCompressionLZ4 : Z := 1.
Definition ArrowCompressionZSTD : Z := 2.

(** [Rec] is [arrow.RecordBatch]; a nil record is [None].  Ownership of a decoded record
    ([Release]) is not part of the value. *)
Record ArrowLogBatch (Rec : Type) := MkArrowLogBatch {
  ab_Magic : Z;
  ab_BaseOffset : Z;
  ab_CommitTime : Z;
  ab_LeaderEpoch : Z;
  ab_SchemaID : Z;
  ab_AppendOnly : bool;
  ab_WriterID : Z;
  ab_BatchSequence : Z;
  ab_Record : option Rec;
  ab_Changes : list Z;
}.
Arguments MkArrowLogBatch {Rec}.
Arguments ab_Magic {Rec}.
Arguments ab_BaseOffset {Rec}.
Arguments ab_CommitTime {Rec}.
Arguments ab_LeaderEpoch {Rec}.
Arguments ab_SchemaID {Rec}.
Arguments ab_AppendOnly {Rec}.
Arguments ab_WriterID {Rec}.
Arguments ab_BatchSequence {Rec}.
Arguments ab_Record {Rec}.
Arguments ab_Changes {Rec}.

(** What the Arrow library does: the number of rows of a record, the payloads its IPC writer
    hands to a payload writer for a record (the first is the schema), the stream it writes for
    a schema alone, and the records its reader finds in a stream.  [None] is an error. *)
Record ArrowLibrary (Rec : Type) := MkArrowLibrary {
  al_NumRows : Rec -> Z;
  al_Schema : Rec -> list ArrowField;
  al_payloads : Z -> Rec -> option (list (list byte));
  al_schemaStream : list ArrowField -> option (list byte);
  al_read : list byte -> option (list Rec);
}.
Arguments al_NumRows {Rec}.
Arguments al_Schema {Rec}.
Arguments al_payloads {Rec}.
Arguments al_schemaStream {Rec}.
Arguments al_read {Rec}.

(** The end-of-stream marker of the streaming format. *)
Definition arrowEOS : list byte := [Byte.xff; Byte.xff; Byte.xff; Byte.xff; Byte.x00; Byte.x00; Byte.x00; Byte.x00].

Section ArrowBatch.
Context {Rec : Type} (library : ArrowLibrary Rec).
Abbreviation ArrowLogBatch := (ArrowLogBatch Rec).

Definition arrowRecordCount (record : option Rec) : outcome Z :=
  match record with
  | None => Ok 0
  | Some r => if 2147483647 <? al_NumRows library r then Err ErrMalformedRecordBatch else Ok (al_NumRows library r)
  end.

Definition arrowHeaderSize (magic : Z) : Z :=
  if magic =? 1 then logBatchV1HeaderSize else logBatchV0HeaderSize.

(** [changes[i] = byte(change)] for every change, each validated. *)
Fixpoint arrowChangeBytes (changes : list Z) : outcome (list byte) :=
  match changes with
  | [] => Ok []
  | change :: changes =>
    _ ← ChangeType_Validate change;
    rest ← arrowChangeBytes changes;
    Ok (byte.of_Z change :: rest)
  end.

Definition arrowChanges (batch : ArrowLogBatch) (count : Z) : outcome (list byte) :=
  if ab_AppendOnly batch then
    _ ← check (negb (negb (glen (ab_Changes batch) =? 0) && negb (glen (ab_Changes batch) =? count))) ErrMalformedRecordBatch;
    _ ← check (forallb (fun change => change =? Append) (ab_Changes batch)) ErrInvalidRow;
    Ok []
  else
    _ ← check (glen (ab_Changes batch) =? count) ErrMalformedRecordBatch;
    arrowChangeBytes (ab_Changes batch).

(** The second payload is the record; [arrowPayloadCapture] rejects a third. *)
Definition encodeArrowPayload (record : option Rec) (compression : Z) : outcome (list byte) :=
  match record with
  | None => Ok []
  | Some r =>
    if al_NumRows library r =? 0 then Ok []
    else if (compression =? ArrowCompressionNone) || (compression =? ArrowCompressionLZ4)
            || (compression =? ArrowCompressionZSTD)
    then match al_payloads library compression r with
         | Some [_; payload] => Ok payload
         | _ => Err ErrMalformedRecordBatch
         end
    else Err ErrInvalidConfig
  end.

Definition writeArrowHeader (encoded : list byte) (batch : ArrowLogBatch) (count : Z) : outcome (list byte * Z * Z) :=
  encoded ← putLE 8 encoded 0 (uint64 (ab_BaseOffset batch));
  encoded ← set_index encoded 12 (byte.of_Z (ab_Magic batch));
  encoded ← putLE 8 encoded 13 (uint64 (ab_CommitTime batch));
  encoded ← (if ab_Magic batch =? 1 then putLE 4 encoded 21 (uint32 (ab_LeaderEpoch batch)) else Ok encoded);
  let '(crcOffset, schemaOffset) := if ab_Magic batch =? 1 then (25, 29) else (21, 25) in
  encoded ← putLE 2 encoded schemaOffset (uint16 (ab_SchemaID batch));
  encoded ← (if ab_AppendOnly batch then set_index encoded (schemaOffset + 2) Byte.x01 else Ok encoded);
  encoded ← (if 0 <? count then putLE 4 encoded (schemaOffset + 3) (uint32 (count - 1)) else Ok encoded);
  encoded ← putLE 8 encoded (schemaOffset + 3 + 4) (uint64 (ab_WriterID batch));
  encoded ← putLE 4 encoded (schemaOffset + 3 + 12) (uint32 (ab_BatchSequence batch));
  encoded ← putLE 4 encoded (schemaOffset + 3 + 16) (uint32 count);
  Ok (encoded, crcOffset, schemaOffset).

Definition EncodeArrowLogBatch (batch : ArrowLogBatch) (compression : Z) : outcome (list byte) :=
  if negb (ab_Magic batch =? 0) && negb (ab_Magic batch =? 1) then Err ErrMalformedRecordBatch
  else
    count ← arrowRecordCount (ab_Record batch);
    changes ← arrowChanges batch count;
    payload ← encodeArrowPayload (ab_Record batch) compression;
    if (count =? 0) && negb (glen payload =? 0) then Err ErrMalformedRecordBatch
    else
      let headerSize := arrowHeaderSize (ab_Magic batch) in
      if maxRowBytes - headerSize - glen changes <? glen payload then Err ErrMalformedRecordBatch
      else
        '(encoded, crcOffset, schemaOffset) ← writeArrowHeader (zeros headerSize) batch count;
        let encoded := (encoded ++ changes) ++ payload in
        encoded ← putLE 4 encoded 8 (uint32 (glen encoded - 12));
        covered ← slice_from encoded schemaOffset;
        putLE 4 encoded crcOffset (crc32c covered).

Definition arrowHeader (encoded : list byte) : outcome (Z * Z * Z * Z) :=
  if (glen encoded <? 13) || (maxRowBytes <? glen encoded) then Err ErrMalformedRecordBatch
  else
    b ← index encoded 12;
    if byte.unsigned b =? 0 then
      if glen encoded <? logBatchV0HeaderSize then Err ErrMalformedRecordBatch
      else Ok (0, logBatchV0HeaderSize, 21, 25)
    else if byte.unsigned b =? 1 then
      if glen encoded <? logBatchV1HeaderSize then Err ErrMalformedRecordBatch
      else Ok (1, logBatchV1HeaderSize, 25, 29)
    else Err ErrMalformedRecordBatch.

Fixpoint decodeChangeBytes (encoded : list byte) (n : nat) (position : Z) : outcome (list Z) :=
  match n with
  | O => Ok []
  | S n =>
    b ← index encoded position;
    let change := int8 (byte.unsigned b) in
    _ ← rewrap ErrMalformedRecordBatch (ChangeType_Validate change);
    rest ← decodeChangeBytes encoded n (position + 1);
    Ok (change :: rest)
  end.

Definition decodeArrowChanges (encoded : list byte) (position count : Z) (appendOnly : bool) : outcome (list Z * Z) :=
  if appendOnly then Ok (replicate (Z.to_nat count) Append, position)
  else changes ← decodeChangeBytes encoded (Z.to_nat count) position; Ok (changes, position + count).

Definition decodeArrowPayload (schema : list ArrowField) (payload : list byte) : outcome Rec :=
  if glen payload =? 0 then Err ErrMalformedRecordBatch
  else match al_schemaStream library schema with
       | None => Err ErrMalformedRecordBatch
       | Some stream =>
         if glen stream <? 8 then Err ErrMalformedRecordBatch
         else
           schemaPrefix ← slice stream 0 (glen stream - 8);
           match al_read library ((schemaPrefix ++ payload) ++ arrowEOS) with
           | Some [record] => Ok record
           | _ => Err ErrMalformedRecordBatch
           end
       end.

Definition decodeArrowRecord (schema : list ArrowField) (payload : list byte) (count : Z) : outcome (option Rec) :=
  if count =? 0 then (if negb (glen payload =? 0) then Err ErrMalformedRecordBatch else Ok None)
  else
    record ← decodeArrowPayload schema payload;
    if negb (al_NumRows library record =? count) then Err ErrMalformedRecordBatch else Ok (Some record).

Definition DecodeArrowLogBatch (schema : option (list ArrowField)) (encoded : list byte) : outcome ArrowLogBatch :=
  match schema with
  | None => Err ErrInvalidSchema
  | Some schema =>
    '(magic, headerSize, crcOffset, schemaOffset) ← arrowHeader encoded;
    length ← getLE 4 encoded 8;
    sum ← getLE 4 encoded crcOffset;
    covered ← slice_from encoded schemaOffset;
    if negb (length =? glen encoded - 12) || negb (sum =? crc32c covered) then Err ErrMalformedRecordBatch
    else
      let lastOffset := schemaOffset + 3 in
      count ← getLE 4 encoded (lastOffset + 16);
      attributes ← index encoded (schemaOffset + 2);
      let appendOnly := negb (Z.land (byte.unsigned attributes) 1 =? 0) in
      let changeBytes := if appendOnly then 0 else count in
      if (maxRowBytes <? count) || (glen encoded - headerSize <? changeBytes) then Err ErrMalformedRecordBatch
      else
        '(changes, position) ← decodeArrowChanges encoded headerSize count appendOnly;
        payload ← slice_from encoded position;
        record ← decodeArrowRecord schema payload count;
        baseOffset ← getLE 8 encoded 0;
        commitTime ← getLE 8 encoded 13;
        schemaID ← getLE 2 encoded schemaOffset;
        writerID ← getLE 8 encoded (lastOffset + 4);
        sequence ← getLE 4 encoded (lastOffset + 12);
        leaderEpoch ← (if magic =? 1 then z ← getLE 4 encoded 21; Ok (int32 z) else Ok 0);
        Ok (MkArrowLogBatch magic (int64 baseOffset) (int64 commitTime) leaderEpoch (int16 schemaID) appendOnly
              (int64 writerID) (int32 sequence) record changes)
  end.

(** *** Round trip *)

(** The header of an Arrow batch is that of a log batch with as many records. *)
Definition arrowHeaderOf (batch : ArrowLogBatch) (count : Z) : LogBatch :=
  MkLogBatch (ab_Magic batch) (ab_BaseOffset batch) (ab_CommitTime batch) (ab_LeaderEpoch batch) (ab_SchemaID batch)
    (ab_AppendOnly batch) (ab_WriterID batch) (ab_BatchSequence batch)
    (replicate (Z.to_nat count) (MkRecord [] [] Append (MkTime 0 0 0) 0)).

Lemma arrowHeaderOf_count batch count : 0 <= count -> glen (lb_Records (arrowHeaderOf batch count)) = count.
Proof. intros H. unfold glen. cbn. rewrite length_replicate. lia. Qed.

Lemma writeArrowHeader_Ok batch count : 0 <= count ->
  writeArrowHeader (zeros (arrowHeaderSize (ab_Magic batch))) batch count =
  Ok (logPrefix (arrowHeaderOf batch count) ++ zeros 4 ++ logCovered (arrowHeaderOf batch count) [],
      glen (logPrefix (arrowHeaderOf batch count)), glen (logPrefix (arrowHeaderOf batch count)) + 4).
Proof.
  intros Hc. pose proof (log_header (arrowHeaderOf batch count) (fun e c s => Ok (e, c, s))) as H.
  rewrite arrowHeaderOf_count in H by done. exact H.
Qed.

Lemma EncodeArrowLogBatch_layout batch compression encoded :
  (forall r, ab_Record batch = Some r -> 0 <= al_NumRows library r) ->
  EncodeArrowLogBatch batch compression = Ok encoded ->
  exists count changes payload,
    (ab_Magic batch = 0 \/ ab_Magic batch = 1) /\
    arrowRecordCount (ab_Record batch) = Ok count /\ 0 <= count <= 2147483647 /\
    arrowChanges batch count = Ok changes /\ encodeArrowPayload (ab_Record batch) compression = Ok payload /\
    (count = 0 -> payload = []) /\
    encoded = logLayout (arrowHeaderOf batch count) (changes ++ payload) /\
    arrowHeaderSize (ab_Magic batch) + glen changes + glen payload <= maxRowBytes.
Proof.
  intros Hrows H. unfold EncodeArrowLogBatch in H. destruct (_ && _) eqn:Em; [done|].
  apply bind_Ok in H as (count & Hcount & H). apply bind_Ok in H as (changes & Hch & H).
  apply bind_Ok in H as (payload & Hpay & H).
  assert (Hc : 0 <= count <= 2147483647).
  { unfold arrowRecordCount in Hcount. destruct (ab_Record batch) as [r|]; [|simplify_eq; lia].
    specialize (Hrows r eq_refl). destruct (Z.ltb_spec 2147483647 (al_NumRows library r)); [done|]. simplify_eq. lia. }
  destruct ((count =? 0) && _) eqn:Ez; [done|]. cbv zeta in H.
  destruct (Z.ltb_spec (maxRowBytes - arrowHeaderSize (ab_Magic batch) - glen changes) (glen payload)); [done|].
  rewrite writeArrowHeader_Ok in H by lia. cbn [mbind outcome_bind] in H.
  rewrite <- !app_assoc, <- logCovered_app, log_seal in H. apply Ok_inj in H.
  exists count, changes, payload. split; [lia|]. split; [done|]. split; [done|]. split; [done|]. split; [done|].
  split; [|split; [done|lia]]. intros ->. apply glen_0_nil. cbn in Ez. apply negb_false_iff in Ez. lia.
Qed.

Lemma arrowChangeBytes_round changes : forall bs p s,
  arrowChangeBytes changes = Ok bs ->
  length bs = length changes /\ decodeChangeBytes (p ++ bs ++ s) (length changes) (glen p) = Ok changes.
Proof.
  induction changes as [|c changes IH]; intros bs p s H; cbn in H; [by simplify_eq|]. inv_ok.
  rename select (ChangeType_Validate c = _) into Hv. rename select (arrowChangeBytes _ = _) into Hr.
  destruct (IH _ (p ++ [byte.of_Z c]) s Hr) as [Hl Hd]. split; [cbn; by rewrite Hl|].
  cbn [length decodeChangeBytes app]. rewrite index_app by done. cbn [mbind outcome_bind].
  assert (Hc : int8 (byte.unsigned (byte.of_Z c)) = c).
  { unfold ChangeType_Validate in Hv. apply check_Ok in Hv. unfold Append, Delete in Hv.
    rewrite byte.unsigned_of_Z. unfold byte.wrap. rewrite Z.mod_small by lia.
    apply swrap_small; [lia|]. unfold srange. lia. }
  rewrite Hc. destruct x. rewrite Hv. cbn [rewrap mbind outcome_bind].
  rewrite <- app_assoc, glen_app in Hd. change (glen [_]) with 1 in Hd. cbn in Hd. by rewrite Hd.
Qed.

Definition arrowRows (batch : ArrowLogBatch) : Z :=
  match ab_Record batch with None => 0 | Some r => al_NumRows library r end.

(** What comes back: the same batch, with the change of every row made explicit, no record when
    there are no rows, and a leader epoch only in version 1. *)
Definition retainArrow (batch : ArrowLogBatch) : ArrowLogBatch :=
  MkArrowLogBatch (ab_Magic batch) (ab_BaseOffset batch) (ab_CommitTime batch)
    (if ab_Magic batch =? 1 then ab_LeaderEpoch batch else 0) (ab_SchemaID batch) (ab_AppendOnly batch)
    (ab_WriterID batch) (ab_BatchSequence batch) (if arrowRows batch =? 0 then None else ab_Record batch)
    (if ab_AppendOnly batch then replicate (Z.to_nat (arrowRows batch)) Append else ab_Changes batch).

(** The fields fit their Go types. *)
Definition arrowInRange (batch : ArrowLogBatch) : bool :=
  srange 64 (ab_BaseOffset batch) && srange 64 (ab_CommitTime batch) && srange 32 (ab_LeaderEpoch batch) &&
  srange 16 (ab_SchemaID batch) && srange 64 (ab_WriterID batch) && srange 32 (ab_BatchSequence batch).

(** The rules of the Arrow streaming format the framing relies on: a record's payload is not
    empty, and the schema's stream without its end marker, the payload and an end marker are a
    stream with that record. *)
Record ArrowLaws : Prop := {
  al_rows : forall r, 0 <= al_NumRows library r;
  al_stream : forall compression r message payload,
    al_payloads library compression r = Some [message; payload] ->
    payload <> [] /\ exists prefix eos, al_schemaStream library (al_Schema library r) = Some (prefix ++ eos) /\
      glen eos = 8 /\ al_read library (prefix ++ payload ++ arrowEOS) = Some [r];
}.

(** Reading the header of a sealed batch. *)
Lemma arrowHeader_layout batch count recs :
  (ab_Magic batch = 0 \/ ab_Magic batch = 1) -> arrowHeaderSize (ab_Magic batch) + glen recs <= maxRowBytes ->
  let e := if ab_Magic batch =? 1 then 4 else 0 in
  arrowHeader (logLayout (arrowHeaderOf batch count) recs) = Ok (ab_Magic batch, 48 + e, 21 + e, 25 + e).
Proof.
  intros Hm Hmax e. destruct (logLayout_fields (arrowHeaderOf batch count) recs Hm) as (Hg & F1 & _).
  rewrite logCovered_glen, logEpoch_glen in Hg. cbn [lb_Magic arrowHeaderOf] in *. pose proof (glen_nonneg recs).
  unfold arrowHeader, arrowHeaderSize, logBatchV0HeaderSize, logBatchV1HeaderSize in *. rewrite maxRowBytes_val in *.
  subst e. destruct Hm as [E|E]; rewrite E in *; change (0 =? 1) with false in *; change (1 =? 1) with true in *;
    cbv iota in *; (destruct (_ || _) eqn:Eo; [exfalso; lia|]); rewrite F1; cbn [mbind outcome_bind];
    rewrite byte.unsigned_of_Z; [change (byte.wrap 0) with 0|change (byte.wrap 1) with 1]; cbn [Z.eqb Pos.eqb];
    (rewrite (proj2 (Z.ltb_ge _ _)) by lia); done.
Qed.

Lemma decodeArrowRecord_round (laws : ArrowLaws) batch compression payload :
  encodeArrowPayload (ab_Record batch) compression = Ok payload ->
  (arrowRows batch = 0 -> payload = []) ->
  forall schema, (forall r, ab_Record batch = Some r -> al_Schema library r = schema) ->
  decodeArrowRecord schema payload (arrowRows batch) = Ok (if arrowRows batch =? 0 then None else ab_Record batch).
Proof.
  intros Hp H0 schema Hs. unfold decodeArrowRecord. destruct (Z.eqb_spec (arrowRows batch) 0) as [E|E].
  { by rewrite (H0 E). }
  unfold arrowRows in *. destruct (ab_Record batch) as [r|]; [|done]. specialize (Hs r eq_refl). subst schema.
  unfold encodeArrowPayload in Hp. rewrite (proj2 (Z.eqb_neq _ _) E) in Hp.
  destruct (_ || _); [|done]. destruct (al_payloads library compression r) as [[|m [|p [|]]]|] eqn:Epl; try done.
  injection Hp as ->. destruct (al_stream laws _ _ _ _ Epl) as (Hne & prefix & eos & Hst & Heos & Hread).
  unfold decodeArrowPayload. destruct (Z.eqb_spec (glen payload) 0) as [Ez|_]; [by apply glen_0_nil in Ez|].
  rewrite Hst, glen_app, Heos. pose proof (glen_nonneg prefix).
  rewrite (proj2 (Z.ltb_ge _ _)) by lia.
  replace (glen prefix + 8 - 8) with (glen prefix) by lia.
  pose proof (slice_app [] prefix eos 0 (glen prefix) eq_refl eq_refl) as Hsl. cbn [app] in Hsl.
  rewrite Hsl. cbn [mbind outcome_bind].
  rewrite <- app_assoc, Hread. cbn [mbind outcome_bind]. by rewrite Z.eqb_refl.
Qed.

Lemma decodeArrowChanges_round batch count changes p payload :
  0 <= count -> arrowChanges batch count = Ok changes ->
  decodeArrowChanges (p ++ changes ++ payload) (glen p) count (ab_AppendOnly batch) =
    Ok (if ab_AppendOnly batch then replicate (Z.to_nat count) Append else ab_Changes batch,
        glen p + glen changes) /\
  glen changes = (if ab_AppendOnly batch then 0 else count).
Proof.
  intros Hc H. unfold arrowChanges in H. unfold decodeArrowChanges. destruct (ab_AppendOnly batch).
  - inv_ok. split; [|done]. do 2 f_equal. rewrite (@glen_nil byte). lia.
  - inv_ok. rename select ((_ =? _) = true) into Hl. apply Z.eqb_eq in Hl.
    destruct (arrowChangeBytes_round _ _ p payload ltac:(done)) as [Hlen Hd].
    unfold glen in Hl. rewrite <- Hl, Nat2Z.id, Hd. cbn. rewrite <- Hlen. unfold glen. by split.
Qed.
End ArrowBatch.

(** C26: Arrow log batches round-trip.  For every IPC library that keeps the rules of the Arrow
    stream format, a batch of at most [maxRowBytes] rows that [EncodeArrowLogBatch] accepts is
    decoded by [DecodeArrowLogBatch] with its header, the change of every row and its record. *)
Theorem arrow_batch_roundtrip {Rec} (library : ArrowLibrary Rec) (batch : ArrowLogBatch Rec) (compression : Z)
    (schema : list ArrowField) (encoded : list byte) :
  ArrowLaws library -> arrowInRange batch = true -> arrowRows library batch <= maxRowBytes ->
  (forall r, ab_Record batch = Some r -> al_Schema library r = schema) ->
  EncodeArrowLogBatch library batch compression = Ok encoded ->
  DecodeArrowLogBatch library (Some schema) encoded = Ok (retainArrow library batch).
Proof.
  intros laws Hr Hlim Hschema H.
  apply EncodeArrowLogBatch_layout in H as (count & changes & payload & Hm & Hcount & Hc & Hch & Hpay & H0 & -> & Hmax);
    [|intros r _; apply laws].
  assert (Hrows : arrowRows library batch = count).
  { unfold arrowRows, arrowRecordCount in *. destruct (ab_Record batch); [|by simplify_eq]. case_match; by simplify_eq. }
  unfold arrowInRange in Hr. rewrite !andb_true_iff in Hr. destruct Hr as (((((R1 & R2) & R3) & R4) & R5) & R6).
  set (b := arrowHeaderOf batch count). set (recs := changes ++ payload) in *.
  destruct (logLayout_fields b recs Hm) as (Hg & _ & F2 & F3 & F4 & F5 & F6 & F7 & F8 & F9 & F10 & F11 & F12).
  destruct (logLayout_records b recs) as (p & Ep & Hp).
  assert (Hn : glen (lb_Records b) = count) by (apply arrowHeaderOf_count; lia). rewrite Hn in F12.
  rewrite logCovered_glen, logEpoch_glen in *.
  change (lb_Magic b) with (ab_Magic batch) in *. change (lb_AppendOnly b) with (ab_AppendOnly batch) in *.
  pose proof (glen_nonneg changes). pose proof (glen_nonneg payload).
  assert (Hrecs : glen recs = glen changes + glen payload) by (subst recs; apply glen_app).
  unfold DecodeArrowLogBatch. unfold b. rewrite arrowHeader_layout by (done || lia). fold b.
  unfold arrowHeaderSize, logBatchV0HeaderSize, logBatchV1HeaderSize in Hmax. rewrite maxRowBytes_val in *.
  set (e := if ab_Magic batch =? 1 then 4 else 0) in *.
  assert (He : (if ab_Magic batch =? 1 then 52 else 48) = 48 + e /\ 0 <= e <= 4) by (subst e; by destruct (_ =? 1)).
  destruct He as [He1 He]. rewrite He1 in Hmax. cbn [mbind outcome_bind]. rewrite F3. cbn [mbind outcome_bind].
  replace (21 + e) with (25 + e - 4) by lia. rewrite F6, F7. cbn [mbind outcome_bind].
  rewrite !uint32_small by (try apply crc32c_range; rewrite ?uint32_small; lia).
  rewrite Z.eqb_refl, Hg. replace (13 + e + (23 + glen recs) =? 25 + e + (23 + glen recs) - 12) with true by lia.
  cbn [negb orb]. cbv zeta. rewrite F12, F9. cbn [mbind outcome_bind].
  rewrite !uint32_small by (rewrite ?uint32_small; lia).
  replace (negb (Z.land (byte.unsigned (if ab_AppendOnly batch then Byte.x01 else Byte.x00)) 1 =? 0))
    with (ab_AppendOnly batch) by (by destruct (ab_AppendOnly batch)).
  assert (Hchl : glen changes = if ab_AppendOnly batch then 0 else count).
  { by destruct (decodeArrowChanges_round batch count changes p payload ltac:(lia) Hch). }
  rewrite Hrows in Hlim.
  destruct (_ || _) eqn:Eo; [exfalso; destruct (ab_AppendOnly batch); lia|]. rewrite Ep, <- Hp.
  subst recs. destruct (decodeArrowChanges_round batch count changes p payload ltac:(lia) Hch) as [-> _].
  cbn [mbind outcome_bind]. rewrite (app_assoc p changes payload), <- glen_app, slice_from_app by done.
  cbn [mbind outcome_bind]. rewrite <- Hrows.
  rewrite (decodeArrowRecord_round library laws batch compression payload Hpay) by (try rewrite Hrows; done).
  cbn [mbind outcome_bind]. rewrite <- app_assoc, <- Ep, F2, F4, F8, F10, F11. cbn [mbind outcome_bind].
  rewrite !uwrap_wider by lia. cbn [b arrowHeaderOf lb_BaseOffset lb_CommitTime lb_SchemaID lb_WriterID lb_BatchSequence].
  rewrite !swrap_uwrap_small by done.
  replace (if ab_Magic batch =? 1 then _ else _) with (Ok (if ab_Magic batch =? 1 then ab_LeaderEpoch batch else 0)).
  2:{ destruct (Z.eqb_spec (ab_Magic batch) 1) as [E1|]; [|done]. rewrite F5 by done.
      cbn [mbind outcome_bind b arrowHeaderOf lb_LeaderEpoch]. by rewrite uwrap_wider, swrap_uwrap_small by (done || lia). }
  done.
Qed.

(** A library whose records are bytes, one per row, written as they are. *)
Definition byteLibrary : ArrowLibrary (list byte) :=
  MkArrowLibrary (list byte) glen (fun _ => [MkArrowField "b" AInt8 false])
    (fun _ r => if glen r =? 0 then None else Some [[]; r])
    (fun _ => Some arrowEOS)
    (fun stream => Some [take (length stream - 8) stream]).

Lemma byteLibrary_laws : ArrowLaws byteLibrary.
Proof.
  split; [apply glen_nonneg|]. intros compression r message payload. cbn.
  destruct (Z.eqb_spec (glen r) 0) as [|Hz]; [done|]. intros [= <- <-]. split; [by intros ->|].
  exists [], arrowEOS. split; [done|]. split; [done|]. cbn [app]. do 2 f_equal.
  rewrite length_app. change (length arrowEOS) with 8%nat. rewrite Nat.add_sub. apply take_app_length.
Qed.

Definition sampleArrowBatch : ArrowLogBatch (list byte) :=
  MkArrowLogBatch 1 100 1700000000123 5 2 false 3 4 (Some [Byte.x07; Byte.x08]) [Insert; Delete].

Lemma arrow_batch_roundtrip_witness :
  DecodeArrowLogBatch byteLibrary (Some [MkArrowField "b" AInt8 false])
    (bytesOr (EncodeArrowLogBatch byteLibrary sampleArrowBatch ArrowCompressionLZ4)) =
  Ok (retainArrow byteLibrary sampleArrowBatch).
Proof.
  apply (arrow_batch_roundtrip byteLibrary sampleArrowBatch ArrowCompressionLZ4).
  - exact byteLibrary_laws.
  - vm_compute. reflexivity.
  - vm_compute. discriminate.
  - intros r _. reflexivity.
  - vm_compute. reflexivity.
Defined.

(** ** Decoding Arrow batches is total *)

Lemma arrowHeader_Ok encoded magic headerSize crcOffset schemaOffset :
  arrowHeader encoded = Ok (magic, headerSize, crcOffset, schemaOffset) ->
  headerSize = schemaOffset + 23 /\ crcOffset = schemaOffset - 4 /\ headerSize <= glen encoded /\ 25 <= schemaOffset.
Proof.
  unfold arrowHeader, logBatchV0HeaderSize, logBatchV1HeaderSize. case_match; [done|].
  intros (b & _ & H')%bind_Ok. repeat (case_match; try done); injection H' as <- <- <- <-; lia.
Qed.

Lemma arrowHeader_returns encoded : returns (arrowHeader encoded) = true.
Proof.
  unfold arrowHeader. destruct (_ || _) eqn:E; [done|]. destruct (index_safe encoded 12) as [b ->]; [lia|].
  cbn. by repeat case_match.
Qed.

Lemma ChangeType_Validate_returns c : returns (ChangeType_Validate c) = true.
Proof. apply check_returns. Qed.

Lemma decodeChangeBytes_returns encoded n : forall position,
  0 <= position -> position + Z.of_nat n <= glen encoded -> returns (decodeChangeBytes encoded n position) = true.
Proof.
  induction n as [|n IH]; intros position H0 Hl; [done|]. cbn [decodeChangeBytes].
  destruct (index_safe encoded position) as [b ->]; [lia|]. cbn [mbind outcome_bind].
  apply bind_returns; [by rewrite rewrap_returns, ChangeType_Validate_returns|]. intros _ _.
  apply bind_returns; [apply IH; lia|done].
Qed.

Lemma decodeArrowRecord_returns {Rec} (library : ArrowLibrary Rec) schema payload count :
  returns (decodeArrowRecord library schema payload count) = true.
Proof.
  unfold decodeArrowRecord. case_match; [by case_match|]. apply bind_returns; [|intros r _; by case_match].
  unfold decodeArrowPayload. case_match; [done|]. destruct (al_schemaStream library schema) as [stream|]; [|done].
  destruct (Z.ltb_spec (glen stream) 8); [done|].
  destruct (slice_safe stream 0 (glen stream - 8)) as [prefix ->]; [lia..|]. cbn. by repeat case_match.
Qed.

Lemma DecodeArrowLogBatch_returns {Rec} (library : ArrowLibrary Rec) (schema : option (list ArrowField)) (encoded : list byte) :
  returns (DecodeArrowLogBatch library schema encoded) = true.
Proof.
  unfold DecodeArrowLogBatch. destruct schema as [schema|]; [|done].
  apply bind_returns; [apply arrowHeader_returns|].
  intros [[[magic headerSize] crcOffset] so] (Hh & -> & Hl & Hso)%arrowHeader_Ok.
  destruct (getLE_safe 4 encoded 8) as [z1 ->]; [lia|cbn; lia|]. cbn [mbind outcome_bind].
  destruct (getLE_safe 4 encoded (so - 4)) as [z2 ->]; [lia|cbn; lia|]. cbn [mbind outcome_bind]. unfold slice_from.
  destruct (slice_safe encoded so (glen encoded)) as [cov ->]; [lia..|]. cbn [mbind outcome_bind].
  case_match; [done|]. cbv zeta.
  destruct (getLE_safe 4 encoded (so + 3 + 16)) as [count Hcount]; [lia|cbn; lia|]. rewrite Hcount. cbn [mbind outcome_bind].
  apply getLE_range in Hcount. destruct (index_safe encoded (so + 2)) as [a ->]; [lia|]. cbn [mbind outcome_bind].
  generalize (negb (Z.land (byte.unsigned a) 1 =? 0)). intros appendOnly.
  destruct ((maxRowBytes <? count) || _) eqn:Elim; [done|].
  apply bind_returns.
  { unfold decodeArrowChanges. destruct appendOnly; [done|]. apply bind_returns; [|done].
    apply decodeChangeBytes_returns; lia. }
  intros [changes position] Hp.
  assert (Hpos : 0 <= position <= glen encoded).
  { unfold decodeArrowChanges in Hp. destruct appendOnly; [simplify_eq; lia|]. inv_ok. lia. }
  destruct (slice_safe encoded position (glen encoded)) as [payload ->]; [lia..|]. cbn [mbind outcome_bind].
  apply bind_returns; [apply decodeArrowRecord_returns|]. intros record _.
  destruct (getLE_safe 8 encoded 0) as [z3 ->]; [lia|cbn; lia|].
  destruct (getLE_safe 8 encoded 13) as [z4 ->]; [lia|cbn; lia|].
  destruct (getLE_safe 2 encoded so) as [z5 ->]; [lia|cbn; lia|].
  destruct (getLE_safe 8 encoded (so + 3 + 4)) as [z6 ->]; [lia|cbn; lia|].
  destruct (getLE_safe 4 encoded (so + 3 + 12)) as [z7 ->]; [lia|cbn; lia|]. cbn [mbind outcome_bind].
  apply bind_returns; [|done]. destruct (magic =? 1); [|done].
  destruct (getLE_safe 4 encoded 21) as [z8 ->]; [lia|cbn; lia|done].
Qed.

(** [DecodeArrowLogBatch] returns a batch or an error for every byte string and every
    schema: no count, length or change byte in it makes the framing read out of range. *)
Theorem arrow_decode_returns {Rec} (library : ArrowLibrary Rec) (schema : option (list ArrowField)) (encoded : list byte) :
  returns (DecodeArrowLogBatch library schema encoded) = true.
Proof. apply DecodeArrowLogBatch_returns. Qed.
