(* ===== verification/SchemaJSON.v ===== *)
(** * Schema documents

    Models [Schema.JSON] and [ParseSchemaJSON] of [pkg/fgo/model.go] on the document value
    ([schemaJSON]) that [encoding/json] renders: the assignment of stable field identifiers
    and the round trip between schemas and documents.

    [Schema.JSON] has a value receiver, but a logical type reaches its nested types through
    slices and pointers, which the copy shares.  The model therefore returns, beside the
    document, the schema the caller holds after the call. *)

From S2P Require Import Prelude Model DecodeSafety.

Record schemaColumnJSON := MkColumnJSON {
  cj_Name : string; cj_DataType : LogicalType; cj_Comment : string; cj_ID : Z;
}.

Record schemaJSON := MkSchemaJSON {
  sj_Version : Z;
  sj_Columns : list schemaColumnJSON;
  sj_PrimaryKey : list string;
  sj_AutoIncrement : list string;
  sj_HighestFieldID : Z;
}.

(** ** Field identifiers *)

Fixpoint logicalFieldIDsAreZero (t : LogicalType) : bool :=
  let 'MkLogicalType _ _ _ _ _ element key value fields := t in
  let opt := fun o => match o with Some e => logicalFieldIDsAreZero e | None => true end in
  forallb (fun f => let 'MkLogicalField _ ty _ id := f in (id =? 0) && logicalFieldIDsAreZero ty) fields
  && opt element && opt key && opt value.

Definition hasUnassignedFieldIDs (s : Schema) : bool :=
  (sch_HighestFieldID s =? 0) &&
  forallb (fun c => (col_ID c =? 0) && logicalFieldIDsAreZero (logicalTypeForColumn c)) (sch_Columns s).

(** [assignLogicalFieldIDs], threading [nextID]: the fields, each followed by its own type,
    then the element, key and value types. *)
Fixpoint assignLogicalFieldIDs (t : LogicalType) (nextID : Z) : LogicalType * Z :=
  let 'MkLogicalType root nullable length precision scale element key value fields := t in
  let opt := fun o nextID =>
    match o with
    | Some e => let '(e, nextID) := assignLogicalFieldIDs e nextID in (Some e, nextID)
    | None => (None, nextID)
    end in
  let '(fields, nextID) :=
    (fix go (fields : list LogicalField) (nextID : Z) : list LogicalField * Z :=
       match fields with
       | [] => ([], nextID)
       | MkLogicalField name ty description _ :: rest =>
         let '(ty, next) := assignLogicalFieldIDs ty (nextID + 1) in
         let '(rest, next) := go rest next in
         (MkLogicalField name ty description nextID :: rest, next)
       end) fields nextID in
  let '(element, nextID) := opt element nextID in
  let '(key, nextID) := opt key nextID in
  let '(value, nextID) := opt value nextID in
  (MkLogicalType root nullable length precision scale element key value fields, nextID).

(** The column loop of [Schema.JSON]: the document's columns, the columns the caller is left
    with, and the next identifier. *)
Fixpoint jsonColumns (assignIDs : bool) (columns : list Column) (nextID : Z)
    : list schemaColumnJSON * list Column * Z :=
  match columns with
  | [] => ([], [], nextID)
  | c :: columns =>
    let '(t, id, next) :=
      if assignIDs
      then let '(t, next) := assignLogicalFieldIDs (logicalTypeForColumn c) (nextID + 1) in (t, nextID, next)
      else (logicalTypeForColumn c, col_ID c, nextID) in
    let c' := MkColumn (col_Name c) (col_Type c) (col_Nullable c)
                (match col_LogicalType c with Some _ => Some t | None => None end)
                (col_Description c) (col_ID c) in
    let '(docs, rest, next) := jsonColumns assignIDs columns next in
    (MkColumnJSON (col_Name c) t (col_Description c) id :: docs, c' :: rest, next)
  end.

Definition Schema_JSON (s : Schema) : outcome (schemaJSON * Schema) :=
  _ ← Schema_Validate s;
  let assignIDs := hasUnassignedFieldIDs s in
  let '(docs, columns, nextID) := jsonColumns assignIDs (sch_Columns s) 0 in
  let highestFieldID := if assignIDs then nextID - 1 else sch_HighestFieldID s in
  Ok (MkSchemaJSON 1 docs (sch_PrimaryKey s) (sch_AutoIncrement s) highestFieldID,
      MkSchema columns (sch_PrimaryKey s) (sch_BucketKey s) (sch_PartitionKey s)
        (sch_AutoIncrement s) (sch_HighestFieldID s)).

Definition parseColumn (c : schemaColumnJSON) : Column :=
  MkColumn (cj_Name c) (dataTypeForLogicalType (cj_DataType c)) (lt_Nullable (cj_DataType c))
    (Some (cj_DataType c)) (cj_Comment c) (cj_ID c).

Fixpoint parseColumns (columns : list schemaColumnJSON) : outcome (list Column) :=
  match columns with
  | [] => Ok []
  | c :: columns =>
    _ ← LogicalType_Validate (cj_DataType c);
    rest ← parseColumns columns;
    Ok (parseColumn c :: rest)
  end.

(** [ParseSchemaJSON] on a decoded document. *)
Definition ParseSchemaJSON (d : schemaJSON) : outcome Schema :=
  columns ← parseColumns (sj_Columns d);
  let s := MkSchema columns (sj_PrimaryKey d) [] [] (sj_AutoIncrement d) (sj_HighestFieldID d) in
  _ ← Schema_Validate s;
  Ok s.

(** ** Every identifier is used once *)

(** The identifiers of a type and of a document, in document order. *)
Fixpoint typeIDs (t : LogicalType) : list Z :=
  let 'MkLogicalType _ _ _ _ _ element key value fields := t in
  let opt := fun o => match o with Some e => typeIDs e | None => [] end in
  concat (map (fun f => let 'MkLogicalField _ ty _ id := f in id :: typeIDs ty) fields)
  ++ opt element ++ opt key ++ opt value.

Definition documentIDs (d : schemaJSON) : list Z :=
  concat (map (fun c => cj_ID c :: typeIDs (cj_DataType c)) (sj_Columns d)).

Lemma seqZ_split a b c : a <= b <= c -> seqZ a (c - a) = seqZ a (b - a) ++ seqZ b (c - b).
Proof. intros. replace (c - a) with ((b - a) + (c - b)) by lia. rewrite seqZ_app by lia. do 2 f_equal. lia. Qed.

Lemma assign_ids t : forall n, let '(t', n') := assignLogicalFieldIDs t n in
  n <= n' /\ typeIDs t' = seqZ n (n' - n).
Proof.
  induction t as [root nul len prec scale element key value fields He Hk Hv Hf]
    using LogicalType_nested_ind. intros n. cbn.
  set (go := fix go fs n := match fs with [] => _ | _ => _ end).
  assert (Hgo : forall fs n, Forall (fun f => forall n, let '(t', n') := assignLogicalFieldIDs (lf_Type f) n in
      n <= n' /\ typeIDs t' = seqZ n (n' - n)) fs ->
    let '(fs', n') := go fs n in n <= n' /\
    concat (map (fun f => let 'MkLogicalField _ ty _ id := f in id :: typeIDs ty) fs') = seqZ n (n' - n)).
  { induction fs as [|[name ty d id] fs IH]; intros m Hfs; cbn.
    { split; [lia|]. by rewrite Z.sub_diag. }
    apply Forall_cons in Hfs as [Hty Hfs]. cbn in Hty. specialize (Hty (m + 1)).
    destruct (assignLogicalFieldIDs ty (m + 1)) as [ty' m1]. specialize (IH m1 Hfs).
    fold go. destruct (go fs m1) as [fs' m2]. destruct Hty as [H1 E1], IH as [H2 E2]. cbn.
    split; [lia|]. rewrite E1, E2. rewrite (seqZ_cons m) by lia. f_equal.
    replace (Z.pred (m2 - m)) with (m2 - (m + 1)) by lia. replace (Z.succ m) with (m + 1) by lia.
    symmetry. apply seqZ_split. lia. }
  specialize (Hgo fields n Hf). destruct (go fields n) as [fields' n1]. destruct Hgo as [L1 E1].
  assert (Hopt : forall (o : option LogicalType) n, (forall e, o = Some e -> forall n,
      let '(t', n') := assignLogicalFieldIDs e n in n <= n' /\ typeIDs t' = seqZ n (n' - n)) ->
    let '(o', n') := match o with
      | Some e => let '(e', n') := assignLogicalFieldIDs e n in (Some e', n') | None => (None, n) end in
    n <= n' /\ (match o' with Some e => typeIDs e | None => [] end) = seqZ n (n' - n)).
  { intros [e|] m Ho; [|split; [lia|by rewrite Z.sub_diag]]. specialize (Ho e eq_refl m).
    by destruct (assignLogicalFieldIDs e m). }
  pose proof (Hopt element n1 He) as H2. destruct (match element with Some _ => _ | None => _ end) as [e' n2].
  pose proof (Hopt key n2 Hk) as H3. destruct (match key with Some _ => _ | None => _ end) as [k' n3].
  pose proof (Hopt value n3 Hv) as H4. destruct (match value with Some _ => _ | None => _ end) as [v' n4].
  destruct H2 as [L2 E2], H3 as [L3 E3], H4 as [L4 E4]. cbn. split; [lia|].
  rewrite E1, E2, E3, E4, <- !seqZ_split by lia. done.
Qed.

Lemma jsonColumns_ids columns : forall n, let '(docs, _, n') := jsonColumns true columns n in
  n + glen columns <= n' /\ concat (map (fun c => cj_ID c :: typeIDs (cj_DataType c)) docs) = seqZ n (n' - n).
Proof.
  induction columns as [|c columns IH]; intros n; cbn.
  { rewrite Z.sub_diag. by rewrite glen_nil, Z.add_0_r. }
  pose proof (assign_ids (logicalTypeForColumn c) (n + 1)) as Ha.
  destruct (assignLogicalFieldIDs _ _) as [t n1]. specialize (IH n1).
  destruct (jsonColumns true columns n1) as [[docs rest] n2]. destruct Ha as [L1 E1], IH as [L2 E2].
  pose proof (glen_nonneg columns). rewrite glen_cons. split; [lia|]. cbn. rewrite E1, E2, (seqZ_cons n) by lia. f_equal.
  replace (Z.pred (n2 - n)) with (n2 - (n + 1)) by lia. replace (Z.succ n) with (n + 1) by lia.
  symmetry. apply seqZ_split. lia.
Qed.

(** A schema without field identifiers gets each identifier from 0 to
    [highest_field_id] exactly once, columns and nested fields in document order. *)
Theorem schema_json_ids (s s' : Schema) (d : schemaJSON) :
  hasUnassignedFieldIDs s = true -> Schema_JSON s = Ok (d, s') ->
  documentIDs d = seqZ 0 (sj_HighestFieldID d + 1) /\ 0 <= sj_HighestFieldID d.
Proof.
  intros Hu H. unfold Schema_JSON in H. rewrite Hu in H. inv_ok.
  rename select (Schema_Validate s = _) into Hv.
  pose proof (jsonColumns_ids (sch_Columns s) 0) as Hj.
  destruct (jsonColumns true (sch_Columns s) 0) as [[docs rest] n]. inv_ok. cbn. destruct Hj as [L E].
  unfold documentIDs. cbn. split; [rewrite E; f_equal; lia|].
  unfold Schema_Validate in Hv. destruct (sch_Columns s); [done|]. rewrite glen_cons in L.
  pose proof (glen_nonneg l). lia.
Qed.

(** A row column whose nested fields have no identifiers yet. *)
Definition nestedIDSchema : Schema :=
  MkSchema
    [MkColumn "id" BigIntType false None "" 0;
     MkColumn "point" RowType false
       (Some (MkLogicalType "ROW" false 0 0 0 None None None
          [MkLogicalField "x" (plainType "INTEGER" false) "" 0;
           MkLogicalField "y" (plainType "INTEGER" false) "" 0])) "" 0]
    ["id"%string] [] [] [] 0.

Lemma schema_json_ids_witness :
  match Schema_JSON nestedIDSchema with
  | Ok (d, _) => documentIDs d = seqZ 0 (sj_HighestFieldID d + 1) /\ 0 <= sj_HighestFieldID d
  | _ => False
  end.
Proof.
  destruct (Schema_JSON nestedIDSchema) as [[d s']| | |] eqn:E; [|by vm_compute in E..].
  apply (schema_json_ids nestedIDSchema s' d); [reflexivity|exact E].
Defined.

(** [Schema.JSON] is not repeatable: the first call writes identifiers into the
    caller's nested types, so the second call on the same schema no longer assigns any and
    renders every column with identifier 0 and [highest_field_id] 0. *)
Theorem schema_json_twice :
  match Schema_JSON nestedIDSchema with
  | Ok (d, s') =>
    map cj_ID (sj_Columns d) = [0; 1] /\ sj_HighestFieldID d = 3 /\
    match Schema_JSON s' with
    | Ok (d', _) => map cj_ID (sj_Columns d') = [0; 0] /\ sj_HighestFieldID d' = 0
    | _ => False
    end
  | _ => False
  end.
Proof. vm_compute. repeat split. Qed.
