(* ===== verification/Float.v ===== *)
(** * Floating-point conversions

    Go's conversions between [float32], [float64] and integers, on IEEE bit patterns, as
    [pkg/fgo/predicate.go] uses them.  The payload of a NaN is not modelled. *)

From S2P Require Import Prelude.

(** A number [(-1)^s * m * 2^e], an infinity, or NaN. *)
Inductive fpValue :=
| FNaN
| FInf (s : bool)
| FFin (s : bool) (m e : Z).

(** A format has [mw] fraction bits and [ew] exponent bits. *)
Definition fpMin (mw ew : Z) : Z := 2 - 2 ^ (ew - 1) - mw.

Definition fpDecode (mw ew bits : Z) : fpValue :=
  let s := Z.testbit bits (mw + ew) in
  let ex := Z.shiftr bits mw mod 2 ^ ew in
  let fr := bits mod 2 ^ mw in
  if ex =? 2 ^ ew - 1 then (if fr =? 0 then FInf s else FNaN)
  else if ex =? 0 then FFin s fr (fpMin mw ew)
  else FFin s (2 ^ mw + fr) (fpMin mw ew + ex - 1).

(** [m / 2^k] rounded to the nearest integer, ties to even. *)
Definition roundEven (m k : Z) : Z :=
  if k <=? 0 then m * 2 ^ (- k)
  else
    let q := m / 2 ^ k in
    let r := m mod 2 ^ k in
    if (r <? 2 ^ (k - 1)) || ((r =? 2 ^ (k - 1)) && Z.even q) then q else q + 1.

Definition fpSign (mw ew : Z) (s : bool) : Z := if s then 2 ^ (mw + ew) else 0.

Definition fpScale (mw ew m e : Z) : Z := Z.max (fpMin mw ew) (e + (Z.log2 m + 1) - (mw + 1)).

Definition fpEncode (mw ew : Z) (v : fpValue) : Z :=
  let infinity := (2 ^ ew - 1) * 2 ^ mw in
  match v with
  | FNaN => infinity + 2 ^ (mw - 1)
  | FInf s => fpSign mw ew s + infinity
  | FFin s m e =>
    if m =? 0 then fpSign mw ew s
    else
      let scale := fpScale mw ew m e in
      let magnitude := roundEven m (scale - e) + (scale - fpMin mw ew) * 2 ^ mw in
      fpSign mw ew s + (if infinity <=? magnitude then infinity else magnitude)
  end.

(** Go's [==]. *)
Definition fpEq (v w : fpValue) : bool :=
  match v, w with
  | FInf s, FInf s' => Bool.eqb s s'
  | FFin s m e, FFin s' m' e' =>
    let low := Z.min e e' in
    let x := m * 2 ^ (e - low) in
    let x' := m' * 2 ^ (e' - low) in
    (if s then - x else x) =? (if s' then - x' else x')
  | _, _ => false
  end.

Definition decode32 (bits : Z) : fpValue := fpDecode 23 8 bits.
Definition decode64 (bits : Z) : fpValue := fpDecode 52 11 bits.

(** [float64(x)] and [float32(x)]. *)
Definition float64_of_32 (bits : Z) : Z := fpEncode 52 11 (decode32 bits).
Definition float32_of_64 (bits : Z) : Z := fpEncode 23 8 (decode64 bits).
Definition float64_of_int (n : Z) : Z := fpEncode 52 11 (FFin (n <? 0) (Z.abs n) 0).

(** ** Conversions that lose nothing *)

Lemma roundEven_exact m k : 0 <= k -> m mod 2 ^ k = 0 -> roundEven m k = m / 2 ^ k.
Proof.
  intros Hk Hm. unfold roundEven. destruct (Z.leb_spec k 0).
  - replace k with 0 by lia. rewrite Z.div_1_r. lia.
  - rewrite Hm. assert (0 < 2 ^ (k - 1)) by (apply Z.pow_pos_nonneg; lia). replace (0 <? _) with true by lia. done.
Qed.

(** The rounded mantissa, when nothing is lost. *)
Definition fpExact (mw ew m e : Z) : Prop :=
  let k := fpScale mw ew m e - e in k <= 0 \/ m mod 2 ^ k = 0.

Lemma roundEven_value mw ew m e : 0 < m -> 0 <= mw ->
  fpExact mw ew m e ->
  let scale := fpScale mw ew m e in let r := roundEven m (scale - e) in
  r * 2 ^ (scale - Z.min scale e) = m * 2 ^ (e - Z.min scale e) /\ 0 < r < 2 ^ (mw + 1) /\
  (r < 2 ^ mw -> scale = fpMin mw ew).
Proof.
  intros Hm Hw Hx scale r. destruct (Z.log2_spec m Hm) as [L1 L2]. pose proof (Z.log2_nonneg m) as L0.
  set (b := Z.log2 m) in *.
  assert (Hs : scale = Z.max (fpMin mw ew) (e + (b + 1) - (mw + 1))) by done.
  assert (Hr : r * 2 ^ (scale - Z.min scale e) = m * 2 ^ (e - Z.min scale e)).
  { subst r. unfold roundEven. destruct (Z.leb_spec (scale - e) 0) as [L|L].
    - rewrite Z.min_l by lia. rewrite Z.sub_diag. replace (- (scale - e)) with (e - scale) by lia. lia.
    - destruct Hx as [Hx|Hx]; [fold scale in Hx; lia|]. fold scale in Hx. rewrite Hx.
      assert (0 < 2 ^ (scale - e - 1)) by (apply Z.pow_pos_nonneg; lia). replace (0 <? _) with true by lia. cbn [orb].
      rewrite Z.min_r by lia. rewrite Z.sub_diag, Z.mul_1_r.
      assert (0 < 2 ^ (scale - e)) by (apply Z.pow_pos_nonneg; lia). pose proof (Z.div_mod m (2 ^ (scale - e)) ltac:(lia)). lia. }
  split; [exact Hr|]. clearbody r.
  (* compare at a common exponent below both *)
  assert (Hc : r * 2 ^ (Z.max 0 (scale - e)) = m * 2 ^ (Z.max 0 (e - scale))).
  { replace (Z.max 0 (scale - e)) with (scale - Z.min scale e) by lia. by replace (Z.max 0 (e - scale)) with (e - Z.min scale e) by lia. }
  assert (P1 : 0 < 2 ^ Z.max 0 (scale - e)) by (apply Z.pow_pos_nonneg; lia).
  assert (P2 : 0 < 2 ^ Z.max 0 (e - scale)) by (apply Z.pow_pos_nonneg; lia).
  assert (Hm1 : 2 ^ (b + Z.max 0 (e - scale)) <= m * 2 ^ Z.max 0 (e - scale)) by (rewrite Z.pow_add_r by lia; nia).
  assert (Hm2 : m * 2 ^ Z.max 0 (e - scale) < 2 ^ (b + 1 + Z.max 0 (e - scale))).
  { rewrite Z.pow_add_r by lia. replace (b + 1) with (Z.succ b) by lia. nia. }
  rewrite <- Hc in Hm1, Hm2.
  split.
  - split; [nia|]. destruct (Z.lt_ge_cases r (2 ^ (mw + 1))) as [|G]; [done|]. exfalso.
    assert (2 ^ (mw + 1 + Z.max 0 (scale - e)) <= r * 2 ^ Z.max 0 (scale - e)) by (rewrite Z.pow_add_r by lia; nia).
    assert (2 ^ (b + 1 + Z.max 0 (e - scale)) <= 2 ^ (mw + 1 + Z.max 0 (scale - e))) by (apply Z.pow_le_mono_r; lia). lia.
  - intros L. destruct (Z.max_spec (fpMin mw ew) (e + (b + 1) - (mw + 1))) as [[Hlt Hmax]|[_ Hmax]]; [|lia]. exfalso.
    assert (r * 2 ^ Z.max 0 (scale - e) < 2 ^ (mw + Z.max 0 (scale - e))) by (rewrite Z.pow_add_r by lia; nia).
    assert (2 ^ (mw + Z.max 0 (scale - e)) <= 2 ^ (b + Z.max 0 (e - scale))) by (apply Z.pow_le_mono_r; lia). lia.
Qed.

Lemma fpDecode_fields mw ew s ex fr :
  0 <= mw -> 0 < ew -> 0 <= ex < 2 ^ ew - 1 -> 0 <= fr < 2 ^ mw ->
  fpDecode mw ew (fpSign mw ew s + (ex * 2 ^ mw + fr)) =
  if ex =? 0 then FFin s fr (fpMin mw ew) else FFin s (2 ^ mw + fr) (fpMin mw ew + ex - 1).
Proof.
  intros Hm He Hx Hf. unfold fpDecode. set (bits := fpSign mw ew s + _).
  assert (P1 : 0 < 2 ^ mw) by (apply Z.pow_pos_nonneg; lia). assert (P2 : 0 < 2 ^ ew) by (apply Z.pow_pos_nonneg; lia).
  assert (Hmag : 0 <= ex * 2 ^ mw + fr < 2 ^ (mw + ew)) by (rewrite Z.pow_add_r by lia; nia).
  assert (Hb : bits = Z.b2z s * 2 ^ (mw + ew) + (ex * 2 ^ mw + fr)) by (subst bits; unfold fpSign; destruct s; cbn [Z.b2z]; lia).
  assert (Ht : Z.testbit bits (mw + ew) = s).
  { rewrite Hb, Z.testbit_eqb by lia. rewrite Z.div_add_l by lia. rewrite Z.div_small by lia. by destruct s. }
  assert (Hq : Z.shiftr bits mw mod 2 ^ ew = ex).
  { rewrite Z.shiftr_div_pow2 by lia. rewrite Hb, Z.pow_add_r by lia.
    replace (Z.b2z s * (2 ^ mw * 2 ^ ew) + (ex * 2 ^ mw + fr)) with ((Z.b2z s * 2 ^ ew + ex) * 2 ^ mw + fr) by lia.
    rewrite Z.div_add_l by lia. rewrite (Z.div_small fr) by lia. rewrite Z.add_0_r, Z.add_comm, Z_mod_plus_full. apply Z.mod_small. lia. }
  assert (Hr : bits mod 2 ^ mw = fr).
  { rewrite Hb, Z.pow_add_r by lia.
    replace (Z.b2z s * (2 ^ mw * 2 ^ ew) + (ex * 2 ^ mw + fr)) with (fr + (Z.b2z s * 2 ^ ew + ex) * 2 ^ mw) by lia.
    rewrite Z_mod_plus_full. apply Z.mod_small. lia. }
  rewrite Ht, Hq, Hr. replace (ex =? 2 ^ ew - 1) with false by lia. done.
Qed.

(** A number whose mantissa fits, after dropping trailing zeros, keeps its value. *)
Lemma fpEncode_exact mw ew s m e :
  0 <= mw -> 0 < ew -> 0 <= m -> (m <> 0 -> fpExact mw ew m e) ->
  (m <> 0 -> roundEven m (fpScale mw ew m e - e) + (fpScale mw ew m e - fpMin mw ew) * 2 ^ mw < (2 ^ ew - 1) * 2 ^ mw) ->
  fpEq (fpDecode mw ew (fpEncode mw ew (FFin s m e))) (FFin s m e) = true.
Proof.
  intros Hw He Hm Hx Ho. unfold fpEncode. assert (P1 : 0 < 2 ^ mw) by (apply Z.pow_pos_nonneg; lia).
  assert (P2 : 2 <= 2 ^ ew) by (change 2 with (2 ^ 1) at 1; apply Z.pow_le_mono_r; lia).
  destruct (Z.eqb_spec m 0) as [->|Nm].
  - unfold fpDecode. replace (fpSign mw ew s) with (fpSign mw ew s + (0 * 2 ^ mw + 0)) by lia.
    pose proof (fpDecode_fields mw ew s 0 0 Hw He) as Hd. unfold fpDecode in Hd.
    destruct (Z.eqb_spec (2 ^ ew - 1) 0); [lia|]. rewrite Hd by lia. cbn. by destruct s.
  - specialize (Ho Nm). specialize (Hx Nm). destruct (roundEven_value mw ew m e) as (Hv & Hr & Hl); [lia|done|done|].
    cbv zeta in *. set (scale := fpScale mw ew m e) in *. set (r := roundEven m (scale - e)) in *.
    replace ((2 ^ ew - 1) * 2 ^ mw <=? _) with false by lia.
    assert (Hs : fpMin mw ew <= scale) by (subst scale; unfold fpScale; lia).
    assert (P3 : 2 ^ (mw + 1) = 2 * 2 ^ mw) by (rewrite Z.pow_add_r by lia; lia).
    destruct (Z.lt_ge_cases r (2 ^ mw)) as [L|G].
    + rewrite (Hl L), Z.sub_diag in *. rewrite Z.add_comm with (n := r).
      rewrite (fpDecode_fields mw ew s 0 r) by lia. cbn [Z.eqb fpEq]. rewrite Hv. apply Z.eqb_refl.
    + replace (r + (scale - fpMin mw ew) * 2 ^ mw) with ((scale - fpMin mw ew + 1) * 2 ^ mw + (r - 2 ^ mw)) by lia.
      rewrite fpDecode_fields by nia. replace (scale - fpMin mw ew + 1 =? 0) with false by lia. cbn [fpEq].
      replace (2 ^ mw + (r - 2 ^ mw)) with r by lia. replace (fpMin mw ew + (scale - fpMin mw ew + 1) - 1) with scale by lia.
      rewrite Hv. apply Z.eqb_refl.
Qed.

(** What a format can represent. *)
Lemma fpDecode_bounds mw ew bits s m e :
  0 <= mw -> 1 < ew -> fpDecode mw ew bits = FFin s m e ->
  0 <= m < 2 ^ (mw + 1) /\ fpMin mw ew <= e <= fpMin mw ew + 2 ^ ew - 3.
Proof.
  intros Hw He E. unfold fpDecode in E. assert (P1 : 0 < 2 ^ mw) by (apply Z.pow_pos_nonneg; lia).
  assert (P3 : 2 ^ (mw + 1) = 2 * 2 ^ mw) by (rewrite Z.pow_add_r by lia; lia).
  assert (P2 : 4 <= 2 ^ ew) by (change 4 with (2 ^ 2); apply Z.pow_le_mono_r; lia).
  pose proof (Z.mod_pos_bound bits (2 ^ mw) P1). pose proof (Z.mod_pos_bound (Z.shiftr bits mw) (2 ^ ew) ltac:(lia)).
  destruct (Z.eqb_spec (Z.shiftr bits mw mod 2 ^ ew) (2 ^ ew - 1)); [by case_match|].
  destruct (Z.eqb_spec (Z.shiftr bits mw mod 2 ^ ew) 0); injection E as <- <- <-; [|lia].
  lia.
Qed.

(** Widening a [float32] and converting an integer of at most 53 bits lose nothing. *)
Lemma float64_of_32_exact bits s m e :
  decode32 bits = FFin s m e -> fpEq (decode64 (float64_of_32 bits)) (FFin s m e) = true.
Proof.
  intros E. pose proof (fpDecode_bounds 23 8 bits s m e ltac:(lia) ltac:(lia) E) as [Hm He].
  unfold float64_of_32, decode64. rewrite E.
  change (fpMin 23 8) with (-149) in He. change (2 ^ 8) with 256 in He. change (2 ^ (23 + 1)) with 16777216 in Hm.
  assert (Hl : m <> 0 -> 0 <= Z.log2 m < 24) by (intros; split; [apply Z.log2_nonneg|apply Z.log2_lt_pow2; lia]).
  assert (Hs : m <> 0 -> fpMin 52 11 < fpScale 52 11 m e <= e).
  { intros. unfold fpScale. change (fpMin 52 11) with (-1074). lia. }
  apply fpEncode_exact; try lia.
  - intros N. left. specialize (Hs N). lia.
  - intros N. specialize (Hs N). specialize (Hl N).
    destruct (roundEven_value 52 11 m e) as (_ & Hr & _); [lia|lia|left; lia|]. cbv zeta in Hr.
    unfold fpScale in *. change (fpMin 52 11) with (-1074) in *. change (2 ^ 11) with 2048. change (2 ^ (52 + 1)) with 9007199254740992 in Hr.
    change (2 ^ 52) with 4503599627370496. lia.
Qed.

Lemma int_exact mw ew bound n :
  0 < mw -> 2 <= ew -> Z.abs n <= 2 ^ (mw + 1) -> fpMin mw ew < - mw -> mw + 3 - fpMin mw ew <= 2 ^ ew - bound -> 2 <= bound ->
  fpEq (fpDecode mw ew (fpEncode mw ew (FFin (n <? 0) (Z.abs n) 0))) (FFin (n <? 0) (Z.abs n) 0) = true.
Proof.
  intros Hw He Hn Hmin Hmax Hb. assert (P3 : 2 ^ (mw + 1) = 2 * 2 ^ mw) by (rewrite Z.pow_add_r by lia; lia).
  assert (P1 : 0 < 2 ^ mw) by (apply Z.pow_pos_nonneg; lia).
  assert (Hx : Z.abs n = 2 ^ (mw + 1) \/ Z.abs n < 2 ^ (mw + 1)) by lia.
  assert (Hs : Z.abs n <> 0 -> fpScale mw ew (Z.abs n) 0 <= 1 /\ (Z.abs n < 2 ^ (mw + 1) -> fpScale mw ew (Z.abs n) 0 <= 0)).
  { intros N. unfold fpScale. assert (Z.log2 (Z.abs n) < mw + 2).
    { apply Z.log2_lt_pow2; [lia|]. replace (mw + 2) with (Z.succ (mw + 1)) by lia. rewrite Z.pow_succ_r by lia. lia. }
    split; [lia|]. intros L. assert (Z.log2 (Z.abs n) < mw + 1) by (apply Z.log2_lt_pow2; lia). lia. }
  assert (Hex : Z.abs n <> 0 -> fpExact mw ew (Z.abs n) 0).
  { intros N. unfold fpExact. rewrite Z.sub_0_r. destruct (Hs N) as [H1 H2]. destruct Hx as [Hx|Hx]; [|left; auto].
    destruct (Z.le_gt_cases (fpScale mw ew (Z.abs n) 0) 0); [by left|right].
    replace (fpScale _ _ _ _) with 1 by lia. rewrite Hx, P3. replace (2 * 2 ^ mw) with (2 ^ mw * 2 ^ 1) by lia. apply Z.mod_mul. lia. }
  apply fpEncode_exact; [lia..|done|]. intros N. destruct (roundEven_value mw ew (Z.abs n) 0) as (_ & Hr & _); [lia|lia|by apply Hex|].
  cbv zeta in Hr. rewrite Z.sub_0_r in *. destruct (Hs N) as [H1 _]. nia.
Qed.

Lemma float64_of_int_exact n : Z.abs n <= 2 ^ 53 ->
  fpEq (decode64 (float64_of_int n)) (FFin (n <? 0) (Z.abs n) 0) = true.
Proof. intros H. apply (int_exact 52 11 100 n); [lia|lia|exact H|vm_compute; reflexivity|vm_compute; discriminate|lia]. Qed.

(** *** Comparing *)

Definition fpInt (v : fpValue) : option (Z * Z) :=
  match v with FFin s m e => Some (if s then - m else m, e) | _ => None end.

Lemma fpEq_spec v w a e b f : fpInt v = Some (a, e) -> fpInt w = Some (b, f) ->
  fpEq v w = true <-> (a * 2 ^ (e - Z.min e f) = b * 2 ^ (f - Z.min e f)).
Proof.
  destruct v as [| |s m e'], w as [| |s' m' f']; cbn; intros [= <- <-] [= <- <-]; try done.
  rewrite Z.eqb_eq. destruct s, s'; rewrite ?Z.mul_opp_l; done.
Qed.

Lemma scale_low a e b f low : low <= Z.min e f ->
  a * 2 ^ (e - Z.min e f) = b * 2 ^ (f - Z.min e f) <-> a * 2 ^ (e - low) = b * 2 ^ (f - low).
Proof.
  intros L. set (min := Z.min e f) in *.
  assert (Hp : forall x, min <= x -> 2 ^ (x - low) = 2 ^ (x - min) * 2 ^ (min - low)) by (intros; rewrite <- Z.pow_add_r by lia; f_equal; lia).
  assert (0 < 2 ^ (min - low)) by (apply Z.pow_pos_nonneg; lia). rewrite (Hp e), (Hp f), !Z.mul_assoc by lia.
  symmetry. apply Z.mul_cancel_r. lia.
Qed.

(** Equality is transitive; NaN is unequal to itself. *)
Lemma fpEq_trans u v w : fpEq u v = true -> fpEq v w = true -> fpEq u w = true.
Proof.
  destruct u as [|s|s m e], v as [|s'|s' m' e'], w as [|s''|s'' m'' e'']; try (cbn; congruence).
  - cbn. intros ->%eqb_prop ->%eqb_prop. apply eqb_reflx.
  - intros H1 H2. apply (fpEq_spec (FFin s m e) (FFin s' m' e') _ _ _ _ eq_refl eq_refl) in H1.
    apply (fpEq_spec (FFin s' m' e') (FFin s'' m'' e'') _ _ _ _ eq_refl eq_refl) in H2.
    apply (fpEq_spec (FFin s m e) (FFin s'' m'' e'') _ _ _ _ eq_refl eq_refl). set (low := Z.min e (Z.min e' e'')).
    apply (scale_low _ _ _ _ low) in H1, H2; [|lia..]. apply (scale_low _ _ _ _ low); [lia|]. congruence.
Qed.

Lemma fpEq_sym u v : fpEq u v = fpEq v u.
Proof.
  destruct u as [|s|s m e], v as [|s'|s' m' e']; try done; cbn.
  - by destruct s, s'.
  - rewrite (Z.min_comm e e'). apply Z.eqb_sym.
Qed.

(** *** Conversions between the formats *)

(** The same number, or both NaN. *)
Definition fpSame (v w : fpValue) : Prop := fpEq v w = true \/ (v = FNaN /\ w = FNaN).

Lemma fpSame_trans u v w : fpSame u v -> fpSame v w -> fpSame u w.
Proof.
  intros [H1|[-> ->]] [H2|[E1 E2]]; [left; by eapply fpEq_trans| |by destruct w|right; done].
  subst. by destruct u.
Qed.

Lemma fpSame_sym u v : fpSame u v -> fpSame v u.
Proof. intros [H|[-> ->]]; [left; by rewrite fpEq_sym|by right]. Qed.

Lemma fpSame_refl v : fpSame v v.
Proof.
  destruct v as [|s|s m e]; [by right|left; apply eqb_reflx|left]. cbn. apply Z.eqb_refl.
Qed.

Definition representable (mw ew m e : Z) : Prop :=
  0 <= m < 2 ^ (mw + 1) /\ fpMin mw ew <= e <= fpMin mw ew + 2 ^ ew - 3.

(** Numbers with the same value have the same leading bit and divisibility. *)
Lemma fpExact_value mw ew m e m' e' low :
  0 <= mw -> representable mw ew m e -> 0 < m -> 0 < m' -> low <= Z.min e e' ->
  m * 2 ^ (e - low) = m' * 2 ^ (e' - low) ->
  fpExact mw ew m' e' /\ fpScale mw ew m' e' <= e.
Proof.
  intros Hw [Hm He] Pm Pm' L E.
  assert (P : 0 < 2 ^ (e - low)) by (apply Z.pow_pos_nonneg; lia). assert (P' : 0 < 2 ^ (e' - low)) by (apply Z.pow_pos_nonneg; lia).
  assert (Hl : Z.log2 m + e = Z.log2 m' + e').
  { assert (Hl : Z.log2 (m * 2 ^ (e - low)) = Z.log2 (m' * 2 ^ (e' - low))) by congruence.
    rewrite !Z.log2_mul_pow2 in Hl by lia. lia. }
  assert (Hb : Z.log2 m < mw + 1) by (apply Z.log2_lt_pow2; lia).
  assert (Hs : fpScale mw ew m' e' <= e) by (unfold fpScale; lia). split; [|done]. unfold fpExact. cbv zeta.
  set (k := fpScale mw ew m' e' - e'). destruct (Z.le_gt_cases k 0); [by left|right].
  assert (Em : m' = m * 2 ^ (e - e')).
  { apply (Z.mul_reg_r _ _ (2 ^ (e' - low))); [lia|]. rewrite <- E. rewrite <- Z.mul_assoc, <- Z.pow_add_r by lia. f_equal. f_equal. lia. }
  rewrite Em. replace (e - e') with ((e - e' - k) + k) by lia. rewrite Z.pow_add_r by lia. rewrite Z.mul_assoc. apply Z.mod_mul.
  apply Z.pow_nonzero; lia.
Qed.

Lemma fpEncode_representable mw ew s m e s' m' e' :
  0 <= mw -> 1 < ew -> representable mw ew m e -> 0 <= m' -> fpEq (FFin s' m' e') (FFin s m e) = true ->
  fpEq (fpDecode mw ew (fpEncode mw ew (FFin s' m' e'))) (FFin s m e) = true.
Proof.
  intros Hw He Hr Hm' E. apply (fpEq_trans _ (FFin s' m' e')); [|done].
  assert (P1 : 0 < 2 ^ mw) by (apply Z.pow_pos_nonneg; lia).
  assert (P3 : 2 ^ (mw + 1) = 2 * 2 ^ mw) by (rewrite Z.pow_add_r by lia; lia).
  apply (fpEq_spec (FFin s' m' e') (FFin s m e) _ _ _ _ eq_refl eq_refl) in E.
  set (low := Z.min e' e) in *. destruct Hr as [Hm Hre].
  assert (P : 0 < 2 ^ (e - low)) by (apply Z.pow_pos_nonneg; lia). assert (P' : 0 < 2 ^ (e' - low)) by (apply Z.pow_pos_nonneg; lia).
  assert (Hv : m' <> 0 -> 0 < m /\ m * 2 ^ (e - low) = m' * 2 ^ (e' - low)).
  { intros N. assert (0 < m' * 2 ^ (e' - low)) by (apply Z.mul_pos_pos; lia). assert (0 <= m * 2 ^ (e - low)) by (apply Z.mul_nonneg_nonneg; lia).
    assert (Ev : m * 2 ^ (e - low) = m' * 2 ^ (e' - low)) by (destruct s, s'; lia). split; [|done].
    destruct (Z.eq_dec m 0) as [->|]; [|lia]. rewrite Z.mul_0_l in Ev. lia. }
  apply fpEncode_exact; [lia..| |]; intros N; destruct (Hv N) as [Pm Ev];
    destruct (fpExact_value mw ew m e m' e' low) as [Hx Hs]; try done; try lia.
  destruct (roundEven_value mw ew m' e') as (_ & Hb & _); [lia|lia|done|]. cbv zeta in Hb. nia.
Qed.

(** Widening keeps every value; narrowing keeps what is representable. *)
Lemma float64_of_32_same bits : fpSame (decode64 (float64_of_32 bits)) (decode32 bits).
Proof.
  destruct (decode32 bits) as [|s|s m e] eqn:E.
  - right. split; [|done]. unfold float64_of_32. rewrite E. vm_compute. reflexivity.
  - left. unfold float64_of_32. rewrite E. destruct s; vm_compute; reflexivity.
  - left. by apply float64_of_32_exact.
Qed.

Lemma decode_nonneg mw ew bits s m e : 0 <= mw -> 1 < ew -> fpDecode mw ew bits = FFin s m e -> 0 <= m.
Proof. intros Hw He E. apply fpDecode_bounds in E; lia. Qed.

Lemma float32_of_64_same bits s m e :
  representable 23 8 m e -> fpEq (decode64 bits) (FFin s m e) = true ->
  fpSame (decode32 (float32_of_64 bits)) (FFin s m e).
Proof.
  intros Hr E. destruct (decode64 bits) as [|s'|s' m' e'] eqn:Ed; [done..|]. left. unfold float32_of_64, decode32. rewrite Ed.
  apply fpEncode_representable; [lia|lia|done| |done]. eapply (decode_nonneg 52 11); [lia|lia|exact Ed].
Qed.

(** The check of [floatLiteral]: a [float64] that survives the round trip is kept by the [float32]. *)
Lemma float32_checked bits :
  fpEq (decode64 (float64_of_32 (float32_of_64 bits))) (decode64 bits) = true ->
  fpSame (decode32 (float32_of_64 bits)) (decode64 bits).
Proof.
  intros H. eapply fpSame_trans; [|left; exact H]. apply fpSame_sym, float64_of_32_same.
Qed.

Lemma float32_special bits : (decode64 bits = FNaN \/ exists s, decode64 bits = FInf s) ->
  fpSame (decode32 (float32_of_64 bits)) (decode64 bits).
Proof.
  intros [E|[s E]]; unfold float32_of_64; rewrite E; [right; split; [|done]; vm_compute; reflexivity|].
  left. destruct s; vm_compute; reflexivity.
Qed.

Lemma float32_of_float32 bits : fpSame (decode32 (float32_of_64 (float64_of_32 bits))) (decode32 bits).
Proof.
  destruct (float64_of_32_same bits) as [H|[H1 H2]].
  - destruct (decode32 bits) as [|s|s m e] eqn:E; [by destruct (decode64 _)| |].
    + eapply fpSame_trans; [|left; exact H]. apply float32_special. right.
      destruct (decode64 (float64_of_32 bits)) as [|s'|]; [done|by exists s'|done].
    + eapply float32_of_64_same; [|exact H]. by apply (fpDecode_bounds 23 8) in E.
  - rewrite H2, <- H1. apply float32_special. by left.
Qed.

Lemma int_representable mw ew n :
  0 < mw -> Z.abs n <= 2 ^ (mw + 1) -> fpMin mw ew <= 0 -> 4 <= fpMin mw ew + 2 ^ ew ->
  exists m e, representable mw ew m e /\ fpEq (FFin (n <? 0) (Z.abs n) 0) (FFin (n <? 0) m e) = true.
Proof.
  intros Hw Hn Hmin Hmax. assert (P3 : 2 ^ (mw + 1) = 2 * 2 ^ mw) by (rewrite Z.pow_add_r by lia; lia).
  assert (P1 : 0 < 2 ^ mw) by (apply Z.pow_pos_nonneg; lia).
  destruct (Z.eq_dec (Z.abs n) (2 ^ (mw + 1))) as [E|N].
  - exists (2 ^ mw), 1. split; [unfold representable; lia|]. rewrite E, P3. cbn [fpEq]. change (Z.min 0 1) with 0.
    destruct (n <? 0); cbn; apply Z.eqb_eq; lia.
  - exists (Z.abs n), 0. split; [unfold representable; lia|]. cbn [fpEq]. apply Z.eqb_refl.
Qed.

Lemma float32_of_int n : Z.abs n <= 2 ^ 24 ->
  fpSame (decode32 (float32_of_64 (float64_of_int n))) (FFin (n <? 0) (Z.abs n) 0).
Proof.
  intros H. assert (H' : Z.abs n <= 2 ^ 53) by (change (2 ^ 53) with 9007199254740992; change (2 ^ 24) with 16777216 in H; lia).
  apply float64_of_int_exact in H'. destruct (int_representable 23 8 n) as (m & e & Hr & Ev); [lia|exact H|vm_compute; discriminate|vm_compute; discriminate|].
  eapply fpSame_trans; [eapply float32_of_64_same; [exact Hr|]|left; by rewrite fpEq_sym]. by eapply fpEq_trans.
Qed.
