(* ===== verification/FloatArith.v ===== *)
(** * Floating-point arithmetic

    Go's comparison, multiplication and addition of [float64] values, on IEEE bit patterns with the
    rounding of [Float], and the truncation of a conversion to an integer, as
    [pkg/fgo/security_token.go] uses them.  A sum of a product is rounded twice, as on the
    architectures where Go does not fuse the two. *)

From S2P Require Import Prelude Float.

(** ** Operations *)

(** The numbers at a common exponent. *)
Definition fpAt (low : Z) (s : bool) (m e : Z) : Z := let x := m * 2 ^ (e - low) in if s then - x else x.

(** Go's [<]. *)
Definition fpLt (v w : fpValue) : bool :=
  match v, w with
  | FNaN, _ | _, FNaN => false
  | FInf s, FInf s' => s && negb s'
  | FInf s, FFin _ _ _ => s
  | FFin _ _ _, FInf s => negb s
  | FFin s m e, FFin s' m' e' => let low := Z.min e e' in fpAt low s m e <? fpAt low s' m' e'
  end.

(** Go's [<=]. *)
Definition fpLe (v w : fpValue) : bool := fpLt v w || fpEq v w.

Definition fpMul (v w : fpValue) : fpValue :=
  match v, w with
  | FNaN, _ | _, FNaN => FNaN
  | FInf s, FInf s' => FInf (xorb s s')
  | FInf s, FFin s' m _ | FFin s' m _, FInf s => if m =? 0 then FNaN else FInf (xorb s s')
  | FFin s m e, FFin s' m' e' => FFin (xorb s s') (m * m') (e + e')
  end.

Definition fpAdd (v w : fpValue) : fpValue :=
  match v, w with
  | FNaN, _ | _, FNaN => FNaN
  | FInf s, FInf s' => if Bool.eqb s s' then FInf s else FNaN
  | FInf s, FFin _ _ _ | FFin _ _ _, FInf s => FInf s
  | FFin s m e, FFin s' m' e' =>
    let low := Z.min e e' in
    let z := fpAt low s m e + fpAt low s' m' e' in
    FFin ((z <? 0) || ((z =? 0) && s && s')) (Z.abs z) low
  end.

Definition encode64 (v : fpValue) : Z := fpEncode 52 11 v.
Definition mul64 (a b : Z) : Z := encode64 (fpMul (decode64 a) (decode64 b)).
Definition add64 (a b : Z) : Z := encode64 (fpAdd (decode64 a) (decode64 b)).

(** The integer part, toward zero; NaN and the infinities have none. *)
Definition fpTrunc (v : fpValue) : option Z :=
  match v with
  | FFin s m e => let q := if 0 <=? e then m * 2 ^ e else m / 2 ^ (- e) in Some (if s then - q else q)
  | _ => None
  end.

Definition one64 : Z := float64_of_int 1.
Definition two64 : Z := float64_of_int 2.

(** ** Rounding *)

Lemma roundEven_low m k : 0 < k -> m / 2 ^ k <= roundEven m k <= m / 2 ^ k + 1.
Proof. intros Hk. unfold roundEven. destruct (Z.leb_spec k 0); [lia|]. case_match; lia. Qed.

(** Rounding does not pass an integer. *)
Lemma roundEven_le m k q : 0 <= m -> 0 < k -> m <= q * 2 ^ k -> roundEven m k <= q.
Proof.
  intros Hm Hk Hq. assert (P : 0 < 2 ^ k) by (apply Z.pow_pos_nonneg; lia). assert (P' : 0 < 2 ^ (k - 1)) by (apply Z.pow_pos_nonneg; lia).
  pose proof (Z.div_mod m (2 ^ k) ltac:(lia)) as D. pose proof (Z.mod_pos_bound m (2 ^ k) P).
  destruct (Z.eq_dec (m mod 2 ^ k) 0) as [E|N].
  - rewrite roundEven_exact by lia. nia.
  - pose proof (roundEven_low m k Hk). assert (m / 2 ^ k < q) by nia. lia.
Qed.

Lemma pow_split a b : 0 <= a -> 0 <= b -> 2 ^ (a + b) = 2 ^ a * 2 ^ b.
Proof. intros. by rewrite Z.pow_add_r. Qed.

(** The rounded mantissa of a number that is not zero. *)
Lemma rounded_mantissa mw ew m e : 0 < m -> 0 <= mw ->
  let scale := fpScale mw ew m e in let r := roundEven m (scale - e) in
  0 <= r <= 2 ^ (mw + 1) /\ (fpMin mw ew < scale -> 2 ^ mw <= r).
Proof.
  intros Hm Hw scale r. destruct (Z.log2_spec m Hm) as [L1 L2]. pose proof (Z.log2_nonneg m) as L0. set (b := Z.log2 m) in *.
  assert (Hs : scale = Z.max (fpMin mw ew) (e + (b + 1) - (mw + 1))) by done.
  assert (Hk : b - mw <= scale - e) by lia. rewrite Z.pow_succ_r in L2 by done.
  subst r. destruct (Z.le_gt_cases (scale - e) 0) as [Hle|Hgt].
  - unfold roundEven. destruct (Z.leb_spec (scale - e) 0); [|lia].
    assert (P : 0 < 2 ^ (- (scale - e))) by (apply Z.pow_pos_nonneg; lia).
    assert (Ew : 2 ^ (b + 1 + - (scale - e)) <= 2 ^ (mw + 1)) by (apply Z.pow_le_mono_r; lia). rewrite pow_split in Ew by lia.
    replace (2 ^ (b + 1)) with (2 * 2 ^ b) in Ew by (rewrite pow_split by lia; lia). split; [nia|]. intros Hmin.
    assert (Ew' : 2 ^ mw <= 2 ^ (b + - (scale - e))) by (apply Z.pow_le_mono_r; lia). rewrite pow_split in Ew' by lia. nia.
  - assert (P : 0 < 2 ^ (scale - e)) by (apply Z.pow_pos_nonneg; lia). pose proof (roundEven_low m (scale - e) Hgt) as Hr.
    assert (Hd : 0 <= m / 2 ^ (scale - e)) by (apply Z.div_pos; lia). split.
    + split; [lia|]. apply roundEven_le; [lia|lia|]. rewrite <- pow_split by lia.
      assert (2 ^ (b + 1) <= 2 ^ (mw + 1 + (scale - e))) by (apply Z.pow_le_mono_r; lia).
      replace (2 ^ (b + 1)) with (2 * 2 ^ b) in * by (rewrite pow_split by lia; lia). lia.
    + intros Hmin. assert (2 ^ mw <= m / 2 ^ (scale - e)); [|lia]. apply Z.div_le_lower_bound; [lia|].
      rewrite Z.mul_comm, <- pow_split by lia. replace (mw + (scale - e)) with b by lia. lia.
Qed.

(** What is encoded is the rounded mantissa at its scale. *)
Lemma fpEncode_rounded mw ew s m e : 0 <= mw -> 1 < ew -> 0 < m ->
  let scale := fpScale mw ew m e in let r := roundEven m (scale - e) in
  scale - fpMin mw ew + 4 <= 2 ^ ew ->
  exists m' e', fpDecode mw ew (fpEncode mw ew (FFin s m e)) = FFin s m' e' /\ scale <= e' <= scale + 1 /\
    0 <= m' /\ m' * 2 ^ (e' - scale) = r.
Proof.
  intros Hw He Hm scale r Hmax. destruct (rounded_mantissa mw ew m e Hm Hw) as [Hr Hlow]. fold scale in Hr, Hlow. fold r in Hr, Hlow.
  assert (P1 : 0 < 2 ^ mw) by (apply Z.pow_pos_nonneg; lia). assert (P3 : 2 ^ (mw + 1) = 2 * 2 ^ mw) by (rewrite pow_split by lia; lia).
  assert (Hs : fpMin mw ew <= scale) by (unfold scale, fpScale; lia).
  unfold fpEncode. replace (m =? 0) with false by lia. fold scale. fold r. cbv zeta.
  assert (Hin : exists ex fr, r + (scale - fpMin mw ew) * 2 ^ mw = ex * 2 ^ mw + fr /\ 0 <= fr < 2 ^ mw /\ 0 <= ex < 2 ^ ew - 1 /\
    exists m' e', (if ex =? 0 then FFin s fr (fpMin mw ew) else FFin s (2 ^ mw + fr) (fpMin mw ew + ex - 1)) = FFin s m' e' /\
      scale <= e' <= scale + 1 /\ 0 <= m' /\ m' * 2 ^ (e' - scale) = r).
  { destruct (Z.lt_ge_cases r (2 ^ mw)) as [L|L]; [|destruct (Z.eq_dec r (2 ^ (mw + 1))) as [Er|Nr]].
    - assert (scale = fpMin mw ew) as Es by (destruct (Z.eq_dec scale (fpMin mw ew)); [done|lia]).
      exists 0, r. split; [lia|]. split; [lia|]. split; [lia|]. exists r, scale. rewrite Z.eqb_refl, Z.sub_diag. split; [by rewrite Es|]. lia.
    - exists (scale - fpMin mw ew + 2), 0. split; [lia|]. split; [lia|]. split; [lia|]. exists (2 ^ mw), (scale + 1).
      replace (scale - fpMin mw ew + 2 =? 0) with false by lia. replace (scale + 1 - scale) with 1 by lia.
      split; [f_equal; lia|]. lia.
    - exists (scale - fpMin mw ew + 1), (r - 2 ^ mw). split; [lia|]. split; [lia|]. split; [lia|]. exists r, scale.
      replace (scale - fpMin mw ew + 1 =? 0) with false by lia. rewrite Z.sub_diag. split; [f_equal; lia|]. lia. }
  destruct Hin as (ex & fr & -> & Hfr & Hex & m' & e' & Ed & Hrest). exists m', e'. split; [|done]. rewrite <- Ed.
  replace ((2 ^ ew - 1) * 2 ^ mw <=? ex * 2 ^ mw + fr) with false by nia. apply fpDecode_fields; lia.
Qed.

(** A number of at most [limit], less than [2^53], rounds to at most that. *)
Lemma trunc_rounded_le m e limit : 0 <= m -> 0 <= limit < 2 ^ 53 -> m * 2 ^ Z.max 0 e <= limit * 2 ^ Z.max 0 (- e) ->
  exists z, fpTrunc (decode64 (encode64 (FFin false m e))) = Some z /\ 0 <= z <= limit.
Proof.
  intros Hm Hl Hv. unfold decode64, encode64. destruct (Z.eq_dec m 0) as [->|N]; [exists 0; split; [reflexivity|lia]|].
  assert (Hlog : Z.log2 m + e <= 52).
  { destruct (Z.log2_spec m ltac:(lia)) as [L1 _]. pose proof (Z.log2_nonneg m). destruct (Z.le_gt_cases (Z.log2 m + e) 52) as [|G]; [done|]. exfalso.
    assert (P : 0 < 2 ^ Z.max 0 (- e)) by (apply Z.pow_pos_nonneg; lia).
    assert (Hp : 2 ^ (53 + Z.max 0 (- e)) <= 2 ^ (Z.log2 m + Z.max 0 e)) by (apply Z.pow_le_mono_r; lia).
    rewrite !pow_split in Hp by lia. assert (0 < 2 ^ Z.max 0 e) by (apply Z.pow_pos_nonneg; lia). nia. }
  set (scale := fpScale 52 11 m e). assert (Hs : scale <= 0) by (unfold scale, fpScale, fpMin; lia).
  destruct (fpEncode_rounded 52 11 false m e) as (m' & e' & -> & He' & Pm & Er); [lia..| |].
  { fold scale. change (fpMin 52 11) with (-1074). change (2 ^ 11) with 2048. lia. }
  fold scale in He', Er. set (r := roundEven m (scale - e)) in *.
  assert (Hr : 0 <= r <= limit * 2 ^ (- scale)).
  { split; [rewrite <- Er; apply Z.mul_nonneg_nonneg; [done|]; apply Z.pow_nonneg; lia|]. subst r.
    destruct (Z.le_gt_cases (scale - e) 0) as [Hle|Hgt].
    - unfold roundEven. destruct (Z.leb_spec (scale - e) 0); [|lia].
      assert (P : 0 < 2 ^ Z.max 0 e) by (apply Z.pow_pos_nonneg; lia).
      destruct (Z.le_gt_cases 0 e) as [Pe|Ne].
      + rewrite Z.max_r, Z.max_l in Hv by lia. replace (- (scale - e)) with (e + - scale) by lia. rewrite pow_split by lia.
        assert (0 < 2 ^ (- scale)) by (apply Z.pow_pos_nonneg; lia). change (2 ^ 0) with 1 in Hv. nia.
      + rewrite Z.max_l, Z.max_r in Hv by lia. change (2 ^ 0) with 1 in Hv. replace (- scale) with (- (scale - e) + - e) by lia. rewrite pow_split by lia.
        assert (0 < 2 ^ (- (scale - e))) by (apply Z.pow_pos_nonneg; lia). nia.
    - apply roundEven_le; [lia|lia|]. rewrite Z.max_l, Z.max_r in Hv by lia. change (2 ^ 0) with 1 in Hv.
      rewrite <- Z.mul_assoc, <- pow_split by lia. replace (- scale + (scale - e)) with (- e) by lia. lia. }
  unfold fpTrunc. destruct (Z.leb_spec 0 e') as [Pe|Ne].
  - eexists. split; [reflexivity|]. assert (P : 0 < 2 ^ e') by (apply Z.pow_pos_nonneg; lia). split; [nia|].
    replace (e' - scale) with (e' + - scale) in Er by lia. rewrite pow_split in Er by lia.
    assert (0 < 2 ^ (- scale)) by (apply Z.pow_pos_nonneg; lia). nia.
  - eexists. split; [reflexivity|]. assert (P : 0 < 2 ^ (- e')) by (apply Z.pow_pos_nonneg; lia). split; [apply Z.div_pos; lia|].
    apply Z.div_le_upper_bound; [lia|]. replace (- scale) with (- e' + (e' - scale)) in Hr by lia. rewrite pow_split in Hr by lia.
    assert (0 < 2 ^ (e' - scale)) by (apply Z.pow_pos_nonneg; lia). nia.
Qed.

(** Truncating a number that is an integer gives it. *)
Lemma fpTrunc_int v n : 0 <= n -> fpEq v (FFin false n 0) = true -> fpTrunc v = Some n.
Proof.
  intros Hn E. destruct v as [| |s m e]; try done.
  apply (fpEq_spec (FFin s m e) (FFin false n 0) _ _ _ _ eq_refl eq_refl) in E. cbn [fpTrunc]. f_equal.
  destruct (Z.leb_spec 0 e).
  - rewrite Z.min_r in E by lia. change (2 ^ (0 - 0)) with 1 in E. replace (e - 0) with e in E by lia. destruct s; lia.
  - rewrite Z.min_l in E by lia. rewrite Z.sub_diag in E. change (2 ^ 0) with 1 in E. replace (0 - e) with (- e) in E by lia. assert (P : 0 < 2 ^ (- e)) by (apply Z.pow_pos_nonneg; lia).
    destruct s.
    + replace m with (- n * 2 ^ (- e)) by lia. rewrite Z.div_mul by lia. lia.
    + replace m with (n * 2 ^ (- e)) by lia. by rewrite Z.div_mul by lia.
Qed.

(** ** Products *)

Lemma fpEq_positive v n : 0 <= n -> fpEq v (FFin false n 0) = true ->
  exists s m e, v = FFin s m e /\ (if s then - m else m) * 2 ^ Z.max 0 e = n * 2 ^ Z.max 0 (- e).
Proof.
  intros Hn E. destruct v as [| |s m e]; try done. exists s, m, e. split; [done|].
  apply (fpEq_spec (FFin s m e) (FFin false n 0) _ _ _ _ eq_refl eq_refl) in E.
  replace (Z.max 0 e) with (e - Z.min e 0) by lia. by replace (Z.max 0 (- e)) with (0 - Z.min e 0) by lia.
Qed.

(** Exponents split into what is above and below zero. *)
Lemma pow_product x y ea er : x * 2 ^ (Z.max 0 ea + Z.max 0 er) <= y * 2 ^ (Z.max 0 (- ea) + Z.max 0 (- er)) ->
  x * 2 ^ Z.max 0 (ea + er) <= y * 2 ^ Z.max 0 (- (ea + er)).
Proof.
  intros H. set (d := Z.max 0 ea + Z.max 0 er - Z.max 0 (ea + er)).
  replace (Z.max 0 ea + Z.max 0 er) with (Z.max 0 (ea + er) + d) in H by lia.
  replace (Z.max 0 (- ea) + Z.max 0 (- er)) with (Z.max 0 (- (ea + er)) + d) in H by lia.
  rewrite !pow_split, !Z.mul_assoc in H by lia. assert (0 < 2 ^ d) by (apply Z.pow_pos_nonneg; lia). nia.
Qed.

(** A number that is not below zero and at most one, as [Jitter] and ratios are. *)
Definition unitRange (v : fpValue) : Prop := exists m e, v = FFin false m e /\ 0 <= m /\ m * 2 ^ Z.max 0 e <= 2 ^ Z.max 0 (- e).

Lemma trunc_scaled_le n ratio : 0 <= n < 2 ^ 53 -> unitRange (decode64 ratio) ->
  exists z, fpTrunc (decode64 (mul64 (float64_of_int n) ratio)) = Some z /\ 0 <= z <= n.
Proof.
  intros Hn (mr & er & Er & Hm & Hr). assert (En : fpEq (decode64 (float64_of_int n)) (FFin false n 0) = true).
  { assert (Hl : Z.abs n <= 2 ^ 53) by lia. pose proof (float64_of_int_exact n Hl) as E. by rewrite Z.abs_eq, (proj2 (Z.ltb_ge n 0)) in E by lia. }
  apply fpEq_positive in En as (s & m & e & Ed & Ev); [|lia]. unfold mul64. rewrite Ed, Er. cbn [fpMul].
  assert (P : 0 < 2 ^ Z.max 0 e) by (apply Z.pow_pos_nonneg; lia). assert (P' : 0 < 2 ^ Z.max 0 (- e)) by (apply Z.pow_pos_nonneg; lia).
  assert (Hs : s = false /\ 0 <= m).
  { unfold decode64 in Ed. apply decode_nonneg in Ed as Hm0; [|lia..]. split; [|done]. destruct s; [|done].
    assert (m = 0) as -> by nia. assert (n = 0) as -> by nia. by vm_compute in Ed. }
  destruct Hs as [-> Hm0]. cbn [xorb]. apply trunc_rounded_le; [nia|done|]. apply pow_product. rewrite !pow_split by lia.
  replace (m * mr * (2 ^ Z.max 0 e * 2 ^ Z.max 0 er)) with ((m * 2 ^ Z.max 0 e) * (mr * 2 ^ Z.max 0 er)) by lia. rewrite Ev.
  replace (n * (2 ^ Z.max 0 (- e) * 2 ^ Z.max 0 (- er))) with (n * 2 ^ Z.max 0 (- e) * 2 ^ Z.max 0 (- er)) by lia.
  apply Z.mul_le_mono_nonneg_l; [nia|done].
Qed.

Definition pow64 (exponent : Z) : Z := encode64 (FFin false 1 exponent).

Lemma fpEq_of_value (s : bool) m e n : 0 <= n -> (if s then - m else m) * 2 ^ Z.max 0 e = n * 2 ^ Z.max 0 (- e) -> fpEq (FFin s m e) (FFin false n 0) = true.
Proof.
  intros Hn E. apply (fpEq_spec (FFin s m e) (FFin false n 0) _ _ _ _ eq_refl eq_refl).
  replace (e - Z.min e 0) with (Z.max 0 e) by lia. by replace (0 - Z.min e 0) with (Z.max 0 (- e)) by lia.
Qed.

Definition fpNonneg (v : fpValue) : Prop := forall s m e, v = FFin s m e -> 0 <= m.

Lemma decode64_nonneg bits : fpNonneg (decode64 bits).
Proof. intros s m e. by apply decode_nonneg. Qed.

Lemma fpMul_int v w a b : fpNonneg v -> fpNonneg w -> 0 <= a -> 0 <= b -> fpEq v (FFin false a 0) = true -> fpEq w (FFin false b 0) = true ->
  exists s m e, fpMul v w = FFin s m e /\ 0 <= m /\ fpEq (FFin s m e) (FFin false (a * b) 0) = true.
Proof.
  intros Hv Hw Ha Hb (s & m & e & -> & E)%fpEq_positive (s' & m' & e' & -> & E')%fpEq_positive; [|done..].
  specialize (Hv _ _ _ eq_refl). specialize (Hw _ _ _ eq_refl). eexists _, _, _. split; [reflexivity|]. split; [nia|]. apply fpEq_of_value; [nia|].
  assert (Es : (if xorb s s' then - (m * m') else m * m') = (if s then - m else m) * (if s' then - m' else m')) by (destruct s, s'; cbn; lia).
  rewrite Es. set (x := if s then - m else m) in *. set (y := if s' then - m' else m') in *.
  assert (H : (x * y) * 2 ^ (Z.max 0 e + Z.max 0 e') = (a * b) * 2 ^ (Z.max 0 (- e) + Z.max 0 (- e'))).
  { rewrite !pow_split by lia. transitivity ((x * 2 ^ Z.max 0 e) * (y * 2 ^ Z.max 0 e')); [lia|]. rewrite E, E'. lia. }
  apply Z.le_antisymm.
  - apply pow_product. by rewrite H.
  - assert (H' : - (x * y) * 2 ^ (Z.max 0 e + Z.max 0 e') <= - (a * b) * 2 ^ (Z.max 0 (- e) + Z.max 0 (- e'))) by lia.
    apply pow_product in H'. lia.
Qed.

Lemma trunc_doubled n k : 0 <= n <= 2 ^ 53 -> 0 <= k <= 60 ->
  fpTrunc (decode64 (mul64 (float64_of_int n) (pow64 k))) = Some (n * 2 ^ k).
Proof.
  intros Hn Hk. assert (P : 0 < 2 ^ k) by (apply Z.pow_pos_nonneg; lia). apply fpTrunc_int; [nia|].
  assert (Hl : Z.abs n <= 2 ^ 53) by lia. pose proof (float64_of_int_exact n Hl) as En. rewrite Z.abs_eq, (proj2 (Z.ltb_ge n 0)) in En by lia.
  assert (Hrep : exists m e, 0 <= m < 2 ^ 53 /\ 0 <= e <= 1 /\ n = m * 2 ^ e).
  { destruct (Z.eq_dec n (2 ^ 53)) as [->|N]; [exists (2 ^ 52), 1|exists n, 0]; repeat split; lia. }
  destruct Hrep as (m0 & e0 & Hm0 & He0 & En0).
  assert (Ek : fpEq (FFin false 1 k) (FFin false (2 ^ k) 0) = true) by (apply fpEq_of_value; [lia|]; rewrite Z.max_r, Z.max_l by lia; lia).
  assert (Ep : fpEq (decode64 (pow64 k)) (FFin false (2 ^ k) 0) = true).
  { eapply fpEq_trans; [|exact Ek]. apply fpEncode_representable; [lia..| |lia|by cbn; rewrite Z.min_id; apply Z.eqb_refl]. unfold representable.
    change (fpMin 52 11) with (-1074). change (2 ^ 11) with 2048. change (2 ^ (52 + 1)) with 9007199254740992. lia. }
  destruct (fpMul_int _ _ n (2 ^ k) (decode64_nonneg _) (decode64_nonneg _) ltac:(lia) ltac:(lia) En Ep) as (s & m & e & Em & Hm & Ev). unfold mul64. rewrite Em.
  assert (E0 : fpEq (FFin false m0 (e0 + k)) (FFin false (n * 2 ^ k) 0) = true).
  { apply fpEq_of_value; [nia|]. rewrite Z.max_r, Z.max_l by lia. rewrite En0, pow_split by lia. lia. }
  eapply fpEq_trans; [|exact E0]. apply fpEncode_representable; [lia..| | |].
  - unfold representable. change (fpMin 52 11) with (-1074). change (2 ^ 11) with 2048. change (2 ^ (52 + 1)) with (2 ^ 53). lia.
  - done.
  - eapply fpEq_trans; [exact Ev|by rewrite fpEq_sym].
Qed.
