(* ===== verification/Predicate.v ===== *)
(** * Scan filters

    Models [pkg/fgo/predicate.go]: building predicates, and compiling them to the messages a
    fetch request carries.  Go literals of the types rows hold are [GoValue]s; the other integer
    types a caller may pass have constructors of their own.

    The main theorem reads a compiled predicate back the way the server does, by field id and
    literal type, and finds that it means what the caller wrote. *)

From S2P Require Import Prelude Model Wire Values Float.

(** ** Predicates *)

Definition predicateTypeLeaf : Z := 0.
Definition predicateTypeCompound : Z := 1.
Definition leafEqual : Z := 0.
Definition leafNotEqual : Z := 1.
Definition leafLessThan : Z := 2.
Definition leafLessOrEqual : Z := 3.
Definition leafGreaterThan : Z := 4.
Definition leafGreaterOrEqual : Z := 5.
Definition leafIsNull : Z := 6.
Definition leafIsNotNull : Z := 7.
Definition leafStartsWith : Z := 8.
Definition leafContains : Z := 9.
Definition leafEndsWith : Z := 10.
Definition leafIn : Z := 11.
Definition leafNotIn : Z := 12.
Definition compoundAnd : Z := 0.
Definition compoundOr : Z := 1.

(** A literal: a Go value, an [int] or an unsigned integer, or a nil [*big.Rat].  [LitUint]
    stands for [uint] and [uint64]. *)
Inductive PredicateLiteral :=
| LitValue (v : GoValue)
| LitInt (z : Z)
| LitUint8 (z : Z) | LitUint16 (z : Z) | LitUint32 (z : Z) | LitUint (z : Z)
| LitNilRat.

Inductive Predicate :=
| MkPredicate (compound : bool) (function : Z) (column : string) (literals : list PredicateLiteral)
    (children : list Predicate) (err : option goerror).

Definition leaf (name : string) (function : Z) (literals : list PredicateLiteral) : Predicate :=
  MkPredicate false function name literals [] None.

(** [Col(name).Eq(value)] and the like. *)
Definition Eq (name : string) (value : PredicateLiteral) : Predicate := leaf name leafEqual [value].
Definition Ne (name : string) (value : PredicateLiteral) : Predicate := leaf name leafNotEqual [value].
Definition Lt (name : string) (value : PredicateLiteral) : Predicate := leaf name leafLessThan [value].
Definition Le (name : string) (value : PredicateLiteral) : Predicate := leaf name leafLessOrEqual [value].
Definition Gt (name : string) (value : PredicateLiteral) : Predicate := leaf name leafGreaterThan [value].
Definition Ge (name : string) (value : PredicateLiteral) : Predicate := leaf name leafGreaterOrEqual [value].
Definition IsNull (name : string) : Predicate := leaf name leafIsNull [].
Definition IsNotNull (name : string) : Predicate := leaf name leafIsNotNull [].
Definition In_ (name : string) (values : list PredicateLiteral) : Predicate := leaf name leafIn values.
Definition NotIn_ (name : string) (values : list PredicateLiteral) : Predicate := leaf name leafNotIn values.
Definition StartsWith (name prefix : string) : Predicate := leaf name leafStartsWith [LitValue (VString prefix)].
Definition EndsWith (name suffix : string) : Predicate := leaf name leafEndsWith [LitValue (VString suffix)].
Definition Contains (name part : string) : Predicate := leaf name leafContains [LitValue (VString part)].

Definition combine (function : Z) (predicates : list Predicate) : Predicate :=
  match predicates with
  | [p] => p
  | _ => MkPredicate true function "" [] predicates None
  end.

Definition And (predicates : list Predicate) : Predicate := combine compoundAnd predicates.
Definition Or (predicates : list Predicate) : Predicate := combine compoundOr predicates.

(** ** Messages

    The fields of [PbLiteralValue] and [PbPredicate] of the protocol; an optional field that is
    not set is [None]. *)

Record PbLiteralValue := MkPbLiteral {
  pl_LiteralType : Z;
  pl_IsNull : bool;
  pl_BooleanValue : option bool;
  pl_IntValue : option Z;
  pl_BigintValue : option Z;
  pl_FloatValue : option Z;
  pl_DoubleValue : option Z;
  pl_StringValue : option string;
  pl_BinaryValue : option (list byte);
  pl_DecimalValue : option Z;
  pl_TimestampMillis : option Z;
  pl_TimestampNano : option Z;
  pl_DecimalBytes : option (list byte);
}.

Inductive PbPredicate :=
| PbLeaf (function fieldID : Z) (literals : list PbLiteralValue)
| PbCompound (function : Z) (children : list PbPredicate).

Definition emptyLiteral (code : Z) (null : bool) : PbLiteralValue :=
  MkPbLiteral code null None None None None None None None None None None None.

(** ** Literals *)

Definition literalTypeError {A} : outcome A := Err (ErrText "literal does not match column").
Definition literalOverflow {A} : outcome A := Err (ErrText "literal overflows").

(** The switch of [integerLiteral] on the Go type. *)
Definition goInteger (l : PredicateLiteral) : option Z :=
  match l with
  | LitInt z | LitUint8 z | LitUint16 z | LitUint32 z | LitUint z => Some z
  | LitValue (VInt8 z) | LitValue (VInt16 z) | LitValue (VInt32 z) | LitValue (VInt64 z) => Some z
  | _ => None
  end.

Definition integerBounds (kind : DataType) : Z * Z :=
  match kind with
  | TinyIntType => (- 2 ^ 7, 2 ^ 7 - 1)
  | SmallIntType => (- 2 ^ 15, 2 ^ 15 - 1)
  | IntType => (- 2 ^ 31, 2 ^ 31 - 1)
  | _ => (- 2 ^ 63, 2 ^ 63 - 1)
  end.

Definition integerLiteral (value : PredicateLiteral) (kind : DataType) : outcome Z :=
  match goInteger value with
  | None => literalTypeError
  | Some v =>
    if match value with LitUint z => 2 ^ 63 - 1 <? z | _ => false end then literalOverflow
    else
      let '(low, high) := integerBounds kind in
      if (v <? low) || (high <? v) then literalOverflow else Ok v
  end.

(** The [float64], as bits. *)
Definition floatLiteral (value : PredicateLiteral) (mantissaBits : Z) : outcome Z :=
  match value with
  | LitValue (VFloat32 bits) => Ok (float64_of_32 bits)
  | LitValue (VFloat64 bits) =>
    if (mantissaBits =? 24) && match decode64 bits with FFin _ _ _ => true | _ => false end
       && negb (fpEq (decode64 (float64_of_32 (float32_of_64 bits))) (decode64 bits))
    then Err (ErrText "literal is not exactly representable as FLOAT")
    else Ok bits
  | _ =>
    match integerLiteral value BigIntType with
    | Err _ => literalTypeError
    | Panic => Panic
    | OutOfFuel => OutOfFuel
    | Ok integer =>
      let limit := Z.shiftl 1 mantissaBits in
      if (limit <? integer) || (integer <? - limit) then Err (ErrText "literal is not exactly representable")
      else Ok (float64_of_int integer)
    end
  end.

Definition setBoolLiteral (value : PredicateLiteral) (l : PbLiteralValue) : outcome PbLiteralValue :=
  match value with
  | LitValue (VBool b) => Ok (MkPbLiteral (pl_LiteralType l) (pl_IsNull l) (Some b) None None None None None None None None None None)
  | _ => literalTypeError
  end.

Definition setIntegerLiteral (value : PredicateLiteral) (kind : DataType) (l : PbLiteralValue) : outcome PbLiteralValue :=
  v ← integerLiteral value kind;
  Ok (match kind with
      | BigIntType => MkPbLiteral (pl_LiteralType l) (pl_IsNull l) None None (Some v) None None None None None None None None
      | _ => MkPbLiteral (pl_LiteralType l) (pl_IsNull l) None (Some (int32 v)) None None None None None None None None None
      end).

Definition setFloatLiteral (value : PredicateLiteral) (l : PbLiteralValue) : outcome PbLiteralValue :=
  v ← floatLiteral value 24;
  Ok (MkPbLiteral (pl_LiteralType l) (pl_IsNull l) None None None (Some (float32_of_64 v)) None None None None None None None).

Definition setDoubleLiteral (value : PredicateLiteral) (l : PbLiteralValue) : outcome PbLiteralValue :=
  v ← floatLiteral value 53;
  Ok (MkPbLiteral (pl_LiteralType l) (pl_IsNull l) None None None None (Some v) None None None None None None).

Definition setStringLiteral (value : PredicateLiteral) (l : PbLiteralValue) : outcome PbLiteralValue :=
  match value with
  | LitValue (VString s) => Ok (MkPbLiteral (pl_LiteralType l) (pl_IsNull l) None None None None None (Some s) None None None None None)
  | _ => literalTypeError
  end.

(** [append([]byte(nil), v...)] is nil for an empty [v]: the field is not set then. *)
Definition setBinaryLiteral (value : PredicateLiteral) (l : PbLiteralValue) : outcome PbLiteralValue :=
  match value with
  | LitValue (VBytes bs) =>
    Ok (MkPbLiteral (pl_LiteralType l) (pl_IsNull l) None None None None None None
          (match bs with [] => None | _ => Some bs end) None None None None)
  | _ => literalTypeError
  end.

Definition encodeScalarLiteral (value : PredicateLiteral) (kind : DataType) (l : PbLiteralValue) : outcome PbLiteralValue :=
  match kind with
  | BoolType => setBoolLiteral value l
  | TinyIntType | SmallIntType | IntType | BigIntType => setIntegerLiteral value kind l
  | FloatType => setFloatLiteral value l
  | DoubleType => setDoubleLiteral value l
  | StringType | CharType => setStringLiteral value l
  | BinaryType | BytesType => setBinaryLiteral value l
  | _ => Ok l
  end.

Definition literalRat (value : PredicateLiteral) : outcome Q :=
  match value with
  | LitNilRat => literalTypeError
  | LitValue (VRat q) => Ok q
  | _ =>
    match integerLiteral value BigIntType with
    | Ok integer => Ok (inject_Z integer)
    | Err _ => literalTypeError
    | Panic => Panic
    | OutOfFuel => OutOfFuel
    end
  end.

Definition encodeDecimalLiteral (value : PredicateLiteral) (logical : LogicalType) (l : PbLiteralValue) : outcome PbLiteralValue :=
  rat ← literalRat value;
  unscaled ← decimalUnscaled rat logical;
  Ok (if lt_Precision logical <=? 18
      then MkPbLiteral (pl_LiteralType l) (pl_IsNull l) None None None None None None None (Some (int64 unscaled)) None None None
      else MkPbLiteral (pl_LiteralType l) (pl_IsNull l) None None None None None None None None None None (Some (signedBigEndian unscaled))).

Definition setDateLiteral (v : Time) (l : PbLiteralValue) : outcome PbLiteralValue :=
  if negb (Time_Hour v =? 0) || negb (Time_Minute v =? 0) || negb (Time_Second v =? 0) || negb (Time_Nanosecond v =? 0)
  then Err (ErrText "DATE literal must be at midnight")
  else Ok (MkPbLiteral (pl_LiteralType l) (pl_IsNull l) None None (Some (temporalInt DateType v)) None None None None None None None None).

Definition setTimeLiteral (v : Time) (l : PbLiteralValue) : outcome PbLiteralValue :=
  if negb (Z.rem (Time_Nanosecond v) nsMillisecond =? 0) then Err (ErrText "TIME literal has sub-millisecond precision")
  else Ok (MkPbLiteral (pl_LiteralType l) (pl_IsNull l) None (Some (temporalInt TimeType v)) None None None None None None None None None).

Fixpoint granularityLoop (n : nat) (granularity : Z) : Z :=
  match n with O => granularity | S n => granularityLoop n (granularity * 10) end.

Definition timestampGranularity (precision : Z) : outcome Z :=
  if (precision <? 0) || (9 <? precision) then Err (ErrText "invalid precision")
  else if precision <=? 3 then Ok nsMillisecond
  else Ok (granularityLoop (Z.to_nat (9 - precision)) 1).

Definition setTimestampLiteral (v : Time) (kind : DataType) (precision : Z) (l : PbLiteralValue) : outcome PbLiteralValue :=
  granularity ← timestampGranularity precision;
  if negb (Z.rem (Z.rem (Time_Nanosecond v) nsMillisecond) granularity =? 0) then Err (ErrText "literal exceeds column precision")
  else
    let '(millis, nanos) := timestampParts kind v in
    Ok (MkPbLiteral (pl_LiteralType l) (pl_IsNull l) None None None None None None None None (Some millis) (Some nanos) None).

Definition encodeTemporalLiteral (value : PredicateLiteral) (kind : DataType) (logical : LogicalType) (l : PbLiteralValue)
    : outcome PbLiteralValue :=
  match value with
  | LitValue (VTime v) =>
    match kind with
    | DateType => setDateLiteral v l
    | TimeType => setTimeLiteral v l
    | _ => setTimestampLiteral v kind (lt_Precision logical) l
    end
  | _ => literalTypeError
  end.

Definition isNilLiteral (value : PredicateLiteral) : bool :=
  match value with LitValue v => isNil v | _ => false end.

Definition encodeLiteral (value : PredicateLiteral) (code : Z) (kind : DataType) (logical : LogicalType) : outcome PbLiteralValue :=
  let literal := emptyLiteral code (isNilLiteral value) in
  if isNilLiteral value then Ok literal
  else match kind with
       | DecimalType => encodeDecimalLiteral value logical literal
       | DateType | TimeType | TimestampType | TimestampLTZType => encodeTemporalLiteral value kind logical literal
       | _ => encodeScalarLiteral value kind literal
       end.

(** ** Compiling *)

Definition predicateLiteralType (kind : DataType) : option Z :=
  match kind with
  | BoolType => Some 0 | TinyIntType => Some 1 | SmallIntType => Some 2 | IntType => Some 3 | BigIntType => Some 4
  | FloatType => Some 5 | DoubleType => Some 6 | CharType => Some 7 | StringType => Some 8 | DecimalType => Some 9
  | DateType => Some 10 | TimeType => Some 11 | TimestampType => Some 12 | TimestampLTZType => Some 13
  | BinaryType => Some 14 | BytesType => Some 15
  | _ => None
  end.

Definition checkSingleLiteral (literals : list PredicateLiteral) : outcome unit :=
  _ ← check (glen literals =? 1) ErrInvalidConfig;
  literal ← index literals 0;
  check (negb (isNilLiteral literal)) ErrInvalidConfig.

Definition checkLeafShape (function : Z) (literals : list PredicateLiteral) (kind : DataType) : outcome unit :=
  if (function =? leafIsNull) || (function =? leafIsNotNull) then check (glen literals =? 0) ErrInvalidConfig
  else if (function =? leafIn) || (function =? leafNotIn) then check (negb (glen literals =? 0)) ErrInvalidConfig
  else if (function =? leafStartsWith) || (function =? leafContains) || (function =? leafEndsWith) then
    _ ← check (bool_decide (kind = StringType) || bool_decide (kind = CharType)) ErrInvalidConfig;
    checkSingleLiteral literals
  else checkSingleLiteral literals.

Record predicateEncoder := MkEncoder { pe_columns : gmap string Column; pe_ids : gmap Z Z }.

Definition countIDs (columns : list Column) : gmap Z Z :=
  foldl (fun m c => <[col_ID c := default 0 (m !! col_ID c) + 1]> m) ∅ columns.

Definition newEncoder (s : Schema) : predicateEncoder := MkEncoder (columnsByName s) (countIDs (sch_Columns s)).

Fixpoint encodeLiterals (literals : list PredicateLiteral) (code : Z) (kind : DataType) (logical : LogicalType)
    : outcome (list PbLiteralValue) :=
  match literals with
  | [] => Ok []
  | literal :: literals =>
    encoded ← rewrap ErrInvalidConfig (encodeLiteral literal code kind logical);
    rest ← encodeLiterals literals code kind logical;
    Ok (encoded :: rest)
  end.

Definition encodeLeaf (e : predicateEncoder) (function : Z) (column : string) (literals : list PredicateLiteral) : outcome PbPredicate :=
  if bool_decide (column = ""%string) && (function =? 0) && match literals with [] => true | _ => false end then Err ErrInvalidConfig
  else
    match pe_columns e !! column with
    | None => Err ErrInvalidConfig
    | Some column =>
      _ ← check (negb ((col_ID column <? 0) || negb (default 0 (pe_ids e !! col_ID column) =? 1))) ErrInvalidConfig;
      let logical := logicalTypeForColumn column in
      let kind := dataTypeForLogicalType logical in
      match predicateLiteralType kind with
      | None => Err ErrInvalidConfig
      | Some code =>
        _ ← checkLeafShape function literals kind;
        encoded ← encodeLiterals literals code kind logical;
        Ok (PbLeaf function (int32 (col_ID column)) encoded)
      end
    end.

Fixpoint encode (e : predicateEncoder) (p : Predicate) : outcome PbPredicate :=
  let 'MkPredicate compound function column literals children err := p in
  match err with
  | Some err => Err err
  | None =>
    if negb compound then encodeLeaf e function column literals
    else match children with
         | [] => Err ErrInvalidConfig
         | _ =>
           encoded ← mapM (encode e) children;
           Ok (PbCompound function encoded)
         end
  end.

Definition compilePredicate (p : Predicate) (s : Schema) : outcome PbPredicate := encode (newEncoder s) p.

(** ** What a predicate means *)

Definition ratReduced (q : Q) : bool := (Qnum (Qred q) =? Qnum q) && Pos.eqb (Qden (Qred q)) (Qden q).

(** Times a column can hold, and rationals as [*big.Rat] keeps them. *)
Definition wfLiteral (l : PredicateLiteral) : bool :=
  match l with LitValue (VTime t) => wfTime t | LitValue (VRat q) => ratReduced q | _ => true end.

Fixpoint wfPredicate (p : Predicate) : bool :=
  let 'MkPredicate _ _ _ literals children _ := p in forallb wfLiteral literals && forallb wfPredicate children.

Definition literalNumber (l : PredicateLiteral) : option fpValue :=
  match l with
  | LitValue (VFloat32 bits) => Some (decode32 bits)
  | LitValue (VFloat64 bits) => Some (decode64 bits)
  | _ => n ← goInteger l; Some (FFin (n <? 0) (Z.abs n) 0)
  end.

(** [v] is the value of a column of type [logical] that the caller's literal names. *)
Definition literalMeans (logical : LogicalType) (l : PredicateLiteral) (v : GoValue) : Prop :=
  if isNilLiteral l then v = VNil
  else match dataTypeForLogicalType logical with
  | TinyIntType => exists z, goInteger l = Some z /\ srange 8 z = true /\ v = VInt8 z
  | SmallIntType => exists z, goInteger l = Some z /\ srange 16 z = true /\ v = VInt16 z
  | IntType => exists z, goInteger l = Some z /\ srange 32 z = true /\ v = VInt32 z
  | BigIntType => exists z, goInteger l = Some z /\ srange 64 z = true /\ v = VInt64 z
  | FloatType => exists x bits, literalNumber l = Some x /\ v = VFloat32 bits /\ fpSame (decode32 bits) x
  | DoubleType => exists x bits, literalNumber l = Some x /\ v = VFloat64 bits /\ fpSame (decode64 bits) x
  | DecimalType => exists q, (l = LitValue (VRat q) \/ exists z, goInteger l = Some z /\ q = inject_Z z) /\ v = VRat q
  | DateType => exists t, l = LitValue (VTime t) /\ v = VTime (normDate t) /\ secondOfDay t = 0 /\ t_nsec t = 0
  | TimeType => exists t, l = LitValue (VTime t) /\ v = VTime (normTime t) /\ t_nsec t = truncMilli (t_nsec t)
  | TimestampType => exists t, l = LitValue (VTime t) /\ v = VTime (normTimestamp TimestampType (lt_Precision logical) t)
  | TimestampLTZType => exists t, l = LitValue (VTime t) /\ v = VTime (normTimestamp TimestampLTZType (lt_Precision logical) t)
  | _ => l = LitValue v
  end.

(** ** How the server reads a compiled predicate

    The literal type indicates which value field is populated ([fmsg/FlussApi.proto]); a literal
    whose field is missing has no reading. *)

Definition readLiteral (logical : LogicalType) (l : PbLiteralValue) : option GoValue :=
  if pl_IsNull l then Some VNil
  else
    let code := pl_LiteralType l in
    if code =? 0 then VBool <$> pl_BooleanValue l
    else if code =? 1 then VInt8 <$> pl_IntValue l
    else if code =? 2 then VInt16 <$> pl_IntValue l
    else if code =? 3 then VInt32 <$> pl_IntValue l
    else if code =? 4 then VInt64 <$> pl_BigintValue l
    else if code =? 5 then VFloat32 <$> pl_FloatValue l
    else if code =? 6 then VFloat64 <$> pl_DoubleValue l
    else if (code =? 7) || (code =? 8) then VString <$> pl_StringValue l
    else if code =? 9 then
      unscaled ← (if lt_Precision logical <=? 18 then pl_DecimalValue l else signedBigInt <$> pl_DecimalBytes l);
      Some (VRat (scaledRat unscaled (lt_Scale logical)))
    else if code =? 10 then VTime ∘ temporalTime DateType <$> pl_BigintValue l
    else if code =? 11 then VTime ∘ temporalTime TimeType <$> pl_IntValue l
    else if (code =? 12) || (code =? 13) then
      millis ← pl_TimestampMillis l; nanos ← pl_TimestampNano l;
      Some (VTime (timestampTime (if code =? 12 then TimestampType else TimestampLTZType) millis nanos))
    else if (code =? 14) || (code =? 15) then VBytes <$> pl_BinaryValue l
    else None.

Section Meaning.
(** What a function decides about the values of a column and of literals, for some row. *)
Context (holds : Z -> Column -> list GoValue -> bool) (s : Schema).

Definition columnOfField (id : Z) : option Column := snd <$> list_find (fun c => col_ID c = id) (sch_Columns s).

Definition combined (function : Z) (bs : list bool) : bool :=
  if function =? compoundAnd then forallb id bs else existsb id bs.

Fixpoint evalPb (p : PbPredicate) : option bool :=
  match p with
  | PbLeaf function fieldID literals =>
    c ← columnOfField fieldID;
    values ← mapM (readLiteral (logicalTypeForColumn c)) literals;
    Some (holds function c values)
  | PbCompound function children =>
    bs ← mapM evalPb children;
    Some (combined function bs)
  end.

Inductive means : Predicate -> bool -> Prop :=
| means_leaf function name c literals values children :
    columnsByName s !! name = Some c -> Forall2 (literalMeans (logicalTypeForColumn c)) literals values ->
    means (MkPredicate false function name literals children None) (holds function c values)
| means_compound function name literals children bs :
    Forall2 means children bs -> children <> [] ->
    means (MkPredicate true function name literals children None) (combined function bs).

End Meaning.

(** A filter that compares with the empty byte string: its literal is sent without a value. *)
Definition emptyBytes (l : PredicateLiteral) : bool := match l with LitValue (VBytes []) => true | _ => false end.

Fixpoint hasEmptyBytes (p : Predicate) : bool :=
  let 'MkPredicate compound _ _ literals children _ := p in
  if compound then existsb hasEmptyBytes children else existsb emptyBytes literals.

(** [read] is what [value] says, or nothing when the filter has an empty byte string. *)
Definition readsAs {A} (empty : bool) (read : option A) (value : A -> Prop) : Prop :=
  if empty then read = None else exists v, read = Some v /\ value v.

(** ** Literals read back as what they mean *)

(** A list is read element by element. *)
Lemma readsAs_cons {A B} (f : A -> option B) x xs e es (V : B -> Prop) (Vs W : list B -> Prop) :
  readsAs e (f x) V -> readsAs es (mapM f xs) Vs -> (forall v vs, V v -> Vs vs -> W (v :: vs)) ->
  readsAs (e || es) (mapM f (x :: xs)) W.
Proof.
  unfold readsAs. intros Hx Hxs HW. cbn. destruct e; cbn [orb]; [by rewrite Hx|]. destruct Hx as (v & -> & Hv).
  cbn. destruct es; [by rewrite Hxs|]. destruct Hxs as (vs & -> & Hvs). cbn. eauto.
Qed.

Lemma integerLiteral_Ok l kind v : integerLiteral l kind = Ok v ->
  goInteger l = Some v /\ (integerBounds kind).1 <= v <= (integerBounds kind).2.
Proof.
  unfold integerLiteral. destruct (goInteger l) as [z|]; [|done]. destruct (match l with LitUint z => _ | _ => _ end); [done|].
  destruct (integerBounds kind) as [low high]. cbn [fst snd]. destruct (_ || _) eqn:E; [done|]. intros [= <-]. split; [done|lia].
Qed.

Lemma floatLiteral_int l bits (z : Z) : goInteger l = Some bits -> literalNumber l = Some (FFin (bits <? 0) (Z.abs bits) 0).
Proof. destruct l as [[]| | | | | |]; cbn; intros [= ->]; done. Qed.

Lemma floatLiteral_Ok l width v : floatLiteral l width = Ok v -> width = 24 \/ width = 53 ->
  exists x, literalNumber l = Some x /\ fpSame (decode64 v) x /\ (width = 24 -> fpSame (decode32 (float32_of_64 v)) x).
Proof.
  intros E Hw.
  assert (Hint : match integerLiteral l BigIntType with
    | Err _ => literalTypeError | Panic => Panic | OutOfFuel => OutOfFuel
    | Ok integer => if (Z.shiftl 1 width <? integer) || (integer <? - Z.shiftl 1 width) then Err (ErrText "literal is not exactly representable")
                    else Ok (float64_of_int integer) end = Ok v ->
    exists x, literalNumber l = Some x /\ fpSame (decode64 v) x /\ (width = 24 -> fpSame (decode32 (float32_of_64 v)) x)).
  { destruct (integerLiteral l BigIntType) as [n| | |] eqn:En; try done. apply integerLiteral_Ok in En as [En _].
    destruct (_ || _) eqn:Eb; [done|]. intros [= <-]. exists (FFin (n <? 0) (Z.abs n) 0). split; [by apply floatLiteral_int|].
    assert (Hn : Z.abs n <= 2 ^ width) by (destruct Hw as [-> | ->]; [change (Z.shiftl 1 24) with 16777216 in Eb; change (2 ^ 24) with 16777216|change (Z.shiftl 1 53) with 9007199254740992 in Eb; change (2 ^ 53) with 9007199254740992]; lia).
    split.
    - left. apply float64_of_int_exact. destruct Hw as [-> | ->]; [change (2 ^ 53) with 9007199254740992; change (2 ^ 24) with 16777216 in Hn; lia|done].
    - intros ->. by apply float32_of_int. }
  unfold floatLiteral in E. destruct l as [[]| | | | | |]; try (apply Hint; exact E); clear Hint.
  - injection E as <-. eexists. split; [reflexivity|]. split; [apply float64_of_32_same|]. intros _. apply float32_of_float32.
  - destruct ((width =? 24) && _ && _) eqn:Eb; [done|]. injection E as <-. eexists. split; [reflexivity|]. split; [apply fpSame_refl|].
    intros ->. cbn in Eb. destruct (decode64 bits) as [|s|s m e] eqn:Ed; cbn in Eb; rewrite <- Ed.
    + apply float32_special. by left.
    + apply float32_special. right. by exists s.
    + apply negb_false_iff in Eb. rewrite <- Ed in Eb. by apply float32_checked.
Qed.

Lemma ratReduced_eq q : ratReduced q = true -> Qred q = q.
Proof.
  unfold ratReduced. intros [H1 H2]%andb_true_iff. apply Z.eqb_eq in H1. apply Pos.eqb_eq in H2.
  destruct (Qred q), q. cbn in *. congruence.
Qed.

Lemma Qred_inject z : Qred (inject_Z z) = inject_Z z.
Proof.
  unfold Qred, inject_Z. pose proof (Z.ggcd_correct_divisors z 1) as H. pose proof (Z.ggcd_gcd z 1) as G.
  destruct (Z.ggcd z 1) as [g [a b]]. cbn [fst snd] in *. rewrite Z.gcd_1_r in G. subst g. destruct H as [-> Hb].
  f_equal; [lia|]. replace b with 1 by lia. done.
Qed.

Lemma literalRat_Ok l q : literalRat l = Ok q -> wfLiteral l = true -> Qred q = q /\ (l = LitValue (VRat q) \/ exists z, goInteger l = Some z /\ q = inject_Z z).
Proof.
  intros E Hw.
  assert (Hint : match integerLiteral l BigIntType with Ok integer => Ok (inject_Z integer) | Err _ => literalTypeError | Panic => Panic | OutOfFuel => OutOfFuel end = Ok q ->
    Qred q = q /\ (l = LitValue (VRat q) \/ exists z, goInteger l = Some z /\ q = inject_Z z)).
  { destruct (integerLiteral l BigIntType) as [n| | |] eqn:En; try done. apply integerLiteral_Ok in En as [En _]. intros [= <-].
    split; [apply Qred_inject|]. right. by exists n. }
  unfold literalRat in E. destruct l as [[]| | | | | |]; try done; try (apply Hint; exact E). injection E as <-. split; [by apply ratReduced_eq|by left].
Qed.

Lemma decimal_small u p : Z.abs u < 10 ^ p -> 1 <= p <= 18 -> int64 u = u.
Proof.
  intros H Hp. apply (swrap_small 64); [lia|]. pose proof (Z.pow_le_mono_r 10 p 18 ltac:(lia) ltac:(lia)) as L.
  change (10 ^ 18) with 1000000000000000000 in L. unfold srange. change (2 ^ (64 - 1)) with 9223372036854775808. lia.
Qed.

Lemma midnight t : Time_Hour t = 0 -> Time_Minute t = 0 -> Time_Second t = 0 -> secondOfDay t = 0.
Proof. unfold Time_Hour, Time_Minute, Time_Second. pose proof (secondOfDay_range t). intros. zlia. Qed.

Lemma nanos_rem t : wfTime t = true -> Z.rem (t_nsec t) nsMillisecond = t_nsec t mod 1000000 /\ 0 <= t_nsec t < 1000000000.
Proof. intros H. wf_time H. unfold nsMillisecond. split; [zlia|lia]. Qed.

Lemma truncMilli_id n : n mod 1000000 = 0 -> truncMilli n = n.
Proof. unfold truncMilli. intros. zlia. Qed.

Lemma timestamp_means kind precision t :
  kind = TimestampType \/ kind = TimestampLTZType -> wfTime t = true -> (precision <= 3 -> t_nsec t mod 1000000 = 0) ->
  timestampTime kind (timestampParts kind t).1 (timestampParts kind t).2 = normTimestamp kind precision t.
Proof.
  intros Hk Hw Hp. rewrite (timestampTime_round kind t Hw). unfold normTimestamp. change (3 <? 9) with true. cbv iota.
  destruct (Z.ltb_spec 3 precision); [done|]. by rewrite truncMilli_id by auto.
Qed.

Lemma encodeTemporal_means l kind logical code pb :
  kind = dataTypeForLogicalType logical -> predicateLiteralType kind = Some code -> wfLiteral l = true -> isNilLiteral l = false ->
  match kind with DateType | TimeType | TimestampType | TimestampLTZType => True | _ => False end ->
  encodeTemporalLiteral l kind logical (emptyLiteral code false) = Ok pb ->
  exists v, readLiteral logical pb = Some v /\ literalMeans logical l v.
Proof.
  intros Ek Ec Hw Hn Hk E. unfold encodeTemporalLiteral in E. destruct l as [[]| | | | | |]; try done. cbn [wfLiteral] in Hw.
  destruct (nanos_rem t Hw) as [Hr Hb]. unfold literalMeans. rewrite Hn, <- Ek.
  assert (Ht : forall ki, kind = ki -> ki = TimestampType \/ ki = TimestampLTZType -> setTimestampLiteral t ki (lt_Precision logical) (emptyLiteral code false) = Ok pb ->
    timestampTime ki (default 0 (pl_TimestampMillis pb)) (default 0 (pl_TimestampNano pb)) = normTimestamp ki (lt_Precision logical) t /\
    pb = MkPbLiteral code false None None None None None None None None (Some (timestampParts ki t).1) (Some (timestampParts ki t).2) None).
  { intros ki -> Hki Es. unfold setTimestampLiteral in Es. apply bind_Ok in Es as (g & Eg & Es). unfold Time_Nanosecond in Es. rewrite Hr in Es.
    destruct (negb _) eqn:Em; [done|]. apply negb_false_iff, Z.eqb_eq in Em.
    destruct (timestampParts ki t) as [ms ns] eqn:Ep. injection Es as <-. cbn. split; [|done].
    pose proof (timestamp_means ki (lt_Precision logical) t Hki Hw) as Hm. rewrite Ep in Hm. apply Hm. intros Hl.
    unfold timestampGranularity in Eg. destruct (_ || _); [done|]. replace (_ <=? 3) with true in Eg by lia. injection Eg as <-.
    unfold nsMillisecond in Em. zlia. }
  destruct kind; try done; cbn in Ec; injection Ec as <-.
  - unfold setDateLiteral in E. destruct (_ || _) eqn:Eb; [done|]. injection E as <-. rewrite !orb_false_iff, !negb_false_iff, !Z.eqb_eq in Eb.
    destruct Eb as [[[H1 H2] H3] H4]. eexists. split; [reflexivity|]. exists t.
    split; [done|]. split; [exact (f_equal VTime (temporalTime_round DateType t Hw))|]. split; [by apply midnight|exact H4].
  - unfold setTimeLiteral, Time_Nanosecond in E. rewrite Hr in E. destruct (negb _) eqn:Eb; [done|]. apply negb_false_iff, Z.eqb_eq in Eb. injection E as <-.
    eexists. split; [reflexivity|]. exists t. split; [done|]. split; [exact (f_equal VTime (temporalTime_round TimeType t Hw))|]. by rewrite truncMilli_id.
  - destruct (Ht _ eq_refl (or_introl eq_refl) E) as [Ev ->]. eexists. split; [reflexivity|]. exists t. split; [done|]. f_equal. exact Ev.
  - destruct (Ht _ eq_refl (or_intror eq_refl) E) as [Ev ->]. eexists. split; [reflexivity|]. exists t. split; [done|]. f_equal. exact Ev.
Qed.

Lemma bounds_srange w v : 0 < w -> - 2 ^ (w - 1) <= v <= 2 ^ (w - 1) - 1 -> srange w v = true.
Proof. unfold srange. lia. Qed.

Lemma encodeLiteral_means l kind logical code pb :
  kind = dataTypeForLogicalType logical -> predicateLiteralType kind = Some code -> wfLiteral l = true ->
  encodeLiteral l code kind logical = Ok pb -> readsAs (emptyBytes l) (readLiteral logical pb) (literalMeans logical l).
Proof.
  intros Ek Ec Hw E. destruct (emptyBytes l) eqn:He.
  { destruct l as [v| | | | | |]; try done. destruct v as [| | | | | | | | |[]| | | | | | |]; try done. by destruct kind; cbn in Ec, E; try done; injection Ec as <-; injection E as <-. }
  unfold encodeLiteral in E. cbn [readsAs]. destruct (isNilLiteral l) eqn:Hn.
  { injection E as <-. exists VNil. unfold literalMeans. by rewrite Hn. }
  destruct (decide (match kind with DateType | TimeType | TimestampType | TimestampLTZType => true | _ => false end = true)) as [Hk|Hk].
  { eapply encodeTemporal_means; try done; [by destruct kind|]. by destruct kind. }
  unfold literalMeans. rewrite Hn, <- Ek.
  assert (Hint : forall w, match kind with TinyIntType => w = 8 | SmallIntType => w = 16 | IntType => w = 32 | _ => False end ->
    setIntegerLiteral l kind (emptyLiteral code false) = Ok pb ->
    exists z, goInteger l = Some z /\ srange w z = true /\ pb = MkPbLiteral code false None (Some z) None None None None None None None None None).
  { intros w Hwk Es. unfold setIntegerLiteral in Es. apply bind_Ok in Es as (z & Ez & Es). apply integerLiteral_Ok in Ez as [Ez Hz].
    exists z. split; [done|]. assert (Hs : srange w z = true) by (destruct kind; try done; subst w; apply bounds_srange; cbn in Hz |- *; lia).
    split; [done|]. destruct kind; try done; injection Es as <-; subst w; cbn; do 2 f_equal; apply (swrap_small 32); try done;
      unfold srange in *; change (2 ^ (32 - 1)) with 2147483648; cbn in Hz; lia. }
  destruct kind; try done; cbn in Ec; injection Ec as <-; cbn in E.
  - unfold setBoolLiteral in E. destruct l as [[]| | | | | |]; try done. injection E as <-. by eexists.
  - unfold setStringLiteral in E. destruct l as [[]| | | | | |]; try done. injection E as <-. by eexists.
  - destruct (Hint 32) as (z & Ez & Hz & ->); [done..|]. eexists. split; [reflexivity|]. eauto.
  - destruct (Hint 8) as (z & Ez & Hz & ->); [done..|]. eexists. split; [reflexivity|]. eauto.
  - destruct (Hint 16) as (z & Ez & Hz & ->); [done..|]. eexists. split; [reflexivity|]. eauto.
  - clear Hint. unfold setIntegerLiteral in E. apply bind_Ok in E as (z & Ez & E). apply integerLiteral_Ok in Ez as [Ez Hz]. injection E as <-.
    eexists. split; [reflexivity|]. exists z. split; [done|]. split; [|done]. apply bounds_srange; [lia|exact Hz].
  - clear Hint. unfold setFloatLiteral in E. apply bind_Ok in E as (z & Ez & E). injection E as <-.
    apply floatLiteral_Ok in Ez as (x & Ex & _ & Hs); [|by left]. eexists. split; [reflexivity|]. eauto 6.
  - clear Hint. unfold setDoubleLiteral in E. apply bind_Ok in E as (z & Ez & E). injection E as <-.
    apply floatLiteral_Ok in Ez as (x & Ex & Hs & _); [|by right]. eexists. split; [reflexivity|]. eauto 6.
  - unfold setStringLiteral in E. destruct l as [[]| | | | | |]; try done. injection E as <-. by eexists.
  - unfold setBinaryLiteral in E. destruct l as [[]| | | | | |]; try done. injection E as <-. destruct bs; [done|]. eexists. by split; [reflexivity|].
  - unfold setBinaryLiteral in E. destruct l as [[]| | | | | |]; try done. injection E as <-. destruct bs; [done|]. eexists. by split; [reflexivity|].
  - clear Hint. unfold encodeDecimalLiteral in E. apply bind_Ok in E as (q & Eq & E). apply bind_Ok in E as (u & Eu & E). injection E as <-.
    apply literalRat_Ok in Eq as [Hq Hl]; [|done]. apply decimalUnscaled_round in Eu as (Hr & Hu & Hp); [|done].
    exists (VRat q). split; [|by exists q]. destruct (Z.leb_spec (lt_Precision logical) 18) as [L|L]; cbn.
    + replace (lt_Precision logical <=? 18) with true by lia. cbn. rewrite (decimal_small u (lt_Precision logical)) by lia. by rewrite Hr.
    + replace (lt_Precision logical <=? 18) with false by lia. cbn. by rewrite signedBigInt_round, Hr.
Qed.

Lemma encodeLiterals_means literals code kind logical : forall pbs,
  kind = dataTypeForLogicalType logical -> predicateLiteralType kind = Some code -> forallb wfLiteral literals = true ->
  encodeLiterals literals code kind logical = Ok pbs ->
  readsAs (existsb emptyBytes literals) (mapM (readLiteral logical) pbs) (Forall2 (literalMeans logical) literals).
Proof.
  induction literals as [|l literals IH]; intros pbs Ek Ec Hw E; cbn in E, Hw.
  - injection E as <-. by exists [].
  - apply andb_true_iff in Hw as [Hl Hw]. apply bind_Ok in E as (pb & Ep & E). apply rewrap_Ok in Ep.
    apply bind_Ok in E as (rest & Er & E). injection E as <-.
    apply (readsAs_cons (readLiteral logical) pb rest _ _ (literalMeans logical l) (Forall2 (literalMeans logical) literals));
      [by eapply encodeLiteral_means|by eapply IH|by constructor].
Qed.

(** ** Fields *)

Lemma countIDs_spec columns fid : default 0 (countIDs columns !! fid) = glen (filter (fun c => col_ID c = fid) columns).
Proof.
  unfold countIDs. enough (H : forall m : gmap Z Z, default 0 (foldl (fun m c => <[col_ID c := default 0 (m !! col_ID c) + 1]> m) m columns !! fid) =
    default 0 (m !! fid) + glen (filter (fun c => col_ID c = fid) columns)) by (rewrite H, lookup_empty; done).
  induction columns as [|c columns IH]; intros m; cbn [foldl]; [change (glen (filter (fun c => col_ID c = fid) [])) with 0; lia|]. rewrite IH, filter_cons. case_decide as Ec.
  - rewrite <- Ec, lookup_insert_eq, glen_cons. cbn [from_option id]. lia.
  - rewrite lookup_insert_ne by done. done.
Qed.

Lemma filter_single (columns : list Column) fid c :
  glen (filter (fun c => col_ID c = fid) columns) = 1 -> c ∈ columns -> col_ID c = fid ->
  snd <$> list_find (fun c => col_ID c = fid) columns = Some c.
Proof.
  induction columns as [|c' columns IH]; intros Hg Hin He; [by apply not_elem_of_nil in Hin|]. rewrite filter_cons in Hg. cbn [list_find].
  destruct (decide (col_ID c' = fid)) as [Ec|Nc].
  - rewrite glen_cons in Hg. apply elem_of_cons in Hin as [->|Hin]; [done|]. exfalso.
    assert (Hf : c ∈ filter (fun c => col_ID c = fid) columns) by (by apply list_elem_of_filter).
    destruct (filter (fun c => col_ID c = fid) columns) as [|x l]; [by apply not_elem_of_nil in Hf|]. rewrite glen_cons in Hg. pose proof (glen_nonneg l). lia.
  - apply elem_of_cons in Hin as [->|Hin]; [done|]. specialize (IH Hg Hin He). destruct (list_find _ columns) as [[i x]|]; [exact IH|done].
Qed.

Section Sound.
Context (holds : Z -> Column -> list GoValue -> bool) (s : Schema).
(** Field ids are 32-bit on the wire. *)
Hypothesis ids32 : Forall (fun c => col_ID c < 2 ^ 31) (sch_Columns s).

Lemma encodeLeaf_sound function name literals children pb :
  forallb wfLiteral literals = true -> encodeLeaf (newEncoder s) function name literals = Ok pb ->
  readsAs (existsb emptyBytes literals) (evalPb holds s pb) (means holds s (MkPredicate false function name literals children None)).
Proof.
  intros Hw E. unfold encodeLeaf in E. destruct (_ && _); [done|]. cbn [pe_columns pe_ids newEncoder] in E.
  destruct (columnsByName s !! name) as [c|] eqn:Ec; [|done]. apply bind_Ok in E as ([] & Hid & E). apply check_Ok in Hid.
  apply negb_true_iff, orb_false_iff in Hid as [H0 Hid]. apply negb_false_iff, Z.eqb_eq in Hid. rewrite countIDs_spec in Hid.
  destruct (predicateLiteralType _) as [code|] eqn:Et; [|done]. apply bind_Ok in E as ([] & _ & E). apply bind_Ok in E as (pbs & Ep & E). injection E as <-.
  pose proof (encodeLiterals_means literals code _ _ pbs eq_refl Et Hw Ep) as Hv.
  pose proof (columnsByName_elem _ _ _ Ec) as Hin. rewrite Forall_forall in ids32. pose proof (ids32 c Hin) as H31. cbn in H31.
  assert (Hi : int32 (col_ID c) = col_ID c).
  { apply (swrap_small 32); [lia|]. unfold srange. change (2 ^ (32 - 1)) with 2147483648. change (2 ^ 31) with 2147483648 in H31. lia. }
  cbn [evalPb]. rewrite Hi. unfold columnOfField. rewrite (filter_single _ _ c) by done. cbn. unfold readsAs in *.
  destruct (existsb _ _); [by rewrite Hv|]. destruct Hv as (values & -> & Hv). exists (holds function c values). split; [done|by eapply means_leaf].
Qed.

(** Induction over a predicate and its children. *)
Lemma predicate_ind (P : Predicate -> Prop) :
  (forall compound function column literals children err, Forall P children ->
    P (MkPredicate compound function column literals children err)) -> forall p, P p.
Proof.
  intros H. fix IH 1. intros [compound function column literals children err]. apply H.
  induction children as [|child children IHc]; constructor; [apply IH|exact IHc].
Qed.

Lemma encode_sound p : forall pb, wfPredicate p = true -> encode (newEncoder s) p = Ok pb ->
  readsAs (hasEmptyBytes p) (evalPb holds s pb) (means holds s p).
Proof.
  induction p as [compound function column literals children err IH] using predicate_ind. intros pb Hw E.
  cbn [wfPredicate] in Hw. apply andb_true_iff in Hw as [Hl Hc]. cbn [encode] in E. destruct err; [done|].
  destruct compound; cbn [negb] in E; [|by eapply encodeLeaf_sound].
  assert (Hne : children <> []) by (by intros ->).
  assert (E' : (encoded ← mapM (encode (newEncoder s)) children; Ok (PbCompound function encoded)) = Ok pb) by (by destruct children).
  clear E. apply bind_Ok in E' as (encoded & Ee & E). injection E as <-.
  enough (Hb : readsAs (existsb hasEmptyBytes children) (mapM (evalPb holds s) encoded) (Forall2 (means holds s) children)).
  { cbn [evalPb hasEmptyBytes]. unfold readsAs in *. destruct (existsb _ _); [by rewrite Hb|]. destruct Hb as (bs & -> & Hb).
    exists (combined function bs). split; [done|by apply means_compound]. }
  clear Hne. revert encoded Ee. induction IH as [|child children Hchild IH' IHc]; intros encoded Ee; cbn in Ee.
  - injection Ee as <-. by exists [].
  - cbn in Hc. apply andb_true_iff in Hc as [Hw Hc]. apply bind_Ok in Ee as (p & Ep & Ee). apply bind_Ok in Ee as (rest & Er & Ee). injection Ee as <-.
    apply (readsAs_cons (evalPb holds s) p rest _ _ (means holds s child) (Forall2 (means holds s) children));
      [by apply Hchild|by apply IHc|by constructor].
Qed.

End Sound.

(** ** Properties *)

(** C16: A compiled filter means what the caller wrote.  Whatever the comparison functions decide
    about values, the message [compilePredicate] builds, read by field id and by the value field
    its literal type names, evaluates for every row to what the predicate means: each leaf is
    about the column it names, each literal is the same number, time, string or bytes as the
    caller's, and the compounds are conjunctions and disjunctions.  The filters excepted are
    exactly those that compare with the empty byte string ([hasEmptyBytes]), whose literal is sent
    without its value: they compile to a message that cannot be read. *)
Theorem predicate_compile_sound (holds : Z -> Column -> list GoValue -> bool) (s : Schema) (p : Predicate) (pb : PbPredicate) :
  Forall (fun c => col_ID c < 2 ^ 31) (sch_Columns s) -> wfPredicate p = true -> compilePredicate p s = Ok pb ->
  (hasEmptyBytes p = false -> exists b, evalPb holds s pb = Some b /\ means holds s p b) /\
  (hasEmptyBytes p = true -> evalPb holds s pb = None).
Proof.
  intros H Hw E. pose proof (encode_sound holds s H p pb Hw E) as R. unfold readsAs in R. by split; intros Hb; rewrite Hb in R.
Qed.

Lemma mapM_returns {A B} (f : A -> outcome B) l : Forall (fun x => returns (f x) = true) l -> returns (mapM f l) = true.
Proof. induction 1 as [|x l Hx _ IH]; cbn; [done|]. apply bind_returns; [done|]. intros ? _. by apply bind_returns. Qed.

Lemma integerLiteral_returns l kind : returns (integerLiteral l kind) = true.
Proof. unfold integerLiteral. repeat case_match; done. Qed.

Lemma encodeTemporal_returns l kind logical literal : returns (encodeTemporalLiteral l kind logical literal) = true.
Proof.
  unfold encodeTemporalLiteral, setDateLiteral, setTimeLiteral, setTimestampLiteral, timestampGranularity.
  repeat case_match; try done; cbn; repeat case_match; done.
Qed.

Lemma encodeLiteral_returns l code kind logical : returns (encodeLiteral l code kind logical) = true.
Proof.
  assert (Hi : returns (setIntegerLiteral l kind (emptyLiteral code false)) = true) by (apply bind_returns; [apply integerLiteral_returns|done]).
  assert (Hf : forall w, returns (floatLiteral l w) = true).
  { intros w. unfold floatLiteral. pose proof (integerLiteral_returns l BigIntType). repeat case_match; done. }
  assert (Hr : returns (literalRat l) = true).
  { unfold literalRat. pose proof (integerLiteral_returns l BigIntType). repeat case_match; done. }
  unfold encodeLiteral. destruct (isNilLiteral l) eqn:En; [done|]. destruct kind; cbn; try done;
    try (unfold setBoolLiteral, setStringLiteral, setBinaryLiteral; repeat case_match; done); try (apply bind_returns; [apply Hf|done]); try apply encodeTemporal_returns.
  apply bind_returns; [done|]. intros q _. apply bind_returns; [unfold decimalUnscaled; repeat case_match; done|done].
Qed.

Lemma checkSingle_returns literals : returns (checkSingleLiteral literals) = true.
Proof.
  unfold checkSingleLiteral. apply bind_returns; [apply check_returns|]. intros u Hu%check_Ok. apply bind_returns; [|intros; apply check_returns].
  destruct literals as [|l literals]; [done|]. unfold index. done.
Qed.

Lemma encodeLeaf_returns e function column literals : returns (encodeLeaf e function column literals) = true.
Proof.
  unfold encodeLeaf. destruct (_ && _); [done|]. destruct (_ !! _) as [c|]; [|done]. apply bind_returns; [apply check_returns|]. intros _ _.
  destruct (predicateLiteralType _) as [code|]; [|done]. apply bind_returns.
  - unfold checkLeafShape. repeat case_match; try apply check_returns; [|apply checkSingle_returns].
    apply bind_returns; [apply check_returns|intros; apply checkSingle_returns].
  - intros _ _. apply bind_returns; [|done]. induction literals as [|l literals IH]; cbn; [done|]. apply bind_returns; [rewrite rewrap_returns; apply encodeLiteral_returns|].
    intros ? _. by apply bind_returns.
Qed.

(** Compiling a filter never panics, whatever predicate and schema it is given, validated or
    not; and the zero [Predicate] and empty conjunctions and disjunctions are refused. *)
Theorem predicate_compile_returns (s : Schema) (p : Predicate) :
  returns (compilePredicate p s) = true /\
  compilePredicate (MkPredicate false 0 "" [] [] None) s = Err ErrInvalidConfig /\
  compilePredicate (And []) s = Err ErrInvalidConfig /\ compilePredicate (Or []) s = Err ErrInvalidConfig.
Proof.
  split; [|by repeat split]. unfold compilePredicate. induction p as [compound function column literals children err IH] using predicate_ind.
  cbn [encode]. destruct err; [done|]. destruct compound; cbn [negb]; [|apply encodeLeaf_returns].
  destruct children as [|c children]; [done|]. apply bind_returns; [|done]. by apply mapM_returns.
Qed.

(** ** Examples *)

Definition filterSchema : Schema :=
  MkSchema [MkColumn "id" IntType false None "" 0; MkColumn "name" StringType true None "" 1;
            MkColumn "price" DecimalType true (Some (MkLogicalType "DECIMAL" true 0 10 2 None None None [])) "" 2;
            MkColumn "ratio" FloatType true None "" 3;
            MkColumn "day" DateType true (Some (MkLogicalType "DATE" true 0 0 0 None None None [])) "" 5]
    [] [] [] [] 5.

Definition sampleFilter : Predicate :=
  And [Or [Ge "id" (LitInt 7); IsNull "name"]; Lt "price" (LitValue (VRat (25 # 2)));
       In_ "day" [LitValue (VTime (MkTime (19723 * 86400) 0 0)); LitValue VNil]; Ne "ratio" (LitValue (VFloat64 4602678819172646912))].

Lemma predicate_compile_sound_witness :
  exists pb b, compilePredicate sampleFilter filterSchema = Ok pb /\ evalPb (fun _ _ _ => true) filterSchema pb = Some b /\
    means (fun _ _ _ => true) filterSchema sampleFilter b.
Proof.
  destruct (compilePredicate sampleFilter filterSchema) as [pb| | |] eqn:E; [|vm_compute in E; discriminate..].
  destruct (predicate_compile_sound (fun _ _ _ => true) filterSchema sampleFilter pb) as [Hread _];
    [repeat constructor|vm_compute; reflexivity|exact E|]. destruct (Hread eq_refl) as (b & Eb & Hb). exists pb, b. split; [reflexivity|]. split; [exact Eb|exact Hb].
Defined.

(** A FLOAT column takes 0.5, not 0.1; a TINYINT column takes 127, not 128. *)
Example filter_literals :
  (floatLiteral (LitValue (VFloat64 4602678819172646912)) 24 = Ok 4602678819172646912 /\
   returns (floatLiteral (LitValue (VFloat64 4591870180066957722)) 24) = true /\
   floatLiteral (LitValue (VFloat64 4591870180066957722)) 24 <> Ok 4591870180066957722 /\
   integerLiteral (LitInt 127) TinyIntType = Ok 127 /\ integerLiteral (LitInt 128) TinyIntType = literalOverflow).
Proof. vm_compute. repeat split; discriminate. Qed.

(** A comparison with the empty byte string compiles to an equality without a value. *)
Example empty_bytes_without_value : forall holds,
  let s := MkSchema [MkColumn "data" BytesType true None "" 0] [] [] [] [] 0 in
  let pb := PbLeaf leafEqual 0 [MkPbLiteral 15 false None None None None None None None None None None None] in
  compilePredicate (Eq "data" (LitValue (VBytes []))) s = Ok pb /\ evalPb holds s pb = None.
Proof. by intros. Qed.
