(* ===== verification/Errors.v ===== *)
(** * Server errors and their classification

    Models [pkg/fgo/errors.go], [shouldReplaceConnection] of [pkg/fgo/client.go] and the
    error table of [pkg/fmsg/api_keys_gen.go]: which failures a client may retry. *)

From S2P Require Import Prelude.

(** ** Protocol codes *)

Definition ErrorCodeNone : Z := 0.
Definition ErrorCodeNetworkException : Z := 1.
Definition ErrorCodeLogStorageException : Z := 10.
Definition ErrorCodeKvStorageException : Z := 11.
Definition ErrorCodeNotLeaderOrFollower : Z := 12.
Definition ErrorCodeRecordTooLargeException : Z := 13.
Definition ErrorCodeCorruptRecordException : Z := 14.
Definition ErrorCodeUnknownTableOrBucketException : Z := 21.
Definition ErrorCodeInvalidCoordinatorException : Z := 23.
Definition ErrorCodeFencedLeaderEpochException : Z := 24.
Definition ErrorCodeRequestTimeOut : Z := 25.
Definition ErrorCodeStorageException : Z := 26.
Definition ErrorCodeOperationNotAttemptedException : Z := 27.
Definition ErrorCodeNotEnoughReplicasAfterAppendException : Z := 28.
Definition ErrorCodeNotEnoughReplicasException : Z := 29.
Definition ErrorCodeSecurityTokenException : Z := 30.
Definition ErrorCodeOutOfOrderSequenceException : Z := 31.
Definition ErrorCodeDuplicateSequenceException : Z := 32.
Definition ErrorCodeUnknownWriterIdException : Z := 33.
Definition ErrorCodePartitionNotExists : Z := 36.
Definition ErrorCodeLeaderNotAvailableException : Z := 44.
Definition ErrorCodeAuthenticateException : Z := 46.
Definition ErrorCodeSecurityDisabledException : Z := 47.
Definition ErrorCodeAuthorizationException : Z := 48.
Definition ErrorCodeRetriableAuthenticateException : Z := 51.
Definition ErrorCodeIneligibleReplicaException : Z := 55.
Definition ErrorCodeServerNotExistException : Z := 58.
Definition ErrorCodeNotCoordinatorLeaderException : Z := 65.
Definition ErrorCodeDiskWriteLocked : Z := 70.
Definition ErrorCodeStorageBackpressureException : Z := 72.
Definition ErrorCodeInvalidBucketRouting : Z := 74.

(** [generatedErrors]: every code the client knows, with its name. *)
Definition generatedErrors : list (Z * string) :=
  [((-1), "UNKNOWN_SERVER_ERROR"); (0, "NONE"); (1, "NETWORK_EXCEPTION");
   (2, "UNSUPPORTED_VERSION"); (3, "CORRUPT_MESSAGE"); (4, "DATABASE_NOT_EXIST");
   (5, "DATABASE_NOT_EMPTY"); (6, "DATABASE_ALREADY_EXIST"); (7, "TABLE_NOT_EXIST");
   (8, "TABLE_ALREADY_EXIST"); (9, "SCHEMA_NOT_EXIST"); (10, "LOG_STORAGE_EXCEPTION");
   (11, "KV_STORAGE_EXCEPTION"); (12, "NOT_LEADER_OR_FOLLOWER");
   (13, "RECORD_TOO_LARGE_EXCEPTION"); (14, "CORRUPT_RECORD_EXCEPTION");
   (15, "INVALID_TABLE_EXCEPTION"); (16, "INVALID_DATABASE_EXCEPTION");
   (17, "INVALID_REPLICATION_FACTOR"); (18, "INVALID_REQUIRED_ACKS");
   (19, "LOG_OFFSET_OUT_OF_RANGE_EXCEPTION"); (20, "NON_PRIMARY_KEY_TABLE_EXCEPTION");
   (21, "UNKNOWN_TABLE_OR_BUCKET_EXCEPTION"); (22, "INVALID_UPDATE_VERSION_EXCEPTION");
   (23, "INVALID_COORDINATOR_EXCEPTION"); (24, "FENCED_LEADER_EPOCH_EXCEPTION");
   (25, "REQUEST_TIME_OUT"); (26, "STORAGE_EXCEPTION");
   (27, "OPERATION_NOT_ATTEMPTED_EXCEPTION");
   (28, "NOT_ENOUGH_REPLICAS_AFTER_APPEND_EXCEPTION"); (29, "NOT_ENOUGH_REPLICAS_EXCEPTION");
   (30, "SECURITY_TOKEN_EXCEPTION"); (31, "OUT_OF_ORDER_SEQUENCE_EXCEPTION");
   (32, "DUPLICATE_SEQUENCE_EXCEPTION"); (33, "UNKNOWN_WRITER_ID_EXCEPTION");
   (34, "INVALID_COLUMN_PROJECTION"); (35, "INVALID_TARGET_COLUMN");
   (36, "PARTITION_NOT_EXISTS"); (37, "TABLE_NOT_PARTITIONED_EXCEPTION");
   (38, "INVALID_TIMESTAMP_EXCEPTION"); (39, "INVALID_CONFIG_EXCEPTION");
   (40, "LAKE_STORAGE_NOT_CONFIGURED_EXCEPTION"); (41, "KV_SNAPSHOT_NOT_EXIST");
   (42, "PARTITION_ALREADY_EXISTS"); (43, "PARTITION_SPEC_INVALID_EXCEPTION");
   (44, "LEADER_NOT_AVAILABLE_EXCEPTION"); (45, "PARTITION_MAX_NUM_EXCEPTION");
   (46, "AUTHENTICATE_EXCEPTION"); (47, "SECURITY_DISABLED_EXCEPTION");
   (48, "AUTHORIZATION_EXCEPTION"); (49, "BUCKET_MAX_NUM_EXCEPTION");
   (50, "FENCED_TIERING_EPOCH_EXCEPTION"); (51, "RETRIABLE_AUTHENTICATE_EXCEPTION");
   (52, "INVALID_SERVER_RACK_INFO_EXCEPTION"); (53, "LAKE_SNAPSHOT_NOT_EXIST");
   (54, "LAKE_TABLE_ALREADY_EXIST"); (55, "INELIGIBLE_REPLICA_EXCEPTION");
   (56, "INVALID_ALTER_TABLE_EXCEPTION"); (57, "DELETION_DISABLED_EXCEPTION");
   (58, "SERVER_NOT_EXIST_EXCEPTION"); (59, "SEVER_TAG_ALREADY_EXIST_EXCEPTION");
   (60, "SEVER_TAG_NOT_EXIST_EXCEPTION"); (61, "REBALANCE_FAILURE_EXCEPTION");
   (62, "NO_REBALANCE_IN_PROGRESS_EXCEPTION"); (63, "INVALID_PRODUCER_ID_EXCEPTION");
   (64, "CONFIG_EXCEPTION"); (65, "NOT_COORDINATOR_LEADER_EXCEPTION"); (66, "SCANNER_EXPIRED");
   (67, "UNKNOWN_SCANNER_ID"); (68, "INVALID_SCAN_REQUEST"); (69, "TOO_MANY_SCANNERS");
   (70, "DISK_WRITE_LOCKED"); (71, "INSUFFICIENT_KV_LEADER_REPLICA_CAPACITY");
   (72, "STORAGE_BACKPRESSURE_EXCEPTION"); (73, "HISTORICAL_PARTITION_THROTTLED");
   (74, "INVALID_BUCKET_ROUTING")]%string.

Definition LookupErrorCode (code : Z) : option (Z * string) :=
  find (fun entry => entry.1 =? code) generatedErrors.

(** ** Classification *)

Inductive category :=
| CatAuthentication | CatAuthorization | CatUnknownPartition | CatMetadata | CatTimeout
| CatStorage | CatSequence | CatRecord | CatValidation.

#[export] Instance category_eq_dec : EqDecision category.
Proof. solve_decision. Defined.

Definition oneOf (code : Z) (codes : list Z) : bool := existsb (Z.eqb code) codes.

Definition errorCategory (code : Z) : category :=
  if oneOf code [ErrorCodeAuthenticateException; ErrorCodeRetriableAuthenticateException]
  then CatAuthentication
  else if oneOf code [ErrorCodeAuthorizationException; ErrorCodeSecurityDisabledException;
                      ErrorCodeSecurityTokenException] then CatAuthorization
  else if oneOf code [ErrorCodePartitionNotExists] then CatUnknownPartition
  else if oneOf code [ErrorCodeNotLeaderOrFollower; ErrorCodeUnknownTableOrBucketException;
                      ErrorCodeInvalidCoordinatorException; ErrorCodeFencedLeaderEpochException;
                      ErrorCodeLeaderNotAvailableException; ErrorCodeServerNotExistException;
                      ErrorCodeNotCoordinatorLeaderException; ErrorCodeInvalidBucketRouting]
  then CatMetadata
  else if oneOf code [ErrorCodeRequestTimeOut; ErrorCodeNetworkException] then CatTimeout
  else if oneOf code [ErrorCodeLogStorageException; ErrorCodeKvStorageException;
                      ErrorCodeStorageException; ErrorCodeDiskWriteLocked;
                      ErrorCodeStorageBackpressureException] then CatStorage
  else if oneOf code [ErrorCodeOutOfOrderSequenceException; ErrorCodeDuplicateSequenceException;
                      ErrorCodeUnknownWriterIdException] then CatSequence
  else if oneOf code [ErrorCodeRecordTooLargeException; ErrorCodeCorruptRecordException]
  then CatRecord
  else CatValidation.

Definition retriableErrorCode (code : Z) : bool :=
  oneOf code
    [ErrorCodeNetworkException; ErrorCodeNotLeaderOrFollower; ErrorCodeInvalidCoordinatorException;
     ErrorCodeRequestTimeOut; ErrorCodeOperationNotAttemptedException;
     ErrorCodeNotEnoughReplicasAfterAppendException; ErrorCodeNotEnoughReplicasException;
     ErrorCodeLeaderNotAvailableException; ErrorCodeRetriableAuthenticateException;
     ErrorCodeIneligibleReplicaException; ErrorCodeNotCoordinatorLeaderException;
     ErrorCodeInvalidBucketRouting; ErrorCodeDiskWriteLocked; ErrorCodeStorageBackpressureException].

Record ServerError := MkServerError {
  se_Code : Z;
  se_Name : string;
  se_Message : string;
  se_API : Z;
  se_Endpoint : string;
  se_Retriable : bool;
  se_category : category;
}.

#[export] Instance ServerError_eq_dec : EqDecision ServerError.
Proof. solve_decision. Defined.

Definition newServerError (code : Z) (message : string) (api : Z) (endpoint : string) : ServerError :=
  let '(name, typedCode, known) :=
    match LookupErrorCode code with
    | Some (typedCode, name) => (name, typedCode, true)
    | None => ("UNKNOWN_FUTURE_ERROR"%string, code, false)
    end in
  MkServerError typedCode name message api endpoint (known && retriableErrorCode typedCode)
    (errorCategory typedCode).

(** [responseServerError]: an error field embedded in a successful response. *)
Definition responseServerError (code : Z) (message : string) (api : Z) : option ServerError :=
  if code =? ErrorCodeNone then None else Some (newServerError code message api "").

(** ** Errors of a call

    The distinctions [errors.Is] and [errors.As] make: a server error, the four ways a
    connection is gone, a cancelled or expired context, another network error, and the rest. *)
Inductive callError :=
| ServerErr (e : ServerError)
| ClientClosed | TransportClosed | EOF | ClosedPipe
| ContextCanceled | DeadlineExceeded
| NetError
| Plain (e : goerror).

#[export] Instance callError_eq_dec : EqDecision callError.
Proof. solve_decision. Defined.

(** [context.DeadlineExceeded] is itself a [net.Error]; the order of the tests keeps it out. *)
Definition shouldReplaceConnection (err : option callError) : bool :=
  match err with
  | Some (ClientClosed | TransportClosed | EOF | ClosedPipe) => true
  | Some (ContextCanceled | DeadlineExceeded) => false
  | Some NetError => true
  | _ => false
  end.

(** [serverError] on the envelope of a transport failure. *)
Inductive transportError := Remote (code : Z) (message : string) | Failed (e : callError).

Definition serverError (err : transportError) (api : Z) (endpoint : string) : callError :=
  match err with
  | Remote code message => ServerErr (newServerError code message api endpoint)
  | Failed e => e
  end.

(** ** Theorems *)

Lemma LookupErrorCode_known code :
  LookupErrorCode code <> None <-> -1 <= code <= 74.
Proof.
  split.
  - unfold LookupErrorCode. intros H. destruct (find _ _) as [[c n]|] eqn:E; [|done].
    apply find_some in E as [Hin Heq]. cbn in Heq. apply Z.eqb_eq in Heq. subst c.
    assert (Hall : forallb (fun e => (-1 <=? e.1) && (e.1 <=? 74)) generatedErrors = true)
      by (vm_compute; reflexivity).
    rewrite forallb_forall in Hall. specialize (Hall _ Hin). cbn in Hall. lia.
  - intros H. assert (Hall : forallb (fun c => bool_decide (LookupErrorCode c <> None)) (seqZ (-1) 76) = true)
      by (vm_compute; reflexivity).
    rewrite forallb_forall in Hall. apply (bool_decide_eq_true_1 _), Hall, list_elem_of_In, elem_of_seqZ. lia.
Qed.

(** An error code the client does not know is kept as it is, named
    UNKNOWN_FUTURE_ERROR and never retriable; a known code keeps its number, and is
    retriable only if [retriableErrorCode] lists it. *)
Theorem unknown_error_codes (code api : Z) (message endpoint : string) :
  se_Code (newServerError code message api endpoint) = code /\
  (~ -1 <= code <= 74 ->
     se_Retriable (newServerError code message api endpoint) = false /\
     se_Name (newServerError code message api endpoint) = "UNKNOWN_FUTURE_ERROR"%string) /\
  (se_Retriable (newServerError code message api endpoint) = true -> retriableErrorCode code = true).
Proof.
  unfold newServerError. pose proof (LookupErrorCode_known code) as Hk.
  destruct (LookupErrorCode code) as [[c name]|] eqn:E; cbn.
  - assert (c = code) as ->.
    { unfold LookupErrorCode in E. apply find_some in E as [_ Heq]. cbn in Heq. lia. }
    split; [done|]. split; [|done]. intros H. exfalso. apply H. apply Hk. congruence.
  - done.
Qed.

Lemma unknown_error_codes_witness :
  se_Retriable (newServerError 999 "later" 0 "host:1") = false.
Proof.
  destruct (unknown_error_codes 999 0 "later" "host:1") as (_ & H & _).
  apply H. lia.
Defined.

(** A duplicate-sequence error, which a writer reads as success, is itself not retriable. *)
Lemma duplicate_not_retriable : retriableErrorCode ErrorCodeDuplicateSequenceException = false.
Proof. reflexivity. Qed.
