(* ===== verification/Protocol.v ===== *)
(** * The protocol: APIs, versions, requests and responses

    Models [pkg/fmsg/protocol.go], the API tables of [pkg/fmsg/api_keys_gen.go], and
    [negotiate] of [pkg/fgo/client.go]: which operations a client may name, at which wire
    versions, and how a connection finds the versions both sides know.

    The messages themselves are protobuf: the generated Go types, [proto.Marshal] and
    [proto.Unmarshal] are parameters ([Proto], [emptyMessage], [marshal], [unmarshal]).  A request
    or response is a pointer that may be nil. *)

From S2P Require Import Prelude.

(** ** API keys *)

(** [APIMetadata]. *)
Record APIMetadata := MkAPI {
  api_Key : Z;
  api_Name : string;
  api_MinVersion : Z;
  api_MaxVersion : Z;
  api_Public : bool;
  api_RequestName : string;
  api_ResponseName : string;
}.

#[export] Instance APIMetadata_eq_dec : EqDecision APIMetadata.
Proof. solve_decision. Defined.

Definition APIKeyApiVersions : Z := 1000.
Definition APIKeyGetTableInfo : Z := 1007.
Definition APIKeyListTables : Z := 1008.
Definition APIKeyListDatabases : Z := 1003.
Definition APIKeyDatabaseExists : Z := 1004.
Definition APIKeyTableExists : Z := 1010.
Definition APIKeyGetMetadata : Z := 1012.
Definition APIKeyGetTableSchema : Z := 1011.
Definition APIKeyListPartitionInfos : Z := 1009.
Definition APIKeyGetTableStats : Z := 1059.
Definition APIKeyListOffsets : Z := 1021.
Definition APIKeyAuthenticate : Z := 1038.

Definition generatedAPIs : list APIMetadata :=
  [MkAPI 1000 "API_VERSIONS" 0 0 true "ApiVersionsRequest" "ApiVersionsResponse";
   MkAPI 1001 "CREATE_DATABASE" 0 0 true "CreateDatabaseRequest" "CreateDatabaseResponse";
   MkAPI 1002 "DROP_DATABASE" 0 0 true "DropDatabaseRequest" "DropDatabaseResponse";
   MkAPI 1003 "LIST_DATABASES" 0 0 true "ListDatabasesRequest" "ListDatabasesResponse";
   MkAPI 1004 "DATABASE_EXISTS" 0 0 true "DatabaseExistsRequest" "DatabaseExistsResponse";
   MkAPI 1005 "CREATE_TABLE" 0 0 true "CreateTableRequest" "CreateTableResponse";
   MkAPI 1006 "DROP_TABLE" 0 0 true "DropTableRequest" "DropTableResponse";
   MkAPI 1007 "GET_TABLE_INFO" 0 0 true "GetTableInfoRequest" "GetTableInfoResponse";
   MkAPI 1008 "LIST_TABLES" 0 0 true "ListTablesRequest" "ListTablesResponse";
   MkAPI 1009 "LIST_PARTITION_INFOS" 0 0 true "ListPartitionInfosRequest" "ListPartitionInfosResponse";
   MkAPI 1010 "TABLE_EXISTS" 0 0 true "TableExistsRequest" "TableExistsResponse";
   MkAPI 1011 "GET_TABLE_SCHEMA" 0 0 true "GetTableSchemaRequest" "GetTableSchemaResponse";
   MkAPI 1012 "GET_METADATA" 0 0 true "MetadataRequest" "MetadataResponse";
   MkAPI 1013 "UPDATE_METADATA" 0 0 false "UpdateMetadataRequest" "UpdateMetadataResponse";
   MkAPI 1014 "PRODUCE_LOG" 0 1 true "ProduceLogRequest" "ProduceLogResponse";
   MkAPI 1015 "FETCH_LOG" 0 0 true "FetchLogRequest" "FetchLogResponse";
   MkAPI 1016 "PUT_KV" 0 3 true "PutKvRequest" "PutKvResponse";
   MkAPI 1017 "LOOKUP" 0 1 true "LookupRequest" "LookupResponse";
   MkAPI 1018 "NOTIFY_LEADER_AND_ISR" 0 0 false "NotifyLeaderAndIsrRequest" "NotifyLeaderAndIsrResponse";
   MkAPI 1019 "STOP_REPLICA" 0 0 false "StopReplicaRequest" "StopReplicaResponse";
   MkAPI 1020 "ADJUST_ISR" 0 0 false "AdjustIsrRequest" "AdjustIsrResponse";
   MkAPI 1021 "LIST_OFFSETS" 0 0 true "ListOffsetsRequest" "ListOffsetsResponse";
   MkAPI 1022 "COMMIT_KV_SNAPSHOT" 0 0 false "CommitKvSnapshotRequest" "CommitKvSnapshotResponse";
   MkAPI 1023 "GET_LATEST_KV_SNAPSHOTS" 0 0 true "GetLatestKvSnapshotsRequest" "GetLatestKvSnapshotsResponse";
   MkAPI 1024 "GET_KV_SNAPSHOT_METADATA" 0 1 true "GetKvSnapshotMetadataRequest" "GetKvSnapshotMetadataResponse";
   MkAPI 1025 "GET_FILESYSTEM_SECURITY_TOKEN" 0 0 true "GetFileSystemSecurityTokenRequest" "GetFileSystemSecurityTokenResponse";
   MkAPI 1026 "INIT_WRITER" 0 0 true "InitWriterRequest" "InitWriterResponse";
   MkAPI 1027 "COMMIT_REMOTE_LOG_MANIFEST" 0 0 false "CommitRemoteLogManifestRequest" "CommitRemoteLogManifestResponse";
   MkAPI 1028 "NOTIFY_REMOTE_LOG_OFFSETS" 0 0 false "NotifyRemoteLogOffsetsRequest" "NotifyRemoteLogOffsetsResponse";
   MkAPI 1029 "NOTIFY_KV_SNAPSHOT_OFFSET" 0 0 false "NotifyKvSnapshotOffsetRequest" "NotifyKvSnapshotOffsetResponse";
   MkAPI 1030 "COMMIT_LAKE_TABLE_SNAPSHOT" 0 0 false "CommitLakeTableSnapshotRequest" "CommitLakeTableSnapshotResponse";
   MkAPI 1031 "NOTIFY_LAKE_TABLE_OFFSET" 0 0 false "NotifyLakeTableOffsetRequest" "NotifyLakeTableOffsetResponse";
   MkAPI 1032 "GET_LAKE_SNAPSHOT" 0 0 true "GetLakeSnapshotRequest" "GetLakeSnapshotResponse";
   MkAPI 1033 "LIMIT_SCAN" 0 0 true "LimitScanRequest" "LimitScanResponse";
   MkAPI 1034 "PREFIX_LOOKUP" 0 1 true "PrefixLookupRequest" "PrefixLookupResponse";
   MkAPI 1035 "GET_DATABASE_INFO" 0 0 true "GetDatabaseInfoRequest" "GetDatabaseInfoResponse";
   MkAPI 1036 "CREATE_PARTITION" 0 0 true "CreatePartitionRequest" "CreatePartitionResponse";
   MkAPI 1037 "DROP_PARTITION" 0 0 true "DropPartitionRequest" "DropPartitionResponse";
   MkAPI 1038 "AUTHENTICATE" 0 0 true "AuthenticateRequest" "AuthenticateResponse";
   MkAPI 1039 "CREATE_ACLS" 0 0 true "CreateAclsRequest" "CreateAclsResponse";
   MkAPI 1040 "LIST_ACLS" 0 0 true "ListAclsRequest" "ListAclsResponse";
   MkAPI 1041 "DROP_ACLS" 0 0 true "DropAclsRequest" "DropAclsResponse";
   MkAPI 1042 "LAKE_TIERING_HEARTBEAT" 0 0 false "LakeTieringHeartbeatRequest" "LakeTieringHeartbeatResponse";
   MkAPI 1043 "CONTROLLED_SHUTDOWN" 0 0 false "ControlledShutdownRequest" "ControlledShutdownResponse";
   MkAPI 1044 "ALTER_TABLE" 0 1 true "AlterTableRequest" "AlterTableResponse";
   MkAPI 1045 "DESCRIBE_CLUSTER_CONFIGS" 0 0 true "DescribeClusterConfigsRequest" "DescribeClusterConfigsResponse";
   MkAPI 1046 "ALTER_CLUSTER_CONFIGS" 0 0 true "AlterClusterConfigsRequest" "AlterClusterConfigsResponse";
   MkAPI 1047 "ADD_SERVER_TAG" 0 0 true "AddServerTagRequest" "AddServerTagResponse";
   MkAPI 1048 "REMOVE_SERVER_TAG" 0 0 true "RemoveServerTagRequest" "RemoveServerTagResponse";
   MkAPI 1049 "REBALANCE" 0 0 true "RebalanceRequest" "RebalanceResponse";
   MkAPI 1050 "LIST_REBALANCE_PROGRESS" 0 0 true "ListRebalanceProgressRequest" "ListRebalanceProgressResponse";
   MkAPI 1051 "CANCEL_REBALANCE" 0 0 true "CancelRebalanceRequest" "CancelRebalanceResponse";
   MkAPI 1052 "PREPARE_LAKE_TABLE_SNAPSHOT" 0 0 false "PrepareLakeTableSnapshotRequest" "PrepareLakeTableSnapshotResponse";
   MkAPI 1053 "REGISTER_PRODUCER_OFFSETS" 0 0 true "RegisterProducerOffsetsRequest" "RegisterProducerOffsetsResponse";
   MkAPI 1054 "GET_PRODUCER_OFFSETS" 0 0 true "GetProducerOffsetsRequest" "GetProducerOffsetsResponse";
   MkAPI 1055 "DELETE_PRODUCER_OFFSETS" 0 0 true "DeleteProducerOffsetsRequest" "DeleteProducerOffsetsResponse";
   MkAPI 1056 "ACQUIRE_KV_SNAPSHOT_LEASE" 0 0 true "AcquireKvSnapshotLeaseRequest" "AcquireKvSnapshotLeaseResponse";
   MkAPI 1057 "RELEASE_KV_SNAPSHOT_LEASE" 0 0 true "ReleaseKvSnapshotLeaseRequest" "ReleaseKvSnapshotLeaseResponse";
   MkAPI 1058 "DROP_KV_SNAPSHOT_LEASE" 0 0 true "DropKvSnapshotLeaseRequest" "DropKvSnapshotLeaseResponse";
   MkAPI 1059 "GET_TABLE_STATS" 0 0 true "GetTableStatsRequest" "GetTableStatsResponse";
   MkAPI 1060 "ALTER_DATABASE" 0 0 true "AlterDatabaseRequest" "AlterDatabaseResponse";
   MkAPI 1061 "SCAN_KV" 0 0 true "ScanKvRequest" "ScanKvResponse";
   MkAPI 1062 "GET_CLUSTER_HEALTH" 0 0 true "GetClusterHealthRequest" "GetClusterHealthResponse";
   MkAPI 1063 "LIST_REMOTE_LOG_MANIFESTS" 0 0 true "ListRemoteLogManifestsRequest" "ListRemoteLogManifestsResponse";
   MkAPI 1064 "LIST_KV_SNAPSHOTS" 0 0 true "ListKvSnapshotsRequest" "ListKvSnapshotsResponse";
   MkAPI 1065 "ADD_SERVER_TAG_BY_RACK" 0 0 true "AddServerTagByRackRequest" "AddServerTagByRackResponse";
   MkAPI 1066 "REMOVE_SERVER_TAG_BY_RACK" 0 0 true "RemoveServerTagByRackRequest" "RemoveServerTagByRackResponse"]%string.

(** [LookupAPIKey] indexes the table by the key less 1000. *)
Definition LookupAPIKey (key : Z) : option APIMetadata :=
  let index := key - 1000 in
  if (index <? 0) || (glen generatedAPIs <=? index) then None else generatedAPIs !! Z.to_nat index.

(** [validateAPI]. *)
Definition validateAPI (key version : Z) (allowPrivate : bool) : outcome APIMetadata :=
  match LookupAPIKey key with
  | None => Err ErrUnknownAPIKey
  | Some api =>
    if negb allowPrivate && negb (api_Public api) then Err ErrPrivateAPI
    else if (version <? api_MinVersion api) || (api_MaxVersion api <? version) then Err ErrUnsupportedVersion
    else Ok api
  end.

(** The cases of [newRequestProto] and [newResponseProto]: the message type of each key. *)
Definition requestProtos : list (Z * string) :=
  [(1000, "ApiVersionsRequest"); (1001, "CreateDatabaseRequest"); (1002, "DropDatabaseRequest");
   (1003, "ListDatabasesRequest"); (1004, "DatabaseExistsRequest"); (1005, "CreateTableRequest");
   (1006, "DropTableRequest"); (1007, "GetTableInfoRequest"); (1008, "ListTablesRequest");
   (1009, "ListPartitionInfosRequest"); (1010, "TableExistsRequest");
   (1011, "GetTableSchemaRequest"); (1012, "MetadataRequest"); (1013, "UpdateMetadataRequest");
   (1014, "ProduceLogRequest"); (1015, "FetchLogRequest"); (1016, "PutKvRequest");
   (1017, "LookupRequest"); (1018, "NotifyLeaderAndIsrRequest"); (1019, "StopReplicaRequest");
   (1020, "AdjustIsrRequest"); (1021, "ListOffsetsRequest"); (1022, "CommitKvSnapshotRequest");
   (1023, "GetLatestKvSnapshotsRequest"); (1024, "GetKvSnapshotMetadataRequest");
   (1025, "GetFileSystemSecurityTokenRequest"); (1026, "InitWriterRequest");
   (1027, "CommitRemoteLogManifestRequest"); (1028, "NotifyRemoteLogOffsetsRequest");
   (1029, "NotifyKvSnapshotOffsetRequest"); (1030, "CommitLakeTableSnapshotRequest");
   (1031, "NotifyLakeTableOffsetRequest"); (1032, "GetLakeSnapshotRequest");
   (1033, "LimitScanRequest"); (1034, "PrefixLookupRequest"); (1035, "GetDatabaseInfoRequest");
   (1036, "CreatePartitionRequest"); (1037, "DropPartitionRequest");
   (1038, "AuthenticateRequest"); (1039, "CreateAclsRequest"); (1040, "ListAclsRequest");
   (1041, "DropAclsRequest"); (1042, "LakeTieringHeartbeatRequest");
   (1043, "ControlledShutdownRequest"); (1044, "AlterTableRequest");
   (1045, "DescribeClusterConfigsRequest"); (1046, "AlterClusterConfigsRequest");
   (1047, "AddServerTagRequest"); (1048, "RemoveServerTagRequest"); (1049, "RebalanceRequest");
   (1050, "ListRebalanceProgressRequest"); (1051, "CancelRebalanceRequest");
   (1052, "PrepareLakeTableSnapshotRequest"); (1053, "RegisterProducerOffsetsRequest");
   (1054, "GetProducerOffsetsRequest"); (1055, "DeleteProducerOffsetsRequest");
   (1056, "AcquireKvSnapshotLeaseRequest"); (1057, "ReleaseKvSnapshotLeaseRequest");
   (1058, "DropKvSnapshotLeaseRequest"); (1059, "GetTableStatsRequest");
   (1060, "AlterDatabaseRequest"); (1061, "ScanKvRequest"); (1062, "GetClusterHealthRequest");
   (1063, "ListRemoteLogManifestsRequest"); (1064, "ListKvSnapshotsRequest");
   (1065, "AddServerTagByRackRequest"); (1066, "RemoveServerTagByRackRequest")]%string.

Definition responseProtos : list (Z * string) :=
  [(1000, "ApiVersionsResponse"); (1001, "CreateDatabaseResponse");
   (1002, "DropDatabaseResponse"); (1003, "ListDatabasesResponse");
   (1004, "DatabaseExistsResponse"); (1005, "CreateTableResponse"); (1006, "DropTableResponse");
   (1007, "GetTableInfoResponse"); (1008, "ListTablesResponse");
   (1009, "ListPartitionInfosResponse"); (1010, "TableExistsResponse");
   (1011, "GetTableSchemaResponse"); (1012, "MetadataResponse");
   (1013, "UpdateMetadataResponse"); (1014, "ProduceLogResponse"); (1015, "FetchLogResponse");
   (1016, "PutKvResponse"); (1017, "LookupResponse"); (1018, "NotifyLeaderAndIsrResponse");
   (1019, "StopReplicaResponse"); (1020, "AdjustIsrResponse"); (1021, "ListOffsetsResponse");
   (1022, "CommitKvSnapshotResponse"); (1023, "GetLatestKvSnapshotsResponse");
   (1024, "GetKvSnapshotMetadataResponse"); (1025, "GetFileSystemSecurityTokenResponse");
   (1026, "InitWriterResponse"); (1027, "CommitRemoteLogManifestResponse");
   (1028, "NotifyRemoteLogOffsetsResponse"); (1029, "NotifyKvSnapshotOffsetResponse");
   (1030, "CommitLakeTableSnapshotResponse"); (1031, "NotifyLakeTableOffsetResponse");
   (1032, "GetLakeSnapshotResponse"); (1033, "LimitScanResponse");
   (1034, "PrefixLookupResponse"); (1035, "GetDatabaseInfoResponse");
   (1036, "CreatePartitionResponse"); (1037, "DropPartitionResponse");
   (1038, "AuthenticateResponse"); (1039, "CreateAclsResponse"); (1040, "ListAclsResponse");
   (1041, "DropAclsResponse"); (1042, "LakeTieringHeartbeatResponse");
   (1043, "ControlledShutdownResponse"); (1044, "AlterTableResponse");
   (1045, "DescribeClusterConfigsResponse"); (1046, "AlterClusterConfigsResponse");
   (1047, "AddServerTagResponse"); (1048, "RemoveServerTagResponse");
   (1049, "RebalanceResponse"); (1050, "ListRebalanceProgressResponse");
   (1051, "CancelRebalanceResponse"); (1052, "PrepareLakeTableSnapshotResponse");
   (1053, "RegisterProducerOffsetsResponse"); (1054, "GetProducerOffsetsResponse");
   (1055, "DeleteProducerOffsetsResponse"); (1056, "AcquireKvSnapshotLeaseResponse");
   (1057, "ReleaseKvSnapshotLeaseResponse"); (1058, "DropKvSnapshotLeaseResponse");
   (1059, "GetTableStatsResponse"); (1060, "AlterDatabaseResponse"); (1061, "ScanKvResponse");
   (1062, "GetClusterHealthResponse"); (1063, "ListRemoteLogManifestsResponse");
   (1064, "ListKvSnapshotsResponse"); (1065, "AddServerTagByRackResponse");
   (1066, "RemoveServerTagByRackResponse")]%string.

Fixpoint protoOf (key : Z) (cases : list (Z * string)) : option string :=
  match cases with
  | [] => None
  | (k, name) :: rest => if key =? k then Some name else protoOf key rest
  end.

(** ** The interfaces of a request and of a response

    [Request] and [Response] of the package, for a connection that knows nothing else of what it
    carries. *)
Class Response (R : Type) := MkResponse {
  Unmarshal : list byte -> R -> R + goerror;
}.

Class Request (Q R : Type) `{Response R} := MkRequest {
  requestKey : Q -> Z;
  requestVersion : Q -> Z;
  SetVersion : Z -> Q -> outcome Q;
  Marshal : Q -> list byte + goerror;
  NewResponse_ : Q -> option R;
}.

Section Messages.
Context {Proto : Type} (emptyMessage : string -> Proto).
Context (marshal : Proto -> option (list byte)) (unmarshal : list byte -> Proto -> option Proto).

Definition newRequestProto (key : Z) : option Proto := emptyMessage <$> protoOf key requestProtos.
Definition newResponseProto (key : Z) : option Proto := emptyMessage <$> protoOf key responseProtos.

(** [MessageRequest] and [MessageResponse]: [None] is a nil message. *)
Record MessageRequest := MkMessageRequest {
  mq_api : APIMetadata;
  mq_version : Z;
  mq_message : option Proto;
}.

Record MessageResponse := MkMessageResponse {
  mr_api : APIMetadata;
  mr_version : Z;
  mr_message : option Proto;
}.

Definition NewRequest (key version : Z) : outcome MessageRequest :=
  api ← validateAPI key version false;
  Ok (MkMessageRequest api version (newRequestProto key)).

Definition NewResponse (key version : Z) : outcome MessageResponse :=
  api ← validateAPI key version true;
  Ok (MkMessageResponse api version (newResponseProto key)).

Definition MessageRequest_APIKey (r : option MessageRequest) : Z :=
  match r with None => 0 | Some r => api_Key (mq_api r) end.

Definition MessageRequest_Version (r : option MessageRequest) : Z :=
  match r with None => 0 | Some r => mq_version r end.

Definition MessageRequest_SetVersion (version : Z) (r : option MessageRequest) : outcome (option MessageRequest) :=
  match r with
  | None => Err ErrInvalidArgument
  | Some r =>
    _ ← validateAPI (api_Key (mq_api r)) version false;
    Ok (Some (MkMessageRequest (mq_api r) version (mq_message r)))
  end.

Definition MessageRequest_Marshal (r : option MessageRequest) : list byte + goerror :=
  match r with
  | Some (MkMessageRequest _ _ (Some message)) =>
    match marshal message with Some body => inl body | None => inr ErrMalformedMessage end
  | _ => inr ErrInvalidArgument
  end.

(** [MessageRequest.NewResponse]: a nil request has no response. *)
Definition MessageRequest_NewResponse (r : option MessageRequest) : option (option MessageResponse) :=
  match r with
  | None => None
  | Some r => Some (Some (MkMessageResponse (mq_api r) (mq_version r) (newResponseProto (api_Key (mq_api r)))))
  end.

Definition MessageResponse_APIKey (r : option MessageResponse) : Z :=
  match r with None => 0 | Some r => api_Key (mr_api r) end.

Definition MessageResponse_Version (r : option MessageResponse) : Z :=
  match r with None => 0 | Some r => mr_version r end.

Definition MessageResponse_Unmarshal (body : list byte) (r : option MessageResponse) : option MessageResponse + goerror :=
  match r with
  | Some (MkMessageResponse api version (Some message)) =>
    match unmarshal body message with
    | Some message' => inl (Some (MkMessageResponse api version (Some message')))
    | None => inr ErrMalformedMessage
    end
  | _ => inr ErrInvalidArgument
  end.

#[export] Instance messageResponse : Response (option MessageResponse) := {
  Unmarshal := MessageResponse_Unmarshal;
}.

#[export] Instance messageRequest : Request (option MessageRequest) (option MessageResponse) := {
  requestKey := MessageRequest_APIKey;
  requestVersion := MessageRequest_Version;
  SetVersion := MessageRequest_SetVersion;
  Marshal := MessageRequest_Marshal;
  NewResponse_ := MessageRequest_NewResponse;
}.

End Messages.

(** ** Negotiation

    [negotiate], from the response on: the entries of [ApiVersionsResponse] are 32-bit integers,
    and a key is truncated to the 16 bits of an [APIKey] before it is looked up.  A later entry of
    a key replaces an earlier one. *)
Record advertised := MkAdvertised { ad_ApiKey : Z; ad_MinVersion : Z; ad_MaxVersion : Z }.

Definition min (left_ right_ : Z) : Z := if left_ <? right_ then left_ else right_.

Definition negotiateEntry (server : advertised) (negotiated : gmap Z Z) : gmap Z Z :=
  match LookupAPIKey (int16 (ad_ApiKey server)) with
  | None => negotiated
  | Some api =>
    if (ad_MaxVersion server <? api_MinVersion api) || (api_MaxVersion api <? ad_MinVersion server) then negotiated
    else <[api_Key api := int16 (min (api_MaxVersion api) (ad_MaxVersion server))]> negotiated
  end.

Fixpoint negotiateLoop (versions : list advertised) (negotiated : gmap Z Z) : gmap Z Z :=
  match versions with
  | [] => negotiated
  | server :: rest => negotiateLoop rest (negotiateEntry server negotiated)
  end.

Definition negotiate (versions : list advertised) : outcome (gmap Z Z) :=
  let negotiated := negotiateLoop versions ∅ in
  match negotiated !! APIKeyApiVersions with
  | None => Err ErrUnsupportedAPI
  | Some _ => Ok negotiated
  end.

(** ** The tables *)

Lemma forallb_lookup {A} (f : A -> bool) l i a : forallb f l = true -> l !! i = Some a -> f a = true.
Proof. intros Hf Hl. rewrite forallb_forall in Hf. apply Hf, list_elem_of_In. by eapply list_elem_of_lookup_2. Qed.

(** What every row of the table must say. *)
Definition rowOK (api : APIMetadata) : bool :=
  bool_decide (LookupAPIKey (api_Key api) = Some api)
  && bool_decide (protoOf (api_Key api) requestProtos = Some (api_RequestName api))
  && bool_decide (protoOf (api_Key api) responseProtos = Some (api_ResponseName api))
  && (0 <=? api_MinVersion api) && (api_MinVersion api <=? api_MaxVersion api) && (api_MaxVersion api <? 2 ^ 15)
  && (1000 <=? api_Key api) && (api_Key api <? 2 ^ 15).

Lemma rows_ok : forallb rowOK generatedAPIs = true.
Proof. vm_compute. reflexivity. Qed.

Lemma LookupAPIKey_row key api : LookupAPIKey key = Some api -> rowOK api = true /\ api_Key api = key.
Proof.
  unfold LookupAPIKey. destruct (_ || _) eqn:E; [done|]. intros Hl. split; [by eapply (forallb_lookup _ _ _ _ rows_ok)|].
  assert (P : forallb (fun i => bool_decide ((api_Key <$> generatedAPIs !! i) = Some (1000 + Z.of_nat i)))
                (seq 0 (length generatedAPIs)) = true) by (vm_compute; reflexivity).
  assert (L : (Z.to_nat (key - 1000) < length generatedAPIs)%nat) by (by apply lookup_lt_Some in Hl).
  rewrite forallb_forall in P. specialize (P (Z.to_nat (key - 1000))). rewrite in_seq in P.
  specialize (P ltac:(lia)). apply bool_decide_eq_true_1 in P. rewrite Hl in P. cbn in P. injection P as P. lia.
Qed.

Lemma rowOK_inv api : rowOK api = true ->
  protoOf (api_Key api) requestProtos = Some (api_RequestName api) /\
  protoOf (api_Key api) responseProtos = Some (api_ResponseName api) /\
  0 <= api_MinVersion api <= api_MaxVersion api /\ api_MaxVersion api < 2 ^ 15 /\ 1000 <= api_Key api < 2 ^ 15.
Proof.
  unfold rowOK. rewrite !andb_true_iff, !bool_decide_eq_true. intros [[[[[[[H1 H2] H3] H4] H5] H6] H7] H8].
  repeat split; try done; lia.
Qed.

(** A request the client builds names an operation of the protocol's public part, at a version
    of its range, and carries the message of its key; so does its response. *)
Theorem new_request_valid {Proto} (emptyMessage : string -> Proto) key version q :
  NewRequest emptyMessage key version = Ok q ->
  MessageRequest_APIKey (Some q) = key /\ MessageRequest_Version (Some q) = version /\
  api_Public (mq_api q) = true /\ api_MinVersion (mq_api q) <= version <= api_MaxVersion (mq_api q) /\
  mq_message q = Some (emptyMessage (api_RequestName (mq_api q))) /\
  NewResponse emptyMessage key version = Ok (MkMessageResponse (mq_api q) version (Some (emptyMessage (api_ResponseName (mq_api q))))) /\
  MessageRequest_NewResponse emptyMessage (Some q) =
    Some (Some (MkMessageResponse (mq_api q) version (Some (emptyMessage (api_ResponseName (mq_api q)))))).
Proof.
  unfold NewRequest, NewResponse, validateAPI. destruct (LookupAPIKey key) as [api|] eqn:E; [|done]. cbn [negb andb].
  apply LookupAPIKey_row in E as [R <-]. apply rowOK_inv in R as (R1 & R2 & R3 & _).
  destruct (api_Public api) eqn:Hp; [|done]. cbn [negb andb].
  destruct (_ || _) eqn:Ev; [done|]. intros [= <-]. cbn -[requestProtos responseProtos].
  unfold newRequestProto, newResponseProto. rewrite R1, R2. repeat split; try done; lia.
Qed.

Lemma new_request_valid_witness :
  exists q, NewRequest (fun name => name) 1014 1 = Ok q /\ mq_message q = Some "ProduceLogRequest"%string /\
    api_MaxVersion (mq_api q) = 1.
Proof.
  eexists. split; [vm_compute; reflexivity|].
  destruct (new_request_valid (fun name => name) 1014 1 _ ltac:(vm_compute; reflexivity)) as (_ & _ & _ & _ & Hm & _).
  split; [rewrite Hm; vm_compute; reflexivity|vm_compute; reflexivity].
Defined.

(** ** Negotiated versions *)

(** The versions that both the client and an entry of the server know. *)
Definition common (api : APIMetadata) (server : advertised) (v : Z) : Prop :=
  api_MinVersion api <= v <= api_MaxVersion api /\ ad_MinVersion server <= v <= ad_MaxVersion server.

(** An entry decides its key to a version: the highest that both know, if the entry is a range. *)
Definition decides (server : advertised) (key v : Z) : Prop :=
  exists api, LookupAPIKey (int16 (ad_ApiKey server)) = Some api /\ api_Key api = key /\
    api_MinVersion api <= v <= api_MaxVersion api /\ v <= ad_MaxVersion server /\
    (ad_MinVersion server <= ad_MaxVersion server ->
      common api server v /\ forall v', common api server v' -> v' <= v).

Lemma min_spec a b : min a b = Z.min a b.
Proof. unfold min. destruct (a <? b) eqn:E; lia. Qed.

Lemma negotiateEntry_lookup server m key v :
  negotiateEntry server m !! key = Some v -> decides server key v \/ m !! key = Some v.
Proof.
  unfold negotiateEntry. destruct (LookupAPIKey _) as [api|] eqn:E; [|by right].
  destruct (_ || _) eqn:Eo; [by right|]. intros Hl. apply lookup_insert_Some in Hl as [[<- <-]|[_ Hl]]; [|by right].
  left. exists api. pose proof (LookupAPIKey_row _ _ E) as [R _]. apply rowOK_inv in R as (_ & _ & R & R' & _).
  assert (int16 (min (api_MaxVersion api) (ad_MaxVersion server)) = min (api_MaxVersion api) (ad_MaxVersion server)) as ->.
  { apply swrap_small; [done|]. change (2 ^ 15) with 32768 in *. unfold srange. change (2 ^ (16 - 1)) with 32768.
    pose proof (min_spec (api_MaxVersion api) (ad_MaxVersion server)). lia. }
  pose proof (min_spec (api_MaxVersion api) (ad_MaxVersion server)). unfold common. repeat split; try done; try lia; intros; lia.
Qed.

Lemma negotiateLoop_lookup versions m key v :
  negotiateLoop versions m !! key = Some v -> (exists server, server ∈ versions /\ decides server key v) \/ m !! key = Some v.
Proof.
  revert m. induction versions as [|server rest IH]; intros m; cbn; [by right|]. intros Hl. apply IH in Hl as [(s & Hs & Hd)|Hl].
  - left. exists s. split; [by right|done].
  - apply negotiateEntry_lookup in Hl as [Hd|Hl]; [|by right]. left. exists server. split; [by left|done].
Qed.

Lemma negotiateEntry_keeps server m key : is_Some (m !! key) -> is_Some (negotiateEntry server m !! key).
Proof.
  intros Hm. unfold negotiateEntry. destruct (LookupAPIKey _); [|done]. destruct (_ || _); [done|]. by apply lookup_insert_is_Some'; right.
Qed.

Lemma negotiateLoop_keeps versions m key : is_Some (m !! key) -> is_Some (negotiateLoop versions m !! key).
Proof. revert m. induction versions as [|server rest IH]; intros m Hm; cbn; [done|]. by apply IH, negotiateEntry_keeps. Qed.

Lemma negotiateLoop_complete versions m server api v :
  server ∈ versions -> LookupAPIKey (int16 (ad_ApiKey server)) = Some api -> common api server v ->
  is_Some (negotiateLoop versions m !! api_Key api).
Proof.
  revert m. induction versions as [|s rest IH]; intros m Hin Hl Hc; [by apply not_elem_of_nil in Hin|].
  apply elem_of_cons in Hin as [<-|Hin]; [|by apply IH]. cbn. apply negotiateLoop_keeps.
  unfold negotiateEntry. rewrite Hl. unfold common in Hc. if_false. apply lookup_insert_is_Some'. by left.
Qed.

(** Negotiation is sound and complete.  A connection is accepted only if the server serves
    API_VERSIONS; every version it keeps is decided by an entry of the server's answer: it lies in
    the client's range and, if the entry is a range, it is the highest version both sides know.  A
    request for the operation takes that version exactly when the operation is public.  Conversely
    an operation with a common version is kept. *)
Theorem negotiate_sound versions negotiated :
  negotiate versions = Ok negotiated ->
  is_Some (negotiated !! APIKeyApiVersions) /\
  (forall key v, negotiated !! key = Some v ->
    (exists server, server ∈ versions /\ decides server key v) /\
    (forall (Proto : Type) api (message : option Proto) version,
       LookupAPIKey key = Some api ->
       MessageRequest_SetVersion v (Some (MkMessageRequest api version message)) =
         if api_Public api then Ok (Some (MkMessageRequest api v message)) else Err ErrPrivateAPI)) /\
  (forall server api v, server ∈ versions -> LookupAPIKey (int16 (ad_ApiKey server)) = Some api ->
    common api server v -> is_Some (negotiated !! api_Key api)).
Proof.
  unfold negotiate. destruct (negotiateLoop versions ∅ !! APIKeyApiVersions) eqn:E; [|done]. intros [= <-].
  split; [by rewrite E|]. split; [|intros; by eapply negotiateLoop_complete].
  intros key v Hl. apply negotiateLoop_lookup in Hl as [(server & Hs & Hd)|Hl]; [|by rewrite lookup_empty in Hl].
  split; [by exists server|]. intros Proto api message version Hk. pose proof (LookupAPIKey_row _ _ Hk) as [_ <-].
  destruct Hd as (api' & Hl & Hk' & Hv & _). apply LookupAPIKey_row in Hl as [R _].
  assert (api' = api) as ->.
  { unfold rowOK in R. rewrite !andb_true_iff, !bool_decide_eq_true in R. destruct R as [[[[[[[R _] _] _] _] _] _] _].
    rewrite Hk' in R. congruence. }
  cbn. unfold validateAPI. rewrite Hk. cbn [negb andb]. destruct (api_Public api); [|done]. cbn [negb andb]. by if_false.
Qed.

(** A server that serves API_VERSIONS, PUT_KV from version 1 to 9, and a key of a later release. *)
Definition sampleServer : list advertised :=
  [MkAdvertised 1000 0 0; MkAdvertised 1016 1 9; MkAdvertised 1017 2 3; MkAdvertised 2000 0 0].

Lemma negotiate_sound_witness :
  exists negotiated, negotiate sampleServer = Ok negotiated /\
    negotiated !! 1016 = Some 3 /\ negotiated !! 1017 = None /\ negotiated !! 2000 = None /\
    exists server, server ∈ sampleServer /\ decides server 1016 3.
Proof.
  eexists. split; [vm_compute; reflexivity|]. do 3 (split; [vm_compute; reflexivity|]).
  destruct (negotiate_sound sampleServer _ ltac:(vm_compute; reflexivity)) as (_ & H & _).
  apply (H 1016 3). vm_compute. reflexivity.
Defined.
