(* ===== verification/Transport.v ===== *)
(** * The connection

    Models [internal/transport/connection.go]: framing, the correlation of responses with requests
    by number, the bound on requests in flight, and what happens when a write is cut short or the
    connection fails.

    The program is concurrent: callers run [Request], one goroutine runs [readLoop], and [Close]
    may come at any time.  The state holds the connection and its callers; every critical section,
    channel operation and exclusive stretch (what runs under [writeMu]) is one step, and a run of
    steps is an interleaving.  The peer, the network and the callers' contexts are the
    environment: arguments of the steps.

    [Q] and [R] are the requests and responses, known through the interfaces of [Protocol]; the
    decoder of the error envelope, generated protobuf code, is the parameter [unmarshalError]. *)

From S2P Require Import Prelude Errors Protocol.

(** ** Constants and errors *)

Definition requestHeaderSize : Z := 8.
Definition responseHeaderSize : Z := 5.
Definition defaultMaxFrame : Z := Z.shiftl 64 20.
Definition defaultInFlight : Z := 1024.

(** The error of a request.  The write that fails may leave several joined errors; a request
    whose connection was discarded wraps them together with [ErrClosed]. *)
Inductive requestError :=
| Single (e : transportError)
| Joined (es : list callError)
| Discarded (es : list callError).

Definition tooLarge : transportError := Failed (Plain ErrFrameTooLarge).
Definition malformed : transportError := Failed (Plain ErrMalformedFrame).
Definition closedError : transportError := Failed TransportClosed.
Definition shortWrite : callError := Plain (ErrText "short write").

(** ** Frames *)

Definition bigEndian (w : nat) (v : Z) : list byte := rev (le_split w v).
Definition fromBigEndian (l : list byte) : Z := le_combine (rev l).

(** [readFrame] on the bytes the peer has sent so far: still waiting, a failure, or a frame and
    the bytes after it.  [io.ReadFull] waits for all the bytes it is asked for. *)
Inductive readResult := NeedMore | ReadFail (e : transportError) | ReadFrame (frame rest : list byte).

Definition readFrame (maxFrame : Z) (input : list byte) : readResult :=
  if glen input <? 4 then NeedMore
  else
    let size := fromBigEndian (take 4 input) in
    if size <? 1 then ReadFail malformed
    else if maxFrame <? size then ReadFail tooLarge
    else
      let rest := drop 4 input in
      if glen rest <? size then NeedMore
      else ReadFrame (take (Z.to_nat size) rest) (drop (Z.to_nat size) rest).

Section Frames.
Context (unmarshalError : list byte -> option (Z * string)).

(** [result]: what is delivered to a request. *)
Definition result : Type := list byte + transportError.

(** [handleFrame]: a delivery to a request, or the error that ends the connection. *)
Definition handleFrame (frame : list byte) : (Z * result) + transportError :=
  match frame with
  | [] => inr malformed
  | kind :: _ =>
    if byte.unsigned kind =? 0 then
      if glen frame <? responseHeaderSize then inr malformed
      else inl (int32 (fromBigEndian (take 4 (drop 1 frame))), inl (drop 5 frame))
    else if byte.unsigned kind =? 1 then
      if glen frame <? responseHeaderSize then inr malformed
      else match unmarshalError (drop 5 frame) with
           | None => inr malformed
           | Some (code, message) => inl (int32 (fromBigEndian (take 4 (drop 1 frame))), inr (Remote code message))
           end
    else if byte.unsigned kind =? 2 then
      match unmarshalError (drop 1 frame) with
      | None => inr malformed
      | Some (code, message) => inr (Remote code message)
      end
    else inr malformed
  end.

(** The frame [writeRequest] builds. *)
Definition requestFrame (key version id : Z) (body : list byte) : list byte :=
  bigEndian 4 (uint32 (requestHeaderSize + glen body)) ++ bigEndian 2 (uint16 key)
    ++ bigEndian 2 (uint16 version) ++ bigEndian 4 (uint32 id) ++ body.

(** ** Writing

    [writeFrame] calls [conn.Write] until the frame is out; [answers] is what the calls return.
    An error is replaced by the context's, if the context is done ([ctxErr]) or its deadline has
    passed ([late]). *)
Definition interruptedWriteError (ctxErr : option callError) (late : bool) (writeErr : callError) : callError :=
  match ctxErr with
  | Some e => e
  | None => if late then DeadlineExceeded else writeErr
  end.

(** [None]: the calls answered so far leave the frame unfinished. *)
Fixpoint writeFrame (ctxErr : option callError) (late : bool) (answers : list (Z * option callError))
    (frame : list byte) (total : Z) : option (Z * option callError) :=
  if glen frame <=? 0 then Some (total, None)
  else match answers with
  | [] => None
  | (written, err) :: rest =>
    if (written <? 0) || (glen frame <? written) then Some (total, Some shortWrite)
    else
      let total := total + written in
      match err with
      | Some e => Some (total, Some (interruptedWriteError ctxErr late e))
      | None =>
        if written =? 0 then Some (total, Some shortWrite)
        else writeFrame ctxErr late rest (drop (Z.to_nat written) frame) total
      end
  end.

(** What the environment does during [writeRequest]: the context's error once the mutex is held,
    whether the deadline could be set, the answers of the connection, the context and the clock
    when a write fails, and whether the deadline could be cleared. *)
Record writeEnv := MkWriteEnv {
  we_ctx : option callError;
  we_prepare : option callError;
  we_writes : list (Z * option callError);
  we_ctxAfter : option callError;
  we_late : bool;
  we_finish : option callError;
}.

Definition isContextError (e : callError) : bool :=
  match e with ContextCanceled | DeadlineExceeded => true | _ => false end.

(** [writeRequest]: the bytes that left, and whether to discard the connection with which
    errors; no error is success. *)
Definition writeRequest (env : writeEnv) (frame : list byte) : option (list byte * bool * list callError) :=
  match we_ctx env with
  | Some e => Some ([], false, [e])
  | None =>
    match we_prepare env with
    | Some e => Some ([], true, [e])
    | None =>
      '(written, writeErr) ← writeFrame (we_ctxAfter env) (we_late env) (we_writes env) frame 0;
      let out := take (Z.to_nat written) frame in
      match we_finish env, writeErr with
      | Some e, None => Some (out, true, [e])
      | Some e, Some we => Some (out, true, [we; e])
      | None, None => Some (out, false, [])
      | None, Some we => Some (out, negb (written =? 0) || negb (isContextError we), [we])
      end
    end
  end.

(** ** The connection and its callers *)

Context {Q R : Type} `{Request Q R}.

(** Where a caller of [Request] is: waiting for a slot; holding one, before [register];
    registered, before its frame is written; waiting for its result; about to fail the
    connection; about to [unregister]; about to give its slot back; or back with its answer. *)
Inductive stage :=
| Blocked
| Holding
| Registered (reqID : Z)
| Waiting (reqID : Z)
| Discarding (reqID : Z) (es : list callError)
| Leaving (reqID : Z) (answer : R + requestError)
| Releasing (answer : R + requestError)
| Finished (answer : R + requestError).

(** A caller: its request, the body marshalled, its result channel (of capacity one), and, for
    the theorems, the number it was registered under and how many frames had been handled then. *)
Record caller := MkCaller {
  ca_request : Q;
  ca_body : list byte;
  ca_stage : stage;
  ca_channel : option result;
  ca_registered : option (Z * nat);
}.

(** [Connection].  [cn_slots] counts the elements of [sem], [cn_pending] gives the caller whose
    channel a number has, [cn_closed] and [cn_closeErr] are set together when [done] is closed,
    and [cn_failing] are the channels [fail] has still to fill.  [cn_input] are the bytes the peer
    sent that [readLoop] has not read.  The rest is history: the frames handled, the bytes
    written, and the callers and lengths of the writes. *)
Record Connection := MkConnection {
  cn_nextID : Z;
  cn_pending : gmap Z nat;
  cn_closeErr : option transportError;
  cn_slots : Z;
  cn_failing : list nat;
  cn_reading : bool;
  cn_input : list byte;
  cn_callers : gmap nat caller;
  cn_handled : list (list byte);
  cn_output : list byte;
  cn_writes : list (nat * nat);
  cn_registrations : Z;
}.

Definition New : Connection := MkConnection 0 ∅ None 0 [] true [] ∅ [] [] [] 0.

Definition cn_closed (c : Connection) : bool :=
  match cn_closeErr c with Some _ => true | None => false end.

(** [Config], with the defaults [New] gives and the limits it refuses. *)
Record Config := MkConfig { cf_MaxFrameSize : Z; cf_MaxInFlight : Z }.

Definition configure (cfg : Config) : outcome Config :=
  let maxFrame := if cf_MaxFrameSize cfg =? 0 then defaultMaxFrame else cf_MaxFrameSize cfg in
  let maxInFlight := if cf_MaxInFlight cfg =? 0 then defaultInFlight else cf_MaxInFlight cfg in
  if (maxFrame <? responseHeaderSize) || (maxInFlight <? 1) then Err ErrInvalidArgument
  else Ok (MkConfig maxFrame maxInFlight).

Context (cfg : Config).

(** *** Changes of the state *)

Definition setStage (s : stage) (ca : caller) : caller :=
  MkCaller (ca_request ca) (ca_body ca) s (ca_channel ca) (ca_registered ca).

Definition setChannel (r : option result) (ca : caller) : caller :=
  MkCaller (ca_request ca) (ca_body ca) (ca_stage ca) r (ca_registered ca).

Definition setCallers (callers : gmap nat caller) (c : Connection) : Connection :=
  MkConnection (cn_nextID c) (cn_pending c) (cn_closeErr c) (cn_slots c) (cn_failing c) (cn_reading c)
    (cn_input c) callers (cn_handled c) (cn_output c) (cn_writes c) (cn_registrations c).

Definition setPending (pending : gmap Z nat) (c : Connection) : Connection :=
  MkConnection (cn_nextID c) pending (cn_closeErr c) (cn_slots c) (cn_failing c) (cn_reading c)
    (cn_input c) (cn_callers c) (cn_handled c) (cn_output c) (cn_writes c) (cn_registrations c).

Definition setSlots (n : Z) (c : Connection) : Connection :=
  MkConnection (cn_nextID c) (cn_pending c) (cn_closeErr c) n (cn_failing c) (cn_reading c)
    (cn_input c) (cn_callers c) (cn_handled c) (cn_output c) (cn_writes c) (cn_registrations c).

Definition setInput (input : list byte) (c : Connection) : Connection :=
  MkConnection (cn_nextID c) (cn_pending c) (cn_closeErr c) (cn_slots c) (cn_failing c) (cn_reading c)
    input (cn_callers c) (cn_handled c) (cn_output c) (cn_writes c) (cn_registrations c).

Definition stopReading (c : Connection) : Connection :=
  MkConnection (cn_nextID c) (cn_pending c) (cn_closeErr c) (cn_slots c) (cn_failing c) false
    (cn_input c) (cn_callers c) (cn_handled c) (cn_output c) (cn_writes c) (cn_registrations c).

Definition record_ (frame : list byte) (c : Connection) : Connection :=
  MkConnection (cn_nextID c) (cn_pending c) (cn_closeErr c) (cn_slots c) (cn_failing c) (cn_reading c)
    (cn_input c) (cn_callers c) (cn_handled c ++ [frame]) (cn_output c) (cn_writes c) (cn_registrations c).

Definition wrote (w : nat) (out : list byte) (c : Connection) : Connection :=
  MkConnection (cn_nextID c) (cn_pending c) (cn_closeErr c) (cn_slots c) (cn_failing c) (cn_reading c)
    (cn_input c) (cn_callers c) (cn_handled c) (cn_output c ++ out)
    (cn_writes c ++ (match out with [] => [] | _ => [(w, length out)] end)) (cn_registrations c).

(** [c.err()]. *)
Definition connErr (c : Connection) : transportError :=
  match cn_closeErr c with Some e => e | None => closedError end.

(** [complete] sends on a channel without blocking: a full channel keeps what it has. *)
Definition complete (w : nat) (r : result) (callers : gmap nat caller) : gmap nat caller :=
  alter (fun ca => match ca_channel ca with None => setChannel (Some r) ca | Some _ => ca end) w callers.

(** [fail], up to the release of [mu]: the first failure closes the connection and empties the
    pending map; the channels it held are filled one after another afterwards. *)
Definition fail (e : transportError) (c : Connection) : Connection :=
  if cn_closed c then c
  else MkConnection (cn_nextID c) ∅ (Some e) (cn_slots c) (cn_failing c ++ (map_to_list (cn_pending c)).*2) (cn_reading c)
    (cn_input c) (cn_callers c) (cn_handled c) (cn_output c) (cn_writes c) (cn_registrations c).

(** [Close] is [fail] with [ErrClosed]. *)
Definition Close (c : Connection) : Connection := fail closedError c.

Definition completeFailed (c : Connection) : option Connection :=
  match cn_failing c with
  | [] => None
  | w :: rest =>
    Some (MkConnection (cn_nextID c) (cn_pending c) (cn_closeErr c) (cn_slots c) rest (cn_reading c)
      (cn_input c) (complete w (inr (connErr c)) (cn_callers c)) (cn_handled c) (cn_output c) (cn_writes c)
      (cn_registrations c))
  end.

(** *** Registration

    [register] counts up, from 1 again after the largest 32-bit integer, past the numbers that
    are pending.  The code bounds the search by 2^32-1 turns.  One turn more than there are
    pending numbers is as good: as many turns find a free number whenever there is one (Lemma
    [registerLoop_finds]), and there always is (Theorem [transport_bounds]). *)
Fixpoint registerLoop (turns : nat) (pending : gmap Z nat) (nextID : Z) : option Z :=
  match turns with
  | O => None
  | S turns =>
    let nextID := int32 (nextID + 1) in
    let nextID := if nextID <=? 0 then 1 else nextID in
    match pending !! nextID with
    | None => Some nextID
    | Some _ => registerLoop turns pending nextID
    end
  end.

Definition register (w : nat) (c : Connection) : (Z * Connection) + requestError :=
  match cn_closeErr c with
  | Some e => inr (Single e)
  | None =>
    match registerLoop (S (size (cn_pending c))) (cn_pending c) (cn_nextID c) with
    | None => inr (Single closedError)
    | Some reqID =>
      inl (reqID, MkConnection reqID (<[reqID := w]> (cn_pending c)) (cn_closeErr c) (cn_slots c) (cn_failing c)
        (cn_reading c) (cn_input c) (cn_callers c) (cn_handled c) (cn_output c) (cn_writes c) (cn_registrations c + 1))
    end
  end.

(** [unregister]. *)
Definition unregister (reqID : Z) (c : Connection) : Connection := setPending (delete reqID (cn_pending c)) c.

(** [deliver]: the number stops being pending and its channel is filled. *)
Definition deliver (reqID : Z) (r : result) (c : Connection) : Connection :=
  match cn_pending c !! reqID with
  | None => c
  | Some w => setCallers (complete w r (cn_callers c)) (setPending (delete reqID (cn_pending c)) c)
  end.

(** One turn of [readLoop]; [None] while the frame is incomplete or the loop is over. *)
Definition readStep (c : Connection) : option Connection :=
  if negb (cn_reading c) then None
  else match readFrame (cf_MaxFrameSize cfg) (cn_input c) with
  | NeedMore => None
  | ReadFail e => Some (fail e (stopReading c))
  | ReadFrame frame rest =>
    let c := record_ frame (setInput rest c) in
    match handleFrame frame with
    | inl (reqID, r) => Some (deliver reqID r c)
    | inr e => Some (fail e (stopReading c))
    end
  end.

(** ** The callers

    [Request], step by step.  [Unmarshal] replaces the message of the response the request
    makes. *)

Definition answerOf (request : Q) (r : result) : R + requestError :=
  match r with
  | inr e => inr (Single e)
  | inl body =>
    match NewResponse_ request with
    | None => inr (Single malformed)
    | Some response =>
      match Unmarshal body response with
      | inl response' => inl response'
      | inr e => inr (Single (Failed (Plain e)))
      end
    end
  end.

Definition contextAnswer (e : callError) : R + requestError := inr (Single (Failed e)).

(** Up to the first [select]: checks, marshalling, and the limit on the frame. *)
Definition beginRequest (request : option Q) (ctxErr : option callError) : list byte * (Q + requestError) :=
  match request with
  | None => ([], inr (Single (Failed (Plain ErrInvalidArgument))))
  | Some request =>
    match ctxErr with
    | Some e => ([], inr (Single (Failed e)))
    | None =>
      match Marshal request with
      | inl body =>
        if cf_MaxFrameSize cfg <? glen body + requestHeaderSize then ([], inr (Single tooLarge))
        else (body, inl request)
      | inr e => ([], inr (Single (Failed (Plain e))))
      end
    end
  end.

(** The steps.  Those that take a context error happen only when the context is done. *)
Inductive transportOp :=
| OpBegin (w : nat) (request : option Q) (ctxErr : option callError)
| OpAcquire (w : nat)
| OpGiveUp (w : nat) (e : callError)
| OpRefused (w : nat)
| OpRegister (w : nat) (ctxErr : option callError)
| OpWrite (w : nat) (env : writeEnv)
| OpDiscard (w : nat)
| OpTake (w : nat)
| OpInterrupt (w : nat) (e : callError)
| OpDone (w : nat)
| OpUnregister (w : nat)
| OpRelease (w : nat)
| OpArrive (bytes : list byte)
| OpRead
| OpReadError (e : callError)
| OpClose
| OpCompleteFailed.

Definition moveTo (w : nat) (ca : caller) (s : stage) (c : Connection) : Connection :=
  setCallers (<[w := setStage s ca]> (cn_callers c)) c.

(** The steps of a caller of [Request] that has begun. *)
Definition callerStep (op : transportOp) (w : nat) (ca : caller) (c : Connection) : option Connection :=
  match op, ca_stage ca with
  | OpAcquire _, Blocked =>
    if cn_slots c <? cf_MaxInFlight cfg then Some (moveTo w ca Holding (setSlots (cn_slots c + 1) c)) else None
  | OpGiveUp _ e, Blocked =>
    if isContextError e then Some (moveTo w ca (Finished (contextAnswer e)) c) else None
  | OpRefused _, Blocked =>
    if cn_closed c then Some (moveTo w ca (Finished (inr (Single (connErr c)))) c) else None
  | OpRegister _ (Some e), Holding =>
    if isContextError e then Some (moveTo w ca (Releasing (contextAnswer e)) c) else None
  | OpRegister _ None, Holding =>
    match register w c with
    | inr e => Some (moveTo w ca (Releasing (inr e)) c)
    | inl (reqID, c') =>
      Some (setCallers (<[w := MkCaller (ca_request ca) (ca_body ca) (Registered reqID) None
                            (Some (reqID, length (cn_handled c)))]> (cn_callers c)) c')
    end
  | OpWrite _ env, Registered reqID =>
    '(out, discard, es) ←
      writeRequest env (requestFrame (requestKey (ca_request ca)) (requestVersion (ca_request ca)) reqID (ca_body ca));
    let c := wrote w out c in
    Some (match es with
          | [] => moveTo w ca (Waiting reqID) c
          | _ => if discard : bool then moveTo w ca (Discarding reqID es) c
                 else moveTo w ca (Leaving reqID (inr (Joined es))) c
          end)
  | OpDiscard _, Discarding reqID es =>
    Some (moveTo w ca (Leaving reqID (inr (Discarded es))) (fail closedError c))
  | OpTake _, Waiting reqID =>
    r ← ca_channel ca;
    Some (moveTo w (setChannel None ca) (Leaving reqID (answerOf (ca_request ca) r)) c)
  | OpInterrupt _ e, Waiting reqID =>
    if isContextError e then Some (moveTo w ca (Leaving reqID (contextAnswer e)) c) else None
  | OpDone _, Waiting reqID =>
    if cn_closed c then Some (moveTo w ca (Leaving reqID (inr (Single (connErr c)))) c) else None
  | OpUnregister _, Leaving reqID answer => Some (moveTo w ca (Releasing answer) (unregister reqID c))
  | OpRelease _, Releasing answer => Some (moveTo w ca (Finished answer) (setSlots (cn_slots c - 1) c))
  | _, _ => None
  end.

Definition exec (op : transportOp) (c : Connection) : option Connection :=
  match op with
  | OpBegin w request ctxErr =>
    match cn_callers c !! w, beginRequest request ctxErr with
    | Some _, _ => None
    | None, (body, inl request) =>
      Some (setCallers (<[w := MkCaller request body Blocked None None]> (cn_callers c)) c)
    | None, (_, inr _) => Some c
    end
  | OpAcquire w | OpGiveUp w _ | OpRefused w | OpRegister w _ | OpWrite w _ | OpDiscard w | OpTake w
  | OpInterrupt w _ | OpDone w | OpUnregister w | OpRelease w =>
    ca ← cn_callers c !! w; callerStep op w ca c
  | OpArrive bytes => Some (setInput (cn_input c ++ bytes) c)
  | OpRead => readStep c
  | OpReadError e => if cn_reading c then Some (fail (Failed e) (stopReading c)) else None
  | OpClose => Some (Close c)
  | OpCompleteFailed => completeFailed c
  end.

Fixpoint execAll (ops : list transportOp) (c : Connection) : option Connection :=
  match ops with
  | [] => Some c
  | op :: ops => c' ← exec op c; execAll ops c'
  end.

Definition reachable (c : Connection) : Prop := exists ops, execAll ops New = Some c.

(** ** Reading what is sent *)

Lemma bigEndian_read w v : fromBigEndian (bigEndian w v) = v mod 2 ^ (8 * Z.of_nat w).
Proof. unfold fromBigEndian, bigEndian. rewrite rev_involutive, le_combine_split. f_equal. f_equal. lia. Qed.

Lemma glen_bigEndian w v : glen (bigEndian w v) = Z.of_nat w.
Proof. unfold bigEndian. by rewrite glen_rev, glen_le_split. Qed.

Lemma length_bigEndian w v : length (bigEndian w v) = w.
Proof. unfold bigEndian. by rewrite length_rev, length_le_split. Qed.

(** *** The search for a number *)

Definition nextNumber (n : Z) : Z :=
  let n := int32 (n + 1) in if n <=? 0 then 1 else n.

Lemma nextNumber_range n : 1 <= nextNumber n < 2 ^ 31.
Proof.
  unfold nextNumber. pose proof (swrap_srange 32 (n + 1) ltac:(lia)) as B. unfold srange in B.
  change (2 ^ (32 - 1)) with (2 ^ 31) in B. change (2 ^ 31) with 2147483648 in *. destruct (_ <=? 0) eqn:E; lia.
Qed.

Lemma nextNumber_succ n : 0 <= n < 2 ^ 31 - 1 -> nextNumber n = n + 1.
Proof.
  intros Hn. unfold nextNumber. rewrite swrap_small; [|done|].
  - destruct (_ <=? 0) eqn:E; lia.
  - unfold srange. change (2 ^ (32 - 1)) with (2 ^ 31). change (2 ^ 31) with 2147483648 in *. lia.
Qed.

Lemma registerLoop_S turns pending n :
  registerLoop (S turns) pending n =
    match pending !! nextNumber n with None => Some (nextNumber n) | Some _ => registerLoop turns pending (nextNumber n) end.
Proof. reflexivity. Qed.

Lemma registerLoop_free turns pending n reqID :
  registerLoop turns pending n = Some reqID -> pending !! reqID = None /\ 1 <= reqID < 2 ^ 31.
Proof.
  revert n. induction turns as [|turns IH]; intros n; [done|]. rewrite registerLoop_S.
  destruct (pending !! nextNumber n) eqn:E; [apply IH|]. intros [= <-]. split; [done|apply nextNumber_range].
Qed.

(** The [k]-th number after [n]. *)
Fixpoint numberAfter (k : nat) (n : Z) : Z :=
  match k with O => n | S k => numberAfter k (nextNumber n) end.

(** Around the circle of the numbers from 1 to 2^31-1. *)
Lemma nextNumber_mod n : 0 <= n < 2 ^ 31 -> nextNumber n = n mod (2 ^ 31 - 1) + 1.
Proof.
  intros Hn. destruct (decide (n < 2 ^ 31 - 1)).
  - rewrite nextNumber_succ by lia. rewrite Z.mod_small by lia. done.
  - assert (n = 2 ^ 31 - 1) as -> by lia. vm_compute. reflexivity.
Qed.

Lemma numberAfter_mod k n : 0 <= n < 2 ^ 31 -> numberAfter (S k) n = (n + Z.of_nat k) mod (2 ^ 31 - 1) + 1.
Proof.
  revert n. induction k as [|k IH]; intros n Hn.
  - cbn [numberAfter]. rewrite nextNumber_mod by done. do 2 f_equal. lia.
  - change (numberAfter (S (S k)) n) with (numberAfter (S k) (nextNumber n)).
    pose proof (nextNumber_range n) as Hr. rewrite IH by lia. rewrite nextNumber_mod by done.
    rewrite <- Z.add_assoc, Zplus_mod_idemp_l. do 2 f_equal. lia.
Qed.

Lemma registerLoop_None turns pending n :
  registerLoop turns pending n = None -> forall k, (1 <= k <= turns)%nat -> is_Some (pending !! numberAfter k n).
Proof.
  revert n. induction turns as [|turns IH]; intros n; [intros; lia|]. rewrite registerLoop_S.
  destruct (pending !! nextNumber n) eqn:E; [|done]. intros Hl [|[|k]] Hk; [lia|cbn; by rewrite E|].
  apply (IH _ Hl (S k)). lia.
Qed.

(** While fewer than 2^31-1 numbers are pending, the search finds a free one in at most one turn
    more than there are pending numbers. *)
Lemma registerLoop_finds pending n :
  0 <= n < 2 ^ 31 -> Z.of_nat (size pending) < 2 ^ 31 - 1 ->
  registerLoop (S (size pending)) pending n <> None.
Proof.
  intros Hn Hsize Hl. pose proof (registerLoop_None _ _ _ Hl) as Hall.
  set (ids := map (fun k => numberAfter k n) (seq 1 (S (size pending)))).
  assert (Hnd : NoDup ids).
  { apply NoDup_ListNoDup, Finite.Injective_map_NoDup_in; [|apply seq_NoDup].
    intros [|k] [|k'] Hk Hk'; rewrite in_seq in *; try lia. rewrite !numberAfter_mod by done. intros E.
    assert ((n + Z.of_nat k) mod (2 ^ 31 - 1) = (n + Z.of_nat k') mod (2 ^ 31 - 1)) by lia.
    change (2 ^ 31 - 1) with 2147483647 in *. zlia. }
  assert (Hsub : ids ⊆ (map_to_list pending).*1).
  { intros x Hx. apply list_elem_of_In, in_map_iff in Hx as (k & <- & Hk). rewrite in_seq in Hk.
    destruct (Hall k ltac:(lia)) as [w Hw]. apply list_elem_of_fmap. exists (numberAfter k n, w). split; [done|].
    by apply elem_of_map_to_list. }
  apply (NoDup_submseteq _ _ Hnd) in Hsub. apply submseteq_length in Hsub.
  unfold ids in Hsub. rewrite length_map, length_seq, length_fmap, length_map_to_list in Hsub. lia.
Qed.

(** ** The invariant *)

(** Nothing handled since [from] carries [reqID]. *)
Definition silent (handled : list (list byte)) (reqID : Z) (from : nat) : Prop :=
  forall j frame r, (from <= j)%nat -> handled !! j = Some frame -> handleFrame frame <> inl (reqID, r).

(** [r] is what the first frame since [from] that carries [reqID] says. *)
Definition answers (handled : list (list byte)) (reqID : Z) (from : nat) (r : result) : Prop :=
  exists i frame, (from <= i)%nat /\ handled !! i = Some frame /\ handleFrame frame = inl (reqID, r) /\
    silent (take i handled) reqID from.

(** Why a request got what it got: the frame that answers it, the error that closed the
    connection, its context, or its own write. *)
Definition explained (handled : list (list byte)) (closeErr : option transportError) (ca : caller)
    (a : R + requestError) : Prop :=
  (exists reqID from r, ca_registered ca = Some (reqID, from) /\ answers handled reqID from r /\ a = answerOf (ca_request ca) r) \/
  (exists e, closeErr = Some e /\ a = inr (Single e)) \/
  (exists e, isContextError e = true /\ a = contextAnswer e) \/
  (exists es, a = inr (Joined es)) \/
  (exists es, closeErr <> None /\ a = inr (Discarded es)).

Definition channelOK (handled : list (list byte)) (closeErr : option transportError) (reqID : Z) (from : nat) (r : result) : Prop :=
  answers handled reqID from r \/ exists e, closeErr = Some e /\ r = inr e.

Definition stageOK (handled : list (list byte)) (closeErr : option transportError) (ca : caller) : Prop :=
  match ca_stage ca, ca_registered ca with
  | (Blocked | Holding), None => True
  | (Registered n | Waiting n | Discarding n _), Some (reqID, _) => n = reqID
  | Leaving n a, Some (reqID, _) => n = reqID /\ explained handled closeErr ca a
  | (Releasing a | Finished a), _ => explained handled closeErr ca a
  | _, _ => False
  end.

Definition callerOK (handled : list (list byte)) (closeErr : option transportError) (ca : caller) : Prop :=
  stageOK handled closeErr ca /\
  match ca_registered ca with
  | None => ca_channel ca = None
  | Some (reqID, from) => (from <= length handled)%nat /\ forall r, ca_channel ca = Some r -> channelOK handled closeErr reqID from r
  end.

(** The number a caller has not given back yet. *)
Definition heldID (s : stage) : option Z :=
  match s with
  | Registered n | Waiting n | Discarding n _ | Leaving n _ => Some n
  | _ => None
  end.

Definition holdsSlot (s : stage) : bool :=
  match s with Blocked | Finished _ => false | _ => true end.

Definition holders (c : Connection) : gmap nat caller := filter (fun e => holdsSlot (ca_stage e.2) = true) (cn_callers c).

Record connOK (c : Connection) : Prop := {
  k_callers : forall w ca, cn_callers c !! w = Some ca -> callerOK (cn_handled c) (cn_closeErr c) ca;
  k_pending : forall reqID w, cn_pending c !! reqID = Some w ->
    exists ca from, cn_callers c !! w = Some ca /\ heldID (ca_stage ca) = Some reqID /\
      ca_registered ca = Some (reqID, from) /\ ca_channel ca = None /\ silent (cn_handled c) reqID from;
  k_failing : forall w, w ∈ cn_failing c -> cn_closeErr c <> None /\
    exists ca r, cn_callers c !! w = Some ca /\ ca_registered ca = Some r;
  k_closed : cn_closeErr c <> None -> cn_pending c = ∅;
  k_slots : cn_slots c = Z.of_nat (size (holders c));
  k_max : cn_slots c <= cf_MaxInFlight cfg;
  k_next : 0 <= cn_nextID c < 2 ^ 31;
}.

(** *** History only grows *)

Lemma silent_app handled more reqID from : silent (handled ++ more) reqID from -> silent handled reqID from.
Proof. intros Hs j frame r Hj Hl. eapply Hs; [done|]. by apply lookup_app_l_Some. Qed.

Lemma silent_snoc handled frame reqID from :
  silent handled reqID from -> (forall r, handleFrame frame <> inl (reqID, r)) -> silent (handled ++ [frame]) reqID from.
Proof.
  intros Hs Hf j frame' r Hj Hl. apply lookup_app_Some in Hl as [Hl|[_ Hl]]; [by eapply Hs|].
  apply list_lookup_singleton_Some in Hl as [_ <-]. apply Hf.
Qed.

Lemma answers_app handled more reqID from r : answers handled reqID from r -> answers (handled ++ more) reqID from r.
Proof.
  intros (i & frame & Hi & Hl & Hf & Hs). exists i, frame. repeat split; try done; [by apply lookup_app_l_Some|].
  rewrite take_app_le; [done|]. apply lookup_lt_Some in Hl. lia.
Qed.

Lemma answers_snoc handled frame reqID from r :
  (from <= length handled)%nat -> silent handled reqID from -> handleFrame frame = inl (reqID, r) ->
  answers (handled ++ [frame]) reqID from r.
Proof.
  intros Hle Hs Hf. exists (length handled), frame. rewrite list_lookup_middle, take_app_length by done. done.
Qed.

Definition later (e e' : option transportError) : Prop := forall x, e = Some x -> e' = Some x.

Lemma explained_grow handled more e e' ca a :
  later e e' -> explained handled e ca a -> explained (handled ++ more) e' ca a.
Proof.
  intros Hl [(n & from & r & Hr & Ha & ->)|[(x & Hx & ->)|[(x & Hx & ->)|[(es & ->)|(es & Hc & ->)]]]]; unfold explained.
  - left. exists n, from, r. split; [done|]. split; [by apply answers_app|done].
  - right; left. exists x. split; [by apply Hl|done].
  - right; right; left. by exists x.
  - do 3 right; left. by exists es.
  - do 4 right. exists es. split; [|done]. destruct e as [x|]; [|done]. by rewrite (Hl x).
Qed.

Lemma callerOK_grow handled more e e' ca : later e e' -> callerOK handled e ca -> callerOK (handled ++ more) e' ca.
Proof.
  intros Hl [Hs Hc]. split.
  - unfold stageOK in *. destruct (ca_stage ca), (ca_registered ca) as [[n from]|]; try done;
      try (destruct Hs as [-> Hs]; split; [done|]); by eapply explained_grow.
  - destruct (ca_registered ca) as [[reqID from]|]; [|done]. destruct Hc as [Hf Hc]. split; [rewrite length_app; lia|].
    intros r Hr. destruct (Hc r Hr) as [Ha|(x & Hx & ->)]; [left; by apply answers_app|right; exists x; split; [by apply Hl|done]].
Qed.

Lemma later_refl e : later e e.
Proof. by intros x. Qed.

Lemma callerOK_same handled e e' ca : later e e' -> callerOK handled e ca -> callerOK handled e' ca.
Proof. intros Hl Hc. rewrite <- (app_nil_r handled). by eapply callerOK_grow. Qed.

(** *** One caller moves

    Most steps change one caller, and the pending map at most at its number. *)
Definition movedOK (c : Connection) (w : nat) (ca ca' : caller) (pending' : gmap Z nat) : Prop :=
  (forall n v, pending' !! n = Some v ->
     (v <> w /\ cn_pending c !! n = Some v) \/
     (v = w /\ heldID (ca_stage ca') = Some n /\ exists from, ca_registered ca' = Some (n, from) /\
        ca_channel ca' = None /\ silent (cn_handled c) n from)) /\
  (is_Some (ca_registered ca) -> is_Some (ca_registered ca')).

Lemma size_holders_insert (m : gmap nat caller) w ca ca' :
  m !! w = Some ca ->
  Z.of_nat (size (filter (fun e => holdsSlot (ca_stage e.2) = true) (<[w := ca']> m))) =
    Z.of_nat (size (filter (fun e => holdsSlot (ca_stage e.2) = true) m))
    + Z.b2z (holdsSlot (ca_stage ca')) - Z.b2z (holdsSlot (ca_stage ca)).
Proof.
  intros Hw. rewrite <- (insert_id m w ca Hw) at 2. rewrite <- insert_delete_eq, <- (insert_delete_eq m w ca).
  rewrite !map_filter_insert. cbn [snd]. set (m0 := filter _ (delete w m)).
  assert (Hn : m0 !! w = None) by (apply map_lookup_filter_None; left; apply lookup_delete_eq).
  rewrite !(delete_id (delete w m)) by apply lookup_delete_eq. fold m0.
  destruct (holdsSlot (ca_stage ca')), (holdsSlot (ca_stage ca)); cbn [Z.b2z];
    repeat case_decide; try done; rewrite ?map_size_insert_None by done; lia.
Qed.

Lemma inv_move c c' w ca ca' :
  connOK c -> cn_callers c !! w = Some ca -> movedOK c w ca ca' (cn_pending c') ->
  cn_callers c' = <[w := ca']> (cn_callers c) -> cn_handled c' = cn_handled c -> cn_closeErr c' = cn_closeErr c ->
  (forall v, v ∈ cn_failing c' -> v ∈ cn_failing c) -> cn_slots c' = cn_slots c + Z.b2z (holdsSlot (ca_stage ca')) - Z.b2z (holdsSlot (ca_stage ca)) ->
  cn_slots c' <= cf_MaxInFlight cfg -> 0 <= cn_nextID c' < 2 ^ 31 ->
  (cn_closeErr c <> None -> cn_pending c' = ∅) ->
  callerOK (cn_handled c) (cn_closeErr c) ca' -> connOK c'.
Proof.
  intros [K1 K2 K3 K4 K5 K6 K7] Hw [Hp Hreg] Ec Eh Ee Ef Es Hmax Hnext Hcl Hok. split; rewrite ?Eh, ?Ee.
  - intros v va. rewrite Ec. intros Hv. apply lookup_insert_Some in Hv as [[<- <-]|[Hne Hv]]; [done|by eapply K1].
  - intros n v Hv. destruct (Hp n v Hv) as [[Hne Hv']|(-> & Hh & from & Hr & Hch & Hs)].
    + destruct (K2 n v Hv') as (va & from & Hva & Hrest). exists va, from. split; [|done].
      rewrite Ec, lookup_insert_ne; [done|congruence].
    + exists ca', from. rewrite Ec, lookup_insert_eq. done.
  - intros v Hv. destruct (K3 v (Ef v Hv)) as (Hc & va & r & Hva & Hr). split; [done|]. rewrite Ec.
    destruct (decide (v = w)) as [->|Hne]; [|exists va, r; by rewrite lookup_insert_ne].
    simplify_eq. destruct (Hreg ltac:(by rewrite Hr)) as [r' Hr']. exists ca', r'. by rewrite lookup_insert_eq.
  - done.
  - rewrite Es, K5. unfold holders. rewrite Ec, (size_holders_insert _ _ _ ca' Hw). lia.
  - done.
  - done.
Qed.

(** A caller that keeps its number and does not touch its channel, or whose number is not
    pending. *)
Lemma movedOK_keep c w ca ca' :
  connOK c -> cn_callers c !! w = Some ca -> heldID (ca_stage ca') = heldID (ca_stage ca) ->
  ca_registered ca' = ca_registered ca -> (ca_channel ca = None -> ca_channel ca' = None) ->
  movedOK c w ca ca' (cn_pending c).
Proof.
  intros K Hw Hh Hr Hc. split; [|by rewrite Hr]. intros n v Hv. destruct (decide (v = w)) as [->|Hne]; [right|by left].
  destruct (k_pending c K n w Hv) as (va & from & Hva & Hh' & Hr' & Hc' & Hs). simplify_eq.
  split; [done|]. split; [by rewrite Hh|]. exists from. rewrite Hr. auto.
Qed.

Lemma movedOK_free c w ca ca' :
  connOK c -> cn_callers c !! w = Some ca -> heldID (ca_stage ca) = None ->
  (is_Some (ca_registered ca) -> is_Some (ca_registered ca')) -> movedOK c w ca ca' (cn_pending c).
Proof.
  intros K Hw Hh Hr. split; [|done]. intros n v Hv. left. split; [|done]. intros ->.
  destruct (k_pending c K n w Hv) as (va & from & Hva & Hh' & _). simplify_eq.
Qed.

(** *** Steps of the connection *)

Lemma inv_ext c c' :
  connOK c -> cn_callers c' = cn_callers c -> cn_handled c' = cn_handled c -> cn_closeErr c' = cn_closeErr c ->
  cn_pending c' = cn_pending c -> cn_failing c' = cn_failing c -> cn_slots c' = cn_slots c -> cn_nextID c' = cn_nextID c ->
  connOK c'.
Proof.
  intros [K1 K2 K3 K4 K5 K6 K7] E1 E2 E3 E4 E5 E6 E7.
  split; unfold holders in *; rewrite ?E1, ?E2, ?E3, ?E4, ?E5, ?E6, ?E7; done.
Qed.

Lemma inv_New : 0 <= cf_MaxInFlight cfg -> connOK New.
Proof.
  intros Hm. split; cbn; try done; try lia; try (intros ? ? Hl; by rewrite lookup_empty in Hl).
  intros w Hw. by apply not_elem_of_nil in Hw.
Qed.

Lemma inv_fail e c : connOK c -> connOK (fail e c).
Proof.
  intros K. unfold fail. destruct (cn_closed c) eqn:Ec; [done|]. unfold cn_closed in Ec.
  destruct (cn_closeErr c) eqn:Ee; [done|]. destruct K as [K1 K2 K3 K4 K5 K6 K7]. split; cbn; try done.
  - intros w ca Hw. eapply callerOK_same; [|by eapply K1]. rewrite Ee. by intros x.
  - intros w Hw. split; [done|]. apply elem_of_app in Hw as [Hw|Hw]; [by destruct (K3 w Hw) as (? & ?)|].
    apply list_elem_of_fmap in Hw as ([n v] & -> & Hw). apply elem_of_map_to_list in Hw.
    destruct (K2 n v Hw) as (ca & from & Hca & _ & Hr & _). by eauto.
Qed.

Lemma inv_unregister n c : connOK c -> connOK (setPending (delete n (cn_pending c)) c).
Proof.
  intros [K1 K2 K3 K4 K5 K6 K7]. split; cbn; try done.
  - intros m w Hm. apply lookup_delete_Some in Hm as [_ Hm]. by apply K2.
  - intros Hc. by rewrite (K4 Hc), delete_empty.
Qed.

Lemma inv_record frame c :
  connOK c -> (forall n r, is_Some (cn_pending c !! n) -> handleFrame frame <> inl (n, r)) -> connOK (record_ frame c).
Proof.
  intros [K1 K2 K3 K4 K5 K6 K7] Hf. split; cbn; try done.
  - intros w ca Hw. eapply callerOK_grow; [apply later_refl|by eapply K1].
  - intros n w Hn. destruct (K2 n w Hn) as (ca & from & H1 & H2 & H3 & H4 & H5). exists ca, from.
    do 4 (split; [done|]). apply silent_snoc; [done|]. intros r. apply Hf. by exists w.
Qed.

Lemma inv_complete w ca n from r c :
  connOK c -> (forall m, cn_pending c !! m <> Some w) -> cn_callers c !! w = Some ca ->
  ca_registered ca = Some (n, from) -> channelOK (cn_handled c) (cn_closeErr c) n from r ->
  connOK (setCallers (complete w r (cn_callers c)) c).
Proof.
  intros K Hp Hw Hr Hc. unfold complete. destruct (ca_channel ca) as [r0|] eqn:Hch.
  - rewrite alter_id; [by eapply inv_ext|]. intros ca' Hw'. assert (ca' = ca) as -> by congruence. by rewrite Hch.
  - eapply (inv_move c _ w ca (setChannel (Some r) ca) K Hw); cbn; try done.
    + split; [|done]. intros m v Hv. left. split; [|done]. intros ->. by apply (Hp m).
    + apply map_eq. intros i. destruct (decide (i = w)) as [->|Hi].
      * by rewrite lookup_alter_eq, lookup_insert_eq, Hw; cbn; rewrite Hch.
      * by rewrite lookup_alter_ne, lookup_insert_ne by congruence.
    + cbn. lia.
    + by apply K.
    + by apply K.
    + by apply K.
    + destruct (k_callers c K w ca Hw) as [Hs Hreg]. rewrite Hr in Hreg. split; [done|]. cbn. rewrite Hr.
      split; [by apply Hreg|]. intros r' [= <-]. done.
Qed.

Lemma pending_once c n m w : connOK c -> cn_pending c !! n = Some w -> cn_pending c !! m = Some w -> n = m.
Proof.
  intros K Hn Hm. destruct (k_pending c K n w Hn) as (ca & from & H1 & H2 & _).
  destruct (k_pending c K m w Hm) as (ca' & from' & H1' & H2' & _). congruence.
Qed.

Lemma inv_deliver frame n r c :
  connOK c -> handleFrame frame = inl (n, r) -> connOK (deliver n r (record_ frame c)).
Proof.
  intros K Hf. unfold deliver. cbn [cn_pending record_]. destruct (cn_pending c !! n) as [w|] eqn:Hn.
  - destruct (k_pending c K n w Hn) as (ca & from & Hw & Hh & Hr & Hch & Hs).
    set (c1 := record_ frame (setPending (delete n (cn_pending c)) c)).
    assert (K1 : connOK c1).
    { apply inv_record; [by apply inv_unregister|]. intros m r' [v Hm] Hf'. cbn in Hm.
      rewrite Hf' in Hf. injection Hf as -> ->. by rewrite lookup_delete_eq in Hm. }
    apply (inv_ext (setCallers (complete w r (cn_callers c1)) c1)); try done.
    eapply inv_complete; try done; [|left].
    + intros m Hm. cbn in Hm. apply lookup_delete_Some in Hm as [Hne Hm]. by apply Hne, (pending_once c n m w K).
    + apply answers_snoc; [|done|done]. destruct (k_callers c K w ca Hw) as [_ Hreg]. rewrite Hr in Hreg. by apply Hreg.
  - apply inv_record; [done|]. intros m r' [v Hm] Hf'. congruence.
Qed.

Lemma inv_readStep c c' : connOK c -> readStep c = Some c' -> connOK c'.
Proof.
  intros K. unfold readStep. destruct (negb (cn_reading c)); [done|]. destruct (readFrame _ _) as [|e|frame rest]; [done| |].
  - intros [= <-]. apply inv_fail. by eapply inv_ext.
  - assert (K1 : connOK (setInput rest c)) by (by eapply inv_ext).
    destruct (handleFrame frame) as [[n r]|e] eqn:Hf; intros [= <-]; [by apply inv_deliver|].
    apply inv_fail. eapply (inv_ext (record_ frame (setInput rest c))); try done.
    apply inv_record; [done|]. intros m r _. by rewrite Hf.
Qed.

Lemma inv_completeFailed c c' : connOK c -> completeFailed c = Some c' -> connOK c'.
Proof.
  intros K. unfold completeFailed. destruct (cn_failing c) as [|w rest] eqn:Ef; [done|]. intros [= <-].
  destruct (k_failing c K w) as (Hc & ca & [n from] & Hw & Hr); [rewrite Ef; by left|].
  set (c1 := MkConnection (cn_nextID c) (cn_pending c) (cn_closeErr c) (cn_slots c) rest (cn_reading c)
      (cn_input c) (cn_callers c) (cn_handled c) (cn_output c) (cn_writes c) (cn_registrations c)).
  assert (K1 : connOK c1).
  { destruct K as [K1 K2 K3 K4 K5 K6 K7]. split; cbn; try done. intros v Hv. apply K3. rewrite Ef. by right. }
  apply (inv_ext (setCallers (complete w (inr (connErr c)) (cn_callers c1)) c1)); try done.
  eapply inv_complete; try done.
  - intros m Hm. cbn in Hm. rewrite (k_closed c K Hc), lookup_empty in Hm. done.
  - right. unfold connErr. cbn. destruct (cn_closeErr c) as [e|]; [by exists e|done].
Qed.

(** Each pending number belongs to its own holder of a slot. *)
Lemma pending_size c : connOK c -> Z.of_nat (size (cn_pending c)) <= cn_slots c.
Proof.
  intros K. rewrite (k_slots c K). apply Nat2Z.inj_le.
  rewrite <- (length_map_to_list (cn_pending c)), <- (length_map_to_list (holders c)).
  rewrite <- (length_fmap snd (map_to_list (cn_pending c))), <- (length_fmap fst (map_to_list (holders c))).
  apply submseteq_length, NoDup_submseteq.
  - apply NoDup_fmap_2_strong; [|apply NoDup_map_to_list]. intros [n w] [m v] Hn Hm. cbn. intros ->.
    apply elem_of_map_to_list in Hn, Hm. by rewrite (pending_once c n m v K Hn Hm).
  - intros w Hw. apply list_elem_of_fmap in Hw as ([n v] & -> & Hn). apply elem_of_map_to_list in Hn.
    destruct (k_pending c K n v Hn) as (ca & from & Hw & Hh & _). apply list_elem_of_fmap. exists (v, ca). split; [done|].
    apply elem_of_map_to_list, map_lookup_filter_Some. split; [done|]. cbn. by destruct (ca_stage ca).
Qed.

Context (Hmax : cf_MaxInFlight cfg < 2 ^ 31 - 1).

Lemma register_finds c : connOK c -> registerLoop (S (size (cn_pending c))) (cn_pending c) (cn_nextID c) <> None.
Proof.
  intros K. apply registerLoop_finds; [apply K|]. pose proof (pending_size c K). pose proof (k_max c K). lia.
Qed.

(** What a step of a caller that keeps its number leaves to prove. *)
Lemma inv_caller c w ca s ch :
  connOK c -> cn_callers c !! w = Some ca -> heldID s = heldID (ca_stage ca) ->
  (ch = ca_channel ca \/ ch = None) ->
  cn_slots c + Z.b2z (holdsSlot s) - Z.b2z (holdsSlot (ca_stage ca)) <= cf_MaxInFlight cfg ->
  stageOK (cn_handled c) (cn_closeErr c) (setStage s ca) ->
  connOK (moveTo w (setChannel ch ca) s (setSlots (cn_slots c + Z.b2z (holdsSlot s) - Z.b2z (holdsSlot (ca_stage ca))) c)).
Proof.
  intros K Hw Hh Hch Hsl Hs. eapply (inv_move c _ w ca (setStage s (setChannel ch ca)) K Hw); try done.
  - apply (movedOK_keep c w ca _ K Hw); try done. intros Hn. cbn. by destruct Hch as [-> | ->].
  - apply (k_next c K).
  - apply (k_closed c K).
  - split; [done|]. destruct (k_callers c K w ca Hw) as [_ Hr]. cbn. destruct (ca_registered ca) as [[n from]|].
    + destruct Hr as [Hf Hc]. split; [done|]. intros r Hr'. apply Hc. destruct Hch as [-> | ->]; [done|done].
    + by destruct Hch as [-> | ->].
Qed.

Lemma inv_register c w ca reqID c' :
  connOK c -> cn_callers c !! w = Some ca -> ca_stage ca = Holding -> register w c = inl (reqID, c') ->
  connOK (setCallers (<[w := MkCaller (ca_request ca) (ca_body ca) (Registered reqID) None (Some (reqID, length (cn_handled c)))]> (cn_callers c)) c').
Proof.
  intros K Hw Hst. unfold register. destruct (cn_closeErr c) as [e|] eqn:Ee; [done|].
  destruct (registerLoop _ _ _) as [n|] eqn:El; [|done]. intros [= -> <-]. apply registerLoop_free in El as [Hfree Hrange].
  eapply (inv_move c _ w ca _ K Hw); try reflexivity.
  - split; [|by cbn]. intros m v. cbn. intros Hm. apply lookup_insert_Some in Hm as [[<- <-]|[Hne Hm]].
    + right. split; [done|]. split; [done|]. exists (length (cn_handled c)). do 2 (split; [done|]).
      intros j frame r Hj Hl. apply lookup_lt_Some in Hl. lia.
    + left. split; [|done]. intros ->. destruct (k_pending c K m w Hm) as (ca' & from & H1 & H2 & _).
      simplify_eq. by rewrite Hst in H2.
  - cbn. by rewrite Ee.
  - done.
  - cbn. rewrite Hst. cbn. lia.
  - apply K.
  - cbn. lia.
  - by rewrite Ee.
  - split; [done|]. cbn. split; [done|]. done.
Qed.

Lemma setChannel_same ca : setChannel (ca_channel ca) ca = ca.
Proof. by destruct ca. Qed.

Lemma inv_stage c w ca s :
  connOK c -> cn_callers c !! w = Some ca -> heldID s = heldID (ca_stage ca) -> holdsSlot s = holdsSlot (ca_stage ca) ->
  stageOK (cn_handled c) (cn_closeErr c) (setStage s ca) -> connOK (moveTo w ca s c).
Proof.
  intros K Hw Hh Hs Hok. pose proof (inv_caller c w ca s (ca_channel ca) K Hw Hh (or_introl eq_refl)) as I.
  rewrite setChannel_same, Hs in I. replace (cn_slots c + _ - _) with (cn_slots c) in I by lia.
  eapply inv_ext; [apply I|..]; try done. apply K.
Qed.

(** The stage after [unregister]. *)
Lemma inv_leave c w ca n a :
  connOK c -> cn_callers c !! w = Some ca -> ca_stage ca = Leaving n a ->
  connOK (moveTo w ca (Releasing a) (unregister n c)).
Proof.
  intros K Hw Hst. destruct (k_callers c K w ca Hw) as [Hs Hr].
  eapply (inv_move c _ w ca (setStage (Releasing a) ca) K Hw); try reflexivity.
  - split; [|done]. intros m v Hm. cbn in Hm. apply lookup_delete_Some in Hm as [Hne Hm]. left. split; [|done]. intros ->.
    destruct (k_pending c K m w Hm) as (ca' & from & H1 & H2 & _). simplify_eq. rewrite Hst in H2. by injection H2 as ->.
  - done.
  - cbn. rewrite Hst. cbn. lia.
  - apply K.
  - apply K.
  - intros Hc. cbn. by rewrite (k_closed c K Hc), delete_empty.
  - split; [|done]. unfold stageOK in *. cbn. rewrite Hst in Hs. by destruct (ca_registered ca) as [[? ?]|]; [apply Hs|].
Qed.

Lemma inv_wrote w out c : connOK c -> connOK (wrote w out c).
Proof. intros K. by eapply inv_ext. Qed.

(** What the invariant says of a registered caller. *)
Lemma held_registered c w ca n :
  connOK c -> cn_callers c !! w = Some ca -> heldID (ca_stage ca) = Some n -> exists from, ca_registered ca = Some (n, from).
Proof.
  intros K Hw Hh. destruct (k_callers c K w ca Hw) as [Hs _]. unfold stageOK in Hs.
  destruct (ca_stage ca), (ca_registered ca) as [[m from]|]; cbn in Hh; try done; simplify_eq; naive_solver.
Qed.

Lemma stage_leaving c w ca n a :
  connOK c -> cn_callers c !! w = Some ca -> heldID (ca_stage ca) = Some n ->
  explained (cn_handled c) (cn_closeErr c) ca a -> stageOK (cn_handled c) (cn_closeErr c) (setStage (Leaving n a) ca).
Proof.
  intros K Hw Hh He. destruct (held_registered c w ca n K Hw Hh) as [from Hr]. unfold stageOK. cbn. by rewrite Hr.
Qed.

Lemma explained_context handled closeErr ca e : isContextError e = true -> explained handled closeErr ca (contextAnswer e).
Proof. intros He. right; right; left. by exists e. Qed.

Lemma explained_closed c ca : cn_closed c = true -> explained (cn_handled c) (cn_closeErr c) ca (inr (Single (connErr c))).
Proof. unfold cn_closed, connErr. destruct (cn_closeErr c) as [e|]; [|done]. intros _. right; left. by exists e. Qed.

Lemma explained_channel c w ca n r :
  connOK c -> cn_callers c !! w = Some ca -> heldID (ca_stage ca) = Some n -> ca_channel ca = Some r ->
  explained (cn_handled c) (cn_closeErr c) ca (answerOf (ca_request ca) r).
Proof.
  intros K Hw Hh Hc. destruct (held_registered c w ca n K Hw Hh) as [from Hr].
  destruct (k_callers c K w ca Hw) as [_ Hreg]. rewrite Hr in Hreg. destruct Hreg as [_ Hreg].
  destruct (Hreg r Hc) as [Ha|(e & He & ->)]; [left; by exists n, from, r|right; left; by exists e].
Qed.

Lemma inv_write c w ca n env c' :
  connOK c -> cn_callers c !! w = Some ca -> ca_stage ca = Registered n ->
  callerStep (OpWrite w env) w ca c = Some c' -> connOK c'.
Proof.
  intros K Hw Hst. unfold callerStep. rewrite Hst. destruct (writeRequest _ _) as [[[out discard] es]|]; [|done]. cbn [mbind option_bind].
  assert (Hh : heldID (ca_stage ca) = Some n) by (by rewrite Hst).
  destruct (held_registered c w ca n K Hw Hh) as [from Hr]. pose proof (inv_wrote w out c K) as K'.
  assert (S : forall s, heldID s = Some n -> holdsSlot s = true -> stageOK (cn_handled c) (cn_closeErr c) (setStage s ca) ->
    connOK (moveTo w ca s (wrote w out c))).
  { intros s H1 H2 H3. apply inv_stage; try done; by rewrite Hst. }
  intros [= <-]. destruct es as [|e es]; [|destruct discard]; apply S; try done; try (by unfold stageOK; cbn; rewrite Hr).
  eapply stage_leaving; try done. do 3 right; left. by exists (e :: es).
Qed.

Lemma inv_discard c w ca n es :
  connOK c -> cn_callers c !! w = Some ca -> ca_stage ca = Discarding n es ->
  connOK (moveTo w ca (Leaving n (inr (Discarded es))) (fail closedError c)).
Proof.
  intros K Hw Hst. pose proof (inv_fail closedError c K) as K'.
  assert (Hw' : cn_callers (fail closedError c) !! w = Some ca) by (unfold fail; by destruct (cn_closed c)).
  apply inv_stage; try done; [by rewrite Hst|by rewrite Hst|].
  eapply stage_leaving; try done; [by rewrite Hst|]. do 4 right. exists es. split; [|done].
  unfold fail, cn_closed. by destruct (cn_closeErr c) eqn:E; rewrite ?E.
Qed.

Lemma inv_callerStep op w ca c c' :
  connOK c -> cn_callers c !! w = Some ca -> callerStep op w ca c = Some c' -> connOK c'.
Proof.
  intros K Hw. pose proof (k_callers c K w ca Hw) as [Hs _].
  assert (M : forall s, heldID s = heldID (ca_stage ca) -> holdsSlot s = holdsSlot (ca_stage ca) ->
     stageOK (cn_handled c) (cn_closeErr c) (setStage s ca) -> connOK (moveTo w ca s c)) by (intros; by apply inv_stage).
  destruct op; cbn [callerStep]; try done; destruct (ca_stage ca) as [| |n|n|n es|n a|a|a] eqn:Hst; try done;
    try (destruct ctxErr; done).
  - destruct (_ <? _) eqn:El; [|done]. intros [= <-].
    pose proof (inv_caller c w ca Holding (ca_channel ca) K Hw) as I. rewrite setChannel_same, Hst in I. cbn in I.
    replace (cn_slots c + 1 - 0) with (cn_slots c + 1) in I by lia. apply I; try done; [by left|lia|].
    unfold stageOK in *. cbn. by rewrite Hst in Hs.
  - destruct (isContextError e) eqn:E; [|done]. intros [= <-]. apply M; try done. by apply explained_context.
  - destruct (cn_closed c) eqn:E; [|done]. intros [= <-]. apply M; try done. by apply explained_closed.
  - destruct ctxErr as [e|].
    + destruct (isContextError e) eqn:E; [|done]. intros [= <-]. apply M; try done. by apply explained_context.
    + destruct (register w c) as [[n c1]|e] eqn:Er; intros [= <-]; [by eapply inv_register|]. apply M; try done.
      unfold register in Er. destruct (cn_closeErr c) as [e0|] eqn:Ee.
      * injection Er as <-. right; left. by exists e0.
      * destruct (registerLoop _ _ _) eqn:El; [done|]. by apply register_finds in El.
  - intros E. eapply (inv_write c w ca n env); try done. unfold callerStep. by rewrite Hst.
  - intros [= <-]. by apply inv_discard.
  - destruct (ca_channel ca) as [r|] eqn:Hc; [|done]. intros [= <-].
    pose proof (inv_caller c w ca (Leaving n (answerOf (ca_request ca) r)) None K Hw) as I. rewrite Hst in I. cbn in I.
    replace (cn_slots c + 1 - 1) with (cn_slots c) in I by lia.
    eapply inv_ext; [apply I|..]; try done; [by right|apply K|]. eapply stage_leaving; try done; [by rewrite Hst|].
    eapply explained_channel; try done. by rewrite Hst.
  - destruct (isContextError e) eqn:E; [|done]. intros [= <-]. apply M; try done.
    eapply stage_leaving; try done; [by rewrite Hst|]. by apply explained_context.
  - destruct (cn_closed c) eqn:E; [|done]. intros [= <-]. apply M; try done.
    eapply stage_leaving; try done; [by rewrite Hst|]. by apply explained_closed.
  - intros [= <-]. by apply inv_leave.
  - intros [= <-]. pose proof (inv_caller c w ca (Finished a) (ca_channel ca) K Hw) as I. rewrite setChannel_same, Hst in I.
    cbn in I. replace (cn_slots c + 0 - 1) with (cn_slots c - 1) in I by lia. apply I; try done; [by left| |].
    + pose proof (k_max c K). lia.
    + unfold stageOK in *. cbn. by rewrite Hst in Hs.
Qed.

Lemma connOK_exec op c c' : connOK c -> exec op c = Some c' -> connOK c'.
Proof.
  intros K. destruct op as [w request ctxErr| | | | | | | | | | | |bytes| |e| |]; cbn [exec];
    try (destruct (cn_callers c !! w) as [ca|] eqn:Hw; [|done]; by apply inv_callerStep).
  - destruct (cn_callers c !! w) as [ca|] eqn:Hw; [done|]. destruct (beginRequest request ctxErr) as [body [q|e]]; intros [= <-]; [|done].
    destruct K as [K1 K2 K3 K4 K5 K6 K7]. split; cbn; try done.
    + intros v va Hv. apply lookup_insert_Some in Hv as [[<- <-]|[Hne Hv]]; [done|by eapply K1].
    + intros n v Hv. destruct (K2 n v Hv) as (va & from & Hva & Hrest). exists va, from. split; [|done].
      rewrite lookup_insert_ne; [done|congruence].
    + intros v Hv. destruct (K3 v Hv) as (Hc & va & r & Hva & Hr). split; [done|]. exists va, r.
      rewrite lookup_insert_ne; [done|congruence].
    + rewrite K5. unfold holders. cbn. rewrite map_filter_insert. cbn. rewrite delete_id by done. done.
  - intros [= <-]. by eapply inv_ext.
  - by apply inv_readStep.
  - destruct (cn_reading c); [|done]. intros [= <-]. apply inv_fail. by eapply inv_ext.
  - intros [= <-]. by apply inv_fail.
  - by apply inv_completeFailed.
Qed.

Lemma execAll_inv (P : Connection -> Prop) :
  (forall op c c', P c -> exec op c = Some c' -> P c') -> forall ops c c', P c -> execAll ops c = Some c' -> P c'.
Proof.
  intros Hstep ops. induction ops as [|op ops IH]; intros c c' HP; cbn; [by intros [= <-]|].
  destruct (exec op c) as [c1|] eqn:E; [|done]. intros Hr. by eapply IH; [eapply Hstep|].
Qed.

Context (Hpos : 0 <= cf_MaxInFlight cfg).

Lemma inv_reachable c : reachable c -> connOK c.
Proof. intros [ops Hr]. eapply (execAll_inv connOK connOK_exec); [by apply inv_New|done]. Qed.

(** ** Numbers are used once, and no request is forgotten

    As long as fewer than 2^31 requests were registered, no number is given twice. *)
Definition expects (s : stage) : option Z :=
  match s with Registered n | Waiting n | Discarding n _ => Some n | _ => None end.

Record liveOK (c : Connection) : Prop := {
  l_next : cn_nextID c = cn_registrations c;
  l_ids : forall w ca n from, cn_callers c !! w = Some ca -> ca_registered ca = Some (n, from) -> 1 <= n <= cn_registrations c;
  l_distinct : forall w w' ca ca' n from from', cn_callers c !! w = Some ca -> cn_callers c !! w' = Some ca' ->
    ca_registered ca = Some (n, from) -> ca_registered ca' = Some (n, from') -> w = w';
  l_open : forall w ca n, cn_callers c !! w = Some ca -> expects (ca_stage ca) = Some n ->
    cn_pending c !! n = Some w \/ ca_channel ca <> None \/ cn_closeErr c <> None;
  l_reading : cn_reading c = false -> cn_closeErr c <> None;
}.

Lemma expects_held s n : expects s = Some n -> heldID s = Some n.
Proof. by destruct s. Qed.

Lemma live_move c c' w ca ca' :
  liveOK c -> cn_callers c !! w = Some ca -> cn_callers c' = <[w := ca']> (cn_callers c) ->
  ca_registered ca' = ca_registered ca -> cn_nextID c' = cn_nextID c -> cn_registrations c' = cn_registrations c ->
  (cn_reading c' = false -> cn_closeErr c' <> None) ->
  (cn_closeErr c <> None -> cn_closeErr c' <> None) ->
  (forall n v, v <> w -> (exists va, cn_callers c !! v = Some va /\ expects (ca_stage va) = Some n) ->
     cn_pending c !! n = Some v -> cn_pending c' !! n = Some v \/ cn_closeErr c' <> None) ->
  (forall n, expects (ca_stage ca') = Some n -> cn_pending c' !! n = Some w \/ ca_channel ca' <> None \/ cn_closeErr c' <> None) ->
  liveOK c'.
Proof.
  intros [L1 L2 L3 L4 L5] Hw Ec Hreg En Er Hrd Hcl Hp Hmine. split.
  - congruence.
  - intros v va n from. rewrite Ec, Er. intros Hv. apply lookup_insert_Some in Hv as [[<- <-]|[Hne Hv]]; [|by eapply L2].
    rewrite Hreg. by eapply L2.
  - intros v v' va va' n from from'. rewrite Ec. intros Hv Hv'.
    apply lookup_insert_Some in Hv as [[<- <-]|[Hne Hv]]; apply lookup_insert_Some in Hv' as [[<- <-]|[Hne' Hv']]; try done;
      rewrite ?Hreg; intros; by eapply L3.
  - intros v va n. rewrite Ec. intros Hv. apply lookup_insert_Some in Hv as [[<- <-]|[Hne Hv]]; [apply Hmine|].
    intros Hx. destruct (L4 v va n Hv Hx) as [Hl|[Hl|Hl]]; [|by right; left|by right; right; apply Hcl].
    destruct (Hp n v ltac:(congruence) ltac:(by exists va) Hl) as [?|?]; [by left|by right; right].
  - done.
Qed.

Lemma live_ext c c' :
  liveOK c -> cn_nextID c' = cn_nextID c -> cn_registrations c' = cn_registrations c -> cn_callers c' = cn_callers c ->
  cn_pending c' = cn_pending c -> cn_closeErr c' = cn_closeErr c -> (cn_reading c' = false -> cn_closeErr c' <> None) -> liveOK c'.
Proof. intros [L1 L2 L3 L4 L5] E1 E2 E3 E4 E5 E6. split; rewrite ?E1, ?E2, ?E3, ?E4, ?E5; try done. by rewrite <- E5. Qed.

(** Once the connection is closed only the numbers matter. *)
Lemma live_closed c c' :
  liveOK c -> cn_nextID c' = cn_nextID c -> cn_registrations c' = cn_registrations c -> cn_callers c' = cn_callers c ->
  cn_closeErr c' <> None -> liveOK c'.
Proof. intros [L1 L2 L3 L4 L5] E1 E2 E3 E4. split; rewrite ?E1, ?E2, ?E3; try done. intros. by right; right. Qed.

Lemma fail_closed e c : cn_closeErr (fail e c) <> None.
Proof. unfold fail, cn_closed. by destruct (cn_closeErr c) eqn:E; rewrite ?E. Qed.

Lemma live_fail e c c0 :
  liveOK c0 -> cn_nextID c = cn_nextID c0 -> cn_registrations c = cn_registrations c0 -> cn_callers c = cn_callers c0 -> liveOK (fail e c).
Proof.
  intros L E1 E2 E3. apply (live_closed c0); try done; [| | |apply fail_closed]; unfold fail; by destruct (cn_closed c).
Qed.

Lemma live_complete w ca n from r c :
  liveOK c -> cn_callers c !! w = Some ca -> ca_registered ca = Some (n, from) ->
  liveOK (setCallers (complete w r (cn_callers c)) c).
Proof.
  intros L Hw Hr. unfold complete. destruct (ca_channel ca) as [r0|] eqn:Hch.
  - rewrite alter_id; [eapply live_ext; try done; apply L|]. intros ca' Hw'. assert (ca' = ca) as -> by congruence. by rewrite Hch.
  - eapply (live_move c _ w ca (setChannel (Some r) ca) L Hw); try done; [| |by left|by right; left].
    + apply map_eq. intros i. destruct (decide (i = w)) as [->|Hi].
      * cbn. by rewrite lookup_alter_eq, lookup_insert_eq, Hw; cbn; rewrite Hch.
      * cbn. by rewrite lookup_alter_ne, lookup_insert_ne by congruence.
    + apply L.
Qed.

Lemma complete_empty (callers : gmap nat caller) w ca r :
  callers !! w = Some ca -> ca_channel ca = None -> complete w r callers = <[w := setChannel (Some r) ca]> callers.
Proof.
  intros Hw Hc. unfold complete. apply map_eq. intros i. destruct (decide (i = w)) as [->|Hi].
  - by rewrite lookup_alter_eq, lookup_insert_eq, Hw; cbn; rewrite Hc.
  - by rewrite lookup_alter_ne, lookup_insert_ne by congruence.
Qed.

Lemma live_deliver n r c : connOK c -> liveOK c -> liveOK (deliver n r c).
Proof.
  intros K L. unfold deliver. destruct (cn_pending c !! n) as [w|] eqn:Hn; [|done].
  destruct (k_pending c K n w Hn) as (ca & from & Hw & _ & Hr & Hch & _). rewrite (complete_empty _ _ _ _ Hw Hch).
  eapply (live_move c _ w ca (setChannel (Some r) ca) L Hw); try done; [apply L| |by right; left].
  intros m v Hne _ Hm. left. cbn. rewrite lookup_delete_ne; [done|]. intros <-. congruence.
Qed.

Lemma live_readStep c c' : connOK c -> liveOK c -> readStep c = Some c' -> liveOK c'.
Proof.
  intros K L. unfold readStep. destruct (negb (cn_reading c)); [done|]. destruct (readFrame _ _) as [|e|frame rest]; [done| |].
  - intros [= <-]. by eapply live_fail.
  - assert (L1 : liveOK (setInput rest c)) by (eapply live_ext; try done; apply L).
    destruct (handleFrame frame) as [[n r]|e] eqn:Hf; intros [= <-]; [|by eapply live_fail].
    unfold deliver. cbn [cn_pending record_ setInput]. destruct (cn_pending c !! n) as [w|] eqn:Hn.
    + pose proof (live_deliver n r c K L) as L2. unfold deliver in L2. rewrite Hn in L2. eapply live_ext; [apply L2|..]; try done. apply L.
    + eapply live_ext; [apply L|..]; try done. apply L.
Qed.

Lemma live_register c w ca n c' :
  connOK c -> liveOK c -> cn_registrations c + 1 < 2 ^ 31 -> cn_callers c !! w = Some ca -> ca_stage ca = Holding ->
  register w c = inl (n, c') ->
  liveOK (setCallers (<[w := MkCaller (ca_request ca) (ca_body ca) (Registered n) None (Some (n, length (cn_handled c)))]> (cn_callers c)) c').
Proof.
  intros K [L1 L2 L3 L4 L5] Hlt Hw Hst. unfold register. destruct (cn_closeErr c) as [e|] eqn:Ee; [done|].
  destruct (registerLoop _ _ _) as [m|] eqn:El; [|done]. intros [= -> <-].
  pose proof (k_next c K) as Hn0. rewrite registerLoop_S, nextNumber_succ in El by lia.
  assert (Hfree : cn_pending c !! (cn_nextID c + 1) = None).
  { destruct (cn_pending c !! (cn_nextID c + 1)) as [v|] eqn:Hv; [|done]. destruct (k_pending c K _ v Hv) as (va & from & Hva & _ & Hr & _).
    pose proof (L2 v va _ from Hva Hr). lia. }
  rewrite Hfree in El. injection El as <-. split; cbn.
  - lia.
  - intros v va m from Hv Hr. apply lookup_insert_Some in Hv as [[<- <-]|[Hne Hv]].
    + injection Hr as <- <-. lia.
    + pose proof (L2 v va m from Hv Hr). lia.
  - intros v v' va va' m from from' Hv Hv' Hr Hr'.
    apply lookup_insert_Some in Hv as [[<- <-]|[Hne Hv]]; apply lookup_insert_Some in Hv' as [[<- <-]|[Hne' Hv']]; try done.
    + injection Hr as <- <-. pose proof (L2 v' va' _ from' Hv' Hr'). lia.
    + injection Hr' as <- <-. pose proof (L2 v va _ from Hv Hr). lia.
    + by eapply L3.
  - intros v va m Hv Hx. apply lookup_insert_Some in Hv as [[<- <-]|[Hne Hv]].
    + left. injection Hx as <-. apply lookup_insert_eq.
    + destruct (L4 v va m Hv Hx) as [Hl|[Hl|Hl]]; [|by right; left|done]. left. rewrite lookup_insert_ne; [done|].
      intros <-. congruence.
  - intros Hf. by apply L5 in Hf.
Qed.

(** A step that moves a caller along, or to where it expects nothing. *)
Lemma live_stage c c' w ca ch s :
  liveOK c -> cn_callers c !! w = Some ca -> cn_callers c' = <[w := setStage s (setChannel ch ca)]> (cn_callers c) ->
  cn_nextID c' = cn_nextID c -> cn_registrations c' = cn_registrations c ->
  (cn_closeErr c' = cn_closeErr c \/ cn_closeErr c' <> None) -> cn_reading c' = cn_reading c -> cn_pending c' = cn_pending c \/ cn_closeErr c' <> None ->
  (expects s = None \/ expects s = expects (ca_stage ca) /\ ch = ca_channel ca) -> liveOK c'.
Proof.
  intros L Hw Ec En Er Hcl Hrd Hp Hs. eapply (live_move c c' w ca _ L Hw Ec); try done.
  - rewrite Hrd. intros Hf. destruct Hcl as [-> | Hcl]; [by apply L|done].
  - by destruct Hcl as [-> | Hcl].
  - intros n v _ _ Hl. destruct Hp as [-> | Hp]; [by left|by right].
  - intros n Hx. cbn in *. destruct Hs as [Hs|[Hs ->]]; [congruence|]. rewrite Hs in Hx.
    destruct (l_open c L w ca n Hw Hx) as [Hl|[Hl|Hl]]; [destruct Hp as [-> | Hp]; [by left|by right; right]|by right; left|].
    right; right. by destruct Hcl as [-> | Hcl].
Qed.

Lemma live_callerStep op w ca c c' :
  connOK c -> liveOK c -> cn_registrations c' < 2 ^ 31 -> cn_callers c !! w = Some ca -> callerStep op w ca c = Some c' -> liveOK c'.
Proof.
  intros K L Hlt Hw.
  assert (M : forall c1 s, cn_callers c1 = <[w := setStage s ca]> (cn_callers c) -> cn_nextID c1 = cn_nextID c ->
      cn_registrations c1 = cn_registrations c -> (cn_closeErr c1 = cn_closeErr c \/ cn_closeErr c1 <> None) ->
      cn_reading c1 = cn_reading c -> cn_pending c1 = cn_pending c \/ cn_closeErr c1 <> None ->
      (expects s = None \/ expects s = expects (ca_stage ca)) -> liveOK c1).
  { intros c1 s E1 E2 E3 E4 E5 E6 E7. eapply (live_stage c c1 w ca (ca_channel ca) s); try done.
    by destruct E7; [left|right]. }
  destruct op; cbn [callerStep]; try done; destruct (ca_stage ca) as [| |n|n|n es|n a|a|a] eqn:Hst; try done;
    try (destruct ctxErr; done).
  - destruct (_ <? _) eqn:El; [|done]. intros [= <-]. eapply M; try done; by left.
  - destruct (isContextError e); [|done]. intros [= <-]. eapply M; try done; by left.
  - destruct (cn_closed c); [|done]. intros [= <-]. eapply M; try done; by left.
  - destruct ctxErr as [e|].
    + destruct (isContextError e); [|done]. intros [= <-]. eapply M; try done; by left.
    + destruct (register w c) as [[n c1]|e] eqn:Er; intros E; injection E as <-; [|eapply M; try done; by left].
      eapply live_register; try done. unfold register in Er. destruct (cn_closeErr c); [done|].
      destruct (registerLoop _ _ _); [|done]. injection Er as <- <-. exact Hlt.
  - destruct (writeRequest _ _) as [[[out discard] es]|]; [|done]. intros [= <-].
    destruct es as [|e es]; [|destruct discard]; eapply M; try done; (by left) || (by right).
  - intros [= <-]. eapply M; unfold moveTo, fail; try done; try (by destruct (cn_closed c)); try (by left); right; apply fail_closed.
  - destruct (ca_channel ca) as [r|] eqn:Hc; [|done]. intros [= <-]. eapply (live_stage c _ w ca None); try done; by left.
  - destruct (isContextError e); [|done]. intros [= <-]. eapply M; try done; by left.
  - destruct (cn_closed c); [|done]. intros [= <-]. eapply M; try done; by left.
  - intros [= <-]. eapply (live_move c _ w ca (setStage (Releasing a) ca) L Hw); try done; [apply L|].
    intros m v Hne (va & Hva & Hx) Hm. left. cbn. rewrite lookup_delete_ne; [done|]. intros <-. apply Hne.
    destruct (held_registered c w ca n K Hw) as [from Hr]; [by rewrite Hst|].
    destruct (held_registered c v va n K Hva (expects_held _ _ Hx)) as [from' Hr']. symmetry. by eapply l_distinct.
  - intros [= <-]. eapply M; try done; by left.
Qed.

Lemma fail_registrations e c : cn_registrations (fail e c) = cn_registrations c.
Proof. unfold fail. by destruct (cn_closed c). Qed.

Lemma exec_registrations op c c' : exec op c = Some c' -> cn_registrations c <= cn_registrations c'.
Proof.
  assert (C : forall op w ca, callerStep op w ca c = Some c' -> cn_registrations c <= cn_registrations c').
  { clear op. intros op w ca. destruct op; cbn [callerStep]; try done; destruct (ca_stage ca) as [| |n|n|n es|n a|a|a]; try done;
      try (destruct ctxErr; done); repeat case_match; try done; try (intros [= <-]; cbn; rewrite ?fail_registrations; lia).
    - unfold register in *. intros [= <-]. repeat case_match; try done. simplify_eq. cbn. lia.
    - destruct (writeRequest _ _) as [[[out discard] es]|]; [|done]. intros [= <-]. destruct es; [|destruct discard]; cbn; lia.
    - destruct (ca_channel ca); [|done]. intros [= <-]. cbn. lia. }
  destruct op; cbn [exec]; try (destruct (cn_callers c !! w) as [ca|]; [|done]; by apply C).
  - destruct (cn_callers c !! w); [done|]. destruct (beginRequest _ _) as [body [q|e]]; intros [= <-]; cbn; lia.
  - intros [= <-]. cbn. lia.
  - unfold readStep, deliver. repeat case_match; try done; intros [= <-]; rewrite ?fail_registrations; cbn; lia.
  - destruct (cn_reading c); [|done]. intros [= <-]. rewrite fail_registrations. cbn. lia.
  - intros [= <-]. unfold Close. rewrite fail_registrations. lia.
  - unfold completeFailed. destruct (cn_failing c); [done|]. intros [= <-]. cbn. lia.
Qed.

Definition runOK (c : Connection) : Prop := connOK c /\ (cn_registrations c < 2 ^ 31 -> liveOK c).

Lemma run_exec op c c' : runOK c -> exec op c = Some c' -> runOK c'.
Proof.
  intros [K L] E. split; [by eapply connOK_exec|]. intros Hlt. pose proof (exec_registrations op c c' E) as Hle.
  specialize (L ltac:(lia)). destruct op as [w request ctxErr| | | | | | | | | | | |bytes| |e| |]; cbn [exec] in E;
    try (destruct (cn_callers c !! w) as [ca|] eqn:Hw; cbn [mbind option_bind] in E; [|done]; by eapply live_callerStep).
  - destruct (cn_callers c !! w) as [ca|] eqn:Hw; [done|]. destruct (beginRequest request ctxErr) as [body [q|e]]; injection E as <-; [|done].
    destruct L as [L1 L2 L3 L4 L5]. split; cbn; try done.
    + intros v va n from Hv Hr. apply lookup_insert_Some in Hv as [[<- <-]|[_ Hv]]; [done|by eapply L2].
    + intros v v' va va' n from from' Hv Hv' Hr Hr'.
      apply lookup_insert_Some in Hv as [[<- <-]|[_ Hv]]; [done|]. apply lookup_insert_Some in Hv' as [[<- <-]|[_ Hv']]; [done|].
      by eapply L3.
    + intros v va n Hv Hx. apply lookup_insert_Some in Hv as [[<- <-]|[_ Hv]]; [done|by apply L4].
  - injection E as <-. eapply live_ext; try done. apply L.
  - by eapply live_readStep.
  - destruct (cn_reading c); [|done]. injection E as <-. by eapply live_fail.
  - injection E as <-. by eapply live_fail.
  - unfold completeFailed in E. destruct (cn_failing c) as [|w rest] eqn:Ef; [done|]. injection E as <-.
    destruct (k_failing c K w) as (Hc & ca & [n from] & Hw & Hr); [rewrite Ef; by left|].
    eapply (live_closed (setCallers (complete w (inr (connErr c)) (cn_callers c)) c)); try done. by eapply live_complete.
Qed.

Lemma run_reachable c : reachable c -> runOK c.
Proof.
  intros [ops Hr]. eapply (execAll_inv runOK run_exec); [|done]. split; [by apply inv_New|]. intros _. split; cbn; try done; intros *; by rewrite lookup_empty.
Qed.

(** ** What is on the wire *)

Lemma writeFrame_bounds ctxErr late answers_ frame total written err :
  writeFrame ctxErr late answers_ frame total = Some (written, err) ->
  total <= written <= total + glen frame /\ (err = None -> written = total + glen frame).
Proof.
  revert frame total. induction answers_ as [|[n e] rest IH]; intros frame total; cbn [writeFrame];
    pose proof (glen_nonneg frame) as Hg; (destruct (glen frame <=? 0) eqn:E0; [intros [= <- <-]; lia|]); try done.
  destruct (_ || _) eqn:En; [intros [= <- <-]; split; [lia|done]|]. apply orb_false_iff in En as [En1 En2].
  destruct e as [e|]; [intros [= <- <-]; split; [lia|done]|]. destruct (n =? 0) eqn:Ez; [intros [= <- <-]; split; [lia|done]|].
  intros Hw. apply IH in Hw as [Hb Hf]. unfold glen in *. rewrite length_drop in *. split; [lia|]. intros He. specialize (Hf He). lia.
Qed.

(** [writeFrame] returns once the connection has answered as many calls as the frame has bytes. *)
Lemma writeFrame_returns ctxErr late answers_ frame total :
  glen frame <= glen answers_ -> is_Some (writeFrame ctxErr late answers_ frame total).
Proof.
  revert frame total. induction answers_ as [|[n e] rest IH]; intros frame total Hl; cbn [writeFrame];
    (destruct (glen frame <=? 0) eqn:E0; [done|]); try (unfold glen in *; cbn in Hl; lia).
  destruct (_ || _) eqn:En; [done|]. apply orb_false_iff in En as [En1 En2].
  destruct e as [e|]; [done|]. destruct (n =? 0) eqn:Ez; [done|].
  apply IH. unfold glen in *. cbn in Hl. rewrite length_drop. lia.
Qed.

Lemma writeRequest_out env frame out discard es :
  writeRequest env frame = Some (out, discard, es) ->
  exists n, (n <= length frame)%nat /\ out = take n frame /\ (es = [] -> n = length frame) /\
    (es <> [] -> discard = false -> n = 0%nat).
Proof.
  unfold writeRequest. destruct (we_ctx env) as [e|]; [intros [= <- <- <-]; exists 0%nat; repeat split; (lia || done)|].
  destruct (we_prepare env) as [e|]; [intros [= <- <- <-]; exists 0%nat; repeat split; (lia || done)|].
  destruct (writeFrame _ _ _ _ _) as [[written err]|] eqn:Ew; [|done]. apply writeFrame_bounds in Ew as [Hb Hfull].
  cbn [mbind option_bind]. unfold glen in *.
  destruct (we_finish env) as [e|], err as [e'|]; intros [= <- <- <-]; exists (Z.to_nat written); repeat split; try done; try lia.
  - intros _. specialize (Hfull eq_refl). lia.
Qed.

(** The frame of a registered caller. *)
Definition frameOf (callers : gmap nat caller) (w : nat) : list byte :=
  match callers !! w with
  | Some ca =>
    match ca_registered ca with
    | Some (n, _) => requestFrame (requestKey (ca_request ca)) (requestVersion (ca_request ca)) n (ca_body ca)
    | None => []
    end
  | None => []
  end.

Definition isDiscarding (s : stage) : bool := match s with Discarding _ _ => true | _ => false end.
Definition isRegistered (s : stage) : bool := match s with Registered _ => true | _ => false end.
Definition isWaiting (s : stage) : bool := match s with Waiting _ => true | _ => false end.

Record wireOK (c : Connection) : Prop := {
  x_output : cn_output c = concat (map (fun e => take e.2 (frameOf (cn_callers c) e.1)) (cn_writes c));
  x_once : NoDup (cn_writes c).*1;
  x_write : forall w n, (w, n) ∈ cn_writes c -> exists ca, cn_callers c !! w = Some ca /\ is_Some (ca_registered ca) /\
    (n <= length (frameOf (cn_callers c) w))%nat /\ isRegistered (ca_stage ca) = false /\
    ((n < length (frameOf (cn_callers c) w))%nat -> isDiscarding (ca_stage ca) = true \/ cn_closeErr c <> None);
  x_waiting : forall w ca, cn_callers c !! w = Some ca -> isWaiting (ca_stage ca) = true ->
    (w, length (frameOf (cn_callers c) w)) ∈ cn_writes c;
  x_body : forall w ca, cn_callers c !! w = Some ca -> glen (ca_body ca) + requestHeaderSize <= cf_MaxFrameSize cfg /\
    forall n from, ca_registered ca = Some (n, from) -> 1 <= n < 2 ^ 31;
}.

Lemma frameOf_insert callers w ca ca' v :
  callers !! w = Some ca -> ca_request ca' = ca_request ca -> ca_body ca' = ca_body ca ->
  ca_registered ca' = ca_registered ca -> frameOf (<[w := ca']> callers) v = frameOf callers v.
Proof.
  intros Hw Eq Eb Er. unfold frameOf. destruct (decide (v = w)) as [->|Hne]; [|by rewrite lookup_insert_ne by congruence].
  rewrite lookup_insert_eq, Hw, Eq, Eb, Er. done.
Qed.

Lemma length_requestFrame key version n body : length (requestFrame key version n body) = (12 + length body)%nat.
Proof. unfold requestFrame. rewrite !length_app, !length_bigEndian. lia. Qed.

Lemma wire_ext c c' :
  wireOK c -> cn_callers c' = cn_callers c -> cn_output c' = cn_output c -> cn_writes c' = cn_writes c ->
  (cn_closeErr c <> None -> cn_closeErr c' <> None) -> wireOK c'.
Proof.
  intros [X1 X2 X3 X4 X5] E1 E2 E3 E4. split; rewrite ?E1, ?E2, ?E3; try done. intros w n Hw.
  destruct (X3 w n Hw) as (ca & H1 & H2 & H3 & H4 & H5). exists ca. repeat split; try done. intros Hn. destruct (H5 Hn); [by left|].
  right. by apply E4.
Qed.

(** A caller moves without writing. *)
Lemma wire_move c c' w ca ca' :
  wireOK c -> cn_callers c !! w = Some ca -> cn_callers c' = <[w := ca']> (cn_callers c) ->
  ca_request ca' = ca_request ca -> ca_body ca' = ca_body ca -> ca_registered ca' = ca_registered ca ->
  cn_output c' = cn_output c -> cn_writes c' = cn_writes c -> (cn_closeErr c <> None -> cn_closeErr c' <> None) ->
  (isRegistered (ca_stage ca') = true -> isRegistered (ca_stage ca) = true) ->
  (isDiscarding (ca_stage ca) = true -> isDiscarding (ca_stage ca') = true \/ cn_closeErr c' <> None) ->
  (isWaiting (ca_stage ca') = true -> isWaiting (ca_stage ca) = true) -> wireOK c'.
Proof.
  intros [X1 X2 X3 X4 X5] Hw Ec Eq Eb Er E1 E2 E3 S1 S2 S3.
  assert (F : forall v, frameOf (cn_callers c') v = frameOf (cn_callers c) v) by (intros v; rewrite Ec; by eapply frameOf_insert).
  split; rewrite ?E1, ?E2.
  - rewrite X1. f_equal. apply map_ext. intros e. by rewrite F.
  - done.
  - intros v n Hv. rewrite F. destruct (X3 v n Hv) as (va & H1 & H2 & H3 & H4 & H5).
    destruct (decide (v = w)) as [->|Hne].
    + simplify_eq. exists ca'. rewrite Ec, lookup_insert_eq. split; [done|]. split; [by rewrite Er|]. split; [done|]. split.
      * destruct (isRegistered (ca_stage ca')); [|done]. by rewrite S1 in H4.
      * intros Hn. destruct (H5 Hn); [by apply S2|right; by apply E3].
    + exists va. rewrite Ec, lookup_insert_ne by congruence. do 4 (split; [done|]). intros Hn. destruct (H5 Hn); [by left|right; by apply E3].
  - intros v va. rewrite F, Ec. intros Hv Hs. apply lookup_insert_Some in Hv as [[<- <-]|[Hne Hv]]; [|by eapply X4].
    eapply X4; [done|by apply S3].
  - intros v va. rewrite Ec. intros Hv. apply lookup_insert_Some in Hv as [[<- <-]|[Hne Hv]]; [|by eapply X5].
    rewrite Eb, Er. by eapply X5.
Qed.

Lemma not_written c w ca n :
  wireOK c -> cn_callers c !! w = Some ca -> ca_registered ca = None \/ isRegistered (ca_stage ca) = true -> (w, n) ∉ cn_writes c.
Proof.
  intros X Hw Hs Hin. destruct (x_write c X w n Hin) as (ca' & H1 & [r H2] & H3 & H4 & _). simplify_eq. destruct Hs as [Hs|Hs]; congruence.
Qed.

Lemma wire_write c w ca n from env out discard es s :
  wireOK c -> cn_callers c !! w = Some ca -> ca_stage ca = Registered n -> ca_registered ca = Some (n, from) ->
  writeRequest env (requestFrame (requestKey (ca_request ca)) (requestVersion (ca_request ca)) n (ca_body ca)) = Some (out, discard, es) ->
  isRegistered s = false -> (es <> [] -> discard = true -> isDiscarding s = true) -> (isWaiting s = true -> es = []) ->
  wireOK (moveTo w ca s (wrote w out c)).
Proof.
  intros X Hw Hst Hr Hwr S1 S2 S3. apply writeRequest_out in Hwr as (k & Hk & -> & Hfull & Hnone).
  set (f := requestFrame _ _ _ _) in *. pose proof X as [X1 X2 X3 X4 X5].
  assert (Hf : frameOf (cn_callers c) w = f) by (unfold frameOf; by rewrite Hw, Hr).
  assert (F : forall v, frameOf (<[w := setStage s ca]> (cn_callers c)) v = frameOf (cn_callers c) v)
    by (intros v; by eapply frameOf_insert).
  assert (Hlen : (0 < length f)%nat) by (unfold f; rewrite length_requestFrame; lia).
  assert (Hnew : forall m, (w, m) ∉ cn_writes c) by (intros m; eapply not_written; [done..|right; by rewrite Hst]).
  assert (Hwrites : cn_writes (wrote w (take k f) c) = cn_writes c ++ if decide (k = 0%nat) then [] else [(w, k)]).
  { cbn. f_equal. destruct (decide (k = 0%nat)) as [->|Hk0]; [done|]. destruct (take k f) eqn:Et.
    - apply (f_equal length) in Et. rewrite length_take in Et. cbn in Et. lia.
    - rewrite <- Et, length_take. do 3 f_equal. lia. }
  split; cbn [cn_output cn_callers moveTo setCallers]; change (cn_writes (moveTo _ _ _ _)) with (cn_writes (wrote w (take k f) c)); rewrite ?Hwrites.
  - cbn [wrote cn_output]. rewrite X1, map_app, concat_app. f_equal.
    + f_equal. apply map_ext. intros e. by rewrite F.
    + destruct (decide (k = 0%nat)) as [->|Hk0]; [done|]. cbn. by rewrite F, Hf, app_nil_r.
  - rewrite fmap_app. apply NoDup_app. split; [done|]. split; [|destruct (decide _); [constructor|apply NoDup_singleton]].
    intros v Hv Hv'. destruct (decide (k = 0%nat)); [by apply not_elem_of_nil in Hv'|]. cbn in Hv'. apply list_elem_of_singleton in Hv' as ->.
    apply list_elem_of_fmap in Hv as ([v m] & -> & Hv). by apply (Hnew m).
  - intros v m Hv. rewrite F. apply elem_of_app in Hv as [Hv|Hv].
    + destruct (X3 v m Hv) as (va & H1 & H2 & H3 & H4 & H5). exists va. rewrite lookup_insert_ne; [done|]. intros <-. by apply (Hnew m).
    + destruct (decide (k = 0%nat)); [by apply not_elem_of_nil in Hv|]. apply list_elem_of_singleton in Hv as [= -> ->].
      exists (setStage s ca). rewrite lookup_insert_eq, Hf. split; [done|]. split; [cbn; by rewrite Hr|]. split; [done|]. split; [done|].
      intros Hlt. left. apply S2; [intros ->; specialize (Hfull eq_refl); lia|]. destruct discard; [done|].
      destruct es; [specialize (Hfull eq_refl); lia|]. specialize (Hnone ltac:(done) eq_refl). lia.
  - intros v va Hv Hs. rewrite F. apply elem_of_app. apply lookup_insert_Some in Hv as [[<- <-]|[Hne Hv]]; [right|left; by eapply X4].
    rewrite Hf. specialize (Hfull (S3 Hs)). subst k. rewrite decide_False by lia. by left.
  - intros v va Hv. apply lookup_insert_Some in Hv as [[<- <-]|[Hne Hv]]; [by apply (X5 w ca)|by eapply X5].
Qed.

Lemma wire_register c w ca n c' :
  wireOK c -> cn_callers c !! w = Some ca -> ca_registered ca = None -> isWaiting (ca_stage ca) = false ->
  register w c = inl (n, c') ->
  wireOK (setCallers (<[w := MkCaller (ca_request ca) (ca_body ca) (Registered n) None (Some (n, length (cn_handled c)))]> (cn_callers c)) c').
Proof.
  intros X Hw Hr Hs. unfold register. destruct (cn_closeErr c) as [e|] eqn:Ee; [done|].
  destruct (registerLoop _ _ _) as [m|] eqn:El; [|done]. intros [= -> <-]. apply registerLoop_free in El as [_ Hrange].
  pose proof X as [X1 X2 X3 X4 X5]. set (callers' := <[w := _]> _).
  assert (Hnew : forall m, (w, m) ∉ cn_writes c) by (intros m; eapply not_written; [done..|by left]).
  assert (F : forall v, v <> w -> frameOf callers' v = frameOf (cn_callers c) v)
    by (intros v Hv; unfold frameOf, callers'; by rewrite lookup_insert_ne by congruence).
  assert (Hin : forall v k, (v, k) ∈ cn_writes c -> v <> w) by (intros v k Hv ->; by apply (Hnew k)).
  split; cbn.
  - rewrite X1. f_equal. apply map_ext_in. intros [v k] Hv. cbn. rewrite F; [done|]. apply (Hin v k). by apply list_elem_of_In.
  - done.
  - intros v k Hv. rewrite (F v (Hin v k Hv)). destruct (X3 v k Hv) as (va & H1 & H2 & H3 & H4 & H5). exists va.
    unfold callers'. rewrite lookup_insert_ne by (intros <-; by apply (Hin w k)). rewrite Ee in H5. done.
  - intros v va Hv Hva. unfold callers' in Hv. apply lookup_insert_Some in Hv as [[<- <-]|[Hne Hv]]; [done|].
    rewrite F by congruence. by eapply X4.
  - intros v va Hv. unfold callers' in Hv. apply lookup_insert_Some in Hv as [[<- <-]|[Hne Hv]]; [|by eapply X5].
    split; [by apply (X5 w ca)|]. intros m from [= <- <-]. done.
Qed.

Lemma wire_callerStep op w ca c c' :
  connOK c -> wireOK c -> cn_callers c !! w = Some ca -> callerStep op w ca c = Some c' -> wireOK c'.
Proof.
  intros K X Hw.
  assert (M : forall c1 s ch, cn_callers c1 = <[w := setStage s (setChannel ch ca)]> (cn_callers c) -> cn_output c1 = cn_output c ->
      cn_writes c1 = cn_writes c -> (cn_closeErr c <> None -> cn_closeErr c1 <> None) -> isRegistered s = false ->
      (isDiscarding (ca_stage ca) = true -> cn_closeErr c1 <> None) -> isWaiting s = false -> wireOK c1).
  { intros c1 s ch E1 E2 E3 E4 E5 E6 E7. eapply (wire_move c c1 w ca _ X Hw E1); try done; cbn; rewrite ?E5, ?E7; try done. by right; apply E6. }
  destruct op; cbn [callerStep]; try done; destruct (ca_stage ca) as [| |n|n|n es|n a|a|a] eqn:Hst; try done;
    try (destruct ctxErr; done).
  - destruct (_ <? _) eqn:El; [|done]. intros [= <-]. by apply (M _ Holding (ca_channel ca)).
  - destruct (isContextError e); [|done]. intros [= <-]. by eapply (M _ _ (ca_channel ca)).
  - destruct (cn_closed c); [|done]. intros [= <-]. by eapply (M _ _ (ca_channel ca)).
  - destruct ctxErr as [e|].
    + destruct (isContextError e); [|done]. intros [= <-]. by eapply (M _ _ (ca_channel ca)).
    + destruct (register w c) as [[n c1]|e] eqn:Er; intros E; injection E as <-; [|by eapply (M _ _ (ca_channel ca))].
      eapply wire_register; try done; [|by rewrite Hst]. destruct (k_callers c K w ca Hw) as [Hs _]. unfold stageOK in Hs.
      rewrite Hst in Hs. by destruct (ca_registered ca).
  - destruct (held_registered c w ca n K Hw) as [from Hr]; [by rewrite Hst|].
    destruct (writeRequest _ _) as [[[out discard] es]|] eqn:Ew; [|done]. intros [= <-].
    destruct es as [|e es]; [|destruct discard]; by eapply wire_write.
  - intros [= <-]. eapply (M _ (Leaving n (inr (Discarded es))) (ca_channel ca)); try done; unfold moveTo, fail; try (by destruct (cn_closed c));
      intros _; apply fail_closed.
  - destruct (ca_channel ca) as [r|] eqn:Hc; [|done]. intros [= <-]. by eapply (M _ _ None).
  - destruct (isContextError e); [|done]. intros [= <-]. by eapply (M _ _ (ca_channel ca)).
  - destruct (cn_closed c); [|done]. intros [= <-]. by eapply (M _ _ (ca_channel ca)).
  - intros [= <-]. by eapply (M _ _ (ca_channel ca)).
  - intros [= <-]. by eapply (M _ _ (ca_channel ca)).
Qed.

Lemma wire_complete w r c : wireOK c -> wireOK (setCallers (complete w r (cn_callers c)) c).
Proof.
  intros X. destruct (cn_callers c !! w) as [ca|] eqn:Hw.
  - destruct (ca_channel ca) as [r0|] eqn:Hch.
    + unfold complete. rewrite alter_id; [by eapply wire_ext|]. intros ca' Hw'. assert (ca' = ca) as -> by congruence. by rewrite Hch.
    + rewrite (complete_empty _ _ _ _ Hw Hch). eapply (wire_move c _ w ca _ X Hw); try done. by left.
  - unfold complete. rewrite alter_id' by done. by eapply wire_ext.
Qed.

Lemma wire_fail e c c0 :
  wireOK c0 -> cn_callers c = cn_callers c0 -> cn_output c = cn_output c0 -> cn_writes c = cn_writes c0 -> wireOK (fail e c).
Proof.
  intros X E1 E2 E3. apply (wire_ext c0); try done; try (intros _; apply fail_closed); unfold fail; by destruct (cn_closed c).
Qed.

Lemma wire_exec op c c' : connOK c -> wireOK c -> exec op c = Some c' -> wireOK c'.
Proof.
  intros K X E. destruct op as [w request ctxErr| | | | | | | | | | | |bytes| |e| |]; cbn [exec] in E;
    try (destruct (cn_callers c !! w) as [ca|] eqn:Hw; cbn [mbind option_bind] in E; [|done]; by eapply wire_callerStep).
  - destruct (cn_callers c !! w) as [ca|] eqn:Hw; [done|]. destruct (beginRequest request ctxErr) as [body [q|e]] eqn:Eb; injection E as <-; [|done].
    pose proof X as [X1 X2 X3 X4 X5]. set (ca := MkCaller q body Blocked None None).
    assert (F : forall v, frameOf (<[w := ca]> (cn_callers c)) v = frameOf (cn_callers c) v).
    { intros v. unfold frameOf. destruct (decide (v = w)) as [->|Hne]; [by rewrite lookup_insert_eq, Hw|by rewrite lookup_insert_ne by congruence]. }
    split; cbn [setCallers cn_output cn_writes cn_callers cn_closeErr].
    + rewrite X1. f_equal. apply map_ext. intros e. by rewrite F.
    + done.
    + intros v n Hv. rewrite F. destruct (X3 v n Hv) as (va & H1 & H2). exists va. rewrite lookup_insert_ne; [done|congruence].
    + intros v va Hv. rewrite F. apply lookup_insert_Some in Hv as [[<- <-]|[_ Hv]]; [done|by eapply X4].
    + intros v va Hv. apply lookup_insert_Some in Hv as [[<- <-]|[_ Hv]]; [|by eapply X5]. split; [|done]. cbn.
      unfold beginRequest in Eb. destruct request as [q'|]; [|done]. destruct ctxErr; [done|]. destruct (Marshal q'); [|done].
      destruct (_ <? _) eqn:El; [done|]. injection Eb as <- _. lia.
  - injection E as <-. by eapply wire_ext.
  - unfold readStep in E. destruct (negb (cn_reading c)); [done|]. destruct (readFrame _ _) as [|e|frame rest]; [done| |].
    + injection E as <-. by eapply wire_fail.
    + destruct (handleFrame frame) as [[n r]|e]; injection E as <-; [|by eapply wire_fail].
      unfold deliver. cbn [cn_pending record_ setInput]. destruct (cn_pending c !! n) as [w|]; [|by eapply wire_ext].
      eapply (wire_ext (setCallers (complete w r (cn_callers c)) c)); try done. by apply wire_complete.
  - destruct (cn_reading c); [|done]. injection E as <-. by eapply wire_fail.
  - injection E as <-. by eapply wire_fail.
  - unfold completeFailed in E. destruct (cn_failing c) as [|w rest]; [done|]. injection E as <-.
    eapply (wire_ext (setCallers (complete w (inr (connErr c)) (cn_callers c)) c)); try done. by apply wire_complete.
Qed.

Lemma wire_reachable c : reachable c -> wireOK c.
Proof.
  intros [ops Hr]. enough (connOK c /\ wireOK c) by tauto.
  eapply (execAll_inv (fun c => connOK c /\ wireOK c)); [|split; [by apply inv_New|]|done].
  - intros op c0 c1 [K X] E. split; [by eapply connOK_exec|by eapply wire_exec].
  - split; cbn; try done; [constructor|intros w n Hn; by apply not_elem_of_nil in Hn|..]; intros w ca; by rewrite lookup_empty.
Qed.

(** ** The other end of the wire

    How a server reads requests: a length, then a key, a version, a number and the body, over and
    over until the stream ends.  [parseRequests] is the specification of what is sent. *)
Fixpoint parseRequests (fuel : nat) (stream : list byte) : option (list (Z * Z * Z * list byte)) :=
  match fuel with
  | O => None
  | S fuel =>
    if decide (stream = []) then Some []
    else if glen stream <? 12 then None
    else
      let size := fromBigEndian (take 4 stream) in
      let frame := drop 4 stream in
      if (size <? 8) || (glen frame <? size) then None
      else
        rest ← parseRequests fuel (drop (Z.to_nat size) frame);
        Some ((fromBigEndian (take 2 frame), fromBigEndian (take 2 (drop 2 frame)),
               fromBigEndian (take 4 (drop 4 frame)), take (Z.to_nat (size - 8)) (drop 8 frame)) :: rest)
  end.

Lemma take_bigEndian w v l : take w (bigEndian w v ++ l) = bigEndian w v.
Proof. rewrite take_app_length'; [done|by rewrite length_bigEndian]. Qed.

Lemma drop_bigEndian w v l : drop w (bigEndian w v ++ l) = l.
Proof. rewrite drop_app_length'; [done|by rewrite length_bigEndian]. Qed.

Lemma parse_frame fuel key version n body rest :
  0 <= n < 2 ^ 32 -> glen body + 8 < 2 ^ 32 ->
  parseRequests (S fuel) (requestFrame key version n body ++ rest) =
    (r ← parseRequests fuel rest; Some ((uint16 key, uint16 version, n, body) :: r)).
Proof.
  intros Hn Hb. assert (Hg : 12 <= glen (requestFrame key version n body ++ rest))
    by (unfold glen; rewrite length_app, length_requestFrame; lia).
  cbn [parseRequests]. rewrite decide_False by (intros E; rewrite E, glen_nil in Hg; lia). if_false.
  unfold requestFrame. rewrite <- !app_assoc, take_bigEndian, drop_bigEndian, bigEndian_read.
  pose proof (glen_nonneg body) as Hb0. unfold requestHeaderSize, uint32, uwrap.
  change (8 * Z.of_nat 4) with 32. rewrite Z.mod_mod by done. rewrite (Z.mod_small (8 + glen body)) by lia.
  assert (Hf : glen (bigEndian 2 (key mod 2 ^ 16) ++ bigEndian 2 (version mod 2 ^ 16) ++ bigEndian 4 (n mod 2 ^ 32) ++ body ++ rest)
    = 8 + glen body + glen rest) by (rewrite !glen_app, !glen_bigEndian; lia).
  pose proof (glen_nonneg rest). rewrite Hf. if_false. rewrite take_bigEndian, drop_bigEndian, take_bigEndian, !bigEndian_read.
  change (8 * Z.of_nat 2) with 16. rewrite !Z.mod_mod by done.
  replace (drop 4 (bigEndian 2 (key mod 2 ^ 16) ++ _)) with (bigEndian 4 (n mod 2 ^ 32) ++ body ++ rest)
    by (change 4%nat with (2 + 2)%nat; by rewrite <- drop_drop, !drop_bigEndian).
  rewrite take_bigEndian, bigEndian_read. change (8 * Z.of_nat 4) with 32. rewrite Z.mod_mod, (Z.mod_small n) by done.
  replace (drop 8 _) with (body ++ rest) by (change 8%nat with (2 + (2 + 4))%nat; by rewrite <- !drop_drop, !drop_bigEndian).
  replace (drop (Z.to_nat (8 + glen body)) _) with rest.
  - replace (take (Z.to_nat (8 + glen body - 8)) (body ++ rest)) with body; [done|].
    rewrite take_app_length'; [done|]. unfold glen. lia.
  - replace (Z.to_nat (8 + glen body)) with (2 + (2 + (4 + length body)))%nat by (unfold glen; lia).
    rewrite <- !drop_drop, !drop_bigEndian. by rewrite drop_app_length.
Qed.

(** What a server should read of a write. *)
Definition requestOf (callers : gmap nat caller) (e : nat * nat) : Z * Z * Z * list byte :=
  match callers !! e.1 with
  | Some ca =>
    (uint16 (requestKey (ca_request ca)), uint16 (requestVersion (ca_request ca)),
     match ca_registered ca with Some (n, _) => n | None => 0 end, ca_body ca)
  | None => (0, 0, 0, [])
  end.

Lemma parse_writes callers writes :
  (forall w n, (w, n) ∈ writes -> n = length (frameOf callers w) /\
     exists ca m from, callers !! w = Some ca /\ ca_registered ca = Some (m, from) /\ 0 <= m < 2 ^ 32 /\ glen (ca_body ca) + 8 < 2 ^ 32) ->
  parseRequests (S (length writes)) (concat (map (fun e => take e.2 (frameOf callers e.1)) writes)) = Some (map (requestOf callers) writes).
Proof.
  induction writes as [|[w n] rest IH]; intros Hall; [done|]. cbn [map concat].
  destruct (Hall w n ltac:(by left)) as (-> & ca & m & from & Hw & Hr & Hm & Hb). cbn [fst snd]. rewrite firstn_all.
  replace (frameOf callers w) with (requestFrame (requestKey (ca_request ca)) (requestVersion (ca_request ca)) m (ca_body ca))
    by (unfold frameOf; by rewrite Hw, Hr).
  cbn [length]. rewrite parse_frame by done. rewrite IH by (intros v k Hv; apply Hall; by right).
  cbn. unfold requestOf. cbn. by rewrite Hw, Hr.
Qed.

(** ** What callers may rely on *)

Lemma bigEndian_of l : length l = 4%nat -> bigEndian 4 (fromBigEndian l) = l.
Proof.
  intros Hl. unfold bigEndian, fromBigEndian. rewrite <- (rev_involutive l) at 2. f_equal.
  rewrite <- Hl, <- (length_rev l). apply split_le_combine.
Qed.

Lemma fromBigEndian_range l : length l = 4%nat -> 0 <= fromBigEndian l < 2 ^ 32.
Proof.
  intros Hl. pose proof (le_combine_bound (rev l)) as Hb. unfold fromBigEndian. unfold glen in Hb. rewrite ?length_rev, Hl in Hb. done.
Qed.

Lemma response_frame frame n body :
  1 <= n < 2 ^ 31 -> handleFrame frame = inl (n, inl body) -> frame = Byte.x00 :: bigEndian 4 n ++ body.
Proof.
  intros Hn. unfold handleFrame. destruct frame as [|kind rest]; [done|].
  destruct (byte.unsigned kind =? 0) eqn:Ek.
  - destruct (glen _ <? _) eqn:El; [done|]. change (drop 1 (kind :: rest)) with rest. change (drop 5 (kind :: rest)) with (drop 4 rest).
    assert (Hk : kind = Byte.x00) by (destruct kind; (vm_compute in Ek; discriminate Ek) || reflexivity).
    assert (Hl : length (take 4 rest) = 4%nat) by (rewrite length_take; unfold responseHeaderSize in El; rewrite glen_cons in El; unfold glen in El; lia).
    pose proof (fromBigEndian_range _ Hl) as Hr. intros [= En <-]. rewrite Hk. f_equal.
    assert (fromBigEndian (take 4 rest) = n) as <-.
    { revert En Hn. unfold swrap. change (2 ^ (32 - 1)) with 2147483648. change (2 ^ 32) with 4294967296 in *. change (2 ^ 31) with 2147483648. zlia. }
    rewrite bigEndian_of by done. by rewrite firstn_skipn.
  - repeat case_match; done.
Qed.

Lemma finished_explained c w ca a :
  connOK c -> cn_callers c !! w = Some ca -> ca_stage ca = Finished a -> explained (cn_handled c) (cn_closeErr c) ca a.
Proof.
  intros K Hw Hs. destruct (k_callers c K w ca Hw) as [Hok _]. unfold stageOK in Hok. rewrite Hs in Hok.
  by destruct (ca_registered ca) as [[? ?]|].
Qed.

(** C7: A response is the peer's answer to this request.  When [Request] returns a message, the
    peer sent a frame that carries the number of this request, the first such frame since the
    number was registered; the message is the decoded body of that frame, and while fewer than
    2^31 requests were sent no other request ever had the number. *)
Theorem transport_correlation c w ca message :
  reachable c -> cn_callers c !! w = Some ca -> ca_stage ca = Finished (inl message) ->
  exists n from i body response,
    ca_registered ca = Some (n, from) /\ (from <= i)%nat /\
    cn_handled c !! i = Some (Byte.x00 :: bigEndian 4 n ++ body) /\ silent (take i (cn_handled c)) n from /\
    NewResponse_ (ca_request ca) = Some response /\ Unmarshal body response = inl message /\
    (cn_registrations c < 2 ^ 31 -> forall w' ca' from', cn_callers c !! w' = Some ca' ->
       ca_registered ca' = Some (n, from') -> w' = w).
Proof.
  intros Hr Hw Hs. pose proof (run_reachable c Hr) as [K L]. pose proof (wire_reachable c Hr) as X.
  destruct (finished_explained c w ca _ K Hw Hs) as [(n & from & r & Hreg & Ha & E)|[(e & _ & [=])|[(e & _ & [=])|[(es & [=])|(es & _ & [=])]]]].
  destruct Ha as (i & frame & Hi & Hl & Hf & Hsil). unfold answerOf in E. destruct r as [body|e]; [|done].
  destruct (NewResponse_ (ca_request ca)) as [response|] eqn:En; [|done]. destruct (Unmarshal body response) as [m|e] eqn:Eu; [|done].
  injection E as <-. exists n, from, i, body, response.
  assert (Hn : 1 <= n < 2 ^ 31) by (by eapply (x_body c X w ca Hw)).
  rewrite (response_frame _ _ _ Hn Hf) in Hl. repeat split; try done.
  intros Hlt w' ca' from' Hw' Hr'. by eapply (l_distinct c (L Hlt)).
Qed.

(** Why a request fails.  A request returns what the first frame that answers it says, or the
    error that closed the connection, or its context's error, or the error of its own write,
    and in the last case reports that it discarded the connection only if it did. *)
Theorem transport_outcomes c w ca answer :
  reachable c -> cn_callers c !! w = Some ca -> ca_stage ca = Finished answer ->
  (exists n from r, ca_registered ca = Some (n, from) /\ answers (cn_handled c) n from r /\ answer = answerOf (ca_request ca) r) \/
  (exists e, cn_closeErr c = Some e /\ answer = inr (Single e)) \/
  (exists e, isContextError e = true /\ answer = inr (Single (Failed e))) \/
  (exists es, answer = inr (Joined es)) \/
  (exists es, cn_closeErr c <> None /\ answer = inr (Discarded es)).
Proof. intros Hr. by apply finished_explained, inv_reachable. Qed.

(** The connection is bounded.  The slots in use are the callers between taking and giving one
    back, never more than [MaxInFlight]; each pending number belongs to another of them, and
    [register] finds a free positive number on every open connection. *)
Theorem transport_bounds c :
  reachable c ->
  cn_slots c = Z.of_nat (size (holders c)) /\ cn_slots c <= cf_MaxInFlight cfg /\
  Z.of_nat (size (cn_pending c)) <= cn_slots c /\
  (forall w, cn_closeErr c = None -> exists n c', register w c = inl (n, c') /\ cn_pending c !! n = None /\ 1 <= n < 2 ^ 31).
Proof.
  intros Hr. pose proof (inv_reachable c Hr) as K. split; [apply K|]. split; [apply K|]. split; [by apply pending_size|].
  intros w Ho. unfold register. rewrite Ho. destruct (registerLoop _ _ _) as [n|] eqn:El; [|by apply register_finds in El].
  eexists n, _. split; [done|]. by eapply registerLoop_free.
Qed.

Definition rank (s : stage) : nat :=
  match s with
  | Blocked => 6 | Holding => 5 | Registered _ => 4 | Waiting _ => 3 | Discarding _ _ => 3
  | Leaving _ _ => 2 | Releasing _ => 1 | Finished _ => 0
  end.

Lemma callerStep_rank op w ca c c' :
  callerStep op w ca c = Some c' -> exists ca', cn_callers c' !! w = Some ca' /\ (rank (ca_stage ca') < rank (ca_stage ca))%nat.
Proof.
  assert (M : forall c0 s ca0, ca_stage ca0 = ca_stage ca -> (rank s < rank (ca_stage ca))%nat -> exists ca',
    cn_callers (moveTo w ca0 s c0) !! w = Some ca' /\ (rank (ca_stage ca') < rank (ca_stage ca))%nat).
  { intros c0 s ca0 _ Hs. exists (setStage s ca0). split; [apply lookup_insert_eq|done]. }
  destruct op; cbn [callerStep]; try done; destruct (ca_stage ca) as [| |n|n|n es|n a|a|a] eqn:Hst; try done;
    try (destruct ctxErr; done).
  - destruct (_ <? _); [|done]. intros [= <-]. apply M; [done|cbn; lia].
  - destruct (isContextError e); [|done]. intros [= <-]. apply M; [done|cbn; lia].
  - destruct (cn_closed c); [|done]. intros [= <-]. apply M; [done|cbn; lia].
  - destruct ctxErr as [e|].
    + destruct (isContextError e); [|done]. intros [= <-]. apply M; [done|cbn; lia].
    + destruct (register w c) as [[n c1]|e]; intros [= <-]; [|apply M; [done|cbn; lia]].
      eexists. cbn. rewrite lookup_insert_eq. split; [done|cbn; lia].
  - destruct (writeRequest _ _) as [[[out discard] es]|]; [|done]. intros [= <-].
    destruct es as [|e es]; [|destruct discard]; apply M; try done; cbn; lia.
  - intros [= <-]. apply M; [done|cbn; lia].
  - destruct (ca_channel ca) as [r|]; [|done]. intros [= <-]. apply M; [done|cbn; lia].
  - destruct (isContextError e); [|done]. intros [= <-]. apply M; [done|cbn; lia].
  - destruct (cn_closed c); [|done]. intros [= <-]. apply M; [done|cbn; lia].
  - intros [= <-]. apply M; [done|cbn; lia].
  - intros [= <-]. apply M; [done|cbn; lia].
Qed.

(** A caller that is not blocked for a slot or waiting for an answer can always move, and on a
    closed connection every unfinished caller can. *)
Lemma caller_enabled w ca c :
  (cn_closeErr c <> None \/ ca_stage ca <> Blocked /\ expects (ca_stage ca) = None \/
   isRegistered (ca_stage ca) = true \/ isDiscarding (ca_stage ca) = true \/ cn_slots c < cf_MaxInFlight cfg /\ ca_stage ca = Blocked) ->
  match ca_stage ca with Finished _ => True | _ => exists op, is_Some (callerStep op w ca c) end.
Proof.
  intros Hc. destruct (ca_stage ca) as [| |n|n|n es|n a|a|a] eqn:Hst; try done.
  - destruct Hc as [Hc|[[[] _]|[[=]|[[=]|[Hc _]]]]]; [| |]; try done.
    + exists (OpRefused w). cbn. rewrite Hst. unfold cn_closed. by destruct (cn_closeErr c).
    + exists (OpAcquire w). cbn. rewrite Hst. by if_true.
  - exists (OpRegister w None). cbn. rewrite Hst. by destruct (register w c) as [[n c1]|e].
  - exists (OpWrite w (MkWriteEnv (Some ContextCanceled) None [] None false None)). cbn. by rewrite Hst.
  - destruct Hc as [Hc|[[_ [=]]|[[=]|[[=]|[_ [=]]]]]]. exists (OpDone w). cbn. rewrite Hst. unfold cn_closed. by destruct (cn_closeErr c).
  - exists (OpDiscard w). cbn. by rewrite Hst.
  - exists (OpUnregister w). cbn. by rewrite Hst.
  - exists (OpRelease w). cbn. by rewrite Hst.
Qed.

(** The answer of a waiting caller reaches it: reading the frame fills its channel. *)
Lemma answer_reaches c w ca n frame rest r :
  connOK c -> liveOK c -> cn_callers c !! w = Some ca -> ca_stage ca = Waiting n -> ca_channel ca = None ->
  cn_closeErr c = None -> readFrame (cf_MaxFrameSize cfg) (cn_input c) = ReadFrame frame rest -> handleFrame frame = inl (n, r) ->
  exists c1 c2 ca2, exec OpRead c = Some c1 /\ exec (OpTake w) c1 = Some c2 /\ cn_callers c2 !! w = Some ca2 /\
    ca_stage ca2 = Leaving n (answerOf (ca_request ca) r).
Proof.
  intros K L Hw Hs Hch Ho Hf Hh. destruct (l_open c L w ca n Hw) as [Hp|[Hp|Hp]]; [by rewrite Hs| |done|done].
  assert (Hrd : cn_reading c = true) by (destruct (cn_reading c) eqn:E; [done|by apply (l_reading c L) in E]).
  cbn [exec]. unfold readStep. rewrite Hrd, Hf. cbn [negb]. rewrite Hh. unfold deliver. cbn [cn_pending record_ setInput]. rewrite Hp.
  eexists _, _, (setStage (Leaving n (answerOf (ca_request ca) r)) (setChannel None (setChannel (Some r) ca))). split; [done|].
  cbn [cn_callers record_ setInput setCallers setPending]. rewrite (complete_empty _ _ _ _ Hw Hch), lookup_insert_eq.
  cbn [mbind option_bind callerStep ca_stage setChannel]. rewrite Hs. cbn. split; [done|]. split; [apply lookup_insert_eq|done].
Qed.


(** C9: What the peer reads.  On an open connection that no caller is about to discard, the bytes
    written are the frames of whole requests, one after another: a reader of the format gets
    the key, version, number and body of each, in the order they were written, each request once,
    and every request that waits for its answer is among them. *)
Theorem transport_wire c :
  cf_MaxFrameSize cfg < 2 ^ 32 -> reachable c -> cn_closeErr c = None ->
  (forall w ca, cn_callers c !! w = Some ca -> isDiscarding (ca_stage ca) = false) ->
  parseRequests (S (length (cn_writes c))) (cn_output c) = Some (map (requestOf (cn_callers c)) (cn_writes c)) /\
  NoDup (cn_writes c).*1 /\
  (forall w ca n, cn_callers c !! w = Some ca -> ca_stage ca = Waiting n -> w ∈ (cn_writes c).*1).
Proof.
  intros Hmaxframe Hr Ho Hd. pose proof (wire_reachable c Hr) as X. pose proof X as [X1 X2 X3 X4 X5].
  split; [|split; [done|]].
  - rewrite X1. apply parse_writes. intros w n Hw. destruct (X3 w n Hw) as (ca & Hca & [[m from] Hreg] & Hle & _ & Hcut).
    split.
    + destruct (decide (n < length (frameOf (cn_callers c) w))%nat) as [Hlt|]; [|lia]. destruct (Hcut Hlt) as [Hx|Hx]; [|done].
      by rewrite (Hd w ca Hca) in Hx.
    + exists ca, m, from. destruct (X5 w ca Hca) as [Hb Hn]. specialize (Hn m from Hreg). unfold requestHeaderSize in Hb.
      repeat split; try done; lia.
  - intros w ca n Hw Hs. apply list_elem_of_fmap. exists (w, length (frameOf (cn_callers c) w)). split; [done|].
    apply (X4 w ca Hw). by rewrite Hs.
Qed.

End Frames.

(** ** Runs

    A protocol of bodies: a request is its body, a response the body received. *)
#[export] Instance bodyResponse : Response (list byte) := { Unmarshal := fun body _ => inl body }.
#[export] Instance bodyRequest : Request (list byte) (list byte) := {
  requestKey := fun _ => 1014;
  requestVersion := fun _ => 1;
  SetVersion := fun _ q => Ok q;
  Marshal := fun q => inl q;
  NewResponse_ := fun _ => Some [];
}.

(** An error envelope that is never read. *)
Definition noErrors (body : list byte) : option (Z * string) := None.
Definition smallConfig : Config := MkConfig 64 2.

Definition fullWrite (n : Z) : writeEnv := MkWriteEnv None None [(n, None)] None false None.
Definition request1 : list byte := [Byte.x41; Byte.x42].
Definition request2 : list byte := [Byte.x43].

(** Two requests are answered out of order, the second response arriving in two pieces. *)
Definition answeredRun : list (@transportOp (list byte)) :=
  [OpBegin 0 (Some request1) None; OpAcquire 0; OpRegister 0 None;
   OpBegin 1 (Some request2) None; OpAcquire 1; OpRegister 1 None;
   OpWrite 1 (fullWrite 13); OpWrite 0 (fullWrite 14);
   OpArrive ([Byte.x00; Byte.x00; Byte.x00; Byte.x06; Byte.x00] ++ bigEndian 4 2 ++ [Byte.x62]); OpRead;
   OpArrive ([Byte.x00; Byte.x00; Byte.x00; Byte.x06; Byte.x00] ++ bigEndian 4 1); OpArrive [Byte.x61]; OpRead;
   OpTake 0; OpUnregister 0; OpRelease 0].

Definition runOf (ops : list transportOp) : Connection :=
  match execAll noErrors smallConfig ops New with Some c => c | None => New end.

Lemma runOf_reachable ops : execAll noErrors smallConfig ops New = Some (runOf ops) -> reachable noErrors smallConfig (runOf ops).
Proof. intros E. by exists ops. Qed.

Definition answered : Connection := runOf answeredRun.

Lemma answered_reachable : reachable noErrors smallConfig answered.
Proof. apply runOf_reachable. vm_compute. reflexivity. Qed.

(** A write that is cut after five bytes, and another caller that writes before the first one
    fails the connection. *)
Definition cutRun : list (@transportOp (list byte)) :=
  [OpBegin 0 (Some request1) None; OpAcquire 0; OpRegister 0 None;
   OpBegin 1 (Some request2) None; OpAcquire 1; OpRegister 1 None;
   OpWrite 0 (MkWriteEnv None None [(5, Some NetError)] (Some ContextCanceled) false None);
   OpWrite 1 (fullWrite 13)].

(** A frame after half a frame.  [writeRequest] gives up the write mutex before its caller fails
    the connection, so a request that waits for the mutex can write its frame after the half frame
    of one whose write was cut.  The peer then reads the second frame as the rest of the first: here
    it receives one request of the first caller's length, whose body is made of the second
    caller's header. *)
Theorem transport_partial_frame :
  exists c, execAll noErrors smallConfig cutRun New = Some c /\ cn_closeErr c = None /\
    cn_output c = take 5 (frameOf (cn_callers c) 0) ++ frameOf (cn_callers c) 1 /\
    fromBigEndian (take 4 (cn_output c)) = 10 /\
    take 10 (drop 4 (cn_output c)) = take 1 (drop 4 (frameOf (cn_callers c) 0)) ++ take 9 (frameOf (cn_callers c) 1).
Proof. eexists. split; [vm_compute; reflexivity|]. vm_compute. repeat split. Qed.

Lemma transport_correlation_witness :
  exists ca message, cn_callers answered !! 0%nat = Some ca /\ ca_stage ca = Finished (inl message) /\ message = [Byte.x61] /\
    exists n from i body, ca_registered ca = Some (n, from) /\ (from <= i)%nat /\
      cn_handled answered !! i = Some (Byte.x00 :: bigEndian 4 n ++ body) /\ body = message.
Proof.
  eexists _, _. split; [vm_compute; reflexivity|]. split; [vm_compute; reflexivity|]. split; [reflexivity|].
  destruct (transport_correlation noErrors smallConfig ltac:(done) ltac:(done) answered 0%nat _ _ answered_reachable
    ltac:(vm_compute; reflexivity) ltac:(vm_compute; reflexivity)) as (n & from & i & body & response & H1 & H2 & H3 & _ & _ & H4 & _).
  exists n, from, i, body. split; [exact H1|]. split; [exact H2|]. split; [exact H3|]. cbn in H4. congruence.
Defined.

Lemma transport_outcomes_witness :
  exists ca answer, cn_callers answered !! 0%nat = Some ca /\ ca_stage ca = Finished answer /\
    (exists n from r, ca_registered ca = Some (n, from) /\ answers noErrors (cn_handled answered) n from r /\ answer = answerOf (ca_request ca) r).
Proof.
  eexists _, _. split; [vm_compute; reflexivity|]. split; [vm_compute; reflexivity|].
  destruct (transport_outcomes noErrors smallConfig ltac:(done) ltac:(done) answered 0%nat _ _ answered_reachable
    ltac:(vm_compute; reflexivity) ltac:(vm_compute; reflexivity))
    as [H|[(e & H & _)|[(e & _ & H)|[(es & H)|(es & _ & H)]]]]; [exact H|vm_compute in H; discriminate H|discriminate H|discriminate H|discriminate H].
Defined.

Lemma transport_bounds_witness : cn_slots answered = 1 /\ cn_slots answered <= 2 /\
  exists n c', register 7 answered = inl (n, c') /\ cn_pending answered !! n = None.
Proof.
  destruct (transport_bounds noErrors smallConfig ltac:(done) ltac:(done) answered answered_reachable) as (_ & H1 & _ & H2).
  split; [vm_compute; reflexivity|]. split; [exact H1|]. destruct (H2 7%nat ltac:(vm_compute; reflexivity)) as (n & c' & H3 & H4 & _).
  exists n, c'. split; [exact H3|exact H4].
Defined.


Lemma transport_wire_witness :
  parseRequests 3 (cn_output answered) = Some [(1014, 1, 2, request2); (1014, 1, 1, request1)].
Proof.
  destruct (transport_wire noErrors smallConfig ltac:(done) ltac:(done) answered ltac:(done) answered_reachable
    ltac:(vm_compute; reflexivity)) as [H _].
  - assert (A : map_Forall (fun _ ca => isDiscarding (ca_stage ca) = false) (cn_callers answered))
      by (apply (bool_decide_eq_true_1 _); vm_compute; reflexivity).
    exact A.
  - exact H.
Defined.
