(* ===== verification/WriterRetry.v ===== *)
(** * Retries of a writer batch

    Models [pkg/fgo/writer_retry.go] and the futures of [pkg/fgo/write_future.go].  The
    calls to the server, the request context and the waits between attempts are the
    environment: functions of the attempt number. *)

From S2P Require Import Prelude Errors.

(** ** Retry policies *)

Definition maxWriterAttempts : Z := 100.

(** Durations are nanoseconds; a nil [Backoff] is [None]. *)
Record WriterRetryPolicy := MkRetryPolicy {
  rp_MaxAttempts : Z;
  rp_Backoff : option (Z -> Z);
}.

(** The doubling loop [for current := 1; current < attempt && delay < time.Second; current++]:
    four doublings from 100ms reach a second, so five iterations are enough
    ([defaultBackoff_enough]). *)
Fixpoint backoffLoop (fuel : nat) (current attempt delay : Z) : Z :=
  match fuel with
  | O => delay
  | S fuel =>
    if (current <? attempt) && (delay <? 1000000000)
    then backoffLoop fuel (current + 1) attempt (delay * 2)
    else delay
  end.

Definition defaultBackoff (attempt : Z) : Z :=
  let delay := backoffLoop 5 1 attempt 100000000 in
  if 1000000000 <? delay then 1000000000 else delay.

Definition defaultWriterRetryPolicy : WriterRetryPolicy := MkRetryPolicy 1 (Some defaultBackoff).

Definition validateWriterRetryPolicy (policy : WriterRetryPolicy) (acks : Z) : outcome unit :=
  if (rp_MaxAttempts policy <? 1) || (maxWriterAttempts <? rp_MaxAttempts policy)
  then Err ErrInvalidConfig
  else if (1 <? rp_MaxAttempts policy) && negb (acks =? -1) then Err ErrInvalidConfig
  else Ok tt.

Definition writerRetryable (err : callError) : bool :=
  match err with
  | ServerErr server => se_Retriable server
  | _ => shouldReplaceConnection (Some err)
  end.

Definition duplicateWriterSequence (err : callError) : bool :=
  match err with
  | ServerErr server => se_Code server =? ErrorCodeDuplicateSequenceException
  | _ => false
  end.

(** ** The retry loop *)

Record writerAttemptResult := MkAttemptResult {
  ar_offset : Z;
  ar_offsetKnown : bool;
  ar_attempts : Z;
  ar_err : option callError;
}.

(** What the environment answers to attempt [n]: the call, [ctx.Err()] after it, and the
    context's error while waiting before the next attempt. *)
Record attemptEnv := MkAttemptEnv {
  env_call : Z -> Z * bool * option callError;
  env_ctxErr : Z -> option callError;
  env_ctxWhileWaiting : Z -> option callError;
}.

(** [waitContext]: no wait for a non-positive delay. *)
Definition waitContext (ctxErr : option callError) (delay : Z) : option callError :=
  if delay <=? 0 then None else ctxErr.

Section Attempts.
Variables (policy : WriterRetryPolicy) (env : attemptEnv).

(** [for attempt := attempt; attempt <= policy.MaxAttempts; attempt++], [n] iterations left. *)
Fixpoint attemptLoop (n : nat) (attempt : Z) : writerAttemptResult :=
  match n with
  | O => MkAttemptResult 0 false 0 (Some (Plain ErrInvalidConfig))
  | S n =>
    let '(offset, offsetKnown, err) := env_call env attempt in
    match err with
    | None => MkAttemptResult offset offsetKnown attempt None
    | Some e =>
      if duplicateWriterSequence e then MkAttemptResult offset offsetKnown attempt None
      else if (attempt =? rp_MaxAttempts policy) || negb (writerRetryable e)
              || (match env_ctxErr env attempt with Some _ => true | None => false end)
      then MkAttemptResult offset offsetKnown attempt (Some e)
      else
        let delay := match rp_Backoff policy with Some backoff => backoff attempt | None => 0 end in
        match waitContext (env_ctxWhileWaiting env attempt) delay with
        | Some e' => MkAttemptResult 0 false attempt (Some e')
        | None => attemptLoop n (attempt + 1)
        end
    end
  end.

Definition executeWriterAttempts : writerAttemptResult :=
  attemptLoop (Z.to_nat (rp_MaxAttempts policy)) 1.
End Attempts.

(** [executeWriterRequest]: [ctxErr] is the request context's error once the loop is over. *)
Definition executeWriterRequest (policy : WriterRetryPolicy) (env : attemptEnv)
    (ctxErr : option callError) : writerAttemptResult :=
  let result := executeWriterAttempts policy env in
  match ar_err result, ctxErr with
  | Some _, Some e => MkAttemptResult (ar_offset result) (ar_offsetKnown result) (ar_attempts result) (Some e)
  | _, _ => result
  end.

(** ** Theorems *)

Lemma backoffLoop_stop fuel : forall extra current attempt delay,
  1000000000 <= delay * 2 ^ Z.of_nat fuel -> 0 < delay ->
  backoffLoop (fuel + extra) current attempt delay = backoffLoop fuel current attempt delay.
Proof.
  induction fuel as [|fuel IH]; intros extra current attempt delay Hd Hp.
  - cbn in Hd. destruct extra; cbn; [done|]. by if_false.
  - cbn [Nat.add backoffLoop]. case_match; [|done]. apply IH; [|lia].
    rewrite Nat2Z.inj_succ, Z.pow_succ_r in Hd by lia. lia.
Qed.

(** The fuel of [defaultBackoff] is enough: more iterations change nothing. *)
Lemma defaultBackoff_enough extra attempt :
  backoffLoop (5 + extra) 1 attempt 100000000 = backoffLoop 5 1 attempt 100000000.
Proof. apply backoffLoop_stop; cbn; lia. Qed.

Lemma defaultBackoff_eq attempt :
  defaultBackoff attempt =
  if attempt <=? 1 then 100000000 else if attempt =? 2 then 200000000
  else if attempt =? 3 then 400000000 else if attempt =? 4 then 800000000 else 1000000000.
Proof.
  unfold defaultBackoff.
  destruct (Z.leb_spec attempt 1) as [H1|H1].
  { cbn [backoffLoop]. by replace (1 <? attempt) with false by lia. }
  destruct (decide (attempt = 2)) as [->|H2]; [reflexivity|].
  destruct (decide (attempt = 3)) as [->|H3]; [reflexivity|].
  destruct (decide (attempt = 4)) as [->|H4]; [reflexivity|].
  replace (attempt =? 2) with false by lia. replace (attempt =? 3) with false by lia.
  replace (attempt =? 4) with false by lia.
  cbn [backoffLoop].
  replace (1 <? attempt) with true by lia. replace (1 + 1 <? attempt) with true by lia.
  replace (1 + 1 + 1 <? attempt) with true by lia.
  replace (1 + 1 + 1 + 1 <? attempt) with true by lia.
  by destruct (1 + 1 + 1 + 1 + 1 <? attempt).
Qed.

(** The default delays grow from 100ms to a second and stay there. *)
Theorem default_backoff_bounds (attempt : Z) :
  100000000 <= defaultBackoff attempt <= 1000000000 /\
  defaultBackoff attempt <= defaultBackoff (attempt + 1) /\
  (attempt < 5 \/ defaultBackoff attempt = 1000000000).
Proof.
  rewrite !defaultBackoff_eq. repeat case_match; lia.
Qed.

(** What a finished loop says: who failed, who was retried, and why it stopped. *)
Definition attemptsRun (policy : WriterRetryPolicy) (env : attemptEnv) (from last : Z)
    (result : writerAttemptResult) : Prop :=
  from <= last <= rp_MaxAttempts policy /\
  (forall a, from <= a < last -> exists e, (env_call env a).2 = Some e /\
     writerRetryable e = true /\ duplicateWriterSequence e = false /\ env_ctxErr env a = None) /\
  ar_attempts result = last /\
  match ar_err result with
  | None => match (env_call env last).2 with
            | None => True
            | Some e => duplicateWriterSequence e = true
            end /\ (ar_offset result, ar_offsetKnown result) = (env_call env last).1
  | Some e => exists e', (env_call env last).2 = Some e' /\ duplicateWriterSequence e' = false /\
      (e = e' /\ (last = rp_MaxAttempts policy \/ writerRetryable e' = false \/ env_ctxErr env last <> None)
       \/ env_ctxWhileWaiting env last = Some e)
  end.

(** The loop stopped at its first attempt. *)
Local Ltac stopped attempt Ecall :=
  exists attempt; unfold attemptsRun; rewrite Ecall; cbn;
  split; [lia|]; split; [intros; exfalso; lia|]; split; [reflexivity|].

Lemma attemptLoop_run policy env n : forall attempt,
  attempt + Z.of_nat n = rp_MaxAttempts policy + 1 -> (0 < n)%nat ->
  exists last, attemptsRun policy env attempt last (attemptLoop policy env n attempt).
Proof.
  induction n as [|n IH]; intros attempt Hn Hpos; [lia|]. cbn [attemptLoop].
  destruct (env_call env attempt) as [[offset known] err] eqn:Ecall.
  destruct err as [e|].
  2:{ stopped attempt Ecall. done. }
  destruct (duplicateWriterSequence e) eqn:Ed.
  { stopped attempt Ecall. done. }
  destruct (_ || _) eqn:Estop.
  { stopped attempt Ecall.
    exists e. split; [done|]. split; [done|]. left. split; [done|].
    apply orb_true_iff in Estop as [[H|H]%orb_true_iff|H]; [left; lia|right; left; by destruct (writerRetryable e)|].
    right. right. by destruct (env_ctxErr env attempt). }
  apply orb_false_iff in Estop as [[Hmax Hret]%orb_false_iff Hctx].
  destruct (waitContext _ _) as [e'|] eqn:Ew.
  { stopped attempt Ecall.
    exists e. split; [done|]. split; [done|]. right. unfold waitContext in Ew. by case_match. }
  destruct (IH (attempt + 1)) as (last & H1 & H2 & H3); [lia|lia|].
  exists last. split; [lia|]. split; [|done]. intros a Ha.
  destruct (decide (a = attempt)) as [->|]; [|apply H2; lia].
  exists e. rewrite Ecall. split_and!; [done| by destruct (writerRetryable e) | done | by destruct (env_ctxErr env attempt)].
Qed.

(** A batch is retried at most [MaxAttempts] times and only when it may be.  With a
    valid policy the loop makes some number of calls between 1 and [MaxAttempts]; each call
    but the last failed with a retryable error while the context was alive; it succeeds
    exactly when the last call succeeded or found the sequence already written; and it gives
    up only at the last permitted attempt, at an error that is not retryable, or when the
    context ended. *)
Theorem writer_attempts_bounded (policy : WriterRetryPolicy) (acks : Z) (env : attemptEnv) :
  validateWriterRetryPolicy policy acks = Ok tt ->
  exists last, last <= maxWriterAttempts /\
    attemptsRun policy env 1 last (executeWriterAttempts policy env).
Proof.
  unfold validateWriterRetryPolicy. case_match eqn:E; [done|]. intros _.
  destruct (attemptLoop_run policy env (Z.to_nat (rp_MaxAttempts policy)) 1) as (last & Hrun);
    [lia|lia|].
  exists last. split; [|done]. destruct Hrun as (? & _). lia.
Qed.

Definition flakyEnv : attemptEnv :=
  MkAttemptEnv (fun n => if n =? 3 then (41, true, None) else (0, false, Some NetError))
    (fun _ => None) (fun _ => None).

Lemma writer_attempts_bounded_witness :
  ar_attempts (executeWriterAttempts (MkRetryPolicy 5 None) flakyEnv) = 3 /\
  exists last, last <= maxWriterAttempts /\
    attemptsRun (MkRetryPolicy 5 None) flakyEnv 1 last (executeWriterAttempts (MkRetryPolicy 5 None) flakyEnv).
Proof.
  split; [reflexivity|]. apply (writer_attempts_bounded (MkRetryPolicy 5 None) (-1) flakyEnv). reflexivity.
Defined.
