(* ===== verification/Partition.v ===== *)
(** * Partition names and dynamic partitions

    Models [pkg/fgo/partition.go]: the name of a partition, its specification, and the loop
    that creates a missing partition and waits for its metadata.  The requests to the cluster
    are the environment of that loop, functions of the attempt. *)

From Stdlib Require Import Ascii.
From S2P Require Import Prelude Model Errors WriterRetry.

(** ** Names *)

Definition partitionValueSeparator : ascii := "$".

(** [map[string]string] *)
Abbreviation PartitionSpec := (gmap string string).

Fixpoint containsChar (c : ascii) (s : string) : bool :=
  match s with
  | EmptyString => false
  | String c' s => bool_decide (c' = c) || containsChar c s
  end.

(** [strings.Join] and [strings.Split] with a separator of one byte. *)
Fixpoint joinStrings (sep : ascii) (values : list string) : string :=
  match values with
  | [] => ""
  | [value] => value
  | value :: values => value +:+ String sep (joinStrings sep values)
  end.

Fixpoint splitString (sep : ascii) (s : string) : list string :=
  match s with
  | EmptyString => [""%string]
  | String c s =>
    let parts := splitString sep s in
    if decide (c = sep) then ""%string :: parts
    else match parts with part :: parts => String c part :: parts | [] => [] end
  end.

(** The value loop of [PartitionName]. *)
Fixpoint partitionValues (keys : list string) (spec : PartitionSpec) : outcome (list string) :=
  match keys with
  | [] => Ok []
  | key :: keys =>
    match spec !! key with
    | None => Err ErrInvalidConfig
    | Some value =>
      if bool_decide (value = ""%string) || containsChar partitionValueSeparator value then Err ErrInvalidConfig
      else values ← partitionValues keys spec; Ok (value :: values)
    end
  end.

Definition PartitionName (s : Schema) (spec : PartitionSpec) : outcome string :=
  _ ← check (negb (glen (sch_PartitionKey s) =? 0)) ErrInvalidSchema;
  _ ← check (Z.of_nat (size spec) =? glen (sch_PartitionKey s)) ErrInvalidConfig;
  values ← partitionValues (sch_PartitionKey s) spec;
  Ok (joinStrings partitionValueSeparator values).

(** The loop of [PartitionSpecFromName] over keys and values of equal length. *)
Fixpoint specLoop (keys values : list string) (spec : PartitionSpec) : outcome PartitionSpec :=
  match keys, values with
  | [], _ => Ok spec
  | _ :: _, [] => Panic
  | key :: keys, value :: values =>
    if bool_decide (key = ""%string) || bool_decide (value = ""%string) then Err ErrInvalidConfig
    else match spec !! key with
         | Some _ => Err ErrInvalidConfig
         | None => specLoop keys values (<[key := value]> spec)
         end
  end.

Definition PartitionSpecFromName (keys : list string) (name : string) : outcome PartitionSpec :=
  _ ← check (negb ((glen keys =? 0) || bool_decide (name = ""%string))) ErrInvalidConfig;
  let values := splitString partitionValueSeparator name in
  _ ← check (glen values =? glen keys) ErrInvalidConfig;
  specLoop keys values ∅.

(** The name loop of [PartitionNames], which keeps each name once. *)
Fixpoint uniqueNames (s : Schema) (specs : list PartitionSpec) (unique : gset string) : outcome (gset string) :=
  match specs with
  | [] => Ok unique
  | spec :: specs => name ← PartitionName s spec; uniqueNames s specs ({[name]} ∪ unique)
  end.

(** [slices.Sort] on strings. *)
Definition sortStrings (l : list string) : list string := (sortEntries (map (fun s => (s, tt)) l)).*1.

Definition PartitionNames (s : Schema) (specs : list PartitionSpec) : outcome (list string) :=
  _ ← check (negb (glen specs =? 0)) ErrInvalidConfig;
  unique ← uniqueNames s specs ∅;
  Ok (sortStrings (elements unique)).

(** ** Dynamic creation *)

(** Durations are nanoseconds. *)
Record DynamicPartitionCreationConfig := MkDynamicPartitions {
  dp_MetadataAttempts : Z;
  dp_RetryBackoff : Z;
}.

Definition WithDynamicPartitionCreation (settings : DynamicPartitionCreationConfig)
    : outcome DynamicPartitionCreationConfig :=
  let attempts := if dp_MetadataAttempts settings =? 0 then 3 else dp_MetadataAttempts settings in
  let backoff := if dp_RetryBackoff settings =? 0 then 25000000 else dp_RetryBackoff settings in
  if (attempts <? 1) || (10 <? attempts) || (backoff <? 0) || (60000000000 <? backoff) then Err ErrInvalidConfig
  else Ok (MkDynamicPartitions attempts backoff).

(** [errors.Is] with the two sentinels a server error may also stand for. *)
Definition unknownPartition (err : callError) : bool :=
  match err with
  | Plain ErrUnknownPartition => true
  | ServerErr e => bool_decide (se_category e = CatUnknownPartition)
  | _ => false
  end.

Definition pendingPartitionMetadata (err : callError) : bool :=
  unknownPartition err ||
  match err with
  | Plain ErrNoBucketLeader | Plain ErrMetadata => true
  | ServerErr e => bool_decide (se_category e = CatMetadata)
  | _ => false
  end.

(** The doubling of [retryDelay]: ten attempts at most. *)
Definition retryDelay (settings : DynamicPartitionCreationConfig) (attempt : Z) : Z :=
  let delay := backoffLoop (Z.to_nat attempt) 1 attempt (dp_RetryBackoff settings) in
  if 1000000000 <? delay then 1000000000 else delay.

(** What the cluster answers: the [n]th metadata check (the first is number 0), the creation
    of the partition, and the context during the wait after attempt [n]. *)
Record partitionEnv := MkPartitionEnv {
  pn_check : Z -> option callError;
  pn_create : option callError;
  pn_wait : Z -> option callError;
}.

Inductive partitionCall := CheckCall (n : Z) | CreateCall.

(** [for attempt := 1; attempt <= MetadataAttempts; attempt++] with the calls it makes. *)
Fixpoint metadataLoop (settings : DynamicPartitionCreationConfig) (env : partitionEnv) (n : nat) (attempt : Z)
    (err : option callError) : list partitionCall * option callError :=
  match n with
  | O => ([], err)
  | S n =>
    match pn_check env attempt with
    | None => ([CheckCall attempt], None)
    | Some e =>
      if negb (pendingPartitionMetadata e) || (attempt =? dp_MetadataAttempts settings)
      then ([CheckCall attempt], Some e)
      else match waitContext (pn_wait env attempt) (retryDelay settings attempt) with
           | Some e' => ([CheckCall attempt], Some e')
           | None =>
             let '(calls, result) := metadataLoop settings env n (attempt + 1) (Some e) in
             (CheckCall attempt :: calls, result)
           end
    end
  end.

Definition ensure (settings : DynamicPartitionCreationConfig) (env : partitionEnv)
    : list partitionCall * option callError :=
  match pn_check env 0 with
  | None => ([CheckCall 0], None)
  | Some e =>
    let missing := unknownPartition e in
    if negb missing && negb (pendingPartitionMetadata e) then ([CheckCall 0], Some e)
    else
      let loop := metadataLoop settings env (Z.to_nat (dp_MetadataAttempts settings)) 1 (Some e) in
      if missing then
        match pn_create env with
        | Some e' => ([CheckCall 0; CreateCall], Some e')
        | None => (CheckCall 0 :: CreateCall :: loop.1, loop.2)
        end
      else (CheckCall 0 :: loop.1, loop.2)
  end.

(** [Ensure]: what is checked before the creation is started; a nil creator is [None]. *)
Definition Ensure (creator : option (DynamicPartitionCreationConfig * partitionEnv)) (path : PhysicalTablePath)
    (partitionKeys : list string) : outcome (option PartitionSpec) :=
  match creator with
  | None => Ok None
  | Some _ =>
    _ ← PhysicalTablePath_Validate path;
    if decide (pp_Partition path = ""%string) then Ok None
    else spec ← PartitionSpecFromName partitionKeys (pp_Partition path); Ok (Some spec)
  end.

(** [partitionSpecProto]: the pairs in the order of their keys. *)
Definition partitionSpecProto (spec : PartitionSpec) : list (string * string) := sortEntries (map_to_list spec).

(** ** Theorems: names *)

Lemma splitString_ne sep s : splitString sep s <> [].
Proof. induction s as [|c s IH]; cbn; [done|]. case_decide; [done|]. by destruct (splitString sep s). Qed.

Lemma splitString_plain sep s : containsChar sep s = false -> splitString sep s = [s].
Proof.
  induction s as [|c s IH]; cbn; [done|]. intros [H1 H2]%orb_false_iff. apply bool_decide_eq_false in H1.
  rewrite decide_False by done. by rewrite IH.
Qed.

Lemma splitString_app sep value s :
  containsChar sep value = false -> splitString sep (value +:+ String sep s) = value :: splitString sep s.
Proof.
  induction value as [|c value IH].
  { intros _. change ("" +:+ String sep s) with (String sep s). cbn [splitString]. by case_decide. }
  change (String c value +:+ String sep s) with (String c (value +:+ String sep s)). cbn [splitString containsChar].
  intros [H1 H2]%orb_false_iff. apply bool_decide_eq_false in H1. rewrite decide_False by done. by rewrite IH.
Qed.

Lemma split_join sep values :
  values <> [] -> Forall (fun v => containsChar sep v = false) values ->
  splitString sep (joinStrings sep values) = values.
Proof.
  induction values as [|v [|v' values] IH]; intros Hne Hf; [done| |].
  - inversion Hf; subst. by apply splitString_plain.
  - inversion Hf; subst. 
    change (joinStrings sep (v :: v' :: values)) with (v +:+ String sep (joinStrings sep (v' :: values))).
    rewrite splitString_app by done. by rewrite IH.
Qed.

Lemma joinStrings_cons sep v v' values :
  joinStrings sep (v :: v' :: values) = v +:+ String sep (joinStrings sep (v' :: values)).
Proof. done. Qed.

Lemma join_split sep s : joinStrings sep (splitString sep s) = s.
Proof.
  induction s as [|c s IH]; [done|]. cbn [splitString]. pose proof (splitString_ne sep s) as Hne.
  destruct (splitString sep s) as [|p ps] eqn:E; [done|]. case_decide as Hc.
  - subst c. rewrite joinStrings_cons, IH. done.
  - destruct ps as [|p' ps]; [cbn in *; by rewrite IH|]. rewrite joinStrings_cons in *.
    change (String c p +:+ ?r) with (String c (p +:+ r)). by rewrite IH.
Qed.

Lemma split_noSep sep s : Forall (fun v => containsChar sep v = false) (splitString sep s).
Proof.
  induction s as [|c s IH]; cbn; [by repeat constructor|]. case_decide as Hc; [by constructor|].
  destruct (splitString sep s) as [|p ps]; [constructor|]. inversion IH; subst. constructor; [|done].
  cbn. rewrite bool_decide_eq_false_2 by done. done.
Qed.

Lemma join_ne sep values : values <> [] -> Forall (fun v => v <> ""%string) values -> joinStrings sep values <> ""%string.
Proof.
  intros Hne Hf. destruct values as [|v [|v' values]]; [done| |]; inversion Hf; subst; cbn; [done|]. by destruct v.
Qed.

Lemma partitionValues_Ok keys spec : forall values, partitionValues keys spec = Ok values <->
  Forall2 (fun key value => spec !! key = Some value /\ value <> ""%string /\
                            containsChar partitionValueSeparator value = false) keys values.
Proof.
  induction keys as [|key keys IH]; intros values; cbn.
  { split; [intros [= <-]; constructor|]. by inversion 1. }
  split.
  - intros H. case_match; [|done]. case_match eqn:E; [done|]. inv_ok.
    apply orb_false_iff in E as [E1%bool_decide_eq_false E2]. constructor; [done|]. by apply IH.
  - intros H. inversion H as [|? value ? values' (H1 & H2 & H3) H4]; subst. rewrite H1.
    rewrite bool_decide_eq_false_2 by done. cbn. rewrite H3. apply IH in H4. rewrite H4. done.
Qed.

Lemma specLoop_Ok keys : forall values spec spec',
  length values = length keys -> specLoop keys values spec = Ok spec' <->
  NoDup keys /\ Forall (fun key => key <> ""%string /\ spec !! key = None) keys /\
  Forall (fun v => v <> ""%string) values /\ spec' = list_to_map (zip keys values) ∪ spec.
Proof.
  induction keys as [|key keys IH]; intros [|value values] spec spec' Hlen; try done; cbn [specLoop].
  { assert (Hnil : list_to_map (zip (@nil string) (@nil string)) ∪ spec = spec) by apply (left_id_L ∅ (∪)).
    rewrite Hnil. split; [intros [= <-]; repeat split; constructor|by intros (_ & _ & _ & ->)]. }
  cbn in Hlen. injection Hlen as Hlen.
  destruct (bool_decide _ || _) eqn:E.
  { split; [done|]. intros (_ & H1 & H2 & _). inversion H1; inversion H2; subst.
    apply orb_true_iff in E as [E|E]; apply bool_decide_eq_true in E; by destruct_and?. }
  apply orb_false_iff in E as [E1%bool_decide_eq_false E2%bool_decide_eq_false].
  destruct (spec !! key) eqn:Ek.
  { split; [done|]. intros (_ & H1 & _). inversion H1; subst. by destruct_and?; congruence. }
  rewrite IH by done. rewrite NoDup_cons, !Forall_cons.
  assert (Hswap : key ∉ keys -> list_to_map (zip keys values) ∪ <[key:=value]> spec =
    list_to_map (zip (key :: keys) (value :: values)) ∪ spec).
  { intros Hn. cbn. rewrite <- insert_union_r, insert_union_l; [done|].
    apply not_elem_of_list_to_map_1. rewrite fst_zip by lia. done. }
  split.
  - intros (Hnd & Hf & Hv & ->). assert (Hn : key ∉ keys).
    { intros Hin. rewrite Forall_forall in Hf. destruct (Hf key Hin) as [_ H]. by rewrite lookup_insert_eq in H. }
    split; [done|]. split; [split; [done|]|split; [done|by apply Hswap]].
    eapply Forall_impl; [exact Hf|]. intros k [H1 H2]. split; [done|]. by apply lookup_insert_None in H2 as [? _].
  - intros ((Hn & Hnd) & ((_ & _) & Hf) & (_ & Hv) & ->). split; [done|]. split; [|split; [done|symmetry; by apply Hswap]].
    rewrite Forall_forall in Hf |- *. intros k Hk. destruct (Hf k Hk). split; [done|].
    rewrite lookup_insert_ne; [done|]. congruence.
Qed.

Lemma zip_lookup keys values spec :
  NoDup keys -> Forall2 (fun key value => spec !! key = Some value) keys values ->
  Z.of_nat (size spec) = glen keys -> (list_to_map (zip keys values) : PartitionSpec) = spec.
Proof.
  intros Hnd Hf Hsize. assert (Hlen : length keys = length values) by (by eapply Forall2_length).
  assert (Hfst : (zip keys values).*1 = keys) by (apply fst_zip; lia).
  apply map_subseteq_size_eq.
  - apply map_subseteq_spec. intros key value Hk. apply elem_of_list_to_map in Hk; [|by rewrite Hfst].
    apply list_elem_of_lookup in Hk as [i Hi]. apply lookup_zip_Some in Hi as [H1 H2]. by eapply Forall2_lookup_lr in Hf.
  - rewrite map_size_list_to_map by (by rewrite Hfst). rewrite length_zip. unfold glen in Hsize. lia.
Qed.

Lemma Forall2_zip_lookup keys values (spec : PartitionSpec) :
  NoDup keys -> length keys = length values -> spec = list_to_map (zip keys values) ->
  Forall2 (fun key value => spec !! key = Some value) keys values.
Proof.
  intros Hnd Hlen ->. apply Forall2_same_length_lookup. split; [done|]. intros i key value H1 H2.
  apply elem_of_list_to_map; [by rewrite fst_zip by lia|].
  apply list_elem_of_lookup. exists i. by apply lookup_zip_Some.
Qed.

(** Names and specifications are inverse.  For distinct, non-empty partition keys, the name
    of a specification decodes to exactly that specification, and a name that decodes to a
    specification is the name of it. *)
Theorem partition_name_roundtrip (s : Schema) (spec : PartitionSpec) (name : string) :
  NoDup (sch_PartitionKey s) -> Forall (fun key => key <> ""%string) (sch_PartitionKey s) ->
  PartitionName s spec = Ok name <-> PartitionSpecFromName (sch_PartitionKey s) name = Ok spec.
Proof.
  intros Hnd Hne. unfold PartitionName, PartitionSpecFromName. set (keys := sch_PartitionKey s) in *.
  set (sep := partitionValueSeparator). split; intros H; inv_ok.
  - rename select (partitionValues _ _ = _) into Hv. apply partitionValues_Ok in Hv as Hf.
    rename select (list string) into values. rename select ((Z.of_nat _ =? _) = true) into Hsz.
    rename select (negb _ = true) into Hk. apply negb_true_iff in Hk.
    assert (Hlen : length keys = length values) by (by eapply Forall2_length).
    assert (Hvne : values <> []) by (intros ->; destruct keys; [done|cbn in Hlen; lia]).
    assert (Hv1 : Forall (fun v => v <> ""%string) values)
      by (eapply Forall2_Forall_r, Forall_true; [exact Hf|by intros ? ? (_ & ? & _)]).
    assert (Hv2 : Forall (fun v => containsChar sep v = false) values)
      by (eapply Forall2_Forall_r, Forall_true; [exact Hf|by intros ? ? (_ & _ & ?)]).
    rewrite Hk. rewrite bool_decide_eq_false_2 by (by apply join_ne). cbn [orb negb check mbind outcome_bind].
    rewrite split_join by done. replace (glen values =? glen keys) with true by (unfold glen; lia).
    cbn [check mbind outcome_bind]. apply specLoop_Ok; [lia|]. split; [done|]. split; [|split; [done|]].
    + eapply Forall_impl; [exact Hne|]. intros k ?. by rewrite lookup_empty.
    + rewrite (right_id_L ∅ (∪)). symmetry. apply zip_lookup; [done| |lia].
      eapply Forall2_impl; [exact Hf|]. by intros ? ? (? & _).
  - rename select (negb _ = true) into Hk. apply negb_true_iff, orb_false_iff in Hk as [Hk Hn].
    rename select ((glen _ =? glen _) = true) into Hl. rename select (specLoop _ _ _ = _) into Hs.
    apply specLoop_Ok in Hs as (_ & _ & Hv & Hspec); [|unfold glen in Hl; lia].
    rewrite (right_id_L ∅ (∪)) in Hspec. set (values := splitString sep name) in *.
    assert (Hlen : length keys = length values) by (unfold glen in Hl; lia).
    assert (Hf : Forall2 (fun key value => spec !! key = Some value) keys values) by (by apply Forall2_zip_lookup).
    assert (Hsz : Z.of_nat (size spec) = glen keys).
    { rewrite Hspec, map_size_list_to_map by (by rewrite fst_zip by lia). rewrite length_zip. unfold glen. lia. }
    rewrite Hk. cbn [negb check mbind outcome_bind]. rewrite Hsz, Z.eqb_refl. cbn [check mbind outcome_bind].
    assert (Hpv : partitionValues keys spec = Ok values).
    { apply partitionValues_Ok. apply Forall2_same_length_lookup. split; [done|]. intros i k v H1 H2.
      split; [by eapply Forall2_lookup_lr in Hf|]. split; [by eapply Forall_lookup_1 in Hv|].
      by eapply (Forall_lookup_1 _ _ _ _ (split_noSep sep name)) in H2. }
    rewrite Hpv. cbn. f_equal. apply join_split.
Qed.

Definition partitionedSchema : Schema :=
  MkSchema [MkColumn "region" StringType false None "" 0; MkColumn "day" StringType false None "" 0]
    [] [] ["region"; "day"]%string [] 0.

Lemma partition_name_roundtrip_witness :
  PartitionName partitionedSchema {["day" := "2026-01-02"; "region" := "eu"]}%string = Ok "eu$2026-01-02"%string <->
  PartitionSpecFromName ["region"; "day"]%string "eu$2026-01-02" =
    Ok {["day" := "2026-01-02"; "region" := "eu"]}%string.
Proof.
  apply (partition_name_roundtrip partitionedSchema {["day" := "2026-01-02"; "region" := "eu"]}%string).
  - apply (bool_decide_eq_true_1 _). vm_compute. reflexivity.
  - by repeat constructor.
Defined.

Example partition_name_sample :
  PartitionName partitionedSchema {["day" := "2026-01-02"; "region" := "eu"]}%string = Ok "eu$2026-01-02"%string.
Proof. vm_compute. reflexivity. Qed.

(** ** Theorems: dynamic creation *)

Lemma metadataLoop_spec settings env n : forall attempt err,
  attempt + Z.of_nat n = dp_MetadataAttempts settings + 1 -> (0 < n)%nat ->
  exists k, 1 <= k <= Z.of_nat n /\
    (metadataLoop settings env n attempt err).1 = map CheckCall (seqZ attempt k) /\
    ((metadataLoop settings env n attempt err).2 = None <-> pn_check env (attempt + k - 1) = None) /\
    (forall i, attempt <= i < attempt + k - 1 -> exists e, pn_check env i = Some e /\ pendingPartitionMetadata e = true).
Proof.
  induction n as [|n IH]; intros attempt err Hn Hpos; [lia|]. cbn [metadataLoop].
  assert (Hone : seqZ attempt 1 = [attempt]) by (rewrite seqZ_cons by lia; by rewrite seqZ_nil by lia).
  destruct (pn_check env attempt) as [e|] eqn:Ec.
  2:{ exists 1. rewrite Hone. replace (attempt + 1 - 1) with attempt by lia. rewrite Ec.
      split; [lia|]. split; [done|]. split; [done|]. intros; exfalso; lia. }
  destruct (negb _ || _) eqn:Es.
  { exists 1. rewrite Hone. replace (attempt + 1 - 1) with attempt by lia. rewrite Ec.
    split; [lia|]. split; [done|]. split; [done|]. intros; exfalso; lia. }
  apply orb_false_iff in Es as [Hp%negb_false_iff Hmax].
  destruct (waitContext _ _) as [e'|].
  { exists 1. rewrite Hone. replace (attempt + 1 - 1) with attempt by lia. rewrite Ec.
    split; [lia|]. split; [done|]. split; [done|]. intros; exfalso; lia. }
  destruct (IH (attempt + 1) (Some e)) as (k & Hk & H1 & H2 & H3); [lia|lia|].
  destruct (metadataLoop settings env n (attempt + 1) (Some e)) as [calls result]. cbn in *.
  exists (k + 1). split; [lia|]. split; [|split].
  - rewrite H1, (seqZ_cons attempt) by lia. cbn. by replace (Z.pred (k + 1)) with k by lia.
  - rewrite H2. by replace (attempt + 1 + k - 1) with (attempt + (k + 1) - 1) by lia.
  - intros i Hi. destruct (decide (i = attempt)) as [->|]; [by exists e|]. apply H3. lia.
Qed.

(** A missing partition is created at most once and waited for with a bounded number of
    checks.  [ensure] checks the metadata, creates the partition only when the first check
    says it does not exist, then checks again at most [MetadataAttempts] (at most ten) times,
    going on only while the metadata is pending; and it succeeds exactly when its last check
    did, the creation having succeeded. *)
Theorem ensure_bounded (input settings : DynamicPartitionCreationConfig) (env : partitionEnv) :
  WithDynamicPartitionCreation input = Ok settings ->
  exists (created : bool) (k : Z),
    0 <= k <= dp_MetadataAttempts settings /\ dp_MetadataAttempts settings <= 10 /\
    (ensure settings env).1 = CheckCall 0 :: (if created then [CreateCall] else []) ++ map CheckCall (seqZ 1 k) /\
    (created = true -> exists e, pn_check env 0 = Some e /\ unknownPartition e = true) /\
    (forall i, 0 <= i < k -> exists e, pn_check env i = Some e /\ pendingPartitionMetadata e = true) /\
    ((ensure settings env).2 = None <-> pn_check env k = None /\ (created = true -> pn_create env = None)).
Proof.
  intros Hs. assert (Hb : 1 <= dp_MetadataAttempts settings <= 10).
  { unfold WithDynamicPartitionCreation in Hs. case_match eqn:E; [done|]. simplify_eq. cbn in *. lia. }
  clear Hs. unfold ensure. destruct (pn_check env 0) as [e|] eqn:E0.
  2:{ exists false, 0. rewrite E0. split; [lia|]. split; [lia|]. split; [done|]. split; [done|].
      split; [intros; exfalso; lia|done]. }
  destruct (unknownPartition e) eqn:Em; cbn [negb andb].
  - assert (Hp : pendingPartitionMetadata e = true) by (unfold pendingPartitionMetadata; by rewrite Em).
    destruct (metadataLoop_spec settings env (Z.to_nat (dp_MetadataAttempts settings)) 1 (Some e)) as (k & Hk & H1 & H2 & H3); [lia|lia|].
    destruct (pn_create env) as [e'|] eqn:Ecr.
    + exists true, 0. rewrite E0. split; [lia|]. split; [lia|]. split; [done|]. split; [by exists e|].
      split; [intros; exfalso; lia|]. split; [done|]. by intros [? ?].
    + exists true, k. split; [lia|]. split; [lia|]. cbn. rewrite H1. split; [done|]. split; [by exists e|].
      split.
      * intros i Hi. destruct (decide (i = 0)) as [->|]; [by exists e|]. apply H3. lia.
      * rewrite H2. replace (1 + k - 1) with k by lia. split; [by intros ?|by intros [? _]].
  - destruct (pendingPartitionMetadata e) eqn:Hp; cbn [negb].
    + destruct (metadataLoop_spec settings env (Z.to_nat (dp_MetadataAttempts settings)) 1 (Some e)) as (k & Hk & H1 & H2 & H3); [lia|lia|].
      exists false, k. split; [lia|]. split; [lia|]. cbn. rewrite H1. split; [done|]. split; [done|].
      split.
      * intros i Hi. destruct (decide (i = 0)) as [->|]; [by exists e|]. apply H3. lia.
      * rewrite H2. replace (1 + k - 1) with k by lia. split; [by intros ?|by intros [? _]].
    + exists false, 0. rewrite E0. split; [lia|]. split; [lia|]. split; [done|]. split; [done|].
      split; [intros; exfalso; lia|]. split; [done|]. by intros [? _].
Qed.

Definition slowPartition : partitionEnv :=
  MkPartitionEnv (fun n => if n <? 2 then Some (Plain ErrUnknownPartition) else None) None (fun _ => None).

Lemma ensure_bounded_witness :
  exists (created : bool) (k : Z),
    0 <= k <= 3 /\ 3 <= 10 /\
    (ensure (MkDynamicPartitions 3 25000000) slowPartition).1 =
      CheckCall 0 :: (if created then [CreateCall] else []) ++ map CheckCall (seqZ 1 k) /\
    (created = true -> exists e, pn_check slowPartition 0 = Some e /\ unknownPartition e = true) /\
    (forall i, 0 <= i < k -> exists e, pn_check slowPartition i = Some e /\ pendingPartitionMetadata e = true) /\
    ((ensure (MkDynamicPartitions 3 25000000) slowPartition).2 = None <->
       pn_check slowPartition k = None /\ (created = true -> pn_create slowPartition = None)).
Proof.
  apply (ensure_bounded (MkDynamicPartitions 0 0) (MkDynamicPartitions 3 25000000) slowPartition). reflexivity.
Defined.
