(* ===== verification/Metadata.v ===== *)
(** * Metadata and routing

    Models [pkg/fgo/metadata.go], [pkg/fgo/metadata_client.go], [pkg/fgo/client_routing.go] and
    [RequestBucket] of [pkg/fgo/client.go]: how metadata responses become routing snapshots, how
    the router caches, refreshes and drops them, and how a request finds its bucket's leader.

    The snapshots of the code are immutable copies, so plain values model them.  The fetchers
    and the servers are parameters, indexed by the number of the call, so that they may answer
    differently every time.  The sharing of concurrent refreshes is [Coalescer]'s. *)

From Stdlib Require Import Ascii.
From stdpp Require Import pretty.
From S2P Require Import Prelude Model Errors Partition.

(** ** Snapshots *)

Record BucketMetadata := MkBucketMetadata {
  bm_ID : Z;
  bm_Leader : option ServerNode;
  bm_Replicas : list Z;
  bm_ISR : list Z;
  bm_LeaderEpoch : Z;
  bm_LeaderEpochKnown : bool;
  bm_BucketEpoch : Z;
  bm_BucketEpochKnown : bool;
}.

(** A coordinator that was not advertised is [None], as are tablets that are nil. *)
Record PartitionMetadata := MkPartitionMetadata {
  pm_Path : PhysicalTablePath;
  pm_ID : Z;
  pm_Buckets : gmap Z ServerNode;
  pm_BucketDetails : gmap Z BucketMetadata;
  pm_BucketCount : Z;
  pm_coordinator : option ServerNode;
  pm_tablets : option (gmap Z ServerNode);
}.

Record TableMetadata := MkTableMetadata {
  tm_Path : TablePath;
  tm_ID : Z;
  tm_SchemaID : Z;
  tm_Buckets : gmap Z ServerNode;
  tm_BucketDetails : gmap Z BucketMetadata;
  tm_BucketCount : Z;
  tm_BucketCountEpoch : Z;
  tm_BucketCountEpochKnown : bool;
  tm_RemoteDataDirectory : string;
  tm_Partitions : gmap string PartitionMetadata;
  tm_coordinator : option ServerNode;
  tm_tablets : option (gmap Z ServerNode);
}.

Record Metadata := MkMetadata {
  md_Coordinator : ServerNode;
  md_Tablets : gmap Z ServerNode;
  md_Tables : gmap TablePath TableMetadata;
}.

(** A call that gives a value or an error. *)
Abbreviation result A := (A + callError)%type.

Definition physicalTableKey (path : PhysicalTablePath) : string := PhysicalTablePath_String path.

(** ** Metadata responses *)

Record PbServerNode := MkPbServerNode { ps_NodeId : Z; ps_Host : string; ps_Port : Z }.

Record PbBucketMetadata := MkPbBucketMetadata {
  pb_BucketId : option Z;
  pb_LeaderId : option Z;
  pb_ReplicaId : list Z;
  pb_Isr : list Z;
  pb_LeaderEpoch : option Z;
  pb_BucketEpoch : option Z;
}.

Record PbTableMetadata := MkPbTableMetadata {
  pt_Path : TablePath;
  pt_TableId : Z;
  pt_SchemaId : Z;
  pt_BucketMetadata : list (option PbBucketMetadata);
  pt_BucketCountEpoch : option Z;
  pt_RemoteDataDir : string;
}.

Record PbPartitionMetadata := MkPbPartitionMetadata {
  pp_TableId : Z;
  pp_PartitionName : string;
  pp_PartitionId : Z;
  pp_BucketMetadata : list (option PbBucketMetadata);
  pp_BucketCount : option Z;
}.

Record MetadataResponse := MkMetadataResponse {
  mr_CoordinatorServer : option PbServerNode;
  mr_TabletServers : list (option PbServerNode);
  mr_TableMetadata : list PbTableMetadata;
  mr_PartitionMetadata : list PbPartitionMetadata;
}.

(** [net.JoinHostPort]. *)
Fixpoint hasColon (s : string) : bool :=
  match s with
  | EmptyString => false
  | String c s => bool_decide (c = ":"%char) || hasColon s
  end.

Definition JoinHostPort (host port : string) : string :=
  if hasColon host then ("[" +:+ host +:+ "]:" +:+ port)%string else (host +:+ ":" +:+ port)%string.

Definition nodeFromProto (server : option PbServerNode) (serverType : ServerType) : outcome ServerNode :=
  match server with
  | None => Err ErrMetadata
  | Some server =>
    if bool_decide (ps_Host server = ""%string) || (ps_Port server <=? 0) || (65535 <? ps_Port server) then Err ErrMetadata
    else Ok (MkServerNode (ps_NodeId server) (JoinHostPort (ps_Host server) (pretty (ps_Port server))) serverType)
  end.

Fixpoint tabletServers (servers : list (option PbServerNode)) (tablets : gmap Z ServerNode) : outcome (gmap Z ServerNode) :=
  match servers with
  | [] => Ok tablets
  | server :: servers => node ← nodeFromProto server TabletServer; tabletServers servers (<[sn_ID node := node]> tablets)
  end.

Definition metadataServers (response : MetadataResponse) : outcome (option ServerNode * gmap Z ServerNode) :=
  tablets ← tabletServers (mr_TabletServers response) ∅;
  match mr_CoordinatorServer response with
  | None => Ok (None, tablets)
  | Some server => coordinator ← nodeFromProto (Some server) CoordinatorServer; Ok (Some coordinator, tablets)
  end.

Definition isKnown {A} (o : option A) : bool := match o with Some _ => true | None => false end.

Fixpoint bucketLoop (buckets : list (option PbBucketMetadata)) (tablets : gmap Z ServerNode)
    (leaders : gmap Z ServerNode) (details : gmap Z BucketMetadata) : outcome (gmap Z ServerNode * gmap Z BucketMetadata) :=
  match buckets with
  | [] => Ok (leaders, details)
  | bucket :: buckets =>
    match (bucket ← bucket; id ← pb_BucketId bucket; if id <? 0 then None else Some (bucket, id)) with
    | None => Err ErrMetadata
    | Some (bucket, id) =>
      let detail leader := MkBucketMetadata id leader (pb_ReplicaId bucket) (pb_Isr bucket)
        (default 0 (pb_LeaderEpoch bucket)) (isKnown (pb_LeaderEpoch bucket))
        (default 0 (pb_BucketEpoch bucket)) (isKnown (pb_BucketEpoch bucket)) in
      match pb_LeaderId bucket with
      | None => bucketLoop buckets tablets leaders (<[id := detail None]> details)
      | Some leader =>
        match tablets !! leader with
        | None => Err ErrNoBucketLeader
        | Some node => bucketLoop buckets tablets (<[id := node]> leaders) (<[id := detail (Some node)]> details)
        end
      end
    end
  end.

Definition bucketMetadata (buckets : list (option PbBucketMetadata)) (tablets : gmap Z ServerNode)
    : outcome (gmap Z ServerNode * gmap Z BucketMetadata) := bucketLoop buckets tablets ∅ ∅.

Definition mapLen {A} (m : gmap Z A) : Z := int32 (Z.of_nat (size m)).

Definition partitionOf (path : PhysicalTablePath) (partition : PbPartitionMetadata)
    (coordinator : option ServerNode) (tablets : gmap Z ServerNode) : outcome PartitionMetadata :=
  '(buckets, details) ← bucketMetadata (pp_BucketMetadata partition) tablets;
  Ok (MkPartitionMetadata path (pp_PartitionId partition) buckets details
        (default (mapLen details) (pp_BucketCount partition)) coordinator (Some tablets)).

Fixpoint partitionMetadataForTable (partitions : list PbPartitionMetadata) (tableID : Z) (path : TablePath)
    (coordinator : option ServerNode) (tablets : gmap Z ServerNode) (m : gmap string PartitionMetadata)
    : outcome (gmap string PartitionMetadata) :=
  match partitions with
  | [] => Ok m
  | partition :: partitions =>
    if negb (pp_TableId partition =? tableID) then partitionMetadataForTable partitions tableID path coordinator tablets m
    else
      let partitionPath := MkPhysicalTablePath path (pp_PartitionName partition) in
      p ← partitionOf partitionPath partition coordinator tablets;
      partitionMetadataForTable partitions tableID path coordinator tablets (<[physicalTableKey partitionPath := p]> m)
  end.

Definition tableMetadataFromResponse (response : MetadataResponse) (path : TablePath) : outcome TableMetadata :=
  '(coordinator, tablets) ← metadataServers response;
  match list_find (fun item => pt_Path item = path) (mr_TableMetadata response) with
  | None => Err ErrUnknownTable
  | Some (_, item) =>
    '(buckets, details) ← bucketMetadata (pt_BucketMetadata item) tablets;
    partitions ← partitionMetadataForTable (mr_PartitionMetadata response) (pt_TableId item) path coordinator tablets ∅;
    Ok (MkTableMetadata path (pt_TableId item) (pt_SchemaId item) buckets details (mapLen details)
          (default 0 (pt_BucketCountEpoch item)) (isKnown (pt_BucketCountEpoch item)) (pt_RemoteDataDir item)
          partitions coordinator (Some tablets))
  end.

Definition partitionMetadataFromResponse (response : MetadataResponse) (path : PhysicalTablePath) : outcome PartitionMetadata :=
  '(coordinator, tablets) ← metadataServers response;
  match list_find (fun item => pp_PartitionName item = pp_Partition path) (mr_PartitionMetadata response) with
  | None => Err ErrUnknownPartition
  | Some (_, item) => partitionOf path item coordinator tablets
  end.

(** ** The cache *)

Definition applyServers (coordinator : option ServerNode) (tablets : option (gmap Z ServerNode)) (md : Metadata) : Metadata :=
  MkMetadata
    (match coordinator with
     | Some node => if bool_decide (sn_Address node = ""%string) then md_Coordinator md else node
     | None => md_Coordinator md
     end)
    (default (md_Tablets md) tablets) (md_Tables md).

Definition setTables (tables : gmap TablePath TableMetadata) (md : Metadata) : Metadata :=
  MkMetadata (md_Coordinator md) (md_Tablets md) tables.

Definition setPartitions (partitions : gmap string PartitionMetadata) (t : TableMetadata) : TableMetadata :=
  MkTableMetadata (tm_Path t) (tm_ID t) (tm_SchemaID t) (tm_Buckets t) (tm_BucketDetails t) (tm_BucketCount t)
    (tm_BucketCountEpoch t) (tm_BucketCountEpochKnown t) (tm_RemoteDataDirectory t) partitions (tm_coordinator t) (tm_tablets t).

(** The critical section of [refresh]. *)
Definition commitTable (path : TablePath) (table : TableMetadata) (md : Metadata) : Metadata :=
  let md := applyServers (tm_coordinator table) (tm_tablets table) md in
  setTables (<[path := table]> (md_Tables md)) md.

Definition applyPhysicalMetadata (path : PhysicalTablePath) (key : string) (partition : PartitionMetadata) (md : Metadata) : outcome Metadata :=
  match md_Tables md !! pp_TablePath path with
  | None => Err ErrUnknownTable
  | Some table =>
    let table := setPartitions (<[key := partition]> (tm_Partitions table)) table in
    Ok (applyServers (pm_coordinator partition) (pm_tablets partition)
          (setTables (<[pp_TablePath path := table]> (md_Tables md)) md))
  end.

Definition Invalidate (path : TablePath) (md : Metadata) : Metadata := setTables (delete path (md_Tables md)) md.

Definition InvalidatePhysical (path : PhysicalTablePath) (md : Metadata) : Metadata :=
  if bool_decide (pp_Partition path = ""%string) then Invalidate (pp_TablePath path) md
  else
    match md_Tables md !! pp_TablePath path with
    | None => md
    | Some table =>
      setTables (<[pp_TablePath path := setPartitions (delete (physicalTableKey path) (tm_Partitions table)) table]> (md_Tables md)) md
    end.

Definition hasTable (path : TablePath) (md : Metadata) : bool := isKnown (md_Tables md !! path).

Definition hasPartition (path : PhysicalTablePath) (md : Metadata) : bool :=
  match md_Tables md !! pp_TablePath path with
  | None => false
  | Some table => isKnown (tm_Partitions table !! physicalTableKey path)
  end.

(** No node, or a node and the bucket count to route with. *)
Definition routedBucket (bucket count : Z) (leaders : gmap Z ServerNode) (details : gmap Z BucketMetadata)
    : outcome (option (ServerNode * Z)) :=
  if negb (isKnown (leaders !! bucket)) && negb (isKnown (details !! bucket)) then Ok None
  else
    let count := if count <=? 0 then (if mapLen details =? 0 then mapLen leaders else mapLen details) else count in
    if count <=? 0 then Err ErrMetadata
    else match leaders !! bucket with
         | Some node => Ok (Some (node, count))
         | None => Err ErrNoBucketLeader
         end.

Definition lookupPhysical (path : PhysicalTablePath) (bucket : Z) (md : Metadata) : outcome (option (ServerNode * Z)) :=
  match md_Tables md !! pp_TablePath path with
  | None => Ok None
  | Some table =>
    if bool_decide (pp_Partition path = ""%string)
    then routedBucket bucket (tm_BucketCount table) (tm_Buckets table) (tm_BucketDetails table)
    else match tm_Partitions table !! physicalTableKey path with
         | None => Ok None
         | Some partition => routedBucket bucket (pm_BucketCount partition) (pm_Buckets partition) (pm_BucketDetails partition)
         end
  end.

Definition lookupPhysicalRequired (path : PhysicalTablePath) (bucket : Z) (md : Metadata) : outcome (ServerNode * Z) :=
  routed ← lookupPhysical path bucket md;
  match routed with Some routed => Ok routed | None => Err ErrUnknownBucket end.

(** ** Refreshing and routing *)

Section Router.
Context (fetch : option (Z -> TablePath -> result TableMetadata)).
Context (fetchPartition : option (Z -> PhysicalTablePath -> result PartitionMetadata)).

(** The cache, with the numbers of table and partition fetches made so far. *)
Record Router := MkRouter { rt_metadata : Metadata; rt_fetches : Z; rt_partitionFetches : Z }.

Definition setMetadata (md : Metadata) (r : Router) : Router := MkRouter md (rt_fetches r) (rt_partitionFetches r).

Definition NewRouter (coordinator : ServerNode) : Router := MkRouter (MkMetadata coordinator ∅ ∅) 0 0.

(** [refresh], for a caller that shares it with no other. *)
Definition refresh (path : TablePath) (force : bool) (r : Router) : Router * option callError :=
  match fetch with
  | None => (r, Some (Plain ErrUnknownTable))
  | Some fetch =>
    if negb force && hasTable path (rt_metadata r) then (r, None)
    else
      let fetched := fetch (rt_fetches r) path in
      let r := MkRouter (rt_metadata r) (rt_fetches r + 1) (rt_partitionFetches r) in
      match fetched with
      | inr err => (r, Some err)
      | inl table =>
        if negb (bool_decide (tm_Path table = path)) then (r, Some (Plain ErrUnknownTable))
        else (setMetadata (commitTable path table (rt_metadata r)) r, None)
      end
  end.

Definition Refresh (path : TablePath) (r : Router) : Router * option callError := refresh path true r.

(** Whether the refresh is over, and its error. *)
Definition preparePhysicalRefresh (path : PhysicalTablePath) (r : Router) : Router * (bool * option callError) :=
  match PhysicalTablePath_Validate path with
  | Ok _ =>
    if bool_decide (pp_Partition path = ""%string) then let '(r, err) := Refresh (pp_TablePath path) r in (r, (true, err))
    else if hasTable (pp_TablePath path) (rt_metadata r) then (r, (false, None))
    else let '(r, err) := refresh (pp_TablePath path) false r in (r, (false, err))
  | _ => (r, (true, Some (Plain ErrInvalidConfig)))
  end.

Definition fetchPhysicalMetadata (path : PhysicalTablePath) (key : string) (r : Router)
    : Router * (option PartitionMetadata * option callError) :=
  match fetchPartition with
  | None => let '(r, err) := Refresh (pp_TablePath path) r in (r, (None, err))
  | Some fetch =>
    let fetched := fetch (rt_partitionFetches r) path in
    let r := MkRouter (rt_metadata r) (rt_fetches r) (rt_partitionFetches r + 1) in
    match fetched with
    | inr err => (r, (None, Some err))
    | inl partition =>
      if negb (bool_decide (physicalTableKey (pm_Path partition) = key)) then (r, (None, Some (Plain ErrUnknownPartition)))
      else (r, (Some partition, None))
    end
  end.

Definition refreshPhysicalOnce (path : PhysicalTablePath) (key : string) (force : bool) (r : Router) : Router * option callError :=
  if negb force && hasPartition path (rt_metadata r) then (r, None)
  else
    let '(r, (partition, err)) := fetchPhysicalMetadata path key r in
    match err with
    | Some err => (r, Some err)
    | None =>
      match (match partition with
             | Some partition => applyPhysicalMetadata path key partition (rt_metadata r)
             | None => Ok (rt_metadata r)
             end) with
      | Ok md =>
        let r := setMetadata md r in
        (r, if hasPartition path md then None else Some (Plain ErrUnknownPartition))
      | Err e => (r, Some (Plain e))
      | Panic | OutOfFuel => (r, None)
      end
    end.

Definition refreshPhysical (path : PhysicalTablePath) (force : bool) (r : Router) : Router * option callError :=
  let '(r, (handled, err)) := preparePhysicalRefresh path r in
  match handled, err with
  | false, None => refreshPhysicalOnce path (physicalTableKey path) force r
  | _, _ => (r, err)
  end.

Definition RefreshPhysical (path : PhysicalTablePath) (r : Router) : Router * option callError := refreshPhysical path true r.

Definition routeError {A} (o : outcome A) : result A :=
  match o with Ok a => inl a | Err e => inr (Plain e) | Panic | OutOfFuel => inr (Plain ErrMetadata) end.

Definition routePhysical (path : PhysicalTablePath) (bucket : Z) (r : Router) : Router * result (ServerNode * Z) :=
  match PhysicalTablePath_Validate path with
  | Ok _ =>
    match lookupPhysical path bucket (rt_metadata r) with
    | Ok None =>
      let '(r, err) := if bool_decide (pp_Partition path = ""%string) then Refresh (pp_TablePath path) r
                       else refreshPhysical path false r in
      match err with
      | Some err => (r, inr err)
      | None => (r, routeError (lookupPhysicalRequired path bucket (rt_metadata r)))
      end
    | Ok (Some routed) => (r, inl routed)
    | Err e => (r, inr (Plain e))
    | Panic | OutOfFuel => (r, inr (Plain ErrMetadata))
    end
  | _ => (r, inr (Plain ErrInvalidConfig))
  end.

Definition RoutePhysical (path : PhysicalTablePath) (bucket : Z) (r : Router) : Router * result ServerNode :=
  let '(r, routed) := routePhysical path bucket r in
  (r, match routed with inl (node, _) => inl node | inr err => inr err end).

Definition Route (path : TablePath) (bucket : Z) (r : Router) : Router * result ServerNode :=
  RoutePhysical (MkPhysicalTablePath path "") bucket r.

(** [errors.Is(err, ErrMetadata)]. *)
Definition isMetadataError (err : callError) : bool :=
  match err with
  | Plain ErrMetadata => true
  | ServerErr e => bool_decide (se_category e = CatMetadata)
  | _ => false
  end.

Definition RouteAfterMetadataError (path : TablePath) (bucket : Z) (cause : callError) (r : Router) : Router * result ServerNode :=
  if negb (isMetadataError cause) then (r, inr cause)
  else Route path bucket (setMetadata (Invalidate path (rt_metadata r)) r).

(** [checkPartition] of [partition.go], with a router. *)
Definition checkPartition (path : PhysicalTablePath) (r : Router) : Router * option callError :=
  let r := setMetadata (InvalidatePhysical path (rt_metadata r)) r in
  let '(r, err) := RefreshPhysical path r in
  match err with
  | Some err => (r, Some err)
  | None => let '(r, routed) := RoutePhysical path 0 r in (r, match routed with inl _ => None | inr err => Some err end)
  end.

(** ** Requests *)

(** The fields that carry a bucket count, for each kind of request. *)
Inductive bucketRequest :=
| ProduceLogRequest (buckets : list (option Z))
| FetchLogRequest (tables : list (list (option Z)))
| PutKvRequest (buckets : list (option Z))
| LookupRequest (buckets : list (option Z))
| PrefixLookupRequest (buckets : list (option Z))
| LimitScanRequest (count : option Z)
| ScanKvRequest (bucketScan : option (option Z))
| ListOffsetsRequest (count : option Z)
| GetTableStatsRequest (buckets : list (option Z))
| OtherRequest.

Definition setRoutingBucketCount (request : bucketRequest) (count : Z) : bucketRequest :=
  if count <=? 0 then request
  else
    let set := map (fun _ : option Z => Some count) in
    match request with
    | ProduceLogRequest buckets => ProduceLogRequest (set buckets)
    | FetchLogRequest tables => FetchLogRequest (map set tables)
    | PutKvRequest buckets => PutKvRequest (set buckets)
    | LookupRequest buckets => LookupRequest (set buckets)
    | PrefixLookupRequest buckets => PrefixLookupRequest (set buckets)
    | LimitScanRequest _ => LimitScanRequest (Some count)
    | ScanKvRequest scan => ScanKvRequest (match scan with Some _ => Some (Some count) | None => None end)
    | ListOffsetsRequest _ => ListOffsetsRequest (Some count)
    | GetTableStatsRequest buckets => GetTableStatsRequest (set buckets)
    | OtherRequest => OtherRequest
    end.

Section Requests.
Context {Response : Type}.
(** [RequestTo]: the answer to the n-th send of the call. *)
Context (requestTo : Z -> ServerNode -> bucketRequest -> result Response).

(** [RequestBucket], with what it sent. *)
Definition RequestBucket (path : PhysicalTablePath) (bucket : Z) (request : bucketRequest) (r : Router)
    : Router * result Response * list (ServerNode * bucketRequest) :=
  let '(r, routed) := routePhysical path bucket r in
  match routed with
  | inr err => (r, inr err, [])
  | inl (node, count) =>
    let request := setRoutingBucketCount request count in
    let response := requestTo 0 node request in
    let stale := match response with inr err => isMetadataError err | inl _ => false end in
    let failed := match response with inr err => shouldReplaceConnection (Some err) | inl _ => false end in
    if negb stale then
      ((if failed then setMetadata (InvalidatePhysical path (rt_metadata r)) r else r), response, [(node, request)])
    else
      let r := setMetadata (InvalidatePhysical path (rt_metadata r)) r in
      let '(r, routed) := routePhysical path bucket r in
      match routed with
      | inr err => (r, inr err, [(node, request)])
      | inl (node', count) =>
        let request' := setRoutingBucketCount request count in
        (r, requestTo 1 node' request', [(node, request); (node', request')])
      end
  end.

End Requests.
End Router.

(** [invalidatePhysicalOnMetadataError]. *)
Definition invalidatePhysicalOnMetadataError (path : PhysicalTablePath) (err : option callError) (md : Metadata) : Metadata :=
  match err with
  | Some err => if isMetadataError err then InvalidatePhysical path md else md
  | None => md
  end.

(** ** What a response yields *)

(** Leaders are advertised tablet servers, at their ids, of buckets that have details. *)
Record wfBuckets (tablets : gmap Z ServerNode) (leaders : gmap Z ServerNode) (details : gmap Z BucketMetadata) : Prop := {
  wb_leader : forall bucket node, leaders !! bucket = Some node ->
    0 <= bucket /\ is_Some (details !! bucket) /\ tablets !! sn_ID node = Some node;
  wb_detail : forall bucket d, details !! bucket = Some d ->
    0 <= bucket /\ bm_ID d = bucket /\ forall node, bm_Leader d = Some node -> leaders !! bucket = Some node;
}.

Definition wfTablets (tablets : gmap Z ServerNode) : Prop :=
  map_Forall (fun id node => sn_ID node = id /\ sn_ServerType node = TabletServer /\ sn_Address node <> ""%string) tablets.

Definition wfPartition (path : PhysicalTablePath) (p : PartitionMetadata) : Prop :=
  pm_Path p = path /\ exists tablets, pm_tablets p = Some tablets /\ wfTablets tablets /\
  wfBuckets tablets (pm_Buckets p) (pm_BucketDetails p).

Definition wfTable (path : TablePath) (t : TableMetadata) : Prop :=
  tm_Path t = path /\ exists tablets, tm_tablets t = Some tablets /\ wfTablets tablets /\
  wfBuckets tablets (tm_Buckets t) (tm_BucketDetails t) /\
  map_Forall (fun key p => physicalTableKey (pm_Path p) = key /\ pp_TablePath (pm_Path p) = path /\ wfPartition (pm_Path p) p) (tm_Partitions t).

Lemma JoinHostPort_nonempty host port : JoinHostPort host port <> ""%string.
Proof. unfold JoinHostPort. destruct (hasColon host); [done|]. by destruct host. Qed.

Lemma nodeFromProto_Ok server kind node : nodeFromProto server kind = Ok node ->
  sn_ServerType node = kind /\ sn_Address node <> ""%string.
Proof.
  unfold nodeFromProto. destruct server as [server|]; [|done]. destruct (_ || _); [done|]. intros [= <-]. cbn.
  split; [done|apply JoinHostPort_nonempty].
Qed.

Lemma tabletServers_wf servers : forall tablets tablets',
  wfTablets tablets -> tabletServers servers tablets = Ok tablets' -> wfTablets tablets'.
Proof.
  induction servers as [|server servers IH]; intros tablets tablets' Hw E; cbn in E; [by injection E as <-|].
  apply bind_Ok in E as (node & En & E). apply nodeFromProto_Ok in En as [H1 H2]. eapply IH; [|exact E].
  by apply map_Forall_insert_2.
Qed.

Lemma metadataServers_wf response coordinator tablets :
  metadataServers response = Ok (coordinator, tablets) -> wfTablets tablets.
Proof.
  unfold metadataServers. intros E. apply bind_Ok in E as (ts & Et & E).
  assert (Hw : wfTablets ts) by (eapply tabletServers_wf; [|exact Et]; apply map_Forall_empty).
  destruct (mr_CoordinatorServer response); [apply bind_Ok in E as (? & _ & E)|]; by injection E as <- <-.
Qed.

Lemma bucketLoop_wf buckets tablets : wfTablets tablets -> forall leaders details leaders' details',
  wfBuckets tablets leaders details -> bucketLoop buckets tablets leaders details = Ok (leaders', details') ->
  wfBuckets tablets leaders' details'.
Proof.
  intros Ht. induction buckets as [|bucket buckets IH]; intros leaders details leaders' details' Hw E; cbn in E; [by injection E as <- <-|].
  destruct (_ ≫= _) as [[b id]|] eqn:Eb; [|done]. apply bind_Some in Eb as (b' & _ & Eb). apply bind_Some in Eb as (id' & _ & Eb).
  destruct (Z.ltb_spec id' 0); [done|]. injection Eb as -> ->. destruct Hw as [Hl Hd].
  destruct (pb_LeaderId b) as [leader|].
  - destruct (tablets !! leader) as [node|] eqn:En; [|done]. eapply IH; [|exact E]. pose proof (Ht _ _ En) as (Hid & _ & _).
    split; intros bucket' x Hx; destruct (decide (id = bucket')) as [<-|N].
    + rewrite lookup_insert_eq in Hx. injection Hx as <-. rewrite lookup_insert_eq, Hid. by eauto.
    + rewrite lookup_insert_ne in Hx by done. rewrite lookup_insert_ne by done. by apply Hl.
    + rewrite lookup_insert_eq in Hx. injection Hx as <-. rewrite lookup_insert_eq. cbn. split; [done|]. split; [done|]. by intros ? [= ->].
    + rewrite lookup_insert_ne in Hx by done. rewrite lookup_insert_ne by done. by apply Hd.
  - eapply IH; [|exact E]. split; intros bucket' x Hx; destruct (decide (id = bucket')) as [<-|N].
    + rewrite lookup_insert_eq. destruct (Hl _ _ Hx) as (? & _ & ?). by eauto.
    + rewrite lookup_insert_ne by done. by apply Hl.
    + rewrite lookup_insert_eq in Hx. injection Hx as <-. done.
    + rewrite lookup_insert_ne in Hx by done. by apply Hd.
Qed.

Lemma bucketMetadata_wf buckets tablets leaders details :
  wfTablets tablets -> bucketMetadata buckets tablets = Ok (leaders, details) -> wfBuckets tablets leaders details.
Proof. intros Ht. apply bucketLoop_wf; [done|]. split; intros ? ? H; by rewrite lookup_empty in H. Qed.

Lemma partitionOf_wf path item coordinator tablets p :
  wfTablets tablets -> partitionOf path item coordinator tablets = Ok p -> wfPartition path p.
Proof.
  intros Ht E. unfold partitionOf in E. apply bind_Ok in E as ([leaders details] & Eb & E). injection E as <-.
  split; [done|]. exists tablets. cbn. split; [done|]. split; [done|]. by eapply bucketMetadata_wf.
Qed.

Lemma partitionsForTable_wf partitions tableID path coordinator tablets : wfTablets tablets -> forall m m',
  map_Forall (fun key p => physicalTableKey (pm_Path p) = key /\ pp_TablePath (pm_Path p) = path /\ wfPartition (pm_Path p) p) m ->
  partitionMetadataForTable partitions tableID path coordinator tablets m = Ok m' ->
  map_Forall (fun key p => physicalTableKey (pm_Path p) = key /\ pp_TablePath (pm_Path p) = path /\ wfPartition (pm_Path p) p) m'.
Proof.
  intros Ht. induction partitions as [|item partitions IH]; intros m m' Hm E; cbn in E; [by injection E as <-|].
  destruct (negb _); [by eapply IH|]. apply bind_Ok in E as (p & Ep & E). apply partitionOf_wf in Ep; [|done].
  eapply IH; [|exact E]. apply map_Forall_insert_2; [|done]. pose proof Ep as [-> _]. by split.
Qed.

(** ** The cache serves what was committed last *)

Inductive routerOp :=
| OpTable (path : TablePath) (table : TableMetadata)
| OpPartition (path : PhysicalTablePath) (partition : PartitionMetadata)
| OpInvalidate (path : TablePath)
| OpInvalidatePhysical (path : PhysicalTablePath).

Definition applyOp (op : routerOp) (md : Metadata) : Metadata :=
  match op with
  | OpTable path table => commitTable path table md
  | OpPartition path partition =>
    match applyPhysicalMetadata path (physicalTableKey path) partition md with Ok md' => md' | _ => md end
  | OpInvalidate path => Invalidate path md
  | OpInvalidatePhysical path => InvalidatePhysical path md
  end.

(** [ops], newest first. *)
Fixpoint runOps (ops : list routerOp) (md : Metadata) : Metadata :=
  match ops with [] => md | op :: ops => applyOp op (runOps ops md) end.

(** The newest snapshot of a table that was not dropped since. *)
Fixpoint latestTable (path : TablePath) (ops : list routerOp) : option TableMetadata :=
  match ops with
  | [] => None
  | OpTable path' table :: ops => if decide (path' = path) then Some table else latestTable path ops
  | OpInvalidate path' :: ops => if decide (path' = path) then None else latestTable path ops
  | OpInvalidatePhysical path' :: ops =>
    if decide (pp_Partition path' = ""%string /\ pp_TablePath path' = path) then None else latestTable path ops
  | OpPartition _ _ :: ops => latestTable path ops
  end.

(** The newest snapshot of a partition of a known table, fetched alone or with the table. *)
Fixpoint latestPartition (path : TablePath) (key : string) (ops : list routerOp) : option PartitionMetadata :=
  match ops with
  | [] => None
  | OpTable path' table :: ops => if decide (path' = path) then tm_Partitions table !! key else latestPartition path key ops
  | OpInvalidate path' :: ops => if decide (path' = path) then None else latestPartition path key ops
  | OpInvalidatePhysical path' :: ops =>
    if decide (pp_TablePath path' = path /\ (pp_Partition path' = ""%string \/ physicalTableKey path' = key)) then None
    else latestPartition path key ops
  | OpPartition path' partition :: ops =>
    if decide (pp_TablePath path' = path /\ physicalTableKey path' = key /\ latestTable path ops <> None) then Some partition
    else latestPartition path key ops
  end.

Definition latestRoute (path : PhysicalTablePath) (bucket : Z) (ops : list routerOp) : outcome (option (ServerNode * Z)) :=
  if bool_decide (pp_Partition path = ""%string) then
    match latestTable (pp_TablePath path) ops with
    | None => Ok None
    | Some table => routedBucket bucket (tm_BucketCount table) (tm_Buckets table) (tm_BucketDetails table)
    end
  else
    match latestPartition (pp_TablePath path) (physicalTableKey path) ops with
    | None => Ok None
    | Some partition => routedBucket bucket (pm_BucketCount partition) (pm_Buckets partition) (pm_BucketDetails partition)
    end.

(** Tables agree up to their partitions. *)
Definition sameTable (a b : option TableMetadata) : Prop :=
  match a, b with
  | None, None => True
  | Some a, Some b => setPartitions ∅ a = setPartitions ∅ b
  | _, _ => False
  end.

Lemma runOps_table path ops coordinator :
  sameTable (md_Tables (runOps ops (MkMetadata coordinator ∅ ∅)) !! path) (latestTable path ops).
Proof.
  induction ops as [|op ops IH]; cbn [runOps latestTable]; [done|]. set (md := runOps ops _) in *.
  destruct op as [path' table|path' partition|path'|path']; cbn [applyOp].
  - cbn. case_decide as E; [subst; rewrite lookup_insert_eq; done|by rewrite lookup_insert_ne].
  - unfold applyPhysicalMetadata. destruct (md_Tables md !! pp_TablePath path') as [t|] eqn:Et; [|done]. cbn.
    destruct (decide (pp_TablePath path' = path)) as [<-|N]; [|by rewrite lookup_insert_ne].
    rewrite Et in IH. rewrite lookup_insert_eq. by destruct (latestTable _ ops).
  - cbn. case_decide as E; [subst; by rewrite lookup_delete_eq|by rewrite lookup_delete_ne].
  - unfold InvalidatePhysical. destruct (decide (pp_Partition path' = ""%string)) as [Ep|Np].
    + rewrite bool_decide_true by done. cbn. case_decide as E; [destruct E as [_ <-]; by rewrite lookup_delete_eq|].
      rewrite lookup_delete_ne by naive_solver. done.
    + rewrite bool_decide_false by done. rewrite decide_False by naive_solver.
      destruct (md_Tables md !! pp_TablePath path') as [t|] eqn:Et; [|done]. cbn.
      destruct (decide (pp_TablePath path' = path)) as [<-|N]; [|by rewrite lookup_insert_ne].
      rewrite Et in IH. rewrite lookup_insert_eq. by destruct (latestTable _ ops).
Qed.

Definition cachedPartition (path : TablePath) (key : string) (md : Metadata) : option PartitionMetadata :=
  t ← md_Tables md !! path; tm_Partitions t !! key.

Lemma runOps_partition path key ops coordinator :
  cachedPartition path key (runOps ops (MkMetadata coordinator ∅ ∅)) = latestPartition path key ops.
Proof.
  induction ops as [|op ops IH]; cbn [runOps latestPartition]; [done|]. pose proof (runOps_table path ops coordinator) as Ht.
  set (md := runOps ops _) in *. unfold cachedPartition in *.
  destruct op as [path' table|path' partition|path'|path']; cbn [applyOp].
  - cbn. case_decide as E; [subst; by rewrite lookup_insert_eq|by rewrite lookup_insert_ne].
  - unfold applyPhysicalMetadata. destruct (decide (pp_TablePath path' = path)) as [<-|N].
    + destruct (md_Tables md !! pp_TablePath path') as [t|] eqn:Et.
      * cbn. rewrite lookup_insert_eq. cbn. destruct (latestTable (pp_TablePath path') ops) eqn:El; [|done].
        destruct (decide (physicalTableKey path' = key)) as [<-|Nk].
        -- rewrite decide_True by done. by rewrite lookup_insert_eq.
        -- rewrite decide_False by naive_solver. rewrite lookup_insert_ne by done. exact IH.
      * rewrite decide_False; [rewrite Et; exact IH|]. intros (_ & _ & H). by destruct (latestTable _ ops).
    + rewrite decide_False by naive_solver. destruct (md_Tables md !! pp_TablePath path') as [t|]; [|exact IH].
      cbn. by rewrite lookup_insert_ne.
  - cbn. case_decide as E; [subst; by rewrite lookup_delete_eq|by rewrite lookup_delete_ne].
  - unfold InvalidatePhysical. destruct (decide (pp_Partition path' = ""%string)) as [Ep|Np].
    + rewrite bool_decide_true by done. cbn. destruct (decide (pp_TablePath path' = path)) as [<-|N].
      * rewrite decide_True by auto. by rewrite lookup_delete_eq.
      * rewrite decide_False by naive_solver. by rewrite lookup_delete_ne.
    + rewrite bool_decide_false by done. destruct (decide (pp_TablePath path' = path)) as [<-|N].
      * destruct (md_Tables md !! pp_TablePath path') as [t|] eqn:Et.
        -- cbn. rewrite lookup_insert_eq. cbn. destruct (decide (physicalTableKey path' = key)) as [<-|Nk].
           ++ rewrite decide_True by auto. by rewrite lookup_delete_eq.
           ++ rewrite decide_False by naive_solver. rewrite lookup_delete_ne by done. exact IH.
        -- rewrite Et. cbn. case_decide; [done|exact IH].
      * rewrite decide_False by naive_solver. destruct (md_Tables md !! pp_TablePath path') as [t|]; [|exact IH].
        cbn. by rewrite lookup_insert_ne.
Qed.

Lemma routedBucket_pos bucket count leaders details node c :
  routedBucket bucket count leaders details = Ok (Some (node, c)) -> 0 < c /\ leaders !! bucket = Some node.
Proof.
  unfold routedBucket. destruct (_ && _); [done|]. set (n := if count <=? 0 then _ else _). destruct (Z.leb_spec n 0); [done|].
  destruct (leaders !! bucket); [|done]. by intros [= <- <-].
Qed.

(** ** Calls of the router *)

Section Calls.
Context (fetch : option (Z -> TablePath -> result TableMetadata)).
Context (fetchPartition : option (Z -> PhysicalTablePath -> result PartitionMetadata)).

Definition tableRoute (path : PhysicalTablePath) (bucket : Z) (t : TableMetadata) : outcome (option (ServerNode * Z)) :=
  if bool_decide (pp_Partition path = ""%string) then routedBucket bucket (tm_BucketCount t) (tm_Buckets t) (tm_BucketDetails t)
  else match tm_Partitions t !! physicalTableKey path with
       | None => Ok None
       | Some p => routedBucket bucket (pm_BucketCount p) (pm_Buckets p) (pm_BucketDetails p)
       end.

Lemma lookupPhysical_table path bucket md t : md_Tables md !! pp_TablePath path = Some t ->
  lookupPhysical path bucket md = tableRoute path bucket t.
Proof. intros E. unfold lookupPhysical. rewrite E. unfold tableRoute. by repeat case_match. Qed.

(** A route that a fetch between the two states has answered. *)
Definition freshRoute (r r' : Router) (path : PhysicalTablePath) (bucket : Z) (routed : ServerNode * Z) : Prop :=
  (exists f n table, fetch = Some f /\ rt_fetches r <= n < rt_fetches r' /\ f n (pp_TablePath path) = inl table /\
     tableRoute path bucket table = Ok (Some routed)) \/
  (exists f n p, fetchPartition = Some f /\ rt_partitionFetches r <= n < rt_partitionFetches r' /\ f n path = inl p /\
     routedBucket bucket (pm_BucketCount p) (pm_Buckets p) (pm_BucketDetails p) = Ok (Some routed)).

Definition counts (tables partitions : Z) (r r' : Router) : Prop :=
  rt_fetches r <= rt_fetches r' <= rt_fetches r + tables /\
  rt_partitionFetches r <= rt_partitionFetches r' <= rt_partitionFetches r + partitions.

Lemma refresh_spec path force r r' err : refresh fetch path force r = (r', err) ->
  counts 1 0 r r' /\ (err <> None -> rt_metadata r' = rt_metadata r) /\
  (err = None -> (force = false /\ hasTable path (rt_metadata r) = true /\ r' = r) \/
    exists f table, fetch = Some f /\ f (rt_fetches r) path = inl table /\ rt_fetches r' = rt_fetches r + 1 /\
      rt_metadata r' = commitTable path table (rt_metadata r)).
Proof.
  unfold refresh, counts. destruct fetch as [f|]; [|intros [= <- <-]; split; [lia|done]].
  destruct (negb force && hasTable path (rt_metadata r)) eqn:Ec.
  { intros [= <- <-]. split; [lia|]. split; [done|]. intros _. left. apply andb_true_iff in Ec as [H1%negb_true_iff H2]. done. }
  destruct (f (rt_fetches r) path) as [table|e] eqn:Ef; [|intros [= <- <-]; cbn; split; [lia|done]].
  destruct (bool_decide (tm_Path table = path)) eqn:Ep; cbn [negb]; intros [= <- <-]; cbn; (split; [lia|]); [|done]. split; [done|]. intros _. right. by eexists _, _.
Qed.

Lemma commit_lookup path table md : md_Tables (commitTable path table md) !! path = Some table.
Proof. cbn. apply lookup_insert_eq. Qed.

Lemma required_route path bucket md routed : lookupPhysicalRequired path bucket md = Ok routed <-> lookupPhysical path bucket md = Ok (Some routed).
Proof.
  unfold lookupPhysicalRequired. destruct (lookupPhysical path bucket md) as [[x|]| | |]; cbn; naive_solver.
Qed.

Lemma routeError_inl {A} (o : outcome A) a : routeError o = inl a <-> o = Ok a.
Proof. destruct o; cbn; naive_solver. Qed.

Lemma applyPhysical_lookup path p md md' bucket : pp_Partition path <> ""%string ->
  applyPhysicalMetadata path (physicalTableKey path) p md = Ok md' ->
  lookupPhysical path bucket md' = routedBucket bucket (pm_BucketCount p) (pm_Buckets p) (pm_BucketDetails p).
Proof.
  unfold applyPhysicalMetadata. intros Hp E. destruct (md_Tables md !! pp_TablePath path) as [t|] eqn:Et; [|done]. injection E as <-.
  unfold lookupPhysical. cbn. rewrite lookup_insert_eq, bool_decide_false by done. cbn. by rewrite lookup_insert_eq.
Qed.

Lemma preparePhysical_spec path r r' handled err : pp_Partition path <> ""%string ->
  preparePhysicalRefresh fetch path r = (r', (handled, err)) ->
  counts 1 0 r r' /\ (err = None -> handled = false /\
    (r' = r \/ exists f table, fetch = Some f /\ f (rt_fetches r) (pp_TablePath path) = inl table /\ rt_fetches r' = rt_fetches r + 1 /\
      rt_metadata r' = commitTable (pp_TablePath path) table (rt_metadata r))).
Proof.
  intros Hp. unfold preparePhysicalRefresh. destruct (PhysicalTablePath_Validate path); try (intros [= <- <- <-]; split; [unfold counts; lia|done]).
  rewrite bool_decide_false by done. destruct (hasTable _ _) eqn:Eh; [intros [= <- <- <-]; split; [unfold counts; lia|auto]|].
  destruct (refresh fetch (pp_TablePath path) false r) as [r1 e1] eqn:Er. intros [= <- <- <-]. apply refresh_spec in Er as (Hc & _ & Hr).
  split; [done|]. intros He. split; [done|]. destruct (Hr He) as [(_ & H & _)|H]; [congruence|]. by right.
Qed.

Lemma physicalOnce_spec path bucket routed r r' err : pp_Partition path <> ""%string ->
  refreshPhysicalOnce fetch fetchPartition path (physicalTableKey path) false r = (r', err) ->
  counts 1 1 r r' /\ (err = None -> lookupPhysical path bucket (rt_metadata r') = Ok (Some routed) ->
    (r' = r /\ hasPartition path (rt_metadata r) = true) \/ freshRoute r r' path bucket routed).
Proof.
  intros Hp. unfold refreshPhysicalOnce. destruct (negb false && hasPartition path (rt_metadata r)) eqn:Eh.
  { intros [= <- <-]. split; [unfold counts; lia|]. intros _ _. by left. }
  unfold fetchPhysicalMetadata. destruct fetchPartition as [f|] eqn:Efp.
  - destruct (f (rt_partitionFetches r) path) as [p|e] eqn:Ef; [|intros [= <- <-]; split; [unfold counts; cbn; lia|done]].
    destruct (bool_decide (physicalTableKey (pm_Path p) = physicalTableKey path)); cbn [negb]; [|intros [= <- <-]; split; [unfold counts; cbn; lia|done]].
    cbn [rt_metadata].
    destruct (applyPhysicalMetadata path (physicalTableKey path) p (rt_metadata r)) as [md| | |] eqn:Ea;
      intros [= <- <-]; (split; [unfold counts; cbn; lia|]); try done.
    + cbn. intros _ Hl. rewrite (applyPhysical_lookup path p _ md bucket Hp Ea) in Hl. right. right.
      exists f, (rt_partitionFetches r), p. cbn. split; [done|]. split; [lia|done].
    + unfold applyPhysicalMetadata in Ea. by case_match.
    + unfold applyPhysicalMetadata in Ea. by case_match.
  - destruct (Refresh fetch (pp_TablePath path) r) as [r1 e1] eqn:Er. apply refresh_spec in Er as (Hc & _ & Hr).
    destruct e1 as [e1|]; [intros [= <- <-]; split; [unfold counts in *; lia|done]|]. intros [= <- <-]. split; [unfold counts in *; cbn; lia|].
    intros _ Hl. right. left. destruct (Hr eq_refl) as [(? & _)|(f & table & Hf & Ht & Hn & Hm)]; [done|].
    exists f, (rt_fetches r), table. cbn in *. rewrite Hm in Hl. rewrite (lookupPhysical_table _ _ _ _ (commit_lookup _ _ _)) in Hl.
    split; [done|]. split; [lia|done].
Qed.

(** A route is the cached one, without a fetch, or a fetched one. *)
Lemma routePhysical_spec path bucket r r' routed : routePhysical fetch fetchPartition path bucket r = (r', routed) ->
  counts 2 1 r r' /\
  (forall nc, routed = inl nc -> (r' = r /\ lookupPhysical path bucket (rt_metadata r) = Ok (Some nc)) \/ freshRoute r r' path bucket nc).
Proof.
  assert (H0 : counts 2 1 r r) by (unfold counts; lia).
  unfold routePhysical. destruct (PhysicalTablePath_Validate path); try (intros [= <- <-]; by split).
  destruct (lookupPhysical path bucket (rt_metadata r)) as [[nc|]| | |] eqn:El; try (intros [= <- <-]; split; [done|]; naive_solver).
  destruct (bool_decide (pp_Partition path = ""%string)) eqn:Ep.
  - apply bool_decide_eq_true in Ep. destruct (Refresh fetch (pp_TablePath path) r) as [r1 e1] eqn:Er. apply refresh_spec in Er as (Hc & _ & Hr).
    destruct e1; intros [= <- <-]; (split; [unfold counts in *; lia|]); [done|].
    intros nc Hn%routeError_inl%required_route. right. left. destruct (Hr eq_refl) as [(? & _)|(f & table & Hf & Ht & Hn1 & Hm)]; [done|].
    exists f, (rt_fetches r), table. rewrite Hm in Hn. rewrite (lookupPhysical_table _ _ _ _ (commit_lookup _ _ _)) in Hn.
    split; [done|]. split; [lia|done].
  - apply bool_decide_eq_false in Ep. unfold refreshPhysical.
    destruct (preparePhysicalRefresh fetch path r) as [r1 [handled e1]] eqn:E1. apply preparePhysical_spec in E1 as [Hc1 H1]; [|done].
    destruct e1 as [e1|]; [destruct handled; intros [= <- <-]; (split; [unfold counts in *; lia|done])|].
    destruct (H1 eq_refl) as [-> Hr1]. clear H1.
    destruct (refreshPhysicalOnce _ _ _ _ _ r1) as [r2 e2] eqn:E2.
    pose proof (fun nc => physicalOnce_spec path bucket nc r1 r2 e2 Ep E2) as Hs.
    pose proof (Hs (MkServerNode 0 "" TabletServer, 0)) as [Hc2 _].
    assert (Hc : counts 2 1 r r2) by (unfold counts in *; lia).
    destruct e2; intros [= <- <-]; (split; [exact Hc|]); [done|].
    intros nc Hn%routeError_inl%required_route. destruct (Hs nc) as [_ H2]. destruct (H2 eq_refl Hn) as [[-> Hh]|Hf].
    + destruct Hr1 as [->|(f & table & Hf & Ht & Hn1 & Hm)]; [congruence|]. right. left.
      exists f, (rt_fetches r), table. rewrite Hm in Hn. rewrite (lookupPhysical_table _ _ _ _ (commit_lookup _ _ _)) in Hn.
      split; [done|]. split; [lia|done].
    + right. destruct Hf as [(f & n & table & Hf & Hn1 & Hx)|(f & n & p & Hf & Hn1 & Hx)]; [left; exists f, n, table|right; exists f, n, p];
        (split; [done|]); (split; [unfold counts in *; lia|done]).
Qed.

(** A cached route without a leader, and a bucket a cached partition does not have. *)
Definition unroutable (path : PhysicalTablePath) (bucket : Z) (md : Metadata) : option goerror :=
  match lookupPhysical path bucket md with
  | Err e => Some e
  | Ok None => if negb (bool_decide (pp_Partition path = ""%string)) && hasPartition path md then Some ErrUnknownBucket else None
  | _ => None
  end.

Lemma hasPartition_table path md : hasPartition path md = true -> hasTable (pp_TablePath path) md = true.
Proof. unfold hasPartition, hasTable. by destruct (_ !! _). Qed.

Lemma routePhysical_unroutable path bucket r e :
  PhysicalTablePath_Validate path = Ok tt -> unroutable path bucket (rt_metadata r) = Some e ->
  routePhysical fetch fetchPartition path bucket r = (r, inr (Plain e)).
Proof.
  intros Hv. unfold unroutable, routePhysical. rewrite Hv. destruct (lookupPhysical path bucket (rt_metadata r)) as [[nc|]| | |] eqn:El; try done.
  - destruct (negb _ && _) eqn:Eb; [|done]. intros [= <-]. apply andb_true_iff in Eb as [H1%negb_true_iff H2]. rewrite H1.
    unfold refreshPhysical, preparePhysicalRefresh. rewrite Hv, H1, (hasPartition_table _ _ H2). unfold refreshPhysicalOnce. rewrite H2. cbn.
    unfold lookupPhysicalRequired. rewrite El. done.
  - by intros [= <-].
Qed.

(** ** Requests *)

Lemma setRouting_twice request c1 c2 : 0 < c2 ->
  setRoutingBucketCount (setRoutingBucketCount request c1) c2 = setRoutingBucketCount request c2.
Proof.
  intros H. unfold setRoutingBucketCount. replace (c2 <=? 0) with false by lia. destruct (c1 <=? 0); [done|].
  destruct request as [b|b|b|b|b|b|[]|b|b|]; cbn; rewrite ?map_map; try done. f_equal. apply map_ext. intros. by rewrite map_map.
Qed.

Lemma freshRoute_pos r r' path bucket node c : freshRoute r r' path bucket (node, c) -> 0 < c.
Proof.
  intros [(f & n & t & _ & _ & _ & H)|(f & n & p & _ & _ & _ & H)].
  - unfold tableRoute in H. repeat case_match; try done; by apply routedBucket_pos in H as [? _].
  - by apply routedBucket_pos in H as [? _].
Qed.

Lemma lookupPhysical_pos path bucket md node c : lookupPhysical path bucket md = Ok (Some (node, c)) -> 0 < c.
Proof. unfold lookupPhysical. repeat case_match; try done; intros H'; by apply routedBucket_pos in H' as [? _]. Qed.

Lemma invalidated_lookup path bucket md : lookupPhysical path bucket (InvalidatePhysical path md) = Ok None.
Proof.
  unfold lookupPhysical, InvalidatePhysical. destruct (bool_decide (pp_Partition path = ""%string)) eqn:Ep.
  - cbn. by rewrite lookup_delete_eq.
  - destruct (md_Tables md !! pp_TablePath path) as [t|] eqn:Et; [|by rewrite Et]. cbn. rewrite lookup_insert_eq. cbn. by rewrite lookup_delete_eq.
Qed.

End Calls.

(** ** Properties *)

(** C17: The router serves the newest snapshot.  After any sequence of committed refreshes and
    invalidations, of tables and of single partitions, in any order, looking a bucket up gives
    what the newest snapshot of its table or partition says that was not dropped since, and
    nothing when there is none. *)
Theorem router_serves_latest ops coordinator path bucket :
  lookupPhysical path bucket (runOps ops (rt_metadata (NewRouter coordinator))) = latestRoute path bucket ops.
Proof.
  unfold lookupPhysical, latestRoute, NewRouter. cbn [rt_metadata]. pose proof (runOps_table (pp_TablePath path) ops coordinator) as Ht.
  pose proof (runOps_partition (pp_TablePath path) (physicalTableKey path) ops coordinator) as Hp. unfold cachedPartition in Hp.
  destruct (md_Tables (runOps ops _) !! pp_TablePath path) as [t|]; cbn in Hp.
  - destruct (bool_decide _); [|by rewrite Hp]. destruct (latestTable _ ops) as [t'|]; [|done]. injection Ht as _ _ _ H1 H2 H3. by rewrite H1, H2, H3.
  - rewrite <- Hp. destruct (latestTable _ ops); [done|]. by destruct (bool_decide _).
Qed.

(** C18: A bucket request is sent at most twice, and never again after a failure that might have
    been applied: the second time only after the server refused the first for stale metadata,
    to a leader fetched since, and each time with a positive bucket count from the same
    snapshot as the leader.  At most four table and two partition fetches are made, and
    what the caller gets is the answer to the last send. *)
Theorem request_bucket_bounded {Response} fetch fetchPartition (requestTo : Z -> ServerNode -> bucketRequest -> result Response)
    path bucket request r r' response sent :
  RequestBucket fetch fetchPartition requestTo path bucket request r = (r', response, sent) ->
  counts 4 2 r r' /\
  match sent with
  | [] => exists err, response = inr err
  | [(node, request1)] =>
    (exists c, 0 < c /\ request1 = setRoutingBucketCount request c) /\
    (response = requestTo 0 node request1 \/
     exists err, requestTo 0 node request1 = inr err /\ isMetadataError err = true /\ exists err', response = inr err')
  | [(node, request1); (node', request2)] =>
    (exists err, requestTo 0 node request1 = inr err /\ isMetadataError err = true) /\ response = requestTo 1 node' request2 /\
    exists c', 0 < c' /\ request2 = setRoutingBucketCount request c' /\ freshRoute fetch fetchPartition r r' path bucket (node', c')
  | _ => False
  end.
Proof.
  unfold RequestBucket. destruct (routePhysical fetch fetchPartition path bucket r) as [r1 routed] eqn:E1.
  apply routePhysical_spec in E1 as [Hc1 H1]. destruct routed as [[node c]|err]; [|intros [= <- <- <-]; split; [unfold counts in *; lia|by eexists]].
  assert (Hp : 0 < c).
  { destruct (H1 _ eq_refl) as [[_ H]|H]; [by eapply lookupPhysical_pos|by eapply freshRoute_pos]. }
  set (request1 := setRoutingBucketCount request c). destruct (negb _) eqn:Es.
  { intros [= <- <- <-]. split; [unfold counts in *; repeat case_match; cbn; lia|].
    split; [by exists c|by left]. }
  apply negb_false_iff in Es. destruct (requestTo 0 node request1) as [x|err] eqn:E0; [done|].
  destruct (routePhysical _ _ _ _ (setMetadata _ r1)) as [r2 routed] eqn:E2. apply routePhysical_spec in E2 as [Hc2 H2].
  destruct routed as [[node' c']|err'].
  - intros [= <- <- <-]. split; [unfold counts in *; cbn in *; lia|]. split; [by exists err|].
    destruct (H2 _ eq_refl) as [[_ H]|H]; [cbn in H; by rewrite invalidated_lookup in H|]. pose proof (freshRoute_pos _ _ _ _ _ _ _ _ H).
    split; [by subst request1; rewrite setRouting_twice|]. exists c'. split; [done|]. subst request1. rewrite setRouting_twice by done. split; [done|].
    destruct H as [(f & n & t & Hf & Hn & Hx)|(f & n & p & Hf & Hn & Hx)]; [left; exists f, n, t|right; exists f, n, p];
      (split; [done|]); (split; [unfold counts in *; cbn in *; lia|done]).
  - intros [= <- <- <-]. split; [unfold counts in *; cbn in *; lia|]. split; [by exists c|]. right. exists err. eauto.
Qed.

(** A bucket cached without a leader stays unreachable.  While the cached snapshot has the
    bucket but no leader for it, or caches the partition without the bucket, every request for
    it fails from the cache: nothing is fetched, sent or dropped, so that the next request
    fails the same way. *)
Theorem router_leaderless_sticks {Response} fetch fetchPartition (requestTo : Z -> ServerNode -> bucketRequest -> result Response)
    path bucket request r e :
  PhysicalTablePath_Validate path = Ok tt -> unroutable path bucket (rt_metadata r) = Some e ->
  RequestBucket fetch fetchPartition requestTo path bucket request r = (r, inr (Plain e), []).
Proof. intros Hv Hu. unfold RequestBucket. by rewrite (routePhysical_unroutable fetch fetchPartition path bucket r e Hv Hu). Qed.

(** ** Examples: a table with two tablet servers *)

Definition routedPath : TablePath := MkTablePath "db" "orders".
Definition routedPartition : PhysicalTablePath := MkPhysicalTablePath routedPath "2024".

Definition sampleBucket (id : Z) (leader : option Z) : option PbBucketMetadata :=
  Some (MkPbBucketMetadata (Some id) leader [1; 2] [1] (Some 4) None).

(** Bucket 0 is led by server [leader]; bucket 1 has no leader. *)
Definition sampleResponse (leader : Z) : MetadataResponse :=
  MkMetadataResponse (Some (MkPbServerNode 0 "coordinator" 9123))
    [Some (MkPbServerNode 1 "tablet-1" 9124); Some (MkPbServerNode 2 "fd00::2" 9125)]
    [MkPbTableMetadata (MkTablePath "db" "other") 6 1 [] None "";
     MkPbTableMetadata routedPath 7 3 [sampleBucket 0 (Some leader); sampleBucket 1 None] (Some 1) "s3://data"]
    [MkPbPartitionMetadata 7 "2024" 70 [sampleBucket 0 (Some leader)] None; MkPbPartitionMetadata 6 "2024" 60 [sampleBucket 0 None] None].

Definition sampleFetch (n : Z) (path : TablePath) : result TableMetadata :=
  match tableMetadataFromResponse (sampleResponse (if n =? 0 then 1 else 2)) path with
  | Ok t => inl t | Err e => inr (Plain e) | _ => inr (Plain ErrMetadata)
  end.

Definition sampleRouter : Router := NewRouter (MkServerNode 0 "coordinator:9123" CoordinatorServer).

(** Server 1 has lost the bucket; server 2 answers. *)
Definition sampleServer (n : Z) (node : ServerNode) (request : bucketRequest) : result Z :=
  if sn_ID node =? 2 then inl 200 else inr (ServerErr (newServerError ErrorCodeNotLeaderOrFollower "" 0 "")).

Definition sampleRequest := RequestBucket (Some sampleFetch) None sampleServer.

Lemma request_bucket_bounded_witness :
  let '(r', response, sent) := sampleRequest (MkPhysicalTablePath routedPath "") 0 (PutKvRequest [None]) sampleRouter in
  response = inl 200 /\ length sent = 2%nat /\ counts 4 2 sampleRouter r'.
Proof.
  destruct (sampleRequest (MkPhysicalTablePath routedPath "") 0 (PutKvRequest [None]) sampleRouter) as [[r' response] sent] eqn:E.
  destruct (request_bucket_bounded (Some sampleFetch) None sampleServer (MkPhysicalTablePath routedPath "") 0 (PutKvRequest [None])
    sampleRouter r' response sent E) as [Hc _].
  assert (H : (fun x => (x.1.2, length x.2)) (sampleRequest (MkPhysicalTablePath routedPath "") 0 (PutKvRequest [None]) sampleRouter) = (inl 200, 2%nat))
    by (vm_compute; reflexivity).
  rewrite E in H. injection H as H1 H2. split; [exact H1|]. split; [exact H2|exact Hc].
Defined.

Lemma router_leaderless_sticks_witness :
  let r := (Refresh (Some sampleFetch) routedPath sampleRouter).1 in
  sampleRequest (MkPhysicalTablePath routedPath "") 1 (PutKvRequest [None]) r = (r, inr (Plain ErrNoBucketLeader), []) /\
  sampleRequest routedPartition 5 (PutKvRequest [None]) r = (r, inr (Plain ErrUnknownBucket), []).
Proof.
  cbv zeta. split.
  - apply (router_leaderless_sticks (Some sampleFetch) None sampleServer); vm_compute; reflexivity.
  - apply (router_leaderless_sticks (Some sampleFetch) None sampleServer); vm_compute; reflexivity.
Defined.
