(* ===== verification/MetadataSpec.v ===== *)
(** * What a metadata response says

    A reading of a metadata response that mentions no loop and no map update: of the entries of a
    response that give one thing twice, the last decides.  The functions of [metadata_client.go]
    modelled in [Metadata] accept exactly the responses that have a reading, and give it. *)

From stdpp Require Import pretty.
From S2P Require Import Prelude Model Errors Partition Metadata.

(** The last entry of a list that satisfies a test. *)
Definition latest {A} (P : A -> bool) (l : list A) : option A := last (filter (fun x => P x = true) l).

Lemma latest_cons {A} (P : A -> bool) x l :
  latest P (x :: l) = match latest P l with Some y => Some y | None => if P x then Some x else None end.
Proof.
  unfold latest. rewrite filter_cons. destruct (decide (P x = true)) as [E|E].
  - rewrite E, last_cons. by destruct (last _).
  - apply not_true_is_false in E. rewrite E. by destruct (last _).
Qed.

(** ** Readings *)

(** The entries of a repeated field that are messages. *)
Definition given {A} (entries : list (option A)) : list A := omap id entries.

Definition wellAddressed (server : PbServerNode) : Prop := ps_Host server <> ""%string /\ 0 < ps_Port server <= 65535.

Definition nodeOf (kind : ServerType) (server : PbServerNode) : ServerNode :=
  MkServerNode (ps_NodeId server) (JoinHostPort (ps_Host server) (pretty (ps_Port server))) kind.

(** The tablet servers a response advertises. *)
Definition advertisedServers (servers : list (option PbServerNode)) (tablets : gmap Z ServerNode) : Prop :=
  Forall (fun server => exists s, server = Some s /\ wellAddressed s) servers /\
  forall id, tablets !! id = nodeOf TabletServer <$> latest (fun s => ps_NodeId s =? id) (given servers).

(** An entry that says which bucket it is about, whose leader, if any, is advertised. *)
Definition validBucket (tablets : gmap Z ServerNode) (entry : option PbBucketMetadata) : Prop :=
  exists b id, entry = Some b /\ pb_BucketId b = Some id /\ 0 <= id /\
    forall leader, pb_LeaderId b = Some leader -> is_Some (tablets !! leader).

Definition leaderOf (tablets : gmap Z ServerNode) (b : PbBucketMetadata) : option ServerNode :=
  leader ← pb_LeaderId b; tablets !! leader.

Definition detailOf (tablets : gmap Z ServerNode) (id : Z) (b : PbBucketMetadata) : BucketMetadata :=
  MkBucketMetadata id (leaderOf tablets b) (pb_ReplicaId b) (pb_Isr b) (default 0 (pb_LeaderEpoch b)) (isKnown (pb_LeaderEpoch b))
    (default 0 (pb_BucketEpoch b)) (isKnown (pb_BucketEpoch b)).

Definition aboutBucket (id : Z) (b : PbBucketMetadata) : bool := bool_decide (pb_BucketId b = Some id).
Definition ledBucket (id : Z) (b : PbBucketMetadata) : bool := aboutBucket id b && isKnown (pb_LeaderId b).

(** The buckets entries describe: the details are those of the last entry of a bucket, the leader
    that of the last entry that names one. *)
Definition bucketsRead (entries : list (option PbBucketMetadata)) (tablets leaders : gmap Z ServerNode) (details : gmap Z BucketMetadata) : Prop :=
  Forall (validBucket tablets) entries /\
  (forall id, details !! id = detailOf tablets id <$> latest (aboutBucket id) (given entries)) /\
  (forall id, leaders !! id = b ← latest (ledBucket id) (given entries); leaderOf tablets b).

Definition partitionRead (path : PhysicalTablePath) (item : PbPartitionMetadata) (coordinator : option ServerNode)
    (tablets : gmap Z ServerNode) (p : PartitionMetadata) : Prop :=
  pm_Path p = path /\ pm_ID p = pp_PartitionId item /\ bucketsRead (pp_BucketMetadata item) tablets (pm_Buckets p) (pm_BucketDetails p) /\
  pm_BucketCount p = default (mapLen (pm_BucketDetails p)) (pp_BucketCount item) /\ pm_coordinator p = coordinator /\ pm_tablets p = Some tablets.

(** The entry of a response about the partition of table [tableID] filed under [key]. *)
Definition aboutPartition (tableID : Z) (path : TablePath) (key : string) (item : PbPartitionMetadata) : bool :=
  (pp_TableId item =? tableID) && bool_decide (physicalTableKey (MkPhysicalTablePath path (pp_PartitionName item)) = key).

(** The partitions of the table are those the response gives for its id, and no other's. *)
Definition partitionsRead (items : list PbPartitionMetadata) (tableID : Z) (path : TablePath) (coordinator : option ServerNode)
    (tablets : gmap Z ServerNode) (m : gmap string PartitionMetadata) : Prop :=
  Forall (fun item => pp_TableId item = tableID -> Forall (validBucket tablets) (pp_BucketMetadata item)) items /\
  forall key, match latest (aboutPartition tableID path key) items with
              | Some item => exists p, m !! key = Some p /\
                  partitionRead (MkPhysicalTablePath path (pp_PartitionName item)) item coordinator tablets p
              | None => m !! key = None
              end.

(** The table [path] as the response describes it: its entry is the first one for the path. *)
Definition tableRead (response : MetadataResponse) (path : TablePath) (t : TableMetadata) : Prop :=
  exists tablets before item after,
    mr_TableMetadata response = before ++ item :: after /\ Forall (fun other => pt_Path other <> path) before /\ pt_Path item = path /\
    advertisedServers (mr_TabletServers response) tablets /\ tm_tablets t = Some tablets /\
    (forall server, mr_CoordinatorServer response = Some server -> wellAddressed server) /\
    tm_coordinator t = nodeOf CoordinatorServer <$> mr_CoordinatorServer response /\
    tm_Path t = path /\ tm_ID t = pt_TableId item /\ tm_SchemaID t = pt_SchemaId item /\
    bucketsRead (pt_BucketMetadata item) tablets (tm_Buckets t) (tm_BucketDetails t) /\ tm_BucketCount t = mapLen (tm_BucketDetails t) /\
    tm_BucketCountEpoch t = default 0 (pt_BucketCountEpoch item) /\ tm_BucketCountEpochKnown t = isKnown (pt_BucketCountEpoch item) /\
    tm_RemoteDataDirectory t = pt_RemoteDataDir item /\
    partitionsRead (mr_PartitionMetadata response) (pt_TableId item) path (tm_coordinator t) tablets (tm_Partitions t).

(** ** The loops read their entries *)

Lemma nodeFromProto_reads server kind node :
  nodeFromProto server kind = Ok node <-> exists s, server = Some s /\ wellAddressed s /\ node = nodeOf kind s.
Proof.
  unfold nodeFromProto, wellAddressed, nodeOf. destruct server as [s|]; [|split; [done|by intros (? & ? & _)]].
  destruct (_ || _) eqn:E.
  - split; [done|]. intros (s' & [= <-] & [Hh Hp] & _). rewrite bool_decide_false in E by done. cbn [orb] in E. lia.
  - rewrite !orb_false_iff, bool_decide_eq_false in E. split.
    + intros [= <-]. exists s. destruct E as [[E1 E2] E3]. split; [done|]. split; [split; [done|lia]|done].
    + by intros (s' & [= <-] & _ & ->).
Qed.

(** What is read of entries after the first one is read of all of them. *)
Lemma step_iff {I A B} (V F : Prop) (d d1 d2 : I -> A) (l l1 l2 : I -> B) :
  V -> (forall i, d1 i = d2 i) -> (forall i, l1 i = l2 i) ->
  (F /\ (forall i, d i = d1 i) /\ (forall i, l i = l1 i)) <-> ((V /\ F) /\ (forall i, d i = d2 i) /\ (forall i, l i = l2 i)).
Proof. intros HV Hd Hl. setoid_rewrite Hd. setoid_rewrite Hl. tauto. Qed.

(** One entry, stored before the entries after it. *)
Lemma read_step {A B} (m : gmap Z A) (later : option B) (g : B -> option A) (key id : Z) (x : B) (v : A) (P : bool) :
  P = (key =? id) -> (key = id -> g x = Some v) ->
  match later with Some y => g y | None => <[key := v]> m !! id end =
  match (match later with Some y => Some y | None => if P then Some x else None end) with Some y => g y | None => m !! id end.
Proof.
  intros -> E. destruct later; [done|]. destruct (Z.eqb_spec key id) as [<-|N]; [by rewrite lookup_insert_eq, (E eq_refl)|by rewrite lookup_insert_ne].
Qed.

Lemma tabletServers_reads servers : forall m m',
  tabletServers servers m = Ok m' <->
  Forall (fun server => exists s, server = Some s /\ wellAddressed s) servers /\
  forall id, m' !! id = match latest (fun s => ps_NodeId s =? id) (given servers) with Some s => Some (nodeOf TabletServer s) | None => m !! id end.
Proof.
  induction servers as [|server servers IH]; intros m m'; cbn [tabletServers].
  - split; [by intros [= <-]|]. intros [_ H]. f_equal. symmetry. by apply map_eq.
  - rewrite bind_Ok, Forall_cons. setoid_rewrite nodeFromProto_reads. setoid_rewrite IH. split.
    + intros (node & (s & -> & Hs & ->) & Hf & H). split; [eauto|]. intros id. cbn. rewrite latest_cons, H. by apply (read_step m _ (fun s => Some (nodeOf TabletServer s)) (ps_NodeId s)).
    + intros [[(s & -> & Hs) Hf] H]. exists (nodeOf TabletServer s). split; [eauto|]. split; [done|]. intros id. rewrite H. cbn. rewrite latest_cons.
      symmetry. by apply (read_step m _ (fun s => Some (nodeOf TabletServer s)) (ps_NodeId s)).
Qed.

Lemma advertised_reads servers tablets : tabletServers servers ∅ = Ok tablets <-> advertisedServers servers tablets.
Proof.
  rewrite tabletServers_reads. unfold advertisedServers. apply and_iff_compat_l. split; intros H id; rewrite H; destruct (latest _ _); cbn; try done.
Qed.

Lemma servers_read response coordinator tablets :
  metadataServers response = Ok (coordinator, tablets) <->
  advertisedServers (mr_TabletServers response) tablets /\ (forall server, mr_CoordinatorServer response = Some server -> wellAddressed server) /\
  coordinator = nodeOf CoordinatorServer <$> mr_CoordinatorServer response.
Proof.
  unfold metadataServers. rewrite bind_Ok. setoid_rewrite advertised_reads. destruct (mr_CoordinatorServer response) as [server|].
  - setoid_rewrite bind_Ok. setoid_rewrite nodeFromProto_reads. split.
    + intros (ts & Ha & node & (s & [= <-] & Hs & ->) & [= <- <-]). split; [done|]. split; [by intros ? [= <-]|done].
    + intros (Ha & Hs & ->). exists tablets. split; [done|]. exists (nodeOf CoordinatorServer server). split; [|done]. exists server. auto.
  - split; [by intros (ts & Ha & [= <- <-])|]. intros (Ha & _ & ->). by exists tablets.
Qed.

Lemma bucketLoop_reads entries tablets : forall leaders details leaders' details',
  bucketLoop entries tablets leaders details = Ok (leaders', details') <->
  Forall (validBucket tablets) entries /\
  (forall id, details' !! id = match latest (aboutBucket id) (given entries) with Some b => Some (detailOf tablets id b) | None => details !! id end) /\
  (forall id, leaders' !! id = match latest (ledBucket id) (given entries) with Some b => leaderOf tablets b | None => leaders !! id end).
Proof.
  induction entries as [|entry entries IH]; intros leaders details leaders' details'; cbn [bucketLoop].
  - split; [by intros [= <- <-]|]. intros (_ & Hd & Hl). f_equal. f_equal; symmetry; by apply map_eq.
  - rewrite Forall_cons. destruct (entry ≫= _) as [[b id]|] eqn:Ee.
    + apply bind_Some in Ee as (b' & -> & Ee). apply bind_Some in Ee as (id' & Hid & Ee). destruct (Z.ltb_spec id' 0) as [|Hpos]; [done|]. injection Ee as -> ->.
      assert (Hv : validBucket tablets (Some b) <-> forall leader, pb_LeaderId b = Some leader -> is_Some (tablets !! leader))
        by (split; [by intros (? & ? & [= <-] & _ & _ & ?)|by exists b, id]).
      assert (Ha : forall id', aboutBucket id' b = (id =? id')).
      { intros id'. unfold aboutBucket. rewrite Hid. destruct (Z.eqb_spec id id') as [->|N]; [by rewrite bool_decide_true|rewrite bool_decide_false; naive_solver]. }
      assert (Hld : forall id', ledBucket id' b = (id =? id') && isKnown (pb_LeaderId b)) by (intros id'; unfold ledBucket; by rewrite Ha).
      assert (Hlo : leaderOf tablets b = pb_LeaderId b ≫= (tablets !!.)) by done.
      destruct (pb_LeaderId b) as [leader|] eqn:El; [destruct (tablets !! leader) as [node|] eqn:Hn|].
      * rewrite IH, Hv. assert (Hv' : forall leader', Some leader = Some leader' -> is_Some (tablets !! leader')) by (intros ? [= <-]; by rewrite Hn).
        apply step_iff; [done|..]; intros id'; cbn; rewrite latest_cons.
        -- apply (read_step details _ (fun b => Some (detailOf tablets id' b)) id id' b); [apply Ha|].
           intros <-. unfold detailOf. rewrite Hlo. cbn. by rewrite ?Hn.
        -- apply (read_step leaders _ (leaderOf tablets) id id' b); [by rewrite Hld, andb_true_r|]. intros _. rewrite Hlo. cbn. by rewrite ?Hn.
      * split; [done|]. intros ((Hb & _) & _). rewrite Hv in Hb. destruct (Hb leader eq_refl). congruence.
      * rewrite IH, Hv. apply step_iff; [done|..]; intros id'; cbn; rewrite latest_cons.
        -- apply (read_step details _ (fun b => Some (detailOf tablets id' b)) id id' b); [apply Ha|].
           intros <-. unfold detailOf. rewrite Hlo. cbn. by rewrite ?Hn.
        -- rewrite Hld, andb_false_r. by destruct (latest _ _).
    + split; [done|]. intros ((Hb & _) & _). destruct Hb as (b & id & -> & Hid & Hpos & _). cbn in Ee. rewrite Hid in Ee. cbn in Ee.
      by replace (id <? 0) with false in Ee by lia.
Qed.

Lemma buckets_read entries tablets leaders details :
  bucketMetadata entries tablets = Ok (leaders, details) <-> bucketsRead entries tablets leaders details.
Proof.
  unfold bucketMetadata, bucketsRead. rewrite bucketLoop_reads.
  split; intros (Hf & Hd & Hl); (split; [done|]); split; intros id;
    (rewrite Hd || rewrite Hl); rewrite ?lookup_empty; by destruct (latest _ _).
Qed.

Lemma bucketLoop_total entries tablets : Forall (validBucket tablets) entries -> forall leaders details,
  exists r, bucketLoop entries tablets leaders details = Ok r.
Proof.
  induction 1 as [|entry entries (b & id & -> & Hid & Hpos & Hl) _ IH]; intros leaders details; cbn [bucketLoop]; [by eexists|].
  cbn. rewrite Hid. cbn. replace (id <? 0) with false by lia. destruct (pb_LeaderId b) as [leader|]; [|apply IH].
  destruct (Hl leader eq_refl) as [node ->]. apply IH.
Qed.

Lemma partition_read path item coordinator tablets p :
  partitionOf path item coordinator tablets = Ok p <-> partitionRead path item coordinator tablets p.
Proof.
  unfold partitionOf, partitionRead. rewrite bind_Ok. split.
  - intros ([leaders details] & E & [= <-]). apply buckets_read in E. by repeat (split; [done|]).
  - intros (H1 & H2 & E & H3 & H4 & H5). apply buckets_read in E. exists (pm_Buckets p, pm_BucketDetails p). split; [done|].
    destruct p. cbn in *. by subst.
Qed.

Lemma partition_total path item coordinator tablets : Forall (validBucket tablets) (pp_BucketMetadata item) ->
  exists p, partitionOf path item coordinator tablets = Ok p.
Proof.
  intros H. unfold partitionOf. destruct (bucketLoop_total _ tablets H ∅ ∅) as [[leaders details] E]. unfold bucketMetadata. rewrite E. by eexists.
Qed.

Lemma partitionsLoop_reads items tableID path coordinator tablets : forall m m',
  partitionMetadataForTable items tableID path coordinator tablets m = Ok m' <->
  Forall (fun item => pp_TableId item = tableID -> Forall (validBucket tablets) (pp_BucketMetadata item)) items /\
  forall key, match latest (aboutPartition tableID path key) items with
              | Some item => exists p, m' !! key = Some p /\
                  partitionRead (MkPhysicalTablePath path (pp_PartitionName item)) item coordinator tablets p
              | None => m' !! key = m !! key
              end.
Proof.
  induction items as [|item items IH]; intros m m'; cbn [partitionMetadataForTable].
  - split; [by intros [= <-]|]. intros [_ H]. f_equal. symmetry. by apply map_eq.
  - rewrite Forall_cons. set (here := MkPhysicalTablePath path (pp_PartitionName item)).
    assert (Ha : forall key, aboutPartition tableID path key item = (pp_TableId item =? tableID) && bool_decide (physicalTableKey here = key)) by done.
    destruct (Z.eqb_spec (pp_TableId item) tableID) as [Et|Nt]; cbn [negb andb] in *.
    + split.
      * intros (p & Ep & [Hf H]%IH)%bind_Ok. assert (Hp := Ep). apply partition_read in Hp. split; [split; [intros _; apply Hp|done]|].
        intros key. specialize (H key). rewrite latest_cons, Ha. destruct (latest _ items); [done|].
        case_bool_decide as Ek; [rewrite <- Ek, lookup_insert_eq in H; rewrite <- Ek; eauto|by rewrite lookup_insert_ne in H].
      * intros [[Hv Hf] H]. destruct (partition_total here item coordinator tablets (Hv Et)) as [p Ep]. rewrite Ep. cbn. apply IH. split; [done|].
        intros key. specialize (H key). rewrite latest_cons, Ha in H. destruct (latest _ items); [done|]. case_bool_decide as Ek; [|by rewrite lookup_insert_ne].
        rewrite <- Ek, lookup_insert_eq. rewrite <- Ek in H. destruct H as (p' & -> & Hp%partition_read). fold here in Hp. congruence.
    + rewrite IH. split; intros [Hf H]; (split; [naive_solver|]); intros key; specialize (H key).
      * rewrite latest_cons, Ha. by destruct (latest _ items).
      * rewrite latest_cons, Ha in H. by destruct (latest _ items).
Qed.

Lemma partitions_read items tableID path coordinator tablets m :
  partitionMetadataForTable items tableID path coordinator tablets ∅ = Ok m <-> partitionsRead items tableID path coordinator tablets m.
Proof.
  rewrite partitionsLoop_reads. unfold partitionsRead. split; intros [Hf H]; (split; [done|]); intros key; specialize (H key);
    by destruct (latest _ items).
Qed.

Lemma list_find_first {A} (P : A -> Prop) `{!forall x, Decision (P x)} l x :
  (exists i, list_find P l = Some (i, x)) <-> exists before after, l = before ++ x :: after /\ Forall (fun y => ~ P y) before /\ P x.
Proof.
  split.
  - intros (i & (Hi & Hx & Hb)%list_find_Some). exists (take i l), (drop (S i) l). split; [by rewrite take_drop_middle|]. split; [|done].
    apply Forall_lookup. intros j y (Hj & Hlt)%lookup_take_Some. by eapply Hb.
  - intros (before & after & -> & Hb & Hx). exists (length before). apply list_find_Some. split; [by rewrite list_lookup_middle|]. split; [done|].
    intros j y Hj Hlt. rewrite lookup_app_l in Hj by done. eapply Forall_lookup_1 in Hb; [exact Hb|exact Hj].
Qed.

Lemma tableMetadata_reads response path t : tableMetadataFromResponse response path = Ok t <-> tableRead response path t.
Proof.
  unfold tableMetadataFromResponse, tableRead. split.
  - intros ([coordinator tablets] & (Ha & Hc & Hco)%servers_read & E)%bind_Ok. destruct (list_find _ _) as [[i item]|] eqn:Ef; [|done].
    destruct (proj1 (list_find_first (fun item => pt_Path item = path) (mr_TableMetadata response) item) ltac:(eauto)) as (before & after & Hl & Hb & Hp).
    apply bind_Ok in E as ([leaders details] & Hr%buckets_read & E). apply bind_Ok in E as (ps & Hps%partitions_read & E). injection E as <-.
    exists tablets, before, item, after. repeat (split; [done|]). done.
  - intros (tablets & before & item & after & Hl & Hb & Hp & Ha & Ht & Hc & Hco & H1 & H2 & H3 & Hr & H4 & H5 & H6 & H7 & Hps).
    destruct (proj2 (list_find_first (fun item => pt_Path item = path) (mr_TableMetadata response) item) ltac:(eauto)) as [i Hi].
    apply bind_Ok. exists (tm_coordinator t, tablets). split; [by apply servers_read|]. rewrite Hi. apply bind_Ok. exists (tm_Buckets t, tm_BucketDetails t).
    split; [by apply buckets_read|]. apply bind_Ok. exists (tm_Partitions t). split; [by apply partitions_read|]. destruct t. cbn in *. by subst.
Qed.

Lemma tableMetadata_wf response path t : tableMetadataFromResponse response path = Ok t -> wfTable path t.
Proof.
  unfold tableMetadataFromResponse. intros E. apply bind_Ok in E as ([coordinator tablets] & Es & E). apply metadataServers_wf in Es.
  destruct (list_find _ _) as [[i item]|]; [|done]. apply bind_Ok in E as ([leaders details] & Eb & E).
  apply bind_Ok in E as (partitions & Ep & E). injection E as <-. split; [done|]. exists tablets. cbn.
  split; [done|]. split; [done|]. split; [by eapply bucketMetadata_wf|]. eapply partitionsForTable_wf; [done| |exact Ep]. apply map_Forall_empty.
Qed.

Lemma bucketLoop_returns entries tablets : forall leaders details, returns (bucketLoop entries tablets leaders details) = true.
Proof.
  induction entries as [|entry entries IH]; intros leaders details; cbn; [done|]. destruct (_ ≫= _) as [[b id]|]; [|done].
  destruct (pb_LeaderId b); [|apply IH]. by destruct (_ !! _).
Qed.

Lemma tableMetadata_returns response path : returns (tableMetadataFromResponse response path) = true.
Proof.
  assert (Hn : forall server kind, returns (nodeFromProto server kind) = true) by (intros; unfold nodeFromProto; by repeat case_match).
  unfold tableMetadataFromResponse. apply bind_returns.
  - unfold metadataServers. apply bind_returns.
    + generalize (∅ : gmap Z ServerNode). induction (mr_TabletServers response) as [|server servers IH]; intros m; cbn; [done|]. by apply bind_returns.
    + intros tablets _. destruct (mr_CoordinatorServer response); [|done]. by apply bind_returns.
  - intros [coordinator tablets] _. destruct (list_find _ _) as [[i item]|]; [|done]. apply bind_returns; [apply bucketLoop_returns|].
    intros [leaders details] _. apply bind_returns; [|done]. generalize (∅ : gmap string PartitionMetadata).
    induction (mr_PartitionMetadata response) as [|q qs IH]; intros m; cbn; [done|]. destruct (negb _); [done|].
    apply bind_returns; [|done]. unfold partitionOf. apply bind_returns; [apply bucketLoop_returns|by intros [? ?]].
Qed.

(** ** Properties *)

(** C21: A metadata response is read exactly.  Whatever the response holds, [tableMetadataFromResponse]
    returns; and it yields a table if and only if the response describes that table: its first
    entry for the path is well formed, with every bucket identified and every leader named among
    the advertised servers; the table has this entry's identifiers; the buckets of the table and of
    each partition are those the entries give, the last entry for a bucket deciding its details
    and the last that names a leader deciding its leader; and its partitions are those given for its
    id, of any other table none.  Such a table is well formed: every leader is a tablet server the
    response advertises, under its own id and with an address, of a bucket that has details. *)
Theorem metadata_response_exact response path t :
  returns (tableMetadataFromResponse response path) = true /\
  (tableMetadataFromResponse response path = Ok t <-> tableRead response path t) /\
  (tableRead response path t -> wfTable path t).
Proof.
  split; [apply tableMetadata_returns|]. split; [apply tableMetadata_reads|]. intros H%tableMetadata_reads. by eapply tableMetadata_wf.
Qed.

Lemma metadata_response_exact_witness :
  exists t, tableMetadataFromResponse (sampleResponse 2) routedPath = Ok t /\ tableRead (sampleResponse 2) routedPath t /\ wfTable routedPath t.
Proof.
  destruct (tableMetadataFromResponse (sampleResponse 2) routedPath) as [t| | |] eqn:E; [|vm_compute in E; discriminate..].
  destruct (metadata_response_exact (sampleResponse 2) routedPath t) as (_ & Hr & Hw).
  exists t. split; [reflexivity|]. split; [apply Hr; exact E|]. apply Hw, Hr. exact E.
Defined.

(** A bucket given twice, with a leader and then without: it keeps the leader, but its details,
    those of the last entry, have none. *)
Example bucket_given_twice :
  let response := MkMetadataResponse None [Some (MkPbServerNode 1 "tablet-1" 9124)]
    [MkPbTableMetadata routedPath 7 3 [sampleBucket 0 (Some 1); sampleBucket 0 None] None ""] [] in
  (fun t => (sn_ID <$> tm_Buckets t !! 0, bm_Leader <$> tm_BucketDetails t !! 0, tm_BucketCount t))
    <$> tableMetadataFromResponse response routedPath = Ok (Some 1, Some None, 1).
Proof. vm_compute. reflexivity. Qed.
