(* ===== verification/Client.v ===== *)
(** * The client

    Models [pkg/fgo/client_options.go], the request path of [pkg/fgo/client.go] and of
    [pkg/fgo/connection_manager.go], and the authentication exchange of [pkg/fgo/client_auth.go]
    with the SASL PLAIN mechanism of [pkg/fgo/auth.go].  The server, the network, the clock and the
    contexts are the environment: functions of the attempt or of the step. *)

From S2P Require Import Prelude Model Errors Protocol Transport Metadata.

(** ** Options *)

(** [RetryPolicy]; the backoff is a function of the attempt, in nanoseconds. *)
Record RetryPolicy := MkClientRetry { cr_MaxAttempts : Z; cr_Backoff : option (Z -> Z) }.

(** [config]: of the dialer, TLS, authentication and metrics only whether they are set. *)
Record clientConfig := MkClientConfig {
  cc_bootstrapServers : list string;
  cc_name : string;
  cc_version : string;
  cc_dial : bool;
  cc_tls : bool;
  cc_auth : bool;
  cc_connectTimeout : Z;
  cc_limits : Transport.Config;
  cc_retry : RetryPolicy;
  cc_observer : bool;
}.

Definition noBackoff : Z -> Z := fun _ => 0.
Definition second : Z := 10 ^ 9.

(** What [Open] starts from. *)
Definition defaultClientConfig : clientConfig :=
  MkClientConfig [] "fluss-go" "dev" false false false (10 * second) (MkConfig 0 0)
    (MkClientRetry 1 (Some noBackoff)) false.

(** A nil function, configuration or observer is [false]. *)
Inductive ClientOption :=
| WithBootstrapServers (servers : list string)
| WithClientSoftware (name version : string)
| WithDialContext (dial : bool)
| WithTLSConfig (tls : bool)
| WithAuthenticator (factory : bool)
| WithConnectTimeout (timeout : Z)
| WithTransportLimits (limits : Transport.Config)
| WithRetryPolicy (policy : RetryPolicy)
| WithMetricsObserver (observer : bool).

Definition applyClientOption (o : ClientOption) (c : clientConfig) : outcome clientConfig :=
  match o with
  | WithBootstrapServers servers =>
    if glen servers =? 0 then Err ErrInvalidConfig
    else Ok (MkClientConfig servers (cc_name c) (cc_version c) (cc_dial c) (cc_tls c) (cc_auth c) (cc_connectTimeout c)
               (cc_limits c) (cc_retry c) (cc_observer c))
  | WithClientSoftware name version =>
    if bool_decide (name = ""%string) || bool_decide (version = ""%string) then Err ErrInvalidConfig
    else Ok (MkClientConfig (cc_bootstrapServers c) name version (cc_dial c) (cc_tls c) (cc_auth c) (cc_connectTimeout c)
               (cc_limits c) (cc_retry c) (cc_observer c))
  | WithDialContext dial =>
    if dial then Ok (MkClientConfig (cc_bootstrapServers c) (cc_name c) (cc_version c) true (cc_tls c) (cc_auth c)
                       (cc_connectTimeout c) (cc_limits c) (cc_retry c) (cc_observer c))
    else Err ErrInvalidConfig
  | WithTLSConfig tls =>
    if tls then Ok (MkClientConfig (cc_bootstrapServers c) (cc_name c) (cc_version c) (cc_dial c) true (cc_auth c)
                      (cc_connectTimeout c) (cc_limits c) (cc_retry c) (cc_observer c))
    else Err ErrInvalidConfig
  | WithAuthenticator factory =>
    if factory then Ok (MkClientConfig (cc_bootstrapServers c) (cc_name c) (cc_version c) (cc_dial c) (cc_tls c) true
                          (cc_connectTimeout c) (cc_limits c) (cc_retry c) (cc_observer c))
    else Err ErrInvalidConfig
  | WithConnectTimeout timeout =>
    if timeout <=? 0 then Err ErrInvalidConfig
    else Ok (MkClientConfig (cc_bootstrapServers c) (cc_name c) (cc_version c) (cc_dial c) (cc_tls c) (cc_auth c) timeout
               (cc_limits c) (cc_retry c) (cc_observer c))
  | WithTransportLimits limits =>
    if negb (cf_MaxFrameSize limits =? 0) && (cf_MaxFrameSize limits <? 5) then Err ErrInvalidConfig
    else if cf_MaxInFlight limits <? 0 then Err ErrInvalidConfig
    else Ok (MkClientConfig (cc_bootstrapServers c) (cc_name c) (cc_version c) (cc_dial c) (cc_tls c) (cc_auth c)
               (cc_connectTimeout c) limits (cc_retry c) (cc_observer c))
  | WithRetryPolicy policy =>
    if cr_MaxAttempts policy <? 1 then Err ErrInvalidConfig
    else
      let policy := match cr_Backoff policy with
                    | None => MkClientRetry (cr_MaxAttempts policy) (Some noBackoff)
                    | Some _ => policy
                    end in
      Ok (MkClientConfig (cc_bootstrapServers c) (cc_name c) (cc_version c) (cc_dial c) (cc_tls c) (cc_auth c)
            (cc_connectTimeout c) (cc_limits c) policy (cc_observer c))
  | WithMetricsObserver observer =>
    if observer then Ok (MkClientConfig (cc_bootstrapServers c) (cc_name c) (cc_version c) (cc_dial c) (cc_tls c) (cc_auth c)
                           (cc_connectTimeout c) (cc_limits c) (cc_retry c) true)
    else Err ErrInvalidConfig
  end.

(** The loop of [Open]; [None] is a nil option. *)
Fixpoint applyClientOptions (options : list (option ClientOption)) (c : clientConfig) : outcome clientConfig :=
  match options with
  | [] => Ok c
  | None :: _ => Err ErrInvalidConfig
  | Some o :: rest => c ← applyClientOption o c; applyClientOptions rest c
  end.

(** [Open], up to its first connection. *)
Definition openConfig (options : list (option ClientOption)) : outcome clientConfig :=
  c ← applyClientOptions options defaultClientConfig;
  if glen (cc_bootstrapServers c) =? 0 then Err ErrInvalidConfig
  else Ok (MkClientConfig (cc_bootstrapServers c) (cc_name c) (cc_version c) true (cc_tls c) (cc_auth c) (cc_connectTimeout c)
             (cc_limits c) (cc_retry c) (cc_observer c)).

(** ** Requests *)

Definition parseServerType (value : Z) : outcome ServerType :=
  if value =? 1 then Ok CoordinatorServer else if value =? 2 then Ok TabletServer else Err ErrServerType.

(** The operations [connectionManager] may repeat. *)
Definition safeToRetry (key : Z) : bool :=
  oneOf key [APIKeyApiVersions; APIKeyGetTableInfo; APIKeyListTables; APIKeyListDatabases; APIKeyDatabaseExists;
             APIKeyTableExists; APIKeyGetMetadata; APIKeyGetTableSchema; APIKeyListPartitionInfos;
             APIKeyGetTableStats; APIKeyListOffsets].

Definition isRetriable (err : callError) : bool :=
  match err with ServerErr e => se_Retriable e | _ => false end.

(** [shouldRetry]. *)
Definition shouldRetry (maxAttempts : Z) (ctxErr : option callError) (key : Z) (err : callError) (attempt : Z) : bool :=
  if match ctxErr with Some _ => true | None => false end || (maxAttempts <=? attempt) || negb (safeToRetry key) then false
  else isRetriable err || shouldReplaceConnection (Some err).

(** [waitRetry]: the context's error, or the end of the delay. *)
Definition waitRetry (ctxErr interrupted : option callError) (delay : Z) : option callError :=
  if delay <=? 0 then ctxErr else interrupted.

Section Requests.
Context {Q R : Type} `{Request Q R}.

(** What a transport error is to [errors.Is] and [errors.As]: an error that discarded the
    connection wraps the transport's [ErrClosed], which decides before anything else does. *)
Definition transportErrorOf (e : requestError) : transportError :=
  match e with
  | Single e => e
  | Joined (e :: _) => Failed e
  | Joined [] => Failed (Plain (ErrText ""))
  | Discarded _ => Failed TransportClosed
  end.

(** [Client.request]: the answer, and the request that was sent. *)
Definition clientRequest (closed : bool) (versions : gmap Z Z) (address : string)
    (requester : Q -> R + transportError) (request : option Q) : Metadata.result R * option Q :=
  match request with
  | None => (inr (Plain ErrInvalidArgument), None)
  | Some request =>
    if closed then (inr ClientClosed, None)
    else match versions !! requestKey request with
    | None => (inr (Plain ErrUnsupportedAPI), None)
    | Some version =>
      match SetVersion version request with
      | Ok request' =>
        (match requester request' with
         | inl response => inl response
         | inr err => inr (serverError err (requestKey request) address)
         end, Some request')
      | Err e => (inr (Plain e), None)
      | _ => (inr (Plain ErrInvalidArgument), None)
      end
    end
  end.

(** [connectionManager.request].  In attempt [n], [getNode n] is the connection obtained, as a
    number, [answer n] what [Client.request] returns on it, [ctxErr n] the context when the
    failure is classified, and [interrupted n] how the wait before the next attempt ends. *)
Inductive requestEvent := EvRequest (connection : nat) | EvReplace (connection : nat).

Context (policy : RetryPolicy) (key : Z).
Context (getNode : Z -> Metadata.result nat) (answer : Z -> Metadata.result R).
Context (ctxErr interrupted : Z -> option callError).

Definition backoff (attempt : Z) : Z := match cr_Backoff policy with Some f => f attempt | None => 0 end.

Fixpoint requestLoop (turns : nat) (attempt : Z) : Metadata.result R * list requestEvent :=
  match turns with
  | O => (inr (Plain (ErrText "retry attempts exhausted")), [])
  | S turns =>
    match getNode attempt with
    | inr err => (inr err, [])
    | inl connection =>
      match answer attempt with
      | inl response => (inl response, [EvRequest connection])
      | inr err =>
        if negb (shouldRetry (cr_MaxAttempts policy) (ctxErr attempt) key err attempt) then
          (inr err, EvRequest connection :: (if shouldReplaceConnection (Some err) then [EvReplace connection] else []))
        else match waitRetry (ctxErr attempt) (interrupted attempt) (backoff attempt) with
        | Some e => (inr e, [EvRequest connection; EvReplace connection])
        | None =>
          let '(result, events) := requestLoop turns (attempt + 1) in
          (result, EvRequest connection :: EvReplace connection :: events)
        end
      end
    end
  end.

(** The manager replaces a policy of zero attempts by one. *)
Definition managerPolicy : RetryPolicy :=
  if cr_MaxAttempts policy =? 0 then MkClientRetry 1 (cr_Backoff policy) else policy.

Definition managerRequest : Metadata.result R * list requestEvent :=
  requestLoop (Z.to_nat (cr_MaxAttempts policy)) 1.

End Requests.

(** ** Authentication

    [Authenticator]: a mechanism with its state.  A nil byte slice is [None]. *)
Record Authenticator (St : Type) := MkAuthenticator {
  au_Protocol : string;
  au_HasInitialResponse : bool;
  au_Authenticate : option (list byte) -> St -> St * (option (list byte) + goerror);
  au_Complete : St -> bool;
}.
Arguments MkAuthenticator {St} _ _ _ _.
Arguments au_Protocol {St} _.
Arguments au_HasInitialResponse {St} _.
Arguments au_Authenticate {St} _ _ _.
Arguments au_Complete {St} _ _.

(** [AuthenticationError]. *)
Record AuthenticationError := MkAuthenticationError { at_Err : callError; at_Retriable : bool }.

Definition authText (message : string) : AuthenticationError := MkAuthenticationError (Plain (ErrText message)) false.

(** [isRetriableAuthenticationError] of a classified transport error. *)
Definition isRetriableAuthenticationError (err : callError) : bool :=
  match err with
  | ServerErr e => se_Retriable e && (se_Code e =? ErrorCodeRetriableAuthenticateException)
  | _ => false
  end.

Section Authentication.
Context {St : Type} (auth : Authenticator St) (address : string).

(** The client's state when the connection is set up, and the server: the challenge of its
    response to a token in the [step]-th request, or why there is none. *)
Context (closed : bool) (versions : gmap Z Z).
Context (exchange : nat -> option (list byte) -> option (list byte) + transportError).

Definition authenticateRequest (step : nat) (token : option (list byte)) : option (list byte) + transportError :=
  if closed then inr (Failed ClientClosed)
  else match versions !! APIKeyAuthenticate with
  | None => inr (Failed (Plain ErrUnsupportedAPI))
  | Some version =>
    match validateAPI APIKeyAuthenticate version false with
    | Ok _ => exchange step token
    | Err e => inr (Failed (Plain e))
    | _ => inr (Failed (Plain ErrInvalidArgument))
    end
  end.

Definition initialAuthenticationToken (s : St) : St * (option (list byte) + AuthenticationError) :=
  if negb (au_HasInitialResponse auth) then (s, inl None)
  else
    let '(s, token) := au_Authenticate auth None s in
    (s, match token with
        | inr err => inr (MkAuthenticationError (Plain err) false)
        | inl None => inr (authText "initial response is missing")
        | inl (Some token) => inl (Some token)
        end).

(** [authenticationChallenge]: done, or the challenge to answer. *)
Definition authenticationChallenge (step : nat) (token : option (list byte)) (s : St)
    : bool + list byte + AuthenticationError :=
  match authenticateRequest step token with
  | inr err =>
    let classified := serverError err APIKeyAuthenticate address in
    inr (MkAuthenticationError classified (isRetriableAuthenticationError classified))
  | inl challenge =>
    if au_Complete auth s then inl (inl true)
    else match challenge with
         | Some challenge => inl (inr challenge)
         | None => inr (authText "server completed exchange before authenticator completed")
         end
  end.

Definition authenticationResponseToken (challenge : list byte) (s : St)
    : St * (option (list byte) + AuthenticationError) :=
  let '(s, token) := au_Authenticate auth (Some challenge) s in
  (s, match token with
      | inr err => inr (MkAuthenticationError (Plain err) false)
      | inl (Some token) => inl (Some token)
      | inl None => if au_Complete auth s then inl None
                    else inr (authText "authenticator returned no response before completion")
      end).

(** The loop of [authenticate]; the tokens it sends are recorded. *)
Fixpoint authenticateLoop (turns step : nat) (token : option (list byte)) (s : St)
    : St * option AuthenticationError * list (option (list byte)) :=
  match turns with
  | O => (s, Some (authText "authentication exchange exceeded 16 steps"), [])
  | S turns =>
    match authenticationChallenge step token s with
    | inr err => (s, Some err, [token])
    | inl (inl _) => (s, None, [token])
    | inl (inr challenge) =>
      let '(s, response) := authenticationResponseToken challenge s in
      match response with
      | inr err => (s, Some err, [token])
      | inl None => (s, None, [token])
      | inl (Some token') =>
        let '(s, err, sent) := authenticateLoop turns (step + 1) (Some token') s in
        (s, err, token :: sent)
      end
    end
  end.

Definition authenticate (s : St) : St * option AuthenticationError * list (option (list byte)) :=
  if bool_decide (au_Protocol auth = ""%string) then (s, Some (authText "invalid authenticator"), [])
  else
    let '(s, token) := initialAuthenticationToken s in
    match token with
    | inr err => (s, Some err, [])
    | inl token => authenticateLoop 16 0 token s
    end.

End Authentication.

(** *** SASL PLAIN *)

Record plainAuthenticator := MkPlain { pl_username : list byte; pl_password : list byte; pl_completed : bool }.

Definition SASLPlainAuthenticator (username password : list byte) : outcome plainAuthenticator :=
  if (glen username =? 0) || (glen password =? 0) then Err ErrInvalidConfig
  else Ok (MkPlain username password false).

Definition plainToken (username password : list byte) : list byte :=
  Byte.x00 :: username ++ Byte.x00 :: password.

Definition plainAuthenticate (challenge : option (list byte)) (a : plainAuthenticator)
    : plainAuthenticator * (option (list byte) + goerror) :=
  if pl_completed a then (a, inr (ErrText "SASL PLAIN does not accept a server challenge"))
  else if negb (glen (default [] challenge) =? 0) then (a, inr (ErrText "SASL PLAIN received an unexpected server challenge"))
  else (MkPlain (pl_username a) (pl_password a) true, inl (Some (plainToken (pl_username a) (pl_password a)))).

Definition plain : Authenticator plainAuthenticator := MkAuthenticator "PLAIN" true plainAuthenticate pl_completed.

(** ** Theorems *)

Record configOK (c : clientConfig) : Prop := {
  cg_attempts : 1 <= cr_MaxAttempts (cc_retry c);
  cg_backoff : is_Some (cr_Backoff (cc_retry c));
  cg_timeout : 0 < cc_connectTimeout c;
  cg_name : cc_name c <> ""%string /\ cc_version c <> ""%string;
  cg_frame : cf_MaxFrameSize (cc_limits c) = 0 \/ 5 <= cf_MaxFrameSize (cc_limits c);
  cg_flight : 0 <= cf_MaxInFlight (cc_limits c);
}.

Lemma applyClientOption_ok o c c' : configOK c -> applyClientOption o c = Ok c' -> configOK c'.
Proof.
  intros [C1 C2 C3 C4 C5 C6]. destruct o as [servers|name version|[]|[]|[]|timeout|limits|[attempts f]|[]]; cbn [applyClientOption]; try done;
    try (intros [= <-]; by split).
  - destruct (_ =? 0); [done|]. intros [= <-]. by split.
  - destruct (bool_decide (name = _)) eqn:E1; [done|]. destruct (bool_decide (version = _)) eqn:E2; [done|].
    apply bool_decide_eq_false_1 in E1, E2. intros [= <-]. by split.
  - destruct (_ <=? 0) eqn:E; [done|]. intros [= <-]. split; cbn; try done; lia.
  - destruct (_ && _) eqn:E1; [done|]. destruct (_ <? 0) eqn:E2; [done|]. intros [= <-].
    split; cbn; try done; lia.
  - cbn. destruct (_ <? 1) eqn:E; [done|]. intros [= <-]. split; cbn; try done; destruct f; cbn; done || lia.
Qed.

Lemma applyClientOptions_ok options c c' : configOK c -> applyClientOptions options c = Ok c' -> configOK c'.
Proof.
  revert c. induction options as [|[o|] rest IH]; intros c C; cbn; [by intros [= <-]| |done].
  intros E. apply bind_Ok in E as (c1 & E1 & E2). by eapply IH; [eapply applyClientOption_ok|].
Qed.

(** An accepted configuration is usable: there is a server to connect to, at least one attempt
    with its backoff, a positive timeout, a name, and limits the transport accepts. *)
Theorem open_config_valid options c :
  openConfig options = Ok c ->
  cc_bootstrapServers c <> [] /\ configOK c /\
  exists limits, configure (cc_limits c) = Ok limits /\ 5 <= cf_MaxFrameSize limits /\ 1 <= cf_MaxInFlight limits.
Proof.
  unfold openConfig. intros E. apply bind_Ok in E as (c1 & E1 & E2). apply applyClientOptions_ok in E1; [|split; cbn; try done; by left].
  destruct (_ =? 0) eqn:Es; [done|]. injection E2 as <-. split; [|split].
  - cbn. intros E. by rewrite E in Es.
  - destruct E1. by split.
  - destruct E1 as [_ _ _ _ Hf Hi]. unfold configure. cbn.
    destruct (cf_MaxFrameSize (cc_limits c1) =? 0) eqn:E1, (cf_MaxInFlight (cc_limits c1) =? 0) eqn:E2;
      (destruct (_ || _) eqn:Eb; [exfalso|eexists; split; [done|]; cbn]);
      unfold responseHeaderSize, defaultMaxFrame, defaultInFlight in *; change (Z.shiftl 64 20) with 67108864 in *; lia.
Qed.

(** *** Requests *)

Definition isSend (e : requestEvent) : bool := match e with EvRequest _ => true | _ => false end.

(** What [connectionManager.request] does, attempt by attempt: each attempt before the last one
    was made, failed with an error that may be retried, and its connection was replaced. *)
Section RequestLoop.
Context {R : Type} (policy : RetryPolicy) (key : Z) (getNode : Z -> Metadata.result nat) (answer : Z -> Metadata.result R).
Context (ctxErr interrupted : Z -> option callError).

Definition retriedAt (attempt : Z) (connection : nat) : Prop :=
  exists err, getNode attempt = inl connection /\ answer attempt = inr err /\
    shouldRetry (cr_MaxAttempts policy) (ctxErr attempt) key err attempt = true.

(** How the loop ends at an attempt: no connection, an answer, an error it keeps, or a wait that
    the context ends. *)
Definition endsAt (attempt : Z) (r : Metadata.result R) (events : list requestEvent) : Prop :=
  (exists err, getNode attempt = inr err /\ r = inr err /\ events = []) \/
  (exists connection response, getNode attempt = inl connection /\ answer attempt = inl response /\ r = inl response /\
     events = [EvRequest connection]) \/
  (exists connection err, getNode attempt = inl connection /\ answer attempt = inr err /\ r = inr err /\
     shouldRetry (cr_MaxAttempts policy) (ctxErr attempt) key err attempt = false /\
     events = EvRequest connection :: (if shouldReplaceConnection (Some err) then [EvReplace connection] else [])) \/
  (exists connection e, retriedAt attempt connection /\
     waitRetry (ctxErr attempt) (interrupted attempt) (backoff policy attempt) = Some e /\ r = inr e /\
     events = [EvRequest connection; EvReplace connection]).

Lemma requestLoop_spec turns attempt r events :
  (0 < turns)%nat -> Z.of_nat turns = cr_MaxAttempts policy - attempt + 1 ->
  requestLoop policy key getNode answer ctxErr interrupted turns attempt = (r, events) ->
  exists connections last, events = concat (map (fun c => [EvRequest c; EvReplace c]) connections) ++ last /\
    (length connections < turns)%nat /\
    (forall k c, connections !! k = Some c -> retriedAt (attempt + Z.of_nat k) c) /\
    endsAt (attempt + Z.of_nat (length connections)) r last.
Proof.
  revert attempt r events. induction turns as [|turns IH]; intros attempt r events Hpos Ht; [lia|]. cbn [requestLoop].
  assert (End : forall events, endsAt attempt r events -> exists connections last,
      events = concat (map (fun c => [EvRequest c; EvReplace c]) connections) ++ last /\ (length connections < S turns)%nat /\
      (forall k c, connections !! k = Some c -> retriedAt (attempt + Z.of_nat k) c) /\
      endsAt (attempt + Z.of_nat (length connections)) r last).
  { intros ev He. exists [], ev. cbn. rewrite Z.add_0_r. repeat split; try done; lia. }
  destruct (getNode attempt) as [c|err] eqn:En; [|intros [= <- <-]; apply End; left; by exists err].
  destruct (answer attempt) as [response|err] eqn:Ea; [intros [= <- <-]; apply End; right; left; by exists c, response|].
  destruct (shouldRetry _ _ _ _ _) eqn:Er; cbn [negb]; [|intros [= <- <-]; apply End; right; right; left; by exists c, err].
  assert (Hre : retriedAt attempt c) by (by exists err).
  destruct (waitRetry _ _ _) as [e|] eqn:Ew; [intros [= <- <-]; apply End; do 3 right; by exists c, e|].
  destruct (requestLoop _ _ _ _ _ _ turns (attempt + 1)) as [r' ev'] eqn:El. intros [= <- <-].
  assert (Hlt : attempt < cr_MaxAttempts policy).
  { unfold shouldRetry in Er. destruct (_ || _) eqn:E in Er; [done|]. apply orb_false_iff in E as [E _]. apply orb_false_iff in E as [_ E]. lia. }
  apply IH in El as (cs & last & -> & Hlen & Hall & Hend); [|lia|lia]. exists (c :: cs), last. split; [done|]. split; [cbn; lia|]. split.
  - intros [|k] c' Hk; [injection Hk as <-; by rewrite Z.add_0_r|]. replace (attempt + Z.of_nat (S k)) with (attempt + 1 + Z.of_nat k) by lia.
    by apply Hall.
  - cbn [length]. replace (attempt + Z.of_nat (S (length cs))) with (attempt + 1 + Z.of_nat (length cs)) by lia. done.
Qed.

Lemma retried_safe attempt c : retriedAt attempt c -> safeToRetry key = true.
Proof.
  intros (err & _ & _ & Hr). unfold shouldRetry in Hr. destruct (_ || _) eqn:E in Hr; [done|].
  apply orb_false_iff in E as [_ E]. by apply negb_false_iff in E.
Qed.

End RequestLoop.

(** C19: How a request of the client is repeated.  It is made at most [MaxAttempts] times, and only once
    unless its operation is one of those safe to retry: a mutation is never replayed.  Every
    attempt but the last failed with a retriable server error or a dead connection, while the
    context was alive, and its connection was replaced before the next; the result is that of the
    last attempt, its wait, or the failure to connect, never that the attempts ran out. *)
Theorem manager_request_bounded {R} policy key getNode (answer : Z -> Metadata.result R) ctxErr interrupted r events :
  1 <= cr_MaxAttempts policy ->
  managerRequest policy key getNode answer ctxErr interrupted = (r, events) ->
  exists connections last,
    events = concat (map (fun c => [EvRequest c; EvReplace c]) connections) ++ last /\
    Z.of_nat (length connections) < cr_MaxAttempts policy /\ (safeToRetry key = false -> connections = []) /\
    (forall k c, connections !! k = Some c -> retriedAt policy key getNode answer ctxErr (1 + Z.of_nat k) c) /\
    endsAt policy key getNode answer ctxErr interrupted (1 + Z.of_nat (length connections)) r last.
Proof.
  intros Hp E. apply requestLoop_spec in E as (cs & last & He & Hl & Hall & Hend); [|lia|lia].
  exists cs, last. split; [done|]. split; [lia|]. split; [|done]. intros Hs. destruct cs as [|c cs]; [done|].
  specialize (Hall 0%nat c eq_refl). apply retried_safe in Hall. congruence.
Qed.

(** A listing that fails twice, and a write that fails once. *)
Definition flakyNode (attempt : Z) : Metadata.result nat := inl (Z.to_nat attempt).
Definition flakyAnswer (attempt : Z) : Metadata.result Z := if attempt <? 3 then inr EOF else inl attempt.
Definition noContext (attempt : Z) : option callError := None.

Lemma manager_request_bounded_witness :
  exists connections last,
    [EvRequest 1; EvReplace 1; EvRequest 2; EvReplace 2; EvRequest 3]
      = concat (map (fun c => [EvRequest c; EvReplace c]) connections) ++ last /\
    Z.of_nat (length connections) < 5 /\
    endsAt (MkClientRetry 5 (Some noBackoff)) APIKeyListTables flakyNode flakyAnswer noContext noContext
      (1 + Z.of_nat (length connections)) (inl 3) last.
Proof.
  destruct (manager_request_bounded (MkClientRetry 5 (Some noBackoff)) APIKeyListTables flakyNode flakyAnswer noContext noContext
    (inl 3) [EvRequest 1; EvReplace 1; EvRequest 2; EvReplace 2; EvRequest 3] ltac:(done) ltac:(vm_compute; reflexivity))
    as (cs & last & H1 & H2 & _ & _ & H3).
  exists cs, last. split; [exact H1|]. split; [exact H2|exact H3].
Defined.

(** A write is not repeated. *)
Lemma write_not_repeated :
  managerRequest (MkClientRetry 5 (Some noBackoff)) 1016 flakyNode flakyAnswer noContext noContext
    = (inr EOF, [EvRequest 1; EvReplace 1]).
Proof. vm_compute. reflexivity. Qed.

(** The operations that may be repeated are public operations of the protocol. *)
Lemma safe_keys_public key : safeToRetry key = true -> exists api, LookupAPIKey key = Some api /\ api_Public api = true.
Proof.
  unfold safeToRetry, oneOf. intros Hs. apply existsb_exists in Hs as (k & Hk & E). apply Z.eqb_eq in E as ->.
  assert (A : forallb (fun k => match LookupAPIKey k with Some api => api_Public api | None => false end)
    [APIKeyApiVersions; APIKeyGetTableInfo; APIKeyListTables; APIKeyListDatabases; APIKeyDatabaseExists;
     APIKeyTableExists; APIKeyGetMetadata; APIKeyGetTableSchema; APIKeyListPartitionInfos;
     APIKeyGetTableStats; APIKeyListOffsets] = true) by (vm_compute; reflexivity).
  rewrite forallb_forall in A. specialize (A k Hk). destruct (LookupAPIKey k) as [api|]; [|done]. by exists api.
Qed.

(** *** Authentication *)

Section AuthenticationTheorems.
Context {St : Type} (auth : Authenticator St) (address : string) (closed : bool) (versions : gmap Z Z).
Context (exchange : nat -> option (list byte) -> option (list byte) + transportError).

Lemma authenticateLoop_spec turns step token s s' err sent :
  authenticateLoop auth address closed versions exchange turns step token s = (s', err, sent) ->
  (length sent <= turns)%nat /\
  (err = None -> au_Complete auth s' = true /\ closed = false /\ sent <> [] /\
     forall k t, sent !! k = Some t -> exists challenge, exchange (step + k) t = inl challenge).
Proof.
  revert step token s s' err sent. induction turns as [|turns IH]; intros step token s s' err sent; cbn [authenticateLoop].
  { intros [= <- <- <-]. split; [cbn; lia|done]. }
  destruct (authenticationChallenge _ _ _ _ _ step token s) as [[complete|challenge]|e] eqn:Ec.
  3: { intros [= <- <- <-]. split; [cbn; lia|done]. }
  all: unfold authenticationChallenge in Ec; destruct (authenticateRequest _ _ _ _ _) as [ch|e'] eqn:Er; [|done];
    assert (Hx : closed = false /\ exchange step token = inl ch)
      by (unfold authenticateRequest in Er; destruct closed; [done|]; split; [done|]; repeat case_match; congruence).
  all: destruct Hx as [-> Hx]; destruct (au_Complete auth s) eqn:Ea; try done.
  - intros [= <- <- <-]. split; [cbn; lia|]. intros _. repeat split; try done.
    intros [|k] t Hk; [|done]. injection Hk as <-. rewrite Nat.add_0_r. by exists ch.
  - by destruct ch.
  - destruct ch as [ch|]; [|done]. injection Ec as ->. destruct (authenticationResponseToken _ challenge s) as [s1 response] eqn:Et.
    destruct response as [[token'|]|e].
    + destruct (authenticateLoop _ _ _ _ _ turns (step + 1) (Some token') s1) as [[s2 err2] sent2] eqn:El. intros [= <- <- <-].
      apply IH in El as [Hl Hok]. split; [cbn; lia|]. intros He. destruct (Hok He) as (H1 & H2 & H3 & H4). repeat split; try done.
      intros [|k] t Hk; [injection Hk as <-; rewrite Nat.add_0_r; by exists (Some challenge)|]. destruct (H4 k t Hk) as [c Hc].
      exists c. by replace (step + S k)%nat with (step + 1 + k)%nat by lia.
    + intros [= <- <- <-]. split; [cbn; lia|]. intros _. unfold authenticationResponseToken in Et.
      destruct (au_Authenticate auth (Some challenge) s) as [s2 [[tk|]|e]]; try done.
      destruct (au_Complete auth s2) eqn:Ea2; [|done]. injection Et as <-. repeat split; try done.
      intros [|k] t Hk; [|done]. injection Hk as <-. rewrite Nat.add_0_r. by exists (Some challenge).
    + intros [= <- <- <-]. split; [cbn; lia|done].
Qed.

End AuthenticationTheorems.

(** Authentication is bounded and sound.  At most sixteen requests are sent; when it succeeds
    the mechanism is in its terminal state and the server answered every token, the last one
    included.  Any other end is an [AuthenticationError], retriable only for the server's code
    for it. *)
Theorem authenticate_sound {St} (auth : Authenticator St) address closed versions exchange s s' err sent :
  authenticate auth address closed versions exchange s = (s', err, sent) ->
  (length sent <= 16)%nat /\
  (err = None -> au_Complete auth s' = true /\ closed = false /\ sent <> [] /\
     forall k t, sent !! k = Some t -> exists challenge, exchange k t = inl challenge).
Proof.
  unfold authenticate. destruct (bool_decide _); [intros [= <- <- <-]; split; [cbn; lia|done]|].
  destruct (initialAuthenticationToken auth s) as [s1 [token|e]]; [|intros [= <- <- <-]; split; [cbn; lia|done]].
  intros El. by apply authenticateLoop_spec in El.
Qed.

(** With SASL PLAIN there is one request, with the credentials between zero bytes; it succeeds
    exactly when the server answers it without an error, whatever challenge it returns. *)
Theorem plain_authentication username password address versions exchange a :
  SASLPlainAuthenticator username password = Ok a -> versions !! APIKeyAuthenticate = Some 0 ->
  let token := plainToken username password in
  authenticate plain address false versions exchange a =
    (MkPlain username password true,
     match exchange 0%nat (Some token) with
     | inl _ => None
     | inr err => let classified := serverError err APIKeyAuthenticate address in
                  Some (MkAuthenticationError classified (isRetriableAuthenticationError classified))
     end, [Some token]).
Proof.
  unfold SASLPlainAuthenticator. destruct (_ || _); [done|]. 
  intros E Hv. injection E as <-. set (token := plainToken username password).
  assert (Hval : exists api, validateAPI APIKeyAuthenticate 0 false = Ok api) by (eexists; vm_compute; reflexivity).
  destruct Hval as [api Hval]. unfold authenticate, initialAuthenticationToken, plain. cbn [au_Protocol bool_decide].
  rewrite bool_decide_eq_false_2 by done. cbn [au_HasInitialResponse negb au_Authenticate].
  unfold plainAuthenticate. cbn [pl_completed default glen]. change (glen [] =? 0) with true. cbn [negb].
  unfold authenticateLoop, authenticationChallenge, authenticateRequest. rewrite Hv, Hval. cbn [pl_username pl_password]. fold token.
  by destruct (exchange 0%nat (Some token)).
Qed.

(** The server reads the credentials back, unless a name contains the separator: nothing
    refuses one that does. *)
Lemma plain_token_injective username password username' password' :
  Byte.x00 ∉ username -> Byte.x00 ∉ username' -> plainToken username password = plainToken username' password' ->
  username = username' /\ password = password'.
Proof.
  unfold plainToken. intros Hu Hu' [= E]. revert username' Hu' E. induction username as [|b u IH]; intros [|b' u'] Hu' E; cbn in E.
  - by injection E as ->.
  - injection E as <- _. exfalso. apply Hu'. by left.
  - injection E as -> _. exfalso. apply Hu. by left.
  - injection E as -> E. apply not_elem_of_cons in Hu as [_ Hu], Hu' as [_ Hu']. destruct (IH Hu u' Hu' E) as [-> ->]. done.
Qed.

Definition serverAccepts (step : nat) (token : option (list byte)) : option (list byte) + transportError := inl (Some []).
Definition authVersions : gmap Z Z := {[1038 := 0]}.

Lemma authenticate_sound_witness :
  exists s sent, authenticate plain "host:1" false authVersions serverAccepts (MkPlain [Byte.x75] [Byte.x70] false) = (s, None, sent) /\
    au_Complete plain s = true /\ sent <> [].
Proof.
  eexists _, _. split; [vm_compute; reflexivity|].
  destruct (authenticate_sound plain "host:1" false authVersions serverAccepts (MkPlain [Byte.x75] [Byte.x70] false)
    _ _ _ ltac:(vm_compute; reflexivity)) as [_ H]. destruct (H eq_refl) as (H1 & _ & H2 & _). split; [exact H1|exact H2].
Defined.
