(* ===== verification/SecurityToken.v ===== *)
(** * File-system security tokens

    Models [pkg/fgo/security_token.go]: the validation of tokens and settings, the delays between
    refreshes, and the manager that acquires tokens, offers them to receivers and publishes them,
    for every interleaving of its loop with [Start], [Stop] and [Current].

    Instants are nanoseconds since 1970 and durations are nanoseconds.  The provider, the receivers,
    the clock and the random numbers are arguments of the steps.  Floating-point values are their
    bits ([FloatArith]).  A conversion to an integer that is out of range is up to the
    implementation of Go: the parameter [outOfRange].  Tokens are values, so [Clone] has no
    counterpart; their textual forms are not modelled. *)

From S2P Require Import Prelude Model Float FloatArith Errors.

(** ** Tokens *)

Record FileSystemSecurityToken := MkToken {
  tk_Schema : string;
  tk_Token : list byte;
  tk_ExpiresAt : Z;
  tk_AdditionalInfo : gmap string string;
  tk_Revoked : bool;
}.

(** The zero [time.Time]. *)
Definition zeroInstant : Z := -62135596800 * 10 ^ 9.
Definition emptyToken : FileSystemSecurityToken := MkToken "" [] zeroInstant ∅ false.

Definition tokenExpired (token : FileSystemSecurityToken) (now skew : Z) : bool :=
  negb (tk_ExpiresAt token =? zeroInstant) && negb (now + skew <? tk_ExpiresAt token).

(** [validateSecurityToken]: whether it accepts. *)
Definition validateSecurityToken (token : FileSystemSecurityToken) (now skew : Z) : bool :=
  negb (bool_decide (TrimSpace (tk_Schema token) = ""%string))
  && (tk_Revoked token || negb (tokenExpired token now skew)).

(** The coordinator's reply, and [fetchFileSystemSecurityToken] from it on. *)
Record tokenReply := MkTokenReply {
  tr_Schema : string;
  tr_Token : list byte;
  tr_ExpirationTime : option Z;
  tr_AdditionInfo : list (string * string);
}.

Definition tokenOfReply (reply : tokenReply) : FileSystemSecurityToken :=
  MkToken (tr_Schema reply) (tr_Token reply)
    (match tr_ExpirationTime reply with Some ms => ms * 10 ^ 6 | None => zeroInstant end)
    (foldl (fun info item => <[item.1 := item.2]> info) ∅ (tr_AdditionInfo reply)) false.

(** ** Settings *)

Record FileSystemSecurityTokenRefreshConfig := MkRefreshConfig {
  fc_RenewalTimeRatio : Z;
  fc_RenewalRetryBackoff : Z;
  fc_MaxRenewalRetryBackoff : Z;
  fc_ClockSkew : Z;
  fc_Jitter : Z;
}.

Definition zero64 : fpValue := FFin false 0 0.
Definition unit64 : fpValue := FFin false 1 0.

(** The bits of [0.75]. *)
Definition defaultRatio : Z := encode64 (FFin false 3 (-2)).
Definition tokenMinute : Z := 60 * 10 ^ 9.
Definition tokenHour : Z := 3600 * 10 ^ 9.

Definition orDefault (value fallback : Z) : Z := if value =? 0 then fallback else value.

Definition normalized (c : FileSystemSecurityTokenRefreshConfig) : outcome FileSystemSecurityTokenRefreshConfig :=
  let ratio := if fpEq (decode64 (fc_RenewalTimeRatio c)) zero64 then defaultRatio else fc_RenewalTimeRatio c in
  let backoff := orDefault (fc_RenewalRetryBackoff c) tokenMinute in
  let max := orDefault (fc_MaxRenewalRetryBackoff c) tokenHour in
  let skew := orDefault (fc_ClockSkew c) (30 * 10 ^ 9) in
  if fpLe (decode64 ratio) zero64 || fpLe unit64 (decode64 ratio) || (backoff <=? 0) || (max <? backoff) || (skew <? 0)
     || fpLt (decode64 (fc_Jitter c)) zero64 || fpLt unit64 (decode64 (fc_Jitter c))
  then Err ErrInvalidConfig
  else Ok (MkRefreshConfig ratio backoff max skew (fc_Jitter c)).

(** ** Delays *)

Section Delays.
Context (outOfRange : fpValue -> Z) (config : FileSystemSecurityTokenRefreshConfig).

(** [time.Duration(x)]. *)
Definition toDuration (v : fpValue) : Z :=
  match fpTrunc v with
  | Some z => if srange 64 z then z else outOfRange v
  | None => outOfRange v
  end.

Definition minusOne64 : Z := float64_of_int (-1).

(** [random] is what the source of random numbers gives. *)
Definition jitter (random delay : Z) : Z :=
  if fpEq (decode64 (fc_Jitter config)) zero64 then delay
  else
    let factor := add64 one64 (mul64 (add64 (mul64 random two64) minusOne64) (fc_Jitter config)) in
    let jittered := toDuration (decode64 (mul64 (float64_of_int delay) factor)) in
    if jittered <? 0 then 0 else jittered.

(** The delay after [failures] failures in a row. *)
Definition tokenRetryDelay (failures : Z) : Z :=
  let exponent := if 30 <? failures - 1 then 30 else failures - 1 in
  let delay := toDuration (decode64 (mul64 (float64_of_int (fc_RenewalRetryBackoff config)) (pow64 exponent))) in
  if (fc_MaxRenewalRetryBackoff config <? delay) || (delay <? 0) then fc_MaxRenewalRetryBackoff config else delay.

Definition failedDelay (random failures : Z) : Z := jitter random (tokenRetryDelay failures).

(** [Time.Sub], which saturates. *)
Definition timeSub (t u : Z) : Z := Z.max (- 2 ^ 63) (Z.min (2 ^ 63 - 1) (t - u)).

Definition renewalDelay (random now expiresAt : Z) : Z :=
  let lifetime := timeSub (expiresAt - fc_ClockSkew config) now in
  if lifetime <=? 0 then jitter random (fc_RenewalRetryBackoff config)
  else jitter random (toDuration (decode64 (mul64 (float64_of_int lifetime) (fc_RenewalTimeRatio config)))).

End Delays.

(** ** The manager *)

(** What [mu] guards. *)
Record tokenState := MkTokenState {
  ts_current : FileSystemSecurityToken;
  ts_available : bool;
  ts_disabled : bool;
  ts_failures : Z;
}.

(** What [lifecycleMu] guards; [tl_cancelled] is the state of the loop's context, and
    [tl_closes] counts how often [done] was closed. *)
Record tokenLife := MkTokenLife {
  tl_started : bool;
  tl_stopped : bool;
  tl_cancelled : bool;
  tl_closes : nat;
}.

(** Where the loop is: waiting for a delay, acquiring a token, before offering a token to a
    receiver, inside a receiver, or over. *)
Inductive tokenPhase :=
| RunNone
| RunWaiting (delay : Z)
| RunAcquiring
| RunOffering (token : FileSystemSecurityToken) (accepted : nat)
| RunReceiving (token : FileSystemSecurityToken) (accepted : nat)
| RunEnded.

(** The manager with its [Stop] calls, those that wait and those that have returned.
    [th_published] are the tokens published, oldest first, [th_accepted] the receivers' approvals,
    [th_acquired] the tokens the provider gave, each with the time it was looked at. *)
Record tokenManager := MkTokenManager {
  th_state : tokenState;
  th_life : tokenLife;
  th_phase : tokenPhase;
  th_waiting : nat;
  th_returned : nat;
  th_published : list FileSystemSecurityToken;
  th_accepted : list (FileSystemSecurityToken * nat);
  th_acquired : list (FileSystemSecurityToken * Z);
}.

Definition newSecurityTokenManager : tokenManager :=
  MkTokenManager (MkTokenState emptyToken false false 0) (MkTokenLife false false false 0) RunNone 0 0 [] [] [].

Definition setPhase (p : tokenPhase) (m : tokenManager) : tokenManager :=
  MkTokenManager (th_state m) (th_life m) p (th_waiting m) (th_returned m) (th_published m) (th_accepted m) (th_acquired m).
Definition setState (s : tokenState) (m : tokenManager) : tokenManager :=
  MkTokenManager s (th_life m) (th_phase m) (th_waiting m) (th_returned m) (th_published m) (th_accepted m) (th_acquired m).
Definition setLife (l : tokenLife) (waiting returned : nat) (m : tokenManager) : tokenManager :=
  MkTokenManager (th_state m) l (th_phase m) waiting returned (th_published m) (th_accepted m) (th_acquired m).

Definition closeDone (l : tokenLife) : tokenLife :=
  MkTokenLife (tl_started l) (tl_stopped l) (tl_cancelled l) (S (tl_closes l)).

(** The loop returns: its deferred close of [done] runs. *)
Definition endRun (m : tokenManager) : tokenManager :=
  setPhase RunEnded (setLife (closeDone (th_life m)) (th_waiting m) (th_returned m) m).

Definition Start (m : tokenManager) : tokenManager :=
  let l := th_life m in
  if tl_started l || tl_stopped l then m
  else setPhase (RunWaiting 0) (setLife (MkTokenLife true (tl_stopped l) (tl_cancelled l) (tl_closes l)) (th_waiting m) (th_returned m) m).

(** [Stop], up to its wait for [done]; before [Start] there is nothing to wait for. *)
Definition Stop (m : tokenManager) : tokenManager :=
  let l := th_life m in
  if tl_stopped l then setLife l (S (th_waiting m)) (th_returned m) m
  else if negb (tl_started l) then
    setLife (closeDone (MkTokenLife (tl_started l) true (tl_cancelled l) (tl_closes l))) (th_waiting m) (S (th_returned m)) m
  else setLife (MkTokenLife (tl_started l) true true (tl_closes l)) (S (th_waiting m)) (th_returned m) m.

(** A waiting [Stop] returns once [done] is closed. *)
Definition stopReturns (m : tokenManager) : option tokenManager :=
  match th_waiting m, tl_closes (th_life m) with
  | S waiting, S _ => Some (setLife (th_life m) waiting (S (th_returned m)) m)
  | _, _ => None
  end.

Section Manager.
Context (outOfRange : fpValue -> Z) (config : FileSystemSecurityTokenRefreshConfig) (receivers : nat).

Definition Current (now : Z) (m : tokenManager) : option FileSystemSecurityToken :=
  let s := th_state m in
  if negb (ts_available s) || tokenExpired (ts_current s) now (fc_ClockSkew config) then None else Some (ts_current s).

(** [waitSecurityToken]: the timer, or the context. *)
Definition wake (m : tokenManager) : option tokenManager :=
  match th_phase m with
  | RunWaiting delay =>
    Some (if (delay <=? 0) && tl_cancelled (th_life m) then endRun m else setPhase RunAcquiring m)
  | _ => None
  end.

Definition waitCancelled (m : tokenManager) : option tokenManager :=
  match th_phase m with
  | RunWaiting delay => if (0 <? delay) && tl_cancelled (th_life m) then Some (endRun m) else None
  | _ => None
  end.

(** A failed acquisition or publication counts, and the loop waits. *)
Definition refreshFailed (random : Z) (m : tokenManager) : tokenManager :=
  let s := th_state m in
  let failures := ts_failures s + 1 in
  setPhase (RunWaiting (failedDelay outOfRange config random failures))
    (setState (MkTokenState (ts_current s) (ts_available s) (ts_disabled s) failures) m).

Definition disable (m : tokenManager) : tokenManager :=
  setState (MkTokenState emptyToken false true (ts_failures (th_state m))) m.

(** What the provider returns. *)
Inductive acquireAnswer := Acquired (token : FileSystemSecurityToken) | ProviderDisabled | AcquireFailed.

(** The provider gave a token. *)
Definition gave (token : FileSystemSecurityToken) (now : Z) (m : tokenManager) : tokenManager :=
  MkTokenManager (th_state m) (th_life m) (th_phase m) (th_waiting m) (th_returned m) (th_published m) (th_accepted m)
    (th_acquired m ++ [(token, now)]).

(** [refreshOnce], up to publishing. *)
Definition acquired (answer : acquireAnswer) (now random : Z) (m : tokenManager) : option tokenManager :=
  match th_phase m with
  | RunAcquiring =>
    Some (match answer with
          | ProviderDisabled => endRun (disable m)
          | AcquireFailed => refreshFailed random m
          | Acquired token =>
            let m := gave token now m in
            if validateSecurityToken token now (fc_ClockSkew config) then setPhase (RunOffering token 0) m
            else refreshFailed random m
          end)
  | _ => None
  end.

(** [callSecurityTokenReceiver]: a receiver is not called once the context is cancelled. *)
Definition offer (m : tokenManager) : option tokenManager :=
  match th_phase m with
  | RunOffering token accepted =>
    if (accepted <? receivers)%nat then
      Some (if tl_cancelled (th_life m) then endRun m else setPhase (RunReceiving token accepted) m)
    else None
  | _ => None
  end.

(** The receiver returns, [ok] unless with an error or a panic. *)
Definition received (ok : bool) (random : Z) (m : tokenManager) : option tokenManager :=
  match th_phase m with
  | RunReceiving token accepted =>
    Some (if ok then
            MkTokenManager (th_state m) (th_life m) (RunOffering token (S accepted)) (th_waiting m) (th_returned m)
              (th_published m) (th_accepted m ++ [(token, accepted)]) (th_acquired m)
          else if tl_cancelled (th_life m) then endRun m else refreshFailed random m)
  | _ => None
  end.

(** The context is cancelled while a receiver runs: it is left behind. *)
Definition receiveCancelled (m : tokenManager) : option tokenManager :=
  match th_phase m with
  | RunReceiving _ _ => if tl_cancelled (th_life m) then Some (endRun m) else None
  | _ => None
  end.

(** The end of [publish], and of [refreshOnce]. *)
Definition publish (now random : Z) (m : tokenManager) : option tokenManager :=
  match th_phase m with
  | RunOffering token accepted =>
    if (accepted <? receivers)%nat then None
    else
      let s := th_state m in
      let s := if tk_Revoked token then MkTokenState emptyToken false (ts_disabled s) 0
               else MkTokenState token true (ts_disabled s) 0 in
      let m := MkTokenManager s (th_life m) (th_phase m) (th_waiting m) (th_returned m) (th_published m ++ [token]) (th_accepted m) (th_acquired m) in
      Some (if tk_Revoked token then setPhase (RunWaiting (jitter outOfRange config random (fc_RenewalRetryBackoff config))) m
            else if tk_ExpiresAt token =? zeroInstant then endRun m
            else setPhase (RunWaiting (renewalDelay outOfRange config random now (tk_ExpiresAt token))) m)
  | _ => None
  end.

(** ** Runs *)

Inductive tokenEvent :=
| TkStart | TkStop | TkStopReturns
| TkWake | TkWaitCancelled
| TkAcquired (answer : acquireAnswer) (now random : Z)
| TkOffer
| TkReceived (ok : bool) (random : Z)
| TkReceiveCancelled
| TkPublish (now random : Z).

Definition tokenExec (event : tokenEvent) (m : tokenManager) : option tokenManager :=
  match event with
  | TkStart => Some (Start m)
  | TkStop => Some (Stop m)
  | TkStopReturns => stopReturns m
  | TkWake => wake m
  | TkWaitCancelled => waitCancelled m
  | TkAcquired answer now random => acquired answer now random m
  | TkOffer => offer m
  | TkReceived ok random => received ok random m
  | TkReceiveCancelled => receiveCancelled m
  | TkPublish now random => publish now random m
  end.

Fixpoint tokenRun (events : list tokenEvent) (m : tokenManager) : option tokenManager :=
  match events with
  | [] => Some m
  | event :: events => m ← tokenExec event m; tokenRun events m
  end.

Definition tokenReachable (m : tokenManager) : Prop := exists events, tokenRun events newSecurityTokenManager = Some m.

End Manager.
