(* ===== verification/TokenProperties.v ===== *)
(** * What the token manager promises

    Theorems about [SecurityToken]: what [Current] returns, how [Stop] ends the refresh loop, and
    the delays between refreshes. *)

From S2P Require Import Prelude Model Float FloatArith Errors SecurityToken.

(** ** Delays *)

Lemma fpLt_trichotomy v w : v <> FNaN -> w <> FNaN -> fpLt v w = false -> fpEq v w = false -> fpLt w v = true.
Proof.
  destruct v as [| |s m e], w as [| |s' m' e']; cbn; try done; try (by destruct s, s0); try (by destruct s).
  rewrite (Z.min_comm e' e). unfold fpAt. intros _ _ H1%Z.ltb_ge H2%Z.eqb_neq. apply Z.ltb_lt. cbn in *. destruct s, s'; lia.
Qed.

(** A ratio that passes the checks is a number between zero and one, unless it is NaN. *)
Lemma ratio_unit v : v <> FNaN -> fpNonneg v -> fpLe v zero64 = false -> fpLe unit64 v = false -> unitRange v.
Proof.
  unfold fpLe, zero64, unit64, unitRange. intros Hn Hp [L1 E1]%orb_false_iff [L2 E2]%orb_false_iff.
  assert (G1 : fpLt (FFin false 0 0) v = true) by (by apply fpLt_trichotomy).
  assert (G2 : fpLt v (FFin false 1 0) = true) by (apply fpLt_trichotomy; done).
  destruct v as [|s|s m e]; try done; [by destruct s|]. specialize (Hp _ _ _ eq_refl). cbn in G1, G2. unfold fpAt in *.
  apply Z.ltb_lt in G1, G2. rewrite Z.mul_0_l in G1. destruct s; [assert (0 <= m * 2 ^ (e - Z.min 0 e)) by (apply Z.mul_nonneg_nonneg; [done|apply Z.pow_nonneg; lia]); lia|].
  exists m, e. split; [done|]. split; [done|]. replace (Z.max 0 e) with (e - Z.min e 0) by lia. replace (Z.max 0 (- e)) with (0 - Z.min e 0) by lia. lia.
Qed.

Record refreshConfigOK (c : FileSystemSecurityTokenRefreshConfig) : Prop := {
  ro_ratio : decode64 (fc_RenewalTimeRatio c) <> FNaN -> unitRange (decode64 (fc_RenewalTimeRatio c));
  ro_backoff : 0 < fc_RenewalRetryBackoff c <= fc_MaxRenewalRetryBackoff c;
  ro_skew : 0 <= fc_ClockSkew c;
}.

Lemma normalized_ok c c' : normalized c = Ok c' -> refreshConfigOK c' /\ fc_Jitter c' = fc_Jitter c.
Proof.
  unfold normalized. set (ratio := if fpEq _ _ then _ else _). set (backoff := orDefault _ _). set (max := orDefault _ _). set (skew := orDefault _ _).
  destruct (_ || _) eqn:E; [done|]. intros [= <-]. rewrite !orb_false_iff in E. destruct E as [[[[[[E1 E2] E3] E4] E5] _] _].
  split; [|done]. split; cbn; [|lia..]. intros Hn. apply ratio_unit; [done|apply decode64_nonneg|done|done].
Qed.

Section Delays.
Context (outOfRange : fpValue -> Z) (config : FileSystemSecurityTokenRefreshConfig).

Lemma no_jitter random delay : fpEq (decode64 (fc_Jitter config)) zero64 = true -> jitter outOfRange config random delay = delay.
Proof. unfold jitter. by intros ->. Qed.

Lemma srange64 z : srange 64 z = true <-> - 2 ^ 63 <= z < 2 ^ 63.
Proof. unfold srange. change (2 ^ (64 - 1)) with (2 ^ 63). lia. Qed.

Lemma tokenRetryDelay_exact failures : 0 < fc_RenewalRetryBackoff config <= 2 ^ 53 -> fc_MaxRenewalRetryBackoff config < 2 ^ 63 ->
  (forall v z, fpTrunc v = Some z -> 2 ^ 63 <= z -> outOfRange v < 0 \/ fc_MaxRenewalRetryBackoff config <= outOfRange v) -> 1 <= failures ->
  0 < fc_RenewalRetryBackoff config <= fc_MaxRenewalRetryBackoff config ->
  tokenRetryDelay outOfRange config failures =
    Z.min (fc_MaxRenewalRetryBackoff config) (fc_RenewalRetryBackoff config * 2 ^ Z.min 30 (failures - 1)).
Proof.
  intros Hb Hm Ho Hf Hbm. unfold tokenRetryDelay. replace (if 30 <? failures - 1 then 30 else failures - 1) with (Z.min 30 (failures - 1)) by (destruct (Z.ltb_spec 30 (failures - 1)); lia).
  set (k := Z.min 30 (failures - 1)). assert (P : 0 < 2 ^ k) by (apply Z.pow_pos_nonneg; lia). unfold toDuration.
  pose proof (trunc_doubled (fc_RenewalRetryBackoff config) k) as Ht. rewrite Ht by lia. specialize (Ht ltac:(lia) ltac:(lia)).
  set (delay := _ * 2 ^ k). assert (0 < delay) by nia. destruct (srange 64 delay) eqn:Er.
  - destruct (Z.ltb_spec (fc_MaxRenewalRetryBackoff config) delay); cbn; [lia|]. destruct (Z.ltb_spec delay 0); lia.
  - assert (2 ^ 63 <= delay) by (destruct (Z.le_gt_cases (2 ^ 63) delay); [done|]; enough (srange 64 delay = true) by congruence; apply srange64; lia).
    set (v := decode64 _) in *. destruct (Ho v delay); [done|done|..].
    + replace (outOfRange v <? 0) with true by lia. rewrite orb_true_r. lia.
    + destruct (Z.ltb_spec (fc_MaxRenewalRetryBackoff config) (outOfRange v)); cbn; [lia|]. destruct (Z.ltb_spec (outOfRange v) 0); lia.
Qed.

Lemma renewal_bound random now expiresAt : fpEq (decode64 (fc_Jitter config)) zero64 = true ->
  unitRange (decode64 (fc_RenewalTimeRatio config)) -> 0 < expiresAt - fc_ClockSkew config - now < 2 ^ 53 ->
  0 <= renewalDelay outOfRange config random now expiresAt <= expiresAt - fc_ClockSkew config - now.
Proof.
  intros Hj Hu Hl. unfold renewalDelay, timeSub. rewrite !no_jitter by done.
  set (lifetime := expiresAt - fc_ClockSkew config - now) in *.
  replace (Z.max (- 2 ^ 63) (Z.min (2 ^ 63 - 1) lifetime)) with lifetime by lia. destruct (Z.leb_spec lifetime 0); [lia|].
  destruct (trunc_scaled_le lifetime (fc_RenewalTimeRatio config)) as (z & Ez & Hz); [lia|done|]. unfold toDuration. rewrite Ez.
  rewrite (proj2 (srange64 z)) by lia. done.
Qed.
End Delays.

(** ** Invariant *)

Section Manager.
Context (outOfRange : fpValue -> Z) (config : FileSystemSecurityTokenRefreshConfig) (receivers : nat).
Abbreviation tokenExec := (tokenExec outOfRange config receivers).
Abbreviation tokenReachable := (tokenReachable outOfRange config receivers).

(** The token was valid when it was acquired. *)
Definition validOnce (m : tokenManager) (t : FileSystemSecurityToken) : Prop :=
  exists at_, (t, at_) ∈ th_acquired m /\ validateSecurityToken t at_ (fc_ClockSkew config) = true.

(** Whether the manager has a token: the last one it published, unless that was a revocation or the
    provider has been disabled. *)
Definition hasToken (m : tokenManager) : bool :=
  match last (th_published m) with Some t => negb (tk_Revoked t) && negb (ts_disabled (th_state m)) | None => false end.

(** Every receiver before the [k]-th has accepted the token. *)
Definition acceptedBy (m : tokenManager) (t : FileSystemSecurityToken) (k : nat) : Prop :=
  forall j, (j < k)%nat -> (t, j) ∈ th_accepted m.

Definition running (p : tokenPhase) : bool := match p with RunNone | RunEnded => false | _ => true end.

Record lifeInv (m : tokenManager) : Prop := {
  li_started : tl_started (th_life m) = match th_phase m with RunNone => false | _ => true end;
  li_cancelled : tl_cancelled (th_life m) = tl_started (th_life m) && tl_stopped (th_life m);
  li_closes : tl_closes (th_life m) =
    match th_phase m with RunEnded => 1%nat | RunNone => if tl_stopped (th_life m) then 1%nat else 0%nat | _ => 0%nat end;
  li_returned : (0 < th_returned m)%nat -> tl_stopped (th_life m) = true /\ tl_closes (th_life m) = 1%nat;
  li_waiting : (0 < th_waiting m)%nat -> tl_stopped (th_life m) = true;
}.

Record tokenInv (m : tokenManager) : Prop := {
  ti_current : ts_available (th_state m) = true -> last (th_published m) = Some (ts_current (th_state m));
  ti_available : ts_available (th_state m) = hasToken m;
  ti_enabled : th_phase m <> RunEnded -> ts_disabled (th_state m) = false;
  ti_published : Forall (fun t => validOnce m t /\ acceptedBy m t receivers) (th_published m);
  ti_phase : match th_phase m with
             | RunOffering t k => validOnce m t /\ acceptedBy m t k /\ (k <= receivers)%nat
             | RunReceiving t k => validOnce m t /\ acceptedBy m t k /\ (k < receivers)%nat
             | _ => True
             end;
}.

Lemma endRun_life m : lifeInv m -> running (th_phase m) = true -> lifeInv (endRun m).
Proof.
  intros [I1 I2 I3 I4 I5] Hr. assert (tl_closes (th_life m) = 0%nat) as E by (rewrite I3; by destruct (th_phase m)).
  split; cbn; try done; [by rewrite I1; destruct (th_phase m)|by rewrite E|]. intros Hp. apply I4 in Hp as [_ Hp]. lia.
Qed.

Lemma setPhase_life p m : lifeInv m -> running (th_phase m) = true -> running p = true -> lifeInv (setPhase p m).
Proof.
  intros [I1 I2 I3 I4 I5] Hr Hp. split; cbn; try done; [by rewrite I1; destruct (th_phase m), p|]. rewrite I3. by destruct (th_phase m), p.
Qed.

Lemma life_same m m' : lifeInv m -> th_life m' = th_life m -> th_phase m' = th_phase m -> th_waiting m' = th_waiting m ->
  th_returned m' = th_returned m -> lifeInv m'.
Proof. intros [I1 I2 I3 I4 I5] E1 E2 E3 E4. split; rewrite ?E1, ?E2, ?E3, ?E4; done. Qed.

Lemma failed_life random m : lifeInv m -> running (th_phase m) = true -> lifeInv (refreshFailed outOfRange config random m).
Proof. intros I Hr. apply setPhase_life; [by eapply life_same|done|done]. Qed.

Lemma life_start m : lifeInv m -> lifeInv (Start m).
Proof.
  intros I. unfold Start. destruct (_ || _) eqn:E; [done|]. apply orb_false_iff in E as [E1 E2]. destruct I as [I1 I2 I3 I4 I5].
  rewrite E1, E2 in *. split; cbn; rewrite ?E2; try done.
  - rewrite I3. by destruct (th_phase m).
Qed.

Lemma life_stop m : lifeInv m -> lifeInv (Stop m).
Proof.
  intros [I1 I2 I3 I4 I5]. unfold Stop. destruct (tl_stopped (th_life m)) eqn:E2; [by split; cbn; rewrite ?E2|].
  destruct (tl_started (th_life m)) eqn:E1; cbn [negb]; split; cbn; rewrite ?E1, ?E2; try done.
  - rewrite I3. by destruct (th_phase m).
  - intros Hp. by apply I4 in Hp as [? _].
  - rewrite I3. by destruct (th_phase m).
  - intros _. split; [done|]. rewrite I3. by destruct (th_phase m).
Qed.

Lemma life_step event m m' : lifeInv m -> tokenExec event m = Some m' -> lifeInv m'.
Proof.
  intros I E. destruct event; cbn in E.
  - injection E as <-. by apply life_start.
  - injection E as <-. by apply life_stop.
  - unfold stopReturns in E. destruct (th_waiting m) eqn:Ew; [done|]. destruct (tl_closes (th_life m)) as [|c] eqn:Ec; [done|]. injection E as <-.
    destruct I as [I1 I2 I3 I4 I5]. split; cbn; try done; intros _; [|apply I5; lia]. split; [apply I5; lia|]. rewrite I3. rewrite I3 in Ec. by destruct (th_phase m), (tl_stopped (th_life m)).
  - unfold wake in E. destruct (th_phase m) eqn:Ep; try done. injection E as <-. case_match; [apply endRun_life|apply setPhase_life]; rewrite ?Ep; done.
  - unfold waitCancelled in E. destruct (th_phase m) eqn:Ep; try done. case_match; [|done]. injection E as <-. apply endRun_life; rewrite ?Ep; done.
  - unfold acquired in E. destruct (th_phase m) eqn:Ep; try done. injection E as <-. destruct answer; [case_match| |].
    + apply setPhase_life; [by eapply life_same|cbn; by rewrite Ep|done].
    + apply failed_life; [by eapply life_same|cbn; by rewrite Ep].
    + apply endRun_life; [by eapply life_same|]. cbn. by rewrite Ep.
    + apply failed_life; rewrite ?Ep; done.
  - unfold offer in E. destruct (th_phase m) eqn:Ep; try done. case_match; [|done]. injection E as <-. case_match; [apply endRun_life|apply setPhase_life]; rewrite ?Ep; done.
  - unfold received in E. destruct (th_phase m) eqn:Ep; try done. injection E as <-. case_match; [|case_match].
    + eapply life_same; [apply (setPhase_life (RunOffering token (S accepted)) m); [done|by rewrite Ep|done]|done..].
    + apply endRun_life; rewrite ?Ep; done.
    + apply failed_life; rewrite ?Ep; done.
  - unfold receiveCancelled in E. destruct (th_phase m) eqn:Ep; try done. case_match; [|done]. injection E as <-. apply endRun_life; rewrite ?Ep; done.
  - unfold publish in E. destruct (th_phase m) eqn:Ep; try done. case_match; [done|]. injection E as <-. case_match; [|case_match].
    + apply setPhase_life; [by eapply life_same|done|done].
    + apply endRun_life; [by eapply life_same|done].
    + apply setPhase_life; [by eapply life_same|done|done].
Qed.

(** A step that publishes nothing and leaves what is published alone. *)
Lemma token_keep m m' : tokenInv m -> th_published m' = th_published m -> th_accepted m' = th_accepted m -> th_acquired m ⊆ th_acquired m' ->
  ts_current (th_state m') = ts_current (th_state m) -> ts_available (th_state m') = ts_available (th_state m) ->
  ts_disabled (th_state m') = ts_disabled (th_state m) -> (th_phase m' <> RunEnded -> ts_disabled (th_state m) = false) ->
  match th_phase m' with
  | RunOffering t k => validOnce m' t /\ acceptedBy m' t k /\ (k <= receivers)%nat
  | RunReceiving t k => validOnce m' t /\ acceptedBy m' t k /\ (k < receivers)%nat
  | _ => True
  end -> tokenInv m'.
Proof.
  intros [I1 I2 I3 I4 I5] E1 E2 E3 E4 E5 E6 Hr Hp. unfold hasToken in I2. split; unfold hasToken; rewrite ?E1, ?E4, ?E5, ?E6; try done.
  eapply Forall_impl; [exact I4|]. intros t [(at_ & Hin & Hv) Ha]. split; [exists at_; split; [by apply E3|done]|]. intros j Hj. rewrite E2. by apply Ha.
Qed.

(** ... of a loop that goes on. *)
Lemma token_on m m' : tokenInv m -> running (th_phase m) = true -> th_published m' = th_published m -> th_accepted m' = th_accepted m ->
  th_acquired m ⊆ th_acquired m' -> ts_current (th_state m') = ts_current (th_state m) -> ts_available (th_state m') = ts_available (th_state m) ->
  ts_disabled (th_state m') = ts_disabled (th_state m) ->
  match th_phase m' with RunOffering _ _ | RunReceiving _ _ => False | _ => True end -> tokenInv m'.
Proof. intros I Hr ? ? ? ? ? ? Hp. apply (token_keep m); try done; [|by destruct (th_phase m')]. intros _. apply I. by destruct (th_phase m). Qed.

Lemma validOnce_gave m t u now : validOnce m t -> validOnce (gave u now m) t.
Proof. intros (at_ & Hin & Hv). exists at_. split; [|done]. cbn. apply elem_of_app. by left. Qed.

Lemma token_started m : lifeInv m -> tokenInv m -> tokenInv (Start m).
Proof.
  intros L I. unfold Start. case_match eqn:E; [done|]. apply orb_false_iff in E as [E _]. apply (token_keep m); try done.
  intros _. apply I. pose proof (li_started m L) as Hs. rewrite E in Hs. by destruct (th_phase m).
Qed.

Lemma token_stopped m : tokenInv m -> tokenInv (Stop m).
Proof. intros I. pose proof (ti_phase m I). pose proof (ti_enabled m I). unfold Stop. destruct (tl_stopped _); [|destruct (negb _)]; by apply (token_keep m). Qed.

Lemma token_received ok random m m' : tokenInv m -> received outOfRange config ok random m = Some m' -> tokenInv m'.
Proof.
  intros I E. unfold received in E. pose proof I as [I1 I2 I3 I4 I5]. destruct (th_phase m) as [| | | |t k|] eqn:Ep; try done. injection E as <-.
  destruct ok; [|case_match; apply (token_on m); by rewrite ?Ep]. destruct I5 as (Hv & Ha & Hk). split; cbn; [done|done|intros _; by apply I3| |].
  - eapply Forall_impl; [exact I4|]. intros u [Hu Hau]. split; [done|]. intros j Hj. cbn. apply elem_of_app. left. by apply Hau.
  - split; [done|]. split; [|lia]. intros j Hj. cbn. apply elem_of_app. destruct (decide (j = k)) as [->|]; [right; by left|left; apply Ha; lia].
Qed.

Lemma token_published now random m m' : tokenInv m -> publish outOfRange config receivers now random m = Some m' -> tokenInv m'.
Proof.
  intros I E. unfold publish in E. pose proof I as [I1 I2 I3 I4 I5]. destruct (th_phase m) as [| | |t k| |] eqn:Ep; try done.
  destruct (Nat.ltb_spec k receivers); [done|]. injection E as <-. destruct I5 as (Hv & Ha & Hk).
  assert (F : Forall (fun u => validOnce m u /\ acceptedBy m u receivers) (th_published m ++ [t])).
  { apply Forall_app. split; [done|]. constructor; [|done]. split; [done|]. intros j Hj. apply Ha. lia. }
  assert (Hd : ts_disabled (th_state m) = false) by (by apply I3).
  destruct (tk_Revoked t) eqn:Er; [|case_match]; (split; cbn; unfold hasToken; cbn; rewrite ?last_snoc, ?Er, ?Hd; done).
Qed.

Lemma token_acquired answer now random m m' : tokenInv m -> acquired outOfRange config answer now random m = Some m' -> tokenInv m'.
Proof.
  intros I E. unfold acquired in E. destruct (th_phase m) eqn:Ep; try done. injection E as <-.
  destruct answer as [t| |]; [cbv zeta; destruct (validateSecurityToken _ _ _) eqn:Ev| |].
  - apply (token_keep m); try done; cbn; [intros x Hx; apply elem_of_app; by left|intros _; apply I; by rewrite Ep|].
    split; [|split; [|lia]]; [|intros j Hj; lia]. exists now. split; [|done]. cbn. apply elem_of_app. right. by left.
  - apply (token_on m); try done; [by rewrite Ep|]. cbn. intros x Hx. apply elem_of_app. by left.
  - destruct I as [I1 I2 I3 I4 I5]. split; cbn; try done. unfold hasToken. cbn. destruct (last _); [|done]. by rewrite andb_false_r.
  - apply (token_on m); by rewrite ?Ep.
Qed.

Lemma token_step event m m' : lifeInv m -> tokenInv m -> tokenExec event m = Some m' -> tokenInv m'.
Proof.
  intros L I E. destruct event; cbn in E.
  - injection E as <-. by apply token_started.
  - injection E as <-. by apply token_stopped.
  - unfold stopReturns in E. pose proof (ti_phase m I). pose proof (ti_enabled m I). destruct (th_waiting m); [done|]. destruct (tl_closes (th_life m)); [done|].
    injection E as <-. by apply (token_keep m).
  - unfold wake in E. destruct (th_phase m) eqn:Ep; try done. injection E as <-. case_match; apply (token_on m); by rewrite ?Ep.
  - unfold waitCancelled in E. destruct (th_phase m) eqn:Ep; try done. case_match; [|done]. injection E as <-. apply (token_on m); by rewrite ?Ep.
  - by eapply token_acquired.
  - unfold offer in E. pose proof (ti_phase m I) as Hp. destruct (th_phase m) as [| | |t k| |] eqn:Ep; try done. destruct (Nat.ltb_spec k receivers); [|done].
    injection E as <-. case_match; [apply (token_on m); by rewrite ?Ep|]. apply (token_keep m); try done; [intros _; apply I; by rewrite Ep|]. cbn. destruct Hp as (? & ? & ?). done.
  - by eapply token_received.
  - unfold receiveCancelled in E. destruct (th_phase m) eqn:Ep; try done. case_match; [|done]. injection E as <-. apply (token_on m); by rewrite ?Ep.
  - by eapply token_published.
Qed.

Lemma token_reachable m : tokenReachable m -> lifeInv m /\ tokenInv m.
Proof.
  intros [events E]. revert E. assert (H0 : lifeInv newSecurityTokenManager /\ tokenInv newSecurityTokenManager).
  { split; split; cbn; try done; lia. }
  revert H0. generalize newSecurityTokenManager. induction events as [|event events IH]; intros m0 [L0 T0] E; cbn in E; [by injection E as <-|].
  apply bind_Some in E as (m1 & E1 & E). eapply IH; [|exact E]. split; [by eapply life_step|by eapply token_step].
Qed.

(** ** Ending *)

(** Nothing moves a loop that does not run. *)
Lemma ended_step event m m' : running (th_phase m) = false -> tl_stopped (th_life m) = true -> tokenExec event m = Some m' ->
  th_state m' = th_state m /\ th_published m' = th_published m /\ th_accepted m' = th_accepted m /\ th_phase m' = th_phase m.
Proof.
  intros Hr Hs E. destruct event; cbn in E; unfold wake, waitCancelled, acquired, offer, received, receiveCancelled, publish in E;
    try (by destruct (th_phase m)).
  - injection E as <-. unfold Start. by rewrite Hs, orb_true_r.
  - injection E as <-. unfold Stop. by rewrite Hs.
  - unfold stopReturns in E. destruct (th_waiting m); [done|]. destruct (tl_closes (th_life m)); [done|]. by injection E as <-.
Qed.

(** The steps the environment need not take. *)
Definition ownStep (event : tokenEvent) : bool :=
  match event with TkWake | TkWaitCancelled | TkOffer | TkReceiveCancelled | TkPublish _ _ => true | _ => false end.

Lemma waiting_ends d m : th_phase m = RunWaiting d -> tl_cancelled (th_life m) = true ->
  exists event m', ownStep event = true /\ tokenExec event m = Some m' /\ th_phase m' = RunEnded.
Proof.
  intros Ep Hc. destruct (Z.leb_spec d 0).
  - exists TkWake. eexists. split; [done|]. cbn. unfold wake. rewrite Ep, Hc. replace (d <=? 0) with true by lia. done.
  - exists TkWaitCancelled. eexists. split; [done|]. cbn. unfold waitCancelled. rewrite Ep, Hc. replace (0 <? d) with true by lia. done.
Qed.

(** A cancelled loop ends by its own steps, at most two of them, unless it waits for the provider. *)
Lemma cancelled_ends m : tokenInv m -> tl_cancelled (th_life m) = true -> running (th_phase m) = true ->
  (th_phase m = RunAcquiring /\ forall now random, exists m', tokenExec (TkAcquired AcquireFailed now random) m = Some m' /\ th_life m' = th_life m /\ exists d, th_phase m' = RunWaiting d) \/
  exists events m', Forall (fun event => ownStep event = true) events /\ (length events <= 2)%nat /\
    tokenRun outOfRange config receivers events m = Some m' /\ th_phase m' = RunEnded.
Proof.
  intros I Hc Hr. pose proof (ti_phase m I) as Hp. destruct (th_phase m) as [|d| |t k|t k|] eqn:Ep; try done.
  - right. destruct (waiting_ends d m Ep Hc) as (event & m' & Ho & E & Hend). exists [event], m'. split; [by constructor|]. split; [cbn; lia|]. cbn [tokenRun]. by rewrite E.
  - left. split; [done|]. intros now random. eexists. cbn. unfold acquired. rewrite Ep. split; [reflexivity|]. split; [done|]. by eexists.
  - right. destruct (Nat.ltb_spec k receivers) as [L|L].
    + exists [TkOffer], (endRun m). split; [by constructor|]. split; [cbn; lia|]. cbn. unfold offer. rewrite Ep, Hc. replace (k <? receivers)%nat with true by (symmetry; by apply Nat.ltb_lt). done.
    + assert (E : exists m', tokenExec (TkPublish 0 0) m = Some m' /\
                   ((th_life m' = th_life m /\ exists d, th_phase m' = RunWaiting d) \/ th_phase m' = RunEnded)).
      { cbn. unfold publish. rewrite Ep. replace (k <? receivers)%nat with false by (symmetry; by apply Nat.ltb_ge).
        eexists. split; [reflexivity|]. destruct (tk_Revoked t); [left; split; [done|]; by eexists|].
        destruct (tk_ExpiresAt t =? zeroInstant); [by right|left; split; [done|]; by eexists]. }
      destruct E as (m1 & E & [(Hl & d & Ed)|Hend]).
      * destruct (waiting_ends d m1 Ed) as (event & m' & Ho & E' & Hend); [by rewrite Hl|].
        exists [TkPublish 0 0; event], m'. split; [by repeat constructor|]. split; [cbn; lia|]. cbn [tokenRun]. rewrite E. cbn [mbind option_bind]. by rewrite E'.
      * exists [TkPublish 0 0], m1. split; [by constructor|]. split; [cbn; lia|]. cbn [tokenRun]. by rewrite E.
  - right. exists [TkReceiveCancelled], (endRun m). split; [by constructor|]. split; [cbn; lia|]. cbn. unfold receiveCancelled. by rewrite Ep, Hc.
Qed.

(** Neither the loop's own steps nor the provider's answers touch the callers of [Stop]. *)
Lemma loop_step_callers event m m' : match event with TkStart | TkStop | TkStopReturns => False | _ => True end ->
  tokenExec event m = Some m' -> th_waiting m' = th_waiting m /\ th_returned m' = th_returned m.
Proof.
  intros H E. destruct event; try done; cbn in E; unfold wake, waitCancelled, acquired, offer, received, receiveCancelled, publish in E;
    destruct (th_phase m); try done; repeat case_match; simplify_eq; done.
Qed.

Lemma own_run_callers events : Forall (fun event => ownStep event = true) events -> forall m m',
  tokenRun outOfRange config receivers events m = Some m' -> th_waiting m' = th_waiting m /\ th_returned m' = th_returned m.
Proof.
  induction 1 as [|event events Ho F IH]; intros m m' E; cbn in E; [by injection E as <-|].
  apply bind_Some in E as (m1 & E1 & E). apply IH in E as [-> ->]. apply loop_step_callers in E1; [done|]. by destruct event.
Qed.

Lemma tokenRun_app events events' m : tokenRun outOfRange config receivers (events ++ events') m =
  (m' ← tokenRun outOfRange config receivers events m; tokenRun outOfRange config receivers events' m').
Proof. revert m. induction events as [|event events IH]; intros m; [done|]. cbn. destruct (tokenExec event m); [apply IH|done]. Qed.

Lemma token_run_reachable events m m' : tokenReachable m -> tokenRun outOfRange config receivers events m = Some m' -> tokenReachable m'.
Proof. intros [events0 E0] E. exists (events0 ++ events). by rewrite tokenRun_app, E0. Qed.

(** Once [done] is closed a caller of [Stop] returns. *)
Lemma stop_returns m : tokenReachable m -> (0 < th_waiting m)%nat -> running (th_phase m) = false ->
  exists m', tokenExec TkStopReturns m = Some m' /\ th_returned m' = S (th_returned m).
Proof.
  intros R Hw Hr. destruct (token_reachable m R) as [[I1 I2 I3 I4 I5] _]. cbn. unfold stopReturns. rewrite I3, (I5 Hw).
  destruct (th_waiting m); [lia|]. destruct (th_phase m); try done; by eexists.
Qed.

Lemma stop_after events m m' : tokenReachable m -> (0 < th_waiting m)%nat -> Forall (fun event => ownStep event = true) events ->
  tokenRun outOfRange config receivers events m = Some m' -> running (th_phase m') = false ->
  exists m'', tokenRun outOfRange config receivers (events ++ [TkStopReturns]) m = Some m'' /\ th_returned m'' = S (th_returned m).
Proof.
  intros R Hw F E Hr. destruct (own_run_callers events F m m' E) as [Ew Er]. destruct (stop_returns m') as (m'' & E' & Hm); [by eapply token_run_reachable|lia|done|].
  exists m''. rewrite tokenRun_app, E. cbn [mbind option_bind tokenRun]. rewrite E'. split; [done|congruence].
Qed.

Lemma stop_ends m : tokenReachable m -> (0 < th_waiting m)%nat ->
  exists events m', (length events <= 3)%nat /\ tokenRun outOfRange config receivers events m = Some m' /\ th_returned m' = S (th_returned m) /\
    (th_phase m <> RunAcquiring -> Forall (fun event => ownStep event = true \/ event = TkStopReturns) events).
Proof.
  intros R Hw. destruct (token_reachable m R) as [L I]. destruct (running (th_phase m)) eqn:Hr.
  2: { destruct (stop_returns m R Hw Hr) as (m' & E & Er). exists [TkStopReturns], m'. split; [cbn; lia|]. cbn [tokenRun]. rewrite E. split; [done|]. split; [done|]. intros _. constructor; [by right|constructor]. }
  assert (Hc : tl_cancelled (th_life m) = true) by (rewrite (li_cancelled m L), (li_waiting m L Hw), (li_started m L); by destruct (th_phase m)).
  destruct (cancelled_ends m I Hc Hr) as [[Ep Ha]|(events & m1 & F & Hl & E & Hend)].
  - destruct (Ha 0 0) as (m1 & E & Hlife & d & Ed). destruct (waiting_ends d m1 Ed) as (event & m2 & Ho & E2 & Hend); [by rewrite Hlife|].
    destruct (loop_step_callers (TkAcquired AcquireFailed 0 0) m m1 Logic.I E) as [Ew Er].
    assert (R1 : tokenReachable m1) by (apply (token_run_reachable [TkAcquired AcquireFailed 0 0] m); [done|]; cbn [tokenRun]; by rewrite E).
    destruct (stop_after [event] m1 m2 R1) as (m3 & E3 & Er3); [lia|by constructor|cbn [tokenRun]; by rewrite E2|by rewrite Hend|].
    exists (TkAcquired AcquireFailed 0 0 :: [event] ++ [TkStopReturns]), m3. split; [cbn; lia|]. split; [|split; [congruence|done]].
    cbn [tokenRun]. by rewrite E.
  - destruct (stop_after events m m1 R Hw F E) as (m2 & E2 & Er2); [by rewrite Hend|]. exists (events ++ [TkStopReturns]), m2.
    split; [rewrite length_app; cbn; lia|]. split; [done|]. split; [done|]. intros _. apply Forall_app. split; [|by constructor; [right|]].
    eapply Forall_impl; [exact F|]. cbn. auto.
Qed.
End Manager.

(** ** Theorems *)

(** C39: What [Current] returns.  It is the last token that was published, and nothing when that was a
    revocation, when the token has expired by the clock and its skew, or once the provider has
    been disabled: a revocation withdraws the token as soon as it is published, that is, as soon as
    every receiver has accepted it (one that refuses it keeps the token: [token_revocation_refused]).
    Whatever was published was given by the provider, was valid at the time it was acquired, and
    had been accepted by every receiver. *)
Theorem token_current_valid outOfRange config receivers m now :
  tokenReachable outOfRange config receivers m ->
  Current config now m =
    match last (th_published m) with
    | Some t => if tk_Revoked t || ts_disabled (th_state m) || tokenExpired t now (fc_ClockSkew config) then None else Some t
    | None => None
    end /\
  Forall (fun t => (exists at_, (t, at_) ∈ th_acquired m /\ validateSecurityToken t at_ (fc_ClockSkew config) = true) /\
    forall j, (j < receivers)%nat -> (t, j) ∈ th_accepted m) (th_published m).
Proof.
  intros R. destruct (token_reachable outOfRange config receivers m R) as [_ [I1 I2 _ I4 _]]. split; [|exact I4].
  unfold Current. destruct (ts_available (th_state m)) eqn:Ea; unfold hasToken in I2; cbn [negb orb].
  - rewrite (I1 eq_refl) in *. symmetry in I2. apply andb_true_iff in I2 as [->%negb_true_iff ->%negb_true_iff]. done.
  - destruct (last (th_published m)); [|done]. by destruct (tk_Revoked f), (ts_disabled (th_state m)).
Qed.

(** [Stop] ends the manager for good: [done] is closed at most once, and once a call of [Stop] has
    returned the loop has ended or never ran, and nothing acquires, offers or publishes a token
    again. *)
Theorem token_stop_final outOfRange config receivers m :
  tokenReachable outOfRange config receivers m ->
  (tl_closes (th_life m) <= 1)%nat /\
  ((0 < th_returned m)%nat -> (th_phase m = RunNone \/ th_phase m = RunEnded) /\
    forall event m', tokenExec outOfRange config receivers event m = Some m' ->
      th_state m' = th_state m /\ th_published m' = th_published m /\ th_accepted m' = th_accepted m /\ th_phase m' = th_phase m).
Proof.
  intros R. destruct (token_reachable outOfRange config receivers m R) as [[I1 I2 I3 I4 I5] _].
  split; [rewrite I3; destruct (th_phase m); try lia; case_match; lia|]. intros Hp. destruct (I4 Hp) as [Hs Hc].
  assert (Hr : running (th_phase m) = false) by (rewrite I3 in Hc; by destruct (th_phase m)). split; [destruct (th_phase m); auto; done|].
  intros event m' E. by eapply ended_step.
Qed.

(** [Stop] returns: while a call waits at most three steps let it return, all of them steps of the
    loop itself, unless the loop waits for the provider to answer; it never waits for a receiver. *)
Theorem token_stop_progress outOfRange config receivers m :
  tokenReachable outOfRange config receivers m -> (0 < th_waiting m)%nat ->
  exists events m', (length events <= 3)%nat /\ tokenRun outOfRange config receivers events m = Some m' /\
    th_returned m' = S (th_returned m) /\
    (th_phase m <> RunAcquiring -> Forall (fun event => ownStep event = true \/ event = TkStopReturns) events).
Proof. apply stop_ends. Qed.

(** C40: Without jitter the delays are what the settings say.  After [failures] failures in a row the
    loop waits for the first backoff, of at most 2^53 nanoseconds, doubled each time, at most thirty
    times, and capped.  A token whose lifetime, up to the skew before it expires, is positive and
    below 2^53 nanoseconds is renewed within this lifetime when the ratio is a number; one whose
    lifetime is over is renewed after the first backoff.  [outOfRange] is the conversion of numbers
    beyond 64 bits, which only has to be negative or large, as it is on amd64 and arm64. *)
Theorem token_delays_exact outOfRange c config random failures now expiresAt :
  let lifetime := expiresAt - fc_ClockSkew config - now in
  normalized c = Ok config -> fpEq (decode64 (fc_Jitter c)) zero64 = true -> fc_MaxRenewalRetryBackoff config < 2 ^ 63 -> 1 <= failures ->
  (forall v z, fpTrunc v = Some z -> 2 ^ 63 <= z -> outOfRange v < 0 \/ fc_MaxRenewalRetryBackoff config <= outOfRange v) ->
  (fc_RenewalRetryBackoff config <= 2 ^ 53 -> failedDelay outOfRange config random failures =
    Z.min (fc_MaxRenewalRetryBackoff config) (fc_RenewalRetryBackoff config * 2 ^ Z.min 30 (failures - 1))) /\
  (decode64 (fc_RenewalTimeRatio config) <> FNaN -> 0 < lifetime < 2 ^ 53 -> 0 <= renewalDelay outOfRange config random now expiresAt <= lifetime) /\
  (lifetime <= 0 -> renewalDelay outOfRange config random now expiresAt = fc_RenewalRetryBackoff config).
Proof.
  intros lifetime Hn Hj Hm Hf Ho. destruct (normalized_ok c config Hn) as [[H1 H2 H3] Ej]. rewrite <- Ej in Hj. split; [|split].
  - intros Hb. unfold failedDelay. rewrite no_jitter by done. apply tokenRetryDelay_exact; [lia|done..].
  - intros Hr Hl. apply renewal_bound; [done|by apply H1|done].
  - intros Hl. unfold renewalDelay, timeSub. rewrite !no_jitter by done. fold lifetime. destruct (Z.leb_spec (Z.max (- 2 ^ 63) (Z.min (2 ^ 63 - 1) lifetime)) 0); lia.
Qed.

(** ** Examples *)

(** Conversions as on amd64. *)
Definition amd64Range (v : fpValue) : Z := - 2 ^ 63.
Definition noSettings : FileSystemSecurityTokenRefreshConfig := MkRefreshConfig 0 0 0 0 0.
Definition refreshDefaults : FileSystemSecurityTokenRefreshConfig :=
  MkRefreshConfig defaultRatio tokenMinute tokenHour (30 * 10 ^ 9) 0.

Definition sampleToken : FileSystemSecurityToken := MkToken "s3" [Byte.x01] tokenHour ∅ false.
Definition revokedToken : FileSystemSecurityToken := MkToken "s3" [] zeroInstant ∅ true.

(** One receiver accepts a token. *)
Definition publishedEvents : list tokenEvent :=
  [TkStart; TkWake; TkAcquired (Acquired sampleToken) 0 0; TkOffer; TkReceived true 0; TkPublish 0 0].
Definition ranTo (events : list tokenEvent) : tokenManager :=
  default newSecurityTokenManager (tokenRun amd64Range refreshDefaults 1 events newSecurityTokenManager).

Lemma token_current_valid_witness :
  Current refreshDefaults 0 (ranTo publishedEvents) = Some sampleToken /\
  Forall (fun t => (exists at_, (t, at_) ∈ th_acquired (ranTo publishedEvents) /\ validateSecurityToken t at_ (fc_ClockSkew refreshDefaults) = true) /\
    forall j, (j < 1)%nat -> (t, j) ∈ th_accepted (ranTo publishedEvents)) (th_published (ranTo publishedEvents)).
Proof.
  apply (token_current_valid amd64Range refreshDefaults 1 (ranTo publishedEvents) 0). exists publishedEvents. vm_compute. reflexivity.
Defined.

(** A revocation that is published withdraws the token. *)
Example revocation_published : Current refreshDefaults 1
  (ranTo (publishedEvents ++ [TkWake; TkAcquired (Acquired revokedToken) 1 0; TkOffer; TkReceived true 0; TkPublish 1 0])) = None.
Proof. vm_compute. reflexivity. Qed.

(** [Stop] while a receiver runs. *)
Definition stoppingEvents : list tokenEvent := [TkStart; TkWake; TkAcquired (Acquired sampleToken) 0 0; TkOffer; TkStop].
Definition stoppedEvents : list tokenEvent := stoppingEvents ++ [TkReceiveCancelled; TkStopReturns].

Lemma token_stop_final_witness :
  th_returned (ranTo stoppedEvents) = 1%nat /\ (tl_closes (th_life (ranTo stoppedEvents)) <= 1)%nat /\
  ((0 < th_returned (ranTo stoppedEvents))%nat -> (th_phase (ranTo stoppedEvents) = RunNone \/ th_phase (ranTo stoppedEvents) = RunEnded) /\
    forall event m', tokenExec amd64Range refreshDefaults 1 event (ranTo stoppedEvents) = Some m' ->
      th_state m' = th_state (ranTo stoppedEvents) /\ th_published m' = th_published (ranTo stoppedEvents) /\
      th_accepted m' = th_accepted (ranTo stoppedEvents) /\ th_phase m' = th_phase (ranTo stoppedEvents)).
Proof.
  split; [vm_compute; reflexivity|]. apply (token_stop_final amd64Range refreshDefaults 1 (ranTo stoppedEvents)).
  exists stoppedEvents. vm_compute. reflexivity.
Defined.

Lemma token_stop_progress_witness :
  exists events m', (length events <= 3)%nat /\ tokenRun amd64Range refreshDefaults 1 events (ranTo stoppingEvents) = Some m' /\
    th_returned m' = S (th_returned (ranTo stoppingEvents)) /\
    (th_phase (ranTo stoppingEvents) <> RunAcquiring -> Forall (fun event => ownStep event = true \/ event = TkStopReturns) events).
Proof.
  apply (token_stop_progress amd64Range refreshDefaults 1 (ranTo stoppingEvents)).
  - exists stoppingEvents. vm_compute. reflexivity.
  - apply Nat.ltb_lt. vm_compute. reflexivity.
Defined.

(** Conversions as on arm64, which saturate and take NaN to zero. *)
Definition arm64Range (v : fpValue) : Z := match v with FNaN => 0 | _ => if fpLt v zero64 then - 2 ^ 63 else 2 ^ 63 - 1 end.

Lemma arm64_range v z limit : limit < 2 ^ 63 -> fpTrunc v = Some z -> 2 ^ 63 <= z -> arm64Range v < 0 \/ limit <= arm64Range v.
Proof. intros Hl Hv Hz. unfold arm64Range. destruct v; [done|..]; case_match; lia. Qed.

Lemma token_delays_exact_witness :
  failedDelay arm64Range refreshDefaults 0 40 = tokenHour /\
  (fc_RenewalRetryBackoff refreshDefaults <= 2 ^ 53 -> failedDelay arm64Range refreshDefaults 0 40 =
    Z.min (fc_MaxRenewalRetryBackoff refreshDefaults) (fc_RenewalRetryBackoff refreshDefaults * 2 ^ Z.min 30 (40 - 1))) /\
  (decode64 (fc_RenewalTimeRatio refreshDefaults) <> FNaN -> 0 < tokenHour - fc_ClockSkew refreshDefaults - 0 < 2 ^ 53 ->
    0 <= renewalDelay arm64Range refreshDefaults 0 0 tokenHour <= tokenHour - fc_ClockSkew refreshDefaults - 0) /\
  (tokenHour - fc_ClockSkew refreshDefaults - 0 <= 0 -> renewalDelay arm64Range refreshDefaults 0 0 tokenHour = fc_RenewalRetryBackoff refreshDefaults).
Proof.
  split; [vm_compute; reflexivity|].
  apply (token_delays_exact arm64Range noSettings refreshDefaults 0 40 0 tokenHour);
    [vm_compute; reflexivity|vm_compute; reflexivity|vm_compute; reflexivity|lia|].
  intros v z. apply arm64_range. vm_compute. reflexivity.
Defined.

(** ** Findings *)

(** The bits of [0.5], of [127/128] and of NaN. *)
Definition half64 : Z := encode64 (FFin false 1 (-1)).
Definition almostOne64 : Z := encode64 (FFin false 127 (-7)).
Definition nan64 : Z := encode64 FNaN.

(** Jitter is applied after the bounds.  With the jitter the settings allow, a token of one hour is
    renewed after it has expired, and a retry waits longer than the maximum. *)
Theorem token_jitter_exceeds_bounds :
  exists config, normalized (MkRefreshConfig 0 0 0 0 half64) = Ok config /\
    tokenHour < renewalDelay amd64Range config almostOne64 0 tokenHour /\
    fc_MaxRenewalRetryBackoff config < failedDelay amd64Range config almostOne64 20.
Proof. eexists. split; [vm_compute; reflexivity|]. vm_compute. split; reflexivity. Qed.

(** A ratio that is not a number passes the checks, and the renewal delay is then whatever the
    conversion gives: on amd64 it is negative, so that the token is acquired again at once. *)
Theorem token_nan_ratio_accepted :
  exists config, normalized (MkRefreshConfig nan64 0 0 0 0) = Ok config /\ fc_RenewalTimeRatio config = nan64 /\
    renewalDelay amd64Range config 0 0 tokenHour < 0.
Proof. eexists. split; [vm_compute; reflexivity|]. vm_compute. split; reflexivity. Qed.

(** A revocation that a receiver refuses is not published, so [Current] goes on returning the
    token the server has revoked. *)
Theorem token_revocation_refused :
  exists m, tokenRun amd64Range refreshDefaults 1
      (publishedEvents ++ [TkWake; TkAcquired (Acquired revokedToken) 1 0; TkOffer; TkReceived false 0]) newSecurityTokenManager = Some m /\
    Current refreshDefaults 1 m = Some sampleToken.
Proof. eexists. split; vm_compute; reflexivity. Qed.
