(* ===== verification/Scheduler.v ===== *)
(** * The batch scheduler of the writers

    [UpsertWriter] and [AppendWriter] run the same scheduler: [flushBucket], [dispatch],
    [handleCompletion], [queueAll] and [flushAll] of [pkg/fgo/kv_writer.go] and
    [pkg/fgo/log_writer.go] differ only in the batches they move and in the throttling of the
    primary-key writer.  This file models the scheduler once, over the interface
    [BatchWriter] that each writer implements, and proves its invariants against the laws of
    that interface.  [KVWriter] and [LogWriter] instantiate it.

    Goroutines started by [dispatch] are the list [running] of the state; what they send back
    is an argument of [handleCompletion].  The field [trace] is a history variable: it records
    what the scheduler accepted, started and completed, in order, and no operation reads it. *)

From S2P Require Import Prelude Errors.

(** ** Results of a mutation ([pkg/fgo/write_future.go]) *)

(** [wr_Pressure] is the bit pattern of a float32. *)
Record WriteResult := MkWriteResult {
  wr_Bucket : Z;
  wr_BaseOffset : Z;
  wr_OffsetKnown : bool;
  wr_Records : Z;
  wr_Pressure : Z;
  wr_PressureKnown : bool;
  wr_Err : option callError;
}.

(** [WriteResult{Err: err}]. *)
Definition errorResult (err : callError) : WriteResult := MkWriteResult 0 0 false 0 0 false (Some err).

(** A future: whether [done] is closed, the stored result, and whether a slot is released when
    it completes.  [complete] is guarded by [sync.Once] and says whether the slot was given
    back. *)
Record WriteFuture := MkFuture {
  wf_done : bool;
  wf_data : option WriteResult;
  wf_release : bool;
}.

Definition newWriteFuture : WriteFuture := MkFuture false None false.

Definition complete (f : WriteFuture) (result : WriteResult) : WriteFuture * bool :=
  if wf_done f then (f, false) else (MkFuture true (Some result) (wf_release f), wf_release f).

(** [Await]: the result, the context's error, or [None] while neither is there.  With both
    ready Go's select may take either, so the context is an argument. *)
Definition Await (f : WriteFuture) (ctxDone : option callError) : option WriteResult :=
  match ctxDone with
  | Some err => Some (errorResult err)
  | None => if wf_done f then wf_data f else None
  end.

(** ** The interface of a batching writer *)

(** What the scheduler needs of a writer: the items of a batch, the completion of a batch with
    an error or with a reply, and what it does to its own state [Ext] when a batch starts (the
    delay before its request) and when one succeeds; [extOK] is what it keeps true of that
    state and of the open batches, [batchOK] of each batch.  Clock readings are nanoseconds. *)
Class BatchWriter (Item Batch Reply Ext : Type) := {
  batchItems : Batch -> list Item;
  replyErr : Reply -> option callError;
  failBatch : Batch -> Z -> callError -> list (Item * WriteResult);
  succeedBatch : Batch -> Z -> Reply -> list (Item * WriteResult);
  onStart : (Z -> Z) -> Z -> Ext -> Ext * Z;
  onSuccess : Z -> Z -> Reply -> Ext -> Ext;
  extOK : Ext -> gmap Z Batch -> Prop;
  batchOK : Batch -> Prop;
}.

(** Its laws: completing a batch completes its items, each once and in order. *)
Class BatchWriterLaws (Item Batch Reply Ext : Type) `{BatchWriter Item Batch Reply Ext} : Prop := {
  failBatch_items : forall batch bucket err, (failBatch batch bucket err).*1 = batchItems batch;
  succeedBatch_items : forall batch bucket reply, (succeedBatch batch bucket reply).*1 = batchItems batch;
  failBatch_err : forall batch bucket err item result,
    (item, result) ∈ failBatch batch bucket err -> wr_Err result = Some err;
  succeedBatch_err : forall batch bucket reply item result,
    (item, result) ∈ succeedBatch batch bucket reply -> wr_Err result = None;
  onStart_ok : forall clock bucket ext open, extOK ext open -> extOK (onStart clock bucket ext).1 open;
  onSuccess_ok : forall now bucket reply ext open, extOK ext open -> extOK (onSuccess now bucket reply ext) open;
  extOK_delete : forall ext open bucket, extOK ext open -> extOK ext (delete bucket open);
}.

(** ** State *)

Section Scheduler.
Context {Item Batch Reply Ext : Type} `{!BatchWriter Item Batch Reply Ext}.

(** A goroutine running [executeBatch]. *)
Record job := MkJob {
  j_bucket : Z;
  j_batch : Batch;
  j_sequence : Z;
  j_delay : Z;
}.

Inductive event :=
| Accepted (bucket : Z) (item : Item)
| Rejected (item : Item) (err : callError)
| Started (j : job)
| Completed (bucket : Z) (item : Item) (result : WriteResult).

(** [upsertWriterLoop] and [appendWriterLoop]; [l_timer] says whether [timerC] is armed. *)
Record loop := MkLoop {
  l_batches : gmap Z Batch;
  l_pending : gmap Z (list Batch);
  l_active : gset Z;
  l_sequences : gmap Z Z;
  l_poisoned : gmap Z callError;
  l_ext : Ext;
  l_inFlight : Z;
  l_timer : bool;
  running : list job;
  trace : list event;
}.

Definition emptyLoop (ext : Ext) : loop := MkLoop ∅ ∅ ∅ ∅ ∅ ext 0 false [] [].

(** ** Operations *)

Variables (buckets : list Z) (maxConcurrent : Z).

Definition pendingOf (st : loop) (bucket : Z) : list Batch := default [] (l_pending st !! bucket).
Definition sequenceOf (st : loop) (bucket : Z) : Z := default 0 (l_sequences st !! bucket).

Definition completions (bucket : Z) (done : list (Item * WriteResult)) : list event :=
  map (fun '(item, result) => Completed bucket item result) done.

Definition emit (events : list event) (st : loop) : loop :=
  MkLoop (l_batches st) (l_pending st) (l_active st) (l_sequences st) (l_poisoned st) (l_ext st)
    (l_inFlight st) (l_timer st) (running st) (trace st ++ events).

Definition setBatch (bucket : Z) (batch : Batch) (st : loop) : loop :=
  MkLoop (<[bucket := batch]> (l_batches st)) (l_pending st) (l_active st) (l_sequences st) (l_poisoned st)
    (l_ext st) (l_inFlight st) (l_timer st) (running st) (trace st).

Definition dropBatch (bucket : Z) (st : loop) : loop :=
  MkLoop (delete bucket (l_batches st)) (l_pending st) (l_active st) (l_sequences st) (l_poisoned st)
    (l_ext st) (l_inFlight st) (l_timer st) (running st) (trace st).

Definition setPending (bucket : Z) (pending : list Batch) (st : loop) : loop :=
  MkLoop (l_batches st) (<[bucket := pending]> (l_pending st)) (l_active st) (l_sequences st) (l_poisoned st)
    (l_ext st) (l_inFlight st) (l_timer st) (running st) (trace st).

Definition setTimer (armed : bool) (st : loop) : loop :=
  MkLoop (l_batches st) (l_pending st) (l_active st) (l_sequences st) (l_poisoned st) (l_ext st)
    (l_inFlight st) armed (running st) (trace st).

Definition setExt (ext : Ext) (st : loop) : loop :=
  MkLoop (l_batches st) (l_pending st) (l_active st) (l_sequences st) (l_poisoned st) ext
    (l_inFlight st) (l_timer st) (running st) (trace st).

(** The body of [dispatch]'s inner loop once a bucket may start its first pending batch. *)
Definition startBatch (clock : Z -> Z) (bucket : Z) (batch : Batch) (rest : list Batch) (st : loop) : loop :=
  let '(ext, delay) := onStart clock bucket (l_ext st) in
  let j := MkJob bucket batch (sequenceOf st bucket) delay in
  MkLoop (l_batches st) (<[bucket := rest]> (l_pending st)) ({[bucket]} ∪ l_active st) (l_sequences st)
    (l_poisoned st) ext (l_inFlight st + 1) (l_timer st) (running st ++ [j]) (trace st ++ [Started j]).

(** One pass over the buckets; the flag is [dispatched]. *)
Fixpoint dispatchPass (clock : Z -> Z) (bs : list Z) (st : loop) : loop * bool :=
  match bs with
  | [] => (st, false)
  | bucket :: bs =>
    if decide (bucket ∈ l_active st) then dispatchPass clock bs st
    else match pendingOf st bucket with
         | [] => dispatchPass clock bs st
         | batch :: rest =>
           let st := startBatch clock bucket batch rest st in
           if l_inFlight st =? maxConcurrent then (st, true)
           else ((dispatchPass clock bs st).1, true)
         end
  end.

(** [for l.inFlight < MaxConcurrentRequests]: a pass that starts nothing ends the loop. *)
Fixpoint dispatchLoop (fuel : nat) (clock : Z -> Z) (st : loop) : loop :=
  if l_inFlight st <? maxConcurrent then
    match fuel with
    | O => st
    | S fuel =>
      let '(st, dispatched) := dispatchPass clock buckets st in
      if dispatched then dispatchLoop fuel clock st else st
    end
  else st.

(** Every pass but the last starts a batch, so the free request slots bound the passes
    ([dispatchLoop_enough]). *)
Definition dispatch (clock : Z -> Z) (st : loop) : loop :=
  dispatchLoop (Z.to_nat (maxConcurrent - l_inFlight st)) clock st.

(** Errors are joined with [errors.Join]: a list, empty when there is none. *)
Definition flushBucket (clock : Z -> Z) (bucket : Z) (st : loop) : loop * list callError :=
  match l_batches st !! bucket with
  | None => (st, [])
  | Some batch =>
    if (glen (batchItems batch) =? 0) then (st, [])
    else
      let st := dropBatch bucket st in
      match l_poisoned st !! bucket with
      | Some _ => let poisoned := Plain ErrWriterState in
                  (emit (completions bucket (failBatch batch bucket poisoned)) st, [poisoned])
      | None => (dispatch clock (setPending bucket (pendingOf st bucket ++ [batch]) st), [])
      end
  end.

(** [for _, bucket := range l.writer.buckets { joined = errors.Join(joined, l.flushBucket(bucket)) }] *)
Fixpoint flushBuckets (clock : Z -> Z) (bs : list Z) (st : loop) : loop * list callError :=
  match bs with
  | [] => (st, [])
  | bucket :: bs =>
    let '(st, errs) := flushBucket clock bucket st in
    let '(st, errs') := flushBuckets clock bs st in (st, errs ++ errs')
  end.

Definition stopTimer (st : loop) : loop := setTimer false st.

Definition queueAll (clock : Z -> Z) (st : loop) : loop * list callError :=
  flushBuckets clock buckets (stopTimer st).

(** [handleCompletion] of the goroutine [j], which answered [reply]; [now] is the clock when
    the reply is handled. *)
Definition handleCompletion (clock : Z -> Z) (now : Z) (j : job) (reply : Reply) (st : loop) : loop * list callError :=
  let bucket := j_bucket j in
  let active := l_active st ∖ {[bucket]} in
  let inFlight := l_inFlight st - 1 in
  match replyErr reply with
  | Some err =>
    let poisoned := Plain ErrWriterState in
    let done := completions bucket (failBatch (j_batch j) bucket err) ++
                concat (map (fun batch => completions bucket (failBatch batch bucket poisoned)) (pendingOf st bucket)) in
    (dispatch clock (MkLoop (l_batches st) (delete bucket (l_pending st)) active (l_sequences st)
       (<[bucket := err]> (l_poisoned st)) (l_ext st) inFlight (l_timer st) (running st) (trace st ++ done)), [err])
  | None =>
    (dispatch clock (MkLoop (l_batches st) (l_pending st) active
       (<[bucket := swrap 32 (sequenceOf st bucket + 1)]> (l_sequences st)) (l_poisoned st)
       (onSuccess now bucket reply (l_ext st)) inFlight (l_timer st) (running st)
       (trace st ++ completions bucket (succeedBatch (j_batch j) bucket reply))), [])
  end.

(** Receiving from [completions]: the [k]th goroutine has sent its reply and is gone. *)
Definition finish (k : nat) (st : loop) : loop :=
  MkLoop (l_batches st) (l_pending st) (l_active st) (l_sequences st) (l_poisoned st) (l_ext st)
    (l_inFlight st) (l_timer st) (delete k (running st)) (trace st).
End Scheduler.

(** ** What a bucket sees *)

Section Views.
Context {Item Batch Reply Ext : Type} `{!BatchWriter Item Batch Reply Ext}.
Abbreviation event := (@event Item Batch).
Abbreviation loop := (@loop Item Batch Ext).
Abbreviation job := (@job Batch).

Definition eventBucket (e : event) : option Z :=
  match e with
  | Accepted b _ => Some b
  | Rejected _ _ => None
  | Started j => Some (j_bucket j)
  | Completed b _ _ => Some b
  end.

Definition acceptedItems (tr : list event) : list Item :=
  omap (fun e => match e with Accepted _ item => Some item | _ => None end) tr.
Definition completedItems (tr : list event) : list Item :=
  omap (fun e => match e with Completed _ item _ => Some item | _ => None end) tr.
Definition startedJobs (tr : list event) : list job :=
  omap (fun e => match e with Started j => Some j | _ => None end) tr.
Definition itemsOf (batches : list Batch) : list Item := concat (map batchItems batches).
Definition startedItems (tr : list event) : list Item := itemsOf (map j_batch (startedJobs tr)).

(** The events of one bucket. *)
Definition at_ (b : Z) (tr : list event) : list event := filter (fun e => eventBucket e = Some b) tr.

(** Everything a bucket sees of the state. *)
Record view := MkView {
  v_batch : list Item;
  v_pending : list Batch;
  v_active : bool;
  v_jobs : list job;
  v_sequence : Z;
  v_poisoned : bool;
  v_trace : list event;
}.

Definition viewOf (st : loop) (b : Z) : view :=
  MkView (match l_batches st !! b with Some batch => batchItems batch | None => [] end)
    (pendingOf st b) (bool_decide (b ∈ l_active st)) (filter (fun j => j_bucket j = b) (running st))
    (sequenceOf st b) (bool_decide (is_Some (l_poisoned st !! b))) (at_ b (trace st)).

(** Batch sequence numbers as the server expects them: 0, 1, 2, ... in 32 bits. *)
Definition sequencesUpTo (n : nat) : list Z := map (swrap 32) (seqZ 0 (Z.of_nat n)).

(** An event that reports no failure. *)
Definition fine (e : event) : Prop :=
  match e with Completed _ _ result => wr_Err result = None | Rejected _ _ => False | _ => True end.

(** Stop and wait: a batch is sent when every earlier batch of the bucket was answered, with
    success, and it carries the next sequence number. *)
Definition stopAndWait (tr : list event) : Prop :=
  forall pre j post, tr = pre ++ Started j :: post ->
    Forall fine pre /\ startedItems pre = completedItems pre /\
    j_sequence j = swrap 32 (Z.of_nat (length (startedJobs pre))).

(** The invariant of a bucket: at most one request is in flight; a poisoned bucket has none
    and queues nothing; every accepted item is, in the order of acceptance, completed, in
    flight, pending or in the open batch; the items sent are a prefix of the accepted ones;
    and the batches sent carry consecutive sequence numbers. *)
Record good (v : view) : Prop := {
  good_active : v_jobs v = [] /\ v_active v = false \/ exists j, v_jobs v = [j] /\ v_active v = true;
  good_poisoned : v_poisoned v = true -> v_pending v = [] /\ v_jobs v = [];
  good_account : acceptedItems (v_trace v) =
    completedItems (v_trace v) ++ itemsOf (map j_batch (v_jobs v)) ++ itemsOf (v_pending v) ++ v_batch v;
  good_sent : if v_poisoned v then startedItems (v_trace v) `prefix_of` completedItems (v_trace v)
    else startedItems (v_trace v) = completedItems (v_trace v) ++ itemsOf (map j_batch (v_jobs v));
  good_sequences : map j_sequence (startedJobs (v_trace v)) = sequencesUpTo (length (startedJobs (v_trace v)));
  good_next : v_poisoned v = false ->
    v_sequence v = swrap 32 (Z.of_nat (length (startedJobs (v_trace v))) - Z.of_nat (length (v_jobs v)));
  good_batches : Forall (fun batch => batchItems batch <> [] /\ batchOK batch)
    (map j_batch (startedJobs (v_trace v)) ++ v_pending v);
  good_fine : v_poisoned v = false -> Forall fine (v_trace v);
  good_order : stopAndWait (v_trace v);
}.

Lemma acceptedItems_app tr tr' : acceptedItems (tr ++ tr') = acceptedItems tr ++ acceptedItems tr'.
Proof. apply omap_app. Qed.
Lemma completedItems_app tr tr' : completedItems (tr ++ tr') = completedItems tr ++ completedItems tr'.
Proof. apply omap_app. Qed.
Lemma startedJobs_app tr tr' : startedJobs (tr ++ tr') = startedJobs tr ++ startedJobs tr'.
Proof. apply omap_app. Qed.
Lemma itemsOf_app bs bs' : itemsOf (bs ++ bs') = itemsOf bs ++ itemsOf bs'.
Proof. unfold itemsOf. by rewrite map_app, concat_app. Qed.
Lemma startedItems_app tr tr' : startedItems (tr ++ tr') = startedItems tr ++ startedItems tr'.
Proof. unfold startedItems. by rewrite startedJobs_app, map_app, itemsOf_app. Qed.
Lemma at_app b tr tr' : at_ b (tr ++ tr') = at_ b tr ++ at_ b tr'.
Proof. apply filter_app. Qed.
Lemma itemsOf_single (batch : Batch) : itemsOf [batch] = batchItems batch.
Proof. unfold itemsOf. cbn. by rewrite app_nil_r. Qed.

Lemma completions_fine b done :
  (forall item result, (item, result) ∈ done -> wr_Err result = None) -> Forall fine (completions b done).
Proof.
  induction done as [|[item result] done IH]; intros H; [constructor|]. constructor.
  - cbn. eapply H. by left.
  - apply IH. intros i r Hr. eapply H. by right.
Qed.

Lemma completions_accepted b done : acceptedItems (completions b done) = [].
Proof. by induction done as [|[] ? IH]. Qed.
Lemma completions_started b done : startedJobs (completions b done) = [].
Proof. by induction done as [|[] ? IH]. Qed.
Lemma completions_items b done : completedItems (completions b done) = done.*1.
Proof. induction done as [|[] ? IH]; [done|]. unfold completions, completedItems. cbn. by f_equal. Qed.
Lemma completions_at b done : at_ b (completions b done) = completions b done.
Proof.
  induction done as [|[] ? IH]; [done|]. unfold at_, completions. cbn [map].
  rewrite filter_cons_True by done. by f_equal.
Qed.
Lemma completions_at_other b b' done : b <> b' -> at_ b (completions b' done) = [].
Proof.
  intros H. induction done as [|[] ? IH]; [done|]. unfold at_, completions. cbn [map].
  rewrite filter_cons_False; [done|]. cbn. congruence.
Qed.
Lemma completions_startedItems b done : startedItems (completions b done) = [].
Proof. unfold startedItems. by rewrite completions_started. Qed.
Lemma accepted_accepted b item : acceptedItems [Accepted b item] = [item].
Proof. done. Qed.
Lemma accepted_completed b item : completedItems [Accepted b item] = [].
Proof. done. Qed.
Lemma accepted_started b item : startedJobs [Accepted b item] = [].
Proof. done. Qed.
Lemma accepted_startedItems b item : startedItems [Accepted b item] = [].
Proof. done. Qed.
Lemma started_accepted j : acceptedItems [Started j] = [].
Proof. done. Qed.
Lemma started_completed j : completedItems [Started j] = [].
Proof. done. Qed.
Lemma started_started j : startedJobs [Started j] = [j].
Proof. done. Qed.
Lemma started_startedItems j : startedItems [Started j] = batchItems (j_batch j).
Proof. apply itemsOf_single. Qed.

Definition isStarted (e : event) : Prop := match e with Started _ => True | _ => False end.

Lemma completions_notStarted b done : Forall (fun e => ~ isStarted e) (completions b done).
Proof. induction done as [|[] ? IH]; [constructor|]. constructor; [|done]. intros H. exact H. Qed.

(** Events that start nothing keep the discipline; a start keeps it when it is due. *)
Lemma stopAndWait_app tr evs :
  stopAndWait tr -> Forall (fun e => ~ isStarted e) evs -> stopAndWait (tr ++ evs).
Proof.
  intros Htr Hevs pre j post E. apply app_eq_app in E as (l & [[E1 E2]|[E1 E2]]).
  - destruct l as [|e l].
    + destruct evs as [|e evs]; [done|]. injection E2 as <- E2. inversion Hevs as [|? ? H]; subst. by destruct H.
    + injection E2 as <- E2. by eapply Htr.
  - subst evs. apply Forall_app in Hevs as [_ Hevs]. inversion Hevs as [|? ? H]; subst. by destruct H.
Qed.

Lemma stopAndWait_start tr j :
  stopAndWait tr -> Forall fine tr -> startedItems tr = completedItems tr ->
  j_sequence j = swrap 32 (Z.of_nat (length (startedJobs tr))) -> stopAndWait (tr ++ [Started j]).
Proof.
  intros Htr Hf Hs Hq pre j' post E. apply app_eq_app in E as (l & [[E1 E2]|[E1 E2]]).
  - destruct l as [|e l].
    + injection E2 as <- E2. rewrite app_nil_r in E1. by subst tr.
    + injection E2 as <- E2. by eapply Htr.
  - destruct l as [|e l]; [|by destruct l]. injection E2 as <- E2. rewrite app_nil_r in E1. by subst tr.
Qed.
End Views.

#[global] Arguments acceptedItems : simpl never.
#[global] Arguments completedItems : simpl never.
#[global] Arguments startedJobs : simpl never.
#[global] Arguments startedItems : simpl never.
#[global] Arguments itemsOf : simpl never.
#[global] Arguments completions : simpl never.
#[global] Arguments at_ : simpl never.

Create HintDb sched discriminated.
#[export] Hint Rewrite @acceptedItems_app @completedItems_app @startedJobs_app @startedItems_app
  @itemsOf_app @itemsOf_single @at_app @completions_accepted @completions_started @completions_items
  @completions_at @completions_startedItems @accepted_accepted @accepted_completed @accepted_started
  @accepted_startedItems @started_accepted @started_completed @started_started @started_startedItems
  @app_nil_r : sched.

(** ** Steps of a bucket *)

Section BucketSteps.
Context {Item Batch Reply Ext : Type} `{!BatchWriter Item Batch Reply Ext}.
Abbreviation view := (@view Item Batch).

Lemma sequencesUpTo_S n : sequencesUpTo (S n) = sequencesUpTo n ++ [swrap 32 (Z.of_nat n)].
Proof.
  unfold sequencesUpTo. replace (Z.of_nat (S n)) with (Z.of_nat n + 1) by lia.
  rewrite seqZ_app by lia. by rewrite map_app.
Qed.

(** Establishes the fields of [good], with the histories computed. *)
Local Ltac good_fields :=
  split; cbn [v_batch v_pending v_active v_jobs v_sequence v_poisoned v_trace map]; autorewrite with sched; try done.

Lemma itemsOf_cons (batch : Batch) rest : itemsOf (batch :: rest) = batchItems batch ++ itemsOf rest.
Proof. done. Qed.

Lemma good_start (v : view) j rest :
  good v -> v_jobs v = [] -> v_pending v = j_batch j :: rest -> j_sequence j = v_sequence v ->
  good (MkView (v_batch v) rest true [j] (v_sequence v) (v_poisoned v) (v_trace v ++ [Started j])).
Proof.
  intros [Ha Hp Hacc Hs Hq Hn He Hfi Ho] Hj Hpend Hseq.
  destruct (v_poisoned v) eqn:Hpo; [by destruct (Hp eq_refl) as [? _]; congruence|].
  rewrite Hj, Hpend in *. cbn in Hs, Hn. rewrite app_nil_r in Hs. specialize (Hn eq_refl).
  good_fields.
  - right. eauto.
  - by rewrite Hacc, itemsOf_cons, <- !app_assoc.
  - by rewrite Hs.
  - rewrite map_app, length_app, Hq. cbn. rewrite Nat.add_1_r, sequencesUpTo_S. do 2 f_equal.
    rewrite Hseq, Hn. f_equal. lia.
  - intros _. rewrite Hn, length_app. cbn. f_equal. lia.
  - by rewrite map_app, <- app_assoc.
  - intros _. apply Forall_app. split; [by apply Hfi|]. by constructor.
  - apply stopAndWait_start; [done|by apply Hfi|done|]. rewrite Hseq, Hn. f_equal. lia.
Qed.

Lemma good_success (v : view) j b done :
  good v -> v_jobs v = [j] -> done.*1 = batchItems (j_batch j) ->
  (forall item result, (item, result) ∈ done -> wr_Err result = None) ->
  good (MkView (v_batch v) (v_pending v) false [] (swrap 32 (v_sequence v + 1)) (v_poisoned v)
          (v_trace v ++ completions b done)).
Proof.
  intros [Ha Hp Hacc Hs Hq Hn He Hfi Ho] Hj Hd Hok.
  destruct (v_poisoned v) eqn:Hpo; [by destruct (Hp eq_refl) as [_ ?]; congruence|].
  rewrite Hj in *. cbn [map] in Hacc, Hs. rewrite itemsOf_single in Hacc, Hs. specialize (Hn eq_refl).
  good_fields.
  - by left.
  - by rewrite Hacc, Hd, <- !app_assoc.
  - by rewrite Hs, Hd.
  - intros _. rewrite Hn. cbn. unfold swrap. zlia.
  - intros _. apply Forall_app. split; [by apply Hfi|]. by apply completions_fine.
  - apply stopAndWait_app; [done|apply completions_notStarted].
Qed.

Lemma good_failure (v : view) j b done :
  good v -> v_jobs v = [j] -> done.*1 = batchItems (j_batch j) ++ itemsOf (v_pending v) ->
  good (MkView (v_batch v) [] false [] (v_sequence v) true (v_trace v ++ completions b done)).
Proof.
  intros [Ha Hp Hacc Hs Hq Hn He Hfi Ho] Hj Hd.
  destruct (v_poisoned v) eqn:Hpo; [by destruct (Hp eq_refl) as [_ ?]; congruence|].
  rewrite Hj in *. cbn [map] in Hacc, Hs. rewrite itemsOf_single in Hacc, Hs.
  good_fields.
  - by left.
  - by rewrite Hacc, Hd, <- !app_assoc.
  - rewrite Hs, Hd, app_assoc. by apply prefix_app_r.
  - by apply Forall_app in He as [? _].
  - apply stopAndWait_app; [done|apply completions_notStarted].
Qed.

Lemma good_flush_poisoned (v : view) b done :
  good v -> v_poisoned v = true -> done.*1 = v_batch v ->
  good (MkView [] (v_pending v) (v_active v) (v_jobs v) (v_sequence v) (v_poisoned v)
          (v_trace v ++ completions b done)).
Proof.
  intros [Ha Hp Hacc Hs Hq Hn He Hfi Ho] Hpo Hd. destruct (Hp Hpo) as [Hpend Hj]. rewrite Hpo, Hpend, Hj in *.
  good_fields.
  - by rewrite Hacc, Hd.
  - by apply prefix_app_r.
  - by rewrite app_nil_r in He.
  - apply stopAndWait_app; [done|apply completions_notStarted].
Qed.

Lemma good_flush (v : view) batch :
  good v -> v_poisoned v = false -> batchItems batch = v_batch v -> batchItems batch <> [] -> batchOK batch ->
  good (MkView [] (v_pending v ++ [batch]) (v_active v) (v_jobs v) (v_sequence v) (v_poisoned v) (v_trace v)).
Proof.
  intros [Ha Hp Hacc Hs Hq Hn He Hfi Ho] Hpo Hb Hne Hok. rewrite Hpo in *.
  good_fields.
  - by rewrite Hb.
  - rewrite app_assoc. apply Forall_app. split; [done|]. by constructor.
Qed.

Lemma good_put (v : view) b item items :
  good v -> items = v_batch v ++ [item] ->
  good (MkView items (v_pending v) (v_active v) (v_jobs v) (v_sequence v) (v_poisoned v)
          (v_trace v ++ [Accepted b item])).
Proof.
  intros [Ha Hp Hacc Hs Hq Hn He Hfi Ho] ->. good_fields.
  - by rewrite Hacc, <- !app_assoc.
  - intros H. apply Forall_app. split; [by apply Hfi|]. by constructor.
  - apply stopAndWait_app; [done|]. constructor; [|done]. intros H. exact H.
Qed.
Lemma good_prefix (v : view) : good v -> startedItems (v_trace v) `prefix_of` acceptedItems (v_trace v).
Proof.
  intros Hg. pose proof (good_sent _ Hg) as Hs. rewrite (good_account _ Hg). destruct (v_poisoned v).
  - by apply prefix_app_r.
  - rewrite Hs, app_assoc. by apply prefix_app_r.
Qed.

Lemma started_batches (v : view) j :
  good v -> Started j ∈ v_trace v -> batchItems (j_batch j) <> [] /\ batchOK (j_batch j).
Proof.
  intros Hg Hj. pose proof (good_batches _ Hg) as H. apply Forall_app in H as [H _].
  rewrite Forall_forall in H. apply H, list_elem_of_fmap. exists j. split; [done|].
  apply list_elem_of_omap. by exists (Started j).
Qed.

Lemma at_started (tr : list (@event Item Batch)) j : Started j ∈ tr -> Started j ∈ at_ (j_bucket j) tr.
Proof. intros H. by apply list_elem_of_filter. Qed.
End BucketSteps.

(** ** The invariant of the scheduler *)

Section Invariant.
Context {Item Batch Reply Ext : Type} `{!BatchWriter Item Batch Reply Ext} `{!BatchWriterLaws Item Batch Reply Ext}.
Abbreviation loop := (@loop Item Batch Ext).
Abbreviation job := (@job Batch).
Variables (buckets : list Z) (maxConcurrent : Z).
Abbreviation dispatch := (dispatch buckets maxConcurrent).
Abbreviation dispatchPass := (dispatchPass maxConcurrent).
Abbreviation flushBucket := (flushBucket buckets maxConcurrent).
Abbreviation handleCompletion := (handleCompletion buckets maxConcurrent).

Record core (st : loop) : Prop := {
  inv_inFlight : l_inFlight st = glen (running st);
  inv_max : l_inFlight st <= maxConcurrent;
  inv_pending : forall b, pendingOf st b <> [] -> b ∈ buckets;
  inv_batches : forall b batch, l_batches st !! b = Some batch -> b ∈ buckets /\ batchOK batch;
  inv_good : forall b, good (viewOf st b);
}.

Record inv (st : loop) : Prop := {
  inv_core :> core st;
  inv_ext : extOK (l_ext st) (l_batches st);
}.

(** Work conserving: with a free request slot, no bucket waits that could start. *)
Definition settled (st : loop) : Prop :=
  l_inFlight st = maxConcurrent \/ forall b, pendingOf st b <> [] -> b ∈ l_active st.

(** Requests left to answer: the goroutines and the pending batches. *)
Definition work (st : loop) : nat :=
  length (running st) + sum_list (map (fun b => length (pendingOf st b)) buckets).

(** Two states agree on every bucket but [b]. *)
Definition agreeOff (b : Z) (st st' : loop) : Prop := forall b', b' <> b -> viewOf st' b' = viewOf st b'.

(** Proves that an operation on one bucket leaves the views of the others alone. *)
Local Ltac other_buckets :=
  let b' := fresh "b'" in let H := fresh "Hne" in
  intros b' H; unfold viewOf, pendingOf, sequenceOf; cbn;
  rewrite ?lookup_insert_ne, ?lookup_delete_ne, ?filter_app, ?at_app, ?completions_at_other by done; f_equal;
  unfold at_;
  rewrite ?filter_cons_False, ?filter_nil, ?app_nil_r by (cbn; congruence); try done;
  try (apply bool_decide_ext; set_solver).

Lemma startBatch_off clock b batch rest (st : loop) : agreeOff b st (startBatch clock b batch rest st).
Proof.
  unfold startBatch. destruct (onStart _ _ _) as [ext delay]. other_buckets.
Qed.

Lemma startBatch_view clock b batch rest (st : loop) :
  exists j, j_bucket j = b /\ j_batch j = batch /\ j_sequence j = sequenceOf st b /\
  viewOf (startBatch clock b batch rest st) b =
  MkView (v_batch (viewOf st b)) rest true (v_jobs (viewOf st b) ++ [j]) (v_sequence (viewOf st b))
    (v_poisoned (viewOf st b)) (v_trace (viewOf st b) ++ [Started j]).
Proof.
  unfold startBatch. destruct (onStart _ _ _) as [ext delay].
  exists (MkJob b batch (sequenceOf st b) delay). repeat (split; [done|]).
  unfold viewOf, pendingOf, sequenceOf. cbn. rewrite filter_app, at_app, lookup_insert_eq. f_equal.
  - apply bool_decide_eq_true. set_solver.
  - by rewrite filter_cons_True.
  - unfold at_. by rewrite filter_cons_True.
Qed.

Lemma inv_start clock b batch rest (st : loop) :
  inv st -> b ∉ l_active st -> pendingOf st b = batch :: rest -> l_inFlight st < maxConcurrent ->
  inv (startBatch clock b batch rest st).
Proof.
  intros [[Hi Hm Hp Hb Hg] Hx] Hact Hpend Hlt. pose proof (startBatch_off clock b batch rest st) as Hoff.
  destruct (startBatch_view clock b batch rest st) as (j & Hjb & Hjbt & Hjs & Hv).
  assert (Hother : forall b', pendingOf (startBatch clock b batch rest st) b' <> [] -> pendingOf st b' <> []).
  { intros b' H. destruct (decide (b' = b)) as [->|Hne]; [by rewrite Hpend|].
    pose proof (f_equal v_pending (Hoff b' Hne)) as E. cbn in E. by rewrite <- E. }
  assert (Hf : l_inFlight (startBatch clock b batch rest st) = l_inFlight st + 1 /\
    glen (running (startBatch clock b batch rest st)) = glen (running st) + 1 /\
    l_batches (startBatch clock b batch rest st) = l_batches st /\
    extOK (l_ext (startBatch clock b batch rest st)) (l_batches st)).
  { unfold startBatch. pose proof (onStart_ok clock b _ _ Hx) as Hx'. destruct (onStart _ _ _). cbn.
    split; [done|]. split; [|done]. glia. }
  destruct Hf as (Hf1 & Hf2 & Hf3 & Hf4). split; [|by rewrite Hf3]. split; [lia|lia|by eauto|rewrite Hf3; by eauto|].
  intros b'. destruct (decide (b' = b)) as [->|Hne]; [|by rewrite Hoff].
  destruct (good_active _ (Hg b)) as [[Hj Ha]|(j' & Hj & Ha)].
  2:{ cbn in Ha. by apply bool_decide_eq_true in Ha. }
  rewrite Hv, Hj. apply good_start; cbn; [done|done|by rewrite Hpend, Hjbt|done].
Qed.

(** ** Dispatching *)

Hypothesis distinct : NoDup buckets.

Lemma sum_list_change (f g : Z -> nat) b l :
  NoDup l -> b ∈ l -> (forall b', b' <> b -> f b' = g b') ->
  (sum_list (map f l) + g b = sum_list (map g l) + f b)%nat.
Proof.
  intros Hnd Hin Hoff. induction Hnd as [|x l Hx Hnd IH]; [by apply not_elem_of_nil in Hin|]. cbn.
  apply elem_of_cons in Hin as [->|Hin].
  - assert (E : map f l = map g l); [|rewrite E; lia].
    apply map_ext_in. intros a Ha%list_elem_of_In. apply Hoff. congruence.
  - specialize (IH Hin). rewrite (Hoff x) by congruence. lia.
Qed.

(** What starting batches does to a state: it only moves pending batches to goroutines. *)
Record dispatched (st st' : loop) : Prop := {
  dp_batches : l_batches st' = l_batches st;
  dp_poisoned : l_poisoned st' = l_poisoned st;
  dp_sequences : l_sequences st' = l_sequences st;
  dp_timer : l_timer st' = l_timer st;
  dp_active : l_active st ⊆ l_active st';
  dp_pending : forall b, pendingOf st b = [] -> pendingOf st' b = [];
  dp_work : work st' = work st;
  dp_trace : exists js, trace st' = trace st ++ map Started js;
}.

#[local] Instance dispatched_preorder : PreOrder dispatched.
Proof.
  split.
  - intros st. split; try done. exists []. by rewrite app_nil_r.
  - intros st1 st2 st3 [????? ? ? [js H1]] [????? ? ? [js' H2]].
    split; try congruence; [set_solver|by auto|].
    exists (js ++ js'). by rewrite map_app, app_assoc, H2, H1.
Qed.

Lemma startBatch_dispatched clock b batch rest (st : loop) :
  b ∈ buckets -> pendingOf st b = batch :: rest -> dispatched st (startBatch clock b batch rest st).
Proof.
  intros Hb Hpend. pose proof (startBatch_off clock b batch rest st) as Hoff.
  assert (Hp : forall b', b' <> b -> pendingOf (startBatch clock b batch rest st) b' = pendingOf st b').
  { intros b' Hne. by pose proof (f_equal v_pending (Hoff b' Hne)) as E. }
  destruct (startBatch_view clock b batch rest st) as (j & _ & _ & _ & Hv).
  pose proof (f_equal v_pending Hv) as Hpb. cbn in Hpb.
  assert (Hw : work (startBatch clock b batch rest st) = work st).
  { unfold work. pose proof (sum_list_change
      (fun b' => length (pendingOf (startBatch clock b batch rest st) b')) (fun b' => length (pendingOf st b'))
      b buckets distinct Hb) as E.
    cbv beta in E. rewrite Hpb, Hpend in E. cbn [length] in E. specialize (E ltac:(intros; by rewrite Hp)).
    assert (length (running (startBatch clock b batch rest st)) = S (length (running st))); [|lia].
    unfold startBatch. destruct (onStart _ _ _). cbn. rewrite length_app. cbn. lia. }
  clear Hv. unfold startBatch in *. destruct (onStart _ _ _) as [ext delay].
  split; cbn; try done; [set_solver| |by eexists [_]].
  intros b' E. destruct (decide (b' = b)) as [->|]; [congruence|]. by rewrite Hp.
Qed.

Lemma dispatchPass_spec clock bs : forall (st st' : loop) flag,
  inv st -> l_inFlight st < maxConcurrent -> bs ⊆ buckets -> dispatchPass clock bs st = (st', flag) ->
  inv st' /\ dispatched st st' /\
  (l_inFlight st' = maxConcurrent \/ forall b, b ∈ bs -> pendingOf st' b <> [] -> b ∈ l_active st') /\
  (if flag then l_inFlight st < l_inFlight st' else st' = st).
Proof.
  induction bs as [|b bs IH]; cbn [Scheduler.dispatchPass]; intros st st' flag Hinv Hlt Hsub E.
  { simplify_eq. split; [done|]. split; [reflexivity|]. split; [right; set_solver|done]. }
  destruct (decide (b ∈ l_active st)) as [Hact|Hact].
  { apply IH in E as (Hi & Hd & Hset & Hf); [|done|done|set_solver]. repeat (split; [done|]). split; [|done].
    destruct Hset as [|Hset]; [by left|right]. intros b' [->|Hb']%elem_of_cons Hp; [|by apply Hset].
    by apply (dp_active _ _ Hd). }
  destruct (pendingOf st b) as [|batch rest] eqn:Hpend.
  { apply IH in E as (Hi & Hd & Hset & Hf); [|done|done|set_solver]. repeat (split; [done|]). split; [|done].
    destruct Hset as [|Hset]; [by left|right]. intros b' [->|Hb']%elem_of_cons Hp; [|by apply Hset].
    by rewrite (dp_pending _ _ Hd) in Hp. }
  pose proof (inv_start clock b batch rest st Hinv Hact Hpend Hlt) as Hinv1.
  assert (Hb : b ∈ buckets) by set_solver.
  pose proof (startBatch_dispatched clock b batch rest st Hb Hpend) as Hd1.
  assert (Hact1 : b ∈ l_active (startBatch clock b batch rest st)) by (unfold startBatch; destruct (onStart _ _ _); cbn; set_solver).
  assert (Hfl : l_inFlight (startBatch clock b batch rest st) = l_inFlight st + 1) by (unfold startBatch; by destruct (onStart _ _ _)).
  set (st1 := startBatch clock b batch rest st) in *.
  destruct (Z.eqb_spec (l_inFlight st1) maxConcurrent) as [Hmax|Hmax].
  { simplify_eq. repeat (split; [done|]). split; [by left|lia]. }
  destruct (Scheduler.dispatchPass maxConcurrent clock bs st1) as [st2 flag2] eqn:E2. simplify_eq. cbn.
  pose proof (inv_max _ Hinv1). apply IH in E2 as (Hi & Hd & Hset & Hf); [|done|lia|set_solver].
  split; [done|]. split; [by transitivity st1|]. split.
  - destruct Hset as [|Hset]; [by left|right]. intros b' [->|Hb']%elem_of_cons Hp; [|by apply Hset].
    by apply (dp_active _ _ Hd).
  - destruct flag2; [lia|]. subst st2. lia.
Qed.

Lemma dispatchLoop_spec clock fuel : forall (st : loop),
  inv st -> maxConcurrent - l_inFlight st <= Z.of_nat fuel ->
  inv (dispatchLoop buckets maxConcurrent fuel clock st) /\
  dispatched st (dispatchLoop buckets maxConcurrent fuel clock st) /\
  settled (dispatchLoop buckets maxConcurrent fuel clock st).
Proof.
  induction fuel as [|fuel IH]; intros st Hinv Hfuel; cbn [dispatchLoop]; pose proof (inv_max _ Hinv).
  all: destruct (Z.ltb_spec (l_inFlight st) maxConcurrent) as [Hlt|Hge];
    [|split; [done|]; split; [reflexivity|]; left; lia].
  { exfalso. lia. }
  destruct (Scheduler.dispatchPass maxConcurrent clock buckets st) as [st1 flag] eqn:E.
  apply dispatchPass_spec in E as (Hi & Hd & Hset & Hf); [|done|done|set_solver].
  destruct flag; [|].
  - destruct (IH st1) as (Hi2 & Hd2 & Hs2); [done|lia|]. split; [done|]. split; [by transitivity st1|done].
  - split; [done|]. split; [done|]. destruct Hset as [|Hset]; [by left|right]. intros b Hp.
    apply Hset; [|done]. by apply (inv_pending _ Hi).
Qed.

(** The fuel of [dispatch] is enough: with more of it the loop ends in the same state. *)
Lemma dispatchLoop_enough clock fuel extra : forall (st : loop),
  inv st -> maxConcurrent - l_inFlight st <= Z.of_nat fuel ->
  dispatchLoop buckets maxConcurrent (fuel + extra) clock st = dispatchLoop buckets maxConcurrent fuel clock st.
Proof.
  induction fuel as [|fuel IH]; intros st Hinv Hfuel; pose proof (inv_max _ Hinv).
  - assert (l_inFlight st <? maxConcurrent = false) as E by lia. destruct extra; cbn; by rewrite E.
  - cbn [Nat.add dispatchLoop]. destruct (Z.ltb_spec (l_inFlight st) maxConcurrent) as [Hlt|]; [|done].
    destruct (Scheduler.dispatchPass maxConcurrent clock buckets st) as [st1 flag] eqn:E.
    apply dispatchPass_spec in E as (Hi & _ & _ & Hf); [|done|done|set_solver].
    destruct flag; [|done]. apply IH; [done|lia].
Qed.

Lemma dispatch_spec clock (st : loop) :
  inv st -> inv (dispatch clock st) /\ dispatched st (dispatch clock st) /\ settled (dispatch clock st).
Proof. intros Hinv. apply dispatchLoop_spec; [done|]. pose proof (inv_max _ Hinv). lia. Qed.

(** ** Flushing a bucket *)

(** An event of the scheduler's own: a start or a completion. *)
Definition internal (e : @event Item Batch) : Prop :=
  match e with Started _ | Completed _ _ _ => True | _ => False end.

Definition extends (st st' : loop) : Prop :=
  exists evs, trace st' = trace st ++ evs /\ Forall internal evs.

#[global] Instance extends_preorder : PreOrder extends.
Proof.
  split.
  - intros st. exists []. split; [by rewrite app_nil_r|done].
  - intros s1 s2 s3 (e1 & H1 & F1) (e2 & H2 & F2). exists (e1 ++ e2).
    split; [by rewrite H2, H1, app_assoc|by apply Forall_app].
Qed.

Lemma dispatched_extends (st st' : loop) : dispatched st st' -> extends st st'.
Proof. intros [_ _ _ _ _ _ _ (js & H)]. exists (map Started js). split; [done|]. by apply Forall_map, Forall_true. Qed.

Lemma completions_internal b done : Forall internal (completions b done).
Proof. induction done as [|[] ? IH]; [constructor|]. by constructor. Qed.

Lemma inv_queue b batch (st : loop) :
  core st -> extOK (l_ext st) (delete b (l_batches st)) ->
  l_batches st !! b = Some batch -> batchItems batch <> [] -> l_poisoned st !! b = None ->
  inv (setPending b (pendingOf st b ++ [batch]) (dropBatch b st)).
Proof.
  intros [Hi Hm Hp Hb Hg] Hx Hbt Hne Hpo. set (st' := setPending _ _ _).
  assert (Hoff : agreeOff b st st') by (subst st'; other_buckets).
  split; [|done].
  split; [done|done| |intros b' bt'; subst st'; cbn; intros [_ H]%lookup_delete_Some; by eauto|].
  - intros b' H. destruct (decide (b' = b)) as [->|Hn]; [by destruct (Hb b batch Hbt)|]. apply Hp.
    pose proof (f_equal v_pending (Hoff b' Hn)) as E. cbn in E. by rewrite <- E.
  - intros b'. destruct (decide (b' = b)) as [->|Hn]; [|by rewrite Hoff].
    assert (Hv : viewOf st' b = MkView [] (v_pending (viewOf st b) ++ [batch]) (v_active (viewOf st b))
      (v_jobs (viewOf st b)) (v_sequence (viewOf st b)) (v_poisoned (viewOf st b)) (v_trace (viewOf st b))).
    { subst st'. unfold viewOf, pendingOf, sequenceOf. cbn. by rewrite lookup_insert_eq, lookup_delete_eq. }
    rewrite Hv. apply good_flush; cbn; [done| |by rewrite Hbt|done|by destruct (Hb b batch Hbt)].
    rewrite Hpo. apply bool_decide_eq_false. by intros [? ?].
Qed.

Lemma inv_flush_poisoned b batch err e (st : loop) :
  core st -> extOK (l_ext st) (delete b (l_batches st)) ->
  l_batches st !! b = Some batch -> l_poisoned st !! b = Some e ->
  inv (emit (completions b (failBatch batch b err)) (dropBatch b st)).
Proof.
  intros [Hi Hm Hp Hb Hg] Hx Hbt Hpo. set (st' := emit _ _).
  assert (Hoff : agreeOff b st st') by (subst st'; other_buckets).
  split; [|done].
  split; [done|done|done|intros b' bt'; subst st'; cbn; intros [_ H]%lookup_delete_Some; by eauto|].
  intros b'. destruct (decide (b' = b)) as [->|Hn]; [|by rewrite Hoff].
  assert (Hv : viewOf st' b = MkView [] (v_pending (viewOf st b)) (v_active (viewOf st b))
    (v_jobs (viewOf st b)) (v_sequence (viewOf st b)) (v_poisoned (viewOf st b))
    (v_trace (viewOf st b) ++ completions b (failBatch batch b err))).
  { subst st'. unfold viewOf, pendingOf, sequenceOf. cbn. by rewrite lookup_delete_eq, at_app, completions_at. }
  rewrite Hv. apply good_flush_poisoned; cbn; [done| |by rewrite Hbt, failBatch_items].
  rewrite Hpo. by apply bool_decide_eq_true.
Qed.

Record flushed (b : Z) (st st' : loop) : Prop := {
  fl_inv : inv st';
  fl_settled : settled st';
  fl_extends : extends st st';
  fl_timer : l_timer st' = l_timer st;
  fl_other : forall b', b' <> b -> l_batches st' !! b' = l_batches st !! b';
  fl_batch : v_batch (viewOf st' b) = [];
  fl_poisoned : l_poisoned st' = l_poisoned st;
}.

(** Flushing a batch with items closes it; the other open batches are all that [extOK] needs. *)
Lemma flushOpen_spec clock b batch (st : loop) :
  core st -> extOK (l_ext st) (delete b (l_batches st)) -> settled st ->
  l_batches st !! b = Some batch -> batchItems batch <> [] -> flushed b st (flushBucket clock b st).1.
Proof.
  intros Hc Hx Hset Hbt Hne. unfold Scheduler.flushBucket. rewrite Hbt.
  destruct (Z.eqb_spec (glen (batchItems batch)) 0) as [Hz|Hz]; [by apply glen_0_nil in Hz|].
  destruct (l_poisoned (dropBatch b st) !! b) as [e|] eqn:Hpo; cbn [fst].
  - split; try done; [by eapply inv_flush_poisoned| | |cbn; by rewrite lookup_delete_eq].
    + eexists. split; [done|]. apply completions_internal.
    + intros b' Hn. cbn. by rewrite lookup_delete_ne.
  - change (pendingOf (dropBatch b st) b) with (pendingOf st b).
    pose proof (inv_queue b batch st Hc Hx Hbt Hne Hpo) as Hi.
    apply (dispatch_spec clock) in Hi as (Hi & Hd & Hs).
    split; try done.
    + by transitivity (setPending b (pendingOf st b ++ [batch]) (dropBatch b st)); [exists []; split; [by rewrite app_nil_r|done]|apply dispatched_extends].
    + by rewrite (dp_timer _ _ Hd).
    + intros b' Hn. rewrite (dp_batches _ _ Hd). cbn. by rewrite lookup_delete_ne.
    + cbn. rewrite (dp_batches _ _ Hd). cbn. by rewrite lookup_delete_eq.
    + by rewrite (dp_poisoned _ _ Hd).
Qed.

(** Flushing a bucket closes its batch and leaves the scheduler in a good, settled state. *)
Lemma flushBucket_spec clock b (st : loop) :
  inv st -> settled st -> flushed b st (flushBucket clock b st).1.
Proof.
  intros Hinv Hset. destruct (l_batches st !! b) as [batch|] eqn:Hbt.
  - destruct (batchItems batch) as [|item items] eqn:Hit.
    + unfold Scheduler.flushBucket. rewrite Hbt, Hit, glen_nil. cbn. split; try done. cbn. by rewrite Hbt.
    + apply (flushOpen_spec clock b batch); try done; [apply Hinv|apply extOK_delete, Hinv|by rewrite Hit].
  - unfold Scheduler.flushBucket. rewrite Hbt. split; try done. cbn. by rewrite Hbt.
Qed.

Lemma flushBuckets_spec clock bs : forall (st : loop),
  inv st -> settled st ->
  let st' := (flushBuckets buckets maxConcurrent clock bs st).1 in
  inv st' /\ settled st' /\ extends st st' /\ l_timer st' = l_timer st /\ l_poisoned st' = l_poisoned st /\
  (forall b, b ∈ bs \/ v_batch (viewOf st b) = [] -> v_batch (viewOf st' b) = []).
Proof.
  induction bs as [|b bs IH]; intros st Hinv Hset; cbn [flushBuckets].
  { cbn. repeat (split; [done|]). intros b' [H|H]; [by apply not_elem_of_nil in H|done]. }
  destruct (Scheduler.flushBucket buckets maxConcurrent clock b st) as [st1 errs] eqn:E.
  pose proof (flushBucket_spec clock b st Hinv Hset) as [Hi Hs He Ht Ho Hb Hpo]. rewrite E in *. cbn [fst] in *.
  destruct (flushBuckets _ _ _ bs st1) as [st2 errs2] eqn:E2. specialize (IH st1 Hi Hs). rewrite E2 in IH.
  cbn [fst] in *. destruct IH as (Hi2 & Hs2 & He2 & Ht2 & Hpo2 & Hb2).
  split; [done|]. split; [done|]. split; [by transitivity st1|]. split; [by rewrite Ht2|].
  split; [by rewrite Hpo2|]. intros b' Hb'. apply Hb2. destruct (decide (b' = b)) as [->|Hn]; [by right|].
  destruct Hb' as [[->|H]%elem_of_cons|H]; [done|by left|right]. cbn in *. by rewrite Ho.
Qed.

(** Queueing everything closes every batch. *)
Lemma queueAll_spec clock (st : loop) :
  inv st -> settled st ->
  let st' := (queueAll buckets maxConcurrent clock st).1 in
  inv st' /\ settled st' /\ extends st st' /\ l_timer st' = false /\ l_poisoned st' = l_poisoned st /\
  forall b, v_batch (viewOf st' b) = [].
Proof.
  intros Hinv Hset. unfold queueAll.
  assert (Hi : inv (stopTimer st)) by (destruct Hinv as [[] ?]; split; [by split|done]).
  pose proof (flushBuckets_spec clock buckets (stopTimer st) Hi Hset) as (H1 & H2 & H3 & H4 & H5 & H6).
  repeat (split; [done|]). intros b. apply H6. destruct (l_batches st !! b) as [batch|] eqn:E.
  - left. by apply (inv_batches _ Hinv b batch E).
  - right. cbn. by rewrite E.
Qed.

(** ** Handling a completion *)

Lemma filter_delete (k : nat) (js : list job) j b :
  js !! k = Some j -> j_bucket j <> b ->
  filter (fun j => j_bucket j = b) (delete k js) = filter (fun j => j_bucket j = b) js.
Proof.
  intros Hk Hne. rewrite <- (take_drop_middle js k j Hk) at 2. rewrite delete_take_drop, !filter_app.
  f_equal. by rewrite filter_cons_False.
Qed.

Lemma filter_delete_single (k : nat) (js : list job) j j' :
  js !! k = Some j -> filter (fun i => j_bucket i = j_bucket j) js = [j'] ->
  j' = j /\ filter (fun i => j_bucket i = j_bucket j) (delete k js) = [].
Proof.
  intros Hk. rewrite <- (take_drop_middle js k j Hk) at 1. rewrite delete_take_drop, !filter_app.
  rewrite filter_cons_True by done. intros E.
  apply app_eq_unit in E as [[E1 E2]|[E1 E2]]; [|done].
  rewrite E1. injection E2 as -> E2. by rewrite E2.
Qed.

Lemma running_active k j (st : loop) : inv st -> running st !! k = Some j ->
  v_jobs (viewOf st (j_bucket j)) = [j] /\
  filter (fun i => j_bucket i = j_bucket j) (delete k (running st)) = [].
Proof.
  intros Hinv Hk. destruct (good_active _ (inv_good _ Hinv (j_bucket j))) as [[Hj _]|(j' & Hj & _)]; cbn in Hj.
  - exfalso. assert (j ∈ filter (fun i => j_bucket i = j_bucket j) (running st)) as Hin.
    { apply list_elem_of_filter. split; [done|]. by eapply list_elem_of_lookup_2. }
    rewrite Hj in Hin. by apply not_elem_of_nil in Hin.
  - destruct (filter_delete_single k (running st) j j' Hk Hj) as [-> E]. by split.
Qed.

Lemma completions_app b done done' :
  completions b (done ++ done') = completions (Item:=Item) (Batch:=Batch) b done ++ completions b done'.
Proof. apply map_app. Qed.

Lemma concat_completions b err (bs : list Batch) :
  concat (map (fun batch => completions b (failBatch batch b err)) bs) =
  completions (Batch:=Batch) b (concat (map (fun batch => failBatch batch b err) bs)).
Proof. unfold completions. by rewrite concat_map, map_map. Qed.

Lemma concat_failBatch b err (bs : list Batch) :
  (concat (map (fun batch => failBatch batch b err) bs)).*1 = itemsOf bs.
Proof.
  induction bs as [|batch bs IH]; [done|]. cbn. rewrite fmap_app, failBatch_items, itemsOf_cons. by f_equal.
Qed.

(** A state and its successor when the only bucket that changed is [b], which answered. *)
Lemma inv_answered k j (st st' : loop) :
  inv st -> running st !! k = Some j -> agreeOff (j_bucket j) st st' ->
  l_inFlight st' = l_inFlight st - 1 -> running st' = delete k (running st) -> l_batches st' = l_batches st ->
  (pendingOf st' (j_bucket j) = [] \/ pendingOf st' (j_bucket j) = pendingOf st (j_bucket j)) ->
  good (viewOf st' (j_bucket j)) -> extOK (l_ext st') (l_batches st') -> inv st' /\ (work st' < work st)%nat.
Proof.
  intros [[Hi Hm Hp Hb Hg] Hx] Hk Hoff Hf Hr Hbt Hpend Hgood Hext.
  assert (Hlen : length (running st) = S (length (running st'))).
  { rewrite Hr, length_delete by (by eexists). apply lookup_lt_Some in Hk. lia. }
  assert (Hother : forall b', b' <> j_bucket j -> pendingOf st' b' = pendingOf st b').
  { intros b' Hn. by pose proof (f_equal v_pending (Hoff b' Hn)). }
  split; [split; [split|done]|].
  - unfold glen in *. lia.
  - lia.
  - intros b' H. apply Hp. destruct (decide (b' = j_bucket j)) as [->|Hn]; [destruct Hpend; congruence|].
    by rewrite <- Hother.
  - rewrite Hbt. apply Hb.
  - intros b'. destruct (decide (b' = j_bucket j)) as [->|Hn]; [done|]. by rewrite Hoff.
  - unfold work. rewrite Hlen. cbn. apply Nat.lt_succ_r, Nat.add_le_mono_l.
    clear -Hpend Hother. induction buckets as [|b bs IH]; [done|]. cbn.
    apply Nat.add_le_mono; [|done]. destruct (decide (b = j_bucket j)) as [->|Hn]; [|by rewrite Hother].
    destruct Hpend as [->| ->]; cbn; lia.
Qed.

Record answered (st st' : loop) : Prop := {
  an_inv : inv st';
  an_settled : settled st';
  an_extends : extends st st';
  an_timer : l_timer st' = l_timer st;
  an_batches : l_batches st' = l_batches st;
  an_work : (work st' < work st)%nat;
}.

Lemma answered_dispatch clock k j evs (st st1 : loop) :
  inv st -> running st !! k = Some j -> agreeOff (j_bucket j) st st1 ->
  l_inFlight st1 = l_inFlight st - 1 -> running st1 = delete k (running st) -> l_batches st1 = l_batches st ->
  (pendingOf st1 (j_bucket j) = [] \/ pendingOf st1 (j_bucket j) = pendingOf st (j_bucket j)) ->
  good (viewOf st1 (j_bucket j)) -> trace st1 = trace st ++ evs -> Forall internal evs ->
  l_timer st1 = l_timer st -> extOK (l_ext st1) (l_batches st1) -> answered st (dispatch clock st1).
Proof.
  intros Hinv Hk Hoff Hf Hr Hbt Hpend Hg Htr Hint Ht Hext.
  destruct (inv_answered k j st st1) as [Hi Hw]; try done.
  apply (dispatch_spec clock) in Hi as (Hi & Hd & Hs).
  split; try done.
  - transitivity st1; [by exists evs|by apply dispatched_extends].
  - by rewrite (dp_timer _ _ Hd).
  - by rewrite (dp_batches _ _ Hd).
  - by rewrite (dp_work _ _ Hd).
Qed.

(** Handling the reply of a goroutine keeps the invariant and makes progress. *)
Lemma handleCompletion_spec clock now k j reply (st : loop) :
  inv st -> running st !! k = Some j -> answered st (handleCompletion clock now j reply (finish k st)).1.
Proof.
  intros Hinv Hk. destruct (running_active k j st Hinv Hk) as [Hj Hdel].
  unfold Scheduler.handleCompletion. destruct (replyErr reply) as [err|] eqn:Er; cbn [fst].
  - rewrite concat_completions, <- completions_app.
    change (pendingOf (finish k st)) with (pendingOf st). cbn.
    eapply (answered_dispatch clock k j); try done.
    + other_buckets. by eapply filter_delete.
    + left. unfold pendingOf. cbn. by rewrite lookup_delete_eq.
    + pose proof (good_failure _ j (j_bucket j) (failBatch (j_batch j) (j_bucket j) err ++
        concat (map (fun batch => failBatch batch (j_bucket j) (Plain ErrWriterState)) (pendingOf st (j_bucket j))))
        (inv_good _ Hinv (j_bucket j)) Hj) as G.
      rewrite fmap_app, failBatch_items, concat_failBatch in G. specialize (G eq_refl).
      cbn in G. unfold viewOf, pendingOf, sequenceOf in *. cbn.
      rewrite lookup_delete_eq, lookup_insert_eq, at_app, completions_at, Hdel.
      rewrite bool_decide_eq_false_2 by set_solver. rewrite bool_decide_eq_true_2 by done. exact G.
    + apply completions_internal.
    + apply (inv_ext _ Hinv).
  - cbn. eapply (answered_dispatch clock k j); try done.
    + other_buckets. by eapply filter_delete.
    + by right.
    + pose proof (good_success _ j (j_bucket j) (succeedBatch (j_batch j) (j_bucket j) reply)
        (inv_good _ Hinv (j_bucket j)) Hj) as G.
      rewrite succeedBatch_items in G. specialize (G eq_refl (succeedBatch_err _ _ _)).
      cbn in G. unfold viewOf, pendingOf, sequenceOf in *. cbn.
      rewrite lookup_insert_eq, at_app, completions_at, Hdel.
      rewrite bool_decide_eq_false_2 by set_solver. exact G.
    + apply completions_internal.
    + apply onSuccess_ok, (inv_ext _ Hinv).
Qed.

(** ** Filling a batch *)

Lemma setBatch_off b batch (st : loop) : agreeOff b st (setBatch b batch st).
Proof. other_buckets. Qed.

(** Replacing the open batch by one with the same items, or with one accepted item more. *)
Lemma inv_setBatch b batch (st : loop) :
  inv st -> b ∈ buckets -> batchOK batch -> batchItems batch = v_batch (viewOf st b) ->
  extOK (l_ext st) (<[b := batch]> (l_batches st)) -> inv (setBatch b batch st).
Proof.
  intros [[Hi Hm Hp Hb Hg] _] Hin Hok Hit Hx. split; [split|done]; try done.
  - intros b' bt'. cbn. intros [[<- <-]|[_ H]]%lookup_insert_Some; [done|]. by eauto.
  - intros b'. destruct (decide (b' = b)) as [->|Hn]; [|by rewrite setBatch_off].
    replace (viewOf (setBatch b batch st) b) with (viewOf st b); [done|].
    unfold viewOf, pendingOf, sequenceOf. cbn. rewrite lookup_insert_eq. f_equal. by rewrite Hit.
Qed.

Lemma core_put b batch item (st : loop) :
  core st -> b ∈ buckets -> batchOK batch -> batchItems batch = v_batch (viewOf st b) ++ [item] ->
  core (emit [Accepted b item] (setBatch b batch st)).
Proof.
  intros [Hi Hm Hp Hb Hg] Hin Hok Hit. set (st' := emit _ _).
  assert (Hoff : agreeOff b st st') by (subst st'; other_buckets).
  split; try done.
  - intros b' bt'. subst st'. cbn. intros [[<- <-]|[_ H]]%lookup_insert_Some; [done|]. by eauto.
  - intros b'. destruct (decide (b' = b)) as [->|Hn]; [|by rewrite Hoff].
    pose proof (good_put _ b item _ (Hg b) Hit) as G. subst st'. unfold viewOf, pendingOf, sequenceOf in *. cbn in *.
    rewrite lookup_insert_eq, at_app. unfold at_ at 2. by rewrite filter_cons_True.
Qed.

Lemma inv_put b batch item (st : loop) :
  inv st -> b ∈ buckets -> batchOK batch -> batchItems batch = v_batch (viewOf st b) ++ [item] ->
  extOK (l_ext st) (<[b := batch]> (l_batches st)) -> inv (emit [Accepted b item] (setBatch b batch st)).
Proof. intros [Hc _] Hin Hok Hit Hx. split; [by apply core_put|done]. Qed.

(** The writer changes its own state. *)
Lemma inv_setExt ext (st : loop) : inv st -> extOK ext (l_batches st) -> inv (setExt ext st).
Proof. intros [[Hi Hm Hp Hb Hg] _] Hx. split; [|done]. by split. Qed.

Lemma inv_reject item err (st : loop) : inv st -> inv (emit [Rejected item err] st).
Proof.
  intros [[Hi Hm Hp Hb Hg] Hx]. split; [|done]. split; try done. intros b. specialize (Hg b).
  unfold viewOf, pendingOf, sequenceOf in *. cbn in *. rewrite at_app. unfold at_ at 2.
  by rewrite filter_cons_False, app_nil_r.
Qed.

Lemma inv_timer armed (st : loop) : inv st -> inv (setTimer armed st).
Proof. intros [[] ?]. split; [|done]. by split. Qed.

Lemma inv_empty ext : 0 <= maxConcurrent -> extOK ext ∅ -> inv (emptyLoop ext).
Proof.
  intros Hm Hx. split; [|done]. split; try done. intros b. split; try done.
  - by left.
  - intros pre j post E. by destruct pre.
Qed.

Lemma settled_empty ext : settled (emptyLoop ext).
Proof. right. intros b H. by destruct H. Qed.
End Invariant.
