(* ===== verification/WriterLoop.v ===== *)
(** * The command loop of the writers

    [run], [flushAll], [enqueue], [Flush] and [Close] of [pkg/fgo/kv_writer.go] and
    [pkg/fgo/log_writer.go]: callers take a slot and send commands on a buffered channel, one
    goroutine serves them and collects the completions of the requests it started.  The loop
    and its callers are a step relation, one step per send, receive or locked region, so that
    its theorems hold for every interleaving of callers, timers and replies.

    Adding an item to its batch is the part in which the two writers differ; it is the
    interface [ItemAdder], which [KVWriter] and [LogWriter] implement. *)

From S2P Require Import Prelude Errors Scheduler.

(** ** Adding items *)

(** [itemOK] is what callers establish before they send an item; [addItem] is [add]. *)
Class ItemAdder (Item Batch Ext : Type) := {
  itemOK : Item -> Prop;
  addItem : (Z -> Z) -> Item -> @loop Item Batch Ext -> outcome (@loop Item Batch Ext);
}.

Definition offered {Item Batch} (tr : list (@event Item Batch)) : list Item :=
  omap (fun e => match e with Accepted _ item | Rejected item _ => Some item | _ => None end) tr.

(** Futures completed: each gives its slot back. *)
Definition finished {Item Batch} (tr : list (@event Item Batch)) : list Item :=
  omap (fun e => match e with Completed _ item _ | Rejected item _ => Some item | _ => None end) tr.

(** What [add] promises: it takes exactly the item, into a batch or with an error, and leaves
    the scheduler in a good state. *)
Record added {Item Batch Reply Ext} `{!BatchWriter Item Batch Reply Ext}
    (buckets : list Z) (maxConcurrent : Z) (item : Item) (st st' : @loop Item Batch Ext) : Prop := {
  ad_inv : inv buckets maxConcurrent st';
  ad_settled : settled maxConcurrent st';
  ad_trace : exists evs, trace st' = trace st ++ evs /\ offered evs = [item];
}.

Class ItemAdderLaws (Item Batch Reply Ext : Type) `{!BatchWriter Item Batch Reply Ext} `{!ItemAdder Item Batch Ext}
    (buckets : list Z) (maxConcurrent : Z) : Prop := {
  addItem_spec : forall clock item st,
    inv buckets maxConcurrent st -> settled maxConcurrent st -> itemOK item ->
    exists st', addItem clock item st = Ok st' /\ added buckets maxConcurrent item st st';
}.

(** ** The writer *)

Section Writer.
Context {Item Batch Reply Ext : Type} `{!BatchWriter Item Batch Reply Ext} `{!ItemAdder Item Batch Ext}.
Abbreviation loop := (@loop Item Batch Ext).
Variables (buckets : list Z) (maxConcurrent maxBuffered : Z).

(** The commands of a writer.  The number in a flush or close is a history variable: how many
    items were sent before it. *)
Inductive command :=
| CItem (item : Item)
| CFlush (mark : nat)
| CClose (mark : nat).

(** Where the loop's goroutine is: waiting in its select, inside [flushAll] for a flush or a
    close with the errors joined so far, or returned. *)
Inductive mode :=
| Running
| Flushing (closing : bool) (mark : nat) (errs : list callError)
| Stopped.

(** [w_holding] are the callers between taking a slot and sending; [w_slots] the tokens in
    [slots]; [w_sent] and [w_replies] are histories of the items sent and of the answers to
    flushes and closes. *)
Record writer := MkWriter {
  w_loop : loop;
  w_mode : mode;
  w_commands : list command;
  w_holding : list Item;
  w_slots : Z;
  w_closed : bool;
  w_done : bool;
  w_closeErr : list callError;
  w_sent : list Item;
  w_replies : list (nat * list callError);
}.

Definition newWriter (ext : Ext) : writer :=
  MkWriter (emptyLoop ext) Running [] [] 0 false false [] [] [].

(** The loop moves to [st]: the futures it completed give their slots back. *)
Definition setLoop (st : loop) (m : mode) (commands : list command) (w : writer) : writer :=
  MkWriter st m commands (w_holding w)
    (w_slots w - (glen (finished (trace st)) - glen (finished (trace (w_loop w)))))
    (w_closed w) (w_done w) (w_closeErr w) (w_sent w) (w_replies w).

(** [enqueue]: a token goes into [slots]. *)
Definition acquire (item : Item) (w : writer) : writer :=
  MkWriter (w_loop w) (w_mode w) (w_commands w) (w_holding w ++ [item]) (w_slots w + 1)
    (w_closed w) (w_done w) (w_closeErr w) (w_sent w) (w_replies w).

(** [enqueue], under the lock: the command is sent. *)
Definition send (k : nat) (item : Item) (w : writer) : writer :=
  MkWriter (w_loop w) (w_mode w) (w_commands w ++ [CItem item]) (delete k (w_holding w)) (w_slots w)
    (w_closed w) (w_done w) (w_closeErr w) (w_sent w ++ [item]) (w_replies w).

(** [enqueue] gives up (closed, or the caller's context is over): the future completes with an
    error and its slot is released. *)
Definition refuse (k : nat) (w : writer) : writer :=
  MkWriter (w_loop w) (w_mode w) (w_commands w) (delete k (w_holding w)) (w_slots w - 1)
    (w_closed w) (w_done w) (w_closeErr w) (w_sent w) (w_replies w).

Definition sendFlush (w : writer) : writer :=
  MkWriter (w_loop w) (w_mode w) (w_commands w ++ [CFlush (length (w_sent w))]) (w_holding w) (w_slots w)
    (w_closed w) (w_done w) (w_closeErr w) (w_sent w) (w_replies w).

Definition sendClose (w : writer) : writer :=
  MkWriter (w_loop w) (w_mode w) (w_commands w ++ [CClose (length (w_sent w))]) (w_holding w) (w_slots w)
    true (w_done w) (w_closeErr w) (w_sent w) (w_replies w).

(** The end of [flushAll]: the barrier is answered; after a close the loop returns and [done]
    is closed. *)
Definition answerFlush (closing : bool) (mark : nat) (errs : list callError) (w : writer) : writer :=
  MkWriter (w_loop w) (if closing then Stopped else Running) (w_commands w) (w_holding w) (w_slots w)
    (w_closed w) (if closing then true else w_done w) (if closing then errs else w_closeErr w)
    (w_sent w) (w_replies w ++ [(mark, errs)]).

Definition joinErrs (m : mode) (errs : list callError) : mode :=
  match m with Flushing closing mark errs' => Flushing closing mark (errs' ++ errs) | _ => m end.

Definition serving (m : mode) : bool := match m with Stopped => false | _ => true end.

Inductive step : writer -> writer -> Prop :=
| step_acquire item w :
    itemOK item -> w_slots w < maxBuffered -> step w (acquire item w)
| step_send k item w :
    w_holding w !! k = Some item -> w_closed w = false -> glen (w_commands w) < maxBuffered ->
    step w (send k item w)
| step_refuse k item w :
    w_holding w !! k = Some item -> step w (refuse k w)
| step_flush w :
    w_closed w = false -> glen (w_commands w) < maxBuffered -> step w (sendFlush w)
| step_close w :
    w_closed w = false -> glen (w_commands w) < maxBuffered -> step w (sendClose w)
| step_item clock item rest st w :
    w_mode w = Running -> w_commands w = CItem item :: rest -> addItem clock item (w_loop w) = Ok st ->
    step w (setLoop st Running rest w)
| step_barrier clock (closing : bool) mark rest st errs w :
    w_mode w = Running -> w_commands w = (if closing then CClose mark else CFlush mark) :: rest ->
    queueAll buckets maxConcurrent clock (w_loop w) = (st, errs) ->
    step w (setLoop st (Flushing closing mark errs) rest w)
| step_timer clock st errs w :
    w_mode w = Running -> l_timer (w_loop w) = true ->
    queueAll buckets maxConcurrent clock (setTimer false (w_loop w)) = (st, errs) ->
    step w (setLoop st Running (w_commands w) w)
| step_completion clock now k j reply st errs w :
    serving (w_mode w) = true -> running (w_loop w) !! k = Some j ->
    handleCompletion buckets maxConcurrent clock now j reply (finish k (w_loop w)) = (st, errs) ->
    step w (setLoop st (joinErrs (w_mode w) errs) (w_commands w) w)
| step_answer closing mark errs w :
    w_mode w = Flushing closing mark errs -> l_inFlight (w_loop w) = 0 ->
    step w (answerFlush closing mark errs w).

Definition reachable (ext : Ext) : writer -> Prop := rtc step (newWriter ext).

(** [flushAll] as one call: [answer] chooses which goroutine replies next, what it replies
    and the clock.  Every reply takes one request off the work left, which is the fuel. *)
Fixpoint collect (fuel : nat) (answer : loop -> nat * Reply * (Z -> Z) * Z) (st : loop) : loop * list callError :=
  if l_inFlight st <=? 0 then (st, [])
  else match fuel with
       | O => (st, [])
       | S fuel =>
         let '(k, reply, clock, now) := answer st in
         match running st !! (k mod length (running st))%nat with
         | None => (st, [])
         | Some j =>
           let '(st, errs) := handleCompletion buckets maxConcurrent clock now j reply
                                (finish (k mod length (running st))%nat st) in
           let '(st, errs') := collect fuel answer st in (st, errs ++ errs')
         end
       end.

Definition flushAll (clock : Z -> Z) (answer : loop -> nat * Reply * (Z -> Z) * Z) (st : loop) : loop * list callError :=
  let '(st, errs) := queueAll buckets maxConcurrent clock (stopTimer st) in
  let '(st, errs') := collect (work buckets st) answer st in (st, errs ++ errs').
End Writer.

(** ** Invariant of a writer *)

Section WriterInvariant.
Context {Item Batch Reply Ext : Type} `{!BatchWriter Item Batch Reply Ext} `{!BatchWriterLaws Item Batch Reply Ext}
  `{!ItemAdder Item Batch Ext}.
Abbreviation loop := (@loop Item Batch Ext).
Abbreviation writer := (@writer Item Batch Ext).
Variables (buckets : list Z) (maxConcurrent maxBuffered : Z).
Context `{!ItemAdderLaws Item Batch Reply Ext buckets maxConcurrent}.
Hypothesis distinct : NoDup buckets.
Hypothesis someRequests : 1 <= maxConcurrent.
Abbreviation step := (step (Reply:=Reply) buckets maxConcurrent maxBuffered).

Definition commandItems (cs : list (@command Item)) : list Item :=
  omap (fun c => match c with CItem item => Some item | _ => None end) cs.

(** Each flush or close in the queue carries the number of items sent before it. *)
Fixpoint marksFrom (n : nat) (cs : list (@command Item)) : Prop :=
  match cs with
  | [] => True
  | CItem _ :: cs => marksFrom (S n) cs
  | CFlush mark :: cs | CClose mark :: cs => mark = n /\ marksFrom n cs
  end.

Definition isClose (c : @command Item) : bool := match c with CClose _ => true | _ => false end.
Definition closing (m : mode) : bool :=
  match m with Running => false | Flushing c _ _ => c | Stopped => true end.

(** Nothing is open or in flight. *)
Definition noBatch (st : loop) : Prop := forall b, v_batch (viewOf st b) = [].

Record winv (w : writer) : Prop := {
  wi_loop : inv buckets maxConcurrent (w_loop w);
  wi_settled : settled maxConcurrent (w_loop w);
  wi_items : Forall itemOK (w_holding w ++ commandItems (w_commands w));
  wi_sent : w_sent w = offered (trace (w_loop w)) ++ commandItems (w_commands w);
  wi_marks : marksFrom (length (offered (trace (w_loop w)))) (w_commands w);
  wi_slots : w_slots w = glen (w_holding w) + glen (commandItems (w_commands w)) +
    (glen (offered (trace (w_loop w))) - glen (finished (trace (w_loop w))));
  wi_bound : w_slots w <= maxBuffered;
  wi_closed : if closing (w_mode w) then w_closed w = true /\ w_commands w = []
    else if w_closed w then exists pre mark, w_commands w = pre ++ [CClose mark] /\ existsb isClose pre = false
    else existsb isClose (w_commands w) = false;
  wi_mode : match w_mode w with
    | Running => True
    | Flushing _ mark _ => mark = length (offered (trace (w_loop w))) /\ noBatch (w_loop w)
    | Stopped => noBatch (w_loop w) /\ l_inFlight (w_loop w) = 0
    end;
}.

#[local] Arguments commandItems : simpl never.
#[local] Arguments offered : simpl never.
#[local] Arguments finished : simpl never.

Lemma offered_app (tr tr' : list (@event Item Batch)) : offered (tr ++ tr') = offered tr ++ offered tr'.
Proof. apply omap_app. Qed.
Lemma finished_app (tr tr' : list (@event Item Batch)) : finished (tr ++ tr') = finished tr ++ finished tr'.
Proof. apply omap_app. Qed.
Lemma commandItems_app cs cs' : commandItems (cs ++ cs') = commandItems cs ++ commandItems cs'.
Proof. apply omap_app. Qed.

Lemma internal_offered (evs : list (@event Item Batch)) : Forall internal evs -> offered evs = [].
Proof. induction 1 as [|e evs He Hevs IH]; [done|]. by destruct e. Qed.

Lemma marksFrom_app n cs cs' : marksFrom n (cs ++ cs') <-> marksFrom n cs /\ marksFrom (n + length (commandItems cs)) cs'.
Proof.
  revert n. induction cs as [|c cs IH]; intros n; cbn; [rewrite Nat.add_0_r; tauto|].
  destruct c; cbn; rewrite IH; [|tauto|tauto].
  change (length (commandItems (CItem item :: cs))) with (S (length (commandItems cs))).
  by rewrite Nat.add_succ_r.
Qed.

Lemma Forall_delete {A} (P : A -> Prop) k (l : list A) : Forall P l -> Forall P (delete k l).
Proof. rewrite !Forall_forall. intros H x Hx. apply H. rewrite delete_take_drop in Hx.
  apply elem_of_app in Hx as [Hx|Hx]; [by eapply elem_of_take in Hx as (? & ? & _); eapply list_elem_of_lookup_2|].
  by eapply subseteq_drop. Qed.

Lemma glen_delete {A} k (l : list A) a : l !! k = Some a -> glen (delete k l) = glen l - 1.
Proof. intros H. unfold glen. rewrite length_delete by (by eexists). apply lookup_lt_Some in H. lia. Qed.

(** The loop moved without taking an item. *)
Lemma winv_internal st m (w : writer) :
  winv w -> inv buckets maxConcurrent st -> settled maxConcurrent st -> extends (w_loop w) st ->
  closing m = closing (w_mode w) ->
  (match m with
   | Running => True
   | Flushing _ mark _ => mark = length (offered (trace (w_loop w))) /\ noBatch st
   | Stopped => noBatch st /\ l_inFlight st = 0
   end) -> winv (setLoop st m (w_commands w) w).
Proof.
  intros [Hl Hs Hi Hsent Hmk Hsl Hb Hc Hm] Hinv Hset (evs & Htr & Hint) Hcl Hmode.
  assert (Ho : offered (trace st) = offered (trace (w_loop w))).
  { by rewrite Htr, offered_app, (internal_offered evs Hint), app_nil_r. }
  assert (Hf : glen (finished (trace (w_loop w))) <= glen (finished (trace st))).
  { rewrite Htr, finished_app, glen_app. pose proof (glen_nonneg (finished evs)). lia. }
  split; cbn; try done; rewrite ?Ho; try done; [lia|lia|]. by rewrite Hcl.
Qed.

Lemma winv_acquire item (w : writer) :
  winv w -> itemOK item -> w_slots w < maxBuffered -> winv (acquire item w).
Proof.
  intros [Hl Hs Hi Hsent Hmk Hsl Hb Hc Hm] Hok Hlt. split; cbn; try done.
  - apply Forall_app in Hi as [H1 H2]. rewrite <- app_assoc. apply Forall_app. split; [done|]. by constructor.
  - rewrite glen_app, glen_cons, glen_nil. lia.
  - lia.
Qed.

Lemma winv_send k item (w : writer) :
  winv w -> w_holding w !! k = Some item -> w_closed w = false -> winv (send k item w).
Proof.
  intros [Hl Hs Hi Hsent Hmk Hsl Hb Hc Hm] Hk Hcl. rewrite Hcl in Hc.
  destruct (closing (w_mode w)) eqn:Ecl; [by destruct Hc|].
  split; cbn; try done; rewrite ?commandItems_app.
  - apply Forall_app in Hi as [H1 H2]. apply Forall_app. split; [by apply Forall_delete|].
    apply Forall_app. split; [done|]. constructor; [|done]. rewrite Forall_forall in H1. apply H1.
    by eapply list_elem_of_lookup_2.
  - by rewrite Hsent, app_assoc.
  - by apply marksFrom_app.
  - rewrite (glen_delete k _ item Hk), glen_app. change (glen (commandItems [CItem item])) with 1. lia.
  - by rewrite Ecl, Hcl, existsb_app, Hc.
Qed.

Lemma winv_refuse k item (w : writer) : winv w -> w_holding w !! k = Some item -> winv (refuse k w).
Proof.
  intros [Hl Hs Hi Hsent Hmk Hsl Hb Hc Hm] Hk. split; cbn; try done.
  - apply Forall_app in Hi as [H1 H2]. apply Forall_app. split; [by apply Forall_delete|done].
  - rewrite (glen_delete k _ item Hk). lia.
  - lia.
Qed.

Lemma winv_sendFlush (w : writer) : winv w -> w_closed w = false -> winv (sendFlush w).
Proof.
  intros [Hl Hs Hi Hsent Hmk Hsl Hb Hc Hm] Hcl. rewrite Hcl in Hc.
  destruct (closing (w_mode w)) eqn:Ecl; [by destruct Hc|].
  split; cbn; try done; rewrite ?commandItems_app; change (commandItems [CFlush (length (w_sent w))]) with (@nil Item);
    rewrite ?app_nil_r; try done.
  - apply marksFrom_app. split; [done|]. cbn. split; [|done]. by rewrite Hsent, length_app.
  - by rewrite Ecl, Hcl, existsb_app, Hc.
Qed.

Lemma winv_sendClose (w : writer) : winv w -> w_closed w = false -> winv (sendClose w).
Proof.
  intros [Hl Hs Hi Hsent Hmk Hsl Hb Hc Hm] Hcl. rewrite Hcl in Hc.
  destruct (closing (w_mode w)) eqn:Ecl; [by destruct Hc|].
  split; cbn; try done; rewrite ?commandItems_app; change (commandItems [CClose (length (w_sent w))]) with (@nil Item);
    rewrite ?app_nil_r; try done.
  - apply marksFrom_app. split; [done|]. cbn. split; [|done]. by rewrite Hsent, length_app.
  - rewrite Ecl. by eexists _, _.
Qed.

Lemma winv_item st item rest (w : writer) :
  winv w -> w_mode w = Running -> w_commands w = CItem item :: rest ->
  added buckets maxConcurrent item (w_loop w) st -> winv (setLoop st Running rest w).
Proof.
  intros [Hl Hs Hi Hsent Hmk Hsl Hb Hc Hm] Hmode Hcs [Hinv Hset (evs & Htr & Hoff)].
  rewrite Hmode, Hcs in *. cbn in Hc.
  change (commandItems (CItem item :: rest)) with (item :: commandItems rest) in *. cbn in Hmk.
  assert (Ho : offered (trace st) = offered (trace (w_loop w)) ++ [item]) by (by rewrite Htr, offered_app, Hoff).
  assert (Hf : glen (finished (trace (w_loop w))) <= glen (finished (trace st))).
  { rewrite Htr, finished_app, glen_app. pose proof (glen_nonneg (finished evs)). lia. }
  split; cbn; try done; rewrite ?Ho.
  - apply Forall_app in Hi as [H1 H2]. apply Forall_app. split; [done|]. by inversion H2.
  - by rewrite Hsent, <- app_assoc.
  - rewrite length_app. cbn. by rewrite Nat.add_1_r.
  - rewrite glen_cons in Hsl. rewrite glen_app, glen_cons, glen_nil. lia.
  - lia.
  - destruct (w_closed w); [|done]. destruct Hc as (pre & mark & E & Hpre).
    destruct pre as [|c pre]; [done|]. injection E as <- ->. by eexists _, _.
Qed.

Lemma winv_barrier st errs (cl : bool) mark rest (w : writer) :
  winv w -> w_mode w = Running -> w_commands w = (if cl then CClose mark else CFlush mark) :: rest ->
  inv buckets maxConcurrent st -> settled maxConcurrent st -> extends (w_loop w) st -> noBatch st ->
  winv (setLoop st (Flushing cl mark errs) rest w).
Proof.
  intros [Hl Hs Hi Hsent Hmk Hsl Hb Hc Hm] Hmode Hcs Hinv Hset (evs & Htr & Hint) Hnb.
  rewrite Hmode, Hcs in *. cbn in Hc.
  assert (Ho : offered (trace st) = offered (trace (w_loop w))).
  { by rewrite Htr, offered_app, (internal_offered evs Hint), app_nil_r. }
  assert (Hf : glen (finished (trace (w_loop w))) <= glen (finished (trace st))).
  { rewrite Htr, finished_app, glen_app. pose proof (glen_nonneg (finished evs)). lia. }
  assert (Hci : commandItems ((if cl then CClose mark else CFlush mark) :: rest) = commandItems rest) by (by destruct cl).
  assert (Hmk' : mark = length (offered (trace (w_loop w))) /\ marksFrom (length (offered (trace (w_loop w)))) rest)
    by (by destruct cl).
  destruct Hmk' as [Hmark Hmarks]. rewrite Hci in *.
  split; cbn; try done; rewrite ?Ho; try done; [lia|lia|].
  destruct cl; cbn in Hc |- *.
  - destruct (w_closed w); [|done]. destruct Hc as (pre & mark' & E & Hpre). split; [done|].
    destruct pre as [|c pre]; [by injection E|]. injection E as <- ->. done.
  - destruct (w_closed w); [|done]. destruct Hc as (pre & mark' & E & Hpre).
    destruct pre as [|c pre]; [done|]. injection E as <- ->. by eexists _, _.
Qed.

Lemma noBatch_same (st st' : loop) : l_batches st' = l_batches st -> noBatch st -> noBatch st'.
Proof. intros E H b. specialize (H b). cbn in *. by rewrite E. Qed.

Lemma winv_answer cl mark errs (w : writer) :
  winv w -> w_mode w = Flushing cl mark errs -> l_inFlight (w_loop w) = 0 -> winv (answerFlush cl mark errs w).
Proof.
  intros [Hl Hs Hi Hsent Hmk Hsl Hb Hc Hm] Hmode Hz. rewrite Hmode in *. cbn in Hc. destruct Hm as [Hmark Hnb].
  split; cbn; try done; destruct cl; done.
Qed.

(** Every step keeps the invariant. *)
Lemma winv_step (w w' : writer) : winv w -> step w w' -> winv w'.
Proof.
  intros Hw Hstep. pose proof (wi_loop _ Hw) as Hl. pose proof (wi_settled _ Hw) as Hs.
  destruct Hstep as [item w Hok Hlt|k item w Hk Hcl Hlen|k item w Hk|w Hcl Hlen|w Hcl Hlen
    |clock item rest st w Hm Hcs Hadd|clock cl mark rest st errs w Hm Hcs Hq|clock st errs w Hm Ht Hq
    |clock now k j reply st errs w Hm Hk Hc|cl mark errs w Hm Hz].
  - by apply winv_acquire.
  - by eapply winv_send.
  - by eapply winv_refuse.
  - by apply winv_sendFlush.
  - by apply winv_sendClose.
  - assert (Hok : itemOK item).
    { pose proof (wi_items _ Hw) as Hi. rewrite Hcs in Hi. apply Forall_app in Hi as [_ Hi]. by inversion Hi. }
    destruct (addItem_spec clock item (w_loop w) Hl Hs Hok) as (st' & E & Ha). rewrite Hadd in E. injection E as <-.
    by apply (winv_item st item).
  - pose proof (queueAll_spec buckets maxConcurrent distinct clock (w_loop w) Hl Hs) as (H1 & H2 & H3 & _ & _ & H6).
    rewrite Hq in *. by eapply winv_barrier.
  - pose proof (queueAll_spec buckets maxConcurrent distinct clock (setTimer false (w_loop w))
      (inv_timer _ _ _ _ Hl) Hs) as (H1 & H2 & H3 & _ & _ & H6). rewrite Hq in *.
    apply winv_internal; try done. by rewrite Hm.
  - pose proof (handleCompletion_spec buckets maxConcurrent distinct clock now k j reply (w_loop w) Hl Hk) as [H1 H2 H3 H4 H5 H6].
    rewrite Hc in *. pose proof (wi_mode _ Hw) as Hmode.
    apply winv_internal; try done; destruct (w_mode w); try done.
    destruct Hmode as [Hmark Hnb]. split; [done|]. by eapply noBatch_same.
  - by eapply winv_answer.
Qed.

Lemma winv_new ext : extOK ext ∅ -> 0 <= maxBuffered -> winv (newWriter ext).
Proof.
  intros Hx Hb. split; try done.
  - by apply inv_empty; [lia|].
  - apply settled_empty.
Qed.

Lemma winv_reachable ext (w : writer) : extOK ext ∅ -> 0 <= maxBuffered ->
  reachable (Reply:=Reply) buckets maxConcurrent maxBuffered ext w -> winv w.
Proof.
  intros Hx Hb. unfold reachable. pose proof (winv_new ext Hx Hb) as H0. revert H0. generalize (newWriter (Item:=Item) (Batch:=Batch) ext).
  intros w0 H0 Hr. induction Hr as [|w0 w1 w2 Hstep Hr IH]; [done|]. apply IH. by eapply winv_step.
Qed.

(** ** What holds of every reachable writer *)

(** Nothing open and nothing in flight: everything accepted is completed. *)
Lemma drained_completed (st : loop) :
  inv buckets maxConcurrent st -> settled maxConcurrent st -> noBatch st -> l_inFlight st = 0 ->
  forall b, completedItems (at_ b (trace st)) = acceptedItems (at_ b (trace st)).
Proof.
  intros Hinv Hset Hnb Hz b. pose proof (inv_good _ _ _ Hinv b) as Hg. pose proof (good_account _ Hg) as Hacc.
  assert (Hr : running st = []).
  { pose proof (inv_inFlight _ _ _ Hinv) as H. apply glen_0_nil. lia. }
  assert (Hj : v_jobs (viewOf st b) = []) by (cbn; by rewrite Hr).
  assert (Hp : v_pending (viewOf st b) = []).
  { destruct Hset as [Hset|Hset]; [lia|]. cbn. destruct (pendingOf st b) eqn:Ep; [done|]. exfalso.
    assert (b ∈ l_active st) as Ha by (apply Hset; by rewrite Ep).
    destruct (good_active _ Hg) as [[_ Hf]|(j & Hj' & _)]; [|by rewrite Hj in Hj'].
    cbn in Hf. by apply bool_decide_eq_false in Hf. }
  rewrite Hj, Hp, (Hnb b) in Hacc. cbn in Hacc. by rewrite !app_nil_r in Hacc.
Qed.

(** A flush is answered when everything sent before it is completed. *)
Lemma flush_barrier_aux cl mark errs (w : writer) :
  winv w -> w_mode w = Flushing cl mark errs -> l_inFlight (w_loop w) = 0 ->
  offered (trace (w_loop w)) = take mark (w_sent w) /\
  forall b, completedItems (at_ b (trace (w_loop w))) = acceptedItems (at_ b (trace (w_loop w))).
Proof.
  intros Hw Hm Hz. pose proof (wi_mode _ Hw) as H. rewrite Hm in H. destruct H as [Hmark Hnb].
  split; [by rewrite (wi_sent _ Hw), Hmark, take_app_length|].
  apply drained_completed; [by apply wi_loop|by apply wi_settled|done|done].
Qed.

(** Once stopped the loop serves no more: the queue is empty, everything sent is completed. *)
Lemma stopped_drained (w : writer) :
  winv w -> w_mode w = Stopped ->
  w_commands w = [] /\ w_closed w = true /\ offered (trace (w_loop w)) = w_sent w /\
  (forall b, completedItems (at_ b (trace (w_loop w))) = acceptedItems (at_ b (trace (w_loop w)))).
Proof.
  intros Hw Hm. pose proof (wi_closed _ Hw) as Hc. pose proof (wi_mode _ Hw) as H. rewrite Hm in Hc, H.
  destruct Hc as [Hcl Hcs]. destruct H as [Hnb Hz]. split; [done|]. split; [done|]. split.
  - rewrite (wi_sent _ Hw), Hcs. change (commandItems []) with (@nil Item). by rewrite app_nil_r.
  - apply drained_completed; [by apply wi_loop|by apply wi_settled|done|done].
Qed.

(** A loop with something to do can do it: the next command is served, and inside [flushAll]
    a goroutine is there to be waited for or the barrier is answered. *)
Lemma loop_progress (w : writer) :
  winv w -> (w_mode w = Running /\ w_commands w <> []) \/ (exists cl mark errs, w_mode w = Flushing cl mark errs) ->
  (exists j, running (w_loop w) !! 0%nat = Some j) \/ exists w', step w w' /\
    (w_mode w = Running -> w_commands w' = tail (w_commands w)).
Proof.
  intros Hw [[Hm Hne]|(cl & mark & errs & Hm)].
  - right. destruct (w_commands w) as [|c rest] eqn:Hcs; [done|].
    assert (Hbar : forall (cl : bool) mark, c = (if cl then CClose mark else CFlush mark) ->
      exists w', step w w' /\ (w_mode w = Running -> w_commands w' = rest)).
    { intros cl mark ->. destruct (queueAll buckets maxConcurrent (fun _ => 0) (w_loop w)) as [st errs] eqn:E.
      eexists. split; [by eapply (step_barrier _ _ _ (fun _ => 0) cl mark)|done]. }
    destruct c as [item|mark|mark]; [|by apply (Hbar false mark)|by apply (Hbar true mark)].
    pose proof (wi_items _ Hw) as Hi. rewrite Hcs in Hi. apply Forall_app in Hi as [_ Hi].
    assert (Hok : itemOK item) by (by inversion Hi).
    destruct (addItem_spec (fun _ => 0) item (w_loop w) (wi_loop _ Hw) (wi_settled _ Hw) Hok) as (st & E & _).
    eexists. split; [by eapply step_item|done].
  - destruct (running (w_loop w)) as [|j js] eqn:Hr; [|left; by exists j]. right.
    eexists. split; [eapply step_answer; [done|]|by rewrite Hm].
    by rewrite (inv_inFlight _ _ _ (wi_loop _ Hw)), Hr.
Qed.

(** ** Termination of [flushAll] *)

Lemma collect_spec answer fuel : forall (st : loop),
  inv buckets maxConcurrent st -> settled maxConcurrent st -> noBatch st -> (work buckets st <= fuel)%nat ->
  let st' := (collect buckets maxConcurrent fuel answer st).1 in
  inv buckets maxConcurrent st' /\ settled maxConcurrent st' /\ noBatch st' /\ l_inFlight st' = 0 /\ extends st st'.
Proof.
  induction fuel as [|fuel IH]; intros st Hinv Hset Hnb Hw; cbn [collect].
  all: pose proof (inv_inFlight _ _ _ Hinv) as Hf; pose proof (glen_nonneg (running st)) as Hn.
  all: destruct (Z.leb_spec (l_inFlight st) 0) as [Hz|Hz];
    [cbn; repeat (split; [done|]); split; [lia|reflexivity]|].
  { exfalso. unfold work in Hw. unfold glen in Hf. lia. }
  destruct (answer st) as [[[k reply] clock] now].
  assert (Hlen : length (running st) <> 0%nat) by (unfold glen in Hf; lia).
  destruct (running st !! (k mod length (running st))%nat) as [j|] eqn:Hk.
  2:{ exfalso. apply lookup_ge_None in Hk. pose proof (Nat.mod_upper_bound k (length (running st)) Hlen). lia. }
  destruct (handleCompletion _ _ _ _ _ _ _) as [st1 errs] eqn:E.
  pose proof (handleCompletion_spec buckets maxConcurrent distinct clock now _ j reply st Hinv Hk) as [H1 H2 H3 H4 H5 H6].
  rewrite E in *. cbn [fst] in *.
  specialize (IH st1 H1 H2 (noBatch_same _ _ H5 Hnb) ltac:(lia)).
  destruct (collect _ _ fuel answer st1) as [st2 errs2]. cbn in *.
  destruct IH as (I1 & I2 & I3 & I4 & I5). repeat (split; [done|]). by transitivity st1.
Qed.

(** [flushAll] returns, whatever the servers answer and in whatever order, and then nothing
    is open or in flight. *)
Lemma flushAll_spec clock answer (st : loop) :
  inv buckets maxConcurrent st -> settled maxConcurrent st ->
  let st' := (flushAll buckets maxConcurrent clock answer st).1 in
  inv buckets maxConcurrent st' /\ settled maxConcurrent st' /\ l_inFlight st' = 0 /\
  offered (trace st') = offered (trace st) /\
  forall b, completedItems (at_ b (trace st')) = acceptedItems (at_ b (trace st')).
Proof.
  intros Hinv Hset. unfold flushAll.
  pose proof (queueAll_spec buckets maxConcurrent distinct clock (stopTimer st) (inv_timer _ _ _ _ Hinv) Hset)
    as (H1 & H2 & H3 & _ & _ & H6).
  destruct (queueAll _ _ _ _) as [st1 errs]. cbn [fst] in *.
  pose proof (collect_spec answer (work buckets st1) st1 H1 H2 H6 ltac:(lia)) as (I1 & I2 & I3 & I4 & I5).
  destruct (collect _ _ _ _ st1) as [st2 errs2]. cbn [fst] in *.
  repeat (split; [done|]). split.
  - destruct I5 as (e2 & T2 & F2), H3 as (e1 & T1 & F1). rewrite T2, T1.
    rewrite !offered_app, (internal_offered e1 F1), (internal_offered e2 F2). by rewrite !app_nil_r.
  - by apply drained_completed.
Qed.
End WriterInvariant.
