(* ===== verification/WriterRun.v ===== *)
(** * Runs of a writer

    Executable steps of the command loop of [WriterLoop], for building the concrete runs at
    which the theorems of the two writers are applied. *)

From S2P Require Import Prelude Errors Scheduler WriterLoop.

Section Runs.
Context {Item Batch Reply Ext : Type} `{!BatchWriter Item Batch Reply Ext} `{!ItemAdder Item Batch Ext}.
Variables (buckets : list Z) (maxConcurrent maxBuffered : Z).
Abbreviation state := (@writer Item Batch Ext).
Abbreviation stepOf := (step (Reply:=Reply) buckets maxConcurrent maxBuffered).

(** Whether the first command of a running loop can be served. *)
Definition servable (w : state) : bool :=
  match w_commands w with
  | [] => false
  | CItem item :: _ => match addItem (fun _ => 0) item (w_loop w) with Ok _ => true | _ => false end
  | _ => true
  end.

(** Serves it. *)
Definition serve (w : state) : state :=
  match w_commands w with
  | CItem item :: rest =>
    match addItem (fun _ => 0) item (w_loop w) with Ok st => setLoop st Running rest w | _ => w end
  | CFlush mark :: rest =>
    let '(st, errs) := queueAll buckets maxConcurrent (fun _ => 0) (w_loop w) in
    setLoop st (Flushing false mark errs) rest w
  | CClose mark :: rest =>
    let '(st, errs) := queueAll buckets maxConcurrent (fun _ => 0) (w_loop w) in
    setLoop st (Flushing true mark errs) rest w
  | [] => w
  end.

(** The first goroutine replies. *)
Definition answerFirst (reply : Reply) (w : state) : state :=
  match running (w_loop w) with
  | j :: _ =>
    let '(st, errs) := handleCompletion buckets maxConcurrent (fun _ => 0) 0 j reply (finish 0 (w_loop w)) in
    setLoop st (joinErrs (w_mode w) errs) (w_commands w) w
  | [] => w
  end.

(** A caller takes a slot and sends. *)
Definition submit (item : Item) (w : state) : state := send 0 item (acquire item w).

Lemma step_serve (w : state) : w_mode w = Running -> servable w = true -> stepOf w (serve w).
Proof.
  unfold serve, servable. intros Hm Hc. destruct (w_commands w) as [|[item|mark|mark] rest] eqn:E; [done|..].
  - destruct (addItem _ _ _) as [st| | |] eqn:A; try done. by eapply step_item.
  - destruct (queueAll _ _ _ _) as [st errs] eqn:Q. by eapply (step_barrier _ _ _ (fun _ => 0) false).
  - destruct (queueAll _ _ _ _) as [st errs] eqn:Q. by eapply (step_barrier _ _ _ (fun _ => 0) true).
Qed.

Lemma step_answerFirst reply (w : state) :
  serving (w_mode w) = true -> running (w_loop w) <> [] -> stepOf w (answerFirst reply w).
Proof.
  intros Hm Hr. unfold answerFirst. destruct (running (w_loop w)) as [|j js] eqn:E; [done|].
  destruct (handleCompletion _ _ _ _ _ _ _) as [st errs] eqn:H.
  eapply (step_completion _ _ _ (fun _ => 0) 0 0%nat j); [done|by rewrite E|done].
Qed.

Lemma step_submit item (w : state) :
  itemOK item -> w_slots w < maxBuffered -> w_holding w = [] -> w_closed w = false ->
  glen (w_commands w) < maxBuffered -> rtc stepOf w (submit item w).
Proof.
  intros Hb Hs Hh Hc Hl. apply (rtc_l _ _ (acquire item w)); [by apply step_acquire|]. apply rtc_once.
  apply step_send; cbn; [by rewrite Hh|done|done].
Qed.
End Runs.

(** Discharges the conditions of the steps by evaluation. *)
Ltac run := vm_compute; first [ reflexivity | intros [=] ].
