(* ===== verification/KVWriter.v ===== *)
(** * The primary-key writer

    Models [pkg/fgo/kv_writer.go], [pkg/fgo/upsert_writer_options.go] and the reply handling of
    [pkg/fgo/upsert_writer_backend.go]: configuration, the mutations a caller makes, batching by
    bucket and target columns, the request of a batch, and the throttling by storage pressure.
    The scheduler and the command loop are those of [Scheduler] and [WriterLoop]; this file
    implements their interfaces and states their theorems for the primary-key writer. *)

From Stdlib Require Import SpecFloat.
From Stdlib Require Import Ascii.
From stdpp Require Import pretty.
From S2P Require Import Prelude Model Wire Values Codec Bucket RecordBatch Errors WriterRetry Partition Scheduler WriterLoop.

(** ** Configuration *)

(** Durations are nanoseconds. *)
Record UpsertWriterConfig := MkUpsertWriterConfig {
  uc_MaxBatchBytes : Z;
  uc_MaxBatchRecords : Z;
  uc_MaxBuffered : Z;
  uc_MaxConcurrentRequests : Z;
  uc_BatchTimeout : Z;
  uc_RequestTimeout : Z;
  uc_Acks : Z;
  uc_RetryPolicy : WriterRetryPolicy;
  uc_BackpressureMaxThrottle : Z;
  uc_Partition : string;
  uc_MergeMode : Z;
}.

Definition MergeModeDefault : Z := 0.
Definition MergeModeOverwrite : Z := 1.
Definition MergeMode_valid (m : Z) : bool := (m =? MergeModeDefault) || (m =? MergeModeOverwrite).

Definition UpsertWriterOption : Type := UpsertWriterConfig -> outcome UpsertWriterConfig.

Definition WithUpsertMergeMode (mode : Z) : UpsertWriterOption := fun c =>
  if negb (MergeMode_valid mode) then Err ErrInvalidConfig
  else Ok (MkUpsertWriterConfig (uc_MaxBatchBytes c) (uc_MaxBatchRecords c) (uc_MaxBuffered c)
    (uc_MaxConcurrentRequests c) (uc_BatchTimeout c) (uc_RequestTimeout c) (uc_Acks c) (uc_RetryPolicy c)
    (uc_BackpressureMaxThrottle c) (uc_Partition c) mode).

Definition WithUpsertBatchLimits (bytes records : Z) : UpsertWriterOption := fun c =>
  if (bytes <=? kvBatchHeaderSize) || (maxRowBytes <? bytes) || (records <=? 0) then Err ErrInvalidConfig
  else Ok (MkUpsertWriterConfig bytes records (uc_MaxBuffered c)
    (uc_MaxConcurrentRequests c) (uc_BatchTimeout c) (uc_RequestTimeout c) (uc_Acks c) (uc_RetryPolicy c)
    (uc_BackpressureMaxThrottle c) (uc_Partition c) (uc_MergeMode c)).

Definition WithUpsertBuffer (records : Z) : UpsertWriterOption := fun c =>
  if records <=? 0 then Err ErrInvalidConfig
  else Ok (MkUpsertWriterConfig (uc_MaxBatchBytes c) (uc_MaxBatchRecords c) records
    (uc_MaxConcurrentRequests c) (uc_BatchTimeout c) (uc_RequestTimeout c) (uc_Acks c) (uc_RetryPolicy c)
    (uc_BackpressureMaxThrottle c) (uc_Partition c) (uc_MergeMode c)).

Definition WithUpsertConcurrency (requests : Z) : UpsertWriterOption := fun c =>
  if (requests <? 1) || (64 <? requests) then Err ErrInvalidConfig
  else Ok (MkUpsertWriterConfig (uc_MaxBatchBytes c) (uc_MaxBatchRecords c) (uc_MaxBuffered c)
    requests (uc_BatchTimeout c) (uc_RequestTimeout c) (uc_Acks c) (uc_RetryPolicy c)
    (uc_BackpressureMaxThrottle c) (uc_Partition c) (uc_MergeMode c)).

Definition WithUpsertBatchTimeout (timeout : Z) : UpsertWriterOption := fun c =>
  if timeout <? 0 then Err ErrInvalidConfig
  else Ok (MkUpsertWriterConfig (uc_MaxBatchBytes c) (uc_MaxBatchRecords c) (uc_MaxBuffered c)
    (uc_MaxConcurrentRequests c) timeout (uc_RequestTimeout c) (uc_Acks c) (uc_RetryPolicy c)
    (uc_BackpressureMaxThrottle c) (uc_Partition c) (uc_MergeMode c)).

Definition WithUpsertRequest (timeout acks : Z) : UpsertWriterOption := fun c =>
  if (timeout <=? 0) || (2147483647 <? Z.quot timeout nsMillisecond)
     || (negb (acks =? 0) && negb (acks =? 1) && negb (acks =? -1)) then Err ErrInvalidConfig
  else Ok (MkUpsertWriterConfig (uc_MaxBatchBytes c) (uc_MaxBatchRecords c) (uc_MaxBuffered c)
    (uc_MaxConcurrentRequests c) (uc_BatchTimeout c) timeout acks (uc_RetryPolicy c)
    (uc_BackpressureMaxThrottle c) (uc_Partition c) (uc_MergeMode c)).

Definition WithUpsertRetryPolicy (policy : WriterRetryPolicy) : UpsertWriterOption := fun c =>
  Ok (MkUpsertWriterConfig (uc_MaxBatchBytes c) (uc_MaxBatchRecords c) (uc_MaxBuffered c)
    (uc_MaxConcurrentRequests c) (uc_BatchTimeout c) (uc_RequestTimeout c) (uc_Acks c) policy
    (uc_BackpressureMaxThrottle c) (uc_Partition c) (uc_MergeMode c)).

Definition WithUpsertBackpressureMaxThrottle (maximum : Z) : UpsertWriterOption := fun c =>
  if (maximum <? 0) || (nsMinute <? maximum) then Err ErrInvalidConfig
  else Ok (MkUpsertWriterConfig (uc_MaxBatchBytes c) (uc_MaxBatchRecords c) (uc_MaxBuffered c)
    (uc_MaxConcurrentRequests c) (uc_BatchTimeout c) (uc_RequestTimeout c) (uc_Acks c) (uc_RetryPolicy c)
    maximum (uc_Partition c) (uc_MergeMode c)).

Definition WithUpsertPartition (partition : string) : UpsertWriterOption := fun c =>
  _ ← PhysicalTablePath_Validate (MkPhysicalTablePath (MkTablePath "d" "t") partition);
  Ok (MkUpsertWriterConfig (uc_MaxBatchBytes c) (uc_MaxBatchRecords c) (uc_MaxBuffered c)
    (uc_MaxConcurrentRequests c) (uc_BatchTimeout c) (uc_RequestTimeout c) (uc_Acks c) (uc_RetryPolicy c)
    (uc_BackpressureMaxThrottle c) partition (uc_MergeMode c)).

Definition WithUpsertPartitionSpec (s : Schema) (spec : PartitionSpec) : UpsertWriterOption := fun c =>
  partition ← PartitionName s spec;
  Ok (MkUpsertWriterConfig (uc_MaxBatchBytes c) (uc_MaxBatchRecords c) (uc_MaxBuffered c)
    (uc_MaxConcurrentRequests c) (uc_BatchTimeout c) (uc_RequestTimeout c) (uc_Acks c) (uc_RetryPolicy c)
    (uc_BackpressureMaxThrottle c) partition (uc_MergeMode c)).

Definition defaultUpsertWriterConfig : UpsertWriterConfig :=
  MkUpsertWriterConfig (Z.shiftl 1 20) 1000 10000 4 (5 * nsMillisecond) (30 * nsSecond) (-1)
    defaultWriterRetryPolicy nsSecond "" MergeModeDefault.

(** The option loop; a nil option is [None]. *)
Fixpoint applyUpsertOptions (options : list (option UpsertWriterOption)) (c : UpsertWriterConfig)
    : outcome UpsertWriterConfig :=
  match options with
  | [] => Ok c
  | None :: _ => Err ErrInvalidConfig
  | Some option :: options => c ← option c; applyUpsertOptions options c
  end.

Definition upsertWriterConfig (options : list (option UpsertWriterOption)) : outcome UpsertWriterConfig :=
  config ← applyUpsertOptions options defaultUpsertWriterConfig;
  _ ← validateWriterRetryPolicy (uc_RetryPolicy config) (uc_Acks config);
  Ok config.

(** ** Opening a writer *)

Definition validateUpsertWriterTable (table : Table) : outcome unit :=
  _ ← RequirePrimaryKey table;
  _ ← Schema_Validate (tab_Schema table);
  _ ← check (negb ((tab_SchemaID table <? 0) || (32767 <? tab_SchemaID table))) ErrInvalidSchema;
  _ ← check (negb (glen (sch_PrimaryKey (tab_Schema table)) =? 0)) ErrInvalidSchema;
  check (forallb (fun name => bool_decide (name ∈ sch_PrimaryKey (tab_Schema table)))
           (sch_BucketKey (tab_Schema table))) ErrInvalidSchema.

Record UpsertWriter := MkUpsertWriter {
  uw_table : Table;
  uw_path : PhysicalTablePath;
  uw_config : UpsertWriterConfig;
  uw_tableID : Z;
  uw_partitionID : Z;
  uw_writerID : Z;
  uw_buckets : list Z;
}.

(** [upsertWriterBackend]: the calls to the cluster a new writer makes. *)
Record upsertBackend := MkUpsertBackend {
  ub_ensurePartition : PhysicalTablePath -> list string -> outcome unit;
  ub_metadata : PhysicalTablePath -> outcome (Z * gmap Z ServerNode);
  ub_initWriter : PhysicalTablePath -> Z -> outcome Z;
}.

Definition newUpsertWriter (backend : upsertBackend) (table : Table) (options : list (option UpsertWriterOption))
    : outcome UpsertWriter :=
  _ ← validateUpsertWriterTable table;
  config ← upsertWriterConfig options;
  _ ← check (negb ((uc_MergeMode config =? MergeModeOverwrite) &&
         match tab_Properties table with
         | None => false
         | Some properties =>
           bool_decide (TrimSpace (default "" (properties !! "table.merge-engine")) = "")%string
         end)) ErrInvalidConfig;
  let path := MkPhysicalTablePath (tab_Path table) (uc_Partition config) in
  _ ← ub_ensurePartition backend path (sch_PartitionKey (tab_Schema table));
  '(physicalID, locations) ← ub_metadata backend path;
  _ ← check (negb (bool_decide (pp_Partition path = ""%string) && negb (physicalID =? tab_ID table))) ErrMetadata;
  buckets ← sortedBuckets locations;
  first ← index buckets 0;
  writerID ← ub_initWriter backend path first;
  Ok (MkUpsertWriter table path config (tab_ID table)
        (if bool_decide (pp_Partition path = ""%string) then -1 else physicalID) writerID buckets).

(** ** Mutations *)

(** A caller's context: [None] when nil, otherwise what [ctx.Err()] answers when the loop takes
    the mutation. *)
Abbreviation Context_ := (option (option callError)).

(** The future is its identity. *)
Record pendingKVWrite := MkPendingKVWrite {
  pk_future : nat;
  pk_ctxErr : option callError;
  pk_record : KVRecord;
  pk_bucket : Z;
  pk_targets : list Z;
  pk_size : Z;
}.

(** [for index, column := range s.Columns { positions[column.Name] = index }] *)
Definition columnPositions (s : Schema) : gmap string Z :=
  foldl (fun m '(i, column) => <[col_Name column := i]> m) ∅ (zip (seqZ 0 (glen (sch_Columns s))) (sch_Columns s)).

(** A missing key reads as zero. *)
Definition positionOf (s : Schema) (name : string) : Z := default 0 (columnPositions s !! name).

Fixpoint rowValuesLoop (row : Row) (i : Z) (columns : list string) (values : gmap string GoValue)
    : outcome (gmap string GoValue) :=
  match columns with
  | [] => Ok values
  | name :: columns => v ← index row i; rowValuesLoop row (i + 1) columns (<[name := v]> values)
  end.

Definition rowValues (s : Schema) (row : Row) (columns : list string) : outcome (gmap string GoValue) :=
  rowValuesLoop row 0 (match columns with [] => selectedColumns s [] | _ => columns end) ∅.

Definition namedKey (values : gmap string GoValue) (names : list string) : PrimaryKey :=
  map (fun name => default VNil (values !! name)) names.

(** [enqueueMutation] up to [enqueue]: the item that is sent, or the error its future gets. *)
Definition enqueueMutation (w : UpsertWriter) (ctxErr : option callError) (values : gmap string GoValue)
    (value : option (list byte)) (targets : list Z) (future : nat) : outcome pendingKVWrite :=
  let s := tab_Schema (uw_table w) in
  key ← EncodePrimaryKey s (namedKey values (sch_PrimaryKey s));
  let bucketNames := match sch_BucketKey s with [] => sch_PrimaryKey s | names => names end in
  bucketKey ← encodeKeyColumns s bucketNames (namedKey values bucketNames);
  hashBucket ← flussBucket bucketKey (glen (uw_buckets w));
  bucket ← index (uw_buckets w) hashBucket;
  Ok (MkPendingKVWrite future ctxErr (MkKVRecord key value) bucket targets
        (glen key + glen (default [] value) + 8)).

Definition Upsert (w : UpsertWriter) (ctx : Context_) (row : Row) (future : nat) : outcome pendingKVWrite :=
  let s := tab_Schema (uw_table w) in
  match ctx with
  | None => Err ErrInvalidConfig
  | Some ctxErr =>
    _ ← check (glen (sch_AutoIncrement s) =? 0) ErrInvalidRow;
    _ ← ValidateRow s row [];
    value ← EncodeCompactedRow s row;
    values ← rowValues s row [];
    enqueueMutation w ctxErr values (Some value) [] future
  end.

(** The three loops of [validatePartialSelection]. *)
Definition validatePartialSelection (s : Schema) (selected : gset string) : outcome unit :=
  _ ← check (forallb (fun name => bool_decide (name ∈ selected)) (sch_PrimaryKey s)) ErrInvalidRow;
  _ ← check (forallb (fun name => negb (bool_decide (name ∈ selected))) (sch_AutoIncrement s)) ErrInvalidRow;
  check (forallb (fun column =>
    negb (negb (bool_decide (col_Name column ∈ selected)) && negb (col_Nullable column)
          && negb (bool_decide (col_Name column ∈ sch_PrimaryKey s))
          && negb (bool_decide (col_Name column ∈ sch_AutoIncrement s)))) (sch_Columns s)) ErrInvalidRow.

Fixpoint partialTargets (s : Schema) (columns : list string) (selected : gset string)
    : outcome (list Z * gset string) :=
  match columns with
  | [] => Ok ([], selected)
  | name :: columns =>
    if decide (name ∈ selected) then Err ErrInvalidRow
    else
      '(targets, selected) ← partialTargets s columns ({[name]} ∪ selected);
      Ok (int32 (positionOf s name) :: targets, selected)
  end.

Definition validatePartial (s : Schema) (columns : list string) (values : Row) : outcome (list Z) :=
  _ ← check (negb ((glen columns =? 0) || negb (glen columns =? glen values))) ErrInvalidRow;
  _ ← ValidateRow s values columns;
  '(targets, selected) ← partialTargets s columns ∅;
  _ ← validatePartialSelection s selected;
  Ok targets.

(** [full[positions[column]] = values[index]] for every named column. *)
Fixpoint fillRow (s : Schema) (columns : list string) (values : Row) (full : Row) : outcome Row :=
  match columns, values with
  | [], _ => Ok full
  | _ :: _, [] => Panic
  | name :: columns, v :: values => full ← set_index full (positionOf s name) v; fillRow s columns values full
  end.

Definition PartialUpsert (w : UpsertWriter) (ctx : Context_) (columns : list string) (values : Row) (future : nat)
    : outcome pendingKVWrite :=
  let s := tab_Schema (uw_table w) in
  match ctx with
  | None => Err ErrInvalidConfig
  | Some ctxErr =>
    targets ← validatePartial s columns values;
    full ← fillRow s columns values (replicate (length (sch_Columns s)) VNil);
    value ← EncodeCompactedRow s full;
    named ← rowValues s values columns;
    enqueueMutation w ctxErr named (Some value) targets future
  end.

Definition DeleteKey (w : UpsertWriter) (ctx : Context_) (key : PrimaryKey) (future : nat) : outcome pendingKVWrite :=
  let s := tab_Schema (uw_table w) in
  match ctx with
  | None => Err ErrInvalidConfig
  | Some ctxErr =>
    _ ← ValidatePrimaryKey s key;
    values ← rowValuesLoop key 0 (sch_PrimaryKey s) ∅;
    enqueueMutation w ctxErr values None [] future
  end.

(** ** Batches *)

Record kvPendingBatch := MkKVPendingBatch {
  kp_items : list pendingKVWrite;
  kp_records : list KVRecord;
  kp_targets : list Z;
  kp_bytes : Z;
}.

(** [strconv.FormatInt] and a comma for each target. *)
Fixpoint targetKey (targets : list Z) : string :=
  match targets with
  | [] => ""
  | target :: targets => (pretty target +:+ "," +:+ targetKey targets)%string
  end.

Definition completeKVBatch (batch : kvPendingBatch) (bucket logEnd : Z) (offsetKnown : bool) (pressure : Z)
    (pressureKnown : bool) (err : option callError) : list (pendingKVWrite * WriteResult) :=
  let first := if offsetKnown then int64 (logEnd - glen (kp_items batch)) else 0 in
  imap (fun i item => (item, MkWriteResult bucket (int64 (first + Z.of_nat i)) offsetKnown 1 pressure pressureKnown err))
    (kp_items batch).

(** ** Storage pressure *)

(** The float32 with these bits, as an exact binary value. *)
Definition float32Bits (bits : Z) : spec_float :=
  let sign := Z.testbit bits 31 in
  let exponent := Z.land (Z.shiftr bits 23) 255 in
  let mantissa := Z.land bits (2 ^ 23 - 1) in
  if exponent =? 255 then (if mantissa =? 0 then S754_infinity sign else S754_nan)
  else if exponent =? 0 then
    match mantissa with Zpos m => S754_finite sign m (-149) | _ => S754_zero sign end
  else S754_finite sign (Z.to_pos (mantissa + 2 ^ 23)) (exponent - 150).

(** [float64(x)] of a float32 is exact. *)
Definition toFloat64 (f : spec_float) : spec_float :=
  match f with
  | S754_finite s m e => binary_normalize 53 1024 (if s then Zneg m else Zpos m) e s
  | _ => f
  end.

(** [time.Duration(f)]: truncation; the callers' values are finite. *)
Definition truncFloat (f : spec_float) : Z :=
  match f with
  | S754_finite s m e =>
    let z := if s then Zneg m else Zpos m in
    if 0 <=? e then z * 2 ^ e else Z.quot z (2 ^ (- e))
  | _ => 0
  end.

Definition pressurePositive (bits : Z) : bool :=
  match float32Bits bits with S754_finite false _ _ | S754_infinity false => true | _ => false end.

(** [time.Duration(float64(max) * float64(p) * float64(p))] *)
Definition pressureDelay (maximum pressure : Z) : Z :=
  let p := toFloat64 (float32Bits pressure) in
  truncFloat (SFmul 53 1024 (SFmul 53 1024 (binary_normalize 53 1024 maximum 0 false) p) p).

(** ** The writer's scheduler *)

(** What [executeBatch] sends back. *)
Record kvReply := MkKVReply {
  kr_logEnd : Z;
  kr_offsetKnown : bool;
  kr_pressure : Z;
  kr_pressureKnown : bool;
  kr_err : option callError;
}.

(** [throttle]: until when a bucket's requests are delayed. *)
Abbreviation throttle := (gmap Z Z).

(** [delay := time.Until(l.throttle[bucket])], with the entry dropped once it is past. *)
Definition throttleDelay (clock : Z -> Z) (bucket : Z) (until : throttle) : throttle * Z :=
  match until !! bucket with
  | None => (delete bucket until, 0)
  | Some deadline =>
    let delay := deadline - clock bucket in
    if delay <=? 0 then (delete bucket until, 0) else (until, delay)
  end.

Definition updateThrottle (maximum now bucket : Z) (reply : kvReply) (until : throttle) : throttle :=
  if kr_pressureKnown reply && pressurePositive (kr_pressure reply) && (0 <? maximum)
  then <[bucket := now + pressureDelay maximum (kr_pressure reply)]> until
  else if kr_pressureKnown reply then delete bucket until
  else until.

Section KVLoop.
Variable (config : UpsertWriterConfig) (buckets : list Z).

(** What every batch satisfies: its records are its items' in order, its size their sum, its
    target columns theirs, and it respects the limits (a record larger than [MaxBatchBytes]
    goes alone). *)
Record kvBatchOK (batch : kvPendingBatch) : Prop := {
  bo_records : kp_records batch = map pk_record (kp_items batch);
  bo_bytes : kp_bytes batch = foldr Z.add 0 (map pk_size (kp_items batch));
  bo_targets : Forall (fun item => pk_targets item = kp_targets batch) (kp_items batch);
  bo_limits : glen (kp_items batch) <= uc_MaxBatchRecords config /\
    (kp_bytes batch <= uc_MaxBatchBytes config \/ glen (kp_items batch) <= 1);
}.

#[local] Instance kvWriter : BatchWriter pendingKVWrite kvPendingBatch kvReply throttle := {|
  batchItems := kp_items;
  replyErr := kr_err;
  failBatch batch bucket err := completeKVBatch batch bucket 0 false 0 false (Some err);
  succeedBatch batch bucket reply :=
    completeKVBatch batch bucket (kr_logEnd reply) (kr_offsetKnown reply) (kr_pressure reply) (kr_pressureKnown reply) None;
  onStart := throttleDelay;
  onSuccess := updateThrottle (uc_BackpressureMaxThrottle config);
  extOK _ _ := True;
  batchOK := kvBatchOK;
|}.

Abbreviation loop := (@loop pendingKVWrite kvPendingBatch throttle).
Abbreviation kvFlushBucket := (flushBucket buckets (uc_MaxConcurrentRequests config)).

Definition newBatch (item : pendingKVWrite) (st : loop) : loop * kvPendingBatch :=
  let batch := MkKVPendingBatch [] [] (pk_targets item) 0 in
  (setBatch (pk_bucket item) batch st, batch).

Definition compatibleBatch (clock : Z -> Z) (item : pendingKVWrite) (st : loop) : loop * kvPendingBatch :=
  match l_batches st !! pk_bucket item with
  | None => newBatch item st
  | Some batch =>
    if decide (targetKey (kp_targets batch) = targetKey (pk_targets item)) then (st, batch)
    else newBatch item (kvFlushBucket clock (pk_bucket item) st).1
  end.

Definition batchFull (batch : kvPendingBatch) : bool :=
  (uc_MaxBatchRecords config <=? glen (kp_items batch)) || (uc_MaxBatchBytes config <=? kp_bytes batch).

Definition batchFullWith (batch : kvPendingBatch) (item : pendingKVWrite) : bool :=
  (uc_MaxBatchRecords config <=? glen (kp_items batch)) || (uc_MaxBatchBytes config <? kp_bytes batch + pk_size item).

Definition armTimer (st : loop) : loop :=
  if negb (l_timer st) && (0 <? uc_BatchTimeout config) then setTimer true st else st.

Definition appendItem (batch : kvPendingBatch) (item : pendingKVWrite) : kvPendingBatch :=
  MkKVPendingBatch (kp_items batch ++ [item]) (kp_records batch ++ [pk_record item]) (kp_targets batch)
    (kp_bytes batch + pk_size item).

Definition add (clock : Z -> Z) (item : pendingKVWrite) (st : loop) : loop :=
  match pk_ctxErr item with
  | Some err => emit [Rejected item err] st
  | None =>
    let '(st, batch) := compatibleBatch clock item st in
    let '(st, batch) :=
      if (0 <? glen (kp_items batch)) && batchFullWith batch item
      then newBatch item (kvFlushBucket clock (pk_bucket item) st).1
      else (st, batch) in
    let batch := appendItem batch item in
    let st := emit [Accepted (pk_bucket item) item] (setBatch (pk_bucket item) batch st) in
    if batchFull batch || (uc_BatchTimeout config =? 0) then (kvFlushBucket clock (pk_bucket item) st).1
    else armTimer st
  end.

#[local] Instance kvAdder : ItemAdder pendingKVWrite kvPendingBatch throttle := {|
  itemOK item := pk_bucket item ∈ buckets;
  addItem clock item st := Ok (add clock item st);
|}.

(** ** The request of a batch *)

Record kvPutRequest := MkKVPutRequest {
  pr_path : PhysicalTablePath;
  pr_bucket : Z;
  pr_tableID : Z;
  pr_partitionID : Z;
  pr_targets : list Z;
  pr_records : list byte;
  pr_timeout : Z;
  pr_acks : Z;
  pr_mergeMode : Z;
}.

Record kvPutResult := MkKVPutResult {
  pt_logEnd : Z;
  pt_pressure : Z;
  pt_pressureKnown : bool;
}.

(** One bucket of a [PutKvResponse]; absent optional fields are [None]. *)
Record putBucketResponse := MkPutBucketResponse {
  pb_BucketId : Z;
  pb_ErrorCode : Z;
  pb_ErrorMessage : string;
  pb_LogEndOffset : Z;
  pb_Pressure : option Z;
}.

(** [math.IsNaN(p) || p < 0 || p >= 1] *)
Definition invalidPressure (bits : Z) : bool :=
  match float32Bits bits with
  | S754_nan => true
  | S754_infinity _ => true
  | S754_zero _ => false
  | S754_finite true _ _ => true
  | S754_finite false m e => if 0 <=? e then true else 2 ^ (- e) <=? Zpos m
  end.

Definition APIKeyPutKv : Z := 1016.

(** [put] on the buckets of a decoded response. *)
Definition putResult (bucket : Z) (responses : list putBucketResponse) : kvPutResult + callError :=
  match responses with
  | [result] =>
    if negb (pb_BucketId result =? bucket) then inr (Plain ErrValidation)
    else match responseServerError (pb_ErrorCode result) (pb_ErrorMessage result) APIKeyPutKv with
         | Some err => inr (ServerErr err)
         | None =>
           match pb_Pressure result with
           | None => inl (MkKVPutResult (pb_LogEndOffset result) 0 false)
           | Some pressure =>
             if invalidPressure pressure then inr (Plain ErrValidation)
             else inl (MkKVPutResult (pb_LogEndOffset result) pressure true)
           end
         end
  | _ => inr (Plain ErrValidation)
  end.

(** What the environment of a request is: the answer of [put] to each attempt, the context
    of the request after each attempt, during each wait and at the end. *)
Record putEnv := MkPutEnv {
  pe_put : kvPutRequest -> Z -> kvPutResult + callError;
  pe_ctxErr : Z -> option callError;
  pe_ctxWhileWaiting : Z -> option callError;
  pe_ctxEnd : option callError;
}.

Definition putAttempts (env : putEnv) (request : kvPutRequest) : attemptEnv :=
  MkAttemptEnv
    (fun attempt => match pe_put env request attempt with
                    | inl put => (pt_logEnd put, true, None)
                    | inr err => (0, false, Some err)
                    end)
    (pe_ctxErr env) (pe_ctxWhileWaiting env).

(** The pressure of the attempt that succeeded, if any. *)
Definition attemptPressure (env : putEnv) (request : kvPutRequest) (result : writerAttemptResult) : Z * bool :=
  match pe_put env request (ar_attempts result) with
  | inl put => (pt_pressure put, pt_pressureKnown put)
  | inr _ => (0, false)
  end.

(** The attempts of a request and what they send back. *)
Definition sendPut (w : UpsertWriter) (env : putEnv) (request : kvPutRequest) : kvReply :=
  let result := executeWriterRequest (uc_RetryPolicy (uw_config w)) (putAttempts env request) (pe_ctxEnd env) in
  let '(pressure, pressureKnown) := attemptPressure env request result in
  MkKVReply (ar_offset result) (ar_offsetKnown result) pressure pressureKnown (ar_err result).

(** [executeBatch]; the wait for [throttle] does not change what is sent. *)
Definition executeBatch (w : UpsertWriter) (env : putEnv) (j : @job kvPendingBatch) : outcome kvReply :=
  match KVBatch_Encode (MkKVBatch (int16 (tab_SchemaID (uw_table w))) (uw_writerID w) (j_sequence j)
                          (kp_records (j_batch j))) with
  | Ok encoded =>
    let config := uw_config w in
    Ok (sendPut w env (MkKVPutRequest (uw_path w) (j_bucket j) (uw_tableID w) (uw_partitionID w)
      (kp_targets (j_batch j)) encoded (uc_RequestTimeout config) (uc_Acks config) (uc_MergeMode config)))
  | Err e => Ok (MkKVReply 0 false 0 false (Some (Plain e)))
  | Panic => Panic
  | OutOfFuel => OutOfFuel
  end.

(** ** Theorems: target columns *)

(** No comma in a string. *)
Fixpoint noComma (s : string) : bool :=
  match s with
  | EmptyString => true
  | String c s => negb (bool_decide (c = ","%char)) && noComma s
  end.

Lemma noComma_split s s' t t' : noComma s = true -> noComma s' = true ->
  (s +:+ "," +:+ t = s' +:+ "," +:+ t')%string -> s = s' /\ t = t'.
Proof.
  revert s'. induction s as [|c s IH]; intros [|c' s']; cbn; intros H H' E; try (by simplify_eq).
  - injection E as -> E. apply andb_true_iff in H as [_ H], H' as [_ H'].
    destruct (IH s' H H' E) as [-> ->]. done.
Qed.

Lemma pretty_N_char_noComma x : negb (bool_decide (pretty_N_char x = ","%char)) = true.
Proof.
  unfold pretty_N_char. repeat (case_match; try done).
Qed.

Lemma pretty_N_go_noComma x : forall s, noComma s = true -> noComma (pretty_N_go x s) = true.
Proof.
  induction (N.lt_wf_0 x) as [x _ IH]. intros s Hs.
  destruct (decide (x = 0)%N) as [->|Hx]; [by rewrite pretty_N_go_0|].
  rewrite pretty_N_go_step by lia. apply IH; [apply N.div_lt; lia|].
  cbn. by rewrite pretty_N_char_noComma, Hs.
Qed.

Lemma pretty_noComma (z : Z) : noComma (pretty z) = true.
Proof.
  assert (HN : forall x : N, noComma (pretty x) = true).
  { intros x. unfold pretty, pretty_N. case_match; [done|]. by apply pretty_N_go_noComma. }
  destruct z as [|p|p]; [done|apply (HN (Npos p))|]. cbn. apply (HN (Npos p)).
Qed.

Lemma targetKey_inj targets : forall targets', targetKey targets = targetKey targets' -> targets = targets'.
Proof.
  induction targets as [|t targets IH]; intros [|t' targets'] E; [done| | |].
  - pose proof (pretty_noComma t') as H. cbn in E. by destruct (pretty t').
  - pose proof (pretty_noComma t) as H. cbn in E. by destruct (pretty t).
  - cbn [targetKey] in E. apply noComma_split in E as [E1%(inj pretty) E2]; [|apply pretty_noComma..].
    by rewrite E1, (IH targets').
Qed.

(** ** Theorems: the interfaces of the scheduler *)

Lemma imap_fst {A B} (g : nat -> A -> B) (l : list A) : (imap (fun i x => (x, g i x)) l).*1 = l.
Proof. revert g. induction l as [|x l IH]; intros g; [done|]. cbn. f_equal. apply (IH (fun i => g (S i))). Qed.

Lemma completeKVBatch_err batch bucket logEnd known pressure pressureKnown err item result :
  (item, result) ∈ completeKVBatch batch bucket logEnd known pressure pressureKnown err -> wr_Err result = err.
Proof. unfold completeKVBatch. intros (i & y & [= -> ->] & _)%elem_of_lookup_imap_1. done. Qed.

#[local] Instance kvWriterLaws : BatchWriterLaws pendingKVWrite kvPendingBatch kvReply throttle.
Proof.
  split; try done.
  - intros. apply imap_fst.
  - intros. apply imap_fst.
  - intros batch bucket err item result H. by apply (completeKVBatch_err batch bucket 0 false 0 false (Some err) item result).
  - intros batch bucket reply item result H. exact (completeKVBatch_err _ _ _ _ _ _ _ _ _ H).
Qed.

Abbreviation maxRequests := (uc_MaxConcurrentRequests config).
Hypothesis distinct : NoDup buckets.
Hypothesis someRecords : 1 <= uc_MaxBatchRecords config.

(** The state in which an item can join [batch], the open batch of its bucket. *)
Record ready (item : pendingKVWrite) (st st' : loop) (batch : kvPendingBatch) : Prop := {
  rd_inv : inv buckets maxRequests st';
  rd_settled : settled maxRequests st';
  rd_extends : extends st st';
  rd_batch : l_batches st' !! pk_bucket item = Some batch;
  rd_ok : kvBatchOK batch;
  rd_targets : kp_targets batch = pk_targets item;
}.

Lemma newBatch_ready item (st st1 : loop) :
  inv buckets maxRequests st1 -> settled maxRequests st1 -> extends st st1 -> pk_bucket item ∈ buckets ->
  v_batch (viewOf st1 (pk_bucket item)) = [] ->
  ready item st (newBatch item st1).1 (newBatch item st1).2 /\ kp_items (newBatch item st1).2 = [].
Proof.
  intros Hi Hs He Hb Hv. split; [|done].
  assert (Hok : kvBatchOK (MkKVPendingBatch [] [] (pk_targets item) 0)).
  { split; cbn; try done. rewrite glen_nil. split; [lia|]. by right. }
  split; try done.
  - by apply inv_setBatch.
  - cbn. by rewrite lookup_insert_eq.
Qed.

Lemma compatibleBatch_ready clock item (st : loop) :
  inv buckets maxRequests st -> settled maxRequests st -> pk_bucket item ∈ buckets ->
  ready item st (compatibleBatch clock item st).1 (compatibleBatch clock item st).2.
Proof.
  intros Hi Hs Hb. unfold compatibleBatch. destruct (l_batches st !! pk_bucket item) as [batch|] eqn:E.
  - case_decide as Hk.
    + apply targetKey_inj in Hk. destruct (inv_batches _ _ _ Hi _ _ E). by split.
    + pose proof (flushBucket_spec _ _ distinct clock (pk_bucket item) st Hi Hs) as [H1 H2 H3 _ _ H6 _].
      by apply newBatch_ready.
  - apply newBatch_ready; try done. cbn. by rewrite E.
Qed.

Lemma appendItem_ok batch item :
  kvBatchOK batch -> kp_targets batch = pk_targets item -> kp_items batch = [] \/ batchFullWith batch item = false ->
  kvBatchOK (appendItem batch item).
Proof.
  intros [Hr Hb Ht [Hl1 Hl2]] Htg Hfit. split; cbn.
  - by rewrite map_app, Hr.
  - rewrite map_app, foldr_app, Hb. cbn. clear. generalize (map pk_size (kp_items batch)).
    induction l as [|x l IH]; cbn; lia.
  - apply Forall_app. split; [done|]. by constructor.
  - rewrite glen_app, glen_cons, glen_nil. destruct Hfit as [E|Hf].
    + rewrite E, glen_nil. split; [lia|]. right. lia.
    + unfold batchFullWith in Hf. apply orb_false_iff in Hf as [H1 H2]. split; [lia|]. left. lia.
Qed.

Lemma batch_view (st : loop) b batch : l_batches st !! b = Some batch -> v_batch (viewOf st b) = kp_items batch.
Proof. intros E. cbn. by rewrite E. Qed.

(** Making room for an item: its bucket's open batch can take it. *)
Lemma room_ready clock item (st st1 : loop) batch :
  ready item st st1 batch -> pk_bucket item ∈ buckets ->
  let '(st2, batch2) := if (0 <? glen (kp_items batch)) && batchFullWith batch item
                        then newBatch item (kvFlushBucket clock (pk_bucket item) st1).1 else (st1, batch) in
  ready item st st2 batch2 /\ (kp_items batch2 = [] \/ batchFullWith batch2 item = false).
Proof.
  intros Hr Hb. destruct (_ && _) eqn:E.
  - pose proof (flushBucket_spec _ _ distinct clock (pk_bucket item) st1 (rd_inv _ _ _ _ Hr) (rd_settled _ _ _ _ Hr)) as [H1 H2 H3 _ _ H6 _].
    destruct (newBatch_ready item st _ H1 H2) as [H7 H8]; [|done|done|].
    { transitivity st1; [apply Hr|done]. }
    split; [done|]. by left.
  - split; [done|]. apply andb_false_iff in E as [E|E]; [|by right]. left. apply glen_0_nil.
    pose proof (glen_nonneg (kp_items batch)). lia.
Qed.

Lemma add_spec clock item (st : loop) :
  inv buckets maxRequests st -> settled maxRequests st -> pk_bucket item ∈ buckets ->
  added buckets maxRequests item st (add clock item st).
Proof.
  intros Hi Hs Hb. unfold add. destruct (pk_ctxErr item) as [err|].
  { split; [by apply inv_reject|done|]. by eexists. }
  pose proof (compatibleBatch_ready clock item st Hi Hs Hb) as Hr.
  destruct (compatibleBatch clock item st) as [st1 batch]. cbn [fst snd] in Hr.
  pose proof (room_ready clock item st st1 batch Hr Hb) as Hroom. clear Hr.
  destruct (if (_ && _) then _ else _) as [st2 batch2]. destruct Hroom as [[H1 H2 (evs & H3 & Hint) H4 H5 H6] Hfit].
  pose proof (appendItem_ok batch2 item H5 H6 Hfit) as Hok.
  set (st3 := emit _ _).
  assert (Hi3 : inv buckets maxRequests st3).
  { apply inv_put; try done. cbn. by rewrite H4. }
  assert (Ht3 : exists evs, trace st3 = trace st ++ evs /\ offered evs = [item]).
  { exists (evs ++ [Accepted (pk_bucket item) item]). cbn. rewrite H3, app_assoc. split; [done|].
    by rewrite offered_app, (internal_offered evs Hint). }
  destruct (_ || _).
  - pose proof (flushBucket_spec _ _ distinct clock (pk_bucket item) st3 Hi3 H2) as [G1 G2 (evs' & G3 & Gint) _ _ _ _].
    split; [done|done|]. destruct Ht3 as (evs3 & E3 & O3). exists (evs3 ++ evs').
    rewrite G3, E3, app_assoc. split; [done|]. by rewrite offered_app, O3, (internal_offered evs' Gint).
  - unfold armTimer. destruct (_ && _); split; try done; by apply inv_timer.
Qed.

#[local] Instance kvAdderLaws : ItemAdderLaws pendingKVWrite kvPendingBatch kvReply throttle buckets maxRequests.
Proof. split. intros clock item st Hi Hs Hok. eexists. split; [done|]. by apply add_spec. Qed.
End KVLoop.

(** ** Theorems: configuration *)

(** The options the package exports. *)
Inductive upsertOption : UpsertWriterOption -> Prop :=
| isMergeMode mode : upsertOption (WithUpsertMergeMode mode)
| isBatchLimits bytes records : upsertOption (WithUpsertBatchLimits bytes records)
| isBuffer records : upsertOption (WithUpsertBuffer records)
| isConcurrency requests : upsertOption (WithUpsertConcurrency requests)
| isBatchTimeout timeout : upsertOption (WithUpsertBatchTimeout timeout)
| isRequest timeout acks : upsertOption (WithUpsertRequest timeout acks)
| isRetryPolicy policy : upsertOption (WithUpsertRetryPolicy policy)
| isBackpressure maximum : upsertOption (WithUpsertBackpressureMaxThrottle maximum)
| isPartition partition : upsertOption (WithUpsertPartition partition)
| isPartitionSpec s spec : upsertOption (WithUpsertPartitionSpec s spec).

(** The bounds every option keeps. *)
Definition upsertBounds (c : UpsertWriterConfig) : Prop :=
  kvBatchHeaderSize < uc_MaxBatchBytes c <= maxRowBytes /\ 1 <= uc_MaxBatchRecords c /\
  1 <= uc_MaxBuffered c /\ 1 <= uc_MaxConcurrentRequests c <= 64 /\ 0 <= uc_BatchTimeout c /\
  0 < uc_RequestTimeout c /\ Z.quot (uc_RequestTimeout c) nsMillisecond <= 2147483647 /\
  (uc_Acks c = 0 \/ uc_Acks c = 1 \/ uc_Acks c = -1) /\
  0 <= uc_BackpressureMaxThrottle c <= nsMinute /\ MergeMode_valid (uc_MergeMode c) = true.

Lemma upsertOption_bounds option c c' :
  upsertOption option -> upsertBounds c -> option c = Ok c' -> upsertBounds c'.
Proof.
  intros Ho Hb E. unfold upsertBounds in *. destruct Ho; cbv [WithUpsertMergeMode WithUpsertBatchLimits
    WithUpsertBuffer WithUpsertConcurrency WithUpsertBatchTimeout WithUpsertRequest WithUpsertRetryPolicy
    WithUpsertBackpressureMaxThrottle WithUpsertPartition WithUpsertPartitionSpec] in E; inv_ok; try case_match; simplify_eq;
    cbn [uc_MaxBatchBytes uc_MaxBatchRecords uc_MaxBuffered uc_MaxConcurrentRequests uc_BatchTimeout
         uc_RequestTimeout uc_Acks uc_RetryPolicy uc_BackpressureMaxThrottle uc_MergeMode] in *;
    destruct Hb as (? & ? & ? & ? & ? & ? & ? & ? & ? & ?);
    repeat match goal with H : negb _ = false |- _ => apply negb_false_iff in H end;
    repeat match goal with |- _ /\ _ => split end; try done; lia.
Qed.

Lemma applyUpsertOptions_bounds options : forall c c',
  Forall (fun o => forall f, o = Some f -> upsertOption f) options -> upsertBounds c ->
  applyUpsertOptions options c = Ok c' -> upsertBounds c'.
Proof.
  induction options as [|o options IH]; intros c c' Hf Hb E; cbn in E; [by simplify_eq|].
  inversion Hf as [|? ? Ho Hos]; subst. destruct o as [option|]; [|done]. inv_ok.
  eapply IH; [done| |done]. by eapply upsertOption_bounds; [apply Ho| |].
Qed.

(** [upsertWriterConfig] rejects what its options let through together. *)
Lemma upsertWriterConfig_Ok options c :
  Forall (fun o => forall f, o = Some f -> upsertOption f) options -> upsertWriterConfig options = Ok c ->
  applyUpsertOptions options defaultUpsertWriterConfig = Ok c /\
  validateWriterRetryPolicy (uc_RetryPolicy c) (uc_Acks c) = Ok tt.
Proof.
  intros _ H. unfold upsertWriterConfig in H. inv_ok. split; [done|]. by eapply unit_ok.
Qed.

Lemma defaultUpsert_bounds : upsertBounds defaultUpsertWriterConfig.
Proof. repeat split; try done; cbn; try lia. all: vm_compute; intuition congruence. Qed.

(** Every configuration a writer is opened with is within bounds: batch limits above the
    batch header and within the row limit, a positive buffer, between 1 and 64 requests, a
    request timeout the protocol can carry, and retries only with full acknowledgement. *)
Theorem upsert_config_bounds (options : list (option UpsertWriterOption)) (c : UpsertWriterConfig) :
  Forall (fun o => forall f, o = Some f -> upsertOption f) options -> upsertWriterConfig options = Ok c ->
  upsertBounds c /\ 1 <= rp_MaxAttempts (uc_RetryPolicy c) <= maxWriterAttempts /\
  (1 < rp_MaxAttempts (uc_RetryPolicy c) -> uc_Acks c = -1).
Proof.
  intros Ho H. apply upsertWriterConfig_Ok in H as [Ha Hr]; [|done].
  split; [by eapply applyUpsertOptions_bounds; [|apply defaultUpsert_bounds|]|].
  unfold validateWriterRetryPolicy in Hr. repeat case_match; try done. lia.
Qed.

Lemma upsert_config_bounds_witness :
  let c := MkUpsertWriterConfig 4096 2 10000 4 (5 * nsMillisecond) (30 * nsSecond) (-1)
    (MkRetryPolicy 3 None) nsSecond "" MergeModeDefault in
  upsertBounds c /\ 1 <= rp_MaxAttempts (uc_RetryPolicy c) <= maxWriterAttempts /\
  (1 < rp_MaxAttempts (uc_RetryPolicy c) -> uc_Acks c = -1).
Proof.
  apply (upsert_config_bounds [Some (WithUpsertBatchLimits 4096 2); Some (WithUpsertRetryPolicy (MkRetryPolicy 3 None))]).
  - repeat constructor; intros f [= <-]; constructor.
  - reflexivity.
Defined.

(** ** Theorems: every run of an open writer *)

Definition exportedOptions (options : list (option UpsertWriterOption)) : Prop :=
  Forall (fun o => forall f, o = Some f -> upsertOption f) options.

Section KVProperties.
Variables (backend : upsertBackend) (table : Table) (options : list (option UpsertWriterOption)) (w : UpsertWriter).
Hypothesis opened : newUpsertWriter backend table options = Ok w.
Hypothesis exported : exportedOptions options.

Abbreviation config := (uw_config w).
Abbreviation buckets := (uw_buckets w).
#[local] Instance openWriter : BatchWriter pendingKVWrite kvPendingBatch kvReply throttle := kvWriter config.
#[local] Instance openAdder : ItemAdder pendingKVWrite kvPendingBatch throttle := kvAdder config buckets.

(** The states of the writer [w]: any interleaving of its callers, its timer and the replies. *)
Definition kvReachable : writer -> Prop :=
  reachable (Reply:=kvReply) buckets (uc_MaxConcurrentRequests config) (uc_MaxBuffered config) ∅.

Lemma opened_bounds : upsertBounds config /\ NoDup buckets /\ buckets <> [].
Proof.
  pose proof opened as H. unfold newUpsertWriter in H. inv_ok.
  case_match. inv_ok. cbn in *.
  rename select (sortedBuckets _ = _) into Hsorted. pose proof (sortedBuckets_ids g) as Hids. rewrite Hsorted in Hids.
  destruct Hids as (_ & Hnd & Hne & _). split; [|done].
  rename select (upsertWriterConfig _ = _) into Hconf. unfold upsertWriterConfig in Hconf. inv_ok.
  eapply applyUpsertOptions_bounds; [apply exported|apply defaultUpsert_bounds|done].
Qed.

Lemma opened_requests : 1 <= uc_MaxConcurrentRequests config.
Proof. by destruct opened_bounds as ((_ & _ & _ & [? _] & _) & _). Qed.

#[local] Instance openWriterLaws : BatchWriterLaws pendingKVWrite kvPendingBatch kvReply throttle := kvWriterLaws config.

#[local] Instance openAdderLaws :
  ItemAdderLaws pendingKVWrite kvPendingBatch kvReply throttle buckets (uc_MaxConcurrentRequests config).
Proof. destruct opened_bounds as ((_ & ? & _) & ? & _). by apply kvAdderLaws. Qed.

Lemma kvReachable_winv s : kvReachable s ->
  winv buckets (uc_MaxConcurrentRequests config) (uc_MaxBuffered config) s.
Proof.
  destruct opened_bounds as ((_ & _ & ? & ? & _) & ? & _). apply winv_reachable; [apply openAdderLaws|done|lia|exact I|lia].
Qed.

(** C1: The primary-key writer neither loses, duplicates nor reorders a mutation.  Whatever
    the interleaving of callers, timers and replies, the mutations a bucket accepted are, in
    their order of acceptance, those completed, then those in flight, then those waiting,
    then those in the open batch; and what was sent to the server is a prefix of them. *)
Theorem kv_writer_fifo (s : writer) (b : Z) :
  kvReachable s ->
  let v := viewOf (w_loop s) b in
  acceptedItems (v_trace v) =
    completedItems (v_trace v) ++ itemsOf (map j_batch (v_jobs v)) ++ itemsOf (v_pending v) ++ v_batch v /\
  startedItems (v_trace v) `prefix_of` acceptedItems (v_trace v).
Proof.
  intros Hr v. pose proof (inv_good _ _ _ (wi_loop _ _ _ _ (kvReachable_winv s Hr)) b) as Hg.
  split; [apply (good_account _ Hg)|]. by apply good_prefix.
Qed.

(** C2: Requests to a bucket are stop-and-wait with consecutive sequence numbers.  A batch is
    sent only when every earlier batch of its bucket has been answered with success, carries
    the number of batches sent before it (in 32 bits), and at most one is in flight. *)
Theorem kv_writer_stop_and_wait (s : writer) (b : Z) :
  kvReachable s ->
  stopAndWait (at_ b (trace (w_loop s))) /\ (length (v_jobs (viewOf (w_loop s) b)) <= 1)%nat.
Proof.
  intros Hr. pose proof (inv_good _ _ _ (wi_loop _ _ _ _ (kvReachable_winv s Hr)) b) as Hg.
  split; [apply (good_order _ Hg)|].
  destruct (good_active _ Hg) as [[-> _]|(j & -> & _)]; cbn; lia.
Qed.

(** The scheduler respects the concurrency limit and conserves work: the requests in
    flight are counted exactly, never exceed the configured maximum (at most 64), and when
    one is free no bucket with a waiting batch is idle. *)
Theorem kv_writer_concurrency (s : writer) :
  kvReachable s ->
  let st := w_loop s in
  l_inFlight st = glen (running st) /\ l_inFlight st <= uc_MaxConcurrentRequests config <= 64 /\
  (l_inFlight st < uc_MaxConcurrentRequests config -> forall b, pendingOf st b <> [] -> b ∈ l_active st).
Proof.
  intros Hr st. pose proof (kvReachable_winv s Hr) as Hw. destruct opened_bounds as ((_ & _ & _ & [_ Hmax] & _) & _).
  pose proof (wi_loop _ _ _ _ Hw) as Hi. split; [apply (inv_inFlight _ _ _ Hi)|].
  split; [split; [apply (inv_max _ _ _ Hi)|done]|].
  intros Hlt. destruct (wi_settled _ _ _ _ Hw) as [E|E]; [subst st; lia|done].
Qed.

(** A bucket whose request failed is not written again: it has nothing in flight or
    waiting, and everything accepted that is not completed is in its open batch. *)
Theorem kv_writer_poisoned (s : writer) (b : Z) :
  kvReachable s -> is_Some (l_poisoned (w_loop s) !! b) ->
  let v := viewOf (w_loop s) b in
  v_jobs v = [] /\ v_pending v = [] /\ acceptedItems (v_trace v) = completedItems (v_trace v) ++ v_batch v.
Proof.
  intros Hr Hp v. pose proof (inv_good _ _ _ (wi_loop _ _ _ _ (kvReachable_winv s Hr)) b) as Hg.
  assert (Hpo : v_poisoned v = true) by (by apply bool_decide_eq_true).
  destruct (good_poisoned _ Hg Hpo) as [H1 H2]. split; [done|]. split; [done|].
  pose proof (good_account _ Hg) as H. rewrite H1, H2 in H. exact H.
Qed.

(** A flush or close is answered only when every mutation sent before it is done: the loop
    has taken exactly those mutations and every one its buckets accepted is completed. *)
Theorem kv_flush_barrier (s : writer) (closing : bool) (mark : nat) (errs : list callError) :
  kvReachable s -> w_mode s = Flushing closing mark errs -> l_inFlight (w_loop s) = 0 ->
  offered (trace (w_loop s)) = take mark (w_sent s) /\
  forall b, completedItems (at_ b (trace (w_loop s))) = acceptedItems (at_ b (trace (w_loop s))).
Proof. intros Hr. apply (flush_barrier_aux buckets _ (uc_MaxBuffered config) opened_requests), kvReachable_winv, Hr. Qed.

(** [Close] drains the writer.  When the loop has stopped, its queue is empty, no caller can
    send any more, it took every mutation ever sent, and each one its
    buckets accepted is completed. *)
Theorem kv_close_drains (s : writer) :
  kvReachable s -> w_mode s = Stopped ->
  w_commands s = [] /\ w_closed s = true /\ offered (trace (w_loop s)) = w_sent s /\
  forall b, completedItems (at_ b (trace (w_loop s))) = acceptedItems (at_ b (trace (w_loop s))).
Proof. intros Hr. apply (stopped_drained buckets _ (uc_MaxBuffered config) opened_requests), kvReachable_winv, Hr. Qed.

(** The buffer is bounded: mutations that hold a slot (being sent, queued, or taken and not
    yet completed) never exceed [MaxBuffered]. *)
Theorem kv_buffer_bounded (s : writer) :
  kvReachable s ->
  glen (w_holding s) + glen (commandItems (w_commands s)) +
    (glen (offered (trace (w_loop s))) - glen (finished (trace (w_loop s)))) = w_slots s /\
  w_slots s <= uc_MaxBuffered config.
Proof.
  intros Hr. pose proof (kvReachable_winv s Hr) as Hw. split; [symmetry; apply (wi_slots _ _ _ _ Hw)|].
  apply (wi_bound _ _ _ _ Hw).
Qed.

(** C23: [flushAll] terminates.  In any reachable state, whatever the servers answer and in
    whatever order the replies arrive, it returns after finitely many replies with nothing in
    flight and every accepted mutation completed. *)
Theorem kv_flush_terminates (s : writer) (clock : Z -> Z) (answer : loop -> nat * kvReply * (Z -> Z) * Z) :
  kvReachable s ->
  let st := (flushAll buckets (uc_MaxConcurrentRequests config) clock answer (w_loop s)).1 in
  l_inFlight st = 0 /\ offered (trace st) = offered (trace (w_loop s)) /\
  forall b, completedItems (at_ b (trace st)) = acceptedItems (at_ b (trace st)).
Proof.
  intros Hr. pose proof (kvReachable_winv s Hr) as Hw. destruct opened_bounds as (_ & Hnd & _).
  by destruct (flushAll_spec buckets (uc_MaxConcurrentRequests config) Hnd opened_requests clock answer (w_loop s)
    (wi_loop _ _ _ _ Hw) (wi_settled _ _ _ _ Hw)) as (_ & _ & ? & ? & ?).
Qed.

(** The loop never gets stuck: a waiting command can be served, and inside a flush there is
    a reply to wait for or the flush can be answered. *)
Theorem kv_loop_progress (s : writer) :
  kvReachable s ->
  (w_mode s = Running /\ w_commands s <> []) \/ (exists closing mark errs, w_mode s = Flushing closing mark errs) ->
  (exists j, running (w_loop s) !! 0%nat = Some j) \/
  exists s', step (Reply:=kvReply) buckets (uc_MaxConcurrentRequests config) (uc_MaxBuffered config) s s' /\
    (w_mode s = Running -> w_commands s' = tail (w_commands s)).
Proof. intros Hr. apply loop_progress; [apply openAdderLaws|by apply kvReachable_winv]. Qed.

(** What every started batch satisfies. *)
Lemma kv_started (s : writer) (j : job) :
  kvReachable s -> Started j ∈ trace (w_loop s) -> kvBatchOK config (j_batch j) /\ srange 32 (j_sequence j) = true.
Proof.
  intros Hr Hj. pose proof (inv_good _ _ _ (wi_loop _ _ _ _ (kvReachable_winv s Hr)) (j_bucket j)) as Hg.
  apply at_started in Hj. split; [by destruct (started_batches _ j Hg Hj)|].
  apply list_elem_of_split in Hj as (pre & post & E). destruct (good_order _ Hg pre j post E) as (_ & _ & ->).
  by apply swrap_srange.
Qed.

(** Every batch sent is one the server accepts as a unit: it has between one and
    [MaxBatchRecords] mutations with the same target columns, in their order, and at most
    [MaxBatchBytes] of them unless it is a single mutation. *)
Theorem kv_batch_limits (s : writer) (j : job) :
  kvReachable s -> Started j ∈ trace (w_loop s) ->
  kp_items (j_batch j) <> [] /\ kvBatchOK config (j_batch j).
Proof.
  intros Hr Hj. pose proof (inv_good _ _ _ (wi_loop _ _ _ _ (kvReachable_winv s Hr)) (j_bucket j)) as Hg.
  by apply (started_batches _ j Hg), at_started.
Qed.
End KVProperties.
