(* ===== verification/KVRun.v ===== *)
(** * A run of the primary-key writer

    A small table, an open writer and some of its states: the concrete inputs at which the
    theorems of [KVWriter] are applied. *)

From S2P Require Import Prelude Model Wire Values Codec Bucket RecordBatch Errors WriterRetry Scheduler WriterLoop WriterRun KVWriter.

(** ** A run *)

Definition sampleTable : Table :=
  MkTable 7 3 (MkTablePath "db" "users") PrimaryKeyTable
    (MkSchema [MkColumn "id" IntType false None "" 0; MkColumn "name" StringType true None "" 0]
       ["id"]%string [] [] [] 0) 2 0 false "" None.

Definition sampleBackend : upsertBackend :=
  MkUpsertBackend (fun _ _ => Ok tt)
    (fun _ => Ok (7, {[0 := MkServerNode 1 "a:1" TabletServer; 1 := MkServerNode 2 "b:1" TabletServer]}))
    (fun _ _ => Ok 42).

Definition sampleOptions : list (option UpsertWriterOption) :=
  [Some (WithUpsertConcurrency 2); Some (WithUpsertBatchLimits 4096 2)].

Definition sampleWriter : UpsertWriter :=
  match newUpsertWriter sampleBackend sampleTable sampleOptions with
  | Ok w => w
  | _ => MkUpsertWriter sampleTable (MkPhysicalTablePath (MkTablePath "" "") "") defaultUpsertWriterConfig 0 0 0 []
  end.

Lemma sampleWriter_opened : newUpsertWriter sampleBackend sampleTable sampleOptions = Ok sampleWriter.
Proof. vm_compute. reflexivity. Qed.

Lemma sampleOptions_exported : exportedOptions sampleOptions.
Proof. repeat constructor; intros f [= <-]; constructor. Qed.

Definition sampleItem (future : nat) (id : Z) : pendingKVWrite :=
  match Upsert sampleWriter (Some None) [VInt32 id; VString "x"] future with
  | Ok item => item
  | _ => MkPendingKVWrite 0 None (MkKVRecord [] None) 0 [] 0
  end.

#[local] Instance sampleInterface : BatchWriter pendingKVWrite kvPendingBatch kvReply throttle :=
  kvWriter (uw_config sampleWriter).
#[local] Instance sampleItemAdder : ItemAdder pendingKVWrite kvPendingBatch throttle :=
  kvAdder (uw_config sampleWriter) (uw_buckets sampleWriter).

Abbreviation serve := (serve (uw_buckets sampleWriter) (uc_MaxConcurrentRequests (uw_config sampleWriter))).
Abbreviation answerFirst := (answerFirst (uw_buckets sampleWriter) (uc_MaxConcurrentRequests (uw_config sampleWriter))).
Abbreviation sampleStep := (step (Reply:=kvReply) (uw_buckets sampleWriter)
  (uc_MaxConcurrentRequests (uw_config sampleWriter)) (uc_MaxBuffered (uw_config sampleWriter))).
Abbreviation sampleState := (@writer pendingKVWrite kvPendingBatch throttle).

(** Three mutations, served, one reply, then a flush. *)
Definition sampleReply : kvReply := MkKVReply 2 true 0 false None.
Definition sampleRun1 : sampleState :=
  serve (serve (serve (submit (sampleItem 3 1) (submit (sampleItem 2 1) (submit (sampleItem 1 1) (newWriter ∅)))))).
Definition sampleRun2 : sampleState := serve (sendFlush (answerFirst sampleReply sampleRun1)).
Definition sampleRun3 : sampleState := answerFirst sampleReply sampleRun2.
Definition sampleRun4 : sampleState :=
  answerFlush true 3 [] (serve (sendClose (answerFlush false 3 [] sampleRun3))).

Example sampleRun_states :
  map (fun s => (w_slots s, l_inFlight (w_loop s), glen (completedItems (trace (w_loop s)))))
    [sampleRun1; sampleRun2; sampleRun3; sampleRun4] = [(3, 1, 0); (1, 1, 2); (0, 0, 3); (0, 0, 3)].
Proof. vm_compute. reflexivity. Qed.

Lemma sampleItem_bucket n : pk_bucket (sampleItem n 1) ∈ uw_buckets sampleWriter.
Proof. apply list_elem_of_In. vm_compute. tauto. Qed.

Lemma sampleRun1_reached : kvReachable sampleWriter sampleRun1.
Proof.
  unfold kvReachable, reachable, sampleRun1.
  do 3 (eapply rtc_r; [|apply step_serve; run]).
  do 3 (etransitivity; [|refine (step_submit _ _ _ _ _ _ _ _ _ _); [exact (sampleItem_bucket _)|run..]]).
  reflexivity.
Qed.

Lemma sampleRun2_reached : kvReachable sampleWriter sampleRun2.
Proof.
  unfold kvReachable, reachable, sampleRun2.
  eapply rtc_r; [|apply step_serve; run]. eapply rtc_r; [|apply step_flush; run].
  eapply rtc_r; [|apply step_answerFirst; run]. apply sampleRun1_reached.
Qed.

Lemma sampleRun3_reached : kvReachable sampleWriter sampleRun3.
Proof.
  unfold kvReachable, reachable, sampleRun3.
  eapply rtc_r; [|apply step_answerFirst; run]. apply sampleRun2_reached.
Qed.

Lemma sampleRun4_reached : kvReachable sampleWriter sampleRun4.
Proof.
  unfold kvReachable, reachable, sampleRun4.
  eapply rtc_r; [|apply step_answer; run]. eapply rtc_r; [|apply step_serve; run].
  eapply rtc_r; [|apply step_close; run]. eapply rtc_r; [|apply step_answer; run]. apply sampleRun3_reached.
Qed.

(** ** The theorems at these states *)

Lemma kv_writer_fifo_witness :
  let v := viewOf (w_loop sampleRun1) (pk_bucket (sampleItem 1 1)) in
  acceptedItems (v_trace v) =
    completedItems (v_trace v) ++ itemsOf (map j_batch (v_jobs v)) ++ itemsOf (v_pending v) ++ v_batch v /\
  startedItems (v_trace v) `prefix_of` acceptedItems (v_trace v).
Proof.
  apply (kv_writer_fifo sampleBackend sampleTable sampleOptions sampleWriter sampleWriter_opened
    sampleOptions_exported), sampleRun1_reached.
Defined.

Lemma kv_writer_stop_and_wait_witness :
  stopAndWait (at_ (pk_bucket (sampleItem 1 1)) (trace (w_loop sampleRun3))) /\
  (length (v_jobs (viewOf (w_loop sampleRun3) (pk_bucket (sampleItem 1 1)))) <= 1)%nat.
Proof.
  apply (kv_writer_stop_and_wait sampleBackend sampleTable sampleOptions sampleWriter sampleWriter_opened
    sampleOptions_exported), sampleRun3_reached.
Defined.

Lemma kv_writer_concurrency_witness :
  let st := w_loop sampleRun1 in
  l_inFlight st = glen (running st) /\ l_inFlight st <= uc_MaxConcurrentRequests (uw_config sampleWriter) <= 64 /\
  (l_inFlight st < uc_MaxConcurrentRequests (uw_config sampleWriter) ->
   forall b, pendingOf st b <> [] -> b ∈ l_active st).
Proof.
  apply (kv_writer_concurrency sampleBackend sampleTable sampleOptions sampleWriter sampleWriter_opened
    sampleOptions_exported), sampleRun1_reached.
Defined.

(** A run in which the request fails. *)
Definition sampleRun5 : sampleState := answerFirst (MkKVReply 0 false 0 false (Some NetError)) sampleRun1.

Lemma sampleRun5_reached : kvReachable sampleWriter sampleRun5.
Proof.
  unfold kvReachable, reachable, sampleRun5.
  eapply rtc_r; [|apply step_answerFirst; run]. apply sampleRun1_reached.
Qed.

Lemma kv_writer_poisoned_witness :
  let v := viewOf (w_loop sampleRun5) (pk_bucket (sampleItem 1 1)) in
  v_jobs v = [] /\ v_pending v = [] /\ acceptedItems (v_trace v) = completedItems (v_trace v) ++ v_batch v.
Proof.
  apply (kv_writer_poisoned sampleBackend sampleTable sampleOptions sampleWriter sampleWriter_opened
    sampleOptions_exported sampleRun5); [apply sampleRun5_reached|].
  exists NetError. vm_compute. reflexivity.
Defined.

Lemma kv_flush_barrier_witness :
  offered (trace (w_loop sampleRun3)) = take 3 (w_sent sampleRun3) /\
  forall b, completedItems (at_ b (trace (w_loop sampleRun3))) = acceptedItems (at_ b (trace (w_loop sampleRun3))).
Proof.
  apply (kv_flush_barrier sampleBackend sampleTable sampleOptions sampleWriter sampleWriter_opened
    sampleOptions_exported sampleRun3 false 3 []); [apply sampleRun3_reached|run|run].
Defined.

Lemma kv_close_drains_witness :
  w_commands sampleRun4 = [] /\ w_closed sampleRun4 = true /\
  offered (trace (w_loop sampleRun4)) = w_sent sampleRun4 /\
  forall b, completedItems (at_ b (trace (w_loop sampleRun4))) = acceptedItems (at_ b (trace (w_loop sampleRun4))).
Proof.
  apply (kv_close_drains sampleBackend sampleTable sampleOptions sampleWriter sampleWriter_opened
    sampleOptions_exported sampleRun4); [apply sampleRun4_reached|run].
Defined.

Lemma kv_buffer_bounded_witness :
  glen (w_holding sampleRun1) + glen (commandItems (w_commands sampleRun1)) +
    (glen (offered (trace (w_loop sampleRun1))) - glen (finished (trace (w_loop sampleRun1)))) = w_slots sampleRun1 /\
  w_slots sampleRun1 <= uc_MaxBuffered (uw_config sampleWriter).
Proof.
  apply (kv_buffer_bounded sampleBackend sampleTable sampleOptions sampleWriter sampleWriter_opened
    sampleOptions_exported sampleRun1), sampleRun1_reached.
Defined.

Lemma kv_flush_terminates_witness :
  let st := (flushAll (uw_buckets sampleWriter) (uc_MaxConcurrentRequests (uw_config sampleWriter)) (fun _ => 0)
               (fun _ => (0%nat, sampleReply, (fun _ => 0), 0)) (w_loop sampleRun1)).1 in
  l_inFlight st = 0 /\ offered (trace st) = offered (trace (w_loop sampleRun1)) /\
  forall b, completedItems (at_ b (trace st)) = acceptedItems (at_ b (trace st)).
Proof.
  apply (kv_flush_terminates sampleBackend sampleTable sampleOptions sampleWriter sampleWriter_opened
    sampleOptions_exported sampleRun1), sampleRun1_reached.
Defined.

Lemma kv_loop_progress_witness :
  (exists j, running (w_loop sampleRun2) !! 0%nat = Some j) \/
  exists s', sampleStep sampleRun2 s' /\ (w_mode sampleRun2 = Running -> w_commands s' = tail (w_commands sampleRun2)).
Proof.
  apply (kv_loop_progress sampleBackend sampleTable sampleOptions sampleWriter sampleWriter_opened
    sampleOptions_exported sampleRun2); [apply sampleRun2_reached|].
  right. exists false, 3%nat, []. run.
Defined.

Definition sampleJob : job := 
  match running (w_loop sampleRun1) with j :: _ => j | [] => MkJob 0 (MkKVPendingBatch [] [] [] 0) 0 0 end.

Lemma kv_batch_limits_witness :
  kp_items (j_batch sampleJob) <> [] /\ kvBatchOK (uw_config sampleWriter) (j_batch sampleJob).
Proof.
  apply (kv_batch_limits sampleBackend sampleTable sampleOptions sampleWriter sampleWriter_opened
    sampleOptions_exported sampleRun1); [apply sampleRun1_reached|].
  apply list_elem_of_In. vm_compute. tauto.
Defined.
