(* ===== verification/KVMutation.v ===== *)
(** * Mutations and requests of the primary-key writer

    What [Upsert], [PartialUpsert] and [Delete] of [pkg/fgo/kv_writer.go] queue, and what
    [executeBatch] sends for a batch of them. *)

From S2P Require Import Prelude Model Wire Values Codec EncodeSafety Bucket RecordBatch Errors WriterRetry Scheduler WriterLoop KVWriter KVRun.

(** ** Routing *)

Lemma enqueueMutation_bucket w ctxErr values value targets future item :
  enqueueMutation w ctxErr values value targets future = Ok item ->
  pk_bucket item ∈ uw_buckets w /\ pk_targets item = targets /\ pk_future item = future /\
  kv_Value (pk_record item) = value /\ pk_size item = glen (kv_Key (pk_record item)) + glen (default [] value) + 8 /\
  EncodePrimaryKey (tab_Schema (uw_table w)) (namedKey values (sch_PrimaryKey (tab_Schema (uw_table w)))) =
    Ok (kv_Key (pk_record item)).
Proof.
  unfold enqueueMutation. intros H. inv_ok. cbn. split_and!; try done.
  rename select (index _ _ = _) into Hi. apply index_Ok in Hi as [_ Hi]. by eapply list_elem_of_lookup_2.
Qed.

Definition nameOf (values : gmap string GoValue) (name : string) : GoValue := default VNil (values !! name).

Lemma namedKey_sub values values' (names names' : list string) :
  namedKey values names' = namedKey values' names' -> Forall (fun name => name ∈ names') names ->
  namedKey values names = namedKey values' names.
Proof.
  intros E Hsub. apply map_ext_in. intros name Hn%list_elem_of_In.
  rewrite Forall_forall in Hsub. specialize (Hsub name Hn). apply list_elem_of_lookup in Hsub as [k Hk].
  assert (H : namedKey values names' !! k = namedKey values' names' !! k) by (by rewrite E).
  unfold namedKey in H. change (map ?f names') with (f <$> names') in H. rewrite !list_lookup_fmap, Hk in H.
  by injection H.
Qed.

(** The bucket and the key depend on the key columns only. *)
Lemma enqueueMutation_key w c1 c2 values1 values2 v1 v2 t1 t2 f1 f2 item1 item2 :
  let s := tab_Schema (uw_table w) in
  Forall (fun name => name ∈ sch_PrimaryKey s) (sch_BucketKey s) ->
  namedKey values1 (sch_PrimaryKey s) = namedKey values2 (sch_PrimaryKey s) ->
  enqueueMutation w c1 values1 v1 t1 f1 = Ok item1 -> enqueueMutation w c2 values2 v2 t2 f2 = Ok item2 ->
  kv_Key (pk_record item1) = kv_Key (pk_record item2) /\ pk_bucket item1 = pk_bucket item2.
Proof.
  intros s Hsub Hval. unfold enqueueMutation. fold s.
  assert (Hb : let names := match sch_BucketKey s with [] => sch_PrimaryKey s | names => names end in
    namedKey values1 names = namedKey values2 names).
  { destruct (sch_BucketKey s) eqn:E; [done|]. by eapply namedKey_sub. }
  cbv zeta in Hb. rewrite Hb, Hval. intros H1 H2. inv_ok. cbn. split; congruence.
Qed.

Lemma opened_keys backend table options w : newUpsertWriter backend table options = Ok w ->
  uw_table w = table /\ Forall (fun name => name ∈ sch_PrimaryKey (tab_Schema table)) (sch_BucketKey (tab_Schema table)).
Proof.
  unfold newUpsertWriter. intros H. inv_ok. case_match. inv_ok. split; [done|].
  rename select (validateUpsertWriterTable _ = _) into Hv. unfold validateUpsertWriterTable in Hv. inv_ok.
  rename select (forallb _ _ = true) into Hf. apply Forall_forall. intros name Hn.
  rewrite forallb_forall in Hf. apply list_elem_of_In, Hf in Hn. by apply bool_decide_eq_true in Hn.
Qed.

(** What a key gives to the key columns. *)
Lemma rowValuesLoop_named (g : string -> GoValue) names : forall pre values m,
  rowValuesLoop (pre ++ map g names) (glen pre) names values = Ok m ->
  forall name, name ∈ names \/ values !! name = Some (g name) -> m !! name = Some (g name).
Proof.
  induction names as [|n names IH]; intros pre values m E name H; cbn in E.
  { simplify_eq. destruct H as [H|H]; [by apply not_elem_of_nil in H|done]. }
  inv_ok. rename select (index _ _ = _) into Hx. rewrite index_app in Hx by done. simplify_eq.
  rewrite cons_middle, app_assoc in *. apply (IH (pre ++ [g n]) (<[n := g n]> values)).
  - rename select (rowValuesLoop _ _ _ _ = _) into E. rewrite glen_app, glen_cons, glen_nil. exact E.
  - destruct (decide (name = n)) as [->|Hne]; [right; by rewrite lookup_insert_eq|].
    destruct H as [[?|H]%elem_of_cons|H]; [done|by left|right; by rewrite lookup_insert_ne].
Qed.

(** A key always goes to one bucket.  An upsert of a row and a delete of its primary key
    carry the same encoded key and are sent to the same bucket, one of the writer's, so the
    order of the bucket is the order of the mutations of the key. *)
Theorem kv_same_key_same_bucket (backend : upsertBackend) (table : Table)
    (options : list (option UpsertWriterOption)) (w : UpsertWriter) (c1 c2 : option callError)
    (row : Row) (values : gmap string GoValue) (f1 f2 : nat) (item1 item2 : pendingKVWrite) :
  newUpsertWriter backend table options = Ok w ->
  rowValues (tab_Schema table) row [] = Ok values ->
  Upsert w (Some c1) row f1 = Ok item1 ->
  DeleteKey w (Some c2) (namedKey values (sch_PrimaryKey (tab_Schema table))) f2 = Ok item2 ->
  kv_Key (pk_record item1) = kv_Key (pk_record item2) /\ pk_bucket item1 = pk_bucket item2 /\
  pk_bucket item1 ∈ uw_buckets w /\ kv_Value (pk_record item2) = None.
Proof.
  intros Ho Hv H1 H2. apply opened_keys in Ho as [<- Hsub]. unfold Upsert, DeleteKey in *. inv_ok.
  rename select (rowValuesLoop _ _ _ _ = _) into Hk.
  pose proof (rowValuesLoop_named (nameOf values) _ [] _ _ Hk) as Hm.
  rename select (enqueueMutation _ c1 _ _ _ _ = _) into Hup. rename select (enqueueMutation _ c2 _ _ _ _ = _) into Hdel.
  pose proof (enqueueMutation_bucket _ _ _ _ _ _ _ Hup) as (Hb & _).
  pose proof (enqueueMutation_bucket _ _ _ _ _ _ _ Hdel) as (_ & _ & _ & Hval & _).
  eapply enqueueMutation_key in Hup as [Ek Eb]; [|exact Hsub| |exact Hdel].
  - repeat (split; [done|]). done.
  - apply map_ext_in. intros name Hn%list_elem_of_In. rewrite (Hm name) by (by left).
    rewrite Hv in E4. by injection E4 as <-.
Qed.

Definition sampleDelete : pendingKVWrite :=
  match DeleteKey sampleWriter (Some None) [VInt32 5] 9 with Ok item => item | _ => sampleItem 1 1 end.

Lemma kv_same_key_same_bucket_witness :
  kv_Key (pk_record (sampleItem 1 5)) = kv_Key (pk_record sampleDelete) /\
  pk_bucket (sampleItem 1 5) = pk_bucket sampleDelete /\
  pk_bucket (sampleItem 1 5) ∈ uw_buckets sampleWriter /\ kv_Value (pk_record sampleDelete) = None.
Proof.
  apply (kv_same_key_same_bucket sampleBackend sampleTable sampleOptions sampleWriter None None
    [VInt32 5; VString "x"] {["id" := VInt32 5; "name" := VString "x"]}%string 1 9
    (sampleItem 1 5) sampleDelete sampleWriter_opened); vm_compute; reflexivity.
Defined.

(** ** Offsets *)

(** When the server reports the end of its log after a batch of [n] mutations, the mutations
    get the [n] offsets before it, in the order of the batch, and no error. *)
Theorem kv_offsets (batch : kvPendingBatch) (bucket logEnd pressure : Z) (known : bool) (i : nat) (item : pendingKVWrite) :
  glen (kp_items batch) <= logEnd < 2 ^ 63 -> kp_items batch !! i = Some item ->
  completeKVBatch batch bucket logEnd true pressure known None !! i =
  Some (item, MkWriteResult bucket (logEnd - glen (kp_items batch) + Z.of_nat i) true 1 pressure known None).
Proof.
  intros Hr Hi. unfold completeKVBatch. rewrite list_lookup_imap, Hi. cbn. do 3 f_equal.
  apply lookup_lt_Some in Hi. pose proof (glen_nonneg (kp_items batch)).
  assert (Z.of_nat i < glen (kp_items batch)) by (unfold glen; lia).
  rewrite (swrap_small 64 (logEnd - _)) by (unfold srange; lia). apply swrap_small; unfold srange; lia.
Qed.

Lemma kv_offsets_witness :
  completeKVBatch (j_batch sampleJob) 0 12 true 0 false None !! 1%nat =
  Some (sampleItem 2 1, MkWriteResult 0 11 true 1 0 false None).
Proof.
  apply (kv_offsets (j_batch sampleJob) 0 12 0 false 1 (sampleItem 2 1)); vm_compute; [split; [discriminate|reflexivity]|reflexivity].
Defined.

(** ** Partial upserts *)

Lemma columnPositions_lookup (s : Schema) name p :
  columnPositions s !! name = Some p ->
  0 <= p /\ exists c, sch_Columns s !! Z.to_nat p = Some c /\ col_Name c = name.
Proof.
  unfold columnPositions.
  assert (Hg : forall cols i (m : gmap string Z), 0 <= i ->
    foldl (fun m '(i, c) => <[col_Name c := i]> m) m (zip (seqZ i (glen cols)) cols) !! name = Some p ->
    m !! name = Some p \/ i <= p /\ exists c, cols !! Z.to_nat (p - i) = Some c /\ col_Name c = name).
  { induction cols as [|c cols IH]; intros i m Hi E; [by left|].
    rewrite glen_cons, seqZ_cons in E by (pose proof (glen_nonneg cols); lia). cbn in E.
    replace (Z.pred (1 + glen cols)) with (glen cols) in E by lia. apply IH in E as [E|(Hp & c' & Hc & Hn)]; [|right|lia].
    - destruct (decide (col_Name c = name)) as [Hn|Hn].
      + right. rewrite Hn, lookup_insert_eq in E. injection E as ->. split; [lia|]. exists c.
        by replace (Z.to_nat (p - p)) with 0%nat by lia.
      + left. by rewrite lookup_insert_ne in E.
    - split; [lia|]. exists c'. split; [|done].
      replace (Z.to_nat (p - i)) with (S (Z.to_nat (p - Z.succ i))) by lia. done. }
  intros E. apply Hg in E as [E|(Hp & c & Hc & Hn)]; [by rewrite lookup_empty in E| |lia].
  split; [done|]. exists c. by rewrite Z.sub_0_r in Hc.
Qed.

Lemma partialTargets_spec (s : Schema) columns : forall selected targets selected',
  partialTargets s columns selected = Ok (targets, selected') ->
  NoDup columns /\ targets = map (fun name => int32 (positionOf s name)) columns /\
  selected' = list_to_set columns ∪ selected /\ Forall (fun name => name ∉ selected) columns.
Proof.
  induction columns as [|name columns IH]; intros selected targets selected' E; cbn in E.
  { simplify_eq. repeat split; try done; [constructor|set_solver]. }
  case_decide as Hn; [done|]. inv_ok. case_match. inv_ok.
  rename select (partialTargets _ _ _ = _) into E1. apply IH in E1 as (Hnd & -> & -> & Hf).
  split; [|split; [done|split]].
  - apply NoDup_cons. split; [|done]. intros Hin. rewrite Forall_forall in Hf. specialize (Hf name Hin). set_solver.
  - cbn. set_solver.
  - constructor; [done|]. eapply Forall_impl; [exact Hf|]. intros x Hx. set_solver.
Qed.

(** Filling a row leaves every position alone that no named column has. *)
Lemma fillRow_frame (s : Schema) columns : forall values full full' k,
  fillRow s columns values full = Ok full' ->
  Forall (fun name => positionOf s name <> Z.of_nat k) columns -> full' !! k = full !! k.
Proof.
  induction columns as [|name columns IH]; intros [|v values] full full' k E Hf; cbn in E; try (by simplify_eq).
  inv_ok. inversion Hf as [|? ? H1 H2]; subst. erewrite IH by done.
  rename select (set_index _ _ _ = _) into Hs. apply set_index_Ok in Hs as [Hr ->].
  rewrite list_lookup_insert_ne; [done|]. lia.
Qed.

(** Positions of existing columns. *)
Lemma positionOf_exists (s : Schema) c k :
  sch_Columns s !! k = Some c -> exists p c', columnPositions s !! col_Name c = Some p /\
    sch_Columns s !! Z.to_nat p = Some c' /\ col_Name c' = col_Name c /\ 0 <= p.
Proof.
  intros Hk. assert (Hin : is_Some (columnPositions s !! col_Name c)).
  { unfold columnPositions.
    assert (Hg : forall cols i (m : gmap string Z), (is_Some (m !! col_Name c) \/ c ∈ cols) ->
      is_Some (foldl (fun m '(i, c) => <[col_Name c := i]> m) m (zip (seqZ i (glen cols)) cols) !! col_Name c)).
    { induction cols as [|c' cols IH]; intros i m H; [by destruct H as [?|H]; [|apply not_elem_of_nil in H]|].
      rewrite glen_cons, seqZ_cons by (pose proof (glen_nonneg cols); lia). cbn.
      replace (Z.pred (1 + glen cols)) with (glen cols) by lia. apply IH.
      destruct (decide (col_Name c' = col_Name c)) as [->|Hne]; [left; by rewrite lookup_insert_eq|].
      rewrite lookup_insert_ne by done. destruct H as [?|[->|?]%elem_of_cons]; [by left|done|by right]. }
    apply Hg. right. by eapply list_elem_of_lookup_2. }
  destruct Hin as [p Hp]. destruct (columnPositions_lookup s _ p Hp) as (H0 & c' & Hc' & Hn). by exists p, c'.
Qed.

Lemma columnsByName_name (s : Schema) name c : columnsByName s !! name = Some c -> col_Name c = name.
Proof.
  unfold columnsByName.
  assert (Hg : forall cols (m : gmap string Column), (forall c, m !! name = Some c -> col_Name c = name) ->
    forall c, foldl (fun m c => <[col_Name c := c]> m) m cols !! name = Some c -> col_Name c = name).
  { induction cols as [|c' cols IH]; intros m Hm; [done|]. cbn. apply IH. intros c''.
    intros [[? ?]|[_ H]]%lookup_insert_Some; [by simplify_eq|by apply Hm]. }
  apply Hg. intros c' H. by rewrite lookup_empty in H.
Qed.

Lemma ValidateRow_named (s : Schema) (values : Row) columns :
  columns <> [] -> ValidateRow s values columns = Ok tt ->
  Schema_Validate s = Ok tt /\ Forall (fun name => exists c, c ∈ sch_Columns s /\ col_Name c = name) columns.
Proof.
  intros Hne H. unfold ValidateRow in H. inv_ok. rename select (Schema_Validate s = _) into Hs.
  split; [by apply unit_ok in Hs|]. rename select (validateRowLoop _ _ _ = _) into Hl.
  replace (selectedColumns s columns) with columns in Hl by (by destruct columns).
  clear -Hl. revert values Hl. induction columns as [|name columns IH]; intros [|v values] H; cbn in H; try done; [constructor..|].
  destruct (columnsByName s !! name) as [c|] eqn:E; [|done]. inv_ok. constructor; [|by eapply IH].
  exists c. split; [by eapply columnsByName_elem|].
  apply columnsByName_name in E. done.
Qed.

Lemma EncodeCompactedRow_validates (s : Schema) row encoded :
  EncodeCompactedRow s row = Ok encoded -> ValidateRow s row [] = Ok tt.
Proof.
  unfold EncodeCompactedRow, schemaFuel. cbn [encodeRow]. intros H. apply bind_Ok in H as (u & H & _).
  by apply unit_ok in H.
Qed.

(** The columns a partial upsert omits have no value in the row that is encoded. *)
Lemma partial_omitted (s : Schema) columns values full c k :
  NoDup (col_Name <$> sch_Columns s) ->
  Forall (fun name => exists c, c ∈ sch_Columns s /\ col_Name c = name) columns ->
  fillRow s columns values (replicate (length (sch_Columns s)) VNil) = Ok full ->
  sch_Columns s !! k = Some c -> col_Name c ∉ columns -> full !! k = Some VNil.
Proof.
  intros Hnd Hex E Hk Hn. rewrite (fillRow_frame s columns values _ full k E).
  { rewrite lookup_replicate_2; [done|]. by eapply lookup_lt_Some. }
  rewrite Forall_forall in *. intros name Hin Hpos. destruct (Hex name Hin) as (c' & Hc' & <-).
  apply list_elem_of_lookup in Hc' as [k' Hk'].
  destruct (positionOf_exists s c' k' Hk') as (p & c'' & Hp & Hc'' & Hname & H0).
  unfold positionOf in Hpos. rewrite Hp in Hpos. cbn in Hpos. subst p. rewrite Nat2Z.id, Hk in Hc''. simplify_eq.
  apply Hn. by rewrite Hname.
Qed.

Lemma partial_columns (w : UpsertWriter) (ctx : option callError) (columns : list string) (values : Row)
    (future : nat) (item : pendingKVWrite) :
  let s := tab_Schema (uw_table w) in
  PartialUpsert w (Some ctx) columns values future = Ok item ->
  NoDup columns /\ Forall (fun name => name ∈ columns) (sch_PrimaryKey s) /\
  Forall (fun name => name ∉ columns) (sch_AutoIncrement s) /\
  Forall (fun c => col_Nullable c = true \/ col_Name c ∈ columns) (sch_Columns s) /\
  pk_targets item = map (fun name => int32 (positionOf s name)) columns.
Proof.
  intros s H. unfold PartialUpsert, validatePartial in H. fold s in H. inv_ok. case_match. inv_ok.
  rename select (partialTargets _ _ _ = _) into Ht. apply partialTargets_spec in Ht as (Hnd & -> & -> & _).
  rename select (validatePartialSelection _ _ = _) into Hsel. unfold validatePartialSelection in Hsel. inv_ok.
  rename select (ValidateRow s values columns = _) into Hv. apply unit_ok in Hv.
  assert (Hne : columns <> []) by (intros ->; done).
  apply ValidateRow_named in Hv as [Hs Hex]; [|done].
  rename select (fillRow _ _ _ _ = _) into Hfill. rename select (EncodeCompactedRow _ _ = _) into Henc.
  rename select (enqueueMutation _ _ _ _ _ _ = _) into Hq. apply enqueueMutation_bucket in Hq as (_ & Htg & _).
  split; [done|]. split; [|split; [|split]]; [| | |done].
  - apply Forall_forall. intros name Hn. rename select (forallb (fun _ => bool_decide _) _ = true) into Hf.
    rewrite forallb_forall in Hf. apply list_elem_of_In, Hf, bool_decide_eq_true in Hn. set_solver.
  - apply Forall_forall. intros name Hn. rename select (forallb (fun _ => negb (bool_decide _)) _ = true) into Hf.
    rewrite forallb_forall in Hf. apply list_elem_of_In, Hf, negb_true_iff, bool_decide_eq_false in Hn. set_solver.
  - apply Forall_lookup. intros k c Hk. destruct (decide (col_Name c ∈ columns)) as [|Hn]; [by right|left].
    assert (Hnd' : NoDup (col_Name <$> sch_Columns s)).
    { apply Schema_Validate_Ok in Hs. by destruct Hs as (_ & ? & _). }
    pose proof (partial_omitted s columns values _ c k Hnd' Hex Hfill Hk Hn) as Hnil.
    apply EncodeCompactedRow_validates in Henc. apply ValidateRow_all in Henc as [_ Hrow].
    eapply Forall2_lookup_lr in Hrow; [|exact Hk|exact Hnil]. unfold validateColumnValue in Hrow. cbn in Hrow.
    by destruct (col_Nullable c).
Qed.

(** What a partial upsert accepts and sends: distinct columns that contain the whole primary
    key and no auto-increment column, every other column of the table nullable; its target
    columns are the positions of the named columns, in their order. *)
Theorem partial_upsert_columns (w : UpsertWriter) (ctx : option callError) (columns : list string) (values : Row)
    (future : nat) (item : pendingKVWrite) :
  let s := tab_Schema (uw_table w) in
  PartialUpsert w (Some ctx) columns values future = Ok item ->
  NoDup columns /\ Forall (fun name => name ∈ columns) (sch_PrimaryKey s) /\
  Forall (fun name => name ∉ columns) (sch_AutoIncrement s) /\
  Forall (fun c => col_Nullable c = true \/ col_Name c ∈ columns) (sch_Columns s) /\
  pk_targets item = map (fun name => int32 (positionOf s name)) columns.
Proof. apply partial_columns. Qed.

(** A table with an auto-increment column that the writer cannot fill. *)
Definition autoSchema : Schema :=
  MkSchema [MkColumn "id" IntType false None "" 0; MkColumn "seq" BigIntType false None "" 0]
    ["id"]%string [] [] ["seq"]%string 0.

Definition autoWriter : UpsertWriter :=
  MkUpsertWriter (MkTable 7 3 (MkTablePath "db" "t") PrimaryKeyTable autoSchema 1 0 false "" None)
    (MkPhysicalTablePath (MkTablePath "db" "t") "") defaultUpsertWriterConfig 7 (-1) 42 [0].

Definition partialSample : pendingKVWrite :=
  match PartialUpsert sampleWriter (Some None) ["name"; "id"]%string [VString "y"; VInt32 5] 4 with
  | Ok item => item
  | _ => sampleItem 1 1
  end.

Lemma partial_upsert_columns_witness :
  let s := tab_Schema sampleTable in
  NoDup ["name"; "id"]%string /\ Forall (fun name => name ∈ ["name"; "id"]%string) (sch_PrimaryKey s) /\
  Forall (fun name => name ∉ ["name"; "id"]%string) (sch_AutoIncrement s) /\
  Forall (fun c => col_Nullable c = true \/ col_Name c ∈ ["name"; "id"]%string) (sch_Columns s) /\
  pk_targets partialSample = map (fun name => int32 (positionOf s name)) ["name"; "id"]%string.
Proof.
  apply (partial_upsert_columns sampleWriter None ["name"; "id"]%string [VString "y"; VInt32 5] 4 partialSample).
  vm_compute. reflexivity.
Defined.

(** The exemption for auto-increment columns cannot be used.  [validatePartialSelection]
    lets a partial upsert omit an auto-increment column that is not nullable, but the row it
    encodes then has no value for it, so no upsert, full or partial, of a table with such a
    column is ever accepted. *)
Theorem auto_increment_not_writable (w : UpsertWriter) (ctx : Context_) (c : Column) (columns : list string)
    (row values : Row) (future : nat) (item : pendingKVWrite) :
  c ∈ sch_Columns (tab_Schema (uw_table w)) -> col_Name c ∈ sch_AutoIncrement (tab_Schema (uw_table w)) ->
  col_Nullable c = false ->
  Upsert w ctx row future <> Ok item /\ PartialUpsert w ctx columns values future <> Ok item.
Proof.
  intros Hc Hauto Hnull. split; intros H.
  - unfold Upsert in H. destruct ctx; [|done]. inv_ok.
    rename select ((glen _ =? 0) = true) into Hz. apply Z.eqb_eq, glen_0_nil in Hz. rewrite Hz in Hauto.
    by apply not_elem_of_nil in Hauto.
  - destruct ctx as [ctx|]; [|done]. apply partial_columns in H as (_ & _ & Ha & Hn & _).
    rewrite Forall_forall in Ha. rewrite Forall_forall in Hn. specialize (Ha _ Hauto). destruct (Hn c Hc); [congruence|done].
Qed.

Lemma auto_increment_not_writable_witness :
  validatePartialSelection autoSchema {["id"%string]} = Ok tt /\
  Upsert autoWriter (Some None) [VInt32 1; VInt64 1] 0 <> Ok (sampleItem 1 1) /\
  PartialUpsert autoWriter (Some None) ["id"]%string [VInt32 1] 0 <> Ok (sampleItem 1 1).
Proof.
  split; [vm_compute; reflexivity|].
  apply (auto_increment_not_writable autoWriter (Some None) (MkColumn "seq" BigIntType false None "" 0)
    ["id"]%string [VInt32 1; VInt64 1] [VInt32 1] 0 (sampleItem 1 1)); [|by left|reflexivity].
  right. left.
Defined.

(** ** The request of a batch *)

Lemma encodeKVRecords_returns records : forall encoded, returns (encodeKVRecords records encoded) = true.
Proof.
  induction records as [|r records IH]; intros encoded; cbn [encodeKVRecords]; [done|].
  do 2 (case_match; [done|]). apply IH.
Qed.

(** Encoding a batch returns bytes or an error. *)
Lemma KVBatch_Encode_returns b : returns (KVBatch_Encode b) = true.
Proof.
  unfold KVBatch_Encode. case_match; [done|].
  change (set_index (zeros kvBatchHeaderSize) 4 Byte.x00) with (Ok (zeros 28)). cbn [mbind outcome_bind].
  assert (H28 : glen (zeros 28) = 28) by done.
  do 4 (match goal with |- returns (putLE ?w ?l ?off ?v ≫= _) = true =>
    apply bind_returns; [apply putLE_returns; cbn; lia|]; intros ? ?%putLE_glen end).
  apply bind_returns; [apply encodeKVRecords_returns|]. intros l [-> _]%encodeKVRecords_Ok.
  apply bind_returns; [apply putLE_returns; [done|]; glia|]. intros l Hl%putLE_glen. rewrite glen_app in Hl.
  match type of Hl with _ = _ + glen ?r => pose proof (glen_nonneg r) end.
  destruct (slice_safe l 9 (glen l)) as [covered Hc]; [lia|lia|]. unfold slice_from. rewrite Hc. cbn [mbind outcome_bind].
  apply putLE_returns; cbn; lia.
Qed.

(** The bytes of an encoded batch of [records]: the header and the records. *)
Definition putBytes (records : list KVRecord) : Z := kvBatchHeaderSize + glen (concat (map kvRecordBytes records)).

Lemma kvRecordBytes_glen r : glen (kvRecordBytes r) = 4 + glen (kvBody r).
Proof. unfold kvRecordBytes. rewrite glen_app, glen_le_split. lia. Qed.

Lemma encodeKVRecords_total records : forall encoded,
  glen encoded + glen (concat (map kvRecordBytes records)) <= maxRowBytes -> exists r, encodeKVRecords records encoded = Ok r.
Proof.
  induction records as [|r records IH]; intros encoded H; cbn [encodeKVRecords]; [by eexists|].
  cbn in H. rewrite glen_app, kvRecordBytes_glen in H. pose proof (glen_nonneg (concat (map kvRecordBytes records))). pose proof (glen_nonneg encoded).
  pose proof (kvBody_glen r) as Hb. pose proof (glen_nonneg (kv_Key r)). pose proof (glen_nonneg (default [] (kv_Value r))).
  pose proof (glen_nonneg (appendVar32 [] (uint32 (glen (kv_Key r))))).
  cbv zeta. fold (kvBody r). replace (_ || _) with false by lia. replace (_ || _) with false by lia.
  apply IH. rewrite !glen_app, glen_le_split. lia.
Qed.

Lemma encodeKVRecords_over records : forall encoded, maxRowBytes < glen encoded + glen (concat (map kvRecordBytes records)) -> glen encoded <= maxRowBytes ->
  encodeKVRecords records encoded = Err ErrMalformedRecordBatch.
Proof.
  induction records as [|r records IH]; intros encoded H Hl; cbn [encodeKVRecords]; [change (glen _) with 0 in H at 2; lia|].
  case_match; [done|]. fold (kvBody r). case_match eqn:E; [done|].
  cbn in H. rewrite glen_app, kvRecordBytes_glen in H. apply IH; rewrite !glen_app, glen_le_split; lia.
Qed.

Lemma records_count records : glen records <= glen (concat (map kvRecordBytes records)).
Proof.
  induction records as [|r records IH]; [done|]. cbn. rewrite glen_cons, glen_app, kvRecordBytes_glen. pose proof (glen_nonneg (kvBody r)). lia.
Qed.

(** A batch is encoded exactly when its bytes fit the limit of a batch. *)
Lemma KVBatch_Encode_fits b :
  (putBytes (kb_Records b) <= maxRowBytes -> exists encoded, KVBatch_Encode b = Ok encoded) /\
  (maxRowBytes < putBytes (kb_Records b) -> KVBatch_Encode b = Err ErrMalformedRecordBatch).
Proof.
  unfold putBytes, KVBatch_Encode. change kvBatchHeaderSize with 28.
  change (set_index (zeros 28) 4 Byte.x00) with (Ok (zeros 28)). cbn [mbind outcome_bind].
  assert (H28 : glen (zeros 28) = 28) by done. pose proof (records_count (kb_Records b)) as Hcount. pose proof maxRowBytes_val as Hmax.
  do 4 (match goal with |- context[putLE ?w ?l ?off ?v] =>
    let l1 := fresh "l" in let E := fresh "E" in destruct (putLE_safe w l off v) as [l1 E]; [lia..|];
    rewrite E; cbn [mbind outcome_bind]; apply putLE_glen in E end).
  split; intros Hb.
  - rewrite (proj2 (Z.ltb_ge _ _)) by lia. destruct (encodeKVRecords_total (kb_Records b) l2) as [r Hr]; [lia|].
    rewrite Hr. cbn [mbind outcome_bind]. apply encodeKVRecords_Ok in Hr as [Hr _]. apply (f_equal glen) in Hr. rewrite glen_app in Hr.
    pose proof (glen_nonneg (concat (map kvRecordBytes (kb_Records b)))).
    destruct (putLE_safe 4 r 0 (uint32 (glen r - 4))) as [r1 E3]; [lia..|]. rewrite E3. cbn [mbind outcome_bind]. apply putLE_glen in E3.
    destruct (slice_safe r1 9 (glen r1)) as [covered Hc]; [lia..|]. unfold slice_from. rewrite Hc. cbn [mbind outcome_bind].
    apply putLE_safe; lia.
  - destruct (_ <? _); [done|]. rewrite encodeKVRecords_over by lia. done.
Qed.

(** A request carries the batch of [j]: to its bucket, for its target columns, as the writer is
    configured, and the records a server decodes are those of its items, with the writer's id and
    the batch's sequence. *)
Definition carries (w : UpsertWriter) (j : @job kvPendingBatch) (request : kvPutRequest) : Prop :=
  pr_path request = uw_path w /\ pr_bucket request = j_bucket j /\ pr_targets request = kp_targets (j_batch j) /\
  pr_tableID request = uw_tableID w /\ pr_partitionID request = uw_partitionID w /\
  pr_timeout request = uc_RequestTimeout (uw_config w) /\ pr_acks request = uc_Acks (uw_config w) /\
  pr_mergeMode request = uc_MergeMode (uw_config w) /\
  DecodeKVBatch (pr_records request) =
    Ok (MkKVBatch (int16 (tab_SchemaID (uw_table w))) (uw_writerID w) (j_sequence j)
          (map (fun item => retainKV (pk_record item)) (kp_items (j_batch j)))).

(** The records of a batch of mutations as [enqueueMutation] accounts for them. *)
Definition accounted (item : pendingKVWrite) : Prop :=
  pk_size item = glen (kv_Key (pk_record item)) + glen (default [] (kv_Value (pk_record item))) + 8.

Lemma appendVarLoop_glen n : forall fuel dst v, 0 <= v < 2 ^ (7 * Z.of_nat (S n)) -> glen (appendVarLoop fuel dst v) <= glen dst + Z.of_nat (S n).
Proof.
  induction n as [|n IH]; intros [|fuel] dst v Hv; cbn [appendVarLoop]; try lia.
  - change (2 ^ _) with 128 in Hv. replace (127 <? v) with false by lia. glia.
  - destruct (127 <? v); [|glia]. etrans; [apply IH|glia].
    rewrite Z.shiftr_div_pow2 by lia. replace (7 * Z.of_nat (S (S n))) with (7 + 7 * Z.of_nat (S n)) in Hv by lia. rewrite Z.pow_add_r in Hv by lia.
    change (2 ^ 7) with 128 in *. split; [apply Z.div_pos; lia|apply Z.div_lt_upper_bound; lia].
Qed.

Lemma appendVar32_bound z : glen (appendVar32 [] (uint32 z)) <= 5.
Proof.
  apply (appendVarLoop_glen 4). unfold uint32, uwrap. pose proof (Z.mod_pos_bound z (2 ^ 32)). change (2 ^ (7 * _)) with 34359738368. lia.
Qed.

Lemma accounted_bytes items : Forall accounted items ->
  glen (concat (map kvRecordBytes (map pk_record items))) <= foldr Z.add 0 (map pk_size items) + glen items.
Proof.
  induction 1 as [|item items Ha _ IH]; [done|]. cbn. rewrite glen_app, glen_cons, kvRecordBytes_glen, kvBody_glen, Ha.
  pose proof (appendVar32_bound (glen (kv_Key (pk_record item)))). lia.
Qed.

(** C25: A batch is sent as it is, on every attempt.  If the bytes of a started batch are within
    the 16 MiB of a batch, there is one request that carries it, to its bucket, for its target
    columns, with the writer's settings, and whose bytes a server decodes to the batch's mutations in
    order with the writer's id and its sequence number; and whatever the environment answers, the
    reply is that of attempts that all put this request.  A batch beyond the limit is refused
    without a request.  A batch whose accounted size leaves a byte per record and the header is
    within the limit. *)
Theorem kv_request_faithful (backend : upsertBackend) (table : Table) (options : list (option UpsertWriterOption))
    (w : UpsertWriter) (s : writer) (j : job) :
  newUpsertWriter backend table options = Ok w -> exportedOptions options ->
  kvReachable w s -> Started j ∈ trace (w_loop s) -> srange 64 (uw_writerID w) = true ->
  let records := map pk_record (kp_items (j_batch j)) in
  (putBytes records <= maxRowBytes ->
    exists request, carries w j request /\ forall env, executeBatch w env j = Ok (sendPut w env request)) /\
  (maxRowBytes < putBytes records ->
    forall env, executeBatch w env j = Ok (MkKVReply 0 false 0 false (Some (Plain ErrMalformedRecordBatch)))) /\
  (Forall accounted (kp_items (j_batch j)) ->
    kp_bytes (j_batch j) + glen (kp_items (j_batch j)) + kvBatchHeaderSize <= maxRowBytes -> putBytes records <= maxRowBytes).
Proof.
  intros Ho Hx Hr Hj Hw records.
  pose proof (kv_started backend table options w Ho Hx s j Hr Hj) as (Hok & Hseq).
  destruct (KVBatch_Encode_fits (MkKVBatch (int16 (tab_SchemaID (uw_table w))) (uw_writerID w) (j_sequence j) (kp_records (j_batch j)))) as [Hfit Hover].
  cbn [kb_Records] in Hfit, Hover. rewrite (bo_records _ _ Hok) in Hfit, Hover. fold records in Hfit, Hover.
  unfold executeBatch. rewrite (bo_records _ _ Hok). fold records. split; [|split].
  - intros Hb. destruct (Hfit Hb) as [encoded E]. rewrite E. eexists. split; [|done].
    apply KVBatch_Encode_Decode in E; [|unfold kvInRange; cbn; by rewrite Hw, Hseq, swrap_srange].
    repeat (split; [done|]). cbn. rewrite E. unfold retainBatch. cbn. subst records. by rewrite map_map.
  - intros Hb env. by rewrite (Hover Hb).
  - intros Ha Hb. apply accounted_bytes in Ha. fold records in Ha. rewrite (bo_bytes _ _ Hok) in Hb. unfold putBytes. lia.
Qed.

Lemma kv_request_faithful_witness :
  putBytes (map pk_record (kp_items (j_batch sampleJob))) <= maxRowBytes /\
  exists request, carries sampleWriter sampleJob request /\ forall env, executeBatch sampleWriter env sampleJob = Ok (sendPut sampleWriter env request).
Proof.
  assert (Hb : putBytes (map pk_record (kp_items (j_batch sampleJob))) <= maxRowBytes) by (vm_compute; discriminate). split; [exact Hb|].
  refine (proj1 (kv_request_faithful sampleBackend sampleTable sampleOptions sampleWriter sampleRun1 sampleJob
    sampleWriter_opened sampleOptions_exported sampleRun1_reached _ _) Hb).
  - apply list_elem_of_In. vm_compute. tauto.
  - vm_compute. reflexivity.
Defined.
