(* ===== verification/LogWriter.v ===== *)
(** * The log writer

    Models [pkg/fgo/log_writer.go], [pkg/fgo/append_writer_options.go] and the request and reply
    handling of [pkg/fgo/append_writer_backend.go]: configuration, the rows and Arrow batches a
    caller appends, their routing to buckets, batching, and the request of a batch.  The
    scheduler and the command loop are those of [Scheduler] and [WriterLoop].

    Arrow record batches belong to the Arrow library: their type and operations are the
    [ArrowLibrary] of [Arrow]. *)

From S2P Require Import Prelude Model Wire Values Codec DecodeSafety EncodeSafety Roundtrip Keys Bucket RecordBatch Arrow Errors WriterRetry Partition Scheduler WriterLoop.

(** ** Configuration *)

Definition NoKeyAssignerSticky : string := "sticky".
Definition NoKeyAssignerRoundRobin : string := "round-robin".


(** Durations are nanoseconds. *)
Record AppendWriterConfig := MkAppendWriterConfig {
  ac_MaxBatchBytes : Z;
  ac_MaxBatchRecords : Z;
  ac_MaxBuffered : Z;
  ac_MaxConcurrentRequests : Z;
  ac_BatchTimeout : Z;
  ac_RequestTimeout : Z;
  ac_Acks : Z;
  ac_RetryPolicy : WriterRetryPolicy;
  ac_NoKeyAssigner : string;
  ac_Partition : string;
  ac_Format : string;
  ac_ArrowCompressionType : Z;
  ac_arrowCompressionSet : bool;
}.

Definition AppendWriterOption : Type := AppendWriterConfig -> outcome AppendWriterConfig.

Definition WithAppendBatchLimits (bytes records : Z) : AppendWriterOption := fun c =>
  if (bytes <=? logBatchV0HeaderSize) || (maxRowBytes <? bytes) || (records <=? 0) then Err ErrInvalidConfig
  else Ok (MkAppendWriterConfig bytes records (ac_MaxBuffered c) (ac_MaxConcurrentRequests c) (ac_BatchTimeout c)
    (ac_RequestTimeout c) (ac_Acks c) (ac_RetryPolicy c) (ac_NoKeyAssigner c) (ac_Partition c) (ac_Format c)
    (ac_ArrowCompressionType c) (ac_arrowCompressionSet c)).

Definition WithAppendBuffer (records : Z) : AppendWriterOption := fun c =>
  if records <=? 0 then Err ErrInvalidConfig
  else Ok (MkAppendWriterConfig (ac_MaxBatchBytes c) (ac_MaxBatchRecords c) records (ac_MaxConcurrentRequests c)
    (ac_BatchTimeout c) (ac_RequestTimeout c) (ac_Acks c) (ac_RetryPolicy c) (ac_NoKeyAssigner c) (ac_Partition c)
    (ac_Format c) (ac_ArrowCompressionType c) (ac_arrowCompressionSet c)).

Definition WithAppendConcurrency (requests : Z) : AppendWriterOption := fun c =>
  if (requests <? 1) || (64 <? requests) then Err ErrInvalidConfig
  else Ok (MkAppendWriterConfig (ac_MaxBatchBytes c) (ac_MaxBatchRecords c) (ac_MaxBuffered c) requests
    (ac_BatchTimeout c) (ac_RequestTimeout c) (ac_Acks c) (ac_RetryPolicy c) (ac_NoKeyAssigner c) (ac_Partition c)
    (ac_Format c) (ac_ArrowCompressionType c) (ac_arrowCompressionSet c)).

Definition WithAppendBatchTimeout (timeout : Z) : AppendWriterOption := fun c =>
  if timeout <? 0 then Err ErrInvalidConfig
  else Ok (MkAppendWriterConfig (ac_MaxBatchBytes c) (ac_MaxBatchRecords c) (ac_MaxBuffered c)
    (ac_MaxConcurrentRequests c) timeout (ac_RequestTimeout c) (ac_Acks c) (ac_RetryPolicy c) (ac_NoKeyAssigner c)
    (ac_Partition c) (ac_Format c) (ac_ArrowCompressionType c) (ac_arrowCompressionSet c)).

Definition WithAppendRequest (timeout acks : Z) : AppendWriterOption := fun c =>
  if (timeout <=? 0) || (2147483647 <? Z.quot timeout nsMillisecond)
     || (negb (acks =? 0) && negb (acks =? 1) && negb (acks =? -1)) then Err ErrInvalidConfig
  else Ok (MkAppendWriterConfig (ac_MaxBatchBytes c) (ac_MaxBatchRecords c) (ac_MaxBuffered c)
    (ac_MaxConcurrentRequests c) (ac_BatchTimeout c) timeout acks (ac_RetryPolicy c) (ac_NoKeyAssigner c)
    (ac_Partition c) (ac_Format c) (ac_ArrowCompressionType c) (ac_arrowCompressionSet c)).

Definition WithAppendRetryPolicy (policy : WriterRetryPolicy) : AppendWriterOption := fun c =>
  Ok (MkAppendWriterConfig (ac_MaxBatchBytes c) (ac_MaxBatchRecords c) (ac_MaxBuffered c)
    (ac_MaxConcurrentRequests c) (ac_BatchTimeout c) (ac_RequestTimeout c) (ac_Acks c) policy (ac_NoKeyAssigner c)
    (ac_Partition c) (ac_Format c) (ac_ArrowCompressionType c) (ac_arrowCompressionSet c)).

Definition WithAppendNoKeyAssigner (assigner : string) : AppendWriterOption := fun c =>
  if bool_decide (assigner = NoKeyAssignerSticky) || bool_decide (assigner = NoKeyAssignerRoundRobin)
  then Ok (MkAppendWriterConfig (ac_MaxBatchBytes c) (ac_MaxBatchRecords c) (ac_MaxBuffered c)
    (ac_MaxConcurrentRequests c) (ac_BatchTimeout c) (ac_RequestTimeout c) (ac_Acks c) (ac_RetryPolicy c) assigner
    (ac_Partition c) (ac_Format c) (ac_ArrowCompressionType c) (ac_arrowCompressionSet c))
  else Err ErrInvalidConfig.

Definition setAppendPartition (partition : string) (c : AppendWriterConfig) : AppendWriterConfig :=
  MkAppendWriterConfig (ac_MaxBatchBytes c) (ac_MaxBatchRecords c) (ac_MaxBuffered c)
    (ac_MaxConcurrentRequests c) (ac_BatchTimeout c) (ac_RequestTimeout c) (ac_Acks c) (ac_RetryPolicy c)
    (ac_NoKeyAssigner c) partition (ac_Format c) (ac_ArrowCompressionType c) (ac_arrowCompressionSet c).

Definition WithAppendPartition (partition : string) : AppendWriterOption := fun c =>
  _ ← PhysicalTablePath_Validate (MkPhysicalTablePath (MkTablePath "d" "t") partition);
  Ok (setAppendPartition partition c).

Definition WithAppendPartitionSpec (s : Schema) (spec : PartitionSpec) : AppendWriterOption := fun c =>
  partition ← PartitionName s spec;
  Ok (setAppendPartition partition c).

Definition WithAppendLogFormat (format : string) : AppendWriterOption := fun c =>
  if bool_decide (format ∈ [LogFormatAuto; LogFormatArrow; LogFormatIndexed; LogFormatCompacted])
  then Ok (MkAppendWriterConfig (ac_MaxBatchBytes c) (ac_MaxBatchRecords c) (ac_MaxBuffered c)
    (ac_MaxConcurrentRequests c) (ac_BatchTimeout c) (ac_RequestTimeout c) (ac_Acks c) (ac_RetryPolicy c)
    (ac_NoKeyAssigner c) (ac_Partition c) format (ac_ArrowCompressionType c) (ac_arrowCompressionSet c))
  else Err ErrInvalidConfig.

Definition WithAppendArrowCompression (compression : Z) : AppendWriterOption := fun c =>
  if (compression =? ArrowCompressionNone) || (compression =? ArrowCompressionLZ4) || (compression =? ArrowCompressionZSTD)
  then Ok (MkAppendWriterConfig (ac_MaxBatchBytes c) (ac_MaxBatchRecords c) (ac_MaxBuffered c)
    (ac_MaxConcurrentRequests c) (ac_BatchTimeout c) (ac_RequestTimeout c) (ac_Acks c) (ac_RetryPolicy c)
    (ac_NoKeyAssigner c) (ac_Partition c) (ac_Format c) compression true)
  else Err ErrInvalidConfig.

Definition defaultAppendWriterConfig : AppendWriterConfig :=
  MkAppendWriterConfig (Z.shiftl 1 20) 1000 10000 4 (5 * nsMillisecond) (30 * nsSecond) (-1)
    defaultWriterRetryPolicy "" "" LogFormatAuto ArrowCompressionNone false.

(** The option loop; a nil option is [None]. *)
Fixpoint applyAppendOptions (options : list (option AppendWriterOption)) (c : AppendWriterConfig)
    : outcome AppendWriterConfig :=
  match options with
  | [] => Ok c
  | None :: _ => Err ErrInvalidConfig
  | Some option :: options => c ← option c; applyAppendOptions options c
  end.

Definition appendWriterConfig (options : list (option AppendWriterOption)) : outcome AppendWriterConfig :=
  config ← applyAppendOptions options defaultAppendWriterConfig;
  _ ← validateWriterRetryPolicy (ac_RetryPolicy config) (ac_Acks config);
  Ok config.

(** ** Opening a writer *)

Definition validateAppendWriterFormat (table : Table) (config : AppendWriterConfig) : outcome unit :=
  _ ← check (negb (ac_arrowCompressionSet config && negb (bool_decide (ac_Format config = LogFormatAuto))
                   && negb (bool_decide (ac_Format config = LogFormatArrow)))) ErrInvalidConfig;
  let configured := TrimSpace (default "" (default ∅ (tab_Properties table) !! "table.log.format"))%string in
  check (negb (negb (bool_decide (configured = ""%string)) && negb (bool_decide (ac_Format config = LogFormatAuto))
               && negb (EqualFold configured (ac_Format config)))) ErrInvalidConfig.

Definition validateAppendWriterTable (table : Table) : outcome unit :=
  _ ← RequireLog table;
  _ ← Schema_Validate (tab_Schema table);
  check (negb ((tab_SchemaID table <? 0) || (32767 <? tab_SchemaID table))) ErrInvalidSchema.

Record AppendWriter := MkAppendWriter {
  aw_table : Table;
  aw_path : PhysicalTablePath;
  aw_config : AppendWriterConfig;
  aw_tableID : Z;
  aw_partitionID : Z;
  aw_writerID : Z;
  aw_buckets : list Z;
}.

(** [appendWriterBackend]: the calls to the cluster a new writer makes; a backend without
    [ensurePartition] has none. *)
Record appendBackend := MkAppendBackend {
  apb_ensurePartition : option (PhysicalTablePath -> list string -> outcome unit);
  apb_metadata : PhysicalTablePath -> outcome (Z * gmap Z ServerNode);
  apb_initWriter : PhysicalTablePath -> Z -> outcome Z;
}.

Definition ensureAppendWriterPartition (backend : appendBackend) (path : PhysicalTablePath) (partitionKeys : list string)
    : outcome unit :=
  match apb_ensurePartition backend with
  | None => Ok tt
  | Some ensurePartition => ensurePartition path partitionKeys
  end.

Definition newAppendWriter (backend : appendBackend) (table : Table) (options : list (option AppendWriterOption))
    : outcome AppendWriter :=
  _ ← validateAppendWriterTable table;
  config ← appendWriterConfig options;
  _ ← validateAppendWriterFormat table config;
  let path := MkPhysicalTablePath (tab_Path table) (ac_Partition config) in
  _ ← ensureAppendWriterPartition backend path (sch_PartitionKey (tab_Schema table));
  '(physicalID, locations) ← apb_metadata backend path;
  _ ← check (negb (bool_decide (pp_Partition path = ""%string) && negb (physicalID =? tab_ID table))) ErrMetadata;
  buckets ← sortedBuckets locations;
  _ ← check (negb (negb (tab_BucketCount table =? 0) && negb (tab_BucketCount table =? glen buckets))) ErrMetadata;
  first ← index buckets 0;
  writerID ← apb_initWriter backend path first;
  Ok (MkAppendWriter table path config (tab_ID table)
        (if bool_decide (pp_Partition path = ""%string) then -1 else physicalID) writerID buckets).

(** ** Rows and Arrow batches *)

Section Log.
Context {Rec : Type} (library : ArrowLibrary Rec).

(** A queued append; the future is its identity, and [pw_ctxErr] is what [ctx.Err()] answers
    when the loop takes it. *)
Record pendingWrite := MkPendingWrite {
  pw_future : nat;
  pw_ctxErr : option callError;
  pw_row : Row;
  pw_arrow : option Rec;
  pw_changes : list Z;
  pw_bucket : option Z;
  pw_size : Z;
}.

Record bucketBatch := MkBucketBatch {
  bb_items : list pendingWrite;
  bb_records : list Record_;
  bb_bytes : Z;
}.

Section Writer.
Variable w : AppendWriter.
Abbreviation config := (aw_config w).
Abbreviation schema := (tab_Schema (aw_table w)).
Abbreviation buckets := (aw_buckets w).

(** [Append] up to [enqueue]: the item that is sent, or the error its future gets.  A nil
    context is [None]. *)
Definition Append_ (ctx : option (option callError)) (row : Row) (future : nat) : outcome pendingWrite :=
  match ctx with
  | None => Err ErrInvalidConfig
  | Some ctxErr =>
    _ ← check (negb (bool_decide (ac_Format config = LogFormatArrow))) ErrInvalidConfig;
    _ ← ValidateRow schema row [];
    encoded ← EncodeCompactedRow schema row;
    Ok (MkPendingWrite future ctxErr row None [] None (glen encoded + 5))
  end.

Definition hasBucket (bucket : Z) : bool := existsb (fun candidate => candidate =? bucket) buckets.

(** [expected.Equal(batch.Schema())] is the library's comparison of schemas. *)
Variable schemaEqual : list ArrowField -> list ArrowField -> bool.

Definition AppendArrow (ctx : option (option callError)) (bucket : Z) (batch : option Rec) (changes : list Z) (future : nat)
    : outcome pendingWrite :=
  match ctx, batch with
  | Some ctxErr, Some batch =>
    _ ← check (negb (bool_decide (ac_Format config = LogFormatIndexed)
                     || bool_decide (ac_Format config = LogFormatCompacted))) ErrInvalidConfig;
    expected ← ArrowSchema schema;
    _ ← check (schemaEqual expected (al_Schema library batch)) ErrInvalidSchema;
    _ ← check (negb (negb (hasBucket bucket) || negb (glen changes =? al_NumRows library batch))) ErrInvalidRow;
    _ ← check (forallb (fun change => bool_decide (ChangeType_Validate change = Ok tt)) changes) ErrInvalidRow;
    Ok (MkPendingWrite future ctxErr [] (Some batch) changes (Some bucket) (al_NumRows library batch))
  | _, _ => Err ErrInvalidConfig
  end.

(** ** Routing *)

(** [roundRobin] and [stickyIndex].  [roundRobin] counts appended rows in a 64-bit int that no
    run of the program exhausts. *)
Record routing := MkRouting { rt_roundRobin : Z; rt_stickyIndex : Z }.

Definition newRouting : routing := MkRouting 0 (-1).

Definition effectiveNoKeyAssigner : string :=
  if negb (glen (sch_BucketKey schema) =? 0) then ""
  else if bool_decide (ac_NoKeyAssigner config = ""%string) then NoKeyAssignerSticky
  else ac_NoKeyAssigner config.

(** [positions[column.Name] = index] for every column: the last one wins. *)
Fixpoint positionIn (columns : list Column) (i : Z) (name : string) : option Z :=
  match columns with
  | [] => None
  | column :: columns =>
    match positionIn columns (i + 1) name with
    | Some position => Some position
    | None => if decide (col_Name column = name) then Some i else None
    end
  end.

Fixpoint bucketKeyLoop (row : Row) (names : list string) : outcome PrimaryKey :=
  match names with
  | [] => Ok []
  | name :: names =>
    match positionIn (sch_Columns schema) 0 name with
    | None => Err ErrInvalidRow
    | Some position =>
      v ← index row position;
      if isNil v then Err ErrInvalidRow
      else values ← bucketKeyLoop row names; Ok (v :: values)
    end
  end.

Definition bucketKeyValues (row : Row) : outcome PrimaryKey := bucketKeyLoop row (sch_BucketKey schema).

Definition assignBucket (item : pendingWrite) (r : routing) : outcome (Z * routing) :=
  match pw_bucket item with
  | Some bucket => Ok (bucket, r)
  | None =>
    if negb (glen (sch_BucketKey schema) =? 0) then
      values ← bucketKeyValues (pw_row item);
      key ← encodeKeyColumns schema (sch_BucketKey schema) values;
      bucket ← flussBucket key (glen buckets);
      bucket ← index buckets bucket;
      Ok (bucket, r)
    else if bool_decide (effectiveNoKeyAssigner = NoKeyAssignerRoundRobin) then
      bucket ← index buckets (Z.rem (rt_roundRobin r) (glen buckets));
      Ok (bucket, MkRouting (rt_roundRobin r + 1) (rt_stickyIndex r))
    else
      let r := if rt_stickyIndex r <? 0 then MkRouting (rt_roundRobin r) 0 else r in
      bucket ← index buckets (rt_stickyIndex r);
      Ok (bucket, r)
  end.

Definition advanceSticky (r : routing) : routing :=
  if 1 <? glen buckets then MkRouting (rt_roundRobin r) (Z.rem (rt_stickyIndex r + 1) (glen buckets)) else r.

(** ** Batches *)

(** [count := 1], or the number of changes of an Arrow item. *)
Definition itemCount (item : pendingWrite) : Z :=
  match pw_arrow item with None => 1 | Some _ => glen (pw_changes item) end.

Fixpoint completeItems (items : list pendingWrite) (bucket offset : Z) (offsetKnown : bool) (err : option callError)
    : list (pendingWrite * WriteResult) :=
  match items with
  | [] => []
  | item :: items =>
    (item, MkWriteResult bucket offset offsetKnown (itemCount item) 0 false err) ::
    completeItems items bucket (if offsetKnown then int64 (offset + itemCount item) else offset) offsetKnown err
  end.

Definition completeBatch (batch : bucketBatch) (bucket baseOffset : Z) (offsetKnown : bool) (err : option callError)
    : list (pendingWrite * WriteResult) :=
  completeItems (bb_items batch) bucket baseOffset offsetKnown err.

(** What [executeBatch] sends back. *)
Record logReply := MkLogReply {
  lr_baseOffset : Z;
  lr_offsetKnown : bool;
  lr_err : option callError;
}.

(** [Record{Value: item.row, Change: Append, Offset: -1}] *)
Definition rowRecord (item : pendingWrite) : Record_ :=
  MkRecord [] (pw_row item) Append (MkTime (-62135596800) 0 0) (-1).

(** What [Append] and [AppendArrow] establish of an item they send. *)
Definition logItemOK (item : pendingWrite) : Prop :=
  match pw_arrow item with
  | None => pw_bucket item = None /\ ValidateRow schema (pw_row item) [] = Ok tt /\
            exists encoded, EncodeCompactedRow schema (pw_row item) = Ok encoded /\ pw_size item = glen encoded + 5
  | Some batch => (exists bucket, pw_bucket item = Some bucket /\ bucket ∈ buckets) /\
                  glen (pw_changes item) = al_NumRows library batch
  end.

(** What every batch satisfies: a batch of rows carries them in order, its size is theirs and
    it respects the limits (a row larger than [MaxBatchBytes] goes alone); an Arrow batch goes
    alone. *)
Record rowBatchOK (batch : bucketBatch) : Prop := {
  ro_rows : Forall (fun item => pw_arrow item = None) (bb_items batch);
  ro_items : Forall logItemOK (bb_items batch);
  ro_records : bb_records batch = map rowRecord (bb_items batch);
  ro_bytes : bb_bytes batch = foldr Z.add 0 (map pw_size (bb_items batch));
  ro_limits : glen (bb_items batch) <= ac_MaxBatchRecords config /\
    (bb_bytes batch <= ac_MaxBatchBytes config \/ glen (bb_items batch) <= 1);
}.

Definition arrowBatchOK (batch : bucketBatch) : Prop :=
  exists item, bb_items batch = [item] /\ is_Some (pw_arrow item) /\ logItemOK item.

Definition logBatchOK (batch : bucketBatch) : Prop := rowBatchOK batch \/ arrowBatchOK batch.

(** The bucket rows without a key go to. *)
Definition stickyBucket (r : routing) : option Z := buckets !! Z.to_nat (Z.max 0 (rt_stickyIndex r)).

(** Between commands, open batches hold rows, and with the sticky assigner only the current
    bucket's holds any. *)
Record routingOK (r : routing) (open : gmap Z bucketBatch) : Prop := {
  ok_roundRobin : 0 <= rt_roundRobin r;
  ok_sticky : -1 <= rt_stickyIndex r < glen buckets;
  ok_rows : forall b batch, open !! b = Some batch -> Forall (fun item => pw_arrow item = None) (bb_items batch);
  ok_single : effectiveNoKeyAssigner = NoKeyAssignerSticky ->
    forall b batch, open !! b = Some batch -> stickyBucket r <> Some b -> bb_items batch = [];
}.

#[local] Instance logWriter : BatchWriter pendingWrite bucketBatch logReply routing := {|
  batchItems := bb_items;
  replyErr := lr_err;
  failBatch batch bucket err := completeBatch batch bucket 0 false (Some err);
  succeedBatch batch bucket reply := completeBatch batch bucket (lr_baseOffset reply) (lr_offsetKnown reply) None;
  onStart _ _ r := (r, 0);
  onSuccess _ _ _ r := r;
  extOK := routingOK;
  batchOK := logBatchOK;
|}.

(** ** Adding an append to a batch *)

Abbreviation loop := (@loop pendingWrite bucketBatch routing).
Abbreviation maxRequests := (ac_MaxConcurrentRequests config).
Abbreviation logFlushBucket := (flushBucket buckets maxRequests).

(** [batch]: the open batch of a bucket, created when there is none. *)
Definition openBatch (bucket : Z) (st : loop) : loop * bucketBatch :=
  match l_batches st !! bucket with
  | Some batch => (st, batch)
  | None => let batch := MkBucketBatch [] [] 0 in (setBatch bucket batch st, batch)
  end.

Definition logBatchFull (batch : bucketBatch) : bool :=
  (ac_MaxBatchRecords config <=? glen (bb_items batch)) || (ac_MaxBatchBytes config <=? bb_bytes batch).

Definition logBatchFullWith (batch : bucketBatch) (item : pendingWrite) : bool :=
  (ac_MaxBatchRecords config <=? glen (bb_items batch)) || (ac_MaxBatchBytes config <? bb_bytes batch + pw_size item).

Definition logArmTimer (st : loop) : loop :=
  if negb (l_timer st) && (0 <? ac_BatchTimeout config) then setTimer true st else st.

(** The bucket and batch an item joins; without them its future has got an error. *)
Definition availableBatch (clock : Z -> Z) (bucket : Z) (item : pendingWrite) (st : loop)
    : outcome (loop * option (Z * bucketBatch)) :=
  let '(st, batch) := openBatch bucket st in
  if (glen (bb_items batch) =? 0) || negb (logBatchFullWith batch item) then Ok (st, Some (bucket, batch))
  else
    let st := (logFlushBucket clock bucket st).1 in
    if negb (bool_decide (effectiveNoKeyAssigner = NoKeyAssignerSticky)) then
      let '(st, batch) := openBatch bucket st in Ok (st, Some (bucket, batch))
    else
      let st := setExt (advanceSticky (l_ext st)) st in
      match assignBucket item (l_ext st) with
      | Ok (next, r) => let '(st, batch) := openBatch next (setExt r st) in Ok (st, Some (next, batch))
      | Err e => Ok (emit [Rejected item (Plain e)] st, None)
      | Panic => Panic
      | OutOfFuel => OutOfFuel
      end.

Definition appendRow (batch : bucketBatch) (item : pendingWrite) : bucketBatch :=
  MkBucketBatch (bb_items batch ++ [item]) (bb_records batch ++ [rowRecord item]) (bb_bytes batch + pw_size item).

Definition logAdd (clock : Z -> Z) (item : pendingWrite) (st : loop) : outcome loop :=
  match pw_ctxErr item with
  | Some err => Ok (emit [Rejected item err] st)
  | None =>
    match assignBucket item (l_ext st) with
    | Panic => Panic
    | OutOfFuel => OutOfFuel
    | Err e => Ok (emit [Rejected item (Plain e)] st)
    | Ok (bucket, r) =>
      let st := setExt r st in
      match pw_arrow item with
      | Some _ =>
        let st := (logFlushBucket clock bucket st).1 in
        let st := emit [Accepted bucket item] (setBatch bucket (MkBucketBatch [item] [] 0) st) in
        Ok (logFlushBucket clock bucket st).1
      | None =>
        '(st, available) ← availableBatch clock bucket item st;
        match available with
        | None => Ok st
        | Some (bucket, batch) =>
          let batch := appendRow batch item in
          let st := emit [Accepted bucket item] (setBatch bucket batch st) in
          if logBatchFull batch || (ac_BatchTimeout config =? 0) then
            let st := (logFlushBucket clock bucket st).1 in
            if bool_decide (effectiveNoKeyAssigner = NoKeyAssignerSticky)
            then Ok (setExt (advanceSticky (l_ext st)) st) else Ok st
          else Ok (logArmTimer st)
        end
      end
    end
  end.

#[local] Instance logAdder : ItemAdder pendingWrite bucketBatch routing := {|
  itemOK := logItemOK;
  addItem := logAdd;
|}.

(** *** The scheduler and the command loop of this writer

    [flushBucket], [dispatch], [handleCompletion], [queueAll] and [flushAll] are those of
    [Scheduler] and [WriterLoop] on these batches; [logStep] is [enqueue], [Flush], [Close] and
    [run]. *)

Definition logDispatch : (Z -> Z) -> loop -> loop := dispatch buckets maxRequests.

Definition logHandleCompletion : (Z -> Z) -> Z -> job -> logReply -> loop -> loop * list callError :=
  handleCompletion buckets maxRequests.

Definition logQueueAll : (Z -> Z) -> loop -> loop * list callError := queueAll buckets maxRequests.

Definition logFlushAll : (Z -> Z) -> (loop -> nat * logReply * (Z -> Z) * Z) -> loop -> loop * list callError :=
  flushAll buckets maxRequests.

Definition logStep : relation (@writer pendingWrite bucketBatch routing) :=
  step (Reply:=logReply) buckets maxRequests (ac_MaxBuffered config).

(** ** Theorems: routing *)

Hypothesis distinct : NoDup buckets.
Hypothesis someBuckets : buckets <> [].
Hypothesis fewBuckets : glen buckets < 2 ^ 31.
Hypothesis someRecords : 1 <= ac_MaxBatchRecords config.
Hypothesis typed : forallb columnTyped (sch_Columns schema) = true.
Hypothesis valid : Schema_Validate schema = Ok tt.

Lemma buckets_pos : 0 < glen buckets.
Proof. destruct buckets as [|b l]; [done|]. rewrite glen_cons. pose proof (glen_nonneg l). lia. Qed.

#[local] Instance logWriterLaws : BatchWriterLaws pendingWrite bucketBatch logReply routing.
Proof.
  assert (Hitems : forall items bucket offset known err,
    (completeItems items bucket offset known err).*1 = items).
  { induction items as [|item items IH]; intros; [done|]. cbn. by rewrite IH. }
  assert (Herr : forall items bucket offset known err item result,
    (item, result) ∈ completeItems items bucket offset known err -> wr_Err result = err).
  { induction items as [|i items IH]; intros bucket offset known err item result H; cbn in H.
    - by apply not_elem_of_nil in H.
    - apply elem_of_cons in H as [[= -> ->]|H]; [done|]. by eapply IH. }
  split; try done.
  - intros. apply Hitems.
  - intros. apply Hitems.
  - intros batch bucket err item result. apply Herr.
  - intros batch bucket reply item result. apply Herr.
  - intros ext open bucket [H1 H2 H3 H4]. split; [done|done| |].
    + intros b batch [_ H]%lookup_delete_Some. by eapply H3.
    + intros Hs b batch [_ H]%lookup_delete_Some. by eapply H4.
Qed.

Lemma positionIn_range name columns : forall i p, positionIn columns i name = Some p -> i <= p < i + glen columns.
Proof.
  induction columns as [|c columns IH]; intros i p H; cbn in H; [done|]. rewrite glen_cons.
  pose proof (glen_nonneg columns). destruct (positionIn columns (i + 1) name) as [q|] eqn:E.
  - simplify_eq. specialize (IH _ _ E). lia.
  - case_decide; [|done]. simplify_eq. lia.
Qed.

Lemma bucketKeyLoop_returns row names : glen row = glen (sch_Columns schema) ->
  returns (bucketKeyLoop row names) = true.
Proof.
  intros Hl. induction names as [|name names IH]; [done|]. cbn [bucketKeyLoop].
  destruct (positionIn _ 0 name) as [p|] eqn:E; [|done]. apply positionIn_range in E.
  destruct (index_safe row p) as [v ->]; [lia|]. cbn. case_match; [done|]. by apply bind_returns.
Qed.

Lemma index_elem {A} (l : list A) i a : index l i = Ok a -> a ∈ l.
Proof. intros H. apply index_Ok in H as (_ & H). by apply list_elem_of_lookup_2 in H. Qed.

Lemma flussBucket_range key bucket : flussBucket key (glen buckets) = Ok bucket -> 0 <= bucket < glen buckets.
Proof.
  intros H. destruct (decide (key = [])) as [->|Hne]; [done|].
  destruct (flussBucket_total key (glen buckets) Hne) as (b & E & Hb); [pose proof buckets_pos; lia|].
  rewrite E in H. by simplify_eq.
Qed.

Lemma flussBucket_returns key : returns (flussBucket key (glen buckets)) = true.
Proof.
  destruct (decide (key = [])) as [->|Hne]; [done|].
  destruct (flussBucket_total key (glen buckets) Hne) as (b & E & Hb); [pose proof buckets_pos; lia|]. by rewrite E.
Qed.

(** A row routed by its bucket key. *)
Lemma assignKey_spec item (r : routing) :
  glen (pw_row item) = glen (sch_Columns schema) -> sch_BucketKey schema <> [] ->
  let assigned := values ← bucketKeyValues (pw_row item);
                  key ← encodeKeyColumns schema (sch_BucketKey schema) values;
                  bucket ← flussBucket key (glen buckets);
                  bucket ← index buckets bucket; Ok (bucket, r) in
  returns assigned = true /\ forall bucket r', assigned = Ok (bucket, r') -> bucket ∈ buckets /\ r' = r.
Proof.
  intros Hrow Hk. split.
  - apply bind_returns; [by apply bucketKeyLoop_returns|]. intros values _.
    apply bind_returns; [by apply encodeKeyColumns_returns|]. intros key _.
    apply bind_returns; [apply flussBucket_returns|]. intros b Hb%flussBucket_range.
    destruct (index_safe buckets b Hb) as [b' ->]. done.
  - intros bucket r' H. inv_ok. split; [by eapply index_elem|done].
Qed.

Lemma logItem_row item : logItemOK item -> pw_arrow item = None ->
  pw_bucket item = None /\ glen (pw_row item) = glen (sch_Columns schema).
Proof.
  unfold logItemOK. intros Hi Ha. rewrite Ha in Hi. destruct Hi as (H1 & H2 & _).
  split; [done|]. unfold ValidateRow in H2. inv_ok. rename select ((_ =? _) = true) into Hl.
  cbn [selectedColumns] in Hl. rewrite glen_fmap in Hl. lia.
Qed.

(** Routing an item: a bucket of the table, or an error. *)
Lemma assignBucket_spec item r (open : gmap Z bucketBatch) :
  routingOK r open -> logItemOK item ->
  returns (assignBucket item r) = true /\
  forall bucket r', assignBucket item r = Ok (bucket, r') -> bucket ∈ buckets /\ routingOK r' open /\
    (pw_arrow item = None -> effectiveNoKeyAssigner = NoKeyAssignerSticky -> stickyBucket r' = Some bucket).
Proof.
  intros Hok Hi. pose proof buckets_pos as Hpos. pose proof (logItem_row item Hi) as Hrow0. unfold assignBucket, logItemOK in *.
  destruct (pw_arrow item) as [a|] eqn:Ea.
  { destruct Hi as ((b & Hb & Hin) & _). rewrite Hb. split; [done|]. by intros bucket r' [= <- <-]. }
  destruct (Hrow0 eq_refl) as [Eb Hrow]. rewrite Eb.
  destruct (negb (glen (sch_BucketKey schema) =? 0)) eqn:Ek.
  { destruct (assignKey_spec item r Hrow) as [Hret Hspec]; [intros E; by rewrite E in Ek|]. split; [done|].
    intros bucket r' H. destruct (Hspec bucket r' H) as [Hb ->]. split; [done|]. split; [done|].
    intros _ Hs. unfold effectiveNoKeyAssigner in Hs. by rewrite Ek in Hs. }
  destruct Hok as [H1 H2 H3 H4]. case_bool_decide as Er.
  { destruct (index_safe buckets (Z.rem (rt_roundRobin r) (glen buckets))) as [b Hb].
    { rewrite Z.rem_mod_nonneg by lia. apply Z.mod_pos_bound. lia. }
    rewrite Hb. split; [done|]. intros bucket r' [= <- <-]. split; [by eapply index_elem|].
    split; [split; cbn; try done; try lia|]. intros _ Hs. by rewrite Hs in Er. }
  set (r1 := if rt_stickyIndex r <? 0 then MkRouting (rt_roundRobin r) 0 else r).
  assert (Hr1 : routingOK r1 open /\ 0 <= rt_stickyIndex r1 < glen buckets).
  { subst r1. destruct (Z.ltb_spec (rt_stickyIndex r) 0) as [Hneg|Hpos']; [|by split; [|lia]].
    split; [|cbn; lia]. split; cbn; [done|lia|done|]. intros Hs b batch Hb Hne. eapply H4; [done..|].
    unfold stickyBucket in *. cbn in Hne. by rewrite Z.max_l in * by lia. }
  destruct Hr1 as [Hr1 Hrange]. destruct (index_safe buckets (rt_stickyIndex r1) Hrange) as [b Hb]. rewrite Hb.
  split; [done|]. intros bucket r' [= <- <-]. split; [by eapply index_elem|]. split; [done|]. intros _ _.
  unfold stickyBucket. rewrite Z.max_r by lia. by apply index_Ok in Hb as (_ & ->).
Qed.

(** ** Theorems: adding an append *)

Abbreviation inv := (inv buckets maxRequests).
Abbreviation settled := (settled maxRequests).

Lemma emptyBatchOK : logBatchOK (MkBucketBatch [] [] 0).
Proof. left. split; cbn; try done. rewrite glen_nil. split; [lia|]. by right. Qed.

Lemma routingOK_insert r (open : gmap Z bucketBatch) b batch :
  routingOK r open -> Forall (fun item => pw_arrow item = None) (bb_items batch) ->
  (bb_items batch = [] \/ (effectiveNoKeyAssigner = NoKeyAssignerSticky -> stickyBucket r = Some b)) ->
  routingOK r (<[b := batch]> open).
Proof.
  intros [H1 H2 H3 H4] Hrows Hone. split; [done|done| |].
  - intros b' batch' [[<- <-]|[_ H]]%lookup_insert_Some; [done|by eapply H3].
  - intros Hs b' batch' [[<- <-]|[_ H]]%lookup_insert_Some Hne; [|by eapply H4].
    destruct Hone as [->|Hst]; [done|]. by rewrite (Hst Hs) in Hne.
Qed.

(** With the sticky assigner, a flush of the current bucket leaves no open row, and moving to
    the next bucket is safe. *)
Lemma advance_ok r (open : gmap Z bucketBatch) :
  routingOK r open ->
  (forall b batch, open !! b = Some batch -> bb_items batch = []) -> routingOK (advanceSticky r) open.
Proof.
  intros [H1 H2 H3 H4] He. pose proof buckets_pos. unfold advanceSticky.
  destruct (Z.ltb_spec 1 (glen buckets)); [|by split].
  split; cbn; [done| |done|intros _ b batch Hb _; by eapply He].
  rewrite Z.rem_mod_nonneg by lia. pose proof (Z.mod_pos_bound (rt_stickyIndex r + 1) (glen buckets)). lia.
Qed.

(** The state in which a row can join [batch], the open batch of [b]. *)
Record logReady (item : pendingWrite) (st st' : loop) (b : Z) (batch : bucketBatch) : Prop := {
  lrd_inv : inv st';
  lrd_settled : settled st';
  lrd_extends : extends st st';
  lrd_bucket : b ∈ buckets;
  lrd_batch : l_batches st' !! b = Some batch;
  lrd_sticky : effectiveNoKeyAssigner = NoKeyAssignerSticky -> stickyBucket (l_ext st') = Some b;
}.

Lemma openBatch_ready item b (st st1 : loop) :
  inv st1 -> settled st1 -> extends st st1 -> b ∈ buckets ->
  (effectiveNoKeyAssigner = NoKeyAssignerSticky -> stickyBucket (l_ext st1) = Some b) ->
  logReady item st (openBatch b st1).1 b (openBatch b st1).2 /\
  bb_items (openBatch b st1).2 = v_batch (viewOf st1 b).
Proof.
  intros Hi Hs He Hb Hst. unfold openBatch. cbn. destruct (l_batches st1 !! b) as [batch|] eqn:E; [by split|].
  split; [|done]. split; try done.
  - apply inv_setBatch; [done|done|apply emptyBatchOK|cbn; by rewrite E|].
    apply routingOK_insert; [apply (inv_ext _ _ _ Hi)|done|by left].
  - cbn. by rewrite lookup_insert_eq.
Qed.

Lemma setExt_extends r (st : loop) : extends st (setExt r st).
Proof. exists []. split; [by rewrite app_nil_r|done]. Qed.

(** Every open batch is empty once the current bucket is flushed. *)
Lemma flushed_empty b (st st' : loop) :
  inv st -> flushed buckets maxRequests b st st' -> effectiveNoKeyAssigner = NoKeyAssignerSticky ->
  stickyBucket (l_ext st) = Some b -> forall b' batch, l_batches st' !! b' = Some batch -> bb_items batch = [].
Proof.
  intros Hi Hf Hs Hst b' batch Hb'. destruct (decide (b' = b)) as [->|Hne].
  - pose proof (fl_batch _ _ _ _ _ Hf) as H. cbn in H. by rewrite Hb' in H.
  - rewrite (fl_other _ _ _ _ _ Hf) in Hb' by done.
    eapply (ok_single _ _ (inv_ext _ _ _ Hi) Hs); [done|]. rewrite Hst. congruence.
Qed.

Definition fits (batch : bucketBatch) (item : pendingWrite) : Prop :=
  bb_items batch = [] \/ logBatchFullWith batch item = false.

Lemma availableBatch_spec clock b item (st : loop) :
  inv st -> settled st -> logItemOK item -> pw_arrow item = None -> b ∈ buckets ->
  (effectiveNoKeyAssigner = NoKeyAssignerSticky -> stickyBucket (l_ext st) = Some b) ->
  exists st' available, availableBatch clock b item st = Ok (st', available) /\
  match available with
  | Some (b', batch) => logReady item st st' b' batch /\ fits batch item
  | None => inv st' /\ settled st' /\
            exists evs err, trace st' = trace st ++ evs ++ [Rejected item err] /\ Forall internal evs
  end.
Proof.
  intros Hi Hs Hok Ha Hb Hst. unfold availableBatch.
  destruct (openBatch_ready item b st st Hi Hs (reflexivity _) Hb Hst) as [Hr _].
  destruct (openBatch b st) as [st1 batch]. cbn [fst snd] in Hr.
  destruct ((glen (bb_items batch) =? 0) || negb (logBatchFullWith batch item)) eqn:Efit.
  { exists st1, (Some (b, batch)). split; [done|]. split; [done|].
    apply orb_true_iff in Efit as [E|E]; [left; apply glen_0_nil; lia|right; by apply negb_true_iff]. }
  pose proof (flushBucket_spec _ _ distinct clock b st1 (lrd_inv _ _ _ _ _ Hr) (lrd_settled _ _ _ _ _ Hr)) as Hf.
  set (st2 := (logFlushBucket clock b st1).1) in *.
  assert (He2 : extends st st2) by (transitivity st1; [apply Hr|apply Hf]).
  case_bool_decide as Esticky; cbn [negb].
  - pose proof (flushed_empty b st1 st2 (lrd_inv _ _ _ _ _ Hr) Hf Esticky (lrd_sticky _ _ _ _ _ Hr Esticky)) as Hempty.
    pose proof (fl_inv _ _ _ _ _ Hf) as Hi2.
    pose proof (advance_ok _ _ (inv_ext _ _ _ Hi2) Hempty) as Hadv.
    set (st3 := setExt (advanceSticky (l_ext st2)) st2). fold st3.
    assert (Hi3 : inv st3) by (by apply inv_setExt).
    destruct (assignBucket_spec item (l_ext st3) (l_batches st3) Hadv Hok) as [Hret Hspec].
    destruct (assignBucket item (l_ext st3)) as [[next r]|e| |] eqn:Eas; try done.
    + destruct (Hspec next r eq_refl) as (Hnext & Hr' & Hst').
      assert (Hi4 : inv (setExt r st3)) by (by apply inv_setExt).
      destruct (openBatch_ready item next st (setExt r st3) Hi4) as [Hr4 Hitems]; [apply Hf| |done|by intros; apply Hst'|].
      { transitivity st2; [done|]. apply (setExt_extends r st2). }
      destruct (openBatch next (setExt r st3)) as [st4 batch4]. cbn [fst snd] in Hr4, Hitems.
      exists st4, (Some (next, batch4)). split; [done|]. split; [done|]. left. rewrite Hitems. cbn.
      destruct (l_batches st2 !! next) as [bt|] eqn:E; [by eapply Hempty|done].
    + exists (emit [Rejected item (Plain e)] st3), None. split; [done|]. split; [by apply inv_reject|].
      split; [apply Hf|]. destruct He2 as (evs & E2 & Hint). exists evs, (Plain e). split; [|done].
      cbn. by rewrite E2, app_assoc.
  - destruct (openBatch_ready item b st st2 (fl_inv _ _ _ _ _ Hf) (fl_settled _ _ _ _ _ Hf) He2 Hb) as [Hr2 Hitems]; [done|].
    destruct (openBatch b st2) as [st3 batch3]. cbn [fst snd] in Hr2, Hitems.
    exists st3, (Some (b, batch3)). split; [done|]. split; [done|]. left. rewrite Hitems. apply (fl_batch _ _ _ _ _ Hf).
Qed.

(** An open batch holds rows. *)
Lemma open_rows b batch (st : loop) : inv st -> l_batches st !! b = Some batch -> rowBatchOK batch.
Proof.
  intros Hi Hb. destruct (inv_batches _ _ _ Hi _ _ Hb) as [_ [H|(item & E & Ha & _)]]; [done|].
  pose proof (ok_rows _ _ (inv_ext _ _ _ Hi) _ _ Hb) as Hr. rewrite E in Hr.
  inversion Hr as [|? ? H]; subst. rewrite H in Ha. by destruct Ha.
Qed.

Lemma foldr_add_app (l : list Z) x : foldr Z.add 0 (l ++ [x]) = foldr Z.add 0 l + x.
Proof. induction l as [|y l IH]; cbn; lia. Qed.

Lemma appendRow_ok batch item :
  rowBatchOK batch -> logItemOK item -> pw_arrow item = None -> fits batch item -> rowBatchOK (appendRow batch item).
Proof.
  intros [Hr Hi Hrec Hb [Hl1 Hl2]] Hok Ha Hfit. split; cbn.
  - apply Forall_app. split; [done|]. by constructor.
  - apply Forall_app. split; [done|]. by constructor.
  - by rewrite map_app, Hrec.
  - rewrite map_app. cbn [map]. by rewrite foldr_add_app, Hb.
  - rewrite glen_app, glen_cons, glen_nil. destruct Hfit as [E|Hf].
    + rewrite E, glen_nil. split; [lia|]. right. lia.
    + unfold logBatchFullWith in Hf. apply orb_false_iff in Hf as [H1 H2]. split; [lia|]. left. lia.
Qed.

Abbreviation added := (added buckets maxRequests).

(** An Arrow batch goes alone: the bucket's open batch is flushed, then it is. *)
Lemma addArrow_spec clock b item r (st : loop) :
  inv (setExt r st) -> settled st -> is_Some (pw_arrow item) -> logItemOK item -> b ∈ buckets ->
  let st1 := (logFlushBucket clock b (setExt r st)).1 in
  let st2 := emit [Accepted b item] (setBatch b (MkBucketBatch [item] [] 0) st1) in
  added item st (logFlushBucket clock b st2).1.
Proof.
  intros Hi Hs Ha Hok Hb st1 st2.
  pose proof (flushBucket_spec _ _ distinct clock b (setExt r st) Hi Hs) as Hf. fold st1 in Hf.
  assert (Hc2 : core buckets maxRequests st2).
  { apply core_put; [apply Hf|done|right; by exists item|]. cbn [bb_items batchItems logWriter].
    by rewrite (fl_batch _ _ _ _ _ Hf). }
  assert (Hf2 : flushed buckets maxRequests b st2 (logFlushBucket clock b st2).1).
  { apply (flushOpen_spec _ _ distinct clock b (MkBucketBatch [item] [] 0)); try done.
    - subst st2. cbn. rewrite delete_insert_eq. exact (extOK_delete _ _ _ (inv_ext _ _ _ (fl_inv _ _ _ _ _ Hf))).
    - apply (fl_settled _ _ _ _ _ Hf).
    - subst st2. cbn. by rewrite lookup_insert_eq. }
  destruct (fl_extends _ _ _ _ _ Hf) as (evs & E1 & Hint1).
  destruct (fl_extends _ _ _ _ _ Hf2) as (evs2 & E2 & Hint2).
  split; [apply Hf2|apply Hf2|]. exists (evs ++ [Accepted b item] ++ evs2). split.
  - rewrite E2. subst st2. cbn. rewrite E1. cbn. by rewrite <- !app_assoc.
  - by rewrite !offered_app, (internal_offered evs Hint1), (internal_offered evs2 Hint2).
Qed.

(** A row joins a batch it fits in; a full batch is flushed. *)
Lemma addRow_spec clock b batch item (st st1 : loop) :
  logReady item st st1 b batch -> fits batch item -> logItemOK item -> pw_arrow item = None ->
  let st2 := emit [Accepted b item] (setBatch b (appendRow batch item) st1) in
  exists st', (if logBatchFull (appendRow batch item) || (ac_BatchTimeout config =? 0) then
     let st := (logFlushBucket clock b st2).1 in
     if bool_decide (effectiveNoKeyAssigner = NoKeyAssignerSticky)
     then Ok (setExt (advanceSticky (l_ext st)) st) else Ok st
   else Ok (logArmTimer st2)) = Ok st' /\ added item st st'.
Proof.
  intros [H1 H2 (evs & H3 & Hint) H4 H5 H6] Hfit Hio Ha st2.
  pose proof (appendRow_ok batch item (open_rows _ _ _ H1 H5) Hio Ha Hfit) as Hok.
  assert (Hx : routingOK (l_ext st1) (<[b := appendRow batch item]> (l_batches st1))).
  { apply routingOK_insert; [apply (inv_ext _ _ _ H1)|apply Hok|by right]. }
  assert (Hi2 : inv st2).
  { apply inv_put; [done|done|by left| |done]. cbn. by rewrite H5. }
  assert (Ht2 : exists evs, trace st2 = trace st ++ evs /\ offered evs = [item]).
  { exists (evs ++ [Accepted b item]). cbn. rewrite H3, app_assoc. split; [done|].
    by rewrite offered_app, (internal_offered evs Hint). }
  destruct (_ || _).
  - pose proof (flushBucket_spec _ _ distinct clock b st2 Hi2 H2) as Hf.
    set (st3 := (logFlushBucket clock b st2).1) in *.
    assert (Ht3 : exists evs, trace st3 = trace st ++ evs /\ offered evs = [item]).
    { destruct (fl_extends _ _ _ _ _ Hf) as (evs' & G3 & Gint). destruct Ht2 as (evs3 & E3 & O3). exists (evs3 ++ evs').
      rewrite G3, E3, app_assoc. split; [done|]. by rewrite offered_app, O3, (internal_offered evs' Gint). }
    case_bool_decide as Es.
    + pose proof (flushed_empty b st2 st3 Hi2 Hf Es (H6 Es)) as Hempty.
      pose proof (advance_ok _ _ (inv_ext _ _ _ (fl_inv _ _ _ _ _ Hf)) Hempty) as Hadv.
      eexists. split; [reflexivity|]. split; [by apply inv_setExt; [apply Hf|]|apply Hf|done].
    + eexists. split; [reflexivity|]. split; [apply Hf|apply Hf|done].
  - eexists. split; [reflexivity|]. unfold logArmTimer. destruct (_ && _); split; try done; by apply inv_timer.
Qed.

Lemma logAdd_spec clock item (st : loop) :
  inv st -> settled st -> logItemOK item -> exists st', logAdd clock item st = Ok st' /\ added item st st'.
Proof.
  intros Hi Hs Hok. unfold logAdd. destruct (pw_ctxErr item) as [err|].
  { eexists. split; [reflexivity|]. split; [by apply inv_reject|done|]. by eexists. }
  destruct (assignBucket_spec item (l_ext st) (l_batches st) (inv_ext _ _ _ Hi) Hok) as [Hret Hspec].
  destruct (assignBucket item (l_ext st)) as [[b r]|e| |] eqn:Eas; try done.
  2:{ eexists. split; [reflexivity|]. split; [by apply inv_reject|done|]. by eexists. }
  destruct (Hspec b r eq_refl) as (Hb & Hr & Hst). assert (Hi1 : inv (setExt r st)) by (by apply inv_setExt).
  destruct (pw_arrow item) as [a|] eqn:Ea.
  { eexists. split; [reflexivity|]. by apply addArrow_spec; [| |rewrite Ea| |]. }
  destruct (availableBatch_spec clock b item (setExt r st) Hi1 Hs Hok Ea Hb) as (st1 & available & Eav & Hav);
    [by intros; apply Hst|].
  rewrite Eav. cbn [mbind outcome_bind]. destruct available as [[b' batch]|].
  - destruct Hav as [Hready Hfit]. apply (addRow_spec clock b' batch item st st1); [|done|done|done].
    by destruct Hready.
  - destruct Hav as (Hi' & Hs' & evs & err & Htr & Hint). exists st1. split; [done|]. split; [done|done|].
    exists (evs ++ [Rejected item err]). split; [done|]. by rewrite offered_app, (internal_offered evs Hint).
Qed.

#[local] Instance logAdderLaws : ItemAdderLaws pendingWrite bucketBatch logReply routing buckets maxRequests.
Proof. split. intros clock item st Hi Hs Hok. by apply logAdd_spec. Qed.

(** ** The items callers send *)

Lemma Append_ok ctx row future item : Append_ ctx row future = Ok item -> logItemOK item /\ pw_row item = row.
Proof.
  unfold Append_. destruct ctx as [ctxErr|]; [|done]. intros H. inv_ok. split; [|done]. unfold logItemOK. cbn.
  split; [done|]. split; [by eapply unit_ok|]. by eexists.
Qed.

Lemma AppendArrow_ok ctx bucket batch changes future item :
  AppendArrow ctx bucket batch changes future = Ok item ->
  logItemOK item /\ pw_arrow item = batch /\ pw_changes item = changes /\ pw_bucket item = Some bucket.
Proof.
  unfold AppendArrow. destruct ctx as [ctxErr|], batch as [batch|]; try done. intros H. inv_ok.
  rename select (negb (_ || _) = true) into Hc. apply negb_true_iff, orb_false_iff in Hc as [Hb Hn].
  split; [|done]. unfold logItemOK. cbn. split; [|lia]. exists bucket. split; [done|].
  apply negb_false_iff, existsb_exists in Hb as (b & Hin & Heq). apply Z.eqb_eq in Heq. subst b. by apply list_elem_of_In.
Qed.

(** ** The request of a batch *)

Record logProduceRequest := MkLogProduceRequest {
  lq_path : PhysicalTablePath;
  lq_bucket : Z;
  lq_tableID : Z;
  lq_partitionID : Z;
  lq_records : list byte;
  lq_timeout : Z;
  lq_acks : Z;
}.

(** The [ProduceLogRequest] of [produce], with its one bucket. *)
Record produceMessage := MkProduceMessage {
  pm_Acks : Z;
  pm_TableId : Z;
  pm_TimeoutMs : Z;
  pm_BucketId : Z;
  pm_PartitionId : option Z;
  pm_Records : list byte;
}.

Definition produceRequest (input : logProduceRequest) : outcome produceMessage :=
  if 2147483647 <? Z.quot (lq_timeout input) nsMillisecond then Err ErrInvalidConfig
  else Ok (MkProduceMessage (lq_acks input) (lq_tableID input) (int32 (Z.quot (lq_timeout input) nsMillisecond))
             (lq_bucket input)
             (if bool_decide (pp_Partition (lq_path input) = ""%string) then None else Some (lq_partitionID input))
             (lq_records input)).

Record produceBucketResponse := MkProduceBucketResponse {
  pbr_BucketId : Z;
  pbr_ErrorCode : Z;
  pbr_ErrorMessage : string;
  pbr_BaseOffset : Z;
}.

Definition APIKeyProduceLog : Z := 1014.

(** [produce] on the buckets of a decoded response. *)
Definition produceResult (bucket : Z) (responses : list produceBucketResponse) : Z + callError :=
  match responses with
  | [result] =>
    if negb (pbr_BucketId result =? bucket) then inr (Plain ErrValidation)
    else match responseServerError (pbr_ErrorCode result) (pbr_ErrorMessage result) APIKeyProduceLog with
         | Some err => inr (ServerErr err)
         | None => inl (pbr_BaseOffset result)
         end
  | _ => inr (Plain ErrValidation)
  end.

(** What the environment of a request is: the answer of [produce] to each attempt, and the
    context of the request after each attempt, during each wait and at the end. *)
Record produceEnv := MkProduceEnv {
  pv_produce : logProduceRequest -> Z -> Z + callError;
  pv_ctxErr : Z -> option callError;
  pv_ctxWhileWaiting : Z -> option callError;
  pv_ctxEnd : option callError;
}.

Definition produceAttempts (env : produceEnv) (request : logProduceRequest) : attemptEnv :=
  MkAttemptEnv
    (fun attempt => match pv_produce env request attempt with
                    | inl offset => (offset, true, None)
                    | inr err => (0, false, Some err)
                    end)
    (pv_ctxErr env) (pv_ctxWhileWaiting env).

(** The bytes of a batch, and how many records they hold. *)
Definition encodeBatch (batch : bucketBatch) (sequence : Z) : outcome (list byte * Z) :=
  let rows :=
    encoded ← LogBatch_EncodeRows
      (MkLogBatch 0 (-1) 0 0 (int16 (tab_SchemaID (aw_table w))) true (aw_writerID w) sequence (bb_records batch))
      schema (negb (bool_decide (ac_Format config = LogFormatIndexed)));
    Ok (encoded, glen (bb_records batch)) in
  match bb_items batch with
  | [item] =>
    match pw_arrow item with
    | Some record =>
      encoded ← EncodeArrowLogBatch library
        (MkArrowLogBatch 0 (-1) 0 0 (int16 (tab_SchemaID (aw_table w))) false (aw_writerID w) sequence
           (Some record) (pw_changes item)) (ac_ArrowCompressionType config);
      Ok (encoded, glen (pw_changes item))
    | None => rows
    end
  | _ => rows
  end.

Definition executeLogBatch (env : produceEnv) (j : @job bucketBatch) : outcome logReply :=
  match encodeBatch (j_batch j) (j_sequence j) with
  | Ok (encoded, _) =>
    let request := MkLogProduceRequest (aw_path w) (j_bucket j) (aw_tableID w) (aw_partitionID w) encoded
      (ac_RequestTimeout config) (ac_Acks config) in
    let result := executeWriterRequest (ac_RetryPolicy config) (produceAttempts env request) (pv_ctxEnd env) in
    Ok (MkLogReply (ar_offset result) (ar_offsetKnown result) (ar_err result))
  | Err e => Ok (MkLogReply 0 false (Some (Plain e)))
  | Panic => Panic
  | OutOfFuel => OutOfFuel
  end.

(** *** The bytes of a batch of rows *)

Definition rowHeader (sequence : Z) (records : list Record_) : LogBatch :=
  MkLogBatch 0 (-1) 0 0 (int16 (tab_SchemaID (aw_table w))) true (aw_writerID w) sequence records.

Lemma encodeBatch_rows batch sequence : rowBatchOK batch ->
  encodeBatch batch sequence =
  (encoded ← LogBatch_EncodeRows (rowHeader sequence (bb_records batch)) schema
     (negb (bool_decide (ac_Format config = LogFormatIndexed)));
   Ok (encoded, glen (bb_records batch))).
Proof.
  intros [Hr _ _ _ _]. unfold encodeBatch. destruct (bb_items batch) as [|item [|]]; try done.
  inversion Hr as [|? ? Ha]; subst. by rewrite Ha.
Qed.

Lemma encodeLogRecords_rows items : forall encoded,
  Forall logItemOK items -> Forall (fun item => pw_arrow item = None) items ->
  exists r, encodeLogRecords schema true (map rowRecord items) encoded = Ok r /\
    glen r = glen encoded + foldr Z.add 0 (map pw_size items) /\ exists records, r = encoded ++ records.
Proof.
  induction items as [|item items IH]; intros encoded Hok Ha.
  { exists encoded. cbn. split; [done|]. split; [lia|]. exists []. by rewrite app_nil_r. }
  inversion Hok as [|? ? Hi His]; subst. inversion Ha as [|? ? Hai Has]; subst.
  unfold logItemOK in Hi. rewrite Hai in Hi. destruct Hi as (_ & _ & row & Hrow & Hsize).
  cbn [map encodeLogRecords foldr]. change (ChangeType_Validate (rec_Change (rowRecord item))) with (Ok tt).
  cbn [mbind outcome_bind EncodeRowAs rowRecord rec_Value rec_Change]. rewrite Hrow. cbn [mbind outcome_bind].
  edestruct (IH (encoded ++ le_split 4 (uint32 (1 + glen row)) ++ [byte.of_Z Append] ++ row)) as (r & Hr & Hl & records & Hrec);
    [done|done|].
  exists r. split; [exact Hr|]. split.
  - rewrite Hl, !glen_app, glen_le_split, Hsize. change (glen [_]) with 1. lia.
  - eexists. rewrite Hrec, <- !app_assoc. reflexivity.
Qed.

(** Rows a writer accepted always encode in the compacted format, 48 bytes over their size. *)
Lemma encodeRows_rows sequence items :
  Forall logItemOK items -> Forall (fun item => pw_arrow item = None) items ->
  exists encoded, LogBatch_EncodeRows (rowHeader sequence (map rowRecord items)) schema true = Ok encoded /\
    glen encoded = logBatchV0HeaderSize + foldr Z.add 0 (map pw_size items).
Proof.
  intros Hok Ha. set (b := rowHeader sequence (map rowRecord items)).
  destruct (encodeLogRecords_rows items (logPrefix b ++ zeros 4 ++ logCovered b []) Hok Ha) as (r & Hr & Hl & records & ->).
  exists (logLayout b records). split.
  - unfold LogBatch_EncodeRows. cbv zeta. change (negb (lb_Magic b =? 0) && negb (lb_Magic b =? 1)) with false. cbv iota.
    rewrite (log_header b (fun encoded crcOffset schemaOffset =>
      encoded ← encodeLogRecords schema true (lb_Records b) encoded;
      encoded ← putLE 4 encoded 8 (uint32 (glen encoded - 12));
      covered ← slice_from encoded schemaOffset;
      putLE 4 encoded crcOffset (crc32c covered))).
    change (lb_Records b) with (map rowRecord items) at 1. rewrite Hr. cbn [mbind outcome_bind].
    rewrite <- !app_assoc, <- logCovered_app. apply log_seal.
  - destruct (logLayout_fields b records) as (Hg & _); [by left|]. rewrite Hg, logCovered_glen, logEpoch_glen.
    change (lb_Magic b =? 1) with false. unfold logBatchV0HeaderSize.
    rewrite !glen_app in Hl. lia.
Qed.
End Writer.
End Log.
