(* ===== verification/LogProperties.v ===== *)
(** * Correctness of the log writer

    The theorems of [LogWriter]: its configuration, every run of an open writer, and the
    requests it makes.  The run at the end is the concrete input of the theorems. *)

From S2P Require Import Prelude Model Wire Values Codec DecodeSafety EncodeSafety Roundtrip Keys Bucket RecordBatch Arrow Errors WriterRetry Partition Scheduler WriterLoop WriterRun LogWriter.

(** ** Configuration *)

(** The options the package exports. *)
Inductive appendOption : AppendWriterOption -> Prop :=
| isAppendBatchLimits bytes records : appendOption (WithAppendBatchLimits bytes records)
| isAppendBuffer records : appendOption (WithAppendBuffer records)
| isAppendConcurrency requests : appendOption (WithAppendConcurrency requests)
| isAppendBatchTimeout timeout : appendOption (WithAppendBatchTimeout timeout)
| isAppendRequest timeout acks : appendOption (WithAppendRequest timeout acks)
| isAppendRetryPolicy policy : appendOption (WithAppendRetryPolicy policy)
| isAppendNoKeyAssigner assigner : appendOption (WithAppendNoKeyAssigner assigner)
| isAppendPartition partition : appendOption (WithAppendPartition partition)
| isAppendPartitionSpec s spec : appendOption (WithAppendPartitionSpec s spec)
| isAppendLogFormat format : appendOption (WithAppendLogFormat format)
| isAppendArrowCompression compression : appendOption (WithAppendArrowCompression compression).

(** The bounds every option keeps. *)
Record appendBounds (c : AppendWriterConfig) : Prop := {
  ab_bytes : logBatchV0HeaderSize < ac_MaxBatchBytes c <= maxRowBytes;
  ab_records : 1 <= ac_MaxBatchRecords c;
  ab_buffered : 1 <= ac_MaxBuffered c;
  ab_requests : 1 <= ac_MaxConcurrentRequests c <= 64;
  ab_batchTimeout : 0 <= ac_BatchTimeout c;
  ab_requestTimeout : 0 < ac_RequestTimeout c /\ Z.quot (ac_RequestTimeout c) nsMillisecond <= 2147483647;
  ab_acks : ac_Acks c = 0 \/ ac_Acks c = 1 \/ ac_Acks c = -1;
}.

Lemma appendOption_bounds option c c' :
  appendOption option -> appendBounds c -> option c = Ok c' -> appendBounds c'.
Proof.
  intros Ho [] E. destruct Ho; cbv [WithAppendBatchLimits WithAppendBuffer WithAppendConcurrency WithAppendBatchTimeout
    WithAppendRequest WithAppendRetryPolicy WithAppendNoKeyAssigner WithAppendPartition WithAppendPartitionSpec
    WithAppendLogFormat WithAppendArrowCompression] in E; inv_ok; try case_match; simplify_eq;
    split; cbn; try done; lia.
Qed.

Lemma applyAppendOptions_bounds options : forall c c',
  Forall (fun o => forall f, o = Some f -> appendOption f) options -> appendBounds c ->
  applyAppendOptions options c = Ok c' -> appendBounds c'.
Proof.
  induction options as [|o options IH]; intros c c' Hf Hb E; cbn in E; [by simplify_eq|].
  inversion Hf as [|? ? Ho Hos]; subst. destruct o as [option|]; [|done]. inv_ok.
  eapply IH; [done| |done]. by eapply appendOption_bounds; [apply Ho| |].
Qed.

Lemma defaultAppend_bounds : appendBounds defaultAppendWriterConfig.
Proof. split; cbn; try done; try lia; by vm_compute. Qed.

Definition exportedAppendOptions (options : list (option AppendWriterOption)) : Prop :=
  Forall (fun o => forall f, o = Some f -> appendOption f) options.

(** ** Every run of an open writer *)

Section LogProperties.
Context {Rec : Type} (library : ArrowLibrary Rec).
Variables (backend : appendBackend) (table : Table) (options : list (option AppendWriterOption)) (w : AppendWriter).
Hypothesis opened : newAppendWriter backend table options = Ok w.
Hypothesis exported : exportedAppendOptions options.
Hypothesis typed : forallb columnTyped (sch_Columns (tab_Schema table)) = true.
Hypothesis few : glen (aw_buckets w) < 2 ^ 31.

Abbreviation config := (aw_config w).
Abbreviation buckets := (aw_buckets w).
Abbreviation schema := (tab_Schema table).
#[local] Instance openLog : BatchWriter pendingWrite bucketBatch logReply routing := logWriter library w.
#[local] Instance openLogAdder : ItemAdder pendingWrite bucketBatch routing := logAdder library w.

(** The states of the writer [w]: any interleaving of its callers, its timer and the replies. *)
Definition logReachable : writer -> Prop := rtc (logStep library w) (newWriter newRouting).

Lemma log_opened : appendBounds config /\ NoDup buckets /\ buckets <> [] /\ aw_table w = table /\
  Schema_Validate schema = Ok tt /\ 0 <= tab_SchemaID table <= 32767.
Proof.
  pose proof opened as H. unfold newAppendWriter in H. inv_ok. case_match. inv_ok. cbn in *.
  rename select (sortedBuckets _ = _) into Hsorted. pose proof (sortedBuckets_ids g) as Hids. rewrite Hsorted in Hids.
  destruct Hids as (_ & Hnd & Hne & _).
  rename select (appendWriterConfig _ = _) into Hconf. unfold appendWriterConfig in Hconf. inv_ok.
  rename select (validateAppendWriterTable _ = _) into Htab. unfold validateAppendWriterTable in Htab. inv_ok.
  split; [by eapply applyAppendOptions_bounds; [apply exported|apply defaultAppend_bounds|]|].
  split; [done|]. split; [done|]. split; [done|]. split; [by eapply unit_ok|lia].
Qed.

#[local] Instance openLogLaws : BatchWriterLaws pendingWrite bucketBatch logReply routing := logWriterLaws library w.

#[local] Instance openLogAdderLaws :
  ItemAdderLaws pendingWrite bucketBatch logReply routing buckets (ac_MaxConcurrentRequests config).
Proof.
  destruct log_opened as ([] & ? & ? & Ht & ?). apply logAdderLaws; try done. by rewrite Ht.
Qed.

Lemma newRouting_ok : routingOK w newRouting (∅ : gmap Z (@bucketBatch Rec)).
Proof.
  destruct log_opened as (_ & _ & Hne & _). split; cbn; try done.
  pose proof (glen_nonneg buckets). destruct buckets as [|b bs] eqn:E; [done|]. rewrite glen_cons.
  pose proof (glen_nonneg bs). lia.
Qed.

Lemma logReachable_winv s : logReachable s ->
  winv buckets (ac_MaxConcurrentRequests config) (ac_MaxBuffered config) s.
Proof.
  destruct log_opened as ([] & ? & _). apply winv_reachable; [apply openLogAdderLaws|done|lia|apply newRouting_ok|lia].
Qed.

Lemma log_requests : 1 <= ac_MaxConcurrentRequests config.
Proof. by destruct log_opened as ([_ _ _ [? _]] & _). Qed.

(** C3: The log writer neither loses, duplicates nor reorders an append, and requests to a
    bucket are stop-and-wait.  Whatever the interleaving of callers, timers and replies, what a
    bucket accepted is, in order, what is completed, in flight, waiting and in the open batch;
    what was sent is a prefix of it; and a batch is sent only when every earlier one of its
    bucket was answered with success, with the next sequence number. *)
Theorem log_writer_delivery (s : writer) (b : Z) :
  logReachable s ->
  let v := viewOf (w_loop s) b in
  acceptedItems (v_trace v) =
    completedItems (v_trace v) ++ itemsOf (map j_batch (v_jobs v)) ++ itemsOf (v_pending v) ++ v_batch v /\
  startedItems (v_trace v) `prefix_of` acceptedItems (v_trace v) /\
  stopAndWait (v_trace v) /\ (length (v_jobs v) <= 1)%nat.
Proof.
  intros Hr v. pose proof (inv_good _ _ _ (wi_loop _ _ _ _ (logReachable_winv s Hr)) b) as Hg.
  split; [apply (good_account _ Hg)|]. split; [by apply good_prefix|]. split; [apply (good_order _ Hg)|].
  subst v. destruct (good_active _ Hg) as [[-> _]|(j & -> & _)]; cbn; lia.
Qed.

(** A flush of the log writer is answered only when every append sent before it is done,
    and when the writer has closed its queue is empty, it took every append ever sent and
    completed each one its buckets accepted. *)
Theorem log_flush_close (s : writer) :
  logReachable s ->
  (forall closing mark errs, w_mode s = Flushing closing mark errs -> l_inFlight (w_loop s) = 0 ->
     offered (trace (w_loop s)) = take mark (w_sent s) /\
     forall b, completedItems (at_ b (trace (w_loop s))) = acceptedItems (at_ b (trace (w_loop s)))) /\
  (w_mode s = Stopped ->
     w_commands s = [] /\ w_closed s = true /\ offered (trace (w_loop s)) = w_sent s /\
     forall b, completedItems (at_ b (trace (w_loop s))) = acceptedItems (at_ b (trace (w_loop s)))).
Proof.
  intros Hr. split.
  - intros closing mark errs.
    apply (flush_barrier_aux buckets _ (ac_MaxBuffered config) log_requests), logReachable_winv, Hr.
  - apply (stopped_drained buckets _ (ac_MaxBuffered config) log_requests), logReachable_winv, Hr.
Qed.

(** [flushAll] of the log writer terminates: in any reachable state, whatever the servers
    answer and in whatever order, it returns with nothing in flight and every accepted append
    completed. *)
Theorem log_flush_terminates (s : writer) (clock : Z -> Z) (answer : loop -> nat * logReply * (Z -> Z) * Z) :
  logReachable s ->
  let st := (logFlushAll library w clock answer (w_loop s)).1 in
  l_inFlight st = 0 /\ offered (trace st) = offered (trace (w_loop s)) /\
  forall b, completedItems (at_ b (trace st)) = acceptedItems (at_ b (trace st)).
Proof.
  intros Hr. pose proof (logReachable_winv s Hr) as Hw. destruct log_opened as (_ & Hnd & _).
  by destruct (flushAll_spec buckets (ac_MaxConcurrentRequests config) Hnd log_requests clock answer (w_loop s)
    (wi_loop _ _ _ _ Hw) (wi_settled _ _ _ _ Hw)) as (_ & _ & ? & ? & ?).
Qed.

(** The loop of the log writer takes every append: routing and batching neither panic nor
    get stuck, so a waiting command is served, and inside a flush there is a reply to wait for
    or the flush can be answered. *)
Theorem log_loop_progress (s : writer) :
  logReachable s ->
  (w_mode s = Running /\ w_commands s <> []) \/ (exists closing mark errs, w_mode s = Flushing closing mark errs) ->
  (exists j, running (w_loop s) !! 0%nat = Some j) \/
  exists s', logStep library w s s' /\
    (w_mode s = Running -> w_commands s' = tail (w_commands s)).
Proof. intros Hr. apply loop_progress; [apply openLogAdderLaws|by apply logReachable_winv]. Qed.

(** Between commands the log writer holds open rows only: an Arrow batch never waits with
    rows, and with the sticky assigner at most one bucket, the current one, has open rows. *)
Theorem log_sticky_single (s : writer) (b b' : Z) (batch batch' : bucketBatch) :
  logReachable s -> l_batches (w_loop s) !! b = Some batch -> l_batches (w_loop s) !! b' = Some batch' ->
  Forall (fun item => pw_arrow item = None) (bb_items batch) /\
  (effectiveNoKeyAssigner w = NoKeyAssignerSticky -> bb_items batch <> [] -> bb_items batch' <> [] -> b = b').
Proof.
  intros Hr Hb Hb'. pose proof (inv_ext _ _ _ (wi_loop _ _ _ _ (logReachable_winv s Hr))) as Hx.
  split; [by eapply (ok_rows _ _ _ Hx)|]. intros Hs Hne Hne'.
  pose proof (ok_single _ _ _ Hx Hs b batch Hb) as H1. pose proof (ok_single _ _ _ Hx Hs b' batch' Hb') as H2.
  destruct (decide (stickyBucket w (l_ext (w_loop s)) = Some b)) as [E|E]; [|by destruct (Hne (H1 E))].
  destruct (decide (stickyBucket w (l_ext (w_loop s)) = Some b')) as [E'|E']; [|by destruct (Hne' (H2 E'))].
  congruence.
Qed.

(** What every started batch satisfies. *)
Lemma log_started (s : writer) (j : job) :
  logReachable s -> Started j ∈ trace (w_loop s) -> logBatchOK library w (j_batch j) /\ srange 32 (j_sequence j) = true.
Proof.
  intros Hr Hj. pose proof (inv_good _ _ _ (wi_loop _ _ _ _ (logReachable_winv s Hr)) (j_bucket j)) as Hg.
  apply at_started in Hj. split; [by destruct (started_batches _ j Hg Hj)|].
  apply list_elem_of_split in Hj as (pre & post & E). destruct (good_order _ Hg pre j post E) as (_ & _ & ->).
  by apply swrap_srange.
Qed.

(** The request of every batch of rows can be encoded and carries exactly its rows.  In the
    compacted format encoding succeeds with 48 bytes more than the batch's accounted size, so
    within [MaxBatchBytes] and a header unless the batch is one row; and what
    [DecodeLogBatchRows] reads from it are the batch's rows in order, the writer and the
    batch's sequence number. *)
Theorem log_request_faithful (s : writer) (j : job) (zone : Z -> Z) :
  logReachable s -> Started j ∈ trace (w_loop s) -> ac_Format config <> LogFormatIndexed ->
  Forall (fun item => pw_arrow item = None /\ forallb wfValue (pw_row item) = true) (bb_items (j_batch j)) ->
  srange 64 (aw_writerID w) = true -> rowHeaderBytes schema compactedEncoding <= maxRowBytes ->
  exists encoded, encodeBatch library w (j_batch j) (j_sequence j) = Ok (encoded, glen (bb_items (j_batch j))) /\
    glen encoded = logBatchV0HeaderSize + bb_bytes (j_batch j) /\
    (glen encoded <= logBatchV0HeaderSize + ac_MaxBatchBytes config \/ glen (bb_items (j_batch j)) <= 1) /\
    (glen encoded <= maxRowBytes -> DecodeLogBatchRows zone schema encoded true =
       Ok (retainLog zone schema true (rowHeader w (j_sequence j) (map rowRecord (bb_items (j_batch j)))))).
Proof.
  intros Hr Hj Hfmt Hrows Hid Hh. destruct (log_started s j Hr Hj) as [Hok Hseq].
  destruct log_opened as (_ & _ & _ & Ht & _ & Hsid).
  assert (Hrow : rowBatchOK library w (j_batch j)).
  { destruct Hok as [H|(item & E & Ha & _)]; [done|]. rewrite E in Hrows.
    inversion Hrows as [|? ? [Hn _]]; subst. rewrite Hn in Ha. by destruct Ha. }
  destruct Hrow as [Hr1 Hr2 Hr3 Hr4 Hr5]. rewrite encodeBatch_rows by (by split). rewrite bool_decide_eq_false_2 by done.
  rewrite Hr3, glen_map, Hr4.
  destruct (encodeRows_rows library w (j_sequence j) (bb_items (j_batch j)) Hr2 Hr1) as (encoded & Henc & Hl).
  cbn [negb]. rewrite Henc. cbn [mbind outcome_bind]. exists encoded. split; [done|]. split; [done|]. rewrite Hl. split.
  { destruct Hr5 as [_ [H|H]]; [left; lia|by right]. }
  intros Hmax. rewrite Ht in Henc. apply LogBatch_EncodeRows_Decode; try done; [|by rewrite Hl].
  unfold logInRange, rowHeader. cbn. rewrite Ht. rewrite !andb_true_iff. repeat split; try done.
  - apply swrap_srange. lia.
  - rewrite forallb_forall. intros r (item & <- & Hin%list_elem_of_In)%in_map_iff. cbn.
    rewrite Forall_forall in Hrows. by apply Hrows.
Qed.
End LogProperties.

(** ** Offsets *)

Lemma completeItems_offset {Rec} (items : list (@pendingWrite Rec)) bucket : forall base k item result,
  srange 64 base = true -> base + foldr Z.add 0 (map itemCount items) < 2 ^ 63 ->
  Forall (fun item => 0 <= itemCount item) items ->
  completeItems items bucket base true None !! k = Some (item, result) ->
  items !! k = Some item /\ wr_BaseOffset result = base + foldr Z.add 0 (map itemCount (take k items)) /\
  wr_Bucket result = bucket /\ wr_OffsetKnown result = true /\ wr_Records result = itemCount item /\ wr_Err result = None.
Proof.
  induction items as [|i items IH]; intros base k item result Hb Hs Hp H; [done|].
  inversion Hp as [|? ? Hi His]; subst. cbn [map foldr completeItems] in *.
  assert (Hn : 0 <= foldr Z.add 0 (map itemCount items)).
  { clear -His. induction His; cbn; lia. }
  destruct k as [|k]; cbn in H.
  - simplify_eq. cbn. repeat (split; [done || lia|]). done.
  - unfold srange in Hb. rewrite swrap_small in H by (unfold srange; lia).
    apply IH in H as (H1 & H2 & H3); [|unfold srange; lia|lia|done]. split; [done|]. split; [|done].
    rewrite H2. cbn. lia.
Qed.

Lemma itemCount_nonneg {Rec} (item : @pendingWrite Rec) : 0 <= itemCount item.
Proof. unfold itemCount. case_match; [apply glen_nonneg|lia]. Qed.

(** Offsets reported to callers are those of the log.  When a batch is acknowledged at a
    base offset, its items are completed in order, each with its record count and the offset of
    its first record: the base plus the records of the items before it. *)
Theorem log_offsets {Rec} (batch : @bucketBatch Rec) (bucket base : Z) (k : nat) (item : pendingWrite) (result : WriteResult) :
  srange 64 base = true -> base + foldr Z.add 0 (map itemCount (bb_items batch)) < 2 ^ 63 ->
  completeBatch batch bucket base true None !! k = Some (item, result) ->
  bb_items batch !! k = Some item /\
  wr_BaseOffset result = base + foldr Z.add 0 (map itemCount (take k (bb_items batch))) /\
  wr_Bucket result = bucket /\ wr_OffsetKnown result = true /\ wr_Records result = itemCount item /\ wr_Err result = None.
Proof.
  intros Hb Hs H. eapply completeItems_offset; [done|done| |exact H].
  apply Forall_forall. intros i _. apply itemCount_nonneg.
Qed.

(** ** A run *)

Definition logTable : Table :=
  MkTable 7 3 (MkTablePath "db" "events") LogTable
    (MkSchema [MkColumn "id" IntType false None "" 0; MkColumn "name" StringType true None "" 0] [] [] [] [] 0)
    2 0 false "" None.

Definition logBackend : appendBackend :=
  MkAppendBackend None
    (fun _ => Ok (7, {[0 := MkServerNode 1 "a:1" TabletServer; 1 := MkServerNode 2 "b:1" TabletServer]}))
    (fun _ _ => Ok 42).

Definition logOptions : list (option AppendWriterOption) := [Some (WithAppendBatchLimits 4096 2)].

Definition openedLog : AppendWriter :=
  match newAppendWriter logBackend logTable logOptions with
  | Ok w => w
  | _ => MkAppendWriter logTable (MkPhysicalTablePath (MkTablePath "" "") "") defaultAppendWriterConfig 0 0 0 []
  end.

Lemma openedLog_opened : newAppendWriter logBackend logTable logOptions = Ok openedLog.
Proof. vm_compute. reflexivity. Qed.

Lemma logOptions_exported : exportedAppendOptions logOptions.
Proof. repeat constructor; intros f [= <-]; constructor. Qed.

Definition logRow (future : nat) (id : Z) : @pendingWrite (list byte) :=
  match Append_ openedLog (Some None) [VInt32 id; VString "x"] future with
  | Ok item => item
  | _ => MkPendingWrite 0 None [] None [] None 0
  end.

Definition logArrow : @pendingWrite (list byte) :=
  MkPendingWrite 9 None [] (Some [Byte.x07; Byte.x08; Byte.x09]) [Insert; Insert; Delete] (Some 0) 3.

#[local] Instance runLog : BatchWriter pendingWrite bucketBatch logReply routing := logWriter byteLibrary openedLog.
#[local] Instance runLogAdder : ItemAdder pendingWrite bucketBatch routing := logAdder byteLibrary openedLog.

Abbreviation logServe := (serve (aw_buckets openedLog) (ac_MaxConcurrentRequests (aw_config openedLog))).
Abbreviation logAnswer := (answerFirst (aw_buckets openedLog) (ac_MaxConcurrentRequests (aw_config openedLog))).
Abbreviation logState := (@writer (@pendingWrite (list byte)) bucketBatch routing).

Definition logRun1 : logState :=
  logServe (logServe (logServe (submit (logRow 3 3) (submit (logRow 2 2) (submit (logRow 1 1) (newWriter newRouting)))))).
(** An Arrow batch for the first bucket, then a flush. *)
Definition logRun2 : logState := logServe (sendFlush (logServe (submit logArrow logRun1))).
Definition logRun3 : logState :=
  logAnswer (MkLogReply 0 true None) (logAnswer (MkLogReply 2 true None) (logAnswer (MkLogReply 10 true None) logRun2)).

Example logRun_states :
  map (fun s => (w_slots s, l_inFlight (w_loop s), glen (completedItems (trace (w_loop s)))))
    [logRun1; logRun2; logRun3] = [(3, 1, 0); (4, 2, 0); (0, 0, 4)].
Proof. vm_compute. reflexivity. Qed.

Lemma logRow_ok future id :
  Append_ openedLog (Some None) [VInt32 id; VString "x"] future = Ok (logRow future id) ->
  logItemOK byteLibrary openedLog (logRow future id).
Proof. intros H. by apply (Append_ok byteLibrary openedLog) in H as [? _]. Qed.

Lemma logArrow_ok : logItemOK byteLibrary openedLog logArrow.
Proof. split; [|reflexivity]. exists 0. split; [done|]. apply list_elem_of_In. vm_compute. tauto. Qed.

Abbreviation runReachable := (logReachable byteLibrary openedLog).

Lemma logRun1_reached : runReachable logRun1.
Proof.
  unfold logReachable, logStep, logRun1.
  do 3 (eapply rtc_r; [|apply step_serve; run]).
  do 3 (etransitivity; [|refine (step_submit _ _ _ _ _ _ _ _ _ _); [apply logRow_ok; vm_compute; reflexivity|run..]]).
  reflexivity.
Qed.

Lemma logRun2_reached : runReachable logRun2.
Proof.
  unfold logReachable, logStep, logRun2.
  eapply rtc_r; [|apply step_serve; run]. eapply rtc_r; [|apply step_flush; run].
  eapply rtc_r; [|apply step_serve; run].
  etransitivity; [|refine (step_submit _ _ _ _ _ _ _ _ _ _); [exact logArrow_ok|run..]]. apply logRun1_reached.
Qed.

Lemma logRun3_reached : runReachable logRun3.
Proof.
  unfold logReachable, logStep, logRun3.
  do 3 (eapply rtc_r; [|apply step_answerFirst; run]). apply logRun2_reached.
Qed.

(** ** The theorems at these states *)

Local Ltac opened := first [exact openedLog_opened | exact logOptions_exported | reflexivity | by vm_compute].

Lemma log_writer_delivery_witness :
  let v := viewOf (w_loop logRun2) 0 in
  acceptedItems (v_trace v) =
    completedItems (v_trace v) ++ itemsOf (map j_batch (v_jobs v)) ++ itemsOf (v_pending v) ++ v_batch v /\
  startedItems (v_trace v) `prefix_of` acceptedItems (v_trace v) /\
  stopAndWait (v_trace v) /\ (length (v_jobs v) <= 1)%nat.
Proof.
  apply (log_writer_delivery byteLibrary logBackend logTable logOptions openedLog); [opened..|apply logRun2_reached].
Defined.

Lemma log_flush_close_witness :
  offered (trace (w_loop logRun3)) = take 4 (w_sent logRun3) /\
  forall b, completedItems (at_ b (trace (w_loop logRun3))) = acceptedItems (at_ b (trace (w_loop logRun3))).
Proof.
  apply (log_flush_close byteLibrary logBackend logTable logOptions openedLog) with (s := logRun3) (closing := false) (errs := []);
    [opened..|apply logRun3_reached|run|run].
Defined.

Lemma log_flush_terminates_witness :
  let st := (logFlushAll byteLibrary openedLog (fun _ => 0) (fun _ => (0%nat, MkLogReply 5 true None, (fun _ => 0), 0)) (w_loop logRun1)).1 in
  l_inFlight st = 0 /\ offered (trace st) = offered (trace (w_loop logRun1)) /\
  forall b, completedItems (at_ b (trace st)) = acceptedItems (at_ b (trace st)).
Proof.
  apply (log_flush_terminates byteLibrary logBackend logTable logOptions openedLog); [opened..|apply logRun1_reached].
Defined.

Lemma log_loop_progress_witness :
  (exists j, running (w_loop logRun2) !! 0%nat = Some j) \/
  exists s', logStep byteLibrary openedLog logRun2 s' /\
    (w_mode logRun2 = Running -> w_commands s' = tail (w_commands logRun2)).
Proof.
  apply (log_loop_progress byteLibrary logBackend logTable logOptions openedLog); [opened..|apply logRun2_reached|].
  right. exists false, 4%nat, []. run.
Defined.

Definition logOpen : bucketBatch := default (MkBucketBatch [] [] 0) (l_batches (w_loop logRun1) !! 1).

Lemma log_sticky_single_witness :
  Forall (fun item => pw_arrow item = None) (bb_items logOpen) /\
  (effectiveNoKeyAssigner openedLog = NoKeyAssignerSticky -> bb_items logOpen <> [] -> bb_items logOpen <> [] -> 1 = 1).
Proof.
  apply (log_sticky_single byteLibrary logBackend logTable logOptions openedLog) with (s := logRun1);
    [opened..|apply logRun1_reached|vm_compute; reflexivity|vm_compute; reflexivity].
Defined.

Definition logJob : job :=
  match running (w_loop logRun1) with j :: _ => j | [] => MkJob 0 (MkBucketBatch [] [] 0) 0 0 end.

Lemma log_request_faithful_witness :
  exists encoded, encodeBatch byteLibrary openedLog (j_batch logJob) (j_sequence logJob) = Ok (encoded, glen (bb_items (j_batch logJob))) /\
    glen encoded = logBatchV0HeaderSize + bb_bytes (j_batch logJob) /\
    (glen encoded <= logBatchV0HeaderSize + ac_MaxBatchBytes (aw_config openedLog) \/ glen (bb_items (j_batch logJob)) <= 1) /\
    (glen encoded <= maxRowBytes -> DecodeLogBatchRows (fun _ => 0) (tab_Schema logTable) encoded true =
       Ok (retainLog (fun _ => 0) (tab_Schema logTable) true
             (rowHeader openedLog (j_sequence logJob) (map rowRecord (bb_items (j_batch logJob)))))).
Proof.
  apply (log_request_faithful byteLibrary logBackend logTable logOptions openedLog) with (s := logRun1);
    [opened..|apply logRun1_reached| |discriminate| |reflexivity|by vm_compute].
  - apply list_elem_of_In. vm_compute. tauto.
  - assert (H : forallb (fun item => match pw_arrow item with None => forallb wfValue (pw_row item) | Some _ => false end)
      (bb_items (j_batch logJob)) = true) by (vm_compute; reflexivity).
    apply Forall_forall. intros item Hin%list_elem_of_In. rewrite forallb_forall in H. specialize (H item Hin).
    destruct (pw_arrow item); [discriminate H|exact (conj eq_refl H)].
Defined.

Definition secondResult : @pendingWrite (list byte) * WriteResult :=
  match completeBatch (j_batch logJob) 0 100 true None !! 1%nat with
  | Some done => done
  | None => (logArrow, errorResult NetError)
  end.

Lemma log_offsets_witness :
  bb_items (j_batch logJob) !! 1%nat = Some secondResult.1 /\
  wr_BaseOffset secondResult.2 = 100 + foldr Z.add 0 (map itemCount (take 1 (bb_items (j_batch logJob)))) /\
  wr_Bucket secondResult.2 = 0 /\ wr_OffsetKnown secondResult.2 = true /\
  wr_Records secondResult.2 = itemCount secondResult.1 /\ wr_Err secondResult.2 = None.
Proof. apply (log_offsets (j_batch logJob) 0 100 1); vm_compute; reflexivity. Defined.
