(* ===== verification/Coalescer.v ===== *)
(** * Coalesced calls

    Models [pkg/fgo/coalescer.go]: callers that ask for the same key at the same time share
    one operation.  The state holds the shared calls by address (a call that lost its waiters
    is replaced in the map while its operation still runs), the goroutines that wait in [Do]
    and those that run an operation.  Every critical section of the code, between taking and
    releasing [c.mu], is one step, so that a run of steps is an interleaving of the callers.

    [V] is the type of values and [zero] its zero value.  [co_log] records what the code does
    to the outside world: operations started and cancelled, results returned, values
    disposed of. *)

From S2P Require Import Prelude.

Section Coalescer.
Context {K V : Type} `{Countable K} (zero : V).

(** [sharedCall].  The channel [done] is whether it is closed, [cancel] whether it was called,
    and [dispose] whether the function is not nil. *)
Record sharedCall := MkCall {
  sc_done : bool;
  sc_cancelled : bool;
  sc_value : V;
  sc_err : option goerror;
  sc_waiters : Z;
  sc_completed : bool;
  sc_claimed : bool;
  sc_succeeded : bool;
  sc_dispose : bool;
}.

Inductive coEvent :=
| EvStart (id : nat) (key : K)
| EvReturn (waiter : nat) (call : option nat) (value : V) (err : option goerror)
| EvDispose (id : nat) (value : V).

(** [coalescer], with the goroutines it serves: [co_waiting] are the callers blocked in the
    [select] of [Do], [co_running] the operations whose [run] has not reached its critical
    section, each with the arguments its goroutine captured. *)
Record coalescer := MkCoalescer {
  co_heap : gmap nat sharedCall;
  co_calls : gmap K nat;
  co_closed : bool;
  co_closeErr : option goerror;
  co_waiting : gmap nat (K * nat);
  co_running : gmap nat K;
  co_next : nat;
  co_log : list coEvent;
}.

Definition newCoalescer : coalescer := MkCoalescer ∅ ∅ false None ∅ ∅ 0 [].

Definition setCall (id : nat) (call : sharedCall) (c : coalescer) : coalescer :=
  MkCoalescer (<[id := call]> (co_heap c)) (co_calls c) (co_closed c) (co_closeErr c)
    (co_waiting c) (co_running c) (co_next c) (co_log c).

Definition setCalls (calls : gmap K nat) (c : coalescer) : coalescer :=
  MkCoalescer (co_heap c) calls (co_closed c) (co_closeErr c)
    (co_waiting c) (co_running c) (co_next c) (co_log c).

Definition emit (e : list coEvent) (c : coalescer) : coalescer :=
  MkCoalescer (co_heap c) (co_calls c) (co_closed c) (co_closeErr c)
    (co_waiting c) (co_running c) (co_next c) (co_log c ++ e).

Definition leave (waiter : nat) (c : coalescer) : coalescer :=
  MkCoalescer (co_heap c) (co_calls c) (co_closed c) (co_closeErr c)
    (delete waiter (co_waiting c)) (co_running c) (co_next c) (co_log c).

Definition setWaiters (n : Z) (call : sharedCall) : sharedCall :=
  MkCall (sc_done call) (sc_cancelled call) (sc_value call) (sc_err call) n
    (sc_completed call) (sc_claimed call) (sc_succeeded call) (sc_dispose call).

Definition cancelCall (call : sharedCall) : sharedCall :=
  MkCall (sc_done call) true (sc_value call) (sc_err call) (sc_waiters call)
    (sc_completed call) (sc_claimed call) (sc_succeeded call) (sc_dispose call).

Definition claimCall (call : sharedCall) : sharedCall :=
  MkCall (sc_done call) (sc_cancelled call) (sc_value call) (sc_err call) (sc_waiters call)
    (sc_completed call) true (sc_succeeded call) (sc_dispose call).

(** [Do] up to its [select].  A nil context or operation and a closed coalescer return at
    once; otherwise the caller joins the call of its key, after starting it when there is
    none. *)
Definition newCall (dispose : bool) : sharedCall :=
  MkCall false false zero None 0 false false false dispose.

Definition startCall (key : K) (dispose : bool) (c : coalescer) : coalescer :=
  let id := co_next c in
  MkCoalescer (<[id := newCall dispose]> (co_heap c)) (<[key := id]> (co_calls c))
    (co_closed c) (co_closeErr c) (co_waiting c) (<[id := key]> (co_running c)) (S id)
    (co_log c ++ [EvStart id key]).

Definition joinCall (waiter : nat) (key : K) (id : nat) (c : coalescer) : option coalescer :=
  call ← co_heap c !! id;
  Some (MkCoalescer (<[id := setWaiters (sc_waiters call + 1) call]> (co_heap c)) (co_calls c)
    (co_closed c) (co_closeErr c) (<[waiter := (key, id)]> (co_waiting c)) (co_running c)
    (co_next c) (co_log c)).

Definition Do (ctx work : bool) (waiter : nat) (key : K) (dispose : bool) (c : coalescer)
    : option coalescer :=
  if negb ctx || negb work then Some (emit [EvReturn waiter None zero (Some ErrInvalidConfig)] c)
  else if co_closed c then Some (emit [EvReturn waiter None zero (co_closeErr c)] c)
  else
    let c := if co_calls c !! key then c else startCall key dispose c in
    id ← co_calls c !! key; joinCall waiter key id c.

(** [releaseLocked]: the new state, and whether the caller is left with a dispose function. *)
Definition releaseLocked (key : K) (id : nat) (c : coalescer) : option (coalescer * bool) :=
  call ← co_heap c !! id;
  let call := setWaiters (sc_waiters call - 1) call in
  let c := setCall id call c in
  if negb (sc_waiters call =? 0) then Some (c, false)
  else if negb (sc_completed call) then
    let c := if decide (co_calls c !! key = Some id) then setCalls (delete key (co_calls c)) c else c in
    Some (setCall id (cancelCall call) c, false)
  else if negb (sc_claimed call) && sc_succeeded call then Some (c, sc_dispose call)
  else Some (c, false).

(** The two branches of the [select]: the call is done, or the caller's context is. *)
Definition takeResult (waiter : nat) (c : coalescer) : option coalescer :=
  '(key, id) ← co_waiting c !! waiter;
  call ← co_heap c !! id;
  if sc_done call then
    let value := match sc_err call with Some _ => zero | None => sc_value call end in
    '(c', _) ← releaseLocked key id (setCall id (claimCall call) c);
    Some (emit [EvReturn waiter (Some id) value (sc_err call)] (leave waiter c'))
  else None.

Definition release (key : K) (id : nat) (c : coalescer) : option coalescer :=
  '(c', dispose) ← releaseLocked key id c;
  call ← co_heap c' !! id;
  Some (if dispose : bool then emit [EvDispose id (sc_value call)] c' else c').

Definition abandon (waiter : nat) (ctxErr : goerror) (c : coalescer) : option coalescer :=
  '(key, id) ← co_waiting c !! waiter;
  c' ← release key id c;
  Some (emit [EvReturn waiter None zero (Some ctxErr)] (leave waiter c')).

(** [run], from the return of the operation on. *)
Definition finish (id : nat) (value : V) (err : option goerror) (c : coalescer) : option coalescer :=
  key ← co_running c !! id;
  call ← co_heap c !! id;
  let succeeded := match err with None => true | Some _ => false end in
  let callErr := if co_closed c then co_closeErr c else err in
  let call' := MkCall true true value callErr (sc_waiters call) true (sc_claimed call)
                 succeeded (sc_dispose call) in
  let calls := if decide (co_calls c !! key = Some id) then delete key (co_calls c) else co_calls c in
  let dispose := negb (sc_claimed call') && sc_succeeded call' && sc_dispose call'
                 && ((sc_waiters call' =? 0) || co_closed c) in
  Some (MkCoalescer (<[id := call']> (co_heap c)) calls (co_closed c) (co_closeErr c)
    (co_waiting c) (delete id (co_running c)) (co_next c)
    (co_log c ++ (if dispose then [EvDispose id value] else []))).

(** [Close]. *)
Definition inCalls (c : coalescer) (id : nat) : bool :=
  existsb (fun e => Nat.eqb e.2 id) (map_to_list (co_calls c)).

Definition Close (err : option goerror) (c : coalescer) : coalescer :=
  let err := match err with None => ErrClosed | Some e => e end in
  if co_closed c then c
  else MkCoalescer (map_imap (fun id call => Some (if inCalls c id then cancelCall call else call)) (co_heap c))
         (co_calls c) true (Some err) (co_waiting c) (co_running c) (co_next c) (co_log c).

(** ** Runs

    A caller is identified by a number that is not waiting already. *)
Inductive coOp :=
| OpDo (ctx work : bool) (waiter : nat) (key : K) (dispose : bool)
| OpTake (waiter : nat)
| OpAbandon (waiter : nat) (ctxErr : goerror)
| OpFinish (id : nat) (value : V) (err : option goerror)
| OpClose (err : option goerror).

Definition exec (op : coOp) (c : coalescer) : option coalescer :=
  match op with
  | OpDo ctx work waiter key dispose =>
    if co_waiting c !! waiter then None else Do ctx work waiter key dispose c
  | OpTake waiter => takeResult waiter c
  | OpAbandon waiter e => abandon waiter e c
  | OpFinish id value err => finish id value err c
  | OpClose err => Some (Close err c)
  end.

Fixpoint execAll (ops : list coOp) (c : coalescer) : option coalescer :=
  match ops with
  | [] => Some c
  | op :: ops => c' ← exec op c; execAll ops c'
  end.

Definition reachable (c : coalescer) : Prop := exists ops, execAll ops newCoalescer = Some c.

(** ** What a call has done *)

Definition isDelivery (id : nat) (e : coEvent) : bool :=
  match e with EvReturn _ (Some i) _ None => Nat.eqb i id | _ => false end.

Definition isDisposal (id : nat) (e : coEvent) : bool :=
  match e with EvDispose i _ => Nat.eqb i id | _ => false end.

Definition delivered (c : coalescer) (id : nat) : bool := existsb (isDelivery id) (co_log c).
Definition disposals (c : coalescer) (id : nat) : nat :=
  length (List.filter (isDisposal id) (co_log c)).

(** The callers that wait for a call, and whether it is the one its key names. *)
Definition waitersOf (c : coalescer) (id : nat) : nat :=
  size (filter (fun e => e.2.2 = id) (co_waiting c)).

Definition isRunning (c : coalescer) (id : nat) : bool :=
  match co_running c !! id with Some _ => true | None => false end.

Definition current (c : coalescer) (id : nat) : bool :=
  match co_running c !! id with
  | Some key => bool_decide (co_calls c !! key = Some id)
  | None => false
  end.

(** ** Invariant *)

(** What holds of one call, given how many callers wait for it, whether its operation runs,
    whether its key names it, whether its value was delivered and how often it was disposed. *)
Record callOK (closed : bool) (n : nat) (runs cur del : bool) (disp : nat) (call : sharedCall)
    : Prop := {
  ok_waiters : sc_waiters call = Z.of_nat n;
  ok_done : sc_done call = sc_completed call;
  ok_runs : runs = negb (sc_completed call);
  ok_open : sc_completed call = false ->
    sc_claimed call = false /\ sc_succeeded call = false /\ del = false /\ disp = 0%nat;
  ok_cur : cur = true -> sc_completed call = false /\ (0 < n)%nat /\
    (closed = false -> sc_cancelled call = false);
  ok_live : sc_completed call = false -> sc_cancelled call = false -> cur = true;
  ok_dead : sc_completed call = false -> sc_cancelled call = true -> closed = true \/ n = 0%nat;
  ok_err : sc_completed call = true -> sc_err call = None -> sc_succeeded call = true;
  ok_owned : sc_completed call = true -> sc_succeeded call = true -> sc_dispose call = true ->
    n = 0%nat -> del = true \/ (0 < disp)%nat;
  ok_del : del = true -> sc_claimed call = true /\ sc_succeeded call = true /\ sc_err call = None;
  ok_claim : sc_completed call = true -> sc_claimed call = true -> sc_err call = None -> del = true;
  ok_late : sc_completed call = true -> sc_succeeded call = true -> sc_err call <> None ->
    sc_dispose call = true -> (0 < disp)%nat;
  ok_once : sc_completed call = true -> sc_err call = None ->
    (disp <= 1)%nat /\ (disp = 1%nat -> n = 0%nat /\ sc_claimed call = false);
  ok_fail : sc_succeeded call = false -> disp = 0%nat;
}.

Definition callAt (c : coalescer) (id : nat) (call : sharedCall) : Prop :=
  callOK (co_closed c) (waitersOf c id) (isRunning c id) (current c id) (delivered c id)
    (disposals c id) call.

Record coInv (c : coalescer) : Prop := {
  ci_calls : forall id call, co_heap c !! id = Some call -> (id < co_next c)%nat /\ callAt c id call;
  ci_current : forall key id, co_calls c !! key = Some id -> co_running c !! id = Some key;
  ci_running : forall id key, co_running c !! id = Some key -> is_Some (co_heap c !! id);
  ci_waiting : forall w key id, co_waiting c !! w = Some (key, id) ->
    exists call, co_heap c !! id = Some call /\
      (co_running c !! id = Some key \/ sc_completed call = true);
  ci_fresh : forall id, co_heap c !! id = None -> delivered c id = false /\ disposals c id = 0%nat;
  ci_closed : co_closed c = true -> is_Some (co_closeErr c);
}.

(** *** Counting *)

Lemma delivered_emit c e id : delivered (emit e c) id = delivered c id || existsb (isDelivery id) e.
Proof. unfold delivered. cbn. by rewrite existsb_app. Qed.

Lemma disposals_emit c e id :
  disposals (emit e c) id = (disposals c id + length (List.filter (isDisposal id) e))%nat.
Proof. unfold disposals. cbn. by rewrite List.filter_app, length_app. Qed.

Lemma waitersOf_insert c c' w key id j :
  co_waiting c !! w = None -> co_waiting c' = <[w := (key, id)]> (co_waiting c) ->
  waitersOf c' j = (waitersOf c j + if Nat.eqb id j then 1 else 0)%nat.
Proof.
  intros Hw E. unfold waitersOf. rewrite E, map_filter_insert. cbn.
  destruct (Nat.eqb_spec id j) as [->|N].
  - rewrite decide_True by done. rewrite map_size_insert_None; [lia|].
    apply map_lookup_filter_None. left; done.
  - rewrite decide_False by done. rewrite delete_id by done. lia.
Qed.

Lemma waitersOf_delete c c' w key id j :
  co_waiting c !! w = Some (key, id) -> co_waiting c' = delete w (co_waiting c) ->
  waitersOf c j = (waitersOf c' j + if Nat.eqb id j then 1 else 0)%nat.
Proof.
  intros Hw E. unfold waitersOf. rewrite E, map_filter_delete.
  destruct (Nat.eqb_spec id j) as [->|N].
  - rewrite map_size_delete.
    assert (F : filter (fun e => e.2.2 = j) (co_waiting c) !! w = Some (key, j))
      by (by apply map_lookup_filter_Some).
    rewrite F. cbn. enough (size (filter (fun e => e.2.2 = j) (co_waiting c)) <> 0%nat) by lia.
    intros Z. apply map_size_empty_inv in Z. by rewrite Z in F.
  - rewrite delete_id; [lia|]. apply map_lookup_filter_None. right. intros x Hx. by simplify_eq.
Qed.

Lemma waitersOf_zero c id :
  waitersOf c id = 0%nat -> forall w key, co_waiting c !! w <> Some (key, id).
Proof.
  unfold waitersOf. intros E w key Hw. apply map_size_empty_inv in E.
  assert (F : filter (fun e => e.2.2 = id) (co_waiting c) !! w = Some (key, id))
    by (by apply map_lookup_filter_Some).
  by rewrite E in F.
Qed.

Lemma waitersOf_none c id :
  (forall w key, co_waiting c !! w <> Some (key, id)) -> waitersOf c id = 0%nat.
Proof.
  intros E. unfold waitersOf. apply map_size_empty_iff, map_empty_filter_2.
  intros w [key j] Hw Hj. cbn in Hj. subst j. by apply (E w key).
Qed.

(** *** Steps that change one call *)

Lemma inv_at c c' id call call' :
  coInv c -> co_heap c !! id = Some call -> co_heap c' = <[id := call']> (co_heap c) ->
  co_closed c' = co_closed c -> co_closeErr c' = co_closeErr c -> co_next c' = co_next c ->
  (forall j, j <> id -> co_running c' !! j = co_running c !! j) ->
  (forall j, j <> id -> waitersOf c' j = waitersOf c j) ->
  (forall k j, j <> id -> co_calls c' !! k = Some j <-> co_calls c !! k = Some j) ->
  (forall j, j <> id -> delivered c' j = delivered c j /\ disposals c' j = disposals c j) ->
  (forall k, co_calls c' !! k = Some id -> co_running c' !! id = Some k) ->
  (forall w k j, co_waiting c' !! w = Some (k, j) ->
     co_waiting c !! w = Some (k, j) \/ (j = id /\ co_running c' !! id = Some k)) ->
  (sc_completed call = true -> sc_completed call' = true) ->
  (forall k, co_running c !! id = Some k -> co_running c' !! id = Some k \/ sc_completed call' = true) ->
  callAt c' id call' -> coInv c'.
Proof.
  intros I Hid Hh Hc Hce Hn Hr Hw Hcs Hl Hcur Hwait Hcomp Hrun Hok. split.
  - intros j jc Hj. rewrite Hn. rewrite Hh in Hj. apply lookup_insert_Some in Hj as [[<- <-]|[N Hj]].
    + split; [by eapply (proj1 (ci_calls c I id call Hid))|done].
    + destruct (ci_calls c I j jc Hj) as [L O]. split; [done|].
      assert (N' : j <> id) by congruence. unfold callAt, isRunning, current in *.
      rewrite Hc, (Hw j N'), (Hr j N'), (proj1 (Hl j N')), (proj2 (Hl j N')).
      destruct (co_running c !! j) as [k|]; [|done].
      by rewrite (bool_decide_ext _ _ (Hcs k j N')).
  - intros k j Hk. destruct (decide (j = id)) as [->|N]; [by apply Hcur|].
    rewrite (Hr j N). apply (ci_current c I), Hcs; done.
  - intros j k Hj. rewrite Hh. destruct (decide (j = id)) as [->|N].
    + rewrite lookup_insert_eq. eauto.
    + rewrite (Hr j N) in Hj. rewrite lookup_insert_ne by congruence. by apply (ci_running c I j k).
  - intros w k j Hj. destruct (Hwait w k j Hj) as [Hj'|[-> Hj']].
    + destruct (ci_waiting c I w k j Hj') as (jc & Hjc & Hor). rewrite Hh.
      destruct (decide (j = id)) as [->|N].
      * exists call'. rewrite lookup_insert_eq. split; [done|].
        rewrite Hid in Hjc. simplify_eq. destruct Hor as [Hor|Hor]; [|by right; apply Hcomp].
        by apply Hrun.
      * exists jc. rewrite lookup_insert_ne by congruence. split; [done|]. by rewrite (Hr j N).
    + exists call'. rewrite Hh, lookup_insert_eq. auto.
  - intros j Hj. rewrite Hh in Hj. apply lookup_insert_None in Hj as [Hj N].
    destruct (Hl j) as [-> ->]; [congruence|]. by apply (ci_fresh c I).
  - rewrite Hc, Hce. apply (ci_closed c I).
Qed.

Lemma inv_emit c e :
  (forall id, existsb (isDelivery id) e = false /\ List.filter (isDisposal id) e = []) ->
  coInv c -> coInv (emit e c).
Proof.
  intros He I.
  assert (D : forall id, delivered (emit e c) id = delivered c id)
    by (intros id; rewrite delivered_emit, (proj1 (He id)); apply orb_false_r).
  assert (P : forall id, disposals (emit e c) id = disposals c id)
    by (intros id; rewrite disposals_emit, (proj2 (He id)); cbn; lia).
  destruct I as [I1 I2 I3 I4 I5 I6]. split; [|exact I2|exact I3|exact I4| |exact I6].
  - intros id call Hid. destruct (I1 id call Hid) as [L O]. split; [exact L|].
    unfold callAt in *. rewrite D, P. exact O.
  - intros id Hid. rewrite D, P. by apply I5.
Qed.

(** *** [Do] *)

Lemma isRunning_heap c id : coInv c -> co_heap c !! id = None -> co_running c !! id = None.
Proof.
  intros I Hn. destruct (co_running c !! id) as [k|] eqn:E; [|done].
  destruct (ci_running c I id k E). congruence.
Qed.

Lemma calls_heap c key id : coInv c -> co_calls c !! key = Some id ->
  exists call, co_heap c !! id = Some call /\ sc_completed call = false.
Proof.
  intros I Hk. pose proof (ci_current c I key id Hk) as Hr.
  destruct (ci_running c I id key Hr) as [call Hc]. exists call. split; [done|].
  destruct (ci_calls c I id call Hc) as [_ O]. pose proof (ok_runs _ _ _ _ _ _ _ O) as E.
  unfold isRunning in E. rewrite Hr in E. by destruct (sc_completed call).
Qed.

Lemma inv_join c c' w key id :
  coInv c -> co_waiting c !! w = None -> co_calls c !! key = Some id ->
  joinCall w key id c = Some c' -> coInv c'.
Proof.
  intros I Hw Hk Hj. destruct (calls_heap c key id I Hk) as (call & Hc & Hopen).
  pose proof (ci_current c I key id Hk) as Hr.
  unfold joinCall in Hj. rewrite Hc in Hj. cbn in Hj. injection Hj as <-.
  destruct (ci_calls c I id call Hc) as [_ O].
  eapply inv_at; [exact I|exact Hc|reflexivity..| | | | | | | | |]; cbn; try done.
  - intros j N. erewrite waitersOf_insert; [|exact Hw|reflexivity].
    destruct (Nat.eqb_spec id j); [congruence|lia].
  - intros k. apply (ci_current c I).
  - intros w' k j Hj. apply lookup_insert_Some in Hj as [[<- Hj]|[_ Hj]]; simplify_eq; auto.
  - auto.
  - unfold callAt. erewrite waitersOf_insert; [|exact Hw|reflexivity]. rewrite Nat.eqb_refl. cbn.
    unfold callAt in O.
    change (isRunning _ id) with (isRunning c id). change (current _ id) with (current c id).
    change (delivered _ id) with (delivered c id). change (disposals _ id) with (disposals c id).
    destruct O. split; cbn; try done; try (intros; congruence); try lia.
    + intros E. destruct (ok_cur0 E) as (? & ? & ?). auto with lia.
    + intros. destruct ok_dead0; auto. exfalso.
      assert (E : current c id = true) by (unfold current; rewrite Hr; by apply bool_decide_eq_true).
      destruct (ok_cur0 E) as (_ & ? & _). lia.
Qed.

(** Starting a call for a key without one.  Between [startCall] and [joinCall] the call has no
    waiter, so the two are one step. *)
Lemma inv_begin c c' w key dispose :
  coInv c -> co_closed c = false -> co_waiting c !! w = None -> co_calls c !! key = None ->
  joinCall w key (co_next c) (startCall key dispose c) = Some c' -> coInv c'.
Proof.
  intros I Hopen Hw Hk Hj. set (id := co_next c) in *.
  assert (Hid : co_heap c !! id = None).
  { destruct (co_heap c !! id) as [call|] eqn:E; [|done].
    destruct (ci_calls c I id call E) as [L _]. subst id. lia. }
  pose proof (isRunning_heap c id I Hid) as Hr.
  assert (H0 : waitersOf c id = 0%nat).
  { apply waitersOf_none. intros w' k E. destruct (ci_waiting c I w' k id E) as (call & E' & _).
    congruence. }
  unfold joinCall, startCall in Hj. cbn in Hj. fold id in Hj. rewrite lookup_insert_eq in Hj.
  cbn in Hj. injection Hj as <-.
  match goal with |- coInv ?s => set (c' := s) end.
  assert (W : forall j, waitersOf c' j = (waitersOf c j + if Nat.eqb id j then 1 else 0)%nat)
    by (intros j; eapply waitersOf_insert; [exact Hw|reflexivity]).
  assert (D : forall j, delivered c' j = delivered c j).
  { intros j. unfold delivered. subst c'. cbn. rewrite existsb_app. cbn. apply orb_false_r. }
  assert (P : forall j, disposals c' j = disposals c j).
  { intros j. unfold disposals. subst c'. cbn. rewrite List.filter_app, length_app. cbn. lia. }
  destruct (ci_fresh c I id Hid) as [D0 P0]. split.
  - intros j jc Hj. subst c'. cbn in Hj |- *. rewrite insert_insert_eq in Hj.
    apply lookup_insert_Some in Hj as [[<- <-]|[N Hj]].
    + split; [subst id; lia|]. unfold callAt. rewrite W, D, P, D0, P0, H0, Nat.eqb_refl.
      unfold isRunning, current. cbn. rewrite lookup_insert_eq, lookup_insert_eq, bool_decide_true by done.
      split; cbn; try done; auto with lia.
    + destruct (ci_calls c I j jc Hj) as [L O]. split; [subst id; lia|].
      unfold callAt in *. rewrite W, D, P. destruct (Nat.eqb_spec id j); [congruence|].
      rewrite Nat.add_0_r. unfold isRunning, current in *. cbn.
      rewrite lookup_insert_ne by congruence. destruct (co_running c !! j) as [k|]; [|done].
      destruct (decide (k = key)) as [->|Nk].
      * rewrite lookup_insert_eq. rewrite Hk in O.
        rewrite (bool_decide_ext (Some id = Some j) (None = Some j)) by naive_solver. exact O.
      * rewrite lookup_insert_ne by congruence. exact O.
  - intros k j Hkj. subst c'. cbn in *. apply lookup_insert_Some in Hkj as [[<- <-]|[N Hkj]].
    + by rewrite lookup_insert_eq.
    + pose proof (ci_current c I k j Hkj) as E. rewrite lookup_insert_ne; [done|].
      intros <-. congruence.
  - intros j k Hj. subst c'. cbn in *. rewrite insert_insert_eq. destruct (decide (j = id)) as [->|N].
    + rewrite lookup_insert_eq. eauto.
    + rewrite lookup_insert_ne in Hj by congruence. rewrite lookup_insert_ne by congruence.
      by apply (ci_running c I j k).
  - intros w' k j Hj. subst c'. cbn in *. rewrite insert_insert_eq.
    apply lookup_insert_Some in Hj as [[<- Hj]|[_ Hj]].
    + simplify_eq. exists (setWaiters (sc_waiters (newCall dispose) + 1) (newCall dispose)).
      rewrite !lookup_insert_eq. auto.
    + destruct (ci_waiting c I w' k j Hj) as (call & Hcall & Hor). exists call.
      assert (id <> j) by congruence. rewrite !lookup_insert_ne by done. auto.
  - intros j Hj. rewrite D, P. subst c'. cbn in Hj. rewrite insert_insert_eq in Hj.
    apply lookup_insert_None in Hj as [Hj _]. by apply (ci_fresh c I).
  - apply (ci_closed c I).
Qed.

Lemma inv_Do c c' ctx work w key dispose :
  coInv c -> co_waiting c !! w = None -> Do ctx work w key dispose c = Some c' -> coInv c'.
Proof.
  intros I Hw Hd. unfold Do in Hd.
  destruct (negb ctx || negb work); [injection Hd as <-; apply inv_emit; [by intros|done]|].
  destruct (co_closed c) eqn:Ec; [injection Hd as <-; apply inv_emit; [|done]|].
  { intros id. cbn. by destruct (co_closeErr c). }
  destruct (co_calls c !! key) as [id|] eqn:Ek.
  - rewrite Ek in Hd. cbn in Hd. by eapply inv_join.
  - cbn in Hd. rewrite lookup_insert_eq in Hd. cbn in Hd. by eapply inv_begin.
Qed.

(** *** Leaving a call *)

Lemma releaseLocked_completed key id c call :
  co_heap c !! id = Some call -> sc_completed call = true ->
  releaseLocked key id c =
    Some (setCall id (setWaiters (sc_waiters call - 1) call) c,
          (sc_waiters call - 1 =? 0) && (negb (sc_claimed call) && sc_succeeded call)
          && sc_dispose call).
Proof.
  intros Hc Hd. unfold releaseLocked. rewrite Hc. cbn. rewrite Hd. cbn.
  destruct (sc_waiters call - 1 =? 0); cbn; [|done].
  by destruct (negb (sc_claimed call) && sc_succeeded call).
Qed.

Lemma waiting_call c w key id :
  coInv c -> co_waiting c !! w = Some (key, id) ->
  exists call, co_heap c !! id = Some call /\ callAt c id call /\ (0 < waitersOf c id)%nat /\
    (sc_completed call = false -> co_running c !! id = Some key).
Proof.
  intros I Hw. destruct (ci_waiting c I w key id Hw) as (call & Hc & Hor). exists call.
  split; [done|]. split; [by apply (ci_calls c I)|]. split.
  - destruct (decide (waitersOf c id = 0%nat)) as [E|]; [|lia].
    by destruct (waitersOf_zero c id E w key).
  - intros E. destruct Hor; [done|congruence].
Qed.

Lemma inv_take c c' w : coInv c -> takeResult w c = Some c' -> coInv c'.
Proof.
  intros I Ht. unfold takeResult in Ht.
  destruct (co_waiting c !! w) as [[key id]|] eqn:Hw; cbn in Ht; [|done].
  destruct (waiting_call c w key id I Hw) as (call & Hc & O & Hn & _). rewrite Hc in Ht. cbn in Ht.
  destruct (sc_done call) eqn:Hdone; [|done].
  pose proof (ok_done _ _ _ _ _ _ _ O) as Hcomp. rewrite Hdone in Hcomp. symmetry in Hcomp.
  erewrite releaseLocked_completed in Ht; [|apply lookup_insert_eq|exact Hcomp].
  cbn in Ht. injection Ht as <-.
  match goal with |- coInv ?s => set (c' := s) end.
  assert (W : forall j, waitersOf c j = (waitersOf c' j + if Nat.eqb id j then 1 else 0)%nat)
    by (intros j; eapply waitersOf_delete; [exact Hw|reflexivity]).
  set (returned := EvReturn w (Some id) (match sc_err call with Some _ => zero | None => sc_value call end)
                     (sc_err call)) in *.
  assert (D : forall j, delivered c' j = delivered c j || isDelivery j returned).
  { intros j. unfold delivered. subst c'. cbn. rewrite existsb_app. cbn. by rewrite orb_false_r. }
  assert (P : forall j, disposals c' j = disposals c j).
  { intros j. unfold disposals. subst c'. cbn. rewrite List.filter_app, length_app. cbn. lia. }
  eapply inv_at; [exact I|exact Hc| |reflexivity..| | | | | | | | |];
    [cbn; by rewrite insert_insert_eq|done| |done| |intros k; apply (ci_current c I)| | |auto|].
  - intros j N. specialize (W j). destruct (Nat.eqb_spec id j); [congruence|lia].
  - intros j N. rewrite D, P. split; [|done]. subst returned. cbn.
    destruct (sc_err call); [apply orb_false_r|]. destruct (Nat.eqb_spec id j); [congruence|apply orb_false_r].
  - intros w' k j Hj. left. cbn in Hj. by apply lookup_delete_Some in Hj as [_ Hj].
  - done.
  - pose proof (W id) as Wi. rewrite Nat.eqb_refl in Wi. unfold callAt in *. rewrite D, P.
    change (isRunning c' id) with (isRunning c id). change (current c' id) with (current c id).
    change (co_closed c') with (co_closed c).
    destruct O as [O1 O2 O3 O4 O5 O6 O7 O8 O9 O10 O11 O12 O13 O14].
    assert (L : isDelivery id returned = match sc_err call with None => true | Some _ => false end)
      by (subst returned; cbn; destruct (sc_err call); [done|apply Nat.eqb_refl]).
    rewrite L. split; cbn; rewrite ?Hcomp; try done; try lia.
    + by rewrite O3, Hcomp.
    + intros E. destruct (O5 E). congruence.
    + auto.
    + intros _ Hs Hd _. destruct (sc_err call) eqn:Ee; [|left; apply orb_true_r].
      right. by apply O12.
    + intros E. destruct (sc_err call) eqn:Ee; [|split; [done|]; auto].
      rewrite orb_false_r in E. destruct (O10 E) as (_ & _ & ?). done.
    + intros _ _ ->. apply orb_true_r.
    + auto.
    + intros _ E. destruct (O13 Hcomp E) as [Q1 Q2]. split; [done|]. intros Q. destruct (Q2 Q). lia.
Qed.

(** A caller gives up on a completed call; the last one disposes of a value nobody took. *)
Lemma inv_leave_done c w key id call (d : bool) :
  coInv c -> co_waiting c !! w = Some (key, id) -> co_heap c !! id = Some call ->
  sc_completed call = true ->
  d = (sc_waiters call - 1 =? 0) && (negb (sc_claimed call) && sc_succeeded call) && sc_dispose call ->
  let c1 := setCall id (setWaiters (sc_waiters call - 1) call) c in
  coInv (leave w (if d then emit [EvDispose id (sc_value call)] c1 else c1)).
Proof.
  intros I Hw Hc Hcomp Hd c1.
  destruct (ci_calls c I id call Hc) as [_ O].
  match goal with |- coInv ?s => set (c' := s) end.
  assert (W : forall j, waitersOf c j = (waitersOf c' j + if Nat.eqb id j then 1 else 0)%nat)
    by (intros j; eapply waitersOf_delete; [exact Hw|subst c'; by destruct d]).
  assert (D : forall j, delivered c' j = delivered c j).
  { intros j. subst c'. destruct d; [|done]. unfold delivered. cbn. rewrite existsb_app. apply orb_false_r. }
  assert (P : forall j, disposals c' j = (disposals c j + if d && Nat.eqb id j then 1 else 0)%nat).
  { intros j. subst c'. unfold disposals. destruct d; cbn; [|lia].
    rewrite List.filter_app, length_app. cbn. by destruct (Nat.eqb id j). }
  pose proof (W id) as Wi. rewrite Nat.eqb_refl in Wi.
  eapply inv_at; [exact I|exact Hc|..];
    try (subst c'; destruct d; done).
  - intros j N. specialize (W j). destruct (Nat.eqb_spec id j); [congruence|lia].
  - intros j N. rewrite D, P. destruct (Nat.eqb_spec id j); [congruence|].
    rewrite andb_false_r. split; [done|lia].
  - intros k Hk. subst c'. destruct d; exact (ci_current c I k id Hk).
  - intros w' k j Hj. left.
    assert (Hj' : delete w (co_waiting c) !! w' = Some (k, j)) by (subst c'; by destruct d).
    by apply lookup_delete_Some in Hj' as [_ Hj'].
  - intros k Hk. left. subst c'. by destruct d.
  - unfold callAt in *. rewrite D, P, Nat.eqb_refl, andb_true_r.
    replace (isRunning c' id) with (isRunning c id) by (subst c'; by destruct d).
    replace (current c' id) with (current c id) by (subst c'; by destruct d).
    replace (co_closed c') with (co_closed c) by (subst c'; by destruct d).
    destruct O as [O1 O2 O3 O4 O5 O6 O7 O8 O9 O10 O11 O12 O13 O14].
    assert (Hdt : d = true -> waitersOf c' id = 0%nat /\ sc_claimed call = false /\ sc_succeeded call = true).
    { intros ->. symmetry in Hd. apply andb_true_iff in Hd as [Hd _]. apply andb_true_iff in Hd as [Hd1 Hd].
      apply andb_true_iff in Hd as [Hd2 Hd3]. apply negb_true_iff in Hd2. split; [lia|auto]. }
    split; cbn; rewrite ?Hcomp; try done; try lia.
    + by rewrite O2.
    + by rewrite O3, Hcomp.
    + intros E. destruct (O5 E). congruence.
    + auto.
    + intros _ Hs Hdp H0. destruct (sc_claimed call) eqn:Hcl.
      * destruct (sc_err call) eqn:Ee; [right|left; auto].
        enough (0 < disposals c id)%nat by lia. by apply O12.
      * right. rewrite Hs, Hdp in Hd. replace (sc_waiters call - 1 =? 0) with true in Hd by lia.
        subst d. cbn. lia.
    + auto.
    + intros _ Hs He Hdp. specialize (O12 Hcomp Hs He Hdp). lia.
    + intros _ He. destruct (O13 Hcomp He) as [Q1 Q2].
      assert (H0 : disposals c id = 0%nat) by (destruct (disposals c id) as [|[|?]]; [done| |lia]; destruct Q2; lia).
      destruct d; cbn; [|lia]. destruct (Hdt eq_refl) as (? & ? & _). split; [lia|auto].
    + intros Hs. specialize (O14 Hs). destruct d; [|cbn; lia]. destruct (Hdt eq_refl) as (_ & _ & ?). congruence.
Qed.

(** A caller gives up on an open call; the last one cancels the operation and takes the call
    out of the map. *)
Lemma inv_leave_open c c1 w key id call :
  coInv c -> co_waiting c !! w = Some (key, id) -> co_heap c !! id = Some call ->
  sc_completed call = false -> co_running c !! id = Some key -> release key id c = Some c1 ->
  coInv (leave w c1).
Proof.
  intros I Hw Hc Hcomp Hr Hrel. destruct (ci_calls c I id call Hc) as [_ O].
  unfold release, releaseLocked in Hrel. rewrite Hc in Hrel. cbn in Hrel. rewrite Hcomp in Hrel. cbn in Hrel.
  assert (Hcur : forall k j, co_calls c !! k = Some j -> co_running c !! j = Some k) by (apply (ci_current c I)).
  destruct (sc_waiters call - 1 =? 0) eqn:Hz; cbn in Hrel.
  - rewrite lookup_insert_eq in Hrel. cbn in Hrel. injection Hrel as <-.
    match goal with |- coInv ?s => set (c' := s) end.
    assert (W : forall j, waitersOf c j = (waitersOf c' j + if Nat.eqb id j then 1 else 0)%nat)
      by (intros j; eapply waitersOf_delete; [exact Hw|subst c'; cbn; by case_decide]).
    assert (Hcalls : co_calls c' = if decide (co_calls c !! key = Some id) then delete key (co_calls c) else co_calls c)
      by (subst c'; cbn; by case_decide).
    assert (Hno : forall k, co_calls c' !! k <> Some id).
    { intros k E. rewrite Hcalls in E. case_decide as Hk.
      - apply lookup_delete_Some in E as [N E]. apply N. specialize (Hcur k id E). congruence.
      - pose proof (Hcur k id) as E'. assert (k = key) as ->; [|done].
        specialize (E' E). congruence. }
    pose proof (W id) as Wi. rewrite Nat.eqb_refl in Wi.
    assert (Hrun' : co_running c' = co_running c) by (subst c'; cbn; by case_decide).
    assert (Hlog : co_log c' = co_log c) by (subst c'; cbn; by case_decide).
    apply (inv_at c c' id call (cancelCall (setWaiters (sc_waiters call - 1) call))); [exact I|exact Hc|..];
      try (subst c'; cbn; case_decide; try rewrite insert_insert_eq; done).
    + subst c'; cbn. case_decide; cbn; by rewrite insert_insert_eq.
    + intros j N. specialize (W j). destruct (Nat.eqb_spec id j); [congruence|lia].
    + intros k j N. rewrite Hcalls. case_decide as Hk; [|done]. rewrite lookup_delete_Some.
      split; [naive_solver|]. intros E. split; [|done]. intros <-. congruence.
    + intros k E. by destruct (Hno k).
    + intros w' k j Hj. left.
      assert (Hj' : delete w (co_waiting c) !! w' = Some (k, j)) by (subst c'; cbn in Hj; by case_decide).
      by apply lookup_delete_Some in Hj' as [_ Hj'].
    + intros k E. left. by rewrite Hrun'.
    + assert (Hcf : current c' id = false).
      { unfold current. rewrite Hrun', Hr. by apply bool_decide_eq_false. }
      unfold callAt in *. rewrite Hcf. unfold isRunning, delivered, disposals in *. rewrite Hrun', Hlog.
      destruct O. split; cbn; try done; auto; try (intros; congruence); try lia.
  - rewrite lookup_insert_eq in Hrel. cbn in Hrel. injection Hrel as <-.
    match goal with |- coInv ?s => set (c' := s) end.
    assert (W : forall j, waitersOf c j = (waitersOf c' j + if Nat.eqb id j then 1 else 0)%nat)
      by (intros j; eapply waitersOf_delete; [exact Hw|done]).
    pose proof (W id) as Wi. rewrite Nat.eqb_refl in Wi.
    apply (inv_at c c' id call (setWaiters (sc_waiters call - 1) call)); [exact I|exact Hc|..]; try done.
    + intros j N. specialize (W j). destruct (Nat.eqb_spec id j); [congruence|lia].
    + intros k. apply Hcur.
    + intros w' k j Hj. left. cbn in Hj. by apply lookup_delete_Some in Hj as [_ Hj].
    + auto.
    + unfold callAt in *. change (isRunning c' id) with (isRunning c id). change (current c' id) with (current c id).
      change (delivered c' id) with (delivered c id). change (disposals c' id) with (disposals c id).
      destruct O. split; cbn; try done; auto; try (intros; congruence); try lia.
      * intros E. destruct (ok_cur0 E) as (? & ? & ?). split; [done|]. split; [lia|done].
      * intros E1 E2. destruct (ok_dead0 E1 E2); [auto|lia].
Qed.

Lemma inv_abandon c c' w e : coInv c -> abandon w e c = Some c' -> coInv c'.
Proof.
  intros I Ha. unfold abandon in Ha.
  destruct (co_waiting c !! w) as [[key id]|] eqn:Hw; cbn in Ha; [|done].
  destruct (waiting_call c w key id I Hw) as (call & Hc & _ & _ & Hrun).
  destruct (release key id c) as [c1|] eqn:Hr; cbn in Ha; [|done]. injection Ha as <-.
  apply inv_emit; [by intros|]. destruct (sc_completed call) eqn:Hcomp.
  - unfold release in Hr. erewrite releaseLocked_completed in Hr by done. cbn in Hr.
    rewrite lookup_insert_eq in Hr. cbn in Hr. injection Hr as <-. by eapply inv_leave_done.
  - eapply inv_leave_open; eauto.
Qed.

(** *** The end of an operation *)

Lemma inv_finish c c' id value err : coInv c -> finish id value err c = Some c' -> coInv c'.
Proof.
  intros I Hf. unfold finish in Hf.
  destruct (co_running c !! id) as [key|] eqn:Hr; cbn in Hf; [|done].
  destruct (ci_running c I id key Hr) as [call Hc]. rewrite Hc in Hf. cbn in Hf.
  destruct (ci_calls c I id call Hc) as [_ O].
  assert (Hopen : sc_completed call = false).
  { pose proof (ok_runs _ _ _ _ _ _ _ O) as E. unfold isRunning in E. rewrite Hr in E.
    by destruct (sc_completed call). }
  pose proof (ci_current c I) as Hcur. pose proof (ci_closed c I) as Hcl.
  set (d := negb (sc_claimed call) && _ && _ && _) in Hf. injection Hf as <-.
  match goal with |- coInv ?s => set (c' := s) end.
  assert (D : forall j, delivered c' j = delivered c j).
  { intros j. unfold delivered. subst c'. cbn. rewrite existsb_app. destruct d; apply orb_false_r. }
  assert (P : forall j, disposals c' j = (disposals c j + if d && Nat.eqb id j then 1 else 0)%nat).
  { intros j. unfold disposals. subst c'. cbn. rewrite List.filter_app, length_app.
    destruct d; cbn; [|lia]. by destruct (Nat.eqb id j). }
  assert (Hno : forall k, co_calls c' !! k <> Some id).
  { intros k E. subst c'. cbn in E. case_decide as Hk.
    - apply lookup_delete_Some in E as [N E]. specialize (Hcur k id E). congruence.
    - pose proof (Hcur k id E). congruence. }
  eapply inv_at; [exact I|exact Hc|reflexivity..| | | | | | | | |].
  - intros j N. subst c'. cbn. by rewrite lookup_delete_ne by congruence.
  - done.
  - intros k j N. subst c'. cbn. case_decide as Hk; [|done]. rewrite lookup_delete_Some.
    split; [naive_solver|]. intros E. split; [|done]. intros <-. congruence.
  - intros j N. rewrite D, P. destruct (Nat.eqb_spec id j); [congruence|]. rewrite andb_false_r.
    split; [done|lia].
  - intros k E. by destruct (Hno k).
  - auto.
  - done.
  - auto.
  - unfold callAt in *. rewrite D, P, Nat.eqb_refl, andb_true_r. change (waitersOf c' id) with (waitersOf c id).
    assert (E1 : isRunning c' id = false) by (unfold isRunning; subst c'; cbn; by rewrite lookup_delete_eq).
    assert (E2 : current c' id = false) by (unfold current; subst c'; cbn; by rewrite lookup_delete_eq).
    rewrite E1, E2. change (co_closed c') with (co_closed c).
    destruct O as [O1 O2 O3 O4 O5 O6 O7 O8 O9 O10 O11 O12 O13 O14].
    destruct (O4 Hopen) as (C1 & C2 & C3 & C4). rewrite C3, C4. cbn.
    subst d. rewrite C1. cbn. destruct (co_closed c) eqn:Ecl.
    + destruct (Hcl eq_refl) as [ce ->]. rewrite orb_true_r, andb_true_r.
      split; cbn; try done; try (intros; congruence).
      * intros _ -> -> _. auto.
      * intros _ -> _ ->. cbn. lia.
      * intros ->. done.
    + rewrite orb_false_r. split; cbn; try done; try (intros; congruence).
      * by intros _ ->.
      * intros _ -> -> Hz. right. replace (sc_waiters call =? 0) with true by lia. cbn. lia.
      * intros _ Hs He. by destruct err.
      * intros _ _. destruct (_ && (sc_waiters call =? 0)) eqn:Ed; (split; [cbn; lia|]); [intros _|done].
        apply andb_true_iff in Ed as [_ Ed]. split; [lia|done].
      * intros ->. done.
Qed.

Lemma inv_Close c err : coInv c -> coInv (Close err c).
Proof.
  intros I. unfold Close. destruct (co_closed c) eqn:Ec; [done|].
  match goal with |- coInv ?s => set (c' := s) end.
  assert (Hh : forall j, co_heap c' !! j = (fun call => if inCalls c j then cancelCall call else call) <$> co_heap c !! j).
  { intros j. subst c'. cbn. rewrite map_lookup_imap. by destruct (co_heap c !! j). }
  destruct I as [I1 I2 I3 I4 I5 I6]. split; [|exact I2| | | |by eauto].
  - intros j jc Hj. rewrite Hh in Hj. apply fmap_Some in Hj as (call & Hj & ->).
    destruct (I1 j call Hj) as [L O]. split; [exact L|]. unfold callAt in *.
    change (waitersOf c' j) with (waitersOf c j). change (isRunning c' j) with (isRunning c j).
    change (current c' j) with (current c j). change (delivered c' j) with (delivered c j).
    change (disposals c' j) with (disposals c j). change (co_closed c') with true.
    destruct O. destruct (inCalls c j); split; cbn; try done; auto; try (intros; congruence).
    + intros E. destruct (ok_cur0 E) as (? & ? & _). done.
    + intros E. destruct (ok_cur0 E) as (? & ? & _). done.
  - intros j k Hj. rewrite Hh. apply fmap_is_Some. exact (I3 j k Hj).
  - intros w k j Hj. destruct (I4 w k j Hj) as (call & Hc & Hor). rewrite Hh, Hc.
    eexists. split; [reflexivity|]. by destruct (inCalls c j).
  - intros j Hj. rewrite Hh in Hj. apply fmap_None in Hj. exact (I5 j Hj).
Qed.

Lemma inv_exec op c c' : coInv c -> exec op c = Some c' -> coInv c'.
Proof.
  intros I He. destruct op; cbn in He.
  - destruct (co_waiting c !! waiter) eqn:E; [done|]. by eapply inv_Do.
  - by eapply inv_take.
  - by eapply inv_abandon.
  - by eapply inv_finish.
  - injection He as <-. by apply inv_Close.
Qed.

Lemma inv_new : coInv newCoalescer.
Proof. split; intros; try done; by rewrite lookup_empty in *. Qed.

Lemma inv_execAll ops c c' : coInv c -> execAll ops c = Some c' -> coInv c'.
Proof.
  revert c. induction ops as [|op ops IH]; intros c I; cbn.
  - by intros [= <-].
  - destruct (exec op c) as [c1|] eqn:E; cbn; [|done]. apply IH. by eapply inv_exec.
Qed.

Lemma reachable_inv c : reachable c -> coInv c.
Proof. intros [ops Ho]. exact (inv_execAll ops _ _ inv_new Ho). Qed.

(** ** What callers may rely on *)

Lemma finish_take c w key id call value err :
  coInv c -> co_waiting c !! w = Some (key, id) -> co_heap c !! id = Some call ->
  co_running c !! id = Some key ->
  exists c1 c2 e, finish id value err c = Some c1 /\ takeResult w c1 = Some c2 /\
    e = (if co_closed c then co_closeErr c else err) /\
    last (co_log c2) = Some (EvReturn w (Some id) (match e with Some _ => zero | None => value end) e).
Proof.
  intros I Hw Hc Hr. unfold finish. rewrite Hr, Hc. cbn.
  eexists _, _, _. split; [reflexivity|]. unfold takeResult. cbn. rewrite Hw. cbn.
  rewrite lookup_insert_eq. cbn.
  erewrite releaseLocked_completed; [|apply lookup_insert_eq|done]. cbn.
  split; [reflexivity|]. split; [reflexivity|]. cbn. by rewrite last_snoc.
Qed.

(** C12: Coalescing runs one operation per key.  An operation that has not been cancelled is the
    one new callers of its key join, so two that run for the same key are the same. *)
Theorem coalescer_single c key id1 id2 call1 call2 :
  reachable c ->
  co_running c !! id1 = Some key -> co_heap c !! id1 = Some call1 -> sc_cancelled call1 = false ->
  co_running c !! id2 = Some key -> co_heap c !! id2 = Some call2 -> sc_cancelled call2 = false ->
  co_calls c !! key = Some id1 /\ id1 = id2.
Proof.
  intros I%reachable_inv R1 H1 C1 R2 H2 C2.
  assert (Q : forall id call, co_running c !! id = Some key -> co_heap c !! id = Some call ->
    sc_cancelled call = false -> co_calls c !! key = Some id).
  { intros id call R Hh C. destruct (ci_calls c I id call Hh) as [_ O].
    pose proof (ok_runs _ _ _ _ _ _ _ O) as E. unfold isRunning in E. rewrite R in E.
    pose proof (ok_live _ _ _ _ _ _ _ O) as L. unfold current in L. rewrite R in L.
    destruct (sc_completed call); [done|]. exact (bool_decide_eq_true_1 _ (L eq_refl C)). }
  pose proof (Q id1 call1 R1 H1 C1) as E1. pose proof (Q id2 call2 R2 H2 C2) as E2.
  split; [done|congruence].
Qed.

(** No caller of [Do] is forgotten.  A waiting caller waits for a call that is done, whose
    result it can take, or for an operation that runs, which was not cancelled unless the
    coalescer was closed; when that operation returns, the caller gets its result, or the
    error of [Close]. *)
Theorem coalescer_waiter_served c w key id :
  reachable c -> co_waiting c !! w = Some (key, id) ->
  exists call, co_heap c !! id = Some call /\
    if sc_completed call then
      exists c', takeResult w c = Some c' /\
        last (co_log c') = Some (EvReturn w (Some id)
          (match sc_err call with Some _ => zero | None => sc_value call end) (sc_err call))
    else
      co_running c !! id = Some key /\ (co_closed c = false -> sc_cancelled call = false) /\
      forall value err, exists c1 c2 e, finish id value err c = Some c1 /\ takeResult w c1 = Some c2 /\
        e = (if co_closed c then co_closeErr c else err) /\
        last (co_log c2) = Some (EvReturn w (Some id) (match e with Some _ => zero | None => value end) e).
Proof.
  intros I%reachable_inv Hw. destruct (waiting_call c w key id I Hw) as (call & Hc & O & Hn & Hr).
  exists call. split; [done|]. destruct (sc_completed call) eqn:Hd.
  - unfold takeResult. rewrite Hw. cbn. rewrite Hc. cbn. rewrite (ok_done _ _ _ _ _ _ _ O), Hd.
    erewrite releaseLocked_completed; [|apply lookup_insert_eq|exact Hd]. cbn.
    eexists. split; [reflexivity|]. cbn. by rewrite last_snoc.
  - specialize (Hr eq_refl). split; [done|]. split.
    + intros Hc0. pose proof (ok_dead _ _ _ _ _ _ _ O Hd) as E. rewrite Hc0 in E.
      destruct (sc_cancelled call); [|done]. destruct E as [E|E]; [done|done|lia].
    + intros value err. by eapply finish_take.
Qed.

(** Values with a dispose function are accounted for.  When the operation of a call
    succeeded and its callers are gone, the value was delivered to one of them or disposed of;
    and unless the coalescer was closed before the operation returned, it is disposed of at
    most once, and never after being delivered. *)
Theorem coalescer_resources c id call :
  reachable c -> co_heap c !! id = Some call ->
  sc_completed call = true -> sc_succeeded call = true -> sc_dispose call = true ->
  (waitersOf c id = 0%nat -> delivered c id = true \/ (0 < disposals c id)%nat) /\
  (sc_err call = None -> (disposals c id <= 1)%nat /\ (delivered c id = true -> disposals c id = 0%nat)).
Proof.
  intros I%reachable_inv Hc Hd Hs Hdp. destruct (ci_calls c I id call Hc) as [_ O]. split.
  - by apply (ok_owned _ _ _ _ _ _ _ O).
  - intros He. destruct (ok_once _ _ _ _ _ _ _ O Hd He) as [Q1 Q2]. split; [done|]. intros Hdl.
    destruct (ok_del _ _ _ _ _ _ _ O Hdl) as [Hcl _].
    destruct (disposals c id) as [|[|n]]; [done| |lia]. destruct Q2; congruence.
Qed.

End Coalescer.

(** ** Runs of a coalescer of numbers *)

Definition ops1 : list (coOp (K := nat) (V := nat)) :=
  [OpDo true true 1 7 true; OpDo true true 2 7 true; OpAbandon 1 ErrContext; OpFinish 0 42 None;
   OpTake 2; OpDo true true 3 7 false]%nat.

Definition sample1 : coalescer (K := nat) (V := nat) :=
  match execAll 0%nat ops1 newCoalescer with Some c => c | None => newCoalescer end.

Lemma sample1_reachable : reachable 0%nat sample1.
Proof. exists ops1. vm_compute. reflexivity. Qed.

Lemma coalescer_single_witness :
  co_running sample1 !! 1%nat = Some 7%nat /\ co_calls sample1 !! 7%nat = Some 1%nat.
Proof.
  split; [vm_compute; reflexivity|].
  refine (proj1 (coalescer_single 0%nat sample1 7%nat 1%nat 1%nat _ _ sample1_reachable _ _ _ _ _ _));
    vm_compute; reflexivity.
Defined.

Lemma coalescer_waiter_served_witness :
  co_waiting sample1 !! 3%nat = Some (7%nat, 1%nat) /\ is_Some (co_heap sample1 !! 1%nat).
Proof.
  split; [vm_compute; reflexivity|].
  destruct (coalescer_waiter_served 0%nat sample1 3%nat 7%nat 1%nat sample1_reachable) as (call & Hc & _);
    [vm_compute; reflexivity|]. eexists. exact Hc.
Defined.

Lemma coalescer_resources_witness :
  delivered sample1 0 = true /\ disposals sample1 0 = 0%nat.
Proof.
  split; [vm_compute; reflexivity|].
  refine (proj2 (proj2 (coalescer_resources 0%nat sample1 0%nat _ sample1_reachable _ _ _ _) _) _);
    vm_compute; reflexivity.
Defined.

(** Closing makes double disposal possible.  An operation that succeeds after [Close] has
    its value disposed of by [run]; a caller that then leaves through its context disposes of
    the same value again. *)
Theorem coalescer_disposes_twice :
  exists c, execAll 0%nat
    [OpDo true true 1 7 true; OpClose None; OpFinish 0 42 None; OpAbandon 1 ErrContext]%nat
    newCoalescer = Some c /\ disposals c 0 = 2%nat.
Proof. eexists. split; [vm_compute; reflexivity|vm_compute; reflexivity]. Qed.
