(* ===== verification/ConnectionPool.v ===== *)
(** * The pool of connections

    Models the connections of [pkg/fgo/connection_manager.go]: [getNode], [openManagedConnection],
    [remove], [Close] and the shutdown of clients, together with the coalescer they share
    ([Coalescer]).  Callers, opening goroutines and [Close] interleave; each critical section is
    one step.  What dialling, TLS, negotiation and authentication do inside [open] is the
    environment: it answers with a new connection or an error.

    A connection is a number; the pool knows of it whether it was shut down. *)

From S2P Require Import Prelude Model Errors Coalescer.

(** [connectionKey]. *)
Record connectionKey := MkConnectionKey { ck_id : Z; ck_address : string; ck_serverType : ServerType }.

#[export] Instance connectionKey_eq_dec : EqDecision connectionKey.
Proof. solve_decision. Defined.

#[export] Instance ServerType_countable : Countable ServerType.
Proof.
  refine (inj_countable' (fun t => match t with CoordinatorServer => true | TabletServer => false end)
    (fun b : bool => if b then CoordinatorServer else TabletServer) _). by intros [].
Defined.

#[export] Instance connectionKey_countable : Countable connectionKey.
Proof.
  refine (inj_countable' (fun k => (ck_id k, ck_address k, ck_serverType k))
    (fun '(i, a, t) => MkConnectionKey i a t) _). by intros [].
Defined.

Abbreviation flights := (coalescer (K := connectionKey) (V := option nat)).

(** Where the operation of a flight is: before the second look into the pool, inside [open],
    before it stores what it opened, and back. *)
Inductive flightStage :=
| FlCheck
| FlOpening
| FlOpened (client : nat)
| FlReturning (client : option nat) (err : option goerror).

(** [connectionManager]: the pool, whether each connection made is still open, the callers
    between their look into the pool and [flights.Do], the operations of the flights, the
    connections removed and not yet shut down, and those [Close] collected.  [po_lost] are the
    connections whose place in the pool was taken by another, and [po_returned] what [getNode]
    answered without a flight. *)
Record Pool := MkPool {
  po_closed : bool;
  po_clients : gmap connectionKey nat;
  po_open : gmap nat bool;
  po_asking : gmap nat connectionKey;
  po_flights : flights;
  po_opening : gmap nat (connectionKey * flightStage);
  po_dropping : list nat;
  po_closing : list nat;
  po_lost : list nat;
  po_returned : list (nat * (nat + goerror));
}.

Definition newPool : Pool := MkPool false ∅ ∅ ∅ newCoalescer ∅ [] [] [] [].

Definition setFlights (f : flights) (p : Pool) : Pool :=
  MkPool (po_closed p) (po_clients p) (po_open p) (po_asking p) f (po_opening p) (po_dropping p) (po_closing p) (po_lost p) (po_returned p).

Definition setOpening (o : gmap nat (connectionKey * flightStage)) (p : Pool) : Pool :=
  MkPool (po_closed p) (po_clients p) (po_open p) (po_asking p) (po_flights p) o (po_dropping p) (po_closing p) (po_lost p) (po_returned p).

Definition setAsking (a : gmap nat connectionKey) (p : Pool) : Pool :=
  MkPool (po_closed p) (po_clients p) (po_open p) a (po_flights p) (po_opening p) (po_dropping p) (po_closing p) (po_lost p) (po_returned p).

Definition setOpen (o : gmap nat bool) (p : Pool) : Pool :=
  MkPool (po_closed p) (po_clients p) o (po_asking p) (po_flights p) (po_opening p) (po_dropping p) (po_closing p) (po_lost p) (po_returned p).

Definition returned (w : nat) (a : nat + goerror) (p : Pool) : Pool :=
  MkPool (po_closed p) (po_clients p) (po_open p) (po_asking p) (po_flights p) (po_opening p) (po_dropping p) (po_closing p) (po_lost p)
    (po_returned p ++ [(w, a)]).

(** [cachedClient]: an error when the manager is closed, a connection, or none. *)
Definition cachedClient (key : connectionKey) (p : Pool) : option nat + goerror :=
  if po_closed p then inr ErrClosed else inl (po_clients p !! key).

(** [getNode] up to [flights.Do]. *)
Definition getNode (w : nat) (node : ServerNode) (p : Pool) : Pool :=
  if bool_decide (sn_Address node = ""%string) then returned w (inr ErrInvalidConfig) p
  else
    let key := MkConnectionKey (sn_ID node) (sn_Address node) (sn_ServerType node) in
    match cachedClient key p with
    | inr err => returned w (inr err) p
    | inl (Some client) => returned w (inl client) p
    | inl None => setAsking (<[w := key]> (po_asking p)) p
    end.

(** [flights.Do]: when the coalescer starts an operation, it is that of [openManagedConnection]. *)
Definition joinFlight (w : nat) (p : Pool) : option Pool :=
  key ← po_asking p !! w;
  let f := po_flights p in
  f' ← Coalescer.exec None (OpDo true true w key false) f;
  let p := setFlights f' (setAsking (delete w (po_asking p)) p) in
  Some (if Nat.eqb (co_next f') (co_next f) then p
        else setOpening (<[co_next f := (key, FlCheck)]> (po_opening p)) p).

(** [openManagedConnection], in three steps. *)
Definition checkFlight (flight : nat) (p : Pool) : option Pool :=
  '(key, stage) ← po_opening p !! flight;
  match stage with
  | FlCheck =>
    let stage := match cachedClient key p with
                 | inr err => FlReturning None (Some err)
                 | inl (Some client) => FlReturning (Some client) None
                 | inl None => FlOpening
                 end in
    Some (setOpening (<[flight := (key, stage)]> (po_opening p)) p)
  | _ => None
  end.

(** The connection that [open] makes is new. *)
Definition openFlight (flight client : nat) (err : option goerror) (p : Pool) : option Pool :=
  '(key, stage) ← po_opening p !! flight;
  match stage with
  | FlOpening =>
    match err with
    | Some e => Some (setOpening (<[flight := (key, FlReturning None (Some e))]> (po_opening p)) p)
    | None =>
      match po_open p !! client with
      | Some _ => None
      | None => Some (setOpening (<[flight := (key, FlOpened client)]> (po_opening p)) (setOpen (<[client := true]> (po_open p)) p))
      end
    end
  | _ => None
  end.

(** Storing the connection, or shutting it down when the manager was closed meanwhile. *)
Definition storeFlight (flight : nat) (p : Pool) : option Pool :=
  '(key, stage) ← po_opening p !! flight;
  match stage with
  | FlOpened client =>
    if po_closed p then
      Some (setOpening (<[flight := (key, FlReturning (Some client) (Some ErrClosed))]> (po_opening p))
              (setOpen (<[client := false]> (po_open p)) p))
    else
      Some (MkPool (po_closed p) (<[key := client]> (po_clients p)) (po_open p) (po_asking p) (po_flights p)
              (<[flight := (key, FlReturning (Some client) None)]> (po_opening p)) (po_dropping p) (po_closing p)
              (po_lost p ++ (match po_clients p !! key with Some old => [old] | None => [] end)) (po_returned p))
  | _ => None
  end.

(** The goroutine of the flight, from the return of its operation on. *)
Definition finishFlight (flight : nat) (p : Pool) : option Pool :=
  '(key, stage) ← po_opening p !! flight;
  match stage with
  | FlReturning client err =>
    f' ← Coalescer.exec None (OpFinish flight client err) (po_flights p);
    Some (setFlights f' (setOpening (delete flight (po_opening p)) p))
  | _ => None
  end.

(** [remove], by a request that saw the connection fail; it shuts it down next. *)
Definition remove (key : connectionKey) (client : nat) (p : Pool) : Pool :=
  let clients := if decide (po_clients p !! key = Some client) then delete key (po_clients p) else po_clients p in
  MkPool (po_closed p) clients (po_open p) (po_asking p) (po_flights p) (po_opening p) (po_dropping p ++ [client]) (po_closing p)
    (po_lost p) (po_returned p).

(** [Client.shutdown] closes the connection the first time it is called. *)
Definition shutdown (client : nat) (p : Pool) : Pool := setOpen (alter (fun _ => false) client (po_open p)) p.

Definition shutdownDropped (p : Pool) : option Pool :=
  match po_dropping p with
  | [] => None
  | client :: rest =>
    Some (shutdown client (MkPool (po_closed p) (po_clients p) (po_open p) (po_asking p) (po_flights p) (po_opening p)
            rest (po_closing p) (po_lost p) (po_returned p)))
  end.

(** [Close]: the pool is closed and its connections collected; then the flights are closed, and
    the connections shut down one after another. *)
Definition closePool (p : Pool) : Pool :=
  if po_closed p then p
  else MkPool true (po_clients p) (po_open p) (po_asking p) (po_flights p) (po_opening p) (po_dropping p)
         (po_closing p ++ (map_to_list (po_clients p)).*2) (po_lost p) (po_returned p).

Definition closeFlights (p : Pool) : option Pool :=
  if po_closed p then Some (setFlights (Coalescer.Close (Some ErrClosed) (po_flights p)) p) else None.

Definition shutdownNext (p : Pool) : option Pool :=
  match po_closing p with
  | [] => None
  | client :: rest =>
    Some (shutdown client (MkPool (po_closed p) (po_clients p) (po_open p) (po_asking p) (po_flights p) (po_opening p)
            (po_dropping p) rest (po_lost p) (po_returned p)))
  end.

Inductive poolOp :=
| PGet (w : nat) (node : ServerNode)
| PJoin (w : nat)
| PCheck (flight : nat)
| POpen (flight client : nat) (err : option goerror)
| PStore (flight : nat)
| PFinish (flight : nat)
| PTake (w : nat)
| PAbandon (w : nat) (e : goerror)
| PRemove (key : connectionKey) (client : nat)
| PShutdownDropped
| PClose
| PCloseFlights
| PShutdownNext.

Definition exec (op : poolOp) (p : Pool) : option Pool :=
  match op with
  | PGet w node => Some (getNode w node p)
  | PJoin w => joinFlight w p
  | PCheck flight => checkFlight flight p
  | POpen flight client err => openFlight flight client err p
  | PStore flight => storeFlight flight p
  | PFinish flight => finishFlight flight p
  | PTake w => f' ← Coalescer.exec None (OpTake w) (po_flights p); Some (setFlights f' p)
  | PAbandon w e => f' ← Coalescer.exec None (OpAbandon w e) (po_flights p); Some (setFlights f' p)
  | PRemove key client => Some (remove key client p)
  | PShutdownDropped => shutdownDropped p
  | PClose => Some (closePool p)
  | PCloseFlights => closeFlights p
  | PShutdownNext => shutdownNext p
  end.

Fixpoint execAll (ops : list poolOp) (p : Pool) : option Pool :=
  match ops with
  | [] => Some p
  | op :: ops => p' ← exec op p; execAll ops p'
  end.

(** ** Accounting for connections *)

Definition held (p : Pool) (c : nat) : Prop :=
  (exists key, po_clients p !! key = Some c) \/ (exists flight key, po_opening p !! flight = Some (key, FlOpened c)) \/
  c ∈ po_dropping p \/ c ∈ po_closing p \/ c ∈ po_lost p.

Record poolOK (p : Pool) : Prop := {
  q_account : forall c, po_open p !! c = Some true -> held p c;
  q_known : forall key c, po_clients p !! key = Some c -> is_Some (po_open p !! c);
  q_opened : forall flight key c, po_opening p !! flight = Some (key, FlOpened c) -> is_Some (po_open p !! c);
  q_closed : po_closed p = true -> forall key c, po_clients p !! key = Some c -> c ∈ po_closing p \/ po_open p !! c <> Some true;
}.

Lemma poolOK_ext p p' :
  poolOK p -> po_clients p' = po_clients p -> po_opening p' = po_opening p -> po_open p' = po_open p ->
  po_dropping p' = po_dropping p -> po_closing p' = po_closing p -> po_lost p' = po_lost p -> po_closed p' = po_closed p -> poolOK p'.
Proof.
  intros [Q1 Q2 Q3 Q4] E1 E2 E3 E4 E5 E6 E7. unfold held in *.
  split; unfold held; rewrite ?E1, ?E2, ?E3, ?E4, ?E5, ?E6, ?E7; done.
Qed.

(** A flight moves to a stage in which it holds no connection. *)
Lemma pool_stage p flight key st st' :
  poolOK p -> po_opening p !! flight = Some (key, st) -> (forall c, st <> FlOpened c) -> (forall c, st' <> FlOpened c) ->
  poolOK (setOpening (<[flight := (key, st')]> (po_opening p)) p).
Proof.
  intros [Q1 Q2 Q3 Q4] Hf Hst Hst'. split; cbn; try done.
  - intros c Hc. destruct (Q1 c Hc) as [Hh|[(f & k & Hh)|Hh]]; [by left| |by right; right].
    right; left. exists f, k. cbn. rewrite lookup_insert_ne; [done|]. intros <-. rewrite Hf in Hh. injection Hh as _ Hh. by apply (Hst c).
  - intros f k c Hl. apply lookup_insert_Some in Hl as [[_ [= _ Hl]]|[_ Hl]]; [by apply (Hst' c) in Hl|by eapply Q3].
Qed.

Lemma pool_unlist p flight key st :
  poolOK p -> po_opening p !! flight = Some (key, st) -> (forall c, st <> FlOpened c) ->
  poolOK (setOpening (delete flight (po_opening p)) p).
Proof.
  intros [Q1 Q2 Q3 Q4] Hf Hst. split; cbn; try done.
  - intros c Hc. destruct (Q1 c Hc) as [Hh|[(f & k & Hh)|Hh]]; [by left| |by right; right].
    right; left. exists f, k. cbn. rewrite lookup_delete_ne; [done|]. intros <-. rewrite Hf in Hh. injection Hh as _ Hh. by apply (Hst c).
  - intros f k c Hl. apply lookup_delete_Some in Hl as [_ Hl]. by eapply Q3.
Qed.

Lemma pool_shutdown c p p0 :
  poolOK p0 -> po_clients p = po_clients p0 -> po_opening p = po_opening p0 -> po_open p = po_open p0 -> po_lost p = po_lost p0 ->
  po_closed p = po_closed p0 ->
  (forall x, x ∈ po_dropping p0 -> x ∈ po_dropping p \/ x = c) -> (forall x, x ∈ po_closing p0 -> x ∈ po_closing p \/ x = c) ->
  poolOK (shutdown c p).
Proof.
  intros [Q1 Q2 Q3 Q4] E1 E2 E3 E4 E5 D1 D2. split; unfold held, shutdown; cbn; rewrite ?E1, ?E2, ?E3, ?E4, ?E5.
  - intros x Hx. apply lookup_alter_Some in Hx as [(<- & b & _ & [=])|[Hne Hx]].
    destruct (Q1 x Hx) as [Hh|[Hh|[Hh|[Hh|Hh]]]]; [by left|by right; left| | |by do 4 right].
    + destruct (D1 x Hh) as [?|?]; [by right; right; left|congruence].
    + destruct (D2 x Hh) as [?|?]; [by do 3 right; left|congruence].
  - intros k x Hx. rewrite lookup_alter_is_Some. by eapply Q2.
  - intros f k x Hx. rewrite lookup_alter_is_Some. by eapply Q3.
  - intros Hc k x Hx. destruct (decide (x = c)) as [->|Hne].
    + right. rewrite lookup_alter_eq. by destruct (po_open p0 !! c).
    + rewrite lookup_alter_ne by done. destruct (Q4 Hc k x Hx) as [Hh|Hh]; [|by right].
      destruct (D2 x Hh) as [?|?]; [by left|done].
Qed.

Lemma pool_get w node p : poolOK p -> poolOK (getNode w node p).
Proof.
  intros Q. unfold getNode. destruct (bool_decide _); [by eapply poolOK_ext|].
  destruct (cachedClient _ p) as [[c|]|e]; by eapply poolOK_ext.
Qed.

Lemma pool_join w p p' :
  (forall flight, po_opening p !! flight = None \/ (flight < co_next (po_flights p))%nat) ->
  poolOK p -> joinFlight w p = Some p' -> poolOK p'.
Proof.
  intros Hnext Q. unfold joinFlight. destruct (po_asking p !! w) as [key|]; [|done]. cbn [mbind option_bind].
  destruct (Coalescer.exec None _ (po_flights p)) as [f'|] eqn:Ef; [|done]. cbn [mbind option_bind]. intros [= <-].
  destruct (Nat.eqb _ _); [by eapply poolOK_ext|]. destruct Q as [Q1 Q2 Q3 Q4]. split; cbn; try done.
  - intros c Hc. destruct (Q1 c Hc) as [Hh|[(f & k & Hh)|Hh]]; [by left| |by right; right].
    right; left. exists f, k. cbn. rewrite lookup_insert_ne; [done|]. intros <-. destruct (Hnext (co_next (po_flights p))) as [Hn|Hn]; [congruence|lia].
  - intros f k c Hl. apply lookup_insert_Some in Hl as [[_ [=]]|[_ Hl]]. by eapply Q3.
Qed.

Lemma pool_check flight p p' : poolOK p -> checkFlight flight p = Some p' -> poolOK p'.
Proof.
  intros Q. unfold checkFlight. destruct (po_opening p !! flight) as [[key st]|] eqn:Hf; [|done]. cbn [mbind option_bind].
  destruct st; try done. intros [= <-]. eapply pool_stage; try done. intros c. by destruct (cachedClient key p) as [[?|]|?].
Qed.

Lemma pool_open flight client err p p' : poolOK p -> openFlight flight client err p = Some p' -> poolOK p'.
Proof.
  intros Q. unfold openFlight. destruct (po_opening p !! flight) as [[key st]|] eqn:Hf; [|done]. cbn [mbind option_bind].
  destruct st; try done. destruct err as [e|]; [intros [= <-]; by eapply pool_stage|].
  destruct (po_open p !! client) as [b|] eqn:Hc; [done|]. intros [= <-]. destruct Q as [Q1 Q2 Q3 Q4]. split; cbn.
  - intros x Hx. apply lookup_insert_Some in Hx as [[<- _]|[Hne Hx]]; [right; left; exists flight, key; apply lookup_insert_eq|].
    destruct (Q1 x Hx) as [Hh|[(f & k & Hh)|Hh]]; [by left| |by right; right].
    right; left. exists f, k. cbn. rewrite lookup_insert_ne; [done|]. intros <-. congruence.
  - intros k x Hx. apply lookup_insert_is_Some'. right. by eapply Q2.
  - intros f k x Hx. apply lookup_insert_Some in Hx as [[_ [= _ <-]]|[_ Hx]]; apply lookup_insert_is_Some'; [by left|right; by eapply Q3].
  - intros Hcl k x Hx. destruct (Q4 Hcl k x Hx) as [?|Hno]; [by left|right].
    destruct (Q2 k x Hx) as [b Hb]. rewrite lookup_insert_ne by congruence. done.
Qed.

Lemma pool_store flight p p' : poolOK p -> storeFlight flight p = Some p' -> poolOK p'.
Proof.
  intros Q. unfold storeFlight. destruct (po_opening p !! flight) as [[key st]|] eqn:Hf; [|done]. cbn [mbind option_bind].
  destruct st as [| |c|]; try done. destruct Q as [Q1 Q2 Q3 Q4]. destruct (po_closed p) eqn:Hcl; intros [= <-]; split; cbn.
  - intros x Hx. apply lookup_insert_Some in Hx as [[_ [=]]|[Hne Hx]]. destruct (Q1 x Hx) as [Hh|[(f & k & Hh)|Hh]]; [by left| |by right; right].
    right; left. exists f, k. cbn. rewrite lookup_insert_ne; [done|]. intros <-. rewrite Hf in Hh. congruence.
  - intros k x Hx. apply lookup_insert_is_Some'. right. by eapply Q2.
  - intros f k x Hx. apply lookup_insert_Some in Hx as [[_ [=]]|[_ Hx]]. apply lookup_insert_is_Some'; right; by eapply Q3.
  - intros _ k x Hx. destruct (decide (x = c)) as [->|Hne]; [right; by rewrite lookup_insert_eq|].
    rewrite lookup_insert_ne by congruence. by eapply Q4.
  - intros x Hx. destruct (Q1 x Hx) as [(k & Hk)|[(f & k & Hh)|[Hh|[Hh|Hh]]]]; unfold held; cbn.
    + destruct (decide (k = key)) as [->|Hne]; [|left; exists k; by rewrite lookup_insert_ne].
      do 4 right. rewrite Hk. apply elem_of_app. right. by left.
    + destruct (decide (f = flight)) as [->|Hne]; [|right; left; exists f, k; by rewrite lookup_insert_ne].
      left. exists key. rewrite Hf in Hh. injection Hh as _ ->. apply lookup_insert_eq.
    + by right; right; left.
    + by do 3 right; left.
    + do 4 right. apply elem_of_app. by left.
  - intros k x Hx. apply lookup_insert_Some in Hx as [[_ <-]|[_ Hx]]; [by eapply Q3|by eapply Q2].
  - intros f k x Hx. apply lookup_insert_Some in Hx as [[_ [=]]|[_ Hx]]. by eapply Q3.
  - done.
Qed.

Lemma pool_remove key client p : poolOK p -> poolOK (remove key client p).
Proof.
  intros [Q1 Q2 Q3 Q4]. unfold remove. split; cbn; try done.
  - intros c Hc. destruct (Q1 c Hc) as [(k & Hk)|[Hh|[Hh|[Hh|Hh]]]]; unfold held; cbn.
    + destruct (decide (c = client)) as [->|Hne]; [right; right; left; apply elem_of_app; right; by left|].
      left. exists k. case_decide; [|done]. rewrite lookup_delete_ne; [done|]. intros <-. congruence.
    + by right; left.
    + right; right; left. apply elem_of_app. by left.
    + by do 3 right; left.
    + by do 4 right.
  - intros k c Hk. case_decide; [apply lookup_delete_Some in Hk as [_ Hk]|]; by eapply Q2.
  - intros Hcl k c Hk. case_decide; [apply lookup_delete_Some in Hk as [_ Hk]|]; by eapply Q4.
Qed.

Lemma pool_close p : poolOK p -> poolOK (closePool p).
Proof.
  intros Q. unfold closePool. destruct (po_closed p) eqn:Hcl; [done|]. destruct Q as [Q1 Q2 Q3 Q4]. split; cbn; try done.
  - intros c Hc. destruct (Q1 c Hc) as [Hh|[Hh|[Hh|[Hh|Hh]]]]; unfold held; cbn;
      [by left|by right; left|by right; right; left|do 3 right; left; apply elem_of_app; by left|by do 4 right].
  - intros _ k c Hk. left. apply elem_of_app. right. apply list_elem_of_fmap. exists (k, c). split; [done|]. by apply elem_of_map_to_list.
Qed.

(** ** The flights *)

Lemma do_flight w key (f f' : flights) :
  Coalescer.exec None (OpDo true true w key false) f = Some f' -> co_closed f' = co_closed f /\
  ((co_next f' = co_next f /\ co_running f' = co_running f /\ co_calls f' = co_calls f) \/
   (co_next f' = S (co_next f) /\ co_running f' = <[co_next f := key]> (co_running f) /\
    co_calls f' = <[key := co_next f]> (co_calls f) /\ co_calls f !! key = None)).
Proof.
  cbn [Coalescer.exec]. destruct (co_waiting f !! w); [done|]. unfold Do. cbn [negb orb].
  destruct (co_closed f) eqn:Hc; [intros [= <-]; split; [exact Hc|by left]|].
  destruct (co_calls f !! key) as [n|] eqn:Hk; cbn [mbind option_bind].
  - rewrite Hk. unfold joinCall. cbn [mbind option_bind]. destruct (co_heap f !! n) as [call|]; cbn [mbind option_bind]; [|done]. intros [= <-]. split; [exact Hc|by left].
  - cbn. rewrite lookup_insert_eq. cbn. unfold joinCall. cbn. rewrite lookup_insert_eq. cbn. intros [= <-]. split; [exact Hc|by right].
Qed.

Lemma take_flight w (f f' : flights) :
  coInv f -> Coalescer.exec None (OpTake w) f = Some f' ->
  co_closed f' = co_closed f /\ co_next f' = co_next f /\ co_running f' = co_running f /\ co_calls f' = co_calls f.
Proof.
  intros I. cbn [Coalescer.exec]. unfold takeResult. destruct (co_waiting f !! w) as [[key id]|]; [|done]. cbn [mbind option_bind].
  destruct (co_heap f !! id) as [call|] eqn:Hh; [|done]. cbn [mbind option_bind]. destruct (sc_done call) eqn:Hd; [|done].
  destruct (ci_calls f I id call Hh) as [_ O]. pose proof (ok_done _ _ _ _ _ _ _ O) as E. rewrite Hd in E.
  unfold releaseLocked. cbn. rewrite lookup_insert_eq. cbn. rewrite <- E. cbn.
  repeat case_match; cbn in *; simplify_eq; intros; simplify_eq; done.
Qed.

Lemma abandon_flight w e (f f' : flights) :
  Coalescer.exec None (OpAbandon w e) f = Some f' ->
  co_closed f' = co_closed f /\ co_next f' = co_next f /\ co_running f' = co_running f.
Proof.
  cbn [Coalescer.exec]. unfold abandon. destruct (co_waiting f !! w) as [[key id]|]; [|done]. cbn [mbind option_bind].
  unfold release. destruct (releaseLocked key id f) as [[f1 d]|] eqn:Er; [|done]. cbn [mbind option_bind].
  assert (E : co_closed f1 = co_closed f /\ co_next f1 = co_next f /\ co_running f1 = co_running f).
  { unfold releaseLocked in Er. destruct (co_heap f !! id); [|done]. cbn in Er. repeat case_match; simplify_eq; done. }
  destruct (co_heap f1 !! id) as [call|]; [|done]. cbn [mbind option_bind]. intros [= <-]. by destruct d.
Qed.

Lemma finish_flight id c err (f f' : flights) :
  Coalescer.exec None (OpFinish id c err) f = Some f' ->
  exists key, co_running f !! id = Some key /\ co_closed f' = co_closed f /\ co_next f' = co_next f /\
    co_running f' = delete id (co_running f) /\
    co_calls f' = (if decide (co_calls f !! key = Some id) then delete key (co_calls f) else co_calls f).
Proof.
  cbn [Coalescer.exec]. unfold finish. destruct (co_running f !! id) as [key|]; [|done]. cbn [mbind option_bind].
  destruct (co_heap f !! id) as [call|]; [|done]. cbn [mbind option_bind]. intros [= <-]. by exists key.
Qed.

Record flightsOK (p : Pool) : Prop := {
  f_inv : coInv (po_flights p);
  f_running : forall flight, co_running (po_flights p) !! flight = fst <$> po_opening p !! flight;
  f_closed : co_closed (po_flights p) = true -> po_closed p = true;
}.

Lemma flights_next p flight : flightsOK p -> po_opening p !! flight = None \/ (flight < co_next (po_flights p))%nat.
Proof.
  intros [F1 F2 F3]. specialize (F2 flight). destruct (po_opening p !! flight) as [[key st]|]; [right|by left]. cbn in F2.
  destruct (ci_running _ F1 flight key F2) as [call Hc]. by eapply ci_calls.
Qed.

Lemma flights_ext p p' :
  flightsOK p -> po_flights p' = po_flights p -> po_opening p' = po_opening p -> (po_closed p = true -> po_closed p' = true) -> flightsOK p'.
Proof. intros [F1 F2 F3] E1 E2 E3. split; rewrite ?E1, ?E2; try done. intros Hc. by apply E3, F3. Qed.

Lemma flights_stage p flight key st st' :
  flightsOK p -> po_opening p !! flight = Some (key, st) -> flightsOK (setOpening (<[flight := (key, st')]> (po_opening p)) p).
Proof.
  intros [F1 F2 F3] Hf. split; cbn; try done. intros g. rewrite F2. destruct (decide (g = flight)) as [->|Hne].
  - by rewrite Hf, lookup_insert_eq.
  - by rewrite lookup_insert_ne by congruence.
Qed.

Lemma flights_exec op p p' : flightsOK p -> exec op p = Some p' -> flightsOK p'.
Proof.
  intros F. pose proof F as [F1 F2 F3]. destruct op; cbn [exec].
  - intros [= <-]. unfold getNode. destruct (bool_decide _); [by eapply flights_ext|]. destruct (cachedClient _ p) as [[c|]|e]; by eapply flights_ext.
  - unfold joinFlight. destruct (po_asking p !! w) as [key|]; [|done]. cbn [mbind option_bind].
    destruct (Coalescer.exec None _ (po_flights p)) as [f'|] eqn:Ef; [|done]. cbn [mbind option_bind]. intros [= <-].
    pose proof (Coalescer.inv_exec None _ _ _ F1 Ef) as I'. apply do_flight in Ef as (Hcl & [(E1 & E2 & E3)|(E1 & E2 & E3 & E4)]).
    + rewrite E1, Nat.eqb_refl. split; cbn; try done; rewrite ?E2, ?Hcl; done.
    + rewrite E1. destruct (Nat.eqb_spec (S (co_next (po_flights p))) (co_next (po_flights p))) as [?|_]; [lia|].
      split; cbn; try done; rewrite ?E2, ?Hcl; [|done]. intros g. destruct (decide (g = co_next (po_flights p))) as [->|Hne].
      * by rewrite !lookup_insert_eq.
      * by rewrite !lookup_insert_ne by congruence.
  - unfold checkFlight. destruct (po_opening p !! flight) as [[key st]|] eqn:Hf; [|done]. cbn. destruct st; try done. intros [= <-]. by eapply flights_stage.
  - unfold openFlight. destruct (po_opening p !! flight) as [[key st]|] eqn:Hf; [|done]. cbn. destruct st; try done.
    destruct err; [intros [= <-]; by eapply flights_stage|]. destruct (po_open p !! client); [done|]. intros [= <-].
    eapply flights_ext; [eapply (flights_stage p flight key _ (FlOpened client)); done|..]; done.
  - unfold storeFlight. destruct (po_opening p !! flight) as [[key st]|] eqn:Hf; [|done]. cbn. destruct st as [| |c|]; try done.
    destruct (po_closed p) eqn:Hcl; intros [= <-].
    + eapply flights_ext; [eapply (flights_stage p flight key _ (FlReturning (Some c) (Some ErrClosed))); done|..]; done.
    + eapply flights_ext; [eapply (flights_stage p flight key _ (FlReturning (Some c) None)); done|..]; cbn; congruence.
  - unfold finishFlight. destruct (po_opening p !! flight) as [[key st]|] eqn:Hf; [|done]. cbn [mbind option_bind]. destruct st as [| |c|c err]; try done.
    destruct (Coalescer.exec None _ (po_flights p)) as [f'|] eqn:Ef; [|done]. cbn [mbind option_bind]. intros [= <-].
    pose proof (Coalescer.inv_exec None _ _ _ F1 Ef) as I'. apply finish_flight in Ef as (k & _ & Hcl & _ & E2 & _).
    split; cbn; try done; rewrite ?E2, ?Hcl; [|done]. intros g. destruct (decide (g = flight)) as [->|Hne].
    + by rewrite !lookup_delete_eq.
    + by rewrite !lookup_delete_ne by congruence.
  - destruct (Coalescer.exec None _ (po_flights p)) as [f'|] eqn:Ef; [|done]. cbn [mbind option_bind]. intros [= <-].
    pose proof (Coalescer.inv_exec None _ _ _ F1 Ef) as I'. apply take_flight in Ef as (E1 & _ & E2 & _); [|done].
    split; cbn; try done; by rewrite ?E1, ?E2.
  - destruct (Coalescer.exec None _ (po_flights p)) as [f'|] eqn:Ef; [|done]. cbn [mbind option_bind]. intros [= <-].
    pose proof (Coalescer.inv_exec None _ _ _ F1 Ef) as I'. apply abandon_flight in Ef as (E1 & _ & E2).
    split; cbn; try done; by rewrite ?E1, ?E2.
  - intros [= <-]. by eapply flights_ext.
  - unfold shutdownDropped. destruct (po_dropping p); [done|]. intros [= <-]. by eapply flights_ext.
  - intros [= <-]. unfold closePool. destruct (po_closed p) eqn:Hc; [done|]. by eapply flights_ext.
  - unfold closeFlights. destruct (po_closed p) eqn:Hc; [|done]. intros [= <-]. split; cbn.
    + by apply (Coalescer.inv_exec None (OpClose (Some ErrClosed)) (po_flights p)).
    + intros g. rewrite <- F2. unfold Coalescer.Close. by destruct (co_closed (po_flights p)).
    + intros _. exact Hc.
  - unfold shutdownNext. destruct (po_closing p); [done|]. intros [= <-]. by eapply flights_ext.
Qed.

Lemma pool_exec op p p' : flightsOK p -> poolOK p -> exec op p = Some p' -> poolOK p'.
Proof.
  intros F Q. destruct op; cbn [exec].
  - intros [= <-]. by apply pool_get.
  - apply pool_join; [|done]. intros flight. by apply flights_next.
  - by apply pool_check.
  - by apply pool_open.
  - by apply pool_store.
  - unfold finishFlight. destruct (po_opening p !! flight) as [[key st]|] eqn:Hf; [|done]. cbn [mbind option_bind]. destruct st as [| |c|c err]; try done.
    destruct (Coalescer.exec None _ (po_flights p)) as [f'|]; [|done]. cbn [mbind option_bind]. intros [= <-].
    eapply (poolOK_ext (setOpening (delete flight (po_opening p)) p)); try done. by eapply pool_unlist.
  - destruct (Coalescer.exec None _ (po_flights p)) as [f'|]; [|done]. cbn [mbind option_bind]. intros [= <-]. by eapply poolOK_ext.
  - destruct (Coalescer.exec None _ (po_flights p)) as [f'|]; [|done]. cbn [mbind option_bind]. intros [= <-]. by eapply poolOK_ext.
  - intros [= <-]. by apply pool_remove.
  - unfold shutdownDropped. destruct (po_dropping p) as [|c rest] eqn:Ed; [done|]. intros [= <-]. eapply (pool_shutdown c _ p); try done.
    + intros x. rewrite Ed. intros Hx. apply elem_of_cons in Hx as [->|Hx]; [by right|by left].
    + intros x Hx. by left.
  - intros [= <-]. by apply pool_close.
  - unfold closeFlights. destruct (po_closed p) eqn:Hc; [|done]. intros [= <-]. by eapply poolOK_ext.
  - unfold shutdownNext. destruct (po_closing p) as [|c rest] eqn:Ed; [done|]. intros [= <-]. eapply (pool_shutdown c _ p); try done.
    + intros x Hx. by left.
    + intros x. rewrite Ed. intros Hx. apply elem_of_cons in Hx as [->|Hx]; [by right|by left].
Qed.

(** ** Without cancelled flights nothing is lost

    While no caller leaves a flight through its context, every running flight is the one its key
    names, so that no two of a key run, and while one has not stored its connection its key has none
    in the pool. *)
Definition isAbandon (op : poolOp) : bool := match op with PAbandon _ _ => true | _ => false end.

Definition beforeStore (s : flightStage) : bool := match s with FlOpening | FlOpened _ => true | _ => false end.

Record singleOK (p : Pool) : Prop := {
  s_current : co_closed (po_flights p) = false -> forall flight key, co_running (po_flights p) !! flight = Some key ->
    co_calls (po_flights p) !! key = Some flight;
  s_empty : po_closed p = false -> forall flight key st, po_opening p !! flight = Some (key, st) -> beforeStore st = true ->
    po_clients p !! key = None;
  s_lost : po_lost p = [];
}.

Lemma single_ext p p' :
  singleOK p -> po_flights p' = po_flights p -> po_opening p' = po_opening p -> po_clients p' = po_clients p -> po_lost p' = po_lost p ->
  (po_closed p' = false -> po_closed p = false) -> singleOK p'.
Proof.
  intros [S1 S2 S3] E1 E2 E3 E4 E5. split; rewrite ?E1, ?E2, ?E3, ?E4; try done. intros Hc. by apply S2, E5.
Qed.

Lemma single_stage p flight key st st' :
  singleOK p -> po_opening p !! flight = Some (key, st) ->
  (beforeStore st' = true -> po_clients p !! key = None \/ beforeStore st = true) ->
  singleOK (setOpening (<[flight := (key, st')]> (po_opening p)) p).
Proof.
  intros [S1 S2 S3] Hf Hst. split; cbn; try done. intros Hc g k s Hg Hs.
  apply lookup_insert_Some in Hg as [[_ [= <- <-]]|[_ Hg]]; [|by eapply S2].
  destruct (Hst Hs) as [?|Hb]; [done|by eapply S2].
Qed.

(** Two flights of a key are the same. *)
Lemma same_flight p f g key st st' :
  flightsOK p -> singleOK p -> co_closed (po_flights p) = false ->
  po_opening p !! f = Some (key, st) -> po_opening p !! g = Some (key, st') -> f = g.
Proof.
  intros F S Hc Hf Hg. pose proof (f_running p F f) as Rf. pose proof (f_running p F g) as Rg. rewrite Hf in Rf. rewrite Hg in Rg.
  pose proof (s_current p S Hc f key Rf). pose proof (s_current p S Hc g key Rg). congruence.
Qed.

Lemma single_store flight p p' : flightsOK p -> singleOK p -> storeFlight flight p = Some p' -> singleOK p'.
Proof.
  intros F S. unfold storeFlight. destruct (po_opening p !! flight) as [[key st]|] eqn:Hf; [|done]. cbn [mbind option_bind].
  destruct st as [| |c|]; try done. destruct (po_closed p) eqn:Hcl; intros [= <-].
  - eapply (single_ext (setOpening (<[flight := (key, FlReturning (Some c) (Some ErrClosed))]> (po_opening p)) p)); try done.
    by eapply single_stage.
  - assert (Hfc : co_closed (po_flights p) = false) by (destruct (co_closed (po_flights p)) eqn:E; [by apply (f_closed p F) in E; congruence|done]).
    pose proof S as [S1 S2 S3]. assert (Hno : po_clients p !! key = None) by (by eapply S2).
    split; cbn; try done; [|by rewrite Hno, S3].
    intros _ g k s Hg Hs. apply lookup_insert_Some in Hg as [[_ [= <- <-]]|[Hne Hg]]; [done|].
    rewrite lookup_insert_ne; [by eapply S2|]. intros <-. apply Hne. by eapply same_flight.
Qed.

Lemma single_join w p p' : flightsOK p -> singleOK p -> joinFlight w p = Some p' -> singleOK p'.
Proof.
  intros F S. unfold joinFlight. destruct (po_asking p !! w) as [key|]; [|done]. cbn [mbind option_bind].
  destruct (Coalescer.exec None _ (po_flights p)) as [f'|] eqn:Ef; [|done]. cbn [mbind option_bind]. intros [= <-].
  pose proof S as [S1 S2 S3]. apply do_flight in Ef as (Hcl & [(E1 & E2 & E3)|(E1 & E2 & E3 & E4)]).
  - rewrite E1, Nat.eqb_refl. split; cbn; try done. rewrite E2, E3, Hcl. done.
  - rewrite E1. destruct (Nat.eqb_spec (Datatypes.S (co_next (po_flights p))) (co_next (po_flights p))) as [?|_]; [lia|]. split; cbn; try done.
    + rewrite Hcl, E2, E3. intros Hc g k Hg. apply lookup_insert_Some in Hg as [[<- <-]|[Hne Hg]]; [apply lookup_insert_eq|].
      rewrite lookup_insert_ne; [by apply S1|]. intros <-. by rewrite (S1 Hc g key Hg) in E4.
    + intros Hc g k s Hg Hs. apply lookup_insert_Some in Hg as [[_ [= <- <-]]|[_ Hg]]; [done|by eapply S2].
Qed.

Lemma single_finish flight p p' : flightsOK p -> singleOK p -> finishFlight flight p = Some p' -> singleOK p'.
Proof.
  intros F S. unfold finishFlight. destruct (po_opening p !! flight) as [[key st]|] eqn:Hf; [|done]. cbn [mbind option_bind].
  destruct st as [| |c|c err]; try done. destruct (Coalescer.exec None _ (po_flights p)) as [f'|] eqn:Ef; [|done]. cbn [mbind option_bind].
  intros [= <-]. pose proof S as [S1 S2 S3]. apply finish_flight in Ef as (k & Hk & Hcl & _ & E2 & E3). split; cbn; try done.
  - rewrite Hcl, E2, E3. intros Hc g k' Hg. apply lookup_delete_Some in Hg as [Hne Hg]. pose proof (S1 Hc g k' Hg) as Hc'.
    case_decide as Hd; [|done]. rewrite lookup_delete_ne; [done|]. intros <-. congruence.
  - intros Hc g k' s Hg. apply lookup_delete_Some in Hg as [_ Hg]. by eapply S2.
Qed.

Lemma single_exec op p p' : isAbandon op = false -> flightsOK p -> singleOK p -> exec op p = Some p' -> singleOK p'.
Proof.
  intros Ha F S. pose proof S as [S1 S2 S3]. destruct op; cbn [exec]; try done.
  - intros [= <-]. unfold getNode. destruct (bool_decide _); [by eapply single_ext|]. destruct (cachedClient _ p) as [[c|]|e]; by eapply single_ext.
  - by apply single_join.
  - unfold checkFlight. destruct (po_opening p !! flight) as [[key st]|] eqn:Hf; [|done]. cbn [mbind option_bind]. destruct st; try done.
    intros [= <-]. eapply single_stage; try done. unfold cachedClient. destruct (po_closed p); [done|].
    destruct (po_clients p !! key) eqn:Hk; [done|]. by left.
  - unfold openFlight. destruct (po_opening p !! flight) as [[key st]|] eqn:Hf; [|done]. cbn [mbind option_bind]. destruct st; try done.
    destruct err; [intros [= <-]; by eapply single_stage|]. destruct (po_open p !! client); [done|]. intros [= <-].
    eapply (single_ext (setOpening (<[flight := (key, FlOpened client)]> (po_opening p)) p)); try done. eapply single_stage; try done. by right.
  - by apply single_store.
  - by apply single_finish.
  - destruct (Coalescer.exec None _ (po_flights p)) as [f'|] eqn:Ef; [|done]. cbn [mbind option_bind]. intros [= <-].
    apply take_flight in Ef as (E1 & _ & E2 & E3); [|apply F]. split; cbn; try done. by rewrite E1, E2, E3.
  - intros [= <-]. unfold remove. split; cbn; try done. intros Hc g k s Hg Hs. pose proof (S2 Hc g k s Hg Hs) as Hn.
    case_decide; [|done]. by apply lookup_delete_None; right.
  - unfold shutdownDropped. destruct (po_dropping p); [done|]. intros [= <-]. by eapply single_ext.
  - intros [= <-]. unfold closePool. destruct (po_closed p) eqn:Hc; [done|]. by eapply single_ext.
  - unfold closeFlights. destruct (po_closed p) eqn:Hc; [|done]. intros [= <-]. split; cbn; try done; [|by rewrite Hc].
    unfold Coalescer.Close. by destruct (co_closed (po_flights p)) eqn:E; [rewrite E|].
  - unfold shutdownNext. destruct (po_closing p); [done|]. intros [= <-]. by eapply single_ext.
Qed.

Lemma newPool_ok : flightsOK newPool /\ poolOK newPool /\ singleOK newPool.
Proof.
  split; [|split].
  - split; cbn; [apply inv_new|intros g; by rewrite !lookup_empty|done].
  - split; cbn; try done; intros *; by rewrite lookup_empty.
  - split; cbn; try done; intros _ *; by rewrite lookup_empty.
Qed.

Lemma execAll_ok ops p p' :
  flightsOK p -> poolOK p -> execAll ops p = Some p' ->
  poolOK p' /\ (forallb (fun op => negb (isAbandon op)) ops = true -> singleOK p -> singleOK p').
Proof.
  revert p. induction ops as [|op ops IH]; intros p F Q; cbn; [by intros [= <-]|].
  destruct (exec op p) as [p1|] eqn:E; [|done]. cbn [mbind option_bind]. intros Hr.
  destruct (IH p1 (flights_exec op p p1 F E) (pool_exec op p p1 F Q E) Hr) as [Q' S']. split; [done|].
  intros Ha S. apply andb_true_iff in Ha as [Ha1 Ha2]. apply S'; [done|]. eapply single_exec; try done. by apply negb_true_iff.
Qed.

(** C20: Closing the manager closes its connections.  In every interleaving of callers, opening
    goroutines, replacements and [Close], once [Close] has finished, no flight holds an
    opened connection and none that was removed awaits its shutdown, every connection ever made has been shut down, except those whose place in the
    pool another one took; and none is lost in this way if no caller left a flight through its
    context. *)
Theorem pool_close_complete ops p :
  execAll ops newPool = Some p -> po_closed p = true -> po_closing p = [] -> po_dropping p = [] ->
  (forall flight key c, po_opening p !! flight <> Some (key, FlOpened c)) ->
  (forall c, po_open p !! c = Some true -> c ∈ po_lost p) /\
  (forallb (fun op => negb (isAbandon op)) ops = true -> forall c, po_open p !! c <> Some true).
Proof.
  intros Hr Hc H1 H2 H3. destruct newPool_ok as (F & Q & S). destruct (execAll_ok ops _ _ F Q Hr) as [Q' S'].
  assert (A : forall c, po_open p !! c = Some true -> c ∈ po_lost p).
  { intros c Ho. destruct (q_account p Q' c Ho) as [(k & Hk)|[(f & k & Hh)|[Hh|[Hh|Hh]]]].
    - destruct (q_closed p Q' Hc k c Hk) as [Hx|Hx]; [rewrite H1 in Hx; by apply not_elem_of_nil in Hx|done].
    - by apply H3 in Hh.
    - rewrite H2 in Hh. by apply not_elem_of_nil in Hh.
    - rewrite H1 in Hh. by apply not_elem_of_nil in Hh.
    - done. }
  split; [done|]. intros Ha c Ho. pose proof (s_lost p (S' Ha S)) as Hl. specialize (A c Ho). rewrite Hl in A. by apply not_elem_of_nil in A.
Qed.

(** ** Runs *)

Definition serverA : ServerNode := MkServerNode 3 "host:9123" TabletServer.
Definition keyA : connectionKey := MkConnectionKey 3 "host:9123" TabletServer.

(** Two callers share a flight, a third finds its connection, and the manager is closed. *)
Definition sharedRun : list poolOp :=
  [PGet 1 serverA; PJoin 1; PGet 2 serverA; PJoin 2; PCheck 0; POpen 0 10 None; PStore 0; PFinish 0; PTake 1; PTake 2;
   PGet 3 serverA; PClose; PCloseFlights; PShutdownNext].

Definition poolAfter (ops : list poolOp) : Pool := match execAll ops newPool with Some p => p | None => newPool end.

Lemma pool_close_complete_witness :
  execAll sharedRun newPool = Some (poolAfter sharedRun) /\ po_returned (poolAfter sharedRun) = [(3%nat, inl 10%nat)] /\
  po_open (poolAfter sharedRun) !! 10%nat = Some false /\ forall c, po_open (poolAfter sharedRun) !! c <> Some true.
Proof.
  split; [vm_compute; reflexivity|]. split; [vm_compute; reflexivity|]. split; [vm_compute; reflexivity|].
  refine (proj2 (pool_close_complete sharedRun (poolAfter sharedRun) _ _ _ _ _) _).
  - vm_compute. reflexivity.
  - vm_compute. reflexivity.
  - vm_compute. reflexivity.
  - vm_compute. reflexivity.
  - intros flight key c. assert (E : po_opening (poolAfter sharedRun) = ∅) by (vm_compute; reflexivity). rewrite E, lookup_empty. discriminate.
  - vm_compute. reflexivity.
Defined.

(** A connection can be lost.  The only caller of a flight leaves after its connection was made
    but before it was stored; the next caller starts a second flight, which looks into the pool
    before the first one stores.  The second connection then takes the place of the first, which
    nothing closes any more: when [Close] has finished, it is still open. *)
Definition leakRun : list poolOp :=
  [PGet 1 serverA; PJoin 1; PCheck 0; POpen 0 10 None; PAbandon 1 ErrContext;
   PGet 2 serverA; PJoin 2; PCheck 1; PStore 0; PFinish 0; POpen 1 11 None; PStore 1; PFinish 1; PTake 2;
   PClose; PCloseFlights; PShutdownNext].

Theorem pool_leaks_connection :
  exists p, execAll leakRun newPool = Some p /\ po_closed p = true /\ po_closing p = [] /\ po_dropping p = [] /\ po_opening p = ∅ /\
    po_open p !! 10%nat = Some true /\ po_open p !! 11%nat = Some false.
Proof. eexists. split; [vm_compute; reflexivity|]. vm_compute. repeat split. Qed.
