(* ===== verification/SchemaCache.v ===== *)
(** * The schema cache

    Models [schemaCache] of [pkg/fgo/schema_resolver.go]: schemas by table path and schema id,
    bounded, with the least recently used entry evicted.  The code finds that entry by the
    smallest value of a 64-bit clock, ranging over a Go map in an order the language leaves
    open; the order is the parameter [range].  [schema_cache_lru] refines the cache to the
    textbook specification, a list of entries ordered by their last use.

    Every critical section of the code is one operation, so a list of operations is an
    interleaving of its callers; [fetchAndStore] and [resolveSchema] put them together for a
    caller that shares its fetch with no other ([Coalescer] models the sharing). *)

From Stdlib Require Import Sorting.Sorted.
From S2P Require Import Prelude Model.

Definition defaultSchemaCacheEntries : Z := 256.

(** [schemaCacheKey]. *)
Abbreviation schemaCacheKey := (TablePath * Z)%type.

Record schemaCacheEntry := MkEntry { ce_schema : Schema; ce_used : Z }.

(** [schemaCache]; [ca_fetch] is whether it was made with a function, whose results are
    arguments of the operations that call it. *)
Record schemaCache := MkSchemaCache {
  ca_fetch : bool;
  ca_max : Z;
  ca_entries : gmap schemaCacheKey schemaCacheEntry;
  ca_clock : Z;
  ca_closed : bool;
}.

Definition newSchemaCache (maxEntries : Z) (fetch : bool) : schemaCache :=
  MkSchemaCache fetch maxEntries ∅ 0 false.

Section Cache.
Context (range : gmap schemaCacheKey schemaCacheEntry -> list (schemaCacheKey * schemaCacheEntry)).

(** ** Operations *)

Definition setEntries (entries : gmap schemaCacheKey schemaCacheEntry) (clock : Z) (c : schemaCache) : schemaCache :=
  MkSchemaCache (ca_fetch c) (ca_max c) entries clock (ca_closed c).

(** The inner loop of [evictLocked]; [acc] is [oldest] and [oldestUse] once [first] is false. *)
Fixpoint oldestEntry (entries : list (schemaCacheKey * schemaCacheEntry)) (acc : option (schemaCacheKey * Z))
    : option (schemaCacheKey * Z) :=
  match entries with
  | [] => acc
  | (key, entry) :: rest =>
    oldestEntry rest
      (match acc with
       | None => Some (key, ce_used entry)
       | Some (_, oldestUse) => if ce_used entry <? oldestUse then Some (key, ce_used entry) else acc
       end)
  end.

(** [evictLocked].  On an empty map the code deletes the zero key, which is not there. *)
Fixpoint evictLoop (fuel : nat) (max : Z) (entries : gmap schemaCacheKey schemaCacheEntry)
    : outcome (gmap schemaCacheKey schemaCacheEntry) :=
  if max <? Z.of_nat (size entries) then
    match fuel with
    | O => OutOfFuel
    | S fuel =>
      match oldestEntry (range entries) None with
      | None => evictLoop fuel max entries
      | Some (oldest, _) => evictLoop fuel max (delete oldest entries)
      end
    end
  else Ok entries.

Definition evictLocked (c : schemaCache) : outcome schemaCache :=
  entries ← evictLoop (size (ca_entries c)) (ca_max c) (ca_entries c);
  Ok (setEntries entries (ca_clock c) c).

(** [cached]: the new state with [Schema, bool, error]. *)
Definition cached (key : schemaCacheKey) (c : schemaCache) : schemaCache * outcome (option Schema) :=
  if ca_closed c then (c, Err ErrClosed)
  else match ca_entries c !! key with
  | Some entry =>
    let clock := uint64 (ca_clock c + 1) in
    (setEntries (<[key := MkEntry (ce_schema entry) clock]> (ca_entries c)) clock c, Ok (Some (ce_schema entry)))
  | None =>
    (c, if ca_fetch c then Ok None else Err ErrInvalidConfig)
  end.

Definition insertEntryLocked (key : schemaCacheKey) (schema : Schema) (c : schemaCache) : outcome schemaCache :=
  let clock := uint64 (ca_clock c + 1) in
  evictLocked (setEntries (<[key := MkEntry schema clock]> (ca_entries c)) clock c).

(** The second critical section of [fetchAndStore]. *)
Definition commitFetched (key : schemaCacheKey) (schema : Schema) (c : schemaCache)
    : outcome (schemaCache * outcome Schema) :=
  if ca_closed c then Ok (c, Err ErrClosed)
  else c' ← insertEntryLocked key schema c; Ok (c', Ok schema).

(** [fetchAndStore], for a fetch that gives [fetched]. *)
Definition fetchAndStore (fetched : outcome Schema) (key : schemaCacheKey) (c : schemaCache) : outcome (schemaCache * outcome Schema) :=
  match cached key c with
  | (c, Ok (Some schema)) => Ok (c, Ok schema)
  | (c, Err e) => Ok (c, Err e)
  | (c, Panic) | (c, OutOfFuel) => Panic
  | (c, Ok None) =>
    match schema ← fetched; _ ← Schema_Validate schema; Ok schema with
    | Ok schema => commitFetched key schema c
    | Err e => Ok (c, Err e)
    | Panic => Panic
    | OutOfFuel => OutOfFuel
    end
  end.

Definition resolveSchema (fetched : outcome Schema) (ctx : bool) (path : TablePath) (schemaID : Z) (c : schemaCache)
    : outcome (schemaCache * outcome Schema) :=
  if negb ctx then Ok (c, Err ErrInvalidConfig)
  else match TablePath_Validate path with
  | Err e => Ok (c, Err e)
  | Panic | OutOfFuel => Panic
  | Ok _ =>
    if schemaID <? 0 then Ok (c, Err ErrInvalidSchema)
    else match cached (path, schemaID) c with
    | (c, Ok (Some schema)) => Ok (c, Ok schema)
    | (c, Err e) => Ok (c, Err e)
    | (c, Panic) | (c, OutOfFuel) => Panic
    | (c, Ok None) => fetchAndStore fetched (path, schemaID) c
    end
  end.

Definition isErr {A} (m : outcome A) : bool := match m with Err _ => true | _ => false end.

Definition store (path : TablePath) (schemaID : Z) (schema : Schema) (c : schemaCache) : outcome schemaCache :=
  if (schemaID <? 0) || isErr (TablePath_Validate path) || isErr (Schema_Validate schema) then Ok c
  else if ca_closed c then Ok c
  else insertEntryLocked (path, schemaID) schema c.

Definition closeCache (c : schemaCache) : schemaCache :=
  MkSchemaCache (ca_fetch c) (ca_max c) (ca_entries c) (ca_clock c) true.

(** ** Interleavings *)

Inductive cacheOp :=
| CacheGet (key : schemaCacheKey)
| CacheCommit (key : schemaCacheKey) (schema : Schema)
| CacheStore (path : TablePath) (schemaID : Z) (schema : Schema)
| CacheClose.

Definition found (answer : outcome Schema) : outcome (option Schema) := schema ← answer; Ok (Some schema).

Definition cacheStep (op : cacheOp) (c : schemaCache) : outcome (schemaCache * outcome (option Schema)) :=
  match op with
  | CacheGet key => Ok (cached key c)
  | CacheCommit key schema =>
    result ← commitFetched key schema c; Ok (result.1, found result.2)
  | CacheStore path schemaID schema => c' ← store path schemaID schema c; Ok (c', Ok None)
  | CacheClose => Ok (closeCache c, Ok None)
  end.

Fixpoint runCache (ops : list cacheOp) (c : schemaCache) : outcome (schemaCache * list (outcome (option Schema))) :=
  match ops with
  | [] => Ok (c, [])
  | op :: ops =>
    '(c1, answer) ← cacheStep op c;
    '(c2, answers) ← runCache ops c1;
    Ok (c2, answer :: answers)
  end.

(** ** Specification: entries in the order of their last use *)

Record lru := MkLru { lru_items : list (schemaCacheKey * Schema); lru_closed : bool }.

Definition lruTouch (key : schemaCacheKey) (schema : Schema) (l : list (schemaCacheKey * Schema)) :=
  (key, schema) :: filter (fun e => e.1 <> key) l.

Definition lruFind (key : schemaCacheKey) (l : list (schemaCacheKey * Schema)) : option Schema :=
  snd <$> (list_find (fun e => e.1 = key) l ≫= fun p => Some p.2).

Definition lruPut (max : Z) (key : schemaCacheKey) (schema : Schema) (a : lru) : lru :=
  MkLru (take (Z.to_nat max) (lruTouch key schema (lru_items a))) (lru_closed a).

Definition lruStep (hasFetch : bool) (max : Z) (op : cacheOp) (a : lru) : lru * outcome (option Schema) :=
  match op with
  | CacheGet key =>
    if lru_closed a then (a, Err ErrClosed)
    else match lruFind key (lru_items a) with
    | Some schema => (MkLru (lruTouch key schema (lru_items a)) (lru_closed a), Ok (Some schema))
    | None => (a, if hasFetch then Ok None else Err ErrInvalidConfig)
    end
  | CacheCommit key schema =>
    if lru_closed a then (a, Err ErrClosed) else (lruPut max key schema a, Ok (Some schema))
  | CacheStore path schemaID schema =>
    (if (schemaID <? 0) || isErr (TablePath_Validate path) || isErr (Schema_Validate schema) || lru_closed a
     then a else lruPut max (path, schemaID) schema a, Ok None)
  | CacheClose => (MkLru (lru_items a) true, Ok None)
  end.

Fixpoint lruRun (hasFetch : bool) (max : Z) (ops : list cacheOp) (a : lru) : lru * list (outcome (option Schema)) :=
  match ops with
  | [] => (a, [])
  | op :: ops =>
    let '(a1, answer) := lruStep hasFetch max op a in
    let '(a2, answers) := lruRun hasFetch max ops a1 in
    (a2, answer :: answers)
  end.

(** ** Refinement *)

Context (range_perm : forall entries, range entries ≡ₚ map_to_list entries).

Abbreviation entries := (list (schemaCacheKey * schemaCacheEntry)).

(** Entries in the order of their last use, with the clock values that say so. *)
Definition newer (a b : schemaCacheKey * schemaCacheEntry) : Prop := ce_used b.2 < ce_used a.2.

Definition stamped (l : entries) (clock : Z) : Prop :=
  NoDup l.*1 /\ StronglySorted newer l /\ Forall (fun e => 0 < ce_used e.2 <= clock) l.

Definition forget (l : entries) : list (schemaCacheKey * Schema) := (fun e => (e.1, ce_schema e.2)) <$> l.

Record refines (c : schemaCache) (a : lru) : Prop := MkRefines {
  rf_list : exists l, ca_entries c = list_to_map l /\ lru_items a = forget l /\ stamped l (ca_clock c) /\
    Z.of_nat (length l) <= ca_max c;
  rf_closed : ca_closed c = lru_closed a;
  rf_clock : 0 <= ca_clock c;
}.

Lemma forget_keys l : (forget l).*1 = l.*1.
Proof. unfold forget. rewrite <- list_fmap_compose. by apply list_fmap_ext. Qed.

Lemma oldestEntry_min (order : entries) acc key u :
  (acc = Some (key, u) \/ exists e, (key, e) ∈ order /\ ce_used e = u) ->
  (forall k e, (k, e) ∈ order -> (k = key /\ ce_used e = u) \/ u < ce_used e) ->
  (forall k v, acc = Some (k, v) -> (k = key /\ v = u) \/ u < v) ->
  oldestEntry order acc = Some (key, u).
Proof.
  revert acc. induction order as [|[k e] order IH]; intros acc Hin Hmin Hacc; cbn.
  - destruct Hin as [?|(e & E & _)]; [done|by apply not_elem_of_nil in E].
  - pose proof (Hmin k e (list_elem_of_here _ _)) as Hk.
    apply IH; [|intros k' e' E; apply Hmin; by right|].
    + destruct Hin as [->|(e' & E & Hu)].
      * left. destruct (Z.ltb_spec (ce_used e) u); [|done].
        destruct Hk as [[-> ?]|?]; lia.
      * apply elem_of_cons in E as [E|E]; [|right; eauto]. injection E as E1 E2. subst k e'. left.
        destruct acc as [[k0 v]|]; [|by rewrite Hu]. destruct (Hacc k0 v eq_refl) as [[-> ->]|L].
        -- destruct (Z.ltb_spec (ce_used e) u); [lia|done].
        -- destruct (Z.ltb_spec (ce_used e) v); [by rewrite Hu|lia].
    + intros k' v E. destruct acc as [[k0 v0]|].
      * specialize (Hacc k0 v0 eq_refl). destruct (ce_used e <? v0); simplify_eq; auto.
      * simplify_eq. auto.
Qed.

Lemma stamped_snoc (l : entries) x : StronglySorted newer (l ++ [x]) -> Forall (fun e => newer e x) l.
Proof.
  induction l as [|y l IH]; cbn; [by constructor|]. intros S. apply StronglySorted_inv in S as [S F].
  constructor; [|by apply IH]. apply Forall_app in F as [_ F]. by inversion F.
Qed.

Lemma oldest_last (l : entries) key e :
  NoDup (l ++ [(key, e)]).*1 -> StronglySorted newer (l ++ [(key, e)]) ->
  oldestEntry (range (list_to_map (l ++ [(key, e)]))) None = Some (key, ce_used e).
Proof.
  intros N S.
  assert (P : forall x, x ∈ range (list_to_map (l ++ [(key, e)])) <-> x ∈ l ++ [(key, e)]).
  { intros x. rewrite (range_perm _). rewrite map_to_list_to_map by done. done. }
  pose proof (stamped_snoc l (key, e) S) as F. apply oldestEntry_min; [|intros k e' E|done].
  - right. exists e. split; [|done]. apply P. set_solver.
  - apply P, elem_of_app in E as [E|E].
    + right. rewrite Forall_forall in F. apply (F _ E).
    + left. by apply list_elem_of_singleton in E as [= -> ->].
Qed.

Lemma evictLoop_take fuel max (l : entries) :
  0 <= max -> NoDup l.*1 -> StronglySorted newer l -> (length l <= fuel + Z.to_nat max)%nat ->
  evictLoop fuel max (list_to_map l) = Ok (list_to_map (take (Z.to_nat max) l)).
Proof.
  intros Hm. revert l. induction fuel as [|fuel IH]; intros l N S L.
  - cbn [evictLoop]. rewrite map_size_list_to_map by done.
    destruct (Z.ltb_spec max (Z.of_nat (length l))); [lia|]. by rewrite take_ge by lia.
  - cbn [evictLoop]. rewrite map_size_list_to_map by done.
    destruct (Z.ltb_spec max (Z.of_nat (length l))); [|by rewrite take_ge by lia].
    destruct l as [|[key e] l _] using rev_ind; [cbn in *; lia|].
    rewrite oldest_last by done. rewrite fmap_app in N. apply NoDup_app in N as (N1 & N2 & _).
    assert (Hkey : key ∉ l.*1) by (intros E; apply (N2 key E); cbn; set_solver).
    rewrite list_to_map_snoc, delete_insert_id by (done || by apply not_elem_of_list_to_map_1).
    rewrite length_app in *. cbn in *. rewrite IH; [|done| |lia].
    + by rewrite take_app_le by lia.
    + clear -S. induction l as [|y l IHl]; [constructor|]. apply StronglySorted_inv in S as [S F].
      constructor; [by apply IHl|]. by apply Forall_app in F as [F _].
Qed.

(** *** Using an entry *)

Definition touch (key : schemaCacheKey) (e : schemaCacheEntry) (l : entries) : entries :=
  (key, e) :: filter (fun e => e.1 <> key) l.

Lemma touch_map key e (l : entries) :
  list_to_map (touch key e l) = (<[key := e]> (list_to_map l) : gmap schemaCacheKey schemaCacheEntry).
Proof.
  unfold touch. rewrite list_to_map_cons, <- (insert_delete_eq (list_to_map l)). f_equal.
  induction l as [|[k e'] l IH]; [symmetry; apply delete_empty|].
  rewrite filter_cons, list_to_map_cons. case_decide as N; cbn in N.
  - by rewrite list_to_map_cons, IH, delete_insert_ne by done.
  - subst k. by rewrite delete_insert_eq.
Qed.

Lemma touch_forget key e (l : entries) : forget (touch key e l) = lruTouch key (ce_schema e) (forget l).
Proof.
  unfold touch, lruTouch, forget. rewrite fmap_cons. cbn [fst snd]. f_equal.
  induction l as [|[k e'] l IH]; [done|]. rewrite fmap_cons, !filter_cons. cbn [fst snd].
  case_decide as N; [|exact IH]. by rewrite fmap_cons, IH.
Qed.

Lemma filter_sorted (key : schemaCacheKey) (l : entries) :
  StronglySorted newer l -> StronglySorted newer (filter (fun e => e.1 <> key) l).
Proof.
  induction 1 as [|x l S IH F]; [by constructor|]. rewrite filter_cons.
  case_decide; [|done]. constructor; [done|]. rewrite Forall_forall in F |- *.
  intros y [_ Hy]%list_elem_of_filter. by apply F.
Qed.

Lemma touch_stamped key e (l : entries) clock :
  0 <= clock -> stamped l clock -> ce_used e = clock + 1 -> stamped (touch key e l) (clock + 1).
Proof.
  intros Hc (N & S & B) E. split; [|split].
  - unfold touch. rewrite fmap_cons. constructor.
    + rewrite list_elem_of_fmap. intros (x & Ex & [Hx _]%list_elem_of_filter). by apply Hx.
    + eapply sublist_NoDup; [exact N|]. apply fmap_sublist, sublist_filter.
  - constructor; [by apply filter_sorted|]. rewrite Forall_forall in B |- *.
    intros x [_ Hx]%list_elem_of_filter. unfold newer. cbn. specialize (B x Hx). cbn in B. lia.
  - constructor; [cbn; lia|]. rewrite Forall_forall in B |- *.
    intros x [_ Hx]%list_elem_of_filter. specialize (B x Hx). cbn in B. lia.
Qed.

Lemma take_stamped n (l : entries) clock : stamped l clock -> stamped (take n l) clock.
Proof.
  intros (N & S & B). split; [|split; [|by apply Forall_take]].
  - rewrite fmap_take. eapply sublist_NoDup; [exact N|apply sublist_take].
  - revert n. induction S as [|x l S IH F]; intros [|n]; cbn; try by constructor.
    inversion B. constructor; [by apply IH; [inversion N|]|by apply Forall_take].
Qed.

Lemma insertEntry_refines c a key schema :
  refines c a -> 0 <= ca_max c -> ca_clock c + 1 < 2 ^ 64 ->
  exists c', insertEntryLocked key schema c = Ok c' /\ refines c' (lruPut (ca_max c) key schema a) /\
    ca_max c' = ca_max c /\ ca_fetch c' = ca_fetch c /\ ca_clock c' = ca_clock c + 1.
Proof.
  intros [(l & El & Ea & S & L) Hcl Hck] Hm Hw.
  unfold insertEntryLocked, evictLocked. cbn.
  assert (Eu : uint64 (ca_clock c + 1) = ca_clock c + 1) by (apply uwrap_small; unfold urange; lia). rewrite Eu.
  set (e := MkEntry schema (ca_clock c + 1)).
  pose proof (touch_stamped key e l (ca_clock c) Hck S eq_refl) as S'.
  rewrite El, <- (touch_map key e l), evictLoop_take; [|done|apply S'|apply S'|].
  2: { rewrite map_size_list_to_map by apply S'. lia. }
  cbn. eexists. split; [reflexivity|]. split; [|done]. split; cbn; [|done|lia].
  exists (take (Z.to_nat (ca_max c)) (touch key e l)). split; [done|]. split; [|split].
  - unfold forget. rewrite fmap_take. fold (forget (touch key e l)). by rewrite touch_forget, Ea.
  - by apply take_stamped.
  - rewrite length_take. lia.
Qed.

Lemma lookup_forget (l : entries) key :
  ce_schema <$> (list_to_map l : gmap schemaCacheKey schemaCacheEntry) !! key = lruFind key (forget l).
Proof.
  unfold lruFind, forget. induction l as [|[k e] l IH]; cbn; [done|].
  destruct (decide (k = key)) as [->|N].
  - by rewrite lookup_insert_eq.
  - rewrite lookup_insert_ne, IH by done. by destruct (list_find _ _) as [[? ?]|].
Qed.

Lemma cached_refines c a key :
  refines c a -> ca_clock c + 1 < 2 ^ 64 ->
  exists c', cached key c = (c', (lruStep (ca_fetch c) (ca_max c) (CacheGet key) a).2) /\
    refines c' (lruStep (ca_fetch c) (ca_max c) (CacheGet key) a).1 /\
    ca_max c' = ca_max c /\ ca_fetch c' = ca_fetch c /\ ca_clock c <= ca_clock c' <= ca_clock c + 1.
Proof.
  intros R Hw. pose proof R as [(l & El & Ea & S & L) Hcl Hck]. unfold cached. cbn. rewrite <- Hcl.
  destruct (ca_closed c) eqn:Ec; [exists c; auto with lia|].
  pose proof (lookup_forget l key) as F. rewrite El, Ea.
  destruct (list_to_map l !! key) as [e|] eqn:Ek; cbn in F; rewrite <- F; [|exists c; auto with lia].
  assert (Eu : uint64 (ca_clock c + 1) = ca_clock c + 1) by (apply uwrap_small; unfold urange; lia). rewrite Eu.
  eexists. split; [reflexivity|]. split; [|cbn; auto with lia].
  set (e' := MkEntry (ce_schema e) (ca_clock c + 1)). split; cbn; [|congruence|lia].
  exists (touch key e' l). split; [by rewrite touch_map|]. split; [by rewrite touch_forget|].
  split; [by apply touch_stamped|].
  assert (In : (key, e) ∈ l) by (by apply elem_of_list_to_map_2).
  enough (length (filter (fun x : schemaCacheKey * schemaCacheEntry => x.1 <> key) l) < length l)%nat by (cbn; lia).
  clear -In. induction l as [|x l IH]; [by apply not_elem_of_nil in In|]. rewrite filter_cons.
  apply elem_of_cons in In as [<-|In]; [rewrite decide_False by (cbn; tauto)|].
  - pose proof (length_filter (fun x : schemaCacheKey * schemaCacheEntry => x.1 <> key) l). cbn. lia.
  - case_decide; cbn; specialize (IH In); lia.
Qed.

Lemma cacheStep_refines op c a :
  refines c a -> 0 <= ca_max c -> ca_clock c + 1 < 2 ^ 64 ->
  exists c', cacheStep op c = Ok (c', (lruStep (ca_fetch c) (ca_max c) op a).2) /\
    refines c' (lruStep (ca_fetch c) (ca_max c) op a).1 /\
    ca_max c' = ca_max c /\ ca_fetch c' = ca_fetch c /\ ca_clock c' <= ca_clock c + 1.
Proof.
  intros R Hm Hw. destruct op as [key|key schema|path schemaID schema|].
  - destruct (cached_refines c a key R Hw) as (c' & E & R' & ? & ? & ?). exists c'.
    cbn [cacheStep]. rewrite E. auto with lia.
  - cbn. unfold commitFetched. rewrite <- (rf_closed c a R).
    destruct (ca_closed c); [exists c; auto with lia|].
    destruct (insertEntry_refines c a key schema R Hm Hw) as (c' & E & R' & ? & ? & ?).
    rewrite E. exists c'. auto with lia.
  - cbn. unfold store. rewrite <- (rf_closed c a R).
    destruct (_ || _ || _) eqn:Eg; [exists c; auto with lia|].
    destruct (ca_closed c); [exists c; auto with lia|].
    destruct (insertEntry_refines c a (path, schemaID) schema R Hm Hw) as (c' & E & R' & ? & ? & ?).
    rewrite E. exists c'. auto with lia.
  - exists (closeCache c). destruct R as [L _ Hck]. split; [done|]. split; [|cbn; auto with lia].
    by split.
Qed.

Lemma runCache_run ops c a :
  refines c a -> 0 <= ca_max c -> ca_clock c + glen ops < 2 ^ 64 ->
  exists c', runCache ops c = Ok (c', (lruRun (ca_fetch c) (ca_max c) ops a).2) /\
    refines c' (lruRun (ca_fetch c) (ca_max c) ops a).1 /\ ca_max c' = ca_max c /\
    ca_clock c' <= ca_clock c + glen ops.
Proof.
  revert c a. induction ops as [|op ops IH]; intros c a R Hm Hw; cbn.
  { exists c. rewrite glen_nil. auto with lia. }
  rewrite glen_cons in Hw. pose proof (glen_nonneg ops).
  destruct (cacheStep_refines op c a R Hm ltac:(lia)) as (c1 & E & R1 & Em & Ef & Ec). rewrite E. cbn.
  destruct (lruStep (ca_fetch c) (ca_max c) op a) as [a1 answer]. cbn in *.
  destruct (IH c1 a1 R1 ltac:(lia) ltac:(lia)) as (c2 & E2 & R2 & Em2 & Ek2). rewrite Ef, Em in E2, R2.
  rewrite E2. cbn. destruct (lruRun (ca_fetch c) (ca_max c) ops a1) as [a2 answers]. cbn in *.
  exists c2. split; [done|]. split; [done|]. split; [congruence|]. rewrite glen_cons. lia.
Qed.

Lemma refines_new max fetch : 0 <= max -> refines (newSchemaCache max fetch) (MkLru [] false).
Proof.
  intros Hm. split; cbn; [|done|done]. exists []. split; [done|]. split; [done|]. split; [|cbn; lia].
  split; [constructor|split; constructor].
Qed.

(** C14: The schema cache implements least-recently-used eviction.  For every interleaving of
    fewer than 2^64 lookups, insertions and closes, and whatever order Go gives the map, every
    answer is that of a list of entries in the order of their last use cut to the configured
    maximum, and so are the schemas that stay: the cache never exceeds its bound and never
    evicts an entry used later than one it keeps. *)
Theorem schema_cache_lru (ops : list cacheOp) (max : Z) (fetch : bool) :
  0 <= max -> glen ops < 2 ^ 64 ->
  exists c, runCache ops (newSchemaCache max fetch) =
      Ok (c, (lruRun fetch max ops (MkLru [] false)).2) /\
    Z.of_nat (size (ca_entries c)) <= max /\
    forall key, ce_schema <$> ca_entries c !! key =
      lruFind key (lru_items (lruRun fetch max ops (MkLru [] false)).1).
Proof.
  intros Hm Hn.
  destruct (runCache_run ops _ _ (refines_new max fetch Hm) Hm) as (c & E & R & Em & _); [done|].
  cbn in E, R, Em. exists c. split; [done|]. destruct R as [(l & El & Ea & S & L) _ _].
  rewrite El, Ea. split; [|apply lookup_forget].
  rewrite map_size_list_to_map by apply S. lia.
Qed.

(** *** Resolving *)

Lemma refines_lookup c a key : refines c a -> ce_schema <$> ca_entries c !! key = lruFind key (lru_items a).
Proof. intros [(l & -> & -> & _) _ _]. apply lookup_forget. Qed.

Definition holds (key : schemaCacheKey) (schema : Schema) (c : schemaCache) : Prop :=
  ca_closed c = false /\ ce_schema <$> ca_entries c !! key = Some schema.

Lemma cached_hit key schema c : holds key schema c ->
  exists c', cached key c = (c', Ok (Some schema)) /\ holds key schema c'.
Proof.
  intros [Hc He]. unfold cached. rewrite Hc. destruct (ca_entries c !! key) as [e|]; [|done].
  cbn in He. injection He as <-. eexists. split; [reflexivity|]. split; [done|]. cbn. by rewrite lookup_insert_eq.
Qed.

Lemma cached_Some key schema c c' : cached key c = (c', Ok (Some schema)) -> holds key schema c.
Proof.
  unfold cached. destruct (ca_closed c) eqn:Ec; [done|]. destruct (ca_entries c !! key) as [e|] eqn:Ek.
  - intros [= <- <-]. split; [done|]. by rewrite Ek.
  - by destruct (ca_fetch c).
Qed.

Lemma cached_None key c c' : cached key c = (c', Ok None) -> c' = c.
Proof. unfold cached. by repeat case_match; intros [= <-]. Qed.

Lemma commit_holds key schema schema' c a c' :
  refines c a -> 1 <= ca_max c -> ca_clock c + 1 < 2 ^ 64 ->
  commitFetched key schema c = Ok (c', Ok schema') -> holds key schema' c'.
Proof.
  intros R Hm Hw. unfold commitFetched. destruct (ca_closed c) eqn:Ec; [done|].
  destruct (insertEntry_refines c a key schema R ltac:(lia) Hw) as (c1 & -> & R1 & _). cbn.
  intros [= <- <-]. split.
  - rewrite (rf_closed _ _ R1). cbn. by rewrite <- (rf_closed _ _ R).
  - rewrite (refines_lookup _ _ key R1). cbn. destruct (Z.to_nat (ca_max c)) as [|n] eqn:E; [lia|].
    unfold lruFind. cbn. by rewrite decide_True by done.
Qed.

Lemma resolve_holds fetched path schemaID c a c' schema :
  refines c a -> 1 <= ca_max c -> ca_clock c + 1 < 2 ^ 64 ->
  resolveSchema fetched true path schemaID c = Ok (c', Ok schema) ->
  TablePath_Validate path = Ok tt /\ 0 <= schemaID /\ holds (path, schemaID) schema c'.
Proof.
  intros R Hm Hw. unfold resolveSchema. cbn. destruct (TablePath_Validate path) as [[]| | |]; try done.
  destruct (Z.ltb_spec schemaID 0); [done|]. intros E. split; [done|]. split; [done|].
  assert (Hit : forall c1 s, cached (path, schemaID) c = (c1, Ok (Some s)) -> holds (path, schemaID) s c1).
  { intros c1 s Es. destruct (cached_hit _ _ _ (cached_Some _ _ _ _ Es)) as (c2 & E2 & H2).
    rewrite E2 in Es. by simplify_eq. }
  destruct (cached (path, schemaID) c) as [c1 [[s|]|e| |]] eqn:Ec; simplify_eq; [by apply Hit|].
  apply cached_None in Ec as E1. subst c1. unfold fetchAndStore in E. rewrite Ec in E.
  destruct (schema ← fetched; _ ← Schema_Validate schema; Ok schema) as [s|e| |]; simplify_eq.
  by eapply commit_holds.
Qed.

(** A resolved schema is resolved from the cache from then on: after [resolveSchema] gave a
    schema, resolving the same id again gives the same schema whatever a fetch would now
    answer. *)
Theorem schema_resolve_cached ops max fetch c answers path schemaID fetched c' schema :
  1 <= max -> glen ops + 1 < 2 ^ 64 ->
  runCache ops (newSchemaCache max fetch) = Ok (c, answers) ->
  resolveSchema fetched true path schemaID c = Ok (c', Ok schema) ->
  forall fetched', exists c2, resolveSchema fetched' true path schemaID c' = Ok (c2, Ok schema).
Proof.
  intros Hm Hn Hr E fetched'.
  destruct (runCache_run ops _ _ (refines_new max fetch ltac:(lia)) ltac:(cbn; lia) ltac:(cbn; lia)) as (c0 & E0 & R & Em & Ek).
  rewrite Hr in E0. injection E0 as <- _. cbn in Em, Ek.
  destruct (resolve_holds fetched path schemaID c _ c' schema R ltac:(lia) ltac:(lia) E) as (Vp & Vi & Hh).
  destruct (cached_hit _ _ _ Hh) as (c2 & E2 & _). exists c2. unfold resolveSchema. cbn. rewrite Vp.
  destruct (Z.ltb_spec schemaID 0); [lia|]. by rewrite E2.
Qed.

End Cache.

(** ** A run of a cache of two schemas *)

Definition cacheSchema (name : string) : Schema :=
  MkSchema [MkColumn name IntType false None "" 0] [] [] [] [] 0.

Definition cachePath (name : string) : TablePath := MkTablePath "db" name.

Definition cacheOps : list cacheOp :=
  [CacheCommit (cachePath "a", 1) (cacheSchema "a"); CacheCommit (cachePath "b", 1) (cacheSchema "b");
   CacheGet (cachePath "a", 1); CacheStore (cachePath "c") 1 (cacheSchema "c");
   CacheGet (cachePath "b", 1)].

Lemma schema_cache_lru_witness :
  exists c, runCache map_to_list cacheOps (newSchemaCache 2 true) =
      Ok (c, [Ok (Some (cacheSchema "a")); Ok (Some (cacheSchema "b")); Ok (Some (cacheSchema "a"));
              Ok None; Ok None]) /\
    ce_schema <$> ca_entries c !! (cachePath "a", 1) = Some (cacheSchema "a").
Proof.
  destruct (schema_cache_lru map_to_list (fun entries => Permutation_refl _) cacheOps 2 true) as (c & E & _ & F);
    [lia|vm_compute; reflexivity|].
  exists c. split; [rewrite E; vm_compute; reflexivity|]. rewrite F. vm_compute. reflexivity.
Defined.

Lemma schema_resolve_cached_witness :
  exists c, resolveSchema map_to_list (Ok (cacheSchema "d")) true (cachePath "d") 4 (newSchemaCache 2 true) =
      Ok (c, Ok (cacheSchema "d")) /\
    exists c2, resolveSchema map_to_list (Err ErrMetadata) true (cachePath "d") 4 c = Ok (c2, Ok (cacheSchema "d")).
Proof.
  eexists. split; [vm_compute; reflexivity|].
  eapply (schema_resolve_cached map_to_list (fun entries => Permutation_refl _) [] 2 true _ _ (cachePath "d") 4
    (Ok (cacheSchema "d"))); [lia|vm_compute; reflexivity|reflexivity|vm_compute; reflexivity].
Defined.
