(* ===== verification/SchemaEvolution.v ===== *)
(** * Schema evolution

    Models [evolveRow], [schemaColumnMapping] and [compatibleColumnType] of
    [pkg/fgo/schema_resolver.go]: a row decoded with the schema it was written with is
    rearranged for the schema the reader asked for.  Columns are matched by field id when both
    schemas carry ids and by name otherwise.

    [reflect.DeepEqual] on logical types is structural equality; a nil and an empty slice of
    fields, which it tells apart, are the same list here. *)

From S2P Require Import Prelude Model DecodeSafety EncodeSafety SchemaJSON.

(** ** [reflect.DeepEqual] on logical types *)

Definition sameOption {A} (same : A -> A -> bool) (a b : option A) : bool :=
  match a, b with
  | Some x, Some y => same x y
  | None, None => true
  | _, _ => false
  end.

Definition sameFields (same : LogicalType -> LogicalType -> bool)
    : list LogicalField -> list LogicalField -> bool :=
  fix go a b :=
    match a, b with
    | [], [] => true
    | MkLogicalField name ty desc id :: a, MkLogicalField name' ty' desc' id' :: b =>
      bool_decide (name = name') && same ty ty' && bool_decide (desc = desc') && (id =? id') && go a b
    | _, _ => false
    end.

Fixpoint sameType (a b : LogicalType) {struct a} : bool :=
  let 'MkLogicalType root nullable len prec scale element key value fields := a in
  let 'MkLogicalType root' nullable' len' prec' scale' element' key' value' fields' := b in
  bool_decide (root = root') && Bool.eqb nullable nullable' && (len =? len') && (prec =? prec')
  && (scale =? scale') && sameOption sameType element element' && sameOption sameType key key'
  && sameOption sameType value value' && sameFields sameType fields fields'.

(** [compatibleColumnType]. *)
Definition clearNullable (t : LogicalType) : LogicalType :=
  let 'MkLogicalType root _ len prec scale element key value fields := t in
  MkLogicalType root false len prec scale element key value fields.

Definition compatibleColumnType (source target : Column) : bool :=
  sameType (clearNullable (logicalTypeForColumn source)) (clearNullable (logicalTypeForColumn target)).

(** ** Matching columns *)

(** [sourceByID] and [sourceByName]: a later column with the same key wins. *)
Fixpoint indexColumns {K} `{Countable K} (key : Column -> K) (columns : list Column) (i : Z) (m : gmap K Z) : gmap K Z :=
  match columns with
  | [] => m
  | c :: columns => indexColumns key columns (i + 1) (<[key c := i]> m)
  end.

Section Mapping.
Context (source : Schema) (find : Column -> option Z).

(** The loop of [schemaColumnMapping]; [find] is the lookup the schemas call for. *)
Fixpoint mappingLoop (columns : list Column) : outcome (list Z) :=
  match columns with
  | [] => Ok []
  | target :: columns =>
    match find target with
    | None =>
      _ ← check (col_Nullable target) ErrInvalidSchema;
      rest ← mappingLoop columns; Ok (-1 :: rest)
    | Some sourceIndex =>
      column ← index (sch_Columns source) sourceIndex;
      _ ← check (compatibleColumnType column target) ErrInvalidSchema;
      rest ← mappingLoop columns; Ok (sourceIndex :: rest)
    end
  end.
End Mapping.

Definition stableIDs (source target : Schema) : bool :=
  negb (hasUnassignedFieldIDs source) && negb (hasUnassignedFieldIDs target).

Definition findColumn (source target : Schema) (column : Column) : option Z :=
  if stableIDs source target then indexColumns col_ID (sch_Columns source) 0 ∅ !! col_ID column
  else indexColumns col_Name (sch_Columns source) 0 ∅ !! col_Name column.

Definition schemaColumnMapping (source target : Schema) : outcome (list Z) :=
  mappingLoop source (findColumn source target) (sch_Columns target).

(** ** [evolveRow] *)

Fixpoint evolveLoop (row : Row) (columns : list Column) (mapping : list Z) : outcome Row :=
  match columns with
  | [] => Ok []
  | target :: columns =>
    match mapping with
    | [] => Panic
    | sourceIndex :: mapping =>
      if sourceIndex <? 0 then rest ← evolveLoop row columns mapping; Ok (VNil :: rest)
      else
        v ← index row sourceIndex;
        _ ← check (negb (isNil v && negb (col_Nullable target))) ErrInvalidSchema;
        rest ← evolveLoop row columns mapping; Ok (v :: rest)
    end
  end.

Definition evolveRow (source target : Schema) (row : Row) : outcome Row :=
  _ ← check (glen row =? glen (sch_Columns source)) ErrMalformedRow;
  mapping ← schemaColumnMapping source target;
  evolveLoop row (sch_Columns target) mapping.

(** ** Equality and matching *)

Lemma sameOption_eq {A} (same : A -> A -> bool) a b :
  (forall x, a = Some x -> forall y, same x y = true -> x = y) -> sameOption same a b = true -> a = b.
Proof. destruct a, b; cbn; intros F E; try done. by rewrite (F a eq_refl a0 E). Qed.

Lemma sameOption_refl {A} (same : A -> A -> bool) a :
  (forall x, a = Some x -> same x x = true) -> sameOption same a a = true.
Proof. destruct a; cbn; auto. Qed.

Lemma sameFields_eq same a : forall b,
  Forall (fun f => forall t, same (lf_Type f) t = true -> lf_Type f = t) a ->
  sameFields same a b = true -> a = b.
Proof.
  induction a as [|[n t d i] a IH]; intros [|[n' t' d' i'] b] F E; cbn in E; try done.
  apply Forall_cons in F as [Ft F]. rewrite !andb_true_iff in E.
  destruct E as ((((E1 & E2) & E3) & E4) & E5). apply bool_decide_eq_true in E1, E3.
  apply Z.eqb_eq in E4. cbn in Ft. rewrite (Ft t' E2), (IH b F E5). by subst.
Qed.

Lemma sameFields_refl same a : Forall (fun f => same (lf_Type f) (lf_Type f) = true) a -> sameFields same a a = true.
Proof.
  induction 1 as [|[n t d i] a Ht _ IH]; [done|]. cbn in *.
  rewrite Ht, Z.eqb_refl, !bool_decide_true by done. exact IH.
Qed.

Lemma sameType_eq a : forall b, sameType a b = true -> a = b.
Proof.
  induction a as [root nul len prec scale element key value fields He Hk Hv Hf] using LogicalType_nested_ind.
  intros [root' nul' len' prec' scale' element' key' value' fields'] E. cbn [sameType] in E.
  rewrite !andb_true_iff in E. destruct E as ((((((((E1 & E2) & E3) & E4) & E5) & E6) & E7) & E8) & E9).
  apply bool_decide_eq_true in E1. apply eqb_prop in E2. apply Z.eqb_eq in E3, E4, E5.
  apply (sameOption_eq _ _ _ He) in E6. apply (sameOption_eq _ _ _ Hk) in E7. apply (sameOption_eq _ _ _ Hv) in E8.
  apply (sameFields_eq _ _ _ Hf) in E9. by subst.
Qed.

Lemma sameType_refl a : sameType a a = true.
Proof.
  induction a as [root nul len prec scale element key value fields He Hk Hv Hf] using LogicalType_nested_ind.
  cbn [sameType]. rewrite bool_decide_true by done. rewrite eqb_reflx, !Z.eqb_refl. cbn.
  by rewrite !sameOption_refl, sameFields_refl.
Qed.

Lemma indexColumns_Some {K} `{Countable K} (key : Column -> K) columns : forall i (m : gmap K Z) k j,
  indexColumns key columns i m !! k = Some j ->
  m !! k = Some j \/ (i <= j /\ exists c, columns !! Z.to_nat (j - i) = Some c /\ key c = k).
Proof.
  induction columns as [|c columns IH]; intros i m k j; cbn; [auto|]. intros [E|(L & c' & E & Ek)]%IH.
  - apply lookup_insert_Some in E as [[<- <-]|[_ E]]; [|auto]. right. split; [lia|].
    exists c. by rewrite Z.sub_diag.
  - right. split; [lia|]. exists c'. split; [|done].
    by replace (Z.to_nat (j - i)) with (S (Z.to_nat (j - (i + 1)))) by lia.
Qed.

Lemma indexColumns_None {K} `{Countable K} (key : Column -> K) columns : forall i (m : gmap K Z) k,
  indexColumns key columns i m !! k = None <-> m !! k = None /\ k ∉ key <$> columns.
Proof.
  induction columns as [|c columns IH]; intros i m k; cbn; [set_solver|]. rewrite IH, lookup_insert_None.
  set_solver.
Qed.

(** Whether a column of the source is the one a target column reads. *)
Definition sameColumn (source target : Schema) (s t : Column) : Prop :=
  if stableIDs source target then col_ID s = col_ID t else col_Name s = col_Name t.

Lemma findColumn_Some source target t j :
  findColumn source target t = Some j ->
  0 <= j /\ exists s, sch_Columns source !! Z.to_nat j = Some s /\ sameColumn source target s t.
Proof.
  unfold findColumn, sameColumn. destruct (stableIDs source target); intros E;
    apply indexColumns_Some in E as [E|(L & s & E & Ek)];
    try (by rewrite lookup_empty in E); rewrite Z.sub_0_r in E; eauto.
Qed.

Lemma findColumn_None source target t :
  findColumn source target t = None ->
  forall s, s ∈ sch_Columns source -> ~ sameColumn source target s t.
Proof.
  unfold findColumn, sameColumn. destruct (stableIDs source target);
    intros [_ E]%indexColumns_None s Hs Hk; apply E; rewrite <- Hk; by apply list_elem_of_fmap_2.
Qed.

(** A value of the source column is a value of a compatible target column. *)
Lemma compatible_value s t v :
  columnTypeOk s -> columnTypeOk t -> compatibleColumnType s t = true -> isNil v = false ->
  validateColumnValue s v = Ok tt -> validateColumnValue t v = Ok tt.
Proof.
  intros Hs Ht E%sameType_eq Hn H.
  pose proof (validateColumnValue_untyped s v Hn H) as U.
  assert (K : dataTypeForLogicalType (logicalTypeForColumn s) = dataTypeForLogicalType (logicalTypeForColumn t)).
  { destruct (logicalTypeForColumn s), (logicalTypeForColumn t). injection E as -> ? ? ? ? ? ? ?. done. }
  rewrite K in U. clear K. unfold validateColumnValue, columnTypeOk, logicalTypeForColumn in *.
  rewrite Hn in *. destruct (col_LogicalType t) as [lt|] eqn:Et.
  - apply check_Ok. destruct (col_LogicalType s) as [ls|].
    + apply check_Ok in H. destruct ls as [r n l p c e k w f], lt as [r' n' l' p' c' e' k' w' f'].
      injection E as -> -> -> -> -> -> -> ->. cbn [validLogicalValue] in *. rewrite Hn in *. exact H.
    + destruct lt as [r n l p c e k w f]. injection E as E1 E2 E3 E4 E5 E6 E7 E8. subst.
      cbn [validLogicalValue]. rewrite Hn. apply check_Ok in H.
      destruct (col_Type s); try discriminate Ht; try discriminate Hs; exact H.
  - apply check_Ok. rewrite dataTypeForLogicalType_plain in U; [exact U|]. intros o Ho. by rewrite Ho in Ht.
Qed.

(** ** What evolution keeps *)

Lemma mappingLoop_Ok source find columns : forall mapping,
  mappingLoop source find columns = Ok mapping ->
  Forall2 (fun t i => match find t with
    | None => i = -1 /\ col_Nullable t = true
    | Some j => i = j /\ 0 <= j /\ exists s, sch_Columns source !! Z.to_nat j = Some s /\ compatibleColumnType s t = true
    end) columns mapping.
Proof.
  induction columns as [|t columns IH]; intros mapping E; cbn in E; [inv_ok; constructor|].
  destruct (find t) as [j|] eqn:Ef; inv_ok; (constructor; [rewrite Ef|by apply IH]); [|done].
  rename select (index _ _ = _) into Ei. apply index_Ok in Ei as [? ?]. eauto 6.
Qed.

Lemma evolveLoop_Ok row columns mapping : forall r,
  evolveLoop row columns mapping = Ok r ->
  forall P : Column -> Z -> Prop, Forall2 P columns mapping ->
  Forall2 (fun t v => exists i, P t i /\ ((i < 0 /\ v = VNil) \/
    (0 <= i /\ row !! Z.to_nat i = Some v /\ (isNil v = true -> col_Nullable t = true)))) columns r.
Proof.
  revert mapping. induction columns as [|t columns IH]; intros mapping r E P F; cbn in E; [inv_ok; constructor|].
  destruct mapping as [|i mapping]; [done|]. apply Forall2_cons in F as [Hp F].
  destruct (Z.ltb_spec i 0); inv_ok; (constructor; [|by eapply IH]).
  - exists i. auto.
  - exists i. split; [done|]. right. rename select (index _ _ = _) into Ei. apply index_Ok in Ei as [? ?].
    split; [done|]. split; [done|]. intros Hn. rewrite Hn in *. by destruct (col_Nullable t).
Qed.

(** The value of each target column: that of its source column, or nil. *)
Definition evolved (source target : Schema) (row : Row) (t : Column) (v : GoValue) : Prop :=
  (exists j s, sch_Columns source !! j = Some s /\ sameColumn source target s t /\
     compatibleColumnType s t = true /\ row !! j = Some v /\ (isNil v = true -> col_Nullable t = true)) \/
  ((forall s, s ∈ sch_Columns source -> ~ sameColumn source target s t) /\ col_Nullable t = true /\ v = VNil).

Lemma evolveRow_columns source target row r :
  evolveRow source target row = Ok r ->
  length row = length (sch_Columns source) /\ Forall2 (evolved source target row) (sch_Columns target) r.
Proof.
  unfold evolveRow, schemaColumnMapping. intros E. inv_ok.
  rename select (glen row =? _ = true) into Hl. unfold glen in Hl. split; [lia|].
  rename select (mappingLoop _ _ _ = _) into Em. apply mappingLoop_Ok in Em.
  rename select (evolveLoop _ _ _ = _) into E. pose proof (evolveLoop_Ok _ _ _ _ E _ Em) as F. clear E Em.
  eapply Forall2_impl; [exact F|]. intros t v (i & Hi & Hv). cbn in Hi. unfold evolved.
  destruct (findColumn source target t) as [j|] eqn:Ef.
  - left. destruct Hi as (-> & L & s & Es & Hc). destruct (findColumn_Some _ _ _ _ Ef) as (_ & s' & Es' & Hs).
    rewrite Es in Es'. simplify_eq. destruct Hv as [[? _]|(_ & Hv & Hn)]; [lia|]. exists (Z.to_nat j), s'. auto.
  - right. destruct Hi as [-> Hn]. destruct Hv as [[_ ->]|[? _]]; [|lia].
    split; [by apply findColumn_None|auto].
Qed.

(** C15: Evolving a row keeps what the reader's schema names and nothing else.  When [evolveRow]
    succeeds on a valid row, the result is a valid row of the target schema, and each of its
    values is the value of the column with the same field id (the same name when a schema has
    no ids), whose type is the same up to nullability, or nil for a nullable column the source
    does not have. *)
Theorem evolve_row_sound source target row r :
  ValidateRow source row [] = Ok tt -> Schema_Validate target = Ok tt ->
  evolveRow source target row = Ok r ->
  ValidateRow target r [] = Ok tt /\ Forall2 (evolved source target row) (sch_Columns target) r.
Proof.
  intros [Vs Vr]%ValidateRow_all Vt [_ F]%evolveRow_columns. split; [|done].
  apply ValidateRow_all. split; [done|].
  destruct (Schema_Validate_Ok source tt Vs) as (_ & _ & Ts & _).
  destruct (Schema_Validate_Ok target tt Vt) as (_ & _ & Tt & _).
  apply Forall2_same_length_lookup_2; [by eapply Forall2_length|]. intros i t v Ht Hv.
  pose proof (Forall_lookup_1 _ _ _ _ Tt Ht) as Kt.
  destruct (Forall2_lookup_lr _ _ _ _ _ _ F Ht Hv) as [(j & s & Es & _ & Hc & Er & Hn)|(_ & Hn & ->)].
  - pose proof (Forall_lookup_1 _ _ _ _ Ts Es) as Ks.
    pose proof (Forall2_lookup_lr _ _ _ _ _ _ Vr Es Er) as Hsv. cbn in Hsv.
    destruct (isNil v) eqn:En; [|by eapply compatible_value].
    unfold validateColumnValue. rewrite En, (Hn eq_refl). done.
  - unfold validateColumnValue. cbn. by rewrite Hn.
Qed.

(** *** A schema evolves to itself *)

Lemma indexColumns_lookup {K} `{Countable K} (key : Column -> K) columns : forall i (m : gmap K Z) j c,
  NoDup (key <$> columns) -> columns !! j = Some c ->
  indexColumns key columns i m !! key c = Some (i + Z.of_nat j).
Proof.
  induction columns as [|c' columns IH]; intros i m [|j] c N E; cbn in *; try done.
  - simplify_eq. apply NoDup_cons in N as [Hn N].
    destruct (indexColumns key columns (i + 1) _ !! key c) as [j|] eqn:E.
    + apply indexColumns_Some in E as [E|(_ & d & E & Ed)].
      * rewrite lookup_insert_eq in E. simplify_eq. f_equal. lia.
      * exfalso. apply Hn. rewrite <- Ed. apply list_elem_of_fmap_2. by eapply list_elem_of_lookup_2.
    + apply indexColumns_None in E as [E _]. by rewrite lookup_insert_eq in E.
  - apply NoDup_cons in N as [_ N]. rewrite (IH (i + 1) _ j c N E). f_equal. lia.
Qed.

Lemma mappingLoop_self source find before columns :
  sch_Columns source = before ++ columns ->
  (forall j c, sch_Columns source !! j = Some c -> find c = Some (Z.of_nat j)) ->
  mappingLoop source find columns = Ok (Z.of_nat <$> seq (length before) (length columns)).
Proof.
  intros E F. revert before E. induction columns as [|c columns IH]; intros before E; cbn; [done|].
  rewrite (F (length before) c) by (rewrite E; by apply list_lookup_middle).
  assert (index (sch_Columns source) (Z.of_nat (length before)) = Ok c) as ->.
  { rewrite E. by apply index_app. }
  cbn. unfold compatibleColumnType. rewrite sameType_refl. cbn.
  rewrite (IH (before ++ [c])) by (by rewrite <- app_assoc). cbn. by rewrite length_app, Nat.add_1_r.
Qed.

Lemma evolveLoop_self row columns n r :
  drop n row = r -> Forall2 (fun c v => validateColumnValue c v = Ok tt) columns r ->
  evolveLoop row columns (Z.of_nat <$> seq n (length columns)) = Ok r.
Proof.
  revert n r. induction columns as [|c columns IH]; intros n r E F.
  - apply Forall2_nil_inv_l in F as ->. done.
  - apply Forall2_cons_inv_l in F as (v & r' & Hv & F & ->). cbn.
    destruct (Z.ltb_spec (Z.of_nat n) 0); [lia|].
    assert (Ev : row !! n = Some v) by (rewrite <- (Nat.add_0_r n), <- lookup_drop, E; done).
    unfold index. destruct (Z.leb_spec 0 (Z.of_nat n)); [|lia]. rewrite Nat2Z.id, Ev. cbn.
    assert (isNil v && negb (col_Nullable c) = false) as ->.
    { destruct (isNil v) eqn:En; [|done]. unfold validateColumnValue in Hv. rewrite En in Hv.
      apply check_Ok in Hv. by rewrite Hv. }
    cbn. rewrite (IH (S n) r'); [done| |done].
    apply (f_equal (drop 1)) in E. rewrite drop_drop, Nat.add_1_r in E. exact E.
Qed.

(** Reading with the schema a row was written with changes nothing: [evolveRow] is the
    identity on the valid rows of a schema whose field ids, when it has any, are distinct. *)
Theorem evolve_row_identity schema row :
  ValidateRow schema row [] = Ok tt ->
  (hasUnassignedFieldIDs schema = false -> NoDup (col_ID <$> sch_Columns schema)) ->
  evolveRow schema schema row = Ok row.
Proof.
  intros [Vs Vr]%ValidateRow_all Hid. destruct (Schema_Validate_Ok schema tt Vs) as (_ & Hnd & _).
  unfold evolveRow. pose proof (Forall2_length _ _ _ Vr) as Hl.
  assert (glen row =? glen (sch_Columns schema) = true) as -> by (unfold glen; lia). cbn.
  unfold schemaColumnMapping. rewrite (mappingLoop_self schema _ [] (sch_Columns schema) eq_refl).
  - cbn. by apply evolveLoop_self.
  - intros j c E. unfold findColumn, stableIDs. destruct (hasUnassignedFieldIDs schema); cbn;
      by rewrite (indexColumns_lookup _ (sch_Columns schema) 0 ∅ j c) by auto.
Qed.

(** ** A table that gained, lost and renamed columns *)

Definition writtenSchema : Schema :=
  MkSchema [MkColumn "id" BigIntType false None "" 0; MkColumn "name" StringType false None "" 1;
            MkColumn "gone" IntType true None "" 2] [] [] [] [] 2.

Definition readSchema : Schema :=
  MkSchema [MkColumn "added" BoolType true None "" 3; MkColumn "title" StringType true None "" 1;
            MkColumn "id" BigIntType false (Some (plainType "BIGINT" false)) "" 0] [] [] [] [] 3.

Definition writtenRow : Row := [VInt64 7; VString "x"; VNil].

Lemma evolve_row_sound_witness :
  evolveRow writtenSchema readSchema writtenRow = Ok [VNil; VString "x"; VInt64 7] /\
  ValidateRow readSchema [VNil; VString "x"; VInt64 7] [] = Ok tt.
Proof.
  split; [vm_compute; reflexivity|].
  refine (proj1 (evolve_row_sound writtenSchema readSchema writtenRow _ _ _ _)); vm_compute; reflexivity.
Defined.

Lemma evolve_row_identity_witness :
  hasUnassignedFieldIDs writtenSchema = false /\ evolveRow writtenSchema writtenSchema writtenRow = Ok writtenRow.
Proof.
  split; [vm_compute; reflexivity|]. apply evolve_row_identity; [vm_compute; reflexivity|].
  intros _. apply (bool_decide_unpack _). vm_compute. exact Logic.I.
Defined.
