(* ===== verification/ScanDecode.v ===== *)
(** * Decoding fetched logs

    Models [pkg/fgo/log_scanner_decode.go] and [sliceArrowLogBatch]: the bytes a fetch returns
    are split into batches, each decoded with the schema it was written with, cut to the
    offsets not yet delivered, and evolved to the schema of the reader.

    The records of the third-party Arrow library are a parameter: [ArrowLibrary] reads and
    writes them, [ArrowOps] slices them and takes them apart.  The schema resolver is the
    parameter [resolveSchema] ([SchemaCache] models the one of the client).  Reference counts
    of Arrow records ([Release]) are not modelled. *)

From S2P Require Import Prelude Model Wire Values Codec DecodeSafety EncodeSafety Roundtrip RecordBatch Arrow SchemaJSON SchemaEvolution.

(** ** Data *)

Record ScanRecord := MkScanRecord { sr_Bucket : Z; sr_Record : Record_ }.

Record ScanArrowBatch (Rec : Type) := MkScanArrow { sa_Bucket : Z; sa_Batch : ArrowLogBatch Rec }.
Arguments MkScanArrow {Rec}.
Arguments sa_Bucket {Rec}.
Arguments sa_Batch {Rec}.

(** What the decoder asks of an Arrow record: [NewSlice], [NumCols], [Column], and the arrays
    and records the library makes. *)
Record ArrowOps (Rec Arr : Type) := MkArrowOps {
  ao_NewSlice : Rec -> Z -> Z -> Rec;
  ao_NumCols : Rec -> Z;
  ao_Column : Rec -> Z -> Arr;
  ao_MakeArrayOfNull : ArrowType -> Z -> Arr;
  ao_NewRecordBatch : list ArrowField -> list Arr -> Z -> Rec;
}.
Arguments ao_NewSlice {Rec Arr}.
Arguments ao_NumCols {Rec Arr}.
Arguments ao_Column {Rec Arr}.
Arguments ao_MakeArrayOfNull {Rec Arr}.
Arguments ao_NewRecordBatch {Rec Arr}.

Record fetchedLogDecodeOptions := MkDecodeOptions { do_compacted : bool; do_allowIncompleteTail : bool }.

(** ** Sizes and offsets *)

Definition completeFetchedBatchSize (encoded : list byte) : outcome (Z * bool) :=
  if glen encoded <? 12 then Ok (0, false)
  else
    length ← getLE 4 encoded 8;
    let size := 12 + length in
    if size <? logBatchV0HeaderSize then Err ErrMalformedRecordBatch
    else if glen encoded <? size then Ok (0, false)
    else Ok (size, true).

Definition incompleteFetchedBatchError (encoded : list byte) : goerror := ErrMalformedRecordBatch.

Definition fetchedBatchSize (encoded : list byte) : outcome Z :=
  '(size, complete) ← completeFetchedBatchSize encoded;
  if complete : bool then Ok size else Err (incompleteFetchedBatchError encoded).

Definition maxInt64 : Z := 2 ^ 63 - 1.

(** The index of the first record to deliver, and the next offset to fetch. *)
Definition fetchedBatchOffsets (base count current : Z) : outcome (Z * Z) :=
  if count <? 0 then Err ErrMalformedRecordBatch
  else if count =? 0 then Ok (0, current)
  else if maxInt64 - count <? base then Err ErrMalformedRecordBatch
  else
    let end_ := base + count in
    let start := if end_ <=? current then count
                 else if base <? current then current - base else 0 in
    Ok (start, if current <? end_ then end_ else current).

Section Decode.
Context {Rec Arr : Type} (library : ArrowLibrary Rec) (ops : ArrowOps Rec Arr) (zone : Z -> Z).
Context (resolveSchema : TablePath -> Z -> outcome Schema).

(** A field or method of a nil [arrow.RecordBatch] panics. *)
Definition recordOf (batch : ArrowLogBatch Rec) : outcome Rec :=
  match ab_Record batch with Some r => Ok r | None => Panic end.

Definition setRecord (batch : ArrowLogBatch Rec) (base : Z) (record : Rec) (changes : list Z) : ArrowLogBatch Rec :=
  MkArrowLogBatch (ab_Magic batch) base (ab_CommitTime batch) (ab_LeaderEpoch batch) (ab_SchemaID batch)
    (ab_AppendOnly batch) (ab_WriterID batch) (ab_BatchSequence batch) (Some record) changes.

Definition sliceArrowLogBatch (batch : ArrowLogBatch Rec) (start end_ : Z) : outcome (ArrowLogBatch Rec) :=
  record ← recordOf batch;
  changes ← slice (ab_Changes batch) start end_;
  Ok (setRecord batch (int64 (ab_BaseOffset batch + start)) (ao_NewSlice ops record start end_) changes).

(** ** One batch *)

(** [errors.Join(rowErr, err)]: both are in the chain, the model keeps the first. *)
Definition joinErrors (rowErr err : goerror) : goerror := rowErr.

Definition decodeFetchedArrow (rowErr : goerror) (s : Schema) (bucket current : Z) (payload : list byte)
    : outcome (Z * list ScanRecord * option (ScanArrowBatch Rec)) :=
  arrowSchema ← ArrowSchema s;
  match DecodeArrowLogBatch library (Some arrowSchema) payload with
  | Err e => Err (joinErrors rowErr e)
  | Panic => Panic
  | OutOfFuel => OutOfFuel
  | Ok arrowBatch =>
    record ← recordOf arrowBatch;
    let count := al_NumRows library record in
    '(start, next) ← fetchedBatchOffsets (ab_BaseOffset arrowBatch) count current;
    if start =? count then Ok (next, [], None)
    else
      sliced ← (if 0 <? start then sliceArrowLogBatch arrowBatch start count else Ok arrowBatch);
      Ok (next, [], Some (MkScanArrow bucket sliced))
  end.

Definition decodeFetchedBatch (s : Schema) (bucket current : Z) (payload : list byte) (compacted : bool)
    : outcome (Z * list ScanRecord * option (ScanArrowBatch Rec)) :=
  match DecodeLogBatchRows zone s payload compacted with
  | Ok batch =>
    '(start, next) ← fetchedBatchOffsets (lb_BaseOffset batch) (glen (lb_Records batch)) current;
    records ← slice_from (lb_Records batch) start;
    Ok (next, map (MkScanRecord bucket) records, None)
  | Err rowErr => decodeFetchedArrow rowErr s bucket current payload
  | Panic => Panic
  | OutOfFuel => OutOfFuel
  end.

(** ** Evolution *)

Definition setValue (r : ScanRecord) (row : Row) : ScanRecord :=
  MkScanRecord (sr_Bucket r)
    (MkRecord (rec_Key (sr_Record r)) row (rec_Change (sr_Record r)) (rec_Timestamp (sr_Record r)) (rec_Offset (sr_Record r))).

Fixpoint evolveScanRecords (records : list ScanRecord) (source target : Schema) : outcome (list ScanRecord) :=
  match records with
  | [] => Ok []
  | r :: records =>
    row ← evolveRow source target (rec_Value (sr_Record r));
    rest ← evolveScanRecords records source target;
    Ok (setValue r row :: rest)
  end.

Fixpoint evolveColumns (record : Rec) (fields : list ArrowField) (mapping : list Z) : outcome (list Arr) :=
  match mapping with
  | [] => Ok []
  | sourceIndex :: mapping =>
    match fields with
    | [] => Panic
    | field :: fields =>
      rest ← evolveColumns record fields mapping;
      Ok ((if sourceIndex <? 0 then ao_MakeArrayOfNull ops (af_Type field) (al_NumRows library record)
           else ao_Column ops record sourceIndex) :: rest)
    end
  end.

Definition evolveArrowBatch (batch : ArrowLogBatch Rec) (source target : Schema) : outcome (ArrowLogBatch Rec) :=
  mapping ← schemaColumnMapping source target;
  targetSchema ← ArrowSchema target;
  record ← recordOf batch;
  columns ← evolveColumns record targetSchema mapping;
  Ok (setRecord batch (ab_BaseOffset batch) (ao_NewRecordBatch ops targetSchema columns (al_NumRows library record)) (ab_Changes batch)).

Definition decodeEvolvedFetchedBatch (path : TablePath) (target : Schema) (bucket offset : Z) (payload : list byte) (compacted : bool)
    : outcome (Z * list ScanRecord * option (ScanArrowBatch Rec)) :=
  '(_, _, schemaOffset) ← logBatchHeader payload;
  z ← getLE 2 payload schemaOffset;
  let schemaID := int16 z in
  writerSchema ← resolveSchema path schemaID;
  '(next, rows, arrowBatch) ← decodeFetchedBatch writerSchema bucket offset payload compacted;
  rows ← evolveScanRecords rows writerSchema target;
  match arrowBatch with
  | None => Ok (next, rows, None)
  | Some a =>
    batch ← evolveArrowBatch (sa_Batch a) writerSchema target;
    Ok (next, rows, Some (MkScanArrow (sa_Bucket a) batch))
  end.

(** ** All batches of a fetch

    Every batch takes at least its header from [encoded], so the length of [encoded] is fuel
    enough. *)
Fixpoint decodeLoop (fuel : nat) (path : TablePath) (target : Schema) (bucket next : Z) (encoded : list byte)
    (options : fetchedLogDecodeOptions) : outcome (Z * list ScanRecord * list (ScanArrowBatch Rec)) :=
  if glen encoded =? 0 then Ok (next, [], [])
  else match fuel with
  | O => OutOfFuel
  | S fuel =>
    '(size, complete) ← completeFetchedBatchSize encoded;
    if negb complete then
      (if do_allowIncompleteTail options then Ok (next, [], [])
       else Err (incompleteFetchedBatchError encoded))
    else
      payload ← slice encoded 0 size;
      '(batchNext, batchRows, arrowBatch) ←
        decodeEvolvedFetchedBatch path target bucket next payload (do_compacted options);
      tail ← slice_from encoded size;
      '(last, rows, arrows) ← decodeLoop fuel path target bucket batchNext tail options;
      Ok (last, batchRows ++ rows, match arrowBatch with Some a => a :: arrows | None => arrows end)
  end.

Definition decodeFetchedLogBatchesWithResolver (path : TablePath) (target : Schema) (bucket fetchOffset : Z)
    (encoded : list byte) (options : fetchedLogDecodeOptions)
    : outcome (Z * list ScanRecord * list (ScanArrowBatch Rec)) :=
  decodeLoop (length encoded) path target bucket fetchOffset encoded options.

Definition decodeFetchedLogWithResolver (path : TablePath) (target : Schema) (bucket fetchOffset : Z)
    (encoded : list byte) (compacted : bool) :=
  decodeFetchedLogBatchesWithResolver path target bucket fetchOffset encoded (MkDecodeOptions compacted false).

Definition decodeFetchedFetchResponseWithResolver (path : TablePath) (target : Schema) (bucket fetchOffset : Z)
    (encoded : list byte) (compacted : bool) :=
  decodeFetchedLogBatchesWithResolver path target bucket fetchOffset encoded (MkDecodeOptions compacted true).

(** ** Projection *)

Fixpoint projectValues (row : Row) (projection : list Z) : outcome Row :=
  match projection with
  | [] => Ok []
  | position :: projection => v ← index row position; rest ← projectValues row projection; Ok (v :: rest)
  end.

Fixpoint projectLoopRows (projection : list Z) (rows : list ScanRecord) : outcome (list ScanRecord) :=
  match rows with
  | [] => Ok []
  | r :: rows =>
    projected ← projectValues (rec_Value (sr_Record r)) projection;
    rest ← projectLoopRows projection rows;
    Ok (setValue r projected :: rest)
  end.

Definition projectScanRows (projection : list Z) (rows : list ScanRecord) : outcome (list ScanRecord) :=
  match projection with [] => Ok rows | _ => projectLoopRows projection rows end.

Fixpoint projectArrowColumns (record : Rec) (projection : list Z) : outcome (list Arr) :=
  match projection with
  | [] => Ok []
  | position :: projection =>
    if (position <? 0) || (ao_NumCols ops record <=? position) then Err ErrInvalidSchema
    else rest ← projectArrowColumns record projection; Ok (ao_Column ops record position :: rest)
  end.

Fixpoint projectLoopArrows (fields : list ArrowField) (projection : list Z) (batches : list (ScanArrowBatch Rec))
    : outcome (list (ScanArrowBatch Rec)) :=
  match batches with
  | [] => Ok []
  | a :: batches =>
    source ← recordOf (sa_Batch a);
    columns ← projectArrowColumns source projection;
    rest ← projectLoopArrows fields projection batches;
    Ok (MkScanArrow (sa_Bucket a)
          (setRecord (sa_Batch a) (ab_BaseOffset (sa_Batch a))
             (ao_NewRecordBatch ops fields columns (al_NumRows library source)) (ab_Changes (sa_Batch a))) :: rest)
  end.

Definition projectScanArrows (s : Schema) (projection : list Z) (batches : list (ScanArrowBatch Rec))
    : outcome (list (ScanArrowBatch Rec)) :=
  match projection with
  | [] => Ok batches
  | _ => fields ← ArrowSchema s; projectLoopArrows fields projection batches
  end.

End Decode.

(** ** Decoding is total *)

Lemma fetchedBatchOffsets_Ok base count current start next :
  fetchedBatchOffsets base count current = Ok (start, next) ->
  0 <= count /\ 0 <= start <= count /\
  (count = 0 -> next = current) /\
  (0 < count -> next = Z.max current (base + count) /\ start = Z.min count (Z.max 0 (current - base))).
Proof.
  unfold fetchedBatchOffsets. repeat case_match; intros [= <- <-]; lia.
Qed.

Lemma fetchedBatchOffsets_returns base count current : returns (fetchedBatchOffsets base count current) = true.
Proof. unfold fetchedBatchOffsets. by repeat case_match. Qed.

Lemma completeFetchedBatchSize_Ok encoded size :
  completeFetchedBatchSize encoded = Ok (size, true) -> 48 <= size <= glen encoded.
Proof.
  unfold completeFetchedBatchSize, logBatchV0HeaderSize. case_match; [done|]. intros Ho. inv_ok.
  repeat case_match; simplify_eq. lia.
Qed.

Lemma completeFetchedBatchSize_returns encoded : returns (completeFetchedBatchSize encoded) = true.
Proof.
  unfold completeFetchedBatchSize. destruct (Z.ltb_spec (glen encoded) 12); [done|].
  destruct (getLE_safe 4 encoded 8) as [z ->]; [lia|cbn; lia|]. cbn. by repeat case_match.
Qed.

Lemma arrowColumns_Ok columns : forall fields, arrowColumns columns = Ok fields -> length fields = length columns.
Proof.
  induction columns as [|c columns IH]; intros fields E; cbn in E; [by simplify_eq|].
  case_match; [|done]. inv_ok. cbn. f_equal. by apply IH.
Qed.

Lemma arrowColumns_returns columns : returns (arrowColumns columns) = true.
Proof.
  induction columns as [|c columns IH]; [done|]. cbn. case_match; [|done]. by apply bind_returns.
Qed.

Lemma ArrowSchema_returns s : returns (ArrowSchema s) = true.
Proof. unfold ArrowSchema. apply bind_returns; [apply Schema_Validate_returns|]. intros _ _. apply arrowColumns_returns. Qed.

Lemma mappingLoop_returns source target columns :
  returns (mappingLoop source (findColumn source target) columns) = true.
Proof.
  induction columns as [|t columns IH]; [done|]. cbn. destruct (findColumn source target t) as [j|] eqn:E.
  - apply findColumn_Some in E as (L & s & E & _). unfold index.
    destruct (Z.leb_spec 0 j); [|lia]. rewrite E. cbn. apply bind_returns; [apply check_returns|].
    intros _ _. by apply bind_returns.
  - apply bind_returns; [apply check_returns|]. intros _ _. by apply bind_returns.
Qed.

Lemma evolveLoop_returns source target row columns mapping :
  length row = length (sch_Columns source) ->
  mappingLoop source (findColumn source target) columns = Ok mapping ->
  returns (evolveLoop row columns mapping) = true.
Proof.
  intros Hl Hm%mappingLoop_Ok. induction Hm as [|t i columns mapping Hi _ IH]; [done|]. cbn.
  destruct (Z.ltb_spec i 0); [by apply bind_returns|].
  destruct (findColumn source target t) as [j|]; [|lia]. destruct Hi as (-> & L & s & Es & _).
  destruct (index_safe row j) as [v ->].
  { apply lookup_lt_Some in Es. unfold glen. lia. }
  cbn. apply bind_returns; [apply check_returns|]. intros _ _. by apply bind_returns.
Qed.

Lemma evolveRow_returns source target row : returns (evolveRow source target row) = true.
Proof.
  unfold evolveRow. apply bind_returns; [apply check_returns|]. intros [] Hl%check_Ok. unfold glen in Hl.
  apply bind_returns; [apply mappingLoop_returns|]. intros mapping Hm. eapply (evolveLoop_returns source target); [lia|exact Hm].
Qed.

Lemma evolveScanRecords_returns records source target : returns (evolveScanRecords records source target) = true.
Proof.
  induction records as [|r records IH]; [done|]. cbn. apply bind_returns; [apply evolveRow_returns|].
  intros row _. by apply bind_returns.
Qed.

Section Returns.
Context {Rec Arr : Type} (library : ArrowLibrary Rec) (ops : ArrowOps Rec Arr) (zone : Z -> Z).

Lemma decodeChangeBytes_length encoded n : forall position changes,
  decodeChangeBytes encoded n position = Ok changes -> length changes = n.
Proof. induction n as [|n IH]; intros position changes E; cbn in E; inv_ok; [done|]. cbn. f_equal. by eapply IH. Qed.

Lemma arrow_log_header payload magic headerSize crcOffset so covered :
  arrowHeader payload = Ok (magic, headerSize, crcOffset, so) ->
  getLE 4 payload 8 = Ok (glen payload - 12) -> slice_from payload so = Ok covered ->
  getLE 4 payload crcOffset = Ok (crc32c covered) ->
  logBatchHeader payload = Ok (magic, headerSize, so).
Proof.
  intros Hh Hl Hc Hs. unfold arrowHeader in Hh. unfold logBatchHeader. destruct (_ || _); [done|].
  apply bind_Ok in Hh as (b & Hb & Hh). rewrite Hb. cbn [mbind outcome_bind].
  destruct (Z.eqb_spec (byte.unsigned b) 0) as [E0|N0]; [|destruct (Z.eqb_spec (byte.unsigned b) 1) as [E1|N1]; [|done]].
  - rewrite E0. cbn. case_match; [done|]. injection Hh as <- <- <- <-.
    rewrite Hl. cbn. rewrite Z.eqb_refl. cbn. rewrite Hc. cbn. rewrite Hs. cbn. by rewrite Z.eqb_refl.
  - rewrite E1. cbn. case_match; [done|]. injection Hh as <- <- <- <-.
    rewrite Hl. cbn. rewrite Z.eqb_refl. cbn. rewrite Hc. cbn. rewrite Hs. cbn. by rewrite Z.eqb_refl.
Qed.

Lemma empty_rows_decode s payload compacted magic headerSize so :
  logBatchHeader payload = Ok (magic, headerSize, so) -> getLE 4 payload (so + 3 + 16) = Ok 0 ->
  glen payload = headerSize -> exists b, DecodeLogBatchRows zone s payload compacted = Ok b.
Proof.
  intros Hh Hc Hg. unfold DecodeLogBatchRows. rewrite Hh. cbn [mbind outcome_bind]. rewrite Hc. cbn [mbind outcome_bind].
  apply logBatchHeader_Ok in Hh as (E1 & E2 & E3). rewrite Hg, Z.sub_diag. change (0 / 5 <? 0) with false. cbv iota.
  destruct (getLE_safe 8 payload 0) as [z2 ->]; [lia|cbn; lia|].
  destruct (getLE_safe 8 payload 13) as [z3 ->]; [lia|cbn; lia|].
  destruct (getLE_safe 2 payload so) as [z4 ->]; [lia|cbn; lia|].
  destruct (index_safe payload (so + 2)) as [a ->]; [lia|].
  destruct (getLE_safe 8 payload (so + 3 + 4)) as [z5 ->]; [lia|cbn; lia|].
  destruct (getLE_safe 4 payload (so + 3 + 12)) as [z6 ->]; [lia|cbn; lia|]. cbn [mbind outcome_bind].
  assert (exists e, (if magic =? 1 then z ← getLE 4 payload 21; Ok (int32 z) else Ok 0) = Ok e) as [e ->].
  { destruct (magic =? 1); [|eauto]. destruct (getLE_safe 4 payload 21) as [z7 ->]; [lia|cbn; lia|]. cbn. eauto. }
  change (Z.to_nat 0) with 0%nat. cbn [mbind outcome_bind decodeLogRecords]. rewrite Z.eqb_refl. cbn. eauto.
Qed.

(** A decoded Arrow batch has as many changes as rows; one without a record is empty, and an
    empty batch would have been decoded as rows. *)
Lemma decodedArrow_record s schema payload compacted batch rowErr :
  DecodeLogBatchRows zone s payload compacted = Err rowErr ->
  DecodeArrowLogBatch library (Some schema) payload = Ok batch ->
  exists r, ab_Record batch = Some r /\ al_NumRows library r = glen (ab_Changes batch).
Proof.
  intros Hrow Ha. unfold DecodeArrowLogBatch in Ha.
  apply bind_Ok in Ha as ([[[magic headerSize] crcOffset] so] & Hh & Ha).
  apply bind_Ok in Ha as (len & Hlen & Ha). apply bind_Ok in Ha as (sum & Hsum & Ha).
  apply bind_Ok in Ha as (covered & Hcov & Ha). destruct (negb _ || negb _) eqn:Ec; [done|].
  apply bind_Ok in Ha as (count & Hcount & Ha). apply bind_Ok in Ha as (attributes & Hattr & Ha).
  destruct (_ || _) eqn:El in Ha; [done|]. apply bind_Ok in Ha as ([changes position] & Hch & Ha).
  apply bind_Ok in Ha as (rest & Hrest & Ha). apply bind_Ok in Ha as (record & Hrec & Ha).
  assert (E : ab_Record batch = record /\ ab_Changes batch = changes)
    by (clear -Ha; inv_ok; done).
  destruct E as [-> ->]. pose proof (getLE_range _ _ _ _ Hcount) as Rc.
  assert (Hn : glen changes = count /\ position = if negb (Z.land (byte.unsigned attributes) 1 =? 0) then headerSize else headerSize + count).
  { unfold decodeArrowChanges in Hch. destruct (negb (Z.land (byte.unsigned attributes) 1 =? 0)).
    - injection Hch as <- <-. unfold glen. rewrite length_replicate. split; [lia|done].
    - apply bind_Ok in Hch as (cs & Hcs & Hch). injection Hch as <- <-. unfold glen.
      rewrite (decodeChangeBytes_length _ _ _ _ Hcs). split; [lia|done]. }
  destruct Hn as [Hn Hp].
  unfold decodeArrowRecord in Hrec. destruct (Z.eqb_spec count 0) as [E0|Hz].
  - exfalso. subst count. destruct (negb (glen rest =? 0)) eqn:Er; [done|].
    replace position with headerSize in Hrest by (rewrite Hp; case_match; lia).
    unfold slice_from in Hrest. apply slice_glen in Hrest as Hg.
    assert (Hl : len = glen payload - 12 /\ sum = crc32c covered) by lia. destruct Hl as [-> ->].
    destruct (empty_rows_decode s payload compacted magic headerSize so) as [b Eb];
      [by eapply arrow_log_header|congruence|lia|congruence].
  - apply bind_Ok in Hrec as (r & _ & Hrec). destruct (negb _) eqn:En in Hrec; [done|].
    injection Hrec as <-. exists r. split; [done|lia].
Qed.

Definition hasRecord (a : option (ScanArrowBatch Rec)) : Prop :=
  match a with Some a => exists r, ab_Record (sa_Batch a) = Some r | None => True end.

Lemma decodeFetchedArrow_returns s bucket current payload compacted rowErr :
  DecodeLogBatchRows zone s payload compacted = Err rowErr ->
  returns (decodeFetchedArrow library ops rowErr s bucket current payload) = true /\
  forall next rows a, decodeFetchedArrow library ops rowErr s bucket current payload = Ok (next, rows, a) -> hasRecord a.
Proof.
  intros Hrow. unfold decodeFetchedArrow.
  pose proof (ArrowSchema_returns s) as Rs. destruct (ArrowSchema s) as [fields|e| |]; try done. cbn [mbind outcome_bind].
  pose proof (DecodeArrowLogBatch_returns library (Some fields) payload) as Rd.
  destruct (DecodeArrowLogBatch library (Some fields) payload) as [batch|e| |] eqn:Ed; try done.
  destruct (decodedArrow_record s fields payload compacted batch rowErr Hrow Ed) as (r & Er & En).
  unfold recordOf. rewrite Er. cbn [mbind outcome_bind].
  pose proof (fetchedBatchOffsets_returns (ab_BaseOffset batch) (al_NumRows library r) current) as Ro.
  destruct (fetchedBatchOffsets _ _ _) as [[start next]|e| |] eqn:Eo; try done. cbn [mbind outcome_bind].
  apply fetchedBatchOffsets_Ok in Eo as (Hc & Hst & _). rewrite En in *.
  destruct (start =? glen (ab_Changes batch)); [split; [done|]; by intros ? ? ? [= <- <- <-]|].
  destruct (0 <? start).
  - unfold sliceArrowLogBatch, recordOf. rewrite Er. cbn [mbind outcome_bind].
    destruct (slice_safe (ab_Changes batch) start (glen (ab_Changes batch))) as [cs ->]; [lia..|]. cbn.
    split; [done|]. intros ? ? ? [= <- <- <-]. cbn. eauto.
  - cbn. split; [done|]. intros ? ? ? [= <- <- <-]. cbn. eauto.
Qed.

Lemma decodeFetchedBatch_returns s bucket current payload compacted :
  forallb columnTyped (sch_Columns s) = true ->
  returns (decodeFetchedBatch library ops zone s bucket current payload compacted) = true /\
  forall next rows a, decodeFetchedBatch library ops zone s bucket current payload compacted = Ok (next, rows, a) -> hasRecord a.
Proof.
  intros Ht. unfold decodeFetchedBatch.
  pose proof (DecodeLogBatchRows_returns zone s payload compacted Ht) as Rr.
  destruct (DecodeLogBatchRows zone s payload compacted) as [b|e| |] eqn:Ed; try done; [|by eapply decodeFetchedArrow_returns].
  pose proof (fetchedBatchOffsets_returns (lb_BaseOffset b) (glen (lb_Records b)) current) as Ro.
  destruct (fetchedBatchOffsets _ _ _) as [[start next]|e| |] eqn:Eo; try done. cbn [mbind outcome_bind].
  apply fetchedBatchOffsets_Ok in Eo as (Hc & Hst & _). unfold slice_from.
  destruct (slice_safe (lb_Records b) start (glen (lb_Records b))) as [rs ->]; [lia..|]. cbn.
  split; [done|]. by intros ? ? ? [= <- <- <-].
Qed.

Lemma evolveColumns_returns record fields : forall mapping, (length mapping <= length fields)%nat ->
  returns (evolveColumns library ops record fields mapping) = true.
Proof.
  induction fields as [|f fields IH]; intros [|i mapping] Hl; cbn in *; try done; [lia|].
  apply bind_returns; [|done]. apply IH. lia.
Qed.

Lemma evolveArrowBatch_returns batch r source target :
  ab_Record batch = Some r -> returns (evolveArrowBatch library ops batch source target) = true.
Proof.
  intros Er. unfold evolveArrowBatch. apply bind_returns; [apply mappingLoop_returns|].
  intros mapping Hm%mappingLoop_Ok. apply bind_returns; [apply ArrowSchema_returns|]. intros fields Hf.
  unfold recordOf. rewrite Er. cbn. apply bind_returns; [|done]. apply evolveColumns_returns.
  unfold ArrowSchema in Hf. inv_ok. rename select (arrowColumns _ = _) into Hf. apply arrowColumns_Ok in Hf.
  apply Forall2_length in Hm. lia.
Qed.

Context (resolveSchema : TablePath -> Z -> outcome Schema).

(** What the decoder needs of the resolver: it returns, and a schema it gives is one the row
    decoder can follow. *)
Definition resolverOK : Prop :=
  forall path id, returns (resolveSchema path id) = true /\
    forall s, resolveSchema path id = Ok s -> forallb columnTyped (sch_Columns s) = true.

Lemma decodeEvolved_returns path target bucket offset payload compacted :
  resolverOK ->
  returns (decodeEvolvedFetchedBatch library ops zone resolveSchema path target bucket offset payload compacted) = true.
Proof.
  intros Hres. unfold decodeEvolvedFetchedBatch. apply bind_returns; [apply logBatchHeader_returns|].
  intros [[magic headerSize] so] (E1 & E2 & E3)%logBatchHeader_Ok.
  destruct (getLE_safe 2 payload so) as [z ->]; [lia|cbn; lia|]. cbn [mbind outcome_bind].
  apply bind_returns; [apply Hres|]. intros s Hs. pose proof (proj2 (Hres _ _) s Hs) as Ht.
  destruct (decodeFetchedBatch_returns s bucket offset payload compacted Ht) as [R1 R2].
  apply bind_returns; [exact R1|]. intros [[next rows] a] Ed. specialize (R2 _ _ _ Ed).
  apply bind_returns; [apply evolveScanRecords_returns|]. intros rows' _.
  destruct a as [a|]; [|done]. destruct R2 as [r Er]. apply bind_returns; [by eapply evolveArrowBatch_returns|done].
Qed.

Lemma decodeLoop_returns path target bucket options : resolverOK -> forall fuel next encoded,
  (length encoded <= fuel)%nat ->
  returns (decodeLoop library ops zone resolveSchema fuel path target bucket next encoded options) = true.
Proof.
  intros Hres. induction fuel as [|fuel IH]; intros next encoded Hf; cbn [decodeLoop].
  - replace (glen encoded =? 0) with true by (unfold glen; lia). done.
  - destruct (glen encoded =? 0); [done|].
    apply bind_returns; [apply completeFetchedBatchSize_returns|]. intros [size complete] Ec.
    destruct complete; cbn [negb]; [|by case_match]. apply completeFetchedBatchSize_Ok in Ec.
    destruct (slice_safe encoded 0 size) as [payload ->]; [lia..|]. cbn [mbind outcome_bind].
    apply bind_returns; [by apply decodeEvolved_returns|]. intros [[bn br] a] _. unfold slice_from.
    destruct (slice_safe encoded size (glen encoded)) as [tail Et]; [lia..|]. rewrite Et. cbn [mbind outcome_bind].
    apply bind_returns; [|by intros [[? ?] ?]]. apply IH. apply slice_glen in Et. unfold glen in *. lia.
Qed.

(** Decoding a fetched log never panics and always terminates, whatever bytes the server
    sent, whatever offset was asked for and whatever the Arrow library makes of the payloads:
    it returns records or an error. *)
Theorem scan_decode_returns path target bucket fetchOffset encoded options :
  resolverOK ->
  returns (decodeFetchedLogBatchesWithResolver library ops zone resolveSchema path target bucket fetchOffset encoded options) = true.
Proof. intros Hres. by apply decodeLoop_returns. Qed.

End Returns.

(** ** Decoding is complete

    What a server may answer to a fetch: batches in the order of their offsets, possibly with
    gaps (filtered batches), and the beginning of a further batch that did not fit. *)

(** A batch with the schema it was written with and its encoding. *)
Record written := MkWritten { wr_schema : Schema; wr_batch : LogBatch; wr_bytes : list byte }.

Definition wr_base (w : written) : Z := lb_BaseOffset (wr_batch w).
Definition wr_count (w : written) : Z := glen (lb_Records (wr_batch w)).
Definition wr_end (w : written) : Z := wr_base w + wr_count w.

Definition wellWritten (compacted : bool) (w : written) : Prop :=
  logInRange (wr_batch w) = true /\
  rowHeaderBytes (wr_schema w) (rowEncodingOf compacted) <= maxRowBytes /\
  LogBatch_EncodeRows (wr_batch w) (wr_schema w) compacted = Ok (wr_bytes w) /\
  glen (wr_bytes w) <= maxRowBytes /\ wr_end w <= maxInt64.

(** Each batch starts where the earlier ones ended, or later. *)
Fixpoint inOrder (from : Z) (ws : list written) : Prop :=
  match ws with
  | [] => True
  | w :: ws => from <= wr_base w /\ inOrder (wr_end w) ws
  end.

Definition nextOffset (from : Z) (ws : list written) : Z :=
  foldl (fun next w => if wr_count w =? 0 then next else Z.max next (wr_end w)) from ws.

(** The records of a batch from an offset on, as the decoder delivers them. *)
Definition recordsFrom (zone : Z -> Z) (compacted : bool) (bucket from : Z) (w : written) : list ScanRecord :=
  map (MkScanRecord bucket)
    (filter (fun r => from <= rec_Offset r) (lb_Records (retainLog zone (wr_schema w) compacted (wr_batch w)))).

(** *** One batch *)

Lemma decoded_header zone s encoded compacted b :
  DecodeLogBatchRows zone s encoded compacted = Ok b ->
  exists magic headerSize so z, logBatchHeader encoded = Ok (magic, headerSize, so) /\
    getLE 2 encoded so = Ok z /\ int16 z = lb_SchemaID b.
Proof.
  unfold DecodeLogBatchRows. intros E. apply bind_Ok in E as ([[magic headerSize] so] & Hh & E).
  apply bind_Ok in E as (count & _ & E). case_match; [done|]. do 2 apply bind_Ok in E as (? & _ & E).
  apply bind_Ok in E as (z & Hz & E). exists magic, headerSize, so, z. split; [done|]. split; [done|].
  do 4 apply bind_Ok in E as (? & _ & E). apply bind_Ok in E as ([records position] & _ & E).
  case_match; [done|]. by injection E as <-.
Qed.

Lemma logBatchHeader_size encoded r :
  logBatchHeader encoded = Ok r -> 48 <= glen encoded /\ getLE 4 encoded 8 = Ok (glen encoded - 12).
Proof.
  destruct r as [[magic headerSize] so]. intros Hh.
  destruct (logBatchHeader_Ok _ _ _ _ Hh) as (E1 & E2 & E3). split; [lia|].
  unfold logBatchHeader in Hh. case_match; [done|]. apply bind_Ok in Hh as (b & _ & Hh).
  destruct (negb _ && negb _); [done|].
  destruct (byte.unsigned b =? 1); (case_match; [done|]); apply bind_Ok in Hh as (len & Hl & Hh);
    (destruct (negb (len =? glen encoded - 12)) eqn:En; [done|]); rewrite Hl; f_equal; lia.
Qed.

Lemma completeSize_batch encoded r rest :
  logBatchHeader encoded = Ok r -> completeFetchedBatchSize (encoded ++ rest) = Ok (glen encoded, true).
Proof.
  intros [H48 Hl]%logBatchHeader_size. unfold completeFetchedBatchSize, logBatchV0HeaderSize.
  pose proof (glen_nonneg rest). rewrite glen_app.
  destruct (Z.ltb_spec (glen encoded + glen rest) 12); [lia|].
  rewrite getLE_prefix by (cbn; lia). rewrite Hl. cbn [mbind outcome_bind].
  replace (12 + (glen encoded - 12)) with (glen encoded) by lia.
  destruct (Z.ltb_spec (glen encoded) 48); [lia|]. by destruct (Z.ltb_spec (glen encoded + glen rest) (glen encoded)); [lia|].
Qed.

Lemma completeSize_prefix encoded r n :
  logBatchHeader encoded = Ok r -> (n < length encoded)%nat ->
  completeFetchedBatchSize (take n encoded) = Ok (0, false).
Proof.
  intros [H48 Hl]%logBatchHeader_size Hn. unfold completeFetchedBatchSize, logBatchV0HeaderSize.
  assert (Hg : glen (take n encoded) = Z.of_nat n) by (unfold glen; rewrite length_take; lia). rewrite Hg.
  destruct (Z.ltb_spec (Z.of_nat n) 12); [done|].
  rewrite <- (take_drop n encoded), getLE_prefix in Hl by (cbn; lia). rewrite Hl. cbn [mbind outcome_bind].
  rewrite take_drop. replace (12 + (glen encoded - 12)) with (glen encoded) by lia.
  destruct (Z.ltb_spec (glen encoded) 48); [lia|].
  destruct (Z.ltb_spec (Z.of_nat n) (glen encoded)); [done|unfold glen in *; lia].
Qed.

Lemma retainRecords_length zone s compacted base time records : forall i,
  length (retainRecords zone s compacted base time i records) = length records.
Proof. induction records as [|r records IH]; intros i; cbn; [done|]. by rewrite IH. Qed.

(** Records carry consecutive offsets, so cutting at an offset is dropping a prefix. *)
Lemma retain_from zone s compacted base time records from : forall i,
  - 2 ^ 63 <= base -> 0 <= i -> base + i + glen records <= maxInt64 ->
  filter (fun r => from <= rec_Offset r) (retainRecords zone s compacted base time i records) =
  drop (Z.to_nat (Z.min (glen records) (Z.max 0 (from - (base + i))))) (retainRecords zone s compacted base time i records).
Proof.
  unfold maxInt64. induction records as [|r records IH]; intros i Hb Hi Hm; cbn [retainRecords]; [by rewrite drop_nil|].
  rewrite glen_cons in *. pose proof (glen_nonneg records). rewrite filter_cons. cbn [rec_Offset].
  rewrite (swrap_small 64) by (unfold srange; lia). case_decide as Hf.
  - replace (Z.to_nat _) with 0%nat by lia. rewrite drop_0. f_equal. rewrite IH by lia.
    replace (Z.to_nat _) with 0%nat by lia. by rewrite drop_0.
  - rewrite IH by lia.
    replace (Z.to_nat (Z.min (1 + glen records) (Z.max 0 (from - (base + i)))))
      with (S (Z.to_nat (Z.min (glen records) (Z.max 0 (from - (base + (i + 1))))))) by lia. done.
Qed.

Section Complete.
Context {Rec Arr : Type} (library : ArrowLibrary Rec) (ops : ArrowOps Rec Arr) (zone : Z -> Z).
Context (resolveSchema : TablePath -> Z -> outcome Schema) (path : TablePath) (target : Schema) (bucket : Z) (compacted : bool).

Lemma decode_written w :
  wellWritten compacted w ->
  DecodeLogBatchRows zone (wr_schema w) (wr_bytes w) compacted = Ok (retainLog zone (wr_schema w) compacted (wr_batch w)).
Proof. intros (Hr & Hh & He & Hm & _). by apply LogBatch_EncodeRows_Decode. Qed.

Lemma written_header w : wellWritten compacted w -> exists r, logBatchHeader (wr_bytes w) = Ok r.
Proof. intros Hw%decode_written. destruct (decoded_header _ _ _ _ _ Hw) as (? & ? & ? & ? & ? & _). eauto. Qed.

Lemma decodeEvolved_written w from current rows :
  wellWritten compacted w -> resolveSchema path (lb_SchemaID (wr_batch w)) = Ok (wr_schema w) ->
  from <= current -> current = from \/ current <= wr_base w ->
  evolveScanRecords (recordsFrom zone compacted bucket from w) (wr_schema w) target = Ok rows ->
  decodeEvolvedFetchedBatch library ops zone resolveSchema path target bucket current (wr_bytes w) compacted =
    Ok (if wr_count w =? 0 then current else Z.max current (wr_end w), rows, None).
Proof.
  intros Hw Hs Hfc Hcur Hev. pose proof (decode_written w Hw) as Hd.
  destruct (decoded_header _ _ _ _ _ Hd) as (magic & headerSize & so & z & Hh & Hz & Hid).
  unfold decodeEvolvedFetchedBatch. rewrite Hh. cbn [mbind outcome_bind]. rewrite Hz. cbn [mbind outcome_bind].
  rewrite Hid. cbn [retainLog lb_SchemaID]. rewrite Hs. cbn [mbind outcome_bind].
  unfold decodeFetchedBatch. rewrite Hd. cbn [retainLog lb_BaseOffset lb_Records].
  destruct Hw as (Hr & _ & _ & _ & Hend). unfold logInRange in Hr. rewrite !andb_true_iff in Hr.
  destruct Hr as ((((((R1 & _) & _) & _) & _) & _) & _). unfold srange in R1.
  unfold wr_end, wr_base, wr_count in *. pose proof (glen_nonneg (lb_Records (wr_batch w))) as Hg.
  set (recs := retainRecords _ _ _ _ _ _ _).
  assert (Hl : glen recs = glen (lb_Records (wr_batch w))) by (unfold glen, recs; by rewrite retainRecords_length).
  unfold recordsFrom in Hev. cbn [retainLog lb_Records] in Hev. rewrite retain_from in Hev by lia. fold recs in Hev.
  rewrite Hl. set (count := glen (lb_Records (wr_batch w))) in *. set (base := lb_BaseOffset (wr_batch w)) in *.
  assert (Eo : fetchedBatchOffsets base count current =
    Ok (if count =? 0 then 0 else Z.min count (Z.max 0 (from - base)), if count =? 0 then current else Z.max current (base + count))).
  { unfold fetchedBatchOffsets. destruct (Z.ltb_spec count 0); [lia|]. destruct (Z.eqb_spec count 0); [done|].
    destruct (Z.ltb_spec (maxInt64 - count) base); [lia|]. repeat case_match; do 2 f_equal; lia. }
  rewrite Eo. cbn [mbind outcome_bind]. set (start := if count =? 0 then 0 else _) in *.
  assert (Hst : 0 <= start <= count) by (subst start; case_match; lia).
  unfold slice_from. destruct (slice_safe recs start (glen recs)) as [rs Ers]; [lia..|]. rewrite Ers. cbn [mbind outcome_bind].
  apply slice_Ok in Ers as (_ & _ & ->). rewrite take_ge by (rewrite length_drop; unfold glen; lia).
  replace (drop (Z.to_nat start) recs) with
    (drop (Z.to_nat (Z.min count (Z.max 0 (from - (base + 0))))) recs).
  2: { f_equal. subst start. destruct (Z.eqb_spec count 0); lia. }
  rewrite Hev. done.
Qed.

Lemma decodeLoop_written from tail rowss : forall ws fuel current,
  completeFetchedBatchSize tail = Ok (0, false) ->
  Forall (wellWritten compacted) ws ->
  Forall (fun w => resolveSchema path (lb_SchemaID (wr_batch w)) = Ok (wr_schema w)) ws ->
  from <= current -> (forall w ws', ws = w :: ws' -> current = from \/ current <= wr_base w) ->
  inOrder (match ws with w :: _ => wr_base w | [] => 0 end) ws ->
  Forall2 (fun w rows => evolveScanRecords (recordsFrom zone compacted bucket from w) (wr_schema w) target = Ok rows) ws rowss ->
  (length (concat (map wr_bytes ws) ++ tail) <= fuel)%nat ->
  decodeLoop library ops zone resolveSchema fuel path target bucket current (concat (map wr_bytes ws) ++ tail) (MkDecodeOptions compacted true) =
    Ok (nextOffset current ws, concat rowss, []).
Proof.
  intros ws. revert rowss. induction ws as [|w ws IH]; intros rowss fuel current Ht Hw Hs Hfc Hcur Ho Hev Hf.
  - apply Forall2_nil_inv_l in Hev as ->. cbn [map concat app nextOffset foldl]. destruct fuel as [|fuel]; cbn [decodeLoop].
    + cbn in Hf. replace (glen tail =? 0) with true by (unfold glen; lia). done.
    + case_match; [done|]. rewrite Ht. done.
  - apply Forall_cons in Hw as [Hw Hws]. apply Forall_cons in Hs as [Hs Hss].
    apply Forall2_cons_inv_l in Hev as (rows & rowss' & Hr & Hev & ->).
    destruct (written_header w Hw) as [r Hh]. destruct (logBatchHeader_size _ _ Hh) as [H48 _].
    cbn [map concat] in *. rewrite <- app_assoc in *. set (rest := concat (map wr_bytes ws) ++ tail) in *.
    pose proof (glen_nonneg rest). destruct fuel as [|fuel].
    { rewrite length_app in Hf. unfold glen in *. lia. }
    cbn [decodeLoop]. rewrite glen_app. destruct (Z.eqb_spec (glen (wr_bytes w) + glen rest) 0); [lia|].
    rewrite (completeSize_batch _ _ rest Hh). cbn [mbind outcome_bind negb].
    pose proof (slice_app [] (wr_bytes w) rest 0 (glen (wr_bytes w)) eq_refl eq_refl) as Hsl. cbn [app] in Hsl.
    rewrite Hsl. cbn [mbind outcome_bind].
    cbn [do_compacted]. rewrite (decodeEvolved_written w from current rows Hw Hs Hfc) by eauto. cbn [mbind outcome_bind].
    rewrite slice_from_app by done. cbn [mbind outcome_bind].
    destruct Ho as [_ Ho]. subst rest. rewrite (IH rowss' fuel); [done|done..|destruct (wr_count w =? 0); lia| | |done|].
    + intros w' ws' ->. destruct Ho as [Ho _]. specialize (Hcur w _ eq_refl). unfold wr_end in *.
      pose proof (glen_nonneg (lb_Records (wr_batch w))). change (glen (lb_Records (wr_batch w))) with (wr_count w) in *.
      destruct (Z.eqb_spec (wr_count w) 0); lia.
    + destruct ws as [|w' ws']; [done|]. destruct Ho as [Ho1 Ho2]. split; [lia|done].
    + rewrite length_app in Hf. unfold glen in H48. lia.
Qed.

(** C10: A fetch delivers every record once.  When a fetch answers with log batches in offset
    order and possibly the beginning of another, decoding it gives exactly the records at or
    after the fetch offset, in order, each evolved from the schema it was written with, and the
    next offset to fetch is the end of the last whole batch. *)
Theorem scan_decode_complete (ws : list written) (rowss : list (list ScanRecord)) (fetchOffset : Z) (cut : written) (n : nat) :
  Forall (wellWritten compacted) ws -> wellWritten compacted cut -> (n < length (wr_bytes cut))%nat ->
  Forall (fun w => resolveSchema path (lb_SchemaID (wr_batch w)) = Ok (wr_schema w)) ws ->
  inOrder (match ws with w :: _ => wr_base w | [] => 0 end) ws ->
  Forall2 (fun w rows => evolveScanRecords (recordsFrom zone compacted bucket fetchOffset w) (wr_schema w) target = Ok rows) ws rowss ->
  decodeFetchedFetchResponseWithResolver library ops zone resolveSchema path target bucket fetchOffset
    (concat (map wr_bytes ws) ++ take n (wr_bytes cut)) compacted =
    Ok (nextOffset fetchOffset ws, concat rowss, []).
Proof.
  intros Hw Hc Hn Hs Ho Hev. destruct (written_header cut Hc) as [r Hh].
  unfold decodeFetchedFetchResponseWithResolver, decodeFetchedLogBatchesWithResolver.
  eapply decodeLoop_written; try done; [by eapply completeSize_prefix|auto].
Qed.

End Complete.

(** ** A fetch from the middle of a batch *)

Definition byteOps : ArrowOps (list byte) (list byte) :=
  MkArrowOps _ _ (fun r i j => take (Z.to_nat (j - i)) (drop (Z.to_nat i) r)) (fun _ => 1) (fun r _ => r)
    (fun _ n => zeros n) (fun _ columns n => resize (Z.to_nat n) Byte.x00 (concat columns)).

Definition fetchPath : TablePath := MkTablePath "db" "events".

Definition fetchTarget : Schema :=
  MkSchema [MkColumn "name" StringType true None "" 0; MkColumn "added" BoolType true None "" 0;
            MkColumn "id" IntType false None "" 0] [] [] [] [] 0.

Definition fetchBatch (base : Z) (rows : list Row) : LogBatch :=
  MkLogBatch 1 base 1700000000123 5 2 false 3 4 (map (fun row => MkRecord [] row Insert (MkTime 0 0 0) 0) rows).

Definition writtenAs (b : LogBatch) : written := MkWritten logSchema b (bytesOr (LogBatch_EncodeRows b logSchema true)).

Definition fetchLog : list written :=
  [writtenAs (fetchBatch 10 [[VInt32 1; VString "a"]; [VInt32 2; VString "b"]]);
   writtenAs (fetchBatch 15 [[VInt32 3; VNil]])].

Definition fetchResolver (path : TablePath) (id : Z) : outcome Schema :=
  if String.eqb (tp_Table path) (tp_Table fetchPath) && (id =? 2) then Ok logSchema else Err ErrInvalidSchema.

Definition fetchExpected : list (list ScanRecord) :=
  let r offset row := MkScanRecord 3 (MkRecord [] row Insert (UnixMilliLocal (fun _ => 0) 1700000000123) offset) in
  [[r 11 [VString "b"; VNil; VInt32 2]]; [r 15 [VNil; VNil; VInt32 3]]].


Lemma scan_decode_returns_witness :
  returns (decodeFetchedLogBatchesWithResolver byteLibrary byteOps (fun _ => 0) fetchResolver fetchPath fetchTarget 3 0
    (zeros 100) (MkDecodeOptions true true)) = true.
Proof.
  apply scan_decode_returns. intros path id. unfold fetchResolver. case_match; (split; [done|]); [|done].
  by intros s [= <-].
Defined.

Lemma scan_decode_complete_witness :
  decodeFetchedFetchResponseWithResolver byteLibrary byteOps (fun _ => 0) fetchResolver fetchPath fetchTarget 3 11
    (concat (map wr_bytes fetchLog) ++ take 30 (wr_bytes (writtenAs (fetchBatch 16 [[VInt32 4; VNil]])))) true =
  Ok (16, concat fetchExpected, []).
Proof.
  refine (scan_decode_complete byteLibrary byteOps (fun _ => 0) fetchResolver fetchPath fetchTarget 3 true fetchLog
    fetchExpected 11 (writtenAs (fetchBatch 16 [[VInt32 4; VNil]])) 30 _ _ _ _ _ _).
  - repeat constructor; vm_compute; congruence.
  - repeat constructor; vm_compute; congruence.
  - apply Nat.ltb_lt. vm_compute. reflexivity.
  - repeat constructor.
  - vm_compute. repeat split; discriminate.
  - repeat constructor; vm_compute; reflexivity.
Defined.
