(* ===== verification/ScanBounds.v ===== *)
(** * Scan options, positions and bounds

    Models [pkg/fgo/log_scanner_options.go], [pkg/fgo/log_scanner_bounds.go] and [ScanOffset] of
    [pkg/fgo/log_scanner.go]: what a scan may be configured with, and how a row limit and
    stopping offsets cut what a fetch decoded. *)

From Stdlib Require Import Sorting.Sorted.
From stdpp Require Import sorting.
From S2P Require Import Prelude Model Wire Values Codec DecodeSafety RecordBatch Arrow Errors Partition ScanDecode.

(** ** Positions *)

Definition ScanFromOffset : Z := 0.
Definition ScanFromEarliest : Z := 1.
Definition ScanFromLatest : Z := 2.
Definition ScanFromTimestamp : Z := 3.

Record ScanOffset := MkScanOffset { so_Kind : Z; so_Offset : Z; so_Timestamp : Time }.

Definition noTime : Time := MkTime (-62135596800) 0 0.

Definition AtOffset (offset : Z) : ScanOffset := MkScanOffset ScanFromOffset offset noTime.
Definition Earliest : ScanOffset := MkScanOffset ScanFromEarliest 0 noTime.
Definition Latest : ScanOffset := MkScanOffset ScanFromLatest 0 noTime.
Definition AtTimestamp (timestamp : Time) : ScanOffset := MkScanOffset ScanFromTimestamp 0 timestamp.

Definition ScanOffset_Validate (s : ScanOffset) : outcome unit :=
  if so_Kind s =? ScanFromOffset then
    check (negb ((so_Offset s <? 0) || negb (Time_IsZero (so_Timestamp s)))) ErrInvalidConfig
  else if (so_Kind s =? ScanFromEarliest) || (so_Kind s =? ScanFromLatest) then
    check (negb (negb (so_Offset s =? 0) || negb (Time_IsZero (so_Timestamp s)))) ErrInvalidConfig
  else if so_Kind s =? ScanFromTimestamp then
    check (negb (Time_IsZero (so_Timestamp s) || negb (so_Offset s =? 0))) ErrInvalidConfig
  else Err ErrInvalidConfig.

(** ** Options *)

(** [Predicate] is the type of the server-side filters of [pkg/fgo/predicate.go]. *)
Section Options.
Context {Predicate : Type}.

Record LogScannerConfig := MkLogScannerConfig {
  lc_Projection : list string;
  lc_Partition : string;
  lc_FetchMaxBytes : Z;
  lc_FetchMaxBytesForBucket : Z;
  lc_FetchMinBytes : Z;
  lc_FetchWaitMaxTime : Z;
  lc_RowLimit : Z;
  lc_StoppingOffsets : option (gmap Z Z);
  lc_Filter : option Predicate;
}.

Definition LogScannerOption : Type := LogScannerConfig -> outcome LogScannerConfig.

Definition WithScanProjection (columns : list string) : LogScannerOption := fun c =>
  match columns with
  | [] => Err ErrInvalidConfig
  | _ => Ok (MkLogScannerConfig columns (lc_Partition c) (lc_FetchMaxBytes c) (lc_FetchMaxBytesForBucket c)
               (lc_FetchMinBytes c) (lc_FetchWaitMaxTime c) (lc_RowLimit c) (lc_StoppingOffsets c) (lc_Filter c))
  end.

Definition WithScanFilter (predicate : Predicate) : LogScannerOption := fun c =>
  Ok (MkLogScannerConfig (lc_Projection c) (lc_Partition c) (lc_FetchMaxBytes c) (lc_FetchMaxBytesForBucket c)
        (lc_FetchMinBytes c) (lc_FetchWaitMaxTime c) (lc_RowLimit c) (lc_StoppingOffsets c) (Some predicate)).

Definition setScanPartition (partition : string) (c : LogScannerConfig) : LogScannerConfig :=
  MkLogScannerConfig (lc_Projection c) partition (lc_FetchMaxBytes c) (lc_FetchMaxBytesForBucket c)
    (lc_FetchMinBytes c) (lc_FetchWaitMaxTime c) (lc_RowLimit c) (lc_StoppingOffsets c) (lc_Filter c).

Definition WithScanPartition (partition : string) : LogScannerOption := fun c =>
  _ ← PhysicalTablePath_Validate (MkPhysicalTablePath (MkTablePath "d" "t") partition);
  Ok (setScanPartition partition c).

Definition WithScanPartitionSpec (s : Schema) (spec : PartitionSpec) : LogScannerOption := fun c =>
  partition ← PartitionName s spec;
  Ok (setScanPartition partition c).

Definition WithLogFetchLimits (maxBytes maxBytesForBucket minBytes waitMaxTime : Z) : LogScannerOption := fun c =>
  if (maxBytes <=? 0) || (maxBytesForBucket <=? 0) || (minBytes <? 0) || (maxBytes <? minBytes)
     || (waitMaxTime <? 0) || (2147483647 <? Z.quot waitMaxTime 1000000) then Err ErrInvalidConfig
  else Ok (MkLogScannerConfig (lc_Projection c) (lc_Partition c) maxBytes maxBytesForBucket minBytes waitMaxTime
             (lc_RowLimit c) (lc_StoppingOffsets c) (lc_Filter c)).

Definition WithScanRowLimit (limit : Z) : LogScannerOption := fun c =>
  if limit <=? 0 then Err ErrInvalidConfig
  else Ok (MkLogScannerConfig (lc_Projection c) (lc_Partition c) (lc_FetchMaxBytes c) (lc_FetchMaxBytesForBucket c)
             (lc_FetchMinBytes c) (lc_FetchWaitMaxTime c) limit (lc_StoppingOffsets c) (lc_Filter c)).

Definition WithScanStoppingOffsets (offsets : gmap Z Z) : LogScannerOption := fun c =>
  if Z.of_nat (size offsets) =? 0 then Err ErrInvalidConfig
  else if existsb (fun e => (e.1 <? 0) || (e.2 <? 0)) (map_to_list offsets) then Err ErrInvalidConfig
  else Ok (MkLogScannerConfig (lc_Projection c) (lc_Partition c) (lc_FetchMaxBytes c) (lc_FetchMaxBytesForBucket c)
             (lc_FetchMinBytes c) (lc_FetchWaitMaxTime c) (lc_RowLimit c) (Some offsets) (lc_Filter c)).

Fixpoint applyScanOptions (options : list (option LogScannerOption)) (c : LogScannerConfig) : outcome LogScannerConfig :=
  match options with
  | [] => Ok c
  | None :: _ => Err ErrInvalidConfig
  | Some option :: options => c ← option c; applyScanOptions options c
  end.

Definition defaultScannerConfig : LogScannerConfig :=
  MkLogScannerConfig [] "" 16777216 1048576 1 500000000 0 None None.

Definition scannerConfig (options : list (option LogScannerOption)) : outcome LogScannerConfig :=
  applyScanOptions options defaultScannerConfig.

End Options.
Arguments LogScannerConfig : clear implicits.
Arguments LogScannerOption : clear implicits.

(** ** Bounds *)

Section Bounds.
Context {Rec Arr : Type} (library : ArrowLibrary Rec) (ops : ArrowOps Rec Arr).

Definition maxInt : Z := 2 ^ 63 - 1.

(** [batch.Record.NumRows()]. *)
Definition scanRows (a : ScanArrowBatch Rec) : outcome Z :=
  record ← recordOf (sa_Batch a); Ok (al_NumRows library record).

Fixpoint sumArrowRows (arrows : list (ScanArrowBatch Rec)) : outcome Z :=
  match arrows with
  | [] => Ok 0
  | a :: arrows => n ← scanRows a; rest ← sumArrowRows arrows; Ok (n + rest)
  end.

Definition scanResultRows (rows : list ScanRecord) (arrows : list (ScanArrowBatch Rec)) : outcome Z :=
  n ← sumArrowRows arrows; Ok (glen rows + n).

(** [scanSegment]: a row or an Arrow batch, at its offset.  The code keeps indices into the two
    slices; the model keeps what they index. *)
Inductive scanSegment :=
| RowSegment (row : ScanRecord)
| ArrowSegment (batch : ScanArrowBatch Rec).

Definition segmentOffset (s : scanSegment) : Z :=
  match s with
  | RowSegment row => rec_Offset (sr_Record row)
  | ArrowSegment batch => ab_BaseOffset (sa_Batch batch)
  end.

(** [slices.SortStableFunc] by offset. *)
Fixpoint insertSegment (s : scanSegment) (l : list scanSegment) : list scanSegment :=
  match l with
  | [] => [s]
  | s' :: l' => if segmentOffset s <=? segmentOffset s' then s :: l else s' :: insertSegment s l'
  end.

Definition sortSegments (l : list scanSegment) : list scanSegment := foldr insertSegment [] l.

Definition orderedScanSegments (rows : list ScanRecord) (arrows : list (ScanArrowBatch Rec)) : list scanSegment :=
  sortSegments (map RowSegment rows ++ map ArrowSegment arrows).

Record boundedScan := MkBoundedScan {
  bs_bucket : Z;
  bs_stop : Z;
  bs_remaining : Z;
  bs_delivered : Z;
  bs_next : Z;
  bs_rows : list ScanRecord;
  bs_arrows : list (ScanArrowBatch Rec);
}.

Definition appendScanRow (row : ScanRecord) (b : boundedScan) : boundedScan :=
  if (bs_remaining b <=? 0) || (bs_stop b <=? rec_Offset (sr_Record row)) then b
  else MkBoundedScan (bs_bucket b) (bs_stop b) (bs_remaining b - 1) (bs_delivered b + 1)
         (rec_Offset (sr_Record row) + 1) (bs_rows b ++ [row]) (bs_arrows b).

Definition appendScanArrow (item : ScanArrowBatch Rec) (b : boundedScan) : outcome boundedScan :=
  count ← scanRows item;
  let offset := ab_BaseOffset (sa_Batch item) in
  let room := int64 (bs_stop b - offset) in
  let allowed := if room <? count then room else count in
  let allowed := if bs_remaining b <? allowed then bs_remaining b else allowed in
  if allowed <=? 0 then Ok b
  else
    kept ← (if allowed =? count then Ok item
            else sliced ← sliceArrowLogBatch ops (sa_Batch item) 0 allowed; Ok (MkScanArrow (bs_bucket b) sliced));
    Ok (MkBoundedScan (bs_bucket b) (bs_stop b) (bs_remaining b - allowed) (bs_delivered b + allowed)
          (offset + allowed) (bs_rows b) (bs_arrows b ++ [kept])).

Fixpoint boundSegments (segments : list scanSegment) (b : boundedScan) : outcome boundedScan :=
  match segments with
  | [] => Ok b
  | RowSegment row :: segments => boundSegments segments (appendScanRow row b)
  | ArrowSegment batch :: segments => b ← appendScanArrow batch b; boundSegments segments b
  end.

(** [scanBounds]: what remains of the row limit, and the stopping offset. *)
Definition scanBounds {Predicate} (config : LogScannerConfig Predicate) (bucket delivered : Z) : Z * Z :=
  (if 0 <? lc_RowLimit config then lc_RowLimit config - delivered else maxInt,
   default maxInt (stops ← lc_StoppingOffsets config; stops !! bucket)).

Definition applyBounds {Predicate} (config : LogScannerConfig Predicate) (delivered bucket : Z)
    (rows : list ScanRecord) (arrows : list (ScanArrowBatch Rec)) (decodedNext : Z)
    : outcome (list ScanRecord * list (ScanArrowBatch Rec) * Z * Z) :=
  if (lc_RowLimit config =? 0) && (match lc_StoppingOffsets config with None => true | Some _ => false end) then
    n ← scanResultRows rows arrows; Ok (rows, arrows, n, decodedNext)
  else
    let '(remaining, stop) := scanBounds config bucket delivered in
    b ← boundSegments (orderedScanSegments rows arrows)
          (MkBoundedScan bucket stop remaining 0 decodedNext [] []);
    Ok (bs_rows b, bs_arrows b, bs_delivered b, if stop <? bs_next b then stop else bs_next b).

(** ** Disjoint, increasing offsets *)

Definition segmentSize (s : scanSegment) : Z :=
  match s with
  | RowSegment _ => 1
  | ArrowSegment batch => match ab_Record (sa_Batch batch) with Some r => al_NumRows library r | None => 0 end
  end.

(** [tiled from next segments]: the segments follow one another without overlap within
    [from, next). *)
Fixpoint tiled (from next : Z) (segments : list scanSegment) : Prop :=
  match segments with
  | [] => from <= next
  | s :: segments =>
    from <= segmentOffset s /\ 0 < segmentSize s /\ tiled (segmentOffset s + segmentSize s) next segments
  end.

Definition rowsOf (segments : list scanSegment) : list ScanRecord :=
  omap (fun s => match s with RowSegment row => Some row | _ => None end) segments.
Definition arrowsOf (segments : list scanSegment) : list (ScanArrowBatch Rec) :=
  omap (fun s => match s with ArrowSegment batch => Some batch | _ => None end) segments.

Fixpoint totalRows (segments : list scanSegment) : Z :=
  match segments with [] => 0 | s :: segments => segmentSize s + totalRows segments end.

(** How many rows of the segments lie below an offset. *)
Fixpoint rowsBelow (next : Z) (segments : list scanSegment) : Z :=
  match segments with
  | [] => 0
  | s :: segments => Z.max 0 (Z.min (segmentSize s) (next - segmentOffset s)) + rowsBelow next segments
  end.

(** Arrow records know as many changes as rows. *)
Definition changesKnown (s : scanSegment) : Prop :=
  match s with
  | RowSegment _ => True
  | ArrowSegment batch => exists r, ab_Record (sa_Batch batch) = Some r /\ al_NumRows library r = glen (ab_Changes (sa_Batch batch))
  end.

Lemma tiled_le segments : forall from next, tiled from next segments -> from <= next.
Proof.
  induction segments as [|s segments IH]; intros from next; cbn; [done|]. intros (? & ? & Ht%IH). lia.
Qed.

Lemma tiled_weaken segments from from' next : from' <= from -> tiled from next segments -> tiled from' next segments.
Proof. destruct segments; cbn; [lia|]. intros ? (? & ? & ?). split; [lia|done]. Qed.

Lemma tiled_app l1 l2 : forall from mid next, tiled from mid l1 -> tiled mid next l2 -> tiled from next (l1 ++ l2).
Proof.
  induction l1 as [|s l1 IH]; intros from mid next; cbn.
  - intros ?. by apply tiled_weaken.
  - intros (? & ? & Ht) H2. split; [done|]. split; [done|]. by eapply IH.
Qed.

Lemma tiled_above segments : forall from next s, tiled from next segments -> s ∈ segments ->
  from <= segmentOffset s /\ 0 < segmentSize s /\ segmentOffset s + segmentSize s <= next.
Proof.
  induction segments as [|s' segments IH]; intros from next s; cbn; [by intros _ ?%not_elem_of_nil|].
  intros (? & ? & Ht) [->|Hin]%elem_of_cons.
  - apply tiled_le in Ht. lia.
  - specialize (IH _ _ _ Ht Hin). lia.
Qed.

(** *** Sorting *)

Definition before (a b : scanSegment) : Prop := segmentOffset a <= segmentOffset b.

Lemma insertSegment_perm s l : insertSegment s l ≡ₚ s :: l.
Proof. induction l as [|s' l IH]; cbn; [done|]. case_match; [done|]. rewrite IH. by constructor. Qed.

Lemma insertSegment_sorted s l : StronglySorted before l -> StronglySorted before (insertSegment s l).
Proof.
  induction 1 as [|s' l Hs IH Hf]; cbn; [by repeat constructor|]. destruct (Z.leb_spec (segmentOffset s) (segmentOffset s')).
  - constructor; [by constructor|]. constructor; [done|]. eapply Forall_impl; [exact Hf|]. unfold before. cbn. lia.
  - constructor; [done|]. rewrite insertSegment_perm. constructor; [unfold before; lia|done].
Qed.

Lemma sortSegments_sorted l : StronglySorted before (sortSegments l) /\ sortSegments l ≡ₚ l.
Proof.
  induction l as [|s l [IH1 IH2]]; cbn; [split; [constructor|done]|]. split; [by apply insertSegment_sorted|].
  by rewrite insertSegment_perm, IH2.
Qed.

Lemma tiled_sorted segments : forall from next, tiled from next segments -> StronglySorted before segments.
Proof.
  induction segments as [|s segments IH]; intros from next; cbn; [constructor|]. intros (? & ? & Ht).
  constructor; [by eapply IH|]. apply Forall_forall. intros s' Hs'. destruct (tiled_above _ _ _ _ Ht Hs'). unfold before. lia.
Qed.

Lemma tiled_offset_inj segments : forall from next a b,
  tiled from next segments -> a ∈ segments -> b ∈ segments -> segmentOffset a = segmentOffset b -> a = b.
Proof.
  induction segments as [|s segments IH]; intros from next a b; cbn; [by intros _ ?%not_elem_of_nil|].
  intros (? & ? & Ht) [->|Ha]%elem_of_cons [->|Hb]%elem_of_cons E; [done| | |by eapply IH].
  - destruct (tiled_above _ _ _ _ Ht Hb). lia.
  - destruct (tiled_above _ _ _ _ Ht Ha). lia.
Qed.

Lemma segments_split segments : map RowSegment (rowsOf segments) ++ map ArrowSegment (arrowsOf segments) ≡ₚ segments.
Proof.
  induction segments as [|[row|batch] segments IH]; cbn; [done| |].
  - by apply perm_skip.
  - rewrite <- Permutation_middle. by apply perm_skip.
Qed.

(** Sorting what was decoded recovers the order in which it was decoded. *)
Lemma ordered_tiled segments from next :
  tiled from next segments -> orderedScanSegments (rowsOf segments) (arrowsOf segments) = segments.
Proof.
  intros Ht. unfold orderedScanSegments. destruct (sortSegments_sorted (map RowSegment (rowsOf segments) ++ map ArrowSegment (arrowsOf segments))) as [Hs Hp].
  pose proof (transitivity Hp (segments_split segments)) as Hq. eapply StronglySorted_unique_strong; [|exact Hs|by eapply tiled_sorted|exact Hq].
  intros a b Ha Hb H1 H2. rewrite Hq in Ha. eapply tiled_offset_inj; [exact Ht|done|done|]. unfold before in *. lia.
Qed.

(** *** Cutting at the bounds *)

(** What the library promises of the records it slices and makes. *)
Record ArrowOpsLaws : Prop := {
  ol_rows : forall r, 0 <= al_NumRows library r;
  ol_slice : forall r i j, 0 <= i <= j -> j <= al_NumRows library r -> al_NumRows library (ao_NewSlice ops r i j) = j - i;
  ol_batch : forall fields columns n, 0 <= n -> al_NumRows library (ao_NewRecordBatch ops fields columns n) = n;
}.
Context (laws : ArrowOpsLaws).

Lemma rowsBelow_above segments next from limit : tiled from limit segments -> next <= from -> rowsBelow next segments = 0.
Proof.
  revert from. induction segments as [|s segments IH]; intros from; cbn; [done|]. intros (? & ? & Ht) Hn.
  rewrite (IH _ Ht) by lia. lia.
Qed.

Lemma rowsBelow_all segments : forall from next, tiled from next segments -> rowsBelow next segments = totalRows segments.
Proof.
  induction segments as [|s segments IH]; intros from next; cbn; [done|]. intros (? & ? & Ht).
  rewrite (IH _ _ Ht). apply tiled_le in Ht. lia.
Qed.

Lemma totalRows_pos segments from next : tiled from next segments -> segments <> [] -> 0 < totalRows segments.
Proof.
  revert from. induction segments as [|s segments IH]; intros from; cbn; [done|]. intros (? & ? & Ht) _.
  destruct segments as [|s' segments]; [cbn; lia|]. specialize (IH _ Ht ltac:(done)). lia.
Qed.

(** The piece of a segment that the bounds leave. *)
Lemma append_segment s b from next :
  changesKnown s -> tiled from next [s] -> 0 <= from -> 0 <= bs_remaining b -> 0 <= bs_stop b <= maxInt -> next <= maxInt ->
  let allowed := Z.min (bs_remaining b) (Z.min (segmentSize s) (bs_stop b - segmentOffset s)) in
  exists b', (match s with RowSegment row => Ok (appendScanRow row b) | ArrowSegment batch => appendScanArrow batch b end) = Ok b' /\
  if allowed <=? 0 then b' = b
  else exists piece, changesKnown piece /\ segmentOffset piece = segmentOffset s /\ segmentSize piece = allowed /\
    b' = MkBoundedScan (bs_bucket b) (bs_stop b) (bs_remaining b - allowed) (bs_delivered b + allowed)
           (segmentOffset s + allowed) (bs_rows b ++ rowsOf [piece]) (bs_arrows b ++ arrowsOf [piece]).
Proof.
  intros Hk (Hf & Hs & Hn) H0 Hr Hstop Hmax. cbv zeta. cbn in Hn. destruct s as [row|batch].
  - eexists. split; [reflexivity|]. unfold appendScanRow. cbn [segmentOffset segmentSize] in *.
    set (allowed := Z.min _ _).
    destruct (Z.leb_spec allowed 0) as [La|La].
    + destruct (_ || _) eqn:E; [done|]. exfalso. subst allowed. lia.
    + replace ((bs_remaining b <=? 0) || _) with false by (subst allowed; lia).
      assert (allowed = 1) as -> by (subst allowed; lia). exists (RowSegment row). cbn. by rewrite app_nil_r.
  - destruct Hk as (r & Er & En). cbn [segmentOffset segmentSize] in *. rewrite Er in *.
    unfold appendScanArrow, scanRows, recordOf. rewrite Er. cbn [mbind outcome_bind].
    set (o := ab_BaseOffset (sa_Batch batch)) in *. set (n := al_NumRows library r) in *.
    unfold maxInt in *. set (allowed := Z.min (bs_remaining b) _).
    rewrite (swrap_small 64) by (unfold srange; lia).
    assert (Ha : (if bs_remaining b <? (if bs_stop b - o <? n then bs_stop b - o else n) then bs_remaining b
                  else (if bs_stop b - o <? n then bs_stop b - o else n)) = allowed) by (subst allowed; repeat case_match; lia).
    rewrite Ha. destruct (Z.leb_spec allowed 0) as [La|La]; [eauto|].
    destruct (Z.eqb_spec allowed n) as [En'|Nn]; cbn [mbind outcome_bind].
    + eexists. split; [reflexivity|]. exists (ArrowSegment batch). split; [by exists r|]. cbn. rewrite Er. by rewrite app_nil_r.
    + unfold sliceArrowLogBatch, recordOf. rewrite Er. cbn [mbind outcome_bind].
      destruct (slice_safe (ab_Changes (sa_Batch batch)) 0 allowed) as [cs Ecs]; [lia|subst allowed; lia|].
      rewrite Ecs. cbn [mbind outcome_bind]. eexists. split; [reflexivity|].
      exists (ArrowSegment (MkScanArrow (bs_bucket b) (setRecord (sa_Batch batch) (int64 (o + 0)) (ao_NewSlice ops r 0 allowed) cs))).
      assert (Hsl : al_NumRows library (ao_NewSlice ops r 0 allowed) = allowed).
      { rewrite (ol_slice laws) by (subst allowed; lia). lia. }
      split; [|split; [|split]]; cbn.
      * eexists. split; [reflexivity|]. rewrite Hsl. apply slice_glen in Ecs. lia.
      * rewrite Z.add_0_r. apply (swrap_small 64); [lia|]. unfold srange. lia.
      * done.
      * by rewrite app_nil_r.
Qed.

Lemma rowsOf_app l1 l2 : rowsOf (l1 ++ l2) = rowsOf l1 ++ rowsOf l2.
Proof. apply omap_app. Qed.
Lemma arrowsOf_app l1 l2 : arrowsOf (l1 ++ l2) = arrowsOf l1 ++ arrowsOf l2.
Proof. apply omap_app. Qed.

Lemma boundSegments_cons s segments b :
  boundSegments (s :: segments) b =
  (b' ← (match s with RowSegment row => Ok (appendScanRow row b) | ArrowSegment batch => appendScanArrow batch b end);
   boundSegments segments b').
Proof. by destruct s. Qed.

(** What the loop keeps: a prefix of the segments, the last one possibly cut. *)
Definition cutTo (from limit : Z) (segments : list scanSegment) (b b' : boundedScan) (kept : list scanSegment) : Prop :=
  bs_rows b' = bs_rows b ++ rowsOf kept /\ bs_arrows b' = bs_arrows b ++ arrowsOf kept /\
  bs_delivered b' = bs_delivered b + totalRows kept /\ 0 <= bs_remaining b - totalRows kept /\ Forall changesKnown kept /\
  match kept with
  | [] => bs_next b' = bs_next b /\ (bs_remaining b = 0 \/ Forall (fun s => bs_stop b <= segmentOffset s) segments)
  | _ => from < bs_next b' <= bs_stop b /\ bs_next b' <= limit /\ tiled from (bs_next b') kept /\
         rowsBelow (bs_next b') segments = totalRows kept
  end.

Lemma boundSegments_spec segments : forall b from limit,
  Forall changesKnown segments -> tiled from limit segments -> 0 <= from -> limit <= maxInt ->
  0 <= bs_remaining b -> 0 <= bs_stop b <= maxInt ->
  exists b' kept, boundSegments segments b = Ok b' /\ cutTo from limit segments b b' kept.
Proof.
  induction segments as [|s segments IH]; intros b from limit Hk Ht H0 Hl Hr Hs.
  - exists b, []. split; [done|]. unfold cutTo. cbn. rewrite !app_nil_r, Z.add_0_r, Z.sub_0_r. repeat split; auto.
  - apply Forall_cons in Hk as [Hks Hk]. destruct Ht as (Hf & Hz & Ht). pose proof (tiled_le _ _ _ Ht) as Hle.
    rewrite boundSegments_cons. set (o := segmentOffset s) in *. set (n := segmentSize s) in *.
    destruct (append_segment s b from limit) as (b1 & E1 & H1); [done|by cbn; fold o n|done..|]. fold o n in H1. cbv zeta in H1.
    rewrite E1. cbn [mbind outcome_bind]. set (allowed := Z.min (bs_remaining b) (Z.min n (bs_stop b - o))) in *.
    destruct (Z.leb_spec allowed 0) as [La|La].
    + subst b1. destruct (IH b (o + n) limit) as (b' & kept & E & Hr1 & Hr2 & Hr3 & Hr4 & Hr5 & Hr6); try done; [lia|].
      exists b', kept. split; [done|]. unfold cutTo. do 5 (split; [done|]).
      assert (kept = []) as ->.
      { destruct kept as [|k kept]; [done|]. exfalso. destruct Hr6 as (Hb & _ & Hkt & _).
        pose proof (totalRows_pos _ _ _ Hkt ltac:(done)). subst allowed. lia. }
      destruct Hr6 as [Hn Hor]. split; [done|]. destruct (decide (bs_remaining b = 0)) as [|Nr]; [by left|].
      right. constructor; [fold o; subst allowed; lia|]. by destruct Hor.
    + destruct H1 as (piece & Hkp & Hpo & Hpn & ->).
      destruct (IH (MkBoundedScan (bs_bucket b) (bs_stop b) (bs_remaining b - allowed) (bs_delivered b + allowed)
        (o + allowed) (bs_rows b ++ rowsOf [piece]) (bs_arrows b ++ arrowsOf [piece])) (o + n) limit)
        as (b' & kept & E & Hr1 & Hr2 & Hr3 & Hr4 & Hr5 & Hr6); try done; [lia|cbn; lia|]. cbn [bs_rows bs_arrows bs_delivered bs_remaining bs_next bs_stop] in *.
      exists b', (piece :: kept). split; [exact E|]. unfold cutTo.
      change (piece :: kept) with ([piece] ++ kept). rewrite rowsOf_app, arrowsOf_app, Hr1, Hr2, Hr3, !app_assoc.
      cbn [app totalRows foldr]. rewrite Hpn.
      split; [done|]. split; [done|]. split; [lia|]. split; [lia|]. split; [by constructor|].
      cbn [tiled rowsBelow foldr]. rewrite Hpo, Hpn. fold o n.
      destruct kept as [|k kept].
      * destruct Hr6 as [-> _]. cbn [tiled totalRows foldr]. rewrite (rowsBelow_above segments (o + allowed) (o + n) limit Ht) by lia.
        subst allowed. lia.
      * destruct Hr6 as (Hb & Hb2 & Hkt & Hrb). pose proof (totalRows_pos _ _ _ Hkt ltac:(done)) as Hp.
        assert (Ea : allowed = n) by (subst allowed; lia). rewrite Ea, Hrb. split; [lia|]. split; [lia|]. split; [|lia].
        split; [lia|]. split; [lia|done].
Qed.

(** *** [applyBounds] *)

Definition stopOf {Predicate} (config : LogScannerConfig Predicate) (bucket : Z) : Z :=
  default maxInt (stops ← lc_StoppingOffsets config; stops !! bucket).

Definition boundsOK {Predicate} (config : LogScannerConfig Predicate) : Prop :=
  0 <= lc_RowLimit config <= maxInt /\ forall bucket, 0 <= stopOf config bucket <= maxInt.

Lemma totalRows_result segments : Forall changesKnown segments ->
  scanResultRows (rowsOf segments) (arrowsOf segments) = Ok (totalRows segments).
Proof.
  intros Hk. unfold scanResultRows.
  assert (exists n, sumArrowRows (arrowsOf segments) = Ok n /\ glen (rowsOf segments) + n = totalRows segments) as (n & -> & <-); [|done].
  induction Hk as [|[row|batch] segments Hs Hk (n & E & En)]; cbn; [eauto| |].
  - exists n. split; [exact E|]. rewrite <- En. unfold rowsOf. cbn. rewrite glen_cons. lia.
  - destruct Hs as (r & Er & _). unfold scanRows, recordOf. rewrite Er. cbn. unfold arrowsOf in E. rewrite E. cbn.
    eexists. split; [reflexivity|]. rewrite <- En. unfold rowsOf. lia.
Qed.

Lemma applyBounds_spec {Predicate} (config : LogScannerConfig Predicate) delivered bucket segments from limit :
  Forall changesKnown segments -> tiled from limit segments -> 0 <= from -> limit <= maxInt ->
  boundsOK config -> (0 < lc_RowLimit config -> 0 <= delivered < lc_RowLimit config) -> from <= stopOf config bucket ->
  exists kept next, applyBounds config delivered bucket (rowsOf segments) (arrowsOf segments) limit =
      Ok (rowsOf kept, arrowsOf kept, totalRows kept, next) /\
    tiled from next kept /\ Forall changesKnown kept /\ totalRows kept = rowsBelow next segments /\
    next <= Z.min limit (stopOf config bucket) /\ (from < Z.min limit (stopOf config bucket) -> from < next) /\
    (0 < lc_RowLimit config -> delivered + totalRows kept <= lc_RowLimit config).
Proof.
  intros Hk Ht H0 Hl [HR HS] Hd Hst. unfold applyBounds. specialize (HS bucket).
  destruct ((lc_RowLimit config =? 0) && _) eqn:Eb.
  - apply andb_true_iff in Eb as [E1 E2]. destruct (lc_StoppingOffsets config) eqn:Es; [done|].
    rewrite totalRows_result by done. cbn. exists segments, limit. split; [done|]. split; [done|]. split; [done|].
    split; [symmetry; by eapply rowsBelow_all|]. unfold stopOf in *. rewrite Es in *. cbn in *. lia.
  - unfold scanBounds. fold (stopOf config bucket).
    set (remaining := if 0 <? lc_RowLimit config then _ else _).
    assert (Hr : 0 < remaining /\ (0 < lc_RowLimit config -> remaining = lc_RowLimit config - delivered)).
    { subst remaining. unfold maxInt. destruct (Z.ltb_spec 0 (lc_RowLimit config)); lia. }
    destruct Hr as [Hr1 Hr2]. rewrite (ordered_tiled segments from limit Ht).
    destruct (boundSegments_spec segments (MkBoundedScan bucket (stopOf config bucket) remaining 0 limit [] []) from limit)
      as (b & kept & E & C1 & C2 & C3 & C4 & C5 & C6); try done; [cbn; lia|]. rewrite E. cbn in C1, C2, C3, C4, C6 |- *.
    rewrite C1, C2, C3. clear C1 C2 C3. destruct kept as [|k kept].
    + destruct C6 as [-> C6]. exists [], (Z.min limit (stopOf config bucket)). cbn in C4 |- *.
      pose proof (tiled_le _ _ _ Ht). split; [do 2 f_equal; destruct (Z.ltb_spec (stopOf config bucket) limit); lia|].
      split; [lia|]. split; [done|].
      split; [|lia]. symmetry. destruct C6 as [C6|C6]; [lia|]. clear -C6.
      induction segments as [|s segments IH]; cbn; [done|]. apply Forall_cons in C6 as [Cs C6]. rewrite (IH C6). lia.
    + destruct C6 as (N1 & N2 & N3 & N4). exists (k :: kept), (bs_next b).
      split; [do 2 f_equal; destruct (Z.ltb_spec (stopOf config bucket) (bs_next b)); lia|].
      split; [done|]. split; [done|]. split; [by rewrite N4|]. cbn in *. lia.
Qed.

End Bounds.
Arguments scanSegment : clear implicits.

(** ** What a fetch decodes is tiled

    Whatever the bytes: the decoder skips what it has passed, so that what it delivers lies at
    increasing, disjoint offsets between the fetch offset and the next one. *)

Lemma decodeLogRecords_offsets zone s base time encoded compacted n : forall position i records p,
  decodeLogRecords zone s base time encoded compacted n position i = Ok (records, p) ->
  forall k r, records !! k = Some r -> rec_Offset r = int64 (base + i + Z.of_nat k).
Proof.
  induction n as [|n IH]; intros position i records p E k r Hk; cbn in E; [by inv_ok|].
  apply bind_Ok in E as ([record next] & Er & E). apply bind_Ok in E as ([rest p'] & E' & E). injection E as <- <-.
  destruct k as [|k]; cbn in Hk.
  - injection Hk as <-. unfold decodeLogRecord in Er. case_match; [done|]. inv_ok. case_match; [done|]. inv_ok.
    cbn. f_equal. lia.
  - rewrite (IH _ _ _ _ E' k r Hk). f_equal. lia.
Qed.

Lemma DecodeLogBatchRows_offsets zone s encoded compacted b :
  DecodeLogBatchRows zone s encoded compacted = Ok b ->
  srange 64 (lb_BaseOffset b) = true /\
  forall k r, lb_Records b !! k = Some r -> rec_Offset r = int64 (lb_BaseOffset b + Z.of_nat k).
Proof.
  unfold DecodeLogBatchRows. intros E. apply bind_Ok in E as ([[magic headerSize] so] & _ & E).
  apply bind_Ok in E as (count & _ & E). case_match; [done|]. do 7 apply bind_Ok in E as (? & _ & E).
  apply bind_Ok in E as ([records position] & Er & E). case_match; [done|]. injection E as <-. cbn.
  split; [by apply swrap_srange|]. intros k r Hk. rewrite (decodeLogRecords_offsets _ _ _ _ _ _ _ _ _ _ _ Er k r Hk). f_equal. lia.
Qed.

Lemma DecodeArrow_base {Rec} (library : ArrowLibrary Rec) schema encoded b :
  DecodeArrowLogBatch library schema encoded = Ok b -> srange 64 (ab_BaseOffset b) = true.
Proof.
  unfold DecodeArrowLogBatch. destruct schema; [|done]. intros E.
  apply bind_Ok in E as ([[[magic headerSize] crcOffset] so] & _ & E). do 3 apply bind_Ok in E as (? & _ & E).
  case_match; [done|]. do 2 apply bind_Ok in E as (? & _ & E). case_match; [done|].
  apply bind_Ok in E as ([changes position] & _ & E). do 8 apply bind_Ok in E as (? & _ & E).
  injection E as <-. by apply swrap_srange.
Qed.

Section Tiling.
Context {Rec Arr : Type} (library : ArrowLibrary Rec) (ops : ArrowOps Rec Arr) (laws : ArrowOpsLaws library ops) (zone : Z -> Z).

(** What was decoded from [from] on, in order. *)
Definition decodedAs (from next : Z) (rows : list ScanRecord) (arrows : list (ScanArrowBatch Rec)) : Prop :=
  exists segments, tiled library from next segments /\ rowsOf segments = rows /\ arrowsOf segments = arrows /\
    Forall (changesKnown library) segments.

Lemma rows_tiled bucket rows : forall o,
  (forall k r, rows !! k = Some r -> rec_Offset r = o + Z.of_nat k) ->
  tiled library o (o + glen rows) (map (fun r => RowSegment (MkScanRecord bucket r)) rows).
Proof.
  induction rows as [|r rows IH]; intros o Ho; cbn; [rewrite glen_nil; lia|].
  rewrite (Ho 0%nat r eq_refl), Z.add_0_r. split; [lia|]. split; [lia|]. rewrite glen_cons.
  replace (o + (1 + glen rows)) with (o + 1 + glen rows) by lia. apply IH.
  intros k r' Hk. rewrite (Ho (S k) r' Hk). lia.
Qed.

Lemma rowsOf_rows bucket (rows : list Record_) :
  rowsOf (Rec := Rec) (map (fun r => RowSegment (MkScanRecord bucket r)) rows) = map (MkScanRecord bucket) rows /\
  arrowsOf (Rec := Rec) (map (fun r => RowSegment (MkScanRecord bucket r)) rows) = [].
Proof. induction rows as [|r rows [IH1 IH2]]; [done|]. split; [exact (f_equal (cons _) IH1)|exact IH2]. Qed.

Lemma decodeRows_tiled s bucket current payload compacted b start next records :
  DecodeLogBatchRows zone s payload compacted = Ok b ->
  fetchedBatchOffsets (lb_BaseOffset b) (glen (lb_Records b)) current = Ok (start, next) ->
  slice_from (lb_Records b) start = Ok records ->
  decodedAs current next (map (MkScanRecord bucket) records) [] /\ next <= Z.max current maxInt.
Proof.
  intros [Hb Ho]%DecodeLogBatchRows_offsets Hf Hs. unfold srange in Hb.
  apply fetchedBatchOffsets_Ok in Hf as Hf'. destruct Hf' as (Hc & Hst & Hz & Hp).
  unfold slice_from in Hs. apply slice_glen in Hs as Hg. apply slice_Ok in Hs as (_ & _ & Er).
  destruct (Z.eqb_spec (glen (lb_Records b)) 0) as [E0|N0].
  - rewrite (Hz E0). split; [|lia]. assert (records = []) as -> by (apply glen_0_nil; lia).
    exists []. repeat split; try done. cbn. lia.
  - destruct (Hp ltac:(lia)) as [-> Es].
    assert (Hm : lb_BaseOffset b + glen (lb_Records b) <= maxInt).
    { unfold fetchedBatchOffsets, maxInt64, maxInt in *. repeat case_match; try done; lia. }
    split; [|lia]. exists (map (fun r => RowSegment (MkScanRecord bucket r)) records).
    destruct (rowsOf_rows bucket records) as [-> ->]. split; [|split; [done|split; [done|]]].
    + destruct (decide (records = [])) as [->|Nr]; [cbn; lia|].
      assert (0 < glen records) by (destruct records; [done|]; rewrite glen_cons; pose proof (glen_nonneg records); lia).
      assert (Hend : Z.max current (lb_BaseOffset b + glen (lb_Records b)) = lb_BaseOffset b + start + glen records) by lia.
      rewrite Hend. eapply tiled_weaken; [|apply (rows_tiled bucket)]; [lia|].
      intros k r Hk. assert (Hk' : lb_Records b !! (Z.to_nat start + k)%nat = Some r).
      { rewrite Er in Hk. rewrite <- lookup_drop. rewrite take_ge in Hk by (rewrite length_drop; unfold glen; lia). done. }
      rewrite (Ho _ _ Hk'). apply lookup_lt_Some in Hk'. unfold glen, maxInt in *.
      change (2 ^ (64 - 1)) with (2 ^ 63) in Hb.
      rewrite (swrap_small 64); [lia|done|]. unfold srange. change (2 ^ (64 - 1)) with (2 ^ 63).
      clear -Hb Hm Hk' Hst. rewrite Nat2Z.inj_add, Z2Nat.id by lia. lia.
    + apply Forall_forall. intros x (r & -> & _)%list_elem_of_fmap. done.
Qed.

Lemma single_arrow_tiled current next (a : ScanArrowBatch Rec) r :
  ab_Record (sa_Batch a) = Some r -> al_NumRows library r = glen (ab_Changes (sa_Batch a)) -> 0 < al_NumRows library r ->
  current <= ab_BaseOffset (sa_Batch a) -> ab_BaseOffset (sa_Batch a) + al_NumRows library r <= next ->
  decodedAs current next [] [a].
Proof.
  intros Er En Hn Hc He. exists [ArrowSegment a]. cbn. rewrite Er. split; [lia|]. split; [done|]. split; [done|].
  repeat constructor. by exists r.
Qed.

Lemma decodeArrow_tiled s bucket current payload compacted rowErr next rows a :
  DecodeLogBatchRows zone s payload compacted = Err rowErr ->
  decodeFetchedArrow library ops rowErr s bucket current payload = Ok (next, rows, a) ->
  decodedAs current next rows (option_list a) /\ next <= Z.max current maxInt.
Proof.
  intros Hrow E. unfold decodeFetchedArrow in E. apply bind_Ok in E as (fields & _ & E).
  destruct (DecodeArrowLogBatch library (Some fields) payload) as [batch|e| |] eqn:Ed; try done.
  destruct (decodedArrow_record library zone s fields payload compacted batch rowErr Hrow Ed) as (r & Er & En).
  apply DecodeArrow_base in Ed. unfold srange in Ed. change (2 ^ (64 - 1)) with (2 ^ 63) in Ed.
  unfold recordOf in E. rewrite Er in E. cbn [mbind outcome_bind] in E. set (n := al_NumRows library r) in *.
  apply bind_Ok in E as ([start nx] & Ho & E). pose proof Ho as Ho'. apply fetchedBatchOffsets_Ok in Ho' as (Hc & Hst & Hz & Hp).
  destruct (Z.eqb_spec start n) as [Es|Ns].
  - injection E as <- <- <-. split.
    + exists []. cbn. repeat split; try done. destruct (Z.eqb_spec n 0); [rewrite Hz by done|destruct Hp as [-> _]; [lia|]]; lia.
    + destruct (Z.eqb_spec n 0) as [Ez|Nz]; [rewrite (Hz Ez); lia|]. destruct Hp as [-> Est]; [lia|].
      unfold fetchedBatchOffsets, maxInt64, maxInt in *. repeat case_match; try done; lia.
  - destruct Hp as [Enx Est]; [lia|].
    assert (Hm : ab_BaseOffset batch + n <= maxInt).
    { unfold fetchedBatchOffsets, maxInt64, maxInt in *. repeat case_match; try done; lia. }
    destruct (Z.ltb_spec 0 start) as [L0|L0].
    + unfold sliceArrowLogBatch, recordOf in E. rewrite Er in E. cbn [mbind outcome_bind] in E.
      apply bind_Ok in E as (sliced & Esl & E). apply bind_Ok in Esl as (cs & Ecs & Esl). injection Esl as <-.
      injection E as <- <- <-. split; [|lia]. apply slice_glen in Ecs.
      assert (Hsl : al_NumRows library (ao_NewSlice ops r start n) = n - start) by (apply (ol_slice library ops laws); lia).
      assert (Hbase : int64 (ab_BaseOffset batch + start) = ab_BaseOffset batch + start).
      { apply (swrap_small 64); [done|]. unfold srange, maxInt in *. change (2 ^ (64 - 1)) with (2 ^ 63). lia. }
      eapply single_arrow_tiled; [reflexivity|..]; cbn; rewrite ?Hbase, ?Hsl; lia.
    + cbn [mbind outcome_bind] in E. injection E as <- <- <-. split; [|lia].
      eapply single_arrow_tiled; [exact Er|..]; cbn; fold n; lia.
Qed.

Lemma decodeFetchedBatch_tiled s bucket current payload compacted next rows a :
  decodeFetchedBatch library ops zone s bucket current payload compacted = Ok (next, rows, a) ->
  decodedAs current next rows (option_list a) /\ next <= Z.max current maxInt.
Proof.
  unfold decodeFetchedBatch. destruct (DecodeLogBatchRows zone s payload compacted) as [b|e| |] eqn:Ed; try done.
  - intros E. apply bind_Ok in E as ([start nx] & Ho & E). apply bind_Ok in E as (records & Es & E).
    injection E as <- <- <-. by eapply decodeRows_tiled.
  - by apply decodeArrow_tiled with (compacted := compacted).
Qed.

(** *** Evolution keeps offsets and sizes *)

Definition sameTile (x y : scanSegment Rec) : Prop :=
  segmentOffset x = segmentOffset y /\ segmentSize library x = segmentSize library y.

Lemma tiled_same xs ys from next : Forall2 sameTile xs ys -> tiled library from next xs -> tiled library from next ys.
Proof.
  intros F. revert from. induction F as [|x y xs ys [E1 E2] F IH]; intros from; cbn; [done|].
  rewrite <- E1, <- E2. intros (? & ? & ?). auto.
Qed.

(** Rows and batches changed one by one, without moving them, are tiled as before. *)
Lemma decodedAs_same from next rows rows' arrows arrows' :
  decodedAs from next rows arrows ->
  Forall2 (fun r r' => rec_Offset (sr_Record r) = rec_Offset (sr_Record r')) rows rows' ->
  Forall2 (fun a a' => ab_BaseOffset (sa_Batch a) = ab_BaseOffset (sa_Batch a') /\ ab_Changes (sa_Batch a) = ab_Changes (sa_Batch a') /\
    exists r r', ab_Record (sa_Batch a) = Some r /\ ab_Record (sa_Batch a') = Some r' /\ al_NumRows library r = al_NumRows library r') arrows arrows' ->
  decodedAs from next rows' arrows'.
Proof.
  intros (segments & Ht & <- & <- & Hk) Fr Fa.
  assert (exists segments', Forall2 sameTile segments segments' /\ rowsOf segments' = rows' /\ arrowsOf segments' = arrows' /\
    Forall (changesKnown library) segments') as (segments' & F & E1 & E2 & Hk'); [|exists segments'; eauto using tiled_same].
  clear Ht. revert rows' arrows' Fr Fa. induction Hk as [|[row|batch] segments Hs Hk IH]; intros rows' arrows' Fr Fa.
  - apply Forall2_nil_inv_l in Fr as ->. apply Forall2_nil_inv_l in Fa as ->. exists []. repeat split; constructor.
  - apply Forall2_cons_inv_l in Fr as (row' & rows1 & Eo & Fr & ->).
    destruct (IH rows1 arrows' Fr Fa) as (segments' & F & E1 & E2 & Hk'). exists (RowSegment row' :: segments').
    split; [constructor; [done|done]|]. split; [exact (f_equal (cons row') E1)|]. split; [exact E2|]. by constructor.
  - apply Forall2_cons_inv_l in Fa as (batch' & arrows1 & (Eo & Ec & r & r' & Er & Er' & En) & Fa & ->).
    destruct (IH rows' arrows1 Fr Fa) as (segments' & F & E1 & E2 & Hk'). exists (ArrowSegment batch' :: segments').
    split; [constructor; [|done]|]. { split; [done|]. cbn. by rewrite Er, Er'. }
    split; [exact E1|]. split; [exact (f_equal (cons batch') E2)|]. constructor; [|done].
    destruct Hs as (r0 & Er0 & En0). exists r'. split; [done|]. rewrite <- En, <- Ec. congruence.
Qed.

Lemma evolveScanRecords_offsets records source target : forall records',
  evolveScanRecords records source target = Ok records' ->
  Forall2 (fun r r' => rec_Offset (sr_Record r) = rec_Offset (sr_Record r')) records records'.
Proof.
  induction records as [|r records IH]; intros records' E; cbn in E; inv_ok; constructor; [done|by apply IH].
Qed.

Lemma evolveArrow_kept (batch batch' : ArrowLogBatch Rec) r source target :
  ab_Record batch = Some r -> 0 <= al_NumRows library r ->
  evolveArrowBatch library ops batch source target = Ok batch' ->
  ab_BaseOffset batch = ab_BaseOffset batch' /\ ab_Changes batch = ab_Changes batch' /\
  exists r', ab_Record batch' = Some r' /\ al_NumRows library r = al_NumRows library r'.
Proof.
  intros Er Hn E. unfold evolveArrowBatch, recordOf in E. rewrite Er in E. inv_ok. cbn. split; [done|]. split; [done|].
  eexists. split; [reflexivity|]. by rewrite (ol_batch library ops laws).
Qed.

Context (resolveSchema : TablePath -> Z -> outcome Schema).

Lemma arrow_known from next rows (a : ScanArrowBatch Rec) arrows :
  decodedAs from next rows (a :: arrows) -> exists r, ab_Record (sa_Batch a) = Some r /\ 0 <= al_NumRows library r.
Proof.
  intros (segments & Ht & _ & Ea & Hk).
  assert (Hin : ArrowSegment a ∈ segments).
  { assert (a ∈ arrowsOf segments) as Hin by (rewrite Ea; left). unfold arrowsOf in Hin. apply list_elem_of_omap in Hin as (s & Hs & E).
    destruct s; [done|]. by injection E as ->. }
  rewrite Forall_forall in Hk. destruct (Hk _ Hin) as (r & Er & _). exists r. split; [done|].
  destruct (tiled_above _ _ _ _ _ Ht Hin) as (_ & Hp & _). cbn in Hp. rewrite Er in Hp. lia.
Qed.

Lemma decodeEvolved_tiled path target bucket offset payload compacted next rows a :
  decodeEvolvedFetchedBatch library ops zone resolveSchema path target bucket offset payload compacted = Ok (next, rows, a) ->
  decodedAs offset next rows (option_list a) /\ next <= Z.max offset maxInt.
Proof.
  unfold decodeEvolvedFetchedBatch. intros E. apply bind_Ok in E as ([[magic headerSize] so] & _ & E).
  do 2 apply bind_Ok in E as (? & _ & E). apply bind_Ok in E as ([[nx rows0] a0] & Ed & E).
  apply decodeFetchedBatch_tiled in Ed as [Ht Hm]. apply bind_Ok in E as (rows1 & Er & E). apply evolveScanRecords_offsets in Er.
  destruct a0 as [a0|].
  - apply bind_Ok in E as (batch & Ea & E). injection E as <- <- <-. split; [|done].
    destruct (arrow_known _ _ _ _ _ Ht) as (r & Hr & Hn).
    destruct (evolveArrow_kept _ _ _ _ _ Hr Hn Ea) as (E1 & E2 & r' & E3 & E4).
    eapply decodedAs_same; [exact Ht|exact Er|]. repeat constructor; try done. cbn. eauto 8.
  - injection E as <- <- <-. split; [|done]. eapply decodedAs_same; [exact Ht|exact Er|constructor].
Qed.

Lemma decodedAs_app from mid next rows1 rows2 arrows1 arrows2 :
  decodedAs from mid rows1 arrows1 -> decodedAs mid next rows2 arrows2 ->
  decodedAs from next (rows1 ++ rows2) (arrows1 ++ arrows2).
Proof.
  intros (s1 & T1 & <- & <- & K1) (s2 & T2 & <- & <- & K2). exists (s1 ++ s2).
  split; [by eapply tiled_app|]. rewrite rowsOf_app, arrowsOf_app. split; [done|]. split; [done|]. by apply Forall_app.
Qed.

Lemma decodeLoop_tiled path target bucket options : forall fuel from encoded next rows arrows,
  decodeLoop library ops zone resolveSchema fuel path target bucket from encoded options = Ok (next, rows, arrows) ->
  decodedAs from next rows arrows /\ next <= Z.max from maxInt.
Proof.
  assert (Hnil : forall from, decodedAs from from [] [] /\ from <= Z.max from maxInt).
  { intros from. split; [|lia]. exists []. cbn. by repeat split. }
  induction fuel as [|fuel IH]; intros from encoded next rows arrows E; cbn [decodeLoop] in E.
  - case_match; [|done]. injection E as <- <- <-. apply Hnil.
  - case_match; [injection E as <- <- <-; apply Hnil|]. apply bind_Ok in E as ([size complete] & _ & E).
    destruct complete; cbn [negb] in E; [|case_match; [injection E as <- <- <-; apply Hnil|done]].
    apply bind_Ok in E as (payload & _ & E). apply bind_Ok in E as ([[bn br] a] & Ed & E).
    apply decodeEvolved_tiled in Ed as [T1 M1]. apply bind_Ok in E as (tail & _ & E).
    apply bind_Ok in E as ([[last rows2] arrows2] & El & E). apply IH in El as [T2 M2]. injection E as <- <- <-.
    split; [|lia]. replace (match a with Some a => a :: arrows2 | None => arrows2 end) with (option_list a ++ arrows2) by (by destruct a).
    by eapply decodedAs_app.
Qed.

End Tiling.

(** The bounds cut exactly.  What a row limit and stopping offsets leave of a decoded fetch
    is tiled like it from the fetch offset to the next one, holds as many rows as the fetch has
    below that offset, keeps to both bounds, and makes progress unless there is nothing to
    read below the stop. *)
Theorem scan_bounds_exact {Rec Arr Predicate} (library : ArrowLibrary Rec) (ops : ArrowOps Rec Arr)
    (config : LogScannerConfig Predicate) delivered bucket segments from limit :
  ArrowOpsLaws library ops -> Forall (changesKnown library) segments -> tiled library from limit segments ->
  0 <= from -> limit <= maxInt -> boundsOK config ->
  (0 < lc_RowLimit config -> 0 <= delivered < lc_RowLimit config) -> from <= stopOf config bucket ->
  exists kept next, applyBounds library ops config delivered bucket (rowsOf segments) (arrowsOf segments) limit =
      Ok (rowsOf kept, arrowsOf kept, totalRows library kept, next) /\
    tiled library from next kept /\ totalRows library kept = rowsBelow library next segments /\
    next <= Z.min limit (stopOf config bucket) /\ (from < Z.min limit (stopOf config bucket) -> from < next) /\
    (0 < lc_RowLimit config -> delivered + totalRows library kept <= lc_RowLimit config).
Proof.
  intros. destruct (applyBounds_spec library ops H config delivered bucket segments from limit) as (kept & next & ? & ? & _ & ?); eauto 6.
Qed.

(** ** Examples *)

Definition boundedConfig : LogScannerConfig unit := MkLogScannerConfig [] "" 1 1 1 0 5 (Some {[2 := 40]}) None.

Definition boundedFetch : list (scanSegment (list byte)) :=
  let row offset := RowSegment (MkScanRecord 2 (MkRecord [] [] Insert (MkTime 0 0 0) offset)) in
  [row 30; row 32;
   ArrowSegment (MkScanArrow 2 (MkArrowLogBatch 1 33 0 3 7 true 1 1 (Some (zeros 4)) (replicate 4 Insert)))].


Lemma byteOps_laws : ArrowOpsLaws byteLibrary byteOps.
Proof.
  split; cbn; unfold glen.
  - lia.
  - intros r i j ? ?. rewrite length_take, length_drop. lia.
  - intros _ columns n ?. rewrite length_resize. lia.
Qed.

Lemma scan_bounds_exact_witness :
  exists kept next, applyBounds byteLibrary byteOps boundedConfig 0 2 (rowsOf boundedFetch) (arrowsOf boundedFetch) 37 =
      Ok (rowsOf kept, arrowsOf kept, totalRows byteLibrary kept, next) /\
    tiled byteLibrary 30 next kept /\ totalRows byteLibrary kept = rowsBelow byteLibrary next boundedFetch /\
    next <= Z.min 37 (stopOf boundedConfig 2) /\ (30 < Z.min 37 (stopOf boundedConfig 2) -> 30 < next) /\
    (0 < lc_RowLimit boundedConfig -> 0 + totalRows byteLibrary kept <= lc_RowLimit boundedConfig).
Proof.
  apply scan_bounds_exact; [exact byteOps_laws|..].
  - repeat constructor. exists (zeros 4). split; reflexivity.
  - vm_compute. repeat split; discriminate.
  - lia.
  - unfold maxInt. lia.
  - split; [vm_compute; split; discriminate|]. intros bucket. unfold stopOf, boundedConfig. cbn.
    destruct (decide (bucket = 2)) as [->|N]; [vm_compute; split; discriminate|]. rewrite lookup_singleton_ne by done. cbn. unfold maxInt. lia.
  - vm_compute. split; [discriminate|reflexivity].
  - vm_compute. discriminate.
Defined.
