(* ===== verification/LogScanner.v ===== *)
(** * The log scanner

    Models [pkg/fgo/log_scanner.go] and [pkg/fgo/log_scanner_backend.go]: opening a scanner, its
    subscriptions, and [Poll], which visits the buckets one after another.  [Poll] calls are
    serialized, but [Subscribe], [Unsubscribe], [Wakeup] and [Close] run at any time; each
    critical section of the code is one step of [scanStep], and what a fetch answers is an
    argument of the step that receives it, so that a run is an interleaving of the callers with
    arbitrary answers.

    The Arrow library, the backend and the compiler of filters are parameters. *)

From S2P Require Import Prelude Model Wire Values Codec DecodeSafety EncodeSafety Bucket RecordBatch Arrow Errors Partition SchemaJSON SchemaEvolution ScanDecode ScanBounds.

Section Scanner.
Context {Rec Arr Predicate Filter : Type}.
Context (library : ArrowLibrary Rec) (ops : ArrowOps Rec Arr) (zone : Z -> Z).
Context (compilePredicate : Predicate -> Schema -> outcome Filter).
Abbreviation LogScannerConfig := (LogScannerConfig Predicate).
Abbreviation LogScannerOption := (LogScannerOption Predicate).

(** ** Data *)

Record scannerFetch := MkScannerFetch {
  sf_records : list byte;
  sf_highWatermark : Z;
  sf_filteredEndOffset : Z;
  sf_filteredEndOffsetKnown : bool;
}.

(** [logScannerBackend] less [fetch], whose answers are arguments of the steps; [sb_resolver] is
    the resolver of a backend that provides one. *)
Record logScannerBackend := MkScanBackend {
  sb_metadata : PhysicalTablePath -> outcome (Z * gmap Z ServerNode);
  sb_listOffset : PhysicalTablePath -> Z -> Z -> Z -> ScanOffset -> outcome Z;
  sb_resolver : option (TablePath -> Z -> outcome Schema);
}.

Record scanFilter := MkScanFilter { fl_predicate : Filter; fl_schemaID : Z }.

Record ScanResult := MkScanResult {
  rs_Records : list ScanRecord;
  rs_ArrowBatches : list (ScanArrowBatch Rec);
  rs_BucketErrors : list (Z * callError);
  rs_HighWatermark : gmap Z Z;
  rs_Done : bool;
}.

(** The fields of [LogScanner] that do not change after it is opened. *)
Record LogScanner := MkLogScanner {
  sn_table : Table;
  sn_path : PhysicalTablePath;
  sn_backend : logScannerBackend;
  sn_config : LogScannerConfig;
  sn_filter : option scanFilter;
  sn_tableID : Z;
  sn_partitionID : Z;
  sn_buckets : list Z;
  sn_schema : Schema;
  sn_projection : list Z;
  sn_compacted : bool;
  sn_dynamic : bool;
}.

(** Those that do.  [Close] sets the map of offsets to nil, which reads as empty. *)
Record scannerState := MkScannerState {
  ss_offset : gmap Z Z;
  ss_delivered : Z;
  ss_done : bool;
  ss_closed : bool;
  ss_wakePending : bool;
}.

(** ** Completion *)

Definition reachedStops (stops offset : gmap Z Z) : bool :=
  forallb (fun e => match stops !! e.1 with Some stop => stop <=? e.2 | None => false end) (map_to_list offset).

Definition updateDoneLocked (config : LogScannerConfig) (s : scannerState) : scannerState :=
  let done :=
    if (0 <? lc_RowLimit config) && (lc_RowLimit config <=? ss_delivered s) then true
    else match lc_StoppingOffsets config with
         | None => false
         | Some stops => negb (Z.of_nat (size (ss_offset s)) =? 0) && reachedStops stops (ss_offset s)
         end in
  MkScannerState (ss_offset s) (ss_delivered s) done (ss_closed s) (ss_wakePending s).

(** ** Opening *)

Definition fixedSchemaResolver (table : Table) (path : TablePath) (schemaID : Z) : outcome Schema :=
  if negb (bool_decide (tp_Database path = tp_Database (tab_Path table))
           && bool_decide (tp_Table path = tp_Table (tab_Path table))) || negb (schemaID =? tab_SchemaID table)
  then Err ErrInvalidSchema else Ok (tab_Schema table).

Definition logFormatOf (table : Table) : string :=
  TrimSpace (default "" (default ∅ (tab_Properties table) !! "table.log.format"))%string.

Definition validateFilterLogFormat (table : Table) : outcome unit :=
  check (bool_decide (logFormatOf table = ""%string) || EqualFold (logFormatOf table) LogFormatArrow) ErrInvalidConfig.

Definition scannerFilter (table : Table) (config : LogScannerConfig) : outcome (option scanFilter) :=
  match lc_Filter config with
  | None => Ok None
  | Some filter =>
    _ ← validateFilterLogFormat table;
    predicate ← compilePredicate filter (tab_Schema table);
    Ok (Some (MkScanFilter predicate (tab_SchemaID table)))
  end.

Fixpoint columnIndexes (columns : list Column) (i : Z) (m : gmap string Z) : gmap string Z :=
  match columns with
  | [] => m
  | c :: columns => columnIndexes columns (i + 1) (<[col_Name c := int32 i]> m)
  end.

(** [configureProjection]: the schema of the results and the positions of its columns. *)
Definition configureProjection (table : Table) (config : LogScannerConfig) (compacted : bool) : outcome (Schema * list Z) :=
  match lc_Projection config with
  | [] => Ok (tab_Schema table, [])
  | names =>
    _ ← check compacted ErrInvalidConfig;
    schema ← projectSchema (tab_Schema table) names;
    let positions := columnIndexes (sch_Columns (tab_Schema table)) 0 ∅ in
    Ok (schema, map (fun name => default 0 (positions !! name)) names)
  end.

Definition resolveOffset (s : LogScanner) (bucket : Z) (start : ScanOffset) : outcome Z :=
  if so_Kind start =? ScanFromOffset then Ok (so_Offset start)
  else sb_listOffset (sn_backend s) (sn_path s) bucket (sn_tableID s) (sn_partitionID s) start.

Fixpoint initializeOffsets (s : LogScanner) (start : ScanOffset) (buckets : list Z) (m : gmap Z Z) : outcome (gmap Z Z) :=
  match buckets with
  | [] => Ok m
  | bucket :: buckets =>
    offset ← resolveOffset s bucket start;
    initializeOffsets s start buckets (<[bucket := offset]> m)
  end.

Definition hasScanBucket (s : LogScanner) (bucket : Z) : bool := existsb (Z.eqb bucket) (sn_buckets s).

Definition validateStoppingOffsets (s : LogScanner) : outcome unit :=
  match lc_StoppingOffsets (sn_config s) with
  | None => Ok tt
  | Some stops =>
    _ ← check (forallb (fun bucket => match stops !! bucket with Some _ => true | None => false end) (sn_buckets s)) ErrInvalidConfig;
    check (forallb (fun e => hasScanBucket s e.1) (map_to_list stops)) ErrInvalidConfig
  end.

Definition newLogScanner (backend : logScannerBackend) (table : Table) (start : ScanOffset)
    (options : list (option LogScannerOption)) : outcome (LogScanner * scannerState) :=
  _ ← Schema_Validate (tab_Schema table);
  _ ← ScanOffset_Validate start;
  config ← scannerConfig options;
  filter ← scannerFilter table config;
  let path := MkPhysicalTablePath (tab_Path table) (lc_Partition config) in
  '(physicalID, locations) ← sb_metadata backend path;
  _ ← check (negb (bool_decide (pp_Partition path = ""%string) && negb (physicalID =? tab_ID table))) ErrMetadata;
  buckets ← sortedBuckets locations;
  let compacted := negb (EqualFold (logFormatOf table) LogFormatIndexed) in
  let partitionID := if bool_decide (pp_Partition path = ""%string) then -1 else physicalID in
  let dynamic := match sb_resolver backend with Some _ => true | None => false end in
  '(schema, projection) ← configureProjection table config compacted;
  let s := MkLogScanner table path backend config filter (tab_ID table) partitionID buckets schema projection compacted dynamic in
  offset ← initializeOffsets s start buckets ∅;
  _ ← validateStoppingOffsets s;
  Ok (s, updateDoneLocked config (MkScannerState offset 0 false false false)).

(** ** Subscriptions *)

(** [Subscribe], after the offset was resolved. *)
Definition subscribeAt (s : LogScanner) (bucket offset : Z) (st : scannerState) : outcome scannerState :=
  if ss_closed st then Err ErrClosed
  else Ok (updateDoneLocked (sn_config s)
         (MkScannerState (<[bucket := offset]> (ss_offset st)) (ss_delivered st) (ss_done st) (ss_closed st) (ss_wakePending st))).

Definition resolveSubscription (s : LogScanner) (bucket : Z) (start : ScanOffset) : outcome Z :=
  if negb (hasScanBucket s bucket) then Err ErrUnknownBucket
  else _ ← ScanOffset_Validate start; resolveOffset s bucket start.

Definition unsubscribe (s : LogScanner) (bucket : Z) (st : scannerState) : scannerState :=
  updateDoneLocked (sn_config s)
    (MkScannerState (delete bucket (ss_offset st)) (ss_delivered st) (ss_done st) (ss_closed st) (ss_wakePending st)).

(** ** [Poll] *)

(** [beginPoll]: an error, a finished scan ([None]), or the offsets to poll from. *)
Definition beginPoll (st : scannerState) : scannerState * outcome (option (gmap Z Z)) :=
  if ss_closed st then (st, Err ErrClosed)
  else if ss_done st then (st, Ok None)
  else if ss_wakePending st then
    (MkScannerState (ss_offset st) (ss_delivered st) (ss_done st) (ss_closed st) false, Err ErrWakeup)
  else (st, Ok (Some (ss_offset st))).

(** Whether [Poll] fetches from a bucket it comes to, and from which offset. *)
Definition fetchFrom (s : LogScanner) (offsets : gmap Z Z) (bucket : Z) : option Z :=
  match offsets !! bucket with
  | None => None
  | Some offset =>
    match (stops ← lc_StoppingOffsets (sn_config s); stops !! bucket) with
    | Some stop => if stop <=? offset then None else Some offset
    | None => Some offset
    end
  end.

(** What [pollBucket] does with an answer: a bucket-local error, an error of [Poll], or rows
    with their number and the next offset. *)
Inductive fetchVerdict :=
| BucketFailed (e : callError)
| PollFailed (e : goerror)
| Fetched (rows : list ScanRecord) (arrows : list (ScanArrowBatch Rec)) (delivered next : Z).

Definition scanResolver (s : LogScanner) : TablePath -> Z -> outcome Schema :=
  match sb_resolver (sn_backend s) with
  | Some resolver => resolver
  | None => fixedSchemaResolver (sn_table s)
  end.

(** The table and resolver [pollBucket] decodes with. *)
Definition scanTarget (s : LogScanner) : Schema :=
  if negb (sn_dynamic s) && negb (glen (sn_projection s) =? 0) then sn_schema s else tab_Schema (sn_table s).

Definition scanDecodeResolver (s : LogScanner) (path : TablePath) (schemaID : Z) : outcome Schema :=
  if negb (sn_dynamic s) && negb (glen (sn_projection s) =? 0) then
    schema ← fixedSchemaResolver (sn_table s) path schemaID; Ok (sn_schema s)
  else scanResolver s path schemaID.

Definition projectFetched (s : LogScanner) (rows : list ScanRecord) (arrows : list (ScanArrowBatch Rec))
    : outcome (list ScanRecord * (list (ScanArrowBatch Rec) + goerror)) :=
  if sn_dynamic s then
    rows ← projectScanRows (sn_projection s) rows;
    match projectScanArrows library ops (sn_schema s) (sn_projection s) arrows with
    | Ok arrows => Ok (rows, inl arrows)
    | Err e => Ok (rows, inr e)
    | Panic => Panic
    | OutOfFuel => OutOfFuel
    end
  else Ok (rows, inl arrows).

Definition pollFetched (s : LogScanner) (delivered bucket offset : Z) (fetched : scannerFetch) : outcome fetchVerdict :=
  match decodeFetchedFetchResponseWithResolver library ops zone (scanDecodeResolver s) (tab_Path (sn_table s)) (scanTarget s)
          bucket offset (sf_records fetched) (sn_compacted s) with
  | Err e => Ok (BucketFailed (Plain e))
  | Panic => Panic
  | OutOfFuel => OutOfFuel
  | Ok (next, rows, arrows) =>
    if sf_filteredEndOffsetKnown fetched && (sf_filteredEndOffset fetched <? offset) then Ok (BucketFailed (Plain ErrValidation))
    else
      let next := if sf_filteredEndOffsetKnown fetched && (next <? sf_filteredEndOffset fetched)
                  then sf_filteredEndOffset fetched else next in
      '(rows, projected) ← projectFetched s rows arrows;
      match projected with
      | inr e => Ok (PollFailed e)
      | inl arrows =>
        '(rows, arrows, n, boundedNext) ← applyBounds library ops (sn_config s) delivered bucket rows arrows next;
        Ok (Fetched rows arrows n boundedNext)
      end
  end.

(** [recordFetchError]: the error [Poll] returns, if any. *)
Definition recordFetchError (ctxErr : option callError) (st : scannerState) : scannerState * option callError :=
  match ctxErr with
  | Some e => (st, Some e)
  | None =>
    let st' := if ss_wakePending st
               then MkScannerState (ss_offset st) (ss_delivered st) (ss_done st) (ss_closed st) false else st in
    (st', if ss_closed st then Some (Plain ErrClosed)
          else if ss_wakePending st then Some (Plain ErrWakeup) else None)
  end.

Definition addError (bucket : Z) (e : callError) (r : ScanResult) : ScanResult :=
  MkScanResult (rs_Records r) (rs_ArrowBatches r) (rs_BucketErrors r ++ [(bucket, e)]) (rs_HighWatermark r) (rs_Done r).

Definition addFetched (bucket : Z) (rows : list ScanRecord) (arrows : list (ScanArrowBatch Rec)) (highWatermark : Z)
    (r : ScanResult) : ScanResult :=
  MkScanResult (rs_Records r ++ rows) (rs_ArrowBatches r ++ arrows) (rs_BucketErrors r)
    (<[bucket := highWatermark]> (rs_HighWatermark r)) (rs_Done r).

Definition advanceOffset (s : LogScanner) (bucket previous next delivered : Z) (st : scannerState) : scannerState :=
  let offset := if decide (ss_offset st !! bucket = Some previous) then <[bucket := next]> (ss_offset st) else ss_offset st in
  updateDoneLocked (sn_config s)
    (MkScannerState offset (ss_delivered st + delivered) (ss_done st) (ss_closed st) (ss_wakePending st)).

Definition emptyResult : ScanResult := MkScanResult [] [] [] ∅ false.
Definition setDone (done : bool) (r : ScanResult) : ScanResult :=
  MkScanResult (rs_Records r) (rs_ArrowBatches r) (rs_BucketErrors r) (rs_HighWatermark r) done.

(** ** [Wakeup] and [Close] *)

Definition wakeup (st : scannerState) : scannerState :=
  if negb (ss_closed st) && negb (ss_done st)
  then MkScannerState (ss_offset st) (ss_delivered st) (ss_done st) (ss_closed st) true else st.

Definition closeScanner (st : scannerState) : scannerState :=
  MkScannerState ∅ (ss_delivered st) (ss_done st) true (ss_wakePending st).

(** ** Runs *)

(** Where a poll is; [PollChecking]: it is done with a bucket and has yet to ask whether the scan is. *)
Inductive pollPhase :=
| PollIdle
| PollVisiting (offsets : gmap Z Z) (todo : list Z) (result : ScanResult)
| PollFetching (offsets : gmap Z Z) (bucket offset : Z) (todo : list Z) (result : ScanResult)
| PollAdvancing (offsets : gmap Z Z) (bucket offset next delivered : Z) (kept : list (scanSegment Rec))
    (todo : list Z) (result : ScanResult)
| PollChecking (offsets : gmap Z Z) (todo : list Z) (result : ScanResult).

(** A scanner with its poll.  [sm_returned] are the results of [Poll], oldest first,
    [sm_discarded] those it released on returning an error, and [sm_epochs] what each
    subscription has been given since it was made: its first offset, and the rows and batches
    that moved it. *)
Record machine := MkMachine {
  sm_state : scannerState;
  sm_phase : pollPhase;
  sm_returned : list ScanResult;
  sm_discarded : list ScanResult;
  sm_errors : list callError;
  sm_epochs : gmap Z (Z * list (scanSegment Rec));
}.

Definition setState (st : scannerState) (m : machine) : machine :=
  MkMachine st (sm_phase m) (sm_returned m) (sm_discarded m) (sm_errors m) (sm_epochs m).
Definition setPhase (p : pollPhase) (m : machine) : machine :=
  MkMachine (sm_state m) p (sm_returned m) (sm_discarded m) (sm_errors m) (sm_epochs m).
Definition setEpochs (e : gmap Z (Z * list (scanSegment Rec))) (m : machine) : machine :=
  MkMachine (sm_state m) (sm_phase m) (sm_returned m) (sm_discarded m) (sm_errors m) e.

(** [Poll] returns a result, or an error after releasing its result. *)
Definition returnResult (r : ScanResult) (m : machine) : machine :=
  MkMachine (sm_state m) PollIdle (sm_returned m ++ [r]) (sm_discarded m) (sm_errors m) (sm_epochs m).
Definition returnError (e : callError) (discarded : list ScanResult) (m : machine) : machine :=
  MkMachine (sm_state m) PollIdle (sm_returned m) (sm_discarded m ++ discarded) (sm_errors m ++ [e]) (sm_epochs m).

(** After a bucket: [Poll] goes on to its end when the scan is done, else to the next bucket. *)
Definition afterBucket (m : machine) : option machine :=
  match sm_phase m with
  | PollChecking offsets todo r =>
    Some (setPhase (PollVisiting offsets (if ss_done (sm_state m) then [] else todo) r) m)
  | _ => None
  end.

Definition startPoll (s : LogScanner) (m : machine) : machine :=
  let '(st, begun) := beginPoll (sm_state m) in
  let m := setState st m in
  match begun with
  | Ok None => returnResult (setDone true emptyResult) m
  | Ok (Some offsets) =>
    if Z.of_nat (size offsets) =? 0 then returnError (Plain ErrInvalidConfig) [] m
    else setPhase (PollVisiting offsets (sn_buckets s) emptyResult) m
  | Err e => returnError (Plain e) [] m
  | Panic | OutOfFuel => m
  end.

Definition visitBucket (s : LogScanner) (m : machine) : option machine :=
  match sm_phase m with
  | PollVisiting offsets [] r => Some (returnResult (setDone (ss_done (sm_state m)) r) m)
  | PollVisiting offsets (bucket :: todo) r =>
    match fetchFrom s offsets bucket with
    | None => Some (setPhase (PollVisiting offsets todo r) m)
    | Some offset => Some (setPhase (PollFetching offsets bucket offset todo r) m)
    end
  | _ => None
  end.

Definition fetchFailed (s : LogScanner) (err : callError) (ctxErr : option callError) (m : machine) : option machine :=
  match sm_phase m with
  | PollFetching offsets bucket offset todo r =>
    let '(st, failed) := recordFetchError ctxErr (sm_state m) in
    let m := setState st m in
    Some (match failed with
          | Some e => returnError e [r] m
          | None => setPhase (PollChecking offsets todo (addError bucket err r)) m
          end)
  | _ => None
  end.

(** The order in which the rows and batches of a bucket were decoded. *)
Definition segmentsOf (rows : list ScanRecord) (arrows : list (ScanArrowBatch Rec)) : list (scanSegment Rec) :=
  orderedScanSegments rows arrows.

Definition fetchAnswered (s : LogScanner) (fetched : scannerFetch) (m : machine) : option (outcome machine) :=
  match sm_phase m with
  | PollFetching offsets bucket offset todo r =>
    Some (verdict ← pollFetched s (ss_delivered (sm_state m)) bucket offset fetched;
          Ok (match verdict with
              | BucketFailed e => setPhase (PollChecking offsets todo (addError bucket e r)) m
              | PollFailed e => returnError (Plain e) [r] m
              | Fetched rows arrows n next =>
                setPhase (PollAdvancing offsets bucket offset next n (segmentsOf rows arrows) todo
                            (addFetched bucket rows arrows (sf_highWatermark fetched) r)) m
              end))
  | _ => None
  end.

(** [advanceOffset]; a subscription moved by it has been given what it moved over. *)
Definition advance (s : LogScanner) (m : machine) : option machine :=
  match sm_phase m with
  | PollAdvancing offsets bucket offset next n kept todo r =>
    let moved := bool_decide (ss_offset (sm_state m) !! bucket = Some offset) in
    let epochs := if moved then alter (fun e => (e.1, e.2 ++ kept)) bucket (sm_epochs m) else sm_epochs m in
    Some (setPhase (PollChecking offsets todo r)
            (setEpochs epochs (setState (advanceOffset s bucket offset next n (sm_state m)) m)))
  | _ => None
  end.

Definition subscribeStep (s : LogScanner) (bucket offset : Z) (m : machine) : machine :=
  match subscribeAt s bucket offset (sm_state m) with
  | Ok st => setEpochs (<[bucket := (offset, [])]> (sm_epochs m)) (setState st m)
  | _ => m
  end.

(** The 64-bit fields of an answer. *)
Definition fetchedInRange (fetched : scannerFetch) : Prop :=
  srange 64 (sf_filteredEndOffset fetched) = true /\ srange 64 (sf_highWatermark fetched) = true.

Inductive scanStep (s : LogScanner) : machine -> machine -> Prop :=
| step_poll m : sm_phase m = PollIdle -> scanStep s m (startPoll s m)
| step_visit m m' : visitBucket s m = Some m' -> scanStep s m m'
| step_failed err ctxErr m m' : fetchFailed s err ctxErr m = Some m' -> scanStep s m m'
| step_fetched fetched m m' : fetchedInRange fetched -> fetchAnswered s fetched m = Some (Ok m') -> scanStep s m m'
| step_advance m m' : advance s m = Some m' -> scanStep s m m'
| step_after m m' : afterBucket m = Some m' -> scanStep s m m'
| step_subscribe bucket start offset m :
    srange 64 (so_Offset start) = true -> resolveSubscription s bucket start = Ok offset -> scanStep s m (subscribeStep s bucket offset m)
| step_unsubscribe bucket m : scanStep s m (setState (unsubscribe s bucket (sm_state m)) m)
| step_wakeup m : scanStep s m (setState (wakeup (sm_state m)) m)
| step_close m : scanStep s m (setState (closeScanner (sm_state m)) m).

Definition openedMachine (st : scannerState) : machine :=
  MkMachine st PollIdle [] [] [] ((fun offset => (offset, [])) <$> ss_offset st).

(** The states of a scanner opened by [newLogScanner]. *)
Inductive scanReachable (backend : logScannerBackend) (table : Table) (start : ScanOffset)
    (options : list (option LogScannerOption)) (s : LogScanner) : machine -> Prop :=
| reach_open st : newLogScanner backend table start options = Ok (s, st) ->
    scanReachable backend table start options s (openedMachine st)
| reach_step m m' : scanReachable backend table start options s m -> scanStep s m m' ->
    scanReachable backend table start options s m'.

End Scanner.
