(* ===== verification/ValueBatch.v ===== *)
(** * Value batches

    Models [decodeValueRecordBatchWithResolver] and [decodeValueRecord] of
    [pkg/fgo/batch_scanner_decode.go]: the bytes of a value batch are accepted exactly when they
    have its layout, and decode to the rows its records hold.

    The schema resolver is the parameter [resolveSchema]. *)

From S2P Require Import Prelude Model Wire Values Codec DecodeSafety Roundtrip RecordBatch SchemaEvolution ScanDecode LogScanner.

Section Decode.
Context (resolveSchema : TablePath -> Z -> outcome Schema).

(** The row of a record whose bytes, after the schema identifier, are [encoded]. *)
Definition valueRow (table : Table) (schemaID : Z) (encoded : list byte) : outcome Row :=
  schema ← resolveSchema (tab_Path table) schemaID;
  row ← DecodeCompactedRow schema encoded;
  evolveRow schema (tab_Schema table) row.

Definition decodeValueRecord (table : Table) (encoded : list byte) (position : Z) : outcome (Row * Z) :=
  if glen encoded - position <? 6 then Err ErrMalformedRecordBatch
  else
    size ← getLE 4 encoded position;
    let position := position + 4 in
    if (size <? 2) || (glen encoded - position <? size) then Err ErrMalformedRecordBatch
    else
      schemaID ← getLE 2 encoded position;
      payload ← slice encoded (position + 2) (position + size);
      row ← valueRow table (int16 schemaID) payload;
      Ok (row, position + size).

(** [for range count]. *)
Fixpoint decodeValueLoop (count : nat) (table : Table) (encoded : list byte) (position : Z) (rows : list Row)
    : outcome (list Row * Z) :=
  match count with
  | O => Ok (rows, position)
  | S count =>
    '(row, next) ← decodeValueRecord table encoded position;
    decodeValueLoop count table encoded next (rows ++ [row])
  end.

Definition valueBatchHeader : Z := 9.

Definition decodeValueRecordBatchWithResolver (table : Table) (encoded : list byte) : outcome (list Row) :=
  if glen encoded <? valueBatchHeader then Err ErrMalformedRecordBatch
  else
    size ← getLE 4 encoded 0;
    magic ← index encoded 4;
    if negb (size =? glen encoded - 4) || negb (byte.unsigned magic =? 0) then Err ErrMalformedRecordBatch
    else
      count ← getLE 4 encoded 5;
      if (count <? 0) || ((glen encoded - valueBatchHeader) / 6 <? count) then Err ErrMalformedRecordBatch
      else
        '(rows, position) ← decodeValueLoop (Z.to_nat count) table encoded valueBatchHeader [];
        if negb (position =? glen encoded) then Err ErrMalformedRecordBatch else Ok rows.

(** ** The layout *)

(** A record: its length, the identifier of its schema, its row. *)
Definition valueRecordBytes (r : Z * list byte) : list byte :=
  le_split 4 (2 + glen r.2) ++ le_split 2 (uint16 r.1) ++ r.2.

(** A batch: its length, the magic byte, the number of its records, and the records. *)
Definition valueBatchBytes (records : list (Z * list byte)) : list byte :=
  let body := concat (map valueRecordBytes records) in
  le_split 4 (5 + glen body) ++ [Byte.x00] ++ le_split 4 (glen records) ++ body.

Definition recordInRange (r : Z * list byte) : Prop := srange 16 r.1 = true /\ 2 + glen r.2 < 2 ^ 32.

(** ** Acceptance *)

Lemma valueRecordBytes_glen r : glen (valueRecordBytes r) = 6 + glen r.2.
Proof. unfold valueRecordBytes. rewrite !glen_app, !glen_le_split. lia. Qed.

Lemma getLE_at w p v s off : off = glen p -> 0 <= v < 2 ^ (8 * Z.of_nat w) -> getLE w (p ++ le_split w v ++ s) off = Ok v.
Proof. intros -> Hv. rewrite getLE_app by done. by rewrite Z.mod_small. Qed.

Lemma decodeValueRecord_accepts table p r row s : recordInRange r -> valueRow table r.1 r.2 = Ok row ->
  decodeValueRecord table (p ++ valueRecordBytes r ++ s) (glen p) = Ok (row, glen p + glen (valueRecordBytes r)).
Proof.
  intros [Hr Hg] Hv. pose proof (glen_nonneg r.2). unfold decodeValueRecord. rewrite !glen_app, valueRecordBytes_glen.
  pose proof (glen_nonneg s). destruct (Z.ltb_spec (glen p + (6 + glen r.2 + glen s) - glen p) 6); [lia|].
  unfold valueRecordBytes. rewrite <- !app_assoc. rewrite getLE_at by (done || lia). cbn [mbind outcome_bind].
  destruct (Z.ltb_spec (2 + glen r.2) 2); [lia|]. destruct (Z.ltb_spec (glen p + (6 + glen r.2 + glen s) - (glen p + 4)) (2 + glen r.2)); [lia|]. cbn [orb].
  rewrite (app_assoc p (le_split 4 _)). rewrite getLE_at; [|by rewrite glen_app, glen_le_split; lia|apply (uwrap_range 16); lia]. cbn [mbind outcome_bind].
  rewrite swrap_uwrap_small by (done || lia).
  rewrite (app_assoc _ (le_split 2 _)), slice_app; [|by rewrite !glen_app, !glen_le_split; lia|by rewrite !glen_app, !glen_le_split; lia].
  cbn [mbind outcome_bind]. rewrite Hv. cbn [mbind outcome_bind]. do 2 f_equal. lia.
Qed.

Lemma uwrap_swrap w z : 0 < w -> uwrap w (swrap w z) = uwrap w z.
Proof. intros. unfold uwrap, swrap. rewrite Zminus_mod_idemp_l. f_equal. lia. Qed.

Lemma slice_at {A} (p q v : list A) n : slice (p ++ q) (glen p) (glen p + n) = Ok v -> exists s, q = v ++ s.
Proof.
  intros (_ & _ & ->)%slice_Ok. replace (Z.to_nat (glen p)) with (length p) by (unfold glen; lia).
  rewrite drop_app_length. eexists. symmetry. apply take_drop.
Qed.

Lemma getLE_split w (p q : list byte) v : getLE w (p ++ q) (glen p) = Ok v ->
  0 <= v < 2 ^ (8 * Z.of_nat w) /\ exists s, q = le_split w v ++ s.
Proof.
  intros E. split; [by eapply getLE_range|]. unfold getLE in E. apply fmap_Ok in E as (b & Hb & ->).
  pose proof (slice_glen _ _ _ _ Hb) as Hg. apply slice_at in Hb as [s ->]. exists s.
  replace w with (length b) by (unfold glen in Hg; lia). by rewrite split_le_combine.
Qed.

Lemma decodeValueRecord_sound table p q row next : decodeValueRecord table (p ++ q) (glen p) = Ok (row, next) ->
  exists r s, recordInRange r /\ valueRow table r.1 r.2 = Ok row /\ q = valueRecordBytes r ++ s /\ next = glen p + glen (valueRecordBytes r).
Proof.
  unfold decodeValueRecord. case_match; [done|]. intros (size & Es & E)%bind_Ok. apply getLE_split in Es as (Rs & t & ->).
  destruct (_ || _) eqn:Eb; [done|]. rewrite !glen_app, glen_le_split in Eb.
  replace (glen p + 4) with (glen (p ++ le_split 4 size)) in E by (rewrite glen_app, glen_le_split; lia).
  rewrite (app_assoc p) in E. apply bind_Ok in E as (u & Eu & E). apply getLE_split in Eu as (Ru & t' & ->).
  replace (glen (p ++ le_split 4 size) + 2) with (glen ((p ++ le_split 4 size) ++ le_split 2 u)) in E by (rewrite (glen_app (p ++ _)), glen_le_split; lia).
  rewrite (app_assoc (p ++ _)) in E. apply bind_Ok in E as (payload & Ep & E). apply bind_Ok in E as (row' & Ev & E). injection E as -> <-.
  replace (glen (p ++ le_split 4 size) + size) with (glen ((p ++ le_split 4 size) ++ le_split 2 u) + (size - 2)) in Ep
    by (rewrite (glen_app (p ++ _)), glen_le_split; lia).
  pose proof (slice_glen _ _ _ _ Ep) as Hg. apply slice_at in Ep as [s ->].
  exists (int16 u, payload), s. assert (glen payload = size - 2) as Hp by lia.
  split; [split; cbn; [apply swrap_srange; lia|lia]|]. split; [exact Ev|]. rewrite valueRecordBytes_glen. unfold valueRecordBytes. cbn [fst snd].
  rewrite glen_app, glen_le_split. replace (2 + glen payload) with size by lia. split; [|lia].
  rewrite <- !app_assoc. rewrite uwrap_swrap by lia. unfold uwrap. by rewrite Z.mod_small.
Qed.

Lemma decodeValueLoop_accepts table records rows : Forall recordInRange records ->
  Forall2 (fun r row => valueRow table r.1 r.2 = Ok row) records rows -> forall p done_,
  decodeValueLoop (length records) table (p ++ concat (map valueRecordBytes records)) (glen p) done_ =
    Ok (done_ ++ rows, glen p + glen (concat (map valueRecordBytes records))).
Proof.
  intros Hr Hv. induction Hv as [|r row records rows E _ IH]; intros p done_; cbn [length decodeValueLoop map concat].
  { rewrite app_nil_r, glen_nil. do 2 f_equal. lia. }
  inversion Hr as [|? ? Hr1 Hr2]; subst. rewrite decodeValueRecord_accepts with (row := row) by done. cbn [mbind outcome_bind].
  rewrite (app_assoc p), <- (glen_app p), IH by done. rewrite <- app_assoc, (glen_app (valueRecordBytes r)), glen_app. cbn [app]. do 2 f_equal. lia.
Qed.

Lemma decodeValueLoop_sound table n : forall p q done_ rows next,
  decodeValueLoop n table (p ++ q) (glen p) done_ = Ok (rows, next) ->
  exists records new s, length records = n /\ Forall recordInRange records /\
    Forall2 (fun r row => valueRow table r.1 r.2 = Ok row) records new /\ rows = done_ ++ new /\
    q = concat (map valueRecordBytes records) ++ s /\ next = glen p + glen (concat (map valueRecordBytes records)).
Proof.
  induction n as [|n IH]; intros p q done_ rows next E; cbn in E.
  { injection E as <- <-. exists [], [], q. cbn. rewrite app_nil_r. unfold glen at 2. cbn. rewrite Z.add_0_r. done. }
  apply bind_Ok in E as ([row next'] & E1 & E). apply decodeValueRecord_sound in E1 as (r & s & Hr & Hv & -> & ->).
  rewrite (app_assoc p), <- glen_app in E. apply IH in E as (records & new & s' & <- & Hrs & Hvs & -> & -> & ->).
  exists (r :: records), (row :: new), s'. cbn. rewrite <- !app_assoc, !glen_app. repeat split; try by constructor. lia.
Qed.

Lemma concat_records_glen records : 6 * glen records <= glen (concat (map valueRecordBytes records)).
Proof.
  induction records as [|r records IH]; [done|]. cbn [map concat]. rewrite glen_cons, glen_app, valueRecordBytes_glen.
  pose proof (glen_nonneg r.2). lia.
Qed.

Lemma app_glen_nil {A} (p s : list A) : glen p = glen (p ++ s) -> s = [].
Proof. rewrite glen_app. intros E. apply glen_0_nil. lia. Qed.

(** [encoded] has the layout of a batch of records in range whose rows are [rows]. *)
Definition valueBatchOf (table : Table) (encoded : list byte) (rows : list Row) : Prop :=
  exists records, Forall recordInRange records /\ glen encoded - 4 < 2 ^ 32 /\ encoded = valueBatchBytes records /\
    Forall2 (fun r row => valueRow table r.1 r.2 = Ok row) records rows.

Lemma value_batch_sound table encoded rows :
  decodeValueRecordBatchWithResolver table encoded = Ok rows -> valueBatchOf table encoded rows.
Proof.
  unfold decodeValueRecordBatchWithResolver, valueBatchHeader. case_match; [done|]. intros (size & Es & E)%bind_Ok.
  apply (getLE_split 4 []) in Es as (Rs & t & ->). apply bind_Ok in E as (magic & Em & E).
  rewrite !glen_app, glen_le_split in E. destruct t as [|m t]; [discriminate Em|]. injection Em as ->. destruct (_ || _) eqn:Eb in E; [done|].
  apply orb_false_iff in Eb as [Es%negb_false_iff%Z.eqb_eq Em%negb_false_iff%Z.eqb_eq].
  assert (magic = Byte.x00) as -> by (apply byte.unsigned_inj; rewrite Em; reflexivity).
  apply bind_Ok in E as (count & Ec & E). apply (getLE_split 4 (le_split 4 size ++ [Byte.x00])) in Ec as (Rc & q & ->).
  destruct (_ || _) in E; [done|]. apply bind_Ok in E as ([new position] & E & Hp).
  change 9 with (glen (le_split 4 size ++ [Byte.x00] ++ le_split 4 count)) in E.
  replace (le_split 4 size ++ Byte.x00 :: le_split 4 count ++ q) with ((le_split 4 size ++ [Byte.x00] ++ le_split 4 count) ++ q) in E
    by (by rewrite <- !app_assoc).
  apply decodeValueLoop_sound in E as (records & rows' & s & Hn & Hr & Hv & -> & -> & ->).
  destruct (negb _) eqn:Ep in Hp; [done|]. injection Hp as <-. apply negb_false_iff, Z.eqb_eq in Ep.
  autorewrite with golen in Ep, Es. assert (s = []) as -> by (apply glen_0_nil; lia).
  exists records. rewrite glen_nil in *. split; [done|]. autorewrite with golen. split; [lia|]. split; [|done].
  unfold valueBatchBytes. rewrite app_nil_r. cbn [app]. do 2 f_equal; [lia|]. do 2 f_equal. unfold glen. lia.
Qed.

Lemma value_batch_accepts table encoded rows :
  valueBatchOf table encoded rows -> decodeValueRecordBatchWithResolver table encoded = Ok rows.
Proof.
  intros (records & Hr & Hg & -> & Hv). unfold decodeValueRecordBatchWithResolver, valueBatchHeader.
  pose proof (concat_records_glen records) as Hc. pose proof (glen_nonneg records).
  set (body := concat (map valueRecordBytes records)) in *.
  assert (Hl : glen (valueBatchBytes records) = 9 + glen body) by (unfold valueBatchBytes; fold body; rewrite !glen_app, !glen_le_split, glen_cons, glen_nil; lia).
  rewrite Hl in *. destruct (Z.ltb_spec (9 + glen body) 9); [lia|].
  assert (E0 : getLE 4 (valueBatchBytes records) 0 = Ok (5 + glen body)) by (apply (getLE_at 4 []); [done|cbn; lia]).
  assert (E4 : index (valueBatchBytes records) 4 = Ok Byte.x00) by done.
  assert (E5 : getLE 4 (valueBatchBytes records) 5 = Ok (glen records)).
  { unfold valueBatchBytes. fold body. rewrite (app_assoc (le_split 4 _)). apply getLE_at; [done|cbn; lia]. }
  rewrite E0, E4, E5. cbn [mbind outcome_bind].
  replace (5 + glen body =? 9 + glen body - 4) with true by lia.
  change (negb true || negb (byte.unsigned Byte.x00 =? 0)) with false. cbv iota.
  assert ((9 + glen body - 9) / 6 >= glen records) by (apply Z.le_ge, Z.div_le_lower_bound; lia).
  destruct (Z.ltb_spec (glen records) 0); [lia|]. destruct (Z.ltb_spec ((9 + glen body - 9) / 6) (glen records)); [lia|]. cbn [orb].
  replace (Z.to_nat (glen records)) with (length records) by (unfold glen; lia).
  change 9 with (glen (le_split 4 (5 + glen body) ++ [Byte.x00] ++ le_split 4 (glen records))).
  replace (valueBatchBytes records) with ((le_split 4 (5 + glen body) ++ [Byte.x00] ++ le_split 4 (glen records)) ++ body)
    by (by rewrite <- !app_assoc).
  unfold body at 3. rewrite decodeValueLoop_accepts with (rows := rows) by done. cbn [mbind outcome_bind app].
  fold body. change (glen (le_split 4 (5 + glen body) ++ Byte.x00 :: le_split 4 (glen records))) with 9.
  by rewrite Z.eqb_refl.
Qed.

(** Decoding rejects or returns; it never reads past the bytes. *)
Lemma decodeValueRecord_returns table encoded position : resolverOK resolveSchema -> 0 <= position ->
  returns (decodeValueRecord table encoded position) = true /\
  forall row next, decodeValueRecord table encoded position = Ok (row, next) -> 0 <= next.
Proof.
  intros Hres Hp. unfold decodeValueRecord. destruct (Z.ltb_spec (glen encoded - position) 6); [done|].
  destruct (getLE_safe 4 encoded position) as [size ->]; [lia|cbn; lia|]. cbn [mbind outcome_bind].
  destruct (_ || _) eqn:Eb; [done|]. apply orb_false_iff in Eb as [?%Z.ltb_ge ?%Z.ltb_ge].
  destruct (getLE_safe 2 encoded (position + 4)) as [u ->]; [lia|cbn; lia|].
  destruct (slice_safe encoded (position + 4 + 2) (position + 4 + size)) as [payload ->]; [lia..|]. cbn [mbind outcome_bind].
  unfold valueRow. destruct (Hres (tab_Path table) (int16 u)) as [Hr Ht].
  destruct (resolveSchema (tab_Path table) (int16 u)) as [schema|e| |]; try done. specialize (Ht schema eq_refl). cbn [mbind outcome_bind].
  pose proof (decodeRow_returns schema payload compactedEncoding Ht) as Hd. fold (DecodeCompactedRow schema payload) in Hd. destruct (DecodeCompactedRow schema payload) as [row|e| |]; try done. cbn [mbind outcome_bind].
  pose proof (evolveRow_returns schema (tab_Schema table) row) as He. destruct (evolveRow schema (tab_Schema table) row) as [row'|e| |]; try done. cbn.
  split; [done|]. intros ? ? [= <- <-]. lia.
Qed.

Lemma decodeValueLoop_returns table encoded : resolverOK resolveSchema -> forall n position rows, 0 <= position ->
  returns (decodeValueLoop n table encoded position rows) = true.
Proof.
  intros Hres n. induction n as [|n IH]; intros position rows Hp; [done|]. cbn.
  destruct (decodeValueRecord_returns table encoded position Hres Hp) as [Hr Hn].
  destruct (decodeValueRecord table encoded position) as [[row next]|e| |]; try done. cbn. apply IH. by eapply Hn.
Qed.

Lemma decodeValueBatch_returns table encoded : resolverOK resolveSchema ->
  returns (decodeValueRecordBatchWithResolver table encoded) = true.
Proof.
  intros Hres. unfold decodeValueRecordBatchWithResolver, valueBatchHeader. destruct (Z.ltb_spec (glen encoded) 9); [done|].
  destruct (getLE_safe 4 encoded 0) as [size ->]; [lia|cbn; lia|]. destruct (index_safe encoded 4) as [magic ->]; [lia|]. cbn [mbind outcome_bind].
  destruct (_ || _); [done|]. destruct (getLE_safe 4 encoded 5) as [count ->]; [lia|cbn; lia|]. cbn [mbind outcome_bind].
  destruct (_ || _); [done|]. apply bind_returns; [by apply decodeValueLoop_returns|]. intros [rows position] _. by case_match.
Qed.

End Decode.

(** The batch of a table whose schema is known. *)
Definition decodeValueRecordBatch (table : Table) (encoded : list byte) : outcome (list Row) :=
  decodeValueRecordBatchWithResolver (fixedSchemaResolver table) table encoded.

(** ** Theorem *)

(** C38: A value batch is decoded to [rows] exactly when its bytes are the layout of records in range
    whose rows, decoded with the schema each was written with and evolved to the schema of the
    table, are [rows]; every other input is an error: the decoder never panics.  The schemas that are
    resolved have typed ARRAY and MAP columns ([resolverOK]). *)
Theorem value_batch_exact resolveSchema table encoded : resolverOK resolveSchema ->
  returns (decodeValueRecordBatchWithResolver resolveSchema table encoded) = true /\
  forall rows, decodeValueRecordBatchWithResolver resolveSchema table encoded = Ok rows <->
    valueBatchOf resolveSchema table encoded rows.
Proof.
  intros Hres. split; [by apply decodeValueBatch_returns|]. intros rows. split; [apply value_batch_sound|apply value_batch_accepts].
Qed.

(** ** Example: a batch of two rows, read with a newer schema *)

Definition valueTable : Table := MkTable 7 3 fetchPath PrimaryKeyTable fetchTarget 2 0 false "" None.

Definition storedRows : list Row := [[VInt32 1; VString "a"]; [VInt32 2; VNil]].
Definition storedRecords : list (Z * list byte) := map (fun row => (2, bytesOr (EncodeCompactedRow logSchema row))) storedRows.
Definition readRows : list Row := [[VString "a"; VNil; VInt32 1]; [VNil; VNil; VInt32 2]].

Lemma fetchResolver_ok : resolverOK fetchResolver.
Proof. intros path id. unfold fetchResolver. case_match; (split; [done|]); [|done]. by intros s [= <-]. Qed.

Lemma value_batch_exact_witness :
  decodeValueRecordBatchWithResolver fetchResolver valueTable (valueBatchBytes storedRecords) = Ok readRows /\
  returns (decodeValueRecordBatchWithResolver fetchResolver valueTable (valueBatchBytes storedRecords ++ [Byte.x00])) = true.
Proof.
  split; [|by apply (value_batch_exact fetchResolver valueTable _ fetchResolver_ok)].
  apply (value_batch_exact fetchResolver valueTable _ fetchResolver_ok). exists storedRecords.
  split; [repeat constructor; vm_compute; congruence|]. split; [vm_compute; reflexivity|]. split; [reflexivity|].
  repeat constructor; vm_compute; reflexivity.
Defined.
