(* ===== verification/ScanProperties.v ===== *)
(** * What a log scanner delivers

    The invariant of the scanner of [LogScanner] and the theorems about its runs: order, bounds
    and accounting of what [Poll] hands out. *)

From S2P Require Import Prelude Model Wire Values Codec DecodeSafety EncodeSafety Bucket RecordBatch Arrow Errors Partition SchemaJSON SchemaEvolution ScanDecode ScanBounds LogScanner.

Section Scanner.
Context {Rec Arr Predicate Filter : Type}.
Context (library : ArrowLibrary Rec) (ops : ArrowOps Rec Arr) (zone : Z -> Z) (laws : ArrowOpsLaws library ops).
Context (compilePredicate : Predicate -> Schema -> outcome Filter).
Abbreviation LogScanner := (LogScanner (Predicate := Predicate) (Filter := Filter)).
Abbreviation scanStep := (scanStep library ops zone).

(** ** Configurations *)

(** The options the package exports, with arguments of their 64-bit types. *)
Inductive exportedScanOption : option (LogScannerOption Predicate) -> Prop :=
| isScanNil : exportedScanOption None
| isScanProjection columns : exportedScanOption (Some (WithScanProjection columns))
| isScanFilter predicate : exportedScanOption (Some (WithScanFilter predicate))
| isScanPartition partition : exportedScanOption (Some (WithScanPartition partition))
| isScanPartitionSpec s spec : exportedScanOption (Some (WithScanPartitionSpec s spec))
| isLogFetchLimits a b c d : exportedScanOption (Some (WithLogFetchLimits a b c d))
| isScanRowLimit limit : srange 64 limit = true -> exportedScanOption (Some (WithScanRowLimit limit))
| isScanStoppingOffsets offsets : map_Forall (fun _ o => srange 64 o = true) offsets ->
    exportedScanOption (Some (WithScanStoppingOffsets offsets)).

Lemma exported_bounds option (c c' : LogScannerConfig Predicate) :
  exportedScanOption (Some option) -> boundsOK c -> option c = Ok c' -> boundsOK c'.
Proof.
  intros Ho [Hr Hs] E. inversion Ho as [| | | | | |limit Hl|offsets Hl]; subst;
    unfold WithScanProjection, WithScanFilter, WithScanPartition, WithScanPartitionSpec, WithLogFetchLimits,
      WithScanRowLimit, WithScanStoppingOffsets in E; inv_ok; try case_match; simplify_eq; try (by split);
    try (inv_ok; by split).
  - split; [|exact Hs]. cbn. unfold srange, maxInt in *. change (2 ^ (64 - 1)) with (2 ^ 63) in Hl. lia.
  - case_match; [done|]. simplify_eq. split; [exact Hr|]. intros bucket. unfold stopOf. cbn.
    destruct (offsets !! bucket) as [o|] eqn:Eo; cbn; [|unfold maxInt; lia].
    specialize (Hl _ _ Eo). unfold srange, maxInt in *. change (2 ^ (64 - 1)) with (2 ^ 63) in Hl.
    assert (Hn : existsb (fun e => (e.1 <? 0) || (e.2 <? 0)) (map_to_list offsets) = false) by done.
    enough (0 <= o) by lia. destruct (Z.leb_spec 0 o); [done|]. exfalso.
    assert (Hx : existsb (fun e => (e.1 <? 0) || (e.2 <? 0)) (map_to_list offsets) = true); [|congruence].
    apply existsb_exists. exists (bucket, o). split; [|cbn; lia].
    apply list_elem_of_In. by apply elem_of_map_to_list.
Qed.

Lemma applyScan_bounds options : forall (c c' : LogScannerConfig Predicate),
  Forall exportedScanOption options -> boundsOK c -> applyScanOptions options c = Ok c' -> boundsOK c'.
Proof.
  induction options as [|[o|] options IH]; intros c c' F B E; cbn in E; [by simplify_eq| |done].
  apply Forall_cons in F as [Fo F]. inv_ok. eapply IH; [done| |done]. by eapply exported_bounds.
Qed.

Lemma default_bounds : boundsOK (defaultScannerConfig (Predicate := Predicate)).
Proof. split; [cbn; unfold maxInt; lia|]. intros bucket. unfold stopOf. cbn. unfold maxInt. lia. Qed.

(** ** One answer *)

Lemma tiled_extend segments from next next' :
  next <= next' -> tiled library from next segments -> tiled library from next' segments.
Proof.
  revert from. induction segments as [|s segments IH]; intros from Hn; cbn; [lia|]. intros (? & ? & ?). auto.
Qed.

Lemma projectRows_offsets projection rows : forall rows',
  projectScanRows projection rows = Ok rows' ->
  Forall2 (fun r r' => rec_Offset (sr_Record r) = rec_Offset (sr_Record r')) rows rows'.
Proof.
  assert (L : forall rows', projectLoopRows projection rows = Ok rows' ->
    Forall2 (fun r r' => rec_Offset (sr_Record r) = rec_Offset (sr_Record r')) rows rows').
  { induction rows as [|r rows IH]; intros rows' E; cbn in E; inv_ok; constructor; [done|by apply IH]. }
  intros rows' E. unfold projectScanRows in E. destruct projection; [|by apply L]. injection E as <-.
  clear. induction rows; by constructor.
Qed.

Definition keptBatch (a a' : ScanArrowBatch Rec) : Prop :=
  ab_BaseOffset (sa_Batch a) = ab_BaseOffset (sa_Batch a') /\ ab_Changes (sa_Batch a) = ab_Changes (sa_Batch a') /\
  exists r r', ab_Record (sa_Batch a) = Some r /\ ab_Record (sa_Batch a') = Some r' /\ al_NumRows library r = al_NumRows library r'.

Lemma projectLoop_kept fields projection arrows :
  Forall (fun a => exists r, ab_Record (sa_Batch a) = Some r /\ 0 <= al_NumRows library r) arrows ->
  forall arrows', projectLoopArrows library ops fields projection arrows = Ok arrows' -> Forall2 keptBatch arrows arrows'.
Proof.
  induction 1 as [|a arrows (r & Er & Hn) F IH]; intros arrows' E; cbn in E; [injection E as <-; constructor|].
  unfold recordOf in E. rewrite Er in E. cbn [mbind outcome_bind] in E. apply bind_Ok in E as (cols & _ & E).
  apply bind_Ok in E as (rest & Hr & E). injection E as <-. constructor; [|by apply IH].
  split; [done|]. split; [done|]. eexists _, _. split; [exact Er|]. split; [reflexivity|].
  by rewrite (ol_batch library ops laws).
Qed.

Lemma keptBatch_refl arrows :
  Forall (fun a => exists r, ab_Record (sa_Batch a) = Some r /\ 0 <= al_NumRows library r) arrows -> Forall2 keptBatch arrows arrows.
Proof. induction 1 as [|a arrows (r & Er & _) F IH]; constructor; [|done]. unfold keptBatch. eauto 8. Qed.

Lemma projectArrows_kept s projection arrows arrows' :
  Forall (fun a => exists r, ab_Record (sa_Batch a) = Some r /\ 0 <= al_NumRows library r) arrows ->
  projectScanArrows library ops s projection arrows = Ok arrows' -> Forall2 keptBatch arrows arrows'.
Proof.
  intros F E. unfold projectScanArrows in E. destruct projection as [|p projection].
  - injection E as <-. by apply keptBatch_refl.
  - apply bind_Ok in E as (fields & _ & E). by eapply projectLoop_kept.
Qed.

Lemma decodedAs_records from next rows arrows :
  decodedAs library from next rows arrows ->
  Forall (fun a => exists r, ab_Record (sa_Batch a) = Some r /\ 0 <= al_NumRows library r) arrows.
Proof.
  intros (segments & Ht & _ & <- & Hk). apply Forall_forall. intros a Ha. unfold arrowsOf in Ha.
  apply list_elem_of_omap in Ha as (x & Hx & E). destruct x as [|batch]; [done|]. injection E as ->.
  rewrite Forall_forall in Hk. destruct (Hk _ Hx) as (r & Er & _). exists r. split; [done|].
  destruct (tiled_above _ _ _ _ _ Ht Hx) as (_ & Hp & _). cbn in Hp. rewrite Er in Hp. lia.
Qed.

Lemma projectFetched_kept (s : LogScanner) from next rows arrows rows' arrows' :
  decodedAs library from next rows arrows -> projectFetched library ops s rows arrows = Ok (rows', inl arrows') ->
  decodedAs library from next rows' arrows'.
Proof.
  intros Hd E. unfold projectFetched in E. destruct (sn_dynamic s); [|by injection E as <- <-].
  apply bind_Ok in E as (rows1 & Er & E). apply projectRows_offsets in Er.
  destruct (projectScanArrows _ _ _ _ arrows) as [arrows1| | |] eqn:Ea; try done. injection E as <- <-.
  apply projectArrows_kept in Ea; [|by eapply decodedAs_records]. eapply decodedAs_same; [exact Hd|exact Er|exact Ea].
Qed.

Lemma pollFetched_spec (s : LogScanner) delivered bucket offset fetched rows arrows n next :
  boundsOK (sn_config s) -> fetchedInRange fetched -> 0 <= offset <= maxInt -> offset <= stopOf (sn_config s) bucket ->
  (0 < lc_RowLimit (sn_config s) -> 0 <= delivered < lc_RowLimit (sn_config s)) ->
  pollFetched library ops zone s delivered bucket offset fetched = Ok (Fetched rows arrows n next) ->
  exists kept, rows = rowsOf kept /\ arrows = arrowsOf kept /\ n = totalRows library kept /\
    tiled library offset next kept /\ next <= Z.min maxInt (stopOf (sn_config s) bucket) /\
    (0 < lc_RowLimit (sn_config s) -> delivered + n <= lc_RowLimit (sn_config s)).
Proof.
  intros HB [Hf _] Ho Hs Hd E. unfold srange in Hf. change (2 ^ (64 - 1)) with (2 ^ 63) in Hf. unfold pollFetched in E.
  destruct (decodeFetchedFetchResponseWithResolver _ _ _ _ _ _ _ _ _ _) as [[[next0 rows0] arrows0]| | |] eqn:Ed; try done.
  apply (decodeLoop_tiled library ops laws) in Ed as [Ht Hm]. destruct (_ && (_ <? offset)); [done|].
  set (next1 := if _ && _ then _ else _) in E.
  assert (Hn1 : next0 <= next1 <= maxInt).
  { subst next1. unfold maxInt in *. destruct (sf_filteredEndOffsetKnown fetched); cbn; [|lia].
    destruct (Z.ltb_spec next0 (sf_filteredEndOffset fetched)); lia. }
  apply bind_Ok in E as ([rows1 projected] & Ep & E). destruct projected as [arrows1|]; [|done].
  apply (projectFetched_kept s offset next0) in Ep as (segments & Tt & <- & <- & Hk); [|done].
  apply (tiled_extend _ _ _ next1) in Tt; [|lia].
  destruct (applyBounds_spec library ops laws (sn_config s) delivered bucket segments offset next1) as
    (kept & nx & Eb & B1 & _ & _ & B2 & _ & B3); try done; [lia|lia|].
  rewrite Eb in E. cbn in E. injection E as <- <- <- <-. exists kept.
  split; [done|]. split; [done|]. split; [done|]. split; [done|]. split; [lia|done].
Qed.

(** ** Invariant *)

Definition resultRows (r : ScanResult) : Z :=
  totalRows library (map RowSegment (rs_Records r) ++ map ArrowSegment (rs_ArrowBatches r)).

Fixpoint handedOut (rs : list ScanResult) : Z :=
  match rs with [] => 0 | r :: rs => resultRows r + handedOut rs end.

(** Rows a poll has put into its result, and those of them not counted as delivered yet. *)
Definition inProgress (p : pollPhase) : Z :=
  match p with
  | PollIdle => 0
  | PollVisiting _ _ r | PollFetching _ _ _ _ r | PollAdvancing _ _ _ _ _ _ _ r | PollChecking _ _ r => resultRows r
  end.
Definition uncounted (p : pollPhase (Rec := Rec)) : Z :=
  match p with PollAdvancing _ _ _ _ n _ _ _ => n | _ => 0 end.

Definition offsetsOK (offsets : gmap Z Z) : Prop := map_Forall (fun _ o => 0 <= o <= maxInt) offsets.

Definition phaseOK (config : LogScannerConfig Predicate) (delivered : Z) (p : pollPhase (Rec := Rec)) : Prop :=
  match p with
  | PollIdle => True
  | PollChecking offsets _ _ => offsetsOK offsets
  | PollVisiting offsets todo _ => offsetsOK offsets /\ (todo = [] \/ (0 < lc_RowLimit config -> delivered < lc_RowLimit config))
  | PollFetching offsets bucket offset _ _ =>
    offsetsOK offsets /\ 0 <= offset <= maxInt /\ offset <= stopOf config bucket /\
    (0 < lc_RowLimit config -> delivered < lc_RowLimit config)
  | PollAdvancing offsets bucket offset next n kept _ _ =>
    offsetsOK offsets /\ 0 <= offset /\ next <= Z.min maxInt (stopOf config bucket) /\ tiled library offset next kept /\
    0 <= n /\ (0 < lc_RowLimit config -> delivered + n <= lc_RowLimit config)
  end.

(** What a subscription has been given leads from its first offset to its current one. *)
Definition epochOK (config : LogScannerConfig Predicate) (epochs : gmap Z (Z * list (scanSegment Rec))) (bucket o : Z) : Prop :=
  exists first segments, epochs !! bucket = Some (first, segments) /\ 0 <= first /\
    tiled library first o segments /\ (o = first \/ o <= stopOf config bucket).

Record scanInv (s : LogScanner) (m : machine (Rec := Rec)) : Prop := {
  si_bounds : boundsOK (sn_config s);
  si_offsets : offsetsOK (ss_offset (sm_state m));
  si_epochs : forall bucket o, ss_offset (sm_state m) !! bucket = Some o -> epochOK (sn_config s) (sm_epochs m) bucket o;
  si_delivered : 0 <= ss_delivered (sm_state m);
  si_limit : 0 < lc_RowLimit (sn_config s) -> ss_delivered (sm_state m) <= lc_RowLimit (sn_config s);
  si_done : 0 < lc_RowLimit (sn_config s) -> ss_delivered (sm_state m) = lc_RowLimit (sn_config s) -> ss_done (sm_state m) = true;
  si_count : ss_delivered (sm_state m) + uncounted (sm_phase m) =
    handedOut (sm_returned m) + handedOut (sm_discarded m) + inProgress (sm_phase m);
  si_phase : phaseOK (sn_config s) (ss_delivered (sm_state m)) (sm_phase m);
}.

Lemma handedOut_app a b : handedOut (a ++ b) = handedOut a + handedOut b.
Proof. induction a as [|r a IH]; cbn; [done|]. lia. Qed.

Lemma totalRows_app (a b : list (scanSegment Rec)) : totalRows library (a ++ b) = totalRows library a + totalRows library b.
Proof. induction a as [|x a IH]; cbn; [done|]. lia. Qed.

Lemma totalRows_perm (a b : list (scanSegment Rec)) : a ≡ₚ b -> totalRows library a = totalRows library b.
Proof. induction 1; cbn; lia. Qed.

Lemma totalRows_nonneg segments from next : tiled library from next segments -> 0 <= totalRows library segments.
Proof. revert from. induction segments as [|x l IH]; intros from; cbn; [done|]. intros (? & ? & ?%IH). lia. Qed.

Lemma resultRows_add bucket kept hw r :
  resultRows (addFetched bucket (rowsOf kept) (arrowsOf kept) hw r) = resultRows r + totalRows library kept.
Proof.
  unfold resultRows, addFetched. cbn. rewrite !map_app, !totalRows_app.
  rewrite <- (totalRows_perm _ _ (segments_split kept)), totalRows_app. lia.
Qed.

Lemma limit_reached (config : LogScannerConfig Predicate) delivered (x : bool) :
  0 < lc_RowLimit config -> delivered = lc_RowLimit config ->
  (if (0 <? lc_RowLimit config) && (lc_RowLimit config <=? delivered) then true else x) = true.
Proof. intros H ->. replace (0 <? _) with true by lia. by replace (_ <=? _) with true by lia. Qed.

(** A step that leaves the poll alone keeps the invariant when it keeps the count. *)
Lemma inv_setState (s : LogScanner) m st :
  scanInv s m -> ss_delivered st = ss_delivered (sm_state m) -> offsetsOK (ss_offset st) ->
  (forall bucket o, ss_offset st !! bucket = Some o -> epochOK (sn_config s) (sm_epochs m) bucket o) ->
  (ss_delivered st = lc_RowLimit (sn_config s) -> 0 < lc_RowLimit (sn_config s) -> ss_done st = true) ->
  scanInv s (setState st m).
Proof. intros [I1 I2 I3 I4 I5 I6 I7 I8] Ed Ho He Hd. split; cbn; rewrite ?Ed; auto. intros. apply Hd; [congruence|done]. Qed.

Lemma inv_returnResult (s : LogScanner) m r :
  scanInv s m -> resultRows r = inProgress (sm_phase m) -> uncounted (sm_phase m) = 0 -> scanInv s (returnResult r m).
Proof.
  intros [I1 I2 I3 I4 I5 I6 I7 I8] Er Hu. split; cbn; auto. rewrite handedOut_app. cbn. lia.
Qed.

Lemma inv_returnError (s : LogScanner) m e discarded :
  scanInv s m -> handedOut discarded = inProgress (sm_phase m) -> uncounted (sm_phase m) = 0 ->
  scanInv s (returnError e discarded m).
Proof.
  intros [I1 I2 I3 I4 I5 I6 I7 I8] Er Hu. split; cbn; auto. rewrite handedOut_app. lia.
Qed.

Lemma inv_setPhase (s : LogScanner) m p :
  scanInv s m -> phaseOK (sn_config s) (ss_delivered (sm_state m)) p ->
  inProgress p - uncounted p = inProgress (sm_phase m) - uncounted (sm_phase m) -> scanInv s (setPhase p m).
Proof. intros [I1 I2 I3 I4 I5 I6 I7 I8] Hp Hr. split; cbn; auto. lia. Qed.

(** While the scan is not done its row limit is not reached. *)
Lemma limit_open (s : LogScanner) m :
  scanInv s m -> ss_done (sm_state m) = false ->
  0 < lc_RowLimit (sn_config s) -> ss_delivered (sm_state m) < lc_RowLimit (sn_config s).
Proof.
  intros I Ed Hp. pose proof (si_limit s m I Hp).
  destruct (decide (ss_delivered (sm_state m) = lc_RowLimit (sn_config s))) as [E|]; [|lia].
  by rewrite (si_done s m I Hp E) in Ed.
Qed.

Lemma inv_checking (s : LogScanner) m offsets todo r :
  scanInv s m -> offsetsOK offsets -> resultRows r = inProgress (sm_phase m) -> uncounted (sm_phase m) = 0 ->
  scanInv s (setPhase (PollChecking offsets todo r) m).
Proof. intros I Ho Hr Hu. apply inv_setPhase; [done..|cbn; lia]. Qed.

Lemma inv_afterBucket (s : LogScanner) m m' : scanInv s m -> afterBucket m = Some m' -> scanInv s m'.
Proof.
  intros I E. unfold afterBucket in E. destruct (sm_phase m) as [| | | |offsets todo r] eqn:Ep; try done. injection E as <-.
  pose proof (si_phase s m I) as Hp. rewrite Ep in Hp. apply inv_setPhase; [done| |by rewrite Ep]. split; [done|].
  destruct (ss_done (sm_state m)) eqn:Ed; [by left|right]. by apply limit_open.
Qed.

Lemma inv_startPoll (s : LogScanner) m : scanInv s m -> sm_phase m = PollIdle -> scanInv s (startPoll s m).
Proof.
  intros I Hp. unfold startPoll, beginPoll.
  assert (Hs : setState (sm_state m) m = m) by (by destruct m).
  destruct (ss_closed (sm_state m)) eqn:Ec; [rewrite Hs; apply inv_returnError; [done|by rewrite Hp..]|].
  destruct (ss_done (sm_state m)) eqn:Ed; [rewrite Hs; apply inv_returnResult; [done|by rewrite Hp..]|].
  destruct (ss_wakePending (sm_state m)).
  - apply inv_returnError; [|by cbn; rewrite Hp..]. apply inv_setState; cbn; [exact I|done|apply (si_offsets s m I)|apply (si_epochs s m I)|intros E1 E2; pose proof (si_done s m I E2 E1); congruence].
  - rewrite Hs. case_match; [apply inv_returnError; [done|by rewrite Hp..]|]. apply inv_setPhase; [done| |by rewrite Hp].
    split; [apply (si_offsets s m I)|]. right. by apply limit_open.
Qed.

(** *** The steps of a poll *)

Lemma fetchFrom_Some (s : LogScanner) offsets bucket o :
  boundsOK (sn_config s) -> offsetsOK offsets -> fetchFrom s offsets bucket = Some o ->
  offsets !! bucket = Some o /\ 0 <= o <= maxInt /\ o <= stopOf (sn_config s) bucket.
Proof.
  intros HB HO. unfold fetchFrom, stopOf. destruct (offsets !! bucket) as [x|] eqn:E; [|done].
  pose proof (HO _ _ E) as Hx. cbn in Hx. destruct (_ ≫= _) as [stop|] eqn:Es; intros H.
  - destruct (Z.leb_spec stop x); [done|]. injection H as ->. cbn. split; [done|]. lia.
  - injection H as ->. cbn. split; [done|]. lia.
Qed.

Lemma inv_visit (s : LogScanner) m m' : scanInv s m -> visitBucket s m = Some m' -> scanInv s m'.
Proof.
  intros I E. unfold visitBucket in E. destruct (sm_phase m) as [|offsets todo r| | |] eqn:Ep; try done.
  pose proof (si_phase s m I) as Hp. rewrite Ep in Hp. destruct Hp as [Ho Hl]. destruct todo as [|bucket todo].
  - injection E as <-. apply inv_returnResult; [done|by rewrite Ep..].
  - destruct Hl as [|Hl]; [done|]. destruct (fetchFrom s offsets bucket) as [o|] eqn:Ef; injection E as <-; apply inv_setPhase; try done; try (by rewrite Ep).
    + apply fetchFrom_Some in Ef as (_ & ? & ?); [cbn; tauto|apply (si_bounds s m I)|done].
    + cbn. tauto.
Qed.

Lemma inv_failed (s : LogScanner) err ctxErr m m' : scanInv s m -> fetchFailed s err ctxErr m = Some m' -> scanInv s m'.
Proof.
  intros I E. unfold fetchFailed in E. destruct (sm_phase m) as [| |offsets bucket offset todo r| |] eqn:Ep; try done.
  pose proof (si_phase s m I) as Hp. rewrite Ep in Hp. destruct Hp as (Ho & _).
  destruct (recordFetchError ctxErr (sm_state m)) as [st failed] eqn:Er. injection E as <-.
  assert (I' : scanInv s (setState st m)).
  { unfold recordFetchError in Er. destruct ctxErr; simplify_eq; [by destruct m|].
    destruct (ss_wakePending (sm_state m)); [|by destruct m].
    apply inv_setState; cbn; [exact I|done|apply (si_offsets s m I)|apply (si_epochs s m I)|intros E1 E2; pose proof (si_done s m I E2 E1); congruence]. }
  destruct failed; [apply inv_returnError|apply inv_checking]; try done; cbn; rewrite Ep; try done. cbn. lia.
Qed.

Lemma inv_fetched (s : LogScanner) fetched m m' :
  scanInv s m -> fetchedInRange fetched -> fetchAnswered library ops zone s fetched m = Some (Ok m') -> scanInv s m'.
Proof.
  intros I Hf E. unfold fetchAnswered in E. destruct (sm_phase m) as [| |offsets bucket offset todo r| |] eqn:Ep; try done.
  pose proof (si_phase s m I) as Hp. rewrite Ep in Hp. destruct Hp as (Ho & Hof & Hst & Hl).
  injection E as E. apply bind_Ok in E as (verdict & Ev & E). injection E as <-. destruct verdict as [e|e|rows arrows n next].
  - apply inv_checking; try done; by rewrite Ep.
  - apply inv_returnError; try done; rewrite Ep; cbn; lia.
  - apply pollFetched_spec in Ev as (kept & -> & -> & -> & Ht & Hn & Hd); try done; [|apply (si_bounds s m I)|].
    + pose proof (tiled_le _ _ _ _ Ht). assert (0 <= totalRows library kept) by (by eapply totalRows_nonneg).
      unfold segmentsOf. rewrite (ordered_tiled _ _ _ _ Ht). apply inv_setPhase; [done| |].
      * cbn. split; [done|]. split; [lia|]. split; [done|]. split; [done|]. split; [lia|done].
      * rewrite Ep. cbn [inProgress uncounted]. rewrite resultRows_add. lia.
    + intros Hp. specialize (Hl Hp). pose proof (si_delivered s m I). lia.
Qed.

Lemma epochOK_other (config : LogScannerConfig Predicate) epochs bucket bucket' kept o :
  bucket <> bucket' -> epochOK config epochs bucket' o ->
  epochOK config (alter (fun e : Z * list (scanSegment Rec) => (e.1, e.2 ++ kept)) bucket epochs) bucket' o.
Proof. intros N (first & segments & E & H). exists first, segments. by rewrite lookup_alter_ne. Qed.

Lemma epochOK_moved (config : LogScannerConfig Predicate) epochs bucket kept o next :
  next <= stopOf config bucket -> tiled library o next kept -> epochOK config epochs bucket o ->
  epochOK config (alter (fun e : Z * list (scanSegment Rec) => (e.1, e.2 ++ kept)) bucket epochs) bucket next.
Proof.
  intros Hs Ht (first & segments & E & Hf & H & _). exists first, (segments ++ kept). rewrite lookup_alter_eq, E.
  split; [done|]. split; [done|]. split; [by eapply tiled_app|by right].
Qed.

Lemma inv_advance (s : LogScanner) m m' : scanInv s m -> advance s m = Some m' -> scanInv s m'.
Proof.
  intros I E. unfold advance in E. destruct (sm_phase m) as [| | |offsets bucket offset next n kept todo r|] eqn:Ep; try done.
  pose proof (si_phase s m I) as Hp. rewrite Ep in Hp. destruct Hp as (Ho & H0 & Hn & Ht & Hn0 & Hl). injection E as <-.
  pose proof (tiled_le _ _ _ _ Ht) as Hle.
  pose proof (si_count s m I) as Hc. rewrite Ep in Hc. cbn in Hc. split; cbn.
  - apply I.
  - case_decide; [|apply I]. apply map_Forall_insert_2; [lia|apply I].
  - intros b o Hb. case_decide as Em.
    + rewrite bool_decide_true by done. destruct (decide (bucket = b)) as [<-|N].
      * rewrite lookup_insert_eq in Hb. injection Hb as <-. eapply epochOK_moved; [lia|done|by apply (si_epochs s m I)].
      * rewrite lookup_insert_ne in Hb by done. apply epochOK_other; [done|]. by apply (si_epochs s m I).
    + rewrite bool_decide_false by done. by apply (si_epochs s m I).
  - pose proof (si_delivered s m I). lia.
  - done.
  - intros Hp Hd. by apply limit_reached.
  - lia.
  - done.
Qed.

(** *** The other callers *)

(** Offsets a server lists are not negative. *)
Definition listsOffsets (backend : logScannerBackend) : Prop :=
  forall path bucket tableID partitionID start o,
    sb_listOffset backend path bucket tableID partitionID start = Ok o -> 0 <= o <= maxInt.

Lemma resolveOffset_range (s : LogScanner) bucket start o :
  listsOffsets (sn_backend s) -> srange 64 (so_Offset start) = true -> ScanOffset_Validate start = Ok tt ->
  resolveOffset s bucket start = Ok o -> 0 <= o <= maxInt.
Proof.
  intros HB Hr Hv E. unfold resolveOffset in E. unfold srange in Hr. change (2 ^ (64 - 1)) with (2 ^ 63) in Hr.
  unfold ScanOffset_Validate in Hv. destruct (so_Kind start =? ScanFromOffset); [|by eapply HB].
  injection E as <-. apply check_Ok in Hv. unfold maxInt. lia.
Qed.

Lemma inv_subscribe (s : LogScanner) bucket start o m :
  listsOffsets (sn_backend s) -> scanInv s m -> srange 64 (so_Offset start) = true ->
  resolveSubscription s bucket start = Ok o -> scanInv s (subscribeStep s bucket o m).
Proof.
  intros HB I Hr E. unfold resolveSubscription in E. case_match; [done|]. apply bind_Ok in E as ([] & Hv & E).
  assert (Ho : 0 <= o <= maxInt) by (by eapply resolveOffset_range).
  unfold subscribeStep, subscribeAt. destruct (ss_closed (sm_state m)); [done|]. destruct I as [I1 I2 I3 I4 I5 I6 I7 I8].
  split; cbn; auto.
  - by apply map_Forall_insert_2.
  - intros b x Hb. destruct (decide (bucket = b)) as [<-|N].
    + rewrite lookup_insert_eq in Hb. injection Hb as <-. exists o, []. rewrite lookup_insert_eq. cbn. split; [done|]. split; [lia|]. split; [lia|by left].
    + rewrite lookup_insert_ne in Hb by done. destruct (I3 _ _ Hb) as (first & segments & Hx & Hy). exists first, segments.
      by rewrite lookup_insert_ne.
  - intros Hp Hd. by apply limit_reached.
Qed.

Lemma inv_unsubscribe (s : LogScanner) bucket m : scanInv s m -> scanInv s (setState (unsubscribe s bucket (sm_state m)) m).
Proof.
  intros I. apply inv_setState; cbn; [done|done| | |].
  - apply map_Forall_delete, I.
  - intros b o [_ Hb]%lookup_delete_Some. by apply (si_epochs s m I).
  - intros Hd Hp. by apply limit_reached.
Qed.

Lemma inv_wakeup (s : LogScanner) m : scanInv s m -> scanInv s (setState (wakeup (sm_state m)) m).
Proof.
  intros I. unfold wakeup. case_match; [|by destruct m].
  apply inv_setState; cbn; [exact I|done|apply (si_offsets s m I)|apply (si_epochs s m I)|intros E1 E2; pose proof (si_done s m I E2 E1); congruence].
Qed.

Lemma inv_close (s : LogScanner) m : scanInv s m -> scanInv s (setState (closeScanner (sm_state m)) m).
Proof.
  intros I. apply inv_setState; cbn; [exact I|done|apply map_Forall_empty| |intros; by apply (si_done s m I)].
  intros b o. by rewrite lookup_empty.
Qed.

Lemma inv_step (s : LogScanner) m m' : listsOffsets (sn_backend s) -> scanInv s m -> scanStep s m m' -> scanInv s m'.
Proof.
  intros HB I St. destruct St; [by apply inv_startPoll|by eapply inv_visit|by eapply inv_failed|by eapply inv_fetched
    |by eapply inv_advance|by eapply inv_afterBucket|by eapply inv_subscribe|by apply inv_unsubscribe|by apply inv_wakeup|by apply inv_close].
Qed.

(** *** Opening *)

Lemma initializeOffsets_range (s : LogScanner) start buckets : forall m m',
  listsOffsets (sn_backend s) -> srange 64 (so_Offset start) = true -> ScanOffset_Validate start = Ok tt ->
  offsetsOK m -> initializeOffsets s start buckets m = Ok m' -> offsetsOK m'.
Proof.
  induction buckets as [|bucket buckets IH]; intros m m' HB Hr Hv Hm E; cbn in E; [by injection E as <-|].
  apply bind_Ok in E as (o & Eo & E). eapply IH; [done..| |exact E]. apply map_Forall_insert_2; [|done].
  by eapply resolveOffset_range.
Qed.

Lemma inv_opened backend table start options (s : LogScanner) st :
  listsOffsets backend -> Forall exportedScanOption options -> srange 64 (so_Offset start) = true ->
  newLogScanner compilePredicate backend table start options = Ok (s, st) ->
  sn_backend s = backend /\ scanInv s (openedMachine st).
Proof.
  intros HB Ho Hr E. unfold newLogScanner in E. apply bind_Ok in E as ([] & _ & E). apply bind_Ok in E as ([] & Hv & E).
  apply bind_Ok in E as (config & Hc & E). apply bind_Ok in E as (filter & _ & E). apply bind_Ok in E as ([id locations] & _ & E).
  apply bind_Ok in E as ([] & _ & E). apply bind_Ok in E as (buckets & _ & E). apply bind_Ok in E as ([schema projection] & _ & E).
  apply bind_Ok in E as (offset & Hi & E). apply bind_Ok in E as ([] & _ & E). injection E as <- <-. split; [done|].
  apply initializeOffsets_range in Hi; [|done..]. pose proof (applyScan_bounds _ _ _ Ho default_bounds Hc) as HC.
  split; cbn; try done.
  - intros b o Hb. exists o, []. rewrite lookup_fmap, Hb. cbn. pose proof (Hi _ _ Hb) as Hx. cbn in Hx.
    split; [done|]. split; [lia|]. split; [lia|by left].
  - intros ?. destruct HC. lia.
  - intros Hp Hd. lia.
Qed.

Lemma scanReachable_inv backend table start options (s : LogScanner) m :
  listsOffsets backend -> Forall exportedScanOption options -> srange 64 (so_Offset start) = true ->
  scanReachable library ops zone compilePredicate backend table start options s m -> scanInv s m.
Proof.
  intros HB Ho Hr R. enough (sn_backend s = backend /\ scanInv s m) as [_ ?] by done.
  induction R as [st E|m m' R [Eb IH] St]; [by eapply inv_opened|]. split; [done|]. subst backend. by eapply inv_step.
Qed.

Lemma handedOut_nonneg rs : 0 <= handedOut rs.
Proof.
  assert (T : forall segments : list (scanSegment Rec), 0 <= totalRows library segments).
  { induction segments as [|[row|batch] segments IH]; cbn; [lia|lia|].
    destruct (ab_Record (sa_Batch batch)) as [r|]; [|lia]. pose proof (ol_rows library ops laws r). lia. }
  induction rs as [|r rs IH]; cbn; [lia|]. pose proof (T (map RowSegment (rs_Records r) ++ map ArrowSegment (rs_ArrowBatches r))).
  unfold resultRows. lia.
Qed.

(** ** Properties *)

(** C11: A subscription is read in order.  Provided servers list offsets that are not negative, whatever
    they answer otherwise and however Poll, Subscribe, Unsubscribe, Wakeup and Close interleave,
    the rows and Arrow batches that moved a subscription lie at increasing, disjoint offsets from
    the offset it was made at to the offset it fetches from next, and that offset passes a
    configured stopping offset only when the subscription was made beyond it. *)
Theorem scan_in_order backend table start options (s : LogScanner) m bucket o :
  listsOffsets backend -> Forall exportedScanOption options -> srange 64 (so_Offset start) = true ->
  scanReachable library ops zone compilePredicate backend table start options s m ->
  ss_offset (sm_state m) !! bucket = Some o ->
  exists first segments, sm_epochs m !! bucket = Some (first, segments) /\
    tiled library first o segments /\ 0 <= o <= maxInt /\ o <= Z.max first (stopOf (sn_config s) bucket).
Proof.
  intros HB Ho Hr R E. apply scanReachable_inv in R; [|done..].
  destruct (si_epochs s m R _ _ E) as (first & segments & Ee & Hf & Ht & Hs). pose proof (si_offsets s m R _ _ E) as Hx. cbn in Hx.
  exists first, segments. split; [done|]. split; [done|]. lia.
Qed.

(** The row limit holds, and every delivered row is accounted for: the scanner's counter is the
    number of rows in the results Poll returned, in those it released on an error, and in the
    one it is putting together; with a row limit the rows returned never exceed it. *)
Theorem scan_limits backend table start options (s : LogScanner) m :
  listsOffsets backend -> Forall exportedScanOption options -> srange 64 (so_Offset start) = true ->
  scanReachable library ops zone compilePredicate backend table start options s m ->
  ss_delivered (sm_state m) + uncounted (sm_phase m) =
    handedOut (sm_returned m) + handedOut (sm_discarded m) + inProgress (sm_phase m) /\
  (0 < lc_RowLimit (sn_config s) -> handedOut (sm_returned m) <= lc_RowLimit (sn_config s) /\
    (ss_delivered (sm_state m) = lc_RowLimit (sn_config s) -> ss_done (sm_state m) = true)).
Proof.
  intros HB Ho Hr R. apply scanReachable_inv in R as I; [|done..]. split; [apply (si_count s m I)|]. intros Hp.
  split; [|by apply (si_done s m I)]. pose proof (si_count s m I). pose proof (si_limit s m I Hp). pose proof (si_phase s m I) as Hph.
  pose proof (handedOut_nonneg (sm_discarded m)).
  assert (0 <= inProgress (sm_phase m)).
  { pose proof (handedOut_nonneg [match sm_phase m with PollIdle => emptyResult | PollVisiting _ _ r | PollFetching _ _ _ _ r | PollAdvancing _ _ _ _ _ _ _ r | PollChecking _ _ r => r end]) as Hx.
    destruct (sm_phase m); cbn in *; lia. }
  destruct (sm_phase m); cbn in *; lia.
Qed.

(** ** Replaying a run *)

Inductive scanEvent :=
| EvPoll | EvVisit | EvAdvance | EvDone | EvWakeup | EvClose
| EvFailed (err : callError) (ctxErr : option callError)
| EvFetched (fetched : scannerFetch)
| EvUnsubscribe (bucket : Z)
| EvSubscribe (bucket : Z) (start : ScanOffset).

Definition execScan (s : LogScanner) (event : scanEvent) (m : machine) : option machine :=
  match event with
  | EvPoll => match sm_phase m with PollIdle => Some (startPoll s m) | _ => None end
  | EvVisit => visitBucket s m
  | EvAdvance => advance s m
  | EvDone => afterBucket m
  | EvWakeup => Some (setState (wakeup (sm_state m)) m)
  | EvClose => Some (setState (closeScanner (sm_state m)) m)
  | EvFailed err ctxErr => fetchFailed s err ctxErr m
  | EvFetched fetched =>
    if srange 64 (sf_filteredEndOffset fetched) && srange 64 (sf_highWatermark fetched)
    then match fetchAnswered library ops zone s fetched m with Some (Ok m) => Some m | _ => None end
    else None
  | EvUnsubscribe bucket => Some (setState (unsubscribe s bucket (sm_state m)) m)
  | EvSubscribe bucket start =>
    match resolveSubscription s bucket start with
    | Ok offset => if srange 64 (so_Offset start) then Some (subscribeStep s bucket offset m) else None
    | _ => None
    end
  end.

Fixpoint replay (s : LogScanner) (events : list scanEvent) (m : machine) : option machine :=
  match events with
  | [] => Some m
  | event :: events => m ← execScan s event m; replay s events m
  end.

Lemma execScan_step (s : LogScanner) event m m' : execScan s event m = Some m' -> scanStep s m m'.
Proof.
  destruct event; cbn; intros E; repeat case_match; simplify_eq;
    try (by econstructor); try (by eapply step_visit); try (by eapply step_failed); try (by eapply step_advance); try (by eapply step_after).
  eapply step_fetched; [|done]. by apply andb_true_iff in H.
Qed.

Lemma replay_reached backend table start options (s : LogScanner) events : forall m m',
  scanReachable library ops zone compilePredicate backend table start options s m -> replay s events m = Some m' ->
  scanReachable library ops zone compilePredicate backend table start options s m'.
Proof.
  induction events as [|event events IH]; intros m m' R E; cbn in E; [by simplify_eq|].
  apply bind_Some in E as (m1 & E1 & E). eapply IH; [|exact E]. eapply reach_step; [exact R|by eapply execScan_step].
Qed.

End Scanner.

(** ** Examples: a scan of two buckets *)

Definition scanTable : Table := MkTable 7 2 fetchPath LogTable fetchTarget 2 0 false "" None.

Definition scanBackend : logScannerBackend :=
  MkScanBackend
    (fun _ => Ok (7, {[0 := MkServerNode 1 "a:1" TabletServer; 3 := MkServerNode 2 "b:1" TabletServer]}))
    (fun _ _ _ _ _ => Ok 0) (Some fetchResolver).

Definition anyFilter (p : unit) (s : Schema) : outcome unit := Ok tt.

Definition openedWith (options : list (option (LogScannerOption unit))) :=
  newLogScanner anyFilter scanBackend scanTable (AtOffset 11) options.

Definition scanAnswer : scannerFetch := MkScannerFetch (concat (map wr_bytes fetchLog)) 16 0 false.

Definition limitedOptions : list (option (LogScannerOption unit)) := [Some (WithScanRowLimit 2)].
Definition scannedAs (options : list (option (LogScannerOption unit))) (events : list scanEvent) :=
  match openedWith options with
  | Ok (s, st) => m ← replay byteLibrary byteOps (fun _ => 0) s events (openedMachine st); Some (s, m)
  | _ => None
  end.

(** Bucket 0 fails, bucket 3 reaches the limit. *)
Definition limitedEvents : list scanEvent :=
  [EvSubscribe 0 Latest; EvPoll; EvVisit; EvFailed NetError None; EvDone; EvVisit; EvFetched scanAnswer; EvAdvance; EvDone; EvVisit; EvPoll].

(** Bucket 0 answers; a wakeup interrupts the fetch from bucket 3. *)
Definition wokenEvents : list scanEvent :=
  [EvPoll; EvVisit; EvFetched scanAnswer; EvAdvance; EvDone; EvVisit; EvWakeup; EvFailed ContextCanceled None].

Lemma scannedAs_reached options events s m :
  scannedAs options events = Some (s, m) ->
  scanReachable byteLibrary byteOps (fun _ => 0) anyFilter scanBackend scanTable (AtOffset 11) options s m.
Proof.
  unfold scannedAs. destruct (openedWith options) as [[s' st]| | |] eqn:E; try done.
  intros (m' & Er & [= -> ->])%bind_Some. eapply replay_reached; [|exact Er]. by apply reach_open.
Qed.

Lemma scanBackend_lists : listsOffsets scanBackend.
Proof. intros ? ? ? ? ? o [= <-]. unfold maxInt. lia. Qed.

Lemma limited_exported : Forall exportedScanOption limitedOptions.
Proof. repeat constructor. Qed.

Lemma scan_in_order_witness :
  exists s m, scannedAs limitedOptions limitedEvents = Some (s, m) /\ ss_offset (sm_state m) !! 3 = Some 16 /\
  exists first segments, sm_epochs m !! 3 = Some (first, segments) /\
    tiled byteLibrary first 16 segments /\ 0 <= 16 <= maxInt /\ 16 <= Z.max first (stopOf (sn_config s) 3).
Proof.
  destruct (scannedAs limitedOptions limitedEvents) as [[s m]|] eqn:E; [|vm_compute in E; discriminate].
  exists s, m. split; [reflexivity|].
  assert (Ho : (fun x => ss_offset (sm_state x.2) !! 3) <$> scannedAs limitedOptions limitedEvents = Some (Some 16)) by (vm_compute; reflexivity).
  rewrite E in Ho. injection Ho as Ho. split; [exact Ho|].
  apply (scan_in_order byteLibrary byteOps (fun _ => 0) byteOps_laws anyFilter scanBackend scanTable (AtOffset 11) limitedOptions s m 3 16);
    [exact scanBackend_lists|exact limited_exported|reflexivity|by eapply scannedAs_reached|exact Ho].
Defined.

Lemma scan_limits_witness :
  exists s m, scannedAs limitedOptions limitedEvents = Some (s, m) /\ ss_delivered (sm_state m) = 2 /\
  ss_delivered (sm_state m) + uncounted (sm_phase m) =
    handedOut byteLibrary (sm_returned m) + handedOut byteLibrary (sm_discarded m) + inProgress byteLibrary (sm_phase m) /\
  (0 < lc_RowLimit (sn_config s) -> handedOut byteLibrary (sm_returned m) <= lc_RowLimit (sn_config s) /\
    (ss_delivered (sm_state m) = lc_RowLimit (sn_config s) -> ss_done (sm_state m) = true)).
Proof.
  destruct (scannedAs limitedOptions limitedEvents) as [[s m]|] eqn:E; [|vm_compute in E; discriminate].
  exists s, m. split; [reflexivity|].
  assert (Ho : (fun x => ss_delivered (sm_state x.2)) <$> scannedAs limitedOptions limitedEvents = Some 2) by (vm_compute; reflexivity).
  rewrite E in Ho. injection Ho as Ho. split; [exact Ho|].
  apply (scan_limits byteLibrary byteOps (fun _ => 0) byteOps_laws anyFilter scanBackend scanTable (AtOffset 11) limitedOptions s m);
    [exact scanBackend_lists|exact limited_exported|reflexivity|by eapply scannedAs_reached].
Defined.

(** An interrupted poll can lose rows.  When a fetch from a later bucket fails after a
    wakeup, Poll releases what it gathered and returns the error alone; the offsets of the
    earlier buckets stay advanced and their rows stay counted, so no later Poll returns them. *)
Theorem scan_poll_loses_rows :
  exists s m, scanReachable byteLibrary byteOps (fun _ => 0) anyFilter scanBackend scanTable (AtOffset 11) [] s m /\
    sm_phase m = PollIdle /\ sm_errors m = [Plain ErrWakeup] /\ sm_returned m = [] /\
    handedOut byteLibrary (sm_discarded m) = 2 /\ ss_delivered (sm_state m) = 2 /\
    ss_offset (sm_state m) !! 0 = Some 16 /\ ss_closed (sm_state m) = false.
Proof.
  destruct (scannedAs [] wokenEvents) as [[s m]|] eqn:E; [|vm_compute in E; discriminate].
  exists s, m. split; [by eapply scannedAs_reached|].
  assert (Ho : (fun x => (sm_phase x.2, sm_errors x.2, sm_returned x.2, handedOut byteLibrary (sm_discarded x.2),
      ss_delivered (sm_state x.2), ss_offset (sm_state x.2) !! 0, ss_closed (sm_state x.2))) <$> scannedAs [] wokenEvents =
    Some (PollIdle, [Plain ErrWakeup], [], 2, 2, Some 16, false)) by (vm_compute; reflexivity).
  rewrite E in Ho. clear E. injection Ho as E1 E2 E3 E4 E5 E6 E7. repeat split; assumption.
Qed.
