(* ===== verification/BatchScanner.v ===== *)
(** * The batch scanner

    Models [pkg/fgo/batch_scanner.go], [pkg/fgo/batch_scanner_options.go],
    [pkg/fgo/batch_scanner_backend.go] and what [pkg/fgo/batch_scanner_decode.go] does with
    decoded rows: opening a scanner on a bucket or a snapshot, the requests [Poll] sends, what it
    makes of the answers, and [Close].

    [Poll] holds [pollMu] while its call is out; [Close] marks the scanner closed at any time and
    waits for [pollMu] before it ends a session.  Each critical section is one step of
    [batchStep], and what a call answers is an argument of the step that receives it.

    The Arrow library, the schema resolver and the answers of servers and snapshot readers are
    parameters.  Contexts appear only as answers: a call that [Close] interrupts may fail or not.
    A nil scanner and reference counts of Arrow records are not modelled. *)

From S2P Require Import Prelude Model Wire Values Codec DecodeSafety Bucket RecordBatch Arrow Errors Partition Metadata SchemaJSON SchemaEvolution ScanDecode ScanBounds LogScanner ValueBatch ScanProperties.

(** ** Configuration *)

Record BatchScannerConfig := MkBatchConfig {
  bn_Limit : Z;
  bn_Projection : list string;
  bn_BatchSizeBytes : Z;
}.

(** The options the package exports. *)
Inductive BatchScannerOption :=
| WithBatchLimit (limit : Z)
| WithBatchProjection (columns : list string)
| WithBatchSizeBytes (bytes : Z).

Definition maxBatchLimit : Z := 2 ^ 31 - 1.

Definition applyBatchOption (o : BatchScannerOption) (c : BatchScannerConfig) : outcome BatchScannerConfig :=
  match o with
  | WithBatchLimit limit =>
    if (limit <=? 0) || (maxBatchLimit <? limit) then Err ErrInvalidConfig
    else Ok (MkBatchConfig limit (bn_Projection c) (bn_BatchSizeBytes c))
  | WithBatchProjection columns =>
    match columns with
    | [] => Err ErrInvalidConfig
    | _ => Ok (MkBatchConfig (bn_Limit c) columns (bn_BatchSizeBytes c))
    end
  | WithBatchSizeBytes bytes =>
    if bytes <=? 0 then Err ErrInvalidConfig
    else Ok (MkBatchConfig (bn_Limit c) (bn_Projection c) bytes)
  end.

(** [None] is a nil option. *)
Fixpoint applyBatchOptions (options : list (option BatchScannerOption)) (c : BatchScannerConfig) : outcome BatchScannerConfig :=
  match options with
  | [] => Ok c
  | None :: _ => Err ErrInvalidConfig
  | Some o :: rest => c ← applyBatchOption o c; applyBatchOptions rest c
  end.

Definition defaultBatchConfig : BatchScannerConfig := MkBatchConfig 1024 [] (2 ^ 20).

(** The position of every column by its name. *)
Fixpoint batchPositions (columns : list Column) (i : Z) (m : gmap string Z) : gmap string Z :=
  match columns with
  | [] => m
  | c :: columns => batchPositions columns (i + 1) (<[col_Name c := i]> m)
  end.

Definition batchProjection (s : Schema) (names : list string) : outcome (list Z) :=
  match names with
  | [] => Ok []
  | _ =>
    _ ← projectSchema s names;
    let positions := batchPositions (sch_Columns s) 0 ∅ in
    Ok (map (fun name => default 0 (positions !! name)) names)
  end.

Definition batchScannerSettings (table : Table) (bucket : TableBucket) (options : list (option BatchScannerOption))
    : outcome (BatchScannerConfig * list Z) :=
  _ ← Schema_Validate (tab_Schema table);
  _ ← TableBucket_Validate bucket;
  _ ← check (tb_TableID bucket =? tab_ID table) ErrInvalidConfig;
  config ← applyBatchOptions options defaultBatchConfig;
  projection ← batchProjection (tab_Schema table) (bn_Projection config);
  Ok (config, projection).

(** ** Scanners *)

Definition isPrimaryKeyTable (table : Table) : bool := match tab_Kind table with PrimaryKeyTable => true | _ => false end.
Definition isLogTable (table : Table) : bool := match tab_Kind table with LogTable => true | _ => false end.

(** A scanner reads a bucket through a backend, which may offer KV sessions, or a snapshot
    through a reader. *)
Inductive batchSource := BackendSource (sessions : bool) | SnapshotSource.

(** The fields that do not change. *)
Record BatchScanner := MkBatchScanner {
  bt_table : Table;
  bt_bucket : TableBucket;
  bt_config : BatchScannerConfig;
  bt_source : batchSource;
  bt_projection : list Z;
  bt_resolver : TablePath -> Z -> outcome Schema;
}.

(** Those that do. *)
Record batchState := MkBatchState {
  bt_scannerID : list byte;
  bt_sequence : Z;
  bt_done : bool;
  bt_closed : bool;
}.

Definition openedBatch : batchState := MkBatchState [] 0 false false.

Definition setBucketCount (count : Z) (b : TableBucket) : TableBucket :=
  MkTableBucket (tb_TableID b) (tb_PartitionID b) (tb_BucketID b) count (tb_Leader b).

(** [newBatchScanner]; [source] is [None] without a backend and a reader, and [resolver] what
    [resolverFor] finds. *)
Definition newBatchScanner (source : option batchSource) (resolver : TablePath -> Z -> outcome Schema) (table : Table)
    (bucket : TableBucket) (options : list (option BatchScannerOption)) : outcome BatchScanner :=
  '(config, projection) ← batchScannerSettings table bucket options;
  match source with
  | None => Err ErrInvalidConfig
  | Some source =>
    let bucket := if (tb_BucketCount bucket <=? 0) && (0 <? tab_BucketCount table)
                  then setBucketCount (int32 (tab_BucketCount table)) bucket else bucket in
    Ok (MkBatchScanner table bucket config source projection resolver)
  end.

(** [Client.NewBatchScanner]: the backend of a client offers KV sessions. *)
Definition NewBatchScanner (closed : bool) (resolver : TablePath -> Z -> outcome Schema) (table : Table)
    (bucket : TableBucket) (options : list (option BatchScannerOption)) : outcome BatchScanner :=
  if closed then Err ErrClosed else newBatchScanner (Some (BackendSource true)) resolver table bucket options.

Record SnapshotBatchRequest := MkSnapshotRequest {
  sb_Table : Table;
  sb_Bucket : TableBucket;
  sb_SnapshotID : Z;
  sb_Projection : list string;
  sb_Limit : Z;
}.

(** [Client.NewSnapshotBatchScanner]: the provider is asked once everything else is in order. *)
Definition NewSnapshotBatchScanner (closed : bool) (provider : option (SnapshotBatchRequest -> outcome unit))
    (table : Table) (bucket : TableBucket) (snapshotID : Z) (options : list (option BatchScannerOption)) : outcome BatchScanner :=
  if closed then Err ErrClosed
  else match provider with
  | None => Err ErrUnsupportedAPI
  | Some openSnapshot =>
    '(config, projection) ← batchScannerSettings table bucket options;
    if (snapshotID <? 0) || negb (isPrimaryKeyTable table) then Err ErrInvalidConfig
    else
      _ ← openSnapshot (MkSnapshotRequest table bucket snapshotID (bn_Projection config) (bn_Limit config));
      Ok (MkBatchScanner table bucket config SnapshotSource projection (fixedSchemaResolver table))
  end.

(** [resolvedTableBuckets]: the buckets of the metadata, in the order of their identifiers. *)
Definition resolvedTableBuckets (tableID partitionID bucketCount : Z) (locations : gmap Z ServerNode) : outcome (list TableBucket) :=
  buckets ← sortedBuckets locations;
  Ok (map (fun bucket => MkTableBucket tableID partitionID bucket bucketCount
                           (default (MkServerNode 0 "" CoordinatorServer) (locations !! bucket))) buckets).

(** [Client.ResolveTableBuckets]: the metadata answers are parameters. *)
Definition ResolveTableBuckets (closed : bool) (fetchTable : TablePath -> result TableMetadata)
    (fetchPartition : PhysicalTablePath -> result PartitionMetadata) (path : PhysicalTablePath) : result (list TableBucket) :=
  if closed then inr (Plain ErrClosed)
  else match PhysicalTablePath_Validate path with
  | Ok _ =>
    if bool_decide (pp_Partition path = ""%string) then
      match fetchTable (pp_TablePath path) with
      | inr e => inr e
      | inl table => routeError (resolvedTableBuckets (tm_ID table) (-1) (tm_BucketCount table) (tm_Buckets table))
      end
    else
      match fetchPartition path with
      | inr e => inr e
      | inl partition =>
        match fetchTable (pp_TablePath path) with
        | inr e => inr e
        | inl table => routeError (resolvedTableBuckets (tm_ID table) (pm_ID partition) (pm_BucketCount partition) (pm_Buckets partition))
        end
      end
  | Err e => inr (Plain e)
  | Panic | OutOfFuel => inr (Plain ErrMetadata)
  end.

(** ** Requests and replies *)

Definition APIKeyLimitScan : Z := 1033.
Definition APIKeyScanKv : Z := 1061.

Record limitScanMessage := MkLimitScanMessage {
  lsm_TableId : Z;
  lsm_BucketId : Z;
  lsm_Limit : Z;
  lsm_PartitionId : option Z;
}.

Record limitScanReply := MkLimitScanReply {
  lsr_ErrorCode : Z;
  lsr_ErrorMessage : string;
  lsr_IsLogTable : bool;
  lsr_Records : list byte;
}.

Definition partitionField (bucket : TableBucket) : option Z :=
  if 0 <=? tb_PartitionID bucket then Some (tb_PartitionID bucket) else None.

(** [limitScan]: its message, and what it makes of the reply. *)
Definition limitScanRequest (bucket : TableBucket) (limit : Z) : limitScanMessage :=
  MkLimitScanMessage (tb_TableID bucket) (tb_BucketID bucket) limit (partitionField bucket).

Definition limitScanResult (reply : limitScanReply) : result (bool * list byte) :=
  match responseServerError (lsr_ErrorCode reply) (lsr_ErrorMessage reply) APIKeyLimitScan with
  | Some e => inr (ServerErr e)
  | None => inl (lsr_IsLogTable reply, lsr_Records reply)
  end.

Record scanBucketMessage := MkScanBucketMessage {
  sbm_TableId : Z;
  sbm_BucketId : Z;
  sbm_Limit : Z;
  sbm_RoutingBucketCount : Z;
  sbm_PartitionId : option Z;
}.

(** A request names the session it continues or the bucket it opens one on. *)
Record scanKvMessage := MkScanKvMessage {
  skm_CallSeqId : Z;
  skm_BatchSizeBytes : Z;
  skm_CloseScanner : bool;
  skm_Target : list byte + scanBucketMessage;
}.

Record scanKvReply := MkScanKvReply {
  skr_ErrorCode : Z;
  skr_ErrorMessage : string;
  skr_ScannerId : list byte;
  skr_HasMoreResults : bool;
  skr_Records : list byte;
}.

Record kvSessionBatch := MkSessionBatch {
  kb_scannerID : list byte;
  kb_hasMore : bool;
  kb_records : list byte;
}.

Definition scanKVRequest (bucket : TableBucket) (limit batchSize : Z) (scannerID : list byte) (sequence : Z) (closeScanner : bool)
    : outcome scanKvMessage :=
  match scannerID with
  | [] =>
    if tb_BucketCount bucket <=? 0 then Err ErrMetadata
    else Ok (MkScanKvMessage sequence batchSize closeScanner
               (inr (MkScanBucketMessage (tb_TableID bucket) (tb_BucketID bucket) limit (tb_BucketCount bucket) (partitionField bucket))))
  | _ => Ok (MkScanKvMessage sequence batchSize closeScanner (inl scannerID))
  end.

Definition scanKVResult (reply : scanKvReply) : result kvSessionBatch :=
  match responseServerError (skr_ErrorCode reply) (skr_ErrorMessage reply) APIKeyScanKv with
  | Some e => inr (ServerErr e)
  | None => inl (MkSessionBatch (skr_ScannerId reply) (skr_HasMoreResults reply) (skr_Records reply))
  end.

#[export] Instance byte_eq_decision : EqDecision byte := Byte.byte_eq_dec.

(** [clientBatchScanBackend]: both calls, with the client's request as a parameter. *)
Definition clientLimitScan (requestTo : ServerNode -> limitScanMessage -> result limitScanReply) (bucket : TableBucket) (limit : Z)
    : result (bool * list byte) :=
  match requestTo (tb_Leader bucket) (limitScanRequest bucket limit) with
  | inr e => inr e
  | inl reply => limitScanResult reply
  end.

Definition clientScanKV (requestTo : ServerNode -> scanKvMessage -> result scanKvReply) (bucket : TableBucket)
    (limit batchSize : Z) (scannerID : list byte) (sequence : Z) (closeScanner : bool) : result kvSessionBatch :=
  match scanKVRequest bucket limit batchSize scannerID sequence closeScanner with
  | Ok message => match requestTo (tb_Leader bucket) message with inr e => inr e | inl reply => scanKVResult reply end
  | Err e => inr (Plain e)
  | Panic | OutOfFuel => inr (Plain ErrMetadata)
  end.

Section Scanner.
Context {Rec Arr : Type} (library : ArrowLibrary Rec) (ops : ArrowOps Rec Arr) (zone : Z -> Z).

(** ** Results *)

Record BatchResult := MkBatchResult {
  br_Rows : list Row;
  br_ArrowBatches : list (ArrowLogBatch Rec);
  br_Done : bool;
}.

Definition emptyBatch (over : bool) : BatchResult := MkBatchResult [] [] over.

Fixpoint projectRowLoop (projection : list Z) (rows : list Row) : outcome (list Row) :=
  match rows with
  | [] => Ok []
  | row :: rows => projected ← projectValues row projection; rest ← projectRowLoop projection rows; Ok (projected :: rest)
  end.

Definition projectRows (s : BatchScanner) (rows : list Row) : outcome (list Row) :=
  match bt_projection s with [] => Ok rows | projection => projectRowLoop projection rows end.

Definition projectArrowBatches (s : BatchScanner) (batches : list (ScanArrowBatch Rec)) : outcome (list (ScanArrowBatch Rec)) :=
  match bt_projection s with
  | [] => Ok batches
  | projection =>
    projected ← projectSchema (tab_Schema (bt_table s)) (bn_Projection (bt_config s));
    fields ← ArrowSchema projected;
    projectLoopArrows library ops fields projection batches
  end.

(** The loop of [limitLatestLogRecords]: drops the first [skip] rows of the segments. *)
Fixpoint skipSegments (segments : list (scanSegment Rec)) (skip : Z) : outcome (list ScanRecord * list (ScanArrowBatch Rec)) :=
  match segments with
  | [] => Ok ([], [])
  | RowSegment row :: segments =>
    if 0 <? skip then skipSegments segments (skip - 1)
    else '(rows, arrows) ← skipSegments segments skip; Ok (row :: rows, arrows)
  | ArrowSegment item :: segments =>
    count ← scanRows library item;
    if count <=? skip then skipSegments segments (skip - count)
    else if 0 <? skip then
      sliced ← sliceArrowLogBatch ops (sa_Batch item) skip count;
      '(rows, arrows) ← skipSegments segments 0;
      Ok (rows, MkScanArrow (sa_Bucket item) sliced :: arrows)
    else '(rows, arrows) ← skipSegments segments skip; Ok (rows, item :: arrows)
  end.

Definition limitLatestLogRecords (rows : list ScanRecord) (arrows : list (ScanArrowBatch Rec)) (limit : Z)
    : outcome (list ScanRecord * list (ScanArrowBatch Rec)) :=
  total ← scanResultRows library rows arrows;
  if total - limit <=? 0 then Ok (rows, arrows) else skipSegments (orderedScanSegments rows arrows) (total - limit).

(** [rows[len(rows)-limit:]] when there are more. *)
Definition latestRows (rows : list Row) (limit : Z) : outcome (list Row) :=
  if limit <? glen rows then slice_from rows (glen rows - limit) else Ok rows.

(** [decodeCurrent]; [br_Done] is set by [Poll]. *)
Definition decodeCurrent (s : BatchScanner) (isLog : bool) (encoded : list byte) : outcome BatchResult :=
  let limit := bn_Limit (bt_config s) in
  if negb (Bool.eqb isLog (isLogTable (bt_table s))) then Err ErrValidation
  else match encoded with
  | [] => Ok (emptyBatch false)
  | _ =>
    if negb isLog then
      rows ← decodeValueRecordBatchWithResolver (bt_resolver s) (bt_table s) encoded;
      rows ← latestRows rows limit;
      rows ← projectRows s rows;
      Ok (MkBatchResult rows [] false)
    else
      let compacted := negb (EqualFold (logFormatOf (bt_table s)) LogFormatIndexed) in
      '(_, records, arrows) ← decodeFetchedLogWithResolver library ops zone (bt_resolver s) (tab_Path (bt_table s))
          (tab_Schema (bt_table s)) (tb_BucketID (bt_bucket s)) 0 encoded compacted;
      '(records, arrows) ← limitLatestLogRecords records arrows limit;
      arrows ← projectArrowBatches s arrows;
      rows ← projectRows s (map (fun r => rec_Value (sr_Record r)) records);
      Ok (MkBatchResult rows (map sa_Batch arrows) false)
  end.

(** ** Poll *)

(** What a scanner asks of its backend or reader. *)
Inductive batchCall :=
| CallLimitScan (limit : Z)
| CallScanKV (scannerID : list byte) (sequence : Z) (closeScanner : bool)
| CallReadBatch (limit : Z)
| CallCloseReader.

(** How a call to [ReadBatch] ends. *)
Inductive readEnd := ReadMore | ReadEOF | ReadFailed (e : callError).

Inductive batchAnswer :=
| AnswerLimitScan (answer : result (bool * list byte))
| AnswerScanKV (answer : result kvSessionBatch)
| AnswerReadBatch (rows : list Row) (end_ : readEnd).

(** The result of a poll: a batch, or an error. *)
Definition pollResult := result BatchResult.

Definition setDone (st : batchState) : batchState :=
  MkBatchState (bt_scannerID st) (bt_sequence st) true (bt_closed st).

Definition finishedBatch (r : BatchResult) : BatchResult := MkBatchResult (br_Rows r) (br_ArrowBatches r) true.

(** The call of a poll of a scanner that is neither closed nor done. *)
Definition pollCall (s : BatchScanner) (st : batchState) : batchCall :=
  match bt_source s with
  | SnapshotSource => CallReadBatch (bn_Limit (bt_config s))
  | BackendSource sessions =>
    if sessions && isPrimaryKeyTable (bt_table s) then CallScanKV (bt_scannerID st) (bt_sequence st) false
    else CallLimitScan (int32 (bn_Limit (bt_config s)))
  end.

Definition answeredLimitScan (s : BatchScanner) (answer : result (bool * list byte)) (st : batchState)
    : outcome (batchState * pollResult) :=
  match answer with
  | inr e => Ok (st, inr e)
  | inl (isLog, encoded) =>
    match decodeCurrent s isLog encoded with
    | Ok r => Ok (setDone st, inl (finishedBatch r))
    | Err e => Ok (st, inr (Plain e))
    | Panic => Panic
    | OutOfFuel => OutOfFuel
    end
  end.

(** The rows of a session's answer, which may have none. *)
Definition sessionRows (s : BatchScanner) (records : list byte) : outcome (list Row) :=
  match records with
  | [] => Ok []
  | _ => decodeValueRecordBatchWithResolver (bt_resolver s) (bt_table s) records
  end.

(** [pollKVSession]. *)
Definition answeredScanKV (s : BatchScanner) (answer : result kvSessionBatch) (st : batchState)
    : outcome (batchState * pollResult) :=
  match answer with
  | inr e => Ok (st, inr e)
  | inl batch =>
    if glen (kb_scannerID batch) =? 0 then
      if kb_hasMore batch || negb (glen (kb_records batch) =? 0) || negb (glen (bt_scannerID st) =? 0)
      then Ok (st, inr (Plain ErrValidation))
      else Ok (setDone st, inl (emptyBatch true))
    else if negb (glen (bt_scannerID st) =? 0) && negb (bool_decide (bt_scannerID st = kb_scannerID batch))
    then Ok (st, inr (Plain ErrValidation))
    else
      let st := MkBatchState (kb_scannerID batch) (int32 (bt_sequence st + 1)) (bt_done st) (bt_closed st) in
      match sessionRows s (kb_records batch) with
      | Ok rows =>
        rows ← projectRows s rows;
        Ok (if kb_hasMore batch then st else setDone st, inl (MkBatchResult rows [] (negb (kb_hasMore batch))))
      | Err e => Ok (st, inr (Plain e))
      | Panic => Panic
      | OutOfFuel => OutOfFuel
      end
  end.

(** [pollSnapshot]. *)
Definition answeredReadBatch (s : BatchScanner) (rows : list Row) (end_ : readEnd) (st : batchState)
    : outcome (batchState * pollResult) :=
  let exceeded := bn_Limit (bt_config s) <? glen rows in
  match end_ with
  | ReadFailed e => Ok (st, inr e)
  | ReadEOF =>
    if exceeded then Ok (st, inr (Plain ErrValidation))
    else rows ← projectRows s rows; Ok (setDone st, inl (MkBatchResult rows [] true))
  | ReadMore =>
    if exceeded then Ok (st, inr (Plain ErrValidation))
    else rows ← projectRows s rows; Ok (st, inl (MkBatchResult rows [] false))
  end.

(** An answer to the call that was made. *)
Definition batchAnswered (s : BatchScanner) (call : batchCall) (answer : batchAnswer) (st : batchState)
    : option (outcome (batchState * pollResult)) :=
  match call, answer with
  | CallLimitScan _, AnswerLimitScan a => Some (answeredLimitScan s a st)
  | CallScanKV _ _ false, AnswerScanKV a => Some (answeredScanKV s a st)
  | CallReadBatch _, AnswerReadBatch rows end_ => Some (answeredReadBatch s rows end_ st)
  | _, _ => None
  end.

(** ** Runs *)

(** Who holds [pollMu]: nobody, a poll whose call is out, or [Close] ending the session. *)
Inductive batchLock := LockFree | LockPoll (call : batchCall) | LockClose.

(** A scanner with its poll and its [Close].  [bh_calls] are the calls made, [bh_answers] the answers
    polls got to theirs, [bh_results] what the polls returned, oldest first; [bh_closing] is set
    while [Close] waits for [pollMu]. *)
Record batchMachine := MkBatchMachine {
  bh_state : batchState;
  bh_lock : batchLock;
  bh_closing : bool;
  bh_calls : list batchCall;
  bh_answers : list batchAnswer;
  bh_results : list pollResult;
}.

Definition openedMachineOf : batchMachine := MkBatchMachine openedBatch LockFree false [] [] [].

Definition pollReturns (r : pollResult) (m : batchMachine) : batchMachine :=
  MkBatchMachine (bh_state m) LockFree (bh_closing m) (bh_calls m) (bh_answers m) (bh_results m ++ [r]).

Definition makeCall (lock : batchLock) (call : batchCall) (m : batchMachine) : batchMachine :=
  MkBatchMachine (bh_state m) lock (bh_closing m) (bh_calls m ++ [call]) (bh_answers m) (bh_results m).

(** [Poll], up to its call. *)
Definition pollStart (s : BatchScanner) (m : batchMachine) : option batchMachine :=
  match bh_lock m with
  | LockFree =>
    let st := bh_state m in
    Some (if bt_closed st then pollReturns (inr (Plain ErrClosed)) m
          else if bt_done st then pollReturns (inl (emptyBatch true)) m
          else makeCall (LockPoll (pollCall s st)) (pollCall s st) m)
  | _ => None
  end.

(** [Poll], from the answer on. *)
Definition pollAnswered (s : BatchScanner) (answer : batchAnswer) (m : batchMachine) : option (outcome batchMachine) :=
  match bh_lock m with
  | LockPoll call =>
    '(o) ← batchAnswered s call answer (bh_state m);
    Some ('(st, r) ← o; Ok (MkBatchMachine st LockFree (bh_closing m) (bh_calls m) (bh_answers m ++ [answer]) (bh_results m ++ [r])))
  | _ => None
  end.

(** [Close], up to [pollMu]: a snapshot's reader is closed at once, a session later. *)
Definition closeStart (s : BatchScanner) (m : batchMachine) : batchMachine :=
  let st := bh_state m in
  if bt_closed st then m
  else
    let st := MkBatchState (bt_scannerID st) (bt_sequence st) (bt_done st) true in
    match bt_source s with
    | SnapshotSource => MkBatchMachine st (bh_lock m) (bh_closing m) (bh_calls m ++ [CallCloseReader]) (bh_answers m) (bh_results m)
    | BackendSource sessions => MkBatchMachine st (bh_lock m) sessions (bh_calls m) (bh_answers m) (bh_results m)
    end.

(** [Close] with [pollMu]: it ends the session when one is open. *)
Definition closeSession (m : batchMachine) : option batchMachine :=
  match bh_lock m, bh_closing m with
  | LockFree, true =>
    let st := bh_state m in
    let m := MkBatchMachine st LockFree false (bh_calls m) (bh_answers m) (bh_results m) in
    Some (if negb (glen (bt_scannerID st) =? 0) && negb (bt_done st)
          then makeCall LockClose (CallScanKV (bt_scannerID st) (bt_sequence st) true) m else m)
  | _, _ => None
  end.

(** The call of [Close] is answered, whatever the answer. *)
Definition closeAnswered (m : batchMachine) : option batchMachine :=
  match bh_lock m with
  | LockClose => Some (MkBatchMachine (bh_state m) LockFree (bh_closing m) (bh_calls m) (bh_answers m) (bh_results m))
  | _ => None
  end.

Inductive batchEvent := EvBatchPoll | EvBatchAnswer (answer : batchAnswer) | EvBatchClose | EvBatchEnd | EvBatchEnded.

Definition batchExec (s : BatchScanner) (event : batchEvent) (m : batchMachine) : option batchMachine :=
  match event with
  | EvBatchPoll => pollStart s m
  | EvBatchAnswer answer => match pollAnswered s answer m with Some (Ok m) => Some m | _ => None end
  | EvBatchClose => Some (closeStart s m)
  | EvBatchEnd => closeSession m
  | EvBatchEnded => closeAnswered m
  end.

Fixpoint batchReplay (s : BatchScanner) (events : list batchEvent) (m : batchMachine) : option batchMachine :=
  match events with
  | [] => Some m
  | event :: events => m ← batchExec s event m; batchReplay s events m
  end.

Definition batchReachable (s : BatchScanner) (m : batchMachine) : Prop :=
  exists events, batchReplay s events openedMachineOf = Some m.

End Scanner.
