(* ===== verification/BatchProperties.v ===== *)
(** * What a batch scanner delivers

    Theorems about [BatchScanner]: the rows a limit leaves, the protocol of a KV session, and
    what the polls of a scanner return. *)

From S2P Require Import Prelude Model Wire Values Codec DecodeSafety Bucket RecordBatch Arrow Errors Partition Metadata SchemaJSON SchemaEvolution ScanDecode ScanBounds LogScanner ValueBatch ScanProperties BatchScanner.

(** ** The latest rows of a log *)

Section Latest.
Context {Rec Arr : Type} (library : ArrowLibrary Rec) (ops : ArrowOps Rec Arr) (laws : ArrowOpsLaws library ops).

(** The offsets of the rows of a segment, and of segments. *)
Definition segmentOffsets (s : scanSegment Rec) : list Z := seqZ (segmentOffset s) (segmentSize library s).
Definition allOffsets (segments : list (scanSegment Rec)) : list Z := concat (map segmentOffsets segments).

(** A suffix, whose first segment may be an Arrow batch cut at its start. *)
Definition cutSuffix (segments kept : list (scanSegment Rec)) : Prop :=
  exists dropped rest, segments = dropped ++ rest /\
    (kept = rest \/ exists item sliced n later, rest = ArrowSegment item :: later /\
       sliceArrowLogBatch ops (sa_Batch item) n (segmentSize library (ArrowSegment item)) = Ok sliced /\
       kept = ArrowSegment (MkScanArrow (sa_Bucket item) sliced) :: later).

Lemma cutSuffix_cons x segments kept : cutSuffix segments kept -> cutSuffix (x :: segments) kept.
Proof. intros (dropped & rest & -> & H). by exists (x :: dropped), rest. Qed.

Lemma segment_size_nonneg s : 0 <= segmentSize library s.
Proof. destruct s as [row|item]; cbn; [lia|]. case_match; [by apply (ol_rows library ops)|lia]. Qed.

Lemma totalRows_pos_or segments : 0 <= totalRows library segments.
Proof. induction segments as [|x l IH]; cbn; [done|]. pose proof (segment_size_nonneg x). lia. Qed.

Lemma length_segmentOffsets s : length (segmentOffsets s) = Z.to_nat (segmentSize library s).
Proof. unfold segmentOffsets. by rewrite length_seqZ. Qed.

Lemma skipSegments_zero segments from next : tiled library from next segments -> Forall (changesKnown library) segments ->
  skipSegments library ops segments 0 = Ok (rowsOf segments, arrowsOf segments).
Proof.
  intros Ht F. revert from Ht. induction F as [|[row|item] segments K F IH]; intros from; [done|..].
  - intros (_ & _ & Ht). cbn. by erewrite IH by exact Ht.
  - intros (_ & Hp & Ht). destruct K as (r & Er & En). cbn in Hp. rewrite Er in Hp. cbn [skipSegments].
    unfold scanRows, recordOf. rewrite Er. cbn [mbind outcome_bind]. destruct (Z.leb_spec (al_NumRows library r) 0); [lia|].
    cbn. by erewrite IH by exact Ht.
Qed.

(** Cutting the first [n] rows of a batch. *)
Lemma slice_segment item n from next segments :
  changesKnown library (ArrowSegment item) -> 0 <= from -> next <= maxInt -> tiled library from next (ArrowSegment item :: segments) ->
  0 < n < segmentSize library (ArrowSegment item) ->
  exists sliced, sliceArrowLogBatch ops (sa_Batch item) n (segmentSize library (ArrowSegment item)) = Ok sliced /\
    let kept := ArrowSegment (MkScanArrow (sa_Bucket item) sliced) in
    segmentOffset kept = segmentOffset (ArrowSegment item) + n /\ segmentSize library kept = segmentSize library (ArrowSegment item) - n /\
    changesKnown library kept.
Proof.
  intros (r & Er & En) Hf Hm (Ho & Hp & Ht) Hn. apply tiled_le in Ht. cbn [segmentSize segmentOffset] in *. rewrite Er in *.
  unfold sliceArrowLogBatch, recordOf. rewrite Er. cbn [mbind outcome_bind].
  destruct (slice_safe (ab_Changes (sa_Batch item)) n (al_NumRows library r)) as [cs Ec]; [lia|lia|]. rewrite Ec. cbn [mbind outcome_bind].
  eexists. split; [reflexivity|]. cbn. apply slice_glen in Ec. rewrite (ol_slice library ops laws) by lia.
  split; [apply swrap_small; [lia|]; unfold srange, maxInt in *; change (2 ^ (64 - 1)) with (2 ^ 63); lia|]. split; [done|].
  eexists. split; [reflexivity|]. rewrite (ol_slice library ops laws) by lia. cbn. lia.
Qed.

Lemma skipSegments_spec segments : forall from next skip,
  0 <= from -> next <= maxInt -> tiled library from next segments -> Forall (changesKnown library) segments ->
  0 <= skip <= totalRows library segments ->
  exists kept, skipSegments library ops segments skip = Ok (rowsOf kept, arrowsOf kept) /\ cutSuffix segments kept /\
    tiled library from next kept /\ Forall (changesKnown library) kept /\
    allOffsets kept = drop (Z.to_nat skip) (allOffsets segments).
Proof.
  induction segments as [|x segments IH]; intros from next skip Hf Hm Ht F Hs.
  { exists []. cbn in *. rewrite drop_nil. split; [done|]. split; [by exists [], []; auto|]. by split; [|split]. }
  destruct (decide (skip = 0)) as [->|Hz].
  { exists (x :: segments). split; [by eapply skipSegments_zero|]. split; [by exists [], (x :: segments); auto|]. done. }
  apply Forall_cons in F as [K F]. pose proof Ht as (Ho & Hp & Ht'). cbn [totalRows] in Hs.
  assert (Hd : forall n, segmentSize library x <= n -> allOffsets (x :: segments) = segmentOffsets x ++ allOffsets segments /\
    drop (Z.to_nat n) (segmentOffsets x ++ allOffsets segments) = drop (Z.to_nat (n - segmentSize library x)) (allOffsets segments)).
  { intros n Hn. split; [done|]. rewrite drop_app_ge by (rewrite length_segmentOffsets; lia). rewrite length_segmentOffsets. f_equal. lia. }
  assert (Hrest : segmentSize library x <= skip -> exists kept, skipSegments library ops segments (skip - segmentSize library x) =
      Ok (rowsOf kept, arrowsOf kept) /\ cutSuffix (x :: segments) kept /\ tiled library from next kept /\ Forall (changesKnown library) kept /\
      allOffsets kept = drop (Z.to_nat skip) (allOffsets (x :: segments))).
  { intros Hle. destruct (IH (segmentOffset x + segmentSize library x) next (skip - segmentSize library x)) as (kept & E & Hc & Hk & Fk & Hoff); try done; [lia|lia|].
    exists kept. split; [done|]. split; [by apply cutSuffix_cons|]. split; [eapply tiled_weaken; [|exact Hk]; lia|]. split; [done|].
    destruct (Hd skip Hle) as [-> ->]. done. }
  destruct x as [row|item].
  - cbn [skipSegments]. destruct (Z.ltb_spec 0 skip); [|lia]. apply Hrest. cbn. lia.
  - pose proof K as (r & Er & En). assert (Esz : segmentSize library (ArrowSegment item) = al_NumRows library r) by (cbn; by rewrite Er).
    cbn [skipSegments]. unfold scanRows, recordOf. rewrite Er. cbn [mbind outcome_bind]. rewrite <- Esz.
    destruct (Z.leb_spec (segmentSize library (ArrowSegment item)) skip) as [Hle|Hgt]; [by apply Hrest|].
    destruct (Z.ltb_spec 0 skip); [|lia].
    destruct (slice_segment item skip from next segments) as (sliced & Es & H1 & H2 & H3); [done..|lia|].
    rewrite Es. cbn [mbind outcome_bind]. rewrite (skipSegments_zero segments (segmentOffset (ArrowSegment item) + segmentSize library (ArrowSegment item)) next) by done.
    cbn [mbind outcome_bind]. exists (ArrowSegment (MkScanArrow (sa_Bucket item) sliced) :: segments). split; [done|].
    split; [exists [], (ArrowSegment item :: segments); split; [done|]; right; by exists item, sliced, skip, segments|].
    split; [cbn [tiled]; rewrite H1, H2; split; [lia|]; split; [lia|]; eapply tiled_weaken; [|exact Ht']; lia|].
    split; [by constructor|]. unfold allOffsets. cbn [map concat]. rewrite drop_app_le by (rewrite length_segmentOffsets; lia). f_equal.
    unfold segmentOffsets. rewrite H1, H2. set (size := segmentSize library (ArrowSegment item)) in *.
    replace size with (skip + (size - skip)) at 2 by lia. rewrite seqZ_app by lia.
    by rewrite drop_app_ge, length_seqZ, Nat.sub_diag by (rewrite length_seqZ; lia).
Qed.

Lemma allOffsets_length segments : glen (allOffsets segments) = totalRows library segments.
Proof.
  induction segments as [|x segments IH]; [done|]. unfold allOffsets in *. cbn [map concat totalRows]. rewrite glen_app, IH.
  unfold glen. rewrite length_segmentOffsets. pose proof (segment_size_nonneg x). lia.
Qed.

Lemma scanResultRows_total segments : Forall (changesKnown library) segments ->
  scanResultRows library (rowsOf segments) (arrowsOf segments) = Ok (totalRows library segments).
Proof. apply totalRows_result. Qed.

Lemma limitLatest_spec segments from next limit :
  0 <= from -> next <= maxInt -> tiled library from next segments -> Forall (changesKnown library) segments -> 0 <= limit ->
  exists kept, limitLatestLogRecords library ops (rowsOf segments) (arrowsOf segments) limit = Ok (rowsOf kept, arrowsOf kept) /\
    cutSuffix segments kept /\ tiled library from next kept /\ Forall (changesKnown library) kept /\
    allOffsets kept = drop (Z.to_nat (totalRows library segments - limit)) (allOffsets segments) /\
    totalRows library kept = Z.min limit (totalRows library segments).
Proof.
  intros Hf Hm Ht F Hl. pose proof (totalRows_pos_or segments). unfold limitLatestLogRecords. rewrite scanResultRows_total by done. cbn [mbind outcome_bind].
  destruct (Z.leb_spec (totalRows library segments - limit) 0).
  - exists segments. split; [done|]. split; [by exists [], segments; auto|]. replace (Z.to_nat _) with 0%nat by lia. repeat (split; [done|]). lia.
  - rewrite (ordered_tiled library segments from next Ht).
    destruct (skipSegments_spec segments from next (totalRows library segments - limit)) as (kept & E & H1 & H2 & H3 & H4); try done; [lia|].
    exists kept. repeat (split; [done|]). rewrite <- (allOffsets_length kept), H4. unfold glen. rewrite length_drop.
    pose proof (allOffsets_length segments) as Hg. unfold glen in Hg. lia.
Qed.

End Latest.

(** ** Limits *)

(** The scanners that can be opened. *)
Inductive openedBatchScanner : BatchScanner -> Prop :=
| opened_current source resolver table bucket options s :
    newBatchScanner source resolver table bucket options = Ok s -> openedBatchScanner s
| opened_snapshot closed provider table bucket snapshotID options s :
    NewSnapshotBatchScanner closed provider table bucket snapshotID options = Ok s -> openedBatchScanner s.

Definition batchConfigOK (c : BatchScannerConfig) : Prop := 0 < bn_Limit c <= maxBatchLimit /\ 0 < bn_BatchSizeBytes c.

Lemma applyBatchOptions_ok options : forall c c', batchConfigOK c -> applyBatchOptions options c = Ok c' -> batchConfigOK c'.
Proof.
  induction options as [|[o|] options IH]; intros c c' [H1 H2] E; cbn in E; [by injection E as <-| |done].
  apply bind_Ok in E as (c1 & E1 & E). eapply IH; [|exact E].
  destruct o; cbn in E1; case_match; try done; injection E1 as <-; split; cbn; lia.
Qed.

Lemma batchScannerSettings_ok table bucket options config projection :
  batchScannerSettings table bucket options = Ok (config, projection) -> batchConfigOK config.
Proof.
  unfold batchScannerSettings. intros E. inv_ok. eapply applyBatchOptions_ok; [|done]. vm_compute. by repeat split.
Qed.

Lemma opened_config s : openedBatchScanner s -> batchConfigOK (bt_config s).
Proof.
  destruct 1 as [source resolver table bucket options s E|closed provider table bucket snapshotID options s E].
  - unfold newBatchScanner in E. apply bind_Ok in E as ([config projection] & Es & E). destruct source; [|done]. injection E as <-.
    by eapply batchScannerSettings_ok.
  - unfold NewSnapshotBatchScanner in E. destruct closed; [done|]. destruct provider as [openSnapshot|]; [|done].
    apply bind_Ok in E as ([config projection] & Es & E). case_match; [done|]. apply bind_Ok in E as ([] & _ & E). injection E as <-.
    by eapply batchScannerSettings_ok.
Qed.

Section Limits.
Context {Rec Arr : Type} (library : ArrowLibrary Rec) (ops : ArrowOps Rec Arr) (zone : Z -> Z) (laws : ArrowOpsLaws library ops).

Definition arrowBatchRows (b : ArrowLogBatch Rec) : Z := match ab_Record b with Some r => al_NumRows library r | None => 0 end.
Definition batchRows (r : BatchResult) : Z := glen (br_Rows r) + foldr Z.add 0 (map arrowBatchRows (br_ArrowBatches r)).

Lemma totalRows_split segments : totalRows library segments =
  glen (rowsOf segments) + foldr Z.add 0 (map arrowBatchRows (map sa_Batch (arrowsOf segments))).
Proof.
  induction segments as [|[row|item] segments IH]; [done|..]; unfold rowsOf, arrowsOf in *; cbn; rewrite IH; [rewrite glen_cons|unfold arrowBatchRows]; lia.
Qed.

Lemma projectRowLoop_length projection rows : forall rows', projectRowLoop projection rows = Ok rows' -> glen rows' = glen rows.
Proof. induction rows as [|row rows IH]; intros rows' E; cbn in E; inv_ok; [done|]. rewrite !glen_cons. f_equal. by apply IH. Qed.

Lemma projectRows_length s rows rows' : projectRows s rows = Ok rows' -> glen rows' = glen rows.
Proof. unfold projectRows. case_match; [by intros [= <-]|apply projectRowLoop_length]. Qed.

Lemma projectBatches_kept s arrows arrows' :
  Forall (fun a => exists r, ab_Record (sa_Batch a) = Some r /\ 0 <= al_NumRows library r) arrows ->
  projectArrowBatches library ops s arrows = Ok arrows' -> Forall2 (keptBatch library) arrows arrows'.
Proof.
  intros F E. unfold projectArrowBatches in E. case_match.
  - injection E as <-. by apply keptBatch_refl.
  - apply bind_Ok in E as (projected & _ & E). apply bind_Ok in E as (fields & _ & E). by eapply projectLoop_kept.
Qed.

Lemma kept_rows arrows arrows' : Forall2 (keptBatch library) arrows arrows' ->
  map arrowBatchRows (map sa_Batch arrows') = map arrowBatchRows (map sa_Batch arrows).
Proof.
  induction 1 as [|a a' arrows arrows' (_ & _ & r & r' & E & E' & En) F IH]; [done|]. cbn. f_equal; [|done].
  unfold arrowBatchRows. rewrite E, E'. lia.
Qed.

(** What a limit scan of a log makes of its answer. *)
Definition latestOfLog (s : BatchScanner) (encoded : list byte) (r : BatchResult) : Prop :=
  exists next segments kept,
    decodeFetchedLogWithResolver library ops zone (bt_resolver s) (tab_Path (bt_table s)) (tab_Schema (bt_table s))
      (tb_BucketID (bt_bucket s)) 0 encoded (negb (EqualFold (logFormatOf (bt_table s)) LogFormatIndexed)) =
      Ok (next, rowsOf segments, arrowsOf segments) /\
    tiled library 0 next segments /\ cutSuffix library ops segments kept /\
    allOffsets library kept = drop (Z.to_nat (totalRows library segments - bn_Limit (bt_config s))) (allOffsets library segments) /\
    projectRows s (map (fun r => rec_Value (sr_Record r)) (rowsOf kept)) = Ok (br_Rows r) /\
    (exists batches, br_ArrowBatches r = map sa_Batch batches /\ Forall2 (keptBatch library) (arrowsOf kept) batches) /\
    batchRows r = Z.min (bn_Limit (bt_config s)) (totalRows library segments).

Lemma decodeCurrent_log s encoded r : batchConfigOK (bt_config s) ->
  decodeCurrent library ops zone s true encoded = Ok r -> latestOfLog s encoded r.
Proof.
  intros [Hl _] E. unfold decodeCurrent in E. destruct (negb _); [done|]. destruct encoded as [|b encoded].
  { injection E as <-. exists 0, [], []. cbn. split; [done|]. split; [lia|]. split; [by exists [], []; auto|].
    split; [by rewrite drop_nil|]. split; [unfold projectRows; by case_match|]. split; [by exists []|]. change (batchRows (emptyBatch false)) with 0. lia. }
  cbn [negb] in E. apply bind_Ok in E as ([[next rows] arrows] & Ed & E). apply bind_Ok in E as ([rows1 arrows1] & El & E).
  apply bind_Ok in E as (arrows2 & Ea & E). apply bind_Ok in E as (rows2 & Er & E). injection E as <-.
  pose proof Ed as Hd. apply (decodeLoop_tiled library ops laws) in Hd as [(segments & Ht & <- & <- & Hk) Hm].
  destruct (limitLatest_spec library ops laws segments 0 next (bn_Limit (bt_config s))) as (kept & E & H1 & H2 & H3 & H4 & H5); try done; [lia|].
  rewrite E in El. injection El as <- <-. assert (K : Forall2 (keptBatch library) (arrowsOf kept) arrows2).
  { eapply projectBatches_kept; [|exact Ea]. eapply decodedAs_records. by exists kept. }
  exists next, segments, kept. repeat (split; [done|]). split; [by exists arrows2|].
  unfold batchRows. cbn. rewrite (kept_rows _ _ K), (projectRows_length _ _ _ Er), glen_map, <- totalRows_split. done.
Qed.

Lemma batch_invariant (I : batchMachine -> Prop) s :
  I openedMachineOf -> (forall event m m', I m -> batchExec library ops zone s event m = Some m' -> I m') ->
  forall m, batchReachable library ops zone s m -> I m.
Proof.
  intros H0 Hs m [events E]. revert E. generalize (openedMachineOf (Rec := Rec)), H0. clear H0. induction events as [|event events IH]; intros m0 H0 E; cbn in E.
  - by injection E as <-.
  - apply bind_Some in E as (m1 & E1 & E). eapply IH; [|exact E]. by eapply Hs.
Qed.

(** The scanners whose polls go through a KV session. *)
Definition usesSession (s : BatchScanner) : bool :=
  match bt_source s with BackendSource sessions => sessions && isPrimaryKeyTable (bt_table s) | SnapshotSource => false end.

Definition withinLimit (s : BatchScanner) (r : pollResult (Rec := Rec)) : Prop :=
  match r with inl b => batchRows b <= bn_Limit (bt_config s) | inr _ => True end.

Lemma latestRows_length rows limit rows' : 0 <= limit -> latestRows rows limit = Ok rows' -> glen rows' <= limit.
Proof.
  unfold latestRows. intros Hl. destruct (Z.ltb_spec limit (glen rows)); [|intros [= <-]; lia]. unfold slice_from. intros E%slice_glen. lia.
Qed.

Lemma rows_only rows finished_ : batchRows (MkBatchResult rows [] finished_) = glen rows.
Proof. unfold batchRows. cbn. lia. Qed.

Lemma decodeCurrent_limit s isLog encoded r : batchConfigOK (bt_config s) ->
  decodeCurrent library ops zone s isLog encoded = Ok r -> batchRows r <= bn_Limit (bt_config s).
Proof.
  intros Hc E. pose proof Hc as [Hl _]. destruct isLog.
  - apply decodeCurrent_log in E as (next & segments & kept & _ & _ & _ & _ & _ & _ & ->); [lia|done].
  - unfold decodeCurrent in E. destruct (negb _); [done|]. destruct encoded; [injection E as <-; unfold emptyBatch; rewrite rows_only, glen_nil; lia|].
    cbn [negb] in E. apply bind_Ok in E as (rows & _ & E). apply bind_Ok in E as (rows1 & E1 & E). apply bind_Ok in E as (rows2 & E2 & E).
    injection E as <-. rewrite rows_only. apply projectRows_length in E2. apply latestRows_length in E1; lia.
Qed.

Lemma answered_limit s call answer st st' r : batchConfigOK (bt_config s) -> (forall id n, call <> CallScanKV id n false) ->
  batchAnswered library ops zone s call answer st = Some (Ok (st', r)) -> withinLimit s r.
Proof.
  intros Hc Hk E. pose proof Hc as [Hl _]. destruct call as [limit|id n []|limit|], answer as [a|a|rows end_]; try done; try (exfalso; by eapply Hk); cbn in E; injection E as E.
  - destruct a as [[isLog encoded]|e]; cbn in E; [|by injection E as <- <-].
    destruct (decodeCurrent _ _ _ _ _ _) as [b|e| |] eqn:Ed; try done; injection E as <- <-; [|done]. cbn. by eapply decodeCurrent_limit in Ed.
  - unfold answeredReadBatch in E. destruct end_; [..|by injection E as <- <-];
      (destruct (Z.ltb_spec (bn_Limit (bt_config s)) (glen rows)); [by injection E as <- <-|]);
      apply bind_Ok in E as (rows' & Er & E); injection E as <- <-; cbn; rewrite rows_only; apply projectRows_length in Er; lia.
Qed.

Definition limitInv (s : BatchScanner) (m : batchMachine) : Prop :=
  (forall call, bh_lock m = LockPoll call -> exists st, call = pollCall s st) /\ Forall (withinLimit s) (bh_results m).

Lemma pollReturns_limit s r m : limitInv s m -> withinLimit s r -> limitInv s (pollReturns r m).
Proof. intros [_ F] Hr. split; [done|]. cbn. apply Forall_app. by split; [|constructor]. Qed.

Lemma limit_step s event m m' : batchConfigOK (bt_config s) -> usesSession s = false ->
  limitInv s m -> batchExec library ops zone s event m = Some m' -> limitInv s m'.
Proof.
  intros Hc Hu I E. pose proof I as [Hp F]. destruct event; cbn in E.
  - unfold pollStart in E. destruct (bh_lock m); try done. injection E as <-.
    destruct (bt_closed _); [by apply pollReturns_limit|]. destruct (bt_done _).
    + apply pollReturns_limit; [done|]. change (0 <= bn_Limit (bt_config s)). destruct Hc. lia.
    + split; [|done]. cbn. intros call [= <-]. eauto.
  - destruct (pollAnswered _ _ _ _ _ _) as [[m1|e| |]|] eqn:Ea; try done. injection E as ->. unfold pollAnswered in Ea.
    destruct (bh_lock m) as [|call|]; try done. apply bind_Some in Ea as (o & Ea & E). injection E as E. apply bind_Ok in E as ([st r] & -> & E).
    injection E as <-. split; [done|]. cbn. apply Forall_app. split; [done|]. constructor; [|done]. eapply answered_limit; [done| |exact Ea].
    destruct (Hp _ eq_refl) as [st0 ->]. unfold pollCall, usesSession in *. destruct (bt_source s); [|done]. by rewrite Hu.
  - injection E as <-. unfold closeStart. destruct (bt_closed _); [done|]. by destruct (bt_source s).
  - unfold closeSession in E. destruct (bh_lock m), (bh_closing m); try done. injection E as <-. by case_match.
  - unfold closeAnswered in E. destruct (bh_lock m); try done. by injection E as <-.
Qed.

Lemma limits_hold s m : openedBatchScanner s -> usesSession s = false -> batchReachable library ops zone s m ->
  Forall (withinLimit s) (bh_results m).
Proof.
  intros Ho Hu R. apply opened_config in Ho. assert (I : limitInv s m); [|apply I].
  apply (batch_invariant (limitInv s) s); [split; [done|constructor]| |done]. intros event m0 m1. by apply limit_step.
Qed.

End Limits.

(** ** The protocol of a KV session *)

(** What a session is to the client: not open yet, open under an identifier and expecting a call
    number, or over. *)
Inductive session := SessionNew | SessionOpen (scannerID : list byte) (next : Z) | SessionOver.

Definition sessionOf (st : batchState) : session :=
  if bt_done st then SessionOver
  else match bt_scannerID st with [] => SessionNew | id => SessionOpen id (bt_sequence st) end.

(** The call a poll makes in a session: none when it is over.  It opens the session, or carries its
    identifier and the number that is expected. *)
Definition callOf (ses : session) : option batchCall :=
  match ses with
  | SessionNew => Some (CallScanKV [] 0 false)
  | SessionOpen id n => Some (CallScanKV id n false)
  | SessionOver => None
  end.

(** The call that ends a session: an open one has to be closed. *)
Definition endCall (ses : session) : list batchCall :=
  match ses with SessionOpen id n => [CallScanKV id n true] | _ => [] end.

Section Session.
Context {Rec Arr : Type} (library : ArrowLibrary Rec) (ops : ArrowOps Rec Arr) (zone : Z -> Z).
Abbreviation batchMachine := (batchMachine (Rec := Rec)).
Abbreviation batchExec := (batchExec library ops zone).
Abbreviation batchReachable := (batchReachable library ops zone).

Section Protocol.
Context (s : BatchScanner).

(** What an answer does to a session.  A failed call changes nothing.  The answer to a call that
    opens a session gives its identifier, or none when there is nothing to scan; the answers to
    later calls have to repeat it, and anything else is refused.  An answer that is not refused
    advances the number by one, on 32 bits; and it ends the session when it says that it is the
    last and its records can be decoded. *)
Definition afterAnswer (ses : session) (answer : batchAnswer) : session :=
  match answer with
  | AnswerScanKV (inl batch) =>
    let id := kb_scannerID batch in
    let next n :=
      if kb_hasMore batch || match sessionRows s (kb_records batch) with Ok _ => false | _ => true end
      then SessionOpen id (int32 (n + 1)) else SessionOver in
    match ses with
    | SessionOver => SessionOver
    | SessionNew =>
      if bool_decide (id <> []) then next 0
      else if kb_hasMore batch || bool_decide (kb_records batch <> []) then SessionNew else SessionOver
    | SessionOpen id' n => if bool_decide (id = id') then next n else ses
    end
  | _ => ses
  end.

(** The session after the answers so far, and the calls that led to them. *)
Definition sessionAfter : list batchAnswer -> session := foldl afterAnswer SessionNew.

Fixpoint callsFor (ses : session) (answers : list batchAnswer) : list (option batchCall) :=
  match answers with
  | [] => []
  | answer :: answers => callOf ses :: callsFor (afterAnswer ses answer) answers
  end.

Lemma callsFor_snoc answers answer : forall ses,
  callsFor ses (answers ++ [answer]) = callsFor ses answers ++ [callOf (foldl afterAnswer ses answers)].
Proof. induction answers as [|a answers IH]; intros ses; [done|]. cbn. by rewrite IH. Qed.

Lemma sessionAfter_snoc answers answer : sessionAfter (answers ++ [answer]) = afterAnswer (sessionAfter answers) answer.
Proof. unfold sessionAfter. by rewrite foldl_app. Qed.

(** The call that is out, or the one that ended the session. *)
Definition lastCall (m : batchMachine) (ses : session) : list (option batchCall) :=
  match bh_lock m with
  | LockPoll _ => [callOf ses]
  | _ => if bt_closed (bh_state m) && negb (bh_closing m) then map Some (endCall ses) else []
  end.

(** The session a scanner is in, and what it has done about it. *)
Record sessionInv (m : batchMachine) : Prop := {
  sv_state : sessionOf (bh_state m) = sessionAfter (bh_answers m);
  sv_calls : map Some (bh_calls m) = callsFor SessionNew (bh_answers m) ++ lastCall m (sessionAfter (bh_answers m));
  sv_fresh : bt_scannerID (bh_state m) = [] -> bt_sequence (bh_state m) = 0;
  sv_poll : forall call, bh_lock m = LockPoll call -> call = CallScanKV (bt_scannerID (bh_state m)) (bt_sequence (bh_state m)) false /\
    bt_done (bh_state m) = false /\ bt_closed (bh_state m) = bh_closing m;
  sv_closing : bh_closing m = true -> bt_closed (bh_state m) = true /\ bh_lock m <> LockClose;
  sv_lock : bh_lock m = LockClose -> bt_closed (bh_state m) = true /\ bh_closing m = false;
}.

Lemma sessionOf_open st : bt_done st = false -> bt_scannerID st <> [] -> sessionOf st = SessionOpen (bt_scannerID st) (bt_sequence st).
Proof. unfold sessionOf. intros ->. by destruct (bt_scannerID st). Qed.

Lemma callOf_session st : bt_done st = false -> (bt_scannerID st = [] -> bt_sequence st = 0) ->
  callOf (sessionOf st) = Some (CallScanKV (bt_scannerID st) (bt_sequence st) false).
Proof. unfold sessionOf. intros -> Hf. destruct (bt_scannerID st); [by rewrite Hf|done]. Qed.

Lemma session_accepts batch st st' (r : pollResult (Rec := Rec)) : answeredScanKV s (inl batch) st = Ok (st', r) ->
  bt_done st = false -> (bt_scannerID st = [] -> bt_sequence st = 0) ->
  bt_closed st' = bt_closed st /\ (bt_scannerID st' = [] -> bt_sequence st' = 0) /\
  sessionOf st' = afterAnswer (sessionOf st) (AnswerScanKV (inl batch)).
Proof.
  intros E Hd Hf. cbn in E. destruct (Z.eqb_spec (glen (kb_scannerID batch)) 0) as [Ei|Ni].
  - apply glen_0_nil in Ei. unfold afterAnswer. rewrite Ei. destruct (Z.eqb_spec (glen (bt_scannerID st)) 0) as [E0|N0].
    + apply glen_0_nil in E0. assert (Es : sessionOf st = SessionNew) by (unfold sessionOf; by rewrite Hd, E0). rewrite Es.
      replace (negb (glen (kb_records batch) =? 0)) with (bool_decide (kb_records batch <> [])) in E by (by destruct (kb_records batch)).
      cbn [negb] in E. rewrite orb_false_r in E. cbn. destruct (_ || _); injection E as <- <-; (split; [done|]; split; [done|]); [done|].
      unfold sessionOf. by cbn.
    + assert (bt_scannerID st <> []) as Hn by (intros Hx; by rewrite Hx in N0). cbn [negb] in E. rewrite orb_true_r in E. injection E as <- <-.
      rewrite (sessionOf_open st) by done. by rewrite bool_decide_false by done.
  - assert (Hn : kb_scannerID batch <> []) by (intros Hx; by rewrite Hx in Ni).
    assert (Hnext : forall n, bt_sequence st = n ->
      (let st1 := MkBatchState (kb_scannerID batch) (int32 (bt_sequence st + 1)) (bt_done st) (bt_closed st) in
       match sessionRows s (kb_records batch) with
       | Ok rows => rows ← projectRows s rows; Ok (if kb_hasMore batch then st1 else setDone st1, inl (MkBatchResult rows [] (negb (kb_hasMore batch))))
       | Err e => Ok (st1, inr (Plain e)) | Panic => Panic | OutOfFuel => OutOfFuel
       end = Ok (st', r)) ->
      bt_closed st' = bt_closed st /\ (bt_scannerID st' = [] -> bt_sequence st' = 0) /\
      sessionOf st' = if kb_hasMore batch || match sessionRows s (kb_records batch) with Ok _ => false | _ => true end
        then SessionOpen (kb_scannerID batch) (int32 (n + 1)) else SessionOver).
    { intros n <- H. cbv zeta in H. destruct (sessionRows s (kb_records batch)) as [rows|e| |]; try done.
      - apply bind_Ok in H as (rows' & _ & H). injection H as <- _. rewrite orb_false_r.
        destruct (kb_hasMore batch); (split; [done|]; split; [done|]); [by apply sessionOf_open|done].
      - injection H as <- _. rewrite orb_true_r. split; [done|]. split; [done|]. by apply sessionOf_open. }
    unfold afterAnswer. destruct (Z.eqb_spec (glen (bt_scannerID st)) 0) as [E0|N0]; cbn [negb andb] in E.
    + apply glen_0_nil in E0. assert (Es : sessionOf st = SessionNew) by (unfold sessionOf; by rewrite Hd, E0). rewrite Es.
      rewrite bool_decide_true by done. apply Hnext; [by apply Hf|exact E].
    + assert (bt_scannerID st <> []) as Hi by (intros Hx; by rewrite Hx in N0). rewrite (sessionOf_open st) by done.
      destruct (decide (bt_scannerID st = kb_scannerID batch)) as [Eq|Ne].
      * rewrite (bool_decide_true (bt_scannerID st = _)) in E by done. rewrite (bool_decide_true (kb_scannerID batch = _)) by done. by apply Hnext.
      * rewrite (bool_decide_false (bt_scannerID st = _)) in E by done. rewrite (bool_decide_false (kb_scannerID batch = _)) by done.
        injection E as <- <-. split; [done|]. split; [done|]. by apply sessionOf_open.
Qed.

(** A step that leaves the calls, the session and what is out alone. *)
Lemma session_quiet (m m' : batchMachine) : sessionInv m -> bh_lock m <> LockClose -> (forall call, bh_lock m <> LockPoll call) ->
  bh_state m' = bh_state m -> bh_calls m' = bh_calls m -> bh_answers m' = bh_answers m -> bh_closing m' = bh_closing m -> bh_lock m' = LockFree -> sessionInv m'.
Proof.
  intros [I1 I2 I3 I4 I5 I6] Hc Hp Es Ec Ea Eg El. unfold lastCall in I2. split; unfold lastCall; rewrite ?Es, ?Ec, ?Ea, ?Eg, ?El; try done.
  - destruct (bh_lock m) eqn:Ex; [exact I2|by destruct (Hp call)|done].
  - intros H. split; [by apply I5|done].
Qed.

Hypothesis Hsession : usesSession s = true.

Lemma session_start (m m' : batchMachine) : sessionInv m -> pollStart s m = Some m' -> sessionInv m'.
Proof.
  intros I E. unfold pollStart in E. destruct (bh_lock m) eqn:El; try done. injection E as <-.
  destruct (bt_closed (bh_state m)) eqn:Ecl; [by apply (session_quiet m); rewrite ?El|].
  destruct (bt_done (bh_state m)) eqn:Ed; [by apply (session_quiet m); rewrite ?El|].
  assert (Ep : pollCall s (bh_state m) = CallScanKV (bt_scannerID (bh_state m)) (bt_sequence (bh_state m)) false).
  { unfold pollCall, usesSession in *. destruct (bt_source s); [|done]. by rewrite Hsession. }
  rewrite Ep. destruct I as [I1 I2 I3 I4 I5 I6]. assert (Eg : bh_closing m = false) by (destruct (bh_closing m); [|done]; destruct I5; [done|congruence]).
  unfold lastCall in I2. rewrite El, Ecl in I2. cbn [andb] in I2. rewrite app_nil_r in I2.
  split; cbn; try done; [..|congruence].
  - rewrite map_app, I2. unfold lastCall. cbn. by rewrite <- I1, callOf_session.
  - intros call [= <-]. by rewrite Ecl, Eg.
Qed.

Lemma session_answer answer (m m' : batchMachine) : sessionInv m -> pollAnswered library ops zone s answer m = Some (Ok m') -> sessionInv m'.
Proof.
  intros [I1 I2 I3 I4 I5 I6] E. unfold pollAnswered in E. destruct (bh_lock m) as [|call|] eqn:El; try done.
  destruct (I4 call eq_refl) as (-> & Hd & Hcl). apply bind_Some in E as (o & Ea & E). injection E as E. apply bind_Ok in E as ([st r] & -> & E). injection E as <-.
  destruct answer as [|a|]; try done. injection Ea as Ea.
  assert (H : bt_closed st = bt_closed (bh_state m) /\ (bt_scannerID st = [] -> bt_sequence st = 0) /\
    sessionOf st = afterAnswer (sessionOf (bh_state m)) (AnswerScanKV a)).
  { destruct a as [batch|e]; [by eapply session_accepts|]. by injection Ea as <- <-. }
  destruct H as (Ecl & Hf & Hs). unfold lastCall in I2. rewrite El in I2.
  split; cbn; try done.
  - by rewrite sessionAfter_snoc, Hs, I1.
  - rewrite callsFor_snoc, I2. unfold lastCall. cbn. rewrite Ecl, Hcl. destruct (bh_closing m); cbn; by rewrite app_nil_r.
  - intros H. split; [rewrite Ecl; by apply I5|done].
Qed.

Lemma session_close (m : batchMachine) : sessionInv m -> sessionInv (closeStart s m).
Proof.
  intros I. unfold closeStart. destruct (bt_closed (bh_state m)) eqn:Ec; [done|]. unfold usesSession in Hsession.
  destruct (bt_source s) as [sessions|]; [|done]. destruct sessions; [|done]. destruct I as [I1 I2 I3 I4 I5 I6]. split; cbn; try done.
  - rewrite I2. unfold lastCall. cbn. rewrite Ec. by destruct (bh_lock m).
  - intros call Hl. destruct (I4 call Hl) as (? & ? & _). done.
  - intros _. split; [done|]. intros Hl. apply I6 in Hl as [? _]. congruence.
  - intros Hl. apply I6 in Hl as [? _]. congruence.
Qed.

Lemma session_end (m m' : batchMachine) : sessionInv m -> closeSession m = Some m' -> sessionInv m'.
Proof.
  intros [I1 I2 I3 I4 I5 I6] E. unfold closeSession in E. destruct (bh_lock m) eqn:El; try done. destruct (bh_closing m) eqn:Eg; [|done].
  destruct (I5 eq_refl) as (Ecl & _). injection E as <-. unfold lastCall in I2. rewrite El, Ecl, Eg in I2. cbn [andb negb] in I2. rewrite app_nil_r in I2.
  destruct (_ && _) eqn:Eb.
  - apply andb_true_iff in Eb as [Ni%negb_true_iff%Z.eqb_neq Nd%negb_true_iff].
    assert (bt_scannerID (bh_state m) <> []) as Hn by (intros Hx; by rewrite Hx in Ni).
    split; cbn; try done. rewrite map_app, I2. unfold lastCall. cbn. rewrite Ecl. cbn. by rewrite <- I1, sessionOf_open.
  - split; cbn; try done. rewrite I2. unfold lastCall. cbn. rewrite Ecl. cbn. rewrite <- I1. unfold sessionOf.
    destruct (bt_done (bh_state m)); [by rewrite app_nil_r|]. destruct (bt_scannerID (bh_state m)) eqn:Ei; [by rewrite app_nil_r|].
    rewrite andb_true_r in Eb. by apply negb_false_iff, Z.eqb_eq, glen_0_nil in Eb.
Qed.

Lemma session_step event (m m' : batchMachine) : sessionInv m -> batchExec s event m = Some m' -> sessionInv m'.
Proof.
  intros I E. destruct event; cbn in E.
  - by eapply session_start.
  - destruct (pollAnswered _ _ _ _ _ _) as [[m1|e| |]|] eqn:Ea; try done. injection E as ->. by eapply session_answer.
  - injection E as <-. by apply session_close.
  - by eapply session_end.
  - unfold closeAnswered in E. destruct (bh_lock m) eqn:El; try done. injection E as <-. destruct I as [I1 I2 I3 I4 I5 I6].
    unfold lastCall in I2. rewrite El in I2. split; cbn; try done. intros H. split; [by apply I5|done].
Qed.

Lemma session_reachable m : batchReachable s m -> sessionInv m.
Proof.
  apply (batch_invariant library ops zone sessionInv); [by split|]. intros event m0 m1. by apply session_step.
Qed.

End Protocol.

(** *** A session with a server *)

Section Served.
Context (s : BatchScanner) (sid : list byte) (batches : list (list byte)).

(** What a server with these batches answers to call [n]: an empty bucket has no session. *)
Definition serve (n : Z) : kvSessionBatch :=
  match batches with
  | [] => MkSessionBatch [] false []
  | _ => MkSessionBatch sid (n + 1 <? glen batches) (default [] (batches !! Z.to_nat n))
  end.

(** The server answers the call that is out, or the call fails. *)
Inductive servedEvent := SvPoll | SvReply | SvFailed (e : callError) | SvClose | SvEnd | SvEnded.

Definition servedExec (event : servedEvent) (m : batchMachine) : option batchMachine :=
  match event with
  | SvPoll => batchExec s EvBatchPoll m
  | SvReply =>
    match bh_lock m with
    | LockPoll (CallScanKV _ n _) => batchExec s (EvBatchAnswer (AnswerScanKV (inl (serve n)))) m
    | _ => None
    end
  | SvFailed e => batchExec s (EvBatchAnswer (AnswerScanKV (inr e))) m
  | SvClose => batchExec s EvBatchClose m
  | SvEnd => batchExec s EvBatchEnd m
  | SvEnded => batchExec s EvBatchEnded m
  end.

Fixpoint servedRun (events : list servedEvent) (m : batchMachine) : option batchMachine :=
  match events with
  | [] => Some m
  | event :: events => m ← servedExec event m; servedRun events m
  end.

(** The rows the polls returned, in order. *)
Definition polledRows (results : list (pollResult (Rec := Rec))) : list Row :=
  concat (map (fun r => match r with inl b => br_Rows b | inr _ => [] end) results).

#[local] Arguments polledRows : simpl never.

(** The rows of a batch, as a poll returns them. *)
Definition pageOf (records : list byte) (page : list Row) : Prop :=
  exists rows, sessionRows s records = Ok rows /\ projectRows s rows = Ok page.

Context (pages : list (list Row)).
Hypothesis Hsession : usesSession s = true.
Hypothesis Hsid : sid <> [].
Hypothesis Hcount : glen batches < 2 ^ 31.
Hypothesis Hpages : Forall2 pageOf batches pages.

(** After [k] batches. *)
Record servedInv (m : batchMachine) (k : nat) : Prop := {
  se_count : bt_sequence (bh_state m) = Z.of_nat k /\ (k <= length batches)%nat;
  se_id : bt_scannerID (bh_state m) = if (k =? 0)%nat then [] else sid;
  se_rows : polledRows (bh_results m) = concat (take k pages);
  se_done : if bt_done (bh_state m) then k = length batches else k = length batches -> k = 0%nat;
  se_poll : forall call, bh_lock m = LockPoll call ->
    bt_done (bh_state m) = false /\ call = CallScanKV (bt_scannerID (bh_state m)) (Z.of_nat k) false;
}.

Lemma polledRows_snoc results r : polledRows (results ++ [r]) = polledRows results ++ match r with inl b => br_Rows b | inr _ => [] end.
Proof. unfold polledRows. rewrite map_app, concat_app. cbn. by rewrite app_nil_r. Qed.

(** The answer to call [k] of a session that is not done. *)
Lemma served_answer st k : bt_done st = false -> bt_sequence st = Z.of_nat k -> (k <= length batches)%nat ->
  (k = length batches -> k = 0%nat) -> bt_scannerID st = (if (k =? 0)%nat then [] else sid) ->
  exists st' (r : BatchResult (Rec := Rec)), answeredScanKV s (inl (serve (Z.of_nat k))) st = Ok (st', inl r) /\ bt_closed st' = bt_closed st /\
    ((batches = [] /\ st' = setDone st /\ br_Rows r = []) \/
     (pages !! k = Some (br_Rows r) /\ (k < length batches)%nat /\ bt_scannerID st' = sid /\ bt_sequence st' = Z.of_nat (S k) /\
      bt_done st' = bool_decide (S k = length batches))).
Proof.
  intros Hd Hk Hle Hend Hid. unfold serve. destruct batches as [|b0 bs] eqn:Eb.
  { assert (k = 0%nat) as -> by (cbn in Hle; lia). cbn. rewrite Hid. cbn. eexists _, _. split; [reflexivity|]. split; [done|]. by left. }
  rewrite <- Eb in *. assert (Hlt : (k < length batches)%nat) by (rewrite Eb in *; cbn in *; lia).
  destruct (lookup_lt_is_Some_2 batches k Hlt) as [records Er]. destruct (Forall2_lookup_l _ _ _ _ _ Hpages Er) as (page & Epg & rows & Ed & Ep).
  rewrite Nat2Z.id, Er. cbn [default]. unfold answeredScanKV. cbn [kb_scannerID kb_records kb_hasMore].
  assert (Hs0 : glen sid =? 0 = false) by (apply Z.eqb_neq; intros Hx%glen_0_nil; done). rewrite Hs0.
  replace (negb (glen (bt_scannerID st) =? 0) && negb (bool_decide (bt_scannerID st = sid))) with false.
  2: { rewrite Hid. destruct (k =? 0)%nat; [done|]. rewrite bool_decide_eq_true_2 by done. by rewrite andb_false_r. }
  cbv zeta. cbn. rewrite Ed, Ep. cbn [mbind outcome_bind]. eexists _, _. split; [reflexivity|].
  assert (Hi : int32 (bt_sequence st + 1) = Z.of_nat (S k)).
  { rewrite Hk. rewrite swrap_small; [lia|lia|]. unfold srange, glen in *. change (2 ^ (32 - 1)) with (2 ^ 31). lia. }
  unfold glen. destruct (Z.ltb_spec (Z.of_nat k + 1) (Z.of_nat (length batches))); cbn;
    (split; [done|]; right; split; [done|]; split; [done|]; split; [done|]; split; [done|]).
  - rewrite Hd. symmetry. apply bool_decide_eq_false. lia.
  - symmetry. apply bool_decide_eq_true. lia.
Qed.

Lemma take_page k page : pages !! k = Some page -> concat (take (S k) pages) = concat (take k pages) ++ page.
Proof. intros E. by rewrite (take_S_r _ _ _ E), concat_app; cbn; rewrite app_nil_r. Qed.

(** A step that leaves the session alone, and makes no call. *)
Lemma served_quiet (m m' : batchMachine) k : servedInv m k -> bt_sequence (bh_state m') = bt_sequence (bh_state m) ->
  bt_scannerID (bh_state m') = bt_scannerID (bh_state m) -> bt_done (bh_state m') = bt_done (bh_state m) ->
  polledRows (bh_results m') = polledRows (bh_results m) -> (forall call, bh_lock m' = LockPoll call -> bh_lock m = LockPoll call) -> servedInv m' k.
Proof. intros [I1 I2 I3 I4 I5] E1 E2 E3 E4 El. split; rewrite ?E1, ?E2, ?E3, ?E4; try done. intros call Ec%El. by apply I5. Qed.

Lemma served_returns r (m : batchMachine) k : servedInv m k -> match r with inl b => br_Rows b | inr _ => [] end = [] -> servedInv (pollReturns r m) k.
Proof. intros I E. apply (served_quiet m); try done. cbn. by rewrite polledRows_snoc, E, app_nil_r. Qed.

Lemma served_pollStart (m m' : batchMachine) k : servedInv m k -> pollStart s m = Some m' -> servedInv m' k.
Proof.
  intros I E. unfold pollStart in E. destruct (bh_lock m) eqn:El; try done. injection E as <-.
  destruct (bt_closed (bh_state m)); [by apply served_returns|]. destruct (bt_done (bh_state m)) eqn:Ed; [by apply served_returns|].
  destruct I as [I1 I2 I3 I4 I5]. split; cbn; try done. intros call [= <-]. split; [done|].
  unfold pollCall, usesSession in *. destruct (bt_source s); [|done]. rewrite Hsession. by rewrite (proj1 I1).
Qed.

Lemma served_reply (m m' : batchMachine) k call : servedInv m k -> bh_lock m = LockPoll call ->
  pollAnswered library ops zone s (AnswerScanKV (inl (serve (Z.of_nat k)))) m = Some (Ok m') -> exists k', servedInv m' k'.
Proof.
  intros [[Iq Ik] I2 I3 I4 I5] El E. destruct (I5 _ El) as [Hd ->]. rewrite Hd in I4. unfold pollAnswered in E. rewrite El in E. cbn [batchAnswered mbind option_bind] in E.
  destruct (served_answer (bh_state m) k Hd Iq Ik I4 I2) as (st & r & Ea & _ & Hr). rewrite Ea in E. injection E as <-.
  destruct Hr as [(Eb & -> & Er)|(Ep & Hk & Ei & En & Ed)].
  - exists k. split; cbn; try done; [rewrite polledRows_snoc, Er; by rewrite app_nil_r|]. rewrite Eb in Ik |- *. cbn in *. lia.
  - exists (S k). split; cbn; try done; [by rewrite polledRows_snoc, I3, (take_page _ _ Ep)|]. rewrite Ed.
    destruct (decide (S k = length batches)) as [Hl|Hl]; [by rewrite bool_decide_eq_true_2|]. rewrite bool_decide_eq_false_2 by done. done.
Qed.

Lemma served_step event (m m' : batchMachine) k : servedInv m k -> servedExec event m = Some m' -> exists k', servedInv m' k'.
Proof.
  intros I E. destruct event; cbn in E.
  - exists k. by eapply served_pollStart.
  - destruct (bh_lock m) as [|call|] eqn:El; try done. destruct (se_poll m k I _ El) as [_ ->].
    destruct (pollAnswered _ _ _ _ _ _) as [[m1|e| |]|] eqn:Ea; try done. injection E as ->. by eapply served_reply.
  - exists k. destruct (pollAnswered _ _ _ _ _ _) as [[m1|e'| |]|] eqn:Ea; try done. injection E as ->. unfold pollAnswered in Ea.
    destruct (bh_lock m) as [|call|] eqn:El; try done. destruct (se_poll m k I _ El) as [_ ->]. injection Ea as <-.
    apply (served_quiet m); try done. cbn. by rewrite polledRows_snoc, app_nil_r.
  - exists k. injection E as <-. unfold closeStart. destruct (bt_closed _); [done|]. destruct (bt_source s); by apply (served_quiet m).
  - exists k. unfold closeSession in E. destruct (bh_lock m), (bh_closing m); try done. injection E as <-. case_match; by apply (served_quiet m).
  - exists k. unfold closeAnswered in E. destruct (bh_lock m); try done. injection E as <-. by apply (served_quiet m).
Qed.

Lemma served_run events : forall (m m' : batchMachine) k, servedInv m k -> servedRun events m = Some m' -> exists k', servedInv m' k'.
Proof.
  induction events as [|event events IH]; intros m m' k I E; cbn in E; [injection E as <-; eauto|].
  apply bind_Some in E as (m1 & E1 & E). apply served_step with (1 := I) in E1 as [k1 I1]. by eapply IH.
Qed.

Lemma served_opened : servedInv openedMachineOf 0.
Proof. split; cbn; try done. split; [done|lia]. Qed.

(** A poll whose call is answered takes one batch. *)
Lemma served_progress (m : batchMachine) k : servedInv m k -> bh_lock m = LockFree -> bt_closed (bh_state m) = false ->
  bt_done (bh_state m) = false -> exists m' k', servedRun [SvPoll; SvReply] m = Some m' /\ servedInv m' k' /\
    bh_lock m' = LockFree /\ bt_closed (bh_state m') = false /\
    (bt_done (bh_state m') = false -> (k < k')%nat) /\ (batches = [] -> bt_done (bh_state m') = true).
Proof.
  intros I El Ec Ed. pose proof I as [[Iq Ik] I2 I3 I4 I5]. rewrite Ed in I4.
  assert (Ep : pollCall s (bh_state m) = CallScanKV (bt_scannerID (bh_state m)) (Z.of_nat k) false).
  { unfold pollCall, usesSession in *. destruct (bt_source s); [|done]. by rewrite Hsession, Iq. }
  destruct (served_answer (bh_state m) k Ed Iq Ik I4 I2) as (st & r & Ea & Hcl & Hr).
  assert (E : servedRun [SvPoll; SvReply] m = Some (MkBatchMachine st LockFree (bh_closing m) (bh_calls m ++ [CallScanKV (bt_scannerID (bh_state m)) (Z.of_nat k) false])
    (bh_answers m ++ [AnswerScanKV (inl (serve (Z.of_nat k)))]) (bh_results m ++ [inl r]))).
  { cbn. unfold pollStart. rewrite El, Ec, Ed, Ep. cbn [mbind option_bind makeCall bh_lock]. unfold pollAnswered. cbn [makeCall bh_lock batchAnswered bh_state mbind option_bind].
    by rewrite Ea. }
  destruct (served_run [SvPoll; SvReply] m _ k I E) as [k' I']. eexists _, k'. split; [exact E|]. split; [exact I'|]. split; [done|]. cbn. rewrite Hcl, Ec. split; [done|].
  destruct I' as [[Iq' Ik'] _ _ I4' _]. cbn in *. destruct Hr as [(Eb & -> & _)|(_ & Hk & _ & En & Hd)]; [done|].
  split; [lia|]. intros ->. cbn in Hk. lia.
Qed.

Lemma served_finishes n : forall (m : batchMachine) k, servedInv m k -> bh_lock m = LockFree -> bt_closed (bh_state m) = false ->
  bt_done (bh_state m) = false -> (Nat.max 1 (length batches) - k <= n)%nat -> (0 < n)%nat ->
  exists rounds m', servedRun (concat (replicate rounds [SvPoll; SvReply])) m = Some m' /\ bt_done (bh_state m') = true.
Proof.
  induction n as [|n IH]; intros m k I El Ec Ed Hn Hp; [lia|].
  destruct (served_progress m k I El Ec Ed) as (m1 & k1 & E1 & I1 & El1 & Ec1 & Hk & Hb).
  assert (Hrun : forall events, servedRun ([SvPoll; SvReply] ++ events) m = servedRun events m1).
  { intros events. cbn in E1 |- *. apply bind_Some in E1 as (m2 & -> & E1). cbn. apply bind_Some in E1 as (m3 & E3 & [= ->]). by rewrite E3. }
  destruct (bt_done (bh_state m1)) eqn:Ed1.
  - exists 1%nat, m1. split; [|done]. cbn [replicate concat]. by rewrite app_nil_r.
  - specialize (Hk eq_refl). destruct (se_count m1 k1 I1) as [_ Hle]. pose proof (se_done m1 k1 I1) as Hd. rewrite Ed1 in Hd.
    destruct (IH m1 k1 I1 El1 Ec1 Ed1) as (rounds & m' & E & Hd'); [lia..|]. exists (S rounds), m'. split; [|done].
    cbn [replicate concat]. by rewrite Hrun.
Qed.

End Served.
End Session.

(** ** Theorems *)

(** A limit scan of a log returns its latest rows.  The rows and Arrow batches of the result are
    those of the decoded log from some row on, in order, the first batch cut where it has to be:
    their offsets are the offsets of the log less as many leading ones as the log has rows beyond
    the limit, so that the result holds exactly the last [Limit] rows, or all of them. *)
Theorem limit_scan_latest {Rec Arr} (library : ArrowLibrary Rec) (ops : ArrowOps Rec Arr) zone s encoded r :
  ArrowOpsLaws library ops -> openedBatchScanner s -> decodeCurrent library ops zone s true encoded = Ok r ->
  latestOfLog library ops zone s encoded r.
Proof. intros laws Ho. apply decodeCurrent_log; [done|by apply opened_config]. Qed.

(** No poll returns more rows than the limit, counting the rows of Arrow batches, whatever the
    servers and snapshot readers answer; the rows of a KV session are left to the server. *)
Theorem batch_limits {Rec Arr} (library : ArrowLibrary Rec) (ops : ArrowOps Rec Arr) zone s m r :
  ArrowOpsLaws library ops -> openedBatchScanner s -> usesSession s = false ->
  batchReachable library ops zone s m -> inl r ∈ bh_results m ->
  batchRows library r <= bn_Limit (bt_config s) <= maxBatchLimit.
Proof.
  intros laws Ho Hu R Hr. pose proof (limits_hold library ops zone laws s m Ho Hu R) as F. rewrite Forall_forall in F.
  split; [exact (F _ Hr)|]. apply opened_config in Ho as [? _]. lia.
Qed.

(** C37: The calls of a scanner follow the session protocol, whatever the answers, and however polls
    and [Close] interleave.  The answers so far determine the session the scanner is in and every
    call made: those that were answered open the session or carry its identifier and the number
    expected after the answers before them; a poll's call that is out does so too; once [Close] has
    had its turn, an open session was ended by exactly one closing call with its identifier and
    number, and a session that is not open by none.  No call is made in a session that is over. *)
Theorem batch_session {Rec Arr} (library : ArrowLibrary Rec) (ops : ArrowOps Rec Arr) zone s m :
  usesSession s = true -> batchReachable library ops zone s m ->
  let ses := sessionAfter s (bh_answers m) in
  sessionOf (bh_state m) = ses /\
  map Some (bh_calls m) = callsFor s SessionNew (bh_answers m) ++
    match bh_lock m with
    | LockPoll _ => [callOf ses]
    | _ => if bt_closed (bh_state m) && negb (bh_closing m) then map Some (endCall ses) else []
    end /\
  (forall call, bh_lock m = LockPoll call -> callOf ses = Some call /\ bt_closed (bh_state m) = bh_closing m).
Proof.
  intros Hu R ses. destruct (session_reachable library ops zone s Hu m R) as [I1 I2 I3 I4 _ _]. split; [done|]. split; [exact I2|].
  intros call Hl. destruct (I4 call Hl) as (-> & Hd & Hc). split; [|done]. subst ses. rewrite <- I1. by apply callOf_session.
Qed.

(** C36: A KV session delivers every row once, in order.  While the server answers each call number
    with its batch, each of which decodes to a page of rows, and calls may fail in between, the rows returned so far are those of the
    batches the call number has passed, and those of all batches once the scan is done; and
    polling gets there. *)
Theorem batch_scan_complete {Rec Arr} (library : ArrowLibrary Rec) (ops : ArrowOps Rec Arr) zone s sid batches pages :
  usesSession s = true -> sid <> [] -> glen batches < 2 ^ 31 -> Forall2 (pageOf s) batches pages ->
  (forall events m, servedRun library ops zone s sid batches events openedMachineOf = Some m ->
    polledRows (bh_results m) = concat (take (Z.to_nat (bt_sequence (bh_state m))) pages) /\
    (bt_done (bh_state m) = true -> polledRows (bh_results m) = concat pages)) /\
  exists rounds m, servedRun library ops zone s sid batches (concat (replicate rounds [SvPoll; SvReply])) openedMachineOf = Some m /\
    bt_done (bh_state m) = true.
Proof.
  intros Hu Hs Hc Hp. split.
  - intros events m E. destruct (served_run library ops zone s sid batches pages Hu Hs Hc Hp events openedMachineOf m 0) as [k [[Iq Ik] _ I3 I4 _]];
      [by apply served_opened|done|]. rewrite Iq, Nat2Z.id. split; [done|]. intros Hd. rewrite Hd in I4. subst k.
    rewrite I3, (Forall2_length _ _ _ Hp), firstn_all. done.
  - destruct (served_finishes library ops zone s sid batches pages Hu Hs Hc Hp (Nat.max 1 (length batches)) openedMachineOf 0) as (rounds & m & E & Hd);
      [by apply served_opened|done|done|done|lia|lia|]. by exists rounds, m.
Qed.

(** ** Examples *)

Definition batchNode : ServerNode := MkServerNode 1 "tablet:9123" TabletServer.
Definition batchBucket : TableBucket := MkTableBucket 7 (-1) 3 0 batchNode.
Definition batchOptions : list (option BatchScannerOption) := [Some (WithBatchLimit 2); Some (WithBatchProjection ["id"; "name"])].
Definition openedScanner (source : batchSource) (table : Table) : BatchScanner :=
  match newBatchScanner (Some source) fetchResolver table batchBucket batchOptions with
  | Ok s => s
  | _ => MkBatchScanner table batchBucket defaultBatchConfig source [] fetchResolver
  end.
Definition kvScanner : BatchScanner := openedScanner (BackendSource true) valueTable.
Definition logScanner : BatchScanner := openedScanner (BackendSource true) scanTable.

Lemma logScanner_opened : openedBatchScanner logScanner.
Proof. apply (opened_current (Some (BackendSource true)) fetchResolver scanTable batchBucket batchOptions). vm_compute. reflexivity. Qed.

Definition latestRowsOfLog : list Row := [[VInt32 2; VString "b"]; [VInt32 3; VNil]].

Lemma limit_scan_latest_witness :
  exists r, decodeCurrent byteLibrary byteOps (fun _ => 0) logScanner true (concat (map wr_bytes fetchLog)) = Ok r /\
    br_Rows r = latestRowsOfLog /\ latestOfLog byteLibrary byteOps (fun _ => 0) logScanner (concat (map wr_bytes fetchLog)) r.
Proof.
  exists (MkBatchResult latestRowsOfLog [] false).
  assert (E : decodeCurrent byteLibrary byteOps (fun _ => 0) logScanner true (concat (map wr_bytes fetchLog)) = Ok (MkBatchResult latestRowsOfLog [] false))
    by (vm_compute; reflexivity).
  split; [exact E|]. split; [reflexivity|].
  apply (limit_scan_latest byteLibrary byteOps (fun _ => 0) logScanner); [exact byteOps_laws|exact logScanner_opened|exact E].
Defined.

Definition replayed (s : BatchScanner) (events : list batchEvent) : batchMachine :=
  default openedMachineOf (batchReplay byteLibrary byteOps (fun _ => 0) s events openedMachineOf).

Definition logEvents : list batchEvent :=
  [EvBatchPoll; EvBatchAnswer (AnswerLimitScan (inr NetError)); EvBatchPoll;
   EvBatchAnswer (AnswerLimitScan (inl (true, concat (map wr_bytes fetchLog)))); EvBatchPoll; EvBatchClose].

Lemma batch_limits_witness :
  let r := MkBatchResult latestRowsOfLog [] true in
  inl r ∈ bh_results (replayed logScanner logEvents) /\ batchRows byteLibrary r <= bn_Limit (bt_config logScanner) <= maxBatchLimit.
Proof.
  assert (Hr : bh_results (replayed logScanner logEvents) = [inr NetError; inl (MkBatchResult latestRowsOfLog [] true); inl (emptyBatch true)])
    by (vm_compute; reflexivity).
  assert (Hin : inl (MkBatchResult latestRowsOfLog [] true) ∈ bh_results (replayed logScanner logEvents)) by (rewrite Hr; right; left).
  split; [exact Hin|]. apply (batch_limits byteLibrary byteOps (fun _ => 0) logScanner (replayed logScanner logEvents));
    [exact byteOps_laws|exact logScanner_opened|reflexivity| |exact Hin].
  exists logEvents. vm_compute. reflexivity.
Defined.

(** A session that is closed while its second poll is out. *)
Definition kvEvents : list batchEvent :=
  [EvBatchPoll; EvBatchAnswer (AnswerScanKV (inl (MkSessionBatch [Byte.x01] true (valueBatchBytes storedRecords)))); EvBatchPoll;
   EvBatchClose; EvBatchAnswer (AnswerScanKV (inr ContextCanceled)); EvBatchEnd; EvBatchEnded; EvBatchPoll].

Lemma batch_session_witness :
  bh_calls (replayed kvScanner kvEvents) = [CallScanKV [] 0 false; CallScanKV [Byte.x01] 1 false; CallScanKV [Byte.x01] 1 true] /\
  let m := replayed kvScanner kvEvents in
  let ses := sessionAfter kvScanner (bh_answers m) in
  sessionOf (bh_state m) = ses /\
  map Some (bh_calls m) = callsFor kvScanner SessionNew (bh_answers m) ++
    match bh_lock m with
    | LockPoll _ => [callOf ses]
    | _ => if bt_closed (bh_state m) && negb (bh_closing m) then map Some (endCall ses) else []
    end /\
  (forall call, bh_lock m = LockPoll call -> callOf ses = Some call /\ bt_closed (bh_state m) = bh_closing m).
Proof.
  split; [vm_compute; reflexivity|]. apply (batch_session byteLibrary byteOps (fun _ => 0) kvScanner); [reflexivity|].
  exists kvEvents. vm_compute. reflexivity.
Defined.

Definition servedBatches : list (list byte) := [valueBatchBytes storedRecords; []; valueBatchBytes (take 1 storedRecords)].
Definition servedPages : list (list Row) := [[[VInt32 1; VString "a"]; [VInt32 2; VNil]]; []; [[VInt32 1; VString "a"]]].

Lemma batch_scan_complete_witness :
  let run := servedRun byteLibrary byteOps (fun _ => 0) kvScanner [Byte.x01] servedBatches in
  (forall events m, run events openedMachineOf = Some m ->
    polledRows (bh_results m) = concat (take (Z.to_nat (bt_sequence (bh_state m))) servedPages) /\
    (bt_done (bh_state m) = true -> polledRows (bh_results m) = concat servedPages)) /\
  exists rounds m, run (concat (replicate rounds [SvPoll; SvReply])) openedMachineOf = Some m /\ bt_done (bh_state m) = true.
Proof.
  apply (batch_scan_complete byteLibrary byteOps (fun _ => 0) kvScanner [Byte.x01] servedBatches servedPages);
    [reflexivity|discriminate|vm_compute; reflexivity|].
  repeat (constructor; [eexists; split; vm_compute; reflexivity|]). constructor.
Defined.

(** A poll whose rows cannot be decoded loses them.  [pollKVSession] advances the call number
    before it decodes, so after a poll that fails, because a schema could not be resolved, the
    next one asks for the next batch; the scan ends as done, without the rows of the first batch. *)
Theorem batch_poll_loses_rows :
  exists m, servedRun byteLibrary byteOps (fun _ => 0) kvScanner [Byte.x01]
      [valueBatchBytes [(9, [])]; valueBatchBytes storedRecords] [SvPoll; SvReply; SvPoll; SvReply] openedMachineOf = Some m /\
    bh_calls m = [CallScanKV [] 0 false; CallScanKV [Byte.x01] 1 false] /\
    bh_results m = [inr (Plain ErrInvalidSchema); inl (MkBatchResult [[VInt32 1; VString "a"]; [VInt32 2; VNil]] [] true)] /\
    bt_done (bh_state m) = true.
Proof. eexists. split; [vm_compute; reflexivity|]. vm_compute. auto. Qed.
