(* ===== verification/Lookup.v ===== *)
(** * Lookups

    Models [pkg/fgo/lookup.go], [pkg/fgo/lookup_options.go] and [pkg/fgo/lookup_backend.go]:
    configuration, the encoding and routing of keys and prefixes, requests and replies, retries,
    and the decoding of results.  The scheduler that groups keys into requests is
    [LookupScheduler].

    The metadata and the server are the environment; a schema resolver is a function of the schema
    identifier. *)

From S2P Require Import Prelude Model SchemaJSON Wire Values Codec DecodeSafety EncodeSafety Roundtrip Keys Bucket RecordBatch Errors WriterRetry Client SchemaEvolution Scheduler WriterLoop KVWriter KVRun KVMutation ScanDecode.

(** ** Configuration *)

Record LookupConfig := MkLookupConfig {
  lk_MaxBatchKeys : Z;
  lk_MaxInFlightRequests : Z;
  lk_MaxQueuedKeys : Z;
  lk_BatchTimeout : Z;
  lk_RetryPolicy : RetryPolicy;
  lk_Partition : string;
  lk_InsertIfNotExists : bool;
  lk_RequestTimeout : Z;
  lk_Acks : Z;
}.

Definition millisecond : Z := 10 ^ 6.
Definition maxInt32 : Z := 2 ^ 31 - 1.

(** Durations are nanoseconds. *)
Inductive LookupOption :=
| WithLookupBatchLimits (keys inFlightRequests : Z)
| WithLookupQueue (keys batchTimeout : Z)
| WithLookupRetryPolicy (policy : RetryPolicy)
| WithLookupRequestTimeout (timeout : Z)
| WithLookupPartition (partition : string)
| WithLookupInsertIfNotExists (timeout acks : Z).

Definition badTimeout (timeout : Z) : bool := (timeout <=? 0) || (maxInt32 <? Z.quot timeout millisecond).

Definition applyLookupOption (o : LookupOption) (c : LookupConfig) : outcome LookupConfig :=
  match o with
  | WithLookupBatchLimits keys inFlight =>
    if (keys <=? 0) || (inFlight <=? 0) then Err ErrInvalidConfig
    else Ok (MkLookupConfig keys inFlight (lk_MaxQueuedKeys c) (lk_BatchTimeout c) (lk_RetryPolicy c) (lk_Partition c)
               (lk_InsertIfNotExists c) (lk_RequestTimeout c) (lk_Acks c))
  | WithLookupQueue keys timeout =>
    if (keys <=? 0) || (timeout <? 0) then Err ErrInvalidConfig
    else Ok (MkLookupConfig (lk_MaxBatchKeys c) (lk_MaxInFlightRequests c) keys timeout (lk_RetryPolicy c) (lk_Partition c)
               (lk_InsertIfNotExists c) (lk_RequestTimeout c) (lk_Acks c))
  | WithLookupRetryPolicy policy =>
    if (cr_MaxAttempts policy <? 1) || (maxWriterAttempts <? cr_MaxAttempts policy) then Err ErrInvalidConfig
    else Ok (MkLookupConfig (lk_MaxBatchKeys c) (lk_MaxInFlightRequests c) (lk_MaxQueuedKeys c) (lk_BatchTimeout c) policy
               (lk_Partition c) (lk_InsertIfNotExists c) (lk_RequestTimeout c) (lk_Acks c))
  | WithLookupRequestTimeout timeout =>
    if badTimeout timeout then Err ErrInvalidConfig
    else Ok (MkLookupConfig (lk_MaxBatchKeys c) (lk_MaxInFlightRequests c) (lk_MaxQueuedKeys c) (lk_BatchTimeout c)
               (lk_RetryPolicy c) (lk_Partition c) (lk_InsertIfNotExists c) timeout (lk_Acks c))
  | WithLookupPartition partition =>
    _ ← PhysicalTablePath_Validate (MkPhysicalTablePath (MkTablePath "d" "t") partition);
    Ok (MkLookupConfig (lk_MaxBatchKeys c) (lk_MaxInFlightRequests c) (lk_MaxQueuedKeys c) (lk_BatchTimeout c)
          (lk_RetryPolicy c) partition (lk_InsertIfNotExists c) (lk_RequestTimeout c) (lk_Acks c))
  | WithLookupInsertIfNotExists timeout acks =>
    if badTimeout timeout || (negb (acks =? 0) && negb (acks =? 1) && negb (acks =? -1)) then Err ErrInvalidConfig
    else Ok (MkLookupConfig (lk_MaxBatchKeys c) (lk_MaxInFlightRequests c) (lk_MaxQueuedKeys c) (lk_BatchTimeout c)
               (lk_RetryPolicy c) (lk_Partition c) true timeout acks)
  end.

Definition defaultLookupConfig : LookupConfig :=
  MkLookupConfig 1000 8 10000 millisecond (MkClientRetry 1 None) "" false (30 * second) (-1).

(** [None] is a nil option. *)
Fixpoint applyLookupOptions (options : list (option LookupOption)) (c : LookupConfig) : outcome LookupConfig :=
  match options with
  | [] => Ok c
  | None :: _ => Err ErrInvalidConfig
  | Some o :: rest => c ← applyLookupOption o c; applyLookupOptions rest c
  end.

Definition lookupConfig (options : list (option LookupOption)) : outcome LookupConfig :=
  config ← applyLookupOptions options defaultLookupConfig;
  if lk_InsertIfNotExists config && (1 <? cr_MaxAttempts (lk_RetryPolicy config)) then Err ErrInvalidConfig
  else Ok config.

(** An insertion of a missing key must be able to fill every column that is not given. *)
Definition validateLookupInsertSchema (s : Schema) (config : LookupConfig) : outcome unit :=
  if negb (lk_InsertIfNotExists config) then Ok tt
  else check (forallb (fun column => negb (negb (col_Nullable column) && negb (bool_decide (col_Name column ∈ sch_PrimaryKey s))
                                        && negb (bool_decide (col_Name column ∈ sch_AutoIncrement s)))) (sch_Columns s))
             ErrInvalidSchema.

(** [Lookuper], without its scheduler. *)
Record Lookuper := MkLookuper {
  lo_table : Table;
  lo_path : PhysicalTablePath;
  lo_config : LookupConfig;
  lo_tableID : Z;
  lo_partitionID : Z;
  lo_buckets : list Z;
}.

(** [newLookuper]; [metadata] is what the backend answers. *)
Definition newLookuper (metadata : PhysicalTablePath -> outcome (Z * gmap Z ServerNode)) (table : Table)
    (options : list (option LookupOption)) : outcome Lookuper :=
  _ ← RequirePrimaryKey table;
  _ ← Schema_Validate (tab_Schema table);
  config ← lookupConfig options;
  _ ← validateLookupInsertSchema (tab_Schema table) config;
  let path := MkPhysicalTablePath (tab_Path table) (lk_Partition config) in
  '(physicalID, locations) ← metadata path;
  let noPartition := bool_decide (pp_Partition path = ""%string) in
  if noPartition && negb (physicalID =? tab_ID table) then Err ErrMetadata
  else
    buckets ← sortedBuckets locations;
    Ok (MkLookuper table path config (tab_ID table) (if noPartition then -1 else physicalID) buckets).

(** ** Keys *)

Definition bucketForValues (l : Lookuper) (values : gmap string GoValue) : outcome Z :=
  let s := tab_Schema (lo_table l) in
  let names := match sch_BucketKey s with [] => sch_PrimaryKey s | names => names end in
  encoded ← encodeKeyColumns s names (namedKey values names);
  bucket ← flussBucket encoded (glen (lo_buckets l));
  index (lo_buckets l) bucket.

Definition encodePoint (l : Lookuper) (key : PrimaryKey) : outcome (list byte * Z) :=
  let s := tab_Schema (lo_table l) in
  encoded ← EncodeLookupKey s key 1;
  values ← rowValuesLoop key 0 (sch_PrimaryKey s) ∅;
  bucket ← bucketForValues l values;
  Ok (encoded, bucket).

(** [values[PrimaryKey[index]] = prefix[index]] for every value of the prefix. *)
Fixpoint prefixValues (names : list string) (prefix : PrimaryKey) (values : gmap string GoValue) : outcome (gmap string GoValue) :=
  match prefix, names with
  | [], _ => Ok values
  | _ :: _, [] => Panic
  | v :: prefix, name :: names => prefixValues names prefix (<[name := v]> values)
  end.

(** The bucket key must be a leading part of the primary key. *)
Fixpoint leadsPrimaryKey (bucketNames primaryKey : list string) : bool :=
  match bucketNames, primaryKey with
  | [], _ => true
  | _ :: _, [] => false
  | name :: bucketNames, key :: primaryKey => bool_decide (key = name) && leadsPrimaryKey bucketNames primaryKey
  end.

Definition encodePrefix (l : Lookuper) (prefix : PrimaryKey) : outcome (list byte * Z) :=
  let s := tab_Schema (lo_table l) in
  let bucketNames := match sch_BucketKey s with [] => sch_PrimaryKey s | names => names end in
  if glen prefix <? glen bucketNames then Err ErrInvalidRow
  else if negb (leadsPrimaryKey bucketNames (sch_PrimaryKey s)) then Err ErrInvalidSchema
  else
    encoded ← EncodePrefixLookupKey s prefix 1;
    values ← prefixValues (sch_PrimaryKey s) prefix ∅;
    bucket ← bucketForValues l values;
    Ok (encoded, bucket).

(** ** Requests and replies *)

(** What the messages of [lookup] and [prefixLookup] hold for their one bucket; the insertion
    is its timeout in milliseconds and its acknowledgement mode. *)
Record lookupMessage := MkLookupMessage {
  lm_TableId : Z;
  lm_Insert : option (Z * Z);
  lm_BucketId : Z;
  lm_PartitionId : option Z;
  lm_Keys : list (list byte);
}.

Record lookupReply (V : Type) := MkLookupReply {
  ly_BucketId : Z;
  ly_ErrorCode : Z;
  ly_ErrorMessage : string;
  ly_Values : list V;
}.
Arguments MkLookupReply {V} _ _ _ _.
Arguments ly_BucketId {V} _.
Arguments ly_ErrorCode {V} _.
Arguments ly_ErrorMessage {V} _.
Arguments ly_Values {V} _.

Definition lookupMessageOf (l : Lookuper) (insert : bool) (bucket : Z) (keys : list (list byte)) : lookupMessage :=
  MkLookupMessage (lo_tableID l)
    (if insert then Some (int32 (Z.quot (lk_RequestTimeout (lo_config l)) millisecond), lk_Acks (lo_config l)) else None)
    bucket (if 0 <=? lo_partitionID l then Some (lo_partitionID l) else None) keys.

(** [append([]byte(nil), value...)]: an empty slice comes out nil. *)
Definition copyBytes (value : list byte) : option (list byte) :=
  match value with [] => None | _ => Some value end.

(** The checks both replies go through, in order. *)
Definition checkLookupReply {V} (api bucket : Z) (keys : list (list byte)) (reply : list (lookupReply V)) : list V + callError :=
  match reply with
  | [result] =>
    if negb (ly_BucketId result =? bucket) then inr (Plain ErrValidation)
    else match responseServerError (ly_ErrorCode result) (ly_ErrorMessage result) api with
         | Some e => inr (ServerErr e)
         | None =>
           if negb (glen (ly_Values result) =? glen keys) then inr (Plain ErrValidation) else inl (ly_Values result)
         end
  | _ => inr (Plain ErrValidation)
  end.

Definition APIKeyLookup : Z := 1017.
Definition APIKeyPrefixLookup : Z := 1034.

(** [clientLookupBackend.lookup], from the response on; a missing value or a nil one is [None].
    The values come back nil where there is nothing in them. *)
Definition lookupValues (bucket : Z) (keys : list (list byte)) (reply : list (lookupReply (option (list byte))))
    : list (option (list byte)) + callError :=
  match checkLookupReply APIKeyLookup bucket keys reply with
  | inr e => inr e
  | inl values => inl (map (fun value => match value with Some v => copyBytes v | None => None end) values)
  end.

Definition prefixLookupValues (bucket : Z) (keys : list (list byte)) (reply : list (lookupReply (list (list byte))))
    : list (list (list byte)) + callError :=
  checkLookupReply APIKeyPrefixLookup bucket keys reply.

(** *** Retries *)

Section Retry.
Context {T : Type} (policy : RetryPolicy) (mutation : bool).

(** In attempt [n]: what the call returns, the request context's error afterwards, and the
    context's error while waiting. *)
Context (call : Z -> T + callError) (ctxErr whileWaiting : Z -> option callError).

(** The result, and the number of calls made. *)
Fixpoint retryLoop (turns : nat) (attempt : Z) : (T + callError) * Z :=
  match turns with
  | O => (inr (Plain ErrValidation), attempt - 1)
  | S turns =>
    match call attempt with
    | inl value => (inl value, attempt)
    | inr err =>
      if mutation || (attempt =? cr_MaxAttempts policy) || negb (writerRetryable err)
         || match ctxErr attempt with Some _ => true | None => false end then (inr err, attempt)
      else
        let delay := match cr_Backoff policy with Some f => f (attempt + 1) | None => 0 end in
        match waitContext (whileWaiting attempt) delay with
        | Some e => (inr e, attempt)
        | None => retryLoop turns (attempt + 1)
        end
    end
  end.

Definition retryLookup : (T + callError) * Z := retryLoop (Z.to_nat (cr_MaxAttempts policy)) 1.

End Retry.

(** ** Results *)

(** [rawLookupResult]: what a task is completed with. *)
Record rawLookupResult := MkRawResult {
  raw_value : option (list byte);
  raw_rows : list (list byte);
  raw_err : option callError;
}.

Record LookupResult := MkLookupResult {
  lr_Key : PrimaryKey;
  lr_Row : option Row;
  lr_Found : bool;
  lr_Bucket : Z;
  lr_Err : option callError;
}.

Record PrefixLookupResult := MkPrefixLookupResult {
  pr_Prefix : PrimaryKey;
  pr_Rows : list Row;
  pr_Bucket : Z;
  pr_Err : option callError;
}.

Section Results.
Context (resolveSchema : TablePath -> Z -> outcome Schema).

(** [decodeLookupValueWithResolver]. *)
Definition decodeLookupValue (table : Table) (value : list byte) : outcome Row :=
  if glen value <? 2 then Err ErrMalformedRow
  else
    schemaID ← getLE 2 value 0;
    let schemaID := int16 schemaID in
    schema ← resolveSchema (tab_Path table) schemaID;
    encoded ← slice_from value 2;
    row ← DecodeCompactedRow schema encoded;
    evolveRow schema (tab_Schema table) row.

(** The result of a key whose task was completed with [raw]. *)
Definition pointResult (table : Table) (key : PrimaryKey) (bucket : Z) (raw : rawLookupResult) : outcome LookupResult :=
  match raw_err raw with
  | Some e => Ok (MkLookupResult key None false bucket (Some e))
  | None =>
    match raw_value raw with
    | None => Ok (MkLookupResult key None false bucket (Some (Plain ErrNotFound)))
    | Some value =>
      match decodeLookupValue table value with
      | Ok row => Ok (MkLookupResult key (Some row) true bucket None)
      | Err e => Ok (MkLookupResult key None false bucket (Some (Plain e)))
      | Panic => Panic
      | OutOfFuel => OutOfFuel
      end
    end
  end.

(** The rows of [awaitPrefixLookup], up to the first that does not decode. *)
Fixpoint prefixRows (table : Table) (values : list (list byte)) (rows : list Row) : outcome (list Row * option callError) :=
  match values with
  | [] => Ok (rows, None)
  | value :: values =>
    match decodeLookupValue table value with
    | Ok row => prefixRows table values (rows ++ [row])
    | Err e => Ok (rows, Some (Plain e))
    | Panic => Panic
    | OutOfFuel => OutOfFuel
    end
  end.

Definition prefixResult (table : Table) (prefix : PrimaryKey) (bucket : Z) (raw : rawLookupResult) : outcome PrefixLookupResult :=
  match raw_err raw with
  | Some e => Ok (MkPrefixLookupResult prefix [] bucket (Some e))
  | None => '(rows, err) ← prefixRows table (raw_rows raw) []; Ok (MkPrefixLookupResult prefix rows bucket err)
  end.

(** *** The calls

    [lookupContextError]; a nil context is [None]. *)
Definition lookupContextError (ctx : Context_) (closed : bool) : option callError :=
  match ctx with
  | None => Some (Plain ErrInvalidConfig)
  | Some ctxErr => if closed then Some (Plain ErrClosed) else ctxErr
  end.

Section Calls.
Context (l : Lookuper) (ctx : Context_) (closed : bool).

(** For the [n]-th key: what [enqueueLookup] returns instead of a task, and what the call then
    waits for: the task's result or the end of the context. *)
Context (enqueued : nat -> option callError) (awaited : nat -> rawLookupResult + callError).

Definition lookupKey (n : nat) (key : PrimaryKey) : outcome LookupResult :=
  match encodePoint l key with
  | Ok (_, bucket) =>
    match enqueued n with
    | Some e => Ok (MkLookupResult key None false bucket (Some e))
    | None =>
      match awaited n with
      | inl raw => pointResult (lo_table l) key bucket raw
      | inr e => Ok (MkLookupResult key None false bucket (Some e))
      end
    end
  | Err e => Ok (MkLookupResult key None false 0 (Some (Plain e)))
  | Panic => Panic
  | OutOfFuel => OutOfFuel
  end.

Fixpoint lookupKeys (n : nat) (keys : list PrimaryKey) : outcome (list LookupResult) :=
  match keys with
  | [] => Ok []
  | key :: keys => result ← lookupKey n key; results ← lookupKeys (S n) keys; Ok (result :: results)
  end.

Definition Lookup (keys : list PrimaryKey) : outcome (list LookupResult) :=
  match keys, lookupContextError ctx closed with
  | _ :: _, Some e => Ok (map (fun key => MkLookupResult key None false 0 (Some e)) keys)
  | _, _ => lookupKeys 0 keys
  end.

Definition prefixLookupKey (n : nat) (prefix : PrimaryKey) : outcome PrefixLookupResult :=
  match encodePrefix l prefix with
  | Ok (_, bucket) =>
    match enqueued n with
    | Some e => Ok (MkPrefixLookupResult prefix [] bucket (Some e))
    | None =>
      match awaited n with
      | inl raw => prefixResult (lo_table l) prefix bucket raw
      | inr e => Ok (MkPrefixLookupResult prefix [] bucket (Some e))
      end
    end
  | Err e => Ok (MkPrefixLookupResult prefix [] 0 (Some (Plain e)))
  | Panic => Panic
  | OutOfFuel => OutOfFuel
  end.

Fixpoint prefixLookupKeys (n : nat) (prefixes : list PrimaryKey) : outcome (list PrefixLookupResult) :=
  match prefixes with
  | [] => Ok []
  | prefix :: prefixes =>
    result ← prefixLookupKey n prefix; results ← prefixLookupKeys (S n) prefixes; Ok (result :: results)
  end.

Definition PrefixLookup (prefixes : list PrimaryKey) : outcome (list PrefixLookupResult) :=
  match prefixes with
  | [] => Ok []
  | _ =>
    if lk_InsertIfNotExists (lo_config l)
    then Ok (map (fun prefix => MkPrefixLookupResult prefix [] 0 (Some (Plain ErrInvalidConfig))) prefixes)
    else match lookupContextError ctx closed with
         | Some e => Ok (map (fun prefix => MkPrefixLookupResult prefix [] 0 (Some e)) prefixes)
         | None => prefixLookupKeys 0 prefixes
         end
  end.

End Calls.

End Results.

(** ** A lookup finds what a writer wrote *)

Lemma rowValuesLoop_total (g : string -> GoValue) names : forall pre values,
  exists m, rowValuesLoop (pre ++ map g names) (glen pre) names values = Ok m.
Proof.
  induction names as [|n names IH]; intros pre values; [by eexists|]. cbn.
  rewrite index_app by done. cbn. destruct (IH (pre ++ [g n]) (<[n := g n]> values)) as [m Hm]. exists m.
  rewrite <- app_assoc in Hm. cbn in Hm. rewrite glen_app, glen_cons, glen_nil in Hm. by replace (glen pre + (1 + 0)) with (glen pre + 1) in Hm by lia.
Qed.

(** The key columns of a row encode and route for a lookup as they do for the writer. *)
Lemma encodePoint_enqueue (w : UpsertWriter) (l : Lookuper) ctxErr values value targets future item :
  let s := tab_Schema (uw_table w) in
  lo_table l = uw_table w -> lo_buckets l = uw_buckets w ->
  Forall (fun name => name ∈ sch_PrimaryKey s) (sch_BucketKey s) ->
  enqueueMutation w ctxErr values value targets future = Ok item ->
  encodePoint l (namedKey values (sch_PrimaryKey s)) = Ok (kv_Key (pk_record item), pk_bucket item).
Proof.
  intros s Ht Hb Hsub. unfold enqueueMutation. fold s. intros H. inv_ok. cbn [kv_Key pk_record pk_bucket].
  unfold encodePoint, bucketForValues. rewrite Ht, Hb. fold s.
  change (EncodeLookupKey s (namedKey values (sch_PrimaryKey s)) 1) with (EncodePrimaryKey s (namedKey values (sch_PrimaryKey s))).
  rename select (EncodePrimaryKey _ _ = _) into Hk. rewrite Hk. cbn [mbind outcome_bind].
  destruct (rowValuesLoop_total (fun name => default VNil (values !! name)) (sch_PrimaryKey s) [] ∅) as [m Hm].
  cbn [app] in Hm. change (glen []) with 0 in Hm. change (map _ (sch_PrimaryKey s)) with (namedKey values (sch_PrimaryKey s)) in Hm.
  rewrite Hm. cbn [mbind outcome_bind].
  pose proof (rowValuesLoop_named (fun name => default VNil (values !! name)) _ [] _ _ Hm) as Hl.
  assert (Hpk : namedKey m (sch_PrimaryKey s) = namedKey values (sch_PrimaryKey s)).
  { apply map_ext_in. intros name Hn%list_elem_of_In. by rewrite (Hl name) by (by left). }
  assert (Hn : let names := match sch_BucketKey s with [] => sch_PrimaryKey s | names => names end in namedKey m names = namedKey values names).
  { destruct (sch_BucketKey s) eqn:E; [done|]. by eapply namedKey_sub. }
  cbv zeta in Hn. rewrite Hn. rename select (encodeKeyColumns _ _ _ = _) into He. rewrite He. cbn [mbind outcome_bind].
  rename select (flussBucket _ _ = _) into Hf. rewrite Hf. cbn [mbind outcome_bind].
  rename select (index _ _ = _) into Hi. by rewrite Hi.
Qed.

Lemma retain_isNil enc inRow t v : isNil (retain enc inRow t v) = isNil v.
Proof. destruct t, v; cbn; repeat case_match; done. Qed.

(** Rows whose absent values are allowed to be survive the evolution to their own schema. *)
Lemma evolveLoop_same row columns n r :
  drop n row = r -> Forall2 (fun c v => isNil v = true -> col_Nullable c = true) columns r ->
  evolveLoop row columns (Z.of_nat <$> seq n (length columns)) = Ok r.
Proof.
  revert n r. induction columns as [|c columns IH]; intros n r E F; [by apply Forall2_nil_inv_l in F as ->|].
  apply Forall2_cons_inv_l in F as (v & r' & Hv & F & ->). cbn. destruct (Z.ltb_spec (Z.of_nat n) 0); [lia|].
  assert (Ev : row !! n = Some v) by (rewrite <- (Nat.add_0_r n), <- lookup_drop, E; done).
  unfold index. destruct (Z.leb_spec 0 (Z.of_nat n)); [|lia]. rewrite Nat2Z.id, Ev. cbn.
  assert (isNil v && negb (col_Nullable c) = false) as -> by (destruct (isNil v); [by rewrite Hv|done]).
  cbn. rewrite (IH (S n) r'); [done| |done]. apply (f_equal (drop 1)) in E. rewrite drop_drop, Nat.add_1_r in E. exact E.
Qed.

Lemma evolveRow_retained s row enc :
  ValidateRow s row [] = Ok tt -> (hasUnassignedFieldIDs s = false -> NoDup (col_ID <$> sch_Columns s)) ->
  evolveRow s s (retainRow enc (sch_Columns s) row) = Ok (retainRow enc (sch_Columns s) row).
Proof.
  intros [Vs Vr]%ValidateRow_all Hid. destruct (Schema_Validate_Ok s tt Vs) as (_ & Hnd & _).
  pose proof (Forall2_length _ _ _ Vr) as Hl. unfold evolveRow.
  assert (glen (retainRow enc (sch_Columns s) row) =? glen (sch_Columns s) = true) as ->.
  { unfold glen, retainRow. rewrite length_zip_with, <- Hl, Nat.min_id. by apply Z.eqb_refl. }
  cbn [check mbind outcome_bind]. unfold schemaColumnMapping. rewrite (mappingLoop_self s _ [] (sch_Columns s) eq_refl).
  - cbn [mbind outcome_bind]. apply evolveLoop_same; [done|]. unfold retainRow. clear Hl Hid Hnd Vs.
    induction Vr as [|c v columns row Hv Vr IH]; cbn; constructor; [|done]. rewrite retain_isNil. intros Hn.
    unfold validateColumnValue in Hv. rewrite Hn in Hv. by apply check_Ok in Hv.
  - intros j c E. unfold findColumn, stableIDs. destruct (hasUnassignedFieldIDs s); cbn;
      by rewrite (indexColumns_lookup _ (sch_Columns s) 0 ∅ j c) by auto.
Qed.

(** What an open lookuper holds. *)
Lemma newLookuper_opened metadata table options l : newLookuper metadata table options = Ok l ->
  lo_table l = table /\ lookupConfig options = Ok (lo_config l) /\ Schema_Validate (tab_Schema table) = Ok tt /\
  validateLookupInsertSchema (tab_Schema table) (lo_config l) = Ok tt /\
  exists physicalID locations, metadata (lo_path l) = Ok (physicalID, locations) /\ sortedBuckets locations = Ok (lo_buckets l).
Proof.
  unfold newLookuper. intros H. inv_ok. destruct x0, x2, x3 as [physicalID locations]. cbv beta iota in K. case_match; [done|].
  inv_ok. cbn. split_and!; try done. by exists physicalID, locations.
Qed.

Lemma decodeLookupValue_retained resolveSchema table id row encoded :
  let s := tab_Schema table in
  ValidateRow s row [] = Ok tt -> EncodeCompactedRow s row = Ok encoded ->
  forallb wfValue row = true -> rowHeaderBytes s compactedEncoding <= maxRowBytes ->
  srange 16 id = true -> resolveSchema (tab_Path table) id = Ok s ->
  (hasUnassignedFieldIDs s = false -> NoDup (col_ID <$> sch_Columns s)) ->
  decodeLookupValue resolveSchema table (le_split 2 (uint16 id) ++ encoded) =
    Ok (retainRow compactedEncoding (sch_Columns s) row).
Proof.
  intros s Hvalid Henc Hw Hh Hid Hr Hids. unfold decodeLookupValue.
  assert (Hg : glen (le_split 2 (uint16 id) ++ encoded) <? 2 = false).
  { apply Z.ltb_ge. rewrite glen_app, glen_le_split. pose proof (glen_nonneg encoded). lia. }
  rewrite Hg. pose proof (getLE_app 2 [] encoded (uint16 id) 0 eq_refl) as Hlo. cbn [app] in Hlo. rewrite Hlo. cbn [mbind outcome_bind].
  change (uint16 id mod 2 ^ (8 * Z.of_nat 2)) with (uint16 (uint16 id)). rewrite uwrap_wider, swrap_uwrap_small by (done || lia).
  rewrite Hr. cbn [mbind outcome_bind]. rewrite slice_from_app by done. cbn [mbind outcome_bind].
  destruct (codecs_agree (schemaFuel s)) as (_ & _ & _ & _ & _ & Hd). unfold DecodeCompactedRow.
  rewrite (Hd s row compactedEncoding encoded) by first [done|by eapply encodeRow_max]. cbn [mbind outcome_bind].
  by apply evolveRow_retained.
Qed.

(** A lookup reads what an upsert wrote.  The lookup of the primary key of a row goes to the
    bucket of the row's upsert, with the key the upsert stored it under; and when the server
    returns the stored bytes behind the identifier of the table's schema, the result is found and
    holds what the column types retain of the row. *)
Theorem lookup_reads_written backend table options w metadata lookupOptions l ctxErr row values future item id resolveSchema :
  newUpsertWriter backend table options = Ok w -> newLookuper metadata table lookupOptions = Ok l -> lo_buckets l = uw_buckets w ->
  rowValues (tab_Schema table) row [] = Ok values -> Upsert w (Some ctxErr) row future = Ok item ->
  forallb wfValue row = true -> rowHeaderBytes (tab_Schema table) compactedEncoding <= maxRowBytes ->
  srange 16 id = true -> resolveSchema (tab_Path table) id = Ok (tab_Schema table) ->
  (hasUnassignedFieldIDs (tab_Schema table) = false -> NoDup (col_ID <$> sch_Columns (tab_Schema table))) ->
  let key := namedKey values (sch_PrimaryKey (tab_Schema table)) in
  encodePoint l key = Ok (kv_Key (pk_record item), pk_bucket item) /\
  exists value, kv_Value (pk_record item) = Some value /\
    pointResult resolveSchema table key (pk_bucket item) (MkRawResult (Some (le_split 2 (uint16 id) ++ value)) [] None) =
      Ok (MkLookupResult key (Some (retainRow compactedEncoding (sch_Columns (tab_Schema table)) row)) true (pk_bucket item) None).
Proof.
  intros Ho Hl Hb Hv Hu Hw Hh Hid Hr Hids key. apply opened_keys in Ho as [<- Hsub]. set (s := tab_Schema (uw_table w)) in *.
  pose proof (newLookuper_opened _ _ _ _ Hl) as (Ht & _).
  unfold Upsert in Hu. fold s in Hu. clear Hl. inv_ok. rename select (enqueueMutation _ _ _ _ _ _ = _) into He.
  rename select (rowValues _ _ _ = Ok x2) into Hv'. assert (x2 = values) as -> by congruence. destruct x0.
  rename select (EncodeCompactedRow _ _ = _) into Henc. rename select (ValidateRow _ _ _ = _) into Hvalid.
  split; [by eapply encodePoint_enqueue|]. pose proof (enqueueMutation_bucket _ _ _ _ _ _ _ He) as (_ & _ & _ & Hval & _).
  rewrite Hval. eexists. split; [done|]. unfold pointResult. cbn [raw_err raw_value].
  by rewrite (decodeLookupValue_retained _ (uw_table w) id row x1).
Qed.

(** The table of [KVRun], which has two buckets. *)
Definition sampleMetadata : PhysicalTablePath -> outcome (Z * gmap Z ServerNode) := ub_metadata sampleBackend.

Definition sampleLookuper : Lookuper :=
  MkLookuper sampleTable (MkPhysicalTablePath (MkTablePath "db" "users") "") defaultLookupConfig 7 (-1) [0; 1].

Definition sampleValues : gmap string GoValue := {["id"%string := VInt32 1; "name"%string := VString "x"]}.

Lemma lookup_reads_written_witness :
  let key := namedKey sampleValues (sch_PrimaryKey (tab_Schema sampleTable)) in
  key = [VInt32 1] /\ encodePoint sampleLookuper key = Ok (kv_Key (pk_record (sampleItem 1 1)), pk_bucket (sampleItem 1 1)) /\
  exists value, kv_Value (pk_record (sampleItem 1 1)) = Some value /\
    pointResult (fun _ _ => Ok (tab_Schema sampleTable)) sampleTable key (pk_bucket (sampleItem 1 1))
      (MkRawResult (Some (le_split 2 (uint16 3) ++ value)) [] None) =
      Ok (MkLookupResult key (Some (retainRow compactedEncoding (sch_Columns (tab_Schema sampleTable)) [VInt32 1; VString "x"])) true
            (pk_bucket (sampleItem 1 1)) None).
Proof.
  split; [vm_compute; reflexivity|].
  eapply (lookup_reads_written sampleBackend sampleTable sampleOptions sampleWriter sampleMetadata [] sampleLookuper None
           [VInt32 1; VString "x"] sampleValues 1 (sampleItem 1 1) 3 (fun _ _ => Ok (tab_Schema sampleTable))).
  - exact sampleWriter_opened.
  - vm_compute. reflexivity.
  - vm_compute. reflexivity.
  - vm_compute. reflexivity.
  - vm_compute. reflexivity.
  - vm_compute. reflexivity.
  - vm_compute. discriminate.
  - reflexivity.
  - reflexivity.
  - vm_compute. discriminate.
Defined.

(** ** Prefix lookups go where the rows are *)

Lemma prefixValues_named names : forall prefix values m, prefixValues names prefix values = Ok m -> NoDup names ->
  (length prefix <= length names)%nat /\
  forall i name v, names !! i = Some name -> prefix !! i = Some v -> m !! name = Some v.
Proof.
  assert (K : forall names prefix values m, prefixValues names prefix values = Ok m ->
            forall name, name ∉ names -> m !! name = values !! name).
  { clear names. induction names as [|n names IH]; intros [|v prefix] values m H name Hn; cbn in H; inv_ok; try done.
    apply not_elem_of_cons in Hn as [Hne Hn]. by rewrite (IH _ _ _ H name Hn), lookup_insert_ne. }
  induction names as [|n names IH]; intros [|v prefix] values m H Hd; cbn in H; inv_ok; try (split; [cbn; lia|done]).
  apply NoDup_cons in Hd as [Hn Hd]. destruct (IH _ _ _ H Hd) as [Hl Hi]. split; [cbn; lia|].
  intros [|i] name w E E'; cbn in E, E'; simplify_eq; [|by eapply Hi].
  by rewrite (K _ _ _ _ H name Hn), lookup_insert_eq.
Qed.

Lemma rowValuesLoop_prefix names : forall key pre values m, glen key = glen names ->
  rowValuesLoop (pre ++ key) (glen pre) names values = Ok m -> prefixValues names key values = Ok m.
Proof.
  induction names as [|n names IH]; intros [|v key] pre values m Hl H; cbn in H |- *; inv_ok; try done; try (unfold glen in Hl; cbn in Hl; lia).
  rewrite index_app in E by done. simplify_eq. apply (IH key (pre ++ [x])); [unfold glen in *; cbn in Hl; lia|].
  rewrite <- app_assoc. cbn [app]. rewrite glen_app, glen_cons, glen_nil. exact K.
Qed.

Lemma leadsPrimaryKey_take bucketNames : forall primaryKey, leadsPrimaryKey bucketNames primaryKey = true ->
  bucketNames = take (length bucketNames) primaryKey.
Proof.
  induction bucketNames as [|n names IH]; intros [|k primaryKey] H; cbn in *; try done.
  apply andb_true_iff in H as [->%bool_decide_eq_true H]. f_equal. by apply IH.
Qed.

Lemma namedKey_leading names n (prefix : PrimaryKey) m : (n <= length prefix)%nat -> (n <= length names)%nat ->
  (forall i name v, names !! i = Some name -> prefix !! i = Some v -> m !! name = Some v) ->
  namedKey m (take n names) = take n prefix.
Proof.
  intros Hp Hn H. apply list_eq. intros i. unfold namedKey. rewrite list_lookup_fmap.
  rewrite !lookup_take. destruct (decide (i < n)%nat) as [Hi|Hi]; [|done].
  destruct (lookup_lt_is_Some_2 names i) as [name En]; [lia|]. destruct (lookup_lt_is_Some_2 prefix i) as [v Ev]; [lia|].
  rewrite En, Ev. cbn [fmap option_fmap option_map]. by rewrite (H i name v En Ev).
Qed.

Lemma encodeKeyLoop_leading fuel byName names rest : forall values values' encoded full,
  length values = length names ->
  encodeKeyLoop fuel byName names values [] = Ok encoded ->
  encodeKeyLoop fuel byName (names ++ rest) (values ++ values') [] = Ok full -> exists suffix, full = encoded ++ suffix.
Proof.
  induction names as [|n names IH]; intros [|v values] values' encoded full Hl H H'; cbn in *; inv_ok; try done; [by exists full|].
  destruct (isNil v); [done|]. inv_ok. rewrite encodeKeyLoop_app in K, K0. simplify_eq.
  apply fmap_Ok in K as (f & Kf & ->), K0 as (e & Ke & ->). rewrite E in E0. injection E0 as <-.
  destruct (IH values values' e f) as [suffix ->]; [lia|done|done|]. exists suffix. by rewrite app_assoc.
Qed.

Lemma bucketForValues_ext l m m' : let s := tab_Schema (lo_table l) in
  let names := match sch_BucketKey s with [] => sch_PrimaryKey s | names => names end in
  namedKey m names = namedKey m' names -> bucketForValues l m = bucketForValues l m'.
Proof. cbv zeta. intros E. unfold bucketForValues. cbv zeta. by rewrite E. Qed.

Lemma EncodePrefixKey_loop s prefix b : EncodePrefixLookupKey s prefix 1 = Ok b ->
  sch_PrimaryKey s <> [] /\ (length prefix <= length (sch_PrimaryKey s))%nat /\
  encodeKeyLoop (schemaFuel s) (columnsByName s) (take (length prefix) (sch_PrimaryKey s)) prefix [] = Ok b.
Proof.
  unfold EncodePrefixLookupKey, EncodePrefixKey, encodeKeyColumns. change (negb (1 =? 0) && negb (1 =? 1)) with false. cbv iota. intros H.
  destruct (_ || _) eqn:C in H; [done|]. apply orb_false_iff in C as [C0 C]. unfold glen in C0, C. inv_ok.
  apply Z.ltb_ge in C. apply Z.eqb_neq in C0. case_match; inv_ok. split_and!; [|lia|done]. intros Hn. rewrite Hn in C. cbn in C. lia.
Qed.

(** A prefix lookup looks where the rows are.  Whatever bucket and key a full primary key has,
    every prefix of it that a prefix lookup accepts goes to that bucket, with bytes the key's
    bytes begin with. *)
Theorem prefix_lookup_leads (l : Lookuper) prefix rest encoded bucket full bucket' :
  NoDup (sch_PrimaryKey (tab_Schema (lo_table l))) ->
  encodePrefix l prefix = Ok (encoded, bucket) -> encodePoint l (prefix ++ rest) = Ok (full, bucket') ->
  bucket' = bucket /\ exists suffix, full = encoded ++ suffix.
Proof.
  intros Hd Hp Hk. unfold encodePrefix, encodePoint in *. set (s := tab_Schema (lo_table l)) in *. inv_ok.
  destruct (Z.ltb_spec (glen prefix) (glen (match sch_BucketKey s with [] => sch_PrimaryKey s | names => names end))) as [|Hlen]; [done|].
  destruct (leadsPrimaryKey _ (sch_PrimaryKey s)) eqn:Hlead; [|done]. cbn [negb] in Hp. inv_ok.
  rename select (EncodePrefixLookupKey _ _ _ = _) into He. apply EncodePrefixKey_loop in He as (Hne & Hle & He).
  rename select (EncodeLookupKey _ _ _ = _) into Hf. change (EncodePrimaryKey s (prefix ++ rest) = Ok full) in Hf.
  assert (Hfl : glen (prefix ++ rest) = glen (sch_PrimaryKey s)).
  { revert Hf. unfold EncodePrimaryKey, ValidatePrimaryKey, ValidateRow. clear -Hne. intros Hf. inv_ok.
    destruct (sch_PrimaryKey s); [done|]. cbn [selectedColumns] in *. lia. }
  apply EncodePrimaryKey_loop in Hf. split.
  - rename select (bucketForValues _ x0 = _) into Hb'. rename select (bucketForValues _ x1 = _) into Hb.
    cut (bucketForValues l x0 = bucketForValues l x1); [congruence|]. apply bucketForValues_ext. fold s.
    apply leadsPrimaryKey_take in Hlead. rewrite Hlead.
    rename select (rowValuesLoop _ _ _ _ = _) into Hm'. apply (rowValuesLoop_prefix _ _ []) in Hm'; [|done].
    apply prefixValues_named in Hm' as [_ Hm']; [|done]. 
    rename select (prefixValues _ _ _ = _) into Hm. apply prefixValues_named in Hm as [_ Hm]; [|done].
    rewrite !(namedKey_leading _ _ prefix); try done; try (unfold glen in Hlen; lia).
    intros i name v En Ev. apply (Hm' i); [done|]. by apply lookup_app_l_Some.
  - rewrite <- (take_drop (length prefix) (sch_PrimaryKey s)) in Hf.
    eapply encodeKeyLoop_leading; [|exact He|exact Hf]. rewrite length_take. lia.
Qed.

(** A table whose key has two columns, its bucket the first of them. *)
Definition eventsTable : Table :=
  MkTable 7 3 (MkTablePath "db" "events") PrimaryKeyTable
    (MkSchema [MkColumn "user" StringType false None "" 0; MkColumn "at" BigIntType false None "" 0]
       ["user"; "at"]%string ["user"]%string [] [] 0) 4 0 false "" None.

Definition eventsLookuper : Lookuper :=
  MkLookuper eventsTable (MkPhysicalTablePath (MkTablePath "db" "events") "") defaultLookupConfig 7 (-1) [0; 1; 2; 3].

Definition pairOr (m : outcome (list byte * Z)) : list byte * Z := match m with Ok p => p | _ => ([], -1) end.

Lemma prefix_lookup_leads_witness :
  let prefix := pairOr (encodePrefix eventsLookuper [VString "ada"]) in
  let full := pairOr (encodePoint eventsLookuper [VString "ada"; VInt64 1815]) in
  glen (fst prefix) = 4 /\ snd full = snd prefix /\ exists suffix, fst full = fst prefix ++ suffix.
Proof.
  split; [vm_compute; reflexivity|].
  apply (prefix_lookup_leads eventsLookuper [VString "ada"] [VInt64 1815]).
  - by apply (bool_decide_eq_true_1 (NoDup ["user"; "at"]%string)).
  - vm_compute. reflexivity.
  - vm_compute. reflexivity.
Defined.

(** ** Every key gets its answer *)

(** What [newLookuper] and the server's table establish: a primary key, typed columns and an
    [int32] number of buckets. *)
Record lookuperOK (l : Lookuper) : Prop := MkLookuperOK {
  lok_keyed : sch_PrimaryKey (tab_Schema (lo_table l)) <> [];
  lok_typed : forallb columnTyped (sch_Columns (tab_Schema (lo_table l))) = true;
  lok_buckets : 0 < glen (lo_buckets l) < 2 ^ 31;
}.

Lemma bucketForValues_returns l values : lookuperOK l -> returns (bucketForValues l values) = true.
Proof.
  intros [Hk Ht Hb]. unfold bucketForValues. cbv zeta. apply bind_returns.
  { apply encodeKeyColumns_returns; [done|]. by destruct (sch_BucketKey _). }
  intros key _. destruct (decide (key = [])) as [->|Hne]; [done|].
  destruct (flussBucket_total key (glen (lo_buckets l)) Hne Hb) as (b & E & Hr). rewrite E. cbn [mbind outcome_bind].
  destruct (index_safe (lo_buckets l) b Hr) as [b' ->]. done.
Qed.

Lemma rowValuesLoop_enough names : forall pre row values, (length names <= length row)%nat ->
  exists m, rowValuesLoop (pre ++ row) (glen pre) names values = Ok m.
Proof.
  induction names as [|n names IH]; intros pre [|v row] values Hl; cbn in Hl |- *; try (by eexists); [lia|].
  rewrite index_app by done. cbn [mbind outcome_bind].
  destruct (IH (pre ++ [v]) row (<[n := v]> values)) as [m Hm]; [lia|]. exists m.
  rewrite <- app_assoc, glen_app, glen_cons, glen_nil in Hm. exact Hm.
Qed.

Lemma encodePoint_returns l key : lookuperOK l -> returns (encodePoint l key) = true.
Proof.
  intros Hok. pose proof Hok as [Hk Ht _]. unfold encodePoint. cbv zeta.
  change (EncodeLookupKey ?s key 1) with (EncodePrimaryKey s key). set (s := tab_Schema (lo_table l)) in *.
  apply bind_returns.
  - unfold EncodePrimaryKey. apply bind_returns; [apply ValidateRow_returns|]. intros _ _. by apply encodeKeyColumns_returns.
  - intros encoded He. unfold EncodePrimaryKey, ValidatePrimaryKey, ValidateRow in He. inv_ok.
    assert (Hl : length key = length (sch_PrimaryKey s)).
    { destruct (sch_PrimaryKey s); [done|]. cbn [selectedColumns] in *. unfold glen in *. lia. }
    destruct (rowValuesLoop_enough (sch_PrimaryKey s) [] key ∅) as [m Hm]; [lia|]. cbn [app] in Hm. change (glen []) with 0 in Hm.
    rewrite Hm. cbn [mbind outcome_bind]. apply bind_returns; [by apply bucketForValues_returns|done].
Qed.

Lemma prefixValues_returns names : forall prefix values, (length prefix <= length names)%nat ->
  returns (prefixValues names prefix values) = true.
Proof. induction names as [|n names IH]; intros [|v prefix] values Hl; cbn in *; try done; [lia|]. apply IH. lia. Qed.

Lemma encodePrefix_returns l prefix : lookuperOK l -> returns (encodePrefix l prefix) = true.
Proof.
  intros Hok. pose proof Hok as [Hk Ht _]. unfold encodePrefix. cbv zeta. set (s := tab_Schema (lo_table l)) in *.
  destruct (_ <? _); [done|]. destruct (negb _); [done|]. apply bind_returns.
  - unfold EncodePrefixLookupKey, EncodePrefixKey. change (negb (1 =? 0) && negb (1 =? 1)) with false. cbv iota.
    destruct (_ || _) eqn:C; [done|]. apply orb_false_iff in C as [C _]. apply encodeKeyColumns_returns; [done|].
    destruct prefix, (sch_PrimaryKey s); done.
  - intros encoded (_ & Hle & _)%EncodePrefixKey_loop. apply bind_returns; [by apply prefixValues_returns|].
    intros values _. apply bind_returns; [by apply bucketForValues_returns|done].
Qed.

(** The answer to one key: a row of the table, or what went wrong. *)
Definition answered (s : Schema) (key : PrimaryKey) (r : LookupResult) : Prop :=
  lr_Key r = key /\
  ((lr_Found r = true /\ lr_Err r = None /\ exists row, lr_Row r = Some row /\ length row = length (sch_Columns s)) \/
   (lr_Found r = false /\ lr_Row r = None /\ is_Some (lr_Err r))).

Definition prefixAnswered (s : Schema) (prefix : PrimaryKey) (r : PrefixLookupResult) : Prop :=
  pr_Prefix r = prefix /\ Forall (fun row => length row = length (sch_Columns s)) (pr_Rows r).

Section Answers.
Context (resolveSchema : TablePath -> Z -> outcome Schema) (resolver : resolverOK resolveSchema).

Lemma decodeLookupValue_answers table value : returns (decodeLookupValue resolveSchema table value) = true /\
  forall row, decodeLookupValue resolveSchema table value = Ok row -> length row = length (sch_Columns (tab_Schema table)).
Proof.
  unfold decodeLookupValue. split.
  - destruct (Z.ltb_spec (glen value) 2); [done|]. destruct (getLE_safe 2 value 0) as [z ->]; [lia|cbn; lia|]. cbn [mbind outcome_bind].
    cbv zeta. apply bind_returns; [apply resolver|]. intros s Hs. unfold slice_from.
    destruct (slice_safe value 2 (glen value)) as [rest ->]; [lia..|]. cbn [mbind outcome_bind].
    apply bind_returns; [|intros; apply evolveRow_returns]. apply decodeRow_returns. by eapply resolver.
  - intros row H. destruct (glen value <? 2); [done|]. inv_ok. rename select (evolveRow _ _ _ = _) into Ev.
    apply evolveRow_columns in Ev as [_ Ev]. symmetry. by eapply Forall2_length.
Qed.

Lemma pointResult_answers table key bucket raw : exists r, pointResult resolveSchema table key bucket raw = Ok r /\
  answered (tab_Schema table) key r.
Proof.
  unfold pointResult, answered. destruct (raw_err raw); [eexists; naive_solver|].
  destruct (raw_value raw) as [value|]; [|eexists; naive_solver].
  destruct (decodeLookupValue_answers table value) as [R L].
  destruct (decodeLookupValue _ _ _) as [row|e| |]; try done; eexists; (split; [done|]); cbn; naive_solver.
Qed.

Lemma prefixRows_answers table values : forall rows,
  Forall (fun row => length row = length (sch_Columns (tab_Schema table))) rows ->
  exists rows' err, prefixRows resolveSchema table values rows = Ok (rows', err) /\
    Forall (fun row => length row = length (sch_Columns (tab_Schema table))) rows'.
Proof.
  induction values as [|v values IH]; intros rows F; cbn; [by exists rows, None|].
  destruct (decodeLookupValue_answers table v) as [R L]. destruct (decodeLookupValue _ _ _) as [row|e| |]; try done.
  - apply IH. apply Forall_app. split; [done|]. constructor; [by apply L|constructor].
  - by exists rows, (Some (Plain e)).
Qed.

Lemma prefixResult_answers table prefix bucket raw : exists r, prefixResult resolveSchema table prefix bucket raw = Ok r /\
  prefixAnswered (tab_Schema table) prefix r.
Proof.
  unfold prefixResult, prefixAnswered. destruct (raw_err raw); [eexists; split; [done|]; by split; [|constructor]|].
  destruct (prefixRows_answers table (raw_rows raw) []) as (rows & err & -> & F); [constructor|].
  cbn. eexists. split; [done|]. by split.
Qed.

Lemma lookupKeys_answers l enqueued awaited : lookuperOK l -> forall keys n,
  exists results, lookupKeys resolveSchema l enqueued awaited n keys = Ok results /\
    Forall2 (answered (tab_Schema (lo_table l))) keys results.
Proof.
  intros Hok. induction keys as [|key keys IH]; intros n; cbn; [by exists []; split; [|constructor]|].
  assert (exists r, lookupKey resolveSchema l enqueued awaited n key = Ok r /\ answered (tab_Schema (lo_table l)) key r) as (r & -> & Hr).
  { unfold lookupKey. pose proof (encodePoint_returns l key Hok) as R.
    destruct (encodePoint l key) as [[b bucket]|e| |]; try done; [|unfold answered; eexists; naive_solver].
    destruct (enqueued n); [unfold answered; eexists; naive_solver|].
    destruct (awaited n); [apply pointResult_answers|unfold answered; eexists; naive_solver]. }
  cbn. destruct (IH (S n)) as (results & -> & F). cbn. eexists. split; [done|]. by constructor.
Qed.

Lemma prefixLookupKeys_answers l enqueued awaited : lookuperOK l -> forall prefixes n,
  exists results, prefixLookupKeys resolveSchema l enqueued awaited n prefixes = Ok results /\
    Forall2 (prefixAnswered (tab_Schema (lo_table l))) prefixes results.
Proof.
  intros Hok. induction prefixes as [|prefix prefixes IH]; intros n; cbn; [by exists []; split; [|constructor]|].
  assert (exists r, prefixLookupKey resolveSchema l enqueued awaited n prefix = Ok r /\
            prefixAnswered (tab_Schema (lo_table l)) prefix r) as (r & -> & Hr).
  { unfold prefixLookupKey. pose proof (encodePrefix_returns l prefix Hok) as R. unfold prefixAnswered at 1.
    destruct (encodePrefix l prefix) as [[b bucket]|e| |]; try done; [|eexists; split; [done|]; by split; [|constructor]].
    destruct (enqueued n); [eexists; split; [done|]; by split; [|constructor]|].
    destruct (awaited n); [apply prefixResult_answers|eexists; split; [done|]; by split; [|constructor]]. }
  cbn. destruct (IH (S n)) as (results & -> & F). cbn. eexists. split; [done|]. by constructor.
Qed.

Lemma Forall2_map_r {A B} (P : A -> B -> Prop) (f : A -> B) (xs : list A) : (forall x, P x (f x)) -> Forall2 P xs (map f xs).
Proof. intros H. induction xs; cbn; by constructor. Qed.

(** A whole call answers, [Lookup] and [PrefixLookup] alike. *)
Lemma Lookup_answers l ctx closed enqueued awaited keys : lookuperOK l ->
  exists results, Lookup resolveSchema l ctx closed enqueued awaited keys = Ok results /\
    Forall2 (answered (tab_Schema (lo_table l))) keys results.
Proof.
  intros Hok. unfold Lookup. destruct keys as [|key keys]; [by apply lookupKeys_answers|].
  destruct (lookupContextError ctx closed); [|by apply lookupKeys_answers].
  eexists. split; [done|]. apply Forall2_map_r. intros k. unfold answered. cbn. naive_solver.
Qed.

Lemma PrefixLookup_answers l ctx closed enqueued awaited prefixes : lookuperOK l ->
  exists results, PrefixLookup resolveSchema l ctx closed enqueued awaited prefixes = Ok results /\
    Forall2 (prefixAnswered (tab_Schema (lo_table l))) prefixes results.
Proof.
  intros Hok. unfold PrefixLookup. destruct prefixes as [|prefix prefixes]; [by exists []; split; [|constructor]|].
  destruct (lk_InsertIfNotExists _); [|destruct (lookupContextError ctx closed); [|by apply prefixLookupKeys_answers]];
    (eexists; split; [done|]; apply Forall2_map_r; intros k; by split; [|constructor]).
Qed.
End Answers.

(** Every key gets its answer.  Whatever the server sends back and however the requests end, a
    call returns one result per key, in the order of the keys and naming them: a found row with
    the columns of the table and no error, or no row and an error.  The same of prefixes, whose
    rows all have the columns of the table. *)
Theorem lookup_answers (resolveSchema : TablePath -> Z -> outcome Schema) l ctx closed enqueued awaited keys :
  resolverOK resolveSchema -> lookuperOK l ->
  (exists results, Lookup resolveSchema l ctx closed enqueued awaited keys = Ok results /\
     Forall2 (answered (tab_Schema (lo_table l))) keys results) /\
  exists results, PrefixLookup resolveSchema l ctx closed enqueued awaited keys = Ok results /\
     Forall2 (prefixAnswered (tab_Schema (lo_table l))) keys results.
Proof. intros Hr Hok. split; [by apply Lookup_answers|by apply PrefixLookup_answers]. Qed.

Lemma lookup_answers_witness :
  let resolve := fun (_ : TablePath) (_ : Z) => Ok (tab_Schema sampleTable) in
  let keys := [[VInt32 1]; [VString "no key"]; [VInt32 2]] in
  let awaited := fun n => match n with
    | O => inl (MkRawResult (Some [Byte.x03; Byte.x00; Byte.xff]) [] None)
    | _ => inl (MkRawResult None [[Byte.x01]] None) end in
  (exists results, Lookup resolve sampleLookuper (Some None) false (fun _ => None) awaited keys = Ok results /\
     Forall2 (answered (tab_Schema sampleTable)) keys results) /\
  exists results, PrefixLookup resolve sampleLookuper (Some None) false (fun _ => None) awaited keys = Ok results /\
     Forall2 (prefixAnswered (tab_Schema sampleTable)) keys results.
Proof.
  apply (lookup_answers (fun _ _ => Ok (tab_Schema sampleTable)) sampleLookuper).
  - intros path id. split; [done|]. by intros s [= <-].
  - split; [done|reflexivity|done].
Defined.

(** ** Settings and attempts *)

Record lookupConfigOK (c : LookupConfig) : Prop := MkLookupConfigOK {
  lco_keys : 0 < lk_MaxBatchKeys c;
  lco_requests : 0 < lk_MaxInFlightRequests c;
  lco_queue : 0 < lk_MaxQueuedKeys c;
  lco_batch : 0 <= lk_BatchTimeout c;
  lco_attempts : 1 <= cr_MaxAttempts (lk_RetryPolicy c) <= maxWriterAttempts;
  lco_timeout : badTimeout (lk_RequestTimeout c) = false;
  lco_acks : lk_Acks c ∈ [0; 1; -1];
}.

Lemma applyLookupOption_OK o c c' : lookupConfigOK c -> applyLookupOption o c = Ok c' -> lookupConfigOK c'.
Proof.
  intros [? ? ? ? ? ? ?] H. destruct o; cbn [applyLookupOption] in H.
  1-3: destruct (_ || _) eqn:C in H; [done|]; apply orb_false_iff in C; inv_ok; split; cbn; (done || lia).
  - destruct (badTimeout timeout) eqn:C; [done|]. inv_ok. by split.
  - inv_ok. by split.
  - destruct (_ || _) eqn:C in H; [done|]. apply orb_false_iff in C as [C Ha]. inv_ok. split; cbn; try done.
    assert (acks = 0 \/ acks = 1 \/ acks = -1) as [-> | [-> | ->]] by lia; set_solver.
Qed.

Lemma applyLookupOptions_OK options : forall c c', lookupConfigOK c -> applyLookupOptions options c = Ok c' -> lookupConfigOK c'.
Proof.
  induction options as [|[o|] options IH]; intros c c' Hc H; cbn in H; inv_ok; try done.
  eapply IH; [|done]. by eapply applyLookupOption_OK.
Qed.

Lemma lookupConfig_OK options c : lookupConfig options = Ok c -> lookupConfigOK c /\
  (lk_InsertIfNotExists c = true -> cr_MaxAttempts (lk_RetryPolicy c) = 1).
Proof.
  unfold lookupConfig. intros H. inv_ok. destruct (_ && _) eqn:C; [done|]. inv_ok.
  assert (Hc : lookupConfigOK c).
  { eapply applyLookupOptions_OK; [|done]. split; cbn; try done; set_solver. }
  split; [done|]. intros Hi. rewrite Hi in C. destruct Hc as [_ _ _ _ Ha _ _]. cbn in C. lia.
Qed.

(** Attempt [n] was made after every earlier one failed in a way worth a retry. *)
Definition retriedBefore {T} (policy : RetryPolicy) (call : Z -> T + callError) (ctxErr waiting : Z -> option callError) (n : Z) : Prop :=
  forall k, 1 <= k < n -> exists e, call k = inr e /\ writerRetryable e = true /\ ctxErr k = None /\
    waitContext (waiting k) (match cr_Backoff policy with Some f => f (k + 1) | None => 0 end) = None.

Lemma retryLoop_attempts {T} policy mutation (call : Z -> T + callError) ctxErr waiting : forall turns attempt,
  attempt + Z.of_nat turns = cr_MaxAttempts policy + 1 -> 1 <= attempt <= cr_MaxAttempts policy ->
  (mutation = true -> attempt = 1) -> retriedBefore policy call ctxErr waiting attempt ->
  let '(result, n) := retryLoop policy mutation call ctxErr waiting turns attempt in
  1 <= n <= cr_MaxAttempts policy /\ (mutation = true -> n = 1) /\ retriedBefore policy call ctxErr waiting n /\
    (result = call n \/
     exists e e', call n = inr e /\ writerRetryable e = true /\ n < cr_MaxAttempts policy /\
       waitContext (waiting n) (match cr_Backoff policy with Some f => f (n + 1) | None => 0 end) = Some e' /\ result = inr e').
Proof.
  induction turns as [|turns IH]; intros attempt Ht Ha Hm Hb; [lia|]. cbn [retryLoop].
  destruct (call attempt) as [v|err] eqn:Ec; [rewrite Ec; auto|].
  destruct (mutation || (attempt =? cr_MaxAttempts policy) || negb (writerRetryable err)
         || match ctxErr attempt with Some _ => true | None => false end) eqn:C.
  { rewrite Ec. auto. }
  rewrite !orb_false_iff, negb_false_iff in C. destruct C as (((C1 & C2) & C3) & C4). apply Z.eqb_neq in C2.
  cbv zeta. destruct (waitContext _ _) as [e'|] eqn:Cw.
  { split_and!; try done; try lia. right. exists err, e'. split_and!; try done. lia. }
  apply IH; [lia|lia|by rewrite C1|]. intros k Hk. destruct (decide (k = attempt)) as [->|]; [|apply Hb; lia].
  exists err. split_and!; try done. by destruct (ctxErr attempt).
Qed.

(** A lookup is attempted a bounded number of times, an insertion once.  With settings
    [lookupConfig] accepts, the answer is that of the last of at least one and at most
    [MaxAttempts], never more than a hundred, attempts, or the end of a wait between two; an
    attempt follows another only after a retryable error with the context still open; and a
    lookup that inserts missing keys is attempted exactly once. *)
Theorem lookup_attempts_bounded {T} options config (call : Z -> T + callError) ctxErr waiting :
  lookupConfig options = Ok config ->
  let policy := lk_RetryPolicy config in
  let '(result, n) := retryLookup policy (lk_InsertIfNotExists config) call ctxErr waiting in
  1 <= n <= maxWriterAttempts /\ n <= cr_MaxAttempts policy /\ (lk_InsertIfNotExists config = true -> n = 1) /\
    retriedBefore policy call ctxErr waiting n /\
    (result = call n \/
     exists e e', call n = inr e /\ writerRetryable e = true /\ n < cr_MaxAttempts policy /\
       waitContext (waiting n) (match cr_Backoff policy with Some f => f (n + 1) | None => 0 end) = Some e' /\ result = inr e').
Proof.
  intros [[_ _ _ _ Ha _ _] Hi]%lookupConfig_OK policy.
  pose proof (retryLoop_attempts policy (lk_InsertIfNotExists config) call ctxErr waiting (Z.to_nat (cr_MaxAttempts policy)) 1) as H.
  unfold retryLookup. destruct (retryLoop _ _ _ _ _ _ _) as [result n].
  destruct H as (Hn & Hm & Hb & Hr); [subst policy; lia|subst policy; lia|done|intros k Hk; lia|].
  subst policy. split_and!; try done; lia.
Qed.

Lemma lookup_attempts_bounded_witness :
  let options := [Some (WithLookupInsertIfNotExists second 1); Some (WithLookupPartition "p1")] in
  exists config, lookupConfig options = Ok config /\ lk_InsertIfNotExists config = true /\
  let '(result, n) := retryLookup (T := unit) (lk_RetryPolicy config) (lk_InsertIfNotExists config) (fun _ => inr (Plain ErrClosed))
    (fun _ => None) (fun _ => None) in
  1 <= n <= maxWriterAttempts /\ n <= cr_MaxAttempts (lk_RetryPolicy config) /\ (lk_InsertIfNotExists config = true -> n = 1) /\
    retriedBefore (T := unit) (lk_RetryPolicy config) (fun _ => inr (Plain ErrClosed)) (fun _ => None) (fun _ => None) n /\
    (result = inr (Plain ErrClosed) \/
     exists e e', inr (Plain ErrClosed) = inr (A := unit) e /\ writerRetryable e = true /\ n < cr_MaxAttempts (lk_RetryPolicy config) /\
       waitContext None (match cr_Backoff (lk_RetryPolicy config) with Some f => f (n + 1) | None => 0 end) = Some e' /\ result = inr e').
Proof.
  eexists. split; [vm_compute; reflexivity|]. split; [reflexivity|].
  by apply (lookup_attempts_bounded (T := unit) [Some (WithLookupInsertIfNotExists second 1); Some (WithLookupPartition "p1")] _
    (fun _ => inr (Plain ErrClosed)) (fun _ => None) (fun _ => None)).
Defined.
