(* ===== verification/LookupScheduler.v ===== *)
(** * The lookup scheduler

    Models [pkg/fgo/lookup_scheduler.go] and the task side of [lookup.go]: the slots that bound
    the keys accepted, the queue, the groups that wait for a batch to fill or the timer to fire,
    the workers, and [Close].

    The program is concurrent: callers run [enqueueLookup], one goroutine runs [run], a fixed
    number of workers run [runLookupWorker], and [Close] may come at any time.  Each channel
    operation and each stretch under the mutex is one step ([exec]), and a run of steps is an
    interleaving.  Contexts, the order in which Go ranges over a map, and what the server answers
    are the environment: arguments of the steps.

    [complete] is one step: between handing over the result and giving the slot back the
    completing goroutine does nothing else, and the other goroutines cannot tell a slot not yet
    given back from a caller that is late. *)

From S2P Require Import Prelude Model Bucket Errors WriterRetry Client KVWriter Lookup.

(** ** The state *)

Inductive lookupMode := pointLookupMode | prefixLookupMode.

#[export] Instance lookupMode_eq_dec : EqDecision lookupMode.
Proof. solve_decision. Defined.

#[export] Instance lookupMode_countable : Countable lookupMode.
Proof.
  refine (inj_countable' (fun m => match m with pointLookupMode => true | _ => false end)
            (fun b : bool => if b then pointLookupMode else prefixLookupMode) _). by intros [].
Defined.

(** [lookupGroup]: a mode and a bucket. *)
Abbreviation lookupGroup := (lookupMode * Z)%type.

(** [lookupTask]: its result channel holds one result, which [once] protects. *)
Record lookupTask := MkLookupTask {
  tk_mode : lookupMode;
  tk_bucket : Z;
  tk_encoded : list byte;
  tk_result : option rawLookupResult;
}.

Definition groupOf (task : lookupTask) : lookupGroup := (tk_mode task, tk_bucket task).

(** Where the goroutine of [run] is: in its [select]; in [dispatchGroup], with what is left of
    the group's tasks and the groups the timer has still to dispatch; in [shutdown], before each
    of its three parts; waiting for the workers; or done. *)
Inductive schedulerStage :=
| Selecting
| Dispatching (group : lookupGroup) (tasks : list nat) (more : list lookupGroup)
| Failing (tasks : list nat)
| Draining
| WaitingWorkers
| Stopped.

(** Where a worker is: at the head of its loop; filtering a batch; in its request; completing
    the tasks of the batch; or gone. *)
Inductive workerStage :=
| Idle
| Filtering (group : lookupGroup) (tasks active : list nat)
| Calling (group : lookupGroup) (active : list nat)
| Completing (results : list (nat * rawLookupResult))
| Exited.

(** What happens during a request: what the server answers each attempt to ask it for the keys in
    a bucket, and the request's context after each and while waiting. *)
Record lookupEnv := MkLookupEnv {
  le_point : Z -> list (list byte) -> Z -> list (lookupReply (option (list byte))) + callError;
  le_prefix : Z -> list (list byte) -> Z -> list (lookupReply (list (list byte))) + callError;
  le_ctx : Z -> option callError;
  le_wait : Z -> option callError;
}.

(** History: a request that came back, the tasks and keys it was for, what happened during it, the
    attempts that were made, and its answer. *)
Record servedLookup := MkServedLookup {
  sl_group : lookupGroup;
  sl_tasks : list nat;
  sl_keys : list (list byte);
  sl_env : lookupEnv;
  sl_attempts : Z;
  sl_answer : list rawLookupResult + callError;
}.

(** The tasks by identity, the elements of [slots], the callers between taking a slot and
    sending to [queue], the channels, and the goroutines.  [jobs] is closed from
    [WaitingWorkers] on; [closed] and the end of [life] come together. *)
Record schedulerState := MkSchedulerState {
  ls_tasks : gmap nat lookupTask;
  ls_next : nat;
  ls_slots : Z;
  ls_holding : list nat;
  ls_queue : list nat;
  ls_groups : gmap lookupGroup (list nat);
  ls_armed : bool;
  ls_stage : schedulerStage;
  ls_jobs : list (lookupGroup * list nat);
  ls_workers : list workerStage;
  ls_closed : bool;
  ls_served : list servedLookup;
}.

Definition jobsClosed (s : schedulerState) : bool :=
  match ls_stage s with WaitingWorkers | Stopped => true | _ => false end.

Section Scheduler.
Context (config : LookupConfig).

Definition newScheduler : schedulerState :=
  MkSchedulerState ∅ 0 0 [] [] ∅ false Selecting [] (replicate (Z.to_nat (lk_MaxInFlightRequests config)) Idle) false [].

Definition setQueue (holding queue : list nat) (s : schedulerState) : schedulerState :=
  MkSchedulerState (ls_tasks s) (ls_next s) (ls_slots s) holding queue (ls_groups s) (ls_armed s) (ls_stage s)
    (ls_jobs s) (ls_workers s) (ls_closed s) (ls_served s).

Definition setGroups (groups : gmap lookupGroup (list nat)) (armed : bool) (stage : schedulerStage) (s : schedulerState)
    : schedulerState :=
  MkSchedulerState (ls_tasks s) (ls_next s) (ls_slots s) (ls_holding s) (ls_queue s) groups armed stage
    (ls_jobs s) (ls_workers s) (ls_closed s) (ls_served s).

Definition setJobs (jobs : list (lookupGroup * list nat)) (s : schedulerState) : schedulerState :=
  MkSchedulerState (ls_tasks s) (ls_next s) (ls_slots s) (ls_holding s) (ls_queue s) (ls_groups s) (ls_armed s) (ls_stage s)
    jobs (ls_workers s) (ls_closed s) (ls_served s).

Definition setWorker (w : nat) (stage : workerStage) (s : schedulerState) : schedulerState :=
  MkSchedulerState (ls_tasks s) (ls_next s) (ls_slots s) (ls_holding s) (ls_queue s) (ls_groups s) (ls_armed s) (ls_stage s)
    (ls_jobs s) (<[w := stage]> (ls_workers s)) (ls_closed s) (ls_served s).

Definition served (entry : servedLookup) (s : schedulerState) : schedulerState :=
  MkSchedulerState (ls_tasks s) (ls_next s) (ls_slots s) (ls_holding s) (ls_queue s) (ls_groups s) (ls_armed s) (ls_stage s)
    (ls_jobs s) (ls_workers s) (ls_closed s) (ls_served s ++ [entry]).

Definition failed (e : callError) : rawLookupResult := MkRawResult None [] (Some e).

(** [complete]: only the first result of a task counts, and gives its slot back. *)
Definition complete (t : nat) (r : rawLookupResult) (s : schedulerState) : schedulerState :=
  match ls_tasks s !! t with
  | Some task =>
    match tk_result task with
    | Some _ => s
    | None =>
      MkSchedulerState (<[t := MkLookupTask (tk_mode task) (tk_bucket task) (tk_encoded task) (Some r)]> (ls_tasks s))
        (ls_next s) (ls_slots s - 1) (ls_holding s) (ls_queue s) (ls_groups s) (ls_armed s) (ls_stage s) (ls_jobs s)
        (ls_workers s) (ls_closed s) (ls_served s)
    end
  | None => s
  end.

(** ** [enqueueLookup] *)

(** The slot, and the task that goes with it.  That the context is not done and the lookuper
    not closed is checked first, and again later; a refusal leaves nothing behind. *)
Definition acquire (mode : lookupMode) (bucket : Z) (encoded : list byte) (s : schedulerState) : option schedulerState :=
  if ls_slots s <? lk_MaxQueuedKeys config then
    Some (MkSchedulerState (<[ls_next s := MkLookupTask mode bucket encoded None]> (ls_tasks s)) (S (ls_next s))
            (ls_slots s + 1) (ls_holding s ++ [ls_next s]) (ls_queue s) (ls_groups s) (ls_armed s) (ls_stage s) (ls_jobs s)
            (ls_workers s) (ls_closed s) (ls_served s))
  else None.

(** What runs under the read lock; [ctxErr] when the context's end is what [select] takes. *)
Definition enqueue (t : nat) (ctxErr : option callError) (s : schedulerState) : option schedulerState :=
  if bool_decide (t ∈ ls_holding s) then
    let holding := filter (fun t' => t' <> t) (ls_holding s) in
    if ls_closed s then Some (complete t (failed (Plain ErrClosed)) (setQueue holding (ls_queue s) s))
    else match ctxErr with
    | Some e => Some (complete t (failed e) (setQueue holding (ls_queue s) s))
    | None =>
      if glen (ls_queue s) <? lk_MaxQueuedKeys config then Some (setQueue holding (ls_queue s ++ [t]) s) else None
    end
  else None.

(** ** [run] *)

(** An order in which Go may range over the groups. *)
Definition rangeOrder (groups : gmap lookupGroup (list nat)) (order : list lookupGroup) : bool :=
  bool_decide (NoDup order) && bool_decide (list_to_set order =@{gset lookupGroup} dom groups).

Definition groupTasks (groups : gmap lookupGroup (list nat)) (group : lookupGroup) : list nat := default [] (groups !! group).

(** The next group of the timer's loop. *)
Definition dispatchNext (groups : gmap lookupGroup (list nat)) (order : list lookupGroup) : schedulerStage :=
  match order with
  | [] => Selecting
  | group :: more => Dispatching group (groupTasks groups group) more
  end.

(** The first case of [select]: a task, whose context may be done by now. *)
Definition receiveTask (ctxErr : option callError) (s : schedulerState) : option schedulerState :=
  match ls_stage s, ls_queue s with
  | Selecting, t :: queue =>
    let s := setQueue (ls_holding s) queue s in
    match ctxErr with
    | Some e => Some (complete t (failed e) s)
    | None =>
      task ← ls_tasks s !! t;
      let group := groupOf task in
      let tasks := groupTasks (ls_groups s) group ++ [t] in
      let groups := <[group := tasks]> (ls_groups s) in
      Some (if (lk_MaxBatchKeys config <=? glen tasks) || (lk_BatchTimeout config =? 0)
            then setGroups groups (ls_armed s) (Dispatching group tasks []) s
            else setGroups groups true Selecting s)
    end
  | _, _ => None
  end.

(** The second: the timer. *)
Definition fire (order : list lookupGroup) (s : schedulerState) : option schedulerState :=
  match ls_stage s with
  | Selecting =>
    if ls_armed s && rangeOrder (ls_groups s) order
    then Some (setGroups (ls_groups s) false (dispatchNext (ls_groups s) order) s) else None
  | _ => None
  end.

Definition batchCount (tasks : list nat) : nat := Nat.min (Z.to_nat (lk_MaxBatchKeys config)) (length tasks).

(** [shutdown] begins: the timer is stopped, and [tasks] and those of the groups are to fail. *)
Definition startShutdown (tasks : list nat) (order : list lookupGroup) (s : schedulerState) : schedulerState :=
  setGroups (ls_groups s) false (Failing (tasks ++ concat (groupTasks (ls_groups s) <$> order))) s.

(** [dispatchGroup]: its [select] sends a batch, ... *)
Definition sendBatch (s : schedulerState) : option schedulerState :=
  match ls_stage s with
  | Dispatching group (t :: tasks) more =>
    let count := batchCount (t :: tasks) in
    if glen (ls_jobs s) <? lk_MaxInFlightRequests config then
      Some (setJobs (ls_jobs s ++ [(group, take count (t :: tasks))])
              (setGroups (ls_groups s) (ls_armed s) (Dispatching group (drop count (t :: tasks)) more) s))
    else None
  | _ => None
  end.

(** ... or finds the lookuper closed. *)
Definition sendClosed (order : list lookupGroup) (s : schedulerState) : option schedulerState :=
  match ls_stage s with
  | Dispatching group (t :: tasks) more =>
    if ls_closed s && rangeOrder (ls_groups s) order
    then Some (startShutdown (take (batchCount (t :: tasks)) (t :: tasks)) order s) else None
  | _ => None
  end.

(** All sent: the group is deleted. *)
Definition dispatched (s : schedulerState) : option schedulerState :=
  match ls_stage s with
  | Dispatching group [] more =>
    let groups := delete group (ls_groups s) in Some (setGroups groups (ls_armed s) (dispatchNext groups more) s)
  | _ => None
  end.

(** The third case of [select]. *)
Definition noticeClosed (order : list lookupGroup) (s : schedulerState) : option schedulerState :=
  match ls_stage s with
  | Selecting => if ls_closed s && rangeOrder (ls_groups s) order then Some (startShutdown [] order s) else None
  | _ => None
  end.

(** [shutdown], a task at a time. *)
Definition shutdownStep (s : schedulerState) : option schedulerState :=
  match ls_stage s with
  | Failing (t :: tasks) =>
    Some (complete t (failed (Plain ErrClosed)) (setGroups (ls_groups s) (ls_armed s) (Failing tasks) s))
  | Failing [] => Some (setGroups (ls_groups s) (ls_armed s) Draining s)
  | Draining =>
    match ls_queue s with
    | t :: queue => Some (complete t (failed (Plain ErrClosed)) (setQueue (ls_holding s) queue s))
    | [] => Some (setGroups (ls_groups s) (ls_armed s) WaitingWorkers s)
    end
  | WaitingWorkers =>
    if forallb (fun w => match w with Exited => true | _ => false end) (ls_workers s)
    then Some (setGroups (ls_groups s) (ls_armed s) Stopped s) else None
  | _ => None
  end.

(** ** [runLookupWorker] *)

Definition runPointAttempts (env : lookupEnv) (bucket : Z) (keys : list (list byte)) : (list (option (list byte)) + callError) * Z :=
  retryLookup (lk_RetryPolicy config) (lk_InsertIfNotExists config)
    (fun n => match le_point env bucket keys n with inl reply => lookupValues bucket keys reply | inr e => inr e end) (le_ctx env) (le_wait env).

Definition runPrefixAttempts (env : lookupEnv) (bucket : Z) (keys : list (list byte)) : (list (list (list byte)) + callError) * Z :=
  retryLookup (lk_RetryPolicy config) false
    (fun n => match le_prefix env bucket keys n with inl reply => prefixLookupValues bucket keys reply | inr e => inr e end) (le_ctx env) (le_wait env).

(** The request of a batch: what it gives each of its keys, and the attempts made. *)
Definition runAttempts (env : lookupEnv) (group : lookupGroup) (keys : list (list byte)) : (list rawLookupResult + callError) * Z :=
  match group.1 with
  | pointLookupMode =>
    let '(answer, attempts) := runPointAttempts env group.2 keys in
    (match answer with
     | inl values => inl (map (fun value => MkRawResult value [] None) values)
     | inr e => inr e
     end, attempts)
  | prefixLookupMode =>
    let '(answer, attempts) := runPrefixAttempts env group.2 keys in
    (match answer with
     | inl values => inl (map (fun rows => MkRawResult None rows None) values)
     | inr e => inr e
     end, attempts)
  end.

(** [completePointLookupBatch] and [completePrefixLookupBatch]. *)
Definition completeBatch (tasks : list nat) (answer : list rawLookupResult + callError) : list (nat * rawLookupResult) :=
  match answer with
  | inr e => map (fun t => (t, failed e)) tasks
  | inl values =>
    if negb (glen values =? glen tasks) then map (fun t => (t, failed (Plain ErrValidation))) tasks else zip tasks values
  end.

Definition encodedLookupTasks (tasks : gmap nat lookupTask) (active : list nat) : list (list byte) :=
  map (fun t => match tasks !! t with Some task => tk_encoded task | None => [] end) active.

Definition receiveBatch (w : nat) (s : schedulerState) : option schedulerState :=
  match ls_workers s !! w, ls_jobs s with
  | Some Idle, (group, tasks) :: jobs => Some (setWorker w (Filtering group tasks []) (setJobs jobs s))
  | Some Idle, [] => if jobsClosed s then Some (setWorker w Exited s) else None
  | _, _ => None
  end.

(** The loop that drops the tasks whose context is done, a task at a time, and its end. *)
Definition filterStep (w : nat) (ctxErr : option callError) (s : schedulerState) : option schedulerState :=
  match ls_workers s !! w with
  | Some (Filtering group (t :: tasks) active) =>
    match ctxErr with
    | Some e => Some (complete t (failed e) (setWorker w (Filtering group tasks active) s))
    | None => Some (setWorker w (Filtering group tasks (active ++ [t])) s)
    end
  | Some (Filtering group [] active) =>
    Some (setWorker w (match active with [] => Idle | _ => Calling group active end) s)
  | _ => None
  end.

Definition answerBatch (w : nat) (env : lookupEnv) (s : schedulerState) : option schedulerState :=
  match ls_workers s !! w with
  | Some (Calling group active) =>
    let keys := encodedLookupTasks (ls_tasks s) active in
    let '(answer, attempts) := runAttempts env group keys in
    Some (setWorker w (Completing (completeBatch active answer)) (served (MkServedLookup group active keys env attempts answer) s))
  | _ => None
  end.

Definition completeStep (w : nat) (s : schedulerState) : option schedulerState :=
  match ls_workers s !! w with
  | Some (Completing ((t, r) :: results)) => Some (complete t r (setWorker w (Completing results) s))
  | Some (Completing []) => Some (setWorker w Idle s)
  | _ => None
  end.

(** ** [Close], up to the wait for [done] *)

Definition Close (s : schedulerState) : option schedulerState :=
  if ls_closed s then None
  else Some (MkSchedulerState (ls_tasks s) (ls_next s) (ls_slots s) (ls_holding s) (ls_queue s) (ls_groups s) (ls_armed s)
               (ls_stage s) (ls_jobs s) (ls_workers s) true (ls_served s)).

(** ** Steps *)

Inductive lookupOp :=
| OpAcquire (mode : lookupMode) (bucket : Z) (encoded : list byte)
| OpEnqueue (t : nat) (ctxErr : option callError)
| OpReceiveTask (ctxErr : option callError)
| OpFire (order : list lookupGroup)
| OpSendBatch
| OpSendClosed (order : list lookupGroup)
| OpDispatched
| OpNoticeClosed (order : list lookupGroup)
| OpShutdown
| OpReceiveBatch (w : nat)
| OpFilter (w : nat) (ctxErr : option callError)
| OpAnswer (w : nat) (env : lookupEnv)
| OpComplete (w : nat)
| OpClose.

Definition exec (op : lookupOp) (s : schedulerState) : option schedulerState :=
  match op with
  | OpAcquire mode bucket encoded => acquire mode bucket encoded s
  | OpEnqueue t ctxErr => enqueue t ctxErr s
  | OpReceiveTask ctxErr => receiveTask ctxErr s
  | OpFire order => fire order s
  | OpSendBatch => sendBatch s
  | OpSendClosed order => sendClosed order s
  | OpDispatched => dispatched s
  | OpNoticeClosed order => noticeClosed order s
  | OpShutdown => shutdownStep s
  | OpReceiveBatch w => receiveBatch w s
  | OpFilter w ctxErr => filterStep w ctxErr s
  | OpAnswer w env => answerBatch w env s
  | OpComplete w => completeStep w s
  | OpClose => Close s
  end.

Fixpoint execAll (ops : list lookupOp) (s : schedulerState) : option schedulerState :=
  match ops with
  | [] => Some s
  | op :: ops => s' ← exec op s; execAll ops s'
  end.

Definition reachable (s : schedulerState) : Prop := exists ops, execAll ops newScheduler = Some s.

End Scheduler.

(** ** Where the tasks are *)

Definition isOpen (s : schedulerState) (t : nat) : Prop :=
  exists task, ls_tasks s !! t = Some task /\ tk_result task = None.

(** The keys accepted and not answered. *)
Definition openTasks (tasks : gmap nat lookupTask) : gmap nat lookupTask := filter (fun p => tk_result p.2 = None) tasks.

Definition flatten (groups : gmap lookupGroup (list nat)) : list nat := concat (map_to_list groups).*2.

(** Grouped and not yet sent to a worker. *)
Definition unsent (s : schedulerState) : list nat :=
  match ls_stage s with
  | Selecting => flatten (ls_groups s)
  | Dispatching group tasks _ => tasks ++ flatten (delete group (ls_groups s))
  | _ => []
  end.

Definition failing (s : schedulerState) : list nat := match ls_stage s with Failing tasks => tasks | _ => [] end.

Definition workerTasks (w : workerStage) : list nat :=
  match w with
  | Filtering _ tasks active => tasks ++ active
  | Calling _ active => active
  | Completing results => results.*1
  | _ => []
  end.

(** Sent to a worker. *)
Definition requested (s : schedulerState) : list nat := concat (ls_jobs s).*2 ++ concat (workerTasks <$> ls_workers s).

Definition accepted (s : schedulerState) : list nat := ls_holding s ++ ls_queue s ++ unsent s ++ requested s.

Lemma flatten_split groups group : flatten groups ≡ₚ groupTasks groups group ++ flatten (delete group groups).
Proof.
  unfold flatten, groupTasks. destruct (groups !! group) as [l|] eqn:E; cbn.
  - by rewrite <- (map_to_list_delete groups group l E).
  - by rewrite delete_id.
Qed.

Lemma elem_of_flatten groups t : t ∈ flatten groups <-> exists group, t ∈ groupTasks groups group.
Proof.
  unfold flatten, groupTasks. rewrite list_elem_of_In, in_concat. split.
  - intros (l & Hl%list_elem_of_In & Ht%list_elem_of_In). apply list_elem_of_fmap in Hl as ([group l'] & -> & Hl).
    apply elem_of_map_to_list in Hl. exists group. by rewrite Hl.
  - intros [group Ht]. destruct (groups !! group) as [l|] eqn:E; [|by apply not_elem_of_nil in Ht].
    exists l. rewrite <- !list_elem_of_In. split; [|done]. apply list_elem_of_fmap. exists (group, l). split; [done|].
    by apply elem_of_map_to_list.
Qed.

Lemma flatten_add groups group t :
  flatten (<[group := groupTasks groups group ++ [t]]> groups) ≡ₚ t :: flatten groups.
Proof.
  rewrite (flatten_split _ group), (flatten_split groups group). unfold groupTasks at 1.
  rewrite lookup_insert_eq, delete_insert_eq. cbn. rewrite <- app_assoc. cbn. by rewrite Permutation_middle.
Qed.

Lemma workers_insert (f : workerStage -> list nat) ws w x y : ws !! w = Some y ->
  f y ++ concat (f <$> <[w := x]> ws) ≡ₚ f x ++ concat (f <$> ws).
Proof.
  revert w. induction ws as [|z ws IH]; intros [|w] E; cbn in *; simplify_eq.
  - solve_Permutation.
  - rewrite !(Permutation_app_swap_app _ (f z)). by rewrite (IH w E).
Qed.

(** Membership in lists put together from others. *)
Ltac mem :=
  intros;
  repeat match goal with
  | H : context [_ ∈ _ ++ _] |- _ => rewrite elem_of_app in H
  | H : context [_ ∈ _ :: _] |- _ => rewrite elem_of_cons in H
  | H : context [_ ∈ []] |- _ => rewrite elem_of_nil in H
  end;
  repeat match goal with H : _ \/ _ |- _ => destruct H end;
  repeat first [rewrite elem_of_app | rewrite elem_of_cons | rewrite elem_of_nil]; subst; tauto.

Section Invariant.
Context (config : LookupConfig).

(** What holds of the tasks, [pend] among them being about to be completed. *)
Record tasksOK (pend : list nat) (s : schedulerState) : Prop := MkTasksOK {
  tok_fresh : forall t, is_Some (ls_tasks s !! t) -> (t < ls_next s)%nat;
  tok_slots : ls_slots s = Z.of_nat (size (openTasks (ls_tasks s))) /\ ls_slots s <= lk_MaxQueuedKeys config;
  tok_known : forall t, t ∈ accepted s ++ flatten (ls_groups s) ++ failing s ++ pend -> is_Some (ls_tasks s !! t);
  tok_open : forall t, t ∈ ls_holding s ++ ls_queue s -> isOpen s t;
  tok_nodup : NoDup (accepted s);
  tok_apart : forall t, t ∈ flatten (ls_groups s) ++ failing s ++ pend -> t ∉ ls_holding s ++ ls_queue s;
  tok_covered : forall t, isOpen s t -> t ∈ accepted s ++ failing s ++ pend;
}.

Lemma openTasks_complete tasks t task r : tasks !! t = Some task -> tk_result task = None -> tk_result r <> None ->
  size (openTasks tasks) = S (size (openTasks (<[t := r]> tasks))).
Proof.
  intros E O R. unfold openTasks. rewrite (map_filter_insert_False _ _ _ _ R), map_filter_delete.
  rewrite map_size_delete, (proj2 (map_lookup_filter_Some _ _ _ _) (conj E O)).
  pose proof (map_size_ne_0_lookup_2 (filter (fun p => tk_result p.2 = None) tasks) t) as Hs.
  rewrite (proj2 (map_lookup_filter_Some _ _ _ _) (conj E O)) in Hs. specialize (Hs ltac:(eauto)). cbn. lia.
Qed.

Lemma openTasks_new tasks t task : tasks !! t = None -> tk_result task = None ->
  size (openTasks (<[t := task]> tasks)) = S (size (openTasks tasks)).
Proof.
  intros E O. unfold openTasks. rewrite map_filter_insert_True by done.
  rewrite map_size_insert_None; [done|]. apply map_lookup_filter_None. by left.
Qed.

Lemma complete_places t r s :
  ls_holding (complete t r s) = ls_holding s /\ ls_queue (complete t r s) = ls_queue s /\ ls_groups (complete t r s) = ls_groups s /\
  ls_stage (complete t r s) = ls_stage s /\ ls_jobs (complete t r s) = ls_jobs s /\ ls_workers (complete t r s) = ls_workers s /\
  ls_armed (complete t r s) = ls_armed s /\ ls_closed (complete t r s) = ls_closed s /\ ls_served (complete t r s) = ls_served s /\
  ls_next (complete t r s) = ls_next s.
Proof. unfold complete. repeat case_match; done. Qed.

Lemma tasksOK_complete t r s : tasksOK [t] s -> tasksOK [] (complete t r s).
Proof.
  intros [Hf [Hs Hm] Hk Ho Hn Ha Hc]. destruct (Hk t) as [task E]; [mem|].
  unfold complete. rewrite E. destruct (tk_result task) as [r'|] eqn:R.
  - split; try done.
    + intros t' Ht'. apply Hk. mem.
    + intros t' Ht'. apply Ha. mem.
    + intros t' Ht'. destruct (decide (t' = t)) as [->|]; [destruct Ht' as (task' & E' & R'); congruence|].
      apply Hc in Ht'. mem.
  - set (s' := MkSchedulerState _ _ _ _ _ _ _ _ _ _ _ _).
    assert (Hacc : accepted s' = accepted s) by done. assert (Hfail : failing s' = failing s) by done.
    assert (Hop : forall t', isOpen s' t' <-> isOpen s t' /\ t' <> t).
    { intros t'. unfold isOpen, s'. cbn [ls_tasks]. destruct (decide (t' = t)) as [->|Hne].
      - rewrite lookup_insert_eq. naive_solver.
      - rewrite lookup_insert_ne by done. naive_solver. }
    split; rewrite ?Hacc, ?Hfail, ?app_nil_r.
    + intros t'. unfold s'. cbn. rewrite lookup_insert_is_Some'. intros [<- | Hi]; [|by apply Hf]. apply Hf. by exists task.
    + pose proof (openTasks_complete _ t task (MkLookupTask (tk_mode task) (tk_bucket task) (tk_encoded task) (Some r)) E R ltac:(done)).
      unfold s'. cbn [ls_slots ls_tasks]. split; lia.
    + intros t' Ht'. unfold s'. cbn. rewrite lookup_insert_is_Some'. right. apply Hk. mem.
    + intros t' Ht'. apply Hop. split; [by apply Ho|]. intros ->. apply (Ha t); [mem|done].
    + done.
    + intros t' Ht'. apply Ha. mem.
    + intros t' [Ht' Hne]%Hop. apply Hc in Ht'. mem.
Qed.

(** Tasks change places, and those in [pend'] leave. *)
Lemma tasksOK_move pend' gone s s' :
  tasksOK [] s -> ls_tasks s' = ls_tasks s -> ls_next s' = ls_next s -> ls_slots s' = ls_slots s ->
  accepted s ≡ₚ gone ++ accepted s' ->
  (forall t, t ∈ ls_holding s' ++ ls_queue s' -> t ∈ ls_holding s ++ ls_queue s) ->
  (forall t, t ∈ flatten (ls_groups s') ++ failing s' ++ pend' -> t ∈ accepted s ++ flatten (ls_groups s) ++ failing s) ->
  (forall t, t ∈ flatten (ls_groups s') ++ failing s' ++ pend' -> t ∉ ls_holding s' ++ ls_queue s') ->
  (forall t, t ∈ gone ++ failing s -> t ∈ failing s' ++ pend') ->
  tasksOK pend' s'.
Proof.
  intros [Hf Hs Hk Ho Hn _ Hc] Et En Es Hp Hq Hl Ha Hg.
  assert (Hi : forall t, t ∈ accepted s' -> t ∈ accepted s) by (intros t; rewrite Hp; mem).
  split; unfold isOpen; rewrite ?Et, ?En, ?Es; try done.
  - intros t Ht. apply Hk. rewrite app_nil_r. apply elem_of_app in Ht as [Ht%Hi|Ht%Hl]; mem.
  - intros t Ht%Hq. by apply Ho.
  - rewrite Hp in Hn. by apply NoDup_app in Hn as (_ & _ & ?).
  - intros t Ht%Hc. rewrite app_nil_r, Hp in Ht. specialize (Hg t). mem.
Qed.

Ltac places := repeat match goal with |- context [ls_holding (complete ?t ?r ?s)] =>
  destruct (complete_places t r s) as (-> & -> & -> & -> & -> & -> & -> & -> & -> & ->) end.

Lemma tasksOK_acquire mode bucket encoded s s' : tasksOK [] s -> acquire config mode bucket encoded s = Some s' -> tasksOK [] s'.
Proof.
  intros [Hf [Hs Hm] Hk Ho Hn Ha Hc] H. unfold acquire in H. destruct (Z.ltb_spec (ls_slots s) (lk_MaxQueuedKeys config)) as [Hlt|]; [|done].
  injection H as <-. set (n := ls_next s) in *. set (s' := MkSchedulerState _ _ _ _ _ _ _ _ _ _ _ _).
  assert (Hnew : ls_tasks s !! n = None).
  { destruct (ls_tasks s !! n) eqn:E; [|done]. specialize (Hf n ltac:(eauto)). subst n. lia. }
  assert (Hnot : n ∉ accepted s ++ flatten (ls_groups s) ++ failing s).
  { intros Hi. destruct (Hk n) as [? ?]; [mem|congruence]. }
  assert (Hacc : accepted s' ≡ₚ n :: accepted s).
  { unfold accepted, unsent, requested, s'. cbn [ls_holding ls_queue ls_stage ls_groups ls_jobs ls_workers].
    unfold unsent. cbn. solve_Permutation. }
  assert (Hlook : forall t, ls_tasks s' !! t = if decide (t = n) then Some (MkLookupTask mode bucket encoded None) else ls_tasks s !! t).
  { intros t. unfold s'. cbn. destruct (decide (t = n)) as [->|]; [by rewrite lookup_insert_eq|by rewrite lookup_insert_ne]. }
  assert (Hfail : failing s' = failing s) by done.
  split; rewrite ?Hfail.
  - intros t Ht. rewrite Hlook in Ht. unfold s'. cbn [ls_next]. destruct (decide (t = n)) as [->|]; [subst n; lia|]. apply Hf in Ht. lia.
  - unfold s'. cbn [ls_tasks ls_slots]. rewrite openTasks_new by done. lia.
  - intros t Ht. rewrite Hlook. destruct (decide (t = n)); [by eexists|]. apply Hk.
    rewrite elem_of_app, Hacc in Ht. change (ls_groups s') with (ls_groups s) in Ht. mem.
  - intros t Ht. unfold isOpen. rewrite Hlook. destruct (decide (t = n)); [by eexists|]. apply Ho.
    unfold s' in Ht. cbn [ls_holding ls_queue] in Ht. mem.
  - rewrite Hacc. constructor; [|done]. intros Hi. apply Hnot. mem.
  - intros t Ht Hq. unfold s' in Ht, Hq. cbn [ls_groups ls_holding ls_queue] in Ht, Hq.
    destruct (decide (t = n)) as [->|]; [apply Hnot; mem|]. apply (Ha t Ht). mem.
  - intros t Ht. unfold isOpen in Ht. rewrite elem_of_app, Hacc. rewrite Hlook in Ht. destruct (decide (t = n)); [left; mem|].
    apply Hc in Ht. mem.
Qed.

Lemma filter_out (l : list nat) t : t ∈ l -> NoDup l -> l ≡ₚ t :: filter (fun t' => t' <> t) l.
Proof.
  intros Ht Hn. induction Hn as [|x l Hx Hn IH]; [by apply not_elem_of_nil in Ht|].
  rewrite filter_cons. destruct (decide (x <> t)) as [Hne|He].
  - apply elem_of_cons in Ht as [->|Ht]; [done|]. rewrite (IH Ht) at 1. apply Permutation_swap.
  - assert (x = t) as -> by (destruct (decide (x = t)); tauto). constructor.
    enough (filter (fun t' => t' <> t) l = l) as -> by done. clear IH Ht He Hn. induction l as [|y l IH]; [done|].
    apply not_elem_of_cons in Hx as [Hy Hx]. rewrite filter_cons_True by congruence. by rewrite IH.
Qed.

Lemma tasksOK_enqueue t ctxErr s s' : tasksOK [] s -> enqueue config t ctxErr s = Some s' -> tasksOK [] s'.
Proof.
  intros Hok H. unfold enqueue in H. case_bool_decide as Ht; [|done].
  pose proof (tok_nodup _ _ Hok) as Hn. pose proof (tok_apart _ _ Hok) as Ha. unfold accepted in Hn. apply NoDup_app in Hn as (Hn & Hnq & Hrest).
  pose proof (filter_out _ _ Ht Hn) as Hp. set (holding := filter _ (ls_holding s)) in *.
  assert (Hin : forall x, x ∈ holding -> x ∈ ls_holding s) by (intros x; rewrite Hp; mem).
  assert (Hout : tasksOK [t] (setQueue holding (ls_queue s) s)).
  { apply (tasksOK_move _ [t] s); try done.
    - unfold accepted at 1. rewrite Hp. done.
    - cbn. intros x. specialize (Hin x). mem.
    - cbn. intros x Hx. assert (t ∈ accepted s) by (unfold accepted; mem). unfold failing in Hx. cbn in Hx. fold (failing s) in Hx. mem.
    - cbn. intros x Hx Hx'. unfold failing in Hx. cbn in Hx. fold (failing s) in Hx.
      destruct (decide (x = t)) as [->|]; [|apply (Ha x); [mem|specialize (Hin x); mem]].
      apply elem_of_app in Hx' as [Hx'|Hx']; [|apply (Hnq t Ht); mem]. subst holding. apply list_elem_of_filter in Hx' as [? _]. done.
    - unfold failing. cbn. fold (failing s). intros x. mem. }
  destruct (ls_closed s); [injection H as <-; by apply tasksOK_complete|].
  destruct ctxErr; [injection H as <-; by apply tasksOK_complete|]. destruct (_ <? _); [|done]. injection H as <-.
  apply (tasksOK_move _ [] s); try done.
  - unfold accepted. rewrite Hp. cbn. unfold unsent, requested. cbn. solve_Permutation.
  - cbn. intros x. specialize (Hin x). mem.
  - cbn. unfold failing. cbn. fold (failing s). intros x. mem.
  - cbn. unfold failing. cbn. fold (failing s). intros x Hx Hx'. apply (Ha x); [mem|]. specialize (Hin x). mem.
  - cbn. unfold failing. cbn. fold (failing s). intros x. mem.
Qed.

(** What [dispatchGroup] has left is the end of its group. *)
Definition dispatchOK (s : schedulerState) : Prop :=
  match ls_stage s with
  | Dispatching group tasks more => (exists sent, ls_groups s !! group = Some (sent ++ tasks)) /\ NoDup (group :: more)
  | _ => True
  end.

Lemma unsent_grouped s t : dispatchOK s -> t ∈ unsent s -> t ∈ flatten (ls_groups s).
Proof.
  unfold dispatchOK, unsent. destruct (ls_stage s) as [|g tasks more| | | |]; intros H Ht; try (by apply not_elem_of_nil in Ht); [done|].
  destruct H as [[sent E] _]. rewrite (flatten_split _ g). unfold groupTasks. rewrite E. cbn. mem.
Qed.

(** The scheduler's own steps leave the callers and the workers alone. *)
Lemma tasksOK_regroup s s' gone : tasksOK [] s -> dispatchOK s ->
  ls_tasks s' = ls_tasks s -> ls_next s' = ls_next s -> ls_slots s' = ls_slots s ->
  ls_holding s' = ls_holding s -> ls_queue s' = ls_queue s ->
  unsent s ++ requested s ≡ₚ gone ++ unsent s' ++ requested s' ->
  (forall t, t ∈ flatten (ls_groups s') ++ failing s' -> t ∈ flatten (ls_groups s) ++ failing s) ->
  (forall t, t ∈ gone ++ failing s -> t ∈ failing s') ->
  tasksOK [] s'.
Proof.
  intros Hok Hd Et En Es Eh Eq Hp Hf Hg. pose proof (tok_apart _ _ Hok) as Ha. eapply (tasksOK_move _ gone s); try done.
  - unfold accepted. rewrite Eh, Eq, Hp. solve_Permutation.
  - by rewrite Eh, Eq.
  - intros t. specialize (Hf t). mem.
  - intros t Ht. rewrite Eh, Eq. apply Ha. specialize (Hf t). mem.
  - intros t Ht. specialize (Hg t Ht). mem.
Qed.

Lemma unsent_next groups order s : ls_groups s = groups -> ls_stage s = dispatchNext groups order -> unsent s ≡ₚ flatten groups.
Proof.
  intros Eg Es. unfold unsent. rewrite Es, Eg. destruct order as [|g more]; cbn; [done|]. by rewrite <- flatten_split.
Qed.

Lemma failing_next groups order s : ls_stage s = dispatchNext groups order -> failing s = [].
Proof. intros Es. unfold failing. rewrite Es. by destruct order. Qed.

(** A task leaves the queue. *)
Lemma tasksOK_dequeue t queue s : tasksOK [] s -> ls_queue s = t :: queue -> tasksOK [t] (setQueue (ls_holding s) queue s).
Proof.
  intros Hok Eq. pose proof (tok_apart _ _ Hok) as Ha. pose proof (tok_nodup _ _ Hok) as Hn. unfold accepted in Hn. rewrite Eq in Hn, Ha.
  assert (Ht : t ∈ accepted s) by (unfold accepted; rewrite Eq; mem).
  assert (Htq : t ∉ ls_holding s ++ queue).
  { apply NoDup_app in Hn as (_ & Hh & Hr). cbn in Hr. apply NoDup_cons in Hr as [Hr _]. intros [Hi|Hi]%elem_of_app; [apply (Hh t Hi); mem|apply Hr; mem]. }
  apply (tasksOK_move _ [t] s); try done.
  - unfold accepted. rewrite Eq. cbn. unfold unsent, requested. cbn. solve_Permutation.
  - cbn. rewrite Eq. mem.
  - unfold failing. cbn. fold (failing s). intros x Hx. mem.
  - unfold failing. cbn. fold (failing s). intros x Hx Hx'. destruct (decide (x = t)) as [->|Hne]; [done|]. apply (Ha x); mem.
  - unfold failing. cbn. fold (failing s). mem.
Qed.

Lemma tasksOK_receiveTask ctxErr s s' : tasksOK [] s -> receiveTask config ctxErr s = Some s' -> tasksOK [] s'.
Proof.
  intros Hok H. unfold receiveTask in H. destruct (ls_stage s) eqn:Es; try done. destruct (ls_queue s) as [|t queue] eqn:Eq; [done|].
  pose proof (tasksOK_dequeue t queue s Hok Eq) as Hout. destruct ctxErr; [injection H as <-; by apply tasksOK_complete|].
  cbn [ls_tasks setQueue ls_groups] in H. destruct (ls_tasks s !! t) as [task|] eqn:Et; [|done]. cbn [mbind option_bind] in H.
  set (g := groupOf task) in *. set (s0 := setQueue _ _ _) in *. pose proof (tok_apart _ _ Hout) as Ha.
  assert (Hmoved : forall s1, ls_tasks s1 = ls_tasks s -> ls_next s1 = ls_next s -> ls_slots s1 = ls_slots s ->
            ls_holding s1 = ls_holding s -> ls_queue s1 = queue -> requested s1 = requested s -> failing s1 = [] ->
            unsent s1 ≡ₚ t :: flatten (ls_groups s) -> flatten (ls_groups s1) ≡ₚ t :: flatten (ls_groups s) -> tasksOK [] s1).
  { intros s1 E1 E2 E3 E4 E5 E6 E7 Hu Hfl. apply (tasksOK_move _ [] s); try done.
    - unfold accepted. rewrite Eq, E4, E5, E6, Hu. unfold unsent. rewrite Es. cbn. solve_Permutation.
    - rewrite E4, E5, Eq. mem.
    - intros x. assert (t ∈ accepted s) by (unfold accepted; rewrite Eq; mem). rewrite elem_of_app, Hfl, E7. mem.
    - intros x Hx. rewrite E4, E5. apply Ha. rewrite elem_of_app, Hfl, E7 in Hx. cbn. mem.
    - unfold failing. rewrite Es. intros x. mem. }
  destruct (_ || _) in H; injection H as <-; apply Hmoved; try done; cbn.
  - unfold unsent. cbn. rewrite delete_insert_eq. rewrite (flatten_split (ls_groups s) g). solve_Permutation.
  - apply flatten_add.
  - unfold unsent. cbn. apply flatten_add.
  - apply flatten_add.
Qed.

Lemma rangeOrder_covers groups order t : rangeOrder groups order = true ->
  t ∈ concat (groupTasks groups <$> order) <-> t ∈ flatten groups.
Proof.
  intros [_ Hd%bool_decide_eq_true]%andb_true_iff. rewrite elem_of_flatten, list_elem_of_In, in_concat. split.
  - intros (l & Hl%list_elem_of_In & Ht%list_elem_of_In). apply list_elem_of_fmap in Hl as (g & -> & _). by exists g.
  - intros [g Ht]. exists (groupTasks groups g). rewrite <- !list_elem_of_In. split; [|done]. apply list_elem_of_fmap. exists g.
    split; [done|]. rewrite <- (elem_of_list_to_set (C := gset lookupGroup)), Hd. apply elem_of_dom. unfold groupTasks in Ht.
    destruct (groups !! g) as [l|] eqn:E; [by eexists|]. by apply not_elem_of_nil in Ht.
Qed.

Lemma tasksOK_fire order s s' : tasksOK [] s -> dispatchOK s -> fire order s = Some s' -> tasksOK [] s'.
Proof.
  intros Hok Hd H. unfold fire in H. destruct (ls_stage s) eqn:Es; try done. destruct (_ && _); [|done]. injection H as <-.
  apply (tasksOK_regroup s _ []); try done.
  - rewrite (unsent_next (ls_groups s) order (setGroups _ _ _ _)) by done. unfold unsent. by rewrite Es.
  - rewrite (failing_next (ls_groups s) order (setGroups _ _ _ _)) by done. cbn. mem.
  - unfold failing at 1. rewrite Es. mem.
Qed.

Lemma tasksOK_sendBatch s s' : tasksOK [] s -> dispatchOK s -> sendBatch config s = Some s' -> tasksOK [] s'.
Proof.
  intros Hok Hd H. unfold sendBatch in H. destruct (ls_stage s) as [|g [|t tasks] more| | | |] eqn:Es; try done.
  destruct (_ <? _); [|done]. injection H as <-. set (count := batchCount config (t :: tasks)).
  apply (tasksOK_regroup s _ []); try done.
  - unfold unsent, requested. rewrite Es. cbn [ls_stage ls_groups ls_jobs ls_workers setJobs setGroups].
    rewrite fmap_app, concat_app. cbn [fmap list_fmap concat snd]. rewrite app_nil_r.
    rewrite <- (take_drop count (t :: tasks)) at 1. solve_Permutation.
  - unfold failing. cbn. rewrite Es. mem.
  - unfold failing. cbn. rewrite Es. mem.
Qed.

Lemma tasksOK_shutdown tasks order s : tasksOK [] s -> dispatchOK s -> rangeOrder (ls_groups s) order = true ->
  failing s = [] -> (forall t, t ∈ tasks -> t ∈ unsent s) -> tasksOK [] (startShutdown tasks order s).
Proof.
  intros Hok Hd Ho Hf Ht. unfold startShutdown. apply (tasksOK_regroup s _ (unsent s)); try done.
  - unfold failing at 1. cbn [ls_stage setGroups ls_groups]. intros t. rewrite Hf. pose proof (rangeOrder_covers _ _ t Ho).
    pose proof (unsent_grouped s t Hd). specialize (Ht t). mem.
  - unfold failing at 2. cbn [ls_stage setGroups]. rewrite Hf. intros t Hu. pose proof (rangeOrder_covers _ _ t Ho).
    pose proof (unsent_grouped s t Hd). mem.
Qed.

Lemma tasksOK_sendClosed order s s' : tasksOK [] s -> dispatchOK s -> sendClosed config order s = Some s' -> tasksOK [] s'.
Proof.
  intros Hok Hd H. unfold sendClosed in H. destruct (ls_stage s) as [|g [|t tasks] more| | | |] eqn:Es; try done.
  destruct (_ && _) eqn:Ho; [|done]. apply andb_true_iff in Ho as [_ Ho]. injection H as <-.
  apply tasksOK_shutdown; try done; [unfold failing; by rewrite Es|]. intros x Hx. unfold unsent. rewrite Es.
  rewrite <- (take_drop (batchCount config (t :: tasks)) (t :: tasks)). mem.
Qed.

Lemma tasksOK_noticeClosed order s s' : tasksOK [] s -> dispatchOK s -> noticeClosed order s = Some s' -> tasksOK [] s'.
Proof.
  intros Hok Hd H. unfold noticeClosed in H. destruct (ls_stage s) eqn:Es; try done.
  destruct (_ && _) eqn:Ho; [|done]. apply andb_true_iff in Ho as [_ Ho]. injection H as <-.
  apply tasksOK_shutdown; try done; [unfold failing; by rewrite Es|mem].
Qed.

Lemma tasksOK_dispatched s s' : tasksOK [] s -> dispatchOK s -> dispatched s = Some s' -> tasksOK [] s'.
Proof.
  intros Hok Hd H. unfold dispatched in H. destruct (ls_stage s) as [|g [|t tasks] more| | | |] eqn:Es; try done. injection H as <-.
  apply (tasksOK_regroup s _ []); try done.
  - rewrite (unsent_next (delete g (ls_groups s)) more (setGroups _ _ _ _)) by done. unfold unsent. by rewrite Es.
  - rewrite (failing_next (delete g (ls_groups s)) more (setGroups _ _ _ _)) by done. cbn [ls_groups setGroups].
    intros t. rewrite (flatten_split (ls_groups s) g). mem.
  - unfold failing at 1. rewrite Es. mem.
Qed.

Lemma tasksOK_shutdownStep s s' : tasksOK [] s -> shutdownStep s = Some s' -> tasksOK [] s'.
Proof.
  intros Hok H. unfold shutdownStep in H. pose proof (tok_apart _ _ Hok) as Ha.
  assert (Hmove : forall stage, unsent (setGroups (ls_groups s) (ls_armed s) stage s) = [] -> unsent s = [] -> failing s = [] ->
            failing (setGroups (ls_groups s) (ls_armed s) stage s) = [] -> tasksOK [] (setGroups (ls_groups s) (ls_armed s) stage s)).
  { intros stage U1 U2 F1 F2. apply (tasksOK_move _ [] s); try done.
    - unfold accepted. rewrite U1, U2. done.
    - rewrite F2. cbn. mem.
    - rewrite F2. cbn. intros t Ht. apply Ha. mem.
    - rewrite F1. mem. }
  destruct (ls_stage s) as [| |[|t tasks]| | |] eqn:Es; try done.
  - injection H as <-. apply Hmove; try done; unfold unsent, failing; by rewrite Es.
  - injection H as <-. apply tasksOK_complete. unfold failing in Ha. rewrite Es in Ha. apply (tasksOK_move _ [] s); try done.
    + unfold accepted, unsent. rewrite Es. done.
    + unfold failing. rewrite Es. cbn. mem.
    + unfold failing. cbn. intros x Hx. apply Ha. mem.
    + unfold failing. rewrite Es. cbn. mem.
  - destruct (ls_queue s) as [|t queue] eqn:Eq; injection H as <-.
    + apply Hmove; try done; unfold unsent, failing; by rewrite Es.
    + apply tasksOK_complete. by apply tasksOK_dequeue.
  - destruct (forallb _ _); [|done]. injection H as <-. apply Hmove; try done; unfold unsent, failing; by rewrite Es.
Qed.

(** *** The workers' steps *)

(** A worker moves on, a task at most being about to be completed. *)
Lemma tasksOK_worker pend s s' : tasksOK [] s ->
  ls_tasks s' = ls_tasks s -> ls_next s' = ls_next s -> ls_slots s' = ls_slots s -> ls_holding s' = ls_holding s ->
  ls_queue s' = ls_queue s -> ls_groups s' = ls_groups s -> ls_stage s' = ls_stage s ->
  requested s ≡ₚ pend ++ requested s' -> tasksOK pend s'.
Proof.
  intros Hok Et En Es Eh Eq Eg Est Hp. pose proof (tok_apart _ _ Hok) as Ha. pose proof (tok_nodup _ _ Hok) as Hn.
  assert (Hu : unsent s' = unsent s) by (unfold unsent; by rewrite Est, Eg).
  assert (Hf : failing s' = failing s) by (unfold failing; by rewrite Est).
  apply (tasksOK_move _ pend s); try done.
  - unfold accepted. rewrite Eh, Eq, Hu, Hp. solve_Permutation.
  - by rewrite Eh, Eq.
  - rewrite Hf, Eg. intros t Ht. unfold accepted. rewrite Hp. mem.
  - rewrite Hf, Eg, Eh, Eq. intros t Ht Hq. apply elem_of_app in Ht as [Ht|Ht]; [apply (Ha t); mem|].
    apply elem_of_app in Ht as [Ht|Ht]; [apply (Ha t); mem|]. unfold accepted in Hn. rewrite Hp, !app_assoc in Hn.
    rewrite <- (app_assoc _ (pend)) in Hn. rewrite <- (app_assoc (ls_holding s ++ ls_queue s)) in Hn.
    apply NoDup_app in Hn as (_ & Hn & _). apply (Hn t Hq). mem.
  - rewrite Hf. mem.
Qed.

Lemma requested_setWorker w x y s : ls_workers s !! w = Some y ->
  workerTasks y ++ requested (setWorker w x s) ≡ₚ workerTasks x ++ requested s.
Proof.
  intros E. unfold requested. cbn. pose proof (workers_insert workerTasks (ls_workers s) w x y E) as H.
  rewrite !(Permutation_app_swap_app _ (concat _.*2)). by rewrite H.
Qed.

Lemma tasksOK_receiveBatch w s s' : tasksOK [] s -> receiveBatch w s = Some s' -> tasksOK [] s'.
Proof.
  intros Hok H. unfold receiveBatch in H. destruct (ls_workers s !! w) as [[| | | |]|] eqn:Ew; try done.
  destruct (ls_jobs s) as [|[g tasks] jobs] eqn:Ej.
  - destruct (jobsClosed s); [|done]. injection H as <-. apply (tasksOK_worker [] s); try done.
    by rewrite <- (requested_setWorker w Exited Idle s).
  - injection H as <-. apply (tasksOK_worker [] s); try done. cbn [app].
    pose proof (requested_setWorker w (Filtering g tasks []) Idle (setJobs jobs s) Ew) as Hp. cbn in Hp. rewrite Hp.
    unfold requested. rewrite Ej. cbn. rewrite app_nil_r. solve_Permutation.
Qed.

Lemma tasksOK_filterStep w ctxErr s s' : tasksOK [] s -> filterStep w ctxErr s = Some s' -> tasksOK [] s'.
Proof.
  intros Hok H. unfold filterStep in H. destruct (ls_workers s !! w) as [[|g [|t tasks] active| | |]|] eqn:Ew; try done.
  - injection H as <-. apply (tasksOK_worker [] s); try done. cbn [app].
    pose proof (requested_setWorker w (match active with [] => Idle | _ => Calling g active end) _ s Ew) as Hp.
    cbn in Hp. apply (Permutation_app_inv_l active). rewrite Hp. by destruct active.
  - destruct ctxErr as [e|]; injection H as <-.
    + apply tasksOK_complete, (tasksOK_worker [t] s); try done.
      pose proof (requested_setWorker w (Filtering g tasks active) _ s Ew) as Hp. cbn in Hp.
      apply (Permutation_app_inv_l (tasks ++ active)). rewrite <- Hp. solve_Permutation.
    + apply (tasksOK_worker [] s); try done.
      pose proof (requested_setWorker w (Filtering g tasks (active ++ [t])) _ s Ew) as Hp. cbn in Hp.
      apply (Permutation_app_inv_l (tasks ++ active ++ [t])). rewrite <- Hp. solve_Permutation.
Qed.

Lemma completeBatch_tasks tasks answer : (completeBatch tasks answer).*1 = tasks.
Proof.
  assert (Hm : forall r : rawLookupResult, (map (fun t => (t, r)) tasks).*1 = tasks).
  { intros r. induction tasks as [|t tasks IH]; cbn; by f_equal. }
  destruct answer as [values|e]; [|apply Hm]. cbn. destruct (negb _) eqn:E; [apply Hm|].
  apply negb_false_iff, Z.eqb_eq in E. unfold glen in E. apply fst_zip. lia.
Qed.

Lemma tasksOK_answerBatch w env s s' : tasksOK [] s -> answerBatch config w env s = Some s' -> tasksOK [] s'.
Proof.
  intros Hok H. unfold answerBatch in H. destruct (ls_workers s !! w) as [[|g tasks active|g active| |]|] eqn:Ew; try done. cbv zeta in H.
  destruct (runAttempts _ _ _ _) as [answer attempts]. injection H as <-.
  apply (tasksOK_worker [] s); try done. cbn [app]. set (entry := MkServedLookup _ _ _ _ _ _).
  pose proof (requested_setWorker w (Completing (completeBatch active answer)) _ (served entry s) Ew) as Hp.
  cbn [workerTasks] in Hp. rewrite completeBatch_tasks in Hp. apply Permutation_app_inv_l in Hp. by rewrite Hp.
Qed.

Lemma tasksOK_completeStep w s s' : tasksOK [] s -> completeStep w s = Some s' -> tasksOK [] s'.
Proof.
  intros Hok H. unfold completeStep in H. destruct (ls_workers s !! w) as [[| | |[|[t r] results]|]|] eqn:Ew; try done; injection H as <-.
  - apply (tasksOK_worker [] s); try done. by rewrite <- (requested_setWorker w Idle _ s Ew).
  - apply tasksOK_complete, (tasksOK_worker [t] s); try done.
    pose proof (requested_setWorker w (Completing results) _ s Ew) as Hp. cbn in Hp.
    apply (Permutation_app_inv_l results.*1). rewrite <- Hp. solve_Permutation.
Qed.

(** *** Groups, batches and goroutines *)

Definition inGroup (s : schedulerState) (group : lookupGroup) (t : nat) : Prop :=
  exists task, ls_tasks s !! t = Some task /\ groupOf task = group.

(** A batch holds keys of one mode for one bucket, and no more than are allowed. *)
Definition batchOK (s : schedulerState) (batch : lookupGroup * list nat) : Prop :=
  Forall (inGroup s batch.1) batch.2 /\ glen batch.2 <= lk_MaxBatchKeys config.

Definition workerOK (s : schedulerState) (w : workerStage) : Prop :=
  match w with
  | Filtering group tasks active => batchOK s (group, tasks ++ active)
  | Calling group active => active <> [] /\ batchOK s (group, active)
  | _ => True
  end.

Record controlOK (s : schedulerState) : Prop := MkControlOK {
  cok_groups : forall group tasks, ls_groups s !! group = Some tasks -> Forall (inGroup s group) tasks;
  cok_dispatch : dispatchOK s;
  cok_more : match ls_stage s with
             | Dispatching _ _ more => Forall (fun group => is_Some (ls_groups s !! group)) more | _ => True end;
  cok_armed : match ls_stage s with
              | Selecting => forall group, is_Some (ls_groups s !! group) -> ls_armed s = true
              | Dispatching group _ more => forall group', is_Some (ls_groups s !! group') -> group' ∈ group :: more \/ ls_armed s = true
              | _ => True end;
  cok_jobs : Forall (batchOK s) (ls_jobs s);
  cok_room : glen (ls_jobs s) <= lk_MaxInFlightRequests config;
  cok_workers : length (ls_workers s) = Z.to_nat (lk_MaxInFlightRequests config);
  cok_working : Forall (workerOK s) (ls_workers s);
  cok_closed : match ls_stage s with Selecting | Dispatching _ _ _ => True | _ => ls_closed s = true end;
  cok_drained : jobsClosed s = true -> ls_queue s = [];
  cok_exited : Exited ∈ ls_workers s -> jobsClosed s = true /\ ls_jobs s = [];
  cok_stopped : ls_stage s = Stopped -> Forall (fun w => w = Exited) (ls_workers s);
}.

(** Tasks keep their groups. *)
Definition tasksKeep (s s' : schedulerState) : Prop := forall group t, inGroup s group t -> inGroup s' group t.

Lemma batchOK_keep s s' b : tasksKeep s s' -> batchOK s b -> batchOK s' b.
Proof. intros K [F ?]. split; [|done]. eapply Forall_impl; [exact F|]. apply K. Qed.

Lemma workerOK_keep s s' w : tasksKeep s s' -> workerOK s w -> workerOK s' w.
Proof. intros K H. destruct w; cbn in *; try done; [by eapply batchOK_keep|]. destruct H. split; [done|]. by eapply batchOK_keep. Qed.

Lemma tasksKeep_complete t r s : tasksKeep s (complete t r s).
Proof.
  intros group t' (task & E & G). unfold complete, inGroup. destruct (ls_tasks s !! t) as [task0|] eqn:E0; [|by exists task].
  destruct (tk_result task0); [by exists task|]. cbn. destruct (decide (t = t')) as [->|Hne].
  - rewrite lookup_insert_eq. eexists. split; [done|]. rewrite E in E0. by simplify_eq.
  - rewrite lookup_insert_ne by done. by exists task.
Qed.

(** What only depends on the tasks' groups survives a change of the tasks. *)
Lemma controlOK_keep s s' : controlOK s -> tasksKeep s s' ->
  ls_groups s' = ls_groups s -> ls_stage s' = ls_stage s -> ls_armed s' = ls_armed s -> ls_jobs s' = ls_jobs s ->
  ls_workers s' = ls_workers s -> (ls_closed s = true -> ls_closed s' = true) ->
  (ls_queue s = [] -> jobsClosed s = true -> ls_queue s' = []) -> controlOK s'.
Proof.
  intros [Hg Hd Hm Ha Hj Hr Hw Hk Hc Hdr He Hs] K Eg Es Ea Ej Ew Ec Eq.
  assert (Ejc : jobsClosed s' = jobsClosed s) by (unfold jobsClosed; by rewrite Es).
  split; unfold dispatchOK; rewrite ?Eg, ?Es, ?Ea, ?Ej, ?Ew, ?Ejc; try done.
  - intros g l E. eapply Forall_impl; [by eapply Hg|]. apply K.
  - eapply Forall_impl; [exact Hj|]. intros b. by apply batchOK_keep.
  - eapply Forall_impl; [exact Hk|]. intros w. by apply workerOK_keep.
  - destruct (ls_stage s); try done; by apply Ec.
  - intros Hjc. apply Eq; [by apply Hdr|done].
Qed.

Lemma controlOK_complete t r s : controlOK s -> controlOK (complete t r s).
Proof.
  intros H. destruct (complete_places t r s) as (E1 & E2 & E3 & E4 & E5 & E6 & E7 & E8 & E9 & E10).
  apply (controlOK_keep s); try done; [apply tasksKeep_complete|by rewrite E8|by rewrite E2].
Qed.

Lemma controlOK_queue holding queue s : controlOK s -> (ls_queue s = [] -> jobsClosed s = true -> queue = []) ->
  controlOK (setQueue holding queue s).
Proof. intros H Hq. apply (controlOK_keep s); try done. by intros group t Ht. Qed.

Lemma controlOK_acquire mode bucket encoded s s' : (forall t, is_Some (ls_tasks s !! t) -> (t < ls_next s)%nat) ->
  controlOK s -> acquire config mode bucket encoded s = Some s' -> controlOK s'.
Proof.
  intros Hf H Hs. unfold acquire in Hs. destruct (_ <? _); [|done]. injection Hs as <-. apply (controlOK_keep s); try done.
  intros group t (task & E & G). exists task. split; [|done]. cbn. rewrite lookup_insert_ne; [done|]. intros <-.
  specialize (Hf (ls_next s) ltac:(eauto)). lia.
Qed.

Lemma controlOK_enqueue t ctxErr s s' : controlOK s -> enqueue config t ctxErr s = Some s' -> controlOK s'.
Proof.
  intros H E. unfold enqueue in E. case_bool_decide; [|done]. destruct (ls_closed s) eqn:Ec.
  - injection E as <-. by apply controlOK_complete, controlOK_queue.
  - destruct ctxErr; [injection E as <-; by apply controlOK_complete, controlOK_queue|].
    destruct (_ <? _); [|done]. injection E as <-. apply controlOK_queue; [done|]. intros _ Hj.
    pose proof (cok_closed s H) as Hc. unfold jobsClosed in Hj. destruct (ls_stage s); congruence.
Qed.

Lemma groups_add s group tasks t : controlOK s -> inGroup s group t -> tasks = groupTasks (ls_groups s) group ++ [t] ->
  forall group' tasks', <[group := tasks]> (ls_groups s) !! group' = Some tasks' -> Forall (inGroup s group') tasks'.
Proof.
  intros H Ht -> g' l' E. destruct (decide (group = g')) as [<-|Hne].
  - rewrite lookup_insert_eq in E. injection E as <-. apply Forall_app. split; [|by constructor].
    unfold groupTasks. destruct (ls_groups s !! group) as [l|] eqn:El; [by eapply cok_groups|constructor].
  - rewrite lookup_insert_ne in E by done. by eapply cok_groups.
Qed.

Lemma controlOK_receiveTask ctxErr s s' : controlOK s -> receiveTask config ctxErr s = Some s' -> controlOK s'.
Proof.
  intros H E. unfold receiveTask in E. destruct (ls_stage s) eqn:Es; try done. destruct (ls_queue s) as [|t queue] eqn:Eq; [done|].
  assert (H0 : controlOK (setQueue (ls_holding s) queue s)) by (apply controlOK_queue; [done|]; by rewrite Eq).
  destruct ctxErr; [injection E as <-; by apply controlOK_complete|].
  cbn [ls_tasks setQueue ls_groups ls_armed] in E. destruct (ls_tasks s !! t) as [task|] eqn:Et; [|done]. cbn [mbind option_bind] in E.
  pose proof (groups_add s (groupOf task) _ t H ltac:(by exists task) eq_refl) as Hg.
  destruct H0 as [_ _ _ Ha Hj Hr Hw Hk _ _ He _]. cbn in Ha, Hj, Hr, Hw, Hk, He. rewrite Es in Ha.
  unfold jobsClosed in He. cbn in He. rewrite Es in He.
  destruct (_ || _) in E; injection E as <-; split; cbn; try done.
  - split; [exists []; cbn; by rewrite lookup_insert_eq|]. by apply NoDup_singleton.
  - intros g' Hg'. destruct (decide (g' = groupOf task)) as [->|Hne]; [left; by constructor|].
    rewrite lookup_insert_ne in Hg' by done. right. by eapply Ha.
Qed.

Lemma dispatchNext_OK groups armed order s : controlOK s -> jobsClosed s = false ->
  (forall group tasks, groups !! group = Some tasks -> ls_groups s !! group = Some tasks) ->
  NoDup order -> Forall (fun group => is_Some (groups !! group)) order ->
  (forall group, is_Some (groups !! group) -> group ∈ order \/ armed = true) ->
  controlOK (setGroups groups armed (dispatchNext groups order) s).
Proof.
  intros [Hg _ _ _ Hj Hr Hw Hk _ _ He _] Hjc Hsub Hnd Hin Hd.
  assert (Ejc : jobsClosed (setGroups groups armed (dispatchNext groups order) s) = false) by (unfold jobsClosed; cbn; by destruct order).
  split; cbn; rewrite ?Ejc; try done.
  - intros g l El. by apply Hg, Hsub.
  - unfold dispatchOK. cbn. destruct order as [|g more]; [done|]. cbn. split; [|done].
    apply Forall_cons in Hin as [[l El] _]. exists []. unfold groupTasks. by rewrite El.
  - destruct order as [|g more]; [done|]. by apply Forall_cons in Hin as [_ Hin].
  - destruct order as [|g more]; cbn; [|done]. intros g Hg'. destruct (Hd g Hg') as [Hx|]; [by apply not_elem_of_nil in Hx|done].
  - by destruct order.
  - intros Hx. by apply He in Hx as [Hx _]; rewrite Hjc in Hx.
  - by destruct order.
Qed.

Lemma controlOK_fire order s s' : controlOK s -> fire order s = Some s' -> controlOK s'.
Proof.
  intros H E. unfold fire in E. destruct (ls_stage s) eqn:Es; try done. destruct (_ && _) eqn:C; [|done]. injection E as <-.
  apply andb_true_iff in C as [_ C]. unfold rangeOrder in C. apply andb_true_iff in C as [Hn%bool_decide_eq_true Hd%bool_decide_eq_true].
  assert (Hin : forall g, g ∈ order <-> is_Some (ls_groups s !! g)).
  { intros g. rewrite <- elem_of_dom, <- Hd. by rewrite elem_of_list_to_set. }
  apply dispatchNext_OK; try done; [unfold jobsClosed; by rewrite Es|apply Forall_forall; intros g; apply Hin|].
  intros g Hg. left. by apply Hin.
Qed.

Lemma controlOK_dispatched s s' : controlOK s -> dispatched s = Some s' -> controlOK s'.
Proof.
  intros H E. unfold dispatched in E. destruct (ls_stage s) as [|g [|t tasks] more| | | |] eqn:Es; try done. injection E as <-.
  pose proof (cok_dispatch s H) as Hd. pose proof (cok_more s H) as Hm. pose proof (cok_armed s H) as Ha.
  unfold dispatchOK in Hd. rewrite Es in Hd, Hm, Ha. destruct Hd as [_ Hnd]. apply NoDup_cons in Hnd as [Hgm Hnd].
  apply dispatchNext_OK; try done.
  - unfold jobsClosed; by rewrite Es.
  - intros g' l El. by apply lookup_delete_Some in El as [_ ?].
  - apply Forall_forall. intros g' Hg'. rewrite lookup_delete_ne by (by intros <-). rewrite Forall_forall in Hm. by apply Hm.
  - intros g' [l El]. apply lookup_delete_Some in El as [Hne El]. destruct (Ha g' ltac:(eauto)) as [Hx|]; [|by right].
    apply elem_of_cons in Hx as [->|]; [done|by left].
Qed.

Hypothesis configOK : lookupConfigOK config.

Lemma batchCount_bounds tasks : 0 <= Z.of_nat (batchCount config tasks) <= lk_MaxBatchKeys config /\
  (batchCount config tasks <= length tasks)%nat /\ (tasks <> [] -> (0 < batchCount config tasks)%nat).
Proof.
  pose proof (lco_keys _ configOK). unfold batchCount. split_and!; try lia. destruct tasks; [done|]. cbn [length]. lia.
Qed.

Lemma controlOK_sendBatch s s' : controlOK s -> sendBatch config s = Some s' -> controlOK s'.
Proof.
  intros H E. unfold sendBatch in E. destruct (ls_stage s) as [|g [|t tasks] more| | | |] eqn:Es; try done.
  destruct (Z.ltb_spec (glen (ls_jobs s)) (lk_MaxInFlightRequests config)); [|done]. injection E as <-.
  destruct H as [Hg Hd Hm Ha Hj Hr Hw Hk _ _ He _]. unfold dispatchOK in Hd. unfold jobsClosed in He. rewrite Es in Hd, Hm, Ha, He.
  destruct (batchCount_bounds (t :: tasks)) as (Hb1 & Hb2 & _). set (count := batchCount config (t :: tasks)) in *.
  destruct Hd as [[sent El] Hnd]. split; cbn; try done.
  - unfold dispatchOK. cbn. split; [|done]. exists (sent ++ take count (t :: tasks)). by rewrite <- app_assoc, take_drop.
  - apply Forall_app. split; [done|]. constructor; [|constructor]. split; cbn [fst snd].
    + apply Hg, Forall_app in El as [_ El]. rewrite <- (take_drop count (t :: tasks)) in El. by apply Forall_app in El as [El _].
    + unfold glen. rewrite length_take. lia.
  - rewrite glen_app, glen_cons, glen_nil. lia.
  - intros Hx. by apply He in Hx as [Hx _].
Qed.

(** The scheduler has seen that the lookuper is closed. *)
Lemma controlOK_shut stage armed s : controlOK s -> ls_closed s = true -> jobsClosed s = false ->
  match stage with Failing _ | Draining => True | WaitingWorkers => ls_queue s = [] | _ => False end ->
  controlOK (setGroups (ls_groups s) armed stage s).
Proof.
  intros [Hg _ _ _ Hj Hr Hw Hk _ Hq He _] Hc Hjc Hst.
  split; cbn; try done; unfold dispatchOK, jobsClosed; cbn; try (by destruct stage).
  intros Hx. apply He in Hx as [Hx _]. congruence.
Qed.

Lemma controlOK_closing order s s' : controlOK s -> (sendClosed config order s = Some s' \/ noticeClosed order s = Some s') -> controlOK s'.
Proof.
  intros H [E|E]; [unfold sendClosed in E|unfold noticeClosed in E].
  - destruct (ls_stage s) as [|g [|t tasks] more| | | |] eqn:Es; try done. destruct (_ && _) eqn:C; [|done]. injection E as <-.
    apply andb_true_iff in C as [C _]. apply controlOK_shut; try done. unfold jobsClosed; by rewrite Es.
  - destruct (ls_stage s) eqn:Es; try done. destruct (_ && _) eqn:C; [|done]. injection E as <-.
    apply andb_true_iff in C as [C _]. apply controlOK_shut; try done. unfold jobsClosed; by rewrite Es.
Qed.

Lemma controlOK_shutdownStep s s' : controlOK s -> shutdownStep s = Some s' -> controlOK s'.
Proof.
  intros H E. unfold shutdownStep in E. pose proof (cok_closed s H) as Hc.
  destruct (ls_stage s) as [| |[|t tasks]| | |] eqn:Es; try done.
  - injection E as <-. apply controlOK_shut; try done. unfold jobsClosed; by rewrite Es.
  - injection E as <-. apply controlOK_complete, controlOK_shut; try done. unfold jobsClosed; by rewrite Es.
  - destruct (ls_queue s) as [|t queue] eqn:Eq; injection E as <-.
    + apply controlOK_shut; try done. unfold jobsClosed; by rewrite Es.
    + apply controlOK_complete, controlOK_queue; [done|]. by rewrite Eq.
  - destruct (forallb _ _) eqn:F; [|done]. injection E as <-. destruct H as [Hg _ _ _ Hj Hr Hw Hk _ Hq He _].
    unfold jobsClosed in Hq, He. rewrite Es in Hq, He. split; cbn; try done.
    intros _. apply Forall_forall. intros w Hin. rewrite forallb_forall in F. apply list_elem_of_In, F in Hin. by destruct w.
Qed.

(** A worker moves on, and the jobs with it. *)
Lemma controlOK_worker w x jobs s s' : controlOK s -> ls_workers s !! w <> Some Exited ->
  ls_tasks s' = ls_tasks s -> ls_groups s' = ls_groups s -> ls_stage s' = ls_stage s -> ls_armed s' = ls_armed s ->
  ls_closed s' = ls_closed s -> ls_queue s' = ls_queue s ->
  ls_jobs s' = jobs -> jobs `suffix_of` ls_jobs s -> ls_workers s' = <[w := x]> (ls_workers s) -> workerOK s x ->
  (x = Exited -> jobsClosed s = true /\ jobs = []) -> controlOK s'.
Proof.
  intros [Hg Hd Hm Ha Hj Hr Hw Hk Hc Hdr He Hs] Hne Et Eg Es Ea Ec Eq Ej [sent Esent] Ew Hx Hex.
  assert (K : tasksKeep s s') by (intros g t (task & E & G); exists task; by rewrite Et).
  assert (Ejc : jobsClosed s' = jobsClosed s) by (unfold jobsClosed; by rewrite Es).
  rewrite Esent in Hj, Hr, He. apply Forall_app in Hj as [_ Hj].
  split; unfold dispatchOK; rewrite ?Eg, ?Es, ?Ea, ?Ej, ?Ew, ?Ejc, ?Ec, ?Eq; try done.
  - intros g l E. eapply Forall_impl; [by eapply Hg|]. apply K.
  - eapply Forall_impl; [exact Hj|]. intros b. by apply batchOK_keep.
  - rewrite glen_app in Hr. pose proof (glen_nonneg sent). lia.
  - by rewrite length_insert.
  - apply Forall_insert; [|by eapply workerOK_keep]. eapply Forall_impl; [exact Hk|]. intros v. by apply workerOK_keep.
  - intros [i Hi]%list_elem_of_lookup. apply list_lookup_insert_Some in Hi as [(_ & Hx' & _)|[_ Hi]]; [by apply Hex|].
    apply list_elem_of_lookup_2, He in Hi as [? Hn]. split; [done|]. by apply app_eq_nil in Hn as [_ ?].
  - intros Hst. specialize (Hs Hst). destruct (ls_workers s !! w) as [y|] eqn:Ey.
    + rewrite Forall_lookup in Hs. exfalso. apply Hne. f_equal. exact (Hs _ _ Ey).
    + rewrite list_insert_ge; [done|]. by apply lookup_ge_None.
Qed.

Lemma controlOK_receiveBatch w s s' : controlOK s -> receiveBatch w s = Some s' -> controlOK s'.
Proof.
  intros H E. unfold receiveBatch in E. destruct (ls_workers s !! w) as [[| | | |]|] eqn:Ew; try done.
  destruct (ls_jobs s) as [|[g tasks] jobs] eqn:Ej.
  - destruct (jobsClosed s) eqn:Ec; [|done]. injection E as <-. apply (controlOK_worker w Exited [] s); try done; [by rewrite Ew|rewrite Ej; by exists []].
  - injection E as <-. apply (controlOK_worker w (Filtering g tasks []) jobs s); try done; [by rewrite Ew|rewrite Ej; by exists [(g, tasks)]|].
    cbn. rewrite app_nil_r. pose proof (cok_jobs s H) as F. rewrite Ej in F. by apply Forall_cons in F as [F _].
Qed.

Lemma worker_OK w x s : controlOK s -> ls_workers s !! w = Some x -> workerOK s x.
Proof. intros H E. pose proof (cok_working s H) as F. rewrite Forall_lookup in F. by eapply F. Qed.

Lemma batchOK_tail s g t tasks : batchOK s (g, t :: tasks) -> batchOK s (g, tasks).
Proof. intros [F L]. apply Forall_cons in F as [_ F]. split; [done|]. cbn [snd] in *. rewrite glen_cons in L. lia. Qed.

Lemma controlOK_filterStep w ctxErr s s' : controlOK s -> filterStep w ctxErr s = Some s' -> controlOK s'.
Proof.
  intros H E. unfold filterStep in E. destruct (ls_workers s !! w) as [[|g [|t tasks] active| | |]|] eqn:Ew; try done;
    pose proof (worker_OK w _ s H Ew) as Hw; cbn in Hw.
  - injection E as <-. eapply (controlOK_worker w _ (ls_jobs s) s); try done; [by rewrite Ew|by destruct active|by destruct active].
  - destruct ctxErr as [e|]; injection E as <-.
    + apply controlOK_complete. eapply (controlOK_worker w _ (ls_jobs s) s); try done; [by rewrite Ew|].
      cbn. by eapply batchOK_tail.
    + eapply (controlOK_worker w _ (ls_jobs s) s); try done; [by rewrite Ew|]. cbn. destruct Hw as [F L]. cbn in F, L. split; cbn.
      * apply Forall_cons in F as [Ft F]. apply Forall_app in F as [F1 F2]. repeat apply Forall_app_2; try done. by constructor.
      * rewrite !glen_app, !glen_cons, !glen_app, !glen_nil in *. lia.
Qed.

Lemma controlOK_answerBatch w env s s' : controlOK s -> answerBatch config w env s = Some s' -> controlOK s'.
Proof.
  intros H E. unfold answerBatch in E. destruct (ls_workers s !! w) as [[|g tasks active|g active| |]|] eqn:Ew; try done. cbv zeta in E.
  destruct (runAttempts _ _ _ _) as [answer attempts]. injection E as <-.
  eapply (controlOK_worker w _ (ls_jobs s) s); try done. by rewrite Ew.
Qed.

Lemma controlOK_completeStep w s s' : controlOK s -> completeStep w s = Some s' -> controlOK s'.
Proof.
  intros H E. unfold completeStep in E. destruct (ls_workers s !! w) as [[| | |[|[t r] results]|]|] eqn:Ew; try done; injection E as <-.
  - eapply (controlOK_worker w _ (ls_jobs s) s); try done. by rewrite Ew.
  - apply controlOK_complete. eapply (controlOK_worker w _ (ls_jobs s) s); try done. by rewrite Ew.
Qed.

Lemma controlOK_Close s s' : controlOK s -> Close s = Some s' -> controlOK s'.
Proof.
  intros H E. unfold Close in E. destruct (ls_closed s); [done|]. injection E as <-. apply (controlOK_keep s); try done. by intros group t Ht.
Qed.

(** *** What the server was asked *)

Definition waitingTasks (w : workerStage) : list nat :=
  match w with Filtering _ tasks active => tasks ++ active | Calling _ active => active | _ => [] end.

(** Accepted, and in no request so far. *)
Definition unrequested (s : schedulerState) : list nat :=
  ls_holding s ++ ls_queue s ++ unsent s ++ concat (ls_jobs s).*2 ++ concat (waitingTasks <$> ls_workers s).

Definition keyOf (s : schedulerState) (t : nat) (key : list byte) : Prop :=
  exists task, ls_tasks s !! t = Some task /\ tk_encoded task = key.

(** A request: its keys are those of its tasks, and its answer what the backend made of the
    replies. *)
Definition entryOK (s : schedulerState) (e : servedLookup) : Prop :=
  sl_tasks e <> [] /\ batchOK s (sl_group e, sl_tasks e) /\ Forall2 (keyOf s) (sl_tasks e) (sl_keys e) /\
  runAttempts config (sl_env e) (sl_group e) (sl_keys e) = (sl_answer e, sl_attempts e).

(** The result of a task: an error, or what a request for it got in its place. *)
Definition answeredBy (s : schedulerState) (t : nat) (r : rawLookupResult) : Prop :=
  is_Some (raw_err r) \/
  exists e values i, e ∈ ls_served s /\ sl_answer e = inl values /\ sl_tasks e !! i = Some t /\ values !! i = Some r.

Record servedOK (s : schedulerState) : Prop := MkServedOK {
  svd_entries : Forall (entryOK s) (ls_served s);
  svd_once : NoDup (concat (sl_tasks <$> ls_served s));
  svd_apart : forall t, t ∈ concat (sl_tasks <$> ls_served s) -> t ∉ unrequested s;
  svd_results : forall t task r, ls_tasks s !! t = Some task -> tk_result task = Some r -> answeredBy s t r;
  svd_completing : forall results t r, Completing results ∈ ls_workers s -> (t, r) ∈ results -> answeredBy s t r;
}.

(** Tasks keep what they are. *)
Definition tasksSame (s s' : schedulerState) : Prop := forall t task, ls_tasks s !! t = Some task ->
  exists task', ls_tasks s' !! t = Some task' /\ groupOf task' = groupOf task /\ tk_encoded task' = tk_encoded task.

Lemma entryOK_same s s' e : tasksSame s s' -> entryOK s e -> entryOK s' e.
Proof.
  intros K (Hne & Hb & Hk & He). split_and!; try done.
  - eapply batchOK_keep; [|exact Hb]. intros g t (task & E & G). destruct (K t task E) as (task' & E' & G' & _). exists task'. by rewrite G'.
  - eapply Forall2_impl; [exact Hk|]. intros t key (task & E & G). destruct (K t task E) as (task' & E' & _ & G'). exists task'. by rewrite G'.
Qed.

Lemma tasksSame_complete t r s : tasksSame s (complete t r s).
Proof.
  intros t' task E. unfold complete. destruct (ls_tasks s !! t) as [task0|] eqn:E0; [|by exists task].
  destruct (tk_result task0); [by exists task|]. cbn. destruct (decide (t = t')) as [->|Hne].
  - rewrite lookup_insert_eq. eexists. split; [done|]. rewrite E in E0. by simplify_eq.
  - rewrite lookup_insert_ne by done. by exists task.
Qed.

Lemma servedOK_complete t r s : servedOK s -> answeredBy s t r -> servedOK (complete t r s).
Proof.
  intros [He Ho Ha Hr Hc] Hn. destruct (complete_places t r s) as (E1 & E2 & E3 & E4 & E5 & E6 & _ & _ & E9 & _).
  assert (Eu : unrequested (complete t r s) = unrequested s) by (unfold unrequested, unsent; by rewrite E1, E2, E3, E4, E5, E6).
  assert (Eb : forall t' r', answeredBy s t' r' -> answeredBy (complete t r s) t' r') by (unfold answeredBy; by rewrite E9).
  split; rewrite ?E9, ?Eu, ?E6; try done.
  - eapply Forall_impl; [exact He|]. intros e. apply entryOK_same, tasksSame_complete.
  - intros t' task r' E R. apply Eb. unfold complete in E. destruct (ls_tasks s !! t) as [task0|] eqn:E0; [|by eapply Hr].
    destruct (tk_result task0) eqn:R0; [by eapply Hr|]. cbn in E. destruct (decide (t = t')) as [->|Hne].
    + rewrite lookup_insert_eq in E. injection E as <-. cbn in R. by simplify_eq.
    + rewrite lookup_insert_ne in E by done. by eapply Hr.
  - intros results t' r' Hi Hin. apply Eb. by eapply Hc.
Qed.

Lemma servedOK_move s s' : servedOK s -> ls_tasks s' = ls_tasks s -> ls_served s' = ls_served s ->
  (forall t, t ∈ unrequested s' -> t ∈ unrequested s) ->
  (forall results t r, Completing results ∈ ls_workers s' -> (t, r) ∈ results -> answeredBy s t r) -> servedOK s'.
Proof.
  intros [He Ho Ha Hr Hc] Et Es Hu Hw.
  assert (Eb : forall t' r', answeredBy s t' r' -> answeredBy s' t' r') by (unfold answeredBy; by rewrite Es).
  split; rewrite ?Es, ?Et; try done.
  - eapply Forall_impl; [exact He|]. intros e. apply entryOK_same. intros t task E. exists task. by rewrite Et.
  - intros t Ht Hi. by apply (Ha t Ht), Hu.
  - intros t task r E R. apply Eb. by eapply Hr.
  - intros results t r Hi Hin. apply Eb. by eapply Hw.
Qed.

(** A step of the callers or of the scheduler. *)
Lemma servedOK_scheduler s s' : servedOK s -> ls_tasks s' = ls_tasks s -> ls_served s' = ls_served s -> ls_workers s' = ls_workers s ->
  (forall t, t ∈ ls_holding s' ++ ls_queue s' ++ unsent s' ++ concat (ls_jobs s').*2 ->
             t ∈ ls_holding s ++ ls_queue s ++ unsent s ++ concat (ls_jobs s).*2) -> servedOK s'.
Proof.
  intros H Et Es Ew Hi. apply (servedOK_move s); try done.
  - intros t. unfold unrequested. rewrite Ew. specialize (Hi t). mem.
  - intros results t r. rewrite Ew. by apply (svd_completing s H).
Qed.

Lemma answeredBy_failed s t e : answeredBy s t (failed e).
Proof. left. by eexists. Qed.

Lemma servedOK_acquire mode bucket encoded s s' : tasksOK [] s -> servedOK s -> acquire config mode bucket encoded s = Some s' -> servedOK s'.
Proof.
  intros Hok [He Ho Ha Hr Hc] E. unfold acquire in E. destruct (_ <? _); [|done]. injection E as <-. set (n := ls_next s) in *.
  assert (Hn : ls_tasks s !! n = None).
  { destruct (ls_tasks s !! n) eqn:En; [|done]. pose proof (tok_fresh _ _ Hok n ltac:(eauto)). subst n. lia. }
  set (s' := MkSchedulerState _ _ _ _ _ _ _ _ _ _ _ _).
  assert (K : tasksSame s s').
  { intros t task E. exists task. unfold s'. cbn. rewrite lookup_insert_ne; [done|]. congruence. }
  split; try done.
  - eapply Forall_impl; [exact He|]. intros e. by apply entryOK_same.
  - intros t Ht Hi. destruct (decide (t = n)) as [->|Hne].
    + change (ls_served s') with (ls_served s) in Ht. rewrite list_elem_of_In, in_concat in Ht. destruct Ht as (l & Hl%list_elem_of_In & Ht%list_elem_of_In).
      apply list_elem_of_fmap in Hl as (e & -> & Hel). rewrite Forall_forall in He. destruct (He e Hel) as (_ & [F _] & _).
      rewrite Forall_forall in F. destruct (F n Ht) as (task & En & _). congruence.
    + apply (Ha t Ht). unfold unrequested, unsent, s' in Hi |- *. cbn in Hi. mem.
  - intros t task r. unfold s' at 1. cbn. intros E R. destruct (decide (n = t)) as [<-|Hne].
    + rewrite lookup_insert_eq in E. by injection E as <-.
    + rewrite lookup_insert_ne in E by done. by eapply Hr.
Qed.

Lemma servedOK_enqueue t ctxErr s s' : servedOK s -> enqueue config t ctxErr s = Some s' -> servedOK s'.
Proof.
  intros H E. unfold enqueue in E. case_bool_decide as Ht; [|done]. set (holding := filter _ _) in *.
  assert (Hin : forall x, x ∈ holding -> x ∈ ls_holding s) by (intros x [_ Hx]%list_elem_of_filter; done).
  assert (Hout : servedOK (setQueue holding (ls_queue s) s)).
  { apply (servedOK_scheduler s); try done. cbn. unfold unsent. cbn. intros x. specialize (Hin x). mem. }
  destruct (ls_closed s); [injection E as <-; by apply servedOK_complete, answeredBy_failed|].
  destruct ctxErr; [injection E as <-; by apply servedOK_complete, answeredBy_failed|].
  destruct (_ <? _); [|done]. injection E as <-. apply (servedOK_scheduler s); try done. cbn. unfold unsent. cbn.
  intros x. specialize (Hin x). mem.
Qed.

Lemma servedOK_dequeue t queue s : servedOK s -> ls_queue s = t :: queue -> servedOK (setQueue (ls_holding s) queue s).
Proof. intros H Eq. apply (servedOK_scheduler s); try done. cbn. unfold unsent. cbn. rewrite Eq. mem. Qed.

Lemma servedOK_receiveTask ctxErr s s' : servedOK s -> receiveTask config ctxErr s = Some s' -> servedOK s'.
Proof.
  intros H E. unfold receiveTask in E. destruct (ls_stage s) eqn:Es; try done. destruct (ls_queue s) as [|t queue] eqn:Eq; [done|].
  pose proof (servedOK_dequeue t queue s H Eq) as Hout. destruct ctxErr; [injection E as <-; by apply servedOK_complete, answeredBy_failed|].
  cbn [ls_tasks setQueue ls_groups] in E. destruct (ls_tasks s !! t) as [task|] eqn:Et; [|done]. cbn [mbind option_bind] in E.
  set (g := groupOf task) in *.
  destruct (_ || _) in E; injection E as <-; apply (servedOK_scheduler s); try done; cbn; unfold unsent; cbn; rewrite Es, Eq; intros x.
  - rewrite delete_insert_eq. rewrite (flatten_split (ls_groups s) g). mem.
  - pose proof (flatten_add (ls_groups s) g t) as Hf. rewrite !elem_of_app, Hf. mem.
Qed.

(** The steps of the scheduler that complete nothing. *)
Lemma servedOK_run op s s' : servedOK s -> exec config op s = Some s' ->
  match op with OpFire _ | OpSendBatch | OpSendClosed _ | OpDispatched | OpNoticeClosed _ | OpClose => True | _ => False end ->
  servedOK s'.
Proof.
  intros H E Hop. destruct op as [| | |order| |order| |order| | | | | |]; try done; cbn [exec] in E.
  - unfold fire in E. destruct (ls_stage s) eqn:Es; try done. destruct (_ && _); [|done]. injection E as <-.
    apply (servedOK_scheduler s); try done. intros t. rewrite !elem_of_app.
    rewrite (unsent_next (ls_groups s) order (setGroups _ _ _ _)) by done. unfold unsent. rewrite Es. cbn. tauto.
  - unfold sendBatch in E. destruct (ls_stage s) as [|g [|t tasks] more| | | |] eqn:Es; try done. destruct (_ <? _); [|done]. injection E as <-.
    generalize (batchCount config (t :: tasks)) as n. intros n.
    apply (servedOK_scheduler s); try done. cbn [ls_holding ls_queue ls_jobs ls_stage ls_groups setJobs setGroups]. unfold unsent.
    cbn [ls_stage ls_groups setJobs setGroups]. rewrite Es, fmap_app, concat_app. cbn [fmap list_fmap snd concat]. rewrite app_nil_r. intros x Hx.
    assert (Htd : x ∈ take n (t :: tasks) ++ drop n (t :: tasks) -> x ∈ t :: tasks) by (by rewrite take_drop). mem.
  - unfold sendClosed in E. destruct (ls_stage s) as [|g [|t tasks] more| | | |] eqn:Es; try done. destruct (_ && _); [|done]. injection E as <-.
    apply (servedOK_scheduler s); try done. cbn. unfold unsent. cbn. mem.
  - unfold dispatched in E. destruct (ls_stage s) as [|g [|t tasks] more| | | |] eqn:Es; try done. injection E as <-.
    apply (servedOK_scheduler s); try done. intros t. rewrite !elem_of_app.
    rewrite (unsent_next (delete g (ls_groups s)) more (setGroups _ _ _ _)) by done. unfold unsent. rewrite Es. cbn. tauto.
  - unfold noticeClosed in E. destruct (ls_stage s) eqn:Es; try done. destruct (_ && _); [|done]. injection E as <-.
    apply (servedOK_scheduler s); try done. cbn. unfold unsent. cbn. mem.
  - unfold Close in E. destruct (ls_closed s); [done|]. injection E as <-. by apply (servedOK_scheduler s).
Qed.

Lemma servedOK_shutdownStep s s' : servedOK s -> shutdownStep s = Some s' -> servedOK s'.
Proof.
  intros H E. unfold shutdownStep in E.
  assert (Hset : forall stage, match stage with Selecting | Dispatching _ _ _ => False | _ => True end ->
            servedOK (setGroups (ls_groups s) (ls_armed s) stage s)).
  { intros stage Hs. apply (servedOK_scheduler s); try done. cbn. unfold unsent at 1. cbn. destruct stage; try done; mem. }
  destruct (ls_stage s) as [| |[|t tasks]| | |] eqn:Es; try done.
  - injection E as <-. by apply Hset.
  - injection E as <-. apply servedOK_complete; [by apply Hset|apply answeredBy_failed].
  - destruct (ls_queue s) as [|t queue] eqn:Eq; injection E as <-; [by apply Hset|].
    apply servedOK_complete; [by apply (servedOK_dequeue t)|apply answeredBy_failed].
  - destruct (forallb _ _); [|done]. injection E as <-. by apply Hset.
Qed.

(** A worker moves on. *)
Lemma waiting_setWorker w x y jobs s s' : ls_workers s !! w = Some y ->
  ls_workers s' = <[w := x]> (ls_workers s) -> ls_jobs s' = jobs ->
  ls_holding s' = ls_holding s -> ls_queue s' = ls_queue s -> ls_groups s' = ls_groups s -> ls_stage s' = ls_stage s ->
  waitingTasks y ++ unrequested s' ≡ₚ waitingTasks x ++ ls_holding s ++ ls_queue s ++ unsent s ++ concat jobs.*2 ++ concat (waitingTasks <$> ls_workers s).
Proof.
  intros E Ew Ej Eh Eq Eg Es. unfold unrequested, unsent. rewrite Ew, Ej, Eh, Eq, Eg, Es.
  pose proof (workers_insert waitingTasks (ls_workers s) w x y E) as Hp.
  rewrite (Permutation_app_swap_app (waitingTasks y)), (Permutation_app_swap_app (waitingTasks x)). f_equiv.
  rewrite (Permutation_app_swap_app (waitingTasks y)), (Permutation_app_swap_app (waitingTasks x)). f_equiv.
  rewrite (Permutation_app_swap_app (waitingTasks y)), (Permutation_app_swap_app (waitingTasks x)). f_equiv.
  rewrite (Permutation_app_swap_app (waitingTasks y)), (Permutation_app_swap_app (waitingTasks x)). f_equiv. exact Hp.
Qed.

Lemma completing_setWorker w x s results t r : servedOK s ->
  (forall results', x = Completing results' -> forall t' r', (t', r') ∈ results' -> answeredBy s t' r') ->
  Completing results ∈ <[w := x]> (ls_workers s) -> (t, r) ∈ results -> answeredBy s t r.
Proof.
  intros H Hx Hi Hin. apply list_elem_of_lookup in Hi as [i Hi].
  apply list_lookup_insert_Some in Hi as [(_ & He & _)|[_ Hi]]; [by eapply Hx|].
  eapply svd_completing; [done|by eapply list_elem_of_lookup_2|done].
Qed.

Lemma workers_in (f : workerStage -> list nat) ws w x t : ws !! w = Some x -> t ∈ f x -> t ∈ concat (f <$> ws).
Proof.
  intros E Ht. rewrite list_elem_of_In, in_concat. exists (f x). rewrite <- !list_elem_of_In. split; [|done].
  apply list_elem_of_fmap. exists x. split; [done|]. by eapply list_elem_of_lookup_2.
Qed.

Lemma workers_set (f : workerStage -> list nat) ws w x t : t ∈ concat (f <$> <[w := x]> ws) -> t ∈ f x \/ t ∈ concat (f <$> ws).
Proof.
  rewrite list_elem_of_In, in_concat. intros (l & Hl%list_elem_of_In & Ht%list_elem_of_In).
  apply list_elem_of_fmap in Hl as (y & -> & Hy). apply list_elem_of_lookup in Hy as [i Hi].
  apply list_lookup_insert_Some in Hi as [(_ & -> & _)|[_ Hi]]; [by left|right]. by eapply workers_in.
Qed.

Lemma servedOK_worker w x y jobs s s' : servedOK s -> ls_workers s !! w = Some y ->
  ls_tasks s' = ls_tasks s -> ls_served s' = ls_served s ->
  ls_workers s' = <[w := x]> (ls_workers s) -> ls_jobs s' = jobs ->
  ls_holding s' = ls_holding s -> ls_queue s' = ls_queue s -> ls_groups s' = ls_groups s -> ls_stage s' = ls_stage s ->
  (forall t, t ∈ waitingTasks x ++ concat jobs.*2 -> t ∈ waitingTasks y ++ concat (ls_jobs s).*2) ->
  (forall results', x = Completing results' -> forall t' r', (t', r') ∈ results' -> answeredBy s t' r') -> servedOK s'.
Proof.
  intros H E Et Es Ew Ej Eh Eq Eg Est Hi Hx. apply (servedOK_move s); try done.
  - intros t Ht. unfold unrequested, unsent in *. rewrite Ew, Ej, Eh, Eq, Eg, Est in Ht. specialize (Hi t).
    pose proof (workers_set waitingTasks (ls_workers s) w x t). pose proof (workers_in waitingTasks (ls_workers s) w y t E). mem.
  - intros results t r. rewrite Ew. by apply completing_setWorker.
Qed.

Lemma servedOK_receiveBatch w s s' : servedOK s -> receiveBatch w s = Some s' -> servedOK s'.
Proof.
  intros H E. unfold receiveBatch in E. destruct (ls_workers s !! w) as [[| | | |]|] eqn:Ew; try done.
  destruct (ls_jobs s) as [|[g tasks] jobs] eqn:Ej.
  - destruct (jobsClosed s); [|done]. injection E as <-. apply (servedOK_worker w Exited Idle [] s); try done; cbn; mem.
  - injection E as <-. apply (servedOK_worker w (Filtering g tasks []) Idle jobs s); try done. rewrite Ej. cbn. mem.
Qed.

Lemma servedOK_filterStep w ctxErr s s' : servedOK s -> filterStep w ctxErr s = Some s' -> servedOK s'.
Proof.
  intros H E. unfold filterStep in E. destruct (ls_workers s !! w) as [[|g [|t tasks] active| | |]|] eqn:Ew; try done.
  - injection E as <-. apply (servedOK_worker w (match active with [] => Idle | _ => Calling g active end) (Filtering g [] active) (ls_jobs s) s);
      try done; destruct active; try done; cbn; mem.
  - destruct ctxErr as [e|]; injection E as <-.
    + apply servedOK_complete; [|apply answeredBy_failed]. eapply (servedOK_worker w (Filtering g tasks active) (Filtering g (t :: tasks) active) (ls_jobs s) s); try done. cbn. mem.
    + eapply (servedOK_worker w (Filtering g tasks (active ++ [t])) (Filtering g (t :: tasks) active) (ls_jobs s) s); try done. cbn. mem.
Qed.

Lemma servedOK_completeStep w s s' : servedOK s -> completeStep w s = Some s' -> servedOK s'.
Proof.
  intros H E. unfold completeStep in E. destruct (ls_workers s !! w) as [[| | |[|[t r] results]|]|] eqn:Ew; try done; injection E as <-.
  - eapply (servedOK_worker w _ _ (ls_jobs s) s); try done.
  - assert (Hc : forall t' r', (t', r') ∈ (t, r) :: results -> answeredBy s t' r').
    { intros t' r'. eapply svd_completing; [done|]. by eapply list_elem_of_lookup_2. }
    apply servedOK_complete.
    + eapply (servedOK_worker w _ _ (ls_jobs s) s); try done. intros results' [= <-] t' r' Hin. apply Hc. by right.
    + destruct (Hc t r) as [He|He]; [by left|by left|by right].
Qed.

(** What a request makes of its answer is an error or the value in the key's place. *)
Lemma completeBatch_answered tasks answer t r : (t, r) ∈ completeBatch tasks answer ->
  is_Some (raw_err r) \/ exists values i, answer = inl values /\ tasks !! i = Some t /\ values !! i = Some r.
Proof.
  assert (Hm : forall e, (t, r) ∈ map (fun t => (t, failed e)) tasks -> is_Some (raw_err r)).
  { intros e (t' & [= -> ->] & _)%list_elem_of_fmap. by eexists. }
  unfold completeBatch. destruct answer as [values|e]; [|left; by eapply Hm]. destruct (negb _); [left; by eapply Hm|].
  intros [i Hi]%list_elem_of_lookup. right. exists values, i. split; [done|].
  apply lookup_zip_with_Some in Hi as (t' & r' & [= -> ->] & ? & ?). done.
Qed.

Lemma encoded_keys s group tasks : Forall (inGroup s group) tasks -> Forall2 (keyOf s) tasks (encodedLookupTasks (ls_tasks s) tasks).
Proof.
  intros F. induction F as [|t tasks (task & E & _) F IH]; cbn; constructor; [|done]. exists task. by rewrite E.
Qed.

Lemma waiting_after w x x' ws t : waitingTasks x = [] ->
  t ∈ concat (waitingTasks <$> <[w := x]> ws) -> t ∈ concat (workerTasks <$> <[w := x']> ws).
Proof.
  intros Hx Ht. rewrite list_elem_of_In, in_concat in Ht. destruct Ht as (l & Hl%list_elem_of_In & Ht%list_elem_of_In).
  apply list_elem_of_fmap in Hl as (y & -> & Hy). apply list_elem_of_lookup in Hy as [i Hi].
  apply list_lookup_insert_Some in Hi as [(_ & <- & _)|[Hne Hi]]; [rewrite Hx in Ht; by apply not_elem_of_nil in Ht|].
  apply (workers_in workerTasks _ i y); [by rewrite list_lookup_insert_ne|]. destruct y; try done; by apply not_elem_of_nil in Ht.
Qed.

Lemma servedOK_answerBatch w env s s' : tasksOK [] s -> controlOK s -> servedOK s -> answerBatch config w env s = Some s' -> servedOK s'.
Proof.
  intros Hok Hctl H E. unfold answerBatch in E. destruct (ls_workers s !! w) as [[|g tasks active|g active| |]|] eqn:Ew; try done. cbv zeta in E.
  destruct (worker_OK w _ s Hctl Ew) as [Hne Hb]. set (keys := encodedLookupTasks _ _) in *.
  destruct (runAttempts _ _ _ _) as [answer attempts] eqn:Erun. injection E as <-.
  set (e := MkServedLookup g active keys env attempts answer). destruct H as [He Ho Ha Hr Hc].
  assert (Hact : forall t, t ∈ active -> t ∈ unrequested s).
  { intros t Ht. unfold unrequested. pose proof (workers_in waitingTasks _ _ _ t Ew Ht). mem. }
  assert (Hold : forall t r, answeredBy s t r -> answeredBy (setWorker w (Completing (completeBatch active answer)) (served e s)) t r).
  { intros t r [?|(e' & values & i & Hin & ?)]; [by left|right]. exists e', values, i. split; [|done]. cbn. mem. }
  assert (Hn : NoDup (active ++ accepted (setWorker w Idle s))).
  { pose proof (requested_setWorker w Idle _ s Ew) as Hp. cbn in Hp. eapply NoDup_Permutation_proper; [|exact (tok_nodup _ _ Hok)].
    unfold accepted at 2. rewrite <- Hp. unfold accepted, unsent. cbn. solve_Permutation. }
  split; cbn [ls_served setWorker served ls_tasks ls_workers].
  - apply Forall_app. split; [exact He|]. constructor; [|constructor]. split; [done|]. split; [done|].
    split; [apply (encoded_keys s g); apply Hb|exact Erun].
  - rewrite fmap_app, concat_app. cbn. rewrite app_nil_r. apply NoDup_app. split; [done|]. split.
    + intros t Ht Hi. apply (Ha t Ht). by apply Hact.
    + by apply NoDup_app in Hn as [Hn _].
  - intros t Ht Hi. rewrite fmap_app, concat_app in Ht. cbn in Ht. rewrite app_nil_r in Ht.
    apply elem_of_app in Ht as [Ht|Ht].
    + apply (Ha t Ht). unfold unrequested, unsent in *. cbn in Hi.
      pose proof (workers_set waitingTasks (ls_workers s) w (Completing (completeBatch active answer)) t) as Hw. cbn [waitingTasks] in Hw. mem.
    + apply NoDup_app in Hn as (_ & Hn & _). apply (Hn t Ht). unfold unrequested, unsent, accepted, requested in *. cbn in *.
      pose proof (waiting_after w (Completing (completeBatch active answer)) Idle (ls_workers s) t eq_refl). mem.
  - intros t task r Et Er. apply Hold. by eapply Hr.
  - intros results t r Hi Hin. apply list_elem_of_lookup in Hi as [i Hi].
    apply list_lookup_insert_Some in Hi as [(_ & [= <-] & _)|[_ Hi]].
    + apply completeBatch_answered in Hin as [?|(values & k & Hv & Hk & Hr')]; [by left|right].
      exists e, values, k. split; [cbn; mem|done].
    + apply Hold. eapply Hc; [|exact Hin]. by eapply list_elem_of_lookup_2.
Qed.

Record lookupInv (s : schedulerState) : Prop := MkLookupInv {
  inv_tasks : tasksOK [] s;
  inv_control : controlOK s;
  inv_served : servedOK s;
}.

Lemma lookupInv_new : lookupInv (newScheduler config).
Proof.
  pose proof (lco_queue _ configOK). pose proof (lco_requests _ configOK).
  assert (Hr : forall f : workerStage -> list nat, f Idle = [] -> forall n, concat (f <$> replicate n Idle) = []).
  { intros f Hf n. induction n as [|n IH]; [done|]. cbn. by rewrite Hf. }
  assert (Ha : accepted (newScheduler config) = []).
  { unfold accepted, unsent, requested. cbn. by rewrite Hr. }
  assert (Hno : forall t task, ls_tasks (newScheduler config) !! t <> Some task) by (intros t task; cbn; by rewrite lookup_empty).
  split.
  - split; rewrite ?Ha; change (flatten (ls_groups (newScheduler config))) with (@nil nat); cbn [app failing ls_stage newScheduler].
    + intros t [? Ht]. by apply Hno in Ht.
    + cbn. unfold openTasks. rewrite map_filter_empty, map_size_empty. lia.
    + intros t Ht. by apply not_elem_of_nil in Ht.
    + intros t Ht. by apply not_elem_of_nil in Ht.
    + constructor.
    + intros t Ht. by apply not_elem_of_nil in Ht.
    + intros t (task & Ht & _). by apply Hno in Ht.
  - split; cbn; try done.
    + intros g [? Hg]. by rewrite lookup_empty in Hg.
    + by rewrite glen_nil; lia.
    + by rewrite length_replicate.
    + by apply Forall_replicate.
    + intros Hi%elem_of_replicate. by destruct Hi.
  - split; cbn; try done.
    + constructor.
    + intros t Ht. by apply not_elem_of_nil in Ht.
    + intros results t r Hi%elem_of_replicate. by destruct Hi.
Qed.

Lemma tasksOK_exec op s s' : tasksOK [] s -> dispatchOK s -> exec config op s = Some s' -> tasksOK [] s'.
Proof.
  intros Ht Hd E. destruct op; cbn [exec] in E.
  - by eapply tasksOK_acquire.
  - by eapply tasksOK_enqueue.
  - by eapply tasksOK_receiveTask.
  - by eapply tasksOK_fire.
  - by eapply tasksOK_sendBatch.
  - by eapply tasksOK_sendClosed.
  - by eapply tasksOK_dispatched.
  - by eapply tasksOK_noticeClosed.
  - by eapply tasksOK_shutdownStep.
  - by eapply tasksOK_receiveBatch.
  - by eapply tasksOK_filterStep.
  - by eapply tasksOK_answerBatch.
  - by eapply tasksOK_completeStep.
  - unfold Close in E. destruct (ls_closed s); [done|]. injection E as <-. by apply (tasksOK_worker [] s).
Qed.

Lemma controlOK_exec op s s' : tasksOK [] s -> controlOK s -> exec config op s = Some s' -> controlOK s'.
Proof.
  intros Ht Hc E. destruct op; cbn [exec] in E.
  - eapply controlOK_acquire; [apply (tok_fresh _ _ Ht)|done|done].
  - by eapply controlOK_enqueue.
  - by eapply controlOK_receiveTask.
  - by eapply controlOK_fire.
  - by eapply controlOK_sendBatch.
  - eapply controlOK_closing; [done|by left].
  - by eapply controlOK_dispatched.
  - eapply controlOK_closing; [done|by right].
  - by eapply controlOK_shutdownStep.
  - by eapply controlOK_receiveBatch.
  - by eapply controlOK_filterStep.
  - by eapply controlOK_answerBatch.
  - by eapply controlOK_completeStep.
  - by eapply controlOK_Close.
Qed.

Lemma servedOK_exec op s s' : tasksOK [] s -> controlOK s -> servedOK s -> exec config op s = Some s' -> servedOK s'.
Proof.
  intros Ht Hc Hs E. destruct op; try (by eapply servedOK_run); cbn [exec] in E.
  - by eapply servedOK_acquire.
  - by eapply servedOK_enqueue.
  - by eapply servedOK_receiveTask.
  - by eapply servedOK_shutdownStep.
  - by eapply servedOK_receiveBatch.
  - by eapply servedOK_filterStep.
  - by eapply servedOK_answerBatch.
  - by eapply servedOK_completeStep.
Qed.

Lemma lookupInv_exec op s s' : lookupInv s -> exec config op s = Some s' -> lookupInv s'.
Proof.
  intros [Ht Hc Hs] E. split.
  - eapply tasksOK_exec; [exact Ht|exact (cok_dispatch s Hc)|exact E].
  - by eapply controlOK_exec.
  - by eapply servedOK_exec.
Qed.

Lemma lookupInv_execAll ops : forall s s', lookupInv s -> execAll config ops s = Some s' -> lookupInv s'.
Proof.
  induction ops as [|op ops IH]; intros s s' H E; cbn in E; [by simplify_eq|].
  destruct (exec config op s) as [s1|] eqn:E1; [|done]. cbn in E. eapply IH; [|exact E]. by eapply lookupInv_exec.
Qed.

Lemma lookup_reachable_inv s : reachable config s -> lookupInv s.
Proof. intros [ops E]. eapply lookupInv_execAll; [apply lookupInv_new|exact E]. Qed.

(** ** Every run without new keys comes to an end *)

Definition workerWeight (w : workerStage) : nat :=
  match w with
  | Idle => 1
  | Filtering _ tasks active => 2 + 5 * length tasks + 3 * length active
  | Calling _ active => 2 + 2 * length active
  | Completing results => 2 + length results
  | Exited => 0
  end.

Definition stageWeight (s : schedulerState) : nat :=
  match ls_stage s with
  | Selecting | Dispatching _ _ _ =>
    4 + 2 * length (flatten (ls_groups s)) + 3 * size (ls_groups s) + (if ls_armed s then 1 else 0)
  | Failing tasks => 3 + length tasks
  | Draining => 2
  | WaitingWorkers => 1
  | Stopped => 0
  end.

Definition jobWeight (job : lookupGroup * list nat) : nat := 2 + 6 * length job.2.

(** How many steps are left, at most. *)
Definition weight (s : schedulerState) : nat :=
  (if ls_closed s then 0 else 1) + 24 * length (ls_holding s) + 20 * length (ls_queue s) + 10 * length (unsent s)
  + stageWeight s + sum_list_with jobWeight (ls_jobs s) + sum_list_with workerWeight (ls_workers s).

Definition newKey (op : lookupOp) : bool := match op with OpAcquire _ _ _ => true | _ => false end.

Lemma weight_complete t r s : weight (complete t r s) = weight s.
Proof.
  unfold weight, stageWeight, unsent. destruct (complete_places t r s) as (-> & -> & -> & -> & -> & -> & -> & -> & _ & _). done.
Qed.

Lemma sum_insert (f : workerStage -> nat) ws w x y : ws !! w = Some y ->
  (sum_list_with f (<[w := x]> ws) + f y = sum_list_with f ws + f x)%nat.
Proof.
  revert w. induction ws as [|z ws IH]; intros [|w] E; cbn in *; simplify_eq; [lia|].
  specialize (IH w E). apply (f_equal (Nat.add (f z))) in IH. rewrite !Nat.add_assoc in IH. exact IH.
Qed.

Lemma rangeOrder_length groups order : rangeOrder groups order = true ->
  length (concat (groupTasks groups <$> order)) = length (flatten groups).
Proof.
  unfold rangeOrder. intros [Hn%bool_decide_eq_true Hd%bool_decide_eq_true]%andb_true_iff.
  assert (Hp : order ≡ₚ (map_to_list groups).*1).
  { apply NoDup_Permutation; [done|apply NoDup_fst_map_to_list|]. intros g.
    rewrite <- (elem_of_list_to_set (C := gset lookupGroup)), Hd, elem_of_dom. split.
    - intros [l El]. apply list_elem_of_fmap. exists (g, l). split; [done|]. by apply elem_of_map_to_list.
    - intros ([g' l] & -> & El)%list_elem_of_fmap. apply elem_of_map_to_list in El. by eexists. }
  rewrite Hp. unfold flatten. rewrite <- list_fmap_compose. f_equal. f_equal. apply list_fmap_ext. intros i [g l] El.
  apply list_elem_of_lookup_2, elem_of_map_to_list in El. cbn. unfold groupTasks. by rewrite El.
Qed.

Lemma weight_shutdown tasks order s : rangeOrder (ls_groups s) order = true -> (length tasks <= length (unsent s))%nat ->
  match ls_stage s with Selecting | Dispatching _ _ _ => True | _ => False end ->
  (weight (startShutdown tasks order s) < weight s)%nat.
Proof.
  intros Ho Hl Hs. unfold weight, stageWeight at 1, unsent at 1. cbn. rewrite length_app, (rangeOrder_length _ _ Ho).
  assert (stageWeight s >= 4 + length (flatten (ls_groups s)))%nat by (unfold stageWeight; destruct (ls_stage s); try done; lia). lia.
Qed.

Lemma stageWeight_next groups armed order s : stageWeight (setGroups groups armed (dispatchNext groups order) s) =
  (4 + 2 * length (flatten groups) + 3 * size groups + (if armed then 1 else 0))%nat.
Proof. unfold stageWeight. cbn. by destruct order. Qed.

Lemma weight_scheduler op s s' : dispatchOK s -> exec config op s = Some s' ->
  match op with OpReceiveTask _ | OpFire _ | OpSendBatch | OpSendClosed _ | OpDispatched | OpNoticeClosed _ | OpShutdown => True | _ => False end ->
  (weight s' < weight s)%nat.
Proof.
  intros Hd E Hop. destruct op as [| | |order| |order| |order| | | | | |]; try done; cbn [exec] in E.
  - unfold receiveTask in E. destruct (ls_stage s) eqn:Es; try done. destruct (ls_queue s) as [|t queue] eqn:Eq; [done|].
    destruct ctxErr; [injection E as <-; rewrite weight_complete; unfold weight, stageWeight, unsent; cbn -[Nat.mul]; rewrite Es, Eq; cbn -[Nat.mul]; lia|].
    cbn [ls_tasks setQueue ls_groups] in E. destruct (ls_tasks s !! t) as [task|]; [|done]. cbn [mbind option_bind] in E. set (g := groupOf task) in *.
    pose proof (Permutation_length (flatten_add (ls_groups s) g t)) as Hfl. cbn in Hfl.
    pose proof (map_size_insert g (groupTasks (ls_groups s) g ++ [t]) (ls_groups s)) as Hsz.
    assert (size (<[g := groupTasks (ls_groups s) g ++ [t]]> (ls_groups s)) <= S (size (ls_groups s)))%nat by (rewrite Hsz; destruct (ls_groups s !! g); cbn; lia).
    pose proof (Permutation_length (flatten_split (<[g := groupTasks (ls_groups s) g ++ [t]]> (ls_groups s)) g)) as Hsp.
    unfold groupTasks at 2 in Hsp. rewrite lookup_insert_eq in Hsp. cbn in Hsp. rewrite length_app in Hsp.
    destruct (_ || _) in E; injection E as <-; unfold weight, stageWeight, unsent; cbn -[Nat.mul]; rewrite Es, Eq; cbn -[Nat.mul].
    + rewrite length_app. destruct (ls_armed s); lia.
    + destruct (ls_armed s); lia.
  - unfold fire in E. destruct (ls_stage s) eqn:Es; try done. destruct (ls_armed s) eqn:Ea; [|done]. destruct (rangeOrder _ _); [|done].
    injection E as <-. unfold weight. rewrite stageWeight_next.
    rewrite (Permutation_length (unsent_next (ls_groups s) order (setGroups _ _ _ s) eq_refl eq_refl)).
    unfold unsent, stageWeight. rewrite Es, Ea. cbn. lia.
  - unfold sendBatch in E. destruct (ls_stage s) as [|g [|t tasks] more| | | |] eqn:Es; try done. destruct (_ <? _); [|done]. injection E as <-.
    destruct (batchCount_bounds (t :: tasks)) as (_ & Hb & Hp). specialize (Hp ltac:(done)). set (n := batchCount config (t :: tasks)) in *.
    unfold weight, stageWeight, unsent. cbn [ls_closed ls_holding ls_queue ls_stage ls_groups ls_jobs ls_workers ls_armed setJobs setGroups].
    rewrite Es, sum_list_with_app, !length_app, length_drop. cbn [sum_list_with]. unfold jobWeight at 2. cbn [snd]. rewrite length_take. lia.
  - unfold sendClosed in E. destruct (ls_stage s) as [|g [|t tasks] more| | | |] eqn:Es; try done. destruct (_ && _) eqn:Ho; [|done].
    apply andb_true_iff in Ho as [_ Ho]. injection E as <-. apply weight_shutdown; [done| |by rewrite Es].
    unfold unsent. rewrite Es, length_app, length_take. lia.
  - unfold dispatched in E. destruct (ls_stage s) as [|g [|t tasks] more| | | |] eqn:Es; try done. injection E as <-.
    unfold weight. rewrite stageWeight_next.
    rewrite (Permutation_length (unsent_next (delete g (ls_groups s)) more (setGroups _ _ _ s) eq_refl eq_refl)).
    unfold dispatchOK in Hd. rewrite Es in Hd. destruct Hd as [[sent El] _].
    pose proof (Permutation_length (flatten_split (ls_groups s) g)) as Hf. rewrite length_app in Hf.
    pose proof (map_size_delete_Some g (ls_groups s) ltac:(eauto)) as Hsz. pose proof (map_size_ne_0_lookup_2 (ls_groups s) g ltac:(eauto)).
    unfold unsent, stageWeight. rewrite Es. cbn -[Nat.mul]. assert (size (ls_groups s) = S (size (delete g (ls_groups s)))) as -> by (rewrite Hsz; destruct (size (ls_groups s)); done).
    set (a := length (flatten (delete g (ls_groups s)))) in *. set (n := size (delete g (ls_groups s))) in *. destruct (ls_armed s); lia.
  - unfold noticeClosed in E. destruct (ls_stage s) eqn:Es; try done. destruct (_ && _) eqn:Ho; [|done].
    apply andb_true_iff in Ho as [_ Ho]. injection E as <-. apply weight_shutdown; [done|cbn; lia|by rewrite Es].
  - unfold shutdownStep in E. destruct (ls_stage s) as [| |[|t tasks]| | |] eqn:Es; try done.
    + injection E as <-. unfold weight, stageWeight, unsent. cbn -[Nat.mul]. rewrite Es. lia.
    + injection E as <-. rewrite weight_complete. unfold weight, stageWeight, unsent. cbn -[Nat.mul]. rewrite Es. cbn. lia.
    + destruct (ls_queue s) as [|t queue] eqn:Eq; injection E as <-; [|rewrite weight_complete];
        unfold weight, stageWeight, unsent; cbn -[Nat.mul]; rewrite Es, Eq; cbn -[Nat.mul]; lia.
    + destruct (forallb _ _); [|done]. injection E as <-. unfold weight, stageWeight, unsent. cbn -[Nat.mul]. rewrite Es. lia.
Qed.

Lemma weight_worker w x y jobs s s' : ls_workers s !! w = Some y ->
  ls_closed s' = ls_closed s -> ls_holding s' = ls_holding s -> ls_queue s' = ls_queue s -> ls_groups s' = ls_groups s ->
  ls_armed s' = ls_armed s -> ls_stage s' = ls_stage s -> ls_workers s' = <[w := x]> (ls_workers s) -> ls_jobs s' = jobs ->
  (workerWeight x + sum_list_with jobWeight jobs < workerWeight y + sum_list_with jobWeight (ls_jobs s))%nat -> (weight s' < weight s)%nat.
Proof.
  intros E Ec Eh Eq Eg Ea Es Ew Ej Hlt. unfold weight, unsent, stageWeight. rewrite Ec, Eh, Eq, Eg, Ea, Es, Ew, Ej.
  pose proof (sum_insert workerWeight (ls_workers s) w x y E). lia.
Qed.

Lemma weight_exec op s s' : lookupInv s -> exec config op s = Some s' -> newKey op = false -> (weight s' < weight s)%nat.
Proof.
  intros [Ht Hc _] E Hop. pose proof (cok_dispatch s Hc) as Hd.
  destruct op as [|t ctxErr| | | | | | | |w|w ctxErr|w env|w|]; try done; try (by eapply weight_scheduler); cbn [exec] in E.
  - unfold enqueue in E. case_bool_decide as Hi; [|done]. set (holding := filter _ _) in *.
    assert (length (ls_holding s) = S (length holding)).
    { pose proof (tok_nodup _ _ Ht) as Hn. apply NoDup_app in Hn as [Hn _]. exact (Permutation_length (filter_out _ _ Hi Hn)). }
    destruct (ls_closed s) eqn:Ec; [|destruct ctxErr; [|destruct (_ <? _); [|done]]]; injection E as <-; rewrite ?weight_complete;
      unfold weight, stageWeight, unsent; cbn -[Nat.mul]; rewrite Ec, ?length_app; cbn -[Nat.mul]; lia.
  - unfold receiveBatch in E. destruct (ls_workers s !! w) as [[| | | |]|] eqn:Ew; try done. destruct (ls_jobs s) as [|[g tasks] jobs] eqn:Ej.
    + destruct (jobsClosed s); [|done]. injection E as <-. eapply (weight_worker w Exited Idle []); try done. cbn. rewrite Ej. cbn. lia.
    + injection E as <-. eapply (weight_worker w (Filtering g tasks []) Idle jobs); try done. rewrite Ej. cbn. unfold jobWeight. cbn. lia.
  - unfold filterStep in E. destruct (ls_workers s !! w) as [[|g [|t tasks] active| | |]|] eqn:Ew; try done.
    + injection E as <-. eapply (weight_worker w _ _ (ls_jobs s)); try done. destruct active; cbn; lia.
    + destruct ctxErr; injection E as <-; rewrite ?weight_complete.
      * eapply (weight_worker w (Filtering g tasks active) _ (ls_jobs s)); try done. cbn. lia.
      * eapply (weight_worker w (Filtering g tasks (active ++ [t])) _ (ls_jobs s)); try done. cbn. rewrite length_app. cbn. lia.
  - unfold answerBatch in E. destruct (ls_workers s !! w) as [[|g tasks active|g active| |]|] eqn:Ew; try done. cbv zeta in E.
    destruct (runAttempts _ _ _ _) as [answer attempts]. injection E as <-.
    destruct (worker_OK w _ s Hc Ew) as [Hne _]. eapply (weight_worker w _ _ (ls_jobs s)); try done. cbn.
    rewrite <- (length_fmap fst), completeBatch_tasks. destruct active; [done|]. cbn. lia.
  - unfold completeStep in E. destruct (ls_workers s !! w) as [[| | |[|[t r] results]|]|] eqn:Ew; try done; injection E as <-; rewrite ?weight_complete.
    + eapply (weight_worker w Idle _ (ls_jobs s)); try done. cbn. lia.
    + eapply (weight_worker w (Completing results) _ (ls_jobs s)); try done. cbn. lia.
  - unfold Close in E. destruct (ls_closed s) eqn:Ec; [done|]. injection E as <-. unfold weight, unsent, stageWeight. cbn -[Nat.mul]. rewrite Ec. lia.
Qed.

Lemma weight_execAll ops : forall s s', lookupInv s -> execAll config ops s = Some s' -> Forall (fun op => newKey op = false) ops ->
  (length ops + weight s' <= weight s)%nat.
Proof.
  induction ops as [|op ops IH]; intros s s' H E F; cbn in E; [simplify_eq; cbn; lia|].
  destruct (exec config op s) as [s1|] eqn:E1; [|done]. cbn in E. apply Forall_cons in F as [Fo F].
  pose proof (weight_exec op s s1 H E1 Fo). specialize (IH s1 s' (lookupInv_exec op s s1 H E1) E F). cbn. lia.
Qed.

(** ** Something can always be done *)

(** The steps the program takes on its own. *)
Definition internal (op : lookupOp) : bool := match op with OpAcquire _ _ _ | OpClose => false | _ => true end.

Definition canStep (s : schedulerState) : Prop := exists op s', exec config op s = Some s' /\ internal op = true.

(** There is room in the queue for whoever holds a slot: the send never waits. *)
Lemma queue_room s t : tasksOK [] s -> t ∈ ls_holding s -> glen (ls_queue s) < lk_MaxQueuedKeys config.
Proof.
  intros Ht Hi. destruct (tok_slots _ _ Ht) as [Hs Hm]. pose proof (tok_nodup _ _ Ht) as Hn. unfold accepted in Hn.
  rewrite app_assoc in Hn. apply NoDup_app in Hn as [Hn _].
  assert (Hl : (length (ls_holding s ++ ls_queue s) <= size (openTasks (ls_tasks s)))%nat).
  { rewrite <- (size_list_to_set (C := gset nat)), <- size_dom by done. apply subseteq_size. intros x Hx. rewrite elem_of_list_to_set in Hx.
    destruct (tok_open _ _ Ht x Hx) as (task & E & O). apply elem_of_dom. exists task. by apply map_lookup_filter_Some. }
  rewrite length_app in Hl. assert (0 < length (ls_holding s))%nat by (destruct (ls_holding s); [by apply not_elem_of_nil in Hi|cbn; lia]).
  unfold glen. lia.
Qed.

Lemma range_some groups : exists order, rangeOrder groups order = true.
Proof.
  exists (map_to_list groups).*1. unfold rangeOrder. rewrite !bool_decide_true; [done| |apply NoDup_fst_map_to_list].
  apply set_eq. intros g. rewrite elem_of_list_to_set, elem_of_dom. split.
  - intros ([g' l] & -> & El)%list_elem_of_fmap. apply elem_of_map_to_list in El. by eexists.
  - intros [l El]. apply list_elem_of_fmap. exists (g, l). split; [done|]. by apply elem_of_map_to_list.
Qed.

Lemma can_work s w y : ls_workers s !! w = Some y -> y <> Idle -> y <> Exited -> canStep s.
Proof.
  intros E Hi He. destruct y as [|g tasks active|g active|results|]; try done.
  - exists (OpFilter w None). cbn. unfold filterStep. rewrite E. destruct tasks; by eexists.
  - exists (OpAnswer w (MkLookupEnv (fun _ _ _ => inr (Plain ErrClosed)) (fun _ _ _ => inr (Plain ErrClosed)) (fun _ => None) (fun _ => None))).
    cbn. unfold answerBatch. rewrite E. cbv zeta. destruct (runAttempts _ _ _ _). by eexists.
  - exists (OpComplete w). cbn. unfold completeStep. rewrite E. destruct results as [|[t r] results]; by eexists.
Qed.

Lemma can_receive s w y : ls_workers s !! w = Some y -> y <> Exited -> ls_jobs s <> [] \/ jobsClosed s = true -> canStep s.
Proof.
  intros E He Hj. destruct y as [|g tasks active|g active|results|]; try done; try (by eapply can_work).
  exists (OpReceiveBatch w). cbn. unfold receiveBatch. rewrite E. destruct (ls_jobs s) as [|[g tasks] jobs]; [|by eexists].
  destruct Hj as [?|Hj]; [done|]. rewrite Hj. by eexists.
Qed.

Lemma first_worker s : controlOK s -> exists y, ls_workers s !! 0%nat = Some y.
Proof.
  intros H. pose proof (cok_workers s H). pose proof (lco_requests _ configOK). destruct (ls_workers s) as [|y ws]; [cbn in *; lia|]. by exists y.
Qed.

Lemma can_take_job s : controlOK s -> ls_jobs s <> [] -> canStep s.
Proof.
  intros H Hj. destruct (first_worker s H) as [y E]. apply (can_receive s 0 y); [done| |by left].
  intros ->. destruct (cok_exited s H) as [_ Hn]; [by eapply list_elem_of_lookup_2|done].
Qed.

Lemma can_dispatch s group tasks more : controlOK s -> ls_stage s = Dispatching group tasks more -> canStep s.
Proof.
  intros H E. destruct tasks as [|t tasks].
  - exists OpDispatched. cbn. unfold dispatched. rewrite E. by eexists.
  - destruct (Z.ltb_spec (glen (ls_jobs s)) (lk_MaxInFlightRequests config)) as [Hlt|Hge].
    + exists OpSendBatch. cbn. unfold sendBatch. rewrite E. destruct (Z.ltb_spec (glen (ls_jobs s)) (lk_MaxInFlightRequests config)); [by eexists|lia].
    + apply can_take_job; [done|]. intros Hn. rewrite Hn in Hge. pose proof (lco_requests _ configOK). rewrite glen_nil in Hge. lia.
Qed.

Lemma can_shutdown s : match ls_stage s with Failing _ | Draining => True | _ => False end -> canStep s.
Proof.
  intros H. exists OpShutdown. cbn. unfold shutdownStep. destruct (ls_stage s) as [| |[|t tasks]| | |]; try done; try (by eexists).
  destruct (ls_queue s); by eexists.
Qed.

(** A worker that has tasks is at work. *)
Lemma can_finish s t : t ∈ concat (workerTasks <$> ls_workers s) -> canStep s.
Proof.
  rewrite list_elem_of_In, in_concat. intros (l & Hl%list_elem_of_In & Ht%list_elem_of_In). apply list_elem_of_fmap in Hl as (y & -> & Hy).
  apply list_elem_of_lookup in Hy as [w E]. apply (can_work s w y E); intros ->; by apply not_elem_of_nil in Ht.
Qed.

Lemma can_serve_requested s t : controlOK s -> t ∈ requested s -> canStep s.
Proof.
  intros Hc [Ht|Ht]%elem_of_app; [|by eapply can_finish]. apply can_take_job; [done|]. intros Hn. rewrite Hn in Ht. by apply not_elem_of_nil in Ht.
Qed.

Lemma open_can_step s t : lookupInv s -> isOpen s t -> canStep s.
Proof.
  intros [Ht Hc Hs] Ho. destruct (ls_stage s) as [|g tasks more| | | |] eqn:Es.
  all: try (by eapply can_dispatch); try (apply can_shutdown; by rewrite Es).
  all: pose proof (tok_covered _ _ Ht t Ho) as Hi; unfold failing in Hi; rewrite Es, !app_nil_r in Hi; unfold accepted in Hi.
  all: apply elem_of_app in Hi as [Hi|Hi].
  all: try (exists (OpEnqueue t None); cbn; unfold enqueue; rewrite bool_decide_true by done; destruct (ls_closed s); [by eexists|];
    pose proof (queue_room s t Ht Hi); destruct (Z.ltb_spec (glen (ls_queue s)) (lk_MaxQueuedKeys config)); [by eexists|lia]).
  all: apply elem_of_app in Hi as [Hi|Hi]; [|apply elem_of_app in Hi as [Hi|Hi]; [|by eapply can_serve_requested]].
  - destruct (ls_queue s) as [|t' queue] eqn:Eq; [by apply not_elem_of_nil in Hi|].
    destruct (tok_open _ _ Ht t') as (task & E & _); [rewrite Eq; mem|].
    exists (OpReceiveTask None). cbn. unfold receiveTask. rewrite Es, Eq. cbn. rewrite E. by eexists.
  - unfold unsent in Hi. rewrite Es in Hi. apply elem_of_flatten in Hi as [g Hg]. destruct (range_some (ls_groups s)) as [order Hr].
    pose proof (cok_armed s Hc) as Ha. rewrite Es in Ha. exists (OpFire order). cbn. unfold fire. rewrite Es, Hr.
    unfold groupTasks in Hg. destruct (ls_groups s !! g) as [l|] eqn:El; [|by apply not_elem_of_nil in Hg]. rewrite (Ha g) by eauto. by eexists.
  - rewrite (cok_drained s Hc) in Hi by (unfold jobsClosed; by rewrite Es). by apply not_elem_of_nil in Hi.
  - unfold unsent in Hi. rewrite Es in Hi. by apply not_elem_of_nil in Hi.
  - rewrite (cok_drained s Hc) in Hi by (unfold jobsClosed; by rewrite Es). by apply not_elem_of_nil in Hi.
  - unfold unsent in Hi. rewrite Es in Hi. by apply not_elem_of_nil in Hi.
Qed.

Lemma closed_can_step s : lookupInv s -> ls_closed s = true -> ls_stage s <> Stopped -> canStep s.
Proof.
  intros [Ht Hc Hs] Hcl Hst. destruct (ls_stage s) as [|g tasks more| | | |] eqn:Es; try done.
  all: try (by eapply can_dispatch); try (apply can_shutdown; by rewrite Es).
  - destruct (range_some (ls_groups s)) as [order Hr]. exists (OpNoticeClosed order). cbn. unfold noticeClosed. rewrite Es, Hcl, Hr. by eexists.
  - destruct (forallb (fun w => match w with Exited => true | _ => false end) (ls_workers s)) eqn:F.
    + exists OpShutdown. cbn. unfold shutdownStep. rewrite Es, F. by eexists.
    + assert (exists w y, ls_workers s !! w = Some y /\ y <> Exited) as (w & y & E & Hy).
      { clear -F. induction (ls_workers s) as [|y ws IH]; [done|]. cbn in F. destruct y as [|g tasks active|g active|results|]; try (by exists 0%nat; eexists).
        destruct (IH F) as (w & y & E & Hy). by exists (S w), y. }
      apply (can_receive s w y); [done|done|right; unfold jobsClosed; by rewrite Es].
Qed.

(** All done: no key is open, and a closed lookuper has stopped. *)
Definition settled (s : schedulerState) : Prop := (forall t, ~ isOpen s t) /\ (ls_closed s = true -> ls_stage s = Stopped).

End Invariant.
