(* ===== verification/LookupProperties.v ===== *)
(** * What the lookup scheduler promises

    The theorems of [LookupScheduler]: no key is asked for twice, every value goes to the key it
    was asked for, the limits hold, and every accepted key is answered. *)

From S2P Require Import Prelude Model Bucket Errors WriterRetry Client KVWriter Lookup LookupScheduler.

(** ** One request per key *)

Lemma retryLoop_value {T} policy mutation (call : Z -> T + callError) ctxErr waiting turns : forall attempt v n,
  retryLoop policy mutation call ctxErr waiting turns attempt = (inl v, n) -> call n = inl v.
Proof.
  induction turns as [|turns IH]; intros attempt v n H; cbn [retryLoop] in H; [done|].
  destruct (call attempt) as [v'|e] eqn:E; [by injection H as <- <-|]. destruct (_ || _); [done|]. cbv zeta in H.
  destruct (waitContext _ _); [done|]. by eapply IH.
Qed.

(** How often a request is made. *)
Lemma retryLookup_attempts {T} policy mutation (call : Z -> T + callError) ctxErr waiting : 1 <= cr_MaxAttempts policy ->
  let n := (retryLookup policy mutation call ctxErr waiting).2 in 1 <= n <= cr_MaxAttempts policy /\ (mutation = true -> n = 1).
Proof.
  intros H. pose proof (retryLoop_attempts policy mutation call ctxErr waiting (Z.to_nat (cr_MaxAttempts policy)) 1) as Hr.
  unfold retryLookup. destruct (retryLoop _ _ _ _ _ _ _) as [result n]. cbn.
  destruct Hr as (Hn & Hm & _); [lia|lia|done|intros k Hk; lia|done].
Qed.

Lemma runAttempts_attempts config env group keys : 1 <= cr_MaxAttempts (lk_RetryPolicy config) ->
  let n := (runAttempts config env group keys).2 in
  1 <= n <= cr_MaxAttempts (lk_RetryPolicy config) /\ (lk_InsertIfNotExists config = true -> group.1 = pointLookupMode -> n = 1).
Proof.
  intros H. unfold runAttempts, runPointAttempts, runPrefixAttempts. destruct (group.1); cbn zeta.
  - match goal with |- context[retryLookup ?p ?m ?call ?c ?w] => pose proof (retryLookup_attempts p m call c w H) as Hr; destruct (retryLookup p m call c w) end.
    cbn in *. naive_solver.
  - match goal with |- context[retryLookup ?p ?m ?call ?c ?w] => pose proof (retryLookup_attempts p m call c w H) as Hr; destruct (retryLookup p m call c w) end.
    cbn in *. naive_solver.
Qed.

(** C27: No key is asked for twice.  In every run, the requests sent so far are for distinct keys:
    accepted keys never share a request's place, whatever the callers, the timer, the workers and
    [Close] do meanwhile.  A request holds at least one key and no more than [MaxBatchKeys], all
    of one mode and for one bucket, in the encoding of their callers.  It is attempted at least once
    and at most [MaxAttempts] times, and exactly once when it may insert missing rows. *)
Theorem lookup_asked_once options config s :
  lookupConfig options = Ok config -> reachable config s ->
  NoDup (concat (sl_tasks <$> ls_served s)) /\
  Forall (fun e => 0 < glen (sl_keys e) <= lk_MaxBatchKeys config /\
    Forall2 (fun t key => exists task, ls_tasks s !! t = Some task /\ groupOf task = sl_group e /\ tk_encoded task = key)
      (sl_tasks e) (sl_keys e) /\
    1 <= sl_attempts e <= cr_MaxAttempts (lk_RetryPolicy config) /\
    (lk_InsertIfNotExists config = true -> fst (sl_group e) = pointLookupMode -> sl_attempts e = 1)) (ls_served s).
Proof.
  intros [Hc Hi]%lookupConfig_OK Hr. pose proof (inv_served config s (lookup_reachable_inv config Hc s Hr)) as [He Ho _ _ _]. split; [done|].
  eapply Forall_impl; [exact He|]. intros e (Hne & [Hb Hl] & Hk & Ha). cbn [fst snd] in Hb, Hl.
  pose proof (runAttempts_attempts config (sl_env e) (sl_group e) (sl_keys e) (proj1 (lco_attempts _ Hc))) as Hn. rewrite Ha in Hn. cbn in Hn.
  split_and!; try apply Hn.
  - pose proof (Forall2_length _ _ _ Hk) as Hlen. unfold glen in *. destruct (sl_tasks e), (sl_keys e); cbn in *; try done; lia.
  - unfold glen in *. by rewrite <- (Forall2_length _ _ _ Hk).
  - clear -Hb Hk. revert Hb. induction Hk as [|t key tasks keys (task & E & Ek) Hk IH]; intros Hb; [constructor|].
    apply Forall_cons in Hb as [(task' & E' & G) Hb]. constructor; [|by apply IH]. exists task. split_and!; [done|congruence|done].
Qed.

(** ** Every value goes to its key *)

Lemma checkLookupReply_inl {V} api bucket keys (reply : list (lookupReply V)) values :
  checkLookupReply api bucket keys reply = inl values ->
  exists result, reply = [result] /\ ly_BucketId result = bucket /\ ly_Values result = values /\ length values = length keys.
Proof.
  unfold checkLookupReply. destruct reply as [|result [|? ?]]; try done. destruct (ly_BucketId result =? bucket) eqn:Eb; [|done].
  cbn [negb]. destruct (responseServerError _ _ _); [done|]. destruct (glen (ly_Values result) =? glen keys) eqn:El; [|done].
  cbn [negb]. intros [= <-]. exists result. unfold glen in El. split_and!; [done|lia|done|lia].
Qed.

(** The reply that request [e] took its answer from, the server's to the last attempt, has [value]
    for key [i]: it is the one result of the reply, for the bucket asked, with a value per key. *)
Definition pointReply (e : servedLookup) (i : nat) (value : option (list byte)) : Prop :=
  exists (result : lookupReply (option (list byte))) v,
    le_point (sl_env e) (sl_group e).2 (sl_keys e) (sl_attempts e) = inl [result] /\ ly_BucketId result = (sl_group e).2 /\
    length (ly_Values result) = length (sl_keys e) /\ ly_Values result !! i = Some v /\ value = v ≫= copyBytes.

Definition prefixReply (e : servedLookup) (i : nat) (rows : list (list byte)) : Prop :=
  exists (result : lookupReply (list (list byte))),
    le_prefix (sl_env e) (sl_group e).2 (sl_keys e) (sl_attempts e) = inl [result] /\ ly_BucketId result = (sl_group e).2 /\
    length (ly_Values result) = length (sl_keys e) /\ ly_Values result !! i = Some rows.

Lemma served_value config e values i r :
  runAttempts config (sl_env e) (sl_group e) (sl_keys e) = (inl values, sl_attempts e) -> values !! i = Some r ->
  match (sl_group e).1 with
  | pointLookupMode => pointReply e i (raw_value r) /\ raw_rows r = []
  | prefixLookupMode => prefixReply e i (raw_rows r) /\ raw_value r = None
  end.
Proof.
  unfold runAttempts. destruct ((sl_group e).1).
  - unfold runPointAttempts, retryLookup. destruct (retryLoop _ _ _ _ _ _ _) as [[vs|] n] eqn:E; [|done]. intros [= <- ->] Hi.
    apply retryLoop_value in E. destruct (le_point _ _ _ _) as [reply|] eqn:Er; [|done]. unfold lookupValues in E.
    destruct (checkLookupReply _ _ _ _) as [vs'|] eqn:Ec; [|done]. injection E as <-.
    apply checkLookupReply_inl in Ec as (result & -> & Hb & <- & Hl).
    rewrite list_lookup_fmap, list_lookup_fmap in Hi. destruct (ly_Values result !! i) as [v|] eqn:Ev; [|done].
    injection Hi as <-. split; [|done]. by exists result, v.
  - unfold runPrefixAttempts, retryLookup. destruct (retryLoop _ _ _ _ _ _ _) as [[vs|] n] eqn:E; [|done]. intros [= <- ->] Hi.
    apply retryLoop_value in E. destruct (le_prefix _ _ _ _) as [reply|] eqn:Er; [|done]. unfold prefixLookupValues in E.
    apply checkLookupReply_inl in E as (result & -> & Hb & <- & Hl).
    rewrite list_lookup_fmap in Hi. destruct (ly_Values result !! i) as [v|] eqn:Ev; [|done].
    injection Hi as <-. split; [|done]. by exists result.
Qed.

(** C28: Every value goes to the key it was asked for.  When the result of an accepted key is not an
    error, some request for the key's mode and bucket had the key's encoding at a place [i] of
    its keys, and what the result holds is what the server's reply to the last attempt at this
    request, a reply for that bucket and with a value per key, had at place [i]: bytes or nothing
    for a full key, rows for a prefix. *)
Theorem lookup_own_value options config s t task r :
  lookupConfig options = Ok config -> reachable config s ->
  ls_tasks s !! t = Some task -> tk_result task = Some r -> raw_err r = None ->
  exists e i, e ∈ ls_served s /\ sl_group e = groupOf task /\ sl_tasks e !! i = Some t /\ sl_keys e !! i = Some (tk_encoded task) /\
    match tk_mode task with
    | pointLookupMode => pointReply e i (raw_value r) /\ raw_rows r = []
    | prefixLookupMode => prefixReply e i (raw_rows r) /\ raw_value r = None
    end.
Proof.
  intros [Hc _]%lookupConfig_OK Hr Et Er Hok. pose proof (inv_served config s (lookup_reachable_inv config Hc s Hr)) as [He _ _ Hres _].
  destruct (Hres t task r Et Er) as [[? ?]|(e & values & i & Hin & Ha & Hti & Hvi)]; [congruence|].
  rewrite Forall_forall in He. destruct (He e Hin) as (_ & [Hb _] & Hk & Henv). cbn [fst snd] in Hb.
  rewrite Forall_lookup in Hb. destruct (Hb i t Hti) as (task' & E' & G). assert (task' = task) as -> by congruence.
  destruct (Forall2_lookup_l _ _ _ _ _ Hk Hti) as (key & Hki & task' & E'' & Ek). assert (task' = task) as -> by congruence. subst key.
  exists e, i. split_and!; try done. rewrite Ha in Henv.
  pose proof (served_value config e values i r Henv Hvi) as Hv. rewrite <- G in Hv. exact Hv.
Qed.

(** ** The limits *)

Definition inRequest (w : workerStage) : bool := match w with Calling _ _ => true | _ => false end.

(** The limits hold in every run: no more than [MaxQueuedKeys] keys are accepted and not
    answered, which is what the slots count; no more than [MaxInFlightRequests] requests are
    under way and as many batches wait for a worker, each of them of at most [MaxBatchKeys]
    keys; and a caller with a slot finds room in the queue. *)
Theorem lookup_limits options config s :
  lookupConfig options = Ok config -> reachable config s ->
  (ls_slots s = Z.of_nat (size (openTasks (ls_tasks s))) /\ ls_slots s <= lk_MaxQueuedKeys config) /\
  glen (filter (fun w => inRequest w = true) (ls_workers s)) <= lk_MaxInFlightRequests config /\
  glen (ls_jobs s) <= lk_MaxInFlightRequests config /\
  Forall (fun job => glen job.2 <= lk_MaxBatchKeys config) (ls_jobs s) /\
  forall t, t ∈ ls_holding s -> glen (ls_queue s) < lk_MaxQueuedKeys config.
Proof.
  intros [Hc _]%lookupConfig_OK Hr. destruct (lookup_reachable_inv config Hc s Hr) as [Ht Hctl _].
  split; [apply (tok_slots _ _ _ Ht)|]. split_and!.
  - pose proof (length_filter (fun w => inRequest w = true) (ls_workers s)) as Hl.
    rewrite (cok_workers _ _ Hctl) in Hl. pose proof (lco_requests _ Hc). unfold glen. lia.
  - apply (cok_room _ _ Hctl).
  - eapply Forall_impl; [exact (cok_jobs _ _ Hctl)|]. by intros b [_ ?].
  - intros t. by apply (queue_room config).
Qed.

(** ** Every key is answered *)

Lemma settled_or_step config s : lookupConfigOK config -> lookupInv config s -> settled s \/ canStep config s.
Proof.
  intros Hc Hi. destruct (decide (map_Forall (fun (_ : nat) task => tk_result task <> None) (ls_tasks s))) as [Hall|Hopen].
  - destruct (ls_closed s) eqn:Hcl.
    + destruct (ls_stage s) eqn:Es; try (right; apply closed_can_step; [done..|by rewrite Es]).
      left. split; [|done]. intros t (task & E & Hn). by apply (Hall t task E).
    + left. split; [|congruence]. intros t (task & E & Hn). by apply (Hall t task E).
  - apply map_not_Forall in Hopen as (t & task & E & Hn); [|apply _]. right. apply (open_can_step config Hc s t Hi).
    exists task. split; [done|]. destruct (tk_result task); [by destruct Hn|done].
Qed.

Lemma settle config (Hc : lookupConfigOK config) n : forall s, lookupInv config s -> (weight s <= n)%nat ->
  exists ops s', execAll config ops s = Some s' /\ Forall (fun op => internal op = true) ops /\ settled s'.
Proof.
  induction n as [|n IH]; intros s Hi Hw; (destruct (settled_or_step config s Hc Hi) as [Hs|(op & s1 & E & Hop)]; [by exists [], s|]);
    assert (Hlt : (weight s1 < weight s)%nat) by (apply (weight_exec config Hc op); [done|done|by destruct op]); [lia|].
  destruct (IH s1) as (ops & s' & E' & F & Hs); [by eapply lookupInv_exec|lia|].
  exists (op :: ops), s'. cbn. rewrite E. cbn. split_and!; try done. by constructor.
Qed.

(** C29: Every accepted key is answered.  From every state a run can reach, the steps that callers,
    scheduler and workers take on their own lead to a state where no accepted key is left
    without its result, and where a lookuper that was closed has stopped; and as long as no new
    key is accepted a run takes a bounded number of steps, so that it gets there whichever way
    the steps interleave. *)
Theorem lookup_progress options config s :
  lookupConfig options = Ok config -> reachable config s ->
  (exists ops s', execAll config ops s = Some s' /\ Forall (fun op => internal op = true) ops /\ settled s') /\
  (forall s', reachable config s' -> settled s' \/ canStep config s') /\
  (forall ops s', execAll config ops s = Some s' -> Forall (fun op => newKey op = false) ops -> (length ops <= weight s)%nat).
Proof.
  intros [Hc _]%lookupConfig_OK Hr. pose proof (lookup_reachable_inv config Hc s Hr) as Hi. split_and!.
  - by apply (settle config Hc (weight s)).
  - intros s' Hr'. apply settled_or_step; [done|]. by apply lookup_reachable_inv.
  - intros ops s' E F. pose proof (weight_execAll config Hc ops s s' Hi E F). lia.
Qed.

(** [Close] forgets nothing.  Once the scheduler has stopped, which is what [Close] waits for,
    nothing is queued, waiting or in the hands of a worker, every worker is gone, and the only
    keys without a result are those of callers that hold a slot and have still to find the
    lookuper closed. *)
Theorem lookup_closed options config s :
  lookupConfig options = Ok config -> reachable config s -> ls_stage s = Stopped ->
  ls_closed s = true /\ ls_queue s = [] /\ ls_jobs s = [] /\ Forall (fun w => w = Exited) (ls_workers s) /\
  (forall t, isOpen s t -> t ∈ ls_holding s) /\
  forall t ctxErr, t ∈ ls_holding s -> exists s', enqueue config t ctxErr s = Some s' /\
    exists task, ls_tasks s' !! t = Some task /\ tk_result task = Some (failed (Plain ErrClosed)).
Proof.
  intros [Hc _]%lookupConfig_OK Hr Es. destruct (lookup_reachable_inv config Hc s Hr) as [Ht Hctl _].
  assert (Hj : jobsClosed s = true) by (unfold jobsClosed; by rewrite Es).
  pose proof (cok_drained _ _ Hctl Hj) as Hq. pose proof (cok_stopped _ _ Hctl Es) as Hw. pose proof (cok_closed _ _ Hctl) as Hcl. rewrite Es in Hcl.
  destruct (first_worker config Hc s Hctl) as [y Ey]. rewrite Forall_lookup in Hw. assert (y = Exited) as -> by (by eapply Hw).
  destruct (cok_exited _ _ Hctl) as [_ Hjobs]; [by eapply list_elem_of_lookup_2|]. rewrite <- Forall_lookup in Hw. split_and!; try done.
  - intros t Ho. apply (tok_covered _ _ _ Ht) in Ho. unfold failing, accepted, unsent, requested in Ho. rewrite Es, Hq, Hjobs in Ho.
    assert (concat (workerTasks <$> ls_workers s) = []) as Hnil.
    { clear -Hw. induction Hw as [|w ws -> _ IH]; [done|]. cbn. exact IH. }
    rewrite Hnil in Ho. cbn in Ho. mem.
  - intros t ctxErr Hi. unfold enqueue. rewrite bool_decide_true, Hcl by done. eexists. split; [done|].
    destruct (tok_open _ _ _ Ht t) as (task & E & O); [mem|]. unfold complete. cbn [ls_tasks setQueue]. rewrite E, O.
    eexists. cbn. by rewrite lookup_insert_eq.
Qed.

(** ** A run

    A lookuper with batches of two keys, one request at a time and three keys in all: two keys
    for bucket 1 fill a batch, a third waits for the timer. *)

Definition runOptions : list (option LookupOption) := [Some (WithLookupBatchLimits 2 1); Some (WithLookupQueue 3 millisecond)].

Definition runConfig : LookupConfig :=
  match lookupConfig runOptions with Ok c => c | _ => defaultLookupConfig end.

Definition stateAfter (ops : list lookupOp) : schedulerState :=
  match execAll runConfig ops (newScheduler runConfig) with Some s => s | None => newScheduler runConfig end.

Lemma stateAfter_reachable ops : is_Some (execAll runConfig ops (newScheduler runConfig)) -> reachable runConfig (stateAfter ops).
Proof. intros [s E]. exists ops. unfold stateAfter. by rewrite E. Qed.

Definition runEnv : lookupEnv :=
  MkLookupEnv (fun _ _ _ => inl [MkLookupReply 1 0 "" [Some [Byte.x03; Byte.x00]; None]]) (fun _ _ _ => inr (Plain ErrClosed))
    (fun _ => None) (fun _ => None).

Definition runOps : list lookupOp :=
  [OpAcquire pointLookupMode 1 [Byte.x61]; OpAcquire pointLookupMode 1 [Byte.x62]; OpEnqueue 1 None; OpEnqueue 0 None;
   OpReceiveTask None; OpReceiveTask None; OpSendBatch; OpDispatched; OpAcquire pointLookupMode 2 [Byte.x63]; OpEnqueue 2 None;
   OpReceiveTask None; OpReceiveBatch 0; OpFilter 0 None; OpFilter 0 None; OpFilter 0 None; OpAnswer 0 runEnv; OpComplete 0].

(** The batch is in the order the keys were queued in; key 1 has its value. *)
Example runOps_state :
  let s := stateAfter runOps in
  map sl_tasks (ls_served s) = [[1%nat; 0%nat]] /\ ls_slots s = 2 /\ ls_armed s = true /\
  (tk_result <$> ls_tasks s !! 1%nat) = Some (Some (MkRawResult (Some [Byte.x03; Byte.x00]) [] None)).
Proof. vm_compute. done. Qed.

Definition closeOps : list lookupOp :=
  runOps ++ [OpAcquire pointLookupMode 1 [Byte.x64]; OpClose; OpNoticeClosed [(pointLookupMode, 2)]; OpShutdown; OpShutdown; OpComplete 0;
             OpShutdown; OpComplete 0; OpReceiveBatch 0; OpShutdown].

Lemma lookup_asked_once_witness :
  let s := stateAfter runOps in
  concat (sl_tasks <$> ls_served s) = [1%nat; 0%nat] /\
  NoDup (concat (sl_tasks <$> ls_served s)) /\
  Forall (fun e => 0 < glen (sl_keys e) <= lk_MaxBatchKeys runConfig /\
    Forall2 (fun t key => exists task, ls_tasks s !! t = Some task /\ groupOf task = sl_group e /\ tk_encoded task = key)
      (sl_tasks e) (sl_keys e) /\
    1 <= sl_attempts e <= cr_MaxAttempts (lk_RetryPolicy runConfig) /\
    (lk_InsertIfNotExists runConfig = true -> fst (sl_group e) = pointLookupMode -> sl_attempts e = 1)) (ls_served s).
Proof.
  split; [vm_compute; reflexivity|]. apply (lookup_asked_once runOptions); [vm_compute; reflexivity|].
  apply stateAfter_reachable. vm_compute. by eexists.
Defined.

Lemma lookup_own_value_witness :
  let s := stateAfter runOps in
  let task := MkLookupTask pointLookupMode 1 [Byte.x62] (Some (MkRawResult (Some [Byte.x03; Byte.x00]) [] None)) in
  exists e i, e ∈ ls_served s /\ sl_group e = groupOf task /\ sl_tasks e !! i = Some 1%nat /\ sl_keys e !! i = Some (tk_encoded task) /\
    pointReply e i (Some [Byte.x03; Byte.x00]) /\ [] = @nil (list byte).
Proof.
  apply (lookup_own_value runOptions runConfig (stateAfter runOps) 1
    (MkLookupTask pointLookupMode 1 [Byte.x62] (Some (MkRawResult (Some [Byte.x03; Byte.x00]) [] None)))
    (MkRawResult (Some [Byte.x03; Byte.x00]) [] None)); try (vm_compute; reflexivity).
  apply stateAfter_reachable. vm_compute. by eexists.
Defined.

Lemma lookup_limits_witness :
  let s := stateAfter runOps in
  (ls_slots s = Z.of_nat (size (openTasks (ls_tasks s))) /\ ls_slots s <= lk_MaxQueuedKeys runConfig) /\
  glen (filter (fun w => inRequest w = true) (ls_workers s)) <= lk_MaxInFlightRequests runConfig /\
  glen (ls_jobs s) <= lk_MaxInFlightRequests runConfig /\
  Forall (fun job => glen job.2 <= lk_MaxBatchKeys runConfig) (ls_jobs s) /\
  forall t, t ∈ ls_holding s -> glen (ls_queue s) < lk_MaxQueuedKeys runConfig.
Proof.
  apply (lookup_limits runOptions); [vm_compute; reflexivity|]. apply stateAfter_reachable. vm_compute. by eexists.
Defined.

Lemma lookup_progress_witness :
  let s := stateAfter runOps in
  (exists ops s', execAll runConfig ops s = Some s' /\ Forall (fun op => internal op = true) ops /\ settled s') /\
  (forall s', reachable runConfig s' -> settled s' \/ canStep runConfig s') /\
  (forall ops s', execAll runConfig ops s = Some s' -> Forall (fun op => newKey op = false) ops -> (length ops <= weight s)%nat).
Proof.
  apply (lookup_progress runOptions); [vm_compute; reflexivity|]. apply stateAfter_reachable. vm_compute. by eexists.
Defined.

Lemma lookup_closed_witness :
  let s := stateAfter closeOps in
  ls_holding s = [3%nat] /\ ls_closed s = true /\ ls_queue s = [] /\ ls_jobs s = [] /\ Forall (fun w => w = Exited) (ls_workers s) /\
  (forall t, isOpen s t -> t ∈ ls_holding s) /\
  forall t ctxErr, t ∈ ls_holding s -> exists s', enqueue runConfig t ctxErr s = Some s' /\
    exists task, ls_tasks s' !! t = Some task /\ tk_result task = Some (failed (Plain ErrClosed)).
Proof.
  split; [vm_compute; reflexivity|]. apply (lookup_closed runOptions); [vm_compute; reflexivity| |vm_compute; reflexivity].
  apply stateAfter_reachable. vm_compute. by eexists.
Defined.
