(* ===== verification/RemoteFiles.v ===== *)
(** * Remote files

    Models [pkg/fgo/remote_file.go] and the parts of [pkg/fgo/remote_snapshot.go] before and after
    its downloads: settings, the plan of a remote log read, the files of a snapshot, and reading
    one object with retries.  The downloads themselves are in RemoteDownload.v.

    The storage is the environment: a reader answers a request, for every attempt, with a stream,
    with bytes, or with an error.  Metrics are not modelled, and [int] has 64 bits. *)

From Stdlib Require Import Ascii.
From stdpp Require Import pretty.
From S2P Require Import Prelude Model Errors SecurityToken.

(** ** Errors

    What [errors.Is] and [errors.As] find: the sentinels of the chain, and the answers of
    [Temporary] and of a network error's [Timeout] where there are such errors. *)
Inductive remoteSentinel :=
| SentCanceled | SentDeadline | SentInvalidConfig | SentValidation | SentUnsupported | SentMalformed
| SentNotExist | SentPermission | SentUnexpectedEOF | SentEOF.

#[export] Instance remoteSentinel_eq_dec : EqDecision remoteSentinel.
Proof. solve_decision. Defined.

Record remoteError := MkRemoteError {
  re_chain : list remoteSentinel;
  re_temporary : option bool;
  re_timeout : option bool;
}.

Definition errorOf (s : remoteSentinel) : remoteError := MkRemoteError [s] None None.
Definition sizeMismatch : remoteError := MkRemoteError [SentValidation; SentUnexpectedEOF] None None.

Definition isError (e : remoteError) (s : remoteSentinel) : bool := bool_decide (s ∈ re_chain e).

Definition remoteReadTemporary (e : remoteError) : bool :=
  if isError e SentCanceled || isError e SentDeadline || isError e SentInvalidConfig || isError e SentValidation
     || isError e SentUnsupported || isError e SentNotExist || isError e SentPermission
  then isError e SentUnexpectedEOF
  else if isError e SentUnexpectedEOF then true
  else match re_temporary e with
       | Some temporary => temporary
       | None => match re_timeout e with Some timeout => timeout | None => false end
       end.

(** ** Settings *)

Record RemoteFileReadConfig := MkRemoteConfig {
  rf_MaxAttempts : Z;
  rf_RetryBackoff : Z;
  rf_MaxFileBytes : Z;
  rf_MaxTotalBytes : Z;
  rf_MaxFiles : Z;
  rf_MaxConcurrentReads : Z;
  rf_MaxConcurrentBytes : Z;
}.

Definition defaultRemoteMaxFileBytes : Z := 2 ^ 28.

Definition remoteNormalized (c : RemoteFileReadConfig) : remoteError + RemoteFileReadConfig :=
  let attempts := orDefault (rf_MaxAttempts c) 3 in
  let backoff := orDefault (rf_RetryBackoff c) (50 * 10 ^ 6) in
  let fileBytes := orDefault (rf_MaxFileBytes c) defaultRemoteMaxFileBytes in
  let totalBytes := orDefault (rf_MaxTotalBytes c) (2 ^ 29) in
  let files := orDefault (rf_MaxFiles c) 4096 in
  let reads := orDefault (rf_MaxConcurrentReads c) 4 in
  let bytes := orDefault (rf_MaxConcurrentBytes c) defaultRemoteMaxFileBytes in
  if (attempts <? 1) || (10 <? attempts) || (backoff <? 0) || (60 * 10 ^ 9 <? backoff) || (fileBytes <? 1)
     || (totalBytes <? 1) || (files <? 1) || (1000000 <? files) || (reads <? 1) || (1024 <? reads) || (bytes <? 1)
  then inl (errorOf SentInvalidConfig)
  else inr (MkRemoteConfig attempts backoff fileBytes totalBytes files reads bytes).

(** ** The plan of a remote log read *)

Record RemoteLogSegment := MkRemoteSegment {
  rs_ID : string;
  rs_StartOffset : Z;
  rs_EndOffset : Z;
  rs_SizeBytes : Z;
  rs_MaxTime : Z;
}.

Record RemoteLogFetchInfo := MkRemoteInfo {
  ri_TabletDirectory : string;
  ri_PartitionName : string;
  ri_FirstStartPosition : Z;
  ri_Segments : list RemoteLogSegment;
}.

(** [slices.SortFunc] by offset; segments with the same offset are refused in every order. *)
Fixpoint insertRemote (s : RemoteLogSegment) (l : list RemoteLogSegment) : list RemoteLogSegment :=
  match l with
  | [] => [s]
  | s' :: l' => if rs_StartOffset s <=? rs_StartOffset s' then s :: l else s' :: insertRemote s l'
  end.
Definition sortRemote (l : list RemoteLogSegment) : list RemoteLogSegment := foldr insertRemote [] l.

(** The loop of [planRemoteLogSegments]; [first] is the position in the next segment. *)
Fixpoint planLoop (config : RemoteFileReadConfig) (segments : list RemoteLogSegment) (first previousEnd outputBytes : Z) : remoteError + Z :=
  match segments with
  | [] => inr outputBytes
  | s :: segments =>
    if bool_decide (rs_ID s = ""%string) || (rs_StartOffset s <? 0) || (rs_EndOffset s <=? rs_StartOffset s)
       || (rs_SizeBytes s <=? 0) || (rf_MaxFileBytes config <? rs_SizeBytes s) then inl (errorOf SentValidation)
    else if (0 <=? previousEnd) && negb (previousEnd =? rs_StartOffset s) then inl (errorOf SentValidation)
    else if rs_SizeBytes s <? first then inl (errorOf SentMalformed)
    else
      let retained := rs_SizeBytes s - first in
      if rf_MaxTotalBytes config - outputBytes <? retained then inl (errorOf SentValidation)
      else planLoop config segments 0 (rs_EndOffset s) (outputBytes + retained)
  end.

Definition planRemoteLogSegments (config : RemoteFileReadConfig) (info : RemoteLogFetchInfo) : remoteError + (list RemoteLogSegment * Z) :=
  if rf_MaxFiles config <? glen (ri_Segments info) then inl (errorOf SentValidation)
  else
    let segments := sortRemote (ri_Segments info) in
    match planLoop config segments (ri_FirstStartPosition info) (-1) 0 with
    | inl e => inl e
    | inr outputBytes => inr (segments, outputBytes)
    end.

(** [strings.TrimRight(directory, "/")]: the characters from the right, then from the left. *)
Fixpoint dropSlashes (l : list Ascii.ascii) : list Ascii.ascii :=
  match l with
  | c :: l' => if bool_decide (c = "/"%char) then dropSlashes l' else l
  | [] => []
  end.
Definition trimSlashes (s : string) : string := String.string_of_list_ascii (rev (dropSlashes (rev (String.list_ascii_of_string s)))).

(** [%020d] of a number that is not negative. *)
Definition padded (n : Z) : string :=
  let digits := pretty (Z.to_N n) in
  (String.string_of_list_ascii (replicate (20 - String.length digits) "0"%char) +:+ digits)%string.

Definition remoteLogSegmentPath (directory : string) (segment : RemoteLogSegment) : string :=
  (trimSlashes directory +:+ "/" +:+ rs_ID segment +:+ "/" +:+ padded (rs_StartOffset segment) +:+ ".log")%string.

(** ** Reading one object *)

Record RemoteFileRequest := MkRemoteRequest {
  rq_Path : string;
  rq_ExpectedSize : Z;
  rq_MaxBytes : Z;
  rq_Offset : Z;
  rq_Length : Z;
  rq_Token : option FileSystemSecurityToken;
}.

Definition setRange (offset length : Z) (r : RemoteFileRequest) : RemoteFileRequest :=
  MkRemoteRequest (rq_Path r) (rq_ExpectedSize r) (rq_MaxBytes r) offset length (rq_Token r).
Definition setMaxBytes (max : Z) (r : RemoteFileRequest) : RemoteFileRequest :=
  MkRemoteRequest (rq_Path r) (rq_ExpectedSize r) max (rq_Offset r) (rq_Length r) (rq_Token r).

(** A stream: the bytes it gives, how it ends ([None] is [io.EOF]), and what closing it returns. *)
Record remoteStream := MkRemoteStream {
  rm_bytes : list byte;
  rm_end : option remoteError;
  rm_close : option remoteError;
}.

(** A reader that opens ranges, or one that reads complete objects; [Z] is the attempt. *)
Inductive remoteReader :=
| StreamReader (open : Z -> RemoteFileRequest -> remoteError + remoteStream)
| LegacyReader (read : Z -> RemoteFileRequest -> remoteError + list byte).

(** What the downloads rely on: given the bytes of every object, a stream gives bytes of the object
    from the offset on, however many, and a complete read gives bytes from the object's start. *)
Class FaithfulReader (objects : string -> list byte) (reader : remoteReader) : Prop :=
  faithful_reader :
    match reader with
    | StreamReader open => forall attempt r stream, open attempt r = inr stream ->
        rm_bytes stream `prefix_of` drop (Z.to_nat (rq_Offset r)) (objects (rq_Path r))
    | LegacyReader read => forall attempt r data, read attempt r = inr data -> data `prefix_of` objects (rq_Path r)
    end.

(** [io.ReadFull] of [n] bytes. *)
Definition readFull (stream : remoteStream) (n : nat) : remoteError + list byte :=
  if (n <=? length (rm_bytes stream))%nat then inr (take n (rm_bytes stream))
  else match rm_end stream with
       | Some e => inl e
       | None => match rm_bytes stream with [] => inl (errorOf SentEOF) | _ => inl (errorOf SentUnexpectedEOF) end
       end.

(** [validateRemoteStreamEnd], after [n] bytes. *)
Definition validateRemoteStreamEnd (stream : remoteStream) (n : nat) : option remoteError :=
  match drop n (rm_bytes stream) with
  | _ :: _ => Some (errorOf SentValidation)
  | [] => match rm_end stream with
          | Some e => if isError e SentEOF then None else Some e
          | None => None
          end
  end.

Definition readRemoteFileStreamAttempt (opened : remoteError + remoteStream) (n : nat) : remoteError + list byte :=
  match opened with
  | inl e => inl e
  | inr stream =>
    match readFull stream n with
    | inl e => inl e
    | inr data =>
      match validateRemoteStreamEnd stream n with
      | Some e => inl e
      | None => match rm_close stream with Some e => inl e | None => inr data end
      end
    end
  end.

Definition readRemoteFileLegacyAttempt (answer : remoteError + list byte) (request : RemoteFileRequest) (n : nat) : remoteError + list byte :=
  match answer with
  | inl e => inl e
  | inr data =>
    if negb (glen data =? rq_ExpectedSize request) then inl sizeMismatch
    else if glen data <? rq_Offset request + Z.of_nat n then inl (errorOf SentValidation)
    else inr (take n (drop (Z.to_nat (rq_Offset request)) data))
  end.

Definition readRemoteFileAttempt (reader : remoteReader) (request : RemoteFileRequest) (n : nat) (attempt : Z) : remoteError + list byte :=
  if (rq_Offset request <? 0) || (rq_ExpectedSize request <? 0) || (rq_ExpectedSize request <? rq_Offset request)
     || (rq_ExpectedSize request - rq_Offset request <? Z.of_nat n) then inl (errorOf SentValidation)
  else match reader with
       | StreamReader open => readRemoteFileStreamAttempt (open attempt (setRange (rq_Offset request) (Z.of_nat n) request)) n
       | LegacyReader read => readRemoteFileLegacyAttempt (read attempt (setRange 0 0 request)) request n
       end.

Section Retry.
Context (config : RemoteFileReadConfig) (reader : remoteReader).

(** The error of the context after an attempt, and while waiting after it. *)
Context (ctxErr whileWaiting : Z -> option remoteError).

(** [readRemoteFileIntoWithRetry] into [n] bytes: their contents, or the error, when they are
    cleared.  [turns] are the attempts that are left. *)
Fixpoint readAttempts (turns : nat) (attempt : Z) (request : RemoteFileRequest) (n : nat) : remoteError + list byte :=
  match turns with
  | O => inl (errorOf SentInvalidConfig)
  | S turns =>
    match readRemoteFileAttempt reader request n attempt with
    | inr data => inr data
    | inl err =>
      match ctxErr attempt with
      | Some e => inl e
      | None =>
        if negb (remoteReadTemporary err) then inl err
        else if attempt =? rf_MaxAttempts config then inl err
        else match (if rf_RetryBackoff config <=? 0 then None else whileWaiting attempt) with
             | Some e => inl e
             | None => readAttempts turns (attempt + 1) request n
             end
      end
    end
  end.

Definition readRemoteFileIntoWithRetry (request : RemoteFileRequest) (n : nat) : remoteError + list byte :=
  readAttempts (Z.to_nat (rf_MaxAttempts config)) 1 (setMaxBytes (rf_MaxFileBytes config) request) n.

Definition readRemoteFileWithRetry (request : RemoteFileRequest) : remoteError + list byte :=
  if (rq_ExpectedSize request <=? 0) || (2 ^ 63 - 1 <? rq_ExpectedSize request) then inl (errorOf SentInvalidConfig)
  else
    let length := if rq_Length request =? 0 then rq_ExpectedSize request - rq_Offset request else rq_Length request in
    if (length <? 0) || (2 ^ 63 - 1 <? length) then inl (errorOf SentInvalidConfig)
    else readRemoteFileIntoWithRetry request (Z.to_nat length).

End Retry.

(** ** Downloads of a remote log

    A download: its size, and the range of an object it reads into as many bytes. *)
Record remoteDownloadJob := MkRemoteJob {
  jb_size : Z;
  jb_request : RemoteFileRequest;
}.

(** The jobs of [downloadRemoteLogSegments], each with its position in the result. *)
Fixpoint segmentJobs (directory : string) (token : option FileSystemSecurityToken) (segments : list RemoteLogSegment) (first position : Z)
    : list (remoteDownloadJob * Z) :=
  match segments with
  | [] => []
  | s :: segments =>
    let length := rs_SizeBytes s - first in
    (MkRemoteJob length (MkRemoteRequest (remoteLogSegmentPath directory s) (rs_SizeBytes s) 0 first length token), position)
      :: segmentJobs directory token segments 0 (position + length)
  end.

(** [readRemoteLogSegments], up to the downloads: the settings, the jobs, and the size of the result. *)
Definition remoteLogJobs (config : RemoteFileReadConfig) (token : option FileSystemSecurityToken) (info : RemoteLogFetchInfo)
    : remoteError + (RemoteFileReadConfig * list (remoteDownloadJob * Z) * Z) :=
  match remoteNormalized config with
  | inl e => inl e
  | inr config =>
    if bool_decide (TrimSpace (ri_TabletDirectory info) = ""%string) || (ri_FirstStartPosition info <? 0) then inl (errorOf SentValidation)
    else match planRemoteLogSegments config info with
         | inl e => inl e
         | inr (segments, outputBytes) =>
           if 2 ^ 63 - 1 <? outputBytes then inl (errorOf SentValidation)
           else inr (config, segmentJobs (ri_TabletDirectory info) token segments (ri_FirstStartPosition info) 0, outputBytes)
         end
  end.

(** ** Snapshots *)

Record RemoteSnapshotFile := MkSnapshotFile {
  sf_Path : string;
  sf_Size : Z;
  sf_Data : list byte;
}.

(** The loop of [validateRemoteSnapshotFiles]. *)
Fixpoint validateFilesLoop (config : RemoteFileReadConfig) (files : list RemoteSnapshotFile) (total : Z) : option remoteError :=
  match files with
  | [] => None
  | file :: files =>
    if bool_decide (sf_Path file = ""%string) || (sf_Size file <=? 0) || (rf_MaxFileBytes config <? sf_Size file)
    then Some (errorOf SentValidation)
    else if rf_MaxTotalBytes config - total <? sf_Size file then Some (errorOf SentValidation)
    else validateFilesLoop config files (total + sf_Size file)
  end.

Definition validateRemoteSnapshotFiles (files : list RemoteSnapshotFile) (config : RemoteFileReadConfig) : option remoteError :=
  if rf_MaxFiles config <? glen files then Some (errorOf SentValidation) else validateFilesLoop config files 0.

Definition snapshotDownloadJobs (files : list RemoteSnapshotFile) (token : option FileSystemSecurityToken) : list remoteDownloadJob :=
  (fun file => MkRemoteJob (sf_Size file) (MkRemoteRequest (sf_Path file) (sf_Size file) 0 0 (sf_Size file) token)) <$> files.

(** [OpenSnapshot], from the files of the resolver up to the downloads. *)
Definition snapshotJobs (config : RemoteFileReadConfig) (token : option FileSystemSecurityToken)
    (resolved : remoteError + list RemoteSnapshotFile) : remoteError + list remoteDownloadJob :=
  match resolved with
  | inl e => inl e
  | inr files =>
    if glen files =? 0 then inl (errorOf SentValidation)
    else match validateRemoteSnapshotFiles files config with
         | Some e => inl e
         | None => inr (snapshotDownloadJobs files token)
         end
  end.
