(* ===== verification/RemoteDownload.v ===== *)
(** * Downloads at the same time

    Models [pkg/fgo/remote_download.go]: [remoteDownloadScheduler], which runs downloads at the
    same time within a budget of reads and of bytes, keeps the first error, starts nothing after
    it, and returns when nothing runs; and what the two kinds of downloads make of the results.

    A run is a list of events: the end of a job, in whatever order jobs end, with its bytes or its
    error, or the end of the caller's context.  The jobs write to places of their own, so what
    they wrote is a function of their results; how a job comes to its result is in RemoteFiles.v. *)

From S2P Require Import Prelude Model Errors SecurityToken RemoteFiles.

(** [remoteDownloadScheduler]: [dn_active] are the jobs that run, in the order they were started,
    [dn_received] the results in the order they were received, and [dn_watching] holds until the
    end of the context was noticed. *)
Record remoteDownloadScheduler := MkDownloads {
  dn_next : nat;
  dn_active : list nat;
  dn_activeBytes : Z;
  dn_firstErr : option remoteError;
  dn_watching : bool;
  dn_received : list (nat * (remoteError + list byte));
}.

(** The loop waits, or it has returned. *)
Inductive downloadPhase :=
| DownloadWaits (s : remoteDownloadScheduler)
| DownloadReturned (s : remoteDownloadScheduler) (err : option remoteError).

(** What [awaitCompletion] receives. *)
Inductive downloadEvent :=
| JobDone (job : nat) (answer : remoteError + list byte)
| ContextEnded (e : remoteError).

Definition recordError (e : remoteError) (first : option remoteError) : option remoteError :=
  match first with Some first => Some first | None => Some e end.

Section Downloads.
Context (config : RemoteFileReadConfig) (jobs : list remoteDownloadJob).

Definition hasWork (s : remoteDownloadScheduler) : bool :=
  (dn_next s <? length jobs)%nat || negb (glen (dn_active s) =? 0).

(** Whether [startReady] goes on: the job it starts. *)
Definition readyJob (s : remoteDownloadScheduler) : option remoteDownloadJob :=
  match dn_firstErr s, jobs !! dn_next s with
  | None, Some job =>
    if (glen (dn_active s) <? rf_MaxConcurrentReads config)
       && (jb_size job <=? rf_MaxConcurrentBytes config - dn_activeBytes s) then Some job else None
  | _, _ => None
  end.

Definition startJob (job : remoteDownloadJob) (s : remoteDownloadScheduler) : remoteDownloadScheduler :=
  MkDownloads (S (dn_next s)) (dn_active s ++ [dn_next s]) (dn_activeBytes s + jb_size job)
    (dn_firstErr s) (dn_watching s) (dn_received s).

(** The loop of [startReady]; every turn starts a job. *)
Fixpoint startLoop (turns : nat) (s : remoteDownloadScheduler) : remoteDownloadScheduler :=
  match turns with
  | O => s
  | S turns => match readyJob s with Some job => startLoop turns (startJob job s) | None => s end
  end.

Definition startReady (s : remoteDownloadScheduler) : remoteDownloadScheduler := startLoop (length jobs - dn_next s) s.

Definition idleError (s : remoteDownloadScheduler) : remoteError :=
  match dn_firstErr s with Some e => e | None => errorOf SentValidation end.

(** One turn of [runRemoteDownloads], up to its wait. *)
Definition downloadTurn (s : remoteDownloadScheduler) : downloadPhase :=
  if hasWork s then
    let s := startReady s in
    if glen (dn_active s) =? 0 then DownloadReturned s (Some (idleError s)) else DownloadWaits s
  else DownloadReturned s (dn_firstErr s).

Definition newDownloads : remoteDownloadScheduler := MkDownloads 0 [] 0 None true [].

Definition beginDownloads : downloadPhase :=
  match jobs with [] => DownloadReturned newDownloads None | _ => downloadTurn newDownloads end.

(** [awaitCompletion]: only jobs that run have results, and the context ends once. *)
Definition awaitCompletion (event : downloadEvent) (s : remoteDownloadScheduler) : option remoteDownloadScheduler :=
  match event with
  | JobDone i answer =>
    if bool_decide (i ∈ dn_active s) then
      job ← jobs !! i;
      Some (MkDownloads (dn_next s) (filter (fun j => j <> i) (dn_active s)) (dn_activeBytes s - jb_size job)
              (match answer with inl e => recordError e (dn_firstErr s) | inr _ => dn_firstErr s end)
              (dn_watching s) (dn_received s ++ [(i, answer)]))
    else None
  | ContextEnded e =>
    if dn_watching s then
      Some (MkDownloads (dn_next s) (dn_active s) (dn_activeBytes s) (recordError e (dn_firstErr s)) false (dn_received s))
    else None
  end.

Definition downloadExec (event : downloadEvent) (p : downloadPhase) : option downloadPhase :=
  match p with
  | DownloadWaits s => downloadTurn <$> awaitCompletion event s
  | DownloadReturned _ _ => None
  end.

Fixpoint downloadRun (events : list downloadEvent) (p : downloadPhase) : option downloadPhase :=
  match events with
  | [] => Some p
  | event :: events => p ← downloadExec event p; downloadRun events p
  end.

End Downloads.

(** ** What the results make *)

(** A job of a remote log wrote its bytes to its part of the result; [readRemoteFileIntoWithRetry]
    clears the part when it fails. *)
Definition storeRange (jobs : list (remoteDownloadJob * Z)) (received : nat * (remoteError + list byte)) (result : list byte) : outcome (list byte) :=
  match jobs !! received.1 with
  | None => Ok result
  | Some (job, position) =>
    overwrite result position (match received.2 with inr data => data | inl _ => zeros (jb_size job) end)
  end.

Fixpoint storeRanges (jobs : list (remoteDownloadJob * Z)) (received : list (nat * (remoteError + list byte))) (result : list byte) : outcome (list byte) :=
  match received with
  | [] => Ok result
  | r :: received => result ← storeRange jobs r result; storeRanges jobs received result
  end.

(** [downloadRemoteLogSegments] after the downloads. *)
Definition downloadRemoteLogSegments (jobs : list (remoteDownloadJob * Z)) (outputBytes : Z) (p : downloadPhase)
    : option (outcome (remoteError + list byte)) :=
  match p with
  | DownloadWaits _ => None
  | DownloadReturned _ (Some e) => Some (Ok (inl e))
  | DownloadReturned s None => Some (inr <$> storeRanges jobs (dn_received s) (zeros outputBytes))
  end.

(** A job of a snapshot stored its file, with its bytes; [OpenSnapshot] gives the files to the
    decoder, or discards them. *)
Definition storeFile (files : list RemoteSnapshotFile) (received : nat * (remoteError + list byte)) (downloaded : list RemoteSnapshotFile)
    : list RemoteSnapshotFile :=
  match received.2, files !! received.1 with
  | inr data, Some file => <[received.1 := MkSnapshotFile (sf_Path file) (sf_Size file) data]> downloaded
  | _, _ => downloaded
  end.

Definition downloadSnapshotFiles (files : list RemoteSnapshotFile) (p : downloadPhase) : option (remoteError + list RemoteSnapshotFile) :=
  match p with
  | DownloadWaits _ => None
  | DownloadReturned _ (Some e) => Some (inl e)
  | DownloadReturned s None =>
    Some (inr (foldl (fun downloaded r => storeFile files r downloaded) (replicate (length files) (MkSnapshotFile "" 0 [])) (dn_received s)))
  end.

(** ** The invariant of the scheduler *)

Definition eventAnswer (event : downloadEvent) : option (nat * (remoteError + list byte)) :=
  match event with JobDone i answer => Some (i, answer) | ContextEnded _ => None end.
Definition eventError (event : downloadEvent) : option remoteError :=
  match event with JobDone _ (inl e) => Some e | JobDone _ (inr _) => None | ContextEnded e => Some e end.

(** The first error among the events. *)
Definition firstError (events : list downloadEvent) : option remoteError := head (omap eventError events).

Section Invariant.
Context (config : RemoteFileReadConfig) (jobs : list remoteDownloadJob).
Context (Hreads : 0 <= rf_MaxConcurrentReads config) (Hbytes : 0 <= rf_MaxConcurrentBytes config).
Context (Hsizes : Forall (fun job => 0 <= jb_size job) jobs).

Definition sizeOf (i : nat) : Z := default 0 (jb_size <$> jobs !! i).
Fixpoint sumSizes (l : list nat) : Z :=
  match l with [] => 0 | i :: l => sizeOf i + sumSizes l end.

Record downloadsInv (events : list downloadEvent) (s : remoteDownloadScheduler) : Prop := {
  di_next : (dn_next s <= length jobs)%nat;
  di_jobs : dn_active s ++ (dn_received s).*1 ≡ₚ seq 0 (dn_next s);
  di_bytes : dn_activeBytes s = sumSizes (dn_active s);
  di_reads : glen (dn_active s) <= rf_MaxConcurrentReads config;
  di_budget : dn_activeBytes s <= rf_MaxConcurrentBytes config;
  di_received : dn_received s = omap eventAnswer events;
  di_first : dn_firstErr s = firstError events;
  di_count : length events = (length (dn_received s) + if dn_watching s then 0 else 1)%nat;
}.

Lemma sizeOf_nonneg i : 0 <= sizeOf i.
Proof using Hsizes.
  unfold sizeOf. destruct (jobs !! i) as [job|] eqn:E; cbn; [|lia].
  by apply (Forall_lookup_1 _ _ _ _ Hsizes E).
Qed.

Lemma sumSizes_nonneg l : 0 <= sumSizes l.
Proof using Hsizes. induction l as [|i l IH]; cbn; [lia|]. pose proof (sizeOf_nonneg i). lia. Qed.

Lemma sumSizes_snoc l i : sumSizes (l ++ [i]) = sumSizes l + sizeOf i.
Proof. induction l as [|j l IH]; cbn; lia. Qed.

Lemma filter_others (l : list nat) i : i ∉ l -> filter (fun j => j <> i) l = l.
Proof.
  induction l as [|j l IH]; [done|]. intros H%not_elem_of_cons.
  rewrite filter_cons_True by naive_solver. f_equal. apply IH. naive_solver.
Qed.

Lemma filter_one (l : list nat) i : NoDup l -> i ∈ l -> i :: filter (fun j => j <> i) l ≡ₚ l.
Proof.
  induction l as [|j l IH]; [by intros _ ?%elem_of_nil|]. intros [Hj Hl]%NoDup_cons Hi.
  destruct (decide (i = j)) as [->|Hne].
  - rewrite filter_cons_False by naive_solver. by rewrite filter_others.
  - rewrite filter_cons_True by naive_solver. rewrite Permutation_swap. f_equiv. apply IH; [done|].
    by apply elem_of_cons in Hi as [?|?].
Qed.

Lemma sumSizes_perm l l' : l ≡ₚ l' -> sumSizes l = sumSizes l'.
Proof. induction 1; cbn; lia. Qed.

Lemma active_nodup events s : downloadsInv events s -> NoDup (dn_active s).
Proof.
  intros [_ Hj]. assert (NoDup (dn_active s ++ (dn_received s).*1)) as H by (rewrite Hj; apply NoDup_seq).
  by apply NoDup_app in H as [H _].
Qed.

Lemma active_job events s i : downloadsInv events s -> i ∈ dn_active s -> exists job, jobs !! i = Some job.
Proof.
  intros [Hn Hj] Hi. apply lookup_lt_is_Some.
  assert (i ∈ seq 0 (dn_next s)) as H%elem_of_seq by (rewrite <- Hj; apply elem_of_app; by left). lia.
Qed.

Lemma readyJob_Some s job :
  readyJob config jobs s = Some job <->
  dn_firstErr s = None /\ jobs !! dn_next s = Some job /\ glen (dn_active s) < rf_MaxConcurrentReads config /\
  jb_size job <= rf_MaxConcurrentBytes config - dn_activeBytes s.
Proof. unfold readyJob. repeat case_match; naive_solver lia. Qed.

Lemma newDownloads_inv : downloadsInv [] newDownloads.
Proof using Hreads Hbytes. by split; cbn; try lia. Qed.

Lemma startJob_inv events s job : downloadsInv events s -> readyJob config jobs s = Some job -> downloadsInv events (startJob job s).
Proof.
  intros [] (? & Hjob & Hr & Hb)%readyJob_Some. split; cbn [startJob dn_next dn_active dn_activeBytes dn_firstErr dn_watching dn_received]; try done.
  - by apply lookup_lt_Some in Hjob.
  - rewrite seq_S, <- app_assoc, (Permutation_app_comm [_]), app_assoc. by f_equiv.
  - rewrite sumSizes_snoc. unfold sizeOf. rewrite Hjob. cbn. lia.
  - glia.
  - lia.
Qed.

Lemma startLoop_inv events turns s : downloadsInv events s -> downloadsInv events (startLoop config jobs turns s).
Proof.
  revert s. induction turns as [|turns IH]; intros s H; [done|]. cbn.
  destruct (readyJob config jobs s) as [job|] eqn:E; [|done]. apply IH. by apply startJob_inv.
Qed.

(** Nothing more can start when [startReady] returns. *)
Lemma startLoop_saturated turns s :
  (length jobs - dn_next s <= turns)%nat -> readyJob config jobs (startLoop config jobs turns s) = None.
Proof.
  revert s. induction turns as [|turns IH]; intros s H; cbn.
  - destruct (readyJob config jobs s) as [job|] eqn:E; [|done].
    apply readyJob_Some in E as (_ & ?%lookup_lt_Some & _). lia.
  - destruct (readyJob config jobs s) as [job|] eqn:E; [|done]. apply IH. cbn. lia.
Qed.

(** After the first error nothing starts. *)
Lemma startReady_stops s e : dn_firstErr s = Some e -> startReady config jobs s = s.
Proof. intros H. unfold startReady. destruct (length jobs - dn_next s)%nat; cbn; [done|]. unfold readyJob. by rewrite H. Qed.

Lemma eventError_snoc events event : firstError (events ++ [event]) =
  match eventError event with Some e => recordError e (firstError events) | None => firstError events end.
Proof. unfold firstError. rewrite omap_app. cbn. destruct (omap eventError events), (eventError event); done. Qed.

Lemma awaitCompletion_inv events event s s' :
  downloadsInv events s -> awaitCompletion jobs event s = Some s' -> downloadsInv (events ++ [event]) s'.
Proof using Hsizes.
  intros Hinv. pose proof (active_nodup _ _ Hinv) as Hnd. destruct Hinv. destruct event as [i answer|e]; cbn.
  - case_bool_decide as Hi; [|done]. destruct (jobs !! i) as [job|] eqn:Hjob; [|done]. cbn. intros [= <-].
    pose proof (filter_one _ _ Hnd Hi) as Hp. pose proof (sumSizes_perm _ _ Hp) as Hs. cbn in Hs.
    assert (sizeOf i = jb_size job) as Hsz by (unfold sizeOf; by rewrite Hjob).
    pose proof (sizeOf_nonneg i). apply Permutation_length in Hp as Hl. cbn in Hl.
    split; cbn [dn_next dn_active dn_activeBytes dn_firstErr dn_watching dn_received]; try done.
    + rewrite fmap_app. cbn. rewrite Permutation_app_comm, <- app_assoc. cbn. rewrite Hp, Permutation_app_comm. done.
    + rewrite di_bytes0. lia.
    + unfold glen in *. lia.
    + lia.
    + rewrite omap_app. cbn. by rewrite di_received0.
    + rewrite eventError_snoc, di_first0. by destruct answer.
    + rewrite !length_app. cbn. lia.
  - destruct (dn_watching s) eqn:Hw; [|done]. intros [= <-].
    split; cbn [dn_next dn_active dn_activeBytes dn_firstErr dn_watching dn_received]; try done.
    + rewrite omap_app. cbn. by rewrite app_nil_r.
    + rewrite eventError_snoc, di_first0. done.
    + rewrite length_app. cbn. lia.
Qed.

(** ** What a phase promises *)

(** The error [runRemoteDownloads] returns: the first of its events, or that of a job that does
    not fit in the budget of bytes even alone. *)
Definition returnedError (events : list downloadEvent) (s : remoteDownloadScheduler) : option remoteError :=
  match firstError events with
  | Some e => Some e
  | None => if (dn_next s <? length jobs)%nat then Some (errorOf SentValidation) else None
  end.

Definition phaseInv (events : list downloadEvent) (p : downloadPhase) : Prop :=
  match p with
  | DownloadWaits s => downloadsInv events s /\ dn_active s <> [] /\ readyJob config jobs s = None
  | DownloadReturned s err =>
    downloadsInv events s /\ dn_active s = [] /\ readyJob config jobs s = None /\ err = returnedError events s
  end.

Lemma startLoop_next turns s : (dn_next s <= dn_next (startLoop config jobs turns s))%nat.
Proof.
  revert s. induction turns as [|turns IH]; intros s; [done|]. cbn.
  destruct (readyJob config jobs s) as [job|]; [|done]. specialize (IH (startJob job s)). cbn in IH. lia.
Qed.

Lemma startLoop_same turns s : dn_active (startLoop config jobs turns s) = [] -> startLoop config jobs turns s = s.
Proof.
  destruct turns as [|turns]; [done|]. cbn. destruct (readyJob config jobs s) as [job|]; [|done].
  assert (forall turns s, dn_active s <> [] -> dn_active (startLoop config jobs turns s) <> []) as H.
  { clear. induction turns as [|turns IH]; intros s H; [done|]. cbn. destruct (readyJob config jobs s) as [job|]; [|done].
    apply IH. cbn. by destruct (dn_active s). }
  intros E. exfalso. revert E. apply H. cbn. by destruct (dn_active s).
Qed.

Lemma downloadTurn_inv events s : downloadsInv events s -> phaseInv events (downloadTurn config jobs s).
Proof.
  intros H. unfold downloadTurn, hasWork. case_match eqn:Hw.
  - set (s' := startReady config jobs s).
    assert (downloadsInv events s') as H' by by apply startLoop_inv.
    assert (readyJob config jobs s' = None) as Hsat by by apply startLoop_saturated.
    case_match eqn:Ha; cbn.
    + apply Z.eqb_eq, glen_0_nil in Ha. split_and!; [done..|].
      pose proof (startLoop_same _ _ Ha) as Hsame. change (s' = s) in Hsame. rewrite Hsame in *. unfold idleError, returnedError.
      rewrite (di_first _ _ H). destruct (firstError events); [done|].
      destruct (dn_next s <? length jobs)%nat; [done|]. by rewrite Ha in Hw.
    + split_and!; [done| |done]. intros E. by rewrite E in Ha.
  - apply orb_false_iff in Hw as [Hn Ha]. cbn. apply negb_false_iff, Z.eqb_eq, glen_0_nil in Ha.
    split_and!; [done..| |].
    + unfold readyJob. destruct (dn_firstErr s); [done|]. apply Nat.ltb_ge in Hn. by rewrite (lookup_ge_None_2 jobs (dn_next s)).
    + unfold returnedError. rewrite (di_first _ _ H). destruct (firstError events); [done|]. by rewrite Hn.
Qed.

Lemma beginDownloads_inv : phaseInv [] (beginDownloads config jobs).
Proof using Hreads Hbytes.
  replace (beginDownloads config jobs) with (downloadTurn config jobs newDownloads)
    by (clear Hsizes; unfold beginDownloads; by destruct jobs).
  apply downloadTurn_inv, newDownloads_inv.
Qed.

Lemma downloadExec_inv events event p p' :
  phaseInv events p -> downloadExec config jobs event p = Some p' -> phaseInv (events ++ [event]) p'.
Proof using Hsizes.
  destruct p as [s|s err]; [|done]. intros (H & _) E. cbn in E.
  destruct (awaitCompletion jobs event s) as [s'|] eqn:Ea; [|done]. cbn in E. injection E as <-.
  apply downloadTurn_inv. by eapply awaitCompletion_inv.
Qed.

Lemma downloadRun_inv events0 events p p' :
  phaseInv events0 p -> downloadRun config jobs events p = Some p' -> phaseInv (events0 ++ events) p'.
Proof using Hsizes.
  revert events0 p. induction events as [|event events IH]; intros events0 p H E; cbn in E.
  - injection E as ->. by rewrite app_nil_r.
  - destruct (downloadExec config jobs event p) as [p1|] eqn:Ee; [|done]. cbn in E.
    rewrite (cons_middle event events0 events), app_assoc. eapply IH; [|done]. by eapply downloadExec_inv.
Qed.

Lemma downloads_phase events p : downloadRun config jobs events (beginDownloads config jobs) = Some p -> phaseInv events p.
Proof using Hreads Hbytes Hsizes. intros H. by apply (downloadRun_inv [] _ _ _ beginDownloads_inv) in H. Qed.

(** The loop that waits takes the result of every job that runs. *)
Lemma downloads_can_step events s i answer :
  downloadsInv events s -> i ∈ dn_active s ->
  exists p, downloadExec config jobs (JobDone i answer) (DownloadWaits s) = Some p.
Proof.
  intros H Hi. destruct (active_job _ _ _ H Hi) as [job Hjob]. cbn. rewrite bool_decide_true by done. rewrite Hjob. cbn. eauto.
Qed.

(** A run has an event for a job at most, and one for the end of the context. *)
Lemma downloads_bounded events s : downloadsInv events s -> (length events <= length jobs + 1)%nat.
Proof.
  intros []. apply Permutation_length in di_jobs0. rewrite length_app, length_fmap, length_seq in di_jobs0.
  rewrite di_count0. destruct (dn_watching s); lia.
Qed.

(** The context that ended is noticed only with an error. *)
Lemma returned_none events s : phaseInv events (DownloadReturned s None) ->
  (dn_received s).*1 ≡ₚ seq 0 (length jobs) /\ forall i answer, (i, answer) ∈ dn_received s -> exists data, answer = inr data.
Proof.
  intros (H & Ha & _ & Herr). unfold returnedError in Herr. destruct (firstError events) eqn:Hf; [done|].
  destruct (dn_next s <? length jobs)%nat eqn:Hn; [done|]. split.
  - pose proof (di_jobs _ _ H) as Hj. rewrite Ha in Hj. cbn in Hj.
    pose proof (di_next _ _ H). apply Nat.ltb_ge in Hn. by replace (length jobs) with (dn_next s) by lia.
  - intros i answer Hi. destruct answer as [e|data]; [|eauto].
    rewrite (di_received _ _ H) in Hi. apply list_elem_of_omap in Hi as (event & Hin & He).
    destruct event as [j a|]; [|done]. injection He as -> ->.
    unfold firstError in Hf. assert (e ∈ omap eventError events) as Hein by (apply list_elem_of_omap; eauto).
    destruct (omap eventError events); [by apply elem_of_nil in Hein|done].
Qed.

(** Without an error every job was small enough. *)
Lemma returned_oversized events s e : phaseInv events (DownloadReturned s (Some e)) -> firstError events = None ->
  0 < rf_MaxConcurrentReads config ->
  exists job, jobs !! dn_next s = Some job /\ rf_MaxConcurrentBytes config < jb_size job.
Proof.
  intros (H & Ha & Hr & Herr) Hf Hpos. unfold returnedError in Herr. rewrite Hf in Herr.
  destruct (dn_next s <? length jobs)%nat eqn:Hn; [|done].
  apply Nat.ltb_lt in Hn. destruct (lookup_lt_is_Some_2 jobs (dn_next s) Hn) as [job Hjob]. exists job. split; [done|].
  apply Z.nle_gt. intros Hle. assert (readyJob config jobs s = Some job) as E; [|by rewrite E in Hr].
  apply readyJob_Some. rewrite (di_first _ _ H), (di_bytes _ _ H), Ha. cbn. repeat split; [done|done|done|lia].
Qed.

End Invariant.
