(* ===== verification/RemoteProperties.v ===== *)
(** * Properties of remote files

    What the definitions of RemoteFiles.v and RemoteDownload.v promise: the plan of a remote log
    read accepts exactly contiguous segments within its limits, a read with retries gives exactly
    the bytes of the object, the scheduler stays within its budgets and ends, and a remote log or
    a snapshot that was read holds the objects' bytes in order. *)

From Stdlib Require Import Sorted.
From S2P Require Import Prelude Model Errors SecurityToken RemoteFiles RemoteDownload.

(** ** The plan of a remote log read *)

Definition segmentValid (config : RemoteFileReadConfig) (s : RemoteLogSegment) : Prop :=
  rs_ID s <> ""%string /\ 0 <= rs_StartOffset s < rs_EndOffset s /\ 0 < rs_SizeBytes s <= rf_MaxFileBytes config.

(** Every segment ends where the next one starts. *)
Definition contiguous (segments : list RemoteLogSegment) : Prop :=
  forall i s s', segments !! i = Some s -> segments !! S i = Some s' -> rs_EndOffset s = rs_StartOffset s'.

Definition totalSize (segments : list RemoteLogSegment) : Z := foldr (fun s total => rs_SizeBytes s + total) 0 segments.

(** The bytes of the first segment that are not read. *)
Definition skippedBytes (first : Z) (segments : list RemoteLogSegment) : Z := match segments with [] => 0 | _ => first end.

Lemma skippedBytes_0 segments : skippedBytes 0 segments = 0.
Proof. by destruct segments. Qed.

Lemma totalSize_cons s segments : totalSize (s :: segments) = rs_SizeBytes s + totalSize segments.
Proof. done. Qed.

Lemma totalSize_nonneg config segments : Forall (segmentValid config) segments -> 0 <= totalSize segments.
Proof. unfold totalSize. induction 1 as [|s segments (_ & _ & ?) _ IH]; cbn; lia. Qed.

Lemma contiguous_cons s segments :
  contiguous (s :: segments) <-> (forall s', head segments = Some s' -> rs_EndOffset s = rs_StartOffset s') /\ contiguous segments.
Proof.
  split.
  - intros H. split; [|intros i a b Ha Hb; by apply (H (S i))].
    intros s' Hs. destruct segments; [done|]. injection Hs as ->. by apply (H 0%nat).
  - intros [Hh Ht] [|i] a b Ha Hb; [|by apply (Ht i)]. injection Ha as ->. apply Hh. by destruct segments.
Qed.

(** The loop accepts exactly these segments; [first] bytes of the next one are skipped. *)
Lemma planLoop_inr config segments first previousEnd outputBytes out : 0 <= first ->
  planLoop config segments first previousEnd outputBytes = inr out <->
  Forall (segmentValid config) segments /\ contiguous segments /\
  (forall s, head segments = Some s -> first <= rs_SizeBytes s /\ (previousEnd < 0 \/ previousEnd = rs_StartOffset s)) /\
  out = outputBytes + totalSize segments - skippedBytes first segments /\ (segments = [] \/ out <= rf_MaxTotalBytes config).
Proof.
  revert first previousEnd outputBytes. induction segments as [|s segments IH]; intros first previousEnd outputBytes Hf; cbn [planLoop].
  - split.
    + intros [= ->]. split_and!; [done|by intros ? ? ?|done|cbn; lia|by left].
    + intros (_ & _ & _ & -> & _). cbn. f_equal. lia.
  - rewrite totalSize_cons. change (skippedBytes first (s :: segments)) with first. case_match eqn:Hv.
    { split; [intros [=]|]. intros ([(Hid & ? & ?) _]%Forall_cons & _). rewrite bool_decide_false in Hv by done. lia. }
    rewrite !orb_false_iff, bool_decide_eq_false in Hv. destruct Hv as ((((Hid & ?) & ?) & ?) & ?).
    case_match eqn:Hp; [split; [intros [=]|]; intros (_ & _ & Hh & _); destruct (Hh s eq_refl); lia|].
    case_match eqn:Hs; [split; [intros [=]|]; intros (_ & _ & Hh & _); destruct (Hh s eq_refl); lia|].
    case_match eqn:Ht.
    { split; [intros [=]|]. intros (Hall & _ & _ & -> & [?|Hle]); [done|]. apply Forall_cons in Hall as [_ Hall].
      apply totalSize_nonneg in Hall. lia. }
    rewrite IH, skippedBytes_0 by lia. rewrite Forall_cons, contiguous_cons. split.
    + intros (Hall & Hc & Hh & -> & Ho). split_and!; try done.
      * split_and!; [done|lia..].
      * intros s' Hs'. destruct (Hh s' Hs'). lia.
      * intros ? [= ->]. lia.
      * lia.
      * right. destruct Ho as [->|Ho]; [cbn; lia|]. done.
    + intros ([Hok Hall] & [Hn Hc] & Hh & -> & Ho). split_and!; try done.
      * intros s' Hs'. specialize (Hn s' Hs'). destruct segments; [done|]. injection Hs' as ->.
        apply Forall_cons in Hall as [(_ & ? & ?) _]. lia.
      * lia.
      * destruct Ho as [|Ho]; [done|]. by right.
Qed.

Lemma insertRemote_perm s l : insertRemote s l ≡ₚ s :: l.
Proof. induction l as [|s' l IH]; cbn; [done|]. case_match; [done|]. rewrite IH. apply Permutation_swap. Qed.

Lemma sortRemote_perm l : sortRemote l ≡ₚ l.
Proof. induction l as [|s l IH]; cbn; [done|]. by rewrite insertRemote_perm, IH. Qed.

Definition byOffset (s s' : RemoteLogSegment) : Prop := rs_StartOffset s <= rs_StartOffset s'.

Lemma insertRemote_sorted s l : StronglySorted byOffset l -> StronglySorted byOffset (insertRemote s l).
Proof.
  induction 1 as [|s' l Hl IH Hs]; cbn; [repeat constructor|]. case_match eqn:E.
  - constructor; [by constructor|]. unfold byOffset in *. constructor; [lia|].
    eapply Forall_impl; [exact Hs|]. cbn. lia.
  - constructor; [done|]. rewrite insertRemote_perm. constructor; [unfold byOffset; lia|done].
Qed.

Lemma sortRemote_sorted l : StronglySorted byOffset (sortRemote l).
Proof. induction l; cbn; [constructor|]. by apply insertRemote_sorted. Qed.

(** Contiguous segments have different offsets, so they have one order. *)
Lemma contiguous_strict config segments : Forall (segmentValid config) segments -> contiguous segments ->
  StronglySorted (fun s s' => rs_StartOffset s < rs_StartOffset s') segments.
Proof.
  induction segments as [|s segments IH]; intros Hv Hc; [constructor|].
  apply Forall_cons in Hv as [(_ & Hs & _) Hv]. apply contiguous_cons in Hc as [Hh Hc]. specialize (IH Hv Hc).
  constructor; [done|]. destruct segments as [|s' segments]; [constructor|].
  specialize (Hh s' eq_refl). apply StronglySorted_inv in IH as [_ IH]. constructor; [lia|].
  eapply Forall_impl; [exact IH|]. cbn. lia.
Qed.

Lemma sorted_unique (l l' : list RemoteLogSegment) :
  l ≡ₚ l' -> StronglySorted (fun s s' => rs_StartOffset s < rs_StartOffset s') l -> StronglySorted byOffset l' -> l = l'.
Proof.
  revert l'. induction l as [|s l IH]; intros l' Hp Hl Hl'.
  - apply Permutation_nil_l in Hp. done.
  - apply StronglySorted_inv in Hl as [Hl Hs]. destruct l' as [|s' l']; [by apply Permutation_nil_r in Hp|].
    apply StronglySorted_inv in Hl' as [Hl' Hs']. rewrite Forall_forall in Hs, Hs'.
    assert (s = s') as ->.
    { assert (s ∈ s' :: l') as [|H1]%elem_of_cons by (rewrite <- Hp; by left); [done|].
      assert (s' ∈ s :: l) as [|H2]%elem_of_cons by (rewrite Hp; by left); [done|].
      specialize (Hs _ H2). specialize (Hs' _ H1). unfold byOffset in Hs'. cbn in Hs. lia. }
    f_equal. apply IH; [by apply Permutation_cons_inv in Hp|done..].
Qed.

(** The segments and the size a read plans for a fetch reply. *)
Definition plannedLog (config : RemoteFileReadConfig) (info : RemoteLogFetchInfo) (segments : list RemoteLogSegment) (outputBytes : Z) : Prop :=
  glen (ri_Segments info) <= rf_MaxFiles config /\ segments ≡ₚ ri_Segments info /\
  Forall (segmentValid config) segments /\ contiguous segments /\
  (forall s, head segments = Some s -> ri_FirstStartPosition info <= rs_SizeBytes s) /\
  outputBytes = totalSize segments - skippedBytes (ri_FirstStartPosition info) segments /\
  (segments = [] \/ outputBytes <= rf_MaxTotalBytes config).

Lemma plannedLog_loop config info segments outputBytes : 0 <= ri_FirstStartPosition info ->
  plannedLog config info segments outputBytes ->
  segments = sortRemote (ri_Segments info) /\ planLoop config segments (ri_FirstStartPosition info) (-1) 0 = inr outputBytes.
Proof.
  intros Hf (_ & Hp & Hv & Hc & Hh & -> & Ho). split.
  - apply sorted_unique; [by rewrite sortRemote_perm|by eapply contiguous_strict|apply sortRemote_sorted].
  - apply planLoop_inr; [done|]. split_and!; [done|done| |lia|done]. intros s Hs. split; [by apply Hh|lia].
Qed.

Lemma plannedLog_of config info segments outputBytes : 0 <= ri_FirstStartPosition info ->
  planRemoteLogSegments config info = inr (segments, outputBytes) -> plannedLog config info segments outputBytes.
Proof.
  intros Hf. unfold planRemoteLogSegments. case_match eqn:Hn; [done|]. destruct (planLoop _ _ _ _ _) as [e|out] eqn:E; [done|].
  intros [= <- <-]. apply planLoop_inr in E as (? & ? & Hh & -> & ?); [|done].
  split_and!; [lia|apply sortRemote_perm|done..| |lia|done]. intros s Hs. by apply Hh.
Qed.

(** The plan of a remote log read accepts exactly the replies whose segments, in the one order
    that is possible, are valid and contiguous and within the limits of files, of bytes per file
    and of bytes in total; nothing is downloaded for any other. *)
Theorem remote_plan_exact config info segments outputBytes : 0 <= ri_FirstStartPosition info ->
  planRemoteLogSegments config info = inr (segments, outputBytes) <-> plannedLog config info segments outputBytes.
Proof.
  intros Hf. split.
  - by apply plannedLog_of.
  - intros H. destruct (plannedLog_loop _ _ _ _ Hf H) as [-> Hl]. destruct H as (Hn & _).
    unfold planRemoteLogSegments. case_match; [lia|]. by rewrite Hl.
Qed.

(** ** Reading one object *)

Lemma take_prefix {A} (l l' : list A) n : l `prefix_of` l' -> (n <= length l)%nat -> take n l = take n l'.
Proof. intros [k ->] H. by rewrite take_app_le. Qed.

Lemma streamAttempt_inr opened n data : readRemoteFileStreamAttempt opened n = inr data ->
  exists stream, opened = inr stream /\ data = take n (rm_bytes stream) /\ length (rm_bytes stream) = n.
Proof.
  unfold readRemoteFileStreamAttempt. destruct opened as [e|stream]; [done|]. unfold readFull, validateRemoteStreamEnd.
  destruct (n <=? length (rm_bytes stream))%nat eqn:Hn; [|repeat case_match; done].
  intros H. exists stream. apply Nat.leb_le in Hn.
  destruct (drop n (rm_bytes stream)) eqn:Hd; [|done].
  apply (f_equal length) in Hd. rewrite length_drop in Hd. cbn in Hd. repeat case_match; naive_solver lia.
Qed.

(** An attempt that succeeds read exactly the range of the object that was asked for. *)
Lemma readAttempt_exact objects reader request n attempt data : FaithfulReader objects reader ->
  readRemoteFileAttempt reader request n attempt = inr data ->
  length data = n /\ data = take n (drop (Z.to_nat (rq_Offset request)) (objects (rq_Path request))).
Proof.
  intros Hr. unfold readRemoteFileAttempt. case_match eqn:Hb; [done|].
  rewrite !orb_false_iff, !Z.ltb_ge in Hb. destruct reader as [open|read]; cbn in Hr.
  - intros (stream & Ho & -> & Hl)%streamAttempt_inr. apply Hr in Ho. cbn in Ho. rewrite length_take. split; [lia|].
    apply take_prefix; [done|lia].
  - unfold readRemoteFileLegacyAttempt. destruct (read _ _) as [|all] eqn:Ho; [done|].
    repeat case_match; try done. intros [= <-]. apply Hr in Ho as [k Hk]. cbn in Hk. unfold glen in *.
    rewrite length_take, length_drop. split; [lia|]. rewrite Hk, drop_app_le by lia. rewrite take_app_le; [done|].
    rewrite length_drop. lia.
Qed.

Section Reads.
Context (config : RemoteFileReadConfig) (reader : remoteReader) (ctxErr whileWaiting : Z -> option remoteError).

(** An attempt that fails, and that is followed by another one. *)
Definition retried (request : RemoteFileRequest) (n : nat) (attempt : Z) : Prop :=
  attempt < rf_MaxAttempts config /\ ctxErr attempt = None /\
  (rf_RetryBackoff config <= 0 \/ whileWaiting attempt = None) /\
  exists err, readRemoteFileAttempt reader request n attempt = inl err /\ remoteReadTemporary err = true.

Lemma readAttempts_inr turns first request n data : Z.of_nat turns = rf_MaxAttempts config + 1 - first ->
  readAttempts config reader ctxErr whileWaiting turns first request n = inr data <->
  exists attempt, first <= attempt <= rf_MaxAttempts config /\ (forall k, first <= k < attempt -> retried request n k) /\
    readRemoteFileAttempt reader request n attempt = inr data.
Proof.
  revert first. induction turns as [|turns IH]; intros first Ht; cbn [readAttempts].
  { split; [done|]. intros (attempt & ? & _). lia. }
  destruct (readRemoteFileAttempt reader request n first) as [err|d] eqn:E.
  - assert (forall attempt, first <= attempt -> (forall k, first <= k < attempt -> retried request n k) ->
      readRemoteFileAttempt reader request n attempt = inr data -> first < attempt /\ retried request n first) as Hfirst.
    { intros attempt Hle Hk Ha. destruct (decide (attempt = first)) as [->|]; [congruence|]. split; [lia|apply Hk; lia]. }
    assert (retried request n first -> first < rf_MaxAttempts config /\ ctxErr first = None /\
      (rf_RetryBackoff config <= 0 \/ whileWaiting first = None) /\ remoteReadTemporary err = true) as Hr.
    { intros (? & ? & ? & err' & He & ?). rewrite E in He. by injection He as <-. }
    assert (forall b : Prop, (b -> False) -> (@inl remoteError (list byte) err = inr data <-> b)) as Hno by (intros b Hb; split; [done|tauto]).
    destruct (ctxErr first) as [e|] eqn:Hc.
    { split; [done|]. intros (attempt & Ha & Hk & Hd). destruct (Hfirst attempt) as [_ H]; [lia|done..|]. by apply Hr in H as (_ & ? & _). }
    destruct (remoteReadTemporary err) eqn:Hte; cbn [negb].
    2: { apply Hno. intros (attempt & Ha & Hk & Hd). destruct (Hfirst attempt) as [_ H]; [lia|done..|]. by apply Hr in H as (_ & _ & _ & ?). }
    destruct (first =? rf_MaxAttempts config) eqn:Hm.
    { apply Hno. intros (attempt & Ha & Hk & Hd). destruct (Hfirst attempt) as [? _]; [lia|done..|]. lia. }
    destruct (if rf_RetryBackoff config <=? 0 then None else whileWaiting first) as [e|] eqn:Hw.
    { split; [done|]. intros (attempt & Ha & Hk & Hd). destruct (Hfirst attempt) as [_ H]; [lia|done..|].
      apply Hr in H as (_ & _ & Hwait & _). case_match; [done|]. destruct Hwait; [lia|congruence]. }
    rewrite IH by lia. split.
    + intros (attempt & Ha & Hk & Hd). exists attempt. split_and!; [lia..| |done]. intros k Hk'.
      destruct (decide (k = first)) as [->|]; [|apply Hk; lia]. split_and!; [lia|done| |eauto].
      case_match; [left; lia|by right].
    + intros (attempt & Ha & Hk & Hd). destruct (Hfirst attempt) as [? _]; [lia|done..|]. exists attempt.
      split_and!; [lia..| |done]. intros k Hk'. apply Hk. lia.
  - split.
    + intros [= ->]. exists first. split_and!; [lia..| |done]. lia.
    + intros (attempt & Ha & Hk & Hd). destruct (decide (attempt = first)) as [->|]; [congruence|].
      destruct (Hk first) as (_ & _ & _ & err & He & _); [lia|congruence].
Qed.

Lemma readRetry_inr objects request n data : FaithfulReader objects reader -> 1 <= rf_MaxAttempts config ->
  readRemoteFileIntoWithRetry config reader ctxErr whileWaiting request n = inr data ->
  length data = n /\ data = take n (drop (Z.to_nat (rq_Offset request)) (objects (rq_Path request))).
Proof.
  intros Hr Hm. unfold readRemoteFileIntoWithRetry. rewrite readAttempts_inr by lia.
  intros (attempt & _ & _ & H). by apply (readAttempt_exact objects) in H.
Qed.

(** A read gives bytes exactly when one of its attempts does and every attempt before it failed
    in a way that is retried; what it gives is the range of the object. *)
Theorem remote_read_exact objects request n data : FaithfulReader objects reader -> 1 <= rf_MaxAttempts config ->
  let r := setMaxBytes (rf_MaxFileBytes config) request in
  (readRemoteFileIntoWithRetry config reader ctxErr whileWaiting request n = inr data <->
   exists attempt, 1 <= attempt <= rf_MaxAttempts config /\ (forall k, 1 <= k < attempt -> retried r n k) /\
     readRemoteFileAttempt reader r n attempt = inr data) /\
  (readRemoteFileIntoWithRetry config reader ctxErr whileWaiting request n = inr data ->
   length data = n /\ data = take n (drop (Z.to_nat (rq_Offset request)) (objects (rq_Path request)))).
Proof.
  intros Hr Hm r. split; [|by apply readRetry_inr]. unfold readRemoteFileIntoWithRetry. by rewrite readAttempts_inr by lia.
Qed.

End Reads.

(** ** What downloads make *)

(** Every result is that of [readRemoteFileIntoWithRetry] for its job, whatever happened to the
    context at each of its attempts. *)
Definition answeredBy (config : RemoteFileReadConfig) (reader : remoteReader) (jobs : list remoteDownloadJob) (events : list downloadEvent) : Prop :=
  forall i answer job, JobDone i answer ∈ events -> jobs !! i = Some job ->
    exists ctxErr whileWaiting,
      answer = readRemoteFileIntoWithRetry config reader ctxErr whileWaiting (jb_request job) (Z.to_nat (jb_size job)).

(** The range of the object that a job asks for. *)
Definition jobRange (objects : string -> list byte) (job : remoteDownloadJob) : list byte :=
  take (Z.to_nat (jb_size job)) (drop (Z.to_nat (rq_Offset (jb_request job))) (objects (rq_Path (jb_request job)))).

(** Where the parts of a result start. *)
Fixpoint partStarts (parts : list (list byte)) (start : Z) : list Z :=
  match parts with [] => [] | p :: parts => start :: partStarts parts (start + glen p) end.

Lemma overwrite_app_l {A} (l k l' src : list A) off : overwrite k off src = Ok l' -> 0 <= off ->
  overwrite (l ++ k) (glen l + off) src = Ok (l ++ l').
Proof.
  intros (_ & H & ->)%overwrite_Ok Ho. apply overwrite_Ok. unfold glen in *. rewrite length_app. split_and!; [lia..|].
  rewrite take_app_ge, drop_app_ge by lia. rewrite <- app_assoc. do 2 f_equal; [f_equal; lia|]. do 2 f_equal. lia.
Qed.

Lemma overwrite_head {A} (p k src : list A) : glen src = glen p -> overwrite (p ++ k) 0 src = Ok (src ++ k).
Proof.
  intros H. apply overwrite_Ok. unfold glen in *. rewrite length_app. split_and!; [lia..|].
  change (Z.to_nat 0) with 0%nat. rewrite take_0. cbn. f_equal. replace (length src) with (length p) by lia. by rewrite drop_app_length.
Qed.

(** Writing a part of the same length in its place replaces it. *)
Lemma overwrite_part parts i start p src : partStarts parts 0 !! i = Some start -> parts !! i = Some p -> glen src = glen p ->
  overwrite (concat parts) start src = Ok (concat (<[i := src]> parts)).
Proof.
  assert (forall base, partStarts parts base !! i = Some start -> parts !! i = Some p -> glen src = glen p ->
    base <= start /\ overwrite (concat parts) (start - base) src = Ok (concat (<[i := src]> parts))) as H.
  { revert i. induction parts as [|q parts IH]; intros i base Hs Hp Hl; [done|]. destruct i as [|i]; cbn in *.
    - injection Hs as <-. injection Hp as <-. split; [lia|]. rewrite Z.sub_diag. by apply overwrite_head.
    - destruct (IH i _ Hs Hp Hl) as [Hle Ho]. pose proof (glen_nonneg q). split; [lia|].
      replace (start - base) with (glen q + (start - (base + glen q))) by lia. apply overwrite_app_l; [done|lia]. }
  intros Hs Hp Hl. destruct (H 0 Hs Hp Hl) as [_ Ho]. by rewrite Z.sub_0_r in Ho.
Qed.

Lemma partStarts_insert parts i p src base : parts !! i = Some p -> glen src = glen p ->
  partStarts (<[i := src]> parts) base = partStarts parts base.
Proof.
  revert i base. induction parts as [|q parts IH]; intros i base Hp Hl; [done|]. destruct i as [|i]; cbn in *.
  - injection Hp as ->. by rewrite Hl.
  - f_equal. by apply IH.
Qed.

(** The parts when every result that was received is in its place. *)
Definition putParts {A} (received : list (nat * A)) (parts : list A) : list A :=
  foldl (fun parts r => <[r.1 := r.2]> parts) parts received.

Lemma putParts_all {A} (received : list (nat * A)) parts target : length parts = length target ->
  (forall i data, (i, data) ∈ received -> target !! i = Some data) ->
  received.*1 ≡ₚ seq 0 (length target) -> putParts received parts = target.
Proof.
  intros Hl Ht Hp.
  assert (forall parts, length (putParts received parts) = length parts /\
    forall i, putParts received parts !! i = if bool_decide (i ∈ received.*1 /\ (i < length parts)%nat) then target !! i else parts !! i) as H.
  { clear Hp Hl parts. induction received as [|[j d] received IH]; intros parts.
    - cbn. split; [done|]. intros i. by rewrite bool_decide_false by (intros [?%elem_of_nil _]; done).
    - destruct IH with (parts := <[j := d]> parts) as [IHl IHi]; [intros; apply Ht; by right|].
      cbn. change (foldl _ (<[j := d]> parts) received) with (putParts received (<[j := d]> parts)).
      rewrite IHl, length_insert. split; [done|]. intros i. rewrite IHi, length_insert.
      destruct (decide (i < length parts)%nat) as [Hi|Hi].
      + destruct (decide (i ∈ received.*1)) as [Hr|Hr].
        * rewrite !bool_decide_true; [done|split; [by right|done]|done].
        * rewrite (bool_decide_false (i ∈ received.*1 /\ _)) by naive_solver.
          destruct (decide (i = j)) as [->|Hne].
          -- rewrite bool_decide_true by (split; [by left|done]). rewrite list_lookup_insert_eq by done.
             symmetry. apply Ht. by left.
          -- rewrite bool_decide_false by (intros [[?|?]%elem_of_cons _]; done). by rewrite list_lookup_insert_ne by done.
      + rewrite !bool_decide_false by naive_solver. by rewrite !lookup_ge_None_2 by (rewrite ?length_insert; lia). }
  apply list_eq. intros i. destruct (H parts) as [Hlen Hi]. rewrite Hi. case_bool_decide as Hc; [done|].
  rewrite !lookup_ge_None_2; [done|..]; destruct (decide (i < length target)%nat) as [Hlt|]; try lia; exfalso; apply Hc;
    (split; [rewrite Hp; apply elem_of_seq; lia|lia]).
Qed.

(** Every result that was received has bytes. *)
Definition gotAll (received : list (nat * (remoteError + list byte))) (got : list (nat * list byte)) : Prop :=
  received = (fun r => (r.1, inr r.2)) <$> got.

Lemma gotAll_exists received : (forall i answer, (i, answer) ∈ received -> exists data : list byte, answer = inr data) ->
  exists got, gotAll received got.
Proof.
  unfold gotAll. induction received as [|[i answer] received IH]; intros H; [by exists []|].
  destruct (H i answer) as [data ->]; [by left|]. destruct IH as [got ->]; [intros; eapply H; by right|].
  by exists ((i, data) :: got).
Qed.

Lemma gotAll_keys received got : gotAll received got -> received.*1 = got.*1.
Proof. intros ->. by rewrite <- list_fmap_compose. Qed.

Lemma gotAll_elem received got i data : gotAll received got -> (i, data) ∈ got -> (i, inr data) ∈ received.
Proof. intros -> H. apply list_elem_of_fmap. by exists (i, data). Qed.

Lemma storeRanges_parts jobs got parts :
  partStarts parts 0 = jobs.*2 ->
  (forall i data, (i, data) ∈ got -> exists p, parts !! i = Some p /\ glen data = glen p) ->
  storeRanges jobs ((fun r => (r.1, inr r.2)) <$> got) (concat parts) = Ok (concat (putParts got parts)).
Proof.
  revert parts. induction got as [|[i data] got IH]; intros parts Hs Hg; [done|]. cbn [fmap list_fmap storeRanges].
  destruct (Hg i data) as (p & Hp & Hl); [by left|].
  assert (exists job start, jobs !! i = Some (job, start) /\ partStarts parts 0 !! i = Some start) as (job & start & Hj & Hi).
  { assert (is_Some (jobs !! i)) as [[job start] Hj].
    { apply lookup_lt_is_Some. apply lookup_lt_Some in Hp. apply (f_equal length) in Hs. rewrite length_fmap in Hs.
      assert (forall base, length (partStarts parts base) = length parts) as Hlen
        by (clear; induction parts; intros; cbn; by f_equal). rewrite Hlen in Hs. lia. }
    exists job, start. split; [done|]. by rewrite Hs, list_lookup_fmap, Hj. }
  unfold storeRange at 1. cbn [fst snd]. rewrite Hj, (overwrite_part _ _ _ _ _ Hi Hp Hl). cbn [mbind outcome_bind].
  rewrite IH; [done|by rewrite (partStarts_insert _ _ _ _ _ Hp Hl)|].
  intros k d Hk. destruct (Hg k d) as (q & Hq & Hlq); [by right|]. destruct (decide (k = i)) as [->|].
  - exists data. rewrite Hq in Hp. injection Hp as ->. split; [|lia]. apply list_lookup_insert_eq. by eapply lookup_lt_Some.
  - exists q. by rewrite list_lookup_insert_ne by done.
Qed.

(** ** The jobs of a remote log *)

Lemma remoteNormalized_limits c c' : remoteNormalized c = inr c' ->
  1 <= rf_MaxAttempts c' <= 10 /\ 0 <= rf_RetryBackoff c' <= 60 * 10 ^ 9 /\ 1 <= rf_MaxFileBytes c' /\ 1 <= rf_MaxTotalBytes c' /\
  1 <= rf_MaxFiles c' <= 1000000 /\ 1 <= rf_MaxConcurrentReads c' <= 1024 /\ 1 <= rf_MaxConcurrentBytes c'.
Proof. unfold remoteNormalized. cbv zeta. case_match eqn:H; [done|]. intros [= <-]. cbn [rf_MaxAttempts rf_RetryBackoff rf_MaxFileBytes rf_MaxTotalBytes rf_MaxFiles rf_MaxConcurrentReads rf_MaxConcurrentBytes]. lia. Qed.

(** The bytes of the objects in the order of their offsets, without the first bytes of the first. *)
Fixpoint remoteLogBytes (objects : string -> list byte) (directory : string) (segments : list RemoteLogSegment) (first : Z) : list byte :=
  match segments with
  | [] => []
  | s :: segments =>
    drop (Z.to_nat first) (take (Z.to_nat (rs_SizeBytes s)) (objects (remoteLogSegmentPath directory s)))
      ++ remoteLogBytes objects directory segments 0
  end.

Lemma segmentJobs_starts directory token segments first position parts :
  Forall2 (fun p (j : remoteDownloadJob * Z) => glen p = jb_size j.1) parts (segmentJobs directory token segments first position) ->
  partStarts parts position = (segmentJobs directory token segments first position).*2.
Proof.
  revert first position parts. induction segments as [|s segments IH]; intros first position parts H; cbn in *.
  - by apply Forall2_nil_inv_r in H as ->.
  - apply Forall2_cons_inv_r in H as (p & parts' & Hp & H & ->). cbn in *. rewrite Hp. f_equal. by apply IH.
Qed.

Lemma segmentJobs_bytes objects directory token segments first position : 0 <= first ->
  (forall s, head segments = Some s -> first <= rs_SizeBytes s) -> Forall (fun s => 0 <= rs_SizeBytes s) segments ->
  concat ((fun j => jobRange objects j.1) <$> segmentJobs directory token segments first position)
  = remoteLogBytes objects directory segments first.
Proof.
  revert first position. induction segments as [|s segments IH]; intros first position Hf Hh Hv; [done|]. cbn.
  apply Forall_cons in Hv as [? Hv]. specialize (Hh s eq_refl). rewrite IH; [|lia| |done].
  - unfold jobRange. cbn. f_equal. rewrite skipn_firstn_comm. do 2 f_equal. lia.
  - intros s' Hs. rewrite Forall_forall in Hv. apply Hv. destruct segments; [done|]. injection Hs as ->. by left.
Qed.

Lemma segmentJobs_sizes directory token segments first position : 0 <= first ->
  (forall s, head segments = Some s -> first <= rs_SizeBytes s) -> Forall (fun s => 0 <= rs_SizeBytes s) segments ->
  let jobs := segmentJobs directory token segments first position in
  Forall (fun j => 0 <= jb_size j.1) jobs /\
  concat ((fun j => zeros (jb_size j.1)) <$> jobs) = zeros (totalSize segments - skippedBytes first segments).
Proof.
  revert first position. induction segments as [|s segments IH]; intros first position Hf Hh Hv; [done|].
  apply Forall_cons in Hv as [? Hv]. specialize (Hh s eq_refl). destruct (IH 0 (position + (rs_SizeBytes s - first))) as [IHn IHz]; [lia| |done|].
  - intros s' Hs. rewrite Forall_forall in Hv. apply Hv. destruct segments; [done|]. injection Hs as ->. by left.
  - cbn. split; [constructor; [cbn; lia|done]|]. rewrite IHz, skippedBytes_0. unfold zeros.
    rewrite <- replicate_add. f_equal. fold (totalSize segments).
    assert (0 <= totalSize segments) by (clear -Hv; induction Hv; cbn; [lia|unfold totalSize in *; lia]). lia.
Qed.

(** ** The results of the downloads *)

Lemma returned_results config reader jobs objects events s :
  FaithfulReader objects reader -> 1 <= rf_MaxAttempts config -> answeredBy config reader jobs events ->
  phaseInv config jobs events (DownloadReturned s None) ->
  exists got, gotAll (dn_received s) got /\ got.*1 ≡ₚ seq 0 (length jobs) /\
    forall i data, (i, data) ∈ got -> exists job, jobs !! i = Some job /\ glen data = Z.of_nat (Z.to_nat (jb_size job)) /\ data = jobRange objects job.
Proof.
  intros Hr Hm Ha Hp. destruct (returned_none _ _ _ _ Hp) as [Hk Hall]. apply gotAll_exists in Hall as [got Hg].
  exists got. split; [done|]. rewrite <- (gotAll_keys _ _ Hg). split; [done|]. intros i data Hin.
  apply (gotAll_elem _ _ _ _ Hg) in Hin as Hin'.
  destruct (lookup_lt_is_Some_2 jobs i) as [job Hjob].
  { assert (i ∈ (dn_received s).*1) as Hi by (apply list_elem_of_fmap; by exists (i, inr data)). rewrite Hk in Hi.
    apply elem_of_seq in Hi. lia. }
  exists job. split; [done|]. destruct Hp as (Hinv & _). rewrite (di_received _ _ _ _ Hinv) in Hin'.
  apply list_elem_of_omap in Hin' as (event & He & Hev). destruct event as [j answer|]; [|done].
  injection Hev as -> ->. destruct (Ha _ _ _ He Hjob) as (ctxErr & whileWaiting & Hread).
  symmetry in Hread. apply (readRetry_inr _ _ _ _ objects) in Hread as [Hl Hd]; [|done..]. unfold glen. by rewrite Hl.
Qed.

Lemma storeRanges_glen jobs received result result' : storeRanges jobs received result = Ok result' -> glen result' = glen result.
Proof.
  revert result. induction received as [|r received IH]; intros result; cbn; [by intros [= ->]|].
  unfold storeRange. destruct (jobs !! r.1) as [[job start]|]; cbn [mbind outcome_bind]; [|apply IH].
  destruct (overwrite _ _ _) as [result1| | |] eqn:E; [|done..]. intros H. apply IH in H. by apply overwrite_glen in E as <-.
Qed.

(** The results of all the jobs of a remote log make the bytes of its objects. *)
Lemma storeRanges_log objects directory token segments first got :
  let jobs := segmentJobs directory token segments first 0 in
  0 <= first -> (forall s, head segments = Some s -> first <= rs_SizeBytes s) -> Forall (fun s => 0 <= rs_SizeBytes s) segments ->
  got.*1 ≡ₚ seq 0 (length jobs) ->
  (forall i data, (i, data) ∈ got -> exists j, jobs !! i = Some j /\ glen data = jb_size j.1 /\ data = jobRange objects j.1) ->
  storeRanges jobs ((fun r => (r.1, inr r.2)) <$> got) (zeros (totalSize segments - skippedBytes first segments))
  = Ok (remoteLogBytes objects directory segments first).
Proof.
  intros jobs Hf Hh Hnn Hk Hgot. destruct (segmentJobs_sizes directory token segments first 0 Hf Hh Hnn) as [Hs Hz].
  fold jobs in Hs, Hz. rewrite <- Hz. set (parts := (fun j => zeros (jb_size j.1)) <$> jobs).
  rewrite storeRanges_parts.
  - rewrite (putParts_all got parts ((fun j => jobRange objects j.1) <$> jobs)).
    + f_equal. by apply segmentJobs_bytes.
    + unfold parts. by rewrite !length_fmap.
    + intros i data Hin. destruct (Hgot i data Hin) as (j & Hjb & _ & ->). by rewrite list_lookup_fmap, Hjb.
    + by rewrite length_fmap.
  - apply segmentJobs_starts. fold jobs. apply Forall2_fmap_l, Forall_Forall2_diag. eapply Forall_impl; [exact Hs|].
    intros j Hj. by apply glen_zeros.
  - intros i data Hin. destruct (Hgot i data Hin) as (j & Hjb & Hl & _). unfold parts. rewrite list_lookup_fmap, Hjb. cbn.
    eexists. split; [done|]. rewrite Forall_forall in Hs. rewrite glen_zeros; [done|]. apply Hs. by eapply list_elem_of_lookup_2.
Qed.

Lemma plannedSize_nonneg segments first : (forall s, head segments = Some s -> first <= rs_SizeBytes s) ->
  Forall (fun s => 0 <= rs_SizeBytes s) segments -> 0 <= totalSize segments - skippedBytes first segments.
Proof.
  intros Hh Hv. destruct segments as [|s segments]; [done|]. specialize (Hh s eq_refl). apply Forall_cons in Hv as [_ Hv].
  cbn [skippedBytes]. rewrite totalSize_cons. assert (0 <= totalSize segments); [|lia].
  clear -Hv. unfold totalSize. induction Hv; cbn; lia.
Qed.

(** What [remoteLogJobs] accepted. *)
Lemma remoteLogJobs_inr settings token info config jobs outputBytes : remoteLogJobs settings token info = inr (config, jobs, outputBytes) ->
  let segments := sortRemote (ri_Segments info) in let first := ri_FirstStartPosition info in
  1 <= rf_MaxAttempts config /\ 1 <= rf_MaxConcurrentReads config /\ 1 <= rf_MaxConcurrentBytes config /\
  jobs = segmentJobs (ri_TabletDirectory info) token segments first 0 /\
  outputBytes = totalSize segments - skippedBytes first segments /\
  0 <= first /\ (forall s, head segments = Some s -> first <= rs_SizeBytes s) /\
  Forall (fun s => 0 <= rs_SizeBytes s) segments /\ Forall (fun j => 0 <= jb_size j.1) jobs.
Proof.
  unfold remoteLogJobs. destruct (remoteNormalized settings) as [|c] eqn:Hc; [done|].
  case_match eqn:Hfirst; [done|]. apply orb_false_iff in Hfirst as [_ Hfirst].
  destruct (planRemoteLogSegments c info) as [|[segments out]] eqn:Hplan; [done|]. case_match; [done|]. intros [= -> <- ->].
  apply remoteNormalized_limits in Hc as (Hm & _ & _ & _ & _ & Hreads & Hbytes).
  apply Z.ltb_ge in Hfirst. apply plannedLog_of in Hplan as Hpl; [|done].
  destruct (plannedLog_loop _ _ _ _ Hfirst Hpl) as [<- _]. destruct Hpl as (_ & _ & Hv & _ & Hh & Hout & _). cbv zeta.
  assert (Forall (fun s => 0 <= rs_SizeBytes s) segments) as Hnn by (eapply Forall_impl; [exact Hv|]; intros ? (_ & _ & ?); lia).
  split_and!; [lia..|done|done|done|done|done|]. by apply segmentJobs_sizes.
Qed.

Lemma returned_error config jobs events s e : 0 < rf_MaxConcurrentReads config ->
  phaseInv config jobs events (DownloadReturned s (Some e)) ->
  firstError events = Some e \/
  firstError events = None /\ e = errorOf SentValidation /\ Exists (fun job => rf_MaxConcurrentBytes config < jb_size job) jobs.
Proof.
  intros Hpos Hp. pose proof Hp as (_ & _ & _ & He). unfold returnedError in He.
  destruct (firstError events) as [e'|] eqn:Hf; [injection He as ->; by left|]. right.
  destruct (returned_oversized _ _ _ _ _ Hp Hf Hpos) as (job & Hjob & Hbig).
  split_and!; [done|by case_match; simplify_eq|]. apply Exists_exists. exists job. split; [by eapply list_elem_of_lookup_2|done].
Qed.

Lemma downloadedLog settings token info objects reader config jobs outputBytes events p :
  remoteLogJobs settings token info = inr (config, jobs, outputBytes) ->
  FaithfulReader objects reader -> answeredBy config reader jobs.*1 events ->
  downloadRun config jobs.*1 events (beginDownloads config jobs.*1) = Some p ->
  match downloadRemoteLogSegments jobs outputBytes p with
  | None => exists s, p = DownloadWaits s
  | Some (Ok (inr data)) =>
    data = remoteLogBytes objects (ri_TabletDirectory info) (sortRemote (ri_Segments info)) (ri_FirstStartPosition info) /\
    glen data = outputBytes /\ firstError events = None
  | Some (Ok (inl e)) =>
    firstError events = Some e \/
    firstError events = None /\ e = errorOf SentValidation /\ Exists (fun job => rf_MaxConcurrentBytes config < jb_size job) jobs.*1
  | Some _ => False
  end.
Proof.
  intros Hj Hr Ha Hrun. apply remoteLogJobs_inr in Hj as (Hm & Hreads & Hbytes & -> & -> & Hf & Hh & Hnn & Hs).
  set (jobs := segmentJobs _ _ _ _ _) in *.
  assert (Forall (fun job => 0 <= jb_size job) jobs.*1) as Hsizes by by apply Forall_fmap.
  pose proof (downloads_phase config jobs.*1 ltac:(lia) ltac:(lia) Hsizes events p Hrun) as Hp.
  destruct p as [s|s [e|]]; cbn [downloadRemoteLogSegments]; [eauto|..].
  { eapply returned_error; [|exact Hp]. lia. }
  destruct (returned_results config reader jobs.*1 objects events s) as (got & Hg & Hk & Hgot); [done|lia|done..|].
  rewrite length_fmap in Hk.
  assert (storeRanges jobs (dn_received s) (zeros (totalSize (sortRemote (ri_Segments info)) -
    skippedBytes (ri_FirstStartPosition info) (sortRemote (ri_Segments info)))) = Ok (remoteLogBytes objects (ri_TabletDirectory info)
    (sortRemote (ri_Segments info)) (ri_FirstStartPosition info))) as E.
  { rewrite Hg. apply storeRanges_log; [done..|]. intros i data Hin. destruct (Hgot i data Hin) as (job & Hjob & Hl & Hd).
    apply list_lookup_fmap_Some in Hjob as ([job' start] & -> & Hjob). exists (job', start). split_and!; [done| |done].
    rewrite Hl. cbn. rewrite Forall_forall in Hs. specialize (Hs _ (list_elem_of_lookup_2 _ _ _ Hjob)). cbn in Hs. lia. }
  rewrite E. cbn [fmap outcome_fmap]. split_and!; [done| |].
  - apply storeRanges_glen in E. rewrite E. apply glen_zeros. by eapply plannedSize_nonneg.
  - destruct Hp as (_ & _ & _ & He). unfold returnedError in He. by destruct (firstError events).
Qed.

(** C5: A remote log that was read holds, byte for byte, the objects of its segments in the order of
    their offsets, without the first bytes that were not asked for, whatever the order the
    downloads ended in and however many attempts they took.  Otherwise the read gives no bytes:
    it gives the first error that happened, or refuses a segment above the budget of bytes. *)
Theorem remote_log_exact settings token info objects reader config jobs outputBytes events p :
  remoteLogJobs settings token info = inr (config, jobs, outputBytes) ->
  FaithfulReader objects reader -> answeredBy config reader jobs.*1 events ->
  downloadRun config jobs.*1 events (beginDownloads config jobs.*1) = Some p ->
  match downloadRemoteLogSegments jobs outputBytes p with
  | None => exists s, p = DownloadWaits s
  | Some (Ok (inr data)) =>
    data = remoteLogBytes objects (ri_TabletDirectory info) (sortRemote (ri_Segments info)) (ri_FirstStartPosition info) /\
    glen data = outputBytes /\ firstError events = None
  | Some (Ok (inl e)) =>
    firstError events = Some e \/
    firstError events = None /\ e = errorOf SentValidation /\ Exists (fun job => rf_MaxConcurrentBytes config < jb_size job) jobs.*1
  | Some _ => False
  end.
Proof. apply downloadedLog. Qed.

(** ** Snapshots *)

Lemma storeFiles_putParts files got downloaded :
  (forall i data, (i, data) ∈ got -> is_Some (files !! i)) ->
  foldl (fun downloaded r => storeFile files r downloaded) downloaded ((fun r => (r.1, inr r.2)) <$> got)
  = putParts ((fun r => (r.1, match files !! r.1 with
                              | Some file => MkSnapshotFile (sf_Path file) (sf_Size file) r.2
                              | None => MkSnapshotFile "" 0 [] end)) <$> got) downloaded.
Proof.
  revert downloaded. induction got as [|[i data] got IH]; intros downloaded H; [done|]. cbn.
  destruct (H i data) as [file Hfile]; [by left|]. rewrite Hfile.
  apply IH. intros k d Hk. eapply H. by right.
Qed.

Lemma validateFilesLoop_None config files total : validateFilesLoop config files total = None <->
  Forall (fun file => sf_Path file <> ""%string /\ 0 < sf_Size file <= rf_MaxFileBytes config) files /\
  (files = [] \/ total + foldr (fun file sum => sf_Size file + sum) 0 files <= rf_MaxTotalBytes config).
Proof.
  revert total. induction files as [|file files IH]; intros total; cbn [validateFilesLoop foldr]; [naive_solver|].
  rewrite Forall_cons. assert (Forall (fun file => sf_Path file <> ""%string /\ 0 < sf_Size file <= rf_MaxFileBytes config) files ->
    0 <= foldr (fun file sum => sf_Size file + sum) 0 files) as Hsum by (clear; induction 1 as [|? ? [_ ?]]; cbn; lia).
  case_match eqn:Hv.
  { split; [done|]. intros [[[Hp ?] _] _]. rewrite bool_decide_false in Hv by done. lia. }
  rewrite !orb_false_iff, bool_decide_eq_false in Hv. destruct Hv as [[Hp ?] ?]. case_match.
  { split; [done|]. intros [[_ Hall] [?|?]]; [done|]. specialize (Hsum Hall). lia. }
  rewrite IH. split.
  - intros [Hall Ho]. split_and!; [done|lia|lia|done|]. right. destruct Ho as [->|?]; cbn; lia.
  - intros [[_ Hall] [?|?]]; [done|]. split; [done|]. destruct files; [by left|]. right. lia.
Qed.

(** A snapshot that was downloaded has the resolver's files in the resolver's order, with exactly
    the bytes of their objects, whatever the order the downloads ended in.  Nothing was downloaded
    unless every file has a path, a size within the limits, and all of them together fit. *)
Theorem snapshot_files_exact settings config token files jobs objects reader events p :
  remoteNormalized settings = inr config -> snapshotJobs config token (inr files) = inr jobs ->
  FaithfulReader objects reader -> answeredBy config reader jobs events ->
  downloadRun config jobs events (beginDownloads config jobs) = Some p ->
  (files <> [] /\ glen files <= rf_MaxFiles config /\
   Forall (fun file => sf_Path file <> ""%string /\ 0 < sf_Size file <= rf_MaxFileBytes config) files /\
   foldr (fun file sum => sf_Size file + sum) 0 files <= rf_MaxTotalBytes config) /\
  match downloadSnapshotFiles files p with
  | None => exists s, p = DownloadWaits s
  | Some (inr downloaded) =>
    downloaded = (fun file => MkSnapshotFile (sf_Path file) (sf_Size file) (take (Z.to_nat (sf_Size file)) (objects (sf_Path file)))) <$> files
  | Some (inl e) =>
    firstError events = Some e \/
    firstError events = None /\ e = errorOf SentValidation /\ Exists (fun file => rf_MaxConcurrentBytes config < sf_Size file) files
  end.
Proof.
  intros Hc Hj Hr Ha Hrun. apply remoteNormalized_limits in Hc as (Hm & _ & _ & _ & _ & Hreads & Hbytes).
  unfold snapshotJobs in Hj. case_match eqn:Hne; [done|]. unfold validateRemoteSnapshotFiles in Hj.
  destruct (rf_MaxFiles config <? glen files) eqn:Hn; [done|]. destruct (validateFilesLoop config files 0) eqn:Hv; [done|].
  injection Hj as <-. apply validateFilesLoop_None in Hv as [Hv Ht].
  split; [destruct Ht as [->|Ht]; [done|]; split_and!; [by intros ->|lia|done|lia]|].
  set (jobs := snapshotDownloadJobs files token) in *.
  assert (Forall (fun job => 0 <= jb_size job) jobs) as Hsizes.
  { apply Forall_fmap. eapply Forall_impl; [exact Hv|]. cbn. lia. }
  pose proof (downloads_phase config jobs ltac:(lia) ltac:(lia) Hsizes events p Hrun) as Hp.
  destruct p as [s|s [e|]]; cbn [downloadSnapshotFiles]; [eauto|..].
  - apply returned_error in Hp as [?|(? & ? & He)]; [by left| |lia]. right. split_and!; [done..|].
    apply Exists_exists in He as (job & (file & -> & Hin)%list_elem_of_fmap & Hb). apply Exists_exists. by exists file.
  - destruct (returned_results config reader jobs objects events s) as (got & Hg & Hk & Hgot); [done|lia|done..|].
    assert (forall i data, (i, data) ∈ got -> exists file, files !! i = Some file /\
      data = take (Z.to_nat (sf_Size file)) (objects (sf_Path file))) as Hgot'.
    { intros i data Hin. destruct (Hgot i data Hin) as (job & Hjob & _ & ->).
      apply list_lookup_fmap_Some in Hjob as (file & -> & Hfile). by exists file. }
    rewrite Hg, storeFiles_putParts by (intros i data Hin; destruct (Hgot' i data Hin) as (file & Hfile & _); by exists file).
    assert (length jobs = length files) as Hlj by apply length_fmap. rewrite Hlj in Hk. apply putParts_all.
    + by rewrite length_replicate, length_fmap.
    + intros i file (r & [= -> ->] & Hin)%list_elem_of_fmap. destruct r as [i data]. destruct (Hgot' i data Hin) as (file & Hfile & ->).
      cbn. by rewrite list_lookup_fmap, Hfile.
    + rewrite <- list_fmap_compose, length_fmap. done.
Qed.

(** ** The scheduler *)

Section Scheduler.
Context (config : RemoteFileReadConfig) (jobs : list remoteDownloadJob).
Context (Hreads : 0 <= rf_MaxConcurrentReads config) (Hbytes : 0 <= rf_MaxConcurrentBytes config).
Context (Hsizes : Forall (fun job => 0 <= jb_size job) jobs).

Definition phaseState (p : downloadPhase) : remoteDownloadScheduler :=
  match p with DownloadWaits s => s | DownloadReturned s _ => s end.

Lemma phaseInv_state events p : phaseInv config jobs events p -> downloadsInv config jobs events (phaseState p).
Proof. destruct p; by intros [H _]. Qed.

(** C22: Downloads never run more reads than allowed, nor of more bytes together; they start in order,
    each at most once and each that started is running or has its result; and after the first
    error, whether a download's or the context's, none starts. *)
Theorem download_limits events p :
  downloadRun config jobs events (beginDownloads config jobs) = Some p ->
  let s := phaseState p in
  glen (dn_active s) <= rf_MaxConcurrentReads config /\ sumSizes jobs (dn_active s) <= rf_MaxConcurrentBytes config /\
  dn_active s ++ (dn_received s).*1 ≡ₚ seq 0 (dn_next s) /\ (dn_next s <= length jobs)%nat /\
  (forall event p', is_Some (firstError (events ++ [event])) -> downloadExec config jobs event p = Some p' ->
     dn_next (phaseState p') = dn_next s).
Proof using Hreads Hbytes Hsizes.
  intros Hp%downloads_phase; [|done..]. pose proof (phaseInv_state _ _ Hp) as [Hn Hj Hb Hr Hl Hrec Hf Hc].
  cbv zeta. split_and!; [done|by rewrite <- Hb|done..|]. intros event p' [e He] Hexec.
  destruct p as [s|s err]; [|done]. destruct Hp as (Hinv & _). cbn in Hexec.
  destruct (awaitCompletion jobs event s) as [s'|] eqn:Ha; [|done]. cbn in Hexec. injection Hexec as <-.
  pose proof (awaitCompletion_inv config jobs Hsizes _ _ _ _ Hinv Ha) as Hinv'.
  cbn [phaseState]. assert (dn_next s' = dn_next s) as <-.
  { destruct event as [i answer|]; cbn in Ha; [case_bool_decide; [|done]; destruct (jobs !! i); [|done]; cbn in Ha|case_match; [|done]];
      by injection Ha as <-. }
  pose proof (di_first _ _ _ _ Hinv') as Hfirst. rewrite He in Hfirst.
  unfold downloadTurn. rewrite (startReady_stops _ _ _ _ Hfirst). by repeat case_match.
Qed.

(** A loop that waits can go on. *)
Lemma waits_can_step events s : phaseInv config jobs events (DownloadWaits s) ->
  exists event p, downloadExec config jobs event (DownloadWaits s) = Some p.
Proof.
  intros (H & Ha & _). destruct (dn_active s) as [|i active] eqn:E; [done|].
  exists (JobDone i (inr [])). eapply downloads_can_step; [exact H|]. rewrite E. by left.
Qed.

Lemma downloadRun_snoc events event p p' p'' :
  downloadRun config jobs events p = Some p' -> downloadExec config jobs event p' = Some p'' ->
  downloadRun config jobs (events ++ [event]) p = Some p''.
Proof.
  revert p. induction events as [|e events IH]; intros p H He; cbn in *; [injection H as ->; by rewrite He|].
  destruct (downloadExec config jobs e p); [|done]. by apply IH.
Qed.

(** C24: [runRemoteDownloads] returns: a loop that waits takes the end of every download that runs, it
    takes no more events than there are downloads and one for the context, and from every state
    it comes to an end.  When it has returned nothing runs any more, and the error is that of the
    first event with one, if any. *)
Theorem downloads_return events p :
  downloadRun config jobs events (beginDownloads config jobs) = Some p ->
  (length events <= length jobs + 1)%nat /\
  (exists events' s err, downloadRun config jobs (events ++ events') (beginDownloads config jobs) = Some (DownloadReturned s err)) /\
  match p with
  | DownloadWaits s => forall i answer, i ∈ dn_active s -> exists p', downloadExec config jobs (JobDone i answer) p = Some p'
  | DownloadReturned s err =>
    dn_active s = [] /\ err = returnedError jobs events s /\
    (err = None -> (dn_received s).*1 ≡ₚ seq 0 (length jobs) /\ Forall (fun r => exists data, r.2 = inr data) (dn_received s))
  end.
Proof using Hreads Hbytes Hsizes.
  intros Hrun. pose proof (downloads_phase _ _ Hreads Hbytes Hsizes _ _ Hrun) as Hp.
  split; [by eapply downloads_bounded, phaseInv_state|]. split.
  - remember (length jobs + 2 - length events)%nat as fuel eqn:Hfuel. revert events p Hrun Hp Hfuel.
    induction fuel as [|fuel IH]; intros events p Hrun Hp Hfuel.
    { pose proof (downloads_bounded _ _ _ _ (phaseInv_state _ _ Hp)). lia. }
    destruct p as [s|s err]; [|exists [], s, err; by rewrite app_nil_r].
    destruct (waits_can_step _ _ Hp) as (event & p & He). pose proof (downloadRun_snoc _ _ _ _ _ Hrun He) as Hrun'.
    destruct (IH (events ++ [event]) p Hrun') as (events' & s' & err & H).
    + by eapply downloads_phase.
    + rewrite length_app. cbn. lia.
    + exists (event :: events'), s', err. by rewrite (cons_middle event), app_assoc.
  - destruct p as [s|s err].
    + destruct Hp as [Hinv _]. intros i answer Hi. by eapply downloads_can_step.
    + pose proof Hp as (_ & Ha & _ & He). split_and!; [done..|]. intros ->. apply returned_none in Hp as [Hk Hall].
      split; [done|]. apply Forall_forall. intros [i answer] Hi. cbn. by eapply Hall.
Qed.

End Scheduler.

(** ** Truncated reads *)

(** A stream that ends early is read again, unless it gave nothing at all: [io.ReadFull] then
    fails with [io.EOF], not with [io.ErrUnexpectedEOF], and [remoteReadTemporary] does not accept
    it. *)
Theorem remote_truncation_retry stream n :
  rm_end stream = None -> (length (rm_bytes stream) < n)%nat ->
  exists err, readRemoteFileStreamAttempt (inr stream) n = inl err /\
    remoteReadTemporary err = bool_decide (rm_bytes stream <> []).
Proof.
  intros He Hl. unfold readRemoteFileStreamAttempt, readFull. rewrite He.
  destruct (n <=? length (rm_bytes stream))%nat eqn:Hn; [apply Nat.leb_le in Hn; lia|].
  destruct (rm_bytes stream); eexists; split; reflexivity.
Qed.

(** ** Instances *)

Definition demoBytes (l : list Z) : list byte := byte.of_Z <$> l.
Definition demoObjects (path : string) : list byte :=
  if bool_decide (path = "/t/a/00000000000000000000.log"%string) then demoBytes [1; 2; 3] else demoBytes [4; 5].

(** Streams of the objects; the first attempt gives one byte. *)
Definition demoReader : remoteReader :=
  StreamReader (fun attempt r =>
    let bytes := drop (Z.to_nat (rq_Offset r)) (demoObjects (rq_Path r)) in
    inr (MkRemoteStream (if attempt =? 1 then take 1 bytes else bytes) None None)).

#[local] Instance demoReader_faithful : FaithfulReader demoObjects demoReader.
Proof. intros attempt r stream [= <-]. cbn. case_match; [apply prefix_take|done]. Qed.

Definition demoRemoteConfig : RemoteFileReadConfig := MkRemoteConfig 3 (50 * 10 ^ 6) 100 100 10 2 4.
Definition demoRemoteInfo : RemoteLogFetchInfo :=
  MkRemoteInfo "/t/" "" 1 [MkRemoteSegment "b" 3 5 2 0; MkRemoteSegment "a" 0 3 3 0].

Definition demoAnswer (job : remoteDownloadJob) : remoteError + list byte :=
  readRemoteFileIntoWithRetry demoRemoteConfig demoReader (fun _ => None) (fun _ => None) (jb_request job) (Z.to_nat (jb_size job)).
Definition demoEvents (jobs : list remoteDownloadJob) (order : list nat) : list downloadEvent :=
  omap (fun i => (fun job => JobDone i (demoAnswer job)) <$> jobs !! i) order.

Lemma demoEvents_answered jobs order : answeredBy demoRemoteConfig demoReader jobs (demoEvents jobs order).
Proof.
  intros i answer job (j & _ & Hj)%list_elem_of_omap Hjob. apply fmap_Some in Hj as (job' & Hj & [= -> ->]).
  rewrite Hjob in Hj. injection Hj as <-. by exists (fun _ => None), (fun _ => None).
Qed.

Definition demoJobs : list (remoteDownloadJob * Z) := segmentJobs "/t/" None (sortRemote (ri_Segments demoRemoteInfo)) 1 0.
Definition demoReturned : downloadPhase :=
  default (beginDownloads demoRemoteConfig demoJobs.*1)
    (downloadRun demoRemoteConfig demoJobs.*1 (demoEvents demoJobs.*1 [1; 0]%nat) (beginDownloads demoRemoteConfig demoJobs.*1)).

Lemma remote_plan_exact_witness :
  planRemoteLogSegments demoRemoteConfig demoRemoteInfo = inr (sortRemote (ri_Segments demoRemoteInfo), 4) /\
  (planRemoteLogSegments demoRemoteConfig demoRemoteInfo = inr (sortRemote (ri_Segments demoRemoteInfo), 4) <->
   plannedLog demoRemoteConfig demoRemoteInfo (sortRemote (ri_Segments demoRemoteInfo)) 4).
Proof. split; [reflexivity|]. apply (remote_plan_exact demoRemoteConfig demoRemoteInfo). cbn. lia. Defined.

Lemma remote_read_exact_witness :
  readRemoteFileIntoWithRetry demoRemoteConfig demoReader (fun _ => None) (fun _ => None)
    (MkRemoteRequest "/t/b/00000000000000000003.log" 2 0 0 2 None) 2 = inr (demoBytes [4; 5]) /\
  length (demoBytes [4; 5]) = 2%nat.
Proof.
  split; [vm_compute; reflexivity|].
  apply (remote_read_exact demoRemoteConfig demoReader (fun _ => None) (fun _ => None) demoObjects
    (MkRemoteRequest "/t/b/00000000000000000003.log" 2 0 0 2 None) 2 (demoBytes [4; 5]));
    [apply demoReader_faithful|cbn; lia|vm_compute; reflexivity].
Defined.

Lemma remote_log_exact_witness :
  downloadRemoteLogSegments demoJobs 4 demoReturned = Some (Ok (inr (demoBytes [2; 3; 4; 5]))) /\
  demoBytes [2; 3; 4; 5] = remoteLogBytes demoObjects "/t/" (sortRemote (ri_Segments demoRemoteInfo)) 1.
Proof.
  pose proof (remote_log_exact demoRemoteConfig None demoRemoteInfo demoObjects demoReader demoRemoteConfig demoJobs 4
    (demoEvents demoJobs.*1 [1; 0]%nat) demoReturned eq_refl demoReader_faithful (demoEvents_answered _ _) ltac:(vm_compute; reflexivity)) as H.
  assert (downloadRemoteLogSegments demoJobs 4 demoReturned = Some (Ok (inr (demoBytes [2; 3; 4; 5])))) as E by (vm_compute; reflexivity).
  rewrite E in H. destruct H as [H _]. split; [exact E|exact H].
Defined.

Definition demoFiles : list RemoteSnapshotFile :=
  [MkSnapshotFile "/t/a/00000000000000000000.log" 3 []; MkSnapshotFile "/s/b" 2 []].
Definition demoSnapshotJobs : list remoteDownloadJob := snapshotDownloadJobs demoFiles None.
Definition demoSnapshot : downloadPhase :=
  default (beginDownloads demoRemoteConfig demoSnapshotJobs)
    (downloadRun demoRemoteConfig demoSnapshotJobs (demoEvents demoSnapshotJobs [0; 1]%nat) (beginDownloads demoRemoteConfig demoSnapshotJobs)).

Lemma snapshot_files_exact_witness :
  Forall (fun file => sf_Path file <> ""%string /\ 0 < sf_Size file <= 100) demoFiles /\
  (exists files, downloadSnapshotFiles demoFiles demoSnapshot = Some (inr files) /\ (sf_Data <$> files) = [demoBytes [1; 2; 3]; demoBytes [4; 5]]).
Proof.
  pose proof (snapshot_files_exact demoRemoteConfig demoRemoteConfig None demoFiles demoSnapshotJobs demoObjects demoReader
    (demoEvents demoSnapshotJobs [0; 1]%nat) demoSnapshot eq_refl eq_refl demoReader_faithful (demoEvents_answered _ _)
    ltac:(vm_compute; reflexivity)) as [(_ & _ & H & _) _].
  split; [exact H|]. eexists. split; vm_compute; reflexivity.
Defined.

Lemma download_limits_witness :
  downloadRun demoRemoteConfig demoJobs.*1 [] (beginDownloads demoRemoteConfig demoJobs.*1) = Some (beginDownloads demoRemoteConfig demoJobs.*1) /\
  glen (dn_active (phaseState (beginDownloads demoRemoteConfig demoJobs.*1))) <= 2.
Proof.
  split; [reflexivity|].
  destruct (download_limits demoRemoteConfig demoJobs.*1 ltac:(cbn; lia) ltac:(cbn; lia) ltac:(apply (bool_decide_unpack _); vm_compute; exact I)
    [] (beginDownloads demoRemoteConfig demoJobs.*1) eq_refl) as [H _]. exact H.
Defined.

Lemma downloads_return_witness :
  downloadRun demoRemoteConfig demoJobs.*1 (demoEvents demoJobs.*1 [1; 0]%nat) (beginDownloads demoRemoteConfig demoJobs.*1) = Some demoReturned /\
  (length (demoEvents demoJobs.*1 [1; 0]%nat) <= 3)%nat.
Proof.
  assert (downloadRun demoRemoteConfig demoJobs.*1 (demoEvents demoJobs.*1 [1; 0]%nat) (beginDownloads demoRemoteConfig demoJobs.*1)
    = Some demoReturned) as E by (vm_compute; reflexivity). split; [exact E|].
  destruct (downloads_return demoRemoteConfig demoJobs.*1 ltac:(cbn; lia) ltac:(cbn; lia) ltac:(apply (bool_decide_unpack _); vm_compute; exact I) _ _ E) as [H _].
  exact H.
Defined.

Lemma remote_truncation_retry_witness :
  exists err, readRemoteFileStreamAttempt (inr (MkRemoteStream [] None None)) 2 = inl err /\ remoteReadTemporary err = false.
Proof. exact (remote_truncation_retry (MkRemoteStream [] None None) 2 eq_refl ltac:(cbn; lia)). Defined.

(** A snapshot whose second file is above the budget of concurrent bytes passes validation: its
    first file is downloaded, and the second is refused afterwards. *)
Example snapshot_refused_late :
  let files := [MkSnapshotFile "/s/a" 2 []; MkSnapshotFile "/s/b" 20 []] in
  exists jobs s,
    snapshotJobs demoRemoteConfig None (inr files) = inr jobs /\
    beginDownloads demoRemoteConfig jobs = DownloadWaits (MkDownloads 1 [0%nat] 2 None true []) /\
    downloadRun demoRemoteConfig jobs [JobDone 0 (inr (demoBytes [1; 2]))] (beginDownloads demoRemoteConfig jobs)
    = Some (DownloadReturned s (Some (errorOf SentValidation))).
Proof. do 2 eexists. split_and!; vm_compute; reflexivity. Qed.
