(* ===== verification/LocalReader.v ===== *)
(** * The local file reader

    Models [LocalRemoteFileReader] of [pkg/fgo/remote_file_reader.go] on a Unix system: which paths
    and [file] URIs it opens, which ranges it gives, and that it is a faithful reader of the files.

    The parts of a URL that [url.Parse] finds, the files and the context are the environment. *)

From Stdlib Require Import Ascii.
From S2P Require Import Prelude Model Errors SecurityToken RemoteFiles.

Record parsedURL := MkURL {
  pu_Scheme : string;
  pu_Host : string;
  pu_RawQuery : string;
  pu_Fragment : string;
  pu_Path : string;
}.

(** An open file: its size when [Stat] asks, its bytes when they are read, what closing it
    returns, and, where the context ends during the read, after how many bytes and with what error. *)
Record localFile := MkLocalFile {
  lf_size : remoteError + Z;
  lf_content : list byte;
  lf_close : option remoteError;
  lf_interrupted : option (nat * remoteError);
}.

(** [filepath.IsAbs]. *)
Definition isAbs (path : string) : bool :=
  match path with String c _ => bool_decide (c = "/"%char) | EmptyString => false end.

Section Local.
Context (parse : string -> option parsedURL).
Context (open : Z -> string -> remoteError + localFile) (ctxErr : Z -> option remoteError).

Definition localRemotePath (rawPath : string) : remoteError + string :=
  match parse rawPath with
  | None => inl (errorOf SentInvalidConfig)
  | Some parsed =>
    if bool_decide (pu_Scheme parsed = ""%string) then
      if isAbs rawPath then inr rawPath else inl (errorOf SentInvalidConfig)
    else if bool_decide (pu_Scheme parsed = "file"%string) then
      if negb (bool_decide (pu_Host parsed = ""%string)) && negb (bool_decide (pu_Host parsed = "localhost"%string))
      then inl (errorOf SentInvalidConfig)
      else if negb (bool_decide (pu_RawQuery parsed = ""%string)) || negb (bool_decide (pu_Fragment parsed = ""%string))
      then inl (errorOf SentInvalidConfig)
      else if isAbs (pu_Path parsed) then inr (pu_Path parsed) else inl (errorOf SentInvalidConfig)
    else inl (errorOf SentUnsupported)
  end.

Definition maxBytesOf (r : RemoteFileRequest) : Z := if rq_MaxBytes r =? 0 then defaultRemoteMaxFileBytes else rq_MaxBytes r.

(** The stream of [io.NewSectionReader] under [contextReader]. *)
Definition sectionStream (file : localFile) (offset length : Z) : remoteStream :=
  let bytes := take (Z.to_nat length) (drop (Z.to_nat offset) (lf_content file)) in
  match lf_interrupted file with
  | None => MkRemoteStream bytes None (lf_close file)
  | Some (n, e) => MkRemoteStream (take n bytes) (Some e) (lf_close file)
  end.

Definition OpenRemoteFile (attempt : Z) (r : RemoteFileRequest) : remoteError + remoteStream :=
  match ctxErr attempt with
  | Some e => inl e
  | None =>
    match localRemotePath (rq_Path r) with
    | inl e => inl e
    | inr path =>
      if (maxBytesOf r <? 1) || (rq_ExpectedSize r <? 0) || (rq_Offset r <? 0) || (rq_Length r <? 0)
      then inl (errorOf SentInvalidConfig)
      else match open attempt path with
           | inl e => inl e
           | inr file =>
             match lf_size file with
             | inl e => inl e
             | inr size =>
               if (0 <? rq_ExpectedSize r) && negb (size =? rq_ExpectedSize r) then inl sizeMismatch
               else
                 let length := if rq_Length r =? 0 then size - rq_Offset r else rq_Length r in
                 if (size <? rq_Offset r) || (length <? 0) || (size - rq_Offset r <? length) || (maxBytesOf r <? length)
                 then inl (errorOf SentValidation)
                 else inr (sectionStream file (rq_Offset r) length)
             end
           end
    end
  end.

(** [io.ReadAll] of [io.LimitReader]: the error of the stream, unless the limit was reached first. *)
Definition readAllLimited (stream : remoteStream) (limit : Z) : remoteError + list byte :=
  if limit <=? glen (rm_bytes stream) then inr (take (Z.to_nat limit) (rm_bytes stream))
  else match rm_end stream with Some e => inl e | None => inr (rm_bytes stream) end.

Definition ReadRemoteFile (attempt : Z) (r : RemoteFileRequest) : remoteError + list byte :=
  match OpenRemoteFile attempt r with
  | inl e => inl e
  | inr stream =>
    let maxBytes := if 0 <? rq_Length r then rq_Length r else maxBytesOf r in
    let readLimit := if maxBytes <? 2 ^ 63 - 1 then maxBytes + 1 else maxBytes in
    match readAllLimited stream readLimit with
    | inl e => inl e
    | inr data => if maxBytes <? glen data then inl (errorOf SentValidation) else inr data
    end
  end.

Definition LocalRemoteFileReader : remoteReader := StreamReader OpenRemoteFile.

End Local.

(** ** Theorems *)

Section Theorems.
Context (parse : string -> option parsedURL) (open : Z -> string -> remoteError + localFile) (ctxErr : Z -> option remoteError).
Context (files : string -> list byte).

(** Every time a file is opened its bytes are those of [files]. *)
Definition stableFiles : Prop := forall attempt path file, open attempt path = inr file -> lf_content file = files path.

(** The object a raw path names. *)
Definition localObjects (rawPath : string) : list byte :=
  match localRemotePath parse rawPath with inr path => files path | inl _ => [] end.

Lemma sectionStream_prefix file offset length :
  rm_bytes (sectionStream file offset length) `prefix_of` drop (Z.to_nat offset) (lf_content file).
Proof.
  unfold sectionStream. destruct (lf_interrupted file) as [[n e]|]; cbn; [|apply prefix_take].
  etrans; [apply prefix_take|apply prefix_take].
Qed.

#[export] Instance LocalRemoteFileReader_faithful : stableFiles -> FaithfulReader localObjects (LocalRemoteFileReader parse open ctxErr).
Proof.
  intros Hs attempt r stream. unfold OpenRemoteFile, localObjects. destruct (ctxErr attempt); [done|].
  destruct (localRemotePath parse (rq_Path r)) as [|path]; [done|]. case_match; [done|].
  destruct (open attempt path) as [|file] eqn:Ho; [done|]. destruct (lf_size file) as [|size]; [done|].
  case_match; [done|]. cbv zeta. case_match; [done|]. intros [= <-]. rewrite <- (Hs _ _ _ Ho). apply sectionStream_prefix.
Qed.

(** Only absolute paths are opened, and [file] URIs of this machine without a query or fragment. *)
Lemma localRemotePath_inr raw path : localRemotePath parse raw = inr path <->
  exists parsed, parse raw = Some parsed /\ isAbs path = true /\
    (pu_Scheme parsed = ""%string /\ path = raw \/
     pu_Scheme parsed = "file"%string /\ path = pu_Path parsed /\ (pu_Host parsed = ""%string \/ pu_Host parsed = "localhost"%string) /\
     pu_RawQuery parsed = ""%string /\ pu_Fragment parsed = ""%string).
Proof.
  unfold localRemotePath. destruct (parse raw) as [[scheme host query fragment upath]|]; cbn; [|naive_solver].
  split.
  - intros H. eexists. split; [done|]. cbn. repeat case_bool_decide; subst; cbn in H; try done; repeat case_match; naive_solver.
  - intros (? & [= <-] & Ha & [[Hs ->]|(Hs & -> & Hh & Hq & Hf)]); cbn in *.
    + rewrite bool_decide_true by done. by rewrite Ha.
    + rewrite bool_decide_false by (by rewrite Hs). rewrite Hs, Hq, Hf, Ha. cbn. by destruct Hh as [->| ->].
Qed.

(** A file that was opened is read to the end of the range at the first attempt: nothing but a
    fault of the file system or the end of the context keeps the local reader from a range that
    lies in a file of the size that was advertised. *)
Theorem local_read_complete config (ctx waiting : Z -> option remoteError) request n path file :
  1 <= rf_MaxAttempts config -> ctxErr 1 = None ->
  localRemotePath parse (rq_Path request) = inr path -> open 1 path = inr file ->
  lf_size file = inr (rq_ExpectedSize request) -> glen (lf_content file) = rq_ExpectedSize request ->
  lf_interrupted file = None -> lf_close file = None ->
  0 <= rq_Offset request -> (0 < Z.of_nat n \/ rq_Offset request = rq_ExpectedSize request) ->
  rq_Offset request + Z.of_nat n <= rq_ExpectedSize request -> Z.of_nat n <= rf_MaxFileBytes config -> 1 <= rf_MaxFileBytes config ->
  readRemoteFileIntoWithRetry config (LocalRemoteFileReader parse open ctxErr) ctx waiting request n
  = inr (take n (drop (Z.to_nat (rq_Offset request)) (lf_content file))).
Proof.
  intros Hm Hctx Hpath Hopen Hsize Hlen Hint Hclose Hoff Hn Hrange Hmax Hmb.
  unfold readRemoteFileIntoWithRetry. destruct (Z.to_nat (rf_MaxAttempts config)) eqn:Ht; [lia|]. cbn [readAttempts].
  enough (readRemoteFileAttempt (LocalRemoteFileReader parse open ctxErr) (setMaxBytes (rf_MaxFileBytes config) request) n 1
          = inr (take n (drop (Z.to_nat (rq_Offset request)) (lf_content file)))) as -> by done.
  unfold readRemoteFileAttempt. cbn [LocalRemoteFileReader setMaxBytes rq_Offset rq_ExpectedSize]. if_false.
  unfold OpenRemoteFile, maxBytesOf. cbn [setRange setMaxBytes rq_Path rq_ExpectedSize rq_MaxBytes rq_Offset rq_Length].
  rewrite Hctx, Hpath. replace (rf_MaxFileBytes config =? 0) with false by lia. cbv iota. if_false.
  rewrite Hopen, Hsize, Z.eqb_refl, andb_false_r.
  set (length := if Z.of_nat n =? 0 then _ else _). assert (length = Z.of_nat n) as -> by (unfold length; case_match; lia). cbv zeta. if_false.
  unfold readRemoteFileStreamAttempt, sectionStream. rewrite Hint, Hclose. unfold readFull, validateRemoteStreamEnd. cbn [rm_bytes rm_end rm_close].
  rewrite Nat2Z.id. unfold glen in Hlen.
  assert (List.length (take n (drop (Z.to_nat (rq_Offset request)) (lf_content file))) = n) as Hl
    by (rewrite length_take, length_drop; lia).
  rewrite Hl, Nat.leb_refl, drop_ge by lia. by rewrite take_idemp.
Qed.
End Theorems.

(** ** An instance: a file of five bytes, read from its third. *)

Definition demoParse (raw : string) : option parsedURL := Some (MkURL "" "" "" "" raw).
Definition demoFile : localFile := MkLocalFile (inr 5) (byte.of_Z <$> [1; 2; 3; 4; 5]) None None.

Lemma local_read_complete_witness :
  readRemoteFileIntoWithRetry (MkRemoteConfig 3 0 100 100 10 2 10) (LocalRemoteFileReader demoParse (fun _ _ => inr demoFile) (fun _ => None))
    (fun _ => None) (fun _ => None) (MkRemoteRequest "/tmp/a" 5 0 2 3 None) 3 = inr (byte.of_Z <$> [3; 4; 5]).
Proof.
  rewrite (local_read_complete demoParse (fun _ _ => inr demoFile) (fun _ => None) (MkRemoteConfig 3 0 100 100 10 2 10)
    (fun _ => None) (fun _ => None) (MkRemoteRequest "/tmp/a" 5 0 2 3 None) 3 "/tmp/a" demoFile);
    try reflexivity; cbn; lia.
Defined.
