(* ===== verification/LogBackend.v ===== *)
(** * The backend of the log scanner

    Models [clientLogScannerBackend] of [pkg/fgo/log_scanner_backend.go] and [Client.readRemoteLog]
    of [pkg/fgo/remote_file.go]: what it asks the servers, what it makes of their replies, which
    replies drop cached metadata, and how the records of remote segments and of the reply itself
    become one answer.

    The request to the leader of a bucket, [RequestBucket] of Metadata.v, and the metadata requests
    are parameters. *)

From S2P Require Import Prelude Model Wire Values Codec RecordBatch Arrow Errors Partition ScanDecode ScanBounds LogScanner Metadata Lookup SecurityToken RemoteFiles RemoteDownload RemoteProperties.

Definition APIKeyFetchLog : Z := 1015.
Definition APIKeyListOffsets : Z := 1021.

(** ** Metadata *)

(** The identifier of a table or a partition, and the leaders of its buckets. *)
Definition backendMetadata (fetchTable : TablePath -> result TableMetadata) (fetchPartition : PhysicalTablePath -> result PartitionMetadata)
    (path : PhysicalTablePath) : result (Z * gmap Z ServerNode) :=
  if bool_decide (pp_Partition path = ""%string) then
    match fetchTable (pp_TablePath path) with inl table => inl (tm_ID table, tm_Buckets table) | inr e => inr e end
  else match fetchPartition path with inl partition => inl (pm_ID partition, pm_Buckets partition) | inr e => inr e end.

(** ** List offsets *)

Record listOffsetsMessage := MkListOffsets {
  lq_FollowerServerId : Z;
  lq_TableId : Z;
  lq_BucketId : list Z;
  lq_OffsetType : Z;
  lq_StartTimestamp : option Z;
  lq_PartitionId : option Z;
}.

Record listOffsetsResult := MkListResult {
  lr_BucketId : Z;
  lr_ErrorCode : Z;
  lr_ErrorMessage : string;
  lr_Offset : Z;
}.

Definition partitionOf (partitionID : Z) : option Z := if 0 <=? partitionID then Some partitionID else None.

Definition listOffsetsRequest (bucket tableID partitionID : Z) (start : ScanOffset) : outcome listOffsetsMessage :=
  let message kind timestamp := MkListOffsets (-1) tableID [bucket] kind timestamp (partitionOf partitionID) in
  if so_Kind start =? ScanFromEarliest then Ok (message 0 None)
  else if so_Kind start =? ScanFromLatest then Ok (message 1 None)
  else if so_Kind start =? ScanFromTimestamp then Ok (message 2 (Some (UnixMilli (so_Timestamp start))))
  else Err ErrInvalidConfig.

(** [listOffset]: the cache after it, and the offset or the error. *)
Definition listOffset (requestBucket : listOffsetsMessage -> result (list listOffsetsResult)) (path : PhysicalTablePath)
    (bucket tableID partitionID : Z) (start : ScanOffset) (md : Metadata) : Metadata * result Z :=
  match listOffsetsRequest bucket tableID partitionID start with
  | Ok message =>
    match requestBucket message with
    | inr e => (md, inr e)
    | inl [r] =>
      if negb (lr_BucketId r =? bucket) then (md, inr (Plain ErrValidation))
      else match responseServerError (lr_ErrorCode r) (lr_ErrorMessage r) APIKeyListOffsets with
           | Some e => (invalidatePhysicalOnMetadataError path (Some (ServerErr e)) md, inr (ServerErr e))
           | None => (md, inl (lr_Offset r))
           end
    | inl _ => (md, inr (Plain ErrValidation))
    end
  | Err e => (md, inr (Plain e))
  | Panic | OutOfFuel => (md, inr (Plain ErrInvalidConfig))
  end.

(** ** Fetch *)

Section Fetch.
Context {Predicate Filter : Type}.

Record logFetchRequest := MkLogFetch {
  fq_path : PhysicalTablePath;
  fq_bucket : Z;
  fq_tableID : Z;
  fq_partitionID : Z;
  fq_offset : Z;
  fq_projection : list Z;
  fq_filter : option (@scanFilter Filter);
  fq_config : @LogScannerConfig Predicate;
}.

(** What [pollBucket] asks its backend: a scanner that resolves schemas asks for whole rows. *)
Definition pollRequest (s : @LogScanner Predicate Filter) (bucket offset : Z) : logFetchRequest :=
  MkLogFetch (sn_path s) bucket (sn_tableID s) (sn_partitionID s) offset (if sn_dynamic s then [] else sn_projection s) (sn_filter s) (sn_config s).

(** The message, for its one table and bucket; the predicate goes with its schema id. *)
Record fetchMessage := MkFetchMessage {
  fm_FollowerServerId : Z;
  fm_MaxBytes : Z;
  fm_MaxWaitMs : Z;
  fm_MinBytes : Z;
  fm_TableId : Z;
  fm_ProjectionPushdownEnabled : bool;
  fm_ProjectedFields : list Z;
  fm_Filter : option (Filter * Z);
  fm_BucketId : Z;
  fm_FetchOffset : Z;
  fm_MaxFetchBytes : Z;
  fm_PartitionId : option Z;
}.

Definition fetchRequest (input : logFetchRequest) : fetchMessage :=
  MkFetchMessage (-1) (lc_FetchMaxBytes (fq_config input)) (int32 (Z.quot (lc_FetchWaitMaxTime (fq_config input)) millisecond))
    (lc_FetchMinBytes (fq_config input)) (fq_tableID input) (negb (glen (fq_projection input) =? 0)) (fq_projection input)
    ((fun filter => (fl_predicate filter, fl_schemaID filter)) <$> fq_filter input)
    (fq_bucket input) (fq_offset input) (lc_FetchMaxBytesForBucket (fq_config input)) (partitionOf (fq_partitionID input)).

Record pbRemoteSegment := MkPbRemoteSegment {
  ps_RemoteLogSegmentId : string;
  ps_RemoteLogStartOffset : Z;
  ps_RemoteLogEndOffset : Z;
  ps_SegmentSizeInBytes : Z;
  ps_MaxTimestamp : Z;
}.

Record pbRemoteLogFetchInfo := MkPbRemoteInfo {
  pi_RemoteLogTabletDir : string;
  pi_PartitionName : string;
  pi_FirstStartPos : Z;
  pi_RemoteLogSegments : list pbRemoteSegment;
}.

Record fetchBucketReply := MkFetchBucket {
  fb_BucketId : Z;
  fb_ErrorCode : Z;
  fb_ErrorMessage : string;
  fb_HighWatermark : Z;
  fb_FilteredEndOffset : option Z;
  fb_Records : list byte;
  fb_RemoteLogFetchInfo : option pbRemoteLogFetchInfo;
}.

(** The tables of a reply, each with its buckets. *)
Abbreviation fetchReply := (list (Z * list fetchBucketReply)).

Definition remoteLogFetchInfo (info : option pbRemoteLogFetchInfo) : option RemoteLogFetchInfo :=
  (fun info => MkRemoteInfo (pi_RemoteLogTabletDir info) (pi_PartitionName info) (pi_FirstStartPos info)
     ((fun s => MkRemoteSegment (ps_RemoteLogSegmentId s) (ps_RemoteLogStartOffset s) (ps_RemoteLogEndOffset s) (ps_SegmentSizeInBytes s)
                  (ps_MaxTimestamp s)) <$> pi_RemoteLogSegments info)) <$> info.

(** [readRemoteLog]; [readSegments] is [readRemoteLogSegments] where a reader is configured. *)
Definition readRemoteLog (readSegments : option (RemoteLogFetchInfo -> remoteError + list byte)) (info : RemoteLogFetchInfo)
    : remoteError + list byte :=
  if glen (ri_Segments info) =? 0 then inr []
  else match readSegments with None => inl (errorOf SentUnsupported) | Some read => read info end.

(** A fetch fails like a request, or while it reads remote segments. *)
Inductive fetchError := FetchCall (e : callError) | FetchRemote (e : remoteError).

(** [fetch] from the one bucket of the reply on. *)
Definition fetchResult (readSegments : option (RemoteLogFetchInfo -> remoteError + list byte)) (result : fetchBucketReply)
    : fetchError + scannerFetch :=
  let fetched records := MkScannerFetch records (fb_HighWatermark result) (default 0 (fb_FilteredEndOffset result))
    (match fb_FilteredEndOffset result with Some _ => true | None => false end) in
  match remoteLogFetchInfo (fb_RemoteLogFetchInfo result) with
  | None => inr (fetched (fb_Records result))
  | Some remote =>
    match readRemoteLog readSegments remote with
    | inl e => inl (FetchRemote e)
    | inr remoteRecords => inr (fetched (remoteRecords ++ fb_Records result))
    end
  end.

(** [fetch]: the cache after it, and what it answers. *)
Definition fetch (requestBucket : fetchMessage -> result fetchReply) (readSegments : option (RemoteLogFetchInfo -> remoteError + list byte))
    (input : logFetchRequest) (md : Metadata) : Metadata * (fetchError + scannerFetch) :=
  match requestBucket (fetchRequest input) with
  | inr e => (md, inl (FetchCall e))
  | inl [(table, [result])] =>
    if negb (table =? fq_tableID input) || negb (fb_BucketId result =? fq_bucket input) then (md, inl (FetchCall (Plain ErrValidation)))
    else match responseServerError (fb_ErrorCode result) (fb_ErrorMessage result) APIKeyFetchLog with
         | Some e => (invalidatePhysicalOnMetadataError (fq_path input) (Some (ServerErr e)) md, inl (FetchCall (ServerErr e)))
         | None => (md, fetchResult readSegments result)
         end
  | inl _ => (md, inl (FetchCall (Plain ErrValidation)))
  end.

End Fetch.

(** What [readRemoteLogSegments] can answer: a refusal before any download, or the result of a
    run of the downloads, each of them read from [reader]. *)
Definition segmentsRead (settings : RemoteFileReadConfig) (token : option FileSystemSecurityToken) (reader : remoteReader)
    (info : RemoteLogFetchInfo) (answer : remoteError + list byte) : Prop :=
  match remoteLogJobs settings token info with
  | inl e => answer = inl e
  | inr (config, jobs, outputBytes) =>
    exists events p, answeredBy config reader jobs.*1 events /\
      downloadRun config jobs.*1 events (beginDownloads config jobs.*1) = Some p /\
      downloadRemoteLogSegments jobs outputBytes p = Some (Ok answer)
  end.

(** ** Theorems *)

Lemma responseServerError_None code message api : responseServerError code message api = None <-> code = ErrorCodeNone.
Proof. unfold responseServerError. case_match; naive_solver lia. Qed.

(** Closes the cases of an answer without a value that keep the cache. *)
Ltac no_answer :=
  split; [intros ?; split; [intros [=]|intros; repeat match goal with H : exists _, _ |- _ => destruct H end; destruct_and?; simplify_eq; congruence]|by left].

(** An offset is what a reply with exactly the bucket that was asked for, and no error, holds. *)
Theorem list_offset_exact requestBucket path bucket tableID partitionID start md :
  let '(md', answer) := listOffset requestBucket path bucket tableID partitionID start md in
  (forall offset, answer = inl offset <->
     exists message r, listOffsetsRequest bucket tableID partitionID start = Ok message /\ requestBucket message = inl [r] /\
       lr_BucketId r = bucket /\ lr_ErrorCode r = ErrorCodeNone /\ lr_Offset r = offset) /\
  (md' = md \/ md' = InvalidatePhysical path md /\ exists e, answer = inr (ServerErr e) /\ se_category e = CatMetadata).
Proof.
  unfold listOffset. destruct (listOffsetsRequest _ _ _ _) as [message|e| |] eqn:Em; [|no_answer..].
  destruct (requestBucket message) as [[|r [|r' rs]]|e] eqn:Er; [no_answer| |no_answer..].
  destruct (lr_BucketId r =? bucket) eqn:Eb; cbn [negb].
  2: { split; [|by left]. intros offset. split; [done|]. intros (m & r' & [= <-] & Hr & Hb & _). rewrite Er in Hr. injection Hr as <-. lia. }
  destruct (responseServerError _ _ _) as [e|] eqn:Ee.
  - split.
    + intros offset. split; [done|]. intros (m & r' & [= <-] & Hr & _ & Hc & _). rewrite Er in Hr. injection Hr as <-.
      apply (responseServerError_None _ (lr_ErrorMessage r) APIKeyListOffsets) in Hc. congruence.
    + unfold invalidatePhysicalOnMetadataError. destruct (isMetadataError (ServerErr e)) eqn:Hm; [|by left].
      right. split; [done|]. exists e. split; [done|]. by apply bool_decide_eq_true in Hm.
  - apply responseServerError_None in Ee. split; [|by left]. intros offset. split.
    + intros [= <-]. exists message, r. split_and!; [done..|lia|done|done].
    + intros (m & r' & [= <-] & Hr & _ & _ & <-). rewrite Er in Hr. by injection Hr as <-.
Qed.

Section FetchTheorems.
Context {Predicate Filter : Type} (requestBucket : @fetchMessage Filter -> result (list (Z * list fetchBucketReply))).
Context (readSegments : option (RemoteLogFetchInfo -> remoteError + list byte)).

(** The records of remote segments that a reply refers to. *)
Definition remotePart (result : fetchBucketReply) : remoteError + list byte :=
  match remoteLogFetchInfo (fb_RemoteLogFetchInfo result) with None => inr [] | Some info => readRemoteLog readSegments info end.

Lemma fetchResult_inr result fetched : fetchResult readSegments result = inr fetched <->
  exists remote, remotePart result = inr remote /\
    fetched = MkScannerFetch (remote ++ fb_Records result) (fb_HighWatermark result) (default 0 (fb_FilteredEndOffset result))
      (match fb_FilteredEndOffset result with Some _ => true | None => false end).
Proof.
  unfold fetchResult, remotePart. destruct (remoteLogFetchInfo _) as [info|]; [|naive_solver].
  destruct (readRemoteLog _ _); naive_solver.
Qed.

(** A fetch answers exactly when the reply has the table and bucket that were asked for, and
    nothing else, without an error, and the remote segments it refers to were read; the records
    are those of the segments followed by those of the reply.  It drops cached metadata only for a
    metadata error of the bucket. *)
Theorem fetch_exact (input : @logFetchRequest Predicate Filter) md :
  let '(md', answer) := fetch requestBucket readSegments input md in
  (forall fetched, answer = inr fetched <->
     exists result remote, requestBucket (fetchRequest input) = inl [(fq_tableID input, [result])] /\
       fb_BucketId result = fq_bucket input /\ fb_ErrorCode result = ErrorCodeNone /\ remotePart result = inr remote /\
       fetched = MkScannerFetch (remote ++ fb_Records result) (fb_HighWatermark result) (default 0 (fb_FilteredEndOffset result))
         (match fb_FilteredEndOffset result with Some _ => true | None => false end)) /\
  (md' = md \/ md' = InvalidatePhysical (fq_path input) md /\ exists e, answer = inl (FetchCall (ServerErr e)) /\ se_category e = CatMetadata).
Proof.
  unfold fetch. destruct (requestBucket (fetchRequest input)) as [[|[table buckets] tables]|e] eqn:Er; [no_answer| |no_answer].
  destruct buckets as [|result [|? ?]]; [by destruct tables; no_answer| |by destruct tables; no_answer].
  destruct tables; [|no_answer].
  destruct (negb (table =? fq_tableID input) || negb (fb_BucketId result =? fq_bucket input)) eqn:Eb.
  { split; [|by left]. intros fetched. split; [done|]. intros (r & remote & [= -> ->] & Hb & _). lia. }
  apply orb_false_iff in Eb as [Ht Hb]. apply negb_false_iff, Z.eqb_eq in Ht, Hb. subst table.
  destruct (responseServerError _ _ _) as [e|] eqn:Ee.
  - split.
    + intros fetched. split; [done|]. intros (r & remote & [= <-] & _ & Hc & _).
      apply (responseServerError_None _ (fb_ErrorMessage result) APIKeyFetchLog) in Hc. congruence.
    + unfold invalidatePhysicalOnMetadataError. destruct (isMetadataError (ServerErr e)) eqn:Hm; [|by left].
      right. split; [done|]. exists e. split; [done|]. by apply bool_decide_eq_true in Hm.
  - apply responseServerError_None in Ee. split; [|by left]. intros fetched. rewrite fetchResult_inr. naive_solver.
Qed.

End FetchTheorems.

(** *** Reading across both tiers *)

Lemma remoteLogBytes_written objects directory segments wss :
  Forall2 (fun s ws => take (Z.to_nat (rs_SizeBytes s)) (objects (remoteLogSegmentPath directory s)) = concat (map wr_bytes ws)) segments wss ->
  remoteLogBytes objects directory segments 0 = concat (map wr_bytes (concat wss)).
Proof.
  induction 1 as [|s ws segments wss Hs _ IH]; [done|]. cbn. rewrite Hs, IH, map_app, concat_app. done.
Qed.

(** The segments of [info] hold the batches: the first one the batches [skipped] that lie before
    the first position and those after it. *)
Definition segmentsHold (objects : string -> list byte) (info : RemoteLogFetchInfo) (skipped : list written) (wss : list (list written)) : Prop :=
  ri_FirstStartPosition info = glen (concat (map wr_bytes skipped)) /\
  match wss with
  | [] => False
  | kept :: wss => Forall2 (fun s ws => take (Z.to_nat (rs_SizeBytes s)) (objects (remoteLogSegmentPath (ri_TabletDirectory info) s)) = concat (map wr_bytes ws))
                     (sortRemote (ri_Segments info)) ((skipped ++ kept) :: wss)
  end.

Lemma segmentsHold_bytes objects info skipped wss : segmentsHold objects info skipped wss ->
  remoteLogBytes objects (ri_TabletDirectory info) (sortRemote (ri_Segments info)) (ri_FirstStartPosition info) = concat (map wr_bytes (concat wss)).
Proof.
  intros [Hf H]. destruct wss as [|kept wss]; [done|]. apply Forall2_cons_inv_r in H as (s & segments & Hs & Hrest & ->). cbn.
  rewrite Hs, map_app, concat_app, Hf. unfold glen. rewrite Nat2Z.id, drop_app_length, map_app, concat_app.
  f_equal. by apply remoteLogBytes_written.
Qed.

(** What [readRemoteLog] gives when it gives bytes. *)
Lemma readRemoteLog_bytes settings token reader read objects info data :
  FaithfulReader objects reader -> segmentsRead settings token reader info (read info) ->
  readRemoteLog (Some read) info = inr data ->
  data = remoteLogBytes objects (ri_TabletDirectory info) (sortRemote (ri_Segments info)) (ri_FirstStartPosition info).
Proof.
  intros Hr Hread. unfold readRemoteLog. case_match eqn:Hn.
  - apply Z.eqb_eq, glen_0_nil in Hn. rewrite Hn. by intros [= <-].
  - intros Hd. rewrite Hd in Hread. unfold segmentsRead in Hread.
    destruct (remoteLogJobs settings token info) as [|[[config jobs] outputBytes]] eqn:Hj; [done|].
    destruct Hread as (events & p & Ha & Hrun & Hres). pose proof (downloadedLog _ _ _ _ _ _ _ _ _ _ Hj Hr Ha Hrun) as H.
    rewrite Hres in H. by destruct H as [H _].
Qed.

Section Tiered.
Context {Rec Arr : Type} (library : ArrowLibrary Rec) (ops : ArrowOps Rec Arr) (zone : Z -> Z).
Context (resolveSchema : TablePath -> Z -> outcome Schema) (path : TablePath) (target : Schema) (compacted : bool).
Context {Predicate Filter : Type} (requestBucket : @fetchMessage Filter -> result (list (Z * list fetchBucketReply))).
Context (settings : RemoteFileReadConfig) (token : option FileSystemSecurityToken) (reader : remoteReader) (read : RemoteLogFetchInfo -> remoteError + list byte).
Context (objects : string -> list byte) {Hreader : FaithfulReader objects reader}.

(** C13: Reading a log across both tiers delivers every record once: when the segments a reply refers
    to hold whole batches, the reply itself the batches after them and possibly the beginning of
    another, and the fetch succeeds, then decoding what it answers gives exactly the records at or
    after the fetch offset, in order, whatever the downloads went through. *)
Theorem tiered_scan_complete (input : @logFetchRequest Predicate Filter) md md' fetched result info skipped wss local cut n rowss :
  fetch requestBucket (Some read) input md = (md', inr fetched) ->
  requestBucket (fetchRequest input) = inl [(fq_tableID input, [result])] ->
  remoteLogFetchInfo (fb_RemoteLogFetchInfo result) = Some info -> segmentsHold objects info skipped wss ->
  segmentsRead settings token reader info (read info) ->
  fb_Records result = concat (map wr_bytes local) ++ take n (wr_bytes cut) ->
  let ws := concat wss ++ local in
  Forall (wellWritten compacted) ws -> wellWritten compacted cut -> (n < length (wr_bytes cut))%nat ->
  Forall (fun w => resolveSchema path (lb_SchemaID (wr_batch w)) = Ok (wr_schema w)) ws ->
  inOrder (match ws with w :: _ => wr_base w | [] => 0 end) ws ->
  Forall2 (fun w rows => evolveScanRecords (recordsFrom zone compacted (fq_bucket input) (fq_offset input) w) (wr_schema w) target = Ok rows) ws rowss ->
  decodeFetchedFetchResponseWithResolver library ops zone resolveSchema path target (fq_bucket input) (fq_offset input)
    (sf_records fetched) compacted = Ok (nextOffset (fq_offset input) ws, concat rowss, []).
Proof.
  intros Hfetch Hreply Hinfo Hhold Hread Hrec ws Hw Hc Hn Hs Ho Hev.
  assert (sf_records fetched = concat (map wr_bytes ws) ++ take n (wr_bytes cut)) as ->.
  { unfold fetch in Hfetch. rewrite Hreply in Hfetch. destruct (negb _ || negb _); [done|].
    destruct (responseServerError _ _ _); [done|]. injection Hfetch as _ Hf.
    apply fetchResult_inr in Hf as (remote & Hr & ->). cbn. unfold remotePart in Hr. rewrite Hinfo in Hr.
    rewrite Hrec. unfold ws. rewrite map_app, concat_app, app_assoc. f_equal. f_equal.
    rewrite <- (segmentsHold_bytes _ _ _ _ Hhold). by eapply readRemoteLog_bytes. }
  destruct (written_header zone compacted cut Hc) as [r Hh].
  unfold decodeFetchedFetchResponseWithResolver, decodeFetchedLogBatchesWithResolver.
  eapply decodeLoop_written; try done; [by eapply completeSize_prefix|auto].
Qed.

End Tiered.

(** ** An instance

    A segment holds two batches, of which the first one is skipped; the reply holds another batch
    and the beginning of a fourth. *)

Definition tieredSkipped : list written := [writtenAs (fetchBatch 7 [[VInt32 0; VNil]])].
Definition tieredSegment : list byte := concat (map wr_bytes (tieredSkipped ++ take 1 fetchLog)).
Definition tieredObjects (_ : string) : list byte := tieredSegment.
Definition tieredReader : remoteReader :=
  StreamReader (fun _ r => inr (MkRemoteStream (drop (Z.to_nat (rq_Offset r)) tieredSegment) None None)).

#[local] Instance tieredReader_faithful : FaithfulReader tieredObjects tieredReader.
Proof. intros attempt r stream [= <-]. done. Qed.

Definition tieredCut : written := writtenAs (fetchBatch 16 [[VInt32 4; VNil]]).
Definition tieredResult : fetchBucketReply :=
  MkFetchBucket 3 0 "" 16 None (concat (map wr_bytes (drop 1 fetchLog)) ++ take 30 (wr_bytes tieredCut))
    (Some (MkPbRemoteInfo "/t" "" (glen (concat (map wr_bytes tieredSkipped))) [MkPbRemoteSegment "a" 7 12 (glen tieredSegment) 0])).
Definition tieredInfo : RemoteLogFetchInfo :=
  default (MkRemoteInfo "" "" 0 []) (remoteLogFetchInfo (fb_RemoteLogFetchInfo tieredResult)).
Definition tieredSettings : RemoteFileReadConfig := MkRemoteConfig 0 0 0 0 0 0 0.
Definition tieredInput : @logFetchRequest unit unit :=
  MkLogFetch (MkPhysicalTablePath fetchPath "") 3 9 (-1) 11 [] None (MkLogScannerConfig [] "" 100 100 1 0 0 None None).
Definition tieredCache : Metadata := MkMetadata (MkServerNode 1 "c:1" CoordinatorServer) ∅ ∅.
Definition tieredRead (info : RemoteLogFetchInfo) : remoteError + list byte := inr (concat (map wr_bytes (take 1 fetchLog))).

Lemma tieredRead_run : segmentsRead tieredSettings None tieredReader tieredInfo (tieredRead tieredInfo).
Proof.
  unfold segmentsRead. destruct (remoteLogJobs tieredSettings None tieredInfo) as [|[[config jobs] out]] eqn:E; [by vm_compute in E|].
  set (answer := fun job => readRemoteFileIntoWithRetry config tieredReader (fun _ => None) (fun _ => None) (jb_request job) (Z.to_nat (jb_size job))).
  exists (omap (fun i => (fun job => JobDone i (answer job)) <$> jobs.*1 !! i) [0%nat]). eexists. split.
  - intros i a job (j & _ & Hj)%list_elem_of_omap Hjob. apply fmap_Some in Hj as (job' & Hj & [= -> ->]).
    rewrite Hjob in Hj. injection Hj as <-. by exists (fun _ => None), (fun _ => None).
  - subst answer. vm_compute in E. injection E as <- <- <-. split; vm_compute; reflexivity.
Qed.

Lemma tiered_scan_complete_witness :
  exists md fetched, fetch (fun _ => inl [(9, [tieredResult])]) (Some tieredRead) tieredInput md = (md, inr fetched) /\
  decodeFetchedFetchResponseWithResolver byteLibrary byteOps (fun _ => 0) fetchResolver fetchPath fetchTarget 3 11 (sf_records fetched) true =
  Ok (16, concat fetchExpected, []).
Proof.
  exists tieredCache. eexists. split; [reflexivity|].
  refine (tiered_scan_complete byteLibrary byteOps (fun _ => 0) fetchResolver fetchPath fetchTarget true (fun _ => inl [(9, [tieredResult])])
    tieredSettings None tieredReader tieredRead tieredObjects tieredInput tieredCache tieredCache _ tieredResult tieredInfo tieredSkipped [take 1 fetchLog]
    (drop 1 fetchLog) tieredCut 30 fetchExpected _ _ _ _ tieredRead_run _ _ _ _ _ _ _).
  - reflexivity.
  - reflexivity.
  - reflexivity.
  - split; [vm_compute; reflexivity|]. constructor; [vm_compute; reflexivity|constructor].
  - reflexivity.
  - repeat constructor; vm_compute; congruence.
  - repeat constructor; vm_compute; congruence.
  - apply Nat.ltb_lt. vm_compute. reflexivity.
  - repeat constructor.
  - vm_compute. repeat split; discriminate.
  - repeat constructor; vm_compute; reflexivity.
Defined.
