(* ===== verification/Admin.v ===== *)
(** * The administration client

    Models [pkg/fadm/client.go] and [pkg/fadm/v1.go], and the messages of the other files of
    [pkg/fadm] (AdminCluster.v): what every operation checks, which request it sends, and what it
    makes of the answer.

    An operation is a tree of the requests it sends: the coordinator, the leader of a bucket or
    [GetTable] answers each of them, in any way, and the operation goes on with the answer.  JSON
    bodies are the documents that [encoding/json] renders, and [None] where it finds none.  A
    reply of another type than the request's is an answer like any other. *)

From stdpp Require Import sorting.
From S2P Require Import Prelude Model Values Codec RecordBatch Errors DecodeSafety SchemaJSON ScanBounds Metadata Lookup LogBackend.

(** ** Documents *)

Record databaseJSON := MkDatabaseJSON {
  dj_Version : Z;
  dj_Comment : option string;
  dj_CustomProperties : option (gmap string string);
}.

Record tableJSON := MkTableJSON {
  tj_Version : Z;
  tj_Schema : schemaJSON;
  tj_Comment : option string;
  tj_PartitionKey : list string;
  tj_BucketKey : list string;
  tj_BucketCount : Z;
  tj_Properties : option (gmap string string);
  tj_CustomProperties : option (gmap string string);
}.

(** [omitempty] of a string. *)
Definition omitEmpty (s : string) : option string := if bool_decide (s = ""%string) then None else Some s.
Definition nonNilMap (m : option (gmap string string)) : option (gmap string string) := Some (default ∅ m).

(** ** Messages

    A partition of a message is [None] for a table without partitions. *)

Definition pbSpec : Type := list (string * string).

Record pbAlterConfig := MkPbAlterConfig { pc_ConfigKey : string; pc_ConfigValue : option string; pc_OpType : Z }.
Record pbAddColumn := MkPbAddColumn { pd_ColumnName : string; pd_DataType : LogicalType; pd_Comment : string; pd_Position : Z }.

Record alterTableMessage := MkAlterTable {
  at_TablePath : TablePath;
  at_IgnoreIfNotExists : bool;
  at_ConfigChanges : list pbAlterConfig;
  at_AddColumns : list pbAddColumn;
  at_DropColumns : list string;
  at_RenameColumns : list (string * string);
  at_BucketCount : option Z;
}.

Record pbAclInfo := MkPbAcl {
  pa_ResourceName : string;
  pa_ResourceType : Z;
  pa_PrincipalName : string;
  pa_PrincipalType : string;
  pa_Host : string;
  pa_OperationType : Z;
  pa_PermissionType : Z;
}.

Record pbAclFilter := MkPbAclFilter {
  px_ResourceName : option string;
  px_ResourceType : Z;
  px_PrincipalName : option string;
  px_PrincipalType : option string;
  px_Host : option string;
  px_OperationType : Z;
  px_PermissionType : Z;
}.

(** A bucket of a lease, and the buckets of a table. *)
Record pbLeaseBucket := MkPbLeaseBucket { pl_PartitionId : option Z; pl_BucketId : Z; pl_SnapshotId : Z }.
Record pbLeaseTable := MkPbLeaseTable { pl_TableId : Z; pl_BucketSnapshots : list pbLeaseBucket }.

Record pbTableBucket := MkPbTableBucket { pt_TableId : Z; pt_PartitionId : option Z; pt_BucketId : Z }.
Record pbBucketOffset := MkPbBucketOffset { po_PartitionId : option Z; po_BucketId : Z; po_LogEndOffset : Z }.
Record pbProducerTable := MkPbProducerTable { po_TableId : Z; po_BucketOffsets : list pbBucketOffset }.

Inductive adminRequest :=
| RqCreateDatabase (name : string) (ignoreIfExists : bool) (body : databaseJSON)
| RqDropDatabase (name : string) (ignoreIfNotExists cascade : bool)
| RqListDatabases (includeSummary : bool)
| RqDatabaseExists (name : string)
| RqGetDatabaseInfo (name : string)
| RqAlterDatabase (name : string) (ignoreIfNotExists : bool) (comment : option string) (changes : list pbAlterConfig)
| RqCreateTable (path : TablePath) (body : tableJSON) (ignoreIfExists : bool)
| RqDropTable (path : TablePath) (ignoreIfNotExists : bool)
| RqListTables (database : string)
| RqTableExists (path : TablePath)
| RqGetTableSchema (path : TablePath) (schemaID : Z)
| RqAlterTable (message : alterTableMessage)
| RqCreatePartition (path : TablePath) (spec : pbSpec) (ignore : bool)
| RqDropPartition (path : TablePath) (spec : pbSpec) (ignoreIfNotExists : bool)
| RqListPartitionInfos (path : TablePath) (partial : option pbSpec)
| RqListOffsets (message : listOffsetsMessage)
| RqGetClusterHealth
| RqListRemoteLogManifests (tableID : Z) (partitionID : option Z)
| RqListKvSnapshots (tableID : Z) (partitionID : option Z)
| RqCreateAcls (acls : list pbAclInfo)
| RqListAcls (filter : pbAclFilter)
| RqDropAcls (filters : list pbAclFilter)
| RqDescribeClusterConfigs
| RqAlterClusterConfigs (changes : list pbAlterConfig)
| RqServerTag (add : bool) (serverIDs : list Z) (tag : Z)
| RqRebalance (goals : list Z)
| RqListRebalanceProgress (rebalanceID : string)
| RqCancelRebalance (rebalanceID : string)
| RqGetFileSystemSecurityToken
| RqGetLatestKvSnapshots (path : TablePath) (partitionName : option string)
| RqGetKvSnapshotMetadata (tableID : Z) (partitionID : option Z) (bucket snapshotID : Z)
| RqAcquireKvSnapshotLease (leaseID : string) (durationMs : Z) (snapshots : list pbLeaseTable)
| RqReleaseKvSnapshotLease (leaseID : string) (buckets : list pbTableBucket)
| RqDropKvSnapshotLease (leaseID : string)
| RqRegisterProducerOffsets (producerID : string) (ttlMs : Z) (tables : list pbProducerTable)
| RqGetProducerOffsets (producerID : string)
| RqDeleteProducerOffsets (producerID : string)
| RqGetLakeSnapshot (path : TablePath) (readable : bool) (snapshotID : option Z)
| RqGetTableStats (tableID : Z) (bucket : Z) (partitionID : option Z)
| RqGetMetadata.

(** An item of a reply with an error of its own. *)
Record errorFields := MkErrorFields { ef_ErrorCode : Z; ef_ErrorMessage : string }.

Record pbServer := MkPbServer { pv_NodeId : Z; pv_Host : string; pv_Port : Z; pv_Rack : string }.
Record pbSnapshot := MkPbSnapshot { pn_BucketId : Z; pn_SnapshotId : option Z; pn_LogOffset : Z }.
Record pbLakeBucket := MkPbLakeBucket { pk_PartitionId : option Z; pk_PartitionName : string; pk_BucketId : Z; pk_LogOffset : Z }.
Record pbManifest := MkPbManifest { pm_TableBucket : pbTableBucket; pm_Path : string; pm_LogEndOffset : Z }.

Record pbRebalancePlan := MkPbPlan {
  pr_PartitionId : option Z;
  pr_BucketId : Z;
  pr_OriginalLeader : option Z;
  pr_NewLeader : option Z;
  pr_OriginalReplicas : list Z;
  pr_NewReplicas : list Z;
}.

Inductive adminResponse :=
| RsDone
| RsListDatabases (names : list string) (summaries : list (string * Z * Z))
| RsExists (exists_ : bool)
| RsGetDatabaseInfo (body : option databaseJSON) (createdTime modifiedTime : Z)
| RsListTables (names : list string)
| RsGetTableSchema (body : option schemaJSON)
| RsListPartitionInfos (partitions : list (Z * pbSpec))
| RsListOffsets (buckets : list listOffsetsResult)
| RsGetClusterHealth (replicas inSync leaders activeLeaders status : Z)
| RsListRemoteLogManifests (manifests : list pbManifest)
| RsKvSnapshots (tableID : Z) (partitionID : option Z) (snapshots : list pbSnapshot)
| RsCreateAcls (results : list (option pbAclInfo * errorFields))
| RsListAcls (acls : list (option pbAclInfo))
| RsDropAcls (results : list (errorFields * list (option pbAclInfo * errorFields)))
| RsDescribeClusterConfigs (configs : list (string * string * string))
| RsRebalance (rebalanceID : string)
| RsRebalanceProgress (rebalanceID : string) (status : Z) (tables : list (Z * list (Z * pbRebalancePlan)))
| RsSecurityToken (schema : string) (token : list byte) (expirationTime : Z) (info : list (string * string))
| RsKvSnapshotMetadata (logOffset : Z) (files : list (string * string))
| RsUnavailableSnapshots (tables : list pbLeaseTable)
| RsRegisterProducerOffsets (code : Z)
| RsGetProducerOffsets (producerID : string) (expirationTime : Z) (tables : list pbProducerTable)
| RsGetLakeSnapshot (tableID snapshotID : Z) (buckets : list pbLakeBucket)
| RsGetTableStats (buckets : list (Z * Z * errorFields))
| RsMetadata (coordinator : option pbServer) (tablets : list (option pbServer)).

(** ** Operations *)

Inductive adminTarget := ToCoordinator | ToBucket (path : PhysicalTablePath) (bucket : Z).

(** A run-time panic is an end of its own. *)
Inductive adminM (A : Type) :=
| Ret (a : A)
| PanicM
| Ask (target : adminTarget) (request : adminRequest) (k : result adminResponse -> adminM A)
| AskTable (path : TablePath) (k : result Table -> adminM A).
Arguments Ret {A} _.
Arguments PanicM {A}.
Arguments Ask {A} _ _ _.
Arguments AskTable {A} _ _.

Fixpoint adminBind {A B} (m : adminM A) (f : A -> adminM B) : adminM B :=
  match m with
  | Ret a => f a
  | PanicM => PanicM
  | Ask target request k => Ask target request (fun answer => adminBind (k answer) f)
  | AskTable path k => AskTable path (fun answer => adminBind (k answer) f)
  end.

#[export] Instance adminM_bind : MBind adminM := fun A B f m => adminBind m f.

(** An error that ends an operation. *)
Definition failM {A} (e : callError) : adminM (result A) := Ret (inr e).

(** A check that comes before what follows. *)
Definition validated {A B} (check : outcome A) (k : A -> adminM (result B)) : adminM (result B) :=
  match check with
  | Ok a => k a
  | Err e => failM (Plain e)
  | Panic | OutOfFuel => PanicM
  end.

Definition unexpected {A} : result A := inr (Plain (ErrText "unexpected response")).

(** A request to the coordinator, and what is made of a reply. *)
Definition coordinator {A} (request : adminRequest) (f : adminResponse -> result A) : adminM (result A) :=
  Ask ToCoordinator request (fun answer => Ret (match answer with inl reply => f reply | inr e => inr e end)).

(** A request whose reply is not looked at. *)
Definition command (request : adminRequest) : adminM (result unit) := coordinator request (fun _ => inl tt).

Definition validateName (name : string) : outcome unit :=
  check (negb (bool_decide (name = ""%string)) && bool_decide (TrimSpace name = name)) ErrInvalidConfig.

(** Runs an operation against answers, the n-th of them to the n-th request, and gives the
    requests it sent. *)
Fixpoint runAdmin {A} (handler : nat -> adminTarget -> adminRequest -> result adminResponse) (getTable : TablePath -> result Table)
    (n : nat) (m : adminM A) : option A * list (adminTarget * adminRequest) :=
  match m with
  | Ret a => (Some a, [])
  | PanicM => (None, [])
  | Ask target request k =>
    let '(a, sent) := runAdmin handler getTable (S n) (k (handler n target request)) in (a, (target, request) :: sent)
  | AskTable path k => runAdmin handler getTable n (k (getTable path))
  end.

(** *** Databases *)

Record DatabaseDescriptor := MkDatabaseDescriptor { dd_Comment : string; dd_Properties : option (gmap string string) }.

Record DatabaseInfo := MkDatabaseInfo {
  di_Name : string;
  di_Comment : string;
  di_Properties : option (gmap string string);
  di_CreatedAt : Time;
  di_ModifiedAt : Time;
  di_TableCount : Z;
}.

Section Operations.
Context (zone : Z -> Z).

(** [millis]: zero is the zero time. *)
Definition millis (value : Z) : Time := if value =? 0 then noTime else UnixMilliLocal zone value.

Definition CreateDatabase (name : string) (definition : DatabaseDescriptor) (ignoreIfExists : bool) : adminM (result unit) :=
  validated (validateName name) (fun _ =>
    command (RqCreateDatabase name ignoreIfExists
      (MkDatabaseJSON 1 (omitEmpty (dd_Comment definition)) (nonNilMap (dd_Properties definition))))).

Definition DropDatabase (name : string) (ignoreIfNotExists cascade : bool) : adminM (result unit) :=
  validated (validateName name) (fun _ => command (RqDropDatabase name ignoreIfNotExists cascade)).

Definition databaseSummaries (reply : adminResponse) : result (list DatabaseInfo) :=
  match reply with
  | RsListDatabases names [] => inl (map (fun name => MkDatabaseInfo name "" None noTime noTime 0) names)
  | RsListDatabases _ summaries =>
    inl (map (fun '(name, createdTime, tableCount) => MkDatabaseInfo name "" None (millis createdTime) noTime tableCount) summaries)
  | _ => unexpected
  end.

Definition ListDatabaseSummaries : adminM (result (list DatabaseInfo)) := coordinator (RqListDatabases true) databaseSummaries.

Definition existsReply (reply : adminResponse) : result bool := match reply with RsExists e => inl e | _ => unexpected end.

Definition DatabaseExists (name : string) : adminM (result bool) :=
  validated (validateName name) (fun _ => coordinator (RqDatabaseExists name) existsReply).

Definition databaseInfo (name : string) (reply : adminResponse) : result DatabaseInfo :=
  match reply with
  | RsGetDatabaseInfo None _ _ => inr (Plain ErrValidation)
  | RsGetDatabaseInfo (Some body) createdTime modifiedTime =>
    inl (MkDatabaseInfo name (default "" (dj_Comment body))%string (dj_CustomProperties body) (millis createdTime) (millis modifiedTime) 0)
  | _ => unexpected
  end.

Definition GetDatabaseInfo (name : string) : adminM (result DatabaseInfo) :=
  validated (validateName name) (fun _ => coordinator (RqGetDatabaseInfo name) (databaseInfo name)).

(** *** Configuration changes *)

Record AlterConfig := MkAlterConfig { ac_Key : string; ac_Value : option string; ac_Op : Z }.

Definition ConfigSet : Z := 0.
Definition ConfigDelete : Z := 1.
Definition ConfigAppend : Z := 2.
Definition ConfigSubtract : Z := 3.

Definition alterConfigMessage (change : AlterConfig) : outcome pbAlterConfig :=
  if bool_decide (ac_Key change = ""%string) || (ac_Op change <? ConfigSet) || (ConfigSubtract <? ac_Op change) then Err ErrInvalidConfig
  else if negb (ac_Op change =? ConfigDelete) && bool_decide (ac_Value change = None) then Err ErrInvalidConfig
  else Ok (MkPbAlterConfig (ac_Key change) (ac_Value change) (ac_Op change)).

(** The loops that append the message of every item, or fail at the first that is refused. *)
Fixpoint appendAll {A B} (message : A -> outcome B) (items : list A) : outcome (list B) :=
  match items with
  | [] => Ok []
  | item :: items => m ← message item; rest ← appendAll message items; Ok (m :: rest)
  end.

Definition AlterDatabase (name : string) (config : list AlterConfig) (comment : option string) (ignoreIfNotExists : bool) : adminM (result unit) :=
  validated (validateName name) (fun _ =>
    if (glen config =? 0) && bool_decide (comment = None) then failM (Plain ErrInvalidConfig)
    else validated (appendAll alterConfigMessage config) (fun changes => command (RqAlterDatabase name ignoreIfNotExists comment changes))).

(** *** Tables *)

Record TableDescriptor := MkTableDescriptor {
  td_Schema : Schema;
  td_Comment : string;
  td_BucketCount : Z;
  td_Properties : option (gmap string string);
  td_CustomProperties : option (gmap string string);
}.

(** [TableDescriptor.JSON]; what [Schema.JSON] leaves of the schema is in SchemaJSON.v. *)
Definition TableDescriptor_JSON (d : TableDescriptor) : outcome tableJSON :=
  _ ← Schema_Validate (td_Schema d);
  if td_BucketCount d <=? 0 then Err ErrInvalidConfig
  else
    '(schema, _) ← Schema_JSON (td_Schema d);
    Ok (MkTableJSON 1 schema (omitEmpty (td_Comment d)) (sch_PartitionKey (td_Schema d)) (sch_BucketKey (td_Schema d)) (td_BucketCount d)
          (nonNilMap (td_Properties d)) (nonNilMap (td_CustomProperties d))).

Definition CreateTable (path : TablePath) (definition : TableDescriptor) (ignoreIfExists : bool) : adminM (result unit) :=
  validated (TablePath_Validate path) (fun _ =>
    validated (TableDescriptor_JSON definition) (fun body => command (RqCreateTable path body ignoreIfExists))).

Definition DropTable (path : TablePath) (ignoreIfNotExists : bool) : adminM (result unit) :=
  validated (TablePath_Validate path) (fun _ => command (RqDropTable path ignoreIfNotExists)).

Definition ListTables (database : string) : adminM (result (list TablePath)) :=
  validated (validateName database) (fun _ =>
    coordinator (RqListTables database) (fun reply =>
      match reply with RsListTables names => inl (map (MkTablePath database) names) | _ => unexpected end)).

Definition TableExists (path : TablePath) : adminM (result bool) :=
  validated (TablePath_Validate path) (fun _ => coordinator (RqTableExists path) existsReply).

Definition GetTableInfo (path : TablePath) : adminM (result Table) :=
  validated (TablePath_Validate path) (fun _ => AskTable path Ret).

(** An outcome as a result; its panics are those of the operation. *)
Definition ofOutcome {A} (o : outcome A) : adminM (result A) := validated o (fun a => Ret (inl a)).

Definition GetTableSchema (path : TablePath) (schemaID : Z) : adminM (result Schema) :=
  validated (TablePath_Validate path) (fun _ =>
    if schemaID <? 0 then failM (Plain ErrInvalidConfig)
    else Ask ToCoordinator (RqGetTableSchema path schemaID) (fun answer =>
      match answer with
      | inr e => failM e
      | inl (RsGetTableSchema (Some body)) => ofOutcome (ParseSchemaJSON body)
      | inl (RsGetTableSchema None) => failM (Plain ErrInvalidSchema)
      | inl _ => Ret unexpected
      end)).

Record AddColumn := MkAddColumn { an_Name : string; an_Type : LogicalType; an_Description : string; an_First : bool }.

Record AlterTableChanges := MkAlterTableChanges {
  al_Config : list AlterConfig;
  al_Add : list AddColumn;
  al_Drop : list string;
  al_Rename : list (string * string);
  al_BucketCount : option Z;
}.

Definition addedColumn (change : AddColumn) : outcome pbAddColumn :=
  if bool_decide (an_Name change = ""%string) then Err ErrInvalidConfig
  else
    _ ← LogicalType_Validate (an_Type change);
    Ok (MkPbAddColumn (an_Name change) (an_Type change) (an_Description change) (if an_First change then 1 else 0)).

Definition droppedColumn (name : string) : outcome string :=
  if bool_decide (name = ""%string) then Err ErrInvalidConfig else Ok name.

Definition renamedColumn (rename : string * string) : outcome (string * string) :=
  if bool_decide (rename.1 = ""%string) || bool_decide (rename.2 = ""%string) then Err ErrInvalidConfig else Ok rename.

Definition AlterTable (path : TablePath) (changes : AlterTableChanges) (ignoreIfNotExists : bool) : adminM (result unit) :=
  validated (TablePath_Validate path) (fun _ =>
    if (glen (al_Config changes) + glen (al_Add changes) + glen (al_Drop changes) + glen (al_Rename changes) =? 0)
       && bool_decide (al_BucketCount changes = None) then failM (Plain ErrInvalidConfig)
    else if match al_BucketCount changes with Some count => count <=? 0 | None => false end then failM (Plain ErrInvalidConfig)
    else
      validated (appendAll alterConfigMessage (al_Config changes)) (fun config =>
      validated (appendAll addedColumn (al_Add changes)) (fun add =>
      validated (appendAll droppedColumn (al_Drop changes)) (fun dropped =>
      validated (appendAll renamedColumn (al_Rename changes)) (fun renamed =>
        command (RqAlterTable (MkAlterTable path ignoreIfNotExists config add dropped renamed (al_BucketCount changes)))))))).

(** *** Partitions *)

Abbreviation PartitionSpec := (gmap string string).

Definition PartitionSpec_validate (p : PartitionSpec) : outcome unit :=
  check (negb (Z.of_nat (size p) =? 0)
         && forallb (fun e => negb (bool_decide (e.1 = ""%string)) && negb (bool_decide (e.2 = ""%string))) (map_to_list p)) ErrInvalidConfig.

(** [slices.Sort] of the keys, bytewise. *)
Definition stringLe (a b : string) : Prop := String.leb a b = true.
#[export] Instance stringLe_dec : RelDecision stringLe := fun a b => decide (String.leb a b = true).

Definition PartitionSpec_proto (p : PartitionSpec) : pbSpec :=
  map (fun key => (key, default "" (p !! key))%string) (merge_sort stringLe (map_to_list p).*1).

(** [partitionSpec]: a later value of a key replaces an earlier one. *)
Definition partitionSpec (spec : pbSpec) : PartitionSpec := foldl (fun m e => <[e.1 := e.2]> m) ∅ spec.

Definition CreatePartition (path : TablePath) (spec : PartitionSpec) (ignoreIfExists : bool) : adminM (result unit) :=
  validated (TablePath_Validate path) (fun _ =>
    validated (PartitionSpec_validate spec) (fun _ => command (RqCreatePartition path (PartitionSpec_proto spec) ignoreIfExists))).

Definition DropPartition (path : TablePath) (spec : PartitionSpec) (ignoreIfNotExists : bool) : adminM (result unit) :=
  validated (TablePath_Validate path) (fun _ =>
    validated (PartitionSpec_validate spec) (fun _ => command (RqDropPartition path (PartitionSpec_proto spec) ignoreIfNotExists))).

Definition partitionInfos (reply : adminResponse) : result (list (Z * PartitionSpec)) :=
  match reply with
  | RsListPartitionInfos partitions => inl (map (fun p => (p.1, partitionSpec p.2)) partitions)
  | _ => unexpected
  end.

Definition ListPartitionInfos (path : TablePath) (partial : PartitionSpec) : adminM (result (list (Z * PartitionSpec))) :=
  validated (TablePath_Validate path) (fun _ =>
    if Z.of_nat (size partial) =? 0 then coordinator (RqListPartitionInfos path None) partitionInfos
    else validated (PartitionSpec_validate partial) (fun _ =>
           coordinator (RqListPartitionInfos path (Some (PartitionSpec_proto partial))) partitionInfos)).

(** *** Offsets *)

Record OffsetResult := MkOffsetResult { or_Bucket : Z; or_Offset : Z; or_Err : option callError }.

Definition responseError (fields : errorFields) (api : Z) : option callError :=
  ServerErr <$> responseServerError (ef_ErrorCode fields) (ef_ErrorMessage fields) api.

(** [applyOffsetSpec]: the type, which other kinds leave unset, and the timestamp. *)
Definition offsetMessage (tableID partitionID bucket : Z) (spec : ScanOffset) : listOffsetsMessage :=
  let '(kind, timestamp) :=
    if so_Kind spec =? ScanFromEarliest then (0, None)
    else if so_Kind spec =? ScanFromLatest then (1, None)
    else if so_Kind spec =? ScanFromTimestamp then (2, Some (UnixMilli (so_Timestamp spec)))
    else (0, None) in
  MkListOffsets (-1) tableID [bucket] kind timestamp (partitionOf partitionID).

Definition offsetResult (bucket : Z) (answer : result adminResponse) : OffsetResult :=
  match answer with
  | inr e => MkOffsetResult bucket 0 (Some e)
  | inl (RsListOffsets [item]) =>
    if negb (lr_BucketId item =? bucket) then MkOffsetResult bucket 0 (Some (Plain ErrValidation))
    else MkOffsetResult bucket (lr_Offset item)
           (responseError (MkErrorFields (lr_ErrorCode item) (lr_ErrorMessage item)) APIKeyListOffsets)
  | inl _ => MkOffsetResult bucket 0 (Some (Plain ErrValidation))
  end.

(** One item after the other. *)
Fixpoint eachBucket {A} (f : Z -> adminM A) (buckets : list Z) : adminM (list A) :=
  match buckets with
  | [] => Ret []
  | bucket :: buckets => a ← f bucket; rest ← eachBucket f buckets; Ret (a :: rest)
  end.

Definition offsetsRefused (spec : ScanOffset) : option callError :=
  match ScanOffset_Validate spec with
  | Ok _ => if so_Kind spec =? ScanFromOffset then Some (Plain ErrInvalidConfig) else None
  | Err e => Some (Plain e)
  | Panic | OutOfFuel => Some (Plain ErrInvalidConfig)
  end.

Definition ListOffsets (tableID : Z) (partition : PhysicalTablePath) (partitionID : Z) (buckets : list Z) (spec : ScanOffset)
    : adminM (list OffsetResult) :=
  match offsetsRefused spec with
  | Some e => Ret (map (fun bucket => MkOffsetResult bucket 0 (Some e)) buckets)
  | None =>
    eachBucket (fun bucket =>
      Ask (ToBucket partition bucket) (RqListOffsets (offsetMessage tableID partitionID bucket spec))
        (fun answer => Ret (offsetResult bucket answer))) buckets
  end.

(** *** The rest of [v1.go] *)

Record ClusterHealth := MkClusterHealth {
  ch_Replicas : Z;
  ch_InSyncReplicas : Z;
  ch_LeaderReplicas : Z;
  ch_ActiveLeaderReplicas : Z;
  ch_Status : Z;
}.

Definition GetClusterHealth : adminM (result ClusterHealth) :=
  coordinator RqGetClusterHealth (fun reply =>
    match reply with
    | RsGetClusterHealth replicas inSync leaders activeLeaders status => inl (MkClusterHealth replicas inSync leaders activeLeaders status)
    | _ => unexpected
    end).

Record RemoteLogManifest := MkManifest {
  mf_TableID : Z;
  mf_PartitionID : Z;
  mf_Bucket : Z;
  mf_Path : string;
  mf_LogEndOffset : Z;
}.

Definition invalidIdentity (tableID partitionID : Z) : bool := (tableID <? 0) || (partitionID <? -1).

Definition ListRemoteLogManifests (tableID partitionID : Z) : adminM (result (list RemoteLogManifest)) :=
  if invalidIdentity tableID partitionID then failM (Plain ErrInvalidConfig)
  else coordinator (RqListRemoteLogManifests tableID (partitionOf partitionID)) (fun reply =>
    match reply with
    | RsListRemoteLogManifests manifests =>
      inl (map (fun item => let bucket := pm_TableBucket item in
             MkManifest (pt_TableId bucket) (default (-1) (pt_PartitionId bucket)) (pt_BucketId bucket) (pm_Path item) (pm_LogEndOffset item)) manifests)
    | _ => unexpected
    end).

Record KVSnapshot := MkKVSnapshot { kn_Bucket : Z; kn_SnapshotID : Z; kn_LogOffset : Z; kn_Available : bool }.
Record KVSnapshots := MkKVSnapshots { ks_TableID : Z; ks_PartitionID : Z; ks_Snapshots : list KVSnapshot }.

(** The reply of [ListKVSnapshots] and of [GetLatestKVSnapshots]. *)
Definition kvSnapshots (reply : adminResponse) : result KVSnapshots :=
  match reply with
  | RsKvSnapshots tableID partitionID snapshots =>
    inl (MkKVSnapshots tableID (default (-1) partitionID)
      (map (fun s => MkKVSnapshot (pn_BucketId s) (default 0 (pn_SnapshotId s)) (pn_LogOffset s)
                       (match pn_SnapshotId s with Some _ => true | None => false end)) snapshots))
  | _ => unexpected
  end.

Definition ListKVSnapshots (tableID partitionID : Z) : adminM (result KVSnapshots) :=
  if invalidIdentity tableID partitionID then failM (Plain ErrInvalidConfig)
  else coordinator (RqListKvSnapshots tableID (partitionOf partitionID)) kvSnapshots.

End Operations.
