(* ===== verification/AdminCluster.v ===== *)
(** * The administration client: access control, cluster and snapshots

    Models [pkg/fadm/acl.go], [advanced.go], [servers.go], [kv_snapshot.go],
    [producer_offsets.go] and [lake_snapshot.go], on the operations of Admin.v. *)

From stdpp Require Import sorting.
From S2P Require Import Prelude Model Values Codec RecordBatch Errors DecodeSafety SchemaJSON ScanBounds Metadata Lookup SecurityToken LogBackend Admin.

(** ** Access control *)

Definition ACLResourceAny : Z := 1.
Definition ACLOperationAny : Z := 1.
Definition ACLPermissionAny : Z := 1.
Definition ACLPermissionAllow : Z := 2.

Definition ACLResourceType_valid (t : Z) (allowAny : bool) : bool :=
  (allowAny && (t =? ACLResourceAny)) || (t =? 2) || (t =? 3) || (t =? 4).
Definition ACLOperation_valid (o : Z) (allowAny : bool) : bool := (allowAny && (o =? ACLOperationAny)) || ((2 <=? o) && (o <=? 8)).
Definition ACLPermission_valid (p : Z) (allowAny : bool) : bool := (allowAny && (p =? ACLPermissionAny)) || (p =? ACLPermissionAllow).

Record ACLBinding := MkACL {
  acl_ResourceName : string;
  acl_ResourceType : Z;
  acl_PrincipalName : string;
  acl_PrincipalType : string;
  acl_Host : string;
  acl_Operation : Z;
  acl_Permission : Z;
}.

Record ACLBindingFilter := MkACLFilter {
  af_ResourceName : option string;
  af_ResourceType : Z;
  af_PrincipalName : option string;
  af_PrincipalType : option string;
  af_Host : option string;
  af_Operation : Z;
  af_Permission : Z;
}.

(** [strings.EqualFold] against an ASCII name, to which the long s (C5 BF) and the Kelvin sign
    (E2 84 AA) fold as well as the two cases of a letter. *)
Fixpoint foldASCII (l : list Z) : list Z :=
  match l with
  | 197 :: 191 :: l => 115 :: foldASCII l
  | 226 :: 132 :: 170 :: l => 107 :: foldASCII l
  | z :: l => (if (65 <=? z) && (z <=? 90) then z + 32 else z) :: foldASCII l
  | [] => []
  end.
Definition equalFoldASCII (s name : string) : bool :=
  bool_decide (foldASCII (map byte.unsigned (bytesOf s)) = foldASCII (map byte.unsigned (bytesOf name))).

Definition ACLPrincipalWildcard : string := "*".
Definition canonicalPrincipals : list string := ["User"; "Group"; "Role"; ACLPrincipalWildcard]%string.

Definition validateACLPrincipal (name principalType : string) : outcome unit :=
  if bool_decide (name = ""%string) then Err ErrInvalidConfig
  else if bool_decide (principalType = ""%string) || negb (bool_decide (TrimSpace principalType = principalType)) then Err ErrInvalidConfig
  else if existsb (fun canonical => equalFoldASCII principalType canonical && negb (bool_decide (principalType = canonical))) canonicalPrincipals
  then Err ErrInvalidConfig
  else if xorb (bool_decide (name = "*"%string)) (bool_decide (principalType = ACLPrincipalWildcard)) then Err ErrInvalidConfig
  else Ok tt.

Definition ACLBinding_validate (a : ACLBinding) : outcome unit :=
  if bool_decide (acl_ResourceName a = ""%string) then Err ErrInvalidConfig
  else if negb (ACLResourceType_valid (acl_ResourceType a) false) then Err ErrInvalidConfig
  else
    _ ← validateACLPrincipal (acl_PrincipalName a) (acl_PrincipalType a);
    if bool_decide (acl_Host a = ""%string) then Err ErrInvalidConfig
    else if negb (ACLOperation_valid (acl_Operation a) false) then Err ErrInvalidConfig
    else if negb (acl_Permission a =? ACLPermissionAllow) then Err ErrInvalidConfig
    else Ok tt.

Definition ACLBinding_message (a : ACLBinding) : pbAclInfo :=
  MkPbAcl (acl_ResourceName a) (acl_ResourceType a) (acl_PrincipalName a) (acl_PrincipalType a) (acl_Host a) (acl_Operation a) (acl_Permission a).

Definition ACLBindingFilter_validate (f : ACLBindingFilter) : outcome unit :=
  if negb (ACLResourceType_valid (af_ResourceType f) true) then Err ErrInvalidConfig
  else if bool_decide (af_ResourceName f = Some ""%string) then Err ErrInvalidConfig
  else
    _ ← match af_PrincipalName f, af_PrincipalType f with
        | None, None => Ok tt
        | Some name, Some principalType => validateACLPrincipal name principalType
        | _, _ => Err ErrInvalidConfig
        end;
    if bool_decide (af_Host f = Some ""%string) then Err ErrInvalidConfig
    else if negb (ACLOperation_valid (af_Operation f) true) then Err ErrInvalidConfig
    else if negb (ACLPermission_valid (af_Permission f) true) then Err ErrInvalidConfig
    else Ok tt.

Definition ACLBindingFilter_message (f : ACLBindingFilter) : pbAclFilter :=
  MkPbAclFilter (af_ResourceName f) (af_ResourceType f) (af_PrincipalName f) (af_PrincipalType f) (af_Host f) (af_Operation f) (af_Permission f).

(** [aclFromMessage]: what a reply holds is checked like what a caller gives. *)
Definition aclFromMessage (message : option pbAclInfo) : outcome ACLBinding :=
  match message with
  | None => Err ErrValidation
  | Some m =>
    let acl := MkACL (pa_ResourceName m) (pa_ResourceType m) (pa_PrincipalName m) (pa_PrincipalType m) (pa_Host m) (pa_OperationType m)
                 (pa_PermissionType m) in
    match ACLBinding_validate acl with Ok _ => Ok acl | Err _ => Err ErrValidation | Panic => Panic | OutOfFuel => OutOfFuel end
  end.

Definition APIKeyCreateAcls : Z := 1039.
Definition APIKeyDropAcls : Z := 1041.

Record CreateACLResult := MkCreateACLResult { cr_Binding : ACLBinding; cr_Err : option callError }.
Record DropACLResult := MkDropACLResult { dr_Filter : ACLBindingFilter; dr_Matches : list CreateACLResult; dr_Err : option callError }.

Definition aclResult (api : Z) (item : option pbAclInfo * errorFields) : outcome CreateACLResult :=
  acl ← aclFromMessage item.1;
  Ok (MkCreateACLResult acl (responseError item.2 api)).

(** The message of an item that is valid. *)
Definition checkedMessage {A B} (validate : A -> outcome unit) (message : A -> B) (a : A) : outcome B := _ ← validate a; Ok (message a).

Definition CreateACLs (acls : list ACLBinding) : adminM (result (list CreateACLResult)) :=
  if glen acls =? 0 then failM (Plain ErrInvalidConfig)
  else validated (appendAll (checkedMessage ACLBinding_validate ACLBinding_message) acls) (fun messages =>
    Ask ToCoordinator (RqCreateAcls messages) (fun answer =>
      match answer with
      | inr e => failM e
      | inl (RsCreateAcls results) =>
        if negb (glen results =? glen acls) then failM (Plain ErrValidation)
        else ofOutcome (appendAll (aclResult APIKeyCreateAcls) results)
      | inl _ => Ret unexpected
      end)).

Definition ListACLs (filter : ACLBindingFilter) : adminM (result (list ACLBinding)) :=
  validated (ACLBindingFilter_validate filter) (fun _ =>
    Ask ToCoordinator (RqListAcls (ACLBindingFilter_message filter)) (fun answer =>
      match answer with
      | inr e => failM e
      | inl (RsListAcls acls) => ofOutcome (appendAll aclFromMessage acls)
      | inl _ => Ret unexpected
      end)).

Definition dropResult (item : ACLBindingFilter * (errorFields * list (option pbAclInfo * errorFields))) : outcome DropACLResult :=
  matches ← appendAll (aclResult APIKeyDropAcls) item.2.2;
  Ok (MkDropACLResult item.1 matches (responseError item.2.1 APIKeyDropAcls)).

Definition DropACLs (filters : list ACLBindingFilter) : adminM (result (list DropACLResult)) :=
  if glen filters =? 0 then failM (Plain ErrInvalidConfig)
  else validated (appendAll (checkedMessage ACLBindingFilter_validate ACLBindingFilter_message) filters) (fun messages =>
    Ask ToCoordinator (RqDropAcls messages) (fun answer =>
      match answer with
      | inr e => failM e
      | inl (RsDropAcls results) =>
        if negb (glen results =? glen filters) then failM (Plain ErrValidation)
        else ofOutcome (appendAll dropResult (zip filters results))
      | inl _ => Ret unexpected
      end)).

(** ** Cluster *)

Definition DescribeClusterConfigs : adminM (result (list (string * string * string))) :=
  coordinator RqDescribeClusterConfigs (fun reply => match reply with RsDescribeClusterConfigs configs => inl configs | _ => unexpected end).

(** The check of [AlterClusterConfigs], which is not that of [alterConfigMessage]. *)
Definition clusterConfigMessage (change : AlterConfig) : outcome pbAlterConfig :=
  if bool_decide (ac_Key change = ""%string) || (ac_Op change <? ConfigSet) || (ConfigSubtract <? ac_Op change) then Err ErrInvalidConfig
  else Ok (MkPbAlterConfig (ac_Key change) (ac_Value change) (ac_Op change)).

Definition AlterClusterConfigs (changes : list AlterConfig) : adminM (result unit) :=
  if glen changes =? 0 then failM (Plain ErrInvalidConfig)
  else validated (appendAll clusterConfigMessage changes) (fun messages => command (RqAlterClusterConfigs messages)).

Definition ServerTagPermanentOffline : Z := 0.
Definition ServerTagTemporaryOffline : Z := 1.

Definition changeServerTag (add : bool) (serverIDs : list Z) (tag : Z) : adminM (result unit) :=
  if (glen serverIDs =? 0) || (negb (tag =? ServerTagPermanentOffline) && negb (tag =? ServerTagTemporaryOffline)) then failM (Plain ErrInvalidConfig)
  else if existsb (fun id => id <? 0) serverIDs then failM (Plain ErrInvalidConfig)
  else command (RqServerTag add serverIDs tag).

Definition AddServerTag : list Z -> Z -> adminM (result unit) := changeServerTag true.
Definition RemoveServerTag : list Z -> Z -> adminM (result unit) := changeServerTag false.

Record RebalanceBucketProgress := MkRebalanceBucket {
  rp_PartitionID : Z;
  rp_Bucket : Z;
  rp_Status : Z;
  rp_OriginalLeader : Z;
  rp_NewLeader : Z;
  rp_OriginalReplicas : list Z;
  rp_NewReplicas : list Z;
}.
Record RebalanceProgress := MkRebalanceProgress {
  rb_ID : string;
  rb_Status : Z;
  rb_Tables : list (Z * list RebalanceBucketProgress);
}.

Definition Rebalance (goals : list Z) : adminM (result string) :=
  if glen goals =? 0 then failM (Plain ErrInvalidConfig)
  else coordinator (RqRebalance goals) (fun reply =>
    match reply with
    | RsRebalance id => if bool_decide (id = ""%string) then inr (Plain ErrValidation) else inl id
    | _ => unexpected
    end).

Definition rebalanceBucket (item : Z * pbRebalancePlan) : RebalanceBucketProgress :=
  let plan := item.2 in
  MkRebalanceBucket (default 0 (pr_PartitionId plan)) (pr_BucketId plan) item.1 (default 0 (pr_OriginalLeader plan)) (default 0 (pr_NewLeader plan))
    (pr_OriginalReplicas plan) (pr_NewReplicas plan).

Definition rebalanceProgress (reply : adminResponse) : result RebalanceProgress :=
  match reply with
  | RsRebalanceProgress id status tables =>
    inl (MkRebalanceProgress id status (map (fun table => (table.1, map rebalanceBucket table.2)) tables))
  | _ => unexpected
  end.

Definition ListRebalanceProgress (id : string) : adminM (result RebalanceProgress) :=
  if bool_decide (id = ""%string) then failM (Plain ErrInvalidConfig)
  else coordinator (RqListRebalanceProgress id) rebalanceProgress.

(** [WaitRebalance]; [waits] are the waits between polls: whether the timer fired, or the error
    of the context.  When they are used up the call still waits, and the result is [None]. *)
Fixpoint waitRebalanceLoop (waits : list (option callError)) (id : string) : adminM (option (result RebalanceProgress)) :=
  answer ← ListRebalanceProgress id;
  match answer with
  | inr e => Ret (Some (inr e))
  | inl progress =>
    if negb (rb_Status progress =? 0) then Ret (Some (inl progress))
    else match waits with
         | [] => Ret None
         | Some e :: _ => Ret (Some (inr e))
         | None :: waits => waitRebalanceLoop waits id
         end
  end.

Definition WaitRebalance (id : string) (interval : Z) (waits : list (option callError)) : adminM (option (result RebalanceProgress)) :=
  if interval <=? 0 then Ret (Some (inr (Plain ErrInvalidConfig))) else waitRebalanceLoop waits id.

Definition CancelRebalance (id : string) : adminM (result unit) :=
  if bool_decide (id = ""%string) then failM (Plain ErrInvalidConfig) else command (RqCancelRebalance id).

Definition GetFileSystemSecurityToken (zone : Z -> Z) : adminM (result (string * list byte * Time * gmap string string)) :=
  coordinator RqGetFileSystemSecurityToken (fun reply =>
    match reply with
    | RsSecurityToken schema token expirationTime info =>
      inl (schema, token, millis zone expirationTime, foldl (fun m e => <[e.1 := e.2]> m) ∅ info)
    | _ => unexpected
    end).

(** ** Servers *)

Record AdminServerNode := MkAdminServer { an_ID : Z; an_Host : string; an_Port : Z; an_ServerType : ServerType; an_Rack : string }.

Definition serverNode (node : option pbServer) (serverType : ServerType) : outcome AdminServerNode :=
  match node with
  | None => Err ErrMetadata
  | Some node =>
    if bool_decide (pv_Host node = ""%string) || (pv_Port node <=? 0) || (65535 <? pv_Port node) then Err ErrMetadata
    else Ok (MkAdminServer (pv_NodeId node) (pv_Host node) (pv_Port node) serverType (pv_Rack node))
  end.

(** The order of [slices.SortFunc]: by id, host and port; it leaves open how servers that differ
    in nothing but their rack are ordered. *)
Definition serverLe (a b : AdminServerNode) : bool :=
  (an_ID a <? an_ID b) ||
  ((an_ID a =? an_ID b) &&
   (match String.compare (an_Host a) (an_Host b) with Lt => true | Eq => an_Port a <=? an_Port b | Gt => false end)).
Definition serverOrder (a b : AdminServerNode) : Prop := serverLe a b = true.
#[export] Instance serverOrder_dec : RelDecision serverOrder := fun a b => decide (serverLe a b = true).

Definition serverNodes (reply : adminResponse) : outcome (list AdminServerNode) :=
  match reply with
  | RsMetadata coordinator tablets =>
    coordinator ← serverNode coordinator CoordinatorServer;
    tablets ← appendAll (fun node => serverNode node TabletServer) tablets;
    Ok (coordinator :: merge_sort serverOrder tablets)
  | _ => Err (ErrText "unexpected response")
  end.

Definition GetServerNodes : adminM (result (list AdminServerNode)) :=
  Ask ToCoordinator RqGetMetadata (fun answer => match answer with inr e => failM e | inl reply => ofOutcome (serverNodes reply) end).

(** ** Snapshots of primary-key tables *)

Definition GetLatestKVSnapshots (path : TablePath) (partition : string) : adminM (result KVSnapshots) :=
  validated (TablePath_Validate path) (fun _ => coordinator (RqGetLatestKvSnapshots path (omitEmpty partition)) kvSnapshots).

Definition GetKVSnapshotMetadata (tableID partitionID bucket snapshotID : Z) : adminM (result (Z * list (string * string))) :=
  if invalidIdentity tableID partitionID || (bucket <? 0) || (snapshotID <? 0) then failM (Plain ErrInvalidConfig)
  else coordinator (RqGetKvSnapshotMetadata tableID (partitionOf partitionID) bucket snapshotID) (fun reply =>
    match reply with RsKvSnapshotMetadata logOffset files => inl (logOffset, files) | _ => unexpected end).

Record KVSnapshotLease := MkLease { le_TableID : Z; le_PartitionID : Z; le_Bucket : Z; le_SnapshotID : Z }.

Definition leaseBucket (l : KVSnapshotLease) : pbLeaseBucket := MkPbLeaseBucket (partitionOf (le_PartitionID l)) (le_Bucket l) (le_SnapshotID l).

(** A lease joins the group of its table, which is made when it is the first. *)
Fixpoint joinGroup (l : KVSnapshotLease) (groups : list pbLeaseTable) : list pbLeaseTable :=
  match groups with
  | [] => [MkPbLeaseTable (le_TableID l) [leaseBucket l]]
  | g :: groups =>
    if pl_TableId g =? le_TableID l then MkPbLeaseTable (pl_TableId g) (pl_BucketSnapshots g ++ [leaseBucket l]) :: groups
    else g :: joinGroup l groups
  end.

(** [leaseMessages]; the groups are in the order in which their tables came first. *)
Fixpoint leaseMessagesLoop (snapshots : list KVSnapshotLease) (groups : list pbLeaseTable) : outcome (list pbLeaseTable) :=
  match snapshots with
  | [] => Ok groups
  | l :: snapshots =>
    if invalidIdentity (le_TableID l) (le_PartitionID l) || (le_Bucket l <? 0) || (le_SnapshotID l <? 0) then Err ErrInvalidConfig
    else leaseMessagesLoop snapshots (joinGroup l groups)
  end.
Definition leaseMessages (snapshots : list KVSnapshotLease) : outcome (list pbLeaseTable) := leaseMessagesLoop snapshots [].

Definition leasesFromMessage (tables : list pbLeaseTable) : list KVSnapshotLease :=
  concat (map (fun table =>
    map (fun b => MkLease (pl_TableId table) (default (-1) (pl_PartitionId b)) (pl_BucketId b) (pl_SnapshotId b)) (pl_BucketSnapshots table)) tables).

Definition milliseconds (duration : Z) : Z := Z.quot duration millisecond.

Definition AcquireKVSnapshotLease (leaseID : string) (duration : Z) (snapshots : list KVSnapshotLease) : adminM (result (list KVSnapshotLease)) :=
  if bool_decide (leaseID = ""%string) || (duration <=? 0) || (glen snapshots =? 0) then failM (Plain ErrInvalidConfig)
  else validated (leaseMessages snapshots) (fun grouped =>
    coordinator (RqAcquireKvSnapshotLease leaseID (milliseconds duration) grouped) (fun reply =>
      match reply with RsUnavailableSnapshots tables => inl (leasesFromMessage tables) | _ => unexpected end)).

Definition RenewKVSnapshotLease (leaseID : string) (duration : Z) : adminM (result unit) :=
  if bool_decide (leaseID = ""%string) || (duration <=? 0) then failM (Plain ErrInvalidConfig)
  else command (RqAcquireKvSnapshotLease leaseID (milliseconds duration) []).

Definition releaseBucket (b : TableBucket) : outcome pbTableBucket :=
  if invalidIdentity (tb_TableID b) (tb_PartitionID b) || (tb_BucketID b <? 0) then Err ErrInvalidConfig
  else Ok (MkPbTableBucket (tb_TableID b) (partitionOf (tb_PartitionID b)) (tb_BucketID b)).

Definition ReleaseKVSnapshotLease (leaseID : string) (buckets : list TableBucket) : adminM (result unit) :=
  if bool_decide (leaseID = ""%string) || (glen buckets =? 0) then failM (Plain ErrInvalidConfig)
  else validated (appendAll releaseBucket buckets) (fun messages => command (RqReleaseKvSnapshotLease leaseID messages)).

Definition DropKVSnapshotLease (leaseID : string) : adminM (result unit) :=
  if bool_decide (leaseID = ""%string) then failM (Plain ErrInvalidConfig) else command (RqDropKvSnapshotLease leaseID).

(** ** Offsets of producers *)

Record ProducerBucketOffset := MkProducerBucket { po_PartitionID : Z; po_Bucket : Z; po_Offset : Z }.
Record ProducerTableOffsets := MkProducerTable { po_TableID : Z; po_Offsets : list ProducerBucketOffset }.

Definition producerBucketMessage (o : ProducerBucketOffset) : outcome pbBucketOffset :=
  if (po_Bucket o <? 0) || (po_Offset o <? 0) || (po_PartitionID o <? -1) then Err ErrInvalidConfig
  else Ok (MkPbBucketOffset (partitionOf (po_PartitionID o)) (po_Bucket o) (po_Offset o)).

Definition producerTableOffsetsMessage (table : ProducerTableOffsets) : outcome pbProducerTable :=
  if (po_TableID table <? 0) || (glen (po_Offsets table) =? 0) then Err ErrInvalidConfig
  else offsets ← appendAll producerBucketMessage (po_Offsets table); Ok (MkPbProducerTable (po_TableID table) offsets).

Definition RegisterProducerOffsets (producerID : string) (tables : list ProducerTableOffsets) (ttl : Z) : adminM (result bool) :=
  if bool_decide (producerID = ""%string) || (glen tables =? 0) || (ttl <=? 0) then failM (Plain ErrInvalidConfig)
  else validated (appendAll producerTableOffsetsMessage tables) (fun messages =>
    coordinator (RqRegisterProducerOffsets producerID (milliseconds ttl) messages) (fun reply =>
      match reply with RsRegisterProducerOffsets code => inl (code =? 0) | _ => unexpected end)).

Definition producerOffsetsFromMessage (tables : list pbProducerTable) : list ProducerTableOffsets :=
  map (fun table => MkProducerTable (po_TableId table)
    (map (fun o => MkProducerBucket (default (-1) (po_PartitionId o)) (po_BucketId o) (po_LogEndOffset o)) (po_BucketOffsets table))) tables.

Record ProducerOffsets := MkProducerOffsets { pf_ProducerID : string; pf_ExpiresAt : Time; pf_Tables : list ProducerTableOffsets }.

Definition GetProducerOffsets (zone : Z -> Z) (producerID : string) : adminM (result ProducerOffsets) :=
  if bool_decide (producerID = ""%string) then failM (Plain ErrInvalidConfig)
  else coordinator (RqGetProducerOffsets producerID) (fun reply =>
    match reply with
    | RsGetProducerOffsets id expirationTime tables => inl (MkProducerOffsets id (millis zone expirationTime) (producerOffsetsFromMessage tables))
    | _ => unexpected
    end).

Definition DeleteProducerOffsets (producerID : string) : adminM (result unit) :=
  if bool_decide (producerID = ""%string) then failM (Plain ErrInvalidConfig) else command (RqDeleteProducerOffsets producerID).

(** ** Lake snapshots and statistics *)

Record LakeBucketSnapshot := MkLakeBucket { lb_PartitionID : Z; lb_PartitionName : string; lb_Bucket : Z; lb_LogOffset : Z }.
Record LakeSnapshot := MkLakeSnapshot { ls_TableID : Z; ls_SnapshotID : Z; ls_Buckets : list LakeBucketSnapshot }.

Definition getLakeSnapshot (path : TablePath) (snapshotID : option Z) (readable : bool) : adminM (result LakeSnapshot) :=
  validated (TablePath_Validate path) (fun _ =>
    if match snapshotID with Some id => id <? 0 | None => false end then failM (Plain ErrInvalidConfig)
    else coordinator (RqGetLakeSnapshot path readable snapshotID) (fun reply =>
      match reply with
      | RsGetLakeSnapshot tableID id buckets =>
        inl (MkLakeSnapshot tableID id
          (map (fun b => MkLakeBucket (default (-1) (pk_PartitionId b)) (pk_PartitionName b) (pk_BucketId b) (pk_LogOffset b)) buckets))
      | _ => unexpected
      end)).

Definition GetLatestLakeSnapshot (path : TablePath) : adminM (result LakeSnapshot) := getLakeSnapshot path None false.
Definition GetLakeSnapshot (path : TablePath) (snapshotID : Z) : adminM (result LakeSnapshot) := getLakeSnapshot path (Some snapshotID) false.
Definition GetReadableLakeSnapshot (path : TablePath) : adminM (result LakeSnapshot) := getLakeSnapshot path None true.

Definition APIKeyGetTableStats : Z := 1059.

Record TableStats := MkTableStats { ts_Bucket : Z; ts_RowCount : Z; ts_PartitionID : Z; ts_Err : option callError }.

Definition statsResult (bucket partitionID : Z) (answer : result adminResponse) : TableStats :=
  match answer with
  | inr e => MkTableStats bucket 0 partitionID (Some e)
  | inl (RsGetTableStats [(id, rowCount, fields)]) =>
    if negb (id =? bucket) then MkTableStats bucket 0 partitionID (Some (Plain ErrValidation))
    else MkTableStats bucket rowCount partitionID (responseError fields APIKeyGetTableStats)
  | inl _ => MkTableStats bucket 0 partitionID (Some (Plain ErrValidation))
  end.

Definition GetTableStats (tableID : Z) (path : PhysicalTablePath) (partitionID : Z) (buckets : list Z) : adminM (list TableStats) :=
  eachBucket (fun bucket =>
    if invalidIdentity tableID partitionID || (bucket <? 0) then Ret (MkTableStats bucket 0 partitionID (Some (Plain ErrInvalidConfig)))
    else Ask (ToBucket path bucket) (RqGetTableStats tableID bucket (partitionOf partitionID))
           (fun answer => Ret (statsResult bucket partitionID answer))) buckets.
