(* ===== verification/AdminProperties.v ===== *)
(** * Properties of the administration client

    What the operations of Admin.v and AdminCluster.v promise: they send valid requests only, one
    each; what they read back is what they wrote; items keep their order and their own results. *)

From stdpp Require Import sorting.
From S2P Require Import Prelude Model Values Codec RecordBatch Errors DecodeSafety SchemaJSON ScanBounds Metadata Lookup SecurityToken LogBackend Admin AdminCluster.

(** ** Requests of an operation *)

Section Requests.
Context (P : adminTarget -> adminRequest -> Prop) (Q : TablePath -> Prop).

(** Every request an operation can send, whatever was answered before. *)
Fixpoint everyRequest {A} (m : adminM A) : Prop :=
  match m with
  | Ret _ | PanicM => True
  | Ask target request k => P target request /\ forall answer, everyRequest (k answer)
  | AskTable path k => Q path /\ forall answer, everyRequest (k answer)
  end.

Lemma everyRequest_bind {A B} (m : adminM A) (f : A -> adminM B) :
  everyRequest m -> (forall a, everyRequest (f a)) -> everyRequest (adminBind m f).
Proof. intros Hm Hf. induction m as [a| |t r k IH|path k IH]; cbn in *; [done|done|naive_solver..]. Qed.

Lemma everyRequest_validated {A B} (o : outcome A) (k : A -> adminM (result B)) :
  (forall a, o = Ok a -> everyRequest (k a)) -> everyRequest (validated o k).
Proof. destruct o; cbn; [by intros H; apply H|done..]. Qed.

Lemma everyRequest_coordinator {A} request (f : adminResponse -> result A) :
  P ToCoordinator request -> everyRequest (coordinator request f).
Proof. by intros H. Qed.

Lemma everyRequest_each {A} (f : Z -> adminM A) buckets :
  (forall bucket, everyRequest (f bucket)) -> everyRequest (eachBucket f buckets).
Proof.
  intros H. induction buckets as [|b buckets IH]; cbn; [done|]. apply everyRequest_bind; [apply H|].
  intros a. by apply everyRequest_bind.
Qed.
End Requests.

(** How many requests an operation can send. *)
Fixpoint atMost {A} (n : nat) (m : adminM A) {struct m} : Prop :=
  match m with
  | Ret _ | PanicM => True
  | Ask _ _ k => match n with O => False | S n => forall answer, atMost n (k answer) end
  | AskTable _ k => match n with O => False | S n => forall answer, atMost n (k answer) end
  end.

Lemma atMost_validated {A B} n (o : outcome A) (k : A -> adminM (result B)) :
  (forall a, o = Ok a -> atMost n (k a)) -> atMost n (validated o k).
Proof. destruct o; cbn; [by intros H; apply H|done..]. Qed.

Lemma atMost_ofOutcome {A} n (o : outcome A) : atMost n (ofOutcome o).
Proof. by destruct o. Qed.

(** ** What a valid request is *)

Definition validName (name : string) : Prop := name <> ""%string /\ TrimSpace name = name.
Definition validPath (path : TablePath) : Prop := TablePath_Validate path = Ok tt.
Definition validPartition (partitionID : option Z) : Prop := match partitionID with Some id => 0 <= id | None => True end.
Definition validConfig (change : pbAlterConfig) : Prop :=
  pc_ConfigKey change <> ""%string /\ 0 <= pc_OpType change <= 3 /\ (pc_OpType change = ConfigDelete \/ is_Some (pc_ConfigValue change)).
Definition validSpec (spec : pbSpec) : Prop :=
  spec <> [] /\ Forall (fun e => e.1 <> ""%string /\ e.2 <> ""%string) spec /\ NoDup spec.*1.
Definition validColumn (column : pbAddColumn) : Prop :=
  pd_ColumnName column <> ""%string /\ LogicalType_Validate (pd_DataType column) = Ok tt /\ (pd_Position column = 0 \/ pd_Position column = 1).
Definition validLease (bucket : pbLeaseBucket) : Prop := validPartition (pl_PartitionId bucket) /\ 0 <= pl_BucketId bucket /\ 0 <= pl_SnapshotId bucket.
Definition validGroups (groups : list pbLeaseTable) : Prop :=
  NoDup (pl_TableId <$> groups) /\
  Forall (fun g => 0 <= pl_TableId g /\ pl_BucketSnapshots g <> [] /\ Forall validLease (pl_BucketSnapshots g)) groups.
Definition validProducer (table : pbProducerTable) : Prop :=
  0 <= po_TableId table /\ po_BucketOffsets table <> [] /\
  Forall (fun o => validPartition (po_PartitionId o) /\ 0 <= po_BucketId o /\ 0 <= po_LogEndOffset o) (po_BucketOffsets table).
Definition validAcl (m : pbAclInfo) : Prop := exists acl, ACLBinding_validate acl = Ok tt /\ m = ACLBinding_message acl.
Definition validAclFilter (m : pbAclFilter) : Prop := exists f, ACLBindingFilter_validate f = Ok tt /\ m = ACLBindingFilter_message f.

Definition validRequest (request : adminRequest) : Prop :=
  match request with
  | RqCreateDatabase name _ body => validName name /\ dj_Version body = 1 /\ is_Some (dj_CustomProperties body)
  | RqDropDatabase name _ _ | RqDatabaseExists name | RqGetDatabaseInfo name | RqListTables name => validName name
  | RqAlterDatabase name _ comment changes => validName name /\ (is_Some comment \/ changes <> []) /\ Forall validConfig changes
  | RqCreateTable path body _ =>
    validPath path /\ 0 < tj_BucketCount body /\
    exists s s', Schema_Validate s = Ok tt /\ Schema_JSON s = Ok (tj_Schema body, s') /\
      tj_PartitionKey body = sch_PartitionKey s /\ tj_BucketKey body = sch_BucketKey s
  | RqDropTable path _ | RqTableExists path => validPath path
  | RqGetTableSchema path schemaID => validPath path /\ 0 <= schemaID
  | RqAlterTable m =>
    validPath (at_TablePath m) /\
    (at_ConfigChanges m <> [] \/ at_AddColumns m <> [] \/ at_DropColumns m <> [] \/ at_RenameColumns m <> [] \/ is_Some (at_BucketCount m)) /\
    Forall validConfig (at_ConfigChanges m) /\ Forall validColumn (at_AddColumns m) /\ Forall (fun name => name <> ""%string) (at_DropColumns m) /\
    Forall (fun e => e.1 <> ""%string /\ e.2 <> ""%string) (at_RenameColumns m) /\
    match at_BucketCount m with Some count => 0 < count | None => True end
  | RqCreatePartition path spec _ | RqDropPartition path spec _ => validPath path /\ validSpec spec
  | RqListPartitionInfos path partial => validPath path /\ match partial with Some spec => validSpec spec | None => True end
  | RqListOffsets m =>
    lq_FollowerServerId m = -1 /\ length (lq_BucketId m) = 1%nat /\ validPartition (lq_PartitionId m) /\
    (lq_OffsetType m = 0 /\ lq_StartTimestamp m = None \/ lq_OffsetType m = 1 /\ lq_StartTimestamp m = None \/
     lq_OffsetType m = 2 /\ is_Some (lq_StartTimestamp m))
  | RqListRemoteLogManifests tableID partitionID | RqListKvSnapshots tableID partitionID => 0 <= tableID /\ validPartition partitionID
  | RqCreateAcls acls => acls <> [] /\ Forall validAcl acls
  | RqListAcls filter => validAclFilter filter
  | RqDropAcls filters => filters <> [] /\ Forall validAclFilter filters
  | RqAlterClusterConfigs changes => changes <> [] /\ Forall validConfig changes
  | RqServerTag _ serverIDs tag => serverIDs <> [] /\ Forall (fun id => 0 <= id) serverIDs /\ (tag = 0 \/ tag = 1)
  | RqRebalance goals => goals <> []
  | RqListRebalanceProgress id | RqCancelRebalance id => id <> ""%string
  | RqGetLatestKvSnapshots path partitionName => validPath path /\ partitionName <> Some ""%string
  | RqGetKvSnapshotMetadata tableID partitionID bucket snapshotID => 0 <= tableID /\ validPartition partitionID /\ 0 <= bucket /\ 0 <= snapshotID
  | RqAcquireKvSnapshotLease leaseID durationMs groups => leaseID <> ""%string /\ 0 < durationMs /\ validGroups groups
  | RqReleaseKvSnapshotLease leaseID buckets =>
    leaseID <> ""%string /\ buckets <> [] /\
    Forall (fun b => 0 <= pt_TableId b /\ validPartition (pt_PartitionId b) /\ 0 <= pt_BucketId b) buckets
  | RqDropKvSnapshotLease leaseID => leaseID <> ""%string
  | RqRegisterProducerOffsets producerID ttlMs tables => producerID <> ""%string /\ 0 < ttlMs /\ tables <> [] /\ Forall validProducer tables
  | RqGetProducerOffsets producerID | RqDeleteProducerOffsets producerID => producerID <> ""%string
  | RqGetLakeSnapshot path readable snapshotID =>
    validPath path /\ match snapshotID with Some id => 0 <= id /\ readable = false | None => True end
  | RqGetTableStats tableID bucket partitionID => 0 <= tableID /\ 0 <= bucket /\ validPartition partitionID
  | RqListDatabases _ | RqGetClusterHealth | RqDescribeClusterConfigs | RqGetFileSystemSecurityToken | RqGetMetadata => True
  end.

(** Requests about a bucket's data go to its leader, all others to the coordinator. *)
Definition validTarget (target : adminTarget) (request : adminRequest) : Prop :=
  match request, target with
  | RqListOffsets m, ToBucket _ bucket => lq_BucketId m = [bucket]
  | RqGetTableStats _ bucket _, ToBucket _ bucket' => bucket = bucket'
  | RqListOffsets _, ToCoordinator | RqGetTableStats _ _ _, ToCoordinator => False
  | _, ToCoordinator => True
  | _, ToBucket _ _ => False
  end.

(** *** What the checks of the operations ensure *)

Lemma validateName_Ok name u : validateName name = Ok u -> validName name.
Proof. unfold validateName. intros H%check_Ok. split; [intros ->; cbn in H; done|]. by apply andb_true_iff in H as [_ H%bool_decide_eq_true]. Qed.

Lemma TablePath_Ok path u : TablePath_Validate path = Ok u -> validPath path.
Proof. by destruct u. Qed.

Lemma partitionOf_valid partitionID : validPartition (partitionOf partitionID).
Proof. unfold partitionOf. case_match; cbn; [lia|done]. Qed.

Lemma appendAll_Forall {A B} (message : A -> outcome B) (R : B -> Prop) items ms :
  (forall item m, message item = Ok m -> R m) -> appendAll message items = Ok ms -> Forall R ms /\ length ms = length items.
Proof.
  intros Hm. revert ms. induction items as [|item items IH]; intros ms H; cbn in H; [by injection H as <-|].
  apply bind_Ok in H as (m & Hi & H). apply bind_Ok in H as (rest & Hr & H). injection H as <-.
  destruct (IH _ Hr). cbn. split; [constructor; [by eapply Hm|done]|by f_equal].
Qed.

Lemma length_nonempty {A B} (l : list A) (l' : list B) : length l = length l' -> glen l' <> 0 -> l <> [].
Proof. intros H Hn ->. cbn in H. unfold glen in Hn. lia. Qed.

Lemma alterConfig_valid change m : alterConfigMessage change = Ok m -> validConfig m.
Proof.
  unfold alterConfigMessage. case_match eqn:H1; [done|]. case_match eqn:H2; [done|]. intros [= <-].
  rewrite !orb_false_iff, bool_decide_eq_false in H1. destruct H1 as [[? ?] ?]. unfold ConfigSet, ConfigSubtract, ConfigDelete in *.
  split_and!; cbn; [done|lia|lia|]. apply andb_false_iff in H2 as [H2|H2]; [left; unfold ConfigDelete; lia|].
  apply bool_decide_eq_false in H2. right. by apply not_eq_None_Some.
Qed.

Lemma addedColumn_valid change m : addedColumn change = Ok m -> validColumn m.
Proof.
  unfold addedColumn. case_bool_decide; [done|]. intros H0. apply bind_Ok in H0 as ([] & Ht & [= <-]).
  split_and!; cbn; [done|done|]. destruct (an_First change); auto.
Qed.

Lemma droppedColumn_valid name m : droppedColumn name = Ok m -> m <> ""%string.
Proof. unfold droppedColumn. case_bool_decide; [done|]. by intros [= <-]. Qed.

Lemma renamedColumn_valid rename m : renamedColumn rename = Ok m -> m.1 <> ""%string /\ m.2 <> ""%string.
Proof. unfold renamedColumn. case_match eqn:H; [done|]. intros [= <-]. by apply orb_false_iff in H as [?%bool_decide_eq_false ?%bool_decide_eq_false]. Qed.

Lemma checkedMessage_Ok {A B} (validate : A -> outcome unit) (message : A -> B) a m :
  checkedMessage validate message a = Ok m -> validate a = Ok tt /\ m = message a.
Proof. unfold checkedMessage. intros H. by apply bind_Ok in H as ([] & Hv & [= <-]). Qed.

Lemma invalidIdentity_false tableID partitionID : invalidIdentity tableID partitionID = false -> 0 <= tableID /\ -1 <= partitionID.
Proof. unfold invalidIdentity. lia. Qed.

(** *** Partitions *)

Lemma PartitionSpec_proto_perm p : PartitionSpec_proto p ≡ₚ map_to_list p.
Proof.
  unfold PartitionSpec_proto. rewrite merge_sort_Permutation.
  rewrite map_map. rewrite <- (map_id (map_to_list p)) at 2. rewrite (map_ext_in _ id); [done|].
  intros [k v] Hin%list_elem_of_In. cbn. apply elem_of_map_to_list in Hin. by rewrite Hin.
Qed.

Lemma PartitionSpec_proto_keys p : NoDup (PartitionSpec_proto p).*1.
Proof. rewrite PartitionSpec_proto_perm. apply NoDup_fst_map_to_list. Qed.

#[export] Instance stringLe_total : Total stringLe.
Proof. intros a b. unfold stringLe. destruct (String.leb_total a b); auto. Qed.

Lemma PartitionSpec_proto_sorted p : Sorted stringLe (PartitionSpec_proto p).*1.
Proof.
  unfold PartitionSpec_proto. rewrite <- list_fmap_compose. change (list_fmap _ _ _) with ((fun x => id x) <$> merge_sort stringLe (map_to_list p).*1).
  rewrite list_fmap_id. apply Sorted_merge_sort, _.
Qed.

Lemma PartitionSpec_proto_valid p u : PartitionSpec_validate p = Ok u -> validSpec (PartitionSpec_proto p).
Proof.
  unfold PartitionSpec_validate. intros [Hs Hf]%check_Ok%andb_true_iff. rewrite forallb_forall in Hf. split_and!.
  - intros He. apply (f_equal length) in He. rewrite PartitionSpec_proto_perm, length_map_to_list in He. cbn in He. lia.
  - rewrite PartitionSpec_proto_perm. apply Forall_forall. intros e He%list_elem_of_In. apply Hf in He.
    apply andb_true_iff in He as [H1%negb_true_iff H2%negb_true_iff]. by apply bool_decide_eq_false in H1, H2.
  - apply PartitionSpec_proto_keys.
Qed.

Lemma partitionSpec_list spec : NoDup spec.*1 -> partitionSpec spec = list_to_map spec.
Proof.
  unfold partitionSpec. induction spec as [|[k v] spec IH] using rev_ind; [done|]. rewrite fmap_app, foldl_app. cbn.
  intros (H & Hk & _)%NoDup_app. rewrite IH by done. symmetry. apply list_to_map_snoc.
  intros Hin. apply (Hk k Hin). by left.
Qed.

Lemma partitionSpec_proto p : partitionSpec (PartitionSpec_proto p) = p.
Proof.
  rewrite partitionSpec_list by apply PartitionSpec_proto_keys.
  rewrite <- (list_to_map_to_list p) at 2. apply list_to_map_proper; [apply PartitionSpec_proto_keys|apply PartitionSpec_proto_perm].
Qed.

(** *** Leases *)

Definition leaseValid (l : KVSnapshotLease) : Prop :=
  0 <= le_TableID l /\ -1 <= le_PartitionID l /\ 0 <= le_Bucket l /\ 0 <= le_SnapshotID l.

Lemma leaseBucket_valid l : leaseValid l -> validLease (leaseBucket l).
Proof. intros (_ & ? & ? & ?). split; [apply partitionOf_valid|]. cbn. lia. Qed.

Lemma joinGroup_tables l groups : pl_TableId <$> joinGroup l groups =
  if bool_decide (le_TableID l ∈ (pl_TableId <$> groups)) then pl_TableId <$> groups else (pl_TableId <$> groups) ++ [le_TableID l].
Proof.
  induction groups as [|g groups IH]; [done|]. cbn. destruct (Z.eqb_spec (pl_TableId g) (le_TableID l)) as [He|Hne].
  - cbn. rewrite bool_decide_true by (rewrite He; by left). done.
  - cbn. rewrite IH. destruct (decide (le_TableID l ∈ (pl_TableId <$> groups))) as [Hin|Hin].
    + rewrite !bool_decide_true; [done|by right|done].
    + rewrite !bool_decide_false; [done|by intros [?|?]%elem_of_cons|done].
Qed.

Lemma joinGroup_valid l groups : leaseValid l -> validGroups groups -> validGroups (joinGroup l groups).
Proof.
  intros Hl [Hnd Hg]. split.
  - rewrite joinGroup_tables. case_bool_decide as Hin; [done|]. apply NoDup_app. split_and!; [done| |apply NoDup_singleton].
    intros x Hx ->%list_elem_of_singleton. done.
  - clear Hnd. induction Hg as [|g groups (Ht & Hne & Hb) Hg IH]; cbn.
    + constructor; [|done]. destruct Hl as (? & ?). split_and!; cbn; [done|done|]. constructor; [|done]. by apply leaseBucket_valid.
    + case_match; constructor; [|done|by split_and!|done]. split_and!; cbn; [done|by destruct (pl_BucketSnapshots g)|].
      apply Forall_app. split; [done|]. constructor; [|done]. by apply leaseBucket_valid.
Qed.

(** The leases that groups stand for. *)
Lemma leasesFromMessage_cons g groups :
  leasesFromMessage (g :: groups) =
  map (fun b => MkLease (pl_TableId g) (default (-1) (pl_PartitionId b)) (pl_BucketId b) (pl_SnapshotId b)) (pl_BucketSnapshots g)
    ++ leasesFromMessage groups.
Proof. done. Qed.

Lemma lease_read l : leaseValid l ->
  MkLease (le_TableID l) (default (-1) (pl_PartitionId (leaseBucket l))) (pl_BucketId (leaseBucket l)) (pl_SnapshotId (leaseBucket l)) = l.
Proof.
  intros (? & ? & ? & ?). destruct l as [t p b s]. cbn in *. unfold partitionOf. case_match; cbn; f_equal; lia.
Qed.

Lemma joinGroup_leases l groups : leaseValid l -> leasesFromMessage (joinGroup l groups) ≡ₚ leasesFromMessage groups ++ [l].
Proof.
  intros Hl. induction groups as [|g groups IH]; cbn [joinGroup].
  - unfold leasesFromMessage. cbn. by rewrite lease_read.
  - destruct (Z.eqb_spec (pl_TableId g) (le_TableID l)) as [He|]; rewrite !leasesFromMessage_cons.
    + cbn [pl_TableId pl_BucketSnapshots]. rewrite map_app. cbn [map]. rewrite He, lease_read by done.
      rewrite <- !app_assoc. f_equiv. apply Permutation_app_comm.
    + by rewrite IH, app_assoc.
Qed.

(** The leases of one table keep their order. *)
Definition ofTable (table : Z) : list KVSnapshotLease -> list KVSnapshotLease := filter (fun l => le_TableID l = table).

Lemma ofTable_other table g : pl_TableId g <> table ->
  ofTable table (map (fun b => MkLease (pl_TableId g) (default (-1) (pl_PartitionId b)) (pl_BucketId b) (pl_SnapshotId b)) (pl_BucketSnapshots g)) = [].
Proof. intros H. unfold ofTable. induction (pl_BucketSnapshots g) as [|b bs IH]; [done|]. cbn [map]. by rewrite filter_cons_False. Qed.

Lemma ofTable_groups table groups : table ∉ (pl_TableId <$> groups) -> ofTable table (leasesFromMessage groups) = [].
Proof.
  induction groups as [|g groups IH]; [done|]. intros [H1 H2]%not_elem_of_cons. rewrite leasesFromMessage_cons. unfold ofTable in *.
  rewrite filter_app, IH by done. rewrite app_nil_r. apply ofTable_other. congruence.
Qed.

Lemma joinGroup_order l groups table : leaseValid l -> NoDup (pl_TableId <$> groups) ->
  ofTable table (leasesFromMessage (joinGroup l groups)) = ofTable table (leasesFromMessage groups) ++ ofTable table [l].
Proof.
  intros Hl Hnd. induction groups as [|g groups IH]; cbn [joinGroup].
  - unfold leasesFromMessage. cbn [map concat pl_TableId pl_BucketSnapshots app]. by rewrite lease_read.
  - apply NoDup_cons in Hnd as [Hg Hnd]. destruct (Z.eqb_spec (pl_TableId g) (le_TableID l)) as [He|Hne].
    + rewrite !leasesFromMessage_cons. cbn [pl_TableId pl_BucketSnapshots]. rewrite map_app. cbn [map].
      pose proof (lease_read l Hl) as Hread. rewrite <- He in Hread. rewrite Hread. unfold ofTable. rewrite !filter_app, <- !app_assoc. f_equal.
      destruct (decide (le_TableID l = table)) as [Ht|Ht].
      * fold (ofTable table (leasesFromMessage groups)). rewrite ofTable_groups by (assert (table = pl_TableId g) as -> by congruence; done). by rewrite app_nil_r.
      * rewrite (filter_cons_False _ l) by done. cbn. by rewrite app_nil_r.
    + rewrite !leasesFromMessage_cons. unfold ofTable in *. rewrite !filter_app, IH by done. by rewrite app_assoc.
Qed.

Lemma leaseMessagesLoop_Ok snapshots groups groups' :
  leaseMessagesLoop snapshots groups = Ok groups' -> validGroups groups ->
  Forall leaseValid snapshots /\ validGroups groups' /\ leasesFromMessage groups' ≡ₚ leasesFromMessage groups ++ snapshots /\
  (forall table, ofTable table (leasesFromMessage groups') = ofTable table (leasesFromMessage groups) ++ ofTable table snapshots).
Proof.
  revert groups. induction snapshots as [|l snapshots IH]; intros groups H Hg; cbn in H.
  - injection H as <-. split_and!; [done|done|by rewrite app_nil_r|]. intros table. by rewrite app_nil_r.
  - case_match eqn:Hv; [done|]. rewrite !orb_false_iff in Hv. destruct Hv as [[[? ?]%invalidIdentity_false ?] ?].
    assert (leaseValid l) as Hl by (split_and!; lia).
    destruct (IH _ H (joinGroup_valid _ _ Hl Hg)) as (Hall & Hg' & Hp & Ho). split_and!; [by constructor|done| |].
    + by rewrite Hp, joinGroup_leases, <- app_assoc.
    + intros table. rewrite Ho, joinGroup_order by (done || apply Hg). rewrite <- app_assoc. f_equal.
      unfold ofTable. by rewrite <- filter_app.
Qed.

Lemma leaseMessages_Ok snapshots groups : leaseMessages snapshots = Ok groups ->
  Forall leaseValid snapshots /\ validGroups groups /\ leasesFromMessage groups ≡ₚ snapshots /\
  (forall table, ofTable table (leasesFromMessage groups) = ofTable table snapshots).
Proof. intros H. apply leaseMessagesLoop_Ok in H; [done|]. split; constructor. Qed.

(** ** Operations send valid requests *)

(** The operations of [fadm.Client] with their arguments. *)
Inductive operation :=
| OpCreateDatabase (name : string) (definition : DatabaseDescriptor) (ignore : bool)
| OpDropDatabase (name : string) (ignore cascade : bool)
| OpListDatabaseSummaries
| OpDatabaseExists (name : string)
| OpGetDatabaseInfo (name : string)
| OpAlterDatabase (name : string) (config : list AlterConfig) (comment : option string) (ignore : bool)
| OpCreateTable (path : TablePath) (definition : TableDescriptor) (ignore : bool)
| OpDropTable (path : TablePath) (ignore : bool)
| OpListTables (database : string)
| OpTableExists (path : TablePath)
| OpGetTableInfo (path : TablePath)
| OpGetTableSchema (path : TablePath) (schemaID : Z)
| OpAlterTable (path : TablePath) (changes : AlterTableChanges) (ignore : bool)
| OpCreatePartition (path : TablePath) (spec : gmap string string) (ignore : bool)
| OpDropPartition (path : TablePath) (spec : gmap string string) (ignore : bool)
| OpListPartitionInfos (path : TablePath) (partial : gmap string string)
| OpListOffsets (tableID : Z) (partition : PhysicalTablePath) (partitionID : Z) (buckets : list Z) (spec : ScanOffset)
| OpGetClusterHealth
| OpListRemoteLogManifests (tableID partitionID : Z)
| OpListKVSnapshots (tableID partitionID : Z)
| OpCreateACLs (acls : list ACLBinding)
| OpListACLs (filter : ACLBindingFilter)
| OpDropACLs (filters : list ACLBindingFilter)
| OpDescribeClusterConfigs
| OpAlterClusterConfigs (changes : list AlterConfig)
| OpServerTag (add : bool) (serverIDs : list Z) (tag : Z)
| OpRebalance (goals : list Z)
| OpListRebalanceProgress (id : string)
| OpWaitRebalance (id : string) (interval : Z) (waits : list (option callError))
| OpCancelRebalance (id : string)
| OpGetFileSystemSecurityToken
| OpGetServerNodes
| OpGetLatestKVSnapshots (path : TablePath) (partition : string)
| OpGetKVSnapshotMetadata (tableID partitionID bucket snapshotID : Z)
| OpAcquireKVSnapshotLease (leaseID : string) (duration : Z) (snapshots : list KVSnapshotLease)
| OpRenewKVSnapshotLease (leaseID : string) (duration : Z)
| OpReleaseKVSnapshotLease (leaseID : string) (buckets : list TableBucket)
| OpDropKVSnapshotLease (leaseID : string)
| OpRegisterProducerOffsets (producerID : string) (tables : list ProducerTableOffsets) (ttl : Z)
| OpGetProducerOffsets (producerID : string)
| OpDeleteProducerOffsets (producerID : string)
| OpGetLatestLakeSnapshot (path : TablePath)
| OpGetLakeSnapshot (path : TablePath) (snapshotID : Z)
| OpGetReadableLakeSnapshot (path : TablePath)
| OpGetTableStats (tableID : Z) (path : PhysicalTablePath) (partitionID : Z) (buckets : list Z).

(** An operation with its result. *)
Record performed := MkPerformed { pf_type : Type; pf_run : adminM pf_type }.

Definition perform (zone : Z -> Z) (op : operation) : performed :=
  match op with
  | OpCreateDatabase name definition ignore => MkPerformed _ (CreateDatabase name definition ignore)
  | OpDropDatabase name ignore cascade => MkPerformed _ (DropDatabase name ignore cascade)
  | OpListDatabaseSummaries => MkPerformed _ (ListDatabaseSummaries zone)
  | OpDatabaseExists name => MkPerformed _ (DatabaseExists name)
  | OpGetDatabaseInfo name => MkPerformed _ (GetDatabaseInfo zone name)
  | OpAlterDatabase name config comment ignore => MkPerformed _ (AlterDatabase name config comment ignore)
  | OpCreateTable path definition ignore => MkPerformed _ (CreateTable path definition ignore)
  | OpDropTable path ignore => MkPerformed _ (DropTable path ignore)
  | OpListTables database => MkPerformed _ (ListTables database)
  | OpTableExists path => MkPerformed _ (TableExists path)
  | OpGetTableInfo path => MkPerformed _ (GetTableInfo path)
  | OpGetTableSchema path schemaID => MkPerformed _ (GetTableSchema path schemaID)
  | OpAlterTable path changes ignore => MkPerformed _ (AlterTable path changes ignore)
  | OpCreatePartition path spec ignore => MkPerformed _ (CreatePartition path spec ignore)
  | OpDropPartition path spec ignore => MkPerformed _ (DropPartition path spec ignore)
  | OpListPartitionInfos path partial => MkPerformed _ (ListPartitionInfos path partial)
  | OpListOffsets tableID partition partitionID buckets spec => MkPerformed _ (ListOffsets tableID partition partitionID buckets spec)
  | OpGetClusterHealth => MkPerformed _ GetClusterHealth
  | OpListRemoteLogManifests tableID partitionID => MkPerformed _ (ListRemoteLogManifests tableID partitionID)
  | OpListKVSnapshots tableID partitionID => MkPerformed _ (ListKVSnapshots tableID partitionID)
  | OpCreateACLs acls => MkPerformed _ (CreateACLs acls)
  | OpListACLs filter => MkPerformed _ (ListACLs filter)
  | OpDropACLs filters => MkPerformed _ (DropACLs filters)
  | OpDescribeClusterConfigs => MkPerformed _ DescribeClusterConfigs
  | OpAlterClusterConfigs changes => MkPerformed _ (AlterClusterConfigs changes)
  | OpServerTag true serverIDs tag => MkPerformed _ (AddServerTag serverIDs tag)
  | OpServerTag false serverIDs tag => MkPerformed _ (RemoveServerTag serverIDs tag)
  | OpRebalance goals => MkPerformed _ (Rebalance goals)
  | OpListRebalanceProgress id => MkPerformed _ (ListRebalanceProgress id)
  | OpWaitRebalance id interval waits => MkPerformed _ (WaitRebalance id interval waits)
  | OpCancelRebalance id => MkPerformed _ (CancelRebalance id)
  | OpGetFileSystemSecurityToken => MkPerformed _ (GetFileSystemSecurityToken zone)
  | OpGetServerNodes => MkPerformed _ GetServerNodes
  | OpGetLatestKVSnapshots path partition => MkPerformed _ (GetLatestKVSnapshots path partition)
  | OpGetKVSnapshotMetadata tableID partitionID bucket snapshotID => MkPerformed _ (GetKVSnapshotMetadata tableID partitionID bucket snapshotID)
  | OpAcquireKVSnapshotLease leaseID duration snapshots => MkPerformed _ (AcquireKVSnapshotLease leaseID duration snapshots)
  | OpRenewKVSnapshotLease leaseID duration => MkPerformed _ (RenewKVSnapshotLease leaseID duration)
  | OpReleaseKVSnapshotLease leaseID buckets => MkPerformed _ (ReleaseKVSnapshotLease leaseID buckets)
  | OpDropKVSnapshotLease leaseID => MkPerformed _ (DropKVSnapshotLease leaseID)
  | OpRegisterProducerOffsets producerID tables ttl => MkPerformed _ (RegisterProducerOffsets producerID tables ttl)
  | OpGetProducerOffsets producerID => MkPerformed _ (GetProducerOffsets zone producerID)
  | OpDeleteProducerOffsets producerID => MkPerformed _ (DeleteProducerOffsets producerID)
  | OpGetLatestLakeSnapshot path => MkPerformed _ (GetLatestLakeSnapshot path)
  | OpGetLakeSnapshot path snapshotID => MkPerformed _ (GetLakeSnapshot path snapshotID)
  | OpGetReadableLakeSnapshot path => MkPerformed _ (GetReadableLakeSnapshot path)
  | OpGetTableStats tableID path partitionID buckets => MkPerformed _ (GetTableStats tableID path partitionID buckets)
  end.

Definition allowed (target : adminTarget) (request : adminRequest) : Prop := validTarget target request /\ validRequest request.

#[export] Hint Resolve validateName_Ok TablePath_Ok partitionOf_valid PartitionSpec_proto_valid : admin.

Lemma everyRequest_ofOutcome P Q {A} (o : outcome A) : everyRequest P Q (ofOutcome o).
Proof. by destruct o. Qed.

Lemma everyRequest_answer P Q {A} target request (k : result adminResponse -> adminM A) :
  P target request -> (forall answer, everyRequest P Q (k answer)) -> everyRequest P Q (Ask target request k).
Proof. by split. Qed.

(** Goes through the checks of an operation to its request. *)
Ltac request_step :=
  lazymatch goal with
  | |- everyRequest _ _ (validated _ _) => apply everyRequest_validated; intros ? ?
  | |- everyRequest _ _ (coordinator _ _) => apply everyRequest_coordinator; split; [exact I|cbn]
  | |- everyRequest _ _ (command _) => apply everyRequest_coordinator; split; [exact I|cbn]
  | |- everyRequest _ _ (ofOutcome _) => apply everyRequest_ofOutcome
  | |- everyRequest _ _ (failM _) => exact I
  | |- everyRequest _ _ (Ret _) => exact I
  | |- everyRequest _ _ (Ask _ _ _) => apply everyRequest_answer; [split; [exact I|cbn]|intros [[]|]]
  | |- everyRequest _ _ (AskTable _ _) => split; [cbn|]
  | |- everyRequest _ _ (if ?b then _ else _) => let H := fresh in destruct b eqn:H
  | |- everyRequest _ _ (match ?b with _ => _ end) => destruct b
  end.

(** Turns checks that passed into what they mean. *)
Ltac checks :=
  repeat match goal with
  | H : _ || _ = false |- _ => apply orb_false_iff in H as [? ?]
  | H : bool_decide _ = false |- _ => apply bool_decide_eq_false in H
  | H : (_ =? _) = false |- _ => apply Z.eqb_neq in H
  | H : (_ <? _) = false |- _ => apply Z.ltb_ge in H
  | H : (_ <=? _) = false |- _ => apply Z.leb_gt in H
  | H : invalidIdentity _ _ = false |- _ => apply invalidIdentity_false in H as [? ?]
  end.

Lemma glen_nonempty {A} (l : list A) : glen l <> 0 -> l <> [].
Proof. by intros H ->. Qed.

#[export] Hint Resolve glen_nonempty : admin.

Lemma milliseconds_pos duration : 0 < duration -> 0 < milliseconds duration <-> (0 <? duration) && (duration <? millisecond) = false.
Proof.
  intros H. unfold milliseconds, millisecond. replace (0 <? duration) with true by lia. cbn [andb]. rewrite Z.ltb_ge. split; intros H'.
  - apply Z.nlt_ge. intros Hlt. rewrite Z.quot_small in H' by lia. lia.
  - apply Z.quot_str_pos. lia.
Qed.

Lemma producerTable_valid table m : producerTableOffsetsMessage table = Ok m -> validProducer m.
Proof.
  unfold producerTableOffsetsMessage. case_match eqn:H; [done|]. checks. intros Hm.
  apply bind_Ok in Hm as (offsets & Ho & [= <-]).
  apply (appendAll_Forall _ (fun o => validPartition (po_PartitionId o) /\ 0 <= po_BucketId o /\ 0 <= po_LogEndOffset o)) in Ho as [Hf Hl].
  - split_and!; cbn; [done|by eapply length_nonempty|done].
  - intros o m'. unfold producerBucketMessage. case_match eqn:Hb; [done|]. intros [= <-]. checks. cbn. eauto using partitionOf_valid.
Qed.

Lemma releaseBucket_valid b m : releaseBucket b = Ok m -> 0 <= pt_TableId m /\ validPartition (pt_PartitionId m) /\ 0 <= pt_BucketId m.
Proof. unfold releaseBucket. case_match eqn:H; [done|]. intros [= <-]. checks. cbn. eauto using partitionOf_valid. Qed.

Lemma TableDescriptor_valid d body : TableDescriptor_JSON d = Ok body ->
  0 < tj_BucketCount body /\ exists s s', Schema_Validate s = Ok tt /\ Schema_JSON s = Ok (tj_Schema body, s') /\
    tj_PartitionKey body = sch_PartitionKey s /\ tj_BucketKey body = sch_BucketKey s.
Proof.
  unfold TableDescriptor_JSON. intros H. apply bind_Ok in H as ([] & Hv & H). case_match eqn:Hb; [done|]. checks.
  apply bind_Ok in H as ([schema s'] & Hj & [= <-]). cbn. split; [done|]. by exists (td_Schema d), s'.
Qed.

Notation valid_requests := (everyRequest allowed validPath).

Lemma AlterDatabase_requests name config comment ignore : valid_requests (AlterDatabase name config comment ignore).
Proof.
  unfold AlterDatabase. repeat request_step.
  destruct (appendAll_Forall _ _ _ _ alterConfig_valid ltac:(eassumption)) as [Hf Hl].
  split_and!; [by eapply validateName_Ok| |done]. apply andb_false_iff in H0 as [Hc|Hc]; checks.
  - right. by eapply length_nonempty.
  - left. by apply not_eq_None_Some.
Qed.

Lemma CreateTable_requests path definition ignore : valid_requests (CreateTable path definition ignore).
Proof.
  unfold CreateTable. repeat request_step. split; [by eapply TablePath_Ok|]. by eapply TableDescriptor_valid.
Qed.

Lemma AlterTable_requests path changes ignore : valid_requests (AlterTable path changes ignore).
Proof.
  unfold AlterTable. repeat request_step.
  destruct (appendAll_Forall _ _ _ _ alterConfig_valid ltac:(eassumption)) as [Hf1 Hl1].
  destruct (appendAll_Forall _ _ _ _ addedColumn_valid ltac:(eassumption)) as [Hf2 Hl2].
  destruct (appendAll_Forall _ _ _ _ droppedColumn_valid ltac:(eassumption)) as [Hf3 Hl3].
  destruct (appendAll_Forall _ _ _ _ renamedColumn_valid ltac:(eassumption)) as [Hf4 Hl4].
  split_and!; [by eapply TablePath_Ok| |done..|destruct (al_BucketCount changes); [lia|done]].
  destruct (al_BucketCount changes); [do 4 right; eauto|].
  rewrite bool_decide_true, andb_true_r in H0 by done. checks. unfold glen in H0.
  destruct a0; [|by left]. destruct a1; [|right; by left]. destruct a2; [|do 2 right; by left]. destruct a3; [|do 3 right; by left].
  cbn in *. lia.
Qed.

Lemma offsetMessage_valid tableID partitionID bucket spec : offsetsRefused spec = None ->
  validRequest (RqListOffsets (offsetMessage tableID partitionID bucket spec)).
Proof.
  unfold offsetsRefused, ScanOffset_Validate, offsetMessage. intros H.
  destruct (so_Kind spec =? ScanFromOffset); [by destruct (check _ _)|].
  pose proof (partitionOf_valid partitionID) as Hp.
  destruct (so_Kind spec =? ScanFromEarliest); [cbn; split_and!; [done..|by left]|].
  destruct (so_Kind spec =? ScanFromLatest); [cbn; split_and!; [done..|right; by left]|].
  destruct (so_Kind spec =? ScanFromTimestamp); [cbn; split_and!; [done..|right; right; eauto]|done].
Qed.

Lemma ListOffsets_requests tableID partition partitionID buckets spec : valid_requests (ListOffsets tableID partition partitionID buckets spec).
Proof.
  unfold ListOffsets. destruct (offsetsRefused spec) as [e|] eqn:He; [exact I|]. apply everyRequest_each. intros bucket.
  apply everyRequest_answer; [|intros answer; exact I]. split; [|by apply offsetMessage_valid].
  unfold validTarget, offsetMessage. by repeat case_match; simplify_eq.
Qed.

Lemma CreateACLs_requests acls : valid_requests (CreateACLs acls).
Proof.
  unfold CreateACLs. repeat request_step. checks.
  edestruct (appendAll_Forall (checkedMessage ACLBinding_validate ACLBinding_message) validAcl) as [Hf Hl]; [|eassumption|].
  - intros a' m [Hv ->]%checkedMessage_Ok. by exists a'.
  - split; [by eapply length_nonempty|done].
Qed.

Lemma DropACLs_requests filters : valid_requests (DropACLs filters).
Proof.
  unfold DropACLs. repeat request_step. checks.
  edestruct (appendAll_Forall (checkedMessage ACLBindingFilter_validate ACLBindingFilter_message) validAclFilter) as [Hf Hl]; [|eassumption|].
  - intros f m [Hv ->]%checkedMessage_Ok. by exists f.
  - split; [by eapply length_nonempty|done].
Qed.

Lemma ListACLs_requests filter : valid_requests (ListACLs filter).
Proof. unfold ListACLs. repeat request_step. exists filter. by destruct a. Qed.

(** A change that sets, appends or subtracts, without a value. *)
Definition unvalued (change : AlterConfig) : bool := negb (ac_Op change =? ConfigDelete) && negb (isKnown (ac_Value change)).

(** A duration that passes the check of a positive one, and is none in milliseconds. *)
Definition lostDuration (duration : Z) : bool := (0 <? duration) && (duration <? millisecond).

(** The operations whose checks let an invalid request through. *)
Definition overlooked (op : operation) : bool :=
  match op with
  | OpAlterClusterConfigs changes => existsb unvalued changes
  | OpAcquireKVSnapshotLease _ duration _ | OpRenewKVSnapshotLease _ duration | OpRegisterProducerOffsets _ _ duration => lostDuration duration
  | _ => false
  end.

(** Each request is for its target, and valid unless [flawed]. *)
Notation requests_but flawed := (everyRequest (fun target request => validTarget target request /\ (validRequest request <-> flawed = false)) validPath).

Lemma everyRequest_mono {A} (P P' : adminTarget -> adminRequest -> Prop) Q (m : adminM A) :
  (forall target request, P target request -> P' target request) -> everyRequest P Q m -> everyRequest P' Q m.
Proof. intros H. induction m; cbn; naive_solver. Qed.

Lemma requests_valid {A} (m : adminM A) : valid_requests m -> requests_but false m.
Proof. apply everyRequest_mono. by intros target request []. Qed.

Lemma clusterConfigs_valid changes : forall ms, appendAll clusterConfigMessage changes = Ok ms ->
  length ms = length changes /\ (Forall validConfig ms <-> existsb unvalued changes = false).
Proof.
  induction changes as [|change changes IH]; intros ms H; cbn in H; [injection H as <-; split; [done|split; constructor]|].
  apply bind_Ok in H as (m & Hm & H). apply bind_Ok in H as (rest & Hr & [= <-]). destruct (IH rest Hr) as [Hl Hv].
  unfold clusterConfigMessage in Hm. case_match eqn:Hc; [done|]. injection Hm as <-. checks.
  split; [cbn; by rewrite Hl|]. cbn [existsb]. rewrite Forall_cons, Hv, orb_false_iff. apply and_iff_compat_r.
  unfold validConfig, unvalued, ConfigSet, ConfigDelete, ConfigSubtract in *. cbn.
  destruct (Z.eqb_spec (ac_Op change) 1) as [E|E]; cbn; [split; [done|intros _; split_and!; [done|lia|lia|by left]]|].
  destruct (ac_Value change); cbn; split; try done; [intros _; split_and!; [done|lia|lia|right; by eexists]|by intros (_ & _ & [?|[? ?]])].
Qed.

Lemma AlterClusterConfigs_requests changes : requests_but (existsb unvalued changes) (AlterClusterConfigs changes).
Proof.
  unfold AlterClusterConfigs. repeat request_step. checks.
  destruct (clusterConfigs_valid _ _ ltac:(eassumption)) as [Hl Hv]. rewrite Hv. split; [by intros []|intros Hu]. split; [by eapply length_nonempty|done].
Qed.

Lemma changeServerTag_requests add serverIDs tag : valid_requests (changeServerTag add serverIDs tag).
Proof.
  unfold changeServerTag. repeat request_step. checks. split_and!; [by apply glen_nonempty| |].
  - apply Forall_forall. intros id Hin. apply Z.nlt_ge. intros Hlt.
    assert (existsb (fun id => id <? 0) serverIDs = true) as E; [|by rewrite E in H0].
    apply existsb_exists. exists id. split; [by apply list_elem_of_In|lia].
  - unfold ServerTagPermanentOffline, ServerTagTemporaryOffline in *. lia.
Qed.

Lemma ListRebalanceProgress_requests id : valid_requests (ListRebalanceProgress id).
Proof. unfold ListRebalanceProgress. repeat request_step. by checks. Qed.

Lemma WaitRebalance_requests id interval waits : valid_requests (WaitRebalance id interval waits).
Proof.
  unfold WaitRebalance. request_step; [request_step|]. induction waits as [|w waits IH]; cbn [waitRebalanceLoop];
    (apply everyRequest_bind; [apply ListRebalanceProgress_requests|]; intros [progress|e]; [|exact I]; request_step; [exact I|]).
  - exact I.
  - by destruct w.
Qed.

Lemma GetLatestKVSnapshots_requests path partition : valid_requests (GetLatestKVSnapshots path partition).
Proof.
  unfold GetLatestKVSnapshots. repeat request_step. split; [by eapply TablePath_Ok|]. unfold omitEmpty. case_bool_decide; [done|congruence].
Qed.

Lemma AcquireKVSnapshotLease_requests leaseID duration snapshots :
  requests_but (lostDuration duration) (AcquireKVSnapshotLease leaseID duration snapshots).
Proof.
  unfold AcquireKVSnapshotLease. repeat request_step. checks. unfold lostDuration. rewrite <- milliseconds_pos by done.
  apply leaseMessages_Ok in H0 as (_ & [? ?] & _). split; [by intros (_ & ? & _)|done].
Qed.

Lemma RenewKVSnapshotLease_requests leaseID duration : requests_but (lostDuration duration) (RenewKVSnapshotLease leaseID duration).
Proof.
  unfold RenewKVSnapshotLease. repeat request_step. checks. unfold lostDuration. rewrite <- milliseconds_pos by done.
  split; [by intros (_ & ? & _)|]. intros ?. split_and!; [done|done|split; constructor].
Qed.

Lemma ReleaseKVSnapshotLease_requests leaseID buckets : valid_requests (ReleaseKVSnapshotLease leaseID buckets).
Proof.
  unfold ReleaseKVSnapshotLease. repeat request_step. checks.
  destruct (appendAll_Forall _ _ _ _ releaseBucket_valid ltac:(eassumption)) as [Hf Hl]. split_and!; [done|by eapply length_nonempty|done].
Qed.

Lemma RegisterProducerOffsets_requests producerID tables ttl :
  requests_but (lostDuration ttl) (RegisterProducerOffsets producerID tables ttl).
Proof.
  unfold RegisterProducerOffsets. repeat request_step. checks. unfold lostDuration. rewrite <- milliseconds_pos by done.
  destruct (appendAll_Forall _ _ _ _ producerTable_valid ltac:(eassumption)) as [Hf Hl].
  split; [by intros (_ & ? & _)|]. intros ?. split_and!; [done|done|by eapply length_nonempty|done].
Qed.

Lemma GetTableStats_requests tableID path partitionID buckets : valid_requests (GetTableStats tableID path partitionID buckets).
Proof.
  unfold GetTableStats. apply everyRequest_each. intros bucket. request_step; [exact I|]. checks.
  apply everyRequest_answer; [|intros answer; exact I]. split; [done|]. split_and!; [done..|]. apply partitionOf_valid.
Qed.

#[export] Hint Resolve AlterDatabase_requests CreateTable_requests AlterTable_requests ListOffsets_requests CreateACLs_requests DropACLs_requests
  ListACLs_requests AlterClusterConfigs_requests changeServerTag_requests ListRebalanceProgress_requests WaitRebalance_requests
  GetLatestKVSnapshots_requests AcquireKVSnapshotLease_requests RenewKVSnapshotLease_requests ReleaseKVSnapshotLease_requests
  RegisterProducerOffsets_requests GetTableStats_requests : requests.

Lemma perform_requests zone op : requests_but (overlooked op) (pf_run (perform zone op)).
Proof.
  destruct op; cbn [perform pf_run overlooked]; try solve [auto with requests];
    apply requests_valid; try solve [auto with requests];
    unfold CreateDatabase, DropDatabase, ListDatabaseSummaries, DatabaseExists, GetDatabaseInfo, DropTable, ListTables, TableExists,
      GetTableInfo, GetTableSchema, CreatePartition, DropPartition, ListPartitionInfos, GetClusterHealth, ListRemoteLogManifests,
      ListKVSnapshots, DescribeClusterConfigs, Rebalance, CancelRebalance, GetFileSystemSecurityToken, GetServerNodes,
      GetKVSnapshotMetadata, DropKVSnapshotLease, GetProducerOffsets, DeleteProducerOffsets, GetLatestLakeSnapshot, GetLakeSnapshot,
      GetReadableLakeSnapshot, getLakeSnapshot; repeat request_step; checks;
    try solve [split_and?; eauto with admin].
  - by intros answer.
  - destruct add; apply changeServerTag_requests.
Qed.

(** *** How many requests *)

Definition calls (op : operation) : nat :=
  match op with
  | OpListOffsets _ _ _ buckets _ | OpGetTableStats _ _ _ buckets => length buckets
  | OpWaitRebalance _ _ waits => S (length waits)
  | _ => 1
  end.

Lemma atMost_mono {A} n n' (m : adminM A) : (n <= n')%nat -> atMost n m -> atMost n' m.
Proof.
  revert n n'. induction m as [a| |t r k IH|path k IH]; intros n n' Hle H; cbn in *; try done;
    (destruct n; [done|]; destruct n'; [lia|]; intros answer; eapply IH; [|apply H]; lia).
Qed.

Lemma atMost_bind {A B} n n' (m : adminM A) (f : A -> adminM B) : atMost n m -> (forall a, atMost n' (f a)) -> atMost (n + n') (adminBind m f).
Proof.
  intros Hm Hf. revert n Hm. induction m as [a| |t r k IH|path k IH]; intros n Hm; cbn in *; try done.
  - eapply atMost_mono; [|apply Hf]. lia.
  - destruct n; [done|]. cbn. intros answer. by apply IH.
  - destruct n; [done|]. cbn. intros answer. by apply IH.
Qed.

Lemma atMost_each {A} (f : Z -> adminM A) buckets : (forall bucket, atMost 1 (f bucket)) -> atMost (length buckets) (eachBucket f buckets).
Proof.
  intros H. induction buckets as [|b buckets IH]; [done|]. cbn [eachBucket length].
  apply (atMost_bind 1); [apply H|]. intros a. rewrite <- (Nat.add_0_r (length buckets)). by apply atMost_bind.
Qed.

Ltac call_step :=
  lazymatch goal with
  | |- atMost _ (validated _ _) => apply atMost_validated; intros ? ?
  | |- atMost _ (coordinator _ _) => intros answer; exact I
  | |- atMost _ (command _) => intros answer; exact I
  | |- atMost _ (ofOutcome _) => apply atMost_ofOutcome
  | |- atMost _ (failM _) => exact I
  | |- atMost _ (Ret _) => exact I
  | |- atMost (S _) (Ask _ _ _) => intros [[]|]
  | |- atMost (S _) (AskTable _ _) => intros ?
  | |- atMost _ (if ?b then _ else _) => destruct b
  | |- atMost _ (match ?b with _ => _ end) => destruct b
  end.

Lemma ListRebalanceProgress_calls id : atMost 1 (ListRebalanceProgress id).
Proof. unfold ListRebalanceProgress. by repeat call_step. Qed.

Lemma WaitRebalance_calls id interval waits : atMost (S (length waits)) (WaitRebalance id interval waits).
Proof.
  unfold WaitRebalance. call_step; [call_step|].
  induction waits as [|w waits IH]; cbn [waitRebalanceLoop length];
    (apply (atMost_bind 1); [apply ListRebalanceProgress_calls|]; intros [progress|e]; [|exact I]; call_step; [exact I|]); [exact I|].
  by destruct w.
Qed.

Lemma perform_calls zone op : atMost (calls op) (pf_run (perform zone op)).
Proof.
  destruct op; cbn [perform pf_run calls]; try (match goal with add : bool |- _ => destruct add end); cbn [pf_run];
    try apply WaitRebalance_calls; try apply ListRebalanceProgress_calls;
    unfold CreateDatabase, DropDatabase, ListDatabaseSummaries, DatabaseExists, GetDatabaseInfo, AlterDatabase, CreateTable, DropTable,
      ListTables, TableExists, GetTableInfo, GetTableSchema, AlterTable, CreatePartition, DropPartition, ListPartitionInfos, GetClusterHealth,
      ListRemoteLogManifests, ListKVSnapshots, CreateACLs, ListACLs, DropACLs, DescribeClusterConfigs, AlterClusterConfigs, AddServerTag,
      RemoveServerTag, changeServerTag, Rebalance, CancelRebalance, GetFileSystemSecurityToken, GetServerNodes, GetLatestKVSnapshots,
      GetKVSnapshotMetadata, AcquireKVSnapshotLease, RenewKVSnapshotLease, ReleaseKVSnapshotLease, DropKVSnapshotLease,
      RegisterProducerOffsets, GetProducerOffsets, DeleteProducerOffsets, GetLatestLakeSnapshot, GetLakeSnapshot, GetReadableLakeSnapshot,
      getLakeSnapshot; try solve [repeat call_step].
  - unfold ListOffsets. destruct (offsetsRefused spec); [exact I|]. apply atMost_each. intros bucket answer. exact I.
  - unfold GetTableStats. apply atMost_each. intros bucket. call_step; [exact I|]. intros answer. exact I.
Qed.


(** ** Round trips *)

Lemma producerBuckets_read offsets ms : appendAll producerBucketMessage offsets = Ok ms ->
  map (fun o => MkProducerBucket (default (-1) (po_PartitionId o)) (po_BucketId o) (po_LogEndOffset o)) ms = offsets.
Proof.
  revert ms. induction offsets as [|o offsets IH]; intros ms H; cbn in H; [by injection H as <-|].
  apply bind_Ok in H as (m & Hm & H). apply bind_Ok in H as (rest & Hr & [= <-]). cbn. rewrite (IH rest Hr). f_equal.
  unfold producerBucketMessage in Hm. case_match eqn:Hb; [done|]. injection Hm as <-. checks. destruct o as [p b off]. cbn in *.
  unfold partitionOf. case_match; cbn; f_equal; lia.
Qed.

Lemma producerTables_read tables ms : appendAll producerTableOffsetsMessage tables = Ok ms -> producerOffsetsFromMessage ms = tables.
Proof.
  revert ms. induction tables as [|t tables IH]; intros ms H; cbn in H; [by injection H as <-|].
  apply bind_Ok in H as (m & Hm & H). apply bind_Ok in H as (rest & Hr & [= <-]). cbn. rewrite <- (IH rest Hr). f_equal.
  unfold producerTableOffsetsMessage in Hm. case_match; [done|]. apply bind_Ok in Hm as (offsets & Ho & [= <-]). cbn.
  rewrite (producerBuckets_read _ _ Ho). by destruct t.
Qed.

Lemma aclFromMessage_Ok m acl : aclFromMessage (Some m) = Ok acl <-> ACLBinding_validate acl = Ok tt /\ m = ACLBinding_message acl.
Proof.
  unfold aclFromMessage, ACLBinding_message. destruct m as [m1 m2 m3 m4 m5 m6 m7]. cbn.
  set (a := MkACL m1 m2 m3 m4 m5 m6 m7). destruct (ACLBinding_validate a) as [[]|e| |] eqn:Hv; split.
  - intros [= <-]. split; [done|]. by subst a.
  - intros [H [= -> -> -> -> -> -> ->]]. subst a. by destruct acl.
  - intros [=].
  - intros [H [= -> -> -> -> -> -> ->]]. subst a. destruct acl. cbn in *. congruence.
  - intros [=].
  - intros [H [= -> -> -> -> -> -> ->]]. subst a. destruct acl. cbn in *. congruence.
  - intros [=].
  - intros [H [= -> -> -> -> -> -> ->]]. subst a. destruct acl. cbn in *. congruence.
Qed.

(** What the client writes into messages it reads back from them: leases, in any order of their
    tables, the leases of a table in theirs; the offsets of producers; access-control entries,
    exactly the valid ones; and the values of partitions, under sorted keys. *)
Theorem admin_roundtrips :
  (forall snapshots groups, leaseMessages snapshots = Ok groups ->
     leasesFromMessage groups ≡ₚ snapshots /\ NoDup (pl_TableId <$> groups) /\
     forall table, filter (fun l => le_TableID l = table) (leasesFromMessage groups) = filter (fun l => le_TableID l = table) snapshots) /\
  (forall tables ms, appendAll producerTableOffsetsMessage tables = Ok ms -> producerOffsetsFromMessage ms = tables) /\
  (forall m acl, aclFromMessage (Some m) = Ok acl <-> ACLBinding_validate acl = Ok tt /\ m = ACLBinding_message acl) /\
  (forall p, partitionSpec (PartitionSpec_proto p) = p /\ Sorted stringLe (PartitionSpec_proto p).*1).
Proof.
  split_and!; [|apply producerTables_read|apply aclFromMessage_Ok|].
  2: { intros p. split; [apply partitionSpec_proto|apply PartitionSpec_proto_sorted]. }
  intros snapshots groups H. apply leaseMessages_Ok in H as (_ & [Hnd _] & Hp & Ho). by split_and!.
Qed.

(** ** Results *)

Section Results.
Context (handler : nat -> adminTarget -> adminRequest -> result adminResponse) (getTable : TablePath -> result Table).

Lemma runAdmin_bind {A B} n (m : adminM A) (f : A -> adminM B) :
  runAdmin handler getTable n (adminBind m f) =
  match runAdmin handler getTable n m with
  | (Some a, sent) => let '(b, sent') := runAdmin handler getTable (n + length sent) (f a) in (b, sent ++ sent')
  | (None, sent) => (None, sent)
  end.
Proof.
  revert n. induction m as [a| |t r k IH|path k IH]; intros n; cbn [adminBind runAdmin].
  - rewrite Nat.add_0_r. by destruct (runAdmin _ _ _ _).
  - done.
  - rewrite IH. destruct (runAdmin handler getTable (S n) (k (handler n t r))) as [[a|] sent]; [|done].
    cbn [length]. rewrite Nat.add_succ_r. by destruct (runAdmin _ _ _ (f a)).
  - apply IH.
Qed.

Lemma responseError_None fields api : responseError fields api = None <-> ef_ErrorCode fields = ErrorCodeNone.
Proof. unfold responseError. rewrite fmap_None. apply responseServerError_None. Qed.

Lemma statsResult_None bucket partitionID answer : ts_Err (statsResult bucket partitionID answer) = None ->
  exists fields, ef_ErrorCode fields = ErrorCodeNone /\
    answer = inl (RsGetTableStats [(bucket, ts_RowCount (statsResult bucket partitionID answer), fields)]).
Proof.
  unfold statsResult. destruct answer as [[]|]; try done. destruct buckets as [|[[id rowCount] fields] [|]]; try done.
  destruct (Z.eqb_spec id bucket) as [->|]; [|done]. cbn. intros H%responseError_None. by exists fields.
Qed.

Lemma statsResult_fields bucket partitionID answer :
  ts_Bucket (statsResult bucket partitionID answer) = bucket /\ ts_PartitionID (statsResult bucket partitionID answer) = partitionID.
Proof. unfold statsResult. by repeat case_match. Qed.

(** Every bucket has its own request, and its own result, in the order of the buckets; a bucket
    that is refused has an error and sends nothing. *)
Theorem table_stats_per_bucket tableID path partitionID buckets n :
  exists results sent, runAdmin handler getTable n (GetTableStats tableID path partitionID buckets) = (Some results, sent) /\
    ts_Bucket <$> results = buckets /\
    sent = (if invalidIdentity tableID partitionID then []
            else (fun bucket => (ToBucket path bucket, RqGetTableStats tableID bucket (partitionOf partitionID)))
                   <$> filter (fun bucket => 0 <= bucket) buckets) /\
    Forall (fun r => ts_PartitionID r = partitionID /\ (ts_Err r = None ->
      exists k fields, (n <= k < n + length sent)%nat /\ ef_ErrorCode fields = ErrorCodeNone /\
        handler k (ToBucket path (ts_Bucket r)) (RqGetTableStats tableID (ts_Bucket r) (partitionOf partitionID))
        = inl (RsGetTableStats [(ts_Bucket r, ts_RowCount r, fields)]))) results.
Proof.
  revert n. induction buckets as [|b buckets IH]; intros n.
  - exists [], []. split_and!; [done..|by destruct (invalidIdentity _ _)|done].
  - unfold GetTableStats. cbn [eachBucket]. unfold mbind, adminM_bind. rewrite runAdmin_bind.
    destruct (invalidIdentity tableID partitionID || (b <? 0)) eqn:Hb.
    + cbn [runAdmin length]. rewrite Nat.add_0_r, runAdmin_bind. destruct (IH n) as (results & sent & E & Hr & Hs & Hf).
      unfold GetTableStats in E. rewrite E. cbn [runAdmin]. eexists _, _. split; [reflexivity|]. rewrite !app_nil_r, !app_nil_l.
      split_and!; [cbn; by rewrite Hr| |by constructor].
      rewrite Hs. destruct (invalidIdentity tableID partitionID); [done|]. cbn in Hb. by rewrite filter_cons_False by lia.
    + apply orb_false_iff in Hb as [Hi Hb]. cbn [runAdmin length]. rewrite runAdmin_bind.
      destruct (IH (n + 1)%nat) as (results & sent & E & Hr & Hs & Hf).
      unfold GetTableStats in E. rewrite E. cbn [runAdmin]. eexists _, _. split; [reflexivity|]. rewrite !app_nil_r.
      set (r := statsResult _ _ _). destruct (statsResult_fields b partitionID (handler n (ToBucket path b) (RqGetTableStats tableID b (partitionOf partitionID)))) as [Hrb Hrp].
      fold r in Hrb, Hrp. split_and!; [cbn; by rewrite Hrb, Hr|rewrite Hs, Hi, filter_cons_True by lia; done|].
      constructor.
      * split; [done|]. intros He. apply statsResult_None in He as (fields & Hc & Ha). exists n, fields. fold r in Ha.
        split_and!; [lia|cbn; lia|done|by rewrite Hrb].
      * eapply Forall_impl; [exact Hf|]. cbn. intros r' [Hp Hk]. split; [done|]. intros He. destruct (Hk He) as (k & fields & Hlt & Hrest).
        exists k, fields. split; [lia|done].
Qed.

(** The answer to the k-th poll after the n-th request. *)
Definition pollAnswer (id : string) (k : nat) : result RebalanceProgress :=
  match handler k ToCoordinator (RqListRebalanceProgress id) with inl reply => rebalanceProgress reply | inr e => inr e end.

Definition running (id : string) (k : nat) : Prop := exists progress, pollAnswer id k = inl progress /\ rb_Status progress = 0.

Lemma ListRebalanceProgress_run id n : id <> ""%string ->
  runAdmin handler getTable n (ListRebalanceProgress id) = (Some (pollAnswer id n), [(ToCoordinator, RqListRebalanceProgress id)]).
Proof. intros H. unfold ListRebalanceProgress. by rewrite bool_decide_false. Qed.

(** [WaitRebalance] polls until a poll does not say that the rebalance is running, and gives what
    that poll gave, an error too; or until the context ends while it waits after a poll, and gives
    the context's error.  While neither happens it goes on. *)
Theorem wait_rebalance_first id interval waits n : id <> ""%string -> 0 < interval ->
  exists answer sent, runAdmin handler getTable n (WaitRebalance id interval waits) = (Some answer, sent) /\
  exists k, length sent = S k /\ (forall j, (j < k)%nat -> running id (n + j) /\ waits !! j = Some None) /\
  match answer with
  | Some (inr e) => running id (n + k) /\ waits !! k = Some (Some e) \/ pollAnswer id (n + k) = inr e
  | Some (inl progress) => pollAnswer id (n + k) = inl progress /\ rb_Status progress <> 0
  | None => running id (n + k) /\ k = length waits
  end.
Proof.
  intros Hid Hi. unfold WaitRebalance. case_match; [lia|]. clear H.
  revert n. induction waits as [|w waits IH]; intros n; cbn [waitRebalanceLoop]; unfold mbind, adminM_bind; rewrite runAdmin_bind,
    ListRebalanceProgress_run by done; cbn [length].
  - destruct (pollAnswer id n) as [progress|e] eqn:Hp.
    + destruct (negb (rb_Status progress =? 0)) eqn:Hs; cbn [runAdmin]; eexists _, _; (split; [reflexivity|]; exists 0%nat; rewrite Nat.add_0_r; split; [done|]; split; [lia|]).
      * split; [done|lia].
      * split; [exists progress; split; [done|lia]|done].
    + cbn [runAdmin]. eexists _, _. split; [reflexivity|]. exists 0%nat. rewrite Nat.add_0_r. split_and!; [done|lia|by right].
  - destruct (pollAnswer id n) as [progress|e] eqn:Hp.
    + destruct (negb (rb_Status progress =? 0)) eqn:Hs; cbn [runAdmin].
      { eexists _, _. split; [reflexivity|]. exists 0%nat. rewrite Nat.add_0_r. split_and!; [done|lia|done|lia]. }
      assert (running id n) as Hrun by (exists progress; split; [done|lia]).
      destruct w as [e|].
      { cbn [runAdmin]. eexists _, _. split; [reflexivity|]. exists 0%nat. rewrite Nat.add_0_r. split_and!; [done|lia|by left]. }
      destruct (IH (n + 1)%nat) as (answer & sent & E & k & Hl & Hk & Ha). rewrite E. eexists _, _. split; [reflexivity|].
      exists (S k). replace (n + S k)%nat with (n + 1 + k)%nat by lia. split_and!; [cbn; by rewrite Hl| |].
      * intros [|j] Hj; [by rewrite Nat.add_0_r|]. replace (n + S j)%nat with (n + 1 + j)%nat by lia. apply Hk. lia.
      * destruct answer as [[progress'|e]|]; [done|done|]. destruct Ha as [? ->]. split; [done|done].
    + cbn [runAdmin]. eexists _, _. split; [reflexivity|]. exists 0%nat. rewrite Nat.add_0_r. split_and!; [done|lia|by right].
Qed.
End Results.

(** *** Servers *)

#[export] Instance serverOrder_total : Total serverOrder.
Proof.
  intros a b. unfold serverOrder, serverLe. rewrite (String.compare_antisym (an_Host b) (an_Host a)).
  destruct (an_Host a ?= an_Host b)%string; cbn; rewrite !orb_true_iff, !andb_true_iff; lia.
Qed.

(** The nodes of a cluster are the coordinator and then the tablet servers that were advertised,
    sorted by id, host and port; a node without a host or with a port out of range is refused. *)
Theorem server_nodes_sorted reply nodes : serverNodes reply = Ok nodes ->
  exists c ts coordinator tablets, reply = RsMetadata c ts /\ nodes = coordinator :: tablets /\
    serverNode c CoordinatorServer = Ok coordinator /\ Sorted serverOrder tablets /\
    Forall (fun node => an_Host node <> ""%string /\ 0 < an_Port node <= 65535 /\ an_ServerType node = TabletServer) tablets /\
    exists advertised, tablets ≡ₚ advertised /\ Forall2 (fun node n => serverNode node TabletServer = Ok n) ts advertised.
Proof.
  destruct reply; try done. cbn. intros H. apply bind_Ok in H as (c & Hc & H). apply bind_Ok in H as (l & Hl & [= <-]).
  exists coordinator, tablets, c, (merge_sort serverOrder l).
  assert (Forall2 (fun node n => serverNode node TabletServer = Ok n) tablets l) as H2.
  { revert l Hl. induction tablets as [|t tablets IH]; intros l Hl; cbn in Hl; [by injection Hl as <-|].
    apply bind_Ok in Hl as (n & Hn & Hl). apply bind_Ok in Hl as (rest & Hr & [= <-]). constructor; [done|]. by apply IH. }
  split_and!; [done..|apply Sorted_merge_sort, _| |exists l; split; [apply merge_sort_Permutation|done]].
  rewrite merge_sort_Permutation. clear Hl. induction H2 as [|t n tablets l Hn _ IH]; [done|]. constructor; [|done].
  unfold serverNode in Hn. destruct t as [t|]; [|done]. case_match eqn:Hb; [done|]. injection Hn as <-. checks. by split_and!.
Qed.

(** ** Behaviour worth knowing *)

(** [AlterClusterConfigs] sends a change that sets, appends or subtracts without a value, which
    [AlterTable] and [AlterDatabase] refuse. *)
Theorem cluster_config_without_value key op : key <> ""%string -> 0 <= op <= 3 -> op <> ConfigDelete ->
  AlterClusterConfigs [MkAlterConfig key None op] = command (RqAlterClusterConfigs [MkPbAlterConfig key None op]) /\
  alterConfigMessage (MkAlterConfig key None op) = Err ErrInvalidConfig.
Proof.
  intros Hk Ho Hd. unfold AlterClusterConfigs, clusterConfigMessage, alterConfigMessage, ConfigSet, ConfigSubtract, ConfigDelete in *. cbn.
  rewrite bool_decide_false by done. cbn. replace (op <? 0) with false by lia. replace (3 <? op) with false by lia.
  replace (op =? 1) with false by lia. done.
Qed.

(** A bucket of a table without partitions is reported with partition 0 by the progress of a
    rebalance, as if it were of that partition. *)
Theorem rebalance_unpartitioned status plan : pr_PartitionId plan = None -> rp_PartitionID (rebalanceBucket (status, plan)) = 0.
Proof. intros H. unfold rebalanceBucket. cbn. by rewrite H. Qed.

(** A positive duration below a millisecond is accepted for a lease and sent as zero. *)
Theorem lease_duration_lost leaseID duration : leaseID <> ""%string -> 0 < duration < millisecond ->
  RenewKVSnapshotLease leaseID duration = command (RqAcquireKvSnapshotLease leaseID 0 []).
Proof.
  intros Hl Hd. unfold RenewKVSnapshotLease, milliseconds. rewrite bool_decide_false by done. replace (duration <=? 0) with false by lia. cbn.
  by rewrite Z.quot_small by lia.
Qed.

(** ** Witnesses *)

(** A server whose rebalance runs for two polls and has then ended. *)
Definition rebalanceServer (n : nat) (target : adminTarget) (request : adminRequest) : result adminResponse :=
  match request with
  | RqListRebalanceProgress id => inl (RsRebalanceProgress id (if (n <? 2)%nat then 0 else 1) [])
  | _ => inr (Plain ErrInvalidConfig)
  end.

Lemma wait_rebalance_first_witness :
  runAdmin rebalanceServer (fun _ => inr (Plain ErrInvalidConfig)) 0 (WaitRebalance "r1" 5 [None; None; None])
  = (Some (Some (inl (MkRebalanceProgress "r1" 1 []))),
     [(ToCoordinator, RqListRebalanceProgress "r1"); (ToCoordinator, RqListRebalanceProgress "r1"); (ToCoordinator, RqListRebalanceProgress "r1")]) /\
  exists answer sent, runAdmin rebalanceServer (fun _ => inr (Plain ErrInvalidConfig)) 0 (WaitRebalance "r1" 5 [None; None; None]) = (Some answer, sent) /\
  exists k, length sent = S k /\ (forall j, (j < k)%nat -> running rebalanceServer "r1" (0 + j) /\ [None; None; None] !! j = Some (None (A := callError))) /\
  match answer with
  | Some (inr e) => running rebalanceServer "r1" (0 + k) /\ [None; None; None] !! k = Some (Some e) \/ pollAnswer rebalanceServer "r1" (0 + k) = inr e
  | Some (inl progress) => pollAnswer rebalanceServer "r1" (0 + k) = inl progress /\ rb_Status progress <> 0
  | None => running rebalanceServer "r1" (0 + k) /\ k = length [None (A := callError); None; None]
  end.
Proof. split; [reflexivity|]. apply wait_rebalance_first; [done|lia]. Defined.

Definition exampleLeases : list KVSnapshotLease := [MkLease 7 (-1) 0 3; MkLease 8 4 1 5; MkLease 7 (-1) 1 3].
Definition exampleGroups : list pbLeaseTable :=
  [MkPbLeaseTable 7 [MkPbLeaseBucket None 0 3; MkPbLeaseBucket None 1 3]; MkPbLeaseTable 8 [MkPbLeaseBucket (Some 4) 1 5]].

Lemma admin_roundtrips_witness :
  (leaseMessages exampleLeases = Ok exampleGroups /\ leasesFromMessage exampleGroups ≡ₚ exampleLeases) /\
  producerOffsetsFromMessage [MkPbProducerTable 7 [MkPbBucketOffset None 0 12; MkPbBucketOffset (Some 3) 1 0]]
  = [MkProducerTable 7 [MkProducerBucket (-1) 0 12; MkProducerBucket 3 1 0]].
Proof.
  destruct admin_roundtrips as (Hl & Hp & _). split.
  - split; [reflexivity|]. apply (Hl exampleLeases exampleGroups). reflexivity.
  - apply Hp. reflexivity.
Defined.
