(* ===== verification/Typed.v ===== *)
(** * Typed values

    Models [typed.go]: the writers, lookups and scanners that map the values of an application to
    rows and back with a codec it gives.

    A codec is any pair of functions; what they panic of the operations panic of.  A nil handle,
    and one that wraps nothing, is [None].  What the wrapped object does is its own model's. *)

From S2P Require Import Prelude Model Values Codec RecordBatch Errors Metadata Scheduler WriterLoop KVWriter LogWriter ScanDecode ScanBounds LogScanner BatchScanner Lookup.

Section Typed.
Context {T K : Type}.

(** ** Codecs *)

Record RowCodec := MkRowCodec { cd_Encode : T -> outcome Row; cd_Decode : Row -> outcome T }.

Record CodecFuncs := MkCodecFuncs { cf_EncodeFunc : option (T -> outcome Row); cf_DecodeFunc : option (Row -> outcome T) }.

Definition CodecFuncs_Encode (c : CodecFuncs) (value : T) : outcome Row :=
  match cf_EncodeFunc c with None => Err ErrInvalidConfig | Some f => f value end.
Definition CodecFuncs_Decode (c : CodecFuncs) (row : Row) : outcome T :=
  match cf_DecodeFunc c with None => Err ErrInvalidConfig | Some f => f row end.

(** [CodecFuncs] as a [Codec]. *)
Definition funcsCodec (c : CodecFuncs) : RowCodec := MkRowCodec (CodecFuncs_Encode c) (CodecFuncs_Decode c).

Definition KeyCodec : Type := K -> outcome PrimaryKey.

(** [KeyCodecFunc.EncodeKey]. *)
Definition KeyCodecFunc_EncodeKey (f : option KeyCodec) (key : K) : outcome PrimaryKey :=
  match f with None => Err ErrInvalidConfig | Some f => f key end.

Definition validateTypedCodec (codec : option RowCodec) : outcome RowCodec :=
  match codec with None => Err ErrInvalidConfig | Some codec => Ok codec end.
Definition validateTypedKeyCodec (codec : option KeyCodec) : outcome KeyCodec :=
  match codec with None => Err ErrInvalidConfig | Some codec => Ok codec end.

(** The check of a client, or of an object to wrap, that may be nil. *)
Definition nonNil {A} (a : option A) : outcome A := match a with None => Err ErrInvalidConfig | Some a => Ok a end.

(** ** Writers *)

Record TypedAppendWriter := MkTypedAppend { ta_writer : AppendWriter; ta_codec : RowCodec }.
Record TypedUpsertWriter := MkTypedUpsert { tu_writer : UpsertWriter; tu_codec : RowCodec; tu_keyCodec : KeyCodec }.

Section Open.
Context {C : Type} (client : option C).

Definition NewTypedAppendWriter (open : C -> outcome AppendWriter) (codec : option RowCodec) : outcome TypedAppendWriter :=
  client ← nonNil client; codec ← validateTypedCodec codec; writer ← open client; Ok (MkTypedAppend writer codec).

Definition NewTypedUpsertWriter (open : C -> outcome UpsertWriter) (codec : option RowCodec) (keyCodec : option KeyCodec)
    : outcome TypedUpsertWriter :=
  client ← nonNil client; codec ← validateTypedCodec codec; keyCodec ← validateTypedKeyCodec keyCodec;
  writer ← open client; Ok (MkTypedUpsert writer codec keyCodec).
End Open.

Definition wrapTypedAppendWriter (writer : option AppendWriter) (codec : option RowCodec) : outcome TypedAppendWriter :=
  writer ← nonNil writer; codec ← validateTypedCodec codec; Ok (MkTypedAppend writer codec).

Definition wrapTypedUpsertWriter (writer : option UpsertWriter) (codec : option RowCodec) (keyCodec : option KeyCodec)
    : outcome TypedUpsertWriter :=
  writer ← nonNil writer; codec ← validateTypedCodec codec; keyCodec ← validateTypedKeyCodec keyCodec;
  Ok (MkTypedUpsert writer codec keyCodec).

Definition completedWriteError (err : callError) : WriteFuture := (complete newWriteFuture (errorResult err)).1.

(** The future a call returns: completed with the error of the call, or still open. *)
Definition callFuture {A} (sent : outcome A) : WriteFuture :=
  match sent with Err e => completedWriteError (Plain e) | _ => newWriteFuture end.

(** [TypedAppendWriter.Append] and the other writes: the item that is sent, or the error its
    future gets, as for the writer that is wrapped. *)
Definition TypedAppend {Rec} (w : option TypedAppendWriter) (ctx : Context_) (value : T) (future : nat) : outcome (pendingWrite (Rec := Rec)) :=
  w ← nonNil w; row ← cd_Encode (ta_codec w) value; Append_ (ta_writer w) ctx row future.

Definition TypedUpsert (w : option TypedUpsertWriter) (ctx : Context_) (value : T) (future : nat) : outcome pendingKVWrite :=
  w ← nonNil w; row ← cd_Encode (tu_codec w) value; Upsert (tu_writer w) ctx row future.

Definition TypedDelete (w : option TypedUpsertWriter) (ctx : Context_) (key : K) (future : nat) : outcome pendingKVWrite :=
  w ← nonNil w; primaryKey ← tu_keyCodec w key; DeleteKey (tu_writer w) ctx primaryKey future.

(** [Flush] and [Close], over those of the writer. *)
Definition TypedAppendWriter_Flush (w : option TypedAppendWriter) (flush : AppendWriter -> result unit) : result unit :=
  match w with None => inr (Plain ErrInvalidConfig) | Some w => flush (ta_writer w) end.
Definition TypedAppendWriter_Close (w : option TypedAppendWriter) (close : AppendWriter -> result unit) : result unit :=
  match w with None => inl tt | Some w => close (ta_writer w) end.
Definition TypedUpsertWriter_Flush (w : option TypedUpsertWriter) (flush : UpsertWriter -> result unit) : result unit :=
  match w with None => inr (Plain ErrInvalidConfig) | Some w => flush (tu_writer w) end.
Definition TypedUpsertWriter_Close (w : option TypedUpsertWriter) (close : UpsertWriter -> result unit) : result unit :=
  match w with None => inl tt | Some w => close (tu_writer w) end.

(** ** Lookups *)

(** A value is [None] where the code leaves the zero value or what a failed decoder gave. *)
Record TypedLookupResult := MkTypedLookup { tl_Key : K; tl_Found : bool; tl_Value : option T; tl_Err : option callError }.
Record TypedPrefixLookupResult := MkTypedPrefix { tp_Prefix : K; tp_Values : list T; tp_Err : option callError }.

Record TypedLookuper := MkTypedLookuper { ty_lookup : Lookuper; ty_codec : RowCodec; ty_keyCodec : KeyCodec }.

Definition NewTypedLookuper {C} (client : option C) (open : C -> outcome Lookuper) (codec : option RowCodec) (keyCodec : option KeyCodec)
    : outcome TypedLookuper :=
  client ← nonNil client; codec ← validateTypedCodec codec; keyCodec ← validateTypedKeyCodec keyCodec;
  lookup ← open client; Ok (MkTypedLookuper lookup codec keyCodec).

Definition wrapTypedLookuper (lookup : option Lookuper) (codec : option RowCodec) (keyCodec : option KeyCodec) : outcome TypedLookuper :=
  lookup ← nonNil lookup; codec ← validateTypedCodec codec; keyCodec ← validateTypedKeyCodec keyCodec;
  Ok (MkTypedLookuper lookup codec keyCodec).

(** The loop over the keys: the results so far, one per key, and the keys to request with the
    indexes of their results.  [blank] is the result of a key, with the error of its encoding. *)
Fixpoint encodeKeys {R} (keyCodec : KeyCodec) (blank : K -> option callError -> R) (n : Z) (keys : list K)
    : outcome (list R * list PrimaryKey * list Z) :=
  match keys with
  | [] => Ok ([], [], [])
  | key :: keys =>
    match keyCodec key with
    | Ok primaryKey =>
      '(results, requestKeys, requestIndexes) ← encodeKeys keyCodec blank (n + 1) keys;
      Ok (blank key None :: results, primaryKey :: requestKeys, n :: requestIndexes)
    | Err e =>
      '(results, requestKeys, requestIndexes) ← encodeKeys keyCodec blank (n + 1) keys;
      Ok (blank key (Some (Plain e)) :: results, requestKeys, requestIndexes)
    | Panic => Panic
    | OutOfFuel => OutOfFuel
    end
  end.

(** The loop over what the lookup answered: every answer goes into the result at its index. *)
Fixpoint storeAnswers {R A} (store : A -> R -> outcome R) (requestIndexes : list Z) (rawIndex : Z) (raw : list A) (results : list R)
    : outcome (list R) :=
  match raw with
  | [] => Ok results
  | item :: raw =>
    position ← index requestIndexes rawIndex;
    result ← index results position;
    result ← store item result;
    results ← set_index results position result;
    storeAnswers store requestIndexes (rawIndex + 1) raw results
  end.

(** What an answer makes of a result. *)
Definition storePoint (codec : RowCodec) (item : LookupResult) (r : TypedLookupResult) : outcome TypedLookupResult :=
  if bool_decide (lr_Err item = None) && lr_Found item then
    match cd_Decode codec (default [] (lr_Row item)) with
    | Ok value => Ok (MkTypedLookup (tl_Key r) true (Some value) None)
    | Err e => Ok (MkTypedLookup (tl_Key r) true None (Some (Plain e)))
    | Panic => Panic
    | OutOfFuel => OutOfFuel
    end
  else Ok (MkTypedLookup (tl_Key r) (lr_Found item) (tl_Value r) (lr_Err item)).

(** The rows of a prefix: a row that does not decode takes the values away. *)
Fixpoint decodeRows (codec : RowCodec) (rows : list Row) (r : TypedPrefixLookupResult) : outcome TypedPrefixLookupResult :=
  match rows with
  | [] => Ok r
  | row :: rows =>
    match cd_Decode codec row with
    | Ok value => decodeRows codec rows (MkTypedPrefix (tp_Prefix r) (tp_Values r ++ [value]) (tp_Err r))
    | Err e => Ok (MkTypedPrefix (tp_Prefix r) [] (Some (Plain e)))
    | Panic => Panic
    | OutOfFuel => OutOfFuel
    end
  end.

Definition storePrefix (codec : RowCodec) (item : PrefixLookupResult) (r : TypedPrefixLookupResult) : outcome TypedPrefixLookupResult :=
  decodeRows codec (pr_Rows item) (MkTypedPrefix (tp_Prefix r) (tp_Values r) (pr_Err item)).

Definition blankPoint (key : K) (err : option callError) : TypedLookupResult := MkTypedLookup key false None err.
Definition blankPrefix (prefix : K) (err : option callError) : TypedPrefixLookupResult := MkTypedPrefix prefix [] err.

(** [TypedLookuper.Lookup], over that of the lookuper. *)
Definition TypedLookup (c : option TypedLookuper) (lookup : Lookuper -> list PrimaryKey -> outcome (list LookupResult)) (keys : list K)
    : outcome (list TypedLookupResult) :=
  match c with
  | None => Ok (map (fun key => blankPoint key (Some (Plain ErrInvalidConfig))) keys)
  | Some c =>
    '(results, requestKeys, requestIndexes) ← encodeKeys (ty_keyCodec c) blankPoint 0 keys;
    raw ← lookup (ty_lookup c) requestKeys;
    storeAnswers (storePoint (ty_codec c)) requestIndexes 0 raw results
  end.

Definition TypedPrefixLookup (c : option TypedLookuper) (lookup : Lookuper -> list PrimaryKey -> outcome (list PrefixLookupResult))
    (prefixes : list K) : outcome (list TypedPrefixLookupResult) :=
  match c with
  | None => Ok (map (fun prefix => blankPrefix prefix (Some (Plain ErrInvalidConfig))) prefixes)
  | Some c =>
    '(results, requestKeys, requestIndexes) ← encodeKeys (ty_keyCodec c) blankPrefix 0 prefixes;
    raw ← lookup (ty_lookup c) requestKeys;
    storeAnswers (storePrefix (ty_codec c)) requestIndexes 0 raw results
  end.

Definition TypedLookuper_Close (c : option TypedLookuper) (close : Lookuper -> result unit) : result unit :=
  match c with None => inl tt | Some c => close (ty_lookup c) end.

Section Polls.
Context {Rec Filter Predicate : Type}.
Abbreviation LogScanner := (LogScanner (Filter := Filter) (Predicate := Predicate)).

(** ** Log scans *)

Record TypedScanRecord := MkTypedScanRecord { tc_Bucket : Z; tc_Value : T; tc_Change : Z; tc_Timestamp : Time; tc_Offset : Z }.

Record TypedScanResult := MkTypedScan {
  tc_Records : list TypedScanRecord;
  tc_BucketErrors : list (Z * callError);
  tc_HighWatermark : gmap Z Z;
  tc_Done : bool;
}.

Record TypedLogScanner := MkTypedLogScanner { tg_scanner : LogScanner; tg_codec : RowCodec }.

Definition NewTypedLogScanner {C} (client : option C) (open : C -> outcome LogScanner) (codec : option RowCodec) : outcome TypedLogScanner :=
  client ← nonNil client; codec ← validateTypedCodec codec; scanner ← open client; Ok (MkTypedLogScanner scanner codec).

Definition wrapTypedLogScanner (scanner : option LogScanner) (codec : option RowCodec) : outcome TypedLogScanner :=
  scanner ← nonNil scanner; codec ← validateTypedCodec codec; Ok (MkTypedLogScanner scanner codec).

(** The loop over the records, which ends at the first that does not decode. *)
Fixpoint decodeScanRecords (codec : RowCodec) (records : list ScanRecord) : outcome (list TypedScanRecord) :=
  match records with
  | [] => Ok []
  | item :: records =>
    let record := sr_Record item in
    value ← cd_Decode codec (rec_Value record);
    rest ← decodeScanRecords codec records;
    Ok (MkTypedScanRecord (sr_Bucket item) value (rec_Change record) (rec_Timestamp record) (rec_Offset record) :: rest)
  end.

(** What [Poll] makes of a result of the scanner. *)
Definition typedScanResult (codec : RowCodec) (raw : ScanResult (Rec := Rec)) : outcome TypedScanResult :=
  match rs_ArrowBatches raw with
  | _ :: _ => Err ErrUnsupportedAPI
  | [] =>
    records ← decodeScanRecords codec (rs_Records raw);
    Ok (MkTypedScan records (rs_BucketErrors raw) (rs_HighWatermark raw) (rs_Done raw))
  end.

(** An error, of the scanner or of what its result is made into, is the poll's. *)
Definition typedPoll {A B} (raw : result A) (f : A -> outcome B) : outcome (result B) :=
  match raw with
  | inr e => Ok (inr e)
  | inl a => match f a with Ok b => Ok (inl b) | Err e => Ok (inr (Plain e)) | Panic => Panic | OutOfFuel => OutOfFuel end
  end.

(** [TypedLogScanner.Poll]; [raw] is what the scanner's own poll gives. *)
Definition TypedLogScanner_Poll (s : option TypedLogScanner) (raw : result (ScanResult (Rec := Rec))) : outcome (result TypedScanResult) :=
  match s with None => Ok (inr (Plain ErrInvalidConfig)) | Some s => typedPoll raw (typedScanResult (tg_codec s)) end.

Definition TypedLogScanner_Done (s : option TypedLogScanner) (st : scannerState) : bool :=
  match s with None => true | Some _ => ss_done st end.
Definition TypedLogScanner_Wakeup (s : option TypedLogScanner) (st : scannerState) : scannerState :=
  match s with None => st | Some _ => wakeup st end.
Definition TypedLogScanner_Close (s : option TypedLogScanner) (st : scannerState) : scannerState :=
  match s with None => st | Some _ => closeScanner st end.

(** ** Batch scans *)

Record TypedBatchResult := MkTypedBatch { tt_Values : list T; tt_Done : bool }.
Record TypedBatchScanner := MkTypedBatchScanner { tt_scanner : BatchScanner; tt_codec : RowCodec }.

(** [NewTypedBatchScanner] and [NewTypedSnapshotBatchScanner] differ in how they open. *)
Definition NewTypedBatchScanner {C} (client : option C) (open : C -> outcome BatchScanner) (codec : option RowCodec) : outcome TypedBatchScanner :=
  client ← nonNil client; codec ← validateTypedCodec codec; scanner ← open client; Ok (MkTypedBatchScanner scanner codec).

Definition WrapTypedBatchScanner (scanner : option BatchScanner) (codec : option RowCodec) : outcome TypedBatchScanner :=
  scanner ← nonNil scanner; codec ← validateTypedCodec codec; Ok (MkTypedBatchScanner scanner codec).

Fixpoint decodeBatchRows (codec : RowCodec) (rows : list Row) : outcome (list T) :=
  match rows with
  | [] => Ok []
  | row :: rows => value ← cd_Decode codec row; rest ← decodeBatchRows codec rows; Ok (value :: rest)
  end.

Definition typedBatchResult (codec : RowCodec) (raw : BatchResult (Rec := Rec)) : outcome TypedBatchResult :=
  match br_ArrowBatches raw with
  | _ :: _ => Err ErrUnsupportedAPI
  | [] => values ← decodeBatchRows codec (br_Rows raw); Ok (MkTypedBatch values (br_Done raw))
  end.

Definition TypedBatchScanner_Poll (s : option TypedBatchScanner) (raw : pollResult (Rec := Rec)) : outcome (result TypedBatchResult) :=
  match s with None => Ok (inr (Plain ErrInvalidConfig)) | Some s => typedPoll raw (typedBatchResult (tt_codec s)) end.

Definition TypedBatchScanner_Done (s : option TypedBatchScanner) (st : batchState) : bool :=
  match s with None => true | Some _ => bt_done st end.
End Polls.

Definition TypedBatchScanner_Close (s : option TypedBatchScanner) (close : BatchScanner -> result unit) : result unit :=
  match s with None => inl tt | Some s => close (tt_scanner s) end.
End Typed.

#[global] Arguments RowCodec T : clear implicits.
#[global] Arguments CodecFuncs T : clear implicits.
#[global] Arguments KeyCodec K : clear implicits.
#[global] Arguments TypedAppendWriter T : clear implicits.
#[global] Arguments TypedUpsertWriter T K : clear implicits.
#[global] Arguments TypedLookuper T K : clear implicits.
#[global] Arguments TypedLookupResult T K : clear implicits.
#[global] Arguments TypedPrefixLookupResult T K : clear implicits.
#[global] Arguments TypedScanRecord T : clear implicits.
#[global] Arguments TypedScanResult T : clear implicits.
#[global] Arguments TypedLogScanner T Filter Predicate : clear implicits.
#[global] Arguments TypedBatchResult T : clear implicits.
#[global] Arguments TypedBatchScanner T : clear implicits.
