(* ===== verification/TypedProperties.v ===== *)
(** * Properties of the typed interface

    Typed lookups answer every key with its own answer, typed polls give all the values of a poll
    or its error, and what a typed upsert wrote a typed lookup of the same codec reads. *)

From S2P Require Import Prelude Model SchemaJSON Wire Values Codec DecodeSafety EncodeSafety Roundtrip Keys SchemaEvolution RecordBatch Arrow Errors Metadata Scheduler WriterLoop KVWriter KVRun KVMutation LogWriter ScanDecode ScanBounds LogScanner ScanProperties BatchScanner Lookup Typed.

(** ** Answers at their keys *)

Lemma set_index_app {A} (pre : list A) a b post : set_index (pre ++ a :: post) (glen pre) b = Ok (pre ++ b :: post).
Proof.
  unfold set_index, glen. rewrite length_app. cbn [length].
  rewrite (proj2 (Z.leb_le _ _)), (proj2 (Z.ltb_lt _ _)) by lia. cbn [andb].
  by rewrite Nat2Z.id, insert_app_r_alt, Nat.sub_diag by lia.
Qed.

Section Store.
Context {K R A : Type} (keyCodec : KeyCodec K) (blank : K -> option callError -> R).

(** The reference: every key that is encoded takes the next answer. *)
Fixpoint matchAnswers (answer : K -> A -> R) (keys : list K) (raw : list A) : list R :=
  match keys with
  | [] => []
  | key :: keys =>
    match keyCodec key, raw with
    | Ok _, item :: raw => answer key item :: matchAnswers answer keys raw
    | Err e, _ => blank key (Some (Plain e)) :: matchAnswers answer keys raw
    | _, _ => []
    end
  end.

(** The keys that are requested. *)
Fixpoint requested (keys : list K) : list PrimaryKey :=
  match keys with
  | [] => []
  | key :: keys => match keyCodec key with Ok primaryKey => primaryKey :: requested keys | _ => requested keys end
  end.

Lemma encodeKeys_requested keys : (forall key, returns (keyCodec key) = true) -> forall n,
  exists results indexes, encodeKeys keyCodec blank n keys = Ok (results, requested keys, indexes) /\ length results = length keys.
Proof.
  intros Hk. induction keys as [|key keys IH]; intros n; cbn; [by eexists _, _|].
  destruct (IH (n + 1)) as (rs & idx & E & L). specialize (Hk key). destruct (keyCodec key) as [pk|e| |]; try done; rewrite E; cbn;
    eexists _, _; (split; [done|]); cbn; by rewrite L.
Qed.

Lemma storeAnswers_match (store : A -> R -> outcome R) (answer : K -> A -> R) :
  (forall key item, store item (blank key None) = Ok (answer key item)) ->
  forall keys results reqs indexes raw before asked,
  encodeKeys keyCodec blank (glen before) keys = Ok (results, reqs, indexes) -> length raw = length reqs ->
  storeAnswers store (asked ++ indexes) (glen asked) raw (before ++ results) = Ok (before ++ matchAnswers answer keys raw).
Proof.
  intros Hs keys. induction keys as [|key keys IH]; intros results reqs indexes raw before asked E L; cbn in E |- *.
  { injection E as <- <- <-. by destruct raw. }
  destruct (keyCodec key) as [pk|e| |] eqn:Ek; try done; apply bind_Ok in E as ([[rs rq] idx] & E & [= <- <- <-]).
  - destruct raw as [|item raw]; [done|]. cbn [storeAnswers].
    rewrite index_app by done. cbn [mbind outcome_bind]. rewrite index_app by done. cbn [mbind outcome_bind].
    rewrite Hs. cbn [mbind outcome_bind]. rewrite set_index_app. cbn [mbind outcome_bind].
    replace (asked ++ glen before :: idx) with ((asked ++ [glen before]) ++ idx) by by rewrite <- app_assoc.
    replace (glen asked + 1) with (glen (asked ++ [glen before])) by (unfold glen; rewrite length_app; cbn; lia).
    replace (before ++ answer key item :: rs) with ((before ++ [answer key item]) ++ rs) by by rewrite <- app_assoc.
    rewrite (IH rs rq idx raw); [by rewrite <- app_assoc| |by injection L].
    rewrite <- E. f_equal. unfold glen. rewrite length_app. cbn. lia.
  - replace (before ++ blank key (Some (Plain e)) :: rs) with ((before ++ [blank key (Some (Plain e))]) ++ rs) by by rewrite <- app_assoc.
    rewrite (IH rs rq idx raw); [by rewrite <- app_assoc| |done].
    rewrite <- E. f_equal. unfold glen. rewrite length_app. cbn. lia.
Qed.
End Store.


(** ** Lookups *)

(** What an answer is to a key: its row decoded, or what went wrong. *)
Definition pointAnswer {T K} (codec : RowCodec T) (key : K) (item : LookupResult) : TypedLookupResult T K :=
  match lr_Err item, lr_Found item with
  | None, true =>
    match cd_Decode codec (default [] (lr_Row item)) with
    | Ok value => MkTypedLookup key true (Some value) None
    | Err e => MkTypedLookup key true None (Some (Plain e))
    | _ => MkTypedLookup key true None None
    end
  | err, found => MkTypedLookup key found None err
  end.

Definition prefixAnswer {T K} (codec : RowCodec T) (prefix : K) (item : PrefixLookupResult) : TypedPrefixLookupResult T K :=
  match decodeBatchRows codec (pr_Rows item) with
  | Ok values => MkTypedPrefix prefix values (pr_Err item)
  | Err e => MkTypedPrefix prefix [] (Some (Plain e))
  | _ => MkTypedPrefix prefix [] None
  end.

Section Lookups.
Context {T K : Type} (codec : RowCodec T) (keyCodec : KeyCodec K).
Context (keyReturns : forall key, returns (keyCodec key) = true) (decodeReturns : forall row, returns (cd_Decode codec row) = true).

Lemma storePoint_answer (key : K) item : storePoint codec item (blankPoint key None) = Ok (pointAnswer codec key item).
Proof.
  unfold storePoint, pointAnswer. destruct (lr_Err item) as [e|]; [by rewrite bool_decide_false|]. rewrite bool_decide_true by done. cbn.
  destruct (lr_Found item); [|done]. pose proof (decodeReturns (default [] (lr_Row item))). by destruct (cd_Decode _ _).
Qed.

Lemma decodeRows_values rows : forall prefix values err, decodeRows codec rows (MkTypedPrefix (K := K) prefix values err) =
  Ok (match decodeBatchRows codec rows with
      | Ok more => MkTypedPrefix prefix (values ++ more) err
      | Err e => MkTypedPrefix prefix [] (Some (Plain e))
      | _ => MkTypedPrefix prefix [] None
      end).
Proof.
  induction rows as [|row rows IH]; intros prefix values err; cbn; [by rewrite app_nil_r|].
  pose proof (decodeReturns row). destruct (cd_Decode codec row) as [v|e| |]; try done. cbn. rewrite IH.
  destruct (decodeBatchRows codec rows); cbn; by rewrite <- ?app_assoc.
Qed.

Lemma storePrefix_answer (prefix : K) item : storePrefix codec item (blankPrefix prefix None) = Ok (prefixAnswer codec prefix item).
Proof. unfold storePrefix. cbn. rewrite decodeRows_values. unfold prefixAnswer. by destruct (decodeBatchRows _ _). Qed.

Lemma matchAnswers_keys {R A} (blank : K -> option callError -> R) (answer : K -> A -> R) (keyOf : R -> K) keys : forall raw,
  (forall key e, keyOf (blank key e) = key) -> (forall key item, keyOf (answer key item) = key) ->
  length raw = length (requested keyCodec keys) -> map keyOf (matchAnswers keyCodec blank answer keys raw) = keys.
Proof.
  intros raw Hb Ha. revert raw. induction keys as [|key keys IH]; intros raw L; cbn in *; [done|].
  specialize (keyReturns key). destruct (keyCodec key); try done; [destruct raw as [|item raw]; [done|]|]; cbn in *; rewrite ?Hb, ?Ha, IH; auto.
Qed.

Lemma typed_call {R A} (blank : K -> option callError -> R) store (answer : K -> A -> R) (lookup : list PrimaryKey -> outcome (list A)) keys raw :
  (forall key item, store item (blank key None) = Ok (answer key item)) ->
  lookup (requested keyCodec keys) = Ok raw -> length raw = length (requested keyCodec keys) ->
  ('(results, reqs, indexes) ← encodeKeys keyCodec blank 0 keys; raw ← lookup reqs; storeAnswers store indexes 0 raw results)
  = Ok (matchAnswers keyCodec blank answer keys raw).
Proof.
  intros Hs Hl L. destruct (encodeKeys_requested keyCodec blank keys keyReturns 0) as (results & indexes & E & Hr). rewrite E.
  cbn [mbind outcome_bind]. rewrite Hl. cbn [mbind outcome_bind].
  by apply (storeAnswers_match keyCodec blank store answer Hs keys results (requested keyCodec keys) indexes raw [] []).
Qed.

(** C32: A typed lookup returns one result per key, in the order of the keys.  A key that its codec
    refuses has the codec's error and is not asked for; the others are asked for in one call and
    each has its own answer: the value of its row, the decoder's error, or what went wrong.
    Prefixes likewise, with the values of all their rows or none. *)
Theorem typed_lookups_answer resolveSchema l ctx closed enqueued awaited keys :
  resolverOK resolveSchema -> lookuperOK l ->
  (exists raw, Lookup resolveSchema l ctx closed enqueued awaited (requested keyCodec keys) = Ok raw /\
    Forall2 (answered (tab_Schema (lo_table l))) (requested keyCodec keys) raw /\
    exists results, TypedLookup (Some (MkTypedLookuper l codec keyCodec)) (fun l => Lookup resolveSchema l ctx closed enqueued awaited) keys = Ok results /\
      results = matchAnswers keyCodec blankPoint (pointAnswer codec) keys raw /\ map tl_Key results = keys) /\
  (exists raw, PrefixLookup resolveSchema l ctx closed enqueued awaited (requested keyCodec keys) = Ok raw /\
    Forall2 (prefixAnswered (tab_Schema (lo_table l))) (requested keyCodec keys) raw /\
    exists results, TypedPrefixLookup (Some (MkTypedLookuper l codec keyCodec)) (fun l => PrefixLookup resolveSchema l ctx closed enqueued awaited) keys = Ok results /\
      results = matchAnswers keyCodec blankPrefix (prefixAnswer codec) keys raw /\ map tp_Prefix results = keys).
Proof.
  intros Hr Hl. split.
  - destruct (Lookup_answers resolveSchema Hr l ctx closed enqueued awaited (requested keyCodec keys) Hl) as (raw & E & F).
    exists raw. split_and!; [done..|]. pose proof (Forall2_length _ _ _ F) as L. eexists. split; [|split; [reflexivity|]].
    + by eapply typed_call; [apply storePoint_answer|cbn|].
    + apply matchAnswers_keys; [done| |done]. intros key item. unfold pointAnswer. by repeat case_match.
  - destruct (PrefixLookup_answers resolveSchema Hr l ctx closed enqueued awaited (requested keyCodec keys) Hl) as (raw & E & F).
    exists raw. split_and!; [done..|]. pose proof (Forall2_length _ _ _ F) as L. eexists. split; [|split; [reflexivity|]].
    + by eapply typed_call; [apply storePrefix_answer|cbn|].
    + apply matchAnswers_keys; [done| |done]. intros key item. unfold prefixAnswer. by repeat case_match.
Qed.
End Lookups.

(** ** Polls *)

Section Polls.
Context {T Rec : Type} (codec : RowCodec T).

(** The value of a record, with the record's place. *)
Definition decodesTo (item : ScanRecord) (record : TypedScanRecord T) : Prop :=
  cd_Decode codec (rec_Value (sr_Record item)) = Ok (tc_Value record) /\ tc_Bucket record = sr_Bucket item /\
  tc_Change record = rec_Change (sr_Record item) /\ tc_Timestamp record = rec_Timestamp (sr_Record item) /\
  tc_Offset record = rec_Offset (sr_Record item).

(** The first row of a list that the decoder refuses. *)
Definition refusedFirst (rows : list Row) (e : goerror) : Prop :=
  exists before row after, rows = before ++ row :: after /\ cd_Decode codec row = Err e /\
    Forall (fun row => exists value, cd_Decode codec row = Ok value) before.

Lemma refusedFirst_cons row rows e :
  refusedFirst (row :: rows) e <-> cd_Decode codec row = Err e \/ (exists value, cd_Decode codec row = Ok value) /\ refusedFirst rows e.
Proof.
  split.
  - intros ([|r before] & bad & after & E & Hb & F); injection E as <- E; [by left|right].
    apply Forall_cons in F as [Hr F]. split; [done|]. by exists before, bad, after.
  - intros [H|[Hr (before & bad & after & -> & Hb & F)]]; [exists [], row, rows; by split_and!|].
    exists (row :: before), bad, after. split_and!; [done..|by constructor].
Qed.

Lemma decodeBatchRows_Ok rows values : decodeBatchRows codec rows = Ok values <-> Forall2 (fun row value => cd_Decode codec row = Ok value) rows values.
Proof.
  revert values. induction rows as [|row rows IH]; intros values; cbn.
  - split; [intros [= <-]; constructor|by inversion 1].
  - rewrite bind_Ok. split.
    + intros (v & Hv & H). apply bind_Ok in H as (rest & Hr & [= <-]). constructor; [done|by apply IH].
    + inversion 1; subst. eexists. split; [done|]. apply bind_Ok. eexists. split; [by apply IH|done].
Qed.

Lemma decodeBatchRows_Err rows e : decodeBatchRows codec rows = Err e <-> refusedFirst rows e.
Proof.
  induction rows as [|row rows IH]; cbn.
  - split; [done|]. by intros ([|] & ? & ? & ? & ?).
  - rewrite refusedFirst_cons, <- IH. destruct (cd_Decode codec row) as [v|e'| |]; cbn; [|naive_solver..].
    destruct (decodeBatchRows codec rows); cbn; naive_solver.
Qed.

Lemma decodeScanRecords_rows records :
  (forall e, decodeScanRecords codec records = Err e <-> refusedFirst (map (fun item => rec_Value (sr_Record item)) records) e) /\
  forall typed, decodeScanRecords codec records = Ok typed <-> Forall2 decodesTo records typed.
Proof.
  induction records as [|item records [IHe IHo]]; cbn.
  - split; [|split; [intros [= <-]; constructor|by inversion 1]]. intros e. split; [done|]. by intros ([|] & ? & ? & ? & ?).
  - split; [intros e; rewrite refusedFirst_cons, <- IHe|intros typed].
    + destruct (cd_Decode codec _) as [v|e'| |]; cbn; [|naive_solver..]. destruct (decodeScanRecords codec records); cbn; naive_solver.
    + rewrite bind_Ok. split.
      * intros (v & Hv & H). apply bind_Ok in H as (rest & Hr & [= <-]). constructor; [by split_and!|by apply IHo].
      * inversion 1 as [|? record ? rest (Hv & Hb & Hc & Ht & Ho) F]; subst. exists (tc_Value record). split; [done|].
        apply bind_Ok. exists rest. split; [by apply IHo|]. f_equal. f_equal. destruct record. cbn in *. congruence.
Qed.

(** A typed poll gives the values of all the rows of the poll, in order, each at its place, and
    the rest of its result unchanged; or the error of the first row that the codec refuses and no
    value at all; or it refuses Arrow batches.  Polls of log and batch scanners alike. *)
Theorem typed_polls_exact (raw : ScanResult (Rec := Rec)) (batch : BatchResult (Rec := Rec)) :
  (forall r, typedScanResult codec raw = Ok r <->
    rs_ArrowBatches raw = [] /\ Forall2 decodesTo (rs_Records raw) (tc_Records r) /\
    tc_BucketErrors r = rs_BucketErrors raw /\ tc_HighWatermark r = rs_HighWatermark raw /\ tc_Done r = rs_Done raw) /\
  (forall e, typedScanResult codec raw = Err e <->
    rs_ArrowBatches raw <> [] /\ e = ErrUnsupportedAPI \/
    rs_ArrowBatches raw = [] /\ refusedFirst (map (fun item => rec_Value (sr_Record item)) (rs_Records raw)) e) /\
  (forall r, typedBatchResult codec batch = Ok r <->
    br_ArrowBatches batch = [] /\ Forall2 (fun row value => cd_Decode codec row = Ok value) (br_Rows batch) (tt_Values r) /\
    tt_Done r = br_Done batch) /\
  (forall e, typedBatchResult codec batch = Err e <->
    br_ArrowBatches batch <> [] /\ e = ErrUnsupportedAPI \/ br_ArrowBatches batch = [] /\ refusedFirst (br_Rows batch) e).
Proof.
  unfold typedScanResult, typedBatchResult. destruct (decodeScanRecords_rows (rs_Records raw)) as [He Ho].
  split_and!.
  - intros r. destruct (rs_ArrowBatches raw); [|naive_solver]. rewrite bind_Ok. split.
    + intros (typed & H%Ho & [= <-]). by split_and!.
    + intros (_ & F & Hb & Hw & Hd). exists (tc_Records r). split; [by apply Ho|]. destruct r. cbn in *. congruence.
  - intros e. destruct (rs_ArrowBatches raw); [|naive_solver]. rewrite <- He. destruct (decodeScanRecords _ _); cbn; naive_solver.
  - intros r. destruct (br_ArrowBatches batch); [|naive_solver]. rewrite bind_Ok. split.
    + intros (values & H%decodeBatchRows_Ok & [= <-]). by split_and!.
    + intros (_ & F & Hd). exists (tt_Values r). split; [by apply decodeBatchRows_Ok|]. destruct r. cbn in *. congruence.
  - intros e. destruct (br_ArrowBatches batch); [|naive_solver]. rewrite <- decodeBatchRows_Err. destruct (decodeBatchRows _ _); cbn; naive_solver.
Qed.
End Polls.

(** ** What was written is read *)

(** The codecs of a table fit each other: decoding gives back an encoded value from what the
    column types retain of its row, and the key of a value is the primary key of its row. *)
Class LawfulCodec {T K} (s : Schema) (codec : RowCodec T) (keyCodec : KeyCodec K) (keyOf : T -> K) := {
  lawful_decode value row : cd_Encode codec value = Ok row -> cd_Decode codec (retainRow compactedEncoding (sch_Columns s) row) = Ok value;
  lawful_key value row values : cd_Encode codec value = Ok row -> rowValues s row [] = Ok values ->
    keyCodec (keyOf value) = Ok (namedKey values (sch_PrimaryKey s));
}.

(** C31: A typed lookup reads what a typed upsert wrote.  When the server answers the lookup of the
    key of a value with the bytes that the value's upsert stored, behind the identifier of the
    table's schema, the result is the value. *)
Theorem typed_lookup_reads_written {T K} backend table options w metadata lookupOptions l (codec : RowCodec T) (keyCodec : KeyCodec K) keyOf
    ctxErr value row future item id resolveSchema enqueued awaited :
  LawfulCodec (tab_Schema table) codec keyCodec keyOf ->
  newUpsertWriter backend table options = Ok w -> newLookuper metadata table lookupOptions = Ok l -> lo_buckets l = uw_buckets w ->
  cd_Encode codec value = Ok row -> TypedUpsert (Some (MkTypedUpsert w codec keyCodec)) (Some ctxErr) value future = Ok item ->
  forallb wfValue row = true -> rowHeaderBytes (tab_Schema table) compactedEncoding <= maxRowBytes ->
  srange 16 id = true -> resolveSchema (tab_Path table) id = Ok (tab_Schema table) ->
  (hasUnassignedFieldIDs (tab_Schema table) = false -> NoDup (col_ID <$> sch_Columns (tab_Schema table))) ->
  enqueued 0%nat = None ->
  awaited 0%nat = inl (MkRawResult (Some (le_split 2 (uint16 id) ++ default [] (kv_Value (pk_record item)))) [] None) ->
  TypedLookup (Some (MkTypedLookuper l codec keyCodec)) (fun l => Lookup resolveSchema l (Some None) false enqueued awaited) [keyOf value]
  = Ok [MkTypedLookup (keyOf value) true (Some value) None].
Proof.
  intros laws Ho Hl Hb He Hu Hw Hh Hid Hr Hids Hq Ha. unfold TypedUpsert in Hu. cbn in Hu. rewrite He in Hu. cbn in Hu.
  assert (exists values, rowValues (tab_Schema table) row [] = Ok values) as [values Hv].
  { apply opened_keys in Ho as [<- _]. unfold Upsert in Hu. inv_ok. by eexists. }
  destruct (lookup_reads_written backend table options w metadata lookupOptions l ctxErr row values future item id resolveSchema)
    as [Hp (stored & Hs & Hres)]; [done..|].
  rewrite Hs in Ha. cbn in Ha. apply newLookuper_opened in Hl as (Ht & _).
  set (key := namedKey values _) in *.
  assert (Lookup resolveSchema l (Some None) false enqueued awaited [key] =
    Ok [MkLookupResult key (Some (retainRow compactedEncoding (sch_Columns (tab_Schema table)) row)) true (pk_bucket item) None]) as E.
  { unfold Lookup. cbn [lookupContextError lookupKeys]. unfold lookupKey. by rewrite Hp, Hq, Ha, Ht, Hres. }
  unfold TypedLookup. cbn [encodeKeys ty_keyCodec ty_codec ty_lookup]. rewrite (lawful_key value row values He Hv). cbn [mbind outcome_bind].
  fold key. rewrite E. cbn. unfold storePoint. cbn. by rewrite (lawful_decode value row He).
Qed.

(** ** Behaviour worth knowing *)

(** A decoder that refuses what this reader cannot represent. *)
Definition refusingCodec : RowCodec unit := MkRowCodec (fun _ => Ok []) (fun _ => Err ErrInvalidRow).

(** The values of a typed poll that failed are not read again: the scanner underneath has moved
    its offset over them and counted them, and says that the scan is over. *)
Theorem typed_poll_consumes :
  exists s m, scanReachable byteLibrary byteOps (fun _ => 0) anyFilter scanBackend scanTable (AtOffset 11) limitedOptions s m /\
    sm_errors m = [] /\ ss_delivered (sm_state m) = 2 /\ ss_offset (sm_state m) !! 3 = Some 16 /\
    match map (typedScanResult refusingCodec) (sm_returned m) with
    | [Err e; Ok r] => e = ErrInvalidRow /\ tc_Records r = [] /\ tc_Done r = true
    | _ => False
    end.
Proof.
  destruct (scannedAs limitedOptions limitedEvents) as [[s m]|] eqn:E; [|vm_compute in E; discriminate].
  exists s, m. split; [by eapply scannedAs_reached|].
  assert (Ho : (fun x => (sm_errors x.2, ss_delivered (sm_state x.2), ss_offset (sm_state x.2) !! 3,
      map (fun o => match o with Ok r => Some (length (tc_Records r), tc_Done r) | Err ErrInvalidRow => None | _ => Some (7%nat, false) end)
        (map (typedScanResult refusingCodec) (sm_returned x.2)))) <$> scannedAs limitedOptions limitedEvents =
    Some ([], 2, Some 16, [None; Some (0%nat, true)])) by (vm_compute; reflexivity).
  rewrite E in Ho. clear E. injection Ho as E1 E2 E3 E4. split_and!; [done..|].
  destruct (map _ (sm_returned m)) as [|[r1|e1| |] [|[r2|e2| |] [|]]]; cbn in E4; try done; [|by destruct e1, e2].
  destruct e1; try done. injection E4 as Hr Hd. split_and!; [done| |done]. by apply nil_length_inv.
Qed.

(** ** Witnesses *)

Definition userCodec : RowCodec (Z * option string) :=
  MkRowCodec
    (fun user => Ok [VInt32 user.1; match user.2 with Some name => VString name | None => VNil end])
    (fun row => match row with
                | [VInt32 id; VString name] => Ok (id, Some name)
                | [VInt32 id; VNil] => Ok (id, None)
                | _ => Err ErrInvalidRow
                end).
Definition userKey : KeyCodec Z := fun id => Ok [VInt32 id].

Lemma userCodec_lawful : LawfulCodec (tab_Schema sampleTable) userCodec userKey fst.
Proof.
  constructor.
  - intros [id [name|]] row [= <-]; reflexivity.
  - intros [id name] row values [= <-]. cbn. by intros [= <-].
Qed.

(** A key codec that refuses a key. *)
Definition pickyKey : KeyCodec Z := fun id => if id <? 0 then Err ErrInvalidConfig else Ok [VInt32 id].

(** A server that finds the second key that is asked for, and not the first. *)
Definition secondFound (n : nat) : rawLookupResult + callError :=
  match n with
  | 1%nat => inl (MkRawResult (kv_Value (pk_record (sampleItem 1 1)) ≫= fun value => Some (le_split 2 (uint16 3) ++ value)) [] None)
  | _ => inl (MkRawResult None [] None)
  end.

Lemma typed_lookups_answer_witness :
  let resolve := fun (_ : TablePath) (_ : Z) => Ok (tab_Schema sampleTable) in
  let results := [MkTypedLookup 5 false None (Some (Plain ErrNotFound)); MkTypedLookup (-1) false None (Some (Plain ErrInvalidConfig));
                  MkTypedLookup 1 true (Some (1, Some "x"%string)) None] in
  TypedLookup (Some (MkTypedLookuper sampleLookuper userCodec pickyKey)) (fun l => Lookup resolve l (Some None) false (fun _ => None) secondFound) [5; -1; 1]
  = Ok results /\
  exists raw, Lookup resolve sampleLookuper (Some None) false (fun _ => None) secondFound [[VInt32 5]; [VInt32 1]] = Ok raw /\
    Forall2 (answered (tab_Schema sampleTable)) [[VInt32 5]; [VInt32 1]] raw /\
    results = matchAnswers pickyKey blankPoint (pointAnswer userCodec) [5; -1; 1] raw.
Proof.
  cbv zeta. split; [vm_compute; reflexivity|].
  destruct (typed_lookups_answer userCodec pickyKey
    ltac:(intros key; unfold pickyKey; destruct (key <? 0); reflexivity)
    ltac:(intros row; repeat (destruct row as [|[] row]; try reflexivity))
    (fun _ _ => Ok (tab_Schema sampleTable)) sampleLookuper (Some None) false (fun _ => None) secondFound [5; -1; 1])
    as [(raw & E & F & results & Er & Em & _) _].
  - intros path id. split; [done|]. by intros s [= <-].
  - split; [done|reflexivity|done].
  - exists raw. split; [exact E|]. split; [exact F|]. rewrite <- Em.
    enough (Ok results = Ok [MkTypedLookup 5 false None (Some (Plain ErrNotFound)); MkTypedLookup (-1) false None (Some (Plain ErrInvalidConfig));
                  MkTypedLookup 1 true (Some (1, Some "x"%string)) None]) as H by (injection H as H; symmetry; exact H).
    rewrite <- Er. vm_compute. reflexivity.
Defined.

Lemma typed_lookup_reads_written_witness :
  let item := sampleItem 1 1 in
  let awaited := fun _ : nat => inl (B := callError) (MkRawResult (Some (le_split 2 (uint16 3) ++ default [] (kv_Value (pk_record item)))) [] None) in
  TypedLookup (Some (MkTypedLookuper sampleLookuper userCodec userKey))
    (fun l => Lookup (fun _ _ => Ok (tab_Schema sampleTable)) l (Some None) false (fun _ => None) awaited) [1]
  = Ok [MkTypedLookup 1 true (Some (1, Some "x"%string)) None].
Proof.
  eapply (typed_lookup_reads_written sampleBackend sampleTable sampleOptions sampleWriter sampleMetadata [] sampleLookuper userCodec userKey fst
            None (1, Some "x"%string) [VInt32 1; VString "x"] 1 (sampleItem 1 1) 3).
  - exact userCodec_lawful.
  - exact sampleWriter_opened.
  - vm_compute. reflexivity.
  - vm_compute. reflexivity.
  - reflexivity.
  - vm_compute. reflexivity.
  - vm_compute. reflexivity.
  - vm_compute. discriminate.
  - reflexivity.
  - reflexivity.
  - vm_compute. discriminate.
  - reflexivity.
  - reflexivity.
Defined.
