(* ===== verification/Adapters.v ===== *)
(** * Readers of object stores and of HDFS

    Models [internal/storageadapter/object.go], [adapters/s3/reader.go], [adapters/oss/reader.go]
    and [adapters/hdfs/reader.go]: which objects and ranges they ask for, which answers they
    accept, and how an HDFS stream is closed by its reader and by the end of its context.

    The vendor clients, the HDFS opener, and the parts of a URL that [url.Parse] finds are the
    environment.  The S3 and OSS readers differ in the scheme; OSS's content length is not a
    pointer, and is [None] here when it is zero, which no range has. *)

From Stdlib Require Import Ascii.
From stdpp Require Import pretty.
From S2P Require Import Prelude Model Errors SecurityToken RemoteFiles LocalReader.

(** ** Strings *)

(** [strings.Cut] at a character. *)
Fixpoint cut (sep : ascii) (s : string) : option (string * string) :=
  match s with
  | EmptyString => None
  | String c s => if bool_decide (c = sep) then Some (EmptyString, s) else '(before, after) ← cut sep s; Some (String c before, after)
  end.

Definition digitOf (c : ascii) : option Z :=
  let n := Z.of_N (N_of_ascii c) in if (48 <=? n) && (n <=? 57) then Some (n - 48) else None.

Fixpoint parseDigits (s : string) (value : Z) : option Z :=
  match s with
  | EmptyString => Some value
  | String c s => d ← digitOf c; parseDigits s (10 * value + d)
  end.

(** [strconv.ParseInt] with base 10 and 64 bits. *)
Definition ParseInt (s : string) : option Z :=
  let '(sign, digits) := match s with
    | String "+" rest => (1, rest)
    | String "-" rest => (-1, rest)
    | _ => (1, s)
    end in
  match digits with
  | EmptyString => None
  | _ => n ← parseDigits digits 0; if srange 64 (sign * n) then Some (sign * n) else None
  end.

Definition hexOf (c : ascii) : option Z :=
  let n := Z.of_N (N_of_ascii c) in
  if (48 <=? n) && (n <=? 57) then Some (n - 48)
  else if (97 <=? n) && (n <=? 102) then Some (n - 87)
  else if (65 <=? n) && (n <=? 70) then Some (n - 55)
  else None.

(** [url.PathUnescape]. *)
Fixpoint PathUnescape (s : string) : option string :=
  match s with
  | EmptyString => Some EmptyString
  | String c s =>
    if bool_decide (c = "%"%char) then
      match s with
      | String a (String b s) =>
        x ← hexOf a; y ← hexOf b; rest ← PathUnescape s; Some (String (ascii_of_N (Z.to_N (16 * x + y))) rest)
      | _ => None
      end
    else rest ← PathUnescape s; Some (String c rest)
  end.

(** [strings.TrimPrefix] of a slash. *)
Definition trimSlash (s : string) : string := match s with String "/" rest => rest | _ => s end.

(** ** [storageadapter] *)

Record adapterURL := MkAdapterURL {
  au_Scheme : string;
  au_Host : string;
  au_User : bool;
  au_RawQuery : string;
  au_Fragment : string;
  au_EscapedPath : string;
}.

(** What both kinds of URI refuse. *)
Definition refusedURL (scheme : string) (parsed : adapterURL) : bool :=
  negb (bool_decide (au_Scheme parsed = scheme)) || bool_decide (au_Host parsed = ""%string) || au_User parsed
  || negb (bool_decide (au_RawQuery parsed = ""%string)) || negb (bool_decide (au_Fragment parsed = ""%string)).

Definition ParseObjectURI (parse : string -> option adapterURL) (raw scheme : string) : option (string * string) :=
  parsed ← parse raw;
  if refusedURL scheme parsed then None
  else
    key ← PathUnescape (trimSlash (au_EscapedPath parsed));
    if bool_decide (key = ""%string) then None else Some (au_Host parsed, key).

Definition ValidateRange (offset length expectedSize maxBytes : Z) : option (Z * Z) :=
  if (offset <? 0) || (expectedSize <=? 0) || (expectedSize <=? offset) then None
  else
    let length := if length =? 0 then int64 (expectedSize - offset) else length in
    let maxBytes := if maxBytes =? 0 then expectedSize else maxBytes in
    if (length <=? 0) || (maxBytes <=? 0) || (maxBytes <? length) || (int64 (expectedSize - offset) <? length) then None
    else Some (offset, length).

Definition ParseContentRange (value : string) : option (Z * Z * Z) :=
  '(unit, rangeAndSize) ← cut " "%char value;
  if negb (bool_decide (unit = "bytes"%string)) then None
  else
    '(byteRange, size) ← cut "/"%char rangeAndSize;
    '(start, end_) ← cut "-"%char byteRange;
    startValue ← ParseInt start; endValue ← ParseInt end_; sizeValue ← ParseInt size;
    if (startValue <? 0) || (endValue <? startValue) || (sizeValue <=? endValue) then None else Some (startValue, endValue, sizeValue).

(** ** Object stores *)

Record objectOutput := MkObjectOutput {
  oo_Body : option remoteStream;
  oo_ContentLength : option Z;
  oo_ContentRange : option string;
}.

(** [errors.Join]; [errors.Is] and [errors.As] find what the parts hold, the first part's first. *)
Definition joinErrors (e : remoteError) (other : option remoteError) : remoteError :=
  match other with
  | None => e
  | Some o => MkRemoteError (re_chain e ++ re_chain o) (match re_temporary e with None => re_temporary o | t => t end)
                (match re_timeout e with None => re_timeout o | t => t end)
  end.

Definition validateResponse (output : objectOutput) (offset length expectedSize : Z) : option remoteError :=
  if negb (bool_decide (oo_ContentLength output = Some length)) then Some (errorOf SentValidation)
  else match oo_ContentRange output with
       | None => Some (errorOf SentValidation)
       | Some contentRange =>
         match ParseContentRange contentRange with
         | Some (start, end_, total) =>
           if negb (start =? offset) || negb (end_ =? int64 (int64 (offset + length) - 1)) || negb (total =? expectedSize)
           then Some (errorOf SentValidation) else None
         | None => Some (errorOf SentValidation)
         end
       end.

(** [fmt.Sprintf("bytes=%d-%d")]. *)
Definition rangeHeader (offset end_ : Z) : string := ("bytes=" +:+ pretty offset +:+ "-" +:+ pretty end_)%string.

(** [ReadRemoteFile] of the three readers, over [OpenRemoteFile]. *)
Definition readComplete (open : Z -> RemoteFileRequest -> remoteError + remoteStream) (attempt : Z) (request : RemoteFileRequest)
    : remoteError + list byte :=
  if (rq_ExpectedSize request <=? 0) || (2 ^ 63 - 1 <? rq_ExpectedSize request) then inl (errorOf SentInvalidConfig)
  else match open attempt (setRange 0 (rq_ExpectedSize request) request) with
       | inl e => inl e
       | inr body =>
         let limit := if rq_ExpectedSize request <? 2 ^ 63 - 1 then rq_ExpectedSize request + 1 else rq_ExpectedSize request in
         match readAllLimited body limit with
         | inl e => inl e
         | inr data =>
           match rm_close body with
           | Some e => inl e
           | None => if negb (glen data =? rq_ExpectedSize request) then inl sizeMismatch else inr data
           end
         end
       end.

Section Object.
Context (scheme : string) (parse : string -> option adapterURL) (nilContext : bool).
Context (client : option (Z -> string -> string -> string -> remoteError + option objectOutput)).

Definition objectParseURI (raw : string) : remoteError + (string * string) :=
  match ParseObjectURI parse raw scheme with Some uri => inr uri | None => inl (errorOf SentInvalidConfig) end.

Definition adapterRange (request : RemoteFileRequest) : remoteError + (Z * Z) :=
  match ValidateRange (rq_Offset request) (rq_Length request) (rq_ExpectedSize request) (rq_MaxBytes request) with
  | Some range => inr range
  | None => inl (errorOf SentInvalidConfig)
  end.

(** [OpenRemoteFile], with what it asks the store: bucket, key and range. *)
Definition objectRequest (request : RemoteFileRequest) : remoteError + (string * string * Z * Z) :=
  match client with
  | None => inl (errorOf SentInvalidConfig)
  | Some _ =>
    if nilContext then inl (errorOf SentInvalidConfig)
    else match objectParseURI (rq_Path request) with
         | inl e => inl e
         | inr (bucket, key) =>
           match adapterRange request with inl e => inl e | inr (offset, length) => inr (bucket, key, offset, length) end
         end
  end.

Definition objectAnswered (answer : remoteError + option objectOutput) (offset length expectedSize : Z) : remoteError + remoteStream :=
  match answer with
  | inl e => inl e
  | inr None => inl (errorOf SentValidation)
  | inr (Some output) =>
    match oo_Body output with
    | None => inl (errorOf SentValidation)
    | Some body =>
      match validateResponse output offset length expectedSize with
      | Some e => inl (joinErrors e (rm_close body))
      | None => inr body
      end
    end
  end.

Definition objectOpen (attempt : Z) (request : RemoteFileRequest) : remoteError + remoteStream :=
  match client, objectRequest request with
  | Some getObject, inr (bucket, key, offset, length) =>
    let end_ := int64 (int64 (offset + length) - 1) in
    objectAnswered (getObject attempt bucket key (rangeHeader offset end_)) offset length (rq_ExpectedSize request)
  | _, inl e => inl e
  | None, _ => inl (errorOf SentInvalidConfig)
  end.

Definition objectRead : Z -> RemoteFileRequest -> remoteError + list byte := readComplete objectOpen.
End Object.

(** The readers of the two stores. *)
Definition s3OpenRemoteFile := objectOpen "s3".
Definition s3ReadRemoteFile := objectRead "s3".
Definition ossOpenRemoteFile := objectOpen "oss".
Definition ossReadRemoteFile := objectRead "oss".

(** ** HDFS *)

(** A file: whether [Stat] finds a directory, and its size; its bytes; what closing it returns;
    and, where the context ends during the read, after how many bytes and with what error. *)
Record hdfsFile := MkHdfsFile {
  hf_info : option (bool * Z);
  hf_content : list byte;
  hf_close : option remoteError;
  hf_interrupted : option (nat * remoteError);
}.

Inductive hdfsEvent := ClearToken | CloseFile.

Section HDFS.
Context (parse : string -> option adapterURL) (nilContext : bool).
Context (opener : option (Z -> string -> string -> option FileSystemSecurityToken -> remoteError + option hdfsFile)).
(** The context's error after the opener returned. *)
Context (ctxErr : Z -> option remoteError).

Definition hdfsParseURI (raw : string) : remoteError + (string * string) :=
  match parse raw with
  | None => inl (errorOf SentInvalidConfig)
  | Some parsed =>
    if refusedURL "hdfs" parsed then inl (errorOf SentInvalidConfig)
    else match PathUnescape (au_EscapedPath parsed) with
         | Some path => if negb (isAbs path) || bool_decide (path = "/"%string) then inl (errorOf SentInvalidConfig)
                        else inr (au_Host parsed, path)
         | None => inl (errorOf SentInvalidConfig)
         end
  end.

(** [clearToken] of a token that may be nil. *)
Definition clearToken (token : option FileSystemSecurityToken) : list hdfsEvent := match token with Some _ => [ClearToken] | None => [] end.

(** [rangeReadCloser.Read] until the end. *)
Definition hdfsStream (file : hdfsFile) (offset length : Z) : remoteStream :=
  let bytes := take (Z.to_nat length) (drop (Z.to_nat offset) (hf_content file)) in
  match hf_interrupted file with
  | None => MkRemoteStream bytes None (hf_close file)
  | Some (n, e) => MkRemoteStream (take n bytes) (Some e) (hf_close file)
  end.

(** [OpenRemoteFile]: its answer, and what it did with the token and the file. *)
Definition hdfsOpen (attempt : Z) (request : RemoteFileRequest) : (remoteError + remoteStream) * list hdfsEvent :=
  match opener with
  | None => (inl (errorOf SentInvalidConfig), [])
  | Some open =>
    if nilContext then (inl (errorOf SentInvalidConfig), [])
    else match hdfsParseURI (rq_Path request) with
    | inl e => (inl e, [])
    | inr (authority, path) =>
      match adapterRange request with
      | inl e => (inl e, [])
      | inr (offset, length) =>
        let token := rq_Token request in
        match open attempt authority path token with
        | inl e => (inl e, clearToken token)
        | inr None => (inl (errorOf SentValidation), clearToken token)
        | inr (Some file) =>
          match ctxErr attempt with
          | Some e => (inl (joinErrors e (hf_close file)), clearToken token ++ [CloseFile])
          | None =>
            match hf_info file with
            | Some (false, size) =>
              if negb (size =? rq_ExpectedSize request)
              then (inl (joinErrors (errorOf SentValidation) (hf_close file)), clearToken token ++ [CloseFile])
              else (inr (hdfsStream file offset length), [])
            | _ => (inl (joinErrors (errorOf SentValidation) (hf_close file)), clearToken token ++ [CloseFile])
            end
          end
        end
      end
    end
  end.

Definition hdfsRead : Z -> RemoteFileRequest -> remoteError + list byte := readComplete (fun attempt request => (hdfsOpen attempt request).1).
End HDFS.

(** ** Closing an HDFS stream *)

(** [context.AfterFunc]: not started, stopped, started, or over. *)
Inductive afterFunc := AfterPending | AfterStopped | AfterStarted | AfterOver.

(** A call to [Close]: about to run [close], waiting for [done], or over. *)
Inductive closeCall := CallClosing | CallWaiting | CallReturned.

(** [rc_done]: [once] has run its function. *)
Record closer := MkCloser {
  rc_after : afterFunc;
  rc_done : bool;
  rc_events : list hdfsEvent;
  rc_calls : list closeCall;
}.

Definition newRangeReadCloser : closer := MkCloser AfterPending false [] [].

(** [close]. *)
Definition closeOnce (token : option FileSystemSecurityToken) (c : closer) : closer :=
  if rc_done c then c else MkCloser (rc_after c) true (rc_events c ++ CloseFile :: clearToken token) (rc_calls c).

Definition setAfter (a : afterFunc) (c : closer) : closer := MkCloser a (rc_done c) (rc_events c) (rc_calls c).
Definition setCall (i : nat) (p : closeCall) (c : closer) : closer := MkCloser (rc_after c) (rc_done c) (rc_events c) (<[i := p]> (rc_calls c)).

(** [Close] up to [r.stop()]. *)
Definition callClose (c : closer) : closer :=
  match rc_after c with
  | AfterPending => MkCloser AfterStopped (rc_done c) (rc_events c) (rc_calls c ++ [CallClosing])
  | _ => MkCloser (rc_after c) (rc_done c) (rc_events c) (rc_calls c ++ [CallWaiting])
  end.

Inductive closeStep (token : option FileSystemSecurityToken) : closer -> closer -> Prop :=
| close_ctx_ends c : rc_after c = AfterPending -> closeStep token c (setAfter AfterStarted c)
| close_after c : rc_after c = AfterStarted -> closeStep token c (closeOnce token (setAfter AfterOver c))
| close_call c : closeStep token c (callClose c)
| close_closes c i : rc_calls c !! i = Some CallClosing -> closeStep token c (setCall i CallWaiting (closeOnce token c))
| close_returns c i : rc_calls c !! i = Some CallWaiting -> rc_done c = true -> closeStep token c (setCall i CallReturned c).

Inductive closeReachable (token : option FileSystemSecurityToken) : closer -> Prop :=
| closer_new : closeReachable token newRangeReadCloser
| closer_step c c' : closeReachable token c -> closeStep token c c' -> closeReachable token c'.
