(* ===== verification/AdapterProperties.v ===== *)
(** * Properties of the object-store and HDFS readers

    Content ranges are read as they are written; a range that is asked for lies in the object and
    within the limit; what a reader gives is what the store said it gives, of the object that was
    advertised; an HDFS file is closed and its token cleared exactly once. *)

From Stdlib Require Import Ascii.
From stdpp Require Import pretty.
From S2P Require Import Prelude Model Errors SecurityToken RemoteFiles LocalReader Adapters.

(** ** Numbers *)

(** Every character is a digit. *)
Fixpoint allDigits (s : string) : bool :=
  match s with EmptyString => true | String c s => bool_decide (is_Some (digitOf c)) && allDigits s end.

Lemma digit_char x : (x < 10)%N -> digitOf (pretty_N_char x) = Some (Z.of_N x).
Proof. intros H. assert (x = 0 \/ x = 1 \/ x = 2 \/ x = 3 \/ x = 4 \/ x = 5 \/ x = 6 \/ x = 7 \/ x = 8 \/ x = 9)%N as Hx by lia. by destruct_or! Hx; subst. Qed.

Lemma pretty_N_digits x : forall s, parseDigits (pretty_N_go x s) 0 = parseDigits s (Z.of_N x) /\ (allDigits s = true -> allDigits (pretty_N_go x s) = true).
Proof.
  induction x as [x IH] using (well_founded_induction N.lt_wf_0). intros s.
  destruct (decide (x = 0)%N) as [->|Hx]; [by rewrite pretty_N_go_0|].
  assert (digitOf (pretty_N_char (x `mod` 10)) = Some (Z.of_N (x `mod` 10)%N)) as Hd by (apply digit_char, N.mod_lt; lia).
  rewrite pretty_N_go_step by lia. destruct (IH (x / 10)%N ltac:(apply N.div_lt; lia) (String (pretty_N_char (x `mod` 10)) s)) as [-> Ha].
  split.
  - cbn [parseDigits]. rewrite Hd. cbn. f_equal. rewrite N2Z.inj_div, N2Z.inj_mod. pose proof (Z.div_mod (Z.of_N x) 10). lia.
  - intros Hs. apply Ha. cbn [allDigits]. by rewrite Hd, bool_decide_true by done.
Qed.

Lemma pretty_digits z : 0 <= z -> parseDigits (pretty z) 0 = Some z /\ allDigits (pretty z) = true /\ pretty z <> EmptyString.
Proof.
  intros Hz. assert (exists x : N, z = Z.of_N x) as [x ->] by (exists (Z.to_N z); lia).
  assert (pretty (Z.of_N x) = pretty x) as -> by (unfold pretty at 1; unfold pretty_Z; by destruct x).
  unfold pretty, pretty_N. case_decide as Hx; [by subst|]. destruct (pretty_N_digits x EmptyString) as [-> Ha].
  split; [done|]. split; [by apply Ha|]. rewrite pretty_N_go_step by lia. intros E.
  destruct (pretty_N_digits (x / 10)%N (String (pretty_N_char (x `mod` 10)) "")) as [E' _]. rewrite E in E'. cbn in E'.
  rewrite digit_char in E' by (apply N.mod_lt; lia). cbn in E'. injection E' as E'. rewrite N2Z.inj_div, N2Z.inj_mod in E'.
  pose proof (Z.div_mod (Z.of_N x) 10). lia.
Qed.

Lemma ParseInt_pretty z : 0 <= z < 2 ^ 63 -> ParseInt (pretty z) = Some z.
Proof.
  intros Hz. destruct (pretty_digits z ltac:(lia)) as (Hp & Ha & Hn). unfold ParseInt.
  destruct (pretty z) as [|c s] eqn:E; [done|]. cbn [allDigits] in Ha. apply andb_true_iff in Ha as [Hc%bool_decide_eq_true _].
  assert (srange 64 (1 * z) = true) as Hr by (unfold srange; lia).
  destruct c as [[] [] [] [] [] [] [] []]; try (by destruct Hc); rewrite Hp; cbn [mbind option_bind]; rewrite Hr; f_equal; lia.
Qed.

Lemma cut_digits sep s rest : digitOf sep = None -> allDigits s = true -> cut sep (s +:+ String sep rest) = Some (s, rest).
Proof.
  intros Hs. induction s as [|c s IH]; cbn [allDigits]; intros Ha.
  - change (EmptyString +:+ String sep rest)%string with (String sep rest). cbn. by rewrite bool_decide_true.
  - apply andb_true_iff in Ha as [Hc%bool_decide_eq_true Ha].
    change (String c s +:+ String sep rest)%string with (String c (s +:+ String sep rest)). cbn [cut].
    rewrite bool_decide_false by (intros ->; rewrite Hs in Hc; by destruct Hc). by rewrite IH.
Qed.

(** ** Ranges *)

(** The value of a [Content-Range] header. *)
Definition contentRange (start end_ total : Z) : string := ("bytes " +:+ pretty start +:+ "-" +:+ pretty end_ +:+ "/" +:+ pretty total)%string.

(** A separator that is not among the digits of the first part is in the second. *)
Lemma cut_digits_skip sep s t : digitOf sep = None -> allDigits s = true -> cut sep (s +:+ t) = '(a, b) ← cut sep t; Some (s +:+ a, b)%string.
Proof.
  intros Hs. induction s as [|c s IH]; cbn [allDigits]; intros Ha.
  - change (EmptyString +:+ t)%string with t. by destruct (cut sep t) as [[a b]|].
  - apply andb_true_iff in Ha as [Hc%bool_decide_eq_true Ha]. change (String c s +:+ t)%string with (String c (s +:+ t)). cbn [cut].
    rewrite bool_decide_false by (intros ->; rewrite Hs in Hc; by destruct Hc). rewrite IH by done. by destruct (cut sep t) as [[a b]|].
Qed.

Lemma ParseInt_range s z : ParseInt s = Some z -> - 2 ^ 63 <= z < 2 ^ 63.
Proof.
  unfold ParseInt. set (p := match s with EmptyString => _ | String _ _ => _ end). destruct p as [sign digits]. destruct digits as [|c digits]; [done|].
  intros (n & _ & H)%bind_Some. destruct (srange 64 (sign * n)) eqn:Hr; [|done]. injection H as <-. unfold srange in Hr. lia.
Qed.

Lemma ParseContentRange_written start end_ total : 0 <= start <= end_ -> end_ < total < 2 ^ 63 ->
  ParseContentRange (contentRange start end_ total) = Some (start, end_, total).
Proof.
  intros Hs He. unfold ParseContentRange, contentRange.
  destruct (pretty_digits start ltac:(lia)) as (_ & As & _), (pretty_digits end_ ltac:(lia)) as (_ & Ae & _).
  replace (cut " " ("bytes " +:+ pretty start +:+ "-" +:+ pretty end_ +:+ "/" +:+ pretty total))%string
    with (Some ("bytes", pretty start +:+ "-" +:+ pretty end_ +:+ "/" +:+ pretty total))%string by reflexivity.
  cbn [mbind option_bind]. rewrite bool_decide_true by done. cbn [negb].
  rewrite cut_digits_skip by done. change ("-" +:+ pretty end_ +:+ "/" +:+ pretty total)%string with (String "-" (pretty end_ +:+ String "/" (pretty total))).
  assert (cut "/" (String "-" (pretty end_ +:+ String "/" (pretty total))) = Some (String "-" (pretty end_), pretty total)) as ->
    by (change (('(before, after) ← cut "/" (pretty end_ +:+ String "/" (pretty total)); Some (String "-" before, after))
                = Some (String "-" (pretty end_), pretty total)); by rewrite cut_digits).
  cbn [mbind option_bind]. rewrite cut_digits by done. cbn [mbind option_bind]. rewrite !ParseInt_pretty by lia. cbn [mbind option_bind].
  by replace ((start <? 0) || (end_ <? start) || (total <=? end_)) with false by lia.
Qed.

Lemma ParseContentRange_bounds value start end_ total : ParseContentRange value = Some (start, end_, total) ->
  0 <= start <= end_ /\ end_ < total < 2 ^ 63.
Proof.
  intros H. unfold ParseContentRange in H.
  apply bind_Some in H as ([unit rest] & _ & H). destruct (negb _); [done|].
  apply bind_Some in H as ([range size] & _ & H). apply bind_Some in H as ([s e] & _ & H).
  apply bind_Some in H as (vs & _ & H). apply bind_Some in H as (ve & _ & H). apply bind_Some in H as (vt & Ht%ParseInt_range & H).
  destruct (_ || _) eqn:Hb; [done|]. injection H as <- <- <-. lia.
Qed.

(** The fields of a request are 64-bit integers. *)
Definition request64 (r : RemoteFileRequest) : Prop :=
  srange 64 (rq_ExpectedSize r) = true /\ srange 64 (rq_MaxBytes r) = true /\ srange 64 (rq_Offset r) = true /\ srange 64 (rq_Length r) = true.

Lemma ValidateRange_Some offset length expectedSize maxBytes o n : expectedSize < 2 ^ 63 ->
  ValidateRange offset length expectedSize maxBytes = Some (o, n) ->
  o = offset /\ n = (if length =? 0 then expectedSize - offset else length) /\
  0 <= offset /\ 1 <= n /\ offset + n <= expectedSize /\ (maxBytes <> 0 -> n <= maxBytes).
Proof.
  intros He. unfold ValidateRange. destruct (_ || _ || _) eqn:Hb; [done|].
  rewrite !(swrap_small 64) by (unfold srange; lia). cbv zeta.
  destruct (length =? 0) eqn:Hl; destruct (maxBytes =? 0) eqn:Hm; (case_match; [done|]; intros [= <- <-]; lia).
Qed.

Lemma adapterRange_inr r o n : request64 r -> adapterRange r = inr (o, n) ->
  o = rq_Offset r /\ n = (if rq_Length r =? 0 then rq_ExpectedSize r - rq_Offset r else rq_Length r) /\
  0 <= rq_Offset r /\ 1 <= n /\ rq_Offset r + n <= rq_ExpectedSize r < 2 ^ 63 /\ (rq_MaxBytes r <> 0 -> n <= rq_MaxBytes r).
Proof.
  intros (He & _) H. unfold adapterRange in H. destruct (ValidateRange _ _ _ _) as [[o' n']|] eqn:E; [|done]. injection H as <- <-.
  assert (rq_ExpectedSize r < 2 ^ 63) by (unfold srange in He; lia).
  apply ValidateRange_Some in E; [|done]. naive_solver.
Qed.

Lemma lastByte offset length expectedSize : 0 <= offset -> 1 <= length -> offset + length <= expectedSize < 2 ^ 63 ->
  int64 (int64 (offset + length) - 1) = offset + length - 1.
Proof.
  intros Ho Hl He. assert (int64 (offset + length) = offset + length) as -> by (apply swrap_small; [done|unfold srange; lia]).
  apply swrap_small; [done|unfold srange; lia].
Qed.

(** ** Object stores *)

Section Object.
Context (scheme : string) (parse : string -> option adapterURL) (nilContext : bool).
Context (client : option (Z -> string -> string -> string -> remoteError + option objectOutput)) (objects : string -> string -> list byte).

(** A store says which range of the object a body is of. *)
Definition honestStore : Prop :=
  match client with
  | None => True
  | Some getObject => forall attempt bucket key header output body value start end_ total,
      getObject attempt bucket key header = inr (Some output) -> oo_Body output = Some body ->
      oo_ContentRange output = Some value -> ParseContentRange value = Some (start, end_, total) ->
      rm_bytes body `prefix_of` drop (Z.to_nat start) (objects bucket key)
  end.

(** The object a path names. *)
Definition objectAt (path : string) : list byte :=
  match ParseObjectURI parse path scheme with Some (bucket, key) => objects bucket key | None => [] end.

Lemma validateResponse_None output offset length expectedSize : 0 <= offset -> 1 <= length -> offset + length <= expectedSize < 2 ^ 63 ->
  validateResponse output offset length expectedSize = None ->
  oo_ContentLength output = Some length /\
  exists value, oo_ContentRange output = Some value /\ ParseContentRange value = Some (offset, offset + length - 1, expectedSize).
Proof.
  intros Ho Hl He. unfold validateResponse. rewrite (lastByte _ _ expectedSize) by lia.
  destruct (negb _) eqn:Hn; [done|]. apply negb_false_iff, bool_decide_eq_true in Hn.
  destruct (oo_ContentRange output) as [value|]; [|done]. destruct (ParseContentRange value) as [[[s e] t]|] eqn:Hp; [|done].
  destruct (_ || _ || _) eqn:Hb; [done|]. intros _. split; [done|]. exists value. split; [done|]. rewrite Hp. repeat f_equal; lia.
Qed.

Lemma objectOpen_inr attempt r body : request64 r -> objectOpen scheme parse nilContext client attempt r = inr body ->
  exists getObject bucket key n output value,
    client = Some getObject /\ ParseObjectURI parse (rq_Path r) scheme = Some (bucket, key) /\ adapterRange r = inr (rq_Offset r, n) /\
    getObject attempt bucket key (rangeHeader (rq_Offset r) (rq_Offset r + n - 1)) = inr (Some output) /\ oo_Body output = Some body /\
    oo_ContentLength output = Some n /\ oo_ContentRange output = Some value /\
    ParseContentRange value = Some (rq_Offset r, rq_Offset r + n - 1, rq_ExpectedSize r).
Proof.
  intros H64 H. unfold objectOpen, objectRequest in H. destruct client as [getObject|]; [|done]. destruct nilContext; [done|].
  unfold objectParseURI in H. destruct (ParseObjectURI parse (rq_Path r) scheme) as [[bucket key]|] eqn:Hu; [|done].
  destruct (adapterRange r) as [|[o n]] eqn:Hr; [done|]. apply adapterRange_inr in Hr as Hx; [|done]. destruct Hx as (-> & _ & Ho & Hn & He & _).
  rewrite (lastByte _ _ (rq_ExpectedSize r)) in H by lia.
  unfold objectAnswered in H. destruct (getObject _ _ _ _) as [|[output|]] eqn:Hg; [done| |done].
  destruct (oo_Body output) as [b|] eqn:Hb; [|done]. destruct (validateResponse _ _ _ _) eqn:Hv; [done|]. injection H as ->.
  apply validateResponse_None in Hv as (Hl & value & Hc & Hp); [|done..]. by exists getObject, bucket, key, n, output, value.
Qed.

Lemma objectOpen_faithful attempt r body : honestStore -> objectOpen scheme parse nilContext client attempt r = inr body ->
  rm_bytes body `prefix_of` drop (Z.to_nat (rq_Offset r)) (objectAt (rq_Path r)).
Proof.
  intros Hh H. unfold objectOpen, objectRequest, objectParseURI in H. unfold honestStore in Hh. unfold objectAt.
  destruct client as [getObject|]; [|done]. destruct nilContext; [done|].
  destruct (ParseObjectURI parse (rq_Path r) scheme) as [[bucket key]|]; [|done].
  destruct (adapterRange r) as [|[o n]] eqn:Hr; [done|].
  assert (o = rq_Offset r) as ->.
  { unfold adapterRange, ValidateRange in Hr. by repeat (case_match; simplify_eq). }
  unfold objectAnswered in H. destruct (getObject _ _ _ _) as [|[output|]] eqn:Hg; [done| |done].
  destruct (oo_Body output) as [b|] eqn:Hb; [|done]. destruct (validateResponse _ _ _ _) eqn:Hv; [done|]. injection H as ->.
  unfold validateResponse in Hv. destruct (negb _); [done|]. destruct (oo_ContentRange output) as [value|] eqn:Hc; [|done].
  destruct (ParseContentRange value) as [[[s e] t]|] eqn:Hp; [|done]. destruct (negb (s =? rq_Offset r)) eqn:Hs; [done|].
  assert (s = rq_Offset r) as <- by lia. by eapply Hh.
Qed.

(** What the three readers make of a stream of a complete object. *)
Lemma readComplete_inr open attempt r data : readComplete open attempt r = inr data ->
  exists body, open attempt (setRange 0 (rq_ExpectedSize r) r) = inr body /\ glen data = rq_ExpectedSize r /\ data `prefix_of` rm_bytes body.
Proof.
  unfold readComplete. case_match; [done|]. destruct (open _ _) as [|body]; [done|]. set (limit := if _ <? _ then _ else _).
  destruct (readAllLimited body limit) as [|d] eqn:Hd; [done|]. destruct (rm_close body); [done|].
  destruct (negb _) eqn:Hn; [done|]. intros [= ->]. exists body. split; [done|]. split; [lia|].
  unfold readAllLimited in Hd. destruct (limit <=? glen (rm_bytes body)); [injection Hd as <-; apply prefix_take|].
  destruct (rm_end body); [done|]. by injection Hd as <-.
Qed.

(** C33: An object store's reader is exact.  What it opens and what it reads are bytes of the object
    that the path names, from the offset of the request; it asks for a range inside the object
    that was advertised and within the limit, and accepts only an answer that says that it is that
    range of an object of that size, which it accepts from every store that says so; and a
    complete read gives as many bytes as were advertised, or an error. *)
Theorem object_reader_exact : honestStore ->
  FaithfulReader objectAt (StreamReader (objectOpen scheme parse nilContext client)) /\
  (forall attempt r data, objectRead scheme parse nilContext client attempt r = inr data ->
     glen data = rq_ExpectedSize r /\ data `prefix_of` objectAt (rq_Path r)) /\
  (forall attempt r body, request64 r -> objectOpen scheme parse nilContext client attempt r = inr body ->
     exists bucket key n output, ParseObjectURI parse (rq_Path r) scheme = Some (bucket, key) /\
       0 <= rq_Offset r /\ 1 <= n /\ rq_Offset r + n <= rq_ExpectedSize r /\ (rq_MaxBytes r <> 0 -> n <= rq_MaxBytes r) /\
       (default (fun _ _ _ _ => inr None) client) attempt bucket key (rangeHeader (rq_Offset r) (rq_Offset r + n - 1)) = inr (Some output) /\
       oo_Body output = Some body /\ oo_ContentLength output = Some n /\
       (ParseContentRange <$> oo_ContentRange output) = Some (Some (rq_Offset r, rq_Offset r + n - 1, rq_ExpectedSize r))) /\
  (forall getObject attempt r bucket key n body, client = Some getObject -> nilContext = false -> request64 r ->
     ParseObjectURI parse (rq_Path r) scheme = Some (bucket, key) -> adapterRange r = inr (rq_Offset r, n) ->
     getObject attempt bucket key (rangeHeader (rq_Offset r) (rq_Offset r + n - 1)) =
       inr (Some (MkObjectOutput (Some body) (Some n) (Some (contentRange (rq_Offset r) (rq_Offset r + n - 1) (rq_ExpectedSize r))))) ->
     objectOpen scheme parse nilContext client attempt r = inr body).
Proof.
  intros Hh. split_and!.
  - intros attempt r stream H. by eapply objectOpen_faithful.
  - intros attempt r data H. apply readComplete_inr in H as (body & Ho & Hl & Hp). split; [done|].
    apply objectOpen_faithful in Ho; [|done]. cbn in Ho. by etrans.
  - intros attempt r body H64 H. apply objectOpen_inr in H as (get & bucket & key & n & output & value & -> & Hu & Hr & Hg & Hb & Hl & Hc & Hp); [|done].
    apply adapterRange_inr in Hr as (_ & _ & ? & ? & ? & ?); [|done]. exists bucket, key, n, output. rewrite Hc. cbn. rewrite Hp. split_and!; [done..|lia|done|done|done|done|done].
  - intros get attempt r bucket key n body -> -> H64 Hu Hr Hg. apply adapterRange_inr in Hr as Hx; [|done]. destruct Hx as (_ & _ & Ho & Hn & He & _).
    unfold objectOpen, objectRequest, objectParseURI. rewrite Hu, Hr, (lastByte _ _ (rq_ExpectedSize r)) by lia. rewrite Hg.
    unfold objectAnswered, validateResponse. cbn. rewrite bool_decide_true by done. cbn. rewrite ParseContentRange_written by lia.
    rewrite (lastByte _ _ (rq_ExpectedSize r)) by lia. by rewrite !Z.eqb_refl.
Qed.
End Object.

(** ** HDFS *)

Section HDFS.
Context (parse : string -> option adapterURL) (nilContext : bool).
Context (opener : option (Z -> string -> string -> option FileSystemSecurityToken -> remoteError + option hdfsFile)).
Context (ctxErr : Z -> option remoteError) (files : string -> string -> list byte).

(** Every time a file is opened its bytes are those of [files]. *)
Definition hdfsFiles : Prop :=
  match opener with
  | None => True
  | Some open => forall attempt authority path token file, open attempt authority path token = inr (Some file) -> hf_content file = files authority path
  end.

Definition hdfsFileAt (path : string) : list byte :=
  match hdfsParseURI parse path with inr (authority, path) => files authority path | inl _ => [] end.

(** What an operation that failed has to undo, given how far it came. *)
Definition undone (attempt : Z) (r : RemoteFileRequest) : list hdfsEvent :=
  match opener, nilContext, hdfsParseURI parse (rq_Path r), adapterRange r with
  | Some open, false, inr (authority, path), inr _ =>
    clearToken (rq_Token r) ++ match open attempt authority path (rq_Token r) with inr (Some _) => [CloseFile] | _ => [] end
  | _, _, _, _ => []
  end.

Lemma hdfsOpen_inl attempt r e : (hdfsOpen parse nilContext opener ctxErr attempt r).1 = inl e ->
  (hdfsOpen parse nilContext opener ctxErr attempt r).2 = undone attempt r.
Proof.
  unfold hdfsOpen, undone. destruct opener as [open|]; [|done]. destruct nilContext; [done|].
  destruct (hdfsParseURI parse (rq_Path r)) as [|[a p]]; [done|]. destruct (adapterRange r) as [|[o n]]; [done|].
  destruct (open _ _ _ _) as [|[file|]]; cbn; rewrite ?app_nil_r; [done| |done].
  destruct (ctxErr attempt); [done|]. destruct (hf_info file) as [[[] size]|]; cbn; [done| |done]. by destruct (negb _).
Qed.

Lemma hdfsOpen_inr attempt r stream : (hdfsOpen parse nilContext opener ctxErr attempt r).1 = inr stream ->
  (hdfsOpen parse nilContext opener ctxErr attempt r).2 = [] /\
  exists open authority path n file, opener = Some open /\ hdfsParseURI parse (rq_Path r) = inr (authority, path) /\
    adapterRange r = inr (rq_Offset r, n) /\ open attempt authority path (rq_Token r) = inr (Some file) /\
    hf_info file = Some (false, rq_ExpectedSize r) /\ stream = hdfsStream file (rq_Offset r) n.
Proof.
  unfold hdfsOpen. destruct opener as [open|]; [|done]. destruct nilContext; [done|].
  destruct (hdfsParseURI parse (rq_Path r)) as [|[a p]]; [done|]. destruct (adapterRange r) as [|[o n]] eqn:Hr; [done|].
  assert (o = rq_Offset r) as -> by (unfold adapterRange, ValidateRange in Hr; by repeat (case_match; simplify_eq)).
  destruct (open _ _ _ _) as [|[file|]] eqn:Hf; [done| |done].
  destruct (ctxErr attempt); [done|]. destruct (hf_info file) as [[[] size]|] eqn:Hi; cbn; [done| |done].
  destruct (negb _) eqn:Hn; [done|]. intros [= <-]. split; [done|]. exists open, a, p, n, file.
  assert (size = rq_ExpectedSize r) as -> by lia. by split_and!.
Qed.

(** The HDFS reader is exact and tidy.  What it gives are bytes of the file that the path names,
    from the offset of the request, a complete read as many as were advertised; it opens only a
    file of the advertised size; and when it fails it has cleared its copy of the token, once, if
    the opener was asked, and closed the file, once, if there was one, and else neither. *)
Theorem hdfs_reader_exact : hdfsFiles ->
  let open attempt r := (hdfsOpen parse nilContext opener ctxErr attempt r).1 in
  FaithfulReader hdfsFileAt (StreamReader open) /\
  (forall attempt r data, hdfsRead parse nilContext opener ctxErr attempt r = inr data ->
     glen data = rq_ExpectedSize r /\ data `prefix_of` hdfsFileAt (rq_Path r)) /\
  (forall attempt r, match open attempt r with
     | inr _ => (hdfsOpen parse nilContext opener ctxErr attempt r).2 = []
     | inl _ => (hdfsOpen parse nilContext opener ctxErr attempt r).2 = undone attempt r
     end).
Proof.
  intros Hf open.
  assert (forall attempt r stream, open attempt r = inr stream -> rm_bytes stream `prefix_of` drop (Z.to_nat (rq_Offset r)) (hdfsFileAt (rq_Path r))) as F.
  { intros attempt r stream H. apply hdfsOpen_inr in H as (_ & op & a & p & n & file & Hop & Hu & _ & Ho & _ & ->).
    unfold hdfsFileAt. rewrite Hu. unfold hdfsFiles in Hf. rewrite Hop in Hf. rewrite <- (Hf _ _ _ _ _ Ho). unfold hdfsStream.
    destruct (hf_interrupted file) as [[k e]|]; cbn; [|apply prefix_take]. etrans; apply prefix_take. }
  split_and!; [exact F| |].
  - intros attempt r data H. apply readComplete_inr in H as (body & Ho & Hl & Hp). split; [done|]. apply F in Ho. cbn in Ho. by etrans.
  - intros attempt r. subst open. cbn. destruct (_.1) eqn:E; [by apply (hdfsOpen_inl _ _ r0)|by apply hdfsOpen_inr in E as [? _]].
Qed.
End HDFS.

(** *** Closing *)

Record closerInv (token : option FileSystemSecurityToken) (c : closer) : Prop := {
  ci_events : rc_events c = if rc_done c then CloseFile :: clearToken token else [];
  ci_returned i : rc_calls c !! i = Some CallReturned -> rc_done c = true;
  ci_after : match rc_after c with
             | AfterPending => rc_calls c = [] /\ rc_done c = false
             | AfterStopped => rc_done c = true \/ exists i, rc_calls c !! i = Some CallClosing
             | AfterStarted => True
             | AfterOver => rc_done c = true
             end;
}.

Lemma closeReachable_inv token c : closeReachable token c -> closerInv token c.
Proof.
  induction 1 as [|c c' _ [He Hr Ha] Hs]; [by constructor|]. destruct Hs as [c Hc|c Hc|c|c i Hi|c i Hi Hd].
  - by constructor.
  - unfold closeOnce, setAfter. cbn. destruct (rc_done c) eqn:Hd; constructor; cbn; rewrite ?Hd; try done. by rewrite He.
  - unfold callClose. destruct (rc_after c) eqn:Hc; constructor; cbn; try done;
      try (intros i [H|[_ H]]%lookup_app_Some; [by eapply Hr|]; by apply list_lookup_singleton_Some in H as [_ ?]).
    + right. exists (length (rc_calls c)). rewrite lookup_app_r, Nat.sub_diag by lia. done.
    + destruct Ha as [Hd|[i Hi]]; [by left|right; exists i; by apply lookup_app_l_Some].
  - assert (rc_done (closeOnce token c) = true /\ rc_events (closeOnce token c) = CloseFile :: clearToken token /\ rc_after (closeOnce token c) = rc_after c)
      as (Hd & He' & Ha') by (unfold closeOnce; destruct (rc_done c) eqn:Hd; cbn; rewrite ?He; by split_and!).
    constructor; cbn; rewrite ?Hd, ?Ha'; [done..|]. destruct (rc_after c); [|by left|done|done]. destruct Ha as [Ha _]. by rewrite Ha in Hi.
  - constructor; cbn; [done|done|]. destruct (rc_after c); [|by left|done|done]. destruct Ha as [Ha _]. by rewrite Ha in Hi.
Qed.

(** However the calls to [Close] and the end of the context interleave, the file of an HDFS
    stream is closed once and its token cleared after it, both before any call returns; and a
    call that waits is let go: [close] has run, or the context's function or another call is
    about to run it. *)
Theorem hdfs_close_once token c : closeReachable token c ->
  rc_events c = (if rc_done c then CloseFile :: clearToken token else []) /\
  (forall i, rc_calls c !! i = Some CallReturned -> rc_done c = true) /\
  (forall i, rc_calls c !! i = Some CallWaiting ->
     closeStep token c (setCall i CallReturned c) \/
     exists c', closeStep token c c' /\ rc_done c' = true /\ closeStep token c' (setCall i CallReturned c')).
Proof.
  intros R. destruct (closeReachable_inv token c R) as [He Hr Ha]. split_and!; [done|done|]. intros i Hi.
  destruct (rc_done c) eqn:Hd; [left; by constructor|right].
  destruct (rc_after c) eqn:Hc.
  - destruct Ha as [Ha _]. by rewrite Ha in Hi.
  - destruct Ha as [|[j Hj]]; [done|]. exists (setCall j CallWaiting (closeOnce token c)).
    assert (rc_done (setCall j CallWaiting (closeOnce token c)) = true) as Hd' by (unfold closeOnce; cbn; by rewrite Hd).
    split; [by constructor|]. split; [done|].
    assert (rc_calls (setCall j CallWaiting (closeOnce token c)) !! i = Some CallWaiting) as Hw.
    { unfold closeOnce. rewrite Hd. cbn. rewrite list_lookup_insert_ne; [done|]. intros ->. congruence. }
    by constructor.
  - exists (closeOnce token (setAfter AfterOver c)).
    assert (rc_done (closeOnce token (setAfter AfterOver c)) = true) as Hd' by (unfold closeOnce; cbn; by rewrite Hd).
    split; [by constructor|]. split; [done|].
    assert (rc_calls (closeOnce token (setAfter AfterOver c)) !! i = Some CallWaiting) as Hw by (unfold closeOnce; cbn; by rewrite Hd).
    by constructor.
  - congruence.
Qed.

(** ** Instances: an object and a file of five bytes *)

Definition adapterParse (raw : string) : option adapterURL :=
  if bool_decide (raw = "s3://b/a%20k"%string) then Some (MkAdapterURL "s3" "b" false "" "" "/a%20k")
  else if bool_decide (raw = "hdfs://n:8020/f"%string) then Some (MkAdapterURL "hdfs" "n:8020" false "" "" "/f")
  else None.

Definition fiveBytes : list byte := byte.of_Z <$> [1; 2; 3; 4; 5].

(** A store that answers two ranges. *)
Definition demoStore (attempt : Z) (bucket key header : string) : remoteError + option objectOutput :=
  if bool_decide (header = "bytes=1-3"%string) then
    inr (Some (MkObjectOutput (Some (MkRemoteStream (take 3 (drop 1 fiveBytes)) None None)) (Some 3) (Some "bytes 1-3/5"%string)))
  else if bool_decide (header = "bytes=0-4"%string) then
    inr (Some (MkObjectOutput (Some (MkRemoteStream fiveBytes None None)) (Some 5) (Some "bytes 0-4/5"%string)))
  else inl (errorOf SentNotExist).

Lemma demoStore_honest : honestStore (Some demoStore) (fun _ _ => fiveBytes).
Proof.
  intros attempt bucket key header output body value start end_ total H Hb Hc Hp. unfold demoStore in H.
  case_bool_decide; [|case_bool_decide; [|done]]; injection H as <-; injection Hb as <-; injection Hc as <-; vm_compute in Hp; injection Hp as <- <- <-.
  - exists [byte.of_Z 5]. reflexivity.
  - exists []. reflexivity.
Qed.

Lemma object_reader_exact_witness :
  s3OpenRemoteFile adapterParse false (Some demoStore) 1 (MkRemoteRequest "s3://b/a%20k" 5 0 1 3 None)
    = inr (MkRemoteStream (take 3 (drop 1 fiveBytes)) None None) /\
  glen fiveBytes = 5 /\ fiveBytes `prefix_of` objectAt "s3" adapterParse (fun _ _ => fiveBytes) "s3://b/a%20k".
Proof.
  destruct (object_reader_exact "s3" adapterParse false (Some demoStore) (fun _ _ => fiveBytes) demoStore_honest) as (_ & Hr & _ & Ho). split.
  - apply (Ho demoStore 1 (MkRemoteRequest "s3://b/a%20k" 5 0 1 3 None) "b" "a k" 3); try reflexivity. split_and!; reflexivity.
  - apply (Hr 1 (MkRemoteRequest "s3://b/a%20k" 5 0 0 0 None) fiveBytes). reflexivity.
Defined.

Definition demoHdfs (attempt : Z) (authority path : string) (token : option FileSystemSecurityToken) : remoteError + option hdfsFile :=
  inr (Some (MkHdfsFile (Some (false, if attempt =? 1 then 5 else 6)) fiveBytes None None)).

Lemma hdfs_reader_exact_witness :
  glen fiveBytes = 5 /\ fiveBytes `prefix_of` hdfsFileAt adapterParse (fun _ _ => fiveBytes) "hdfs://n:8020/f" /\
  (hdfsOpen adapterParse false (Some demoHdfs) (fun _ => None) 2 (MkRemoteRequest "hdfs://n:8020/f" 5 0 0 0 None)).2 = [CloseFile].
Proof.
  destruct (hdfs_reader_exact adapterParse false (Some demoHdfs) (fun _ => None) (fun _ _ => fiveBytes)) as (_ & Hr & Hu).
  { intros attempt authority path token file H. injection H as <-. reflexivity. }
  destruct (Hr 1 (MkRemoteRequest "hdfs://n:8020/f" 5 0 0 0 None) fiveBytes) as [Hl Hp]; [reflexivity|].
  split; [exact Hl|]. split; [exact Hp|]. exact (Hu 2 (MkRemoteRequest "hdfs://n:8020/f" 5 0 0 0 None)).
Defined.

(** The context ends while a call waits. *)
Definition closedStream : closer := MkCloser AfterOver true [CloseFile] [CallWaiting].

Lemma hdfs_close_once_witness :
  closeReachable None closedStream /\ rc_events closedStream = [CloseFile] /\
  (closeStep None closedStream (setCall 0 CallReturned closedStream) \/
   exists c', closeStep None closedStream c' /\ rc_done c' = true /\ closeStep None c' (setCall 0 CallReturned c')).
Proof.
  assert (closeReachable None closedStream) as R.
  { eapply closer_step; [eapply closer_step; [eapply closer_step; [apply closer_new|]|]|].
    - apply close_ctx_ends. reflexivity.
    - apply close_call.
    - exact (close_after None (MkCloser AfterStarted false [] [CallWaiting]) eq_refl). }
  split; [exact R|]. destruct (hdfs_close_once None closedStream R) as (He & _ & Hw). split; [exact He|]. apply (Hw 0%nat). reflexivity.
Defined.
