(* ===== verification/Tables.v ===== *)
(** * Tables and their schemas

    Models [Client.GetTable], [resolveSchema] and [fetchSchema] of [pkg/fgo/model.go] and
    [resolverFor] of [schema_resolver.go], over the schema cache (SchemaCache.v): how a table is
    put together from two replies of the coordinator.

    The replies are arguments, in the form [encoding/json] finds their documents. *)

From stdpp Require Import sorting.
From S2P Require Import Prelude Model SchemaJSON DecodeSafety Errors SchemaCache.

(** The document of a table, as far as [GetTable] reads it. *)
Record tableDescriptorJSON := MkTableDescriptorJSON {
  ds_bucket_key : list string;
  ds_partition_key : list string;
  ds_bucket_count : Z;
  ds_properties : option (gmap string string);
}.

(** [GetTableInfoResponse]: no document, one that is not one, or a document. *)
Record tableInfo := MkTableInfo {
  gi_TableId : Z;
  gi_SchemaId : Z;
  gi_TableJson : option (option tableDescriptorJSON);
  gi_BucketCountEpoch : option Z;
  gi_RemoteDataDir : string;
}.

(** [GetTableSchemaResponse]: the identifier it is of, and the document. *)
Record tableSchema := MkTableSchema { gs_SchemaId : Z; gs_SchemaJson : option schemaJSON }.

(** A reply: [None] when it is of another type. *)
Definition reply (A : Type) : Type := outcome (option A).

Section Tables.
Context (range : gmap schemaCacheKey schemaCacheEntry -> list (schemaCacheKey * schemaCacheEntry)).

Definition fetchSchema (answer : reply tableSchema) (schemaID : Z) : outcome Schema :=
  message ← answer;
  match message with
  | None => Err (ErrText "unexpected response")
  | Some message =>
    if negb (gs_SchemaId message =? schemaID) then Err ErrInvalidSchema
    else match gs_SchemaJson message with None => Err ErrInvalidSchema | Some body => ParseSchemaJSON body end
  end.

(** [Client.resolveSchema]: the cache, or the coordinator for a client without one. *)
Definition clientSchema (answer : reply tableSchema) (path : TablePath) (schemaID : Z) (c : option schemaCache)
    : outcome (option schemaCache * outcome Schema) :=
  match c with
  | None => Ok (None, fetchSchema answer schemaID)
  | Some c => '(c, schema) ← resolveSchema range (fetchSchema answer schemaID) true path schemaID c; Ok (Some c, schema)
  end.

Definition setKeys (bucketKey partitionKey : list string) (s : Schema) : Schema :=
  MkSchema (sch_Columns s) (sch_PrimaryKey s) bucketKey partitionKey (sch_AutoIncrement s) (sch_HighestFieldID s).

(** The table of a reply and its schema. *)
Definition tableOf (path : TablePath) (info : tableInfo) (schema : Schema) : outcome Table :=
  '(schema, descriptor) ← match gi_TableJson info with
    | None => Ok (schema, MkTableDescriptorJSON [] [] 0 None)
    | Some None => Err ErrInvalidSchema
    | Some (Some d) =>
      let schema := setKeys (ds_bucket_key d) (ds_partition_key d) schema in
      _ ← Schema_Validate schema; Ok (schema, d)
    end;
  let kind := match sch_PrimaryKey schema with [] => LogTable | _ => PrimaryKeyTable end in
  Ok (MkTable (gi_TableId info) (gi_SchemaId info) path kind schema (ds_bucket_count descriptor)
        (default 0 (gi_BucketCountEpoch info)) (bool_decide (is_Some (gi_BucketCountEpoch info))) (gi_RemoteDataDir info)
        (ds_properties descriptor)).

Definition GetTable (closed : bool) (path : TablePath) (infoAnswer : reply tableInfo) (schemaAnswer : reply tableSchema)
    (c : option schemaCache) : outcome (option schemaCache * outcome Table) :=
  if closed then Ok (c, Err ErrClosed)
  else match TablePath_Validate path with
  | Ok _ =>
    match infoAnswer with
    | Ok (Some info) =>
      '(c, schema) ← clientSchema schemaAnswer path (gi_SchemaId info) c;
      match schema ← schema; tableOf path info schema with
      | Ok table =>
        match c with
        | None => Ok (None, Ok table)
        | Some c => c ← store range path (tab_SchemaID table) (tab_Schema table) c; Ok (Some c, Ok table)
        end
      | e => Ok (c, e)
      end
    | Ok None => Ok (c, Err (ErrText "unexpected response"))
    | Err e => Ok (c, Err e)
    | Panic => Panic
    | OutOfFuel => OutOfFuel
    end
  | Err e => Ok (c, Err e)
  | Panic => Panic
  | OutOfFuel => OutOfFuel
  end.

(** [resolverFor], for a source that has the client's resolver: what the table says is cached. *)
Definition resolverFor (table : Table) (c : option schemaCache) : outcome (option schemaCache) :=
  match c with
  | None => Ok None
  | Some c => c ← store range (tab_Path table) (tab_SchemaID table) (tab_Schema table) c; Ok (Some c)
  end.
End Tables.

(** ** Theorems *)

Section Theorems.
Context (range : gmap schemaCacheKey schemaCacheEntry -> list (schemaCacheKey * schemaCacheEntry)).
Context (range_perm : forall entries, range entries ≡ₚ map_to_list entries).

(** An open cache that can ask, with room on its clock. *)
Definition working (room : Z) (c : schemaCache) : Prop :=
  exists a, refines c a /\ 1 <= ca_max c /\ ca_closed c = false /\ ca_fetch c = true /\ ca_clock c + room < 2 ^ 64.

Lemma insert_holds c a key schema : refines c a -> 1 <= ca_max c -> ca_closed c = false -> ca_clock c + 1 < 2 ^ 64 ->
  exists c' a', insertEntryLocked range key schema c = Ok c' /\ refines c' a' /\ holds key schema c' /\
    ca_max c' = ca_max c /\ ca_fetch c' = ca_fetch c /\ ca_clock c' = ca_clock c + 1.
Proof.
  intros R Hm Hc Hw. destruct (insertEntry_refines range range_perm c a key schema R ltac:(lia) Hw) as (c' & E & R' & ? & ? & ?).
  exists c', (lruPut (ca_max c) key schema a). split_and!; try done.
  eapply (commit_holds range range_perm key schema schema c a c' R); [lia..|]. unfold commitFetched. by rewrite Hc, E.
Qed.

Lemma store_holds path schemaID schema c a : refines c a -> 1 <= ca_max c -> ca_closed c = false -> ca_clock c + 1 < 2 ^ 64 ->
  TablePath_Validate path = Ok tt -> 0 <= schemaID -> Schema_Validate schema = Ok tt ->
  exists c' a', store range path schemaID schema c = Ok c' /\ refines c' a' /\ holds (path, schemaID) schema c' /\
    ca_max c' = ca_max c /\ ca_fetch c' = ca_fetch c /\ ca_clock c' = ca_clock c + 1.
Proof.
  intros R Hm Hc Hw Hp Hi Hs. unfold store. rewrite Hp, Hs. cbn. replace (schemaID <? 0) with false by lia. cbn. rewrite Hc.
  by eapply insert_holds.
Qed.

Lemma cached_step c a key schema : refines c a -> ca_clock c + 1 < 2 ^ 64 -> holds key schema c ->
  exists c' a', cached key c = (c', Ok (Some schema)) /\ refines c' a' /\ holds key schema c' /\
    ca_max c' = ca_max c /\ ca_fetch c' = ca_fetch c /\ ca_clock c' <= ca_clock c + 1.
Proof.
  intros R Hw H. destruct (cached_refines c a key R Hw) as (c' & E & R' & ? & ? & ?).
  destruct (cached_hit key schema c H) as (c2 & E2 & Hh2). rewrite E2 in E. injection E as -> _.
  eexists _, _. split_and!; [exact E2|exact R'|done..|lia].
Qed.

Lemma ParseSchemaJSON_valid d s : ParseSchemaJSON d = Ok s -> Schema_Validate s = Ok tt.
Proof.
  unfold ParseSchemaJSON. intros (columns & _ & H)%bind_Ok. apply bind_Ok in H as ([] & H & [= <-]). done.
Qed.

Lemma ParseSchemaJSON_returns d : returns (ParseSchemaJSON d) = true.
Proof.
  unfold ParseSchemaJSON. apply bind_returns; [|intros columns _; apply bind_returns; [apply Schema_Validate_returns|done]].
  induction (sj_Columns d) as [|c columns IH]; [done|]. cbn [parseColumns].
  apply bind_returns; [apply LogicalType_Validate_returns|intros _ _]. by apply bind_returns.
Qed.

Lemma fetchSchema_returns answer schemaID : returns answer = true -> returns (fetchSchema answer schemaID) = true.
Proof.
  intros H. unfold fetchSchema. apply bind_returns; [done|]. intros [message|] _; [|done]. case_match; [done|].
  destruct (gs_SchemaJson message); [|done]. apply ParseSchemaJSON_returns.
Qed.

Lemma fetchSchema_valid answer schemaID s : fetchSchema answer schemaID = Ok s -> Schema_Validate s = Ok tt.
Proof.
  unfold fetchSchema. intros (message & _ & H)%bind_Ok. destruct message as [message|]; [|done]. case_match; [done|].
  destruct (gs_SchemaJson message); [|done]. by eapply ParseSchemaJSON_valid.
Qed.

Lemma tableOf_Ok path info s t : Schema_Validate s = Ok tt -> tableOf path info s = Ok t ->
  Schema_Validate (tab_Schema t) = Ok tt /\ tab_ID t = gi_TableId info /\ tab_SchemaID t = gi_SchemaId info /\ tab_Path t = path /\
  (tab_Kind t = PrimaryKeyTable <-> sch_PrimaryKey (tab_Schema t) <> []) /\ sch_Columns (tab_Schema t) = sch_Columns s /\
  tableOf path info (tab_Schema t) = Ok t.
Proof.
  intros Hs. unfold tableOf. destruct (gi_TableJson info) as [[d|]|]; cbn; [|done|].
  - intros ([s' d'] & H & [= <-])%bind_Ok. apply bind_Ok in H as ([] & Hv & [= <- <-]). cbn. unfold setKeys in *. cbn. rewrite Hv. cbn.
    split_and!; try done. destruct (sch_PrimaryKey s); split; done.
  - intros [= <-]. cbn. split_and!; try done. destruct (sch_PrimaryKey s); split; done.
Qed.

(** A table whose schema is cached comes from the cache, whatever the coordinator would answer. *)
Lemma get_table_cached path info c schema t : working 2 c -> TablePath_Validate path = Ok tt -> 0 <= gi_SchemaId info ->
  Schema_Validate schema = Ok tt -> holds (path, gi_SchemaId info) schema c -> tableOf path info schema = Ok t ->
  forall answer, exists c', GetTable range false path (Ok (Some info)) answer (Some c) = Ok (Some c', Ok t).
Proof.
  intros (a & R & Hm & Hc & Hf & Hw) Hp Hi Hs Hh Ht answer. apply tableOf_Ok in Ht as Hx; [|done]. destruct Hx as (Hv & _ & Hid & _).
  destruct (cached_step c a _ _ R ltac:(lia) Hh) as (c1 & a1 & E1 & R1 & H1 & M1 & F1 & K1).
  destruct (store_holds path (gi_SchemaId info) (tab_Schema t) c1 a1 R1 ltac:(lia) (proj1 H1) ltac:(lia) Hp Hi Hv) as (c2 & a2 & E2 & _).
  exists c2. unfold GetTable. rewrite Hp. cbn. unfold clientSchema, resolveSchema. cbn. rewrite Hp. replace (gi_SchemaId info <? 0) with false by lia.
  rewrite E1. cbn. rewrite Ht. cbn. rewrite Hid, E2. done.
Qed.

(** C34: A table is what the coordinator says.  With a cache that does not have the schema, [GetTable]
    gives the table put together from the two replies, or what is wrong with them; a table it
    gives has a valid schema, the identifiers of the reply, and a kind that agrees with its
    primary key; and from then on the schema is answered from the cache, without a request. *)
Theorem get_table_exact path info answer c : working 4 c -> TablePath_Validate path = Ok tt -> 0 <= gi_SchemaId info ->
  returns answer = true -> ca_entries c !! (path, gi_SchemaId info) = None ->
  let served := schema ← fetchSchema answer (gi_SchemaId info); tableOf path info schema in
  exists c', GetTable range false path (Ok (Some info)) answer (Some c) = Ok (Some c', served) /\
    forall t, served = Ok t ->
      Schema_Validate (tab_Schema t) = Ok tt /\ tab_ID t = gi_TableId info /\ tab_SchemaID t = gi_SchemaId info /\
      (tab_Kind t = PrimaryKeyTable <-> sch_PrimaryKey (tab_Schema t) <> []) /\
      forall answer', exists c'', GetTable range false path (Ok (Some info)) answer' (Some c') = Ok (Some c'', Ok t).
Proof.
  intros W Hp Hi Hr Hn served.
  enough (exists c', GetTable range false path (Ok (Some info)) answer (Some c) = Ok (Some c', served) /\
    forall t, served = Ok t -> Schema_Validate (tab_Schema t) = Ok tt /\ tab_ID t = gi_TableId info /\ tab_SchemaID t = gi_SchemaId info /\
      (tab_Kind t = PrimaryKeyTable <-> sch_PrimaryKey (tab_Schema t) <> []) /\
      tableOf path info (tab_Schema t) = Ok t /\ holds (path, gi_SchemaId info) (tab_Schema t) c' /\
      exists a, refines c' a /\ 1 <= ca_max c' /\ ca_fetch c' = true /\ ca_clock c' + 2 < 2 ^ 64) as (c' & E & Ht).
  { exists c'. split; [done|]. intros t Et. destruct (Ht t Et) as (? & ? & ? & ? & Hid & Hh & a & ? & ? & ? & ?). split_and!; [done..|].
    intros answer'. apply (get_table_cached path info c' (tab_Schema t) t); try done. exists a. split_and!; [done..|apply Hh|done|lia]. }
  destruct W as (a & R & Hm & Hc & Hf & Hw).
  assert (cached (path, gi_SchemaId info) c = (c, Ok None)) as Hmiss by (unfold cached; by rewrite Hc, Hn, Hf).
  unfold GetTable. rewrite Hp. cbn [TablePath_Validate]. unfold clientSchema, resolveSchema. cbn [negb]. rewrite Hp.
  replace (gi_SchemaId info <? 0) with false by lia. rewrite Hmiss. unfold fetchAndStore. rewrite Hmiss.
  pose proof (fetchSchema_returns answer (gi_SchemaId info) Hr) as Hret.
  destruct (fetchSchema answer (gi_SchemaId info)) as [schema|e| |] eqn:Hs; try done; [|by exists c].
  pose proof (fetchSchema_valid _ _ _ Hs) as Hv. cbn [mbind outcome_bind]. rewrite Hv. cbn [mbind outcome_bind].
  unfold commitFetched. rewrite Hc.
  destruct (insert_holds c a (path, gi_SchemaId info) schema R Hm Hc ltac:(lia)) as (c1 & a1 & E1 & R1 & H1 & M1 & F1 & K1).
  rewrite E1. cbn [mbind outcome_bind]. subst served. cbn [mbind outcome_bind].
  destruct (tableOf path info schema) as [t|e| |] eqn:Ht; [|by exists c1..].
  apply tableOf_Ok in Ht as Hx; [|done]. destruct Hx as (Hvt & Hid & Hsid & Hpath & Hkind & _ & Hidem).
  destruct (store_holds path (gi_SchemaId info) (tab_Schema t) c1 a1 R1 ltac:(lia) (proj1 H1) ltac:(lia) Hp Hi Hvt) as (c2 & a2 & E2 & R2 & H2 & M2 & F2 & K2).
  rewrite Hsid, E2. exists c2. split; [done|]. intros t' [= <-]. split_and!; try done. exists a2. split_and!; [done|lia|congruence|lia].
Qed.
End Theorems.

(** ** A table that was dropped and made again *)

(** The coordinator's documents of a table of one column. *)
Definition columnDocument (name : string) : schemaJSON :=
  MkSchemaJSON 1 [MkColumnJSON name (MkLogicalType "INTEGER" false 0 0 0 None None None []) "" 0] [] [] 0.

Definition infoOf (id : Z) : tableInfo := MkTableInfo id 1 (Some (Some (MkTableDescriptorJSON [] [] 4 None))) None "".
Definition schemaOf (name : string) : reply tableSchema := Ok (Some (MkTableSchema 1 (Some (columnDocument name)))).

(** [GetTable] of a table, and again after it was dropped and made with another column: the
    schemas of the two have the same path and the same identifier. *)
Definition recreated : outcome (outcome Table * outcome Table) :=
  '(c, first) ← GetTable map_to_list false (cachePath "t") (Ok (Some (infoOf 7))) (schemaOf "old") (Some (newSchemaCache 256 true));
  '(_, second) ← GetTable map_to_list false (cachePath "t") (Ok (Some (infoOf 8))) (schemaOf "new") c;
  Ok (first, second).

(** The cache knows schemas by path and identifier only.  Where the coordinator numbers the
    schemas of every table from one, the second call gives the identity of the new table with the
    columns of the old one. *)
Theorem recreated_table_stale :
  match recreated with
  | Ok (Ok first, Ok second) =>
    tab_ID first = 7 /\ col_Name <$> sch_Columns (tab_Schema first) = ["old"%string] /\
    tab_ID second = 8 /\ col_Name <$> sch_Columns (tab_Schema second) = ["old"%string] /\
    (served ← fetchSchema (schemaOf "new") 1; Ok (col_Name <$> sch_Columns served)) = Ok ["new"%string]
  | _ => False
  end.
Proof. vm_compute. by split_and!. Qed.

(** The first table. *)
Definition firstTable : Table :=
  MkTable 7 1 (cachePath "t") LogTable
    (MkSchema [MkColumn "old" IntType false (Some (MkLogicalType "INTEGER" false 0 0 0 None None None [])) "" 0] [] [] [] [] 0)
    4 0 false "" None.

Lemma firstTable_served : (schema ← fetchSchema (schemaOf "old") 1; tableOf (cachePath "t") (infoOf 7) schema) = Ok firstTable.
Proof. vm_compute. reflexivity. Qed.

Lemma get_table_exact_witness :
  exists c', GetTable map_to_list false (cachePath "t") (Ok (Some (infoOf 7))) (schemaOf "old") (Some (newSchemaCache 256 true))
    = Ok (Some c', Ok firstTable) /\
  forall answer', exists c'', GetTable map_to_list false (cachePath "t") (Ok (Some (infoOf 7))) answer' (Some c') = Ok (Some c'', Ok firstTable).
Proof.
  destruct (get_table_exact map_to_list (fun entries => Permutation_refl _) (cachePath "t") (infoOf 7) (schemaOf "old") (newSchemaCache 256 true))
    as (c' & E & Ht); [|reflexivity|discriminate|reflexivity|reflexivity|].
  - eexists. split; [apply refines_new; discriminate|]. split; [discriminate|]. split; [reflexivity|]. split; reflexivity.
  - exists c'. split; [rewrite E, <- firstTable_served; reflexivity|]. exact (proj2 (proj2 (proj2 (proj2 (Ht firstTable firstTable_served))))).
Defined.
