(* ===== verification/Connect.v ===== *)
(** * Opening and closing a client

    Models [connectionManager.open] and [bootstrap] of [pkg/fgo/connection_manager.go], and
    [Open], [Close], [shutdown] and the requests of a client ([client.go]): what is acquired
    while a client is opened, and that whatever was acquired is released when it fails.

    The network, TLS and the authenticator are the environment: how each step ends is an
    argument.  An error is the list of the errors it joins. *)

From S2P Require Import Prelude Model Errors Protocol Transport Metadata Client.

(** ** One connection *)

(** What an authenticator factory returns: an error, nil without an error, or an authenticator
    with which the exchange ends as given. *)
Inductive factoryAnswer := FactoryFailed (e : callError) | FactoryNil | FactoryMade (exchange : option callError).

(** How the steps of [open] end; [None] is success.  [ev_tls] and [ev_auth] are [None] where they
    are not configured. *)
Record connectEnv := MkConnectEnv {
  ev_dial : option callError;
  ev_tls : option (option callError);
  ev_closeErr : option callError;
  ev_limits : option callError;
  ev_versions : callError + option (list advertised * Z);
  ev_auth : option factoryAnswer;
}.

Inductive connectEvent := DialConn | CloseConn | MakeAuth | CloseAuth.

Record openedClient := MkOpened { oc_versions : gmap Z Z; oc_serverType : ServerType; oc_authenticated : bool }.

(** [closeAfterError]. *)
Definition closeAfterError (env : connectEnv) (err : callError) : list callError :=
  err :: match ev_closeErr env with Some e => [e] | None => [] end.

(** [Client.negotiate]. *)
Definition negotiateVersions (env : connectEnv) : callError + gmap Z Z * Z :=
  match ev_versions env with
  | inl e => inl e
  | inr None => inl (Plain (ErrText "unexpected response"))
  | inr (Some (versions, serverType)) =>
    match negotiate versions with Ok negotiated => inr (negotiated, serverType) | Err e => inl (Plain e) | _ => inl (Plain ErrUnsupportedAPI) end
  end.

(** [connectionManager.open]: its result, a panic where [auth.Close] is taken of a nil
    authenticator, and what it made and closed. *)
Definition openConnection (env : connectEnv) (expected : ServerType) : outcome (list callError + openedClient) * list connectEvent :=
  match ev_dial env with
  | Some e => (Ok (inl [e]), [])
  | None =>
    match ev_tls env with
    | Some (Some e) => (Ok (inl (closeAfterError env e)), [DialConn; CloseConn])
    | _ =>
      match ev_limits env with
      | Some e => (Ok (inl (closeAfterError env e)), [DialConn; CloseConn])
      | None =>
        match negotiateVersions env with
        | inl e => (Ok (inl [e]), [DialConn; CloseConn])
        | inr (versions, serverTypeID) =>
          match parseServerType serverTypeID with
          | Ok serverType =>
            if negb (bool_decide (serverType = expected)) then (Ok (inl [Plain ErrServerType]), [DialConn; CloseConn])
            else match ev_auth env with
                 | None => (Ok (inr (MkOpened versions serverType false)), [DialConn])
                 | Some (FactoryFailed e) => (Ok (inl [e]), [DialConn; CloseConn])
                 | Some FactoryNil => (Panic, [DialConn])
                 | Some (FactoryMade (Some e)) => (Ok (inl [e]), [DialConn; MakeAuth; CloseConn; CloseAuth])
                 | Some (FactoryMade None) => (Ok (inr (MkOpened versions serverType true)), [DialConn; MakeAuth])
                 end
          | Err e => (Ok (inl [Plain e]), [DialConn; CloseConn])
          | _ => (Ok (inl [Plain ErrServerType]), [DialConn; CloseConn])
          end
        end
      end
    end
  end.

(** [closeAll]: every function is called, and the first error is the result. *)
Fixpoint closeAll (closers : list (option (option callError))) : option callError * nat :=
  match closers with
  | [] => (None, 0%nat)
  | None :: closers => closeAll closers
  | Some err :: closers =>
    let '(rest, calls) := closeAll closers in (match err with Some e => Some e | None => rest end, S calls)
  end.

(** ** The first coordinator *)

(** [bootstrap]: [get n] is how the n-th server answers, [ctxEnds n] whether the context is over
    after it failed. *)
Section Bootstrap.
Context (get : nat -> string -> list callError + openedClient) (ctxEnds : nat -> bool).

Fixpoint bootstrapLoop (n : nat) (servers : list string) (failures : list callError) : (list callError + openedClient) * nat :=
  match servers with
  | [] => (inl failures, n)
  | address :: servers =>
    match get n address with
    | inr client => (inr client, S n)
    | inl errs => if ctxEnds n then (inl (failures ++ errs), S n) else bootstrapLoop (S n) servers (failures ++ errs)
    end
  end.

Definition bootstrap (servers : list string) : (list callError + openedClient) * nat := bootstrapLoop 0 servers [].

(** [Open]: whether token refresh was asked for, and what happens to the manager and the tokens. *)
Inductive openEvent := ManagerClosed | TokensStarted.

Definition Open (options : list (option ClientOption)) (tokens : bool) : (list callError + openedClient) * list openEvent :=
  match openConfig options with
  | Ok config =>
    match (bootstrap (cc_bootstrapServers config)).1 with
    | inl errs => (inl errs, [ManagerClosed])
    | inr client => (inr client, if tokens then [TokensStarted] else [])
    end
  | Err e => (inl [Plain e], [])
  | _ => (inl [Plain ErrInvalidConfig], [])
  end.
End Bootstrap.

(** ** Requests and the end of a client *)

Inductive closeEvent := StopTokens | CloseSchemas | CloseManager | CloseTransport.

(** What a client is made of; a manager and a transport with what closing them returns. *)
Record clientParts := MkParts {
  cp_tokens : bool;
  cp_schemas : bool;
  cp_manager : option (option callError);
  cp_close : option (option callError);
}.

Definition ensureOpen (closed : bool) : option callError := if closed then Some ClientClosed else None.

Definition closeTransport (parts : clientParts) : option callError * list closeEvent :=
  match cp_close parts with Some err => (err, [CloseTransport]) | None => (None, []) end.

(** [Close], with [markClosed]. *)
Definition Close (parts : clientParts) (closed : bool) : bool * option callError * list closeEvent :=
  if closed then (true, None, [])
  else
    let before := (if cp_tokens parts then [StopTokens] else []) ++ (if cp_schemas parts then [CloseSchemas] else []) in
    match cp_manager parts with
    | Some err => (true, err, before ++ [CloseManager])
    | None => let '(err, events) := closeTransport parts in (true, err, before ++ events)
    end.

Definition shutdown (parts : clientParts) (closed : bool) : bool * option callError * list closeEvent :=
  if closed then (true, None, []) else let '(err, events) := closeTransport parts in (true, err, events).

Section Calls.
Context {Q R : Type} (closed : bool) (self : ServerNode) (coordinator : option ServerNode).
(** The manager's requests, where there is one, and the physical client's own. *)
Context (manager : option (ServerNode -> Q -> Metadata.result R)) (physical : Q -> Metadata.result R).

Definition RequestTo (node : ServerNode) (request : option Q) : Metadata.result R :=
  match request with
  | None => inr (Plain ErrInvalidArgument)
  | Some request =>
    match ensureOpen closed, manager with
    | Some e, _ => inr e
    | None, None => inr ClientClosed
    | None, Some send => send node request
    end
  end.

Definition ClientRequest (request : option Q) : Metadata.result R :=
  match request, manager with
  | None, _ => inr (Plain ErrInvalidArgument)
  | Some request, Some send => match ensureOpen closed with Some e => inr e | None => send self request end
  | Some request, None => physical request
  end.

Definition RequestCoordinator (request : option Q) : Metadata.result R :=
  match coordinator with None => ClientRequest request | Some node => RequestTo node request end.
End Calls.

(** Any number of calls to [Close] and [shutdown], in the order in which they mark the client. *)
Fixpoint closeCalls (parts : clientParts) (calls : list bool) (closed : bool) : list (option callError * list closeEvent) :=
  match calls with
  | [] => []
  | full :: calls =>
    let '(closed, err, events) := (if full then Close else shutdown) parts closed in (err, events) :: closeCalls parts calls closed
  end.

(** ** Theorems *)

Definition sameEvent (a b : connectEvent) : bool :=
  match a, b with DialConn, DialConn | CloseConn, CloseConn | MakeAuth, MakeAuth | CloseAuth, CloseAuth => true | _, _ => false end.

Fixpoint countEvent (e : connectEvent) (events : list connectEvent) : nat :=
  match events with [] => 0 | e' :: events => if sameEvent e e' then S (countEvent e events) else countEvent e events end.

(** C35: Opening a connection releases what it acquired.  When it fails, it has closed the connection
    if it was made, and the authenticator if it was made, once each, and says why; when it
    succeeds it has closed neither, the server is of the type that was asked for, its versions
    were negotiated, and a configured authentication succeeded.  The exception is an authenticator
    factory that returns nil without an error: then it panics and leaves the connection open. *)
Theorem open_connection_releases env expected :
  let '(answer, events) := openConnection env expected in
  match answer with
  | Ok (inl errs) => errs <> [] /\ countEvent CloseConn events = countEvent DialConn events /\ countEvent CloseAuth events = countEvent MakeAuth events /\
      (countEvent DialConn events <= 1)%nat /\ (countEvent MakeAuth events <= 1)%nat
  | Ok (inr client) => countEvent DialConn events = 1%nat /\ countEvent CloseConn events = 0%nat /\ countEvent CloseAuth events = 0%nat /\
      oc_serverType client = expected /\ is_Some (oc_versions client !! APIKeyApiVersions) /\
      (oc_authenticated client = true <-> is_Some (ev_auth env)) /\ (forall answer, ev_auth env = Some answer -> answer = FactoryMade None)
  | Panic => ev_auth env = Some FactoryNil /\ events = [DialConn]
  | _ => False
  end.
Proof.
  unfold openConnection. destruct (ev_dial env); [cbn; split_and!; (done || lia)|].
  destruct (ev_tls env) as [[e|]|]; [cbn; split_and!; (done || lia)|..];
  (destruct (ev_limits env); [cbn; split_and!; (done || lia)|]; unfold negotiateVersions;
   destruct (ev_versions env) as [|[[versions serverType]|]]; [cbn; split_and!; (done || lia)| |cbn; split_and!; (done || lia)];
   destruct (negotiate versions) as [negotiated| | |] eqn:Hn; [|cbn; split_and!; (done || lia)..];
   destruct (parseServerType serverType) as [t| | |]; [|cbn; split_and!; (done || lia)..];
   destruct (bool_decide (t = expected)) eqn:Ht; [apply bool_decide_eq_true in Ht; cbn|cbn; split_and!; (done || lia)];
   assert (is_Some (negotiated !! APIKeyApiVersions)) as Hv by
     (unfold negotiate in Hn; destruct (negotiateLoop versions ∅ !! APIKeyApiVersions) eqn:E; [injection Hn as <-; by eexists|done]);
   destruct (ev_auth env) as [[| |[]]|]; cbn; split_and!; try done; try lia; try (split; [by intros []|done]); try (by intros; eexists); try congruence).
Qed.

Section BootstrapTheorems.
Context (get : nat -> string -> list callError + openedClient) (ctxEnds : nat -> bool).

Lemma bootstrapLoop_spec servers : forall n failures, let '(answer, tried) := bootstrapLoop get ctxEnds n servers failures in
  exists k, tried = (n + k)%nat /\ (k <= length servers)%nat /\
  match answer with
  | inr client => exists i address, k = S i /\ servers !! i = Some address /\ get (n + i) address = inr client /\
      forall j address', (j < i)%nat -> servers !! j = Some address' -> ctxEnds (n + j) = false /\ exists errs, get (n + j) address' = inl errs
  | inl errs => (forall j address', (j < k)%nat -> servers !! j = Some address' -> exists e, get (n + j) address' = inl e /\ forall x, x ∈ e -> x ∈ errs) /\
      (forall x, x ∈ failures -> x ∈ errs) /\ (k = length servers \/ exists j, k = S j /\ ctxEnds (n + j) = true)
  end.
Proof.
  induction servers as [|address servers IH]; intros n failures; cbn [bootstrapLoop].
  - exists 0%nat. split_and!; [lia|cbn; lia|intros ? ? ?; lia|done|by left].
  - destruct (get n address) as [errs|client] eqn:Hg.
    + destruct (ctxEnds n) eqn:Hc.
      * exists 1%nat. split_and!; [lia|cbn; lia| |by intros x ?; apply elem_of_app; left|right; exists 0%nat; by rewrite Nat.add_0_r].
        intros [|j] a Hj Ha; [|lia]. injection Ha as <-. rewrite Nat.add_0_r. exists errs. split; [done|]. intros x Hx. apply elem_of_app. by right.
      * specialize (IH (S n) (failures ++ errs)). destruct (bootstrapLoop _ _ _ _ _) as [answer tried]. destruct IH as (k & -> & Hk & H).
        exists (S k). split; [lia|]. split; [cbn; lia|]. destruct answer as [errs'|client].
        -- destruct H as (Hj & Hf & He). split_and!.
           ++ intros [|j] a Hlt Ha; [injection Ha as <-; rewrite Nat.add_0_r; exists errs; split; [done|]; intros x Hx; apply Hf, elem_of_app; by right|].
              replace (n + S j)%nat with (S n + j)%nat by lia. apply Hj; [lia|done].
           ++ intros x Hx. apply Hf, elem_of_app. by left.
           ++ destruct He as [->|(j & -> & Hj')]; [by left|right; exists (S j); split; [done|]]. by replace (n + S j)%nat with (S n + j)%nat by lia.
        -- destruct H as (i & a & -> & Ha & Hi & Hj). exists (S i), a. replace (n + S i)%nat with (S n + i)%nat by lia. split_and!; [done..|].
           intros [|j] a' Hlt Ha'; [injection Ha' as <-; rewrite Nat.add_0_r; split; [done|by exists errs]|].
           replace (n + S j)%nat with (S n + j)%nat by lia. apply Hj; [lia|done].
    + exists 1%nat. split_and!; [lia|cbn; lia|]. exists 0%nat, address. rewrite Nat.add_0_r. split_and!; [done..|]. intros j a Hj. lia.
Qed.
End BootstrapTheorems.

(** [Open] asks the servers in their order and gives the first connection that can be made;
    when none can, or the context ends, it has closed the manager and gives every failure. *)
Theorem open_first options tokens get ctxEnds :
  match Open get ctxEnds options tokens with
  | (inr client, events) => events = (if tokens then [TokensStarted] else []) /\
      exists config i address, openConfig options = Ok config /\ cc_bootstrapServers config !! i = Some address /\ get i address = inr client /\
        forall j address', (j < i)%nat -> cc_bootstrapServers config !! j = Some address' -> ctxEnds j = false /\ exists errs, get j address' = inl errs
  | (inl errs, events) => match openConfig options with
      | Ok config => events = [ManagerClosed] /\ exists k, (k = length (cc_bootstrapServers config) \/ exists j, k = S j /\ ctxEnds j = true) /\
          forall j address, (j < k)%nat -> cc_bootstrapServers config !! j = Some address -> exists e, get j address = inl e /\ forall x, x ∈ e -> x ∈ errs
      | Err e => events = [] /\ errs = [Plain e]
      | _ => events = []
      end
  end.
Proof.
  unfold Open. destruct (openConfig options) as [config|e| |]; [|done..]. unfold bootstrap.
  pose proof (bootstrapLoop_spec get ctxEnds (cc_bootstrapServers config) 0 []) as H. destruct (bootstrapLoop _ _ _ _ _) as [[errs|client] tried]; cbn.
  - destruct H as (k & -> & _ & Hj & _ & He). split; [done|]. by exists k.
  - destruct H as (k & -> & _ & i & address & -> & Ha & Hg & Hj). split; [done|]. by exists config, i, address.
Qed.

(** A client is closed once.  Of any number of calls to [Close] and [shutdown] the first does all
    of it and has its error; the others do nothing and have none; and a request after it is
    refused, by the manager's clients without being sent. *)
Theorem client_closes_once {Q R} parts full calls self coordinator (manager : ServerNode -> Q -> Metadata.result R) physical request :
  closeCalls parts (full :: calls) false =
    (let '(_, err, events) := (if full then Close else shutdown) parts false in (err, events)) :: map (fun _ => (None, [])) calls /\
  (exists err, Close parts false = (true, err,
     (if cp_tokens parts then [StopTokens] else []) ++ (if cp_schemas parts then [CloseSchemas] else [])
     ++ match cp_manager parts, cp_close parts with Some _, _ => [CloseManager] | None, Some _ => [CloseTransport] | None, None => [] end)) /\
  RequestCoordinator true self coordinator (Some manager) physical (Some request) = inr ClientClosed.
Proof.
  assert (H : forall calls, closeCalls parts calls true = map (fun _ => (None, [])) calls)
    by (induction calls0 as [|[] calls0 IH]; [done|cbn; by rewrite IH..]).
  split_and!.
  - destruct full; cbn.
    + unfold Close. destruct (cp_manager parts); [by rewrite H|]. destruct (closeTransport parts). by rewrite H.
    + unfold shutdown. destruct (closeTransport parts). by rewrite H.
  - unfold Close, closeTransport. destruct (cp_manager parts) as [err|]; [|destruct (cp_close parts) as [err|]]; eexists; by rewrite <- ?app_assoc, ?app_nil_r.
  - by destruct coordinator.
Qed.
